(* ===== verification/_CoqProject ===== *)
-Q . S2P
Prelude.v
StateContext.v
SlotAlloc.v
Tables.v
Catalog.v
SqlCompiler.v
TxTable.v
Locks.v
S2PL.v
BOCC.v
Cuckoo.v
PBPTreeTable.v
PersistentTables.v
MVCC.v
MVCCProtocol.v
MVCCInterleaving.v
Stream.v
PubSub.v
Serialize.v
RDBTable.v
Extract.v
Operators.v
Files.v
Timestamps.v
PatternMining.v
Tracker.v
TxOperators.v
TxChopping.v
Tuplify.v
Windows.v
OrderedMap.v
Aggregates.v
Aggregation.v
Aggregators.v
Dataflow.v
Lifecycle.v
Pipelines.v
Wiring.v
Matrices.v
SparseMatrices.v
Joins.v
Elements.v
Cep.v
CepSequences.v
Floats.v
LinearRoad.v
Graphs.v
Debs.v
