(* ===== verification/Prelude.v ===== *)
(** * PipeFabric: a verification development

    PipeFabric ([src/], C++14) is a framework for stream queries: operators
    that exchange elements and punctuations over channels, tables that streams
    write and read under several concurrency controls, and a matcher for
    complex events.  This library models its core as executable definitions
    and proves what each part computes, where the parts meet, and at which
    inputs the code departs from what it documents.

    ** How code becomes definitions

    - One file per component; a class is a [Record] of its members, a method a
      definition from the state before the call to the state after it, under
      the method's name where Rocq allows it.
    - What a call publishes is part of its result: a list of [event]s
      ([Stream.v]), data with its [outdated] flag or a punctuation.
    - A call that can leave the defined behaviour of the program returns a
      [result] (below): reading past an array, a failing assertion, an erased
      element, a thrown exception.  [Err Waits] says that the call blocks or
      spins in the given state, seen from the calling thread.
    - Machine integers are [Z] with the wrap-around written out ([u32], [u64],
      [s16], ...); signed [int] arithmetic that overflows is [IntOverflow].
    - Containers with an order that matters are lists; [unordered_map]s are
      [gmap]s where nothing depends on their order, lists of entries compared
      up to permutation where something is published from them.
    - Template parameters (tuples, keys, user functions) are section variables.
      Code that is not in the repository is a class of operations with its
      documented laws ([Cuckoo.v]).
    - Interleavings are step relations ([Locks.v], [SlotAlloc.v], [Lifecycle.v],
      [MVCCInterleaving.v], [PubSub.v]) whose steps are the atomic accesses or the
      critical sections of the code, or functions from a schedule of threads
      ([Joins.v], [Debs.v]).

    ** The files

    Transactional state ([src/table/]):
    - [StateContext.v]: [StateContext.hpp/.cpp], transaction ids, the 64 slots of
      running transactions, read snapshots, the garbage horizon, topology
      groups; the branch-free bit scan and the hash of the Zipf generator.
    - [SlotAlloc.v]: any number of threads in the compare-exchange loops of
      [getSetFreePos] and [unsetPos]; a thread that finds the word full goes on to
      the undefined shift by 64.
    - [Tables.v]: [HashMapTable.hpp] with its iterator and observers, [ToTable.hpp],
      [FromTable.hpp]; the interface [TableOps]/[TableLaws] through which the
      transactional tables use a table.
    - [TxTable.v]: [LogBuffer.hpp] and [TxTable.hpp].
    - [Locks.v]: the three readers/writer locks, each method one step per
      critical section, and programs of many threads using them.
    - [S2PL.v], [BOCC.v], [MVCC.v]: [S2PLTable.hpp], [BOCCTable.hpp], [MVCCTable.hpp]
      over any [TableOps]; [MVCCProtocol.v] has the theorems on several calls,
      [MVCCInterleaving.v] the steps of a commit interleaved with its readers'.
    - [Cuckoo.v]: [CuckooTable.hpp], their default table, over libcuckoo's map;
      [PBPTreeTable.v], [RDBTable.v]: the tables on a persistent tree and on RocksDB;
      [PersistentTables.v]: [BDCCPTable.hpp], and the pool files of the tables in
      persistent memory.
    - [Catalog.v]: [TableInfo.hpp/.cpp] and the tables and streams by name in
      [PFabricContext.hpp/.cpp].

    Stream operators ([src/qop/]):
    - [Stream.v]: elements, punctuations, and an operator's run over its input.
    - [Operators.v]: the small operators ([Where], [Map], [StatefulMap], [Notify],
      [Merge], [Barrier], [Batcher], [StreamGenerator]), [Queue.hpp], and
      [PartitionBy.hpp] with the consumer threads of its queues as a step relation.
    - [Tuplify.v]: [Tuplifier.hpp], [JsonExtractor.hpp].
    - [TxOperators.v]: [ToTxTable.hpp], [ToMVCCTable.hpp], [FromTxTables.hpp],
      [SelectFromTxTable.hpp] over the interface [TxTableOps] of a group of tables with one context,
      instantiated with [MVCC.v]; between two reads other transactions run.
    - [Windows.v]: [Window.hpp], [SlidingWindow.hpp], [TumblingWindow.hpp].
    - [OrderedMap.v]: [std::map] with a comparator and its iterators.
    - [Aggregates.v]: the classes of [aggr_functions/] against the class
      [AggregateLaws], their common contract.
    - [Aggregation.v]: [Aggregation.hpp], [GroupedAggregation.hpp] and the state
      of [AggregateStateBase.hpp], for any aggregate with that contract;
      [Aggregators.v]: the aggregators of one to four functions.
    - [Joins.v]: [SHJoin.hpp], [ScaleJoin.hpp] with the queues and threads that
      [Pipe::scaleJoin] puts in front of its instances; [Elements.v]: the tuples they
      publish, [EagerElementJoin.hpp], and the reference counter of [Tuple.hpp].
    - [Matrices.v], [SparseMatrices.v]: [DenseMatrix.hpp] and [SparseMatrix.hpp] over
      an interface of Eigen's, [MatrixSlice.hpp], [MatrixMerge.hpp], [ToMatrix.hpp],
      [FromMatrix.hpp].

    Bytes, text and tuples ([src/core/], [src/qop/]):
    - [Serialize.v]: [serialize.hpp], [Tuple.hpp], the serialization of tuples and
      punctuations, [ZMQSink.hpp], [ZMQSource.cpp], [TupleDeserializer.hpp]; a type
      is a code [ty], its objects [denote ty].
    - [Extract.v]: [TupleExtractor.hpp] and the attribute parsers over a buffer
      of bytes, [TuplePrinter.hpp], the mapped reader of [TextFileSource.cpp].
    - [Files.v]: the other readers of [TextFileSource.cpp], [FileWriter.hpp],
      [ConsoleWriter.hpp], [MemorySource.hpp], [SelectFromTable.hpp],
      [SelectFromMVCCTable.hpp].
    - [Timestamps.v]: [TimestampHelper.hpp/.cpp].

    Channels ([src/pubsub/]):
    - [PubSub.v]: the signals [OneToManySignal.hpp] and [OneToOneSignal.hpp] behind
      the interface [SignalOps]/[SignalLaws], [OutputChannel.hpp], [InputChannel.hpp],
      [Channel.hpp], [Subscription.hpp], and [SynchronizedSlot.hpp] with threads.
    - [Wiring.v]: the subscriptions of a dataflow carried out on channels.

    Queries ([src/dsl/]):
    - [Dataflow.v]: the methods of [Pipe.hpp] and [Topology.hpp] as programs in a
      state and exception monad over the dataflow they build: the operators, the
      subscriptions between them, the partition tables.
    - [Lifecycle.v]: [Topology.cpp]: starting such a dataflow, in threads of its own
      or not, waiting for it and stopping it.
    - [Pipelines.v]: how such a dataflow runs, elements handed from call to call
      along the subscriptions, queues emptied by their threads.
    - [SqlCompiler.v]: [src/qcomp/], from the syntax tree of a query to the text of
      its program, and the cache of compiled queries.

    Use cases ([src/usecases/]):
    - [TxChopping.v]: the writer of [TxSupport/], which cuts a stream into
      transactions in front of the operators of [TxOperators.v].
    - [PatternMining.v]: [FreqTrajectories/Pattern.cpp] and [PrefixSpan.cpp].
    - [Tracker.v]: [TrackerServer.cpp], the tracks that are mined, collected in a
      table by [Pipe::updateTable].
    - [Floats.v]: bounds of the standard library's IEEE operations, for
      [LinearRoad.v]: [LinearRoad/LinRoad.cpp] next to [FunctionsFromPaper.cpp], the
      functions of the benchmark's paper, with speeds as binary32 numbers.
    - [Graphs.v]: [MatrixProcessing/operations/Graph.hpp], a boost graph over a
      sparse matrix, and the edge iterators of [SparseMatrix.hpp].
    - [Debs.v]: [DEBS2017/DEBS2017.cpp], anomalies in sensor data by clustering and
      a Markov chain, with values as binary64 numbers; the threads of the
      partitions share the counter of the anomalies.

    Complex events ([src/cep/]):
    - [Cep.v]: the automaton, one partial match, the engines and the operator.
    - [CepSequences.v]: the pattern expressions of [dsl/CEPState.hpp], their
      translation, and what the engines publish for sequences and repetitions.

    ** What is proved

    - Snapshot isolation, repeatable reads, the two-table commit and the exact
      condition under which a commit waits (MVCC), all for states whose garbage
      horizon has been set; that the horizon then protects running readers, and
      that the first collection, which sets it, does not.
    - The validation of BOCC: which readers a commit aborts, and that the
      clean-up of write sets never loses one that is still needed.  The lock
      discipline of S2PL.  Atomic commit of the log-buffered table.
    - Exclusion of readers and writer for one writing thread in every
      interleaving, and its failure for two; exclusive ownership of slots by up
      to 64 threads, and what the 65th reaches.
    - That inserts of [CuckooTable] do not overwrite, and what BOCC and S2PL
      lose by it.  [S2PL.v] and [BOCC.v] are stated for whatever the table's
      insert stores ([tbl_put]); MVCC does not depend on it, because it inserts
      absent keys only.
    - Windows hold exactly the last rows or the elements younger than the
      range, and every element is published and retracted once.  Incremental
      aggregates equal the aggregate of the values held, for every history that
      retracts what it added; grouped aggregation keeps one per group.  The
      symmetric hash join publishes the join of the current windows; the
      parallel join refines it where its instances see the two streams in the
      same order, and what it loses or publishes twice where they do not.
    - Objects survive serialization and transfer, and what can be deserialized is
      an object of its type; a file of printed tuples is read back; the extractor
      publishes the fields of its line.  Batches and partitions keep every element
      and its order; what a tuplifier builds from the triples of a subject.  The three
      readers of text files deliver the same lines, and a stream that is written
      to a file is read back.  A time as text becomes its microseconds by the
      calendar.
    - Matrices that are sliced and merged again are the same, and the stream of
      changes of a matrix rebuilds it; a joined element has the attributes and null
      flags of its two elements; a tuple is destroyed with its last pointer while
      its counter does not wrap around.
    - [RDBTable] refines a finite map, whatever the database answers to its
      writes, but for the number of its tuples and the answer of [updateWhere]; a name in
      the catalog keeps the table it was first created with; a table in a pool file
      is found again as it was left, and when a dropped name can be used again.
    - A generated where clause means in C++, with its conversions of integers, what
      it means in SQL where literals fit the types of their columns, and what it
      means otherwise; a query that ran is answered from the cache from then on.
    - When [wait] has returned the start functions have ended, and after
      [stopThreads] no periodic thread is left; a second [wait] is undefined.  A
      stream of elements with transaction numbers becomes its transactions, one
      after another, on all tables.
    - What PrefixSpan reports is frequent, and which pairs it reports, for sequences
      whose positions are [int]s; the patterns kept are the maximal ones.
    - The statistics that the Linear Road queries keep up to date are those the
      paper's functions compute from all reports, and so are the velocities and
      car counts behind the tolls they print; where stops, accidents and tolls
      depart from the paper.
    - The loops over the edges of an undirected graph read each edge once, and
      clearing a vertex isolates it without invalidating its iterators; which
      operations are wrong for directed graphs.
    - The anomaly detection stays inside its arrays where there are enough distinct
      values, clusters by k-means, and reports the tuples whose last transitions
      are improbable by their relative frequencies, in every order in which the
      threads of the partitions run; when the reports are numbered consecutively.
    - [FromTxTables] publishes one snapshot of all its tables, or starts over for
      ever where a key is missing; [ToTxTable] commits a stream transaction as a
      whole.
    - Every dataflow that the DSL builds connects outputs with inputs of the same
      element type, whatever is called and whatever throws; a pipeline between
      [partitionBy] and [merge] computes what it computes without them, in every
      order in which the threads of the queues run, and always comes to an end.
    - Channels refine a list of subscriptions under every sequence of connecting,
      closing and destroying; the dataflow of the DSL, wired, calls the subscribers
      that its runs assume.  A temporary reaches only the first subscriber intact.
      A synchronized slot excludes threads per subscription, not per consumer.
    - The engines publish exactly the matches of a sequence pattern, from the
      expression with [>>] to the published tuples.
    - Departures from the documentation, each a theorem or part of one: see the
      doc comments with "but", "loses", "blocks".

    ** Bounds and fuel

    Loops over containers are structural.  [wait_free_slot] (the waiting point
    of the MVCC commit) has fuel for its rounds: without other threads the
    second round repeats the first, so fuel 3 decides whether it waits
    ([commit_update_waits_or_succeeds]).  [it_collect], the documented scan loop,
    needs one unit per stored tuple.  [walk_negations] needs one per negation
    state in a row; a cycle of them does not terminate in the code either.
    [from_tx_rounds] has fuel for its restarts: one round is enough where the
    keys are present, none is where one is missing.  [readMemoryMappedFile] needs
    one unit per line.  [raw_lines] and [compressed_lines] need one per character
    and one more, [slice_loop] one per cell and one more, [for_each] one per entry
    and one more, [mine] the length of the longest sequence and one more; [vertex_loop],
    [edge_loop] and [remove_loop] one per vertex or entry and one more.  [link_all] and [join_all_right] walk the list of
    publishers and need its length.  [deliver] and [final] need the length of the
    longest chain of subscriptions without a queue; [partitioned_pipeline] holds
    for any fuel above that.
    [TransactionID]s are taken below 2^64, as a hypothesis of the theorems that
    hand out new ones.  The Linear Road theorem is for at most [car_limit] cars
    in a segment and minute and about 2^31/100 elements, so that no sum leaves its
    type; that on anomalies for
    at most [sequence_limit] values of a dimension in the window, up to which sums
    of whole numbers are checked to be exact.

    ** Not modelled

    Input and output itself ([src/net/], sockets, files that cannot be opened),
    the adapter of [boost.signals2] and callbacks that change the signal they are
    called from, the Python
    binding, the ordering of writes to persistent memory, the graph algorithms of boost, the printing and the data
    driver of the Linear Road benchmark, the settings and the command line of the query compiler, and the random generators.
    [Pipe::sendZMQ], [Pipe::deserialize] and most of [cep/relatedvalue/] and
    [cep/util/] do not compile when they are instantiated.  Parsing and printing of
    numbers, JSON parsing, the SQL grammar, dates and regular expressions, Eigen,
    RocksDB and libcuckoo are parameters.  Threads that only call a modelled
    function periodically (window eviction, aggregation triggers) are represented by
    that function.  Memory orders weaker than sequential consistency are not
    modelled.

    ** What is left

    The type-level part of [StreamElementTraits.hpp] and of [libcpp], which
    computes types and runs nothing; the graph algorithms, which are calls of
    boost over the graph of [Graphs.v]; the setters of whole state lists of
    the automaton; sockets, brokers and the Python binding; and the example
    programs that are compositions of modelled operators. *)

From stdpp Require Export base tactics option list gmap strings relations sorting.
From Stdlib Require Export ZArith Lia.

#[global] Set Default Goal Selector "!".
#[global] Open Scope Z_scope.

(** ** Outcomes of C++ code

    A call either returns a value or leaves the defined behaviour of the
    program.  The ways the modelled code can do so are listed here; an
    exception that the code throws on purpose is [Throws]. *)
Inductive fault :=
  | OutOfBounds      (** index outside a [std::array]/[std::vector]/buffer *)
  | AssertFailed     (** a failing [assert] / [BOOST_ASSERT] *)
  | Dangling         (** use of an erased element or invalidated iterator *)
  | EmptyAccess      (** [front]/[back]/[pop_front] of an empty container *)
  | DivByZero
  | IntOverflow      (** signed arithmetic outside its type *)
  | Throws (msg : string)
  | Waits.           (** the call blocks (or spins) in the given state *)

Inductive result (A : Type) :=
  | Ok (a : A)
  | Err (f : fault).
Arguments Ok {A} a.
Arguments Err {A} f.

#[export] Instance fault_eq_dec : EqDecision fault.
Proof. solve_decision. Defined.

#[export] Instance result_ret : MRet result := fun A a => Ok a.
#[export] Instance result_bind : MBind result := fun A B f r =>
  match r with Ok a => f a | Err e => Err e end.
#[export] Instance result_fmap : FMap result := fun A B f r =>
  match r with Ok a => Ok (f a) | Err e => Err e end.

Lemma result_bind_Ok {A B} (r : result A) (f : A -> result B) (b : B) :
  (r ≫= f) = Ok b <-> exists a, r = Ok a /\ f a = Ok b.
Proof. destruct r; simpl; [|by split; [|intros (?&?&?)]]. split; [by eauto|by intros (? & [= ->] & ?)]. Qed.

(** one step of a computation whose outcome is known, and the way back: what a
    computation that came to an end has done *)
Ltac run_step := cbn [mbind result_bind].
Tactic Notation "bind_inv" hyp(H) "as" simple_intropattern(p) := apply result_bind_Ok in H as p.

(** [guard_else b f] continues when [b] holds, faults with [f] otherwise. *)
Definition guard_else (b : bool) (f : fault) : result unit :=
  if b then Ok tt else Err f.

(** Array accesses with the bounds the code relies on. *)
Definition get_at {A} (l : list A) (i : nat) : result A :=
  match l !! i with Some x => Ok x | None => Err OutOfBounds end.

Definition set_at {A} (l : list A) (i : nat) (x : A) : result (list A) :=
  if decide (i < length l)%nat then Ok (<[i:=x]> l) else Err OutOfBounds.

Lemma get_at_Ok {A} (l : list A) i x : get_at l i = Ok x <-> l !! i = Some x.
Proof. unfold get_at. destruct (l !! i); by split; intros [= ->]. Qed.

Lemma set_at_Ok {A} (l l' : list A) i x :
  set_at l i x = Ok l' <-> (i < length l)%nat /\ l' = <[i:=x]> l.
Proof. unfold set_at. case_decide; split; [by intros [= <-]|by intros [? ->]|done|by intros [? ->]]. Qed.

Lemma set_at_lt {A} (l : list A) i x : (i < length l)%nat -> set_at l i x = Ok (<[i:=x]> l).
Proof. intros H. by apply set_at_Ok. Qed.

Lemma get_at_Some {A} (l : list A) i x : l !! i = Some x -> get_at l i = Ok x.
Proof. by apply get_at_Ok. Qed.

Lemma get_at_lt {A} (l : list A) i : (i < length l)%nat -> exists x, get_at l i = Ok x.
Proof.
  intros H. destruct (lookup_lt_is_Some_2 l i H) as [x Hx].
  exists x. by apply get_at_Ok.
Qed.

Lemma filter_all {A} (P : A -> Prop) `{forall x, Decision (P x)} (l : list A) :
  (forall x, x ∈ l -> P x) -> filter P l = l.
Proof.
  induction l as [|a l IH]; intros Hl; [done|].
  rewrite filter_cons_True by (apply Hl; by left). f_equal. apply IH. intros x Hx. apply Hl. by right.
Qed.

Lemma StronglySorted_filter {A} (R : relation A) (P : A -> Prop) `{forall x, Decision (P x)} (l : list A) :
  StronglySorted R l -> StronglySorted R (filter P l).
Proof.
  induction 1 as [|a l Hs IH Hall]; [constructor|]. rewrite filter_cons. case_decide; [|done].
  constructor; [done|]. rewrite Forall_forall in Hall |- *. intros x [_ Hx]%list_elem_of_filter. by apply Hall.
Qed.

(** ** Machine integers *)

Definition u8 (x : Z) : Z := x mod 2^8.
Definition u32 (x : Z) : Z := x mod 2^32.
Definition u64 (x : Z) : Z := x mod 2^64.
(** two's complement view of the low 32 bits *)
Definition s32 (x : Z) : Z := (x + 2^31) mod 2^32 - 2^31.
Definition s16 (x : Z) : Z := (x + 2^15) mod 2^16 - 2^15.

Definition is_u8 (x : Z) : Prop := 0 <= x < 2^8.
Definition is_u32 (x : Z) : Prop := 0 <= x < 2^32.
Definition is_u64 (x : Z) : Prop := 0 <= x < 2^64.

Lemma u8_small x : is_u8 x -> u8 x = x.
Proof. apply Z.mod_small. Qed.
Lemma u32_small x : is_u32 x -> u32 x = x.
Proof. apply Z.mod_small. Qed.
Lemma u64_small x : is_u64 x -> u64 x = x.
Proof. apply Z.mod_small. Qed.
Lemma u8_range x : is_u8 (u8 x).
Proof. apply Z.mod_pos_bound. lia. Qed.
Lemma u32_range x : is_u32 (u32 x).
Proof. apply Z.mod_pos_bound. lia. Qed.
Lemma u64_range x : is_u64 (u64 x).
Proof. apply Z.mod_pos_bound. lia. Qed.

(** [int] arithmetic, undefined outside 32 bits *)
Definition is_int (x : Z) : Prop := - 2^31 <= x < 2^31.
Definition to_int (x : Z) : result Z :=
  if (- 2^31 <=? x) && (x <? 2^31) then Ok x else Err IntOverflow.

Lemma to_int_Ok x : is_int x -> to_int x = Ok x.
Proof.
  intros [H1 H2]. unfold to_int. by rewrite (proj2 (Z.leb_le _ _) H1), (proj2 (Z.ltb_lt _ _) H2).
Qed.

Lemma s16_small x : - 2^15 <= x < 2^15 -> s16 x = x.
Proof. intros H. unfold s16. rewrite Z.mod_small by lia. lia. Qed.

Lemma s32_small x : is_int x -> s32 x = x.
Proof. intros [H1 H2]. unfold s32. rewrite Z.mod_small; lia. Qed.

(** goals about words: ranges unfold to inequalities *)
Create HintDb words.
#[export] Hint Resolve u8_range u32_range u64_range : words.
#[export] Hint Unfold is_u8 is_u32 is_u64 is_int : words.
Ltac word_lia := autounfold with words in *; lia.

(** ** Bit sets held in an unsigned word *)

Definition set_bit (v p : Z) : Z := Z.lor v (Z.shiftl 1 p).
Definition clear_bit (v p : Z) : Z := Z.land v (Z.lnot (Z.shiftl 1 p)).

Lemma shiftl_1_testbit p i : 0 <= p -> 0 <= i -> Z.testbit (Z.shiftl 1 p) i = bool_decide (i = p).
Proof.
  intros Hp Hi. rewrite Z.shiftl_1_l, Z.pow2_bits_eqb by done.
  case_bool_decide; [by apply Z.eqb_eq | apply Z.eqb_neq; lia].
Qed.

Lemma set_bit_testbit v p i : 0 <= p -> 0 <= i ->
  Z.testbit (set_bit v p) i = bool_decide (i = p) || Z.testbit v i.
Proof.
  intros. unfold set_bit. rewrite Z.lor_spec, shiftl_1_testbit by done.
  apply orb_comm.
Qed.

Lemma clear_bit_testbit v p i : 0 <= p -> 0 <= i ->
  Z.testbit (clear_bit v p) i = negb (bool_decide (i = p)) && Z.testbit v i.
Proof.
  intros. unfold clear_bit. rewrite Z.land_spec, Z.lnot_spec, shiftl_1_testbit by done.
  apply andb_comm.
Qed.

(** A non-negative number fits [n] bits iff its higher bits are clear. *)
Lemma bounded_by_bits v n : 0 <= n -> 0 <= v ->
  (forall i, n <= i -> Z.testbit v i = false) -> v < 2^n.
Proof.
  intros Hn Hv Hb. destruct (decide (v = 0)) as [->|]; [lia|].
  apply Z.log2_lt_pow2; [lia|].
  destruct (decide (Z.log2 v < n)) as [|Hge]; [done|].
  specialize (Hb (Z.log2 v)). rewrite Z.bit_log2 in Hb by lia.
  by discriminate Hb; lia.
Qed.

Lemma testbit_above v n i : 0 <= v < 2^n -> n <= i -> Z.testbit v i = false.
Proof.
  intros Hv Hi. destruct (decide (v = 0)) as [->|]; [apply Z.bits_0|].
  apply Z.bits_above_log2; [lia|].
  apply Z.lt_le_trans with n; [|done]. apply Z.log2_lt_pow2; lia.
Qed.

Lemma set_bit_bound v p n : 0 <= p < n -> 0 <= v < 2^n -> 0 <= set_bit v p < 2^n.
Proof.
  intros Hp Hv. assert (0 <= set_bit v p).
  { unfold set_bit. apply Z.lor_nonneg. split; [lia|]. apply Z.shiftl_nonneg. lia. }
  split; [done|]. apply bounded_by_bits; [lia|done|].
  intros i Hi. rewrite set_bit_testbit, (testbit_above v n) by lia.
  rewrite bool_decide_eq_false_2 by lia. done.
Qed.

Lemma clear_bit_bound v p n : 0 <= p -> 0 <= n -> 0 <= v < 2^n -> 0 <= clear_bit v p < 2^n.
Proof.
  intros Hp Hn Hv. assert (0 <= clear_bit v p).
  { unfold clear_bit. apply Z.land_nonneg. lia. }
  split; [done|]. apply bounded_by_bits; [lia|done|].
  intros i Hi. rewrite clear_bit_testbit, (testbit_above v n) by lia.
  apply andb_false_r.
Qed.
