(* ===== verification/StateContext.v ===== *)
(** * StateContext: transaction slots, snapshots and garbage horizon

    Models [src/table/StateContext.cpp] (the bit-scan helpers and the slot
    word) and [src/table/StateContext.hpp] (class [StateContext]).
    [tableref] stands for a [TablePtr]: the identity of a table object. *)

From S2P Require Import Prelude.

(** ** Types and constants *)

Abbreviation TransactionID := Z (only parsing).
Definition DTS_INF : Z := 2^64 - 1.
Definition UINT64_MAX : Z := 2^64 - 1.
Definition MAX_TOPO_GRPS : nat := 1.
Definition MAX_STATES : nat := 2.
Definition MAX_STATES_TOPO : nat := 2.

Inductive Errc := SUCCESS | ABORT | NOT_FOUND | INCONSISTENT.
Inductive Status := Active | Commit | Abort.

#[export] Instance Errc_eq_dec : EqDecision Errc.
Proof. solve_decision. Defined.
#[export] Instance Status_eq_dec : EqDecision Status.
Proof. solve_decision. Defined.

(** ** Helpers of StateContext.cpp *)

Definition tab64 : list Z :=
  [63; 0; 58; 1; 59; 47; 53; 2;
   60; 39; 48; 27; 54; 33; 42; 3;
   61; 51; 37; 40; 49; 18; 28; 20;
   55; 30; 34; 11; 43; 14; 22; 4;
   62; 57; 46; 52; 38; 26; 32; 41;
   50; 36; 17; 19; 29; 10; 13; 21;
   56; 45; 25; 31; 35; 16; 9; 12;
   44; 24; 15; 8; 23; 7; 6; 5].

Definition deBruijn : Z := 0x07EDD5E59A4E28C2.

(** [~v] and [-v] on [uint64_t] *)
Definition u64_not (v : Z) : Z := u64 (Z.lnot v).
Definition u64_neg (v : Z) : Z := u64 (- v).

Definition deBruijn_index (b : Z) : nat := Z.to_nat (Z.shiftr (u64 (b * deBruijn)) 58).

Definition getFreePos (v : Z) : Z :=
  if v =? UINT64_MAX then 64
  else default 0 (tab64 !! deBruijn_index (Z.land (u64_not v) (u64_neg (u64_not v)))).

(** [1ULL << pos] is only defined for [pos < 64] *)
Definition claim_bit (expected : Z) : result (Z * Z) :=
  let pos := getFreePos expected in
  if decide (pos < 64) then Ok (pos, set_bit expected pos) else Err OutOfBounds.

(** The compare-exchange loop; [observed] lists the values that failing
    exchanges load back into [expected] before the exchange that succeeds. *)
Fixpoint getSetFreePos_loop (expected : Z) (observed : list Z) : result (Z * Z) :=
  match observed with
  | [] => claim_bit expected
  | w :: rest => _ ← claim_bit expected; getSetFreePos_loop w rest
  end.

(** without interference the first exchange succeeds *)
Definition getSetFreePos (v : Z) : result (Z * Z) := getSetFreePos_loop v [].

Definition unsetPos (v pos : Z) : Z := clear_bit v pos.

Definition xorshift16 (x : Z) : Z := Z.lxor (Z.shiftr x 16) x.

Definition hashMe (x : Z) : Z :=
  let x := u32 (x + 1) in
  let x := u32 (xorshift16 x * 0x45d9f3b) in
  let x := u32 (xorshift16 x * 0x45d9f3b) in
  xorshift16 x.

(** [ZipfianGenerator::nextValue] for [T = unsigned int]; [ret] is the
    pseudo-random rank drawn by [nextInt].  The result is converted to [T]. *)
Definition zipf_nextValue (base items ret : Z) : result Z :=
  if decide (u64 (items - 1) = 0) then Err DivByZero
  else Ok (u32 (base + 1 + hashMe (u32 ret) mod u64 (items - 1))).

(** ** The context *)

Abbreviation tableref := nat (only parsing).

Record ActiveTx := mkActiveTx {
  at_id : TransactionID;
  at_write : list Status;          (** WriteInfo: one per table of the group *)
  at_read : list TransactionID;    (** ReadInfo: read CTS per topology group *)
}.

Record ctx := mkCtx {
  nextTxID : Z;
  topoGrps : list (list Z * TransactionID);
  regStates : list (option tableref);
  tToTX : gmap Z Z;
  restarts : Z;
  txCntR : Z;
  txCntW : Z;
  usedSlots : Z;
  activeTxs : list ActiveTx;
  oldestVisibleVersion : Z;
  numStates : nat;
  numGroups : nat;
}.

Definition with_nextTxID x c := mkCtx x (topoGrps c) (regStates c) (tToTX c) (restarts c)
  (txCntR c) (txCntW c) (usedSlots c) (activeTxs c) (oldestVisibleVersion c) (numStates c) (numGroups c).
Definition with_topoGrps x c := mkCtx (nextTxID c) x (regStates c) (tToTX c) (restarts c)
  (txCntR c) (txCntW c) (usedSlots c) (activeTxs c) (oldestVisibleVersion c) (numStates c) (numGroups c).
Definition with_regStates x c := mkCtx (nextTxID c) (topoGrps c) x (tToTX c) (restarts c)
  (txCntR c) (txCntW c) (usedSlots c) (activeTxs c) (oldestVisibleVersion c) (numStates c) (numGroups c).
Definition with_txCntW x c := mkCtx (nextTxID c) (topoGrps c) (regStates c) (tToTX c) (restarts c)
  (txCntR c) x (usedSlots c) (activeTxs c) (oldestVisibleVersion c) (numStates c) (numGroups c).
Definition with_slots x y c := mkCtx (nextTxID c) (topoGrps c) (regStates c) (tToTX c) (restarts c)
  (txCntR c) (txCntW c) x y (oldestVisibleVersion c) (numStates c) (numGroups c).
Definition with_oldest x c := mkCtx (nextTxID c) (topoGrps c) (regStates c) (tToTX c) (restarts c)
  (txCntR c) (txCntW c) (usedSlots c) (activeTxs c) x (numStates c) (numGroups c).
Definition with_numStates x c := mkCtx (nextTxID c) (topoGrps c) (regStates c) (tToTX c) (restarts c)
  (txCntR c) (txCntW c) (usedSlots c) (activeTxs c) (oldestVisibleVersion c) x (numGroups c).
Definition with_numGroups x c := mkCtx (nextTxID c) (topoGrps c) (regStates c) (tToTX c) (restarts c)
  (txCntR c) (txCntW c) (usedSlots c) (activeTxs c) (oldestVisibleVersion c) (numStates c) x.

(** The constructor.  [slots0] is the indeterminate value of the
    [usedSlots] member, which neither an initialiser nor the constructor
    sets; [now] is the clock reading. *)
Definition StateContext_init (now slots0 : Z) : ctx := {|
  nextTxID := u64 now;
  topoGrps := replicate MAX_TOPO_GRPS (replicate MAX_STATES_TOPO 0, 0);
  regStates := replicate MAX_STATES None;
  tToTX := ∅;
  restarts := 0; txCntR := 0; txCntW := 0;
  usedSlots := slots0;
  activeTxs := replicate 64 (mkActiveTx 0 (replicate MAX_STATES_TOPO Active) (replicate MAX_TOPO_GRPS 0));
  oldestVisibleVersion := 0;
  numStates := 0; numGroups := 0 |}.

Definition reset (now : Z) (c : ctx) : ctx := {|
  nextTxID := u64 now;
  topoGrps := topoGrps c;
  regStates := regStates c;
  tToTX := ∅;
  restarts := 0; txCntR := 0; txCntW := 0;
  usedSlots := 0;
  activeTxs := activeTxs c;
  oldestVisibleVersion := 0;
  numStates := numStates c; numGroups := numGroups c |}.

(** [getPosFromTxnID]: scans [activeTxs] for the id without an upper bound *)
Fixpoint find_tx (l : list ActiveTx) (txn : TransactionID) : result nat :=
  match l with
  | [] => Err OutOfBounds
  | a :: rest => if at_id a =? txn then Ok 0%nat else S <$> find_tx rest txn
  end.

Definition getPosFromTxnID (c : ctx) (txn : TransactionID) : result nat :=
  find_tx (activeTxs c) txn.

Definition getWriteStatus (c : ctx) (txn : TransactionID) (tbl : nat) : result Status :=
  pos ← getPosFromTxnID c txn;
  a ← get_at (activeTxs c) pos;
  get_at (at_write a) tbl.

(** assignment through the reference the non-const [getWriteStatus] returns *)
Definition setWriteStatus (c : ctx) (txn : TransactionID) (tbl : nat) (s : Status) : result ctx :=
  pos ← getPosFromTxnID c txn;
  a ← get_at (activeTxs c) pos;
  w ← set_at (at_write a) tbl s;
  l ← set_at (activeTxs c) pos (mkActiveTx (at_id a) w (at_read a));
  Ok (with_slots (usedSlots c) l c).

Definition getReadCTS (c : ctx) (txn : TransactionID) (topo : nat) : result TransactionID :=
  pos ← getPosFromTxnID c txn;
  a ← get_at (activeTxs c) pos;
  get_at (at_read a) topo.

Definition setReadCTS (c : ctx) (txn : TransactionID) (topo : nat) (r : TransactionID) : result ctx :=
  pos ← getPosFromTxnID c txn;
  a ← get_at (activeTxs c) pos;
  rs ← set_at (at_read a) topo r;
  l ← set_at (activeTxs c) pos (mkActiveTx (at_id a) (at_write a) rs);
  Ok (with_slots (usedSlots c) l c).

(** the entries of [activeTxs] whose bit is set, scanned from [pos] on *)
Fixpoint used_from (slots : Z) (pos : Z) (l : list ActiveTx) : list ActiveTx :=
  match l with
  | [] => []
  | a :: rest =>
      if Z.testbit slots pos then a :: used_from slots (pos + 1) rest
      else used_from slots (pos + 1) rest
  end.

Definition used_txs (c : ctx) : list ActiveTx := used_from (usedSlots c) 0 (activeTxs c).

Definition getOldestActiveTx (c : ctx) : TransactionID :=
  fold_left (fun oldest a => Z.min (at_id a) oldest) (used_txs c) DTS_INF.

Definition newTx (c : ctx) : result (TransactionID * ctx) :=
  let txn := nextTxID c in
  let c := with_nextTxID (u64 (txn + 1)) c in
  '(pos, slots) ← getSetFreePos (usedSlots c);
  l ← set_at (activeTxs c) (Z.to_nat pos)
        (mkActiveTx txn (replicate MAX_STATES_TOPO Active) (replicate MAX_TOPO_GRPS 0));
  Ok (txn, with_slots slots l c).

Definition getNewTS (c : ctx) : TransactionID * ctx :=
  (nextTxID c, with_nextTxID (u64 (nextTxID c + 1)) c).

Fixpoint reset_reads (topos : list nat) (txn : TransactionID) (c : ctx) : result ctx :=
  match topos with
  | [] => Ok c
  | t :: rest => c ← setReadCTS c txn t 0; reset_reads rest txn c
  end.

Definition removeTx (txn : TransactionID) (c : ctx) : result ctx :=
  c ← reset_reads (seq 0 MAX_TOPO_GRPS) txn c;
  pos ← getPosFromTxnID c txn;
  Ok (with_slots (unsetPos (usedSlots c) (Z.of_nat pos)) (activeTxs c) c).

Definition getLastCTS (c : ctx) (topo : nat) : result TransactionID :=
  g ← get_at (topoGrps c) topo; Ok g.2.

Definition setLastCTS (topo : nat) (txn : TransactionID) (c : ctx) : result ctx :=
  g ← get_at (topoGrps c) topo;
  l ← set_at (topoGrps c) topo (g.1, txn);
  Ok (with_topoGrps l c).

(** the scan for the smallest non-zero read snapshot of the used slots *)
Definition min_readCTS (c : ctx) : TransactionID :=
  fold_left (fun newMin a =>
    let rCTS := default 0 (at_read a !! 0%nat) in
    if negb (rCTS =? 0) && (rCTS <? newMin) then rCTS else newMin) (used_txs c) DTS_INF.

Definition recalcOldestVisible (txn : TransactionID) (c : ctx) : result (TransactionID * ctx) :=
  let min := oldestVisibleVersion c in
  if negb (min =? 0) then
    newMin ← (let newMin := min_readCTS c in
              if newMin =? DTS_INF then getLastCTS c 0 else Ok newMin);
    Ok (newMin, with_oldest (if min <? newMin then newMin else min) c)
  else
    newMin ← getLastCTS c 0;
    Ok (newMin, with_oldest newMin c).

Definition getOldestVisible (c : ctx) : TransactionID := oldestVisibleVersion c.

Definition registerState (tbl : tableref) (c : ctx) : result (nat * ctx) :=
  l ← set_at (regStates c) (numStates c) (Some tbl);
  Ok (numStates c, with_numStates (S (numStates c)) (with_regStates l c)).

Definition registerTopo (tbls : list Z) (c : ctx) : result (nat * ctx) :=
  l ← set_at (topoGrps c) (numGroups c) (tbls, 0);
  Ok (numGroups c, with_numGroups (S (numGroups c)) (with_topoGrps l c)).

Definition updateTopo (topo : nat) (tbls : list Z) (c : ctx) : result ctx :=
  g ← get_at (topoGrps c) topo;
  l ← set_at (topoGrps c) topo (tbls, g.2);
  Ok (with_topoGrps l c).

(** ** The bit scan *)

(** Isolating the lowest set bit: [n & -n] is a power of two, and it is the
    lowest set bit of [n]. *)
Lemma land_neg_lowbit (p : positive) :
  exists k, 0 <= k /\ Z.land (Zpos p) (- Zpos p) = 2^k /\
    Z.testbit (Zpos p) k = true /\ forall j, 0 <= j < k -> Z.testbit (Zpos p) j = false.
Proof.
  induction p as [p IH|p IH|].
  - exists 0. split; [lia|]. split; [|split; [done|intros; lia]].
    apply Z.bits_inj'. intros n Hn.
    replace (- Z.pos p~1) with (2 * Z.lnot (Z.pos p) + 1) by (unfold Z.lnot; lia).
    rewrite Z.land_spec, Z.pow_0_r.
    replace (Z.pos p~1) with (2 * Z.pos p + 1) by lia.
    destruct (decide (n = 0)) as [->|]; [by rewrite !Z.testbit_odd_0|].
    rewrite (Z.bits_above_log2 1) by (simpl; lia).
    replace n with (Z.succ (n - 1)) by lia.
    rewrite !Z.testbit_odd_succ, Z.lnot_spec by lia.
    by destruct (Z.testbit _ _).
  - destruct IH as (k & Hk & Heq & Hb & Hlow). exists (k + 1).
    replace (Z.pos p~0) with (2 * Z.pos p) by lia.
    split; [lia|]. split; [|split].
    + replace (- (2 * Z.pos p)) with (2 * - Z.pos p) by lia.
      rewrite !(Z.mul_comm 2), <- !(Z.shiftl_mul_pow2 _ 1) by lia.
      rewrite <- Z.shiftl_land, Heq, Z.shiftl_mul_pow2, Z.pow_add_r by lia. done.
    + replace (k + 1) with (Z.succ k) by lia. by rewrite Z.testbit_even_succ.
    + intros j Hj. destruct (decide (j = 0)) as [->|]; [apply Z.testbit_even_0|].
      replace j with (Z.succ (j - 1)) by lia. rewrite Z.testbit_even_succ by lia.
      apply Hlow. lia.
  - exists 0. split; [lia|]. split; [done|]. split; [done|]. intros; lia.
Qed.

Lemma deBruijn_table :
  Forall (fun k => tab64 !! deBruijn_index (2 ^ Z.of_nat k) = Some (Z.of_nat k)) (seq 0 64).
Proof. apply (bool_decide_unpack _). vm_compute. done. Qed.

Lemma deBruijn_lookup k : 0 <= k < 64 -> tab64 !! deBruijn_index (2^k) = Some k.
Proof.
  intros Hk. pose proof deBruijn_table as H. rewrite Forall_forall in H.
  specialize (H (Z.to_nat k)). rewrite Z2Nat.id in H by lia. apply H.
  apply elem_of_seq. lia.
Qed.

Lemma u64_not_testbit v i : 0 <= i < 64 -> Z.testbit (u64_not v) i = negb (Z.testbit v i).
Proof. intros. unfold u64_not, u64. rewrite Z.mod_pow2_bits_low, Z.lnot_spec by lia. done. Qed.

Lemma u64_not_value v : is_u64 v -> u64_not v = UINT64_MAX - v.
Proof.
  intros Hv. unfold u64_not, u64, UINT64_MAX. unfold is_u64 in Hv.
  rewrite <- (Z.mod_unique (Z.lnot v) (2^64) (-1) (2^64 - 1 - v)); unfold Z.lnot; lia.
Qed.

(** The lowest free position, as the documentation of [getFreePos] states it. *)
Definition is_first_free (v p : Z) : Prop :=
  0 <= p < 64 /\ Z.testbit v p = false /\ forall j, 0 <= j < p -> Z.testbit v j = true.

Lemma is_first_free_unique v p q : is_first_free v p -> is_first_free v q -> p = q.
Proof.
  intros (Hp & Hpv & Hpl) (Hq & Hqv & Hql).
  destruct (Z.lt_trichotomy p q) as [H|[H|H]]; [|done|].
  - rewrite Hql in Hpv by lia. done.
  - rewrite Hpl in Hqv by lia. done.
Qed.

Lemma getFreePos_first_free v :
  is_u64 v -> v <> UINT64_MAX -> is_first_free v (getFreePos v).
Proof.
  intros Hv Hne. unfold getFreePos. rewrite (proj2 (Z.eqb_neq _ _) Hne).
  pose proof (u64_not_value v Hv) as Hnv. pose proof (u64_range (Z.lnot v)) as Hr.
  fold (u64_not v) in Hr.
  assert (exists p, u64_not v = Zpos p) as [p Hp].
  { unfold is_u64, UINT64_MAX in *. destruct (u64_not v); [lia|by eexists|lia]. }
  destruct (land_neg_lowbit p) as (k & Hk0 & Heq & Hb & Hlow).
  assert (k < 64) as Hk.
  { destruct (decide (k < 64)); [done|]. rewrite (testbit_above _ 64) in Hb; [done| |lia].
    rewrite <- Hp. apply Hr. }
  assert (Z.land (u64_not v) (u64_neg (u64_not v)) = 2^k) as ->.
  { unfold u64_neg, u64. rewrite <- Z.land_ones, (Z.land_comm (- _)), Z.land_assoc by lia.
    rewrite Z.land_ones, (Z.mod_small (u64_not v)) by (try lia; apply Hr).
    by rewrite Hp. }
  rewrite deBruijn_lookup by lia. simpl.
  split; [lia|]. rewrite <- Hp in Hb, Hlow. split.
  - rewrite u64_not_testbit in Hb by lia. by destruct (Z.testbit v k).
  - intros j Hj. specialize (Hlow j Hj). rewrite u64_not_testbit in Hlow by lia.
    by destruct (Z.testbit v j).
Qed.

Lemma getFreePos_full : getFreePos UINT64_MAX = 64.
Proof. done. Qed.

Lemma getFreePos_range v : is_u64 v -> 0 <= getFreePos v <= 64.
Proof.
  intros Hv. destruct (decide (v = UINT64_MAX)) as [->|Hne]; [done|].
  destruct (getFreePos_first_free v Hv Hne); lia.
Qed.

Lemma claim_bit_Ok v p v' : is_u64 v -> claim_bit v = Ok (p, v') ->
  is_first_free v p /\ v' = set_bit v p /\ is_u64 v'.
Proof.
  intros Hv. unfold claim_bit. case_decide as Hlt; [|done]. intros [= <- <-].
  assert (v <> UINT64_MAX) by (intros ->; by rewrite getFreePos_full in Hlt).
  pose proof (getFreePos_first_free v Hv H) as Hf. split; [done|]. split; [done|].
  apply set_bit_bound; [destruct Hf; lia|done].
Qed.

Lemma claim_bit_Err v f : is_u64 v -> claim_bit v = Err f -> v = UINT64_MAX.
Proof.
  intros Hv. unfold claim_bit. case_decide as Hlt; [done|]. intros _.
  destruct (decide (v = UINT64_MAX)) as [|Hne]; [done|].
  destruct (getFreePos_first_free v Hv Hne); lia.
Qed.

(** ** Transaction slots *)

Record ctx_wf (c : ctx) : Prop := {
  wf_slots : is_u64 (usedSlots c);
  wf_next : 0 < nextTxID c < 2^64;
  wf_len : length (activeTxs c) = 64%nat;
  wf_shape : Forall (fun a => length (at_write a) = MAX_STATES_TOPO /\
                     length (at_read a) = MAX_TOPO_GRPS /\
                     0 <= at_id a < nextTxID c) (activeTxs c);
  wf_unique : forall i j a b, activeTxs c !! i = Some a -> activeTxs c !! j = Some b ->
                at_id a = at_id b -> at_id a <> 0 -> i = j;
  wf_live : forall (i : nat) a, Z.testbit (usedSlots c) (Z.of_nat i) = true ->
                activeTxs c !! i = Some a -> at_id a <> 0;
  wf_grps : length (topoGrps c) = MAX_TOPO_GRPS;
}.

(** an executable form of the invariant, for concrete contexts *)
Definition slot_id (c : ctx) (i : nat) : Z := default 0 (at_id <$> activeTxs c !! i).

Definition ctx_check (c : ctx) : bool :=
  bool_decide (0 <= usedSlots c) && bool_decide (usedSlots c < 2^64) &&
  bool_decide (0 < nextTxID c) && bool_decide (nextTxID c < 2^64) &&
  bool_decide (length (activeTxs c) = 64%nat) && bool_decide (length (topoGrps c) = MAX_TOPO_GRPS) &&
  forallb (fun a => bool_decide (length (at_write a) = MAX_STATES_TOPO) &&
    bool_decide (length (at_read a) = MAX_TOPO_GRPS) &&
    bool_decide (0 <= at_id a) && bool_decide (at_id a < nextTxID c)) (activeTxs c) &&
  forallb (fun i => negb (Z.testbit (usedSlots c) (Z.of_nat i)) || negb (slot_id c i =? 0)) (seq 0 64) &&
  forallb (fun i => (slot_id c i =? 0) || forallb (fun j => bool_decide (i = j) || negb (slot_id c i =? slot_id c j)) (seq 0 64)) (seq 0 64).

Lemma ctx_wf_check c : ctx_check c = true -> ctx_wf c.
Proof.
  unfold ctx_check. rewrite !andb_true_iff, !bool_decide_eq_true.
  intros [[[[[[[[Hu0 Hu1] Hn0] Hn1] Hl] Hg] Hsh] Hli] Hun].
  rewrite forallb_forall in Hsh, Hli, Hun.
  assert (forall (i : nat) a, activeTxs c !! i = Some a -> In i (seq 0 64) /\ slot_id c i = at_id a) as Hin.
  { intros i a Hi. split; [|unfold slot_id; by rewrite Hi].
    apply in_seq. apply lookup_lt_Some in Hi. lia. }
  split; [done|done|done| | | |done].
  - apply Forall_lookup. intros i a Hi. apply list_elem_of_lookup_2, list_elem_of_In in Hi.
    specialize (Hsh a Hi). rewrite !andb_true_iff, !bool_decide_eq_true in Hsh. naive_solver.
  - intros i j a b Ha Hb He Hnz. destruct (Hin i a Ha) as [Hi Hia], (Hin j b Hb) as [Hj Hjb].
    specialize (Hun i Hi). rewrite Hia, (proj2 (Z.eqb_neq _ _) Hnz) in Hun. cbn [orb] in Hun.
    rewrite forallb_forall in Hun. specialize (Hun j Hj). rewrite Hjb, He, Z.eqb_refl, orb_false_r in Hun.
    by apply bool_decide_eq_true in Hun.
  - intros i a Hb Ha. destruct (Hin i a Ha) as [Hi Hia]. specialize (Hli i Hi).
    rewrite Hb, Hia in Hli. cbn [negb orb] in Hli. by apply negb_true_iff, Z.eqb_neq in Hli.
Qed.

(** [a] is the entry of a running transaction *)
Definition live_at (c : ctx) (pos : nat) (a : ActiveTx) : Prop :=
  Z.testbit (usedSlots c) (Z.of_nat pos) = true /\ activeTxs c !! pos = Some a.

Lemma find_tx_first l txn pos a :
  l !! pos = Some a -> at_id a = txn ->
  (forall j b, (j < pos)%nat -> l !! j = Some b -> at_id b <> txn) ->
  find_tx l txn = Ok pos.
Proof.
  revert pos. induction l as [|b l IH]; intros [|pos] Hl Ha Hfirst; simplify_eq/=.
  - by rewrite Z.eqb_refl.
  - rewrite (proj2 (Z.eqb_neq _ _)) by (apply (Hfirst 0%nat b); [lia|done]).
    rewrite (IH pos); [done|done|done|]. intros j b' Hj. apply (Hfirst (S j)). lia.
Qed.

Lemma find_tx_Ok l txn pos :
  find_tx l txn = Ok pos -> exists a, l !! pos = Some a /\ at_id a = txn.
Proof.
  revert pos. induction l as [|b l IH]; intros pos; simpl; [done|].
  destruct (Z.eqb_spec (at_id b) txn) as [He|He].
  - intros [= <-]. by exists b.
  - destruct (find_tx l txn) as [n|]; simpl; [|done]. intros [= <-]. by apply IH.
Qed.

(** a non-zero id is found exactly where it is stored *)
Lemma getPos_wf c pos a :
  ctx_wf c -> activeTxs c !! pos = Some a -> at_id a <> 0 ->
  getPosFromTxnID c (at_id a) = Ok pos.
Proof.
  intros Hwf Hl Hnz. apply (find_tx_first _ _ _ a); [done|done|].
  intros j b Hj Hb He.
  assert (j = pos) by (eapply (wf_unique c Hwf j pos b a); [done|done|done|congruence]). lia.
Qed.

Lemma ctx_shape c pos a : ctx_wf c -> activeTxs c !! pos = Some a ->
  length (at_write a) = MAX_STATES_TOPO /\ length (at_read a) = MAX_TOPO_GRPS /\
  0 <= at_id a < nextTxID c.
Proof.
  intros Hwf Hl. exact (proj1 (Forall_forall _ _) (wf_shape c Hwf) a (list_elem_of_lookup_2 _ _ _ Hl)).
Qed.

Lemma getWriteStatus_at c pos a tbl : ctx_wf c -> live_at c pos a ->
  getWriteStatus c (at_id a) tbl = get_at (at_write a) tbl.
Proof.
  intros Hwf [Hb Hl]. unfold getWriteStatus.
  rewrite (getPos_wf c pos a Hwf Hl (wf_live c Hwf _ _ Hb Hl)). simpl.
  by rewrite (get_at_Some _ _ _ Hl).
Qed.

Lemma getReadCTS_at c pos a g : ctx_wf c -> live_at c pos a ->
  getReadCTS c (at_id a) g = get_at (at_read a) g.
Proof.
  intros Hwf [Hb Hl]. unfold getReadCTS.
  rewrite (getPos_wf c pos a Hwf Hl (wf_live c Hwf _ _ Hb Hl)). simpl.
  by rewrite (get_at_Some _ _ _ Hl).
Qed.

Lemma reset_wf now c :
  ctx_wf c -> 0 < now < 2^64 ->
  Forall (fun a => at_id a < now) (activeTxs c) -> ctx_wf (reset now c).
Proof.
  intros Hwf Hnow Hids. pose proof (u64_small now ltac:(word_lia)) as Hu.
  destruct Hwf as [Hs Hn Hl Hsh Hun Hli Hg]. split; simpl; try done.
  - rewrite Hu. lia.
  - rewrite Hu. rewrite Forall_forall in Hsh, Hids |- *. intros a Ha.
    specialize (Hsh a Ha). specialize (Hids a Ha).
    destruct Hsh as (? & ? & ?). split_and!; [done|done|lia..].
  - intros i a Hb. by rewrite Z.bits_0 in Hb.
Qed.

Lemma StateContext_reset_wf now now' s0 : 0 < now < 2^64 -> 0 < now' < 2^64 ->
  ctx_wf (reset now' (StateContext_init now s0)).
Proof.
  intros Hn Hn'. assert (u64 now' = now') as Hu by (apply u64_small; word_lia).
  split.
  - done.
  - simpl. rewrite Hu. lia.
  - done.
  - simpl. rewrite Hu. repeat constructor; simpl; lia.
  - intros i j a b Hi _ _ Hnz. simpl in Hi. apply (lookup_replicate 64) in Hi as [-> _]. by destruct Hnz.
  - intros i a Hb. simpl in Hb. by rewrite Z.bits_0 in Hb.
  - done.
Qed.

(** Writing a fresh, never used id into slot [pos] keeps the table well formed. *)
Lemma claim_slot_wf c (pos : nat) w r :
  ctx_wf c -> nextTxID c + 1 < 2^64 -> (pos < 64)%nat ->
  length w = MAX_STATES_TOPO -> length r = MAX_TOPO_GRPS ->
  ctx_wf (with_slots (set_bit (usedSlots c) (Z.of_nat pos))
            (<[pos := mkActiveTx (nextTxID c) w r]> (activeTxs c))
            (with_nextTxID (u64 (nextTxID c + 1)) c)).
Proof.
  intros [Hs Hn Hl Hsh Hun Hli Hg] Hov Hpos Hw Hr.
  assert (u64 (nextTxID c + 1) = nextTxID c + 1) as Hu by (apply u64_small; word_lia).
  rewrite Forall_lookup in Hsh.
  split; simpl; try done.
  - by apply set_bit_bound; [lia|].
  - rewrite Hu. lia.
  - by rewrite length_insert.
  - rewrite Forall_lookup. intros i a [(-> & <- & _)|[Hne Hi]]%list_lookup_insert_Some; simpl.
    + rewrite Hu. lia.
    + rewrite Hu. destruct (Hsh _ _ Hi) as (? & ? & ?). split_and!; [done|done|lia..].
  - intros i j a b Ha Hb He Hnz.
    apply list_lookup_insert_Some in Ha as [(-> & <- & _)|[Hi Ha]];
    apply list_lookup_insert_Some in Hb as [(-> & <- & _)|[Hj Hb]]; simpl in *; try done.
    + specialize (Hsh _ _ Hb). lia.
    + specialize (Hsh _ _ Ha). lia.
    + by eapply Hun.
  - intros i a. rewrite set_bit_testbit by lia.
    intros Hb [(-> & <- & _)|[Hne Hi]]%list_lookup_insert_Some; simpl; [lia|].
    rewrite bool_decide_eq_false_2 in Hb by lia. by eapply Hli.
Qed.

Lemma newTx_unfold c : ctx_wf c -> usedSlots c <> UINT64_MAX ->
  exists pos : nat, is_first_free (usedSlots c) (Z.of_nat pos) /\
  newTx c = Ok (nextTxID c,
    with_slots (set_bit (usedSlots c) (Z.of_nat pos))
      (<[pos := mkActiveTx (nextTxID c) (replicate MAX_STATES_TOPO Active) (replicate MAX_TOPO_GRPS 0)]>
         (activeTxs c)) (with_nextTxID (u64 (nextTxID c + 1)) c)).
Proof.
  intros Hwf Hfull. destruct (claim_bit (usedSlots c)) as [[p v]|f] eqn:Hc.
  2: { by apply claim_bit_Err in Hc; [|apply Hwf]. }
  pose proof (claim_bit_Ok _ _ _ (wf_slots c Hwf) Hc) as (Hf & -> & Hv).
  assert (0 <= p < 64) as Hp by (destruct Hf; lia).
  exists (Z.to_nat p). rewrite Z2Nat.id by lia. split; [done|].
  unfold newTx, getSetFreePos, getSetFreePos_loop. cbn [usedSlots with_nextTxID].
  rewrite Hc. run_step.
  rewrite set_at_lt; [done|]. simpl. rewrite (wf_len c Hwf). lia.
Qed.

Lemma setReadCTS_at c pos a r : ctx_wf c -> live_at c pos a ->
  setReadCTS c (at_id a) 0 r =
    Ok (with_slots (usedSlots c) (<[pos := mkActiveTx (at_id a) (at_write a) [r]]> (activeTxs c)) c).
Proof.
  intros Hwf [Hb Hl]. unfold setReadCTS.
  rewrite (getPos_wf c pos a Hwf Hl (wf_live c Hwf _ _ Hb Hl)). run_step.
  rewrite (get_at_Some _ _ _ Hl). run_step.
  destruct (ctx_shape c pos a Hwf Hl) as (_ & Hr & _).
  destruct (at_read a) as [|x [|]]; try done.
  rewrite (set_at_lt [x]) by (simpl; lia). run_step.
  rewrite set_at_lt; [done|]. by eapply lookup_lt_Some.
Qed.

Lemma setWriteStatus_at c pos a tbl s : ctx_wf c -> live_at c pos a -> (tbl < MAX_STATES_TOPO)%nat ->
  setWriteStatus c (at_id a) tbl s =
    Ok (with_slots (usedSlots c)
      (<[pos := mkActiveTx (at_id a) (<[tbl := s]> (at_write a)) (at_read a)]> (activeTxs c)) c).
Proof.
  intros Hwf [Hb Hl] Htbl. unfold setWriteStatus.
  rewrite (getPos_wf c pos a Hwf Hl (wf_live c Hwf _ _ Hb Hl)). run_step.
  rewrite (get_at_Some _ _ _ Hl). run_step.
  destruct (ctx_shape c pos a Hwf Hl) as (Hw & _ & _).
  rewrite (set_at_lt (at_write a)) by lia. run_step.
  rewrite set_at_lt; [done|]. by eapply lookup_lt_Some.
Qed.

Lemma setLastCTS_wf c txn : ctx_wf c -> exists c', setLastCTS 0 txn c = Ok c' /\ ctx_wf c' /\
  getLastCTS c' 0 = Ok txn /\ usedSlots c' = usedSlots c /\ activeTxs c' = activeTxs c /\
  regStates c' = regStates c.
Proof.
  intros Hwf. pose proof (wf_grps c Hwf) as Hg. unfold setLastCTS.
  destruct c as [nt gr rs tm re cr cw us at' ov ns ng]. cbn [topoGrps] in *.
  destruct gr as [|g [|]]; try done. cbn. eexists. split; [reflexivity|].
  destruct Hwf. split; [by split|done].
Qed.

(** Updating an entry in place, keeping its id, preserves well-formedness. *)
Lemma update_slot_wf c pos a w r :
  ctx_wf c -> activeTxs c !! pos = Some a ->
  length w = MAX_STATES_TOPO -> length r = MAX_TOPO_GRPS ->
  ctx_wf (with_slots (usedSlots c) (<[pos := mkActiveTx (at_id a) w r]> (activeTxs c)) c).
Proof.
  intros [Hs Hn Hl Hsh Hun Hli Hg] Ha Hw Hr.
  assert (forall i b, <[pos := mkActiveTx (at_id a) w r]> (activeTxs c) !! i = Some b ->
    exists b', activeTxs c !! i = Some b' /\ at_id b' = at_id b) as Hback.
  { intros i b [(-> & <- & _)|[Hne Hi]]%list_lookup_insert_Some; [by exists a|by exists b]. }
  rewrite Forall_lookup in Hsh.
  split; simpl; try done.
  - by rewrite length_insert.
  - rewrite Forall_lookup. intros i b Hb.
    apply list_lookup_insert_Some in Hb as [(-> & <- & _)|[Hne Hi]]; simpl.
    + destruct (Hsh _ _ Ha) as (? & ? & ?). done.
    + by eapply Hsh.
  - intros i j b d Hb Hd He Hnz.
    destruct (Hback _ _ Hb) as (b' & Hb' & Heb). destruct (Hback _ _ Hd) as (d' & Hd' & Hed).
    eapply Hun; [exact Hb'|exact Hd'|congruence|congruence].
  - intros i b Hb Hi. destruct (Hback _ _ Hi) as (b' & Hb' & Heb).
    rewrite <- Heb. by eapply Hli.
Qed.

Lemma clear_slot_wf c p : 0 <= p -> ctx_wf c ->
  ctx_wf (with_slots (clear_bit (usedSlots c) p) (activeTxs c) c).
Proof.
  intros Hp [Hs Hn Hl Hsh Hun Hli Hg]. split; simpl; try done.
  - by apply clear_bit_bound; [lia..|].
  - intros i a Hb. rewrite clear_bit_testbit in Hb by lia.
    apply andb_prop in Hb as [_ Hb]. by apply Hli.
Qed.

Lemma removeTx_unfold c pos a : ctx_wf c -> live_at c pos a ->
  removeTx (at_id a) c = Ok (with_slots (clear_bit (usedSlots c) (Z.of_nat pos))
     (<[pos := mkActiveTx (at_id a) (at_write a) [0]]> (activeTxs c)) c).
Proof.
  intros Hwf Hlive. pose proof Hlive as [Hb Hl].
  unfold removeTx. cbn [reset_reads MAX_TOPO_GRPS seq].
  rewrite (setReadCTS_at c pos a 0 Hwf Hlive). cbn [mbind result_bind reset_reads].
  assert (ctx_wf (with_slots (usedSlots c) (<[pos:=mkActiveTx (at_id a) (at_write a) [0]]> (activeTxs c)) c)) as Hwf'.
  { apply update_slot_wf; [done|done| |done]. by apply (ctx_shape c pos a). }
  pose proof (getPos_wf _ pos (mkActiveTx (at_id a) (at_write a) [0]) Hwf') as Hpos.
  cbn [at_id] in Hpos. rewrite Hpos; [done| |].
  - apply list_lookup_insert_eq. by eapply lookup_lt_Some.
  - by eapply (wf_live c Hwf).
Qed.

(** ** The used slots *)

Lemma used_from_spec slots pos l a :
  0 <= pos ->
  a ∈ used_from slots pos l <->
  exists i : nat, l !! i = Some a /\ Z.testbit slots (pos + Z.of_nat i) = true.
Proof.
  revert pos. induction l as [|b l IH]; intros pos Hpos; simpl.
  - split; [by intros ?%not_elem_of_nil|by intros (i & Hi & _)].
  - assert (a ∈ used_from slots (pos + 1) l <->
      exists i : nat, (b :: l) !! S i = Some a /\ Z.testbit slots (pos + Z.of_nat (S i)) = true) as Htl.
    { rewrite IH by lia. split; intros (i & Hi & Hb); exists i; (split; [done|]).
      - by replace (pos + Z.of_nat (S i)) with (pos + 1 + Z.of_nat i) by lia.
      - by replace (pos + 1 + Z.of_nat i) with (pos + Z.of_nat (S i)) by lia. }
    destruct (Z.testbit slots pos) eqn:Hb.
    + rewrite elem_of_cons, Htl. split.
      * intros [->|(i & ?)]; [|by exists (S i)]. exists 0%nat. by rewrite Z.add_0_r.
      * intros ([|i] & Hi & ?); [left; simpl in Hi; congruence|right; by exists i].
    + rewrite Htl. split; [by intros (i & ?); exists (S i)|].
      intros ([|i] & Hi & Hbi); [|by exists i]. by rewrite Z.add_0_r, Hb in Hbi.
Qed.

Lemma used_txs_live c a : a ∈ used_txs c <-> exists pos, live_at c pos a.
Proof.
  unfold used_txs. rewrite used_from_spec by lia. unfold live_at. simpl.
  split; intros (i & ? & ?); by exists i.
Qed.

Lemma fold_min_id l m :
  let r := fold_left (fun oldest a => Z.min (at_id a) oldest) l m in
  r <= m /\ (forall a, a ∈ l -> r <= at_id a) /\ (r = m \/ exists a, a ∈ l /\ r = at_id a).
Proof.
  revert m. induction l as [|b l IH]; intros m; simpl.
  - split; [lia|]. split; [by intros ? ?%not_elem_of_nil|by left].
  - destruct (IH (Z.min (at_id b) m)) as (H1 & H2 & H3). split; [lia|]. split.
    + intros a [->|Ha]%elem_of_cons; [lia|by apply H2].
    + destruct H3 as [H3|(a & Ha & H3)]; [|right; exists a; (split; [by apply elem_of_cons; right|done])].
      destruct (Z.min_spec (at_id b) m) as [[? Hm]|[? Hm]]; rewrite Hm in H3 |- *.
      * right. exists b. split; [by apply elem_of_cons; left|done].
      * by left.
Qed.

Definition read0 (a : ActiveTx) : Z := default 0 (at_read a !! 0%nat).

Lemma fold_min_read l m :
  let r := fold_left (fun newMin a =>
    let rCTS := read0 a in
    if negb (rCTS =? 0) && (rCTS <? newMin) then rCTS else newMin) l m in
  r <= m /\ (forall a, a ∈ l -> read0 a <> 0 -> r <= read0 a) /\
  (r = m \/ exists a, a ∈ l /\ r = read0 a /\ read0 a <> 0).
Proof.
  revert m. induction l as [|b l IH]; intros m; simpl.
  - split; [lia|]. split; [by intros ? ?%not_elem_of_nil|by left].
  - set (m' := if _ && _ then _ else _).
    assert (m' <= m /\ (read0 b <> 0 -> m' <= read0 b) /\ (m' = m \/ m' = read0 b /\ read0 b <> 0)) as (Hm & Hb & Hor).
    { subst m'. destruct (Z.eqb_spec (read0 b) 0), (Z.ltb_spec (read0 b) m); simpl;
        (split_and!; [lia|lia|]); [by left|by left|by right|by left]. }
    specialize (IH m'). cbv zeta in IH. clearbody m'. destruct IH as (H1 & H2 & H3).
    split; [lia|]. split.
    + intros a [->|Ha]%elem_of_cons Hnz; [|by apply H2]. specialize (Hb Hnz). lia.
    + destruct H3 as [H3|(a & Ha & H3)]; [|right; exists a; (split; [by apply elem_of_cons; right|done])].
      destruct Hor as [Hor|Hor]; [left; congruence|].
      right. exists b. rewrite elem_of_cons. destruct Hor. split_and!; [by left|congruence|done].
Qed.

Lemma min_readCTS_spec c :
  (forall pos a, live_at c pos a -> read0 a <> 0 -> min_readCTS c <= read0 a) /\
  (min_readCTS c = DTS_INF \/ exists pos a, live_at c pos a /\ min_readCTS c = read0 a /\ read0 a <> 0).
Proof.
  destruct (fold_min_read (used_txs c) DTS_INF) as (H1 & H2 & H3). split.
  - intros pos a Hlive. apply H2. apply used_txs_live. by exists pos.
  - destruct H3 as [H3|(a & Ha & H3)]; [by left|right].
    apply used_txs_live in Ha as [pos Ha]. by exists pos, a.
Qed.

Lemma getOldestActiveTx_spec c :
  (forall pos a, live_at c pos a -> getOldestActiveTx c <= at_id a) /\
  (getOldestActiveTx c = DTS_INF \/ exists pos a, live_at c pos a /\ getOldestActiveTx c = at_id a).
Proof.
  destruct (fold_min_id (used_txs c) DTS_INF) as (H1 & H2 & H3). split.
  - intros pos a Hlive. apply H2. apply used_txs_live. by exists pos.
  - destruct H3 as [H3|(a & Ha & H3)]; [by left|right].
    apply used_txs_live in Ha as [pos Ha]. by exists pos, a.
Qed.

Lemma getLastCTS_wf c : ctx_wf c -> exists last, getLastCTS c 0 = Ok last.
Proof.
  intros Hwf. unfold getLastCTS.
  destruct (get_at_lt (topoGrps c) 0) as [g Hg]; [by rewrite (wf_grps c Hwf); unfold MAX_TOPO_GRPS; lia|].
  rewrite Hg. by eexists.
Qed.

(** ** Properties *)

(** C8: the branch-free de Bruijn scan of [getFreePos] returns, for every
    64-bit word that is not full, the position of its first zero bit from the
    right, and 64 for the full word, as its documentation promises. *)
Theorem getFreePos_spec (v : Z) (Hv : is_u64 v) :
  (v = UINT64_MAX /\ getFreePos v = 64) \/ is_first_free v (getFreePos v).
Proof.
  destruct (decide (v = UINT64_MAX)) as [->|Hne]; [by left|right].
  by apply getFreePos_first_free.
Qed.

Lemma getFreePos_spec_witness :
  is_u64 0xFF7F /\ ((0xFF7F = UINT64_MAX /\ getFreePos 0xFF7F = 64) \/ is_first_free 0xFF7F (getFreePos 0xFF7F)) /\
  getFreePos 0xFF7F = 7.
Proof.
  split; [word_lia|]. split; [|vm_compute; reflexivity].
  apply (getFreePos_spec 0xFF7F). word_lia.
Defined.

(** On a well-formed context with a free slot, [newTx] hands out the
    current counter value as id, stores it in a slot that was free, starts it
    with every state [Active] and no read snapshot, finds it again through
    [getPosFromTxnID], and leaves every running transaction untouched; with
    all 64 slots taken it runs past the slot array. *)
Lemma newTx_spec (c : ctx) (Hwf : ctx_wf c) (Hov : nextTxID c + 1 < 2^64) :
  (usedSlots c = UINT64_MAX -> newTx c = Err OutOfBounds) /\
  (usedSlots c <> UINT64_MAX ->
   exists c' pos, newTx c = Ok (nextTxID c, c') /\ ctx_wf c' /\
     Z.testbit (usedSlots c) (Z.of_nat pos) = false /\
     getPosFromTxnID c' (nextTxID c) = Ok pos /\
     live_at c' pos (mkActiveTx (nextTxID c) [Active; Active] [0]) /\
     nextTxID c' = nextTxID c + 1 /\
     forall p a, live_at c p a -> live_at c' p a /\
       (forall t, getWriteStatus c' (at_id a) t = getWriteStatus c (at_id a) t) /\
       (forall g, getReadCTS c' (at_id a) g = getReadCTS c (at_id a) g)).
Proof.
  split.
  { intros Hfull. unfold newTx. cbn [usedSlots with_nextTxID].
    by rewrite Hfull. }
  intros Hfree. destruct (newTx_unfold c Hwf Hfree) as (pos & Hff & Hnew).
  pose proof Hff as (Hrange & Hbit & _).
  pose proof (claim_slot_wf c pos (replicate MAX_STATES_TOPO Active) (replicate MAX_TOPO_GRPS 0)
    Hwf Hov ltac:(lia) eq_refl eq_refl) as Hwf'.
  set (c' := with_slots _ _ _) in Hnew, Hwf'. exists c', pos.
  assert (live_at c' pos (mkActiveTx (nextTxID c) [Active; Active] [0])) as Hlive.
  { split; simpl.
    - rewrite set_bit_testbit by lia. by rewrite bool_decide_eq_true_2.
    - apply list_lookup_insert_eq. rewrite (wf_len c Hwf). lia. }
  pose proof (wf_next c Hwf) as Hnext.
  split_and!; [done|done|done| |done|simpl; apply u64_small; word_lia|].
  { apply (getPos_wf c' pos (mkActiveTx (nextTxID c) [Active; Active] [0])); [done|apply Hlive|simpl; lia]. }
  intros p a [Hpb Hpl]. assert (live_at c' p a) as Hlive'.
  { assert (p <> pos) by congruence. split; simpl.
    - rewrite set_bit_testbit, Hpb by lia. apply orb_true_r.
    - by rewrite list_lookup_insert_ne by done. }
  split; [done|]. split; intros.
  - by rewrite (getWriteStatus_at c' p a), (getWriteStatus_at c p a) by done.
  - by rewrite (getReadCTS_at c' p a), (getReadCTS_at c p a) by done.
Qed.

Lemma newTx_spec_witness :
  exists c', newTx (reset 1000 (StateContext_init 7 3)) = Ok (1000, c').
Proof.
  destruct (proj2 (newTx_spec (reset 1000 (StateContext_init 7 3))
    (StateContext_reset_wf 7 1000 3 ltac:(lia) ltac:(lia)) ltac:(vm_compute; reflexivity))
    ltac:(vm_compute; discriminate)) as (c' & pos & H & _).
  exists c'. exact H.
Defined.

(** [removeTx] of a running transaction frees exactly its slot, clears
    its read snapshot and keeps the context well formed; every other running
    transaction keeps its slot and entry. *)
Lemma removeTx_spec (c : ctx) (pos : nat) (a : ActiveTx)
  (Hwf : ctx_wf c) (Hlive : live_at c pos a) :
  exists c', removeTx (at_id a) c = Ok c' /\ ctx_wf c' /\
    (forall b, ~ live_at c' pos b) /\
    (forall p b, p <> pos -> live_at c p b <-> live_at c' p b) /\
    getReadCTS c' (at_id a) 0 = Ok 0.
Proof.
  eexists. split; [by apply removeTx_unfold|].
  pose proof Hlive as [Hb Hl]. pose proof (ctx_shape c pos a Hwf Hl) as (Hw & _ & _).
  pose proof (update_slot_wf c pos a (at_write a) [0] Hwf Hl Hw eq_refl) as Hwf1.
  pose proof (clear_slot_wf _ (Z.of_nat pos) ltac:(lia) Hwf1) as Hwf2.
  set (c2 := with_slots _ _ _) in Hwf2. change (with_slots _ _ c) with c2.
  assert (activeTxs c2 !! pos = Some (mkActiveTx (at_id a) (at_write a) [0])) as Hl2.
  { apply list_lookup_insert_eq. by eapply lookup_lt_Some. }
  split_and!; [done| | |].
  - intros b [Hb' _]. simpl in Hb'. rewrite clear_bit_testbit in Hb' by lia.
    by rewrite bool_decide_eq_true_2 in Hb'.
  - intros p b Hne. unfold live_at. simpl.
    rewrite clear_bit_testbit, bool_decide_eq_false_2 by lia.
    by rewrite list_lookup_insert_ne by done.
  - unfold getReadCTS.
    pose proof (getPos_wf c2 pos _ Hwf2 Hl2 (wf_live c Hwf _ _ Hb Hl)) as Hpos.
    cbn [at_id] in Hpos. rewrite Hpos. run_step. by rewrite (get_at_Some _ _ _ Hl2).
Qed.

Lemma removeTx_spec_witness :
  exists c c', removeTx 1000 c = Ok c' /\ usedSlots c = 1 /\ usedSlots c' = 0.
Proof.
  set (c0 := reset 1000 (StateContext_init 7 3)).
  pose proof (StateContext_reset_wf 7 1000 3 ltac:(lia) ltac:(lia)) as Hwf. fold c0 in Hwf.
  pose proof (claim_slot_wf c0 0 [Active; Active] [5] Hwf ltac:(vm_compute; reflexivity)
    ltac:(lia) eq_refl eq_refl) as Hwf1.
  set (c1 := with_slots _ _ _) in Hwf1. exists c1.
  assert (live_at c1 0 (mkActiveTx 1000 [Active; Active] [5])) as Hlive by (split; reflexivity).
  destruct (removeTx_spec c1 0 _ Hwf1 Hlive) as (c' & H & _).
  exists c'. split; [exact H|]. split; [reflexivity|].
  vm_compute in H. injection H as <-. reflexivity.
Defined.

(** C6: once the garbage horizon has been set, [recalcOldestVisible] never
    returns a version above the read snapshot of any running reader, so
    [cleanUpVersions] with that bound cannot drop a version a reader may
    still ask for; the returned bound is itself the snapshot of a running
    reader or the last committed id, the stored horizon only grows, and
    nothing else of the context changes. *)
Theorem recalcOldestVisible_safe (c c' : ctx) (txn r : Z)
  (Hset : oldestVisibleVersion c <> 0)
  (Hrun : recalcOldestVisible txn c = Ok (r, c')) :
  (forall pos a, live_at c pos a -> read0 a <> 0 -> read0 a < DTS_INF -> r <= read0 a) /\
  (getLastCTS c 0 = Ok r \/ exists pos a, live_at c pos a /\ r = read0 a) /\
  oldestVisibleVersion c <= oldestVisibleVersion c' /\
  c' = with_oldest (oldestVisibleVersion c') c.
Proof.
  unfold recalcOldestVisible in Hrun.
  rewrite (proj2 (Z.eqb_neq _ _) Hset) in Hrun. cbn [negb] in Hrun.
  destruct (min_readCTS_spec c) as (Hmin & Hor).
  bind_inv Hrun as (nm & Hnm & [= -> <-]). simpl.
  assert (oldestVisibleVersion c <= (if oldestVisibleVersion c <? r then r else oldestVisibleVersion c)) as Hmono.
  { destruct (Z.ltb_spec (oldestVisibleVersion c) r); lia. }
  destruct (Z.eqb_spec (min_readCTS c) DTS_INF) as [Hinf|Hinf].
  - split_and!; [|by left|done|done].
    intros pos a Hl Hnz Hlt. specialize (Hmin pos a Hl Hnz). lia.
  - injection Hnm as <-. split_and!; [|right|done|done].
    + intros pos a Hl Hnz _. by apply (Hmin pos a).
    + destruct Hor as [?|(pos & a & ? & ? & ?)]; [done|]. by exists pos, a.
Qed.

(** a context with a reader at snapshot 5 and last commit 8 *)
Definition ctx_reader5 (horizon : Z) : ctx :=
  mkCtx 20 [([0; 0], 8)] [None; None] ∅ 0 0 0 1
    (mkActiveTx 10 [Active; Active] [5] :: replicate 63 (mkActiveTx 0 [Active; Active] [0]))
    horizon 0 1.

Lemma recalcOldestVisible_safe_witness : 5 <= 5 /\ recalcOldestVisible 12 (ctx_reader5 3) = Ok (5, ctx_reader5 5).
Proof.
  assert (recalcOldestVisible 12 (ctx_reader5 3) = Ok (5, ctx_reader5 5)) as H by reflexivity.
  split; [|exact H].
  destruct (recalcOldestVisible_safe (ctx_reader5 3) _ 12 5 ltac:(discriminate) H) as (Hs & _).
  apply (Hs 0%nat (mkActiveTx 10 [Active; Active] [5])); [split; reflexivity|discriminate|reflexivity].
Defined.

(** On the first call (horizon still 0) [recalcOldestVisible] ignores the
    running readers altogether and returns the last committed id, whatever
    snapshot the readers hold: with a reader at snapshot 5 and last commit 8
    it answers 8. *)
Lemma recalcOldestVisible_first_call (c : ctx) (txn last : Z)
  (Hzero : oldestVisibleVersion c = 0) (Hlast : getLastCTS c 0 = Ok last) :
  recalcOldestVisible txn c = Ok (last, with_oldest last c) /\
  recalcOldestVisible 12 (ctx_reader5 0) = Ok (8, ctx_reader5 8).
Proof.
  split; [|reflexivity]. unfold recalcOldestVisible. rewrite Hzero. cbn. by rewrite Hlast.
Qed.

Lemma recalcOldestVisible_first_call_witness :
  recalcOldestVisible 12 (ctx_reader5 0) = Ok (8, ctx_reader5 8) /\
  live_at (ctx_reader5 0) 0 (mkActiveTx 10 [Active; Active] [5]).
Proof.
  split; [|split; reflexivity].
  apply (recalcOldestVisible_first_call (ctx_reader5 0) 12 8); reflexivity.
Defined.

(** ** The key hash *)

(** [x ^ (x >> 16)] on 32 bits is its own inverse. *)
Lemma xorshift16_bound x : is_u32 x -> is_u32 (xorshift16 x).
Proof.
  intros Hx. unfold is_u32, xorshift16 in *.
  assert (0 <= Z.shiftr x 16) by (apply Z.shiftr_nonneg; lia).
  assert (0 <= Z.lxor (Z.shiftr x 16) x) by (apply Z.lxor_nonneg; lia).
  split; [done|]. apply bounded_by_bits; [lia|done|].
  intros i Hi. rewrite Z.lxor_spec, Z.shiftr_spec, !(testbit_above x 32) by lia. done.
Qed.

Lemma xorshift16_involutive x : is_u32 x -> xorshift16 (xorshift16 x) = x.
Proof.
  intros Hx. unfold xorshift16. apply Z.bits_inj'. intros i Hi.
  rewrite !Z.lxor_spec, !Z.shiftr_spec, Z.lxor_spec, Z.shiftr_spec by lia.
  rewrite (testbit_above x 32 (i + 16 + 16)) by (unfold is_u32 in Hx; lia).
  by destruct (Z.testbit x (i + 16)), (Z.testbit x i).
Qed.

Definition unhash_mul (x : Z) : Z := u32 (x * 0x119de1f3).

Lemma unhash_mul_spec x : is_u32 x -> unhash_mul (u32 (x * 0x45d9f3b)) = x.
Proof.
  intros Hx. unfold unhash_mul, u32. rewrite Zmult_mod_idemp_l, <- Z.mul_assoc.
  change (0x45d9f3b * 0x119de1f3) with (1 + 5040344 * 2^32).
  rewrite Z.mul_add_distr_l, Z.mul_1_r, Z.mul_assoc, Z.mod_add by lia.
  by apply Z.mod_small.
Qed.

Definition unhashMe (h : Z) : Z :=
  u32 (xorshift16 (unhash_mul (xorshift16 (unhash_mul (xorshift16 h)))) - 1).

Lemma unhash_hash x : is_u32 x -> unhashMe (hashMe x) = x.
Proof.
  intros Hx. unfold hashMe, unhashMe.
  pose proof (u32_range (x + 1)) as H1. set (y := u32 (x + 1)) in *.
  rewrite xorshift16_involutive by (apply u32_range).
  rewrite unhash_mul_spec by (apply xorshift16_bound, u32_range).
  rewrite xorshift16_involutive by (apply u32_range).
  rewrite unhash_mul_spec by (by apply xorshift16_bound).
  rewrite xorshift16_involutive by done.
  subst y. unfold u32. rewrite Zminus_mod_idemp_l, Z.add_simpl_r.
  by apply Z.mod_small.
Qed.

(** [hashMe] loses no information: two 32-bit keys with the same hash are
    equal, and its values stay in 32 bits. *)
Lemma hashMe_injective (x y : Z) (Hx : is_u32 x) (Hy : is_u32 y) :
  is_u32 (hashMe x) /\ (hashMe x = hashMe y -> x = y).
Proof.
  split.
  - apply xorshift16_bound, u32_range.
  - intros H. rewrite <- (unhash_hash x Hx), <- (unhash_hash y Hy). by f_equal.
Qed.

Lemma hashMe_injective_witness : is_u32 (hashMe 3) /\ hashMe 3 <> hashMe 4.
Proof.
  destruct (hashMe_injective 3 4 ltac:(word_lia) ltac:(word_lia)) as [H H'].
  split; [exact H|]. intros E. apply H' in E. discriminate E.
Defined.
