(* ===== verification/SlotAlloc.v ===== *)
(** * SlotAlloc: concurrent use of the transaction slot word

    [getSetFreePos] and [unsetPos] of [src/table/StateContext.cpp] are
    compare-exchange loops on one shared word.  This file runs any number of
    threads through those loops, one atomic access per step, and shows that
    no two threads ever own the same slot.  A thread that has loaded a full
    word shifts [1ULL] by 64, which has no defined result ("TODO: catch if no
    free position"): it is shown to need a 65th thread, and to be reached with
    one. *)

From S2P Require Import Prelude StateContext.

(** What a thread is doing: nothing, between the load and the exchange of
    [getSetFreePos], owning a slot, between the load and the exchange of
    [unsetPos]; and past the shift by 64, where nothing is known of it. *)
Inductive tstate :=
  | Idle
  | Allocating (expected : Z)
  | Holding (pos : Z)
  | Releasing (expected pos : Z)
  | Overshifted.

Record config := mkConfig { word : Z; threads : gmap nat tstate }.

Definition owned (t : tstate) : option Z :=
  match t with Holding p => Some p | Releasing _ p => Some p | _ => None end.

(** One atomic access.  A weak exchange may also fail spuriously, hence the
    failing steps do not compare the word.  The desired value is computed
    before the exchange, so that no exchange takes place on a full [expected]:
    the shift comes first. *)
Inductive step : config -> config -> Prop :=
  | step_alloc_load i w ts :
      ts !! i = Some Idle ->
      step (mkConfig w ts) (mkConfig w (<[i := Allocating w]> ts))
  | step_alloc_cas i w ts p w' :
      ts !! i = Some (Allocating w) -> claim_bit w = Ok (p, w') ->
      step (mkConfig w ts) (mkConfig w' (<[i := Holding p]> ts))
  | step_alloc_full i w ts e f :
      ts !! i = Some (Allocating e) -> claim_bit e = Err f ->
      step (mkConfig w ts) (mkConfig w (<[i := Overshifted]> ts))
  | step_alloc_fail i w ts e r :
      ts !! i = Some (Allocating e) -> claim_bit e = Ok r ->
      step (mkConfig w ts) (mkConfig w (<[i := Allocating w]> ts))
  | step_release_load i w ts p :
      ts !! i = Some (Holding p) ->
      step (mkConfig w ts) (mkConfig w (<[i := Releasing w p]> ts))
  | step_release_cas i w ts p :
      ts !! i = Some (Releasing w p) ->
      step (mkConfig w ts) (mkConfig (unsetPos w p) (<[i := Idle]> ts))
  | step_release_fail i w ts e p :
      ts !! i = Some (Releasing e p) ->
      step (mkConfig w ts) (mkConfig w (<[i := Releasing w p]> ts)).

Definition initial (n : nat) : config :=
  mkConfig 0 (list_to_map ((fun i => (i, Idle)) <$> seq 0 n)).

Definition reachable (n : nat) (c : config) : Prop := rtc step (initial n) c.

(** Every owned slot has its bit set, every set bit has an owner, and no two
    threads own the same slot. *)
Record slot_inv (c : config) : Prop := {
  inv_word : is_u64 (word c);
  inv_bits : forall i t p, threads c !! i = Some t -> owned t = Some p ->
    0 <= p < 64 /\ Z.testbit (word c) p = true;
  inv_excl : forall i j t u p, threads c !! i = Some t -> threads c !! j = Some u ->
    owned t = Some p -> owned u = Some p -> i = j;
  inv_owner : forall p, 0 <= p < 64 -> Z.testbit (word c) p = true -> exists i t, threads c !! i = Some t /\ owned t = Some p;
}.

Lemma initial_inv n : slot_inv (initial n).
Proof.
  assert (forall i t, threads (initial n) !! i = Some t -> t = Idle) as Hidle.
  { intros i t Ht. apply elem_of_list_to_map_2, list_elem_of_fmap in Ht as (k & [= _ ->] & _). done. }
  split; [done| | |].
  - intros i t p Ht Ho. by rewrite (Hidle i t Ht) in Ho.
  - intros i j t u p Ht _ Ho. by rewrite (Hidle i t Ht) in Ho.
  - intros p _ Hp. cbn in Hp. by rewrite Z.bits_0 in Hp.
Qed.

(** A step that keeps the word and the slot owned by thread [i]. *)
Lemma keep_inv w ts i t t' :
  slot_inv (mkConfig w ts) -> ts !! i = Some t -> owned t' = owned t ->
  slot_inv (mkConfig w (<[i := t']> ts)).
Proof.
  intros [Hw Hb He Ha] Hi Ho. simpl in *. split; simpl; [done| | |].
  - intros j u p [[<- <-]|[Hne Hu]]%lookup_insert_Some Hp; [|by eapply Hb].
    apply (Hb i t p); [done|congruence].
  - intros j k u v p Hu Hv Hpu Hpv.
    apply lookup_insert_Some in Hu as [[<- <-]|[? Hu]];
    apply lookup_insert_Some in Hv as [[<- <-]|[? Hv]].
    + done.
    + apply (He i k t v p); [done|done|congruence|done].
    + apply (He j i u t p); [done|done|done|congruence].
    + by eapply He.
  - intros p Hp Hbit. destruct (Ha p Hp Hbit) as (j & u & Hj & Hu). destruct (decide (j = i)) as [->|Hne].
    + exists i, t'. rewrite lookup_insert_eq. split; [done|congruence].
    + exists j, u. by rewrite lookup_insert_ne.
Qed.

Lemma claim_inv w w' ts i p :
  slot_inv (mkConfig w ts) -> ts !! i = Some (Allocating w) -> claim_bit w = Ok (p, w') ->
  slot_inv (mkConfig w' (<[i := Holding p]> ts)).
Proof.
  intros [Hw Hb He Ha] Hi Hc. simpl in *.
  destruct (claim_bit_Ok w p w' Hw Hc) as ((Hp & Hfree & _) & -> & Hw').
  assert (forall j u q, ts !! j = Some u -> owned u = Some q -> q <> p) as Hfresh.
  { intros j u q Hu Hq ->. destruct (Hb j u p Hu Hq) as [_ Ht]. congruence. }
  split; simpl; [done| | |].
  - intros j u q [[<- <-]|[Hne Hu]]%lookup_insert_Some Hq; simpl in *; simplify_eq.
    + split; [done|]. rewrite set_bit_testbit, bool_decide_eq_true_2 by lia. done.
    + destruct (Hb j u q Hu Hq) as [? Ht]. split; [done|].
      rewrite set_bit_testbit, Ht by lia. apply orb_true_r.
  - intros j k u v q Hu Hv Hqu Hqv.
    apply lookup_insert_Some in Hu as [[<- <-]|[? Hu]];
    apply lookup_insert_Some in Hv as [[<- <-]|[? Hv]]; simpl in *; simplify_eq; try done.
    + by edestruct Hfresh.
    + by edestruct Hfresh.
    + by eapply He.
  - intros q Hq Hbit. rewrite set_bit_testbit in Hbit by lia. destruct (decide (q = p)) as [->|Hne].
    + exists i, (Holding p). by rewrite lookup_insert_eq.
    + rewrite bool_decide_eq_false_2 in Hbit by congruence. destruct (Ha q Hq Hbit) as (j & u & Hj & Hu).
      exists j, u. rewrite lookup_insert_ne; [done|]. intros <-. rewrite Hi in Hj. by injection Hj as <-.
Qed.

Lemma release_inv w ts i p :
  slot_inv (mkConfig w ts) -> ts !! i = Some (Releasing w p) ->
  slot_inv (mkConfig (unsetPos w p) (<[i := Idle]> ts)).
Proof.
  intros [Hw Hb He Ha] Hi. simpl in *.
  destruct (Hb i _ p Hi eq_refl) as [Hp _].
  split; simpl.
  - apply clear_bit_bound; [lia|lia|done].
  - intros j u q [[<- <-]|[Hne Hu]]%lookup_insert_Some Hq; [done|].
    destruct (Hb j u q Hu Hq) as [? Ht]. split; [done|].
    unfold unsetPos. rewrite clear_bit_testbit, Ht by lia.
    rewrite bool_decide_eq_false_2; [done|]. intros ->.
    by apply Hne, (He i j _ u p Hi Hu).
  - intros j k u v q Hu Hv Hqu Hqv.
    apply lookup_insert_Some in Hu as [[<- <-]|[? Hu]]; [done|].
    apply lookup_insert_Some in Hv as [[<- <-]|[? Hv]]; [done|].
    by eapply He.
  - intros q Hq Hbit. unfold unsetPos in Hbit. rewrite clear_bit_testbit in Hbit by lia.
    apply andb_true_iff in Hbit as [Hne Hbit]. destruct (Ha q Hq Hbit) as (j & u & Hj & Hu).
    exists j, u. rewrite lookup_insert_ne; [done|]. intros <-. rewrite Hi in Hj. injection Hj as <-. injection Hu as ->.
    by rewrite bool_decide_eq_true_2 in Hne.
Qed.

Lemma step_inv c c' : step c c' -> slot_inv c -> slot_inv c'.
Proof.
  destruct 1; intros Hinv.
  - by apply (keep_inv w ts i Idle).
  - by apply (claim_inv w w' ts i p).
  - by apply (keep_inv w ts i (Allocating e)).
  - by apply (keep_inv w ts i (Allocating e)).
  - by apply (keep_inv w ts i (Holding p)).
  - by apply release_inv.
  - by apply (keep_inv w ts i (Releasing e p)).
Qed.

(** ** Who can load a full word *)

(** the owners of the slots [l] *)
Lemma owners c (l : list Z) : slot_inv c -> NoDup l -> Forall (fun p => 0 <= p < 64 /\ Z.testbit (word c) p = true) l ->
  exists js, length js = length l /\ NoDup js /\ Forall (fun j => exists u p, threads c !! j = Some u /\ owned u = Some p /\ p ∈ l) js.
Proof.
  intros Hinv. induction 1 as [|p l Hp Hnd IH]; intros Hall; [exists []; split_and!; [done|constructor|constructor]|].
  apply Forall_cons in Hall as [[Hr Hbit] Hall]. destruct (IH Hall) as (js & Hlen & Hjs & Hown).
  destruct (inv_owner c Hinv p Hr Hbit) as (j & u & Hj & Hu). exists (j :: js). split_and!.
  - cbn. by rewrite Hlen.
  - constructor; [|done]. intros Hin. rewrite Forall_forall in Hown. destruct (Hown j Hin) as (u' & q & Hj' & Hu' & Hq).
    rewrite Hj in Hj'. injection Hj' as <-. rewrite Hu in Hu'. by injection Hu' as <-.
  - constructor; [exists u, p; split_and!; [done|done|by left]|]. eapply Forall_impl; [exact Hown|].
    intros k (u' & q & Hk & Hu' & Hq). exists u', q. split_and!; [done|done|by right].
Qed.

(** all slots taken: 64 owners, and the thread that finds it so *)
Lemma full_word_threads c i t : slot_inv c -> word c = UINT64_MAX -> threads c !! i = Some t -> owned t = None ->
  (64 < size (threads c))%nat.
Proof.
  intros Hinv Hfull Hi Hfree. destruct (owners c (Z.of_nat <$> seq 0 64) Hinv) as (js & Hlen & Hnd & Hown).
  - apply (NoDup_fmap_2 Z.of_nat), NoDup_seq.
  - apply Forall_fmap, Forall_seq. intros k Hk. cbn. split; [lia|]. rewrite Hfull. unfold UINT64_MAX.
    replace (2^64 - 1) with (Z.ones 64) by done. apply Z.ones_spec_low. lia.
  - rewrite length_fmap, length_seq in Hlen. rewrite Forall_forall in Hown.
    assert (list_to_set (i :: js) ⊆ dom (threads c)) as Hsub.
    { intros j. rewrite elem_of_list_to_set, elem_of_cons, elem_of_dom. intros [->|Hj]; [by eexists|].
      destruct (Hown j Hj) as (u & p & Hu & _). by eexists. }
    apply subseteq_size in Hsub. rewrite size_dom, size_list_to_set in Hsub.
    + cbn in Hsub. lia.
    + constructor; [|done]. intros Hj. destruct (Hown i Hj) as (u & p & Hu & Ho & _). congruence.
Qed.

(** with at most 64 threads nobody has loaded a full word *)
Record room (c : config) : Prop := {
  room_size : (size (threads c) <= 64)%nat;
  room_loaded : forall i e, threads c !! i = Some (Allocating e) -> e <> UINT64_MAX;
  room_defined : forall i, threads c !! i <> Some Overshifted;
}.

Lemma room_insert w w' ts i t t' : room (mkConfig w ts) -> ts !! i = Some t -> t' <> Overshifted ->
  (forall e, t' = Allocating e -> e <> UINT64_MAX) -> room (mkConfig w' (<[i := t']> ts)).
Proof.
  intros [Hs Hl Hd] Hi Ht' He. split; simpl in *.
  - by rewrite map_size_insert_Some by (by eexists).
  - intros j e [[_ ->]|[_ Hj]]%lookup_insert_Some; [by apply He|by apply (Hl j)].
  - intros j [[_ ->]|[_ Hj]]%lookup_insert_Some; [done|by apply (Hd j)].
Qed.

Lemma step_room c c' : step c c' -> slot_inv c -> room c -> room c'.
Proof.
  destruct 1; intros Hinv Hr; pose proof Hr as [Hs Hl Hd]; simpl in *.
  - eapply room_insert; [done..|]. intros e [= <-] Hw.
    pose proof (full_word_threads (mkConfig w ts) i Idle Hinv Hw H eq_refl). simpl in *. lia.
  - by eapply room_insert.
  - pose proof (Hl i e H) as Hne. unfold claim_bit in H0. case_decide as Hlt; [done|].
    exfalso. apply Hne. unfold getFreePos in Hlt. destruct (Z.eqb_spec e UINT64_MAX) as [|Hn]; [done|].
    exfalso. apply Hlt. destruct (tab64 !! _) as [x|] eqn:Hx; cbn; [|lia].
    assert (Forall (fun x => x < 64) tab64) as Ht by (apply (bool_decide_unpack _); by vm_compute).
    rewrite Forall_forall in Ht. apply Ht. by eapply list_elem_of_lookup_2.
  - eapply room_insert; [done..|]. intros e' [= <-] Hw.
    pose proof (full_word_threads (mkConfig w ts) i (Allocating e) Hinv Hw H eq_refl). simpl in *. lia.
  - by eapply room_insert.
  - by eapply room_insert.
  - by eapply room_insert.
Qed.

Lemma initial_size n : size (threads (initial n)) = n.
Proof.
  cbn [threads initial]. rewrite <- size_dom, dom_list_to_map, <- list_fmap_compose.
  rewrite (list_fmap_ext (fst ∘ _) id) by done. rewrite list_fmap_id, size_list_to_set by apply NoDup_seq. apply length_seq.
Qed.

Lemma initial_lookup n i : (i < n)%nat -> threads (initial n) !! i = Some Idle.
Proof.
  intros Hi. apply elem_of_list_to_map_1'.
  - intros t Ht. apply list_elem_of_fmap in Ht as (k & [= _ ->] & _). done.
  - apply list_elem_of_fmap. exists i. split; [done|]. apply elem_of_seq. lia.
Qed.

Lemma reachable_inv n c : reachable n c -> slot_inv c /\ ((n <= 64)%nat -> room c).
Proof.
  intros H. unfold reachable in H. remember (initial n) as c0 eqn:Hc0.
  assert (slot_inv c0 /\ ((n <= 64)%nat -> room c0)) as Hinv.
  { subst. split; [apply initial_inv|]. intros Hn.
    assert (forall i t, threads (initial n) !! i = Some t -> t = Idle) as Hidle.
    { intros i t Ht. apply elem_of_list_to_map_2, list_elem_of_fmap in Ht as (k & [= _ ->] & _). done. }
    split; [by rewrite initial_size| |]; [intros i e Hi|intros i Hi]; by apply Hidle in Hi. }
  clear Hc0. induction H as [|x y z Hs Hr IH]; [done|]. apply IH. destruct Hinv as [Hinv Hroom].
  split; [by eapply step_inv|]. intros Hn. eapply step_room; [done|done|by apply Hroom].
Qed.

(** the threads below [k] have claimed a slot each, one after another *)
Lemma claimed_one_by_one n k : (k <= 64)%nat -> (k <= n)%nat ->
  exists ts, rtc step (initial n) (mkConfig (2 ^ Z.of_nat k - 1) ts) /\ forall i, (k <= i < n)%nat -> ts !! i = Some Idle.
Proof.
  induction k as [|k IH]; intros Hk Hn.
  - exists (threads (initial n)). split; [apply rtc_refl|]. intros i Hi. apply initial_lookup. lia.
  - destruct IH as (ts & Hrun & Hidle); [lia|lia|].
    assert (claim_bit (2 ^ Z.of_nat k - 1) = Ok (Z.of_nat k, 2 ^ Z.of_nat (S k) - 1)) as Hclaim.
    { assert (Forall (fun k => claim_bit (2 ^ Z.of_nat k - 1) = Ok (Z.of_nat k, 2 ^ Z.of_nat (S k) - 1)) (seq 0 64)) as Hall
        by (cbn [seq]; repeat (apply Forall_cons; split; [vm_compute; reflexivity|]); by apply Forall_nil).
      rewrite Forall_forall in Hall. apply Hall, elem_of_seq. lia. }
    exists (<[k := Holding (Z.of_nat k)]> (<[k := Allocating (2 ^ Z.of_nat k - 1)]> ts)). split.
    + eapply rtc_r; [eapply rtc_r; [exact Hrun|]|].
      * apply (step_alloc_load k). apply Hidle. lia.
      * apply (step_alloc_cas k _ _ (Z.of_nat k)); [by rewrite lookup_insert_eq|exact Hclaim].
    + intros i Hi. rewrite !lookup_insert_ne by lia. apply Hidle. lia.
Qed.

Lemma shift_by_64_reached n : (64 < n)%nat -> exists c i, reachable n c /\ threads c !! i = Some Overshifted.
Proof.
  intros Hn. destruct (claimed_one_by_one n 64) as (ts & Hrun & Hidle); [lia|lia|].
  eexists _, 64%nat. split.
  - eapply rtc_r; [eapply rtc_r; [exact Hrun|]|].
    + apply (step_alloc_load 64). apply Hidle. lia.
    + apply (step_alloc_full 64 _ _ (2 ^ Z.of_nat 64 - 1) OutOfBounds); [by rewrite lookup_insert_eq|vm_compute; reflexivity].
  - cbn. by rewrite lookup_insert_eq.
Qed.

(** C7: exclusive slots.  In every interleaving of the two compare-exchange
    loops by [n] threads, with spurious failures and lost races included, an
    owned slot is below 64 and marked used and two different threads never own
    the same one.  The word can be full: a thread that loads it then shifts
    [1ULL] by 64, which is undefined ([Overshifted]; it owns no slot here and
    takes no further step).  This happens in some interleaving exactly when
    there are more than 64 threads. *)
Theorem slot_exclusive (n : nat) :
  (forall c i j t u p, reachable n c -> threads c !! i = Some t -> threads c !! j = Some u -> owned t = Some p ->
     0 <= p < 64 /\ Z.testbit (word c) p = true /\ (owned u = Some p -> i = j)) /\
  ((exists c i, reachable n c /\ threads c !! i = Some Overshifted) <-> (64 < n)%nat).
Proof.
  split.
  - intros c i j t u p Hreach Hi Hj Ht. destruct (reachable_inv n c Hreach) as [[_ Hb He _] _].
    destruct (Hb i t p Hi Ht) as [? ?]. split; [done|]. split; [done|].
    intros Hu. by apply (He i j t u p).
  - split; [|apply shift_by_64_reached]. intros (c & i & Hreach & Hi). destruct (decide (64 < n)%nat) as [|Hle]; [done|].
    destruct (reachable_inv n c Hreach) as [_ Hroom]. by destruct (room_defined c (Hroom ltac:(lia)) i).
Qed.

Lemma slot_exclusive_witness :
  0 <= 1 < 64 /\ Z.testbit 3 1 = true /\ (owned (Holding 0) = Some 1 -> 1%nat = 0%nat).
Proof.
  set (ts0 := threads (initial 2)).
  set (c := mkConfig 3 (<[1%nat := Holding 1]> (<[1%nat := Allocating 1]> (<[0%nat := Holding 0]>
       (<[1%nat := Allocating 0]> (<[0%nat := Allocating 0]> ts0)))))).
  assert (reachable 2 c) as Hr.
  { unfold reachable, c.
    eapply rtc_l; [apply (step_alloc_load 0); reflexivity|].
    eapply rtc_l; [apply (step_alloc_load 1); reflexivity|].
    eapply rtc_l; [eapply (step_alloc_cas 0); reflexivity|].
    eapply rtc_l; [eapply (step_alloc_fail 1); reflexivity|].
    eapply rtc_l; [eapply (step_alloc_cas 1); reflexivity|].
    apply rtc_refl. }
  exact (proj1 (slot_exclusive 2) c 1%nat 0%nat (Holding 1) (Holding 0) 1 Hr eq_refl eq_refl eq_refl).
Defined.
