(* ===== verification/Tables.v ===== *)
(** * Tables: the non-transactional tables and their operators

    Models [src/table/HashMapTable.hpp] (iterator, table, observers),
    [src/table/BaseTable.hpp] (notification and modification modes) and the
    operators [src/qop/ToTable.hpp] and [src/qop/FromTable.hpp].  The class
    [TableOps] at the end is the interface through which the transactional
    tables use a table; [HashMapTable] discharges its laws. *)

From S2P Require Import Prelude.

(** ** TableParams (BaseTable.hpp) *)

Inductive NotificationMode := Immediate | OnCommit.
Inductive ModificationMode := Insert | Update | Delete.

#[export] Instance ModificationMode_eq_dec : EqDecision ModificationMode.
Proof. solve_decision. Defined.

(** ** The interface of a keyed table

    What [S2PLTable], [BOCCTable], [MVCCTable] and [TxTable] require of the
    table they are built on: insertion by key, deletion, in-place update with a
    state-passing updater, and lookup.  [tbl_put] says what an insert leaves
    behind, given what is stored under the key: the tables document it to be
    the new record ([Overwrites]), but not every one of them is ([Cuckoo.v]). *)
Class TableOps (T K R : Type) := {
  tbl_get : T -> K -> option R;                 (** [getByKey(key, out)] *)
  tbl_insert : K -> R -> T -> T;
  tbl_put : option R -> R -> R;
  tbl_delete : K -> T -> Z * T;                 (** [deleteByKey] *)
  tbl_update : forall {S}, K -> (R -> S -> result (R * S)) -> T -> S -> result (Z * T * S);
}.

Class TableLaws (T K R : Type) `{EqDecision K} {ops : TableOps T K R} := {
  tbl_get_insert : forall k r t k', tbl_get (tbl_insert k r t) k' =
    if decide (k = k') then Some (tbl_put (T:=T) (K:=K) (tbl_get t k) r) else tbl_get t k';
  tbl_put_new : forall r, tbl_put (T:=T) (K:=K) None r = r;
  tbl_get_delete : forall k t k', tbl_get (tbl_delete k t).2 k' = if decide (k = k') then None else tbl_get t k';
  tbl_delete_count : forall k t, (tbl_delete k t).1 = match tbl_get t k with Some _ => 1 | None => 0 end;
  tbl_update_absent : forall S k (f : R -> S -> result (R * S)) t s,
    tbl_get t k = None -> tbl_update k f t s = Ok (0, t, s);
  tbl_update_fault : forall S k (f : R -> S -> result (R * S)) t s r e,
    tbl_get t k = Some r -> f r s = Err e -> tbl_update k f t s = Err e;
  tbl_update_present : forall S k (f : R -> S -> result (R * S)) t s r r' s',
    tbl_get t k = Some r -> f r s = Ok (r', s') ->
    exists t', tbl_update k f t s = Ok (1, t', s') /\
      forall k', tbl_get t' k' = if decide (k = k') then Some r' else tbl_get t k';
}.

Class Overwrites (T K R : Type) {ops : TableOps T K R} : Prop :=
  put_overwrites : forall o (r : R), tbl_put (T:=T) (K:=K) o r = r.

(** a run of inserts under one key *)
Definition put_all (T K : Type) {R} {ops : TableOps T K R} (o : option R) (rs : list R) : option R :=
  fold_left (fun o r => Some (tbl_put (T:=T) (K:=K) o r)) rs o.

Lemma put_all_last {T K R} {ops : TableOps T K R} {ow : Overwrites T K R} o rs r : put_all T K o (rs ++ [r]) = Some r.
Proof. unfold put_all. rewrite fold_left_app. cbn. by rewrite ow. Qed.

(** ** HashMapTable *)

Module HashMap.
Section HashMapTable.
Context {K R : Type} `{Countable K}.

(** One delivered notification: the observer, the record it is handed
    (by reference), and the kind of modification. *)
Definition notification : Type := nat * R * ModificationMode.

Record HashMapTable := mkHashMapTable {
  mDataTable : gmap K R;
  mImmediateObservers : list nat;
  mDeferredObservers : list nat;
  delivered : list notification;
}.

(** ** HashMapIterator: the entries still ahead and the predicate *)
Record HashMapIterator := mkIter {
  it_rest : list (K * R);
  it_pred : R -> bool;
}.

Fixpoint skip_while_not (p : R -> bool) (l : list (K * R)) : list (K * R) :=
  match l with
  | [] => []
  | e :: rest => if p e.2 then l else skip_while_not p rest
  end.

Definition makeHashMapIterator (l : list (K * R)) (p : R -> bool) : HashMapIterator :=
  mkIter (skip_while_not p l) p.

Definition it_next (i : HashMapIterator) : result HashMapIterator :=
  match it_rest i with
  | [] => Err OutOfBounds
  | _ :: rest => Ok (mkIter (skip_while_not (it_pred i) rest) (it_pred i))
  end.

Definition it_isValid (i : HashMapIterator) : bool :=
  match it_rest i with [] => false | _ => true end.

Definition it_deref (i : HashMapIterator) : result R :=
  match it_rest i with [] => Err OutOfBounds | e :: _ => Ok e.2 end.

(** [for (; iter.isValid(); iter++) out.push_back( *iter)]: the scan loop of
    the documentation; [fuel] bounds the number of iterations. *)
Fixpoint it_collect (fuel : nat) (i : HashMapIterator) : result (list R) :=
  if it_isValid i then
    match fuel with
    | O => Err Waits
    | S fuel =>
        r ← it_deref i; i' ← it_next i; rs ← it_collect fuel i'; Ok (r :: rs)
    end
  else Ok [].

(** the unordered scan sequence of the table *)
Definition scan (t : HashMapTable) : list (K * R) := map_to_list (mDataTable t).

Definition with_data (m : gmap K R) (t : HashMapTable) : HashMapTable :=
  mkHashMapTable m (mImmediateObservers t) (mDeferredObservers t) (delivered t).

Definition HashMapTable_new : HashMapTable := mkHashMapTable ∅ [] [] [].

Definition notifyObservers (rec : R) (mode : ModificationMode) (notify : NotificationMode)
    (t : HashMapTable) : HashMapTable :=
  let obs := match notify with
    | Immediate => mImmediateObservers t
    | OnCommit => mDeferredObservers t
    end in
  mkHashMapTable (mDataTable t) (mImmediateObservers t) (mDeferredObservers t)
    (delivered t ++ ((fun o => (o, rec, mode)) <$> obs)).

(** [unordered_map::insert({key, rec})] keeps an existing entry *)
Definition map_insert_new (k : K) (r : R) (m : gmap K R) : gmap K R :=
  match m !! k with Some _ => m | None => <[k:=r]> m end.

Definition insert (key : K) (rec : R) (t : HashMapTable) : HashMapTable :=
  let m := match mDataTable t !! key with
    | Some _ => delete key (mDataTable t)
    | None => mDataTable t
    end in
  notifyObservers rec Insert Immediate (with_data (map_insert_new key rec m) t).

Definition deleteByKey (key : K) (t : HashMapTable) : Z * HashMapTable :=
  match mDataTable t !! key with
  | Some rec =>
      let t := match mImmediateObservers t with
        | [] => t
        | _ => notifyObservers rec Delete Immediate t
        end in
      (1, with_data (delete key (mDataTable t)) t)
  | None => (0, t)
  end.

Fixpoint deleteWhere_loop (func : R -> bool) (l : list (K * R)) (num : Z) (t : HashMapTable)
    : Z * HashMapTable :=
  match l with
  | [] => (num, t)
  | (k, r) :: rest =>
      if func r then
        let t := notifyObservers r Delete Immediate t in
        deleteWhere_loop func rest (num + 1) (with_data (delete k (mDataTable t)) t)
      else deleteWhere_loop func rest num t
  end.

Definition deleteWhere (func : R -> bool) (t : HashMapTable) : Z * HashMapTable :=
  deleteWhere_loop func (scan t) 0 t.

(** [ufunc] modifies the record in place and says whether to keep it.  After
    an erase the iterator [res] is invalid, and passing [res->second] on is
    the use of an erased element. *)
Definition updateOrDeleteByKey (key : K) (ufunc : R -> R * bool) (ifunc : option R)
    (t : HashMapTable) : result (Z * HashMapTable) :=
  match mDataTable t !! key with
  | Some rec =>
      let '(rec', upd) := ufunc rec in
      let t := with_data (<[key := rec']> (mDataTable t)) t in
      if upd then Ok (1, notifyObservers rec' Update Immediate t)
      else Err Dangling
  | None =>
      match ifunc with
      | Some r => Ok (1, insert key r t)
      | None => Ok (0, t)
      end
  end.

Definition updateByKey (key : K) (ufunc : R -> R) (t : HashMapTable) : Z * HashMapTable :=
  match mDataTable t !! key with
  | Some rec =>
      let rec' := ufunc rec in
      (1, notifyObservers rec' Update Immediate (with_data (<[key := rec']> (mDataTable t)) t))
  | None => (0, t)
  end.

Fixpoint updateWhere_loop (pfunc : R -> bool) (ufunc : R -> R) (l : list (K * R)) (num : Z)
    (t : HashMapTable) : Z * HashMapTable :=
  match l with
  | [] => (num, t)
  | (k, r) :: rest =>
      if pfunc r then
        let r' := ufunc r in
        updateWhere_loop pfunc ufunc rest (num + 1)
          (notifyObservers r' Update Immediate (with_data (<[k := r']> (mDataTable t)) t))
      else updateWhere_loop pfunc ufunc rest num t
  end.

Definition updateWhere (pfunc : R -> bool) (ufunc : R -> R) (t : HashMapTable) : Z * HashMapTable :=
  updateWhere_loop pfunc ufunc (scan t) 0 t.

Definition getByKey (key : K) (t : HashMapTable) : result R :=
  match mDataTable t !! key with
  | Some r => Ok r
  | None => Err (Throws "key not found")
  end.

Definition select (func : R -> bool) (t : HashMapTable) : HashMapIterator :=
  makeHashMapIterator (scan t) func.

Definition select_all (t : HashMapTable) : HashMapIterator :=
  makeHashMapIterator (scan t) (fun _ => true).

Definition table_size (t : HashMapTable) : Z := Z.of_nat (size (mDataTable t)).

Definition registerObserver (cb : nat) (mode : NotificationMode) (t : HashMapTable) : HashMapTable :=
  match mode with
  | Immediate => mkHashMapTable (mDataTable t) (mImmediateObservers t ++ [cb]) (mDeferredObservers t) (delivered t)
  | OnCommit => mkHashMapTable (mDataTable t) (mImmediateObservers t) (mDeferredObservers t ++ [cb]) (delivered t)
  end.

Definition table_drop (t : HashMapTable) : HashMapTable := with_data ∅ t.
Definition table_truncate (t : HashMapTable) : HashMapTable := with_data ∅ t.

(** the updater the transactional tables pass also changes the context [S] *)
Definition updateByKey_st {S} (key : K) (f : R -> S -> result (R * S)) (t : HashMapTable) (s : S)
    : result (Z * HashMapTable * S) :=
  match mDataTable t !! key with
  | Some rec =>
      '(rec', s') ← f rec s;
      Ok (1, notifyObservers rec' Update Immediate (with_data (<[key := rec']> (mDataTable t)) t), s')
  | None => Ok (0, t, s)
  end.

#[global] Instance HashMapTable_ops : TableOps HashMapTable K R := {
  tbl_get t k := mDataTable t !! k;
  tbl_insert := insert;
  tbl_put _ r := r;
  tbl_delete := deleteByKey;
  tbl_update S := @updateByKey_st S;
}.

(** ** ToTable: [processDataElement] *)
Definition ToTable_processDataElement {E} (mKeyFunc : E -> K) (deref : E -> R)
    (data : E) (outdated : bool) (t : HashMapTable) : (E * bool) * HashMapTable :=
  let key := mKeyFunc data in
  let t := if outdated then (deleteByKey key t).2 else insert key (deref data) t in
  ((data, outdated), t).

(** ** [Pipe::updateTable]: the function of its map

    An insertion updates the record of its key or inserts one; a retraction only
    updates.  [updateFunc] is told which of the two it is. *)
Definition updateTable_func {E} (keyFunc : E -> K) (updateFunc : E -> bool -> R -> R * bool) (insertFunc : E -> R)
    (tp : E) (outdated : bool) (t : HashMapTable) : result (E * HashMapTable) :=
  let key := keyFunc tp in
  '(_, t) ← (if negb outdated then updateOrDeleteByKey key (updateFunc tp outdated) (Some (insertFunc tp)) t
             else updateOrDeleteByKey key (updateFunc tp outdated) None t);
  Ok (tp, t).

(** ** FromTable: the queue filled by [tableCallback], drained by [producer] *)
Definition FromTable_tableCallback (data : R) (mode : ModificationMode) (mQueue : list (R * bool))
    : list (R * bool) :=
  mQueue ++ [(data, bool_decide (mode = Insert))].

Fixpoint FromTable_producer (mQueue : list (R * bool)) : list (R * bool) :=
  match mQueue with
  | [] => []
  | (tup, flag) :: rest => (tup, flag) :: FromTable_producer rest
  end.

(** ** Lemmas *)

Lemma map_insert_new_delete k r (m : gmap K R) :
  map_insert_new k r (match m !! k with Some _ => delete k m | None => m end) = <[k:=r]> m.
Proof.
  unfold map_insert_new. destruct (m !! k) as [x|] eqn:E.
  - by rewrite lookup_delete_eq, insert_delete_eq.
  - by rewrite E.
Qed.

Lemma insert_data key rec t : mDataTable (insert key rec t) = <[key:=rec]> (mDataTable t).
Proof. apply map_insert_new_delete. Qed.

Lemma deleteByKey_data key t : mDataTable (deleteByKey key t).2 = delete key (mDataTable t).
Proof.
  unfold deleteByKey. destruct (mDataTable t !! key) as [r|] eqn:E; simpl.
  - by destruct (mImmediateObservers t).
  - by rewrite delete_id.
Qed.

#[global] Instance HashMapTable_laws : TableLaws HashMapTable K R.
Proof.
  split; cbn [tbl_get tbl_insert tbl_delete tbl_update HashMapTable_ops].
  - intros k r t k'. rewrite insert_data. apply lookup_insert.
  - done.
  - intros k t k'. rewrite deleteByKey_data. apply lookup_delete.
  - intros k t. unfold deleteByKey. by destruct (mDataTable t !! k).
  - intros S k f t s Hk. unfold updateByKey_st. by rewrite Hk.
  - intros S k f t s r e Hk Hf. unfold updateByKey_st. by rewrite Hk, Hf.
  - intros S k f t s r r' s' Hk Hf. unfold updateByKey_st. rewrite Hk, Hf.
    eexists. split; [reflexivity|]. intros k'. apply lookup_insert.
Qed.

#[global] Instance HashMapTable_overwrites : Overwrites HashMapTable K R.
Proof. by intros o r. Qed.

Lemma skip_while_not_filter p (l : list (K * R)) :
  filter (fun e => p e.2 = true) (skip_while_not p l) = filter (fun e => p e.2 = true) l.
Proof.
  induction l as [|e l IH]; simpl; [done|]. destruct (p e.2) eqn:E; simpl; [done|].
  rewrite filter_cons_False by (simpl; congruence). done.
Qed.

Lemma skip_while_not_length p (l : list (K * R)) :
  (length (skip_while_not p l) <= length l)%nat.
Proof. induction l as [|e l IH]; simpl; [done|]. destruct (p e.2); simpl; lia. Qed.

Lemma skip_while_not_head p (l : list (K * R)) e rest :
  skip_while_not p l = e :: rest -> p e.2 = true.
Proof.
  induction l as [|x l IH]; simpl; [done|]. destruct (p x.2) eqn:E; [|done]. congruence.
Qed.

Lemma it_collect_skip p fuel (l : list (K * R)) :
  (length l <= fuel)%nat ->
  it_collect fuel (mkIter (skip_while_not p l) p) = Ok ((filter (fun e => p e.2 = true) l).*2).
Proof.
  revert l. induction fuel as [|fuel IH]; intros l Hl; simpl.
  - destruct l; [done|simpl in Hl; lia].
  - rewrite <- (skip_while_not_filter p l). unfold it_isValid, it_deref, it_next. simpl.
    destruct (skip_while_not p l) as [|e rest] eqn:E; simpl; [done|].
    pose proof (skip_while_not_head p l e rest E) as Hp.
    pose proof (skip_while_not_length p l) as Hlen. rewrite E in Hlen. simpl in Hlen.
    rewrite IH by lia. simpl. by rewrite filter_cons_True.
Qed.

Definition fold_delete (func : R -> bool) (l : list (K * R)) (m : gmap K R) : gmap K R :=
  fold_left (fun m e => if func e.2 then delete e.1 m else m) l m.

Lemma fold_delete_lookup func l (m : gmap K R) k :
  fold_delete func l m !! k =
    if decide (Exists (fun e => e.1 = k /\ func e.2 = true) l) then None else m !! k.
Proof.
  revert m. induction l as [|e l IH]; intros m; unfold fold_delete in *; cbn [fold_left].
  - case_decide as Hd; [by apply Exists_nil in Hd|done].
  - rewrite IH. destruct (func e.2) eqn:Ef.
    + destruct (decide (e.1 = k)) as [He|He].
      * rewrite (decide_True (P := Exists _ (e :: l))) by (by left).
        subst k. rewrite lookup_delete_eq. by case_decide.
      * rewrite lookup_delete_ne by done. apply decide_ext. rewrite Exists_cons. tauto.
    + apply decide_ext. rewrite Exists_cons, Ef. split; [by right|by intros [[_ ?]|?]].
Qed.

Lemma fold_delete_scan func (m : gmap K R) :
  fold_delete func (map_to_list m) m = filter (fun e => func e.2 = false) m.
Proof.
  apply map_eq. intros k. rewrite fold_delete_lookup, map_lookup_filter.
  case_decide as Hd.
  - apply Exists_exists in Hd as ([k' r] & Hin & Hk & Hf). simpl in *. subst k'.
    apply elem_of_map_to_list in Hin. rewrite Hin. simpl.
    rewrite option_guard_False by (simpl; congruence). done.
  - destruct (m !! k) as [r|] eqn:E; simpl; [|done].
    rewrite option_guard_True; [done|]. destruct (func r) eqn:Ef; [|done].
    destruct Hd. apply Exists_exists. exists (k, r). by rewrite elem_of_map_to_list.
Qed.

Lemma deleteWhere_loop_spec func l num t :
  let res := deleteWhere_loop func l num t in
  let hits := filter (fun e => func e.2 = true) l in
  res.1 = num + Z.of_nat (length hits) /\
  mDataTable res.2 = fold_delete func l (mDataTable t) /\
  mImmediateObservers res.2 = mImmediateObservers t /\
  delivered res.2 = delivered t ++
    concat ((fun e => (fun o => (o, e.2, Delete)) <$> mImmediateObservers t) <$> hits).
Proof.
  revert num t. induction l as [|[k r] l IH]; intros num t; simpl.
  - rewrite app_nil_r. split_and!; [lia|done..].
  - destruct (func r) eqn:Ef; simpl.
    + rewrite filter_cons_True by done. simpl.
      destruct (IH (num + 1) (with_data (delete k (mDataTable t)) (notifyObservers r Delete Immediate t)))
        as (H1 & H2 & H3 & H4). simpl in *.
      split_and!; [lia|done|done|]. by rewrite H4, <- app_assoc.
    + rewrite filter_cons_False by (simpl; congruence). apply IH.
Qed.

Definition fold_update (pfunc : R -> bool) (ufunc : R -> R) (l : list (K * R)) (m : gmap K R) : gmap K R :=
  fold_left (fun m e => if pfunc e.2 then <[e.1 := ufunc e.2]> m else m) l m.

Lemma fold_update_notin pfunc ufunc l (m : gmap K R) k :
  k ∉ l.*1 -> fold_update pfunc ufunc l m !! k = m !! k.
Proof.
  revert m. induction l as [|e l IH]; intros m Hk; [done|].
  apply not_elem_of_cons in Hk as [Hne Hk]. unfold fold_update in *. cbn [fold_left]. rewrite IH by done.
  destruct (pfunc e.2); [|done]. by rewrite lookup_insert_ne.
Qed.

Lemma fold_update_in pfunc ufunc l (m : gmap K R) k r :
  NoDup l.*1 -> (k, r) ∈ l -> m !! k = Some r ->
  fold_update pfunc ufunc l m !! k = Some (if pfunc r then ufunc r else r).
Proof.
  revert m. induction l as [|[k' r'] l IH]; intros m Hnd Hin Hm; [by apply not_elem_of_nil in Hin|].
  simpl in Hnd. apply NoDup_cons in Hnd as [Hnotin Hnd].
  apply elem_of_cons in Hin as [Heq|Hin].
  - injection Heq as <- <-. unfold fold_update. simpl.
    pose proof (fold_update_notin pfunc ufunc l (if pfunc r then <[k:=ufunc r]> m else m) k Hnotin) as He.
    unfold fold_update in He. rewrite He. destruct (pfunc r); [by rewrite lookup_insert_eq|done].
  - assert (k <> k') as Hne.
    { intros ->. apply Hnotin, list_elem_of_fmap. by exists (k', r). }
    unfold fold_update in *. simpl. apply IH; [done|done|].
    destruct (pfunc r'); [by rewrite lookup_insert_ne|done].
Qed.

Lemma fold_update_scan pfunc ufunc (m : gmap K R) :
  fold_update pfunc ufunc (map_to_list m) m = (fun r => if pfunc r then ufunc r else r) <$> m.
Proof.
  apply map_eq. intros k. rewrite lookup_fmap. destruct (m !! k) as [r|] eqn:E; simpl.
  - apply (fold_update_in pfunc ufunc _ m k r); [apply NoDup_fst_map_to_list| |done].
    by apply elem_of_map_to_list.
  - rewrite fold_update_notin; [done|]. intros Hin.
    apply list_elem_of_fmap in Hin as ([k' r] & -> & Hin).
    apply elem_of_map_to_list in Hin. simpl in E. congruence.
Qed.

Lemma updateWhere_loop_spec pfunc ufunc l num t :
  let res := updateWhere_loop pfunc ufunc l num t in
  let hits := filter (fun e => pfunc e.2 = true) l in
  res.1 = num + Z.of_nat (length hits) /\
  mDataTable res.2 = fold_update pfunc ufunc l (mDataTable t) /\
  mImmediateObservers res.2 = mImmediateObservers t /\
  delivered res.2 = delivered t ++
    concat ((fun e => (fun o => (o, ufunc e.2, Update)) <$> mImmediateObservers t) <$> hits).
Proof.
  revert num t. induction l as [|[k r] l IH]; intros num t; simpl.
  - rewrite app_nil_r. split_and!; [lia|done..].
  - destruct (pfunc r) eqn:Ef; simpl.
    + rewrite filter_cons_True by done. simpl.
      destruct (IH (num + 1) (notifyObservers (ufunc r) Update Immediate
        (with_data (<[k:=ufunc r]> (mDataTable t)) t))) as (H1 & H2 & H3 & H4). simpl in *.
      split_and!; [lia|done|done|]. by rewrite H4, <- app_assoc.
    + rewrite filter_cons_False by (simpl; congruence). apply IH.
Qed.
End HashMapTable.
Arguments HashMapTable : clear implicits.
Arguments HashMapTable K R {_ _}.
Arguments HashMapIterator : clear implicits.

Section properties.
Context {K R : Type} `{Countable K}.

Lemma filter_scan_size (P : K * R -> Prop) `{forall e, Decision (P e)} (m : gmap K R) :
  length (filter P (map_to_list m)) = size (filter P m).
Proof.
  rewrite map_filter_alt, <- length_map_to_list, map_to_list_to_map; [done|].
  apply NoDup_fmap_fst.
  - intros k r1 r2 [_ H1]%list_elem_of_filter [_ H2]%list_elem_of_filter.
    apply elem_of_map_to_list in H1, H2. congruence.
  - apply NoDup_filter, NoDup_map_to_list.
Qed.

(** The documented scan loop over [select(func)] terminates after at most
    one round per stored tuple and yields exactly the tuples of the table
    that satisfy the predicate, each once and in scan order. *)
Lemma select_visits (func : R -> bool) (t : HashMapTable K R) (fuel : nat)
  (Hfuel : (length (scan t) <= fuel)%nat) :
  it_collect fuel (select func t) = Ok ((filter (fun e => func e.2 = true) (scan t)).*2).
Proof. by apply it_collect_skip. Qed.

(** [deleteWhere] removes exactly the tuples satisfying the predicate and
    [updateWhere] rewrites exactly those, both return how many there were,
    and every immediate observer is told once about each of them: with the
    deleted tuple, or with the tuple as updated. *)
Lemma bulk_operations_spec (p : R -> bool) (f : R -> R) (t : HashMapTable K R) :
  let hits := filter (fun e : K * R => p e.2 = true) (scan t) in
  let told := fun (mode : ModificationMode) (g : R -> R) =>
    concat ((fun e : K * R => (fun o => (o, g e.2, mode)) <$> mImmediateObservers t) <$> hits) in
  (deleteWhere p t).1 = Z.of_nat (size (filter (fun e : K * R => p e.2 = true) (mDataTable t))) /\
  mDataTable (deleteWhere p t).2 = filter (fun e : K * R => p e.2 = false) (mDataTable t) /\
  delivered (deleteWhere p t).2 = delivered t ++ told Delete id /\
  (updateWhere p f t).1 = Z.of_nat (size (filter (fun e : K * R => p e.2 = true) (mDataTable t))) /\
  mDataTable (updateWhere p f t).2 = (fun r => if p r then f r else r) <$> mDataTable t /\
  delivered (updateWhere p f t).2 = delivered t ++ told Update f.
Proof.
  cbv zeta. unfold deleteWhere, updateWhere.
  destruct (deleteWhere_loop_spec p (scan t) 0 t) as (D1 & D2 & _ & D4).
  destruct (updateWhere_loop_spec p f (scan t) 0 t) as (U1 & U2 & _ & U4).
  rewrite D1, D2, D4, U1, U2, U4. unfold scan.
  rewrite fold_delete_scan, fold_update_scan, filter_scan_size.
  split_and!; first [done | lia].
Qed.

(** [updateOrDeleteByKey] keeps or inserts a tuple with one notification,
    does nothing for a missing key without [ifunc], and, when the updater
    asks for deletion, goes on to use the tuple it has just erased. *)
Lemma updateOrDeleteByKey_spec (key : K) (ufunc : R -> R * bool) (ifunc : option R)
    (t : HashMapTable K R) :
  match mDataTable t !! key, ifunc with
  | Some r, _ =>
      if (ufunc r).2 then
        exists t', updateOrDeleteByKey key ufunc ifunc t = Ok (1, t') /\
          mDataTable t' = <[key := (ufunc r).1]> (mDataTable t) /\
          delivered t' = delivered t ++ ((fun o => (o, (ufunc r).1, Update)) <$> mImmediateObservers t)
      else updateOrDeleteByKey key ufunc ifunc t = Err Dangling
  | None, Some r =>
      exists t', updateOrDeleteByKey key ufunc ifunc t = Ok (1, t') /\
        mDataTable t' = <[key := r]> (mDataTable t)
  | None, None => updateOrDeleteByKey key ufunc ifunc t = Ok (0, t)
  end.
Proof.
  unfold updateOrDeleteByKey. destruct (mDataTable t !! key) as [r|] eqn:E.
  - destruct (ufunc r) as [r' [|]]; simpl; [|done]. by eexists.
  - destruct ifunc as [r|]; [|done]. eexists. split; [done|]. apply insert_data.
Qed.

(** A tuple that enters a table as valid (not outdated) leaves the
    [FromTable] stream of that table flagged outdated, and a tuple deleted
    from the table leaves it flagged valid: [FromTable] publishes the
    insert flag in the position of the outdated flag. *)
Lemma FromTable_inverts_outdated (kf : R -> K) (r : R) (t : HashMapTable K R)
    (ob : nat) (Hob : mImmediateObservers t = [ob]) :
  let stream := fun t' : HashMapTable K R =>
    FromTable_producer (fold_left (fun q n => FromTable_tableCallback n.1.2 n.2 q)
      (list.drop (length (delivered t)) (delivered t')) []) in
  stream (ToTable_processDataElement kf id r false t).2 = [(r, true)] /\
  (mDataTable t !! kf r = Some r ->
   stream (ToTable_processDataElement kf id r true t).2 = [(r, false)]).
Proof.
  cbv zeta. unfold ToTable_processDataElement. cbn [snd]. split.
  - unfold insert, notifyObservers. simpl. rewrite Hob, drop_app_length. done.
  - intros Hr. unfold deleteByKey. rewrite Hr, Hob. simpl. rewrite Hob, drop_app_length. done.
Qed.
End properties.

Definition demo_table : HashMapTable Z Z :=
  mkHashMapTable (<[1 := 10]> (<[2 := 25]> (<[3 := 30]> ∅))) [7%nat] [] [].

Lemma select_visits_witness :
  it_collect 3 (select Z.even demo_table)
    = Ok ((filter (fun e => Z.even e.2 = true) (scan demo_table)).*2) /\
  (filter (fun e => Z.even e.2 = true) (scan demo_table)).*2 = [30; 10].
Proof.
  split; [|vm_compute; reflexivity].
  apply (select_visits Z.even demo_table 3). vm_compute. lia.
Defined.

Lemma FromTable_inverts_outdated_witness :
  (ToTable_processDataElement (fun r => r / 10) id 10 false demo_table).1 = (10, false) /\
  FromTable_producer (fold_left (fun q n => FromTable_tableCallback n.1.2 n.2 q)
     (list.drop 0 (delivered (ToTable_processDataElement (fun r => r / 10) id 10 false demo_table).2)) [])
  = [(10, true)].
Proof.
  split; [reflexivity|].
  exact (proj1 (FromTable_inverts_outdated (fun r => r / 10) 10 demo_table 7 eq_refl)).
Defined.
End HashMap.
