(* ===== verification/Catalog.v ===== *)
(** * Catalog: schemas and the registry of tables and streams

    [src/table/TableInfo.hpp/.cpp]: columns, the signature of a table, and the
    schema derived from a tuple type; [src/dsl/PFabricContext.hpp/.cpp]: the
    tables and streams of a context by name. *)

From S2P Require Import Prelude.

(** ** ColumnInfo, TableInfo *)

Inductive ColumnType := Void_Type | Int_Type | Double_Type | String_Type | UInt_Type.

#[export] Instance ColumnType_eq_dec : EqDecision ColumnType.
Proof. solve_decision. Defined.

Record ColumnInfo := mkColumnInfo { getName : string; getType : ColumnType }.

(** [mKeyType] is not initialised by the default constructor ([None]) *)
Record TableInfo := mkTableInfo { tableName : string; mColumns : list ColumnInfo; mKeyType : option ColumnType }.

Definition new_TableInfo : TableInfo := mkTableInfo "" [] None.
Definition TableInfo_columns (name : string) (columns : list ColumnInfo) (keyType : ColumnType) : TableInfo :=
  mkTableInfo name columns (Some keyType).
Definition TableInfo_named (name : string) : TableInfo := mkTableInfo name [] (Some Void_Type).
Definition setColumns (vec : list ColumnInfo) (t : TableInfo) : TableInfo := mkTableInfo (tableName t) vec (mKeyType t).

Definition columnInfo (pos : nat) (t : TableInfo) : result ColumnInfo := get_at (mColumns t) pos.

(** [operator<<] of a column type *)
Definition show_type (ct : ColumnType) : string :=
  match ct with
  | Void_Type => ""
  | Int_Type => "int"
  | Double_Type => "double"
  | String_Type => "std::string"
  | UInt_Type => "unsigned int"
  end.

Fixpoint typeDef_loop (first : bool) (cols : list ColumnInfo) (os : string) : string :=
  match cols with
  | [] => os
  | col :: cols => typeDef_loop false cols ((if first then os else os +:+ ", ") +:+ show_type (getType col))
  end.
Definition generateTypeDef (t : TableInfo) : string := typeDef_loop true (mColumns t) "TuplePtr<" +:+ ">".

Definition sig_char (ct : ColumnType) : string :=
  match ct with Void_Type => "V" | Int_Type => "i" | Double_Type => "d" | String_Type => "S" | UInt_Type => "u" end.
Fixpoint signature_loop (cols : list ColumnInfo) (os : string) : string :=
  match cols with
  | [] => os
  | col :: cols => signature_loop cols (os +:+ sig_char (getType col))
  end.
Definition typeSignature (t : TableInfo) : string := signature_loop (mColumns t) "[" +:+ "]".

(** the loop of [findColumnByName]; the position is converted to [int] *)
Fixpoint find_loop (colName : string) (cols : list ColumnInfo) (i : Z) : Z :=
  match cols with
  | [] => -1
  | c :: cols => if bool_decide (getName c = colName) then s32 i else find_loop colName cols (i + 1)
  end.
Definition findColumnByName (colName : string) (t : TableInfo) : Z := find_loop colName (mColumns t) 0.

(** *** The schema of a tuple type *)

(** the attribute types [GetType] tells apart *)
Inductive attr_type := AInt | ADouble | AString | AOther.

Definition GetType_apply (a : attr_type) : ColumnType :=
  match a with AInt => Int_Type | ADouble => Double_Type | AString => String_Type | AOther => Void_Type end.

(** [TupleTypes<Tuple, n>]: the attributes before [n], then attribute [n - 1] *)
Fixpoint TupleTypes_apply (attrs : list attr_type) (n : nat) (cols : list ColumnInfo) : result (list ColumnInfo) :=
  match n with
  | O => Ok cols
  | S n =>
      cols ← TupleTypes_apply attrs n cols;
      a ← get_at attrs n;
      Ok (cols ++ [mkColumnInfo "" (GetType_apply a)])
  end.

Definition constructSchema (attrs : list attr_type) (name : string) : result TableInfo :=
  cols ← TupleTypes_apply attrs (length attrs) [];
  Ok (setColumns cols (TableInfo_named name)).

(** ** PFabricContext *)

Section context.
(** a class of tables with its record and key types *)
Context {TableType : Type} `{EqDecision TableType}.

(** [BaseTable]: [info] can be null; [tag] tells the objects apart *)
Record BaseTable := mkBaseTable { type : TableType; info : option TableInfo; tag : nat }.

Record PFabricContext := mkContext { mTableSet : gmap string BaseTable; mStreamSet : gmap string nat; created : nat }.

Definition new_context : PFabricContext := mkContext ∅ ∅ 0.

Definition register (name : string) (t : BaseTable) (c : PFabricContext) : PFabricContext :=
  mkContext (<[name := t]> (mTableSet c)) (mStreamSet c) (S (created c)).

(** [createTable] and [createTxTable] with a name ([info] null) or a schema *)
Definition create (ty : TableType) (name : string) (info : option TableInfo) (c : PFabricContext) : result (BaseTable * PFabricContext) :=
  match mTableSet c !! name with
  | Some _ => Err (Throws "table already exists")
  | None => let t := mkBaseTable ty info (created c) in Ok (t, register name t c)
  end.
Definition createTable (ty : TableType) (tblName : string) (c : PFabricContext) : result (BaseTable * PFabricContext) :=
  create ty tblName None c.
Definition createTable_info (ty : TableType) (tblInfo : TableInfo) (c : PFabricContext) : result (BaseTable * PFabricContext) :=
  create ty (tableName tblInfo) (Some tblInfo) c.

(** [static_pointer_cast] to the type the caller names; [None]: an empty pointer *)
Definition getTable (ty : TableType) (tblName : string) (c : PFabricContext) : result (option BaseTable) :=
  match mTableSet c !! tblName with
  | Some t => if decide (type t = ty) then Ok (Some t) else Err Dangling
  | None => Ok None
  end.

Definition getTableInfo (tblName : string) (c : PFabricContext) : result (option TableInfo) :=
  match mTableSet c !! tblName with
  | Some t => Ok (info t)
  | None => Err (Throws "table not found")
  end.

(** a queue, registered in any case *)
Definition createStream (streamName : string) (c : PFabricContext) : nat * PFabricContext :=
  (created c, mkContext (mTableSet c) (<[streamName := created c]> (mStreamSet c)) (S (created c))).

(** *** Sequences of calls; a call that throws changes nothing *)

Inductive call := CreateTable (ty : TableType) (name : string) | CreateTableInfo (ty : TableType) (i : TableInfo) | CreateStream (name : string).

Definition call_step (c : PFabricContext) (x : call) : PFabricContext :=
  match x with
  | CreateTable ty name => match createTable ty name c with Ok (_, c) => c | Err _ => c end
  | CreateTableInfo ty i => match createTable_info ty i c with Ok (_, c) => c | Err _ => c end
  | CreateStream name => (createStream name c).2
  end.

(** the type and schema of the first call that creates a table *)
Definition creation (name : string) (x : call) : option (TableType * option TableInfo) :=
  match x with
  | CreateTable ty n => if bool_decide (n = name) then Some (ty, None) else None
  | CreateTableInfo ty i => if bool_decide (tableName i = name) then Some (ty, Some i) else None
  | CreateStream _ => None
  end.
End context.
Arguments BaseTable : clear implicits.
Arguments PFabricContext : clear implicits.
Arguments call : clear implicits.

(** ** Lemmas *)

Lemma find_loop_spec n cols i : 0 <= i -> i + Z.of_nat (length cols) <= 2 ^ 31 ->
  (find_loop n cols i = -1 /\ n ∉ getName <$> cols) \/
  exists k, find_loop n cols i = i + Z.of_nat k /\ (getName <$> cols) !! k = Some n /\ n ∉ take k (getName <$> cols).
Proof.
  revert i. induction cols as [|c cols IH]; intros i Hi Hl; cbn [find_loop length] in *; [left; split; [done|apply not_elem_of_nil]|].
  case_bool_decide as Hn.
  - right. exists O. rewrite s32_small by (unfold is_int; lia). rewrite fmap_cons. split_and!; [lia|by rewrite <- Hn|apply not_elem_of_nil].
  - rewrite fmap_cons. destruct (IH (i + 1)) as [[-> Hni]|(k & -> & Hk & Hni)]; [lia|lia| |].
    + left. split; [done|]. by intros [?|?]%elem_of_cons.
    + right. exists (S k). split_and!; [lia|done|]. cbn [take]. by intros [?|?]%elem_of_cons.
Qed.

(** the position of the first column of that name, or -1 *)
Lemma findColumnByName_spec n t : Z.of_nat (length (mColumns t)) <= 2 ^ 31 ->
  (findColumnByName n t = -1 /\ n ∉ getName <$> mColumns t) \/
  exists k, findColumnByName n t = Z.of_nat k /\ (getName <$> mColumns t) !! k = Some n /\ n ∉ take k (getName <$> mColumns t).
Proof. intros Hl. apply (find_loop_spec n (mColumns t) 0); lia. Qed.

Lemma TupleTypes_take attrs n cols : (n <= length attrs)%nat ->
  TupleTypes_apply attrs n cols = Ok (cols ++ ((fun a => mkColumnInfo "" (GetType_apply a)) <$> take n attrs)).
Proof.
  induction n as [|n IH]; intros Hn; cbn [TupleTypes_apply]; [by rewrite app_nil_r|]. rewrite IH by lia. run_step.
  destruct (lookup_lt_is_Some_2 attrs n ltac:(lia)) as [a Ha]. rewrite (get_at_Some _ _ _ Ha). run_step.
  by rewrite <- app_assoc, (take_S_r _ _ _ Ha), fmap_app.
Qed.

(** the columns of a derived schema have the types of the tuple and no names *)
Lemma constructSchema_spec attrs name : constructSchema attrs name =
  Ok (mkTableInfo name ((fun a => mkColumnInfo "" (GetType_apply a)) <$> attrs) (Some Void_Type)).
Proof. unfold constructSchema. rewrite TupleTypes_take by done. run_step. by rewrite firstn_all. Qed.

Lemma constructSchema_no_names attrs name n : n <> ""%string -> exists t, constructSchema attrs name = Ok t /\ findColumnByName n t = -1.
Proof.
  intros Hn. eexists. split; [apply constructSchema_spec|]. unfold findColumnByName. cbn [mColumns]. generalize 0.
  induction attrs as [|a attrs IH]; intros i; [done|]. rewrite fmap_cons. cbn [find_loop getName]. rewrite bool_decide_false by done. apply IH.
Qed.

(** equal signatures: the same column types *)
Lemma string_app_assoc (a b c : string) : (a +:+ b) +:+ c = a +:+ (b +:+ c).
Proof. induction a as [|x a IH]; [done|]. exact (f_equal (String x) IH). Qed.

Lemma string_app_nil (a : string) : a +:+ "" = a.
Proof. induction a as [|x a IH]; [done|]. exact (f_equal (String x) IH). Qed.

Fixpoint signature_of (cts : list ColumnType) : string :=
  match cts with [] => "" | ct :: cts => sig_char ct +:+ signature_of cts end.

Lemma signature_loop_app cols os : signature_loop cols os = os +:+ signature_of (getType <$> cols).
Proof.
  revert os. induction cols as [|c cols IH]; intros os; [symmetry; apply string_app_nil|]. cbn [signature_loop]. by rewrite IH, string_app_assoc.
Qed.

Lemma signature_of_inj cts cts' : signature_of cts +:+ "]" = signature_of cts' +:+ "]" -> cts = cts'.
Proof.
  revert cts'. induction cts as [|c cts IH]; intros [|c' cts']; cbn [signature_of].
  - done.
  - by destruct c'.
  - by destruct c.
  - destruct c, c'; cbn; intros Heq; try discriminate Heq; injection Heq as Heq; f_equal; by apply IH.
Qed.

Lemma typeSignature_inj t t' : typeSignature t = typeSignature t' <-> getType <$> mColumns t = getType <$> mColumns t'.
Proof.
  unfold typeSignature. rewrite !signature_loop_app, !string_app_assoc. split; [|by intros ->]. intros [= Heq]. by apply signature_of_inj.
Qed.

(** ** The registry *)
Section registry.
Context {TableType : Type} `{EqDecision TableType}.
Implicit Types (c : PFabricContext TableType).

Lemma create_step c ty name i n :
  mTableSet (match create ty name i c with Ok (_, c) => c | Err _ => c end) !! n =
  match mTableSet c !! n with Some t => Some t | None => if bool_decide (name = n) then Some (mkBaseTable ty i (created c)) else None end.
Proof.
  unfold create. destruct (mTableSet c !! name) as [t|] eqn:Hn.
  - case_bool_decide; [subst; by rewrite Hn|by destruct (mTableSet c !! n)].
  - cbn [register mTableSet]. case_bool_decide; [subst; by rewrite lookup_insert_eq, Hn|].
    rewrite lookup_insert_ne by done. by destruct (mTableSet c !! n).
Qed.

Lemma call_step_table c x n :
  (type <$> mTableSet (call_step c x) !! n, info <$> mTableSet (call_step c x) !! n) =
  match mTableSet c !! n with
  | Some t => (Some (type t), Some (info t))
  | None => (fst <$> creation n x, snd <$> creation n x)
  end.
Proof.
  destruct x as [ty name|ty i|name]; cbn [call_step creation].
  - unfold createTable. rewrite create_step. destruct (mTableSet c !! n); [done|]. by case_bool_decide.
  - unfold createTable_info. rewrite create_step. destruct (mTableSet c !! n); [done|]. by case_bool_decide.
  - cbn. by destruct (mTableSet c !! n).
Qed.

(** The first creation of a table decides what every later request for its
    name gets: its schema, and a table of its type; with another type the
    request casts the pointer wrongly *)
Lemma first_creation (xs : list (call TableType)) (n : string) ty :
  let c := foldl call_step new_context xs in
  match head (omap (creation n) xs) with
  | Some (ty0, i) => exists t, mTableSet c !! n = Some t /\ type t = ty0 /\ getTableInfo n c = Ok i /\
      getTable ty n c = (if decide (ty0 = ty) then Ok (Some t) else Err Dangling) /\
      createTable ty n c = Err (Throws "table already exists")
  | None => getTable ty n c = Ok None /\ getTableInfo n c = Err (Throws "table not found")
  end.
Proof.
  intros c.
  assert (forall c0, (type <$> mTableSet (foldl call_step c0 xs) !! n, info <$> mTableSet (foldl call_step c0 xs) !! n) =
    match mTableSet c0 !! n with
    | Some t => (Some (type t), Some (info t))
    | None => (fst <$> head (omap (creation n) xs), snd <$> head (omap (creation n) xs))
    end) as Hfold.
  { clear. induction xs as [|x xs IH]; intros c0; cbn [foldl]; [by destruct (mTableSet c0 !! n)|]. rewrite IH.
    pose proof (call_step_table c0 x n) as Hs. cbn [omap list_omap]. destruct (mTableSet (call_step c0 x) !! n) as [t|]; cbn in Hs.
    - rewrite Hs. destruct (mTableSet c0 !! n); [done|]. by destruct (creation n x) as [[? ?]|].
    - destruct (mTableSet c0 !! n); [done|]. by destruct (creation n x) as [[? ?]|]. }
  specialize (Hfold new_context). cbn [mTableSet new_context] in Hfold. rewrite lookup_empty in Hfold. fold c in Hfold.
  destruct (head (omap (creation n) xs)) as [[ty0 i]|]; destruct (mTableSet c !! n) as [t|] eqn:Ht; try done.
  - injection Hfold as H1 H2. exists t. unfold getTableInfo, getTable, createTable, create. rewrite Ht, H1, H2. done.
  - unfold getTable, getTableInfo. by rewrite Ht.
Qed.

(** a stream of a name that exists replaces it *)
Lemma createStream_replaces (c : PFabricContext TableType) name :
  let '(q1, c1) := createStream name c in
  let '(q2, c2) := createStream name c1 in
  q1 <> q2 /\ mStreamSet c2 !! name = Some q2.
Proof. cbn. split; [lia|]. apply lookup_insert_eq. Qed.
End registry.
