(* ===== verification/SqlCompiler.v ===== *)
(** * SqlCompiler: from a SQL query to a running topology

    The query compiler of [src/qcomp]: the syntax tree of a query
    ([SQLParser.hpp]), its plan ([Plan.hpp/.cpp]), the names and types of the
    generated program ([UniqueNameGenerator.cpp], [TypeManager.cpp]), the text of
    that program, and the cache of compiled queries ([QueryCompiler.cpp],
    [PlanCache.cpp]).  The grammar is run by Boost.Spirit, the program built by
    the system's compiler and loaded by Boost.DLL: parameters here. *)

From stdpp Require Import pretty.
From S2P Require Import Prelude Catalog.

Local Open Scope string_scope.

(** ** Text *)

Definition NL : string := String (Ascii.ascii_of_nat 10) "".
Definition TAB : string := String (Ascii.ascii_of_nat 9) "".
Definition QUOTE : string := String (Ascii.ascii_of_nat 34) "".

(** [std::map<std::string, A>] in key order *)
Section string_map.
Context {A : Type}.

Fixpoint smap_get (k : string) (m : list (string * A)) : option A :=
  match m with
  | [] => None
  | (k', v) :: m => if String.eqb k k' then Some v else smap_get k m
  end.

Fixpoint smap_put (k : string) (v : A) (m : list (string * A)) : list (string * A) :=
  match m with
  | [] => [(k, v)]
  | (k', v') :: m' =>
      if String.eqb k k' then (k, v) :: m'
      else if String.ltb k k' then (k, v) :: m
      else (k', v') :: smap_put k v m'
  end.
End string_map.

(** ** The syntax tree (namespace sql) *)

(** [columnPosition_] is not initialised by the parser ([None]) *)
Inductive Operand :=
  | Nil
  | Literal (value_ : Z)
  | Column (columnName_ : string) (columnPosition_ : option Z)
  | RightAssocExpression (left_ : Operand)
  | ExpressionOperand (head_ : Operand) (tail_ : list (string * Operand)).

Record Expression := mkExpression { head_ : Operand; tail_ : list (string * Operand) }.

Record SQLQuery := mkSQLQuery { columnList_ : list string; fromTableName_ : string; whereClause_ : option Expression }.

(** ** Plans *)

Inductive Payload :=
  | FromTable (tableName : string) (tableInfo : option TableInfo)
  | Where (condition : Expression)
  | Map (columns : list string) (positions : list Z).

(** [mParent] is not used *)
Inductive PlanOp := mkOp (payload : Payload) (mOutputSchema : TableInfo) (mChild mOtherChild : option PlanOp).

Definition payload (op : PlanOp) : Payload := match op with mkOp p _ _ _ => p end.
Definition outputSchema (op : PlanOp) : TableInfo := match op with mkOp _ s _ _ => s end.
Definition child (op : PlanOp) : option PlanOp := match op with mkOp _ _ c _ => c end.

Definition new_PlanOp (p : Payload) : PlanOp := mkOp p new_TableInfo None None.
Definition addChild (c op : PlanOp) : PlanOp := match op with mkOp p s _ o => mkOp p s (Some c) o end.

Definition constructFromSQLQuery (q : SQLQuery) : PlanOp :=
  let tbl := new_PlanOp (FromTable (fromTableName_ q) None) in
  let next :=
    match whereClause_ q with
    | Some condition => addChild tbl (new_PlanOp (Where condition))
    | None => tbl
    end in
  if (length (columnList_ q) =? 1)%nat && bool_decide (columnList_ q !! 0%nat = Some "*") then next
  else addChild next (new_PlanOp (Map (columnList_ q) [])).

(** ** The visitors *)

(** [MapColumnVisitor]: [std::map::at] throws *)
Section map_columns.
Context (columnMap : gmap string Z).

Fixpoint map_column (o : Operand) : result Operand :=
  match o with
  | Nil => Ok Nil
  | Literal v => Ok (Literal v)
  | Column n _ =>
      match columnMap !! n with
      | Some p => Ok (Column n (Some p))
      | None => Err (Throws "std::out_of_range")
      end
  | RightAssocExpression l => l ← map_column l; Ok (RightAssocExpression l)
  | ExpressionOperand h t =>
      h ← map_column h;
      t ← (fix tail (t : list (string * Operand)) : result (list (string * Operand)) :=
             match t with
             | [] => Ok []
             | (op, o) :: t => o ← map_column o; t ← tail t; Ok ((op, o) :: t)
             end) t;
      Ok (ExpressionOperand h t)
  end.

Fixpoint map_tail (t : list (string * Operand)) : result (list (string * Operand)) :=
  match t with
  | [] => Ok []
  | (op, o) :: t => o ← map_column o; t ← map_tail t; Ok ((op, o) :: t)
  end.
End map_columns.

(** the position of a name; a later column of the same name wins *)
Fixpoint columns_map (cols : list ColumnInfo) (i : Z) (m : gmap string Z) : gmap string Z :=
  match cols with
  | [] => m
  | c :: cols => columns_map cols (i + 1)%Z (<[getName c := i]> m)
  end.

Definition modifyWhereExpression (inputSchema : TableInfo) (condition : Expression) : result Expression :=
  let columnMap := columns_map (mColumns inputSchema) 0 ∅ in
  h ← map_column columnMap (head_ condition);
  t ← map_tail columnMap (tail_ condition);
  Ok (mkExpression h t).

(** [cppOperatorMap] *)
Definition cppOperator (op : string) : string :=
  if String.eqb op "and" then "&&"
  else if String.eqb op "or" then "||"
  else if String.eqb op "not" then "!"
  else if String.eqb op "=" then "=="
  else if String.eqb op "<>" then "!="
  else op.

(** [GenExpressionVisitor]; a position that was never set is indeterminate *)
Fixpoint gen_expression (o : Operand) (os : string) : result string :=
  match o with
  | Nil => Ok os
  | Literal v => Ok (os +:+ pretty v)
  | Column _ p => match p with Some p => Ok (os +:+ "get<" +:+ pretty p +:+ ">(tp)") | None => Err Dangling end
  | RightAssocExpression l => gen_expression l os
  | ExpressionOperand h t =>
      os ← gen_expression h os;
      (fix tail (t : list (string * Operand)) (os : string) : result string :=
         match t with
         | [] => Ok os
         | (op, o) :: t => os ← gen_expression o (os +:+ " " +:+ cppOperator op +:+ " "); tail t os
         end) t os
  end.

Fixpoint gen_tail (t : list (string * Operand)) (os : string) : result string :=
  match t with
  | [] => Ok os
  | (op, o) :: t => os ← gen_expression o (os +:+ " " +:+ cppOperator op +:+ " "); gen_tail t os
  end.

Definition generateWhereExpression (condition : Expression) : result string :=
  os ← gen_expression (head_ condition) "";
  gen_tail (tail_ condition) os.

Fixpoint gen_positions (first : bool) (positions : list Z) (os : string) : string :=
  match positions with
  | [] => os
  | p :: positions => gen_positions false positions ((if first then os else os +:+ ", ") +:+ "get<" +:+ pretty p +:+ ">(tp)")
  end.
Definition generateMapExpression (positions : list Z) : string := gen_positions true positions "".

(** ** The compiler

    What a call can change: the compiler, the counter of [UniqueNameGenerator],
    the tables and streams of the context, and what happened outside. *)

Section compiler.
Context {TableType : Type} `{EqDecision TableType}.
Notation PFabricContext := (PFabricContext TableType).

(** handles of loaded builders and of topologies *)
Record CacheEntry := mkCacheEntry { builder : nat; topology : nat; libraryName : string }.

Record QueryCompiler := mkCompiler {
  mTableSet : list (string * unit);
  mTypeTable : list (string * (TableInfo * string));
  planCache : list (string * CacheEntry);
}.

Definition new_compiler : QueryCompiler := mkCompiler [] [] [].

Inductive effect :=
  | Compiled (cppName : string) (program : string)
  | Created (builder topology : nat)
  | Started (topology : nat).

Record state := mkState { compiler : QueryCompiler; mCounter : Z; context : PFabricContext; effects : list effect }.

(** a call that throws keeps what it has changed *)
Definition M (A : Type) : Type := state -> result A * state.

#[local] Instance M_ret : MRet M := fun A a s => (Ok a, s).
#[local] Instance M_bind : MBind M := fun A B f m s =>
  match m s with (Ok a, s) => f a s | (Err e, s) => (Err e, s) end.

Definition lift {A} (r : result A) : M A := fun s => (r, s).
Definition get_compiler : M QueryCompiler := fun s => (Ok (compiler s), s).
Definition put_compiler (c : QueryCompiler) : M () := fun s => (Ok (), mkState c (mCounter s) (context s) (effects s)).
Definition get_context : M PFabricContext := fun s => (Ok (context s), s).
Definition happens (e : effect) : M () := fun s => (Ok (), mkState (compiler s) (mCounter s) (context s) (effects s ++ [e])).

(** *** UniqueNameGenerator, TypeManager, PlanCache *)

(** [fmt::format("{0}_{1}", prefix, mCounter)] *)
Definition uniqueName (prefix : string) : M string := fun s =>
  let n := u32 (mCounter s + 1) in
  (Ok (prefix +:+ "_" +:+ pretty n), mkState (compiler s) n (context s) (effects s)).

Definition registerType (tInfo : TableInfo) : M () :=
  c ← get_compiler;
  let sig := typeSignature tInfo in
  match smap_get sig (mTypeTable c) with
  | Some _ => mret ()
  | None =>
      n ← uniqueName "Tuple";
      put_compiler (mkCompiler (mTableSet c) (smap_put sig (tInfo, n +:+ "_Type_") (mTypeTable c)) (planCache c))
  end.

Definition nameOfType (tInfo : TableInfo) (c : QueryCompiler) : result string :=
  match smap_get (typeSignature tInfo) (mTypeTable c) with
  | Some typeInfo => Ok typeInfo.2
  | None => Err (Throws "unkown type")
  end.

(** [std::map::insert]: an entry that exists is kept *)
Definition addToCache (queryString : string) (entry : CacheEntry) : M () :=
  c ← get_compiler;
  match smap_get queryString (planCache c) with
  | Some _ => mret ()
  | None => put_compiler (mkCompiler (mTableSet c) (mTypeTable c) (smap_put queryString entry (planCache c)))
  end.

Definition findPlanForQuery (queryString : string) (c : QueryCompiler) : result CacheEntry :=
  match smap_get queryString (planCache c) with
  | Some e => Ok e
  | None => Err (Throws "query not found in cache")
  end.

(** *** checkPlan *)

(** the loop of [constructMapSchema]: positions and output columns *)
Fixpoint map_positions (inputSchema : TableInfo) (columns : list string) (positions : list Z) (outputColumns : list ColumnInfo)
    : result (list Z * list ColumnInfo) :=
  match columns with
  | [] => Ok (positions, outputColumns)
  | s :: columns =>
      let pos := findColumnByName s inputSchema in
      if bool_decide (pos <> -1)%Z then
        c ← columnInfo (Z.to_nat pos) inputSchema;
        map_positions inputSchema columns (positions ++ [pos]) (outputColumns ++ [c])
      else Err (Throws "unknown column")
  end.

(** the output columns are not stored in the schema of the operator: the line is
    commented out *)
Definition constructMapSchema (inputSchema : TableInfo) (columns : list string) (positions : list Z) : result (list Z) :=
  '(positions, outputColumns) ← map_positions inputSchema columns positions [];
  Ok positions.

Definition child_schema (mChild : option PlanOp) : result TableInfo :=
  match mChild with Some c => Ok (outputSchema c) | None => Err Dangling end.

(** [mTableSet.insert] *)
Definition insert_table (tableName : string) : M () :=
  c ← get_compiler;
  put_compiler (mkCompiler (smap_put tableName () (mTableSet c)) (mTypeTable c) (planCache c)).

(** the function that [checkPlan] applies to an operator *)
Definition check_op (op : PlanOp) : M PlanOp :=
  match op with
  | mkOp (Where condition) _ c o =>
      schema ← lift (child_schema c);
      condition ← lift (modifyWhereExpression schema condition);
      mret (mkOp (Where condition) schema c o)
  | mkOp (Map columns positions) s c o =>
      schema ← lift (child_schema c);
      positions ← lift (constructMapSchema schema columns positions);
      _ ← registerType s;
      mret (mkOp (Map columns positions) s c o)
  | mkOp (FromTable tableName _) _ c o =>
      ctx ← get_context;
      tableInfo ← lift (getTableInfo tableName ctx);
      info ← lift (match tableInfo with Some i => Ok i | None => Err Dangling end);
      _ ← insert_table tableName;
      _ ← registerType info;
      mret (mkOp (FromTable tableName tableInfo) info c o)
  end.

(** [traverse] with a function that changes the operators: the children first *)
Fixpoint traverse_check (op : PlanOp) : M PlanOp :=
  match op with
  | mkOp p s c o =>
      c ← match c with Some c => c ← traverse_check c; mret (Some c) | None => mret None end;
      o ← match o with Some o => o ← traverse_check o; mret (Some o) | None => mret None end;
      check_op (mkOp p s c o)
  end.

Definition checkPlan (plan : PlanOp) : M PlanOp := traverse_check plan.

(** *** The generated program *)

Definition generateHeader (className : string) : string :=
  "#include " +:+ QUOTE +:+ "qcomp/TopologyBuilder.hpp" +:+ QUOTE +:+ NL +:+ NL +:+ "using namespace pfabric;" +:+ NL +:+ NL +:+
  "BUILDER_CLASS(" +:+ className +:+ ")" +:+ NL +:+ NL.

Fixpoint typedefs (types : list (string * (TableInfo * string))) (os : string) : string :=
  match types with
  | [] => os
  | (_, tInfo) :: types => typedefs types (os +:+ "typedef " +:+ generateTypeDef tInfo.1 +:+ " " +:+ tInfo.2 +:+ ";" +:+ NL)
  end.
Definition generateTypedefs (c : QueryCompiler) : string := typedefs (mTypeTable c) "" +:+ NL.

Definition generateBeginClassDefinition (className : string) : string :=
  "PFabricContext::TopologyPtr " +:+ className +:+ "::create(PFabricContext& ctx) {" +:+ NL.
Definition generateEndClassDefinition : string := TAB +:+ "return topology;" +:+ NL +:+ "}" +:+ NL +:+ NL.
Definition generateFooter (className : string) : string :=
  "extern " +:+ QUOTE +:+ "C" +:+ QUOTE +:+ " BOOST_SYMBOL_EXPORT " +:+ className +:+ " " +:+ className +:+ "_obj_;" +:+ NL +:+
  className +:+ " " +:+ className +:+ "_obj_;".

(** [os << typeOfKey()] *)
Definition show_key (t : TableInfo) : result string :=
  match mKeyType t with Some k => Ok (show_type k) | None => Err Dangling end.

Fixpoint gen_tables (c : QueryCompiler) (ctx : PFabricContext) (tables : list (string * unit)) (os : string) : result string :=
  match tables with
  | [] => Ok os
  | (tbl, _) :: tables =>
      tblInfo ← getTableInfo tbl ctx;
      info ← (match tblInfo with Some i => Ok i | None => Err Dangling end);
      n ← nameOfType info c;
      k ← show_key info;
      gen_tables c ctx tables (os +:+ TAB +:+ "auto " +:+ tbl +:+ " = ctx.getTable<" +:+ n +:+ "::element_type, " +:+ k +:+ ">(" +:+
        QUOTE +:+ tbl +:+ QUOTE +:+ ");" +:+ NL)
  end.

Definition gen_op (c : QueryCompiler) (op : PlanOp) (os : string) : result string :=
  match op with
  | mkOp (Where condition) _ _ _ =>
      e ← generateWhereExpression condition;
      Ok (os +:+ TAB +:+ TAB +:+ ".where([](auto tp, bool) -> bool {" +:+ NL +:+ TAB +:+ TAB +:+ TAB +:+ "return " +:+ e +:+ "; })" +:+ NL)
  | mkOp (Map _ positions) s child _ =>
      _ ← child_schema child;
      n ← nameOfType s c;
      Ok (os +:+ TAB +:+ TAB +:+ ".map<" +:+ n +:+ ">([](auto tp, bool) -> " +:+ n +:+ " {" +:+ NL +:+ TAB +:+ TAB +:+ TAB +:+
        "return makeTuplePtr(" +:+ generateMapExpression positions +:+ "); })" +:+ NL)
  | mkOp (FromTable tableName _) s _ _ =>
      n ← nameOfType s c;
      k ← show_key s;
      Ok (os +:+ TAB +:+ "topology->selectFromTable<" +:+ n +:+ ", " +:+ k +:+ ">(" +:+ tableName +:+ ")" +:+ NL)
  end.

Fixpoint traverse_gen (c : QueryCompiler) (op : PlanOp) (os : string) : result string :=
  match op with
  | mkOp p s ch o =>
      os ← match ch with Some x => traverse_gen c x os | None => Ok os end;
      os ← match o with Some x => traverse_gen c x os | None => Ok os end;
      gen_op c (mkOp p s ch o) os
  end.

Definition generateQuery (c : QueryCompiler) (ctx : PFabricContext) (plan : PlanOp) : result string :=
  os ← gen_tables c ctx (mTableSet c) "";
  os ← traverse_gen c plan (os +:+ TAB +:+ "topology = ctx.createTopology();" +:+ NL);
  Ok (os +:+ TAB +:+ TAB +:+ ".print();" +:+ NL).

Definition generateCode (plan : PlanOp) (className : string) : M string :=
  c ← get_compiler;
  ctx ← get_context;
  query ← lift (generateQuery c ctx plan);
  mret (generateHeader className +:+ generateTypedefs c +:+ generateBeginClassDefinition className +:+ query +:+
    generateEndClassDefinition +:+ generateFooter className).

(** *** compileQuery, execQuery

    [phrase_parse]: the grammar on the whole text, [None] where it fails;
    [import]: the builder object of a library; [create]: its topology, and what
    it does to the context. *)
Context (phrase_parse : string -> option SQLQuery) (import : string -> string -> result nat)
  (create : nat -> PFabricContext -> result nat * PFabricContext).

Definition SQLParser_parse (stmt : string) : result SQLQuery :=
  match phrase_parse stmt with Some q => Ok q | None => Err (Throws "parsing failed") end.

Definition compileQuery (queryString : string) : M string :=
  query ← lift (SQLParser_parse queryString);
  plan ← checkPlan (constructFromSQLQuery query);
  cppName ← uniqueName "Query";
  program ← generateCode plan cppName;
  _ ← happens (Compiled cppName program);
  mret cppName.

Definition create_topology (b : nat) : M nat := fun s =>
  let '(t, ctx) := create b (context s) in
  (t, mkState (compiler s) (mCounter s) ctx (effects s)).

Definition execQuery (queryString : string) : M nat :=
  c ← get_compiler;
  match findPlanForQuery queryString c with
  | Ok entry => _ ← happens (Started (topology entry)); mret (builder entry)
  | Err _ =>
      queryName ← compileQuery queryString;
      b ← lift (import queryName (queryName +:+ "_obj_"));
      t ← create_topology b;
      _ ← happens (Created b t);
      _ ← addToCache queryString (mkCacheEntry b t queryName);
      _ ← happens (Started t);
      mret b
  end.
End compiler.

(** ** Conditions as the grammar builds them

    [expression]: comparisons joined by [and] and [or], in one flat list;
    [relational_expression]: an operand, or two with a comparison (the grammar
    also admits chains of comparisons). *)

Inductive atom := AColumn (n : string) | ALiteral (v : Z).
Inductive relop := Le | Lt | Ge | Gt | Ne | Eq.
Record relation := mkRelation { r_left : atom; r_right : option (relop * atom) }.
Inductive connective := And | Or.
Record condition := mkCondition { c_first : relation; c_rest : list (connective * relation) }.

Definition relop_text (o : relop) : string :=
  match o with Le => "<=" | Lt => "<" | Ge => ">=" | Gt => ">" | Ne => "<>" | Eq => "=" end.
Definition connective_text (c : connective) : string := match c with And => "and" | Or => "or" end.

(** the operands, with the positions [pos] that are known of the columns *)
Section operands.
Context (pos : string -> option Z).

Definition atom_operand (a : atom) : Operand := match a with AColumn n => Column n (pos n) | ALiteral v => Literal v end.
Definition relation_operand (r : relation) : Operand :=
  ExpressionOperand (RightAssocExpression (atom_operand (r_left r)))
    (match r_right r with Some (o, b) => [(relop_text o, RightAssocExpression (atom_operand b))] | None => [] end).
Definition condition_expression (c : condition) : Expression :=
  mkExpression (relation_operand (c_first c)) ((fun x => (connective_text x.1, relation_operand x.2)) <$> c_rest c).
End operands.

(** *** What a condition means in SQL *)

(** comparisons joined by [and] and [or], given what a comparison means: [and]
    binds more tightly than [or] *)
Section connectives.
Context (holds : relation -> bool).
Fixpoint rest_value (acc : bool) (rest : list (connective * relation)) : bool :=
  match rest with
  | [] => acc
  | (And, r) :: rest => rest_value (acc && holds r) rest
  | (Or, r) :: rest => acc || rest_value (holds r) rest
  end.
Definition connected (c : condition) : bool := rest_value (holds (c_first c)) (c_rest c).
End connectives.

Definition relop_value (o : relop) (x y : Z) : bool :=
  match o with
  | Le => x <=? y | Lt => x <? y | Ge => x >=? y | Gt => x >? y | Ne => negb (x =? y) | Eq => x =? y
  end%Z.

(** integers compared as such *)
Section sql_value.
Context (value : string -> Z).

Definition atom_value (a : atom) : Z := match a with AColumn n => value n | ALiteral v => v end.
Definition relation_value (r : relation) : bool :=
  match r_right r with
  | Some (o, b) => relop_value o (atom_value (r_left r)) (atom_value b)
  | None => negb (atom_value (r_left r) =? 0)%Z
  end.
Definition condition_value (c : condition) : bool := connected relation_value c.
End sql_value.

(** *** What the generated text means in C++

    The text is one of tokens; binary operators associate to the left, in the
    order relational, equality, [&&], [||]. *)
Inductive token := TGet (p : Z) | TInt (v : Z) | TOp (op : string).

Definition render_token (t : token) : string :=
  match t with
  | TGet p => "get<" +:+ pretty p +:+ ">(tp)"
  | TInt v => pretty v
  | TOp op => " " +:+ op +:+ " "
  end.
Definition render (ts : list token) : string := foldr (fun t s => render_token t +:+ s) "" ts.

(** a C++ value: an [int] (a [bool] is promoted to one), an [unsigned int], or
    a value of another type, whose comparisons are not modelled *)
Inductive cval := CInt (z : Z) | CUInt (z : Z) | COther.

(** an attribute of a column's type, in the range of the type *)
Definition typed (c : ColumnInfo) (x : cval) : Prop :=
  match getType c, x with
  | Int_Type, CInt z => (- 2^31 <= z < 2^31)%Z
  | UInt_Type, CUInt z => (0 <= z < 2^32)%Z
  | (Void_Type | Double_Type | String_Type), COther => True
  | _, _ => False
  end.

(** an operand, then operators with operands; a null flag is not looked at *)
Fixpoint token_pairs (row : list cval) (ts : list token) : option (list (string * cval)) :=
  match ts with
  | [] => Some []
  | TOp op :: TGet p :: ts => x ← row !! Z.to_nat p; l ← token_pairs row ts; Some ((op, x) :: l)
  | TOp op :: TInt v :: ts => l ← token_pairs row ts; Some ((op, CInt v) :: l)
  | _ => None
  end.
Definition token_operands (row : list cval) (ts : list token) : option (cval * list (string * cval)) :=
  match ts with
  | TGet p :: ts => x ← row !! Z.to_nat p; l ← token_pairs row ts; Some (x, l)
  | TInt v :: ts => l ← token_pairs row ts; Some (CInt v, l)
  | _ => None
  end.

Definition segment : Type := cval * list (string * cval).

(** the segments between the operators of one level *)
Fixpoint split_level (level : string -> bool) (h : cval) (l : list (string * cval)) : segment * list (string * segment) :=
  match l with
  | [] => ((h, []), [])
  | (o, v) :: l =>
      if level o then let '(s, rest) := split_level level v l in ((h, []), (o, s) :: rest)
      else let '(s, rest) := split_level level h l in ((h, (o, v) :: s.2), rest)
  end.

Definition is_op (ops : list string) (o : string) : bool := bool_decide (o ∈ ops).
Definition levels : list (string -> bool) := [is_op ["||"]; is_op ["&&"]; is_op ["=="; "!="]; is_op ["<="; "<"; ">="; ">"]].

Definition of_bool (b : bool) : cval := CInt (if b then 1 else 0).
(** the conversion to [bool] *)
Definition truth (v : cval) : option bool :=
  match v with CInt z | CUInt z => Some (negb (z =? 0)%Z) | COther => None end.
(** the usual arithmetic conversions: beside an [unsigned int], an [int] is
    taken modulo 2^32 *)
Definition converted (x y : cval) : option (Z * Z) :=
  match x, y with
  | CInt a, CInt b | CUInt a, CUInt b => Some (a, b)
  | CInt a, CUInt b => Some (u32 a, b)
  | CUInt a, CInt b => Some (a, u32 b)
  | _, _ => None
  end.
Definition comparison (o : string) : option relop :=
  if String.eqb o "==" then Some Eq else if String.eqb o "!=" then Some Ne else if String.eqb o "<=" then Some Le
  else if String.eqb o "<" then Some Lt else if String.eqb o ">=" then Some Ge else if String.eqb o ">" then Some Gt else None.
Definition apply_op (o : string) (x y : cval) : option cval :=
  if String.eqb o "||" then a ← truth x; b ← truth y; Some (of_bool (a || b))
  else if String.eqb o "&&" then a ← truth x; b ← truth y; Some (of_bool (a && b))
  else r ← comparison o; '(a, b) ← converted x y; Some (of_bool (relop_value r a b)).

Fixpoint cpp_levels (levels : list (string -> bool)) (s : segment) : option cval :=
  match levels with
  | [] => match s.2 with [] => Some s.1 | _ => None end
  | level :: levels =>
      let '(first, rest) := split_level level s.1 s.2 in
      v ← cpp_levels levels first;
      foldl (fun acc x => a ← acc; b ← cpp_levels levels x.2; apply_op x.1 a b) (Some v) rest
  end.

Definition cpp_value (row : list cval) (ts : list token) : option cval := s ← token_operands row ts; cpp_levels levels s.

(** the condition on values with types: every comparison after the conversions *)
Section cpp_condition.
Context (value : string -> cval).

Definition atom_cval (a : atom) : cval := match a with AColumn n => value n | ALiteral v => CInt v end.
Definition relation_cpp (r : relation) : option bool :=
  match r_right r with
  | Some (o, b) => '(x, y) ← converted (atom_cval (r_left r)) (atom_cval b); Some (relop_value o x y)
  | None => truth (atom_cval (r_left r))
  end.
Definition condition_cpp (c : condition) : bool := connected (fun r => default false (relation_cpp r)) c.
End cpp_condition.

(** the tokens of a condition *)
Section tokens.
Context (pos : string -> option Z).

Definition atom_token (a : atom) : token := match a with AColumn n => TGet (default 0%Z (pos n)) | ALiteral v => TInt v end.
Definition relation_tokens (r : relation) : list token :=
  atom_token (r_left r) :: match r_right r with Some (o, b) => [TOp (cppOperator (relop_text o)); atom_token b] | None => [] end.
Fixpoint rest_tokens (rest : list (connective * relation)) : list token :=
  match rest with
  | [] => []
  | (k, r) :: rest => TOp (cppOperator (connective_text k)) :: relation_tokens r ++ rest_tokens rest
  end.
Definition condition_tokens (c : condition) : list token := relation_tokens (c_first c) ++ rest_tokens (c_rest c).
End tokens.

Definition atom_columns (a : atom) : list string := match a with AColumn n => [n] | ALiteral _ => [] end.
Definition relation_columns (r : relation) : list string :=
  atom_columns (r_left r) ++ match r_right r with Some (_, b) => atom_columns b | None => [] end.
Definition condition_columns (c : condition) : list string :=
  relation_columns (c_first c) ++ concat ((fun x => relation_columns x.2) <$> c_rest c).

(** the value of a column in a row *)
Fixpoint column_value (cols : list ColumnInfo) (row : list cval) (n : string) : cval :=
  match cols, row with
  | c :: cols, x :: row => if String.eqb (getName c) n then x else column_value cols row n
  | _, _ => COther
  end.

Definition integer (v : cval) : Z := match v with CInt z | CUInt z => z | COther => 0 end.

(** *** Where both meanings agree *)
Definition condition_relations (c : condition) : list relation := c_first c :: (snd <$> c_rest c).

(** a literal that is an [int] in C++ *)
Definition literal_fits (a : atom) : Prop := match a with AColumn _ => True | ALiteral v => (- 2^31 < v < 2^31)%Z end.
Definition literals_fit (r : relation) : Prop :=
  literal_fits (r_left r) /\ match r_right r with Some (_, b) => literal_fits b | None => True end.

(** no negative [int] beside an [unsigned int] *)
Definition unmixed (x y : cval) : Prop :=
  match x, y with CInt a, CUInt _ => 0 <= a | CUInt _, CInt b => 0 <= b | _, _ => True end%Z.
Definition relation_unmixed (value : string -> cval) (r : relation) : Prop :=
  match r_right r with Some (_, b) => unmixed (atom_cval value (r_left r)) (atom_cval value b) | None => True end.

(** ** Text lemmas *)

Lemma render_cons t ts : render (t :: ts) = render_token t +:+ render ts.
Proof. reflexivity. Qed.

Lemma render_app ts us : render (ts ++ us) = render ts +:+ render us.
Proof. induction ts as [|t ts IH]; [done|]. cbn [app]. rewrite !render_cons. by rewrite IH, string_app_assoc. Qed.

Lemma get_put_eq {A} k (v : A) m : smap_get k (smap_put k v m) = Some v.
Proof.
  induction m as [|[k' v'] m IH]; cbn; [by rewrite String.eqb_refl|].
  destruct (String.eqb k k') eqn:E; cbn; [by rewrite String.eqb_refl|].
  destruct (String.ltb k k'); cbn; [by rewrite String.eqb_refl|by rewrite E].
Qed.

Lemma get_put_ne {A} k k' (v : A) m : k <> k' -> smap_get k (smap_put k' v m) = smap_get k m.
Proof.
  intros Hk. assert (Hb : String.eqb k k' = false) by by apply String.eqb_neq.
  induction m as [|[k2 v2] m IH]; cbn; [by rewrite Hb|].
  destruct (String.eqb k' k2) eqn:E; cbn.
  - apply String.eqb_eq in E as ->. by rewrite Hb.
  - destruct (String.ltb k' k2); cbn; [by rewrite Hb|]. by rewrite IH.
Qed.

(** ** The where clause: columns resolved, text generated *)

Section where_text.
Context (m : gmap string Z).
Notation pos := (fun n : string => m !! n).
Notation none := (fun _ : string => @None Z).

Lemma map_atom a : Forall (fun n => is_Some (m !! n)) (atom_columns a) ->
  map_column m (atom_operand none a) = Ok (atom_operand pos a).
Proof. destruct a as [n|v]; [|done]. intros [[p Hp] _]%Forall_cons. cbn. by rewrite Hp. Qed.

Lemma map_relation r : Forall (fun n => is_Some (m !! n)) (relation_columns r) ->
  map_column m (relation_operand none r) = Ok (relation_operand pos r).
Proof.
  unfold relation_columns. intros [Hl Hr]%Forall_app. unfold relation_operand. cbn [map_column].
  rewrite (map_atom _ Hl). cbn -[atom_operand]. destruct (r_right r) as [[o b]|]; [|done]. cbn -[atom_operand]. by rewrite (map_atom _ Hr).
Qed.

Lemma map_rest rest : Forall (fun n => is_Some (m !! n)) (concat ((fun x => relation_columns x.2) <$> rest)) ->
  map_tail m ((fun x => (connective_text x.1, relation_operand none x.2)) <$> rest)
  = Ok ((fun x => (connective_text x.1, relation_operand pos x.2)) <$> rest).
Proof.
  induction rest as [|[k r] rest IH]; [done|]. intros [Hr Hrest]%Forall_app. cbn [snd] in Hr.
  cbn [fmap list_fmap map_tail fst snd]. rewrite (map_relation _ Hr). cbn [mbind result_bind]. by rewrite (IH Hrest).
Qed.

Lemma gen_atom a os : Forall (fun n => is_Some (m !! n)) (atom_columns a) ->
  gen_expression (atom_operand pos a) os = Ok (os +:+ render_token (atom_token pos a)).
Proof. destruct a as [n|v]; [|done]. intros [[p Hp] _]%Forall_cons. cbn. by rewrite Hp. Qed.

Lemma gen_relation r os : Forall (fun n => is_Some (m !! n)) (relation_columns r) ->
  gen_expression (relation_operand pos r) os = Ok (os +:+ render (relation_tokens pos r)).
Proof.
  unfold relation_columns. intros [Hl Hr]%Forall_app. unfold relation_operand, relation_tokens.
  cbn [gen_expression]. rewrite (gen_atom _ _ Hl). cbn [mbind result_bind]. destruct (r_right r) as [[o b]|].
  - cbn -[atom_operand atom_token render_token render]. rewrite (gen_atom _ _ Hr).
    rewrite !render_cons, !string_app_assoc. cbn. by rewrite ?string_app_assoc, ?string_app_nil.
  - cbn -[atom_token render_token]. by rewrite string_app_nil.
Qed.

Lemma gen_rest rest os : Forall (fun n => is_Some (m !! n)) (concat ((fun x => relation_columns x.2) <$> rest)) ->
  gen_tail ((fun x => (connective_text x.1, relation_operand pos x.2)) <$> rest) os = Ok (os +:+ render (rest_tokens pos rest)).
Proof.
  revert os. induction rest as [|[k r] rest IH]; intros os; [by cbn; rewrite string_app_nil|]. intros [Hr Hrest]%Forall_app. cbn [snd] in Hr.
  cbn [fmap list_fmap gen_tail fst snd]. rewrite (gen_relation _ _ Hr). cbn [mbind result_bind].
  rewrite (IH _ Hrest). cbn. rewrite render_app, !string_app_assoc. done.
Qed.

Lemma where_text c : Forall (fun n => is_Some (m !! n)) (condition_columns c) ->
  map_column m (head_ (condition_expression none c)) = Ok (head_ (condition_expression pos c))
  /\ map_tail m (tail_ (condition_expression none c)) = Ok (tail_ (condition_expression pos c))
  /\ generateWhereExpression (condition_expression pos c) = Ok (render (condition_tokens pos c)).
Proof.
  unfold condition_columns. intros [Hf Hr]%Forall_app. split; [|split].
  - by apply map_relation.
  - by apply map_rest.
  - unfold generateWhereExpression, condition_tokens, condition_expression. cbn [head_ tail_].
    rewrite (gen_relation _ _ Hf). cbn [mbind result_bind]. by rewrite (gen_rest _ _ Hr), render_app.
Qed.
End where_text.

(** ** The generated text evaluates to the condition *)

Local Open Scope list_scope.

Definition no_op (level : string -> bool) (l : list (string * cval)) : Prop := Forall (fun x => level x.1 = false) l.

Lemma split_none level h l : no_op level l -> split_level level h l = ((h, l), []).
Proof.
  induction 1 as [|[o v] l Ho Hl IH] in h |- *; [done|]. cbn [split_level]. cbn in Ho. rewrite Ho, IH. done.
Qed.

Lemma split_at level h l o v q : no_op level l -> level o = true ->
  split_level level h (l ++ (o, v) :: q) = (let '(s, rest) := split_level level v q in ((h, l), (o, s) :: rest)).
Proof.
  intros Hl Ho. induction Hl as [|[o' v'] l Ho' Hl IH] in h |- *; cbn [app split_level].
  - by rewrite Ho.
  - cbn in Ho'. rewrite Ho', IH. by destruct (split_level level v q).
Qed.

Lemma split_snoc level h l o v q : level o = true -> no_op level q ->
  split_level level h (l ++ (o, v) :: q) = (let '(s, rest) := split_level level h l in (s, rest ++ [(o, (v, q))])).
Proof.
  intros Ho Hq. induction l as [|[o' v'] l IH] in h |- *; cbn [app split_level].
  - rewrite Ho, (split_none _ _ _ Hq). done.
  - destruct (level o'); rewrite IH; by destruct (split_level level _ l).
Qed.

Lemma split_ops ops h l : Forall (fun x => x.1 ∈ ops) (split_level (is_op ops) h l).2.
Proof.
  induction l as [|[o v] l IH] in h |- *; [constructor|]. cbn [split_level].
  destruct (is_op ops o) eqn:Ho.
  - specialize (IH v). destruct (split_level _ v l). constructor; [|done]. by apply bool_decide_eq_true in Ho.
  - specialize (IH h). by destruct (split_level _ h l).
Qed.

Lemma truth_of_bool b : truth (of_bool b) = Some b.
Proof. by destruct b. Qed.

Lemma apply_and x y a b : truth x = Some a -> truth y = Some b -> apply_op "&&" x y = Some (of_bool (a && b)).
Proof. intros Hx Hy. unfold apply_op. cbn -[truth]. by rewrite Hx, Hy. Qed.
Lemma apply_or x y : apply_op "||" x y = (a ← truth x; b ← truth y; Some (of_bool (a || b))).
Proof. reflexivity. Qed.

(** the fold of one level *)
Definition fold_level (levels : list (string -> bool)) (v : option cval) (rest : list (string * segment)) : option cval :=
  foldl (fun acc x => a ← acc; b ← cpp_levels levels x.2; apply_op x.1 a b) v rest.

Lemma cpp_levels_cons level ls s :
  cpp_levels (level :: ls) s = (let '(first, rest) := split_level level s.1 s.2 in v ← cpp_levels ls first; fold_level ls (Some v) rest).
Proof. reflexivity. Qed.

Lemma fold_or ls rest a u v ba bu : Forall (fun x => x.1 ∈ ["||"]) rest -> truth a = Some ba -> truth u = Some bu ->
  fold_level ls (Some u) rest = Some v ->
  exists v' bv, fold_level ls (Some (of_bool (ba || bu))) rest = Some v' /\ truth v = Some bv /\ truth v' = Some (ba || bv).
Proof.
  intros Hops Ha. induction Hops as [|[o s] rest Ho Hops IH] in u, bu |- *; intros Hu.
  - intros [= ->]. exists (of_bool (ba || bu)), bu. by rewrite truth_of_bool.
  - apply list_elem_of_singleton in Ho. cbn in Ho. subst o. unfold fold_level. cbn [foldl fst snd mbind option_bind].
    assert (forall r, foldl (fun acc x => a ← acc; b ← cpp_levels ls x.2; apply_op x.1 a b) None r = None) as Hnone
      by (intros r; induction r; [done|done]).
    destruct (cpp_levels ls s) as [w|]; cbn [mbind option_bind]; [|by rewrite Hnone].
    rewrite !apply_or, truth_of_bool, Hu. cbn [mbind option_bind]. destruct (truth w) as [bw|] eqn:Hw; cbn [mbind option_bind]; [|by rewrite Hnone].
    intros H. destruct (IH (of_bool (bu || bw)) (bu || bw) (truth_of_bool _) H) as (v' & bv & Hv' & Hbv & Ht). exists v', bv.
    by rewrite <- orb_assoc.
Qed.

Section row_value.
Context (pos : string -> option Z) (value : string -> cval).

Definition relation_ops (r : relation) : list (string * cval) :=
  match r_right r with Some (o, b) => [(cppOperator (relop_text o), atom_cval value b)] | None => [] end.
Fixpoint rest_ops (rest : list (connective * relation)) : list (string * cval) :=
  match rest with
  | [] => []
  | (k, r) :: rest => (cppOperator (connective_text k), atom_cval value (r_left r)) :: relation_ops r ++ rest_ops rest
  end.

Notation or_level := (is_op ["||"]).
Notation and_level := (is_op ["&&"]).
Notation low := [is_op ["=="; "!="]; is_op ["<="; "<"; ">="; ">"]].

Lemma relation_no_or r : no_op or_level (relation_ops r).
Proof. unfold relation_ops, no_op. destruct (r_right r) as [[[] b]|]; repeat constructor. Qed.
Lemma relation_no_and r : no_op and_level (relation_ops r).
Proof. unfold relation_ops, no_op. destruct (r_right r) as [[[] b]|]; repeat constructor. Qed.

Notation holds := (fun r => default false (relation_cpp value r)).

Lemma relation_low r b : relation_cpp value r = Some b ->
  exists v, cpp_levels low (atom_cval value (r_left r), relation_ops r) = Some v /\ truth v = Some b.
Proof.
  unfold relation_ops, relation_cpp. destruct (r_right r) as [[o c]|]; [|intros Hb; by eexists].
  intros Hb. exists (of_bool b). rewrite truth_of_bool. split; [|done]. revert Hb.
  generalize (atom_cval value (r_left r)), (atom_cval value c). intros x y Hb.
  destruct x, y; try discriminate Hb; injection Hb as <-; by destruct o.
Qed.

(** one more comparison in a conjunction *)
Lemma and_snoc h cur a ba r b : cpp_levels (and_level :: low) (h, cur) = Some a -> truth a = Some ba -> relation_cpp value r = Some b ->
  exists v, cpp_levels (and_level :: low) (h, cur ++ ("&&", atom_cval value (r_left r)) :: relation_ops r) = Some v
    /\ truth v = Some (ba && b).
Proof.
  rewrite !cpp_levels_cons. cbn [fst snd]. rewrite split_snoc by (done || apply relation_no_and).
  destruct (split_level and_level h cur) as [first rest]. destruct (cpp_levels low first) as [v|]; [|done]. cbn [mbind option_bind].
  unfold fold_level. rewrite foldl_app. intros -> Ha Hr. cbn [foldl mbind option_bind fst snd].
  destruct (relation_low r b Hr) as (w & -> & Hb). cbn [mbind option_bind]. rewrite (apply_and a w ba b) by done.
  eexists. split; [done|]. apply truth_of_bool.
Qed.

Lemma condition_levels rest h cur a ba : Forall (fun x => is_Some (relation_cpp value x.2)) rest ->
  no_op or_level cur -> cpp_levels (and_level :: low) (h, cur) = Some a -> truth a = Some ba ->
  exists v, cpp_levels levels (h, cur ++ rest_ops rest) = Some v /\ truth v = Some (rest_value holds ba rest).
Proof.
  induction rest as [|[k r] rest IH] in h, cur, a, ba |- *; intros Hrest Hcur Ha Hba.
  - exists a. rewrite app_nil_r. unfold levels. rewrite cpp_levels_cons. cbn [fst snd].
    rewrite (split_none _ _ _ Hcur), Ha. done.
  - apply Forall_cons in Hrest as [[br Hbr] Hrest]. cbn [snd] in Hbr. destruct k; cbn [rest_ops connective_text rest_value]; rewrite Hbr; cbn [default].
    + destruct (and_snoc h cur a ba r br Ha Hba Hbr) as (v & Hv & Ht).
      replace (cur ++ (cppOperator "and", atom_cval value (r_left r)) :: relation_ops r ++ rest_ops rest)
        with ((cur ++ ("&&", atom_cval value (r_left r)) :: relation_ops r) ++ rest_ops rest) by by rewrite <- app_assoc.
      eapply IH; [done| |done|done]. apply Forall_app. split; [done|]. constructor; [done|apply relation_no_or].
    + destruct (relation_low r br Hbr) as (w & Hb & Htb).
      destruct (IH (atom_cval value (r_left r)) (relation_ops r) w br Hrest) as (v & Hv & Htv); [apply relation_no_or| |done|].
      { rewrite cpp_levels_cons. cbn [fst snd]. rewrite (split_none _ _ _ (relation_no_and r)), Hb. done. }
      unfold levels in Hv |- *. rewrite cpp_levels_cons in Hv |- *. cbn [fst snd] in Hv |- *.
      rewrite split_at by done. pose proof (split_ops ["||"] (atom_cval value (r_left r)) (relation_ops r ++ rest_ops rest)) as Hops.
      destruct (split_level or_level (atom_cval value (r_left r)) (relation_ops r ++ rest_ops rest)) as [s rs].
      change (cppOperator "or") with "||". rewrite Ha. cbn [mbind option_bind]. cbn [snd] in Hops.
      destruct (cpp_levels (and_level :: low) s) as [u|] eqn:Hu; [|done]. cbn [mbind option_bind] in Hv.
      assert (exists bu, truth u = Some bu) as [bu Hbu].
      { destruct rs as [|[o' s'] rs]; [injection Hv as ->; by eexists|]. apply Forall_cons in Hops as [Ho _]. apply list_elem_of_singleton in Ho. cbn in Ho. subst o'.
        destruct (truth u) as [bu|] eqn:Hbu; [by eexists|]. exfalso. revert Hv. unfold fold_level. cbn [foldl fst snd mbind option_bind].
        assert (forall r, foldl (fun acc x => a ← acc; b ← cpp_levels (and_level :: low) x.2; apply_op x.1 a b) None r = None) as Hnone
          by (intros q; induction q; [done|done]).
        destruct (cpp_levels _ s') as [w'|]; cbn [mbind option_bind]; [rewrite apply_or, Hbu; cbn [mbind option_bind]|]; by rewrite Hnone. }
      destruct (fold_or _ _ a u v ba bu Hops Hba Hbu Hv) as (v' & bv & Hv' & Hbv & Ht'). exists v'. rewrite Htv in Hbv. injection Hbv as <-. split; [|done].
      unfold fold_level in Hv' |- *. cbn [foldl mbind option_bind fst snd]. rewrite Hu. cbn [mbind option_bind].
      rewrite apply_or, Hba, Hbu. exact Hv'.
Qed.

(** the tokens denote those operands *)
Context (row : list cval).
Definition row_has (n : string) : Prop := exists p, pos n = Some p /\ row !! Z.to_nat p = Some (value n).

Lemma pairs_relation r rest : Forall row_has (relation_columns r) ->
  forall k ts, token_pairs row ts = Some rest ->
  token_pairs row (TOp k :: relation_tokens pos r ++ ts) = Some ((k, atom_cval value (r_left r)) :: relation_ops r ++ rest).
Proof.
  destruct r as [l rr]. unfold relation_columns, relation_ops, relation_tokens. cbn [r_left r_right].
  intros [Hl Hr]%Forall_app k ts Hts.
  assert (Hatom : forall a o ts' l', Forall row_has (atom_columns a) -> token_pairs row ts' = Some l' ->
    token_pairs row (TOp o :: atom_token pos a :: ts') = Some ((o, atom_cval value a) :: l')).
  { intros [n|v] o ts' l' Hn Hl'; cbn.
    - apply Forall_cons in Hn as [(p & -> & Hp) _]. cbn. rewrite Hp. cbn. by rewrite Hl'.
    - by rewrite Hl'. }
  destruct rr as [[o b]|]; cbn [app]; apply Hatom; try done. by apply Hatom.
Qed.

Lemma pairs_rest rest : Forall row_has (concat ((fun x => relation_columns x.2) <$> rest)) ->
  token_pairs row (rest_tokens pos rest) = Some (rest_ops rest).
Proof.
  induction rest as [|[k r] rest IH]; [done|]. intros [Hr Hrest]%Forall_app. cbn [rest_tokens rest_ops].
  by apply pairs_relation; [|apply IH].
Qed.

Lemma condition_row c : Forall row_has (condition_columns c) -> Forall (fun r => is_Some (relation_cpp value r)) (condition_relations c) ->
  exists v, cpp_value row (condition_tokens pos c) = Some v /\ truth v = Some (condition_cpp value c).
Proof.
  destruct c as [f rest]. unfold condition_columns, condition_tokens, condition_relations, condition_cpp, connected. cbn [c_first c_rest].
  intros [Hf Hrest]%Forall_app [[bf Hbf] Hrels]%Forall_cons. pose proof (pairs_relation f (rest_ops rest) Hf "" _ (pairs_rest _ Hrest)) as Hp.
  assert (Hop : token_operands row (relation_tokens pos f ++ rest_tokens pos rest)
    = Some (atom_cval value (r_left f), relation_ops f ++ rest_ops rest)).
  { destruct f as [[n|x] rr]; cbn in Hp |- *.
    - destruct (row !! _) as [y|]; [|done]. cbn in Hp |- *. destruct (token_pairs row _); [|done]. cbn in Hp |- *. congruence.
    - destruct (token_pairs row _); [|done]. cbn in Hp |- *. congruence. }
  unfold cpp_value. rewrite Hop. cbn [mbind option_bind]. destruct (relation_low f bf Hbf) as (b & Hb & Htb).
  rewrite Hbf. cbn [default]. apply (condition_levels rest _ (relation_ops f) b bf); [by rewrite Forall_fmap in Hrels|apply relation_no_or| |done].
  rewrite cpp_levels_cons. cbn [fst snd]. rewrite (split_none _ _ _ (relation_no_and f)), Hb. done.
Qed.
End row_value.

(** ** The columns of a schema *)

Lemma columns_map_other cols i m n : n ∉ (getName <$> cols) -> columns_map cols i m !! n = m !! n.
Proof.
  induction cols as [|c cols IH] in i, m |- *; [done|]. rewrite fmap_cons, not_elem_of_cons. intros [Hn Hc]. cbn [columns_map].
  rewrite IH by done. by rewrite lookup_insert_ne.
Qed.

Lemma columns_map_row cols row i m n : NoDup (getName <$> cols) -> length row = length cols -> n ∈ (getName <$> cols) ->
  exists p, columns_map cols i m !! n = Some (i + Z.of_nat p)%Z /\ row !! p = Some (column_value cols row n).
Proof.
  induction cols as [|c cols IH] in row, i, m |- *; intros Hnd Hlen Hn; [by apply elem_of_nil in Hn|].
  destruct row as [|x row]; [done|]. rewrite fmap_cons in Hnd, Hn. apply NoDup_cons in Hnd as [Hc Hnd]. cbn [columns_map column_value].
  destruct (String.eqb (getName c) n) eqn:E.
  - apply String.eqb_eq in E as <-. exists 0%nat. rewrite columns_map_other by done. rewrite lookup_insert_eq. split; [f_equal; lia|done].
  - apply String.eqb_neq in E. apply elem_of_cons in Hn as [->|Hn]; [done|].
    destruct (IH row (i + 1)%Z (<[getName c := i]> m) Hnd ltac:(cbn in Hlen; lia) Hn) as (p & Hp & Hx).
    exists (S p). rewrite Hp. split; [f_equal; lia|done].
Qed.

Lemma column_typed cols row c : NoDup (getName <$> cols) -> Forall2 typed cols row -> c ∈ cols -> typed c (column_value cols row (getName c)).
Proof.
  intros Hnd Hrow. induction Hrow as [|c' x cols row Hx Hrow IH]; [by intros ?%elem_of_nil|].
  rewrite fmap_cons in Hnd. apply NoDup_cons in Hnd as [Hc Hnd]. intros [->|Hin]%elem_of_cons; cbn [column_value].
  - by rewrite String.eqb_refl.
  - destruct (String.eqb (getName c') (getName c)) eqn:E; [|by apply IH].
    apply String.eqb_eq in E. destruct Hc. rewrite E. by apply list_elem_of_fmap_2.
Qed.

(** a column that is an [int] or an [unsigned int] *)
Definition int_column (cols : list ColumnInfo) (n : string) : Prop :=
  exists c, c ∈ cols /\ getName c = n /\ (getType c = Int_Type \/ getType c = UInt_Type).

Section meanings.
Context (cols : list ColumnInfo) (row : list cval) (Hnd : NoDup (getName <$> cols)) (Hrow : Forall2 typed cols row).
Notation value := (column_value cols row).

(** the value of an operand, an [int] or an [unsigned int] in its range *)
Definition ranged (v : cval) : Prop := match v with CInt z => - 2^31 <= z < 2^31 | CUInt z => 0 <= z < 2^32 | COther => False end%Z.

Lemma atom_ranged a : Forall (int_column cols) (atom_columns a) -> literal_fits a -> ranged (atom_cval value a).
Proof.
  destruct a as [n|v]; cbn [atom_columns literal_fits atom_cval ranged].
  - intros [(c & Hc & <- & Ht) _]%Forall_cons _. pose proof (column_typed cols row c Hnd Hrow Hc) as Hv. unfold typed in Hv.
    destruct Ht as [Ht|Ht]; rewrite Ht in Hv; by destruct (value (getName c)).
  - intros _ Hv. lia.
Qed.

Lemma truth_integer v : v <> COther -> truth v = Some (negb (integer v =? 0)%Z).
Proof. by destruct v. Qed.

(** a comparison has a value, and that of the integers when no negative [int]
    meets an [unsigned int] *)
Lemma relation_meaning r : Forall (int_column cols) (relation_columns r) -> literals_fit r ->
  is_Some (relation_cpp value r) /\
  (relation_unmixed value r -> relation_cpp value r = Some (relation_value (fun n => integer (value n)) r)).
Proof.
  unfold relation_columns, literals_fit, relation_unmixed, relation_cpp, relation_value. intros [Hl Hr]%Forall_app [Hfl Hfr].
  pose proof (atom_ranged _ Hl Hfl) as Hx.
  assert (forall a, atom_value (fun n => integer (value n)) a = integer (atom_cval value a)) as Hint by by intros [].
  rewrite Hint. destruct (r_right r) as [[o b]|].
  - pose proof (atom_ranged _ Hr Hfr) as Hy. rewrite Hint.
    destruct (atom_cval value (r_left r)) as [x|x|], (atom_cval value b) as [y|y|]; cbn in Hx, Hy |- *; try done;
      (split; [by eexists|]); intros Hu; cbn in Hu; rewrite ?u32_small by word_lia; done.
  - destruct (atom_cval value (r_left r)); cbn in Hx |- *; try done; (split; [by eexists|done]).
Qed.

Lemma condition_meaning c : Forall (int_column cols) (condition_columns c) -> Forall literals_fit (condition_relations c) ->
  Forall (fun r => is_Some (relation_cpp value r)) (condition_relations c) /\
  (Forall (relation_unmixed value) (condition_relations c) -> condition_cpp value c = condition_value (fun n => integer (value n)) c).
Proof.
  destruct c as [f rest]. unfold condition_columns, condition_relations, condition_cpp, condition_value, connected. cbn [c_first c_rest].
  intros [Hf Hrest]%Forall_app [Hlf Hlr]%Forall_cons. destruct (relation_meaning f Hf Hlf) as [Hf1 Hf2]. split.
  - constructor; [done|]. clear Hf1 Hf2. induction rest as [|[k r] rest IH]; [constructor|]. cbn [snd] in *.
    apply Forall_app in Hrest as [Hr Hrest]. rewrite fmap_cons in *. apply Forall_cons in Hlr as [Hlr1 Hlr].
    constructor; [by apply relation_meaning|by apply IH].
  - intros [Huf Hur]%Forall_cons. rewrite (Hf2 Huf). cbn [default]. generalize (relation_value (fun n => integer (value n)) f). clear Hf1 Hf2 Huf.
    induction rest as [|[k r] rest IH]; intros acc; [done|]. cbn [snd] in *.
    apply Forall_app in Hrest as [Hr Hrest]. rewrite fmap_cons in *. apply Forall_cons in Hlr as [Hlr1 Hlr]. apply Forall_cons in Hur as [Hu1 Hur].
    destruct (relation_meaning r Hr Hlr1) as [_ Hr2]. cbn [rest_value]. rewrite (Hr2 Hu1). cbn [default id]. destruct k; [by apply IH|f_equal; by apply IH].
Qed.
End meanings.

(** C36: a where clause of comparisons joined by and / or, over [int] and
    [unsigned int] columns of the input (names pairwise different) and literals
    that are [int]s in C++, is resolved without an error, and the text
    generated from it is that of C++ tokens.  For every row of values in the
    range of their columns' types, this C++ condition, with the precedences
    and conversions of C++, is true exactly where the condition holds when its
    comparisons are made after the usual arithmetic conversions; that is
    exactly where it holds in SQL if no comparison has a negative [int] beside
    an [unsigned int] ([u > -1] is true in SQL and never in C++:
    [unsigned_where]).  No parentheses are generated and none are needed.
    Other column types and null flags, which the text ignores, are not
    covered. *)
Theorem where_condition (inputSchema : TableInfo) (c : condition) :
  NoDup (getName <$> mColumns inputSchema) ->
  Forall (int_column (mColumns inputSchema)) (condition_columns c) ->
  Forall literals_fit (condition_relations c) ->
  exists e toks,
    modifyWhereExpression inputSchema (condition_expression (fun _ => None) c) = Ok e
    /\ generateWhereExpression e = Ok (render toks)
    /\ forall row, Forall2 typed (mColumns inputSchema) row ->
       let value := column_value (mColumns inputSchema) row in
       exists v, cpp_value row toks = Some v /\ truth v = Some (condition_cpp value c) /\
         (Forall (relation_unmixed value) (condition_relations c) -> condition_cpp value c = condition_value (fun n => integer (value n)) c).
Proof.
  intros Hnd Hcols Hlits. set (cols := mColumns inputSchema) in *. set (m := columns_map cols 0 ∅).
  assert (Hrow : forall row, length row = length cols ->
    Forall (row_has (fun n => m !! n) (column_value cols row) row) (condition_columns c)).
  { intros row Hlen. eapply Forall_impl; [exact Hcols|]. intros n (k & Hk & <- & _).
    destruct (columns_map_row cols row 0 ∅ (getName k) Hnd Hlen) as (p & Hp & Hx); [by apply list_elem_of_fmap_2|]. exists (0 + Z.of_nat p)%Z. split; [done|].
    by replace (Z.to_nat (0 + Z.of_nat p)) with p by lia. }
  assert (Hpos : Forall (fun n => is_Some (m !! n)) (condition_columns c)).
  { eapply Forall_impl; [apply (Hrow (replicate (length cols) COther)); by rewrite length_replicate|].
    intros n (p & -> & _). by eexists. }
  destruct (where_text m c Hpos) as (Hh & Ht & Hg).
  exists (condition_expression (fun n => m !! n) c), (condition_tokens (fun n => m !! n) c). split; [|split].
  - unfold modifyWhereExpression. fold cols m. cbn zeta. by rewrite Hh, Ht.
  - done.
  - intros row Htyped value. destruct (condition_meaning cols row Hnd Htyped c Hcols Hlits) as [Hsome Hsql].
    destruct (condition_row (fun n => m !! n) value row c) as (v & Hv & Hb); [apply Hrow; by rewrite (Forall2_length _ _ _ Htyped)|done|].
    by exists v.
Qed.

(** an [int] column, an [unsigned] one and a string; [a = 1 or b < 3 and a <> b] *)
Definition wc_schema : TableInfo :=
  mkTableInfo "t" [mkColumnInfo "a" Int_Type; mkColumnInfo "b" UInt_Type; mkColumnInfo "s" String_Type] None.
Definition wc_condition : condition :=
  mkCondition (mkRelation (AColumn "a") (Some (Eq, ALiteral 1)))
    [(Or, mkRelation (AColumn "b") (Some (Lt, ALiteral 3))); (And, mkRelation (AColumn "a") (Some (Ne, AColumn "b")))].

(** a comparison with a negative number is never true of an unsigned column *)
Lemma unsigned_where (cols : list ColumnInfo) (row : list cval) (n : string) (x : Z) (o : relop) (v : Z) :
  column_value cols row n = CUInt x -> (- 2^31 <= v < 0)%Z -> (0 <= x < 2^31)%Z ->
  let r := mkRelation (AColumn n) (Some (Gt, ALiteral v)) in
  relation_cpp (column_value cols row) r = Some false /\ relation_value (fun n => integer (column_value cols row n)) r = true.
Proof.
  intros Hx Hv Hr. unfold relation_cpp, relation_value. cbn. rewrite Hx. cbn -[Z.pow u32].
  assert (u32 v = v + 2^32)%Z as -> by (unfold u32; rewrite <- (Z.mod_add v 1) by lia; rewrite Z.mod_small; lia).
  split; [f_equal|]; lia.
Qed.

Lemma where_condition_witness :
  exists e toks,
    modifyWhereExpression wc_schema (condition_expression (fun _ => None) wc_condition) = Ok e
    /\ generateWhereExpression e = Ok (render toks)
    /\ (exists v, cpp_value [CInt 5; CUInt 2; COther] toks = Some v /\ truth v = Some true)
    /\ (exists v, cpp_value [CInt 1; CUInt 9; COther] toks = Some v /\ truth v = Some true)
    /\ exists v, cpp_value [CInt 2; CUInt 2; COther] toks = Some v /\ truth v = Some false.
Proof.
  destruct (where_condition wc_schema wc_condition) as (e & toks & He & Ht & Hrow).
  - by apply (bool_decide_unpack _); vm_compute.
  - unfold condition_columns, relation_columns. cbn. repeat constructor.
    all: first [exists (mkColumnInfo "a" Int_Type); split_and!; [by left|done|by left]
               |exists (mkColumnInfo "b" UInt_Type); split_and!; [by right; left|done|by right]].
  - repeat constructor.
  - exists e, toks. split; [exact He|]. split; [exact Ht|].
    assert (forall x y, (- 2^31 <= x < 2^31)%Z -> (0 <= y < 2^32)%Z -> Forall2 typed (mColumns wc_schema) [CInt x; CUInt y; COther]) as Hty.
    { intros x y Hx Hy. unfold typed. repeat constructor; cbn; lia. }
    split_and!.
    + destruct (Hrow [CInt 5; CUInt 2; COther] (Hty 5 2 ltac:(lia) ltac:(lia))%Z) as (v & Hv & Hb & _). exists v. split; [exact Hv|exact Hb].
    + destruct (Hrow [CInt 1; CUInt 9; COther] (Hty 1 9 ltac:(lia) ltac:(lia))%Z) as (v & Hv & Hb & _). exists v. split; [exact Hv|exact Hb].
    + destruct (Hrow [CInt 2; CUInt 2; COther] (Hty 2 2 ltac:(lia) ltac:(lia))%Z) as (v & Hv & Hb & _). exists v. split; [exact Hv|exact Hb].
Defined.

Example where_text_example :
  (e ← modifyWhereExpression wc_schema (condition_expression (fun _ => None) wc_condition); generateWhereExpression e)
  = Ok "get<0>(tp) == 1 || get<1>(tp) < 3 && get<0>(tp) != get<1>(tp)".
Proof. reflexivity. Qed.

(** ** The cache and the names *)

Section compiler_laws.
Context {TableType : Type} `{EqDecision TableType}.
Notation PFabricContext := (PFabricContext TableType).
Context (phrase_parse : string -> option SQLQuery) (import : string -> string -> result nat)
  (create : nat -> PFabricContext -> result nat * PFabricContext).
Notation state := (@state TableType).
Notation M := (@M TableType).
Notation exec := (execQuery phrase_parse import create).
Notation compile := (compileQuery phrase_parse).
#[local] Existing Instance M_ret.
#[local] Existing Instance M_bind.

(** the names of the programs compiled so far *)
Definition compiled_names (es : list effect) : list string :=
  omap (fun e => match e with Compiled n _ => Some n | _ => None end) es.

(** what a part of the compiler leaves alone: the cache and the effects; it takes
    at most [k] names *)
Definition quiet (k : Z) {A} (m : M A) : Prop := forall s r s', m s = (r, s') ->
  planCache (compiler s') = planCache (compiler s) /\ effects s' = effects s
  /\ ((0 <= mCounter s)%Z -> (mCounter s + k < 2 ^ 32)%Z -> (mCounter s <= mCounter s' <= mCounter s + k)%Z).

Lemma quiet_ret {A} (a : A) : quiet 0 (mret a : M A).
Proof. intros s r s' [= _ <-]. repeat split; lia. Qed.

Lemma quiet_lift {A} (x : result A) : quiet 0 (lift x : M A).
Proof. intros s r s' [= _ <-]. repeat split; lia. Qed.

Lemma quiet_bind {A B} j k (m : M A) (f : A -> M B) : (0 <= j)%Z -> (0 <= k)%Z ->
  quiet j m -> (forall a, quiet k (f a)) -> quiet (j + k) (a ← m; f a).
Proof.
  intros Hj Hk Hm Hf s r s' H. unfold mbind, M_bind in H. destruct (m s) as [[a|e] s1] eqn:Hs.
  - destruct (Hm _ _ _ Hs) as (Hc & He & Hn), (Hf _ _ _ _ H) as (Hc' & He' & Hn').
    rewrite Hc', He'. split; [done|]. split; [done|]. lia.
  - injection H as _ <-. destruct (Hm _ _ _ Hs) as (Hc & He & Hn). split; [done|]. split; [done|]. lia.
Qed.

Lemma quiet_weaken {A} j k (m : M A) : (j <= k)%Z -> quiet j m -> quiet k m.
Proof. intros Hjk Hm s r s' Hs. destruct (Hm _ _ _ Hs) as (Hc & He & Hn). split; [done|]. split; [done|]. lia. Qed.

Lemma quiet_uniqueName p : quiet 1 (uniqueName p : M string).
Proof.
  intros s r s' [= _ <-]. split; [done|]. split; [done|]. cbn -[Z.pow]. intros H0 Hlt. unfold u32. rewrite Z.mod_small by lia. lia.
Qed.

Lemma quiet_registerType t : quiet 1 (registerType t : M ()).
Proof.
  intros s r s'. unfold registerType, mbind, M_bind, get_compiler. cbn -[Z.pow smap_get u32 typeSignature].
  destruct (smap_get _ _); intros [= _ <-]; (split; [done|]; split; [done|]); cbn -[Z.pow]; intros H0 Hlt; [lia|].
  unfold u32. rewrite Z.mod_small by lia. lia.
Qed.

Lemma quiet_get_context : quiet 0 (get_context : M PFabricContext).
Proof. intros s r s' [= _ <-]. repeat split; lia. Qed.

Lemma quiet_insert_table t : quiet 0 (insert_table t : M ()).
Proof. intros s r s' [= _ <-]. repeat split; cbn; lia. Qed.

Lemma quiet_check_op op : quiet 1 (check_op op : M PlanOp).
Proof.
  destruct op as [[tn ti|cond|cols ps] s c o]; cbn [check_op].
  - apply (quiet_weaken (0 + (0 + (0 + (0 + (1 + 0)))))); [lia|]. apply quiet_bind; [lia..|apply quiet_get_context|intros ctx].
    do 2 (apply quiet_bind; [lia..|apply quiet_lift|intros]). apply quiet_bind; [lia..|apply quiet_insert_table|intros].
    apply quiet_bind; [lia..|apply quiet_registerType|intros; apply quiet_ret].
  - apply (quiet_weaken (0 + (0 + 0))); [lia|]. apply quiet_bind; [lia..|apply quiet_lift|intros schema].
    apply quiet_bind; [lia..|apply quiet_lift|intros; apply quiet_ret].
  - apply (quiet_weaken (0 + (0 + (1 + 0)))); [lia|]. apply quiet_bind; [lia..|apply quiet_lift|intros schema].
    apply quiet_bind; [lia..|apply quiet_lift|intros].
    apply quiet_bind; [lia..|apply quiet_registerType|intros; apply quiet_ret].
Qed.

Lemma quiet_leaf p s : quiet 1 (traverse_check (mkOp p s None None) : M PlanOp).
Proof.
  cbn [traverse_check]. apply (quiet_weaken (0 + (0 + 1))); [lia|].
  do 2 (apply quiet_bind; [lia..|apply quiet_ret|intros]). apply quiet_check_op.
Qed.

Lemma quiet_over k p s c : (0 <= k)%Z -> quiet k (traverse_check c : M PlanOp) ->
  quiet (k + 1) (traverse_check (mkOp p s (Some c) None) : M PlanOp).
Proof.
  intros Hk Hc. cbn [traverse_check]. apply (quiet_weaken ((k + 0) + (0 + 1))); [lia|].
  apply quiet_bind; [lia..| |intros; apply quiet_bind; [lia..|apply quiet_ret|intros; apply quiet_check_op]].
  apply quiet_bind; [lia..|done|intros; apply quiet_ret].
Qed.

Lemma quiet_checkPlan q : quiet 3 (checkPlan (constructFromSQLQuery q) : M PlanOp).
Proof.
  unfold checkPlan, constructFromSQLQuery, new_PlanOp. cbn zeta.
  destruct (whereClause_ q) as [w|]; destruct (_ && _); cbn [addChild].
  - apply (quiet_weaken (1 + 1)); [lia|]. apply quiet_over, quiet_leaf; lia.
  - apply (quiet_weaken ((1 + 1) + 1)); [lia|]. apply quiet_over, quiet_over, quiet_leaf; lia.
  - apply (quiet_weaken 1); [lia|]. apply quiet_leaf.
  - apply (quiet_weaken (1 + 1)); [lia|]. apply quiet_over, quiet_leaf; lia.
Qed.

Lemma quiet_generateCode plan n : quiet 0 (generateCode plan n : M string).
Proof.
  unfold generateCode. intros s r s'. unfold mbind, M_bind, get_compiler, get_context, lift, mret, M_ret.
  destruct (generateQuery _ _ _); intros [= _ <-]; repeat split; lia.
Qed.

(** the name of the [n]-th program *)
Definition query_name (n : Z) : string := "Query_" +:+ pretty n.
#[local] Instance query_name_inj : Inj (=) (=) query_name.
Proof. intros x y Hxy. unfold query_name in Hxy. by simplify_eq. Qed.

(** a call of [compileQuery]: the cache is as before, and one program is compiled,
    or none; the counter moves to the number of the program or beyond *)
Lemma compileQuery_step q (s : state) r s' : compile q s = (r, s') ->
  planCache (compiler s') = planCache (compiler s)
  /\ exists names, compiled_names (effects s') = compiled_names (effects s) ++ (query_name <$> names)
     /\ ((0 <= mCounter s)%Z -> (mCounter s + 4 < 2 ^ 32)%Z -> (mCounter s <= mCounter s' <= mCounter s + 4)%Z
         /\ (names = [] \/ exists n, names = [n] /\ (mCounter s < n <= mCounter s')%Z)).
Proof.
  unfold compileQuery. unfold mbind at 1, M_bind at 1, lift at 1.
  destruct (SQLParser_parse phrase_parse q) as [query|e].
  2: { intros [= _ <-]. split; [done|]. exists []. rewrite app_nil_r. split; [done|]. intros. split; [lia|by left]. }
  unfold mbind at 1, M_bind at 1. destruct (checkPlan (constructFromSQLQuery query) s) as [r1 s1] eqn:H1.
  destruct (quiet_checkPlan _ _ _ _ H1) as (Hc1 & He1 & Hn1). destruct r1 as [plan|e].
  2: { intros [= _ <-]. split; [done|]. exists []. rewrite app_nil_r, He1. split; [done|]. intros. split; [lia|by left]. }
  unfold mbind at 1, M_bind at 1. destruct (uniqueName "Query" s1) as [r2 s2] eqn:H2.
  destruct (quiet_uniqueName _ _ _ _ H2) as (Hc2 & He2 & Hn2). injection H2 as <- Hs2.
  unfold mbind at 1, M_bind at 1. destruct (generateCode plan _ s2) as [r3 s3] eqn:H3.
  destruct (quiet_generateCode _ _ _ _ _ H3) as (Hc3 & He3 & Hn3). destruct r3 as [program|e].
  2: { intros [= _ <-]. split; [congruence|]. exists []. rewrite app_nil_r, He3, He2, He1. split; [done|]. intros. split; [lia|by left]. }
  intros [= _ <-]. cbn -[u32 pretty Z.pow]. split; [congruence|]. exists [u32 (mCounter s1 + 1)].
  rewrite He3, He2, He1. unfold compiled_names. rewrite omap_app. split; [done|].
  intros H0 Hlt. split; [lia|]. right. eexists. split; [done|]. rewrite <- Hs2 in Hn3. cbn -[u32 Z.pow] in Hn3.
  rewrite u32_small in * by (unfold is_u32; lia). lia.
Qed.

Definition started (t : nat) (s : state) : state := mkState (compiler s) (mCounter s) (context s) (effects s ++ [Started t]).

(** a call of [execQuery] *)
Lemma execQuery_hit q (s : state) e : smap_get q (planCache (compiler s)) = Some e ->
  exec q s = (Ok (builder e), started (topology e) s).
Proof.
  intros He. unfold execQuery, mbind, M_bind, get_compiler, findPlanForQuery. by rewrite He.
Qed.

(** what a call leaves, found in the cache or not *)
Lemma execQuery_step q (s : state) r s' : exec q s = (r, s') ->
  (planCache (compiler s') = planCache (compiler s)
   \/ exists e, smap_get q (planCache (compiler s)) = None /\ planCache (compiler s') = smap_put q e (planCache (compiler s)))
  /\ (forall b, r = Ok b -> exists e, builder e = b /\ smap_get q (planCache (compiler s')) = Some e
       /\ last (effects s') = Some (Started (topology e)))
  /\ exists names, compiled_names (effects s') = compiled_names (effects s) ++ (query_name <$> names)
     /\ ((0 <= mCounter s)%Z -> (mCounter s + 4 < 2 ^ 32)%Z -> (mCounter s <= mCounter s' <= mCounter s + 4)%Z
         /\ (names = [] \/ exists n, names = [n] /\ (mCounter s < n <= mCounter s')%Z)).
Proof.
  destruct (smap_get q (planCache (compiler s))) as [e|] eqn:Hq.
  { rewrite (execQuery_hit _ _ _ Hq). intros [= <- <-]. split; [by left|]. split.
    - intros b [= <-]. exists e. split; [done|]. split; [done|]. apply last_snoc.
    - exists []. unfold compiled_names. cbn [started effects]. rewrite omap_app, !app_nil_r. split; [done|]. intros. cbn -[Z.pow]. split; [lia|by left]. }
  unfold execQuery. unfold mbind at 1, M_bind at 1, get_compiler, findPlanForQuery. rewrite Hq.
  unfold mbind at 1, M_bind at 1. destruct (compile q s) as [r1 s1] eqn:H1.
  destruct (compileQuery_step _ _ _ _ H1) as (Hc & Hn). destruct r1 as [qn|e].
  2: { intros [= <- <-]. split; [by left|]. split; [done|]. done. }
  unfold mbind at 1, M_bind at 1, lift at 1. destruct (import _ _) as [b|e].
  2: { intros [= <- <-]. split; [by left|]. split; [done|]. done. }
  unfold mbind at 1, M_bind at 1, create_topology at 1. destruct (create b (context s1)) as [[t|e] ctx] eqn:Hcr.
  2: { intros [= <- <-]. cbn [compiler effects mCounter]. split; [by left|]. split; [done|]. done. }
  unfold addToCache, happens, get_compiler, mret, M_ret. repeat unfold mbind at 1, M_bind at 1. cbn [compiler effects mCounter].
  rewrite Hc, Hq. intros [= <- <-]. cbn [put_compiler compiler effects mCounter planCache]. split; [|split].
  - right. by eexists.
  - intros b' [= <-]. eexists. split; [|split; [apply get_put_eq|]]; [done|]. apply last_snoc.
  - destruct Hn as (names & Hnm & Hb). exists names. split; [|done]. unfold compiled_names in *. rewrite !omap_app.
    cbn. by rewrite !app_nil_r.
Qed.

(** queries executed one after the other; a query that throws is one of them *)
Definition run_queries (qs : list string) (s : state) : state := foldl (fun s q => (exec q s).2) s qs.

Lemma run_cached qs (s : state) q e : smap_get q (planCache (compiler s)) = Some e ->
  smap_get q (planCache (compiler (run_queries qs s))) = Some e.
Proof.
  unfold run_queries. induction qs as [|q' qs IH] in s |- *; intros He; [done|]. cbn [foldl]. apply IH.
  destruct (exec q' s) as [r s'] eqn:H. destruct (execQuery_step _ _ _ _ H) as ([Hc|(e' & Hn & Hc)] & _); cbn [snd]; rewrite Hc; [done|].
  rewrite get_put_ne; [done|]. intros ->. congruence.
Qed.

(** A query that was executed without an error is answered from the cache
    from then on: whatever queries are executed in between, with or without
    errors, the same query text compiles and loads nothing, creates no topology,
    starts the topology of the first time and returns its builder. *)
Lemma query_cache q (s : state) b s1 : exec q s = (Ok b, s1) ->
  exists t, last (effects s1) = Some (Started t)
    /\ forall qs, exec q (run_queries qs s1) = (Ok b, started t (run_queries qs s1)).
Proof.
  intros H. destruct (execQuery_step _ _ _ _ H) as (_ & Hr & _). destruct (Hr b eq_refl) as (e & <- & He & Hl).
  exists (topology e). split; [done|]. intros qs. by apply execQuery_hit, run_cached.
Qed.

(** the programs compiled while the counter does not wrap around have different
    class names; one call takes at most four numbers *)
Lemma program_names_distinct qs ctx : (4 * Z.of_nat (length qs) < 2 ^ 32)%Z ->
  NoDup (compiled_names (effects (run_queries qs (mkState new_compiler 0 ctx [])))).
Proof.
  intros Hlen. cut (exists names, compiled_names (effects (run_queries qs (mkState new_compiler 0 ctx []))) = query_name <$> names /\ NoDup names).
  { intros (names & -> & Hnd). apply (NoDup_fmap_2 _); done. }
  unfold run_queries.
  assert (Hgen : forall (s : state) names, (0 <= mCounter s)%Z -> (mCounter s + 4 * Z.of_nat (length qs) < 2 ^ 32)%Z ->
    compiled_names (effects s) = query_name <$> names -> NoDup names -> Forall (fun n => n <= mCounter s)%Z names ->
    exists names', compiled_names (effects (foldl (fun s q => (exec q s).2) s qs)) = query_name <$> names' /\ NoDup names').
  { clear Hlen. induction qs as [|q qs IH]; intros s names H0 Hlt Hs Hnd Hle; [by exists names|]. cbn [foldl].
    rewrite length_cons in Hlt. destruct (exec q s) as [r s'] eqn:H.
    destruct (execQuery_step _ _ _ _ H) as (_ & _ & new & Hnew & Hb).
    destruct Hb as [Hm Hnm]; [done|lia|]. apply (IH s' (names ++ new)); cbn [snd].
    - lia.
    - lia.
    - by rewrite Hnew, Hs, fmap_app.
    - destruct Hnm as [->|(n & -> & Hn)]; [by rewrite app_nil_r|]. apply NoDup_app. split; [done|]. split; [|apply NoDup_singleton].
      intros x Hx ->%list_elem_of_singleton. rewrite Forall_forall in Hle. specialize (Hle n Hx). lia.
    - apply Forall_app. split; [eapply Forall_impl; [exact Hle|]; cbn; lia|].
      destruct Hnm as [->|(n & -> & Hn)]; [constructor|]. repeat constructor. lia. }
  apply (Hgen _ []); cbn -[Z.pow]; first [done | constructor | lia].
Qed.

(** the schema of a projection is never set: every projection registers the
    empty schema, and its result is typed as a tuple without columns *)
Lemma projection_schema columns (c : PlanOp) (s s' : state) op :
  check_op (mkOp (Map columns []) new_TableInfo (Some c) None) s = (Ok op, s') ->
  outputSchema op = new_TableInfo /\ (exists n, nameOfType new_TableInfo (compiler s') = Ok n)
  /\ generateTypeDef (outputSchema op) = "TuplePtr<>".
Proof.
  cbn [check_op child_schema]. unfold mbind at 1 2, M_bind at 1 2, lift.
  destruct (constructMapSchema (outputSchema c) columns []) as [ps|e]; [|done].
  unfold mbind at 1, M_bind at 1. destruct (registerType new_TableInfo s) as [[[]|e] s2] eqn:Hr; [|done].
  intros [= <- <-]. split; [done|]. split; [|done]. revert Hr. unfold registerType, mbind, M_bind, get_compiler, nameOfType.
  destruct (smap_get (typeSignature new_TableInfo) (mTypeTable (compiler s))) as [ti|] eqn:Ht.
  - intros [= <-]. rewrite Ht. by eexists.
  - intros [= <-]. cbn [put_compiler uniqueName compiler mTypeTable]. eexists. by rewrite get_put_eq.
Qed.

End compiler_laws.

(** *** A table with two columns and three queries *)
Definition qc_context : PFabricContext nat :=
  mkContext {[ "t" := mkBaseTable 0%nat (Some (TableInfo_columns "t" (mColumns wc_schema) UInt_Type)) 0%nat ]} ∅ 0%nat.
Definition qc_parse (stmt : string) : option SQLQuery :=
  if String.eqb stmt "q1" then Some (mkSQLQuery ["*"] "t" (Some (condition_expression (fun _ => None) wc_condition)))
  else if String.eqb stmt "q2" then Some (mkSQLQuery ["b"] "t" None)
  else None.
Definition qc_import (libraryName obj : string) : result nat := Ok (String.length libraryName).
Definition qc_create (b : nat) (ctx : PFabricContext nat) : result nat * PFabricContext nat := (Ok (b + 1)%nat, ctx).
Definition qc_exec (q : string) (s : state) := execQuery qc_parse qc_import qc_create q s.

Definition qc_first := qc_exec "q1" (mkState new_compiler 0 qc_context []).

Lemma query_cache_witness :
  exists t, last (effects qc_first.2) = Some (Started t)
    /\ forall qs, execQuery qc_parse qc_import qc_create "q1" (run_queries qc_parse qc_import qc_create qs qc_first.2)
       = (Ok 7%nat, started t (run_queries qc_parse qc_import qc_create qs qc_first.2)).
Proof. apply (query_cache qc_parse qc_import qc_create "q1" (mkState new_compiler 0 qc_context []) 7%nat). by vm_compute. Defined.

(** the second text of a query is not compiled, one with an error is left out *)
Example query_names_example :
  let s := run_queries qc_parse qc_import qc_create ["q1"; "wrong"; "q2"; "q1"] (mkState new_compiler 0 qc_context []) in
  compiled_names (effects s) = ["Query_2"; "Query_4"] /\ (fst <$> planCache (compiler s)) = ["q1"; "q2"].
Proof. by vm_compute. Qed.
