(* ===== verification/TxTable.v ===== *)
(** * TxTable: log-buffered transactions

    Models [src/table/LogBuffer.hpp] and the transactional part of
    [src/table/TxTable.hpp], over any table with the [TableOps] interface. *)

From S2P Require Import Prelude Tables.

Inductive LogOp := LogInsert | LogUpdate | LogDelete.

Section TxTable.
Context {T K R : Type} `{EqDecision K} `{!TableOps T K R}.

Record LogEntry := mkLogEntry {
  logOp : LogOp;
  le_key : K;
  recordPtr : option R;     (** null for the constructor without a record *)
}.

(** ** LogBuffer: entries per transaction *)
Abbreviation LogBuffer := (gmap Z (list LogEntry)).

Definition append_entry (txID : Z) (entry : LogEntry) (buffer : LogBuffer) : LogBuffer :=
  match buffer !! txID with
  | Some entries => <[txID := entries ++ [entry]]> buffer
  | None => <[txID := [entry]]> buffer
  end.

Definition append (txID : Z) (op : LogOp) (k : K) (buffer : LogBuffer) : LogBuffer :=
  append_entry txID (mkLogEntry op k None) buffer.

Definition append_rec (txID : Z) (op : LogOp) (k : K) (r : R) (buffer : LogBuffer) : LogBuffer :=
  append_entry txID (mkLogEntry op k (Some r)) buffer.

(** [begin(txID)] .. [end(txID)]: both assert that the transaction is known *)
Definition entries_of (txID : Z) (buffer : LogBuffer) : result (list LogEntry) :=
  match buffer !! txID with Some l => Ok l | None => Err AssertFailed end.

Definition cleanup (txID : Z) (buffer : LogBuffer) : LogBuffer := delete txID buffer.

(** ** TxTable *)
Record TxTable := mkTxTable { tbl : T; logBuffer : LogBuffer }.

Definition transactionBegin (txID : Z) (t : TxTable) : TxTable := t.

Fixpoint apply_log (l : list LogEntry) (t : T) : result T :=
  match l with
  | [] => Ok t
  | e :: rest =>
      match logOp e with
      | LogInsert =>
          match recordPtr e with
          | Some r => apply_log rest (tbl_insert (le_key e) r t)
          | None => Err Dangling
          end
      | LogUpdate => apply_log rest t
      | LogDelete => apply_log rest (tbl_delete (le_key e) t).2
      end
  end.

Definition transactionCommit (txID : Z) (t : TxTable) : result TxTable :=
  l ← entries_of txID (logBuffer t);
  tb ← apply_log l (tbl t);
  Ok (mkTxTable tb (cleanup txID (logBuffer t))).

Definition transactionPreCommit (txID : Z) (t : TxTable) : result TxTable :=
  transactionCommit txID t.

Definition transactionAbort (txID : Z) (t : TxTable) : TxTable :=
  mkTxTable (tbl t) (cleanup txID (logBuffer t)).

Definition tx_insert (txID : Z) (key : K) (rec : R) (t : TxTable) : TxTable :=
  mkTxTable (tbl t) (append_rec txID LogInsert key rec (logBuffer t)).

Definition tx_deleteByKey (txID : Z) (key : K) (t : TxTable) : Z * TxTable :=
  (1, mkTxTable (tbl t) (append txID LogDelete key (logBuffer t))).

Definition tx_updateOrDeleteByKey (key : K) (t : TxTable) : Z * TxTable := (0, t).

Definition tx_getByKey (key : K) (t : TxTable) : result R :=
  match tbl_get (tbl t) key with
  | Some r => Ok r
  | None => Err (Throws "key not found")
  end.

(** ** A transaction as the sequence of its write operations *)
Inductive write_op := WInsert (k : K) (r : R) | WDelete (k : K).

Definition issue (txID : Z) (w : write_op) (t : TxTable) : TxTable :=
  match w with
  | WInsert k r => tx_insert txID k r t
  | WDelete k => (tx_deleteByKey txID k t).2
  end.

(** an interleaving: which transaction issues which operation, in order *)
Definition issue_all (ws : list (Z * write_op)) (t : TxTable) : TxTable :=
  fold_left (fun t w => issue w.1 w.2 t) ws t.

Definition entry_of (w : write_op) : LogEntry :=
  match w with
  | WInsert k r => mkLogEntry LogInsert k (Some r)
  | WDelete k => mkLogEntry LogDelete k None
  end.

Definition own_ops (txID : Z) (ws : list (Z * write_op)) : list write_op :=
  (filter (fun w => w.1 = txID) ws).*2.

(** ** Specification: a table is a map, a transaction overwrites it *)
Definition write_effect (w : write_op) (m : K -> option R) : K -> option R :=
  match w with
  | WInsert k r => fun k' => if decide (k = k') then Some r else m k'
  | WDelete k => fun k' => if decide (k = k') then None else m k'
  end.

Definition run_spec (ws : list write_op) (m : K -> option R) : K -> option R :=
  fold_left (fun m w => write_effect w m) ws m.

Lemma write_effect_ext w m m' : (forall k, m k = m' k) ->
  forall k, write_effect w m k = write_effect w m' k.
Proof. intros Hm k. destruct w; simpl; by case_decide. Qed.

Lemma run_spec_ext ws m m' : (forall k, m k = m' k) ->
  forall k, run_spec ws m k = run_spec ws m' k.
Proof.
  revert m m'. induction ws as [|w ws IH]; intros m m' Hm; [done|].
  apply (IH (write_effect w m) (write_effect w m')). by apply write_effect_ext.
Qed.

(** ** Lemmas *)

Lemma append_entry_lookup txID e (b : LogBuffer) tx' :
  append_entry txID e b !! tx' =
    if decide (txID = tx') then Some (default [] (b !! txID) ++ [e]) else b !! tx'.
Proof.
  unfold append_entry. case_decide as Hd.
  - subst tx'. destruct (b !! txID) as [l|] eqn:E; simpl; by rewrite lookup_insert_eq.
  - destruct (b !! txID) as [l|]; by rewrite lookup_insert_ne.
Qed.

Lemma issue_buffer txID w t tx' :
  logBuffer (issue txID w t) !! tx' =
    if decide (txID = tx') then Some (default [] (logBuffer t !! txID) ++ [entry_of w])
    else logBuffer t !! tx'.
Proof. destruct w; apply append_entry_lookup. Qed.

Lemma issue_tbl txID w t : tbl (issue txID w t) = tbl t.
Proof. by destruct w. Qed.

Lemma issue_all_tbl ws t : tbl (issue_all ws t) = tbl t.
Proof.
  revert t. induction ws as [|w ws IH]; intros t; [done|].
  unfold issue_all in *. simpl. by rewrite IH, issue_tbl.
Qed.

Lemma issue_all_buffer ws t txID :
  default [] (logBuffer (issue_all ws t) !! txID) =
    default [] (logBuffer t !! txID) ++ (entry_of <$> own_ops txID ws).
Proof.
  revert t. induction ws as [|[tx w] ws IH]; intros t.
  { simpl. by rewrite app_nil_r. }
  unfold issue_all, own_ops in *. cbn [fold_left fst snd]. rewrite IH, issue_buffer, filter_cons.
  cbn [fst]. destruct (decide (tx = txID)) as [->|Hne]; [|done]. simpl.
  by rewrite <- app_assoc.
Qed.

Lemma issue_all_known ws t txID :
  own_ops txID ws <> [] -> is_Some (logBuffer (issue_all ws t) !! txID).
Proof.
  intros Hne. destruct (logBuffer (issue_all ws t) !! txID) as [l|] eqn:E; [by eexists|].
  pose proof (issue_all_buffer ws t txID) as Hb. rewrite E in Hb. simpl in Hb.
  symmetry in Hb. apply app_nil in Hb as [_ Hb]. by apply fmap_nil_inv in Hb.
Qed.

Lemma apply_log_ops `{!TableLaws T K R, !Overwrites T K R} ws t :
  exists t', apply_log (entry_of <$> ws) t = Ok t' /\
    forall k, tbl_get t' k = run_spec ws (tbl_get t) k.
Proof.
  revert t. induction ws as [|w ws IH]; intros t; [by exists t|].
  destruct w as [k r|k]; simpl.
  - destruct (IH (tbl_insert k r t)) as (t' & Ht' & Hg). exists t'. split; [done|].
    intros k'. rewrite Hg. unfold run_spec at 2. simpl. apply run_spec_ext.
    intros k''. by rewrite tbl_get_insert, put_overwrites.
  - destruct (IH (tbl_delete k t).2) as (t' & Ht' & Hg). exists t'. split; [done|].
    intros k'. rewrite Hg. unfold run_spec at 2. simpl. apply run_spec_ext.
    intros k''. by rewrite tbl_get_delete.
Qed.
End TxTable.
Arguments LogEntry : clear implicits.
Arguments TxTable : clear implicits.
Arguments write_op : clear implicits.

Section properties.
Context {T K R : Type} `{EqDecision K} {ops : TableOps T K R} {laws : TableLaws T K R} {ow : Overwrites T K R}.

(** C19: atomic commit.  Whatever way the operations of several transactions
    interleave, a reader sees none of them before a commit; committing a
    transaction that has written something succeeds and makes the table the
    result of exactly that transaction's operations in their order, while
    the pending operations of every other transaction stay buffered. *)
Theorem transactionCommit_refines (txID : Z) (ws : list (Z * write_op K R)) (t : TxTable T K R)
    (Hfresh : logBuffer t !! txID = None) (Hsome : own_ops txID ws <> []) :
  tbl (issue_all ws t) = tbl t /\
  exists t', transactionCommit txID (issue_all ws t) = Ok t' /\
    (forall k, tbl_get (tbl t') k = run_spec (own_ops txID ws) (tbl_get (tbl t)) k) /\
    (forall tx', tx' <> txID -> logBuffer t' !! tx' = logBuffer (issue_all ws t) !! tx') /\
    logBuffer t' !! txID = None.
Proof.
  split; [apply issue_all_tbl|].
  destruct (issue_all_known ws t txID Hsome) as [l Hl].
  pose proof (issue_all_buffer ws t txID) as Hb. rewrite Hl, Hfresh in Hb. simpl in Hb. subst l.
  destruct (apply_log_ops (own_ops txID ws) (tbl t)) as (tb & Htb & Hget).
  exists (mkTxTable tb (cleanup txID (logBuffer (issue_all ws t)))).
  unfold transactionCommit, entries_of. rewrite Hl. run_step.
  rewrite issue_all_tbl, Htb. split_and!; [done|done| |].
  - intros tx' Hne. by apply lookup_delete_ne.
  - apply lookup_delete_eq.
Qed.

(** Aborting leaves the table as it is and forgets the transaction, and
    committing a transaction that has not written anything runs into the
    assertion of [LogBuffer::begin] instead of succeeding. *)
Lemma abort_and_empty_commit (txID : Z) (t : TxTable T K R) :
  tbl (transactionAbort txID t) = tbl t /\
  logBuffer (transactionAbort txID t) !! txID = None /\
  (forall tx', tx' <> txID -> logBuffer (transactionAbort txID t) !! tx' = logBuffer t !! tx') /\
  transactionCommit txID (transactionAbort txID t) = Err AssertFailed /\
  (logBuffer t !! txID = None -> transactionCommit txID (transactionBegin txID t) = Err AssertFailed).
Proof.
  assert (forall u : TxTable T K R, logBuffer u !! txID = None ->
    transactionCommit txID u = Err AssertFailed) as Hempty.
  { intros u Hu. unfold transactionCommit, entries_of. by rewrite Hu. }
  split_and!; [done|apply lookup_delete_eq| | |apply Hempty].
  - intros tx' Hne. by apply lookup_delete_ne.
  - apply Hempty, lookup_delete_eq.
Qed.
End properties.

Lemma transactionCommit_refines_witness :
  exists t', transactionCommit 1 (issue_all
      [(1, WInsert 5 50); (2, WInsert 5 99); (1, WDelete 5); (1, WInsert 6 60)]
      (mkTxTable (HashMap.HashMapTable_new : HashMap.HashMapTable Z Z) ∅)) = Ok t' /\
    tbl_get (tbl t') 5 = None /\ tbl_get (tbl t') 6 = Some 60.
Proof.
  destruct (transactionCommit_refines 1
    [(1, WInsert 5 50); (2, WInsert 5 99); (1, WDelete 5); (1, WInsert 6 60)]
    (mkTxTable (HashMap.HashMapTable_new : HashMap.HashMapTable Z Z) ∅)
    (lookup_empty 1) ltac:(vm_compute; discriminate)) as (_ & t' & Ht & Hg & _).
  exists t'. split; [exact Ht|]. split; rewrite Hg; vm_compute; reflexivity.
Defined.
