(* ===== verification/Locks.v ===== *)
(** * Locks: the row and table locks of the transactional tables

    Models the three reader/writer locks under [src/table]: [S2PLLocks]
    (S2PLTable.hpp), [RWLocks] (MVCCTable.hpp) and [RWLock] (BOCCTable.hpp).
    Every method body runs under the lock's own mutex, so it is one step;
    waiting on a condition variable releases the mutex and splits the body. *)

From S2P Require Import Prelude.

Record RowLock := mkRowLock { active_readers : Z; active_writer : bool }.

Definition RowLock_new : RowLock := mkRowLock 0 false.

(** ** S2PLLocks: shared requests fail at once when a writer has announced itself *)
Definition S2PL_lockShared (l : RowLock) : Z * RowLock :=
  if active_writer l then (-1, l) else (0, mkRowLock (active_readers l + 1) (active_writer l)).

(** the part of [lockExclusive] before the first wait, and one test of the
    waiting loop *)
Definition S2PL_announce (l : RowLock) : RowLock := mkRowLock (active_readers l) true.
Definition S2PL_granted (l : RowLock) : bool := active_readers l =? 0.

Definition unlockShared (l : RowLock) : RowLock := mkRowLock (active_readers l - 1) (active_writer l).
Definition unlockExclusive (l : RowLock) : RowLock := mkRowLock (active_readers l) false.

(** without another thread the call blocks when there are readers *)
Definition S2PL_lockExclusive (l : RowLock) : result RowLock :=
  let l := S2PL_announce l in if S2PL_granted l then Ok l else Err Waits.

(** ** RWLocks and RWLock: both requests wait *)
Definition RW_lockShared (l : RowLock) : result RowLock :=
  if active_writer l then Err Waits else Ok (mkRowLock (active_readers l + 1) (active_writer l)).

Definition RW_lockExclusive (l : RowLock) : result RowLock :=
  if negb (active_readers l =? 0) then Err Waits else Ok (mkRowLock (active_readers l) true).

(** ** Threads on one lock *)

Inductive phase := Out | Reading | Announced | Writing.

#[export] Instance phase_eq_dec : EqDecision phase.
Proof. solve_decision. Defined.

Record lconfig := mkLConfig { lk : RowLock; phases : list phase }.

(** [lstep w]: [S2PLLocks] with the threads [w] selects allowed to write *)
Inductive s2pl_step (w : nat -> Prop) : lconfig -> lconfig -> Prop :=
  | s2pl_shared i l l' ps :
      ps !! i = Some Out -> S2PL_lockShared l = (0, l') ->
      s2pl_step w (mkLConfig l ps) (mkLConfig l' (<[i := Reading]> ps))
  | s2pl_shared_fails i l l' ps :
      ps !! i = Some Out -> S2PL_lockShared l = (-1, l') ->
      s2pl_step w (mkLConfig l ps) (mkLConfig l' ps)
  | s2pl_unlock_shared i l ps :
      ps !! i = Some Reading ->
      s2pl_step w (mkLConfig l ps) (mkLConfig (unlockShared l) (<[i := Out]> ps))
  | s2pl_announces i l ps :
      w i -> ps !! i = Some Out ->
      s2pl_step w (mkLConfig l ps) (mkLConfig (S2PL_announce l) (<[i := Announced]> ps))
  | s2pl_grants i l ps :
      ps !! i = Some Announced -> S2PL_granted l = true ->
      s2pl_step w (mkLConfig l ps) (mkLConfig l (<[i := Writing]> ps))
  | s2pl_unlock_exclusive i l ps :
      ps !! i = Some Writing ->
      s2pl_step w (mkLConfig l ps) (mkLConfig (unlockExclusive l) (<[i := Out]> ps)).

Inductive rw_step (w : nat -> Prop) : lconfig -> lconfig -> Prop :=
  | rw_shared i l l' ps :
      ps !! i = Some Out -> RW_lockShared l = Ok l' ->
      rw_step w (mkLConfig l ps) (mkLConfig l' (<[i := Reading]> ps))
  | rw_unlock_shared i l ps :
      ps !! i = Some Reading ->
      rw_step w (mkLConfig l ps) (mkLConfig (unlockShared l) (<[i := Out]> ps))
  | rw_exclusive i l l' ps :
      w i -> ps !! i = Some Out -> RW_lockExclusive l = Ok l' ->
      rw_step w (mkLConfig l ps) (mkLConfig l' (<[i := Writing]> ps))
  | rw_unlock_exclusive i l ps :
      ps !! i = Some Writing ->
      rw_step w (mkLConfig l ps) (mkLConfig (unlockExclusive l) (<[i := Out]> ps)).

Definition all_out (n : nat) : lconfig := mkLConfig RowLock_new (replicate n Out).

(** ** Counting threads *)

Definition count (p : phase) (ps : list phase) : Z := Z.of_nat (length (filter (fun q => q = p) ps)).

Definition is_phase (p q : phase) : Z := if decide (q = p) then 1 else 0.

Ltac solve_count := unfold is_phase; repeat case_decide; try congruence; cbn; lia.

Lemma count_cons p q ps : count p (q :: ps) = is_phase p q + count p ps.
Proof. unfold count, is_phase. rewrite filter_cons. case_decide; simpl; lia. Qed.

Lemma count_insert p q q' i ps :
  ps !! i = Some q -> count p (<[i := q']> ps) = count p ps - is_phase p q + is_phase p q'.
Proof.
  revert i. induction ps as [|x ps IH]; intros [|i] Hi; simplify_eq/=.
  - rewrite !count_cons. lia.
  - rewrite !count_cons, IH by done. lia.
Qed.

Lemma count_nonneg p ps : 0 <= count p ps.
Proof. unfold count. lia. Qed.

Lemma count_pos p ps i : ps !! i = Some p -> 1 <= count p ps.
Proof.
  revert i. induction ps as [|x ps IH]; intros [|i] Hi; simplify_eq/=; rewrite count_cons.
  - unfold is_phase. rewrite decide_True by done. pose proof (count_nonneg p ps). lia.
  - specialize (IH i Hi). unfold is_phase. case_decide; lia.
Qed.

Lemma count_all_out p n : p <> Out -> count p (replicate n Out) = 0.
Proof.
  intros Hp. induction n as [|n IH]; [done|]. simpl. rewrite count_cons, IH.
  unfold is_phase. by rewrite decide_False.
Qed.

(** ** The invariant with one writing thread *)

Record lock_inv (w : nat) (c : lconfig) : Prop := {
  li_readers : active_readers (lk c) = count Reading (phases c);
  li_others : forall i p, phases c !! i = Some p -> i <> w -> p = Out \/ p = Reading;
  li_flag : active_writer (lk c) = true <-> phases c !! w = Some Announced \/ phases c !! w = Some Writing;
  li_excl : phases c !! w = Some Writing -> count Reading (phases c) = 0;
}.

Lemma all_out_inv w n : lock_inv w (all_out n).
Proof.
  assert (forall i p, replicate n Out !! i = Some p -> p = Out) as Hout.
  { intros i p Hi. by apply lookup_replicate in Hi as [-> _]. }
  split; cbn.
  - by rewrite count_all_out.
  - intros i p Hi _. left. by apply (Hout i).
  - split; [done|]. intros [H|H]; by apply Hout in H.
  - intros H. by apply Hout in H.
Qed.

(** a step of one thread that enters or leaves as a reader *)
Lemma reader_moves w i p q l l' ps :
  lock_inv w (mkLConfig l ps) -> ps !! i = Some p ->
  (p = Out /\ q = Reading /\ active_writer l = false \/ p = Reading /\ q = Out) ->
  active_readers l' = active_readers l - is_phase Reading p + is_phase Reading q ->
  active_writer l' = active_writer l ->
  lock_inv w (mkLConfig l' (<[i := q]> ps)).
Proof.
  intros [Hr Ho Hf He] Hi Hpq Hcnt Hw. cbn in *.
  assert (forall x, x = Announced \/ x = Writing -> <[i:=q]> ps !! w = Some x <-> ps !! w = Some x) as Hiff.
  { intros x Hx. destruct (decide (i = w)) as [->|Hne].
    - rewrite list_lookup_insert_eq by (by eapply lookup_lt_Some). destruct Hpq as [(-> & -> & _)|(-> & ->)]; intuition congruence.
    - by rewrite list_lookup_insert_ne. }
  split; cbn.
  - rewrite Hcnt, Hr. by rewrite (count_insert _ p).
  - intros j x [(<- & <- & _)|[Hne Hj]]%list_lookup_insert_Some Hjw; [|by apply (Ho j)].
    destruct Hpq as [(_ & -> & _)|(_ & ->)]; auto.
  - rewrite Hw, Hf, !Hiff by auto. done.
  - rewrite Hiff by auto. intros Hwr. rewrite (count_insert _ p) by done. specialize (He Hwr).
    destruct Hpq as [(-> & -> & Hnw)|(-> & ->)].
    + rewrite (proj2 Hf) in Hnw by auto. done.
    + apply count_pos in Hi. lia.
Qed.

(** a step of the writing thread between its own phases *)
Lemma writer_moves w p q l l' ps :
  lock_inv w (mkLConfig l ps) -> ps !! w = Some p ->
  p <> Reading -> q <> Reading -> active_readers l' = active_readers l ->
  (active_writer l' = true <-> q = Announced \/ q = Writing) ->
  (q = Writing -> active_readers l = 0) ->
  lock_inv w (mkLConfig l' (<[w := q]> ps)).
Proof.
  intros [Hr Ho Hf He] Hi Hp Hq Hcnt Hflag Hgr. cbn in *.
  assert (count Reading (<[w:=q]> ps) = count Reading ps) as Hc.
  { rewrite (count_insert _ p) by done. unfold is_phase. rewrite !decide_False by congruence. lia. }
  pose proof (lookup_lt_Some _ _ _ Hi) as Hlt.
  split; cbn; rewrite ?Hc, ?list_lookup_insert_eq by done.
  - congruence.
  - intros j x [(<- & <- & _)|[Hne Hj]]%list_lookup_insert_Some Hjw; [done|by apply (Ho j)].
  - rewrite Hflag. intuition congruence.
  - intros [= ->]. rewrite <- Hr. by apply Hgr.
Qed.

Lemma s2pl_step_inv w c c' : s2pl_step (eq w) c c' -> lock_inv w c -> lock_inv w c'.
Proof.
  intros Hs Hinv. destruct Hs as [i l l' ps Hi Hl|i l l' ps Hi Hl|i l ps Hi|i l ps <- Hi|i l ps Hi Hg|i l ps Hi].
  - unfold S2PL_lockShared in Hl. destruct (active_writer l) eqn:Ew; [done|]. injection Hl as <-.
    eapply reader_moves; [done|done|by left|solve_count|done].
  - unfold S2PL_lockShared in Hl. destruct (active_writer l) eqn:Ew; [|done]. by injection Hl as <-.
  - eapply reader_moves; [done|done|by right|solve_count|done].
  - eapply writer_moves; try done. cbn. intuition.
  - destruct (decide (i = w)) as [->|Hne]; [|by destruct (li_others w _ Hinv i Announced Hi Hne)].
    eapply writer_moves; try done.
    + rewrite (li_flag w _ Hinv). cbn. intuition.
    + intros _. by apply Z.eqb_eq in Hg.
  - destruct (decide (i = w)) as [->|Hne]; [|by destruct (li_others w _ Hinv i Writing Hi Hne)].
    eapply writer_moves; try done. cbn. intuition discriminate.
Qed.

Lemma rw_step_inv w c c' : rw_step (eq w) c c' -> lock_inv w c -> lock_inv w c'.
Proof.
  intros Hs Hinv. destruct Hs as [i l l' ps Hi Hl|i l ps Hi|i l l' ps <- Hi Hl|i l ps Hi].
  - unfold RW_lockShared in Hl. destruct (active_writer l) eqn:Ew; [done|]. injection Hl as <-.
    eapply reader_moves; [done|done|by left|solve_count|done].
  - eapply reader_moves; [done|done|by right|solve_count|done].
  - unfold RW_lockExclusive in Hl. destruct (Z.eqb_spec (active_readers l) 0) as [Hz|]; [|done].
    injection Hl as <-. eapply writer_moves; try done. cbn. intuition.
  - destruct (decide (i = w)) as [->|Hne]; [|by destruct (li_others w _ Hinv i Writing Hi Hne)].
    eapply writer_moves; try done. cbn. intuition discriminate.
Qed.

(** ** Properties *)

Lemma s2pl_reachable_inv w n c : rtc (s2pl_step (eq w)) (all_out n) c -> lock_inv w c.
Proof.
  intros Hr. assert (lock_inv w (all_out n)) as Hi by apply all_out_inv.
  induction Hr as [|c c1 c2 Hs _ IH]; [done|]. by eapply IH, s2pl_step_inv.
Qed.

Lemma rw_reachable_inv w n c : rtc (rw_step (eq w)) (all_out n) c -> lock_inv w c.
Proof.
  intros Hr. assert (lock_inv w (all_out n)) as Hi by apply all_out_inv.
  induction Hr as [|c c1 c2 Hs _ IH]; [done|]. by eapply IH, rw_step_inv.
Qed.

(** C11: with a single writing thread the locks exclude readers from the
    writer: whatever [n] threads do, while thread [w] holds the exclusive lock
    nobody holds the shared one, the reader count is the number of threads
    holding it, and nobody else ever holds the exclusive lock.  In [S2PLLocks]
    moreover no reader gets in any more once the writer has announced itself,
    so readers cannot starve it. *)
Theorem single_writer_exclusion (w n : nat) (c : lconfig)
  (Hreach : rtc (s2pl_step (eq w)) (all_out n) c \/ rtc (rw_step (eq w)) (all_out n) c) :
  active_readers (lk c) = count Reading (phases c) /\
  (forall i, phases c !! i = Some Writing -> i = w /\ count Reading (phases c) = 0) /\
  (active_writer (lk c) = true -> forall c', s2pl_step (eq w) c c' ->
     count Reading (phases c') <= count Reading (phases c)).
Proof.
  assert (lock_inv w c) as Hinv.
  { destruct Hreach; [by eapply s2pl_reachable_inv|by eapply rw_reachable_inv]. }
  split_and!.
  - apply Hinv.
  - intros i Hi. destruct (decide (i = w)) as [->|Hne]; [split; [done|by apply (li_excl w c Hinv)]|].
    by destruct (li_others w c Hinv i Writing Hi Hne).
  - intros Hw c' Hs. destruct Hs as [i l l' ps Hi Hl|i l l' ps Hi Hl|i l ps Hi|i l ps <- Hi|i l ps Hi Hg|i l ps Hi];
      cbn in *.
    + unfold S2PL_lockShared in Hl. by rewrite Hw in Hl.
    + done.
    + rewrite (count_insert _ Reading) by done. solve_count.
    + rewrite (count_insert _ Out) by done. solve_count.
    + rewrite (count_insert _ Announced) by done. solve_count.
    + rewrite (count_insert _ Writing) by done. solve_count.
Qed.

Lemma single_writer_exclusion_witness :
  exists c, rtc (s2pl_step (eq 1%nat)) (all_out 2) c /\ phases c = [Out; Writing] /\
    count Reading (phases c) = 0.
Proof.
  assert (rtc (s2pl_step (eq 1%nat)) (all_out 2) (mkLConfig (mkRowLock 0 true) [Out; Writing])) as Hr.
  { eapply rtc_l; [by apply (s2pl_announces _ 1 RowLock_new)|]. cbn.
    eapply rtc_l; [by apply (s2pl_grants _ 1)|]. apply rtc_refl. }
  eexists. split; [exact Hr|]. split; [reflexivity|].
  exact (proj2 (proj1 (proj2 (single_writer_exclusion 1 2 _ (or_introl Hr))) 1%nat eq_refl)).
Defined.

(** None of the locks tests for another writer.  With two writing threads
    both hold the exclusive lock at once, and when the first releases it a
    reader is let in beside the second. *)
Lemma two_writers_break_exclusion :
  (exists c d, rtc (s2pl_step (fun _ => True)) (all_out 3) c /\ phases c = [Writing; Writing; Out] /\
     rtc (s2pl_step (fun _ => True)) c d /\ phases d = [Out; Writing; Reading]) /\
  (exists c d, rtc (rw_step (fun _ => True)) (all_out 3) c /\ phases c = [Writing; Writing; Out] /\
     rtc (rw_step (fun _ => True)) c d /\ phases d = [Out; Writing; Reading]).
Proof.
  split.
  - eexists _, (mkLConfig (mkRowLock 1 false) [Out; Writing; Reading]). split; [|split; [|split; [|done]]].
    + eapply rtc_l; [by apply (s2pl_announces _ 0 RowLock_new)|]. cbn.
      eapply rtc_l; [by apply (s2pl_grants _ 0)|]. cbn.
      eapply rtc_l; [by apply (s2pl_announces _ 1)|]. cbn.
      eapply rtc_l; [by apply (s2pl_grants _ 1)|]. apply rtc_refl.
    + done.
    + eapply rtc_l; [by apply (s2pl_unlock_exclusive _ 0)|]. cbn.
      eapply rtc_l; [by eapply (s2pl_shared _ 2)|]. apply rtc_refl.
  - eexists _, (mkLConfig (mkRowLock 1 false) [Out; Writing; Reading]). split; [|split; [|split; [|done]]].
    + eapply rtc_l; [by eapply (rw_exclusive _ 0)|]. cbn.
      eapply rtc_l; [by eapply (rw_exclusive _ 1)|]. apply rtc_refl.
    + done.
    + eapply rtc_l; [by apply (rw_unlock_exclusive _ 0)|]. cbn.
      eapply rtc_l; [by eapply (rw_shared _ 2)|]. apply rtc_refl.
Qed.
