(* ===== verification/S2PL.v ===== *)
(** * S2PL: tables under strict two-phase locking

    Models the transactional operations of [src/table/S2PLTable.hpp] over any
    table with the [TableOps] interface, using the row locks of [Locks.v].
    The calls are those of one thread; a request that has to wait for another
    thread is [Err Waits]. *)

From S2P Require Import Prelude StateContext Tables Locks.

Section S2PLTable.
Context {T R : Type} {ops : TableOps T Z R}.

Abbreviation S2PLLocks := (gmap Z RowLock) (only parsing).

(** [locks\[key\]]: a missing entry is created *)
Definition row (key : Z) (locks : S2PLLocks) : RowLock := default RowLock_new (locks !! key).

Definition lockShared (key : Z) (locks : S2PLLocks) : Z * S2PLLocks :=
  let '(r, l) := S2PL_lockShared (row key locks) in (r, <[key := l]> locks).
Definition lockExclusive (key : Z) (locks : S2PLLocks) : result S2PLLocks :=
  l ← S2PL_lockExclusive (row key locks); Ok (<[key := l]> locks).
Definition unlockSharedAt (key : Z) (locks : S2PLLocks) : S2PLLocks :=
  <[key := unlockShared (row key locks)]> locks.
Definition unlockExclusiveAt (key : Z) (locks : S2PLLocks) : S2PLLocks :=
  <[key := unlockExclusive (row key locks)]> locks.

Record S2PLTable := mkS2PLTable {
  locks : S2PLLocks;
  wKeysLocked : list Z;
  tbl : T;
  tblID : nat;
}.

Definition transactionBegin (txnID : Z) (c : ctx) : ctx := with_txCntW (u64 (txCntW c + 1)) c.

Definition release_writes (t : S2PLTable) : S2PLTable :=
  mkS2PLTable (fold_left (fun ls k => unlockExclusiveAt k ls) (wKeysLocked t) (locks t)) [] (tbl t) (tblID t).

Definition transactionCommit (txnID : Z) (t : S2PLTable) : Errc * S2PLTable :=
  (SUCCESS, release_writes t).

Definition transactionAbort (txnID : Z) (t : S2PLTable) : S2PLTable := release_writes t.

Definition readCommit (txnID : Z) (keys : list Z) (until : nat) : Errc := SUCCESS.

(** [for (i = 0; i < until; ++i) unlockShared(keys\[i\])] *)
Fixpoint cleanUpReads_loop (keys : list Z) (i n : nat) (t : S2PLTable) : result S2PLTable :=
  match n with
  | O => Ok t
  | S n =>
      k ← get_at keys i;
      cleanUpReads_loop keys (S i) n
        (mkS2PLTable (unlockSharedAt k (locks t)) (wKeysLocked t) (tbl t) (tblID t))
  end.
Definition cleanUpReads (keys : list Z) (until : nat) (t : S2PLTable) : result S2PLTable :=
  cleanUpReads_loop keys 0 until t.

Definition s2pl_insert (txnID key : Z) (rec : R) (t : S2PLTable) : result S2PLTable :=
  ls ← lockExclusive key (locks t);
  Ok (mkS2PLTable ls (wKeysLocked t ++ [key]) (tbl_insert key rec (tbl t)) (tblID t)).

Definition s2pl_deleteByKey (txnID key : Z) (t : S2PLTable) : result (Z * S2PLTable) :=
  ls ← lockExclusive key (locks t);
  let '(n, tb) := tbl_delete key (tbl t) in
  Ok (n, mkS2PLTable ls (wKeysLocked t ++ [key]) tb (tblID t)).

Definition s2pl_getByKey (txnID key : Z) (t : S2PLTable) : Errc * option R * S2PLTable :=
  let '(r, ls) := lockShared key (locks t) in
  let t := mkS2PLTable ls (wKeysLocked t) (tbl t) (tblID t) in
  if negb (r =? 0) then (ABORT, None, t)
  else match tbl_get (tbl t) key with
    | None => (NOT_FOUND, None, mkS2PLTable (unlockSharedAt key (locks t)) (wKeysLocked t) (tbl t) (tblID t))
    | Some v => (SUCCESS, Some v, t)
    end.

(** ** The topology group: commit of two tables *)
Definition transactionPreCommit (txnID : Z) (self : nat) (c : ctx) (ts : list S2PLTable)
    : result (Errc * ctx * list S2PLTable) :=
  t ← get_at ts self;
  let otherID := if Nat.eqb (tblID t) 0 then 1%nat else 0%nat in
  c ← setWriteStatus c txnID (tblID t) Commit;
  otherState ← getWriteStatus c txnID otherID;
  if decide (otherState = Commit) then
    let '(s, t) := transactionCommit txnID t in
    ts ← set_at ts self t;
    if decide (s = SUCCESS) then
      other ← get_at (regStates c) otherID;
      match other with
      | None => Err Dangling
      | Some ref =>
          o ← get_at ts ref;
          let '(s, o) := transactionCommit txnID o in
          ts ← set_at ts ref o;
          c ← setLastCTS 0 txnID c;
          c ← removeTx txnID c;
          Ok (s, c, ts)
      end
    else Ok (s, c, ts)
  else Ok (SUCCESS, c, ts).

(** ** A writing transaction as a sequence of operations *)
Inductive s2pl_write := SInsert (k : Z) (r : R) | SDelete (k : Z).

Definition write_key (w : s2pl_write) : Z := match w with SInsert k _ => k | SDelete k => k end.

Definition do_write (txnID : Z) (w : s2pl_write) (t : S2PLTable) : result S2PLTable :=
  match w with
  | SInsert k r => s2pl_insert txnID k r t
  | SDelete k => snd <$> s2pl_deleteByKey txnID k t
  end.

Fixpoint do_writes (txnID : Z) (ws : list s2pl_write) (t : S2PLTable) : result S2PLTable :=
  match ws with
  | [] => Ok t
  | w :: rest => t ← do_write txnID w t; do_writes txnID rest t
  end.

(** specification: the table as a map, an insert storing what the table makes
    of it *)
Definition write_map (m : Z -> option R) (w : s2pl_write) : Z -> option R :=
  match w with
  | SInsert k r => fun k' => if decide (k = k') then Some (tbl_put (T:=T) (K:=Z) (m k) r) else m k'
  | SDelete k => fun k' => if decide (k = k') then None else m k'
  end.

(** ** Lemmas *)

Lemma row_insert k k' l ls : row k (<[k' := l]> ls) = if decide (k = k') then l else row k ls.
Proof.
  unfold row. case_decide as Hd.
  - subst. by rewrite lookup_insert_eq.
  - by rewrite lookup_insert_ne.
Qed.

Lemma release_row k ks ls :
  row k (fold_left (fun ls k => unlockExclusiveAt k ls) ks ls)
    = if decide (k ∈ ks) then unlockExclusive (row k ls) else row k ls.
Proof.
  revert ls. induction ks as [|k' ks IH]; intros ls; cbn [fold_left].
  { rewrite decide_False by apply not_elem_of_nil. done. }
  rewrite IH. unfold unlockExclusiveAt. rewrite row_insert.
  destruct (decide (k = k')) as [->|Hne].
  - rewrite (decide_True (P := k' ∈ k' :: ks)) by by left. case_decide; by destruct (row k' ls).
  - apply decide_ext. rewrite elem_of_cons. intuition.
Qed.

Context {laws : TableLaws T Z R}.

Lemma write_map_ext w m m' : (forall k, m k = m' k) -> forall k, write_map m w k = write_map m' w k.
Proof. intros Hm k. destruct w; simpl; by rewrite ?Hm. Qed.

Lemma fold_write_ext ws m m' : (forall k, m k = m' k) ->
  forall k, fold_left write_map ws m k = fold_left write_map ws m' k.
Proof.
  revert m m'. induction ws as [|w ws IH]; intros m m' Hm; [done|].
  apply IH. by apply write_map_ext.
Qed.

Lemma do_write_spec txnID w t :
  do_write txnID w t =
    (if active_readers (row (write_key w) (locks t)) =? 0
     then Ok (mkS2PLTable
       (<[write_key w := S2PL_announce (row (write_key w) (locks t))]> (locks t))
       (wKeysLocked t ++ [write_key w])
       (match w with SInsert k r => tbl_insert k r (tbl t) | SDelete k => (tbl_delete k (tbl t)).2 end)
       (tblID t))
     else Err Waits).
Proof.
  destruct w as [k r|k]; cbn [do_write write_key].
  - unfold s2pl_insert, lockExclusive, S2PL_lockExclusive, S2PL_granted. cbn.
    by destruct (active_readers _ =? 0).
  - unfold s2pl_deleteByKey, lockExclusive, S2PL_lockExclusive, S2PL_granted. cbn.
    destruct (active_readers _ =? 0); [|done]. cbn. by destruct (tbl_delete k (tbl t)).
Qed.

Lemma do_writes_spec txnID ws t :
  (forall w, w ∈ ws -> active_readers (row (write_key w) (locks t)) = 0) ->
  exists t', do_writes txnID ws t = Ok t' /\
    (forall k, row k (locks t') = if decide (k ∈ (write_key <$> ws)) then S2PL_announce (row k (locks t)) else row k (locks t)) /\
    wKeysLocked t' = wKeysLocked t ++ (write_key <$> ws) /\ tblID t' = tblID t /\
    forall k, tbl_get (tbl t') k = fold_left write_map ws (tbl_get (tbl t)) k.
Proof.
  revert t. induction ws as [|w ws IH]; intros t Hfree.
  { exists t. split_and!; [done| |by rewrite app_nil_r|done|done].
    intros k. rewrite decide_False by apply not_elem_of_nil. done. }
  cbn [do_writes]. rewrite do_write_spec, (Hfree w) by by left. cbn [mbind result_bind Z.eqb].
  set (t1 := mkS2PLTable _ _ _ _).
  destruct (IH t1) as (t' & Hrun & Hrow & Hk & Hid & Hget).
  { intros w' Hw'. subst t1. cbn [locks]. rewrite row_insert. case_decide as Hd; [|by apply Hfree; right].
    cbn. apply Hfree. by left. }
  exists t'. split; [done|]. split_and!.
  - intros k. rewrite Hrow. subst t1. cbn [locks fmap list_fmap]. rewrite row_insert.
    destruct (decide (k = write_key w)) as [->|Hne].
    + rewrite (decide_True (P := _ ∈ _ :: _)) by by left. by case_decide.
    + apply decide_ext. rewrite elem_of_cons. intuition.
  - rewrite Hk. subst t1. cbn. by rewrite <- app_assoc.
  - by rewrite Hid.
  - intros k. rewrite Hget. cbn [fold_left]. apply fold_write_ext. intros k'. subst t1. cbn [tbl].
    destruct w as [k0 r|k0]; cbn; [by rewrite tbl_get_insert|by rewrite tbl_get_delete].
Qed.
End S2PLTable.
Arguments S2PLTable : clear implicits.
Arguments s2pl_write : clear implicits.

(** ** Properties *)

Section properties.
Context {T R : Type} {ops : TableOps T Z R} {laws : TableLaws T Z R}.
Local Notation write_map := (write_map (T:=T)).

(** C10: a writing transaction.  On keys that nobody has locked its inserts
    and deletes all go through and are applied to the table at once; until it
    ends every read of a written key, its own included, is aborted; commit
    and abort alike release every lock it took and nothing else, and an
    aborted transaction leaves its writes in the table. *)
Theorem s2pl_writer (txnID : Z) (ws : list (s2pl_write R)) (t : S2PLTable T)
  (Hclean : wKeysLocked t = [])
  (Hfree : forall w, w ∈ ws -> row (write_key w) (locks t) = RowLock_new) :
  exists t', do_writes txnID ws t = Ok t' /\
    (forall w other, w ∈ ws -> (s2pl_getByKey other (write_key w) t').1 = (ABORT, None)) /\
    transactionCommit txnID t' = (SUCCESS, transactionAbort txnID t') /\
    (forall k, row k (locks (transactionAbort txnID t')) = row k (locks t)) /\
    wKeysLocked (transactionAbort txnID t') = [] /\
    (forall k, tbl_get (tbl (transactionAbort txnID t')) k = fold_left write_map ws (tbl_get (tbl t)) k).
Proof.
  destruct (do_writes_spec txnID ws t) as (t' & Hrun & Hrow & Hk & _ & Hget).
  { intros w Hw. by rewrite (Hfree w Hw). }
  exists t'. rewrite Hclean in Hk. cbn [app] in Hk. split_and!; [done| |done| |done|done].
  - intros w other Hw. unfold s2pl_getByKey, lockShared.
    rewrite Hrow, decide_True by by apply list_elem_of_fmap_2. done.
  - intros k. cbn [locks transactionAbort release_writes]. rewrite release_row, Hk, Hrow.
    case_decide as Hd; [|done]. apply list_elem_of_fmap in Hd as (w & -> & Hw). by rewrite (Hfree w Hw).
Qed.

(** a run of reads *)
Fixpoint do_reads (txnID : Z) (keys : list Z) (t : S2PLTable T) : list (Errc * option R) * S2PLTable T :=
  match keys with
  | [] => ([], t)
  | k :: rest =>
      let '(r, t) := s2pl_getByKey txnID k t in
      let '(rs, t) := do_reads txnID rest t in (r :: rs, t)
  end.

Lemma getByKey_unlocked txnID k (t : S2PLTable T) :
  active_writer (row k (locks t)) = false ->
  exists t', s2pl_getByKey txnID k t = (match tbl_get (tbl t) k with Some v => (SUCCESS, Some v) | None => (NOT_FOUND, None) end, t') /\
    (forall k', row k' (locks t') =
       if decide (k' = k /\ tbl_get (tbl t) k <> None)
       then mkRowLock (active_readers (row k' (locks t)) + 1) (active_writer (row k' (locks t)))
       else row k' (locks t)) /\
    tbl t' = tbl t /\ wKeysLocked t' = wKeysLocked t /\ tblID t' = tblID t.
Proof.
  intros Hw. unfold s2pl_getByKey, lockShared, S2PL_lockShared. rewrite Hw. cbn [Z.eqb negb tbl locks].
  destruct (tbl_get (tbl t) k) as [v|] eqn:E; eexists; (split; [reflexivity|]);
    (split; [|done]); intros k'; cbn [locks]; unfold unlockSharedAt; rewrite ?row_insert.
  - destruct (decide (k' = k)) as [->|Hne].
    + rewrite decide_True by done. by rewrite Hw.
    + rewrite decide_False by tauto. done.
  - rewrite (decide_False (P := _ /\ _)) by tauto.
    destruct (decide (k' = k)) as [->|Hne]; [|done]. rewrite decide_True by done.
    unfold unlockShared. cbn. rewrite <- Hw. destruct (row k (locks t)). cbn. f_equal. lia.
Qed.

Definition holds (ks : list Z) (k : Z) : Z := Z.of_nat (length (filter (fun k' => k' = k) ks)).

Lemma holds_cons k k' ks : holds (k' :: ks) k = (if decide (k' = k) then 1 else 0) + holds ks k.
Proof. unfold holds. rewrite filter_cons. case_decide; simpl; lia. Qed.

Lemma holds_zero ks k : (k ∉ ks -> holds ks k = 0) /\ (holds ks k = 0 -> k ∉ ks).
Proof.
  induction ks as [|k' ks [IH1 IH2]]; [split; [done|intros _; apply not_elem_of_nil]|].
  rewrite holds_cons, not_elem_of_cons. assert (0 <= holds ks k) by (unfold holds; lia).
  destruct (decide (k' = k)) as [->|Hne]; split; intros Hx.
  - by destruct Hx.
  - exfalso. lia.
  - rewrite (IH1 (proj2 Hx)). lia.
  - split; [done|]. apply IH2. lia.
Qed.

Definition found (t : S2PLTable T) (k : Z) : bool :=
  match tbl_get (tbl t) k with Some _ => true | None => false end.

Lemma do_reads_spec txnID ks (t : S2PLTable T) :
  (forall k, active_writer (row k (locks t)) = false) ->
  exists t', do_reads txnID ks t = ((fun k => match tbl_get (tbl t) k with Some v => (SUCCESS, Some v) | None => (NOT_FOUND, None) end) <$> ks, t') /\
    (forall k, row k (locks t') =
       mkRowLock (active_readers (row k (locks t)) + holds (filter (fun k => found t k = true) ks) k) false) /\
    tbl t' = tbl t /\ wKeysLocked t' = wKeysLocked t /\ tblID t' = tblID t.
Proof.
  revert t. induction ks as [|k ks IH]; intros t Hw.
  - exists t. split_and!; try done. intros k. unfold holds. cbn. rewrite Z.add_0_r.
    rewrite <- (Hw k). by destruct (row k (locks t)).
  - cbn [do_reads]. destruct (getByKey_unlocked txnID k t (Hw k)) as (t1 & -> & Hrow & Htb & Hk & Hid).
    destruct (IH t1) as (t' & -> & Hrow' & Htb' & Hk' & Hid').
    { intros k'. rewrite Hrow. case_decide; apply Hw. }
    exists t'. rewrite Htb. split_and!; [done| |congruence..].
    intros k'. rewrite Hrow', Hrow, filter_cons. unfold found. rewrite Htb.
    destruct (tbl_get (tbl t) k) as [v|] eqn:E.
    + rewrite (decide_True (P := true = true)) by done. rewrite holds_cons.
      destruct (decide (k = k')) as [->|Hne].
      * rewrite decide_True by (split; congruence). cbn. f_equal. lia.
      * rewrite decide_False by (intros [? _]; congruence). f_equal.
    + rewrite (decide_False (P := false = true)) by done. by rewrite decide_False by (intros [_ ?]; congruence).
Qed.

Lemma cleanUpReads_loop_spec ks i (t : S2PLTable T) n :
  (i + n <= length ks)%nat ->
  exists t', cleanUpReads_loop ks i n t = Ok t' /\
    (forall k, row k (locks t') = mkRowLock (active_readers (row k (locks t)) - holds (take n (drop i ks)) k)
                                           (active_writer (row k (locks t)))) /\
    tbl t' = tbl t /\ wKeysLocked t' = wKeysLocked t /\ tblID t' = tblID t.
Proof.
  revert i t. induction n as [|n IH]; intros i t Hi.
  - exists t. split_and!; try done. intros k. unfold holds. cbn. rewrite Z.sub_0_r. by destruct (row k (locks t)).
  - cbn [cleanUpReads_loop]. destruct (lookup_lt_is_Some_2 ks i ltac:(lia)) as [k Hk].
    rewrite (get_at_Some _ _ _ Hk). run_step.
    destruct (IH (S i) (mkS2PLTable (unlockSharedAt k (locks t)) (wKeysLocked t) (tbl t) (tblID t)) ltac:(lia))
      as (t' & -> & Hrow & Htb & Hwk & Hid).
    exists t'. split_and!; [done| |done..]. intros k'. rewrite Hrow. cbn [locks].
    rewrite (drop_S ks k i Hk). cbn [take]. rewrite holds_cons. unfold unlockSharedAt. rewrite row_insert.
    destruct (decide (k' = k)) as [->|Hne].
    + rewrite decide_True by done. cbn. f_equal. lia.
    + rewrite decide_False by congruence. f_equal.
Qed.

(** A reading transaction.  Where no writer is about, its reads answer
    with the table's contents and never abort; giving the keys that were
    found to [cleanUpReads] afterwards restores every row lock to what it
    was: a read that found nothing has already given up its lock, so that
    passing on its key too would release the lock once too often. *)
Lemma s2pl_reader (txnID : Z) (ks : list Z) (t : S2PLTable T)
  (Hw : forall k, active_writer (row k (locks t)) = false) :
  exists t' t'' t3, do_reads txnID ks t =
      ((fun k => match tbl_get (tbl t) k with Some v => (SUCCESS, Some v) | None => (NOT_FOUND, None) end) <$> ks, t') /\
    let kept := filter (fun k => found t k = true) ks in
    cleanUpReads kept (length kept) t' = Ok t'' /\
    (forall k, row k (locks t'') = row k (locks t)) /\ tbl t'' = tbl t /\
    cleanUpReads ks (length ks) t' = Ok t3 /\
    (forall k, k ∈ ks -> tbl_get (tbl t) k = None ->
       active_readers (row k (locks t3)) < active_readers (row k (locks t))).
Proof.
  destruct (do_reads_spec txnID ks t Hw) as (t' & Hrun & Hrow & Htb & _ & _).
  set (kept := filter (fun k => found t k = true) ks) in *.
  destruct (cleanUpReads_loop_spec kept 0 t' (length kept) ltac:(lia)) as (t'' & Hclean & Hrow'' & Htb'' & _).
  destruct (cleanUpReads_loop_spec ks 0 t' (length ks) ltac:(lia)) as (t3 & Hclean3 & Hrow3 & _).
  rewrite drop_0, firstn_all in Hrow'', Hrow3.
  exists t', t'', t3. cbv zeta. split_and!; [done|done| |congruence|done|].
  - intros k. rewrite Hrow'', Hrow. cbn. rewrite <- (Hw k). destruct (row k (locks t)). cbn. f_equal. lia.
  - intros k Hin Hnone. rewrite Hrow3, Hrow. cbn.
    rewrite (proj1 (holds_zero kept k)).
    + destruct (decide (holds ks k = 0)) as [Hz|]; [by apply holds_zero in Hz|].
      assert (0 <= holds ks k) by (unfold holds; lia). lia.
    + unfold kept. intros [Hf _]%list_elem_of_filter. unfold found in Hf. by rewrite Hnone in Hf.
Qed.
End properties.

(** keys 1 and 2 stored, nothing locked *)
Definition demo_s2pl : S2PLTable (HashMap.HashMapTable Z Z) :=
  mkS2PLTable ∅ [] (HashMap.mkHashMapTable {[1 := 10; 2 := 20]} [] [] []) 0.

Lemma s2pl_writer_witness :
  exists t', do_writes 5 [SInsert 1 11; SDelete 2; SInsert 1 12] demo_s2pl = Ok t' /\
    (s2pl_getByKey 5 1 t').1 = (ABORT, None) /\
    tbl_get (tbl (transactionAbort 5 t')) 1 = Some 12.
Proof.
  destruct (s2pl_writer 5 [SInsert 1 11; SDelete 2; SInsert 1 12] demo_s2pl eq_refl) as (t' & Hrun & Hab & _ & _ & _ & Hget).
  { intros w Hw. unfold row. cbn. by rewrite lookup_empty. }
  exists t'. split; [exact Hrun|]. split.
  - exact (Hab (SInsert 1 11) 5 ltac:(by left)).
  - rewrite Hget. vm_compute. reflexivity.
Defined.

Lemma s2pl_reader_witness :
  exists t' t'', (do_reads 7 [1; 3; 1] demo_s2pl).2 = t' /\ cleanUpReads [1; 1] 2 t' = Ok t'' /\
    (do_reads 7 [1; 3; 1] demo_s2pl).1 = [(SUCCESS, Some 10); (NOT_FOUND, None); (SUCCESS, Some 10)] /\
    row 1 (locks t'') = RowLock_new.
Proof.
  destruct (s2pl_reader 7 [1; 3; 1] demo_s2pl) as (t' & t'' & t3 & Hrun & Hclean & Hrow & _).
  { intros k. unfold row. cbn. by rewrite lookup_empty. }
  exists t', t''. rewrite Hrun. split; [reflexivity|]. split; [exact Hclean|].
  split; [vm_compute; reflexivity|]. rewrite Hrow. vm_compute. reflexivity.
Defined.
