(* ===== verification/BOCC.v ===== *)
(** * BOCC: tables under backward-oriented optimistic concurrency control

    Models the transactional operations of [src/table/BOCCTable.hpp] over any
    table with the [TableOps] interface: the write buffer of the running
    writer, the queue of committed write sets with their validation and
    completion timestamps, and the validation of readers against it. *)

From S2P Require Import Prelude StateContext Tables.

Record WriteSet := mkWriteSet { keys : gset Z; valTS : Z; endTS : Z }.

(** [ws.keys.emplace(k)] *)
Definition ws_emplace (ws : WriteSet) (k : Z) : WriteSet := mkWriteSet ({[k]} ∪ keys ws) (valTS ws) (endTS ws).

Section BOCCTable.
Context {T R : Type} {ops : TableOps T Z R}.

Record ActiveWriteSet := mkActiveWriteSet { aw_txnID : Z; aw_set : list (Z * R) }.

Definition aw_insert (k : Z) (r : R) (w : ActiveWriteSet) : ActiveWriteSet :=
  mkActiveWriteSet (aw_txnID w) (aw_set w ++ [(k, r)]).
Definition aw_clean (w : ActiveWriteSet) : ActiveWriteSet := mkActiveWriteSet 0 [].

Record BOCCTable := mkBOCCTable {
  writeSet : ActiveWriteSet;
  committedWSs : list WriteSet;      (** a deque, newest in front *)
  tbl : T;
  tblID : nat;
}.

Definition with_committed (l : list WriteSet) (t : BOCCTable) : BOCCTable :=
  mkBOCCTable (writeSet t) l (tbl t) (tblID t).

Definition transactionBegin (txnID : Z) (t : BOCCTable) (c : ctx) : BOCCTable * ctx :=
  (mkBOCCTable (mkActiveWriteSet txnID (aw_set (writeSet t))) (committedWSs t) (tbl t) (tblID t),
   with_txCntW (u64 (txCntW c + 1)) c).

Definition saveWriteSet (t : BOCCTable) (c : ctx) : BOCCTable * ctx :=
  let '(ts, c) := getNewTS c in
  let ws := fold_left (fun ws (e : Z * R) => ws_emplace ws e.1) (aw_set (writeSet t)) (mkWriteSet ∅ ts DTS_INF) in
  (with_committed (ws :: committedWSs t) t, c).

(** everything from the first write set that ended by [oldest] on is erased *)
Fixpoint erase_finished (oldest : Z) (l : list WriteSet) : list WriteSet :=
  match l with
  | [] => []
  | ws :: rest => if endTS ws <=? oldest then [] else ws :: erase_finished oldest rest
  end.

Definition transactionCommit (txnID : Z) (t : BOCCTable) (c : ctx) : result (Errc * BOCCTable * ctx) :=
  let tb := fold_left (fun tb (e : Z * R) => tbl_insert e.1 e.2 tb) (aw_set (writeSet t)) (tbl t) in
  match committedWSs t with
  | [] => Err EmptyAccess
  | ws :: rest =>
      let '(ts, c) := getNewTS c in
      let ws := mkWriteSet (keys ws) (valTS ws) ts in
      let oldestTx := getOldestActiveTx c in
      let oldestTx := if oldestTx =? txnID then valTS ws else oldestTx in
      Ok (SUCCESS, mkBOCCTable (aw_clean (writeSet t)) (erase_finished oldestTx (ws :: rest)) tb (tblID t), c)
  end.

Definition transactionAbort (txnID : Z) (t : BOCCTable) : BOCCTable :=
  mkBOCCTable (aw_clean (writeSet t)) (committedWSs t) (tbl t) (tblID t).

(** the inner loop of [readCommit]: is one of [keys\[i\]], [i < until], in the set? *)
Fixpoint read_conflict (ws : WriteSet) (ks : list Z) (i n : nat) : result bool :=
  match n with
  | O => Ok false
  | S n =>
      k ← get_at ks i;
      if negb (bool_decide (keys ws = ∅)) && bool_decide (k ∈ keys ws) then Ok true
      else read_conflict ws ks (S i) n
  end.

Fixpoint validate (txnID vTS : Z) (ks : list Z) (until : nat) (l : list WriteSet) : result Errc :=
  match l with
  | [] => Ok SUCCESS
  | ws :: rest =>
      if (txnID <? endTS ws) && (vTS >? valTS ws) then
        b ← read_conflict ws ks 0 until;
        if b : bool then Ok ABORT else validate txnID vTS ks until rest
      else validate txnID vTS ks until rest
  end.

Definition readCommit (txnID : Z) (ks : list Z) (until : nat) (t : BOCCTable) (c : ctx)
    : result (Errc * ctx) :=
  let '(_, c) := getNewTS c in
  let '(vTS, c) := getNewTS c in
  e ← validate txnID vTS ks until (committedWSs t);
  Ok (e, c).

Definition bocc_insert (txnID key : Z) (rec : R) (t : BOCCTable) : Errc * BOCCTable :=
  (SUCCESS, mkBOCCTable (aw_insert key rec (writeSet t)) (committedWSs t) (tbl t) (tblID t)).

Definition bocc_deleteByKey (txnID key : Z) (t : BOCCTable) : Z * BOCCTable := (1, t).

Fixpoint find_write (key : Z) (l : list (Z * R)) : option R :=
  match l with
  | [] => None
  | e :: rest => if e.1 =? key then Some e.2 else find_write key rest
  end.

Definition bocc_getByKey (txnID key : Z) (t : BOCCTable) : Errc * option R :=
  match (if aw_txnID (writeSet t) =? txnID then find_write key (aw_set (writeSet t)) else None) with
  | Some v => (SUCCESS, Some v)
  | None =>
      match tbl_get (tbl t) key with
      | None => (NOT_FOUND, None)
      | Some v => (SUCCESS, Some v)
      end
  end.

(** the topology group *)
Definition transactionPreCommit (txnID : Z) (self : nat) (c : ctx) (ts : list BOCCTable)
    : result (Errc * ctx * list BOCCTable) :=
  t ← get_at ts self;
  let otherID := if Nat.eqb (tblID t) 0 then 1%nat else 0%nat in
  c ← setWriteStatus c txnID (tblID t) Commit;
  otherState ← getWriteStatus c txnID otherID;
  if decide (otherState = Commit) then
    let '(t, c) := saveWriteSet t c in
    ts ← set_at ts self t;
    other ← get_at (regStates c) otherID;
    match other with
    | None => Err Dangling
    | Some ref =>
        o ← get_at ts ref;
        let '(o, c) := saveWriteSet o c in
        ts ← set_at ts ref o;
        t ← get_at ts self;
        '(s, t, c) ← transactionCommit txnID t c;
        ts ← set_at ts self t;
        if decide (s = SUCCESS) then
          o ← get_at ts ref;
          '(s, o, c) ← transactionCommit txnID o c;
          ts ← set_at ts ref o;
          c ← setLastCTS 0 txnID c;
          c ← removeTx txnID c;
          Ok (s, c, ts)
        else Ok (s, c, ts)
    end
  else Ok (SUCCESS, c, ts).

Definition bocc_drop (empty : T) (t : BOCCTable) : BOCCTable :=
  mkBOCCTable (writeSet t) [] empty (tblID t).

(** ** Validation *)

Lemma read_conflict_spec ws ks i n :
  (i + n <= length ks)%nat ->
  read_conflict ws ks i n = Ok (bool_decide (Exists (fun k => k ∈ keys ws) (take n (drop i ks)))).
Proof.
  revert i. induction n as [|n IH]; intros i Hi; cbn [read_conflict].
  { rewrite bool_decide_eq_false_2; [done|]. by intros ?%Exists_nil. }
  destruct (lookup_lt_is_Some_2 ks i ltac:(lia)) as [k Hk].
  rewrite (get_at_Some _ _ _ Hk). run_step. rewrite (drop_S ks k i Hk). cbn [take].
  destruct (decide (k ∈ keys ws)) as [Hin|Hin].
  - rewrite (bool_decide_eq_false_2 (keys ws = ∅)) by set_solver.
    rewrite (bool_decide_eq_true_2 (k ∈ keys ws)) by done. cbn [negb andb]. symmetry. f_equal.
    apply bool_decide_eq_true_2. by left.
  - rewrite (bool_decide_eq_false_2 (k ∈ keys ws)), andb_false_r by done. rewrite IH by lia. f_equal.
    apply bool_decide_ext. rewrite Exists_cons. intuition.
Qed.

(** what the validation looks for *)
Definition conflicts (txnID vTS : Z) (ks : list Z) (ws : WriteSet) : Prop :=
  txnID < endTS ws /\ valTS ws < vTS /\ Exists (fun k => k ∈ keys ws) ks.

Lemma validate_spec txnID vTS ks until l :
  (until <= length ks)%nat ->
  (validate txnID vTS ks until l = Ok ABORT /\ Exists (conflicts txnID vTS (take until ks)) l) \/
  (validate txnID vTS ks until l = Ok SUCCESS /\ ~ Exists (conflicts txnID vTS (take until ks)) l).
Proof.
  intros Hu. induction l as [|ws l IH]; cbn [validate].
  { right. split; [done|]. by intros ?%Exists_nil. }
  rewrite Exists_cons. unfold conflicts at 1 3.
  destruct (Z.ltb_spec txnID (endTS ws)), (Z.gtb_spec vTS (valTS ws)); cbn [andb].
  - rewrite read_conflict_spec by lia. rewrite drop_0. run_step.
    case_bool_decide as Hc; [left; split; [done|left; split_and!; [lia|lia|done]]|].
    destruct IH as [[-> IH]|[-> IH]]; [left|right]; (split; [done|]); intuition.
  - destruct IH as [[-> IH]|[-> IH]]; [left|right]; (split; [done|]); [by right|]. intros [(? & ? & _)|?]; [lia|done].
  - destruct IH as [[-> IH]|[-> IH]]; [left|right]; (split; [done|]); [by right|]. intros [(? & ? & _)|?]; [lia|done].
  - destruct IH as [[-> IH]|[-> IH]]; [left|right]; (split; [done|]); [by right|]. intros [(? & ? & _)|?]; [lia|done].
Qed.

Lemma validate_abort txnID vTS ks until l :
  (until <= length ks)%nat ->
  validate txnID vTS ks until l = Ok ABORT <-> Exists (conflicts txnID vTS (take until ks)) l.
Proof.
  intros Hu. destruct (validate_spec txnID vTS ks until l Hu) as [[-> H]|[-> H]]; [done|].
  split; [done|]. intros He. by destruct H.
Qed.

Lemma saved_keys ws (l : list (Z * R)) :
  let ws' := fold_left (fun ws (e : Z * R) => ws_emplace ws e.1) l ws in
  valTS ws' = valTS ws /\ endTS ws' = endTS ws /\ (forall k, k ∈ keys ws' <-> k ∈ keys ws \/ k ∈ l.*1).
Proof.
  revert ws. induction l as [|e l IH]; intros ws; cbn.
  - split_and!; [done|done|]. intros k. rewrite elem_of_nil. intuition.
  - destruct (IH (ws_emplace ws e.1)) as (-> & -> & Hk). split_and!; [done|done|]. intros k. rewrite Hk. cbn.
    rewrite elem_of_union, elem_of_singleton, elem_of_cons. intuition.
Qed.
End BOCCTable.
Arguments BOCCTable : clear implicits.
Arguments ActiveWriteSet : clear implicits.

(** ** Cleaning up committed write sets *)

(** completion timestamps, newest in front *)
Definition newest_first (l : list WriteSet) : Prop := StronglySorted (fun a b => endTS b <= endTS a) l.

Lemma erase_finished_spec oldest l ws :
  newest_first l -> ws ∈ l -> oldest < endTS ws -> ws ∈ erase_finished oldest l.
Proof.
  intros Hs Hin Hlt. induction l as [|w l IH]; [by apply not_elem_of_nil in Hin|]. cbn.
  apply StronglySorted_inv in Hs as [Hs Hle]. rewrite Forall_forall in Hle.
  assert (oldest < endTS w).
  { apply elem_of_cons in Hin as [<-|Hin]; [done|]. specialize (Hle ws Hin). lia. }
  rewrite (proj2 (Z.leb_gt _ _)) by done.
  apply elem_of_cons in Hin as [->|Hin]; [by left|right; by apply IH].
Qed.

Lemma erase_finished_incl oldest l ws : ws ∈ erase_finished oldest l -> ws ∈ l.
Proof.
  induction l as [|w l IH]; cbn; [done|]. destruct (endTS w <=? oldest); [by intros ?%not_elem_of_nil|].
  intros [->|Hin]%elem_of_cons; [by left|right; by apply IH].
Qed.

Lemma erase_finished_sorted oldest l : newest_first l -> newest_first (erase_finished oldest l).
Proof.
  intros Hs. induction l as [|w l IH]; cbn; [constructor|].
  apply StronglySorted_inv in Hs as [Hs Hle]. destruct (endTS w <=? oldest); [constructor|].
  constructor; [by apply IH|]. rewrite Forall_forall in Hle |- *.
  intros ws Hws%erase_finished_incl. by apply Hle.
Qed.

(** the queue between two commits of the (single) writer *)
Record bocc_wf {T R} (t : BOCCTable T R) (c : ctx) : Prop := {
  bw_sorted : newest_first (committedWSs t);
  bw_past : forall ws, ws ∈ committedWSs t -> valTS ws < nextTxID c /\ endTS ws < nextTxID c;
}.

Section properties.
Context {T R : Type} {ops : TableOps T Z R} {laws : TableLaws T Z R}.

(** the values written to a key, in order *)
Definition writes_of (k : Z) (l : list (Z * R)) : list R := (filter (fun e : Z * R => e.1 = k) l).*2.

Lemma commit_inserts (l : list (Z * R)) (tb : T) k :
  tbl_get (fold_left (fun tb (e : Z * R) => tbl_insert e.1 e.2 tb) l tb) k =
    put_all T Z (tbl_get tb k) (writes_of k l).
Proof.
  revert tb. induction l as [|e l IH]; intros tb; [done|].
  cbn [fold_left]. rewrite IH, tbl_get_insert. unfold writes_of. rewrite filter_cons.
  by destruct (decide (e.1 = k)) as [->|].
Qed.

Lemma find_write_app k v (l l' : list (Z * R)) :
  find_write k l = None -> find_write k (l ++ (k, v) :: l') = Some v.
Proof.
  induction l as [|e l IH]; cbn; [by rewrite Z.eqb_refl|]. by destruct (e.1 =? k).
Qed.

Lemma readCommit_unfold txnID ks until (t : BOCCTable T R) c :
  (until <= length ks)%nat -> 0 <= nextTxID c -> nextTxID c + 2 < 2^64 ->
  exists e, readCommit txnID ks until t c = Ok (e, with_nextTxID (nextTxID c + 2) c) /\
    (e = ABORT \/ e = SUCCESS) /\
    (e = ABORT <-> Exists (conflicts txnID (nextTxID c + 1) (take until ks)) (committedWSs t)).
Proof.
  intros Hu Hc Hov. unfold readCommit, getNewTS. cbn [nextTxID with_nextTxID].
  rewrite !u64_small by (unfold is_u64; rewrite ?u64_small by word_lia; lia).
  replace (with_nextTxID (nextTxID c + 1 + 1) (with_nextTxID (nextTxID c + 1) c))
    with (with_nextTxID (nextTxID c + 2) c) by (by replace (nextTxID c + 2) with (nextTxID c + 1 + 1) by lia).
  destruct (validate_spec txnID (nextTxID c + 1) ks until (committedWSs t) Hu) as [[-> H]|[-> H]];
    run_step; eexists; (split; [reflexivity|]); (split; [by auto|]); by split.
Qed.

(** What [readCommit] decides.  A reader is aborted exactly when some
    committed write set that it overlaps (it began before the write set was
    complete, and validates after the write set did) contains one of the
    keys it has read; it draws two timestamps and changes nothing else. *)
Lemma readCommit_spec (txnID : Z) (ks : list Z) (until : nat) (t : BOCCTable T R) (c : ctx)
  (Hu : (until <= length ks)%nat) (Hc : 0 <= nextTxID c) (Hov : nextTxID c + 2 < 2^64) :
  exists e, readCommit txnID ks until t c = Ok (e, with_nextTxID (nextTxID c + 2) c) /\
    (e = ABORT \/ e = SUCCESS) /\
    (e = ABORT <-> exists ws k i, ws ∈ committedWSs t /\ txnID < endTS ws /\ valTS ws < nextTxID c + 1 /\
       (i < until)%nat /\ ks !! i = Some k /\ k ∈ keys ws).
Proof.
  destruct (readCommit_unfold txnID ks until t c Hu Hc Hov) as (e & Hrun & He & Hiff).
  exists e. split; [done|]. split; [done|]. rewrite Hiff, Exists_exists.
  split.
  - intros (ws & Hws & H1 & H2 & (k & Hk & Hin)%Exists_exists).
    apply list_elem_of_lookup in Hk as [i Hi]. exists ws, k, i.
    apply lookup_take_Some in Hi as [Hi Hlt]. split_and!; done.
  - intros (ws & k & i & Hws & H1 & H2 & Hi & Hk & Hin). exists ws. split; [done|].
    split_and!; [done|done|]. apply Exists_exists. exists k. split; [|done].
    apply list_elem_of_lookup. exists i. by apply lookup_take_Some.
Qed.

Lemma save_unfold (t : BOCCTable T R) c :
  0 <= nextTxID c -> nextTxID c + 1 < 2^64 ->
  exists ws, saveWriteSet t c = (with_committed (ws :: committedWSs t) t, with_nextTxID (nextTxID c + 1) c) /\
    valTS ws = nextTxID c /\ endTS ws = DTS_INF /\ forall k, k ∈ keys ws <-> k ∈ (aw_set (writeSet t)).*1.
Proof.
  intros Hc Hov. unfold saveWriteSet, getNewTS.
  destruct (saved_keys (mkWriteSet ∅ (nextTxID c) DTS_INF) (aw_set (writeSet t))) as (Hv & He & Hk).
  rewrite u64_small by word_lia. eexists. split; [reflexivity|]. split; [done|]. split; [done|].
  intros k. rewrite Hk. cbn. set_solver.
Qed.

(** C9: a writer's commit against the running readers.  Saving and
    committing a write set leaves in the table the old contents with the
    buffered writes inserted in their order, and changes the verdict
    on exactly those running readers that have read a written key: the
    others are validated as before, so the clean-up never drops a write set
    some running reader still has to be checked against.  The queue stays
    ordered for the next commit. *)
Theorem writer_commit_and_readers (txn : Z) (t t1 : BOCCTable T R) (c c1 : ctx)
  (Hwf : ctx_wf c) (Hov : nextTxID c + 4 < 2^64) (Hbw : bocc_wf t c)
  (Hsingle : forall ws, ws ∈ committedWSs t -> endTS ws <= txn)
  (Hsave : saveWriteSet t c = (t1, c1)) :
  exists t2 c2, transactionCommit txn t1 c1 = Ok (SUCCESS, t2, c2) /\ bocc_wf t2 c2 /\
    aw_set (writeSet t2) = [] /\
    (forall k, tbl_get (tbl t2) k =
       put_all T Z (tbl_get (tbl t) k) (writes_of k (aw_set (writeSet t)))) /\
    forall pos a ks until, live_at c pos a -> (until <= length ks)%nat ->
      exists e e' c' c'', readCommit (at_id a) ks until t c = Ok (e, c') /\
        readCommit (at_id a) ks until t2 c2 = Ok (e', c'') /\
        (e' = ABORT <-> e = ABORT \/ Exists (fun k => k ∈ (aw_set (writeSet t)).*1) (take until ks)).
Proof.
  pose proof (wf_next c Hwf) as Hn.
  destruct (save_unfold t c ltac:(lia) ltac:(lia)) as (ws & Hs & Hval & Hend & Hkeys).
  rewrite Hs in Hsave. injection Hsave as <- <-. unfold transactionCommit, with_committed, getNewTS.
  cbn [committedWSs writeSet tbl tblID nextTxID with_nextTxID].
  rewrite u64_small by word_lia. set (c2 := with_nextTxID _ (with_nextTxID _ c)).
  set (ws' := mkWriteSet (keys ws) (valTS ws) (nextTxID c + 1)).
  set (oldest := if _ =? txn then _ else _).
  destruct Hbw as [Hsort Hpast].
  assert (newest_first (ws' :: committedWSs t)) as Hsort'.
  { constructor; [done|]. apply Forall_forall. intros w Hw. specialize (Hpast w Hw). cbn. lia. }
  assert (forall pos a w, live_at c pos a -> w ∈ ws' :: committedWSs t -> at_id a < endTS w ->
            w ∈ erase_finished oldest (ws' :: committedWSs t)) as Hkeep.
  { intros pos a w Hl Hw Hlt. apply erase_finished_spec; [done|done|]. subst oldest.
    assert (getOldestActiveTx c2 <= at_id a) as Hle by exact (proj1 (getOldestActiveTx_spec c) pos a Hl).
    destruct (Z.eqb_spec (getOldestActiveTx c2) txn) as [Heq|Hne]; [|lia].
    apply elem_of_cons in Hw as [->|Hw]; [cbn; lia|]. specialize (Hsingle w Hw). lia. }
  eexists _, c2. split; [reflexivity|]. cbn [committedWSs writeSet tbl aw_set aw_clean]. split_and!; [|done| |].
  - split; cbn [committedWSs]; [by apply erase_finished_sorted|].
    intros w [->|Hw]%erase_finished_incl%elem_of_cons; cbn; [lia|]. specialize (Hpast w Hw). lia.
  - intros k. apply commit_inserts.
  - intros pos a ks until Hl Hu.
    destruct (readCommit_unfold (at_id a) ks until t c Hu ltac:(lia) ltac:(lia)) as (e & He & _ & Hiff).
    edestruct (readCommit_unfold (at_id a) ks until) with (c := c2) as (e' & He' & _ & Hiff');
      [done|cbn; lia|cbn; lia|].
    exists e, e'. eexists _, _. split; [exact He|]. split; [exact He'|]. rewrite Hiff, Hiff'.
    cbn [committedWSs nextTxID with_nextTxID c2].
    destruct (ctx_shape c pos a Hwf (proj2 Hl)) as (_ & _ & Hid).
    rewrite !Exists_exists. split.
    + intros (w & [->|Hw]%erase_finished_incl%elem_of_cons & H1 & H2 & Hc).
      * right. apply Exists_exists in Hc as (k & Hk & Hin). exists k. split; [done|]. by apply Hkeys.
      * left. exists w. split; [done|]. split_and!; [done|specialize (Hpast w Hw); lia|done].
    + intros [(w & Hw & H1 & H2 & Hc)|(k & Hk & Hin)].
      * exists w. split; [by eapply Hkeep; [|right|]|]. split_and!; [done|lia|done].
      * exists ws'. split; [eapply Hkeep; [done|by left|cbn; lia]|]. split_and!; cbn; [lia|lia|].
        apply Exists_exists. exists k. split; [done|]. by apply Hkeys.
Qed.

(** Over a table whose inserts overwrite, a transaction that writes a key twice reads back its first value,
    although the commit stores the last one; and a [deleteByKey] answers one
    deletion but neither its own reads nor the commit know about it. *)
Lemma own_read_first_commit_last `{!Overwrites T Z R} (txn k : Z) (v w : R) (t : BOCCTable T R)
  (Htxn : aw_txnID (writeSet t) = txn) (Hnew : find_write k (aw_set (writeSet t)) = None) :
  let t1 := (bocc_insert txn k v t).2 in
  let t2 := (bocc_deleteByKey txn k t1).2 in
  let t3 := (bocc_insert txn k w t2).2 in
  (bocc_deleteByKey txn k t1).1 = 1 /\ t2 = t1 /\
  bocc_getByKey txn k t3 = (SUCCESS, Some v) /\
  forall ws rest c s t4 c', committedWSs t = ws :: rest -> transactionCommit txn t3 c = Ok (s, t4, c') ->
    tbl_get (tbl t4) k = Some w.
Proof.
  cbv zeta. split; [done|]. split; [done|]. split.
  - unfold bocc_getByKey. cbn [bocc_insert bocc_deleteByKey snd writeSet aw_insert aw_set aw_txnID].
    rewrite Htxn, Z.eqb_refl, <- app_assoc. cbn [app].
    rewrite (find_write_app k v); [done|done].
  - intros ws rest c s t4 c' Hq. unfold transactionCommit.
    cbn [bocc_insert bocc_deleteByKey snd writeSet aw_insert aw_set aw_txnID committedWSs].
    rewrite Hq. destruct (getNewTS c) as [ts c1]. intros [= _ <- _]. cbn [tbl].
    rewrite commit_inserts. unfold writes_of. rewrite filter_app, fmap_app.
    rewrite filter_cons_True by done. apply put_all_last.
Qed.
End properties.

(** reader 10 runs beside writer 20, whose buffer holds writes of keys 1 and 2;
    key 3 was written by a transaction that completed at 12 *)
Definition demo_ctx : ctx :=
  mkCtx 30 [([0; 1], 8)] [Some 0%nat; Some 1%nat] ∅ 0 0 0 3
    (mkActiveTx 10 [Active; Active] [0] :: mkActiveTx 20 [Active; Active] [0] ::
     replicate 62 (mkActiveTx 0 [Active; Active] [0])) 1 2 1.

Definition demo_bocc : BOCCTable (HashMap.HashMapTable Z Z) Z :=
  mkBOCCTable (mkActiveWriteSet 20 [(1, 51); (2, 7); (1, 52)]) [mkWriteSet {[3]} 11 12; mkWriteSet {[4]} 5 6]
    (HashMap.mkHashMapTable {[1 := 50]} [] [] []) 0.

Lemma readCommit_spec_witness :
  exists e c', readCommit 10 [1; 3] 2 demo_bocc demo_ctx = Ok (e, c') /\ e = ABORT /\ nextTxID c' = 32.
Proof.
  destruct (readCommit_spec 10 [1; 3] 2 demo_bocc demo_ctx ltac:(cbn; lia) ltac:(cbn; lia) ltac:(cbn; lia))
    as (e & He & _ & Hiff).
  exists e. eexists. split; [exact He|]. split; [|reflexivity]. apply Hiff.
  exists (mkWriteSet {[3]} 11 12), 3, 1%nat. split; [by left|]. cbn. split_and!; [lia|lia|lia|done|set_solver].
Defined.

Lemma writer_commit_and_readers_witness :
  exists t2 c2 e c', transactionCommit 20 (saveWriteSet demo_bocc demo_ctx).1 (saveWriteSet demo_bocc demo_ctx).2
      = Ok (SUCCESS, t2, c2) /\
    tbl_get (tbl t2) 1 = Some 52 /\ readCommit 10 [1] 1 t2 c2 = Ok (e, c') /\ e = ABORT.
Proof.
  destruct (saveWriteSet demo_bocc demo_ctx) as [t1 c1] eqn:Hs.
  assert (bocc_wf demo_bocc demo_ctx) as Hbw.
  { split.
    - repeat constructor. cbn. lia.
    - intros ws [->|[->|[]%elem_of_nil]%elem_of_cons]%elem_of_cons; cbn; lia. }
  destruct (writer_commit_and_readers 20 demo_bocc t1 demo_ctx c1 (ctx_wf_check demo_ctx ltac:(vm_compute; reflexivity))
    ltac:(cbn; lia) Hbw) as (t2 & c2 & Hrun & _ & _ & Hget & Hread); [|exact Hs|].
  { intros ws [->|[->|[]%elem_of_nil]%elem_of_cons]%elem_of_cons; cbn; lia. }
  destruct (Hread 0%nat (mkActiveTx 10 [Active; Active] [0]) [1] 1%nat ltac:(by split) ltac:(cbn; lia))
    as (e & e' & c' & c'' & He & He' & Hiff).
  exists t2, c2, e', c''. split; [exact Hrun|]. split; [rewrite Hget; reflexivity|]. split; [exact He'|].
  apply Hiff. right. left. cbn. by left.
Defined.

Lemma own_read_first_commit_last_witness :
  bocc_getByKey 20 5 (bocc_insert 20 5 9 (bocc_deleteByKey 20 5 (bocc_insert 20 5 8 demo_bocc).2).2).2
    = (SUCCESS, Some 8).
Proof.
  exact (proj1 (proj2 (proj2 (own_read_first_commit_last 20 5 8 9 demo_bocc eq_refl eq_refl)))).
Defined.
