(* ===== verification/Cuckoo.v ===== *)
(** * Cuckoo: the table behind the transactional tables

    Models [src/table/CuckooTable.hpp], the table [S2PLTable], [BOCCTable] and
    [MVCCTable] are built on by default.  It adapts libcuckoo's
    [cuckoohash_map], which is not part of the repository: the class
    [CuckooMap] lists the operations that are used, [CuckooMapLaws] what
    libcuckoo documents about them.  The table discharges the laws of
    [Tables.v], but its inserts do not overwrite. *)

From S2P Require Import Prelude StateContext Tables Locks S2PL BOCC.

(** ** libcuckoo: a concurrent hash map *)
Class CuckooMap (M K V : Type) := {
  cm_find : M -> K -> option V;
  cm_insert : K -> V -> M -> bool * M;
  cm_erase_fn : K -> (V -> bool) -> M -> bool * M;
  cm_update_fn : forall {S}, K -> (V -> S -> result (V * S)) -> M -> S -> result (bool * M * S);
  cm_size : M -> nat;
  cm_clear : M -> M;
  cm_elements : M -> list (K * V);       (** a [locked_table] from [begin] to [end] *)
  cm_assign : K -> V -> M -> M;          (** through a reference into a [locked_table] *)
}.

Class CuckooMapLaws (M K V : Type) `{EqDecision K} {cm : CuckooMap M K V} : Prop := {
  (** [insert]: equivalent to [upsert] with a functor that does nothing *)
  cm_find_insert : forall k v m k', cm_find (cm_insert k v m).2 k' =
    if decide (k = k') then Some (default v (cm_find m k)) else cm_find m k';
  (** [erase_fn]: calls [fn] on the value if there is one and erases on [true] *)
  cm_erase_found : forall k f m, (cm_erase_fn k f m).1 = bool_decide (is_Some (cm_find m k));
  cm_find_erase : forall k f m k', cm_find (cm_erase_fn k f m).2 k' =
    if decide (k = k') then match cm_find m k with Some v => if f v then None else Some v | None => None end
    else cm_find m k';
  (** [update_fn]: calls [fn] on the value if there is one *)
  cm_update_absent : forall S k (f : V -> S -> result (V * S)) m s,
    cm_find m k = None -> cm_update_fn k f m s = Ok (false, m, s);
  cm_update_fault : forall S k (f : V -> S -> result (V * S)) m s v e,
    cm_find m k = Some v -> f v s = Err e -> cm_update_fn k f m s = Err e;
  cm_update_present : forall S k (f : V -> S -> result (V * S)) m s v v' s',
    cm_find m k = Some v -> f v s = Ok (v', s') ->
    exists m', cm_update_fn k f m s = Ok (true, m', s') /\
      forall k', cm_find m' k' = if decide (k = k') then Some v' else cm_find m k';
  cm_find_clear : forall m k, cm_find (cm_clear m) k = None;
  cm_elements_nodup : forall m, NoDup (cm_elements m).*1;
  cm_elements_find : forall m k v, (k, v) ∈ cm_elements m <-> cm_find m k = Some v;
  cm_size_elements : forall m, cm_size m = length (cm_elements m);
  cm_find_assign : forall k v m k', is_Some (cm_find m k) ->
    cm_find (cm_assign k v m) k' = if decide (k = k') then Some v else cm_find m k';
}.

(** ** CuckooTable *)
Module Cuckoo.
Section CuckooTable.
Context {M K R : Type} `{EqDecision K} {cm : CuckooMap M K R}.

Definition notification : Type := nat * R * ModificationMode.

Record CuckooTable := mkCuckooTable {
  mDataTable : M;
  mImmediateObservers : list nat;
  mDeferredObservers : list nat;
  delivered : list notification;
}.

Definition with_data (m : M) (t : CuckooTable) : CuckooTable :=
  mkCuckooTable m (mImmediateObservers t) (mDeferredObservers t) (delivered t).

Definition notifyObservers (rec : R) (mode : ModificationMode) (notify : NotificationMode) (t : CuckooTable) : CuckooTable :=
  let obs := match notify with Immediate => mImmediateObservers t | OnCommit => mDeferredObservers t end in
  mkCuckooTable (mDataTable t) (mImmediateObservers t) (mDeferredObservers t)
    (delivered t ++ ((fun o => (o, rec, mode)) <$> obs)).

(** the result of the map's [insert] is dropped *)
Definition insert (key : K) (rec : R) (t : CuckooTable) : CuckooTable :=
  notifyObservers rec Insert Immediate (with_data (cm_insert key rec (mDataTable t)).2 t).

(** [find] throws [out_of_range], which is caught, when there is no such key *)
Definition deleteByKey (key : K) (t : CuckooTable) : Z * CuckooTable :=
  match cm_find (mDataTable t) key with
  | Some res =>
      let t := match mImmediateObservers t with [] => t | _ => notifyObservers res Delete Immediate t end in
      (1, with_data (cm_erase_fn key (fun _ => true) (mDataTable t)).2 t)
  | None => (0, t)
  end.

(** an operation of the map itself, called while this thread may hold a
    [locked_table], which blocks all outside operations on the map *)
Definition map_operation {A} (lt_held : bool) (a : A) : result A := if lt_held then Err Waits else Ok a.

(** [deleteWhere] holds [lt] over its whole loop *)
Fixpoint deleteWhere_loop (func : R -> bool) (l : list (K * R)) (num : Z) (t : CuckooTable) : result (Z * CuckooTable) :=
  match l with
  | [] => Ok (num, t)
  | (k, r) :: rest =>
      if func r then
        let t := notifyObservers r Delete Immediate t in
        m ← map_operation true (cm_erase_fn k (fun _ => true) (mDataTable t)).2;
        deleteWhere_loop func rest (num + 1) (with_data m t)
      else deleteWhere_loop func rest num t
  end.
Definition deleteWhere (func : R -> bool) (t : CuckooTable) : result (Z * CuckooTable) :=
  deleteWhere_loop func (cm_elements (mDataTable t)) 0 t.

(** [ufunc] works on the copy [find] returns; on [true] the copy is handed to
    the observers and not written back *)
Definition updateOrDeleteByKey (key : K) (ufunc : R -> R * bool) (ifunc : option R) (t : CuckooTable) : Z * CuckooTable :=
  match cm_find (mDataTable t) key with
  | Some rec =>
      let '(res, upd) := ufunc rec in
      if upd then (1, notifyObservers res Update Immediate t)
      else
        let '(b, m) := cm_erase_fn key (fun _ => true) (mDataTable t) in
        (if b then 1 else 0, notifyObservers res Delete Immediate (with_data m t))
  | None =>
      match ifunc with
      | Some r => (1, insert key r t)
      | None => (0, t)
      end
  end.

(** the updater may use and change a state [S] of the caller *)
Definition updateByKey {S} (key : K) (ufunc : R -> S -> result (R * S)) (t : CuckooTable) (s : S) : result (Z * CuckooTable * S) :=
  '(res, m, s) ← cm_update_fn key ufunc (mDataTable t) s;
  let t := with_data m t in
  if res : bool then
    match cm_find (mDataTable t) key with
    | Some r => Ok (1, notifyObservers r Update Immediate t, s)
    | None => Err (Throws "out_of_range")
    end
  else Ok (0, t, s).

(** in place, through the references of the [locked_table] *)
Fixpoint updateWhere_loop (pfunc : R -> bool) (ufunc : R -> R) (l : list (K * R)) (num : Z) (t : CuckooTable) : Z * CuckooTable :=
  match l with
  | [] => (num, t)
  | (k, r) :: rest =>
      if pfunc r then
        let r' := ufunc r in
        updateWhere_loop pfunc ufunc rest (num + 1)
          (notifyObservers r' Update Immediate (with_data (cm_assign k r' (mDataTable t)) t))
      else updateWhere_loop pfunc ufunc rest num t
  end.
Definition updateWhere (pfunc : R -> bool) (ufunc : R -> R) (t : CuckooTable) : Z * CuckooTable :=
  updateWhere_loop pfunc ufunc (cm_elements (mDataTable t)) 0 t.

Definition getByKey (key : K) (t : CuckooTable) : result R :=
  match cm_find (mDataTable t) key with Some r => Ok r | None => Err (Throws "key not found") end.

(** [getByKey(key, outValue)]: [None] for [false] *)
Definition getByKey_out (key : K) (t : CuckooTable) : option R := cm_find (mDataTable t) key.

(** [begin] and [end] are taken from two [locked_table]s that live at the same
    time: the second [lock_table] is called while the first is held *)
Definition select (func : R -> bool) (t : CuckooTable) : result (HashMap.HashMapIterator K R) :=
  l ← map_operation false (cm_elements (mDataTable t));
  _ ← map_operation true (cm_elements (mDataTable t));
  Ok (HashMap.makeHashMapIterator l func).

Definition table_size (t : CuckooTable) : Z := Z.of_nat (cm_size (mDataTable t)).

Definition registerObserver (cb : nat) (mode : NotificationMode) (t : CuckooTable) : CuckooTable :=
  match mode with
  | Immediate => mkCuckooTable (mDataTable t) (mImmediateObservers t ++ [cb]) (mDeferredObservers t) (delivered t)
  | OnCommit => mkCuckooTable (mDataTable t) (mImmediateObservers t) (mDeferredObservers t ++ [cb]) (delivered t)
  end.

Definition table_drop (t : CuckooTable) : CuckooTable := with_data (cm_clear (mDataTable t)) t.
Definition table_truncate (t : CuckooTable) : CuckooTable := with_data (cm_clear (mDataTable t)) t.

#[global] Instance CuckooTable_ops : TableOps CuckooTable K R := {
  tbl_get t k := getByKey_out k t;
  tbl_insert := insert;
  tbl_put o r := default r o;
  tbl_delete := deleteByKey;
  tbl_update S := @updateByKey S;
}.

Context {laws : CuckooMapLaws M K R}.

#[global] Instance CuckooTable_laws : TableLaws CuckooTable K R.
Proof.
  split; cbn [tbl_get tbl_insert tbl_put tbl_delete tbl_update CuckooTable_ops]; unfold getByKey_out.
  - intros k r t k'. cbn. apply cm_find_insert.
  - done.
  - intros k t k'. unfold deleteByKey. destruct (cm_find (mDataTable t) k) as [v|] eqn:E; cbn [snd].
    + assert (forall t' : CuckooTable, mDataTable t' = mDataTable t ->
        cm_find (mDataTable (with_data (cm_erase_fn k (fun _ => true) (mDataTable t')).2 t')) k' =
          if decide (k = k') then None else cm_find (mDataTable t) k') as H.
      { intros t' Ht. cbn. by rewrite cm_find_erase, Ht, E. }
      destruct (mImmediateObservers t); by apply H.
    + case_decide; [by subst|done].
  - intros k t. unfold deleteByKey. by destruct (cm_find (mDataTable t) k).
  - intros S k f t s Hk. unfold updateByKey. rewrite cm_update_absent by done. run_step. by destruct t.
  - intros S k f t s r e Hk Hf. unfold updateByKey. by rewrite (cm_update_fault _ k f _ s r e).
  - intros S k f t s r r' s' Hk Hf. unfold updateByKey.
    destruct (cm_update_present _ k f (mDataTable t) s r r' s' Hk Hf) as (m' & Hm & Hget). rewrite Hm. run_step.
    cbn [with_data mDataTable]. rewrite Hget, decide_True by done. eexists. split; [reflexivity|]. exact Hget.
Qed.
End CuckooTable.
Arguments CuckooTable M R : clear implicits.

(** ** libcuckoo's contract can be met: a finite map *)
Section gmap_instance.
Context {K V : Type} `{Countable K}.

#[global] Instance gmap_cuckoo : CuckooMap (gmap K V) K V := {
  cm_find m k := m !! k;
  cm_insert k v m := (bool_decide (m !! k = None), match m !! k with Some _ => m | None => <[k := v]> m end);
  cm_erase_fn k f m :=
    match m !! k with Some v => (true, if f v then delete k m else m) | None => (false, m) end;
  cm_update_fn S k f m s :=
    match m !! k with Some v => '(v', s') ← f v s; Ok (true, <[k := v']> m, s') | None => Ok (false, m, s) end;
  cm_size m := size m;
  cm_clear _ := ∅;
  cm_elements m := map_to_list m;
  cm_assign k v m := <[k := v]> m;
}.

#[global] Instance gmap_cuckoo_laws : CuckooMapLaws (gmap K V) K V.
Proof.
  split; cbn.
  - intros k v m k'. destruct (m !! k) as [w|] eqn:E; [|by rewrite lookup_insert]. by case_decide; [subst|].
  - intros k f m. case_bool_decide as Hs; [by destruct Hs as [v ->]|].
    destruct (m !! k) as [v|]; [by destruct Hs; exists v|done].
  - intros k f m k'. destruct (m !! k) as [v|] eqn:E; cbn.
    + destruct (f v); [rewrite lookup_delete; by case_decide|]. by case_decide; [subst|].
    + by case_decide; [subst|].
  - intros S k f m s E. by rewrite E.
  - intros S k f m s v e E Hf. by rewrite E, Hf.
  - intros S k f m s v v' s' E Hf. rewrite E, Hf. eexists. split; [reflexivity|]. intros k'. apply lookup_insert.
  - intros m k. apply lookup_empty.
  - intros m. apply NoDup_fst_map_to_list.
  - intros m k v. apply elem_of_map_to_list.
  - intros m. by rewrite length_map_to_list.
  - intros k v m k' _. apply lookup_insert.
Qed.
End gmap_instance.

(** ** Properties *)
Section properties.
Context {M R : Type} {cm : CuckooMap M Z R} {laws : CuckooMapLaws M Z R}.

Lemma put_all_keeps (old : R) rs : put_all (CuckooTable M R) Z (Some old) rs = Some old.
Proof. unfold put_all. by induction rs. Qed.

Lemma deleteWhere_blocks func (l : list (Z * R)) num (t : CuckooTable M R) :
  deleteWhere_loop func l num t = if decide (Exists (fun e => func e.2 = true) l) then Err Waits else Ok (num, t).
Proof.
  revert num t. induction l as [|[k r] l IH]; intros num t; cbn [deleteWhere_loop].
  { by rewrite decide_False by (intros ?%Exists_nil; done). }
  destruct (func r) eqn:E.
  - rewrite decide_True by (by left). done.
  - rewrite IH. apply decide_ext. rewrite Exists_cons. cbn. rewrite E. naive_solver.
Qed.

(** [CuckooTable] against its documentation.  Inserting under a key that
    is present leaves the stored tuple as it is, although the observers are
    told about the new one; [updateOrDeleteByKey] announces an update that it
    does not store; [deleteWhere] blocks for ever as soon as one tuple
    satisfies the predicate, and [select] always does. *)
Lemma cuckoo_against_documentation (t : CuckooTable M R) (k : Z) (old new : R) (ufunc : R -> R * bool) (func : R -> bool)
  (Hold : getByKey_out k t = Some old) (Hkeep : (ufunc old).2 = true) :
  (forall k', getByKey_out k' (insert k new t) = getByKey_out k' t) /\
  delivered (insert k new t) = delivered t ++ ((fun o => (o, new, Insert)) <$> mImmediateObservers t) /\
  updateOrDeleteByKey k ufunc None t = (1, notifyObservers (ufunc old).1 Update Immediate t) /\
  deleteWhere func t =
    (if decide (Exists (fun e => func e.2 = true) (cm_elements (mDataTable t))) then Err Waits else Ok (0, t)) /\
  select func t = Err Waits.
Proof.
  unfold getByKey_out in *. split_and!; [|done| |apply deleteWhere_blocks|done].
  - intros k'. cbn. rewrite cm_find_insert, Hold. by case_decide; [subst|].
  - unfold updateOrDeleteByKey. rewrite Hold. destruct (ufunc old) as [res upd]. cbn in Hkeep |- *. by rewrite Hkeep.
Qed.

Lemma inserts_keep (ws : list (Z * R)) (m : Z -> option R) k old : m k = Some old ->
  fold_left (write_map (T := CuckooTable M R)) ((fun e => SInsert e.1 e.2) <$> ws) m k = Some old.
Proof.
  revert m. induction ws as [|[k' v] ws IH]; intros m Hm; [done|]. cbn [fmap list_fmap fold_left]. apply IH.
  cbn. case_decide; [subst; by rewrite Hm|done].
Qed.

(** C20: lost updates.  Over [CuckooTable], the default table, a transaction
    that only inserts never changes a key that is already stored, although it
    commits.  [S2PLTable]: any list of inserts on rows no other transaction
    has locked, committed; every stored key keeps its value.  [BOCCTable]: the
    commit of any write buffer, when the transaction's validation entry is
    there; every stored key keeps its value.  (An [S2PLTable] delete does
    remove the key, so deleting and inserting replaces the value.) *)
Theorem cuckoo_loses_updates (txn : Z) :
  (forall (t : S2PLTable (CuckooTable M R)) (ws : list (Z * R)),
     (forall e, e ∈ ws -> row e.1 (locks t) = RowLock_new) ->
     exists t1 t2, do_writes txn ((fun e => SInsert e.1 e.2) <$> ws) t = Ok t1 /\
       S2PL.transactionCommit txn t1 = (SUCCESS, t2) /\
       forall k old, tbl_get (S2PL.tbl t) k = Some old -> tbl_get (S2PL.tbl t2) k = Some old) /\
  (forall (t : S2PLTable (CuckooTable M R)) (k : Z) (new : R), row k (locks t) = RowLock_new ->
     exists t1 t2, do_writes txn [SDelete k; SInsert k new] t = Ok t1 /\
       S2PL.transactionCommit txn t1 = (SUCCESS, t2) /\ tbl_get (S2PL.tbl t2) k = Some new) /\
  (forall (t : BOCCTable (CuckooTable M R) R) c ws rest, committedWSs t = ws :: rest ->
     exists t' c', BOCC.transactionCommit txn t c = Ok (SUCCESS, t', c') /\
       forall k old, tbl_get (BOCC.tbl t) k = Some old -> tbl_get (BOCC.tbl t') k = Some old).
Proof.
  split_and!.
  - intros t ws Hfree. destruct (do_writes_spec txn ((fun e => SInsert e.1 e.2) <$> ws) t) as (t1 & Hrun & _ & _ & _ & Hget).
    { intros w ([k v] & -> & Hw)%list_elem_of_fmap. pose proof (Hfree (k, v) Hw) as Hrow. cbn in Hrow |- *. by rewrite Hrow. }
    exists t1, (release_writes t1). split; [done|]. split; [done|]. intros k old Hold. cbn [S2PL.tbl release_writes]. rewrite Hget. by apply inserts_keep.
  - intros t k new Hrow. destruct (do_writes_spec txn [SDelete k; SInsert k new] t) as (t1 & Hrun & _ & _ & _ & Hget).
    { intros w Hw. assert (write_key w = k) as -> by set_solver. by rewrite Hrow. }
    exists t1, (release_writes t1). split; [done|]. split; [done|]. cbn [S2PL.tbl release_writes]. rewrite Hget. cbn. by rewrite !decide_True.
  - intros t c ws rest Hq. unfold BOCC.transactionCommit. rewrite Hq. destruct (getNewTS c) as [ts c1].
    eexists _, _. split; [reflexivity|]. intros k old Hold. cbn [BOCC.tbl]. rewrite commit_inserts, Hold. apply put_all_keeps.
Qed.
End properties.

(** keys 1 and 2 stored, one observer *)
Definition demo_cuckoo : CuckooTable (gmap Z Z) Z := mkCuckooTable {[1 := 10; 2 := 20]} [0%nat] [] [].

Lemma cuckoo_against_documentation_witness :
  getByKey_out 1 (insert 1 11 demo_cuckoo) = Some 10 /\ deleteWhere (fun r => r =? 20) demo_cuckoo = Err Waits.
Proof.
  destruct (cuckoo_against_documentation (cm := gmap_cuckoo) demo_cuckoo 1 10 11 (fun r => (r + 1, true)) (fun r => r =? 20)
    eq_refl eq_refl)
    as (Hi & _ & _ & Hd & _).
  split; [rewrite Hi; reflexivity|rewrite Hd; reflexivity].
Defined.

Lemma cuckoo_loses_updates_witness :
  (exists t1 t2, do_writes 20 ((fun e => SInsert e.1 e.2) <$> [(1, 11); (3, 30); (1, 12)]) (mkS2PLTable ∅ [] demo_cuckoo 0) = Ok t1 /\
     S2PL.transactionCommit 20 t1 = (SUCCESS, t2) /\ tbl_get (S2PL.tbl t2) 1 = Some 10) /\
  (exists t1 t2, do_writes 20 [SDelete 1; SInsert 1 11] (mkS2PLTable ∅ [] demo_cuckoo 0) = Ok t1 /\
     S2PL.transactionCommit 20 t1 = (SUCCESS, t2) /\ tbl_get (S2PL.tbl t2) 1 = Some 11) /\
  (exists t' c', BOCC.transactionCommit 20 (mkBOCCTable (mkActiveWriteSet 20 [(1, 11)]) [BOCC.mkWriteSet {[1]} 5 6] demo_cuckoo 0)
      (StateContext_init 30 0) = Ok (SUCCESS, t', c') /\ tbl_get (BOCC.tbl t') 1 = Some 10).
Proof.
  destruct (cuckoo_loses_updates (cm := gmap_cuckoo) (R := Z) 20) as (H1 & H2 & H3). split_and!.
  - destruct (H1 (mkS2PLTable ∅ [] demo_cuckoo 0) [(1, 11); (3, 30); (1, 12)]) as (t1 & t2 & Hw & Hc & Hget).
    { intros e _. unfold row. cbn. by rewrite lookup_empty. }
    exists t1, t2. split; [exact Hw|]. split; [exact Hc|]. apply Hget. reflexivity.
  - apply H2. unfold row. cbn. by rewrite lookup_empty.
  - destruct (H3 (mkBOCCTable (mkActiveWriteSet 20 [(1, 11)]) [BOCC.mkWriteSet {[1]} 5 6] demo_cuckoo 0) (StateContext_init 30 0)
      (BOCC.mkWriteSet {[1]} 5 6) [] eq_refl) as (t' & c' & Hc & Hget).
    exists t', c'. split; [exact Hc|]. apply Hget. reflexivity.
Defined.
End Cuckoo.
