(* ===== verification/PBPTreeTable.v ===== *)
(** * PBPTreeTable: a table in persistent memory

    [src/table/PBPTreeTable.hpp] over the persistent B+-tree of another project,
    a class of operations here.  The table is the third implementation of the
    interface of [Tables.v], so the transactional tables can be built on it; its
    inserts overwrite.  Persistence and the pool file are not modelled. *)

From S2P Require Import Prelude StateContext Tables Locks S2PL BOCC.

(** ** dbis::pbptrees::PBPTree *)

(** [bt_assign]: through the pointer [lookupRef] returns; [bt_elements]: from
    [begin] to [end] *)
Class TreeOps (T K V : Type) := {
  bt_empty : T;
  bt_lookup : T -> K -> option V;
  bt_insert : K -> V -> T -> T;
  bt_assign : K -> V -> T -> T;
  bt_erase : K -> T -> bool * T;
  bt_elements : T -> list (K * V);
}.

Class TreeLaws (T K V : Type) `{EqDecision K} {ops : TreeOps T K V} : Prop := {
  bt_lookup_empty : forall k, bt_lookup bt_empty k = None;
  bt_lookup_insert : forall k v t k', bt_lookup t k = None ->
    bt_lookup (bt_insert k v t) k' = if decide (k = k') then Some v else bt_lookup t k';
  bt_lookup_assign : forall k v t k', is_Some (bt_lookup t k) ->
    bt_lookup (bt_assign k v t) k' = if decide (k = k') then Some v else bt_lookup t k';
  bt_erase_found : forall k t, (bt_erase k t).1 = bool_decide (is_Some (bt_lookup t k));
  bt_lookup_erase : forall k t k', bt_lookup (bt_erase k t).2 k' = if decide (k = k') then None else bt_lookup t k';
  bt_elements_nodup : forall t, NoDup (bt_elements t).*1;
  bt_elements_lookup : forall t k v, (k, v) ∈ bt_elements t <-> bt_lookup t k = Some v;
}.

(** ** PBPTreeTable *)
Module PBPTree.
Section PBPTreeTable.
Context {T K R : Type} `{EqDecision K} {tr : TreeOps T K R}.

Definition notification : Type := nat * R * ModificationMode.

Record PBPTreeTable := mkPBPTreeTable {
  btree : T;
  mImmediateObservers : list nat;
  mDeferredObservers : list nat;
  delivered : list notification;
}.

Definition with_tree (b : T) (t : PBPTreeTable) : PBPTreeTable :=
  mkPBPTreeTable b (mImmediateObservers t) (mDeferredObservers t) (delivered t).

Definition notifyObservers (rec : R) (mode : ModificationMode) (notify : NotificationMode) (t : PBPTreeTable) : PBPTreeTable :=
  let obs := match notify with Immediate => mImmediateObservers t | OnCommit => mDeferredObservers t end in
  mkPBPTreeTable (btree t) (mImmediateObservers t) (mDeferredObservers t) (delivered t ++ ((fun o => (o, rec, mode)) <$> obs)).

Definition insert (key : K) (rec : R) (t : PBPTreeTable) : PBPTreeTable :=
  match bt_lookup (btree t) key with
  | Some _ => notifyObservers rec Update Immediate (with_tree (bt_assign key rec (btree t)) t)
  | None => notifyObservers rec Insert Immediate (with_tree (bt_insert key rec (btree t)) t)
  end.

(** the observers are not told *)
Definition deleteByKey (key : K) (t : PBPTreeTable) : Z * PBPTreeTable :=
  let '(found, b) := bt_erase key (btree t) in (if found : bool then 1 else 0, with_tree b t).

(** to be done, in the words of the code *)
Definition deleteWhere (func : R -> bool) (t : PBPTreeTable) : Z * PBPTreeTable := (0, t).
Definition updateOrDeleteByKey (key : K) (ufunc : R -> R * bool) (t : PBPTreeTable) : Z * PBPTreeTable := (0, t).
Definition updateWhere (pfunc : R -> bool) (ufunc : R -> R) (t : PBPTreeTable) : Z * PBPTreeTable := (0, t).

Definition getAsRef (key : K) (t : PBPTreeTable) : option R := bt_lookup (btree t) key.

(** in place; the updater may use and change a state [S] of the caller *)
Definition updateByKey {S} (key : K) (ufunc : R -> S -> result (R * S)) (t : PBPTreeTable) (s : S) : result (Z * PBPTreeTable * S) :=
  match getAsRef key t with
  | Some val => '(val, s) ← ufunc val s; Ok (1, with_tree (bt_assign key val (btree t)) t, s)
  | None => Ok (0, t, s)
  end.

(** [getByKey(key, outValue)]: [None] for [false] *)
Definition getByKey_out (key : K) (t : PBPTreeTable) : option R := bt_lookup (btree t) key.

Definition table_size (t : PBPTreeTable) : Z := Z.of_nat (length (bt_elements (btree t))).

Definition truncate (t : PBPTreeTable) : PBPTreeTable := with_tree bt_empty t.

Definition registerObserver (cb : nat) (mode : NotificationMode) (t : PBPTreeTable) : PBPTreeTable :=
  match mode with
  | Immediate => mkPBPTreeTable (btree t) (mImmediateObservers t ++ [cb]) (mDeferredObservers t) (delivered t)
  | OnCommit => mkPBPTreeTable (btree t) (mImmediateObservers t) (mDeferredObservers t ++ [cb]) (delivered t)
  end.

(** the iterator: the elements from [iter] to [end], and the predicate *)
Record PBPTreeIterator := mkIter { it_rest : list (K * R); it_pred : R -> bool }.

Definition it_isValid (i : PBPTreeIterator) : bool := match it_rest i with [] => false | _ => true end.

Fixpoint skip_while_not (p : R -> bool) (l : list (K * R)) : list (K * R) :=
  match l with
  | [] => []
  | e :: rest => if p e.2 then l else skip_while_not p rest
  end.

Definition makePBPTreeIterator (l : list (K * R)) (p : R -> bool) : PBPTreeIterator := mkIter (skip_while_not p l) p.

Definition it_next (i : PBPTreeIterator) : result PBPTreeIterator :=
  match it_rest i with
  | [] => Err OutOfBounds
  | _ :: rest => Ok (mkIter (skip_while_not (it_pred i) rest) (it_pred i))
  end.

(** a copy of the iterator before the step *)
Definition it_postfix (i : PBPTreeIterator) : result (PBPTreeIterator * PBPTreeIterator) := i' ← it_next i; Ok (i, i').

Definition it_deref (i : PBPTreeIterator) : result R :=
  match it_rest i with [] => Err OutOfBounds | e :: _ => Ok e.2 end.

Definition select (func : R -> bool) (t : PBPTreeTable) : PBPTreeIterator := makePBPTreeIterator (bt_elements (btree t)) func.
Definition select_all (t : PBPTreeTable) : PBPTreeIterator := select (fun _ => true) t.

#[global] Instance PBPTreeTable_ops : TableOps PBPTreeTable K R := {
  tbl_get t k := getByKey_out k t;
  tbl_insert := insert;
  tbl_put o r := r;
  tbl_delete := deleteByKey;
  tbl_update S := @updateByKey S;
}.

Context {laws : TreeLaws T K R}.

#[global] Instance PBPTreeTable_laws : TableLaws PBPTreeTable K R.
Proof.
  split; cbn [tbl_get tbl_insert tbl_put tbl_delete tbl_update PBPTreeTable_ops]; unfold getByKey_out.
  - intros k r t k'. unfold insert. destruct (bt_lookup (btree t) k) eqn:E; cbn; [apply bt_lookup_assign; by rewrite E|by apply bt_lookup_insert].
  - done.
  - intros k t k'. unfold deleteByKey. pose proof (bt_lookup_erase k (btree t) k') as He. by destruct (bt_erase k (btree t)).
  - intros k t. unfold deleteByKey. pose proof (bt_erase_found k (btree t)) as He. destruct (bt_erase k (btree t)) as [b t']. cbn in *. subst b.
    by destruct (bt_lookup (btree t) k).
  - intros S k f t s Hk. unfold updateByKey, getAsRef. by rewrite Hk.
  - intros S k f t s r e Hk Hf. unfold updateByKey, getAsRef. by rewrite Hk, Hf.
  - intros S k f t s r r' s' Hk Hf. unfold updateByKey, getAsRef. rewrite Hk, Hf. run_step. eexists. split; [reflexivity|].
    intros k'. cbn. apply bt_lookup_assign. by rewrite Hk.
Qed.

#[global] Instance PBPTreeTable_overwrites : Overwrites PBPTreeTable K R.
Proof. by intros o r. Qed.

(** the tuples of a scan, [for (; iter.isValid(); iter++)]; fuel: the number of
    tuples *)
Fixpoint it_collect (fuel : nat) (i : PBPTreeIterator) : result (list R) :=
  if it_isValid i then
    match fuel with
    | O => Err Waits
    | S fuel => r ← it_deref i; '(_, i) ← it_postfix i; rs ← it_collect fuel i; Ok (r :: rs)
    end
  else Ok [].

Lemma pbp_collect p fuel (l : list (K * R)) : (length l <= fuel)%nat ->
  it_collect fuel (makePBPTreeIterator l p) = Ok ((filter (fun e => p e.2 = true) l).*2).
Proof.
  unfold makePBPTreeIterator. revert fuel. induction l as [|e l IH]; intros fuel Hl; cbn in Hl; [by destruct fuel|].
  rewrite filter_cons. cbn [skip_while_not]. destruct (p e.2) eqn:Hp.
  - rewrite decide_True by done. destruct fuel as [|fuel]; [lia|]. cbn [it_collect it_isValid it_rest]. unfold it_deref, it_postfix, it_next.
    cbn [it_rest it_pred]. run_step. by rewrite IH by lia.
  - rewrite decide_False by done. apply IH. lia.
Qed.

(** a scan visits every tuple that satisfies the predicate, once *)
Lemma pbp_select t p : exists es, it_collect (length (bt_elements (btree t))) (select p t) = Ok (es.*2) /\ NoDup es.*1 /\
  forall k r, (k, r) ∈ es <-> getByKey_out k t = Some r /\ p r = true.
Proof.
  unfold select. rewrite pbp_collect by done. eexists. split; [reflexivity|]. split.
  - eapply sublist_NoDup; [apply (bt_elements_nodup (btree t))|]. apply fmap_sublist, sublist_filter.
  - intros k r. rewrite list_elem_of_filter, bt_elements_lookup. unfold getByKey_out. cbn. tauto.
Qed.
End PBPTreeTable.
Arguments PBPTreeTable T R : clear implicits.

(** ** The tree's contract can be met: a finite map *)
Section gmap_instance.
Context {K V : Type} `{Countable K}.

#[global] Instance gmap_tree : TreeOps (gmap K V) K V := {
  bt_empty := ∅;
  bt_lookup t k := t !! k;
  bt_insert k v t := <[k := v]> t;
  bt_assign k v t := <[k := v]> t;
  bt_erase k t := (bool_decide (is_Some (t !! k)), delete k t);
  bt_elements t := map_to_list t;
}.

#[global] Instance gmap_tree_laws : TreeLaws (gmap K V) K V.
Proof.
  split; cbn.
  - intros k. apply lookup_empty.
  - intros k v t k' _. apply lookup_insert.
  - intros k v t k' _. apply lookup_insert.
  - done.
  - intros k t k'. apply lookup_delete.
  - intros t. apply NoDup_fst_map_to_list.
  - intros t k v. apply elem_of_map_to_list.
Qed.
End gmap_instance.

Section properties.
Context {T R : Type} {tr : TreeOps T Z R} {laws : TreeLaws T Z R}.

(** The counterpart of [cuckoo_loses_updates]: over this table the last write
    of a committed transaction is what is stored *)
Lemma pbptree_keeps_updates (txn k : Z) (new : R) :
  (forall t : S2PLTable (PBPTreeTable T R), row k (locks t) = RowLock_new ->
     exists t1, s2pl_insert txn k new t = Ok t1 /\
       forall t2, S2PL.transactionCommit txn t1 = (SUCCESS, t2) -> tbl_get (S2PL.tbl t2) k = Some new) /\
  (forall (t : BOCCTable (PBPTreeTable T R) R) c ws rest l, writes_of k (aw_set (BOCC.writeSet t)) = l ++ [new] -> committedWSs t = ws :: rest ->
     exists t' c', BOCC.transactionCommit txn t c = Ok (SUCCESS, t', c') /\ tbl_get (BOCC.tbl t') k = Some new).
Proof.
  split.
  - intros t Hrow. unfold s2pl_insert, lockExclusive. rewrite Hrow. cbn.
    eexists. split; [reflexivity|]. intros t2 [= <-].
    change (tbl_get (tbl_insert k new (S2PL.tbl t)) k = Some new). by rewrite tbl_get_insert, decide_True by done.
  - intros t c ws rest l Hl Hq. unfold BOCC.transactionCommit. rewrite Hq. destruct (getNewTS c) as [ts c1].
    eexists _, _. split; [reflexivity|]. cbn [BOCC.tbl]. rewrite commit_inserts, Hl. apply put_all_last.
Qed.

(** deletions are not announced, and the bulk operations do nothing *)
Lemma pbptree_against_documentation (t : PBPTreeTable T R) k func ufunc :
  delivered (deleteByKey k t).2 = delivered t /\ deleteWhere func t = (0, t) /\ updateOrDeleteByKey k ufunc t = (0, t) /\
  (forall pfunc f, updateWhere pfunc f t = (0, t)) /\
  forall (f : R -> unit -> result (R * unit)) n t', updateByKey k f t tt = Ok (n, t', tt) -> delivered t' = delivered t.
Proof.
  split_and!; [|done..|].
  - unfold deleteByKey. by destruct (bt_erase k (btree t)).
  - intros f n t'. unfold updateByKey. destruct (getAsRef k t) as [r|]; [|by intros [= _ <-]].
    intros ([r' s] & _ & [= _ <- _])%result_bind_Ok. done.
Qed.
End properties.
End PBPTree.
