(* ===== verification/PersistentTables.v ===== *)
(** * PersistentTables: pool files, and the table over the BDCC tuples

    [BDCCPTable.hpp] over the persistent table of another project, a class of
    operations here, and the pool files that it and [PBPTreeTable.hpp] keep
    their data in.  A pool file holds a root object that points to the table's
    data; a table object points into it.

    What is shown: a table that is opened again has the contents it was left
    with; when dropping a table lets its name be used again; what a scan visits;
    which operations do nothing. *)

From S2P Require Import Prelude Catalog Tables PBPTreeTable.

(** ** Pool files *)

Section pools.
(** [C]: what the root object points to *)
Context {C : Type}.
(** the directory of the pools, which ends with a slash, and that of the process *)
Context (gPmemPath cwd : string).

(** [Freed]: the root object has been deleted *)
Inductive pool := Root (c : C) | Freed.

Abbreviation files := (gmap string pool) (only parsing).

Definition pool_path (tableName : string) : string := (gPmemPath ++ tableName ++ ".db")%string.
(** [std::remove] of a relative name *)
Definition removed_path (tableName : string) : string := (cwd ++ "/" ++ tableName ++ ".db")%string.

(** the root's pointer of an open pool *)
Definition root_of (tableName : string) (fs : files) : result C :=
  match fs !! pool_path tableName with Some (Root c) => Ok c | _ => Err Dangling end.

Definition open_or_create (tableName : string) (fresh : C) (fs : files) : result files :=
  let fs := match fs !! pool_path tableName with None => <[pool_path tableName := Root fresh]> fs | Some _ => fs end in
  _ ← root_of tableName fs; Ok fs.

Definition write_root (tableName : string) (c : C) (fs : files) : files := <[pool_path tableName := Root c]> fs.

Definition drop_pool (tableName : string) (fs : files) : result files :=
  _ ← root_of tableName fs; Ok (delete (removed_path tableName) (<[pool_path tableName := Freed]> fs)).

Lemma root_of_write tableName c fs : root_of tableName (write_root tableName c fs) = Ok c.
Proof. unfold root_of, write_root. by rewrite lookup_insert_eq. Qed.

Lemma open_existing tableName fresh fs c : root_of tableName fs = Ok c -> open_or_create tableName fresh fs = Ok fs.
Proof. unfold open_or_create, root_of. destruct (fs !! pool_path tableName) as [[c'|]|] eqn:He; intros [=]. by rewrite He. Qed.

Lemma open_new tableName fresh fs : fs !! pool_path tableName = None ->
  open_or_create tableName fresh fs = Ok (write_root tableName fresh fs).
Proof. intros Hn. unfold open_or_create. rewrite Hn. fold (write_root tableName fresh fs). by rewrite root_of_write. Qed.

(** a dropped table can be created again when the pools are in the directory of
    the process, and otherwise not *)
Lemma drop_then_open tableName fresh fs c : root_of tableName fs = Ok c -> exists fs', drop_pool tableName fs = Ok fs' /\
  (pool_path tableName = removed_path tableName -> open_or_create tableName fresh fs' = Ok (write_root tableName fresh fs')) /\
  (pool_path tableName <> removed_path tableName -> open_or_create tableName fresh fs' = Err Dangling).
Proof.
  intros Hr. unfold drop_pool. rewrite Hr. run_step. eexists. split; [done|]. split; intros Hp.
  - apply open_new. rewrite Hp. apply lookup_delete_eq.
  - unfold open_or_create, root_of. by rewrite !lookup_delete_ne, !lookup_insert_eq, lookup_delete_ne, lookup_insert_eq by done.
Qed.

End pools.

(** ** dbis::ptable::PTable *)

(** [pt_make]: with the names of the columns; [pt_get]: [None] when it throws;
    [pt_tuples]: from [begin] to [end] *)
Class PTableOps (P K R : Type) := {
  pt_make : list string -> P;
  pt_default : P;
  pt_insert : K -> R -> P -> P;
  pt_delete : K -> P -> Z * P;
  pt_get : P -> K -> option R;
  pt_tuples : P -> list (K * R);
  pt_count : P -> Z;
}.

Class PTableLaws (P K R : Type) `{EqDecision K} {ops : PTableOps P K R} : Prop := {
  pt_make_get : forall cols k, pt_get (pt_make cols) k = None;
  pt_default_get : forall k, pt_get pt_default k = None;
  pt_insert_get : forall k r p k', pt_get p k = None -> pt_get (pt_insert k r p) k' = if decide (k = k') then Some r else pt_get p k';
  pt_delete_get : forall k p k', pt_get (pt_delete k p).2 k' = if decide (k = k') then None else pt_get p k';
  pt_delete_count : forall k p, (pt_delete k p).1 = match pt_get p k with Some _ => 1 | None => 0 end;
  pt_tuples_get : forall p k r, (k, r) ∈ pt_tuples p <-> pt_get p k = Some r;
  pt_tuples_keys : forall p, NoDup (pt_tuples p).*1;
  pt_count_tuples : forall p, pt_count p = Z.of_nat (length (pt_tuples p));
}.

(** ** BDCCPTable *)
Module BDCCP.
Section BDCCPTable.
Context {P K R : Type} `{EqDecision K} {ops : PTableOps P K R} (gPmemPath cwd : string).

Definition notification : Type := nat * R * ModificationMode.

(** [attached]: the pointers into the pool are not null *)
Record BDCCPTable := mkBDCCPTable {
  table_name : string;
  attached : bool;
  mImmediateObservers : list nat;
  mDeferredObservers : list nat;
  delivered : list notification;
}.

Abbreviation world := (gmap string (pool (C := P)) * BDCCPTable)%type (only parsing).

Definition new_BDCCPTable (tInfo : TableInfo) (fs : gmap string (pool (C := P))) : result (gmap string (pool (C := P)) * BDCCPTable) :=
  fs ← open_or_create gPmemPath (tableName tInfo) (pt_make (getName <$> mColumns tInfo)) fs;
  Ok (fs, mkBDCCPTable (tableName tInfo) true [] [] []).

Definition pTable (w : world) : result P :=
  _ ← guard_else (attached w.2) Dangling; root_of gPmemPath (table_name w.2) w.1.

Definition with_pTable (p : P) (w : world) : world := (write_root gPmemPath (table_name w.2) p w.1, w.2).

Definition notifyObservers (rec : R) (mode : ModificationMode) (notify : NotificationMode) (w : world) : world :=
  let t := w.2 in
  let obs := match notify with Immediate => mImmediateObservers t | OnCommit => mDeferredObservers t end in
  (w.1, mkBDCCPTable (table_name t) (attached t) (mImmediateObservers t) (mDeferredObservers t) (delivered t ++ ((fun o => (o, rec, mode)) <$> obs))).

Definition insert (key : K) (rec : R) (w : world) : result world :=
  p ← pTable w; Ok (notifyObservers rec Insert Immediate (with_pTable (pt_insert key rec p) w)).

Definition deleteByKey (key : K) (w : world) : result (Z * world) :=
  p ← pTable w; let '(n, p) := pt_delete key p in Ok (n, with_pTable p w).

(** to be done, in the words of the code *)
Definition deleteWhere (func : R -> bool) (w : world) : Z * world := (0, w).
Definition updateOrDeleteByKey (key : K) (ufunc : R -> R * bool) (w : world) : Z * world := (0, w).
Definition updateByKey (key : K) (ufunc : R -> R) (w : world) : Z * world := (0, w).
Definition updateWhere (pfunc : R -> bool) (ufunc : R -> R) (w : world) : Z * world := (0, w).

Definition getByKey (key : K) (w : world) : result R :=
  p ← pTable w; match pt_get p key with Some r => Ok r | None => Err (Throws "TableException") end.

Definition table_size (w : world) : result Z := p ← pTable w; Ok (pt_count p).

Definition registerObserver (cb : nat) (mode : NotificationMode) (w : world) : world :=
  let t := w.2 in
  match mode with
  | Immediate => (w.1, mkBDCCPTable (table_name t) (attached t) (mImmediateObservers t ++ [cb]) (mDeferredObservers t) (delivered t))
  | OnCommit => (w.1, mkBDCCPTable (table_name t) (attached t) (mImmediateObservers t) (mDeferredObservers t ++ [cb]) (delivered t))
  end.

Definition drop_table (w : world) : result world :=
  _ ← pTable w;
  fs ← drop_pool gPmemPath cwd (table_name w.2) w.1;
  Ok (fs, mkBDCCPTable (table_name w.2) false (mImmediateObservers w.2) (mDeferredObservers w.2) (delivered w.2)).

(** without the names of the columns *)
Definition truncate (w : world) : result world := _ ← pTable w; Ok (with_pTable pt_default w).

(** the iterator: the tuples from [iter] to [end], and the predicate *)
Record BDCCPIterator := mkIter { it_rest : list R; it_pred : R -> bool }.

Definition it_isValid (i : BDCCPIterator) : bool := match it_rest i with [] => false | _ => true end.

Fixpoint skip_while_not (pred : R -> bool) (l : list R) : list R :=
  match l with
  | [] => []
  | r :: rest => if pred r then l else skip_while_not pred rest
  end.

Definition makeBDCCPIterator (l : list R) (pred : R -> bool) : BDCCPIterator := mkIter (skip_while_not pred l) pred.

Definition it_next (i : BDCCPIterator) : result BDCCPIterator :=
  match it_rest i with
  | [] => Err OutOfBounds
  | _ :: rest => Ok (mkIter (skip_while_not (it_pred i) rest) (it_pred i))
  end.

(** a copy of the iterator before the step *)
Definition it_postfix (i : BDCCPIterator) : result (BDCCPIterator * BDCCPIterator) := i' ← it_next i; Ok (i, i').

Definition it_deref (i : BDCCPIterator) : result R := match it_rest i with [] => Err OutOfBounds | r :: _ => Ok r end.

Definition select (func : R -> bool) (w : world) : result BDCCPIterator := p ← pTable w; Ok (makeBDCCPIterator (pt_tuples p).*2 func).
Definition select_all (w : world) : result BDCCPIterator := select (fun _ => true) w.

(** the tuples of a scan, [for (; iter.isValid(); iter++)]; fuel: the number of
    tuples *)
Fixpoint it_collect (fuel : nat) (i : BDCCPIterator) : result (list R) :=
  if it_isValid i then
    match fuel with
    | O => Err Waits
    | S fuel => r ← it_deref i; s ← it_postfix i; rs ← it_collect fuel s.2; Ok (r :: rs)
    end
  else Ok [].

(** calls that change the contents *)
Inductive op := OpInsert (k : K) (r : R) | OpDelete (k : K) | OpTruncate.

Definition call (o : op) (w : world) : result world :=
  match o with
  | OpInsert k r => insert k r w
  | OpDelete k => r ← deleteByKey k w; Ok r.2
  | OpTruncate => truncate w
  end.

Fixpoint calls (os : list op) (w : world) : result world :=
  match os with
  | [] => Ok w
  | o :: os => w ← call o w; calls os w
  end.

(** ** Lemmas *)

Context {laws : PTableLaws P K R}.

(** a table that points to its data *)
Definition usable (w : world) (p : P) : Prop := attached w.2 = true /\ root_of gPmemPath (table_name w.2) w.1 = Ok p.

Lemma pTable_usable w p : usable w p -> pTable w = Ok p.
Proof. intros [Ha Hr]. unfold pTable. by rewrite Ha. Qed.

Lemma with_pTable_usable w p p' : usable w p -> usable (with_pTable p' w) p'.
Proof. intros [Ha Hr]. split; [done|]. apply root_of_write. Qed.

Lemma new_usable tInfo fs : fs !! pool_path gPmemPath (tableName tInfo) = None ->
  exists w, new_BDCCPTable tInfo fs = Ok w /\ table_name w.2 = tableName tInfo /\ usable w (pt_make (getName <$> mColumns tInfo)).
Proof.
  intros Hn. unfold new_BDCCPTable. rewrite open_new by done. run_step. eexists. split; [done|]. split; [done|]. split; [done|]. apply root_of_write.
Qed.

(** the contents, and what the calls make of them; an insert is specified for
    an absent key *)
Definition spec_op (o : op) (m : K -> option R) : K -> option R :=
  match o with
  | OpInsert k r => fun k' => if decide (k = k') then Some r else m k'
  | OpDelete k => fun k' => if decide (k = k') then None else m k'
  | OpTruncate => fun _ => None
  end.

Fixpoint absent_inserts (os : list op) (m : K -> option R) : Prop :=
  match os with
  | [] => True
  | o :: os => match o with OpInsert k _ => m k = None | _ => True end /\ absent_inserts os (spec_op o m)
  end.

Lemma absent_inserts_ext os m m' : (forall k, m k = m' k) -> absent_inserts os m -> absent_inserts os m'.
Proof.
  revert m m'. induction os as [|o os IH]; intros m m' He; [done|]. cbn [absent_inserts]. intros [Ho Hs]. split.
  - destruct o; [by rewrite <- He|done..].
  - apply (IH (spec_op o m)); [|done]. intros k. by destruct o; cbn [spec_op]; rewrite ?He.
Qed.

Lemma spec_ext os m m' : (forall k, m k = m' k) -> forall k, foldl (fun m o => spec_op o m) m os k = foldl (fun m o => spec_op o m) m' os k.
Proof.
  revert m m'. induction os as [|o os IH]; intros m m' He; [done|]. cbn [foldl]. apply IH. intros k. by destruct o; cbn [spec_op]; rewrite ?He.
Qed.

Lemma call_ok o w p : usable w p -> match o with OpInsert k _ => pt_get p k = None | _ => True end ->
  exists w' p', call o w = Ok w' /\ usable w' p' /\ table_name w'.2 = table_name w.2 /\ forall k, pt_get p' k = spec_op o (pt_get p) k.
Proof.
  intros Hu Ho. pose proof (pTable_usable _ _ Hu) as Hp. destruct o as [k r|k|]; cbn [call].
  - unfold insert. rewrite Hp. run_step. eexists _, _. split; [done|]. split; [exact (with_pTable_usable _ _ (pt_insert k r p) Hu)|]. split; [done|].
    intros k'. by apply pt_insert_get.
  - unfold deleteByKey. rewrite Hp. run_step. destruct (pt_delete k p) as [n p'] eqn:Hd. run_step. exists (with_pTable p' w), p'. split; [done|].
    split; [by eapply with_pTable_usable|]. split; [done|]. intros k'. pose proof (pt_delete_get k p k') as Hg. by rewrite Hd in Hg.
  - unfold truncate. rewrite Hp. run_step. exists (with_pTable pt_default w), pt_default. split; [done|].
    split; [by eapply with_pTable_usable|]. split; [done|]. intros k'. apply pt_default_get.
Qed.

Lemma calls_ok os w p : usable w p -> absent_inserts os (pt_get p) ->
  exists w' p', calls os w = Ok w' /\ usable w' p' /\ table_name w'.2 = table_name w.2 /\
    forall k, pt_get p' k = foldl (fun m o => spec_op o m) (pt_get p) os k.
Proof.
  revert w p. induction os as [|o os IH]; intros w p Hu Ha; cbn [calls]; [by exists w, p|]. destruct Ha as [Ho Ha].
  destruct (call_ok o w p Hu Ho) as (w1 & p1 & -> & Hu1 & Hn1 & Hg1). run_step.
  destruct (IH w1 p1 Hu1) as (w2 & p2 & Hc & Hu2 & Hn2 & Hg2); [by apply (absent_inserts_ext _ (spec_op o (pt_get p)))|].
  exists w2, p2. split_and!; [done|done|congruence|]. intros k. rewrite Hg2. cbn [foldl]. by apply spec_ext.
Qed.

Lemma bdccp_collect pred fuel l : (length l <= fuel)%nat -> it_collect fuel (makeBDCCPIterator l pred) = Ok (List.filter pred l).
Proof.
  unfold makeBDCCPIterator. revert fuel. induction l as [|r l IH]; intros fuel Hl; cbn in Hl; [by destruct fuel|].
  cbn [skip_while_not List.filter]. destruct (pred r) eqn:Hr.
  - destruct fuel as [|fuel]; [lia|]. cbn [it_collect it_isValid it_rest]. unfold it_deref, it_postfix, it_next.
    cbn [it_rest it_pred]. run_step. cbn [snd]. by rewrite IH by lia.
  - apply IH. lia.
Qed.

(** created in an empty pool, used, and opened again by name: the second table
    has what the calls left; a lookup answers it or throws, a scan visits the
    tuples that satisfy the predicate, the size is their number *)
Lemma persistent_table tInfo fs os : fs !! pool_path gPmemPath (tableName tInfo) = None -> absent_inserts os (fun _ => None) ->
  exists w w1 t2 p, new_BDCCPTable tInfo fs = Ok w /\ calls os w = Ok w1 /\ new_BDCCPTable tInfo w1.1 = Ok (w1.1, t2) /\ usable (w1.1, t2) p /\
    (forall k, getByKey k (w1.1, t2) = match foldl (fun m o => spec_op o m) (fun _ => None) os k with Some r => Ok r | None => Err (Throws "TableException") end) /\
    (forall pred, exists i, select pred (w1.1, t2) = Ok i /\ it_collect (length (pt_tuples p)) i = Ok (List.filter pred (pt_tuples p).*2)) /\
    table_size (w1.1, t2) = Ok (Z.of_nat (length (pt_tuples p))).
Proof.
  intros Hn Ha. destruct (new_usable tInfo fs Hn) as (w & Hw & Hname & Hu).
  assert (forall k, pt_get (pt_make (getName <$> mColumns tInfo)) k = None) as Hnone by apply pt_make_get.
  destruct (calls_ok os w _ Hu) as (w1 & p & Hc & Hu1 & Hn1 & Hg); [by apply (absent_inserts_ext _ (fun _ => None))|].
  destruct Hu1 as [_ Hr1]. rewrite Hn1, Hname in Hr1. set (t2 := mkBDCCPTable (tableName tInfo) true [] [] []).
  assert (usable (w1.1, t2) p) as Hu2 by done. pose proof (pTable_usable _ _ Hu2) as Hp.
  exists w, w1, t2, p. split_and!; [done|done| |done| | |].
  - unfold new_BDCCPTable. by rewrite (open_existing _ _ _ _ _ Hr1).
  - intros k. unfold getByKey. rewrite Hp. run_step. rewrite Hg, (spec_ext os _ (fun _ => None)) by done. done.
  - intros pred. unfold select. rewrite Hp. run_step. eexists. split; [done|]. apply bdccp_collect. by rewrite length_fmap.
  - unfold table_size. rewrite Hp. run_step. by rewrite pt_count_tuples.
Qed.

(** the name of a dropped table can be used again only when the pools are kept
    in the directory of the process *)
Lemma dropped_name tInfo w p : usable w p -> table_name w.2 = tableName tInfo -> exists fs t, drop_table w = Ok (fs, t) /\
  (pool_path gPmemPath (tableName tInfo) = removed_path cwd (tableName tInfo) -> exists w', new_BDCCPTable tInfo fs = Ok w') /\
  (pool_path gPmemPath (tableName tInfo) <> removed_path cwd (tableName tInfo) -> new_BDCCPTable tInfo fs = Err Dangling).
Proof.
  intros Hu Hname. unfold drop_table. rewrite (pTable_usable _ _ Hu). run_step. destruct Hu as [_ Hr]. rewrite Hname in *.
  destruct (drop_then_open gPmemPath cwd (tableName tInfo) (pt_make (getName <$> mColumns tInfo)) w.1 p Hr) as (fs & -> & Hsame & Hdiff).
  run_step. eexists _, _. split; [done|]. unfold new_BDCCPTable. split.
  - intros He. rewrite Hsame by done. by eexists.
  - intros He. by rewrite Hdiff.
Qed.

(** the calls that do nothing; deletions are not announced *)
Lemma bdccp_against_documentation w p k func ufunc upd : usable w p ->
  deleteWhere func w = (0, w) /\ updateOrDeleteByKey k ufunc w = (0, w) /\ updateByKey k upd w = (0, w) /\
  (forall pfunc, updateWhere pfunc upd w = (0, w)) /\ exists n w', deleteByKey k w = Ok (n, w') /\ delivered w'.2 = delivered w.2.
Proof.
  intros Hu. split_and!; [done..|]. unfold deleteByKey. rewrite (pTable_usable _ _ Hu). run_step. destruct (pt_delete k p) as [n p'].
  by eexists _, _.
Qed.
End BDCCPTable.
End BDCCP.

(** ** The contract of the persistent table can be met: a finite map *)
Section gmap_instance.
Context {K R : Type} `{Countable K}.

#[local] Instance gmap_ptable : PTableOps (gmap K R) K R := {
  pt_make _ := ∅;
  pt_default := ∅;
  pt_insert k r p := <[k := r]> p;
  pt_delete k p := (match p !! k with Some _ => 1 | None => 0 end, delete k p);
  pt_get p k := p !! k;
  pt_tuples p := map_to_list p;
  pt_count p := Z.of_nat (size p);
}.

#[local] Instance gmap_ptable_laws : PTableLaws (gmap K R) K R.
Proof.
  split; cbn.
  - intros _ k. apply lookup_empty.
  - intros k. apply lookup_empty.
  - intros k r p k' _. apply lookup_insert.
  - intros k p k'. apply lookup_delete.
  - done.
  - intros p k r. apply elem_of_map_to_list.
  - intros p. apply NoDup_fst_map_to_list.
  - intros p. by rewrite length_map_to_list.
Qed.
End gmap_instance.

(** ** The pool of PBPTreeTable *)
Module PBPTreePool.
Section PBPTreePool.
Context {T K R : Type} `{EqDecision K} {tr : TreeOps T K R} (gPmemPath cwd : string).

Definition openOrCreateTable (name : string) (fs : gmap string (pool (C := T))) : result (gmap string (pool (C := T)) * T) :=
  fs ← open_or_create gPmemPath name bt_empty fs; t ← root_of gPmemPath name fs; Ok (fs, t).

Definition drop_table (name : string) (fs : gmap string (pool (C := T))) : result (gmap string (pool (C := T))) := drop_pool gPmemPath cwd name fs.

(** the tree of a new pool is empty, that of an existing one is as it was left *)
Lemma pool_reopened (laws : TreeLaws T K R) name (fs : gmap string (pool (C := T))) t : fs !! pool_path gPmemPath name = None ->
  exists fs' t0, openOrCreateTable name fs = Ok (fs', t0) /\ (forall k, bt_lookup t0 k = None) /\
    openOrCreateTable name (write_root gPmemPath name t fs') = Ok (write_root gPmemPath name t fs', t).
Proof.
  intros Hn. unfold openOrCreateTable. rewrite open_new by done. run_step. rewrite root_of_write. run_step.
  eexists _, bt_empty. split; [done|]. split; [apply bt_lookup_empty|].
  rewrite (open_existing _ _ _ _ t) by apply root_of_write. run_step. by rewrite root_of_write.
Qed.
End PBPTreePool.
End PBPTreePool.
