(* ===== verification/MVCC.v ===== *)
(** * MVCC: version arrays and snapshot-isolated tables

    Models [src/table/MVCCTable.hpp]: the version array [MVCCObject], the
    [WriteSet], and the transactional operations of [MVCCTable] over any
    table with the [TableOps] interface, together with the shared
    [StateContext].  Keys are integers ([Z]); [ltR] is the tuple comparison
    used by [std::sort], [dflt] the value-initialised record. *)

From S2P Require Import Prelude StateContext Tables.

(** ** MVCCObject *)

Record header := mkHeader { h_cts : Z; h_dts : Z }.

Record MVCCObject (R : Type) := mkMVCC {
  headers : list header;
  versionSlots : Z;          (** [usedSlots], an atomic uint8 *)
  values : list R;
}.
Arguments mkMVCC {R}.
Arguments headers {R}.
Arguments versionSlots {R}.
Arguments values {R}.

Definition MVCCObject_new {R} (VERSIONS : nat) (dflt : R) : MVCCObject R :=
  mkMVCC (replicate VERSIONS (mkHeader DTS_INF 0)) 0 (replicate VERSIONS dflt).

Fixpoint getCurrent_from (i : Z) (hs : list header) (used txnID : Z) : Z :=
  match hs with
  | [] => -1
  | h :: rest =>
      if Z.testbit used i && (h_dts h >? txnID) && (h_cts h <=? txnID) then i
      else getCurrent_from (i + 1) rest used txnID
  end.

Definition getCurrent {R} (o : MVCCObject R) (txnID : Z) : Z :=
  getCurrent_from 0 (headers o) (versionSlots o) txnID.

(** array subscript with a [TransactionID]; [-1] arrives here as [2^64 - 1] *)
Definition subscript (n : nat) (i : Z) : result nat :=
  let i := u64 i in
  if i <? Z.of_nat n then Ok (Z.to_nat i) else Err OutOfBounds.

Definition set_cts {R} (i : Z) (ts : Z) (o : MVCCObject R) : result (MVCCObject R) :=
  p ← subscript (length (headers o)) i;
  h ← get_at (headers o) p;
  hs ← set_at (headers o) p (mkHeader ts (h_dts h));
  Ok (mkMVCC hs (versionSlots o) (values o)).

Definition set_dts {R} (i : Z) (ts : Z) (o : MVCCObject R) : result (MVCCObject R) :=
  p ← subscript (length (headers o)) i;
  h ← get_at (headers o) p;
  hs ← set_at (headers o) p (mkHeader (h_cts h) ts);
  Ok (mkMVCC hs (versionSlots o) (values o)).

Definition set_value {R} (i : Z) (v : R) (o : MVCCObject R) : result (MVCCObject R) :=
  p ← subscript (length (values o)) i;
  vs ← set_at (values o) p v;
  Ok (mkMVCC (headers o) (versionSlots o) vs).

Definition newEntry {R} (txnID iPos dPos : Z) (value : R) (o : MVCCObject R) : result (MVCCObject R) :=
  o ← set_value iPos value o;
  o ← set_cts iPos txnID o;
  o ← set_dts iPos DTS_INF o;
  o ← set_dts dPos txnID o;
  Ok (mkMVCC (headers o) (u8 (set_bit (versionSlots o) iPos)) (values o)).

Fixpoint cleanUp_from (i : Z) (hs : list header) (used oldest : Z) : list header * Z :=
  match hs with
  | [] => ([], used)
  | h :: rest =>
      if h_dts h <=? oldest then
        let '(hs', used') := cleanUp_from (i + 1) rest (clear_bit used i) oldest in
        (mkHeader DTS_INF 0 :: hs', used')
      else
        let '(hs', used') := cleanUp_from (i + 1) rest used oldest in
        (h :: hs', used')
  end.

Definition cleanUpVersions {R} (oldestReadVersion : Z) (o : MVCCObject R) : MVCCObject R :=
  let '(hs, used) := cleanUp_from 0 (headers o) (versionSlots o) oldestReadVersion in
  mkMVCC hs used (values o).

(** ** WriteSet *)

Record WriteSet (R : Type) := mkWriteSet { ws_txnID : Z; ws_set : list (Z * R) }.
Arguments mkWriteSet {R}.
Arguments ws_txnID {R}.
Arguments ws_set {R}.

Definition ws_insert {R} (k : Z) (r : R) (w : WriteSet R) : WriteSet R :=
  mkWriteSet (ws_txnID w) (ws_set w ++ [(k, r)]).
Definition ws_clean {R} (w : WriteSet R) : WriteSet R := mkWriteSet 0 [].

Section MVCCTable.
Context {T R : Type} (VERSIONS : nat) (ltR : R -> R -> bool) (dflt : R).
Context {ops : TableOps T Z (MVCCObject R)}.

(** [operator<] of [std::pair<KeyType, RecordType>] *)
Definition pair_lt (a b : Z * R) : bool :=
  (a.1 <? b.1) || (negb (b.1 <? a.1) && ltR a.2 b.2).
Definition pair_le (a b : Z * R) : Prop := pair_lt b a = false.

#[global] Instance pair_le_dec : RelDecision pair_le.
Proof. intros a b. unfold pair_le. apply _. Defined.

(** [std::unique] on equal keys: the first element of each run is kept *)
Fixpoint unique_from (k : Z) (l : list (Z * R)) : list (Z * R) :=
  match l with
  | [] => []
  | e :: rest => if k =? e.1 then unique_from k rest else e :: unique_from e.1 rest
  end.
Definition unique (l : list (Z * R)) : list (Z * R) :=
  match l with [] => [] | e :: rest => e :: unique_from e.1 rest end.

Definition dedup_writes (l : list (Z * R)) : list (Z * R) := unique (merge_sort pair_le l).

Record MVCCTable := mkMVCCTable {
  writeSet : WriteSet R;
  tbl : T;
  tblID : nat;
}.

Definition transactionBegin (txnID : Z) (t : MVCCTable) (c : ctx) : MVCCTable * ctx :=
  (mkMVCCTable (mkWriteSet txnID (ws_set (writeSet t))) (tbl t) (tblID t),
   with_txCntW (u64 (txCntW c + 1)) c).

(** The waiting point of the commit.  Every round recomputes the horizon and
    collects garbage; without another thread, two rounds see the same
    context, so [Waits] for [fuel >= 3] means the commit spins. *)
Fixpoint wait_free_slot (fuel : nat) (txnID : Z) (o : MVCCObject R) (c : ctx)
    : result (Z * MVCCObject R * ctx) :=
  let iPos := getFreePos (versionSlots o) in
  if iPos >? Z.of_nat VERSIONS - 1 then
    match fuel with
    | O => Err Waits
    | S fuel =>
        '(oldest, c) ← recalcOldestVisible txnID c;
        wait_free_slot fuel txnID (cleanUpVersions oldest o) c
    end
  else Ok (iPos, o, c).

Definition commit_update (fuel : nat) (txnID : Z) (value : R) (o : MVCCObject R) (c : ctx)
    : result (MVCCObject R * ctx) :=
  let dPos := getCurrent o txnID in
  '(iPos, o, c) ← wait_free_slot fuel txnID o c;
  o ← newEntry txnID iPos dPos value o;
  Ok (o, c).

Definition commit_fresh (txnID : Z) (value : R) : result (MVCCObject R) :=
  let o := MVCCObject_new VERSIONS dflt in
  o ← set_cts 0 txnID o;
  o ← set_dts 0 DTS_INF o;
  o ← set_value 0 value o;
  Ok (mkMVCC (headers o) 1 (values o)).

Definition commit_entry (fuel : nat) (txnID : Z) (e : Z * R) (tb : T) (c : ctx) : result (T * ctx) :=
  '(success, tb, c) ← tbl_update e.1 (fun o c => commit_update fuel txnID e.2 o c) tb c;
  if success =? 0 then
    o ← commit_fresh txnID e.2;
    Ok (tbl_insert e.1 o tb, c)
  else Ok (tb, c).

Fixpoint commit_entries (fuel : nat) (txnID : Z) (l : list (Z * R)) (tb : T) (c : ctx)
    : result (T * ctx) :=
  match l with
  | [] => Ok (tb, c)
  | e :: rest =>
      '(tb, c) ← commit_entry fuel txnID e tb c;
      commit_entries fuel txnID rest tb c
  end.

Definition transactionCommit (fuel : nat) (txnID : Z) (t : MVCCTable) (c : ctx)
    : result (Errc * MVCCTable * ctx) :=
  '(tb, c) ← commit_entries fuel txnID (dedup_writes (ws_set (writeSet t))) (tbl t) c;
  Ok (SUCCESS, mkMVCCTable (ws_clean (writeSet t)) tb (tblID t), c).

Definition transactionAbort (txnID : Z) (t : MVCCTable) : MVCCTable :=
  mkMVCCTable (ws_clean (writeSet t)) (tbl t) (tblID t).

Definition readCommit (txnID : Z) (keys : list Z) (until : nat) : Errc := SUCCESS.

Definition mvcc_insert (txnID key : Z) (rec : R) (t : MVCCTable) : Errc * MVCCTable :=
  (SUCCESS, mkMVCCTable (ws_insert key rec (writeSet t)) (tbl t) (tblID t)).

Definition mvcc_deleteByKey (txnID key : Z) (t : MVCCTable) : Z * MVCCTable := (1, t).

Definition find_write (key : Z) (l : list (Z * R)) : option R :=
  snd <$> (list_find (fun e : Z * R => e.1 = key) l ≫= fun ie => Some ie.2).

Definition mvcc_getByKey (txnID key : Z) (t : MVCCTable) (c : ctx) : result (Errc * option R * ctx) :=
  match (if ws_txnID (writeSet t) =? txnID then find_write key (ws_set (writeSet t)) else None) with
  | Some v => Ok (SUCCESS, Some v, c)
  | None =>
      match tbl_get (tbl t) key with
      | None => Ok (NOT_FOUND, None, c)
      | Some o =>
          readCTS ← getReadCTS c txnID 0;
          '(readCTS, c) ← (if readCTS =? 0 then
              last ← getLastCTS c 0;
              c ← setReadCTS c txnID 0 last;
              Ok (last, c)
            else Ok (readCTS, c));
          let pos := getCurrent o readCTS in
          if pos =? -1 then Ok (NOT_FOUND, None, c)
          else v ← get_at (values o) (Z.to_nat pos); Ok (SUCCESS, Some v, c)
      end
  end.

(** ** A topology group: the context and the table objects it refers to *)
Record group := mkGroup { g_ctx : ctx; g_tables : list MVCCTable }.

Definition set_table (tr : tableref) (t : MVCCTable) (g : group) : result group :=
  l ← set_at (g_tables g) tr t; Ok (mkGroup (g_ctx g) l).

Definition registerState (tr : tableref) (g : group) : result group :=
  t ← get_at (g_tables g) tr;
  '(id, c) ← StateContext.registerState tr (g_ctx g);
  set_table tr (mkMVCCTable (writeSet t) (tbl t) id) (mkGroup c (g_tables g)).

Definition commit_at (fuel : nat) (txnID : Z) (tr : tableref) (g : group) : result (Errc * group) :=
  t ← get_at (g_tables g) tr;
  '(s, t, c) ← transactionCommit fuel txnID t (g_ctx g);
  g ← set_table tr t (mkGroup c (g_tables g));
  Ok (s, g).

Definition transactionPreCommit (fuel : nat) (txnID : Z) (tr : tableref) (g : group)
    : result (Errc * group) :=
  t ← get_at (g_tables g) tr;
  let otherID := if Nat.eqb (tblID t) 0 then 1%nat else 0%nat in
  c ← setWriteStatus (g_ctx g) txnID (tblID t) Commit;
  otherState ← getWriteStatus c txnID otherID;
  let g := mkGroup c (g_tables g) in
  if decide (otherState = Commit) then
    '(s, g) ← commit_at fuel txnID tr g;
    if decide (s = SUCCESS) then
      other ← get_at (regStates (g_ctx g)) otherID;
      match other with
      | None => Err Dangling
      | Some otherRef =>
          '(s, g) ← commit_at fuel txnID otherRef g;
          c ← setLastCTS 0 txnID (g_ctx g);
          c ← removeTx txnID c;
          Ok (s, mkGroup c (g_tables g))
      end
    else Ok (s, g)
  else Ok (SUCCESS, g).
End MVCCTable.
Arguments MVCCTable : clear implicits.
Arguments group : clear implicits.

(** ** Version arrays: invariant and visible versions *)

(** [u o i h]: version [i] is in use with header [h] *)
Definition used_version {R} (o : MVCCObject R) (i : nat) (h : header) : Prop :=
  headers o !! i = Some h /\ Z.testbit (versionSlots o) (Z.of_nat i) = true.

(** version [i] is the one valid at [ts], with value [v] *)
Definition sees {R} (o : MVCCObject R) (ts : Z) (v : R) : Prop :=
  exists i h, used_version o i h /\ h_cts h <= ts < h_dts h /\ values o !! i = Some v.

(** what [getByKey] reads at snapshot [ts] *)
Definition visible {R} (o : MVCCObject R) (ts : Z) : option R :=
  let pos := getCurrent o ts in
  if pos =? -1 then None else values o !! Z.to_nat pos.

Record version_wf {R} (V : nat) (o : MVCCObject R) : Prop := {
  vw_size : (V <= 8)%nat;
  vw_headers : length (headers o) = V;
  vw_values : length (values o) = V;
  vw_used : 0 <= versionSlots o < 2 ^ Z.of_nat V;
  vw_interval : forall i h, used_version o i h -> 0 <= h_cts h < h_dts h /\ h_dts h <= DTS_INF;
  vw_disjoint : forall i j h k, used_version o i h -> used_version o j k -> i <> j ->
     h_dts h <= h_cts k \/ h_dts k <= h_cts h;
  vw_live : exists i h, used_version o i h /\ h_dts h = DTS_INF;
}.

(** every version was committed before [txn] *)
Definition older_than {R} (txn : Z) (o : MVCCObject R) : Prop :=
  forall i h, used_version o i h -> h_cts h < txn.

Lemma getCurrent_from_spec i hs used ts :
  (getCurrent_from i hs used ts = -1 /\
     forall j h, hs !! j = Some h -> Z.testbit used (i + Z.of_nat j) = true -> ~ h_cts h <= ts < h_dts h) \/
  (exists j h, hs !! j = Some h /\ getCurrent_from i hs used ts = i + Z.of_nat j /\
     Z.testbit used (i + Z.of_nat j) = true /\ h_cts h <= ts < h_dts h).
Proof.
  revert i. induction hs as [|h hs IH]; intros i; simpl; [by left|].
  destruct (Z.testbit used i && (h_dts h >? ts) && (h_cts h <=? ts)) eqn:E.
  - apply andb_prop in E as [[Hb Hd]%andb_prop Hc]. right. exists 0%nat, h.
    rewrite Z.add_0_r. split_and!; [done|done|done|lia|lia].
  - destruct (IH (i + 1)) as [(He & Hn)|(j & h' & Hj & He & Hb & Hr)].
    + left. split; [done|]. intros [|j] h' Hj Hb; simpl in Hj.
      * injection Hj as <-. rewrite Z.add_0_r in Hb. rewrite Hb in E. simpl in E. lia.
      * replace (i + Z.of_nat (S j)) with (i + 1 + Z.of_nat j) in Hb by lia. by apply (Hn j).
    + right. exists (S j), h'. replace (i + Z.of_nat (S j)) with (i + 1 + Z.of_nat j) by lia. done.
Qed.

Lemma getCurrent_cases {R} (o : MVCCObject R) ts :
  (getCurrent o ts = -1 /\ forall i h, used_version o i h -> ~ h_cts h <= ts < h_dts h) \/
  (exists i h, used_version o i h /\ getCurrent o ts = Z.of_nat i /\ h_cts h <= ts < h_dts h).
Proof.
  unfold getCurrent. destruct (getCurrent_from_spec 0 (headers o) (versionSlots o) ts)
    as [(He & Hn)|(j & h & Hj & He & Hb & Hr)].
  - left. split; [done|]. intros i h [Hh Hb]. by apply (Hn i).
  - right. by exists j, h.
Qed.

Lemma valid_version_unique {R} V (o : MVCCObject R) ts i j h k :
  version_wf V o -> used_version o i h -> used_version o j k ->
  h_cts h <= ts < h_dts h -> h_cts k <= ts < h_dts k -> i = j.
Proof.
  intros Hwf Hi Hj Hh Hk. destruct (decide (i = j)) as [|Hne]; [done|].
  destruct (vw_disjoint V o Hwf i j h k Hi Hj Hne); lia.
Qed.

Lemma getCurrent_valid {R} V (o : MVCCObject R) ts i h :
  version_wf V o -> used_version o i h -> h_cts h <= ts < h_dts h -> getCurrent o ts = Z.of_nat i.
Proof.
  intros Hwf Hi Hr. destruct (getCurrent_cases o ts) as [(_ & Hn)|(j & k & Hj & He & Hk)].
  - by destruct (Hn i h Hi).
  - rewrite He. f_equal. by apply (valid_version_unique V o ts j i k h).
Qed.

Lemma visible_sees {R} V (o : MVCCObject R) ts v :
  version_wf V o -> visible o ts = Some v <-> sees o ts v.
Proof.
  intros Hwf. unfold visible. split.
  - destruct (getCurrent_cases o ts) as [(-> & _)|(i & h & Hi & -> & Hr)]; [done|].
    rewrite (proj2 (Z.eqb_neq _ _)), Nat2Z.id by lia. intros Hv. by exists i, h.
  - intros (i & h & Hi & Hr & Hv).
    rewrite (getCurrent_valid V o ts i h) by done.
    by rewrite (proj2 (Z.eqb_neq _ _)), Nat2Z.id by lia.
Qed.

Lemma visible_ext {R} V (o o' : MVCCObject R) ts :
  version_wf V o -> version_wf V o' -> (forall v, sees o ts v <-> sees o' ts v) ->
  visible o ts = visible o' ts.
Proof.
  intros Hwf Hwf' He. apply option_eq. intros v. by rewrite !(visible_sees V), He.
Qed.

(** the live version is the one [getCurrent] finds for a newer transaction *)
Lemma getCurrent_live {R} V (o : MVCCObject R) txn :
  version_wf V o -> older_than txn o -> txn < DTS_INF ->
  exists d h, used_version o d h /\ h_dts h = DTS_INF /\ getCurrent o txn = Z.of_nat d.
Proof.
  intros Hwf Hold Htxn. destruct (vw_live V o Hwf) as (d & h & Hd & Hinf).
  exists d, h. split_and!; [done|done|]. specialize (Hold d h Hd).
  apply (getCurrent_valid V o txn d h Hwf Hd). lia.
Qed.

(** *** Garbage collection *)

Lemma cleanUp_from_spec i hs used oldest : 0 <= i ->
  let res := cleanUp_from i hs used oldest in
  res.1 = (fun h => if h_dts h <=? oldest then mkHeader DTS_INF 0 else h) <$> hs /\
  (0 <= used -> 0 <= res.2) /\
  (forall n, 0 <= n -> Z.testbit res.2 n =
     Z.testbit used n && negb ((i <=? n) &&
       match hs !! Z.to_nat (n - i) with Some h => h_dts h <=? oldest | None => false end)).
Proof.
  revert i used. induction hs as [|h hs IH]; intros i used Hi; simpl.
  - split_and!; [done|done|]. intros n Hn. by rewrite andb_false_r, andb_true_r.
  - assert (forall n, i + 1 <= n -> (h :: hs) !! Z.to_nat (n - i) = hs !! Z.to_nat (n - (i + 1))) as Hshift.
    { intros n Hn. by replace (Z.to_nat (n - i)) with (S (Z.to_nat (n - (i + 1)))) by lia. }
    assert (forall n, n < i \/ n = i \/ i + 1 <= n) as Htri by (intros; lia).
    destruct (Z.leb_spec (h_dts h) oldest) as [Hle|Hgt].
    + destruct (IH (i + 1) (clear_bit used i) ltac:(lia)) as (H1 & H2 & H3).
      destruct (cleanUp_from (i + 1) hs (clear_bit used i) oldest) as [hs' used']. simpl in *.
      split_and!; [by rewrite H1| |].
      { intros Hu. apply H2. unfold clear_bit. apply Z.land_nonneg. lia. }
      intros n Hn. rewrite H3, clear_bit_testbit by lia.
      destruct (Htri n) as [?|[->|?]].
      * rewrite !(proj2 (Z.leb_gt _ _)) by lia. rewrite bool_decide_eq_false_2 by lia. done.
      * rewrite bool_decide_eq_true_2, Z.sub_diag, Z.leb_refl by done. simpl.
        rewrite (proj2 (Z.leb_le (h_dts h) oldest)) by lia. by rewrite andb_false_r.
      * rewrite bool_decide_eq_false_2, Hshift by lia.
        by rewrite !(proj2 (Z.leb_le _ n)) by lia.
    + destruct (IH (i + 1) used ltac:(lia)) as (H1 & H2 & H3).
      destruct (cleanUp_from (i + 1) hs used oldest) as [hs' used']. simpl in *.
      split_and!; [by rewrite H1|done|].
      intros n Hn. rewrite H3 by lia. destruct (Htri n) as [?|[->|?]].
      * by rewrite !(proj2 (Z.leb_gt _ _)) by lia.
      * rewrite Z.sub_diag, Z.leb_refl, (proj2 (Z.leb_gt (i + 1) i)) by lia. simpl.
        by rewrite (proj2 (Z.leb_gt (h_dts h) oldest)) by lia.
      * rewrite Hshift by lia. by rewrite !(proj2 (Z.leb_le _ n)) by lia.
Qed.

Lemma cleanUp_used {R} (o : MVCCObject R) oldest i h :
  oldest < DTS_INF ->
  used_version (cleanUpVersions oldest o) i h <-> used_version o i h /\ oldest < h_dts h.
Proof.
  intros Hinf. unfold cleanUpVersions, used_version.
  pose proof (cleanUp_from_spec 0 (headers o) (versionSlots o) oldest ltac:(lia)) as (H1 & _ & H3).
  destruct (cleanUp_from 0 (headers o) (versionSlots o) oldest) as [hs used]. simpl in *.
  rewrite H1, list_lookup_fmap, H3 by lia.
  replace (Z.to_nat (Z.of_nat i - 0)) with i by lia.
  rewrite (proj2 (Z.leb_le 0 _)) by lia. simpl.
  destruct (headers o !! i) as [h'|]; simpl; [|by split; intros [? ?]; [|destruct_and?]].
  destruct (Z.leb_spec (h_dts h') oldest) as [Hle|Hgt]; simpl.
  - rewrite andb_false_r. split; [by intros []|]. intros [[[= ->] _] ?]. lia.
  - rewrite andb_true_r. split; [intros [[= <-] ?]; done|intros [[[= ->] ?] ?]; done].
Qed.

Lemma cleanUp_shape {R} V (o : MVCCObject R) oldest :
  version_wf V o ->
  length (headers (cleanUpVersions oldest o)) = V /\
  values (cleanUpVersions oldest o) = values o /\
  0 <= versionSlots (cleanUpVersions oldest o) < 2 ^ Z.of_nat V.
Proof.
  intros Hwf. unfold cleanUpVersions.
  pose proof (cleanUp_from_spec 0 (headers o) (versionSlots o) oldest ltac:(lia)) as (H1 & H2 & H3).
  destruct (cleanUp_from 0 (headers o) (versionSlots o) oldest) as [hs used]. simpl in *.
  pose proof (vw_used V o Hwf) as Hu. specialize (H2 ltac:(lia)).
  split; [|split; [done|split; [done|]]].
  - rewrite H1, length_fmap. apply (vw_headers V o Hwf).
  - apply bounded_by_bits; [lia|done|]. intros n Hn.
    rewrite H3, (testbit_above _ (Z.of_nat V)) by lia. done.
Qed.

Lemma cleanUp_wf {R} V (o : MVCCObject R) oldest :
  version_wf V o -> oldest < DTS_INF -> version_wf V (cleanUpVersions oldest o).
Proof.
  intros Hwf Hinf. destruct (cleanUp_shape V o oldest Hwf) as (Hh & Hv & Hu).
  split; [apply (vw_size V o Hwf)|done|by rewrite Hv; apply (vw_values V o Hwf)|done| | |].
  - intros i h [Hi _]%cleanUp_used; [|done]. by apply (vw_interval V o Hwf i).
  - intros i j h k [Hi _]%cleanUp_used [Hj _]%cleanUp_used; [|done..].
    by apply (vw_disjoint V o Hwf).
  - destruct (vw_live V o Hwf) as (i & h & Hi & Hd). exists i, h. split; [|done].
    apply cleanUp_used; [done|]. split; [done|lia].
Qed.

Lemma cleanUp_sees {R} (o : MVCCObject R) oldest ts v :
  oldest < DTS_INF -> oldest <= ts ->
  sees (cleanUpVersions oldest o) ts v <-> sees o ts v.
Proof.
  intros Hinf Hts.
  assert (values (cleanUpVersions oldest o) = values o) as Hv.
  { unfold cleanUpVersions. by destruct (cleanUp_from _ _ _ _). }
  split; intros (i & h & Hi & Hr & Hval); exists i, h.
  - rewrite Hv in Hval. by apply cleanUp_used in Hi as [Hi _].
  - rewrite Hv. split; [|done]. apply cleanUp_used; [done|]. split; [done|lia].
Qed.

Lemma cleanUp_older {R} (o : MVCCObject R) oldest txn :
  oldest < DTS_INF -> older_than txn o -> older_than txn (cleanUpVersions oldest o).
Proof. intros Hinf Ho i h [Hi _]%cleanUp_used; [|done]. by apply (Ho i). Qed.

(** *** Installing a version *)

Lemma subscript_small n (i : nat) : (i < n)%nat -> (n <= 8)%nat -> subscript n (Z.of_nat i) = Ok i.
Proof.
  intros Hi Hn. unfold subscript. rewrite u64_small by word_lia.
  rewrite (proj2 (Z.ltb_lt _ _)) by lia. by rewrite Nat2Z.id.
Qed.

Lemma subscript_minus1 n : (n <= 8)%nat -> subscript n (-1) = Err OutOfBounds.
Proof.
  intros Hn. unfold subscript. change (u64 (-1)) with (2^64 - 1).
  by rewrite (proj2 (Z.ltb_ge _ _)) by lia.
Qed.

Lemma set_value_at {R} (o : MVCCObject R) (i : nat) v :
  (i < length (values o))%nat -> (length (values o) <= 8)%nat ->
  set_value (Z.of_nat i) v o = Ok (mkMVCC (headers o) (versionSlots o) (<[i:=v]> (values o))).
Proof.
  intros Hi Hn. unfold set_value. rewrite subscript_small by done. run_step.
  by rewrite set_at_lt.
Qed.

Lemma set_cts_at {R} (o : MVCCObject R) (i : nat) h ts :
  headers o !! i = Some h -> (length (headers o) <= 8)%nat ->
  set_cts (Z.of_nat i) ts o =
    Ok (mkMVCC (<[i := mkHeader ts (h_dts h)]> (headers o)) (versionSlots o) (values o)).
Proof.
  intros Hi Hn. pose proof (lookup_lt_Some _ _ _ Hi).
  unfold set_cts. rewrite subscript_small by done. run_step.
  rewrite (get_at_Some _ _ _ Hi). run_step. by rewrite set_at_lt.
Qed.

Lemma set_dts_at {R} (o : MVCCObject R) (i : nat) h ts :
  headers o !! i = Some h -> (length (headers o) <= 8)%nat ->
  set_dts (Z.of_nat i) ts o =
    Ok (mkMVCC (<[i := mkHeader (h_cts h) ts]> (headers o)) (versionSlots o) (values o)).
Proof.
  intros Hi Hn. pose proof (lookup_lt_Some _ _ _ Hi).
  unfold set_dts. rewrite subscript_small by done. run_step.
  rewrite (get_at_Some _ _ _ Hi). run_step. by rewrite set_at_lt.
Qed.

(** [newEntry] with both positions in range: version [i] becomes the live one
    from [txn] on, version [d] ends at [txn]. *)
Definition installed {R} (txn : Z) (i d : nat) (cts_d : Z) (v : R) (o : MVCCObject R) : MVCCObject R :=
  mkMVCC (<[d := mkHeader cts_d txn]> (<[i := mkHeader txn DTS_INF]> (headers o)))
         (u8 (set_bit (versionSlots o) (Z.of_nat i))) (<[i := v]> (values o)).

Lemma newEntry_installed {R} V (o : MVCCObject R) txn (i d : nat) hd v :
  version_wf V o -> (i < V)%nat -> headers o !! d = Some hd -> i <> d ->
  newEntry txn (Z.of_nat i) (Z.of_nat d) v o = Ok (installed txn i d (h_cts hd) v o).
Proof.
  intros Hwf Hi Hd Hne. pose proof (vw_size V o Hwf) as HV.
  pose proof (vw_headers V o Hwf) as Hlh. pose proof (vw_values V o Hwf) as Hlv.
  destruct (lookup_lt_is_Some_2 (headers o) i ltac:(lia)) as [hi Hhi].
  unfold newEntry. rewrite set_value_at by lia. run_step.
  rewrite (set_cts_at _ i hi) by (simpl; first [done | lia]). cbn [mbind result_bind headers versionSlots values].
  rewrite (set_dts_at _ i (mkHeader txn (h_dts hi))).
  2: { simpl. apply list_lookup_insert_eq. lia. }
  2: { simpl. rewrite length_insert. lia. }
  cbn [mbind result_bind headers versionSlots values h_cts].
  rewrite list_insert_insert_eq.
  rewrite (set_dts_at _ d hd); [done| |].
  - simpl. by rewrite list_lookup_insert_ne.
  - simpl. rewrite length_insert. lia.
Qed.

Lemma installed_used {R} V (o : MVCCObject R) txn i d hd v j h :
  version_wf V o -> (i < V)%nat -> used_version o d hd -> i <> d ->
  used_version (installed txn i d (h_cts hd) v o) j h <->
    (j = i /\ h = mkHeader txn DTS_INF) \/
    (j = d /\ h = mkHeader (h_cts hd) txn) \/
    (j <> i /\ j <> d /\ used_version o j h).
Proof.
  intros Hwf Hi [Hd Hbd] Hne. unfold used_version, installed. simpl.
  pose proof (vw_size V o Hwf) as HV. pose proof (vw_headers V o Hwf) as Hlh.
  pose proof (vw_used V o Hwf) as Hu.
  assert (0 <= set_bit (versionSlots o) (Z.of_nat i) < 2 ^ Z.of_nat V) as Hb
    by (apply set_bit_bound; [lia|done]).
  assert (2 ^ Z.of_nat V <= 2 ^ 8) by (apply Z.pow_le_mono_r; lia).
  rewrite u8_small by word_lia.
  pose proof (lookup_lt_Some _ _ _ Hd) as Hdl.
  rewrite set_bit_testbit by lia.
  destruct (decide (j = d)) as [->|Hjd].
  - rewrite list_lookup_insert_eq by (rewrite length_insert; lia).
    rewrite Hbd, orb_true_r. naive_solver.
  - rewrite list_lookup_insert_ne by done. destruct (decide (j = i)) as [->|Hji].
    + rewrite list_lookup_insert_eq by lia. rewrite bool_decide_eq_true_2 by done. naive_solver.
    + rewrite list_lookup_insert_ne by done. rewrite bool_decide_eq_false_2 by lia. naive_solver.
Qed.

Lemma installed_wf {R} V (o : MVCCObject R) txn i d hd v :
  version_wf V o -> (i < V)%nat -> used_version o d hd -> h_dts hd = DTS_INF -> i <> d ->
  Z.testbit (versionSlots o) (Z.of_nat i) = false ->
  older_than txn o -> 0 <= txn < DTS_INF -> version_wf V (installed txn i d (h_cts hd) v o).
Proof.
  intros Hwf Hi Hd Hinf Hne Hfree Hold Htxn.
  assert (forall j h, used_version o j h -> j <> d -> h_dts h <= h_cts hd) as Hbefore.
  { intros j h Hj Hjd. destruct (vw_disjoint V o Hwf j d h hd Hj Hd Hjd) as [?|Hge]; [done|].
    pose proof (vw_interval V o Hwf j h Hj). lia. }
  pose proof (Hold d hd Hd) as Hcd. pose proof (vw_interval V o Hwf d hd Hd) as Hid.
  split.
  - apply (vw_size V o Hwf).
  - simpl. rewrite !length_insert. apply (vw_headers V o Hwf).
  - simpl. rewrite length_insert. apply (vw_values V o Hwf).
  - simpl. pose proof (vw_used V o Hwf). pose proof (vw_size V o Hwf).
    assert (2 ^ Z.of_nat V <= 2 ^ 8) by (apply Z.pow_le_mono_r; lia).
    pose proof (set_bit_bound (versionSlots o) (Z.of_nat i) (Z.of_nat V) ltac:(lia) ltac:(done)).
    rewrite u8_small by word_lia. done.
  - intros j h Hj. apply (installed_used V o txn i d hd v j h Hwf Hi Hd Hne) in Hj
      as [[-> ->]|[[-> ->]|(? & ? & Hj)]]; simpl; [unfold DTS_INF in *; lia..|].
    by apply (vw_interval V o Hwf j).
  - intros j k h h' Hj Hk Hjk.
    apply (installed_used V o txn i d hd v j h Hwf Hi Hd Hne) in Hj;
    apply (installed_used V o txn i d hd v k h' Hwf Hi Hd Hne) in Hk.
    destruct Hj as [[-> ->]|[[-> ->]|(? & ? & Hj)]], Hk as [[-> ->]|[[-> ->]|(? & ? & Hk)]];
      simpl; try done; try lia.
    + right. specialize (Hbefore k h' Hk ltac:(done)). lia.
    + right. by apply (Hbefore k h').
    + left. specialize (Hbefore j h Hj ltac:(done)). lia.
    + left. by apply (Hbefore j h).
    + by apply (vw_disjoint V o Hwf j k).
  - exists i, (mkHeader txn DTS_INF). split; [|done].
    apply (installed_used V o txn i d hd v); [done..|]. by left.
Qed.

(** what the readers of each snapshot see after the installation *)
Lemma installed_sees {R} V (o : MVCCObject R) txn i d hd v ts w :
  version_wf V o -> (i < V)%nat -> used_version o d hd -> h_dts hd = DTS_INF -> i <> d ->
  Z.testbit (versionSlots o) (Z.of_nat i) = false ->
  older_than txn o -> ts < DTS_INF ->
  sees (installed txn i d (h_cts hd) v o) ts w <-> if txn <=? ts then w = v else sees o ts w.
Proof.
  intros Hwf Hi Hd Hinf Hne Hfree Hold Hts.
  pose proof (vw_values V o Hwf) as Hlv.
  assert (forall j h, used_version o j h -> j <> d -> h_dts h <= h_cts hd) as Hbefore.
  { intros j h Hj Hjd. destruct (vw_disjoint V o Hwf j d h hd Hj Hd Hjd) as [?|Hge]; [done|].
    pose proof (vw_interval V o Hwf j h Hj). lia. }
  pose proof (Hold d hd Hd) as Hcd.
  assert (forall j h, used_version o j h -> j <> i) as Hnoti.
  { intros j h [_ Hb] ->. congruence. }
  pose proof (installed_used V o txn i d hd v) as Hused.
  destruct (Z.leb_spec txn ts) as [Hge|Hlt].
  - split.
    + intros (j & h & Hj & Hr & Hw).
      apply Hused in Hj as [[-> ->]|[[-> ->]|(? & ? & Hj)]]; [| |simpl in *|done..]; simpl in *.
      * rewrite list_lookup_insert_eq in Hw by lia. congruence.
      * lia.
      * specialize (Hbefore j h Hj ltac:(done)). lia.
    + intros ->. exists i, (mkHeader txn DTS_INF). split; [apply Hused; [done..|by left]|].
      simpl. split; [lia|]. apply list_lookup_insert_eq. lia.
  - split.
    + intros (j & h & Hj & Hr & Hw).
      apply Hused in Hj as [[-> ->]|[[-> ->]|(? & ? & Hj)]]; [| |simpl in *|done..]; simpl in *.
      * lia.
      * rewrite list_lookup_insert_ne in Hw by done. exists d, hd. split; [done|]. split; [lia|done].
      * rewrite list_lookup_insert_ne in Hw by done. by exists j, h.
    + intros (j & h & Hj & Hr & Hw). pose proof (Hnoti j h Hj) as Hji.
      destruct (decide (j = d)) as [->|Hjd].
      * destruct Hj as [Hh _], Hd as [Hh' ?]. assert (h = hd) as -> by congruence.
        exists d, (mkHeader (h_cts hd) txn). split.
        { apply Hused; [done..| |done|]; [by split|]. right. by left. }
        simpl. split; [lia|]. by rewrite list_lookup_insert_ne.
      * exists j, h. split; [apply Hused; [done..|by right; right]|].
        split; [done|]. simpl. by rewrite list_lookup_insert_ne.
Qed.

(** *** The commit of one key *)

(** a running reader holds snapshot [ts] *)
Definition reader_at (c : ctx) (ts : Z) : Prop :=
  exists pos a, live_at c pos a /\ read0 a = ts /\ ts <> 0 /\ ts < DTS_INF.

(** the horizon has been initialised and the last commit is a proper id *)
Definition horizon_set (c : ctx) : Prop :=
  0 < oldestVisibleVersion c /\ exists last, getLastCTS c 0 = Ok last /\ last < DTS_INF.

Definition only_horizon (c c' : ctx) : Prop := exists x, c' = with_oldest x c.

Lemma only_horizon_trans c1 c2 c3 : only_horizon c1 c2 -> only_horizon c2 c3 -> only_horizon c1 c3.
Proof. intros [x ->] [y ->]. by exists y. Qed.

Lemma reader_at_horizon c c' ts : only_horizon c c' -> reader_at c ts <-> reader_at c' ts.
Proof. intros [x ->]. done. Qed.

Lemma recalc_bound c c' txn r :
  horizon_set c -> recalcOldestVisible txn c = Ok (r, c') ->
  horizon_set c' /\ only_horizon c c' /\ r < DTS_INF /\ (forall ts, reader_at c ts -> r <= ts).
Proof.
  intros (Hh & last & Hlast & Hl) Hrun. unfold recalcOldestVisible in Hrun.
  rewrite (proj2 (Z.eqb_neq _ _)) in Hrun by lia. cbn [negb] in Hrun.
  bind_inv Hrun as (nm & Hnm & [= -> <-]).
  destruct (min_readCTS_spec c) as (Hmin & _).
  assert (min_readCTS c <= DTS_INF) as Hle by exact (proj1 (fold_min_read (used_txs c) DTS_INF)).
  split; [|split; [by eexists|]].
  { split; [|by exists last]. simpl. destruct (Z.ltb_spec (oldestVisibleVersion c) r); lia. }
  destruct (Z.eqb_spec (min_readCTS c) DTS_INF) as [Heq|Hneq].
  - rewrite Hlast in Hnm. injection Hnm as ->. split; [done|].
    intros ts (pos & a & Hlive & <- & Hnz & Hlt). specialize (Hmin pos a Hlive Hnz). lia.
  - injection Hnm as <-. split.
    + lia.
    + intros ts (pos & a & Hlive & <- & Hnz & _). by apply (Hmin pos a).
Qed.

(** A collection before the horizon has been initialised keeps what the last
    commit shows, and nothing older. *)
Definition horizon_ok (c : ctx) : Prop :=
  exists last, getLastCTS c 0 = Ok last /\ last < DTS_INF /\
    (0 < oldestVisibleVersion c \/ oldestVisibleVersion c = 0 /\ 0 <= last).

(** the snapshots of running readers that the collector keeps: all of them once
    the horizon is set, until then those not older than the last commit *)
Definition protected (c : ctx) (ts : Z) : Prop :=
  reader_at c ts /\ (0 < oldestVisibleVersion c \/ exists last, getLastCTS c 0 = Ok last /\ last <= ts).

(** nothing of the context has changed but the horizon, which stays set *)
Definition advances (c c' : ctx) : Prop :=
  only_horizon c c' /\ horizon_ok c' /\ (0 < oldestVisibleVersion c -> 0 < oldestVisibleVersion c').

Lemma horizon_set_ok c : horizon_set c -> horizon_ok c.
Proof. intros (Hh & last & Hl & Hlt). exists last. auto. Qed.

Lemma advances_refl c : horizon_ok c -> advances c c.
Proof. intros Hc. split; [by exists (oldestVisibleVersion c); destruct c|done]. Qed.

Lemma advances_trans c1 c2 c3 : advances c1 c2 -> advances c2 c3 -> advances c1 c3.
Proof. intros (H1 & _ & H2) (H3 & H4 & H5). split; [by eapply only_horizon_trans|auto]. Qed.

Lemma advances_protected c c' ts : advances c c' -> protected c ts -> protected c' ts.
Proof. intros ([x ->] & _ & Hpos) [Hr [Hh|Hl]]; (split; [exact Hr|]); [left; by apply Hpos|by right]. Qed.

Lemma advances_set c c' : advances c c' -> horizon_set c -> horizon_set c'.
Proof. intros ([x ->] & _ & Hpos) [Hh Hl]. split; [by apply Hpos|exact Hl]. Qed.

Lemma protected_set c ts : horizon_set c -> reader_at c ts -> protected c ts.
Proof. intros [Hh _] Hr. split; [done|by left]. Qed.

Lemma recalc_protects c c' txn r :
  horizon_ok c -> recalcOldestVisible txn c = Ok (r, c') ->
  advances c c' /\ r < DTS_INF /\ (forall ts, protected c ts -> r <= ts).
Proof.
  intros (last & Hlast & Hlt & [Hh|[Hz Hnn]]) Hrun.
  - destruct (recalc_bound c c' txn r) as (Hs' & Hoh & Hr & Hp); [split; [done|by exists last]|done|].
    split; [split; [done|split; [by apply horizon_set_ok|intros _; apply Hs']]|]. split; [done|]. intros ts [Hts _]. by apply Hp.
  - unfold recalcOldestVisible in Hrun. rewrite Hz, Hlast in Hrun. injection Hrun as <- <-.
    split; [split; [by eexists|split]|].
    + exists last. split; [done|]. split; [done|]. cbn. lia.
    + lia.
    + split; [done|]. intros ts [_ [?|(l & Hl & Hle)]]; [lia|]. congruence.
Qed.

Lemma slots_not_full {R} V (o : MVCCObject R) : version_wf V o -> is_u64 (versionSlots o) /\ versionSlots o <> UINT64_MAX.
Proof.
  intros Hwf. pose proof (vw_used V o Hwf). pose proof (vw_size V o Hwf).
  assert (2 ^ Z.of_nat V <= 2 ^ 8) by (apply Z.pow_le_mono_r; lia).
  unfold is_u64, UINT64_MAX. lia.
Qed.

Lemma wait_free_slot_protects {R} V fuel txn (o : MVCCObject R) c p o' c' :
  version_wf V o -> older_than txn o -> horizon_ok c ->
  wait_free_slot V fuel txn o c = Ok (p, o', c') ->
  version_wf V o' /\ older_than txn o' /\ advances c c' /\
  0 <= p < Z.of_nat V /\ Z.testbit (versionSlots o') p = false /\
  (forall i h, used_version o i h -> h_dts h = DTS_INF -> used_version o' i h) /\
  (forall ts v, protected c ts -> sees o' ts v <-> sees o ts v).
Proof.
  revert o c. induction fuel as [|fuel IH]; intros o c Hwf Hold Hh Hrun; simpl in Hrun;
    destruct (slots_not_full V o Hwf) as [Hu Hnf];
    pose proof (getFreePos_first_free _ Hu Hnf) as (Hr & Hb & _);
    destruct (Z.gtb_spec (getFreePos (versionSlots o)) (Z.of_nat V - 1)) as [Hgt|Hle]; try done.
  - injection Hrun as <- <- <-. split_and!; try done; try lia. by apply advances_refl.
  - bind_inv Hrun as ([r c1] & Hrec & Hrun).
    destruct (recalc_protects c c1 txn r Hh Hrec) as (Hoh & Hrinf & Hprot).
    destruct (IH (cleanUpVersions r o) c1) as (Hwf' & Hold' & Hoh' & Hp & Hbit & Hlive & Hsees);
      [by apply cleanUp_wf|by apply cleanUp_older|apply Hoh|done|].
    split_and!; try done; try lia.
    + by eapply advances_trans.
    + intros i h Hi Hd. apply Hlive; [|done]. apply cleanUp_used; [done|]. split; [done|lia].
    + intros ts v Hts. rewrite Hsees by by apply (advances_protected c c1).
      apply cleanUp_sees; [done|by apply Hprot].
  - injection Hrun as <- <- <-. split_and!; try done; try lia. by apply advances_refl.
Qed.

Lemma wait_free_slot_spec {R} V fuel txn (o : MVCCObject R) c p o' c' :
  version_wf V o -> older_than txn o -> horizon_set c ->
  wait_free_slot V fuel txn o c = Ok (p, o', c') ->
  version_wf V o' /\ older_than txn o' /\ horizon_set c' /\ only_horizon c c' /\
  0 <= p < Z.of_nat V /\ Z.testbit (versionSlots o') p = false /\
  (forall i h, used_version o i h -> h_dts h = DTS_INF -> used_version o' i h) /\
  (forall ts v, reader_at c ts -> sees o' ts v <-> sees o ts v).
Proof.
  intros Hwf Hold Hh Hrun.
  destruct (wait_free_slot_protects V fuel txn o c p o' c' Hwf Hold (horizon_set_ok c Hh) Hrun) as (Hwf' & Hold' & Ha & Hp & Hf & Hl & Hs).
  split; [done|]. split; [done|]. split; [by apply (advances_set c c' Ha)|]. split; [apply Ha|]. split; [done|]. split; [done|]. split; [done|].
  intros ts v Hts. by apply Hs, protected_set.
Qed.

Lemma commit_update_protects {R} V fuel txn v (o : MVCCObject R) c o' c' :
  version_wf V o -> older_than txn o -> horizon_ok c -> 0 <= txn < DTS_INF ->
  commit_update V fuel txn v o c = Ok (o', c') ->
  version_wf V o' /\ older_than (txn + 1) o' /\ advances c c' /\
  (forall ts, protected c ts -> ts < txn -> visible o' ts = visible o ts) /\
  (forall ts, txn <= ts < DTS_INF -> visible o' ts = Some v).
Proof.
  intros Hwf Hold Hh Htxn Hrun. unfold commit_update in Hrun.
  destruct (getCurrent_live V o txn Hwf Hold ltac:(lia)) as (d & hd & Hd & Hdinf & Hcur).
  rewrite Hcur in Hrun.
  bind_inv Hrun as ([[p o1] c1] & Hwait & Hrun).
  bind_inv Hrun as (o2 & Hnew & [= <- <-]).
  destruct (wait_free_slot_protects V fuel txn o c p o1 c1 Hwf Hold Hh Hwait)
    as (Hwf1 & Hold1 & Hoh & Hp & Hfree & Hlive & Hsees).
  specialize (Hlive d hd Hd Hdinf).
  assert (p = Z.of_nat (Z.to_nat p)) as Hpn by lia. rewrite Hpn in Hnew, Hfree.
  assert (Z.to_nat p <> d) as Hne by (intros <-; destruct Hlive; congruence).
  rewrite (newEntry_installed V o1 txn (Z.to_nat p) d hd v Hwf1 ltac:(lia) (proj1 Hlive) Hne) in Hnew.
  injection Hnew as <-.
  pose proof (installed_wf V o1 txn (Z.to_nat p) d hd v Hwf1 ltac:(lia) Hlive Hdinf Hne Hfree Hold1 Htxn) as Hwf2.
  split; [done|]. split; [|split; [done|split]].
  - intros i h Hi. apply (installed_used V o1 txn (Z.to_nat p) d hd v i h Hwf1 ltac:(lia) Hlive Hne) in Hi
      as [[-> ->]|[[-> ->]|(_ & _ & Hi)]]; simpl; [lia| |].
    + specialize (Hold1 d hd Hlive). lia.
    + specialize (Hold1 i h Hi). lia.
  - intros ts Hts Hlt. apply (visible_ext V); [done|done|]. intros w.
    assert (ts < DTS_INF) by lia.
    rewrite (installed_sees V o1 txn (Z.to_nat p) d hd v ts w Hwf1 ltac:(lia) Hlive Hdinf Hne Hfree Hold1) by done.
    rewrite (proj2 (Z.leb_gt _ _)) by lia. by apply Hsees.
  - intros ts Hts. apply (visible_sees V); [done|].
    rewrite (installed_sees V o1 txn (Z.to_nat p) d hd v ts v Hwf1 ltac:(lia) Hlive Hdinf Hne Hfree Hold1) by lia.
    by rewrite (proj2 (Z.leb_le _ _)) by lia.
Qed.

Lemma commit_fresh_spec {R} V (dflt : R) txn v :
  (1 <= V <= 8)%nat -> 0 <= txn < DTS_INF ->
  exists o, commit_fresh V dflt txn v = Ok o /\ version_wf V o /\ older_than (txn + 1) o /\
    (forall ts, ts < DTS_INF -> visible o ts = if txn <=? ts then Some v else None).
Proof.
  intros HV Htxn. unfold commit_fresh, MVCCObject_new.
  destruct V as [|V]; [lia|]. cbn [replicate].
  rewrite (set_cts_at _ 0 (mkHeader DTS_INF 0)) by (simpl; rewrite ?length_replicate; first [done|lia]).
  cbn [mbind result_bind headers versionSlots values].
  rewrite (set_dts_at _ 0 (mkHeader txn 0)) by (simpl; rewrite ?length_replicate; first [done|lia]).
  cbn [mbind result_bind headers versionSlots values].
  rewrite (set_value_at _ 0) by (simpl; rewrite ?length_replicate; lia).
  cbn [mbind result_bind headers versionSlots values].
  eexists. split; [reflexivity|]. set (o := mkMVCC _ _ _).
  assert (forall i h, used_version o i h <-> i = 0%nat /\ h = mkHeader txn DTS_INF) as Hused.
  { intros i h. unfold used_version. subst o. simpl. split.
    - intros [Hi Hb]. destruct i as [|i]; [simpl in Hi; split; congruence|].
      rewrite (testbit_above 1 1) in Hb by lia. done.
    - intros [-> ->]. done. }
  assert (version_wf (S V) o) as Hwf.
  { split.
    - lia.
    - subst o. simpl. by rewrite length_replicate.
    - subst o. simpl. by rewrite length_replicate.
    - subst o. cbn [versionSlots]. pose proof (Z.pow_gt_1 2 (Z.of_nat (S V))). lia.
    - intros i h [-> ->]%Hused. simpl. lia.
    - intros i j h k [-> _]%Hused [-> _]%Hused. done.
    - exists 0%nat, (mkHeader txn DTS_INF). by rewrite Hused. }
  split; [done|]. split.
  - intros i h [-> ->]%Hused. simpl. lia.
  - intros ts Hts. apply option_eq. intros w. rewrite (visible_sees (S V)) by done. unfold sees.
    split.
    + intros (i & h & [-> ->]%Hused & Hr & Hw). simpl in *. by rewrite (proj2 (Z.leb_le _ _)) by lia.
    + destruct (Z.leb_spec txn ts); [|done]. intros [= ->]. exists 0%nat, (mkHeader txn DTS_INF).
      rewrite Hused. simpl. split; [done|]. split; [lia|done].
Qed.

(** ** The commit of a write set *)

(** the comparison of tuples is a total preorder, as [std::sort] requires *)
Class TupleOrder {R} (ltR : R -> R -> bool) : Prop := {
  ltR_asym : forall a b, ltR a b = true -> ltR b a = false;
  ltR_cotrans : forall a b c, ltR a b = false -> ltR b c = false -> ltR a c = false;
}.

Section commit.
Context {T R : Type} (V : nat) (ltR : R -> R -> bool) (dflt : R).
Context {ops : TableOps T Z (MVCCObject R)} {laws : TableLaws T Z (MVCCObject R)}.
Context {order : TupleOrder ltR}.

(** the value of [key] in the snapshot [ts] *)
Definition snapshot (tb : T) (key ts : Z) : option R :=
  match tbl_get tb key with Some o => visible o ts | None => None end.

Definition table_wf (txn : Z) (tb : T) : Prop :=
  forall k o, tbl_get tb k = Some o -> version_wf V o /\ older_than txn o.

Lemma older_than_mono {A} txn txn' (o : MVCCObject A) :
  txn <= txn' -> older_than txn o -> older_than txn' o.
Proof. intros Hle Ho i h Hi. specialize (Ho i h Hi). lia. Qed.

(** *** Sorting and deduplication *)

#[local] Instance pair_le_trans : Transitive (pair_le ltR).
Proof.
  intros a b c. unfold pair_le, pair_lt. intros Hab Hbc.
  apply orb_false_iff in Hab as [Hab1 Hab2], Hbc as [Hbc1 Hbc2].
  apply orb_false_iff. split; [lia|]. apply andb_false_iff.
  apply andb_false_iff in Hab2 as [Hab2%negb_false_iff|Hab2]; [left; apply negb_false_iff; lia|].
  apply andb_false_iff in Hbc2 as [Hbc2%negb_false_iff|Hbc2]; [left; apply negb_false_iff; lia|].
  right. by apply (ltR_cotrans c.2 b.2 a.2).
Qed.

#[local] Instance pair_le_total : Total (pair_le ltR).
Proof.
  intros a b. unfold pair_le, pair_lt.
  destruct (Z.ltb_spec a.1 b.1), (Z.ltb_spec b.1 a.1); simpl; [lia|by left|by right|].
  destruct (ltR b.2 a.2) eqn:E; [right|by left]. by apply ltR_asym.
Qed.

Lemma unique_from_spec k l :
  StronglySorted (pair_le ltR) l -> (forall e, e ∈ l -> k <= e.1) ->
  NoDup (unique_from k l).*1 /\ k ∉ (unique_from k l).*1 /\
  (forall e, e ∈ unique_from k l -> e ∈ l /\ forall v, (e.1, v) ∈ l -> pair_le ltR e (e.1, v)) /\
  (forall e, e ∈ l -> e.1 = k \/ e.1 ∈ (unique_from k l).*1).
Proof.
  revert k. induction l as [|[k' v'] l IH]; intros k Hsort Hlow; simpl.
  - split_and!; [constructor|by intros ?%not_elem_of_nil|by intros ? ?%not_elem_of_nil..].
  - apply StronglySorted_inv in Hsort as [Hsort Hle]. rewrite Forall_forall in Hle.
    assert (forall e, e ∈ l -> k' <= e.1) as Hlow'.
    { intros e He. specialize (Hle e He). unfold pair_le, pair_lt in Hle. simpl in Hle.
      apply orb_false_iff in Hle as [Hle _]. lia. }
    destruct (Z.eqb_spec k k') as [<-|Hne].
    + destruct (IH k Hsort Hlow') as (H1 & H2 & H3 & H4). split_and!; [done|done| |].
      * intros e He. destruct (H3 e He) as [Hin Hmin]. split; [by right|].
        intros v [Heq|Hv]%elem_of_cons; [|by apply Hmin].
        injection Heq as Hk _. destruct H2. apply (list_elem_of_fmap_2 fst) in He. by rewrite Hk in He.
      * intros e [->|He]%elem_of_cons; [by left|by apply H4].
    + assert (k < k') as Hlt by (specialize (Hlow (k', v') ltac:(left)); simpl in Hlow; lia).
      destruct (IH k' Hsort Hlow') as (H1 & H2 & H3 & H4).
      assert (forall e, e ∈ unique_from k' l -> k' < e.1) as Habove.
      { intros e He. assert (e.1 <> k'). { intros Hk. apply H2. apply (list_elem_of_fmap_2 fst) in He. by rewrite Hk in He. }
        specialize (Hlow' e (proj1 (H3 e He))). lia. }
      split_and!.
      * simpl. by constructor.
      * simpl. intros [?|Hin]%elem_of_cons; [done|].
        apply list_elem_of_fmap in Hin as (e & -> & He). specialize (Habove e He). lia.
      * intros e [->|He]%elem_of_cons; simpl.
        -- split; [by left|]. intros v [Heq|Hv]%elem_of_cons; [|by apply Hle].
           injection Heq as ->. destruct (total (pair_le ltR) (k', v') (k', v')); done.
        -- destruct (H3 e He) as [Hin Hmin]. split; [by right|].
           intros v [Heq|Hv]%elem_of_cons; [|by apply Hmin].
           injection Heq as Hk _. specialize (Habove e He). lia.
      * intros e [->|He]%elem_of_cons; [right; simpl; by left|].
        destruct (H4 e He) as [->|Hin]; right; simpl; [by left|by right].
Qed.

Lemma dedup_writes_spec (l : list (Z * R)) :
  NoDup (dedup_writes ltR l).*1 /\
  (forall k v, (k, v) ∈ dedup_writes ltR l -> (k, v) ∈ l /\ forall v', (k, v') ∈ l -> ltR v' v = false) /\
  (forall k v, (k, v) ∈ l -> exists v', (k, v') ∈ dedup_writes ltR l).
Proof.
  unfold dedup_writes.
  pose proof (StronglySorted_merge_sort (pair_le ltR) l) as Hs.
  pose proof (merge_sort_Permutation (pair_le ltR) l) as Hp.
  assert (forall e, e ∈ merge_sort (pair_le ltR) l <-> e ∈ l) as Hin by (intros; by rewrite Hp).
  destruct (merge_sort (pair_le ltR) l) as [|[k0 v0] s] eqn:E; simpl.
  { split_and!; [constructor|by intros ? ? ?%not_elem_of_nil|].
    intros k v Hv. apply Hin in Hv. by apply not_elem_of_nil in Hv. }
  apply StronglySorted_inv in Hs as [Hs Hle]. rewrite Forall_forall in Hle.
  assert (forall e, e ∈ s -> k0 <= e.1) as Hlow.
  { intros e He. specialize (Hle e He). unfold pair_le, pair_lt in Hle. simpl in Hle.
    apply orb_false_iff in Hle as [Hle _]. lia. }
  assert (forall k v v', pair_le ltR (k, v) (k, v') -> ltR v' v = false) as Hval.
  { intros k v v'. unfold pair_le, pair_lt. simpl. by rewrite Z.ltb_irrefl. }
  destruct (unique_from_spec k0 s Hs Hlow) as (H1 & H2 & H3 & H4).
  split_and!.
  - by constructor.
  - intros k v [Heq|Hv]%elem_of_cons.
    + injection Heq as -> ->. split; [apply Hin; by left|]. intros v' Hv'.
      apply Hin, elem_of_cons in Hv' as [Heq|Hv'].
      * injection Heq as ->. destruct (ltR v0 v0) eqn:Eq; [|done]. by rewrite (ltR_asym _ _ Eq) in Eq.
      * by apply (Hval k0), Hle.
    + destruct (H3 _ Hv) as [Hs' Hmin]. split; [apply Hin; by right|]. intros v' Hv'.
      apply Hin, elem_of_cons in Hv' as [Heq|Hv'].
      * injection Heq as -> _. destruct H2. by apply (list_elem_of_fmap_2 fst) in Hv.
      * by apply (Hval k), Hmin.
  - intros k v Hv. apply Hin, elem_of_cons in Hv as [Heq|Hv].
    + injection Heq as -> ->. exists v0. by left.
    + destruct (H4 _ Hv) as [Heq|Hk]; simpl in *.
      * subst k. exists v0. by left.
      * apply list_elem_of_fmap in Hk as ([k' v'] & -> & Hk). exists v'. by right.
Qed.

Lemma find_write_Some k l (v : R) : find_write k l = Some v -> (k, v) ∈ l.
Proof.
  unfold find_write. destruct (list_find _ l) as [[i [k' v']]|] eqn:E; [|done]. simpl.
  apply list_find_Some in E as (Hl & Hk & _). simpl in Hk. subst k'. intros [= ->].
  by apply list_elem_of_lookup_2 in Hl.
Qed.

Lemma find_write_None k (l : list (Z * R)) : find_write k l = None -> k ∉ l.*1.
Proof.
  unfold find_write. destruct (list_find _ l) as [[i e]|] eqn:E; [done|].
  apply list_find_None in E. rewrite Forall_forall in E. intros _ Hin.
  apply list_elem_of_fmap in Hin as (e & -> & He). by apply (E e).
Qed.

Lemma find_write_cons k e (l : list (Z * R)) :
  find_write k (e :: l) = if decide (e.1 = k) then Some e.2 else find_write k l.
Proof.
  unfold find_write. simpl. case_decide; [done|].
  by destruct (list_find _ l) as [[i e']|].
Qed.

(** *** One write *)
Lemma commit_entry_protects fuel txn e (tb tb' : T) c c' :
  (1 <= V <= 8)%nat -> 0 <= txn < DTS_INF -> horizon_ok c ->
  (forall o, tbl_get tb e.1 = Some o -> version_wf V o /\ older_than txn o) ->
  commit_entry V dflt fuel txn e tb c = Ok (tb', c') ->
  advances c c' /\
  (forall k, k <> e.1 -> tbl_get tb' k = tbl_get tb k) /\
  (exists o', tbl_get tb' e.1 = Some o' /\ version_wf V o' /\ older_than (txn + 1) o') /\
  (forall ts, protected c ts -> ts < txn -> snapshot tb' e.1 ts = snapshot tb e.1 ts) /\
  (forall ts, txn <= ts < DTS_INF -> snapshot tb' e.1 ts = Some e.2).
Proof.
  intros HV Htxn Hh Hok Hrun. destruct e as [k v]. simpl in *. unfold commit_entry in Hrun.
  simpl in Hrun. unfold snapshot. destruct (tbl_get tb k) as [o|] eqn:Hget.
  - destruct (Hok o eq_refl) as [Hwf Hold].
    destruct (commit_update V fuel txn v o c) as [[o' c1]|f] eqn:Hup.
    2: { by rewrite (tbl_update_fault _ k (fun o c => commit_update V fuel txn v o c) tb c o f Hget Hup) in Hrun. }
    destruct (tbl_update_present _ k (fun o c => commit_update V fuel txn v o c) tb c o o' c1 Hget Hup)
      as (tb1 & Htb & Hget1).
    rewrite Htb in Hrun. injection Hrun as <- <-.
    destruct (commit_update_protects V fuel txn v o c o' c1 Hwf Hold Hh Htxn Hup)
      as (Hwf' & Hold' & Hoh & Hread & Hnew).
    assert (tbl_get tb1 k = Some o') as Hk by (rewrite Hget1; by rewrite decide_True).
    rewrite Hk. split_and!; [apply Hoh..| |by exists o'|done|done].
    intros k' Hne. rewrite Hget1. by rewrite decide_False.
  - rewrite (tbl_update_absent _ _ _ _ _ Hget) in Hrun. simpl in Hrun.
    destruct (commit_fresh_spec V dflt txn v HV Htxn) as (o' & Ho' & Hwf' & Hold' & Hvis).
    rewrite Ho' in Hrun. simpl in Hrun. injection Hrun as <- <-.
    assert (tbl_get (tbl_insert k o' tb) k = Some o') as Hk
      by (rewrite tbl_get_insert, Hget, tbl_put_new; by rewrite decide_True).
    rewrite Hk. split; [by apply advances_refl|]. split_and!; [|by exists o'| |].
    + intros k' Hne. rewrite tbl_get_insert. by rewrite decide_False.
    + intros ts _ Hlt. rewrite Hvis by lia. by rewrite (proj2 (Z.leb_gt _ _)) by lia.
    + intros ts Hts. rewrite Hvis by lia. by rewrite (proj2 (Z.leb_le _ _)) by lia.
Qed.

(** *** All writes *)
Lemma commit_entries_protects fuel txn l (tb tb' : T) c c' :
  (1 <= V <= 8)%nat -> 0 <= txn < DTS_INF -> horizon_ok c -> NoDup l.*1 ->
  table_wf (txn + 1) tb ->
  (forall k o, k ∈ l.*1 -> tbl_get tb k = Some o -> older_than txn o) ->
  commit_entries V dflt fuel txn l tb c = Ok (tb', c') ->
  advances c c' /\ table_wf (txn + 1) tb' /\
  (forall k, k ∉ l.*1 -> tbl_get tb' k = tbl_get tb k) /\
  (forall k ts, protected c ts -> ts < txn -> snapshot tb' k ts = snapshot tb k ts) /\
  (forall k v ts, (k, v) ∈ l -> txn <= ts < DTS_INF -> snapshot tb' k ts = Some v).
Proof.
  intros HV Htxn. revert tb c.
  induction l as [|e l IH]; intros tb c Hh Hnd Hok Hold Hrun; simpl in Hrun.
  { injection Hrun as <- <-. split; [by apply advances_refl|]. split_and!; [done|done|done|].
    by intros ? ? ? ?%not_elem_of_nil. }
  apply NoDup_cons in Hnd as [Hnotin Hnd].
  bind_inv Hrun as ([tb1 c1] & Hone & Hrest).
  destruct (commit_entry_protects fuel txn e tb tb1 c c1 HV Htxn Hh) as (Hoh1 & Hoth1 & (o1 & Ho1 & Hwf1 & Hold1) & Hread1 & Hnew1);
    [|done|].
  { intros o Ho. split; [by apply (Hok e.1)|]. apply (Hold e.1); [by left|done]. }
  assert (table_wf (txn + 1) tb1) as Hok1.
  { intros k o Ho. destruct (decide (k = e.1)) as [->|Hne].
    - rewrite Ho1 in Ho. by injection Ho as <-.
    - rewrite Hoth1 in Ho by done. by apply (Hok k). }
  destruct (IH tb1 c1 (proj1 (proj2 Hoh1)) Hnd Hok1) as (Hoh' & Hok' & Hoth' & Hread' & Hnew'); [|done|].
  { intros k o Hk Ho. assert (k <> e.1) by (intros ->; done).
    rewrite Hoth1 in Ho by done. apply (Hold k); [by right|done]. }
  split; [by eapply advances_trans|]. split_and!; [done| | |].
  - intros k Hk. apply not_elem_of_cons in Hk as [Hne Hk]. rewrite Hoth' by done. by apply Hoth1.
  - intros k ts Hts Hlt. rewrite Hread'; [|by apply (advances_protected c c1)|done].
    destruct (decide (k = e.1)) as [->|Hne]; [by apply Hread1|].
    unfold snapshot. by rewrite Hoth1.
  - intros k v ts [<-|Hin]%elem_of_cons Hts; [|by apply Hnew'].
    unfold snapshot. rewrite Hoth' by done. by apply Hnew1.
Qed.
End commit.

(** *** The commit of a whole write set *)
Section commit_core.
Context {T R : Type} (V : nat) (ltR : R -> R -> bool) (dflt : R).
Context {ops : TableOps T Z (MVCCObject R)} {laws : TableLaws T Z (MVCCObject R)}.
Context {order : TupleOrder ltR}.

Lemma commit_protects fuel txn (t t' : MVCCTable T R) c c' s :
  (1 <= V <= 8)%nat -> 0 <= txn < DTS_INF -> horizon_ok c -> table_wf V txn (tbl t) ->
  transactionCommit V ltR dflt fuel txn t c = Ok (s, t', c') ->
  s = SUCCESS /\ writeSet t' = mkWriteSet 0 [] /\ advances c c' /\
  table_wf V (txn + 1) (tbl t') /\
  (forall k ts, protected c ts -> ts < txn -> snapshot (tbl t') k ts = snapshot (tbl t) k ts) /\
  (forall k ts, txn <= ts < DTS_INF -> snapshot (tbl t') k ts =
     match find_write k (dedup_writes ltR (ws_set (writeSet t))) with
     | Some v => Some v
     | None => snapshot (tbl t) k ts
     end).
Proof.
  intros HV Htxn Hh Hwf Hrun.
  unfold transactionCommit in Hrun. bind_inv Hrun as ([tb1 c1] & Hrun & [= <- <- <-]).
  destruct (dedup_writes_spec ltR (ws_set (writeSet t))) as (Hnd & _ & _).
  destruct (commit_entries_protects V dflt fuel txn _ (tbl t) tb1 c c1 HV Htxn Hh Hnd)
    as (Hoh & Hok & Hoth & Hread & Hnew); [| |done|].
  - intros k o Ho. destruct (Hwf k o Ho) as [Hw Ho']. split; [done|]. eapply older_than_mono; [|done]. lia.
  - intros k o _ Ho. by apply (Hwf k).
  - split; [done|]. split; [done|]. split; [done|]. split_and!; try done.
    intros k ts Hts. simpl. destruct (find_write k _) as [v|] eqn:Hf.
    + apply (Hnew k v); [by apply find_write_Some|done].
    + unfold snapshot. rewrite Hoth; [done|]. by apply find_write_None.
Qed.

(** with the horizon set, for all running readers *)
Lemma commit_snapshot_core fuel txn (t t' : MVCCTable T R) c c' s :
  (1 <= V <= 8)%nat -> 0 <= txn < DTS_INF -> horizon_set c -> table_wf V txn (tbl t) ->
  transactionCommit V ltR dflt fuel txn t c = Ok (s, t', c') ->
  s = SUCCESS /\ writeSet t' = mkWriteSet 0 [] /\ horizon_set c' /\ only_horizon c c' /\
  table_wf V (txn + 1) (tbl t') /\
  (forall k ts, reader_at c ts -> ts < txn -> snapshot (tbl t') k ts = snapshot (tbl t) k ts) /\
  (forall k ts, txn <= ts < DTS_INF -> snapshot (tbl t') k ts =
     match find_write k (dedup_writes ltR (ws_set (writeSet t))) with
     | Some v => Some v
     | None => snapshot (tbl t) k ts
     end).
Proof.
  intros HV Htxn Hh Hwf Hrun.
  destruct (commit_protects fuel txn t t' c c' s HV Htxn (horizon_set_ok c Hh) Hwf Hrun) as (-> & Hws & Ha & Htw & Hread & Hnew).
  split_and!; try done; [by apply (advances_set c c' Ha Hh)..|apply Ha|]. intros k ts Hts. by apply Hread, protected_set.
Qed.
End commit_core.
