(* ===== verification/MVCCProtocol.v ===== *)
(** * MVCC protocol: reads, waiting and the two-table commit

    Theorems about the transactional operations of [MVCC.v] that involve more
    than one of them: a reader across another transaction's commit, the
    waiting point of the commit, the commit of a topology group through
    [transactionPreCommit], and a transaction's view of its own writes. *)

From S2P Require Import Prelude StateContext Tables MVCC.

(** ** Snapshot isolation of the commit *)

Section isolation.
Context {T R : Type} (V : nat) (ltR : R -> R -> bool) (dflt : R).
Context {ops : TableOps T Z (MVCCObject R)} {laws : TableLaws T Z (MVCCObject R)}.
Context {order : TupleOrder ltR}.

(** C1: snapshot isolation of a commit of one table, whether or not the garbage
    horizon has been initialised.  When the commit of transaction [txn] goes
    through, on well-formed version arrays of transactions before [txn], every
    snapshot older than [txn] that a running reader holds shows the same value
    for every key as before, garbage collection included, provided that the
    horizon is set or, before the first collection has set it, that the snapshot
    is not older than the last commit ([first_collection_breaks_snapshot] loses
    an older one); from [txn] on, the written keys show the value kept from the
    write set and all others are unchanged; the version arrays stay well formed,
    the write set is empty and of the context at most the horizon has moved,
    which stays set once it is. *)
Theorem commit_snapshot_isolation (fuel : nat) (txn : Z) (t t' : MVCCTable T R) (c c' : ctx) (s : Errc)
  (HV : (1 <= V <= 8)%nat) (Htxn : 0 <= txn < DTS_INF) (Hh : horizon_ok c)
  (Hwf : table_wf V txn (tbl t))
  (Hrun : transactionCommit V ltR dflt fuel txn t c = Ok (s, t', c')) :
  s = SUCCESS /\ writeSet t' = mkWriteSet 0 [] /\ advances c c' /\
  table_wf V (txn + 1) (tbl t') /\
  (forall k ts, protected c ts -> ts < txn -> snapshot (tbl t') k ts = snapshot (tbl t) k ts) /\
  (forall k ts, txn <= ts < DTS_INF -> snapshot (tbl t') k ts =
     match find_write k (dedup_writes ltR (ws_set (writeSet t))) with
     | Some v => Some v
     | None => snapshot (tbl t) k ts
     end).
Proof. by eapply commit_protects. Qed.
End isolation.

(** ** Reads *)

Definition read_result {R} (v : option R) : Errc * option R :=
  match v with Some x => (SUCCESS, Some x) | None => (NOT_FOUND, None) end.

Section reads.
Context {T R : Type} (V : nat) (ltR : R -> R -> bool) (dflt : R).
Context {ops : TableOps T Z (MVCCObject R)} {laws : TableLaws T Z (MVCCObject R)}.
Context {order : TupleOrder ltR}.

Lemma visible_value (o : MVCCObject R) ts :
  version_wf V o ->
  let pos := getCurrent o ts in
  (if pos =? -1 then Ok (NOT_FOUND, None)
   else v ← get_at (values o) (Z.to_nat pos); Ok (SUCCESS, Some v)) = Ok (read_result (visible o ts)).
Proof.
  intros Hwf. cbv zeta. unfold visible.
  destruct (getCurrent_cases o ts) as [(-> & _)|(i & h & [Hi _] & -> & _)]; [done|].
  rewrite (proj2 (Z.eqb_neq _ _)), Nat2Z.id by lia.
  apply lookup_lt_Some in Hi. rewrite (vw_headers V o Hwf), <- (vw_values V o Hwf) in Hi.
  destruct (lookup_lt_is_Some_2 _ _ Hi) as [v Hv]. rewrite Hv. simpl.
  by rewrite (get_at_Some _ _ _ Hv).
Qed.

(** a reader whose snapshot is fixed reads that snapshot *)
Lemma getByKey_reader txn (t : MVCCTable T R) c pos a k :
  ctx_wf c -> live_at c pos a -> read0 a <> 0 -> ws_txnID (writeSet t) <> at_id a ->
  table_wf V txn (tbl t) ->
  mvcc_getByKey (at_id a) k t c = Ok (read_result (snapshot (tbl t) k (read0 a)), c).
Proof.
  intros Hwf Hlive Hnz Hown Htw. unfold mvcc_getByKey, snapshot.
  rewrite (proj2 (Z.eqb_neq _ _) Hown).
  destruct (tbl_get (tbl t) k) as [o|] eqn:Ho; [|done].
  rewrite (getReadCTS_at c pos a 0 Hwf Hlive).
  destruct (ctx_shape c pos a Hwf (proj2 Hlive)) as (_ & Hr & _).
  unfold read0 in *. destruct (at_read a) as [|x [|]]; try done. simpl in *.
  rewrite (proj2 (Z.eqb_neq _ _) Hnz). simpl.
  pose proof (visible_value o x (proj1 (Htw k o Ho))) as Hv. cbv zeta in Hv.
  destruct (getCurrent o x =? -1).
  - injection Hv as <-. done.
  - destruct (get_at (values o) _) as [v|]; [|done]. simpl in *. by injection Hv as <-.
Qed.

Definition fixed_reader (c : ctx) (pos : nat) (a : ActiveTx) : ctx :=
  match getLastCTS c 0 with
  | Ok last => with_slots (usedSlots c) (<[pos := mkActiveTx (at_id a) (at_write a) [last]]> (activeTxs c)) c
  | Err _ => c
  end.

(** the first read of an existing key fixes the snapshot at the last commit *)
Lemma getByKey_first txn (t : MVCCTable T R) c pos a k o last :
  ctx_wf c -> live_at c pos a -> read0 a = 0 -> ws_txnID (writeSet t) <> at_id a ->
  getLastCTS c 0 = Ok last -> table_wf V txn (tbl t) -> tbl_get (tbl t) k = Some o ->
  mvcc_getByKey (at_id a) k t c =
    Ok (read_result (snapshot (tbl t) k last), fixed_reader c pos a).
Proof.
  intros Hwf Hlive Hz Hown Hlast Htw Ho. unfold mvcc_getByKey, snapshot, fixed_reader.
  rewrite (proj2 (Z.eqb_neq _ _) Hown), Ho, Hlast, (getReadCTS_at c pos a 0 Hwf Hlive).
  destruct (ctx_shape c pos a Hwf (proj2 Hlive)) as (_ & Hr & _).
  unfold read0 in *. destruct (at_read a) as [|x [|]] eqn:Er; try done. simpl in *. subst x. simpl.
  rewrite (setReadCTS_at c pos a last Hwf Hlive). simpl.
  pose proof (visible_value o last (proj1 (Htw k o Ho))) as Hv. cbv zeta in Hv.
  destruct (getCurrent o last =? -1).
  - injection Hv as <-. done.
  - destruct (get_at (values o) _) as [v|]; [|done]. simpl in *. by injection Hv as <-.
Qed.

Lemma fixed_reader_live c pos a last :
  ctx_wf c -> live_at c pos a -> getLastCTS c 0 = Ok last ->
  ctx_wf (fixed_reader c pos a) /\ live_at (fixed_reader c pos a) pos (mkActiveTx (at_id a) (at_write a) [last]).
Proof.
  intros Hwf [Hb Hl] Hlast. unfold fixed_reader. rewrite Hlast. split.
  - apply update_slot_wf; [done|done| |done]. by apply (ctx_shape c pos a).
  - split; [done|]. apply list_lookup_insert_eq. by eapply lookup_lt_Some.
Qed.

Lemma only_horizon_wf c c' : only_horizon c c' -> ctx_wf c -> ctx_wf c'.
Proof. intros [x ->] [? ? ? ? ? ? ?]. by split. Qed.
End reads.

Section repeatable.
Context {T R : Type} (V : nat) (ltR : R -> R -> bool) (dflt : R).
Context {ops : TableOps T Z (MVCCObject R)} {laws : TableLaws T Z (MVCCObject R)}.
Context {order : TupleOrder ltR}.

(** Repeatable reads.  The first read of an existing key fixes the
    reader's snapshot at the last committed id and answers from it; from
    then on, whatever another transaction commits to the table (installing
    versions, collecting garbage), every read of every key gives the same
    status and value as it gave before that commit. *)
Lemma repeatable_read (fuel : nat) (txn last : Z) (t t' : MVCCTable T R) (c c2 : ctx)
  (pos : nat) (a : ActiveTx) (k : Z) (o : MVCCObject R) (s : Errc)
  (HV : (1 <= V <= 8)%nat) (Hwf : ctx_wf c) (Hh : horizon_set c)
  (Hlive : live_at c pos a) (Hfresh : read0 a = 0)
  (Hlast : getLastCTS c 0 = Ok last) (Hseq : 0 < last < txn) (Htxn : txn < DTS_INF)
  (Hown : ws_txnID (writeSet t) <> at_id a)
  (Htw : table_wf V txn (tbl t)) (Ho : tbl_get (tbl t) k = Some o)
  (Hcommit : transactionCommit V ltR dflt fuel txn t (fixed_reader c pos a) = Ok (s, t', c2)) :
  mvcc_getByKey (at_id a) k t c =
    Ok (read_result (snapshot (tbl t) k last), fixed_reader c pos a) /\
  forall k', exists r,
    mvcc_getByKey (at_id a) k' t (fixed_reader c pos a) = Ok (r, fixed_reader c pos a) /\
    mvcc_getByKey (at_id a) k' t' c2 = Ok (r, c2).
Proof.
  split; [by eapply getByKey_first|]. intros k'.
  destruct (fixed_reader_live c pos a last Hwf Hlive Hlast) as [Hwf1 Hlive1].
  set (c1 := fixed_reader c pos a) in *.
  assert (horizon_set c1) as Hh1.
  { subst c1. unfold fixed_reader. rewrite Hlast. exact Hh. }
  destruct (commit_snapshot_core V ltR dflt fuel txn t t' c1 c2 s HV ltac:(lia) Hh1 Htw Hcommit)
    as (_ & Hid & _ & Hoh & Htw' & Hread & _).
  exists (read_result (snapshot (tbl t) k' last)).
  pose proof (getByKey_reader V txn t c1 pos _ k' Hwf1 Hlive1 ltac:(cbn; lia) Hown Htw) as Hbefore.
  split; [exact Hbefore|]. clear Hbefore.
  assert (live_at c2 pos (mkActiveTx (at_id a) (at_write a) [last])) as Hlive2.
  { destruct Hoh as [x ->]. done. }
  rewrite <- Hread; [|by eexists pos, _; split_and!; [exact Hlive1|done|lia|lia]|lia].
  pose proof (wf_live c Hwf pos a (proj1 Hlive) (proj2 Hlive)) as Hnz.
  refine (getByKey_reader V (txn + 1) t' c2 pos _ k' (only_horizon_wf _ _ Hoh Hwf1) Hlive2 _ _ Htw');
    cbn; [lia|]. rewrite Hid. cbn. lia.
Qed.
End repeatable.

(** ** The waiting point *)

(** every version slot is occupied *)
Definition slots_full {R} (V : nat) (o : MVCCObject R) : Prop :=
  forall i, (i < V)%nat -> Z.testbit (versionSlots o) (Z.of_nat i) = true.

Lemma getFreePos_full_iff {R} V (o : MVCCObject R) :
  version_wf V o -> Z.of_nat V - 1 < getFreePos (versionSlots o) <-> slots_full V o.
Proof.
  intros Hwf. destruct (slots_not_full V o Hwf) as [Hu Hnf].
  destruct (getFreePos_first_free _ Hu Hnf) as (Hr & Hb & Hlow). split.
  - intros Hgt i Hi. apply Hlow. lia.
  - intros Hfull. destruct (decide (getFreePos (versionSlots o) < Z.of_nat V)) as [Hlt|]; [|lia].
    specialize (Hfull (Z.to_nat (getFreePos (versionSlots o))) ltac:(lia)).
    rewrite Z2Nat.id in Hfull by lia. congruence.
Qed.

(** a second recalculation gives the same bound *)
Lemma recalc_again c c1 txn r :
  horizon_set c -> recalcOldestVisible txn c = Ok (r, c1) ->
  exists c2, recalcOldestVisible txn c1 = Ok (r, c2).
Proof.
  intros Hh Hrun. destruct (recalc_bound c c1 txn r Hh Hrun) as (Hh1 & [x ->] & _ & _).
  unfold recalcOldestVisible in Hrun |- *. destruct Hh as (Hpos & _), Hh1 as (Hpos1 & Hl1).
  rewrite (proj2 (Z.eqb_neq _ _)) in Hrun by lia. rewrite (proj2 (Z.eqb_neq _ _)) by lia.
  cbn [negb] in *. bind_inv Hrun as (nm & Hnm & [= -> _]).
  change (min_readCTS (with_oldest x c)) with (min_readCTS c).
  change (getLastCTS (with_oldest x c) 0) with (getLastCTS c 0).
  rewrite Hnm. by eexists.
Qed.

Lemma wait_free_slot_full {R} V (o : MVCCObject R) txn fuel c c1 r :
  version_wf V o -> slots_full V o -> recalcOldestVisible txn c = Ok (r, c1) ->
  wait_free_slot V (S fuel) txn o c = wait_free_slot V fuel txn (cleanUpVersions r o) c1.
Proof.
  intros Hwf Hfull Hrec. cbn [wait_free_slot].
  apply (getFreePos_full_iff V o Hwf) in Hfull.
  destruct (Z.gtb_spec (getFreePos (versionSlots o)) (Z.of_nat V - 1)); [|lia].
  rewrite Hrec. done.
Qed.

Lemma wait_free_slot_free {R} V (o : MVCCObject R) txn fuel c :
  version_wf V o -> ~ slots_full V o ->
  wait_free_slot V fuel txn o c = Ok (getFreePos (versionSlots o), o, c).
Proof.
  intros Hwf Hfree. rewrite <- (getFreePos_full_iff V o Hwf) in Hfree.
  destruct fuel; simpl;
    (destruct (Z.gtb_spec (getFreePos (versionSlots o)) (Z.of_nat V - 1)); [lia|done]).
Qed.

(** nothing to collect: garbage collection leaves all slots occupied *)
Lemma cleanUp_keeps_full {R} V (o : MVCCObject R) r :
  version_wf V o -> slots_full V o -> r < DTS_INF ->
  (forall i h, used_version o i h -> r < h_dts h) -> slots_full V (cleanUpVersions r o).
Proof.
  intros Hwf Hfull Hr Hpin i Hi.
  destruct (lookup_lt_is_Some_2 (headers o) i) as [h Hh]; [by rewrite (vw_headers V o Hwf)|].
  assert (used_version o i h) as Hu by (split; [done|by apply Hfull]).
  apply (proj2 (cleanUp_used o r i h Hr)). split; [done|by eapply Hpin].
Qed.

Lemma wait_free_slot_pinned {R} V (o : MVCCObject R) txn fuel c c1 r :
  version_wf V o -> slots_full V o -> horizon_set c ->
  recalcOldestVisible txn c = Ok (r, c1) ->
  (forall i h, used_version o i h -> r < h_dts h) ->
  wait_free_slot V fuel txn o c = Err Waits.
Proof.
  revert o c c1. induction fuel as [|fuel IH]; intros o c c1 Hwf Hfull Hh Hrec Hpin.
  - simpl. apply (getFreePos_full_iff V o Hwf) in Hfull.
    by destruct (Z.gtb_spec (getFreePos (versionSlots o)) (Z.of_nat V - 1)); [|lia].
  - rewrite (wait_free_slot_full V o txn fuel c c1 r) by done.
    destruct (recalc_bound c c1 txn r Hh Hrec) as (Hh1 & _ & Hr & _).
    destruct (recalc_again c c1 txn r Hh Hrec) as (c2 & Hrec2).
    apply (IH _ c1 c2); [by apply cleanUp_wf|by apply cleanUp_keeps_full|done|done|].
    intros i h [Hi _]%cleanUp_used; [|done]. by eapply Hpin.
Qed.

Section waiting.
Context {R : Type} (V : nat).

(** C5: when the commit of an existing key returns.  With [r] the garbage
    bound the context computes: if some version slot is free, or some
    version ended at or before [r], the update succeeds after at most one
    round of garbage collection, whatever fuel is left; otherwise every
    further round recomputes the same bound and collects nothing, so without
    another thread's help the commit waits forever. *)
Theorem commit_update_waits_or_succeeds (txn : Z) (v : R) (o : MVCCObject R) (c c1 : ctx) (r : Z)
  (Hwf : version_wf V o) (Hold : older_than txn o) (Hh : horizon_set c) (Htxn : 0 <= txn < DTS_INF)
  (Hrec : recalcOldestVisible txn c = Ok (r, c1)) :
  (~ slots_full V o \/ (exists i h, used_version o i h /\ h_dts h <= r) ->
     exists o' c', forall fuel, (1 <= fuel)%nat -> commit_update V fuel txn v o c = Ok (o', c')) /\
  (slots_full V o -> (forall i h, used_version o i h -> r < h_dts h) ->
     forall fuel, commit_update V fuel txn v o c = Err Waits).
Proof.
  destruct (getCurrent_live V o txn Hwf Hold ltac:(lia)) as (d & hd & Hd & Hdinf & Hcur).
  unfold commit_update. rewrite Hcur. split.
  - intros Hprog.
    assert (exists p o1 c', forall fuel, (1 <= fuel)%nat -> wait_free_slot V fuel txn o c = Ok (p, o1, c')) as (p & o1 & c' & Hw).
    { destruct (decide (Forall (fun i => Z.testbit (versionSlots o) (Z.of_nat i) = true) (seq 0 V))) as [Hf|Hf].
      - assert (slots_full V o) as Hfull.
        { intros i Hi. rewrite Forall_forall in Hf. apply Hf, elem_of_seq. lia. }
        destruct Hprog as [?|(i & h & Hi & Hle)]; [done|].
        destruct (recalc_bound c c1 txn r Hh Hrec) as (_ & _ & Hr & _).
        assert (~ slots_full V (cleanUpVersions r o)) as Hfree.
        { intros Hfull'. pose proof (lookup_lt_Some _ _ _ (proj1 Hi)) as Hlt.
          rewrite (vw_headers V o Hwf) in Hlt. specialize (Hfull' i Hlt).
          destruct (lookup_lt_is_Some_2 (headers (cleanUpVersions r o)) i) as [h' Hh'].
          { by rewrite (proj1 (cleanUp_shape V o r Hwf)). }
          destruct (proj1 (cleanUp_used o r i h' Hr) (conj Hh' Hfull')) as [[Ho' _] Hlt'].
          destruct Hi as [Ho _]. rewrite Ho in Ho'. injection Ho' as ->. lia. }
        eexists _, _, _. intros [|fuel] Hfuel; [lia|].
        rewrite (wait_free_slot_full V o txn fuel c c1 r) by done.
        by apply wait_free_slot_free; [apply cleanUp_wf|].
      - eexists _, _, _. intros fuel _. apply wait_free_slot_free; [done|].
        intros Hfull. destruct Hf. apply Forall_forall. intros i Hi%elem_of_seq. apply Hfull. lia. }
    destruct (wait_free_slot_spec V 1 txn o c p o1 c' Hwf Hold Hh (Hw 1%nat ltac:(lia)))
      as (Hwf1 & _ & _ & _ & Hp & Hfree & Hlive & _).
    specialize (Hlive d hd Hd Hdinf).
    assert (Z.to_nat p <> d) as Hne.
    { intros <-. destruct Hlive as [_ Hb]. rewrite Z2Nat.id in Hb by lia. congruence. }
    exists (installed txn (Z.to_nat p) d (h_cts hd) v o1), c'. intros fuel Hfuel.
    rewrite (Hw fuel Hfuel). run_step.
    pose proof (newEntry_installed V o1 txn (Z.to_nat p) d hd v Hwf1 ltac:(lia) (proj1 Hlive) Hne) as Hn.
    rewrite Z2Nat.id in Hn by lia. by rewrite Hn.
  - intros Hfull Hpin fuel. by rewrite (wait_free_slot_pinned V o txn fuel c c1 r).
Qed.
End waiting.

(** ** The commit of a topology group *)

Section precommit.
Context {T R : Type} (V : nat) (ltR : R -> R -> bool) (dflt : R).
Context {ops : TableOps T Z (MVCCObject R)} {laws : TableLaws T Z (MVCCObject R)}.
Context {order : TupleOrder ltR}.

(** the two tables of the group, registered in this order *)
Record registered (g : group T R) (t0 t1 : MVCCTable T R) : Prop := {
  reg_tables : g_tables g = [t0; t1];
  reg_id0 : tblID t0 = 0%nat;
  reg_id1 : tblID t1 = 1%nat;
  reg_states : regStates (g_ctx g) = [Some 0%nat; Some 1%nat];
}.

Definition marked (c : ctx) (pos : nat) (a : ActiveTx) (i : nat) : ctx :=
  with_slots (usedSlots c)
    (<[pos := mkActiveTx (at_id a) (<[i := Commit]> (at_write a)) (at_read a)]> (activeTxs c)) c.

Lemma marked_live c pos a i :
  ctx_wf c -> live_at c pos a ->
  ctx_wf (marked c pos a i) /\
  live_at (marked c pos a i) pos (mkActiveTx (at_id a) (<[i := Commit]> (at_write a)) (at_read a)).
Proof.
  intros Hwf [Hb Hl]. destruct (ctx_shape c pos a Hwf Hl) as (Hw & Hr & _). split.
  - apply update_slot_wf; [done|done|by rewrite length_insert|done].
  - split; [done|]. apply list_lookup_insert_eq. by eapply lookup_lt_Some.
Qed.

Lemma commit_at_table fuel txn tr t t' s c c' (l : list (MVCCTable T R)) :
  l !! tr = Some t -> transactionCommit V ltR dflt fuel txn t c = Ok (s, t', c') ->
  commit_at V ltR dflt fuel txn tr (mkGroup c l) = Ok (s, mkGroup c' (<[tr := t']> l)).
Proof.
  intros Ht Hc. unfold commit_at. cbn [g_tables g_ctx]. rewrite (get_at_Some _ _ _ Ht).
  run_step. rewrite Hc. run_step. unfold set_table.
  cbn [g_tables g_ctx]. rewrite set_at_lt; [done|]. by eapply lookup_lt_Some.
Qed.

(** the table that votes, the other one, and the pair in the order of the group *)
Definition other_of (tr : nat) : nat := if Nat.eqb tr 0 then 1%nat else 0%nat.
Definition in_order {A} (tr : nat) (x y : A) : list A := if Nat.eqb tr 0 then [x; y] else [y; x].

Lemma in_order_own {A} tr (x y : A) : (tr < 2)%nat -> in_order tr x y !! tr = Some x.
Proof. intros H. by destruct tr as [|[|tr]]; [| |lia]. Qed.

Lemma in_order_other {A} tr (x y : A) : (tr < 2)%nat -> in_order tr x y !! other_of tr = Some y.
Proof. intros H. by destruct tr as [|[|tr]]; [| |lia]. Qed.

Lemma in_order_commits {A} tr (x y x' y' : A) : (tr < 2)%nat ->
  <[other_of tr := y']> (<[tr := x']> (in_order tr x y)) = in_order tr x' y'.
Proof. intros H. by destruct tr as [|[|tr]]; [| |lia]. Qed.

Lemma precommit_unfold fuel c l tr (t : MVCCTable T R) pos a s :
  ctx_wf c -> live_at c pos a -> (tr < 2)%nat -> l !! tr = Some t -> tblID t = tr -> at_write a !! other_of tr = Some s ->
  transactionPreCommit V ltR dflt fuel (at_id a) tr (mkGroup c l) =
    if decide (s = Commit) then
      '(s, g) ← commit_at V ltR dflt fuel (at_id a) tr (mkGroup (marked c pos a tr) l);
      if decide (s = SUCCESS) then
        other ← get_at (regStates (g_ctx g)) (other_of tr);
        match other with
        | None => Err Dangling
        | Some otherRef =>
            '(s, g) ← commit_at V ltR dflt fuel (at_id a) otherRef g;
            c ← setLastCTS 0 (at_id a) (g_ctx g);
            c ← removeTx (at_id a) c;
            Ok (s, mkGroup c (g_tables g))
        end
      else Ok (s, g)
    else Ok (SUCCESS, mkGroup (marked c pos a tr) l).
Proof.
  intros Hwf Hlive Htr Hl Hi Hs. destruct (marked_live c pos a tr Hwf Hlive) as [Hwf1 Hlive1].
  unfold transactionPreCommit. cbn [g_tables g_ctx].
  rewrite (get_at_Some l tr t Hl). run_step. rewrite Hi. fold (other_of tr).
  rewrite (setWriteStatus_at c pos a tr Commit Hwf Hlive) by (unfold MAX_STATES_TOPO; lia).
  run_step. fold (marked c pos a tr).
  pose proof (getWriteStatus_at _ pos _ (other_of tr) Hwf1 Hlive1) as Hgw. cbn [at_id at_write] in Hgw.
  rewrite Hgw, (get_at_Some _ _ s); [done|]. by destruct tr as [|[|tr]]; [rewrite list_lookup_insert_ne..|lia].
Qed.

(** the commits of both tables, once the other one has voted *)
Lemma precommit_tail fuel txn tr (t u t' u' : MVCCTable T R) c c1 c2 c3 c4 : (tr < 2)%nat ->
  transactionCommit V ltR dflt fuel txn t c = Ok (SUCCESS, t', c1) ->
  transactionCommit V ltR dflt fuel txn u c1 = Ok (SUCCESS, u', c2) ->
  regStates c1 = [Some 0%nat; Some 1%nat] ->
  setLastCTS 0 txn c2 = Ok c3 -> removeTx txn c3 = Ok c4 ->
  ('(s, g) ← commit_at V ltR dflt fuel txn tr (mkGroup c (in_order tr t u));
   if decide (s = SUCCESS) then
     other ← get_at (regStates (g_ctx g)) (other_of tr);
     match other with
     | None => Err Dangling
     | Some otherRef =>
         '(s, g) ← commit_at V ltR dflt fuel txn otherRef g;
         c ← setLastCTS 0 txn (g_ctx g);
         c ← removeTx txn c;
         Ok (s, mkGroup c (g_tables g))
     end
   else Ok (s, g)) = Ok (SUCCESS, mkGroup c4 (in_order tr t' u')).
Proof.
  intros Htr Hc0 Hc1 Hst Hset Hrem.
  rewrite (commit_at_table fuel _ tr t t' SUCCESS _ c1) by (done || by apply in_order_own).
  run_step. rewrite decide_True by done. cbn [g_ctx]. rewrite Hst.
  rewrite (get_at_Some [Some 0%nat; Some 1%nat] (other_of tr) (Some (other_of tr))) by (by destruct tr as [|[|tr]]; [| |lia]). run_step.
  rewrite (commit_at_table fuel _ (other_of tr) u u' SUCCESS c1 c2); [|by destruct tr as [|[|tr]]; [| |lia]|done].
  rewrite in_order_commits by done.
  cbn [mbind result_bind g_ctx g_tables] in *. rewrite Hset. run_step. by rewrite Hrem.
Qed.

(** publishing the commit id and leaving *)
Lemma publish_and_leave c pos a :
  ctx_wf c -> live_at c pos a ->
  exists c1 c2, setLastCTS 0 (at_id a) c = Ok c1 /\ removeTx (at_id a) c1 = Ok c2 /\
    ctx_wf c2 /\ getLastCTS c2 0 = Ok (at_id a) /\ (forall b, ~ live_at c2 pos b) /\
    (forall p b, p <> pos -> live_at c p b -> live_at c2 p b).
Proof.
  intros Hwf [Hb Hl]. destruct (setLastCTS_wf c (at_id a) Hwf) as (c1 & H1 & Hwf1 & Hlast & Hu & Ha & _).
  assert (live_at c1 pos a) as Hlive1 by (split; [by rewrite Hu|by rewrite Ha]).
  exists c1. rewrite (removeTx_unfold c1 pos a Hwf1 Hlive1). eexists. split; [done|]. split; [reflexivity|].
  split_and!; [|done| |].
  - apply (clear_slot_wf (with_slots (usedSlots c1) _ c1)); [lia|].
    apply update_slot_wf; [done|apply Hlive1| |done]. exact (proj1 (ctx_shape c1 pos a Hwf1 (proj2 Hlive1))).
  - intros b [Hbit _]. cbn in Hbit. rewrite clear_bit_testbit in Hbit by lia.
    by rewrite bool_decide_eq_true_2 in Hbit.
  - intros p b Hne [Hpb Hp]. split; simpl.
    + rewrite clear_bit_testbit, Hu, Hpb, bool_decide_eq_false_2 by lia. done.
    + by rewrite list_lookup_insert_ne, Ha by done.
Qed.

Lemma reader_marked c pos a i ts :
  live_at c pos a -> reader_at c ts -> reader_at (marked c pos a i) ts.
Proof.
  intros [_ Hl] (p & b & [Hpb Hp] & Hb). destruct (decide (p = pos)) as [->|Hne].
  - assert (b = a) as -> by congruence. eexists pos, _. split.
    + split; [exact Hpb|]. apply list_lookup_insert_eq. by eapply lookup_lt_Some.
    + exact Hb.
  - exists p, b. split; [|done]. split; [done|]. cbn. by rewrite list_lookup_insert_ne.
Qed.

(** a reader's snapshot is protected of the context the vote is recorded in *)
Lemma protected_marked c pos a i ts : live_at c pos a -> protected c ts -> protected (marked c pos a i) ts.
Proof. intros Hl [Hr Hp]. split; [by apply reader_marked|exact Hp]. Qed.

(** C3: two-table commit, on whichever of the two tables of the group
    [transactionPreCommit] is called.  While the other table has not voted it
    only marks its own table and answers [SUCCESS] without touching any data.
    When the other table is already marked and both tables' commits go through
    (a commit can wait for readers instead), it commits its own table and then
    the other one, publishes the transaction id as the group's last commit and
    frees the transaction's slot; in both tables every older snapshot of a
    running reader that the collector keeps (all of them once the garbage
    horizon is set, before that those not older than the last commit) stays what
    it was, and from the transaction id on snapshots show all its writes and
    nothing else changed. *)
Theorem precommit_two_tables (fuel tr : nat) (g : group T R) (t u : MVCCTable T R) (pos : nat)
  (a : ActiveTx) (HV : (1 <= V <= 8)%nat) (Htr : (tr < 2)%nat)
  (Hreg : in_order tr t u = g_tables g /\ tblID t = tr /\ tblID u = other_of tr /\ regStates (g_ctx g) = [Some 0%nat; Some 1%nat])
  (Hwf : ctx_wf (g_ctx g)) (Hh : horizon_ok (g_ctx g)) (Hlive : live_at (g_ctx g) pos a) (Hid : at_id a < DTS_INF)
  (Htw : table_wf V (at_id a) (tbl t)) (Huw : table_wf V (at_id a) (tbl u)) :
  (at_write a !! other_of tr <> Some Commit ->
     transactionPreCommit V ltR dflt fuel (at_id a) tr g
       = Ok (SUCCESS, mkGroup (marked (g_ctx g) pos a tr) (g_tables g))) /\
  (at_write a !! other_of tr = Some Commit ->
   forall t' u' c1 c2 s0 s1,
     transactionCommit V ltR dflt fuel (at_id a) t (marked (g_ctx g) pos a tr) = Ok (s0, t', c1) ->
     transactionCommit V ltR dflt fuel (at_id a) u c1 = Ok (s1, u', c2) ->
     exists c', transactionPreCommit V ltR dflt fuel (at_id a) tr g
         = Ok (SUCCESS, mkGroup c' (in_order tr t' u')) /\
       ctx_wf c' /\ getLastCTS c' 0 = Ok (at_id a) /\ (forall b, ~ live_at c' pos b) /\
       (forall x x', (x, x') ∈ [(t, t'); (u, u')] ->
          (forall k ts, protected (g_ctx g) ts -> ts < at_id a ->
             snapshot (tbl x') k ts = snapshot (tbl x) k ts) /\
          (forall k ts, at_id a <= ts < DTS_INF -> snapshot (tbl x') k ts =
             match find_write k (dedup_writes ltR (ws_set (writeSet x))) with
             | Some v => Some v
             | None => snapshot (tbl x) k ts
             end))).
Proof.
  destruct Hreg as (Htab & Hi0 & Hi1 & Hst). destruct g as [c l]. cbn [g_tables g_ctx] in *. subst l.
  destruct (marked_live c pos a tr Hwf Hlive) as [Hwf1 Hlive1].
  destruct (ctx_shape c pos a Hwf (proj2 Hlive)) as (Hw & _ & Hidpos).
  destruct (lookup_lt_is_Some_2 (at_write a) (other_of tr)) as [st Hs1];
    [rewrite Hw; unfold MAX_STATES_TOPO, other_of; destruct (Nat.eqb tr 0); lia|].
  rewrite (precommit_unfold fuel c _ tr t pos a st Hwf Hlive Htr (in_order_own tr t u Htr) Hi0 Hs1). split.
  { intros Hne. rewrite decide_False; [done|congruence]. }
  intros Hc t' u' c1 c2 s0 s1 Hc0 Hc1. assert (st = Commit) as -> by congruence.
  destruct (commit_protects V ltR dflt fuel (at_id a) t t' _ c1 s0 HV ltac:(lia) (Hh : horizon_ok (marked c pos a tr)) Htw Hc0)
    as (-> & _ & Ha1 & _ & Hread0 & Hnew0).
  destruct (commit_protects V ltR dflt fuel (at_id a) u u' c1 c2 s1 HV ltac:(lia) (proj1 (proj2 Ha1)) Huw Hc1)
    as (-> & _ & Ha2 & _ & Hread1 & Hnew1).
  destruct (advances_trans _ _ _ Ha1 Ha2) as [Hoh _].
  destruct (publish_and_leave c2 pos _ (only_horizon_wf _ _ Hoh Hwf1)
    ltac:(by destruct Hoh as [x ->]; exact Hlive1)) as (c3 & c4 & Hset & Hrem & Hwf4 & Hlast & Hdead & _).
  exists c4. rewrite decide_True by done.
  rewrite (precommit_tail fuel _ tr t u t' u' _ c1 c2 c3 c4 Htr Hc0 Hc1 ltac:(by destruct Ha1 as [[x ->] _]) Hset Hrem).
  split_and!; [done|done|done|done|].
  assert (forall ts, protected c ts -> protected (marked c pos a tr) ts) as Hrd by (intros ts; by apply protected_marked).
  intros x x' [[= -> ->]|[[= -> ->]|[]%elem_of_nil]%elem_of_cons]%elem_of_cons.
  - split; [intros k ts Hts Hlt; by apply Hread0; [apply Hrd|]|exact Hnew0].
  - split; [|exact Hnew1]. intros k ts Hts Hlt. apply Hread1; [|done]. by apply (advances_protected _ c1 ts Ha1), Hrd.
Qed.
End precommit.

(** ** A transaction and its own writes *)

Section own_writes.
Context {T R : Type} (V : nat) (ltR : R -> R -> bool) (dflt : R).
Context {ops : TableOps T Z (MVCCObject R)} {laws : TableLaws T Z (MVCCObject R)}.
Context {order : TupleOrder ltR}.

Lemma find_own_app k v (l l' : list (Z * R)) :
  find_write k (l ++ (k, v) :: l') = match find_write k l with Some x => Some x | None => Some v end.
Proof.
  induction l as [|e l IH]; cbn [app]; rewrite !find_write_cons; [by rewrite decide_True|].
  by case_decide.
Qed.

Lemma dedup_pair k v w ws :
  (forall x, (k, x) ∈ ws -> x = v \/ x = w) -> (k, v) ∈ ws -> (k, w) ∈ ws ->
  exists x, find_write k (dedup_writes ltR ws) = Some x /\ (x = v \/ x = w) /\
    ltR v x = false /\ ltR w x = false.
Proof.
  intros Hor Hv Hw. destruct (dedup_writes_spec ltR ws) as (_ & Hmin & Hall).
  destruct (find_write k (dedup_writes ltR ws)) as [x|] eqn:Hf.
  - apply find_write_Some, Hmin in Hf as [Hin Hle]. exists x. auto.
  - apply find_write_None in Hf. destruct (Hall k v Hv) as [x Hx].
    by apply (list_elem_of_fmap_2 fst) in Hx.
Qed.

(** A transaction that writes a key twice.  Its own reads return the
    first value written, the commit keeps the smaller of the two records
    in the tuple order (not the last one), and a [deleteByKey] in between reports one deletion
    but is recorded nowhere: neither own reads nor the commit see it. *)
Lemma rewritten_key (txn k : Z) (v w : R) (t : MVCCTable T R) (c : ctx)
  (Htxn : ws_txnID (writeSet t) = txn) (Hnew : find_write k (ws_set (writeSet t)) = None) :
  let t1 := (mvcc_insert txn k v t).2 in
  let t2 := (mvcc_deleteByKey txn k t1).2 in
  let t3 := (mvcc_insert txn k w t2).2 in
  (mvcc_deleteByKey txn k t1).1 = 1 /\ t2 = t1 /\
  mvcc_getByKey txn k t3 c = Ok (SUCCESS, Some v, c) /\
  (ltR v w = true -> find_write k (dedup_writes ltR (ws_set (writeSet t3))) = Some v) /\
  (ltR w v = true -> find_write k (dedup_writes ltR (ws_set (writeSet t3))) = Some w).
Proof.
  cbv zeta. split; [done|]. split; [done|].
  set (l := ws_set (writeSet t)) in *.
  assert (forall x, (k, x) ∉ l) as Hnot.
  { intros x Hx. apply find_write_None in Hnew. apply Hnew. by apply (list_elem_of_fmap_2 fst) in Hx. }
  split.
  - unfold mvcc_getByKey. cbn [mvcc_insert mvcc_deleteByKey snd writeSet ws_insert ws_set ws_txnID].
    rewrite Htxn, Z.eqb_refl. fold l.
    rewrite <- app_assoc. cbn [app]. by rewrite find_own_app, Hnew.
  - cbn [mvcc_insert mvcc_deleteByKey snd writeSet ws_insert ws_set]. fold l. set (ws := (l ++ [(k, v)]) ++ [(k, w)]).
    assert (exists x, find_write k (dedup_writes ltR ws) = Some x /\ (x = v \/ x = w) /\
      ltR v x = false /\ ltR w x = false) as (x & -> & Hx & Hv & Hw).
    { apply dedup_pair.
      - intros x [[Hin|Hin]%elem_of_app|Hin]%elem_of_app; [by destruct (Hnot x)|left|right];
          by apply list_elem_of_singleton in Hin as [= ->].
      - apply elem_of_app. left. apply elem_of_app. right. by left.
      - apply elem_of_app. right. by left. }
    split; intros Hlt; f_equal; destruct Hx; congruence.
Qed.
End own_writes.

(** ** Concrete tables and contexts *)

Module Demo.
#[export] Instance Zltb_order : TupleOrder Z.ltb.
Proof. split; intros; lia. Qed.

Abbreviation tab := (HashMap.HashMapTable Z (MVCCObject Z)) (only parsing).

Definition one_key (o : MVCCObject Z) : tab := HashMap.mkHashMapTable {[1 := o]} [] [] [].

(** key 1 with one live version, and with a superseded one as well *)
Definition obj1 : MVCCObject Z := mkMVCC [mkHeader 5 DTS_INF; mkHeader DTS_INF 0] 1 [50; 0].
Definition obj2 : MVCCObject Z := mkMVCC [mkHeader 3 6; mkHeader 6 DTS_INF] 3 [30; 60].

(** transaction 10 reads (snapshot [r]), transaction 20 writes; last commit 8 *)
Definition ctx2 (r horizon : Z) (w : list Status) : ctx :=
  mkCtx 30 [([0; 1], 8)] [Some 0%nat; Some 1%nat] ∅ 0 0 0 3
    (mkActiveTx 10 [Active; Active] [r] :: mkActiveTx 20 w [0] ::
     replicate 62 (mkActiveTx 0 [Active; Active] [0])) horizon 2 1.

Definition writer (ws : list (Z * Z)) (o : MVCCObject Z) (id : nat) : MVCCTable tab Z :=
  mkMVCCTable (mkWriteSet 20 ws) (one_key o) id.

Lemma ctx2_wf r h w : length w = 2%nat -> ctx_wf (ctx2 r h w).
Proof. intros Hw. apply ctx_wf_check. destruct w as [|? [|? [|]]]; try done. Qed.

Lemma ctx2_horizon r h w : 0 < h -> horizon_set (ctx2 r h w).
Proof. intros Hh. split; [done|]. exists 8. by split. Qed.

Lemma one_key_wf V txn o : version_wf V o -> older_than txn o -> table_wf V txn (one_key o).
Proof.
  intros Hwf Hold k o' Ho. change ((({[1 := o]} : gmap Z (MVCCObject Z)) !! k) = Some o') in Ho.
  apply lookup_singleton_Some in Ho as [_ <-]. done.
Qed.

Lemma obj1_used i h : used_version obj1 i h -> i = 0%nat /\ h = mkHeader 5 DTS_INF.
Proof. intros [Hh Hb]. by destruct i as [|[|[|]]]; cbn in *; simplify_eq. Qed.

Lemma obj1_wf : version_wf 2 obj1 /\ older_than 20 obj1.
Proof.
  split; [split|].
  - lia.
  - done.
  - done.
  - cbn. lia.
  - intros i h [-> ->]%obj1_used. cbn. unfold DTS_INF. lia.
  - intros i j h k [-> _]%obj1_used [-> _]%obj1_used. done.
  - exists 0%nat, (mkHeader 5 DTS_INF). repeat split.
  - intros i h [-> ->]%obj1_used. cbn. lia.
Qed.

Lemma obj2_used i h : used_version obj2 i h ->
  (i = 0%nat /\ h = mkHeader 3 6) \/ (i = 1%nat /\ h = mkHeader 6 DTS_INF).
Proof. intros [Hh Hb]. destruct i as [|[|[|]]]; cbn in *; simplify_eq; auto. Qed.

Lemma obj2_wf : version_wf 2 obj2 /\ older_than 20 obj2.
Proof.
  split; [split|].
  - lia.
  - done.
  - done.
  - cbn. lia.
  - intros i h [[-> ->]|[-> ->]]%obj2_used; cbn; unfold DTS_INF; lia.
  - intros i j h k [[-> ->]|[-> ->]]%obj2_used [[-> ->]|[-> ->]]%obj2_used; cbn; try done; lia.
  - exists 1%nat, (mkHeader 6 DTS_INF). repeat split.
  - intros i h [[-> ->]|[-> ->]]%obj2_used; cbn; lia.
Qed.

Lemma obj2_full : slots_full 2 obj2.
Proof. intros [|[|]] Hi; [done..|lia]. Qed.

(** The first garbage collection can destroy a running reader's
    snapshot.  Transaction 10 reads at snapshot 5, where key 1 is 30; the
    context's horizon has never been computed.  The commit of transaction 20
    drops that version and the reader finds nothing; had the horizon been
    initialised, the same commit would have waited for the reader. *)
Lemma first_collection_breaks_snapshot :
  let t := writer [(1, 99)] obj2 0 in
  let c := ctx2 5 0 [Active; Active] in
  ctx_wf c /\ reader_at c 5 /\ snapshot (tbl t) 1 5 = Some 30 /\
  (exists t' c', transactionCommit 2 Z.ltb 0 1 20 t c = Ok (SUCCESS, t', c') /\
     snapshot (tbl t') 1 5 = None) /\
  forall fuel, transactionCommit 2 Z.ltb 0 fuel 20 t (ctx2 5 1 [Active; Active]) = Err Waits.
Proof.
  cbv zeta. split_and!.
  - by apply ctx2_wf.
  - exists 0%nat, (mkActiveTx 10 [Active; Active] [5]). by repeat split.
  - reflexivity.
  - eexists _, _. split; [vm_compute; reflexivity|]. reflexivity.
  - intros fuel. unfold transactionCommit.
    change (dedup_writes Z.ltb (ws_set (writeSet (writer [(1, 99)] obj2 0)))) with [(1, 99)].
    cbn [commit_entries]. unfold commit_entry.
    rewrite (tbl_update_fault _ 1 _ _ _ obj2 Waits); [done|reflexivity|].
    unfold commit_update. cbn [fst snd].
    rewrite (wait_free_slot_pinned 2 obj2 20 fuel _ (ctx2 5 5 [Active; Active]) 5); [done| | | | |].
    + apply obj2_wf.
    + apply obj2_full.
    + by apply ctx2_horizon.
    + reflexivity.
    + intros i h [[-> ->]|[-> ->]]%obj2_used; cbn; unfold DTS_INF; lia.
Qed.

Lemma commit_snapshot_isolation_witness :
  exists s t' c', transactionCommit 2 Z.ltb 0 1 20 (writer [(1, 51); (2, 7)] obj1 0) (ctx2 5 1 [Active; Active])
      = Ok (s, t', c') /\
    snapshot (tbl t') 1 5 = Some 50 /\ snapshot (tbl t') 1 20 = Some 51 /\ snapshot (tbl t') 2 20 = Some 7.
Proof.
  eexists _, _, _. split; [vm_compute; reflexivity|].
  match goal with |- snapshot (tbl ?t') _ _ = _ /\ _ =>
    destruct (commit_snapshot_isolation 2 Z.ltb 0 1 20 (writer [(1, 51); (2, 7)] obj1 0) t'
      (ctx2 5 1 [Active; Active]) (ctx2 5 1 [Active; Active]) SUCCESS ltac:(lia) ltac:(unfold DTS_INF; lia)
      (horizon_set_ok _ (ctx2_horizon 5 1 _ ltac:(lia))) (one_key_wf 2 20 obj1 (proj1 obj1_wf) (proj2 obj1_wf))
      ltac:(vm_compute; reflexivity)) as (_ & _ & _ & _ & Hread & Hnew)
  end.
  split; [|split].
  - rewrite Hread; [reflexivity| |lia]. apply protected_set; [apply ctx2_horizon; lia|]. exists 0%nat, (mkActiveTx 10 [Active; Active] [5]). by repeat split.
  - rewrite Hnew by (unfold DTS_INF; lia). reflexivity.
  - rewrite Hnew by (unfold DTS_INF; lia). reflexivity.
Defined.

Lemma repeatable_read_witness :
  exists c1 t' c2,
    mvcc_getByKey 10 1 (writer [(1, 51)] obj1 0) (ctx2 0 1 [Active; Active]) = Ok ((SUCCESS, Some 50), c1) /\
    transactionCommit 2 Z.ltb 0 1 20 (writer [(1, 51)] obj1 0) c1 = Ok (SUCCESS, t', c2) /\
    exists r, mvcc_getByKey 10 1 (writer [(1, 51)] obj1 0) c1 = Ok (r, c1) /\
      mvcc_getByKey 10 1 t' c2 = Ok (r, c2).
Proof.
  eexists _, _, _. split; [vm_compute; reflexivity|]. split; [vm_compute; reflexivity|].
  match goal with |- exists r, _ = Ok (r, ?c1) /\ mvcc_getByKey _ _ ?t' _ = _ =>
    destruct (repeatable_read 2 Z.ltb 0 1 20 8 (writer [(1, 51)] obj1 0) t' (ctx2 0 1 [Active; Active]) c1
      0 (mkActiveTx 10 [Active; Active] [0]) 1 obj1 SUCCESS ltac:(lia)
      (ctx2_wf 0 1 [Active; Active] eq_refl) (ctx2_horizon 0 1 _ ltac:(lia)) ltac:(by split) eq_refl eq_refl
      ltac:(lia) ltac:(unfold DTS_INF; lia) ltac:(discriminate)
      (one_key_wf 2 20 obj1 (proj1 obj1_wf) (proj2 obj1_wf)) eq_refl ltac:(vm_compute; reflexivity)) as [_ H]
  end.
  exact (H 1).
Defined.

Lemma commit_update_waits_or_succeeds_witness :
  (exists o' c', forall fuel, (1 <= fuel)%nat ->
     commit_update 2 fuel 20 99 obj2 (ctx2 7 1 [Active; Active]) = Ok (o', c')) /\
  (forall fuel, commit_update 2 fuel 20 99 obj2 (ctx2 5 1 [Active; Active]) = Err Waits).
Proof.
  split.
  - refine (proj1 (commit_update_waits_or_succeeds 2 20 99 obj2 _ (ctx2 7 7 [Active; Active]) 7
      (proj1 obj2_wf) (proj2 obj2_wf) (ctx2_horizon 7 1 _ ltac:(lia)) ltac:(unfold DTS_INF; lia) eq_refl) _).
    right. exists 0%nat, (mkHeader 3 6). split; [by split|]. cbn. lia.
  - refine (proj2 (commit_update_waits_or_succeeds 2 20 99 obj2 _ (ctx2 5 5 [Active; Active]) 5
      (proj1 obj2_wf) (proj2 obj2_wf) (ctx2_horizon 5 1 _ ltac:(lia)) ltac:(unfold DTS_INF; lia) eq_refl) _ _).
    + apply obj2_full.
    + intros i h [[-> ->]|[-> ->]]%obj2_used; cbn; unfold DTS_INF; lia.
Defined.

Definition group2 (w : list Status) : group tab Z :=
  mkGroup (ctx2 5 1 w) [writer [(1, 51)] obj1 0; writer [(2, 7)] obj1 1].

Lemma precommit_two_tables_witness :
  (exists g', transactionPreCommit 2 Z.ltb 0 1 20 0 (group2 [Active; Active]) = Ok (SUCCESS, g') /\
     g_tables g' = g_tables (group2 [Active; Active])) /\
  exists c' t' u',
    transactionPreCommit 2 Z.ltb 0 1 20 1 (group2 [Commit; Active]) = Ok (SUCCESS, mkGroup c' [u'; t']) /\
    getLastCTS c' 0 = Ok 20.
Proof.
  pose proof (one_key_wf 2 20 obj1 (proj1 obj1_wf) (proj2 obj1_wf)) as Hwf. split.
  - destruct (precommit_two_tables 2 Z.ltb 0 1 0 (group2 [Active; Active]) (writer [(1, 51)] obj1 0) (writer [(2, 7)] obj1 1) 1
      (mkActiveTx 20 [Active; Active] [0])
      ltac:(lia) ltac:(lia) ltac:(by split_and!) (ctx2_wf 5 1 [Active; Active] eq_refl)
      (horizon_set_ok _ (ctx2_horizon 5 1 _ ltac:(lia))) ltac:(by split) eq_refl Hwf Hwf) as [H _].
    eexists. split; [apply H; discriminate|reflexivity].
  - destruct (precommit_two_tables 2 Z.ltb 0 1 1 (group2 [Commit; Active]) (writer [(2, 7)] obj1 1) (writer [(1, 51)] obj1 0) 1
      (mkActiveTx 20 [Commit; Active] [0])
      ltac:(lia) ltac:(lia) ltac:(by split_and!) (ctx2_wf 5 1 [Commit; Active] eq_refl)
      (horizon_set_ok _ (ctx2_horizon 5 1 _ ltac:(lia))) ltac:(by split) eq_refl Hwf Hwf) as [_ H].
    destruct (H eq_refl _ _ _ _ _ _ ltac:(vm_compute; reflexivity) ltac:(vm_compute; reflexivity))
      as (c' & Hrun & _ & Hlast & _).
    exists c'. eexists _, _. split; [exact Hrun|exact Hlast].
Defined.

Lemma rewritten_key_witness :
  find_write 3 (dedup_writes Z.ltb [(1, 51); (3, 9); (3, 4)]) = Some 4.
Proof.
  exact (proj2 (proj2 (proj2 (proj2 (rewritten_key Z.ltb 20 3 9 4 (writer [(1, 51)] obj1 0)
    (ctx2 5 1 [Active; Active]) eq_refl eq_refl)))) eq_refl).
Defined.
End Demo.
