(* ===== verification/MVCCInterleaving.v ===== *)
(** * MVCCInterleaving: a commit that runs beside readers

    The calls of [src/table/MVCCTable.hpp] broken into their shared accesses,
    for one topology group: one writer that begins, fills its write sets, votes
    and commits both tables ([transactionPreCommit], [transactionCommit]), and
    any number of reading transactions ([getByKey]) between its steps.

    A step is a call to the context ([newTx], [setWriteStatus],
    [recalcOldestVisible], [setLastCTS], [removeTx], the accesses to the read
    snapshot) or an access to one version array.  [updateByKey] holds the key's
    bucket while its function runs and [getByKey] copies the array under the
    same lock, so a reader never copies an array the writer is working on
    ([locked]); everything else of the two calls interleaves.  A table is known
    by its id, its position in the group.  The log of published transactions
    ([s_log]) is a history variable: no step reads it.

    What is shown: every read with a snapshot gives that snapshot's value of
    the log, in both tables, whatever the writer has done so far, provided that
    no commit is published between the moment a reader's first call copies its
    array and the moment it stores its snapshot; and why that proviso is
    needed. *)

From S2P Require Import Prelude StateContext Tables MVCC MVCCProtocol.

(** a write: table, key, value *)
Definition entry (R : Type) : Type := nat * Z * R.

(** What the writer still has to do: an iteration of the loop over a write set,
    the clean-up after it, and the end of [transactionPreCommit].  The writes of
    [IPublish] are those the log will show. *)
Inductive instr (R : Type) :=
  | IEntry (e : entry R)
  | IClean (tr : nat)
  | IPublish (ws : list (entry R))
  | ILeave.
Arguments IEntry {R}.
Arguments IClean {R}.
Arguments IPublish {R}.
Arguments ILeave {R}.

(** The writer: none; between [transactionBegin] and its second vote; between
    two iterations; inside the function [updateByKey] runs on the array [o] of
    the entry's key, before the next test of the loop; the same, with the bound
    computed and the clean-up to come. *)
Inductive wphase (R : Type) :=
  | WIdle
  | WBegun (txn : Z)
  | WCommit (txn : Z) (todo : list (instr R))
  | WUpdate (txn : Z) (e : entry R) (todo : list (instr R)) (dPos : Z) (o : MVCCObject R)
  | WCollect (txn : Z) (e : entry R) (todo : list (instr R)) (dPos : Z) (o : MVCCObject R) (oldest : Z).
Arguments WIdle {R}.
Arguments WBegun {R}.
Arguments WCommit {R}.
Arguments WUpdate {R}.
Arguments WCollect {R}.

(** A reader: between calls; holding its copy of an array; the same, with the
    last commit loaded but not yet stored as its snapshot. *)
Inductive rphase (R : Type) :=
  | RReady
  | RCopied (tr : nat) (key : Z) (o : MVCCObject R)
  | RLoaded (tr : nat) (key : Z) (o : MVCCObject R) (last : Z).
Arguments RReady {R}.
Arguments RCopied {R}.
Arguments RLoaded {R}.

(** an answer: table, key, the snapshot it was read at (0: none), the result *)
Record answer (R : Type) := mkAnswer { an_table : nat; an_key : Z; an_at : Z; an_result : Errc * option R }.
Arguments mkAnswer {R}.
Arguments an_table {R}.
Arguments an_key {R}.
Arguments an_at {R}.
Arguments an_result {R}.

Record reader (R : Type) := mkReader { rd_phase : rphase R; rd_answers : list (answer R) }.
Arguments mkReader {R}.
Arguments rd_phase {R}.
Arguments rd_answers {R}.

Record system (T R : Type) := mkSystem {
  s_ctx : ctx;
  s_tables : list (MVCCTable T R);
  s_writer : wphase R;
  s_readers : gmap Z (reader R);
  s_log : list (Z * list (entry R));   (** newest first *)
}.
Arguments mkSystem {T R}.
Arguments s_ctx {T R}.
Arguments s_tables {T R}.
Arguments s_writer {T R}.
Arguments s_readers {T R}.
Arguments s_log {T R}.

(** ** The specification: what a snapshot holds *)

Definition writes_of {R} (ws : list (entry R)) : gmap (nat * Z) R := list_to_map ws.

Fixpoint value_at {R} (log : list (Z * list (entry R))) (tr : nat) (key ts : Z) : option R :=
  match log with
  | [] => None
  | (txn, ws) :: rest =>
      if txn <=? ts then
        match writes_of ws !! (tr, key) with Some v => Some v | None => value_at rest tr key ts end
      else value_at rest tr key ts
  end.

(** ** The steps *)

Inductive label := LBegin | LPublish | LOther.

Section steps.
Context {T R : Type} (VERSIONS : nat) (ltR : R -> R -> bool) (dflt : R).
Context {ops : TableOps T Z (MVCCObject R)}.

(** every stream of the transaction begins on its table *)
Fixpoint begin_tables (txn : Z) (l : list (MVCCTable T R)) (c : ctx) : list (MVCCTable T R) * ctx :=
  match l with
  | [] => ([], c)
  | t :: rest =>
      let '(t, c) := transactionBegin txn t c in
      let '(rest, c) := begin_tables txn rest c in
      (t :: rest, c)
  end.

Definition table_writes (l : list (MVCCTable T R)) (tr : nat) : list (entry R) :=
  match l !! tr with
  | Some t => (fun e => (tr, e.1, e.2)) <$> dedup_writes ltR (ws_set (writeSet t))
  | None => []
  end.

Definition other_table (tr : nat) : nat := if Nat.eqb tr 0 then 1%nat else 0%nat.

(** the second vote: this table, the other one, the publication *)
Definition commit_program (l : list (MVCCTable T R)) (tr : nat) : list (instr R) :=
  (IEntry <$> table_writes l tr) ++ [IClean tr] ++
  (IEntry <$> table_writes l (other_table tr)) ++ [IClean (other_table tr)] ++
  [IPublish (table_writes l tr ++ table_writes l (other_table tr)); ILeave].

Definition set_tbl (l : list (MVCCTable T R)) (tr : nat) (t : MVCCTable T R) (tb : T) : list (MVCCTable T R) :=
  <[tr := mkMVCCTable (writeSet t) tb (tblID t)]> l.

Definition locked (w : wphase R) (tr : nat) (key : Z) : bool :=
  match w with
  | WUpdate _ e _ _ _ | WCollect _ e _ _ _ _ => bool_decide (e.1 = (tr, key))
  | _ => false
  end.

Definition answered (rd : reader R) (tr : nat) (key ts : Z) (r : Errc * option R) : reader R :=
  mkReader RReady (mkAnswer tr key ts r :: rd_answers rd).

(** the end of [getByKey]: the version of the copy that is valid at the snapshot *)
Definition read_copy (o : MVCCObject R) (ts : Z) : result (Errc * option R) :=
  let pos := getCurrent o ts in
  if pos =? -1 then Ok (NOT_FOUND, None)
  else v ← get_at (values o) (Z.to_nat pos); Ok (SUCCESS, Some v).

Inductive wstep : label -> system T R -> system T R -> Prop :=
  | w_begin c l rs log txn c1 l' c' :
      newTx c = Ok (txn, c1) -> begin_tables txn l c1 = (l', c') ->
      wstep LBegin (mkSystem c l WIdle rs log) (mkSystem c' l' (WBegun txn) rs log)
  | w_insert c l rs log txn tr key v t :
      l !! tr = Some t ->
      wstep LOther (mkSystem c l (WBegun txn) rs log)
        (mkSystem c (<[tr := (mvcc_insert txn key v t).2]> l) (WBegun txn) rs log)
  | w_vote c l rs log txn tr c' s :
      (tr < MAX_STATES_TOPO)%nat -> setWriteStatus c txn tr Commit = Ok c' -> getWriteStatus c' txn (other_table tr) = Ok s ->
      wstep LOther (mkSystem c l (WBegun txn) rs log)
        (mkSystem c' l (if decide (s = Commit) then WCommit txn (commit_program l tr) else WBegun txn) rs log)
  | w_fresh c l rs log txn tr key v todo t o :
      l !! tr = Some t -> tbl_get (tbl t) key = None -> commit_fresh VERSIONS dflt txn v = Ok o ->
      wstep LOther (mkSystem c l (WCommit txn (IEntry (tr, key, v) :: todo)) rs log)
        (mkSystem c (set_tbl l tr t (tbl_insert key o (tbl t))) (WCommit txn todo) rs log)
  | w_update c l rs log txn tr key v todo t o :
      l !! tr = Some t -> tbl_get (tbl t) key = Some o ->
      wstep LOther (mkSystem c l (WCommit txn (IEntry (tr, key, v) :: todo)) rs log)
        (mkSystem c l (WUpdate txn (tr, key, v) todo (getCurrent o txn) o) rs log)
  | w_horizon c l rs log txn e todo dPos o oldest c' :
      getFreePos (versionSlots o) > Z.of_nat VERSIONS - 1 -> recalcOldestVisible txn c = Ok (oldest, c') ->
      wstep LOther (mkSystem c l (WUpdate txn e todo dPos o) rs log)
        (mkSystem c' l (WCollect txn e todo dPos o oldest) rs log)
  | w_collect c l rs log txn e todo dPos o oldest :
      wstep LOther (mkSystem c l (WCollect txn e todo dPos o oldest) rs log)
        (mkSystem c l (WUpdate txn e todo dPos (cleanUpVersions oldest o)) rs log)
  (* the function [f] given to [updateByKey] has turned the array [o0] of the
     key into [o'] *)
  | w_install c l rs log txn tr key v todo dPos o o' t tb (f : MVCCObject R -> ctx -> result (MVCCObject R * ctx)) o0 s s' :
      getFreePos (versionSlots o) <= Z.of_nat VERSIONS - 1 ->
      newEntry txn (getFreePos (versionSlots o)) dPos v o = Ok o' ->
      l !! tr = Some t -> tbl_get (tbl t) key = Some o0 -> f o0 s = Ok (o', s') ->
      tbl_update key f (tbl t) s = Ok (1, tb, s') ->
      wstep LOther (mkSystem c l (WUpdate txn (tr, key, v) todo dPos o) rs log)
        (mkSystem c (set_tbl l tr t tb) (WCommit txn todo) rs log)
  | w_clean c l rs log txn tr todo t :
      l !! tr = Some t ->
      wstep LOther (mkSystem c l (WCommit txn (IClean tr :: todo)) rs log)
        (mkSystem c (<[tr := mkMVCCTable (ws_clean (writeSet t)) (tbl t) (tblID t)]> l) (WCommit txn todo) rs log)
  | w_publish c l rs log txn ws todo c' :
      setLastCTS 0 txn c = Ok c' ->
      wstep LPublish (mkSystem c l (WCommit txn (IPublish ws :: todo)) rs log)
        (mkSystem c' l (WCommit txn todo) rs ((txn, ws) :: log))
  | w_leave c l rs log txn c' :
      removeTx txn c = Ok c' ->
      wstep LOther (mkSystem c l (WCommit txn [ILeave]) rs log) (mkSystem c' l WIdle rs log).

Inductive rstep : label -> system T R -> system T R -> Prop :=
  | r_begin c l w rs log txn c' :
      newTx c = Ok (txn, c') ->
      rstep LBegin (mkSystem c l w rs log) (mkSystem c' l w (<[txn := mkReader RReady []]> rs) log)
  | r_missing c l w rs log txn rd tr key t ts :
      rs !! txn = Some rd -> rd_phase rd = RReady -> l !! tr = Some t -> tbl_get (tbl t) key = None ->
      getReadCTS c txn 0 = Ok ts ->
      rstep LOther (mkSystem c l w rs log)
        (mkSystem c l w (<[txn := answered rd tr key ts (NOT_FOUND, None)]> rs) log)
  | r_copy c l w rs log txn rd tr key t o :
      rs !! txn = Some rd -> rd_phase rd = RReady -> l !! tr = Some t -> tbl_get (tbl t) key = Some o ->
      locked w tr key = false ->
      rstep LOther (mkSystem c l w rs log)
        (mkSystem c l w (<[txn := mkReader (RCopied tr key o) (rd_answers rd)]> rs) log)
  | r_read c l w rs log txn rd tr key o ts r :
      rs !! txn = Some rd -> rd_phase rd = RCopied tr key o -> getReadCTS c txn 0 = Ok ts -> ts <> 0 ->
      read_copy o ts = Ok r ->
      rstep LOther (mkSystem c l w rs log) (mkSystem c l w (<[txn := answered rd tr key ts r]> rs) log)
  | r_load c l w rs log txn rd tr key o last :
      rs !! txn = Some rd -> rd_phase rd = RCopied tr key o -> getReadCTS c txn 0 = Ok 0 ->
      getLastCTS c 0 = Ok last ->
      rstep LOther (mkSystem c l w rs log)
        (mkSystem c l w (<[txn := mkReader (RLoaded tr key o last) (rd_answers rd)]> rs) log)
  | r_store c l w rs log txn rd tr key o last c' r :
      rs !! txn = Some rd -> rd_phase rd = RLoaded tr key o last -> setReadCTS c txn 0 last = Ok c' ->
      read_copy o last = Ok r ->
      rstep LOther (mkSystem c l w rs log) (mkSystem c' l w (<[txn := answered rd tr key last r]> rs) log)
  | r_end c l w rs log txn rd c' :
      rs !! txn = Some rd -> rd_phase rd = RReady -> removeTx txn c = Ok c' ->
      rstep LOther (mkSystem c l w rs log) (mkSystem c' l w (delete txn rs) log).

Definition step (a : label) (x y : system T R) : Prop := wstep a x y \/ rstep a x y.

(** a reader between the copy of its first array and the store of its snapshot *)
Definition first_read_open (x : system T R) : Prop :=
  exists txn rd, s_readers x !! txn = Some rd /\
    match rd_phase rd with
    | RReady => False
    | RCopied _ _ _ => getReadCTS (s_ctx x) txn 0 = Ok 0
    | RLoaded _ _ _ _ => True
    end.

(** the executions considered: ids do not wrap around, and no commit is
    published while a first read is open *)
Definition allowed (a : label) (x : system T R) : Prop :=
  match a with
  | LBegin => nextTxID (s_ctx x) + 1 < 2^64
  | LPublish => ~ first_read_open x
  | LOther => True
  end.

Definition orderly (x y : system T R) : Prop := exists a, step a x y /\ allowed a x.
Definition any_step (x y : system T R) : Prop := exists a, step a x y.

End steps.

(** ** Transactions in the context *)

Definition tx_at (c : ctx) (txn : Z) (a : ActiveTx) : Prop := exists pos, live_at c pos a /\ at_id a = txn.

Lemma tx_at_unique c txn a b : ctx_wf c -> tx_at c txn a -> tx_at c txn b -> a = b.
Proof.
  intros Hwf (p & [Hpb Hp] & Ha) (q & [Hqb Hq] & Hb).
  assert (p = q) as ->; [|congruence].
  apply (wf_unique c Hwf p q a b); [done|done|congruence|]. by apply (wf_live c Hwf p).
Qed.

Lemma tx_at_next c txn a : ctx_wf c -> tx_at c txn a -> 0 < txn < nextTxID c.
Proof.
  intros Hwf (p & [Hb Hp] & <-). pose proof (ctx_shape c p a Hwf Hp) as (_ & _ & ?).
  pose proof (wf_live c Hwf p a Hb Hp). lia.
Qed.

(** the read snapshot of a transaction is the only element of its read array *)
Lemma tx_at_read c txn a : ctx_wf c -> tx_at c txn a -> at_read a = [read0 a].
Proof.
  intros Hwf (p & [_ Hp] & _). destruct (ctx_shape c p a Hwf Hp) as (_ & Hr & _).
  unfold read0. by destruct (at_read a) as [|x [|]].
Qed.

Lemma getReadCTS_tx c txn a : ctx_wf c -> tx_at c txn a -> getReadCTS c txn 0 = Ok (read0 a).
Proof.
  intros Hwf Hat. pose proof (tx_at_read c txn a Hwf Hat) as Hr. destruct Hat as (p & Hp & <-).
  by rewrite (getReadCTS_at c p a 0 Hwf Hp), Hr.
Qed.

Lemma reader_at_tx c ts : reader_at c ts <-> exists txn a, tx_at c txn a /\ read0 a = ts /\ ts <> 0 /\ ts < DTS_INF.
Proof.
  split.
  - intros (p & a & Ha & Hr). exists (at_id a), a. split; [by exists p|done].
  - intros (txn & a & (p & Ha & _) & Hr). by exists p, a.
Qed.

(** What the context operations do to the other transactions: [c'] has the
    transactions of [c] except [txn], and nothing else but [txn] with the read
    snapshot [r]. *)
Record only_tx (txn r : Z) (c c' : ctx) : Prop := {
  ot_wf : ctx_wf c';
  ot_keep : forall t a, t <> txn -> tx_at c t a -> tx_at c' t a;
  ot_back : forall t a, tx_at c' t a -> (t <> txn /\ tx_at c t a) \/ (t = txn /\ read0 a = r);
  ot_topo : topoGrps c' = topoGrps c;
  ot_next : nextTxID c <= nextTxID c';
  ot_old : oldestVisibleVersion c' = oldestVisibleVersion c;
}.

Lemma only_tx_last txn r c c' : only_tx txn r c c' -> getLastCTS c' 0 = getLastCTS c 0.
Proof. intros H. unfold getLastCTS. by rewrite (ot_topo _ _ _ _ H). Qed.

Lemma only_tx_readers txn r c c' ts : only_tx txn r c c' -> reader_at c' ts -> reader_at c ts \/ ts = r.
Proof.
  intros H (t & a & Hat & <- & Hnz & Hlt)%reader_at_tx.
  destruct (ot_back _ _ _ _ H t a Hat) as [[_ Ha]|[_ Hr]]; [left|by right].
  apply reader_at_tx. by exists t, a.
Qed.

Lemma newTx_only c txn c' : ctx_wf c -> nextTxID c + 1 < 2^64 -> newTx c = Ok (txn, c') ->
  only_tx txn 0 c c' /\ txn = nextTxID c /\ nextTxID c' = txn + 1 /\
  exists a, tx_at c' txn a /\ read0 a = 0.
Proof.
  intros Hwf Hov Hnew. destruct (decide (usedSlots c = UINT64_MAX)) as [Hf|Hf].
  { unfold newTx, getSetFreePos in Hnew. cbn [getSetFreePos_loop usedSlots with_nextTxID] in Hnew. by rewrite Hf in Hnew. }
  destruct (newTx_unfold c Hwf Hf) as (pos & (Hr & Hfree & _) & Heq). rewrite Heq in Hnew. injection Hnew as <- <-.
  set (new := mkActiveTx _ _ _). set (c' := with_slots _ _ _).
  assert (ctx_wf c') as Hwf' by (apply claim_slot_wf; (done || lia)).
  assert (nextTxID c' = nextTxID c + 1) as Hn by (cbn; rewrite u64_small; [done|pose proof (wf_next c Hwf); word_lia]).
  assert (forall p a, live_at c' p a <-> (p <> pos /\ live_at c p a) \/ (p = pos /\ a = new)) as Hlive.
  { intros p a. unfold live_at. cbn. rewrite set_bit_testbit by lia.
    destruct (decide (p = pos)) as [->|Hne].
    - rewrite list_lookup_insert_eq by (rewrite (wf_len c Hwf); lia). rewrite bool_decide_eq_true_2 by done. naive_solver.
    - rewrite list_lookup_insert_ne by done. rewrite bool_decide_eq_false_2 by lia. simpl. naive_solver. }
  assert (forall p a, live_at c p a -> p <> pos) as Hnpos by (intros p a [Hb _] ->; congruence).
  split; [split|split; [done|split; [done|]]].
  - done.
  - intros t a _ (p & Hp & Ha). exists p. split; [|done]. apply Hlive. left. split; [by eapply Hnpos|done].
  - intros t a (p & Hp & Ha). apply Hlive in Hp as [[Hne Hp]|[-> ->]].
    + left. assert (tx_at c t a) as Hat by by exists p. split; [|done].
      pose proof (tx_at_next c t a Hwf Hat). lia.
    + by right.
  - done.
  - lia.
  - done.
  - exists new. split; [|done]. exists pos. split; [|done]. apply Hlive. by right.
Qed.

(** overwriting the read array and the write flags of a running transaction *)
Lemma slot_only c pos a w r : ctx_wf c -> live_at c pos a -> length w = MAX_STATES_TOPO ->
  let c' := with_slots (usedSlots c) (<[pos := mkActiveTx (at_id a) w [r]]> (activeTxs c)) c in
  only_tx (at_id a) r c c' /\ tx_at c' (at_id a) (mkActiveTx (at_id a) w [r]).
Proof.
  intros Hwf [Hb Hl] Hw c'. pose proof (lookup_lt_Some _ _ _ Hl) as Hlt.
  assert (ctx_wf c') as Hwf' by by apply update_slot_wf.
  assert (forall p b, p <> pos -> live_at c' p b <-> live_at c p b) as Hother.
  { intros p b Hne. unfold live_at. cbn. by rewrite list_lookup_insert_ne. }
  assert (live_at c' pos (mkActiveTx (at_id a) w [r])) as Hnew by (split; [done|by apply list_lookup_insert_eq]).
  split; [split; try done|].
  - intros t b Hne (p & Hp & Hid). exists p. split; [|done]. apply Hother; [|done].
    intros ->. destruct Hp as [_ Hp]. congruence.
  - intros t b (p & Hp & Hid). destruct (decide (p = pos)) as [->|Hne].
    + right. destruct Hp as [_ Hp], Hnew as [_ Hnew]. assert (b = mkActiveTx (at_id a) w [r]) as -> by congruence. done.
    + left. apply Hother in Hp; [|done]. split; [|by exists p].
      intros ->. destruct Hp as [Hpb Hp]. apply Hne.
      apply (wf_unique c Hwf p pos b a); [done..|]. by apply (wf_live c Hwf p).
  - by exists pos.
Qed.

Lemma setReadCTS_only c txn a r c' : ctx_wf c -> tx_at c txn a -> setReadCTS c txn 0 r = Ok c' ->
  only_tx txn r c c' /\ exists b, tx_at c' txn b /\ read0 b = r.
Proof.
  intros Hwf (p & Hp & <-) Hset. rewrite (setReadCTS_at c p a r Hwf Hp) in Hset. injection Hset as <-.
  destruct (slot_only c p a (at_write a) r Hwf Hp) as [H1 H2].
  { by apply (ctx_shape c p a Hwf), Hp. }
  split; [done|]. eexists. by split; [exact H2|].
Qed.

Lemma setWriteStatus_only c txn a tr s c' : ctx_wf c -> tx_at c txn a -> (tr < MAX_STATES_TOPO)%nat ->
  setWriteStatus c txn tr s = Ok c' ->
  only_tx txn (read0 a) c c' /\ exists b, tx_at c' txn b /\ read0 b = read0 a.
Proof.
  intros Hwf Hat Htr Hset. pose proof (tx_at_read c txn a Hwf Hat) as Hr. destruct Hat as (p & Hp & <-).
  rewrite (setWriteStatus_at c p a tr s Hwf Hp Htr) in Hset. injection Hset as <-. rewrite Hr.
  destruct (slot_only c p a (<[tr:=s]> (at_write a)) (read0 a) Hwf Hp) as [H1 H2].
  { rewrite length_insert. by apply (ctx_shape c p a Hwf), Hp. }
  split; [done|]. eexists. by split; [exact H2|].
Qed.

(** a removed transaction leaves no trace among the running ones *)
Lemma removeTx_only c txn a c' : ctx_wf c -> tx_at c txn a -> removeTx txn c = Ok c' ->
  only_tx txn 0 c c' /\ forall b, ~ tx_at c' txn b.
Proof.
  intros Hwf (p & Hp & <-) Hrem. rewrite (removeTx_unfold c p a Hwf Hp) in Hrem. injection Hrem as <-.
  destruct (slot_only c p a (at_write a) 0 Hwf Hp) as [[Hwf1 Hkeep Hback Htopo Hnext Hold] H2].
  { by apply (ctx_shape c p a Hwf), Hp. }
  set (c1 := with_slots (usedSlots c) _ c) in *. set (c' := with_slots _ _ c).
  assert (forall q b, live_at c' q b <-> q <> p /\ live_at c1 q b) as Hlive.
  { intros q b. unfold live_at. cbn. rewrite clear_bit_testbit by lia.
    destruct (decide (q = p)) as [->|Hne]; [rewrite bool_decide_eq_true_2 by done|rewrite bool_decide_eq_false_2 by lia];
      simpl; naive_solver. }
  assert (forall b, ~ tx_at c' (at_id a) b) as Hgone.
  { intros b (q & [Hq Hl]%Hlive & Hb). apply Hq. destruct H2 as (p' & Hp' & _).
    destruct Hp as [Hpb Hpl]. pose proof (lookup_lt_Some _ _ _ Hpl) as Hlt.
    apply (wf_unique c1 Hwf1 q p b (mkActiveTx (at_id a) (at_write a) [0])); [apply Hl| |done|].
    - by apply list_lookup_insert_eq.
    - apply (wf_live c1 Hwf1 q); apply Hl. }
  split; [|done]. split; try done.
  - apply (clear_slot_wf c1); [lia|done].
  - intros t b Hne Hat. destruct (Hkeep t b Hne Hat) as (q & Hq & Hb). exists q. split; [|done].
    apply Hlive. split; [|done]. intros ->. destruct Hp as [_ Hp]. destruct Hq as [_ Hq]. cbn in Hq.
    rewrite list_lookup_insert_eq in Hq by (by eapply lookup_lt_Some). injection Hq as <-. by apply Hne.
  - intros t b (q & [Hq Hl]%Hlive & Hb). apply Hback. by exists q.
Qed.

(** ** The log and the version arrays *)

Section log.
Context {R : Type}.

Lemma value_at_older (log : list (Z * list (entry R))) txn ws tr key ts :
  ts < txn -> value_at ((txn, ws) :: log) tr key ts = value_at log tr key ts.
Proof. intros Hlt. simpl. by rewrite (proj2 (Z.leb_gt _ _)) by lia. Qed.

Lemma value_at_later (log : list (Z * list (entry R))) last tr key ts :
  Forall (fun e => e.1 <= last) log -> last <= ts -> value_at log tr key ts = value_at log tr key last.
Proof.
  intros Hall Hts. induction Hall as [|[txn ws] log Hle _ IH]; [done|]. simpl in *.
  by rewrite !(proj2 (Z.leb_le txn _)), IH by lia.
Qed.

Lemma writes_snoc (ws : list (entry R)) e p :
  e.1 ∉ ws.*1 -> writes_of (ws ++ [e]) !! p = if decide (e.1 = p) then Some e.2 else writes_of ws !! p.
Proof.
  intros Hnew. unfold writes_of. destruct e as [q v].
  pose proof (list_to_map_snoc (M:=gmap (nat * Z)) ws q v Hnew) as Heq. unfold entry. rewrite Heq.
  case_decide as Hp; cbn in *; [subst; by rewrite lookup_insert_eq|by rewrite lookup_insert_ne].
Qed.

(** after the last commit an array does not change with time *)
Lemma visible_later V (o : MVCCObject R) last ts :
  version_wf V o -> older_than (last + 1) o -> last <= ts < DTS_INF -> visible o ts = visible o last.
Proof.
  intros Hwf Hold Hts. destruct (vw_live V o Hwf) as (d & hd & Hd & Hinf).
  pose proof (Hold d hd Hd). unfold visible.
  by rewrite !(getCurrent_valid V o _ d hd) by first [done | lia].
Qed.

Lemma read_copy_visible V (o : MVCCObject R) ts : version_wf V o -> read_copy o ts = Ok (read_result (visible o ts)).
Proof. intros Hwf. exact (visible_value V o ts Hwf). Qed.
End log.

(** ** The invariant *)

Section invariant.
Context {T R : Type} (V : nat) (ltR : R -> R -> bool) (dflt : R).
Context {ops : TableOps T Z (MVCCObject R)} {laws : TableLaws T Z (MVCCObject R)}.
Context {order : TupleOrder ltR}.
Implicit Types (o : MVCCObject R) (log : list (Z * list (entry R))) (w : wphase R) (P : Z -> Prop).

(** the snapshots that must survive: those of running readers and the one the
    next reader will take *)
Definition kept (c : ctx) (last ts : Z) : Prop := reader_at c ts \/ ts = last.

(** the array of a key: not yet written by transaction [txn], or holding its
    value [v] for every snapshot from [txn] on *)
Definition entry_ok P log (last txn : Z) (tr : nat) (key : Z) (p : option R) (x : option (MVCCObject R)) : Prop :=
  match x, p with
  | None, None => forall ts, value_at log tr key ts = None
  | None, Some _ => False
  | Some o, None => version_wf V o /\ older_than (last + 1) o /\ forall ts, P ts -> visible o ts = value_at log tr key ts
  | Some o, Some v => version_wf V o /\ older_than (txn + 1) o /\ (forall ts, P ts -> visible o ts = value_at log tr key ts) /\
      forall ts, txn <= ts < DTS_INF -> visible o ts = Some v
  end.

(** the array the writer works on, whose live version is [d] *)
Definition working P log (last : Z) (tr : nat) (key dPos : Z) (o : MVCCObject R) : Prop :=
  version_wf V o /\ older_than (last + 1) o /\ (forall ts, P ts -> visible o ts = value_at log tr key ts) /\
  exists (d : nat) hd, dPos = Z.of_nat d /\ used_version o d hd /\ h_dts hd = DTS_INF.

Definition in_loop (i : instr R) : Prop := match i with IEntry _ | IClean _ => True | _ => False end.
Definition entries (l : list (instr R)) : list (entry R) := omap (fun i => match i with IEntry e => Some e | _ => None end) l.

(** [progress w done]: how far the writer is, having installed [done] *)
Inductive progress P log (last : Z) : wphase R -> list (entry R) -> Prop :=
  | p_idle : progress P log last WIdle []
  | p_begun txn : last < txn -> progress P log last (WBegun txn) []
  | p_commit txn pre ws done :
      last < txn -> Forall in_loop pre -> NoDup ws.*1 -> ws = done ++ entries pre ->
      progress P log last (WCommit txn (pre ++ [IPublish ws; ILeave])) done
  | p_leave txn : progress P log last (WCommit txn [ILeave]) []
  | p_update txn tr key v pre ws done dPos o :
      last < txn -> Forall in_loop pre -> NoDup ws.*1 -> ws = done ++ (tr, key, v) :: entries pre ->
      working P log last tr key dPos o ->
      progress P log last (WUpdate txn (tr, key, v) (pre ++ [IPublish ws; ILeave]) dPos o) done
  | p_collect txn tr key v pre ws done dPos o r :
      last < txn -> Forall in_loop pre -> NoDup ws.*1 -> ws = done ++ (tr, key, v) :: entries pre ->
      working P log last tr key dPos o -> r < DTS_INF -> (forall ts, P ts -> r <= ts) ->
      progress P log last (WCollect txn (tr, key, v) (pre ++ [IPublish ws; ILeave]) dPos o r) done.

Definition wtxn w : option Z :=
  match w with
  | WIdle => None
  | WBegun t | WCommit t _ | WUpdate t _ _ _ _ | WCollect t _ _ _ _ _ => Some t
  end.

Definition owner_ok (c : ctx) w : Prop :=
  match wtxn w with Some t => exists a, tx_at c t a /\ read0 a = 0 | None => True end.

Definition answer_ok log (r : Z) (an : answer R) : Prop :=
  an_at an <> 0 -> an_at an = r /\ an_result an = read_result (value_at log (an_table an) (an_key an) (an_at an)).

Definition phase_ok log (last r : Z) (p : rphase R) : Prop :=
  match p with
  | RReady => True
  | RCopied tr key o => version_wf V o /\ let ts := if r =? 0 then last else r in visible o ts = value_at log tr key ts
  | RLoaded tr key o l => r = 0 /\ l = last /\ version_wf V o /\ visible o last = value_at log tr key last
  end.

Definition reader_inv (c : ctx) log (last : Z) w (txn : Z) (rd : reader R) : Prop :=
  wtxn w <> Some txn /\ exists a, tx_at c txn a /\ Forall (answer_ok log (read0 a)) (rd_answers rd) /\
    phase_ok log last (read0 a) (rd_phase rd).

Record sys_inv (last : Z) (done : list (entry R)) (x : system T R) : Prop := {
  si_ctx : ctx_wf (s_ctx x);
  si_horizon : 0 < oldestVisibleVersion (s_ctx x);
  si_last : getLastCTS (s_ctx x) 0 = Ok last;
  si_range : 0 < last < nextTxID (s_ctx x);
  si_log : Forall (fun e => e.1 <= last) (s_log x);
  si_snap : forall txn a, tx_at (s_ctx x) txn a -> read0 a <= last;
  si_owner : owner_ok (s_ctx x) (s_writer x);
  si_progress : progress (kept (s_ctx x) last) (s_log x) last (s_writer x) done;
  si_tables : forall tr t key, s_tables x !! tr = Some t ->
    entry_ok (kept (s_ctx x) last) (s_log x) last (default 0 (wtxn (s_writer x))) tr key
      (writes_of done !! (tr, key)) (tbl_get (tbl t) key);
  si_readers : forall txn rd, s_readers x !! txn = Some rd ->
    reader_inv (s_ctx x) (s_log x) last (s_writer x) txn rd;
}.

(** *** Frame lemmas *)

Lemma working_mono P P' log last tr key d o : (forall ts, P' ts -> P ts) ->
  working P log last tr key d o -> working P' log last tr key d o.
Proof. intros HP (H1 & H2 & H3 & H4). split_and!; [done|done| |done]. intros ts Hts. by apply H3, HP. Qed.

Lemma progress_mono P P' log last w done : (forall ts, P' ts -> P ts) ->
  progress P log last w done -> progress P' log last w done.
Proof.
  intros HP []; econstructor; eauto using working_mono.
Qed.

Lemma entry_ok_mono P P' log last txn tr key p x : (forall ts, P' ts -> P ts) ->
  entry_ok P log last txn tr key p x -> entry_ok P' log last txn tr key p x.
Proof. intros HP. unfold entry_ok. destruct x, p; naive_solver. Qed.

Lemma reader_inv_keep c c' log last w w' txn t r rd : only_tx txn r c c' -> t <> txn -> wtxn w' <> Some t ->
  reader_inv c log last w t rd -> reader_inv c' log last w' t rd.
Proof.
  intros Hot Hne Hw (_ & a & Ha & Hrest). split; [done|]. exists a. split; [|done]. by apply (ot_keep _ _ _ _ Hot).
Qed.

Lemma kept_back txn r c c' last ts : only_tx txn r c c' -> r = 0 \/ r = last -> kept c' last ts -> kept c last ts.
Proof.
  intros Hot Hr [Hts| ->]; [|by right]. pose proof Hts as (? & ? & _ & _ & Hnz & _).
  destruct (only_tx_readers _ _ _ _ _ Hot Hts) as [?| ->]; [by left|]. destruct Hr; [done|by right].
Qed.

(** a step that concerns one transaction: the writer's or a reader's *)
Lemma inv_frame last done c c' l w w' rs rs' log txn r :
  sys_inv last done (mkSystem c l w rs log) -> only_tx txn r c c' -> r = 0 \/ r = last ->
  owner_ok c' w' -> progress (kept c last) log last w' done ->
  (done = [] \/ wtxn w' = wtxn w) ->
  (forall t rd, t <> txn -> rs' !! t = Some rd -> rs !! t = Some rd /\ wtxn w' <> Some t) ->
  (forall rd, rs' !! txn = Some rd -> reader_inv c' log last w' txn rd) ->
  sys_inv last done (mkSystem c' l w' rs' log).
Proof.
  intros [H1 H2 H3 H4 H5 H6 H7 H8 H9 H10] Hot Hr Hown Hprog Hsame Hrs Htxn. cbn in *.
  pose proof (fun ts => kept_back txn r c c' last ts Hot Hr) as Hkept.
  split; cbn.
  - apply Hot.
  - by rewrite (ot_old _ _ _ _ Hot).
  - by rewrite (only_tx_last _ _ _ _ Hot).
  - pose proof (ot_next _ _ _ _ Hot). lia.
  - done.
  - intros t a Ha. destruct (ot_back _ _ _ _ Hot t a Ha) as [[_ Ha']|[_ ->]]; [by eapply H6|]. lia.
  - done.
  - by eapply progress_mono.
  - intros tr t key Ht. eapply entry_ok_mono; [exact Hkept|].
    specialize (H9 tr t key Ht). destruct Hsame as [-> | ->]; [|done].
    cbn [writes_of list_to_map foldr] in *. rewrite lookup_empty in *. by destruct (tbl_get (tbl t) key).
  - intros t rd Hrd. destruct (decide (t = txn)) as [->|Hne]; [by apply Htxn|].
    destruct (Hrs t rd Hne Hrd) as [Hrd' Hw]. eapply reader_inv_keep; [done..|]. by apply H10.
Qed.

(** a step of the writer that leaves the context alone *)
Lemma inv_tables last done done' c l l' w w' rs log :
  sys_inv last done (mkSystem c l w rs log) -> wtxn w' = wtxn w ->
  progress (kept c last) log last w' done' ->
  (forall tr t key, l' !! tr = Some t -> entry_ok (kept c last) log last (default 0 (wtxn w)) tr key
      (writes_of done' !! (tr, key)) (tbl_get (tbl t) key)) ->
  sys_inv last done' (mkSystem c l' w' rs log).
Proof.
  intros [H1 H2 H3 H4 H5 H6 H7 H8 H9 H10] Hw Hprog Htab. cbn in *. split; cbn; try done.
  - unfold owner_ok. by rewrite Hw.
  - by rewrite Hw.
  - intros t rd Hrd. destruct (H10 t rd Hrd) as [Hne Ha]. split; [by rewrite Hw|done].
Qed.
(** *** Readers *)

Lemma inv_reader last done c l w rs log txn rd :
  sys_inv last done (mkSystem c l w rs log) -> reader_inv c log last w txn rd ->
  sys_inv last done (mkSystem c l w (<[txn := rd]> rs) log).
Proof.
  intros [H1 H2 H3 H4 H5 H6 H7 H8 H9 H10] Hrd. split; try done. cbn in *.
  intros t rd' [[<- <-]|[_ Ht]]%lookup_insert_Some; [done|by apply H10].
Qed.

Lemma answered_ok log r tr key ts res rd :
  (ts <> 0 -> ts = r /\ res = read_result (value_at log tr key ts)) ->
  Forall (answer_ok log r) (rd_answers rd) -> Forall (answer_ok log r) (rd_answers (answered rd tr key ts res)).
Proof. intros Hr Hall. by constructor. Qed.

(** the array a reader may copy shows what the log says, at every snapshot
    that must survive *)
Lemma copied_ok last done c l w rs log tr t key o ts :
  sys_inv last done (mkSystem c l w rs log) -> l !! tr = Some t -> tbl_get (tbl t) key = Some o ->
  kept c last ts -> version_wf V o /\ visible o ts = value_at log tr key ts.
Proof.
  intros Hinv Ht Ho Hts. pose proof (si_tables _ _ _ Hinv tr t key Ht) as He. cbn in He. rewrite Ho in He.
  unfold entry_ok in He. destruct (writes_of done !! (tr, key)).
  - destruct He as (Hwf & _ & Hv & _). split; [done|by apply Hv].
  - destruct He as (Hwf & _ & Hv). split; [done|by apply Hv].
Qed.

Lemma absent_ok last done c l w rs log tr t key ts :
  sys_inv last done (mkSystem c l w rs log) -> l !! tr = Some t -> tbl_get (tbl t) key = None ->
  value_at log tr key ts = None.
Proof.
  intros Hinv Ht Ho. pose proof (si_tables _ _ _ Hinv tr t key Ht) as He. cbn in He. rewrite Ho in He.
  unfold entry_ok in He. by destruct (writes_of done !! (tr, key)).
Qed.

(** the snapshot a transaction reads at, or is about to take *)
Lemma snapshot_kept last done x txn a : sys_inv last done x -> tx_at (s_ctx x) txn a ->
  kept (s_ctx x) last (if read0 a =? 0 then last else read0 a).
Proof.
  intros Hinv Ha. destruct (Z.eqb_spec (read0 a) 0) as [_|Hnz]; [by right|]. left.
  apply reader_at_tx. exists txn, a. split_and!; [done|done|done|].
  pose proof (si_snap _ _ _ Hinv txn a Ha). pose proof (si_range _ _ _ Hinv).
  pose proof (wf_next _ (si_ctx _ _ _ Hinv)). unfold DTS_INF. lia.
Qed.

Lemma owner_keep c c' w txn r : only_tx txn r c c' -> wtxn w <> Some txn -> owner_ok c w -> owner_ok c' w.
Proof.
  intros Hot Hne. unfold owner_ok. destruct (wtxn w) as [t|]; [|done]. intros (d & Hd & Hz).
  exists d. split; [|done]. apply (ot_keep _ _ _ _ Hot); [|done]. congruence.
Qed.

Lemma rstep_inv a x y last done : sys_inv last done x -> allowed a x -> rstep a x y -> sys_inv last done y.
Proof.
  intros Hinv Hall Hstep. pose proof (si_ctx _ _ _ Hinv) as Hwf. pose proof (si_last _ _ _ Hinv) as Hlast.
  assert (forall txn rd, s_readers x !! txn = Some rd -> reader_inv (s_ctx x) (s_log x) last (s_writer x) txn rd) as Hrd
    by apply (si_readers _ _ _ Hinv).
  destruct Hstep as [c l w rs log txn c' Hnew|c l w rs log txn rd tr key t ts Hr Hp Ht Ho Hts
    |c l w rs log txn rd tr key t o Hr Hp Ht Ho Hlock|c l w rs log txn rd tr key o ts r Hr Hp Hts Hnz Hcopy
    |c l w rs log txn rd tr key o last' Hr Hp Hts Hlast'|c l w rs log txn rd tr key o last' c' r Hr Hp Hset Hcopy
    |c l w rs log txn rd c' Hr Hp Hrem]; cbn in *.
  - destruct (newTx_only c txn c' Hwf Hall Hnew) as (Hot & -> & Hn & a & Ha & Hz).
    pose proof (si_owner _ _ _ Hinv) as Hown. cbn in Hown.
    assert (wtxn w <> Some (nextTxID c)) as Hne.
    { unfold owner_ok in Hown. intros Heq. rewrite Heq in Hown. destruct Hown as (b & Hb & _).
      pose proof (tx_at_next c _ b Hwf Hb). lia. }
    eapply inv_frame; [done|done|by left| |apply (si_progress _ _ _ Hinv)|by right| |].
    + by eapply owner_keep.
    + intros t rd Hnt Hl. rewrite lookup_insert_ne in Hl by done. split; [done|]. by apply (Hrd t rd).
    + intros rd Hl. rewrite lookup_insert_eq in Hl. injection Hl as <-. split; [done|]. exists a. by split_and!.
  - apply inv_reader; [done|]. destruct (Hrd txn rd Hr) as (Hne & a & Ha & Hans & _). split; [done|]. exists a.
    rewrite (getReadCTS_tx c txn a Hwf Ha) in Hts. injection Hts as <-.
    split_and!; [done| |done]. apply answered_ok; [|done]. intros _.
    by rewrite (absent_ok _ _ _ _ _ _ _ _ _ _ _ Hinv Ht Ho).
  - apply inv_reader; [done|]. destruct (Hrd txn rd Hr) as (Hne & a & Ha & Hans & _). split; [done|]. exists a.
    split_and!; [done|done|]. eapply copied_ok; [done..|].
    by eapply (snapshot_kept last done (mkSystem c l w rs log)).
  - apply inv_reader; [done|]. destruct (Hrd txn rd Hr) as (Hne & a & Ha & Hans & Hph). split; [done|]. exists a.
    rewrite (getReadCTS_tx c txn a Hwf Ha) in Hts. injection Hts as <-.
    split_and!; [done| |done]. apply answered_ok; [|done]. intros _. split; [done|].
    rewrite Hp in Hph. destruct Hph as [Hwfo Hv]. rewrite (proj2 (Z.eqb_neq _ _) Hnz) in Hv.
    rewrite (read_copy_visible V o _ Hwfo) in Hcopy. injection Hcopy as <-. by rewrite Hv.
  - apply inv_reader; [done|]. destruct (Hrd txn rd Hr) as (Hne & a & Ha & Hans & Hph). split; [done|]. exists a.
    rewrite (getReadCTS_tx c txn a Hwf Ha) in Hts. injection Hts as Hz. assert (last' = last) as -> by congruence.
    rewrite Hp in Hph. destruct Hph as [Hwfo Hv]. rewrite Hz in Hv. by split_and!.
  - destruct (Hrd txn rd Hr) as (Hne & a & Ha & Hans & Hph). rewrite Hp in Hph. destruct Hph as (Hz & -> & Hwfo & Hv).
    destruct (setReadCTS_only c txn a last c' Hwf Ha Hset) as (Hot & b & Hb & Hrb).
    pose proof (si_owner _ _ _ Hinv) as Hown. cbn in Hown.
    eapply inv_frame; [done|done|by right| |apply (si_progress _ _ _ Hinv)|by right| |].
    + by eapply owner_keep.
    + intros t rd' Hnt Hl. rewrite lookup_insert_ne in Hl by done. split; [done|]. by apply (Hrd t rd').
    + intros rd' Hl. rewrite lookup_insert_eq in Hl. injection Hl as <-. split; [done|]. exists b.
      rewrite Hrb. split_and!; [done| |done]. rewrite (read_copy_visible V o _ Hwfo) in Hcopy. injection Hcopy as <-.
      apply answered_ok; [by rewrite Hv|]. eapply Forall_impl; [exact Hans|]. intros an Han Hnz.
      rewrite Hz in Han. by destruct (Han Hnz).
  - destruct (Hrd txn rd Hr) as (Hne & a & Ha & Hans & Hph).
    destruct (removeTx_only c txn a c' Hwf Ha Hrem) as (Hot & _).
    pose proof (si_owner _ _ _ Hinv) as Hown. cbn in Hown.
    eapply inv_frame; [done|done|by left| |apply (si_progress _ _ _ Hinv)|by right| |].
    + by eapply owner_keep.
    + intros t rd' Hnt Hl. rewrite lookup_delete_ne in Hl by done. split; [done|]. by apply (Hrd t rd').
    + intros rd' Hl. by rewrite lookup_delete_eq in Hl.
Qed.
(** *** The writer's arrays *)

(** garbage collection below every snapshot that must survive *)
Lemma working_collect P log last tr key d o r : working P log last tr key d o -> r < DTS_INF ->
  (forall ts, P ts -> r <= ts) -> working P log last tr key d (cleanUpVersions r o).
Proof.
  intros (Hwf & Hold & Hv & n & hd & -> & Hd & Hinf) Hr HP.
  pose proof (cleanUp_wf V o r Hwf Hr) as Hwf'. split_and!; [done|by apply cleanUp_older| |].
  - intros ts Hts. rewrite <- Hv by done. apply (visible_ext V); [done..|]. intros v. by apply cleanUp_sees, HP.
  - exists n, hd. split_and!; [done| |done]. apply cleanUp_used; [done|]. split; [done|lia].
Qed.

(** the new version, for a transaction newer than every snapshot *)
Lemma working_install P log last txn tr key v d o o' : working P log last tr key d o ->
  last < txn < DTS_INF -> 0 <= txn -> (forall ts, P ts -> ts <= last) ->
  getFreePos (versionSlots o) <= Z.of_nat V - 1 ->
  newEntry txn (getFreePos (versionSlots o)) d v o = Ok o' ->
  entry_ok P log last txn tr key (Some v) (Some o').
Proof.
  intros (Hwf & Hold & Hv & n & hd & -> & Hd & Hinf) Htxn H0 HP Hfree Hnew.
  destruct (slots_not_full V o Hwf) as [Hu Hnf].
  pose proof (getFreePos_first_free _ Hu Hnf) as (Hr & Hbit & _).
  set (i := Z.to_nat (getFreePos (versionSlots o))) in *.
  assert (getFreePos (versionSlots o) = Z.of_nat i) as Hi by (subst i; lia). rewrite Hi in *.
  assert (i <> n) as Hne by (intros ->; destruct Hd; congruence).
  assert (older_than txn o) as Holdt by (eapply older_than_mono; [|exact Hold]; lia).
  rewrite (newEntry_installed V o txn i n hd v Hwf ltac:(lia) (proj1 Hd) Hne) in Hnew. injection Hnew as <-.
  pose proof (installed_wf V o txn i n hd v Hwf ltac:(lia) Hd Hinf Hne Hbit Holdt ltac:(lia)) as Hwf'.
  pose proof (installed_sees V o txn i n hd v) as Hsees.
  split_and!; [done| | |].
  - intros j h Hj. apply (installed_used V o txn i n hd v j h Hwf ltac:(lia) Hd Hne) in Hj
      as [[-> ->]|[[-> ->]|(_ & _ & Hj)]]; cbn; [lia| |].
    + pose proof (Hold n hd Hd). lia.
    + pose proof (Hold j h Hj). lia.
  - intros ts Hts. rewrite <- Hv by done. specialize (HP ts Hts). apply (visible_ext V); [done..|]. intros x.
    rewrite Hsees by first [done | lia]. by rewrite (proj2 (Z.leb_gt _ _)) by lia.
  - intros ts Hts. apply (visible_sees V); [done|]. rewrite Hsees by first [done | lia].
    by rewrite (proj2 (Z.leb_le _ _)) by lia.
Qed.

Lemma fresh_ok P log last txn tr key v o : (1 <= V <= 8)%nat -> last < txn < DTS_INF -> 0 <= txn ->
  (forall ts, P ts -> ts <= last) -> (forall ts, value_at log tr key ts = None) ->
  commit_fresh V dflt txn v = Ok o -> entry_ok P log last txn tr key (Some v) (Some o).
Proof.
  intros HV Htxn H0 HP Hnone Hf. destruct (commit_fresh_spec V dflt txn v HV ltac:(lia)) as (o' & Ho & Hwf & Hold & Hv).
  assert (o' = o) as -> by congruence. split_and!; [done|done| |].
  - intros ts Hts. specialize (HP ts Hts). rewrite Hv, Hnone by lia. by rewrite (proj2 (Z.leb_gt _ _)) by lia.
  - intros ts Hts. rewrite Hv by lia. by rewrite (proj2 (Z.leb_le _ _)) by lia.
Qed.

(** the bound of the garbage collection *)
Lemma recalc_kept c c' last txn r : 0 < oldestVisibleVersion c -> getLastCTS c 0 = Ok last -> last < DTS_INF ->
  (forall ts, reader_at c ts -> ts <= last) -> recalcOldestVisible txn c = Ok (r, c') ->
  only_horizon c c' /\ 0 < oldestVisibleVersion c' /\ r < DTS_INF /\ forall ts, kept c last ts -> r <= ts.
Proof.
  intros Hh Hlast Hl Hle Hrun.
  destruct (recalc_bound c c' txn r (conj Hh (ex_intro _ last (conj Hlast Hl))) Hrun) as ((Hh' & _) & Hoh & Hr & Hrd).
  split_and!; [done|done|done|]. intros ts [Hts| ->]; [by apply Hrd|].
  unfold recalcOldestVisible in Hrun. rewrite (proj2 (Z.eqb_neq _ _)) in Hrun by lia. cbn [negb] in Hrun.
  bind_inv Hrun as (nm & Hnm & [= -> <-]).
  destruct (min_readCTS_spec c) as [_ [Hm|(p & a & Ha & Hm & Hnz)]].
  { rewrite (proj2 (Z.eqb_eq _ _) Hm) in Hnm. assert (r = last) by congruence. lia. }
  destruct (Z.eqb_spec (min_readCTS c) DTS_INF) as [Heq|Hneq]; [assert (r = last) by congruence; lia|].
  injection Hnm as <-. apply Hle. exists p, a. split_and!; [done|done|lia|lia].
Qed.

(** *** The writer's steps *)

Lemma entries_app (l k : list (instr R)) : entries (l ++ k) = entries l ++ entries k.
Proof. apply omap_app. Qed.

Lemma entries_IEntry (l : list (entry R)) : entries (IEntry <$> l) = l.
Proof. induction l as [|e l IH]; [done|]. cbn. by f_equal. Qed.

Lemma table_writes_NoDup (l : list (MVCCTable T R)) tr : NoDup (table_writes ltR l tr).*1.
Proof.
  unfold table_writes. destruct (l !! tr) as [t|]; [|constructor].
  destruct (dedup_writes_spec ltR (ws_set (writeSet t))) as (Hnd & _).
  rewrite <- list_fmap_compose.
  assert ((fst ∘ (fun e : Z * R => (tr, e.1, e.2)) <$> dedup_writes ltR (ws_set (writeSet t))) =
    (fun k => (tr, k)) <$> (dedup_writes ltR (ws_set (writeSet t))).*1) as -> by by rewrite <- list_fmap_compose.
  by apply NoDup_fmap_2; [intros x y [= ->]|].
Qed.

Lemma table_writes_table (l : list (MVCCTable T R)) tr p : p ∈ (table_writes ltR l tr).*1 -> p.1 = tr.
Proof.
  unfold table_writes. destruct (l !! tr); [|by intros ?%not_elem_of_nil].
  intros (e & -> & (x & -> & _)%list_elem_of_fmap)%list_elem_of_fmap. done.
Qed.

Lemma program_progress P log last txn (l : list (MVCCTable T R)) tr : last < txn -> (tr < MAX_STATES_TOPO)%nat ->
  progress P log last (WCommit txn (commit_program ltR l tr)) [].
Proof.
  intros Hlt Htr. unfold commit_program. set (a := table_writes ltR l tr). set (b := table_writes ltR l (other_table tr)).
  pose proof (p_commit P log last txn ((IEntry <$> a) ++ [IClean tr] ++ (IEntry <$> b) ++ [IClean (other_table tr)])
    (a ++ b) [] Hlt) as H. rewrite <- !app_assoc in H. apply H.
  - assert (forall k : list (entry R), Forall in_loop (IEntry <$> k)) as Hloop by (intros; apply Forall_fmap; by apply Forall_true).
    rewrite !Forall_app. by repeat (split; first [apply Hloop|by repeat constructor|idtac]); repeat constructor.
  - rewrite fmap_app. apply NoDup_app. split_and!; [apply table_writes_NoDup| |apply table_writes_NoDup].
    intros p Hp Hq. apply table_writes_table in Hp, Hq. unfold other_table, MAX_STATES_TOPO in *.
    destruct tr as [|[|]]; simpl in *; lia.
  - rewrite !entries_app, !entries_IEntry. cbn. by rewrite app_nil_r.
Qed.

(** the writer's id lies above every snapshot *)
Lemma writer_range last done x txn : sys_inv last done x -> wtxn (s_writer x) = Some txn ->
  0 < txn < DTS_INF /\ txn < nextTxID (s_ctx x).
Proof.
  intros Hinv Hw. pose proof (si_owner _ _ _ Hinv) as Hown. unfold owner_ok in Hown. rewrite Hw in Hown.
  destruct Hown as (a & Ha & _). pose proof (tx_at_next _ _ _ (si_ctx _ _ _ Hinv) Ha).
  pose proof (wf_next _ (si_ctx _ _ _ Hinv)). unfold DTS_INF. lia.
Qed.

Lemma kept_le last done x ts : sys_inv last done x -> kept (s_ctx x) last ts -> ts <= last.
Proof.
  intros Hinv [(txn & a & Ha & <- & _)%reader_at_tx| ->]; [|lia]. by eapply (si_snap _ _ _ Hinv).
Qed.

(** one more key holds the transaction's value *)
Lemma inv_installed last done c l w rs log txn tr key v pre t tb o :
  sys_inv last done (mkSystem c l w rs log) -> wtxn w = Some txn -> l !! tr = Some t ->
  last < txn -> Forall in_loop pre -> NoDup (done ++ (tr, key, v) :: entries pre).*1 ->
  (forall k, tbl_get tb k = if decide (key = k) then Some o else tbl_get (tbl t) k) ->
  entry_ok (kept c last) log last txn tr key (Some v) (Some o) ->
  sys_inv last (done ++ [(tr, key, v)]) (mkSystem c (set_tbl l tr t tb)
    (WCommit txn (pre ++ [IPublish (done ++ (tr, key, v) :: entries pre); ILeave])) rs log).
Proof.
  intros Hinv Hw Ht Hlt Hpre Hnd Hget Ho. eapply inv_tables; [done|by rewrite Hw| |].
  - apply p_commit; [done..|]. by rewrite <- app_assoc.
  - assert ((tr, key) ∉ done.*1) as Hnew.
    { rewrite fmap_app in Hnd. apply NoDup_app in Hnd as (_ & Hno & _). intros Hin. apply (Hno _ Hin). by left. }
    intros tr' t' key' Ht'. rewrite writes_snoc by done. cbn [fst snd].
    unfold set_tbl in Ht'. apply list_lookup_insert_Some in Ht' as [(<- & <- & _)|[Hne Ht']]; cbn [tbl].
    + rewrite Hget. destruct (decide (key = key')) as [<-|Hnk].
      * rewrite decide_True by done. by rewrite Hw.
      * rewrite decide_False by congruence. by apply (si_tables _ _ _ Hinv).
    + rewrite decide_False by congruence. by apply (si_tables _ _ _ Hinv).
Qed.

(** the array of a key the writer has not reached *)
Lemma untouched last done c l w rs log txn tr key v pre t :
  sys_inv last done (mkSystem c l w rs log) -> wtxn w = Some txn -> l !! tr = Some t ->
  NoDup (done ++ (tr, key, v) :: entries pre).*1 ->
  entry_ok (kept c last) log last txn tr key None (tbl_get (tbl t) key).
Proof.
  intros Hinv Hw Ht Hnd. pose proof (si_tables _ _ _ Hinv tr t key Ht) as He. cbn in He.
  rewrite Hw in He. cbn in He. unfold writes_of in He. rewrite not_elem_of_list_to_map_1 in He; [done|].
  rewrite fmap_app in Hnd. apply NoDup_app in Hnd as (_ & Hno & _). intros Hin. apply (Hno _ Hin). by left.
Qed.

Lemma setLastCTS_shape txn c c' : setLastCTS 0 txn c = Ok c' -> exists gs, c' = with_topoGrps gs c.
Proof. unfold setLastCTS. intros H. bind_inv H as (g & _ & H). bind_inv H as (gs & _ & [= <-]). by exists gs. Qed.

(** publication: the transaction's values become the last commit's *)
Lemma entry_published c c' log last txn (ws : list (entry R)) tr key x txn' :
  (forall ts, reader_at c' ts -> reader_at c ts) -> (forall ts, reader_at c ts -> ts <= last) ->
  last < txn < DTS_INF -> Forall (fun e => e.1 <= last) log ->
  entry_ok (kept c last) log last txn tr key (writes_of ws !! (tr, key)) x ->
  entry_ok (kept c' txn) ((txn, ws) :: log) txn txn' tr key None x.
Proof.
  intros Hrd Hle Htxn Hlog He. unfold entry_ok in *. destruct x as [o|].
  - destruct (writes_of ws !! (tr, key)) as [v|] eqn:Hw.
    + destruct He as (Hwf & Hold & Hv & Hnew). split_and!; [done|done|]. intros ts [Hts| ->].
      * apply Hrd in Hts. rewrite value_at_older by (specialize (Hle ts Hts); lia). apply Hv. by left.
      * cbn [value_at]. rewrite (proj2 (Z.leb_le _ _)), Hw by lia. apply Hnew; lia.
    + destruct He as (Hwf & Hold & Hv). split_and!; [done|by eapply older_than_mono; [|exact Hold]; lia|].
      intros ts [Hts| ->].
      * apply Hrd in Hts. rewrite value_at_older by (specialize (Hle ts Hts); lia). apply Hv. by left.
      * cbn [value_at]. rewrite (proj2 (Z.leb_le _ _)), Hw by lia.
        rewrite (visible_later V o last), (value_at_later log last) by first [done | lia]. apply Hv. by right.
  - destruct (writes_of ws !! (tr, key)) eqn:Hw; [done|]. intros ts. cbn [value_at]. rewrite Hw.
    by destruct (txn <=? ts).
Qed.

Lemma reader_published c gs log last txn ws w w' t rd : wtxn w' = wtxn w ->
  ctx_wf c -> last < txn -> (forall t a, tx_at c t a -> read0 a <= last) ->
  (match rd_phase rd with RReady => False | RCopied _ _ _ => getReadCTS c t 0 = Ok 0 | RLoaded _ _ _ _ => True end -> False) ->
  reader_inv c log last w t rd -> reader_inv (with_topoGrps gs c) ((txn, ws) :: log) txn w' t rd.
Proof.
  intros Hw Hwf Hlt Hsnap Hopen (Hne & a & Ha & Hans & Hph). split; [by rewrite Hw|].
  exists a. pose proof (Hsnap t a Ha). split_and!; [done| |].
  - eapply Forall_impl; [exact Hans|]. intros an Han Hnz. destruct (Han Hnz) as [Hat Hres]. split; [done|].
    rewrite value_at_older by lia. done.
  - destruct (rd_phase rd) as [|tr key o|tr key o l]; [done| |by destruct Hopen].
    destruct Hph as [Hwfo Hv]. split; [done|]. destruct (Z.eqb_spec (read0 a) 0) as [Hz|Hnz].
    + destruct Hopen. by rewrite (getReadCTS_tx c t a Hwf Ha), Hz.
    + cbv zeta. by rewrite value_at_older by lia.
Qed.

Lemma progress_commit P log last txn todo done : progress P log last (WCommit txn todo) done ->
  (todo = [ILeave] /\ done = []) \/
  exists pre, last < txn /\ Forall in_loop pre /\ NoDup (done ++ entries pre).*1 /\
    todo = pre ++ [IPublish (done ++ entries pre); ILeave].
Proof. inversion 1; subst; [right; by eexists|by left]. Qed.

Lemma progress_update P log last txn e todo dPos o done : progress P log last (WUpdate txn e todo dPos o) done ->
  exists tr key v pre, e = (tr, key, v) /\ last < txn /\ Forall in_loop pre /\ NoDup (done ++ e :: entries pre).*1 /\
    todo = pre ++ [IPublish (done ++ e :: entries pre); ILeave] /\ working P log last tr key dPos o.
Proof. inversion 1; subst. by do 4 eexists. Qed.

Lemma progress_collect P log last txn e todo dPos o r done : progress P log last (WCollect txn e todo dPos o r) done ->
  r < DTS_INF /\ (forall ts, P ts -> r <= ts) /\ progress P log last (WUpdate txn e todo dPos o) done.
Proof. inversion 1; subst. split_and!; [done|done|]. by eapply p_update. Qed.

(** what is left to do starts with an iteration, a clean-up, or the publication *)
Lemma program_head (i : instr R) todo pre ws : i :: todo = pre ++ [IPublish ws; ILeave] -> Forall in_loop pre ->
  (pre = [] /\ i = IPublish ws /\ todo = [ILeave]) \/
  (exists pre', pre = i :: pre' /\ in_loop i /\ Forall in_loop pre' /\ todo = pre' ++ [IPublish ws; ILeave]).
Proof.
  intros Heq Hpre. destruct pre as [|j pre]; simplify_eq/=; [by left|right].
  apply Forall_cons in Hpre as [Hj Hpre]. by exists pre.
Qed.

Lemma begin_tables_spec txn (l : list (MVCCTable T R)) c l' c' : begin_tables txn l c = (l', c') ->
  (forall tr t', l' !! tr = Some t' -> exists t, l !! tr = Some t /\ tbl t' = tbl t) /\
  exists n, c' = with_txCntW n c.
Proof.
  revert c l' c'. induction l as [|t l IH]; intros c l' c' H; simpl in H.
  { injection H as <- <-. split; [intros tr t' Ht'; done|]. exists (txCntW c). by destruct c. }
  destruct (begin_tables txn l _) as [rest c1] eqn:E. injection H as <- <-.
  destruct (IH _ _ _ E) as (Htab & n & ->). split; [|by exists n].
  intros [|tr] t' Ht'; simpl in *; [injection Ht' as <-; by exists t|by apply Htab].
Qed.

Lemma inv_begin last c l rs log txn c1 l' c' : sys_inv last [] (mkSystem c l WIdle rs log) ->
  nextTxID c + 1 < 2^64 -> newTx c = Ok (txn, c1) -> begin_tables txn l c1 = (l', c') ->
  sys_inv last [] (mkSystem c' l' (WBegun txn) rs log).
Proof.
  intros Hinv Hov Hnew Hb. pose proof (si_ctx _ _ _ Hinv) as Hwf. cbn in Hwf.
  destruct (newTx_only c txn c1 Hwf Hov Hnew) as (Hot & -> & Hn & a & Ha & Hz).
  destruct (begin_tables_spec _ _ _ _ _ Hb) as (Htab & n & ->).
  assert (sys_inv last [] (mkSystem (with_txCntW n c1) l (WBegun (nextTxID c)) rs log)) as Hinv'.
  { apply (inv_frame last [] c (with_txCntW n c1) l WIdle _ rs rs log (nextTxID c) 0); [done| |by left| | |by left| |].
    - destruct Hot as [[? ? ? ? ? ? ?] ? ? ? ? ?]. by split.
    - by exists a.
    - apply p_begun. apply (si_range _ _ _ Hinv).
    - intros t rd Hne Hrd. split; [done|]. by intros [=].
    - intros rd Hrd. destruct (si_readers _ _ _ Hinv _ _ Hrd) as (_ & b & Hb' & _).
      pose proof (tx_at_next c _ b Hwf Hb'). lia. }
  eapply inv_tables; [exact Hinv'|done|apply (si_progress _ _ _ Hinv')|].
  intros tr t' key Ht'. destruct (Htab tr t' Ht') as (t & Ht & ->). by apply (si_tables _ _ _ Hinv').
Qed.

Lemma inv_vote last done c l rs log txn tr c' s : sys_inv last done (mkSystem c l (WBegun txn) rs log) ->
  (tr < MAX_STATES_TOPO)%nat -> setWriteStatus c txn tr Commit = Ok c' ->
  sys_inv last done (mkSystem c' l (if decide (s = Commit) then WCommit txn (commit_program ltR l tr) else WBegun txn) rs log).
Proof.
  intros Hinv Htr Hset. pose proof (si_ctx _ _ _ Hinv) as Hwf. pose proof (si_progress _ _ _ Hinv) as Hp. cbn in *.
  inversion Hp; subst. destruct (si_owner _ _ _ Hinv) as (a & Ha & Hz). cbn in Ha.
  destruct (setWriteStatus_only c txn a tr Commit c' Hwf Ha Htr Hset) as (Hot & b & Hb & Hzb). rewrite Hz in *.
  assert (forall w, wtxn w = Some txn -> progress (kept c last) log last w [] ->
    sys_inv last [] (mkSystem c' l w rs log)) as H; [|case_decide; [apply H; [done|by apply program_progress]|by apply H]].
  intros w Hw Hpw. apply (inv_frame last [] c c' l (WBegun txn) w rs rs log txn 0); try done; [by left| |by left| |].
  - unfold owner_ok. rewrite Hw. by exists b.
  - intros t rd Hne Hrd. split; [done|]. rewrite Hw. congruence.
  - intros rd Hrd. by destruct (si_readers _ _ _ Hinv _ _ Hrd) as [? _].
Qed.

Lemma inv_horizon last done c c' l w w' rs log : sys_inv last done (mkSystem c l w rs log) ->
  only_horizon c c' -> 0 < oldestVisibleVersion c' -> wtxn w' = wtxn w -> progress (kept c last) log last w' done ->
  sys_inv last done (mkSystem c' l w' rs log).
Proof.
  intros [H1 H2 H3 H4 H5 H6 H7 H8 H9 H10] Hoh Hpos Hw Hp.
  pose proof (only_horizon_wf c c' Hoh H1). destruct Hoh as [n ->]. cbn in *. split; cbn; try done.
  - unfold owner_ok in *. by rewrite Hw.
  - by rewrite Hw.
  - intros t rd Hrd. destruct (H10 t rd Hrd) as [Hne Ha]. split; [by rewrite Hw|done].
Qed.

Lemma inv_publish last done c c' l rs log txn ws todo : sys_inv last done (mkSystem c l (WCommit txn (IPublish ws :: todo)) rs log) ->
  ~ first_read_open (mkSystem c l (WCommit txn (IPublish ws :: todo)) rs log) -> setLastCTS 0 txn c = Ok c' ->
  sys_inv txn [] (mkSystem c' l (WCommit txn todo) rs ((txn, ws) :: log)).
Proof.
  intros Hinv Hopen Hset. destruct (writer_range _ _ _ txn Hinv eq_refl) as [Hr Hn]. cbn in Hn.
  assert (forall ts, reader_at c ts -> ts <= last) as Hle.
  { intros ts Hts. apply (kept_le _ _ _ ts Hinv). by left. }
  destruct (setLastCTS_wf c txn (si_ctx _ _ _ Hinv)) as (c2 & Hc2 & Hwf' & Hlast' & _). assert (c2 = c') as -> by congruence.
  destruct (setLastCTS_shape txn c c' Hset) as (gs & ->).
  destruct Hinv as [H1 H2 H3 H4 H5 H6 H7 H8 H9 H10]. cbn in *.
  destruct (progress_commit _ _ _ _ _ _ H8) as [[[=] _]|(pre & Hlt & Hpre & _ & Heq)].
  destruct (program_head _ _ _ _ Heq Hpre) as [(-> & [= ->] & ->)|(? & _ & [] & _)].
  cbn [entries omap list_omap] in *. rewrite app_nil_r in *. split; cbn; try done.
  - lia.
  - constructor; [done|]. eapply Forall_impl; [exact H5|]. intros e He. cbn in *. lia.
  - intros t a Ha. specialize (H6 t a Ha). lia.
  - apply p_leave.
  - intros tr t key Ht. unfold writes_of. cbn [list_to_map foldr]. rewrite lookup_empty.
    apply (entry_published c _ log last); [done|done|lia|done|]. cbn. by apply H9.
  - intros t rd Hrd. eapply reader_published; [done..| |by apply H10].
    intros Hop. apply Hopen. by exists t, rd.
Qed.

Lemma inv_install last done c l rs log txn tr key v todo dPos o o' t tb f o0 (s s' : ctx) :
  sys_inv last done (mkSystem c l (WUpdate txn (tr, key, v) todo dPos o) rs log) ->
  getFreePos (versionSlots o) <= Z.of_nat V - 1 -> newEntry txn (getFreePos (versionSlots o)) dPos v o = Ok o' ->
  l !! tr = Some t -> tbl_get (tbl t) key = Some o0 -> f o0 s = Ok (o', s') ->
  tbl_update key f (tbl t) s = Ok (1, tb, s') ->
  sys_inv last (done ++ [(tr, key, v)]) (mkSystem c (set_tbl l tr t tb) (WCommit txn todo) rs log).
Proof.
  intros Hinv Hfree Hnew Ht Ho0 Hf Hup. destruct (writer_range _ _ _ txn Hinv eq_refl) as [Hr _].
  destruct (progress_update _ _ _ _ _ _ _ _ _ (si_progress _ _ _ Hinv)) as (? & ? & ? & pre & [= <- <- <-] & Hlt & Hpre & Hnd & -> & Hw).
  destruct (tbl_update_present _ key f (tbl t) s o0 o' s' Ho0 Hf) as (tb1 & Htb & Hget).
  rewrite Htb in Hup. injection Hup as <-.
  eapply inv_installed; [done|done|done|done|done|done|done|].
  eapply working_install; [done|lia|lia| |done|done]. intros ts Hts. by apply (kept_le _ _ _ ts Hinv).
Qed.

Lemma inv_leave last done c c' l rs log txn : sys_inv last done (mkSystem c l (WCommit txn [ILeave]) rs log) ->
  removeTx txn c = Ok c' -> sys_inv last done (mkSystem c' l WIdle rs log).
Proof.
  intros Hinv Hrem. pose proof (si_ctx _ _ _ Hinv) as Hwf. cbn in Hwf.
  destruct (progress_commit _ _ _ _ _ _ (si_progress _ _ _ Hinv)) as [[_ ->]|(pre & _ & Hpre & _ & Heq)].
  2: { by destruct (program_head _ _ _ _ Heq Hpre) as [(_ & ? & _)|(? & _ & [] & _)]. }
  destruct (si_owner _ _ _ Hinv) as (a & Ha & _). cbn in Ha.
  destruct (removeTx_only c txn a c' Hwf Ha Hrem) as (Hot & _).
  eapply inv_frame; [done|exact Hot|by left|done|apply p_idle|by left|by intros|].
  intros rd Hrd. by destruct (si_readers _ _ _ Hinv _ _ Hrd) as [? _].
Qed.

(** rewriting only the write set of a table *)
Lemma inv_writeset last done c l w w' rs log tr t t' : sys_inv last done (mkSystem c l w rs log) -> wtxn w' = wtxn w ->
  l !! tr = Some t -> tbl t' = tbl t -> progress (kept c last) log last w' done ->
  sys_inv last done (mkSystem c (<[tr := t']> l) w' rs log).
Proof.
  intros Hinv Hw Ht Htbl Hp. eapply inv_tables; [done|done|done|].
  intros i ti key [(<- & <- & _)|[_ Hi]]%list_lookup_insert_Some; [rewrite Htbl|]; by apply (si_tables _ _ _ Hinv).
Qed.

Lemma wstep_inv a x y last done : (1 <= V <= 8)%nat -> sys_inv last done x -> allowed a x -> wstep V ltR dflt a x y ->
  exists last' done', sys_inv last' done' y.
Proof.
  intros HV Hinv Hall Hstep. pose proof (si_progress _ _ _ Hinv) as Hp.
  assert (forall ts, kept (s_ctx x) last ts -> ts <= last) as Hkept by (intros ts; by apply (kept_le _ _ x ts Hinv)).
  destruct Hstep as [| |c l rs log txn tr c' s Htr Hset Hget|c l rs log txn tr key v todo t o Ht Hno Hf
    |c l rs log txn tr key v todo t o Ht Ho|c l rs log txn e todo dPos o r c' Hfull Hrec|c l rs log txn e todo dPos o r
    | |c l rs log txn tr todo t Ht| |]; cbn in *.
  - inversion Hp; subst. exists last, []. by eapply inv_begin.
  - exists last, done. by eapply inv_writeset.
  - exists last, done. by eapply inv_vote.
  - destruct (progress_commit _ _ _ _ _ _ Hp) as [[[=] _]|(pre & Hlt & Hpre & Hnd & Heq)].
    destruct (program_head _ _ _ _ Heq Hpre) as [(_ & [=] & _)|(pre' & -> & _ & Hpre' & ->)].
    destruct (writer_range _ _ _ txn Hinv eq_refl) as [Hr _].
    pose proof (untouched _ _ _ _ _ _ _ txn _ _ _ pre' t Hinv eq_refl Ht Hnd) as Hnone. rewrite Hno in Hnone.
    exists last, (done ++ [(tr, key, v)]). eapply inv_installed; [done|done|done|done|done|done| |].
    + intros k. by rewrite tbl_get_insert, Hno, tbl_put_new.
    + eapply fresh_ok; [done|lia|lia|done|exact Hnone|done].
  - destruct (progress_commit _ _ _ _ _ _ Hp) as [[[=] _]|(pre & Hlt & Hpre & Hnd & Heq)].
    destruct (program_head _ _ _ _ Heq Hpre) as [(_ & [=] & _)|(pre' & -> & _ & Hpre' & ->)].
    destruct (writer_range _ _ _ txn Hinv eq_refl) as [Hr _].
    pose proof (untouched _ _ _ _ _ _ _ txn _ _ _ pre' t Hinv eq_refl Ht Hnd) as Hnone. rewrite Ho in Hnone.
    destruct Hnone as (Hwf & Hold & Hv).
    destruct (getCurrent_live V o txn Hwf ltac:(eapply older_than_mono; [|exact Hold]; lia) ltac:(lia)) as (d & hd & Hd & Hinf & ->).
    exists last, done. eapply inv_tables; [done|done| |apply (si_tables _ _ _ Hinv)].
    eapply p_update; [done..|]. split_and!; [done..|]. by exists d, hd.
  - destruct (progress_update _ _ _ _ _ _ _ _ _ Hp) as (tr & key & v & pre & -> & Hlt & Hpre & Hnd & -> & Hw).
    pose proof (si_range _ _ _ Hinv) as Hrg. pose proof (wf_next _ (si_ctx _ _ _ Hinv)) as Hnx. cbn in *.
    destruct (recalc_kept c c' last txn r (si_horizon _ _ _ Hinv) (si_last _ _ _ Hinv)) as (Hoh & Hpos & Hr & Hrk);
      [unfold DTS_INF; lia|intros ts Hts; apply Hkept; by left|done|].
    exists last, done. eapply inv_horizon; [done|done|done|done|]. by eapply p_collect.
  - destruct (progress_collect _ _ _ _ _ _ _ _ _ _ Hp) as (Hr & Hrk & Hp').
    destruct (progress_update _ _ _ _ _ _ _ _ _ Hp') as (tr & key & v & pre & -> & Hlt & Hpre & Hnd & -> & Hw).
    exists last, done. eapply inv_tables; [done|done| |apply (si_tables _ _ _ Hinv)].
    eapply p_update; [done..|]. by apply working_collect.
  - exists last. eexists. by eapply inv_install.
  - destruct (progress_commit _ _ _ _ _ _ Hp) as [[[=] _]|(pre & Hlt & Hpre & Hnd & Heq)].
    destruct (program_head _ _ _ _ Heq Hpre) as [(_ & [=] & _)|(pre' & -> & _ & Hpre' & ->)].
    exists last, done. eapply inv_writeset; [done|done|done|done|]. by eapply p_commit.
  - eexists _, []. by eapply inv_publish.
  - exists last, done. by eapply inv_leave.
Qed.

Lemma orderly_inv x y last done : (1 <= V <= 8)%nat -> sys_inv last done x -> rtc (orderly V ltR dflt) x y ->
  exists last' done', sys_inv last' done' y.
Proof.
  intros HV Hinv Hrun. revert last done Hinv. induction Hrun as [x|x y z (a & [Hs|Hs] & Hall) _ IH]; intros last done Hinv.
  - by exists last, done.
  - destruct (wstep_inv a x y last done HV Hinv Hall Hs) as (last' & done' & Hinv'). by eapply IH.
  - eapply IH. by eapply rstep_inv.
Qed.

(** ** Reads beside a commit *)

(** A group nobody uses: the last commit is a proper id, the garbage horizon
    has been initialised, and the log describes the tables. *)
Record started (last : Z) (x : system T R) : Prop := {
  st_ctx : ctx_wf (s_ctx x);
  st_horizon : 0 < oldestVisibleVersion (s_ctx x);
  st_last : getLastCTS (s_ctx x) 0 = Ok last /\ 0 < last < nextTxID (s_ctx x);
  st_log : Forall (fun e => e.1 <= last) (s_log x);
  st_unused : forall txn a, ~ tx_at (s_ctx x) txn a;
  st_idle : s_writer x = WIdle /\ s_readers x = ∅;
  st_tables : forall tr t key, s_tables x !! tr = Some t ->
    match tbl_get (tbl t) key with
    | Some o => version_wf V o /\ older_than (last + 1) o /\ visible o last = value_at (s_log x) tr key last
    | None => forall ts, value_at (s_log x) tr key ts = None
    end;
}.

Lemma started_system_inv last x : started last x -> sys_inv last [] x.
Proof.
  intros [H1 H2 [H3 H4] H5 H6 [H7 H8] H9]. split; try done.
  - intros txn a Ha. by destruct (H6 txn a).
  - by rewrite H7.
  - rewrite H7. apply p_idle.
  - intros tr t key Ht. specialize (H9 tr t key Ht). unfold writes_of. cbn [list_to_map foldr]. rewrite lookup_empty.
    unfold entry_ok. destruct (tbl_get (tbl t) key) as [o|]; [|done]. destruct H9 as (Hwf & Hold & Hv). split_and!; [done..|].
    intros ts [(txn & a & Ha & _)%reader_at_tx| ->]; [by destruct (H6 txn a)|done].
  - intros txn rd Hrd. by rewrite H8 in Hrd.
Qed.

(** C2: snapshots beside a commit.  Start from a group that nobody uses, with at
    least one commit published and the garbage horizon already set (a first
    collection without it can remove what a reader still needs,
    [first_collection_breaks_snapshot]), and let one writer run its calls,
    access by access, over and over, beside any number of reading transactions,
    in every interleaving in which no commit is published while a reader's first
    read is open (without that, [first_read_straddles_commit]) and ids do not
    wrap around.  Then all answers a running reader got from arrays belong to one
    snapshot, the one stored in its slot, and each is that snapshot's value in
    the log, in both tables: a commit is seen whole or not at all, whatever of it
    is already installed and whatever the garbage collection removed.  The last
    commit's values stay readable at every moment for the readers to come. *)
Theorem snapshot_reads (last : Z) (x0 x : system T R) (HV : (1 <= V <= 8)%nat) (Hstart : started last x0)
  (Hrun : rtc (orderly V ltR dflt) x0 x) :
  (forall txn rd an, s_readers x !! txn = Some rd -> an ∈ rd_answers rd -> an_at an <> 0 ->
     getReadCTS (s_ctx x) txn 0 = Ok (an_at an) /\
     an_result an = read_result (value_at (s_log x) (an_table an) (an_key an) (an_at an))) /\
  exists now, getLastCTS (s_ctx x) 0 = Ok now /\
    forall tr t key, s_tables x !! tr = Some t -> snapshot (tbl t) key now = value_at (s_log x) tr key now.
Proof.
  destruct (orderly_inv x0 x last [] HV (started_system_inv last x0 Hstart) Hrun) as (now & done & Hinv). split.
  - intros txn rd an Hrd Han Hnz. destruct (si_readers _ _ _ Hinv txn rd Hrd) as (_ & a & Ha & Hans & _).
    rewrite Forall_forall in Hans. destruct (Hans an Han Hnz) as [Hat Hres]. split; [|done].
    rewrite Hat. by apply getReadCTS_tx; [apply Hinv|].
  - exists now. split; [apply Hinv|]. intros tr t key Ht. unfold snapshot. destruct x as [c l w rs log]. cbn in *.
    destruct (tbl_get (tbl t) key) as [o|] eqn:Ho.
    + eapply copied_ok; [done..|]. by right.
    + by rewrite (absent_ok _ _ _ _ _ _ _ _ _ _ _ Hinv Ht Ho).
Qed.
End invariant.

(** ** The calls as runs of steps *)

Section simulation.
Context {T R : Type} (V : nat) (ltR : R -> R -> bool) (dflt : R).
Context {ops : TableOps T Z (MVCCObject R)} {laws : TableLaws T Z (MVCCObject R)}.
Implicit Types (l : list (MVCCTable T R)) (rs : gmap Z (reader R)).

(** the writer's steps, and those of the reader [txn]: the others keep theirs *)
Definition writer_step (x y : system T R) : Prop := exists a, wstep V ltR dflt a x y.
Definition reader_step (txn : Z) (x y : system T R) : Prop :=
  rstep LOther x y /\ (forall txn', txn' <> txn -> s_readers y !! txn' = s_readers x !! txn').

Abbreviation run := (rtc (wstep V ltR dflt LOther)).

Lemma only_horizon_refl c : only_horizon c c.
Proof. exists (oldestVisibleVersion c). by destruct c. Qed.

Lemma recalc_horizon txn c c' r : recalcOldestVisible txn c = Ok (r, c') -> only_horizon c c'.
Proof.
  unfold recalcOldestVisible. destruct (negb _); intros H; bind_inv H as (n & _ & [= _ <-]); by eexists.
Qed.

Lemma setWriteStatus_regStates c txn tr s c' : setWriteStatus c txn tr s = Ok c' -> regStates c' = regStates c.
Proof.
  unfold setWriteStatus. intros H. bind_inv H as (p & _ & H). bind_inv H as (a & _ & H). bind_inv H as (w & _ & H).
  by bind_inv H as (l & _ & [= <-]).
Qed.

Lemma wait_steps fuel txn e todo dPos (o o' : MVCCObject R) c c' p l rs log :
  wait_free_slot V fuel txn o c = Ok (p, o', c') ->
  run (mkSystem c l (WUpdate txn e todo dPos o) rs log) (mkSystem c' l (WUpdate txn e todo dPos o') rs log) /\
  p = getFreePos (versionSlots o') /\ p <= Z.of_nat V - 1 /\ only_horizon c c'.
Proof.
  revert o c. induction fuel as [|fuel IH]; intros o c H; simpl in H;
    destruct (Z.gtb_spec (getFreePos (versionSlots o)) (Z.of_nat V - 1)) as [Hgt|Hle]; try done.
  - injection H as <- <- <-. split_and!; [done|done|lia|apply only_horizon_refl].
  - bind_inv H as ([r c1] & Hrec & H). destruct (IH _ _ H) as (Hrun & Hp & Hle & Hoh).
    split; [|split_and!; [done|done|eapply only_horizon_trans; [by eapply recalc_horizon|done]]].
    eapply rtc_l; [by eapply w_horizon; [lia|]|]. eapply rtc_l; [by apply w_collect|]. done.
  - injection H as <- <- <-. split_and!; [done|done|lia|apply only_horizon_refl].
Qed.

Lemma entry_steps fuel txn tr key v todo t tb' c c' l rs log : l !! tr = Some t ->
  commit_entry V dflt fuel txn (key, v) (tbl t) c = Ok (tb', c') ->
  run (mkSystem c l (WCommit txn (IEntry (tr, key, v) :: todo)) rs log)
      (mkSystem c' (set_tbl l tr t tb') (WCommit txn todo) rs log) /\ only_horizon c c'.
Proof.
  intros Ht H. unfold commit_entry in H. cbn [fst snd] in H. destruct (tbl_get (tbl t) key) as [o|] eqn:Ho.
  - destruct (commit_update V fuel txn v o c) as [[o' c1]|f] eqn:Hup.
    2: { by rewrite (tbl_update_fault _ key (fun o c => commit_update V fuel txn v o c) _ c o f Ho Hup) in H. }
    destruct (tbl_update_present _ key (fun o c => commit_update V fuel txn v o c) (tbl t) c o o' c1 Ho Hup) as (tb1 & Htb & _).
    rewrite Htb in H. injection H as <- <-. pose proof Hup as Hu. unfold commit_update in Hu.
    bind_inv Hu as ([[p o1] c2] & Hwait & Hu). bind_inv Hu as (o2 & Hnew & [= <- <-]).
    destruct (wait_steps fuel txn (tr, key, v) todo (getCurrent o txn) o o1 c c2 p l rs log Hwait) as (Hrun & -> & Hle & Hoh).
    split; [|done]. eapply rtc_l; [by eapply w_update|]. etrans; [exact Hrun|].
    apply rtc_once. eapply w_install; [done|exact Hnew|done|exact Ho|exact Hup|exact Htb].
  - rewrite (tbl_update_absent _ _ _ _ _ Ho) in H. cbn in H. bind_inv H as (o & Hf & [= <- <-]).
    split; [|apply only_horizon_refl]. apply rtc_once. by eapply w_fresh.
Qed.

Lemma entries_steps fuel txn tr ws todo t tb' c c' l rs log : l !! tr = Some t ->
  commit_entries V dflt fuel txn ws (tbl t) c = Ok (tb', c') ->
  run (mkSystem c l (WCommit txn ((IEntry <$> ((fun e => (tr, e.1, e.2)) <$> ws)) ++ todo)) rs log)
      (mkSystem c' (set_tbl l tr t tb') (WCommit txn todo) rs log) /\ only_horizon c c'.
Proof.
  revert t c l. induction ws as [|[key v] ws IH]; intros t c l Ht H; simpl in H.
  - injection H as <- <-. split; [|apply only_horizon_refl]. cbn. unfold set_tbl. rewrite list_insert_id; [done|]. rewrite Ht. by destruct t.
  - bind_inv H as ([tb1 c1] & Hone & H). cbn.
    destruct (entry_steps fuel txn tr key v ((IEntry <$> ((fun e => (tr, e.1, e.2)) <$> ws)) ++ todo) t tb1 c c1 l rs log Ht Hone) as [Hrun1 Hoh1].
    set (t1 := mkMVCCTable (writeSet t) tb1 (tblID t)).
    assert (set_tbl l tr t tb1 !! tr = Some t1) as Ht1 by (apply list_lookup_insert_eq; by eapply lookup_lt_Some).
    destruct (IH t1 c1 (set_tbl l tr t tb1) Ht1 H) as [Hrun Hoh]. split; [|by eapply only_horizon_trans].
    etrans; [exact Hrun1|]. unfold set_tbl in *. cbn in Hrun. by rewrite list_insert_insert_eq in Hrun.
Qed.

Lemma commit_steps fuel txn tr todo t t' s c c' l rs log : l !! tr = Some t ->
  transactionCommit V ltR dflt fuel txn t c = Ok (s, t', c') ->
  run (mkSystem c l (WCommit txn ((IEntry <$> table_writes ltR l tr) ++ [IClean tr] ++ todo)) rs log)
      (mkSystem c' (<[tr := t']> l) (WCommit txn todo) rs log) /\ only_horizon c c' /\ s = SUCCESS.
Proof.
  intros Ht H. unfold transactionCommit in H. bind_inv H as ([tb c1] & He & [= <- <- <-]).
  destruct (entries_steps fuel txn tr (dedup_writes ltR (ws_set (writeSet t))) ([IClean tr] ++ todo) t tb c c1 l rs log Ht He) as [Hrun Hoh].
  split; [|done]. unfold table_writes. rewrite Ht. etrans; [exact Hrun|]. apply rtc_once.
  pose proof (w_clean V ltR dflt c1 (set_tbl l tr t tb) rs log txn tr todo (mkMVCCTable (writeSet t) tb (tblID t))) as Hc.
  unfold set_tbl in *. cbn in Hc. rewrite list_insert_insert_eq in Hc. apply Hc.
  apply list_lookup_insert_eq. by eapply lookup_lt_Some.
Qed.

Lemma run_writer x y : run x y -> rtc writer_step x y.
Proof. apply rtc_subrel. intros u v H. by exists LOther. Qed.

(** the calls of a group whose two tables sit at their ids *)
Record grouped (g : group T R) : Prop := {
  gr_len : length (g_tables g) = MAX_STATES_TOPO;
  gr_ids : forall tr t, g_tables g !! tr = Some t -> tblID t = tr;
  gr_states : regStates (g_ctx g) = [Some 0%nat; Some 1%nat];
}.

Lemma precommit_steps fuel txn tr (g g' : group T R) s rs log : grouped g ->
  transactionPreCommit V ltR dflt fuel txn tr g = Ok (s, g') ->
  s = SUCCESS /\ exists c1 st, setWriteStatus (g_ctx g) txn tr Commit = Ok c1 /\
    getWriteStatus c1 txn (other_table tr) = Ok st /\
    rtc writer_step (mkSystem (g_ctx g) (g_tables g) (WBegun txn) rs log)
      (if decide (st = Commit) then mkSystem (g_ctx g') (g_tables g') WIdle rs
         ((txn, table_writes ltR (g_tables g) tr ++ table_writes ltR (g_tables g) (other_table tr)) :: log)
       else mkSystem (g_ctx g') (g_tables g') (WBegun txn) rs log).
Proof.
  destruct g as [c l]. intros [Hlen Hids Hst] H. cbn in *. unfold transactionPreCommit in H. cbn in H.
  bind_inv H as (t & Ht%get_at_Ok & H). rewrite (Hids tr t Ht) in H.
  assert (tr < MAX_STATES_TOPO)%nat as Htr by (apply lookup_lt_Some in Ht; lia). fold (other_table tr) in H.
  bind_inv H as (c1 & Hset & H). bind_inv H as (st & Hget & H).
  pose proof (w_vote V ltR dflt c l rs log txn tr c1 st Htr Hset Hget) as Hvote.
  destruct (decide (st = Commit)) as [->|Hne].
  2: { injection H as <- <-. split; [done|]. exists c1, st. rewrite decide_False by done. split_and!; [done|done|].
       apply rtc_once. by exists LOther. }
  bind_inv H as ([s1 g1] & Hc1 & H). unfold commit_at in Hc1. cbn in Hc1. rewrite (get_at_Some _ _ _ Ht) in Hc1. cbn in Hc1.
  bind_inv Hc1 as ([[s0 t'] c2] & Htc & Hc1). unfold set_table in Hc1. cbn in Hc1.
  rewrite set_at_lt in Hc1 by (by eapply lookup_lt_Some). cbn in Hc1. injection Hc1 as <- <-.
  set (rest := (IEntry <$> table_writes ltR l (other_table tr)) ++ [IClean (other_table tr)] ++
    [IPublish (table_writes ltR l tr ++ table_writes ltR l (other_table tr)); ILeave]).
  destruct (commit_steps fuel txn tr rest t t' s0 c1 c2 l rs log Ht Htc) as (Hrun1 & Hoh1 & ->).
  rewrite decide_True in H by done. cbn in H.
  assert (regStates c2 = [Some 0%nat; Some 1%nat]) as Hst2.
  { destruct Hoh1 as [x ->]. cbn. by rewrite (setWriteStatus_regStates _ _ _ _ _ Hset). }
  rewrite Hst2 in H. assert (get_at [Some 0%nat; Some 1%nat] (other_table tr) = Ok (Some (other_table tr))) as Ho
    by (destruct tr; done). rewrite Ho in H. cbn in H.
  assert (other_table tr <> tr) as Hno by (destruct tr; done).
  bind_inv H as ([s2 g2] & Hc2 & H). unfold commit_at in Hc2. cbn in Hc2.
  bind_inv Hc2 as (u & Hu%get_at_Ok & Hc2). bind_inv Hc2 as ([[s3 u'] c3] & Hucommit & Hc2).
  unfold set_table in Hc2. cbn in Hc2. rewrite set_at_lt in Hc2 by (by eapply lookup_lt_Some). cbn in Hc2. injection Hc2 as <- <-.
  destruct (commit_steps fuel txn (other_table tr) [IPublish (table_writes ltR l tr ++ table_writes ltR l (other_table tr)); ILeave]
    u u' s3 c2 c3 (<[tr:=t']> l) rs log Hu Hucommit) as (Hrun2 & _ & ->).
  assert (table_writes ltR (<[tr:=t']> l) (other_table tr) = table_writes ltR l (other_table tr)) as Hw
    by (unfold table_writes; by rewrite list_lookup_insert_ne).
  rewrite Hw in Hrun2. cbn in H. bind_inv H as (c4 & Hpub & H). bind_inv H as (c5 & Hrem & [= <- <-]).
  split; [done|]. exists c1, Commit. rewrite decide_True by done. split_and!; [done|done|]. cbn.
  eapply rtc_l; [exists LOther; exact Hvote|].
  etrans; [apply run_writer; exact Hrun1|]. etrans; [apply run_writer; exact Hrun2|].
  eapply rtc_l; [exists LPublish; by apply w_publish|]. apply rtc_once. exists LOther. by apply w_leave.
Qed.

Lemma getByKey_steps txn key tr t c c' r ts0 l w rs log rd : l !! tr = Some t -> ws_txnID (writeSet t) <> txn ->
  locked w tr key = false -> rs !! txn = Some rd -> rd_phase rd = RReady -> getReadCTS c txn 0 = Ok ts0 ->
  mvcc_getByKey txn key t c = Ok (r, c') ->
  exists ts, rtc (reader_step txn) (mkSystem c l w rs log) (mkSystem c' l w (<[txn := answered rd tr key ts r]> rs) log).
Proof.
  intros Ht Hown Hlock Hrd Hp Hts H. unfold mvcc_getByKey in H. rewrite (proj2 (Z.eqb_neq _ _) Hown) in H.
  destruct (tbl_get (tbl t) key) as [o|] eqn:Ho.
  2: { injection H as <- <-. exists ts0. apply rtc_once. split; [by eapply r_missing|]. intros. by apply lookup_insert_ne. }
  rewrite Hts in H. cbn in H. set (rd1 := mkReader (RCopied tr key o) (rd_answers rd)).
  assert (rtc (reader_step txn) (mkSystem c l w rs log) (mkSystem c l w (<[txn := rd1]> rs) log)) as Hcopy
    by (apply rtc_once; split; [by eapply r_copy|intros; by apply lookup_insert_ne]).
  destruct (Z.eqb_spec ts0 0) as [->|Hnz].
  - bind_inv H as ([last c1] & Hfirst & H). bind_inv Hfirst as (last' & Hlast & Hfirst).
    bind_inv Hfirst as (c2 & Hset & [= <- <-]). exists last'. etrans; [exact Hcopy|].
    eapply rtc_l; [split; [eapply (r_load c l w (<[txn := rd1]> rs) log txn rd1); [apply lookup_insert_eq|done|done|done]|intros; by apply lookup_insert_ne]|].
    rewrite insert_insert_eq. apply rtc_once. split; [|intros; cbn; by rewrite ?lookup_insert_ne by done].
    assert (read_copy o last' = Ok r /\ c2 = c') as [Hr <-].
    { unfold read_copy. destruct (getCurrent o last' =? -1); [by injection H as <- <-|].
      bind_inv H as (v & Hv & [= <- <-]). cbn. by rewrite Hv. }
    pose proof (r_store c l w (<[txn := mkReader (RLoaded tr key o last') (rd_answers rd1)]> rs) log txn
      (mkReader (RLoaded tr key o last') (rd_answers rd1)) tr key o last' c2 r) as Hs.
    rewrite insert_insert_eq in Hs. apply Hs; [apply lookup_insert_eq|done|done|done].
  - cbn in H. exists ts0. etrans; [exact Hcopy|]. apply rtc_once. split; [|intros; cbn; by rewrite ?lookup_insert_ne by done].
    assert (read_copy o ts0 = Ok r /\ c = c') as [Hr <-].
    { unfold read_copy. destruct (getCurrent o ts0 =? -1); [by injection H as <- <-|].
      bind_inv H as (v & Hv & [= <- <-]). cbn. by rewrite Hv. }
    pose proof (r_read c l w (<[txn := rd1]> rs) log txn rd1 tr key o ts0 r) as Hs.
    rewrite insert_insert_eq in Hs. apply Hs; [apply lookup_insert_eq|done|done|done|done].
Qed.

(** C4: the functional calls are runs of the steps, of the caller alone.  In a
    group whose two tables sit at their ids, whatever [transactionPreCommit]
    computes from a transaction that has begun is reached by steps of the writer
    ([writer_step]; no reader moves): if the other table has not voted, only the
    vote is recorded; otherwise both write sets are installed, published in the
    log under the transaction's id, and the writer is done.  Whatever
    [getByKey] computes for a reading transaction that is between two calls, on
    a table that it does not write itself and while the array of its key is not
    being updated, is reached by steps of that reader ([reader_step]; neither
    the writer nor another reader moves), which record the call's result as its
    answer. *)
Theorem calls_are_runs (rs : gmap Z (reader R)) (log : list (Z * list (entry R))) :
  (forall fuel txn tr (g g' : group T R) s, grouped g ->
     transactionPreCommit V ltR dflt fuel txn tr g = Ok (s, g') ->
     s = SUCCESS /\ exists c1 st, setWriteStatus (g_ctx g) txn tr Commit = Ok c1 /\
       getWriteStatus c1 txn (other_table tr) = Ok st /\
       rtc writer_step (mkSystem (g_ctx g) (g_tables g) (WBegun txn) rs log)
         (if decide (st = Commit) then mkSystem (g_ctx g') (g_tables g') WIdle rs
            ((txn, table_writes ltR (g_tables g) tr ++ table_writes ltR (g_tables g) (other_table tr)) :: log)
          else mkSystem (g_ctx g') (g_tables g') (WBegun txn) rs log)) /\
  (forall txn key tr t c c' r l w rd ts0, l !! tr = Some t -> ws_txnID (writeSet t) <> txn ->
     locked w tr key = false -> rs !! txn = Some rd -> rd_phase rd = RReady -> getReadCTS c txn 0 = Ok ts0 ->
     mvcc_getByKey txn key t c = Ok (r, c') ->
     exists ts, rtc (reader_step txn) (mkSystem c l w rs log)
       (mkSystem c' l w (<[txn := answered rd tr key ts r]> rs) log)).
Proof.
  split.
  - intros fuel txn tr g g' s Hg Hrun. by eapply precommit_steps.
  - intros txn key tr t c c' r l w rd ts0 Ht Hown Hlock Hrd Hp Hts Hget. by eapply getByKey_steps.
Qed.
End simulation.

(** ** A group of two tables with one key *)

Module Concurrent.
#[local] Existing Instance Demo.Zltb_order.
Abbreviation tab := (HashMap.HashMapTable Z (MVCCObject Z)) (only parsing).

Definition idle_ctx : ctx :=
  mkCtx 30 [([0; 1], 8)] [Some 0%nat; Some 1%nat] ∅ 0 0 0 0 (replicate 64 (mkActiveTx 0 [Active; Active] [0])) 1 2 1.
Definition idle_table (id : nat) : MVCCTable tab Z := mkMVCCTable (mkWriteSet 0 []) (Demo.one_key Demo.obj1) id.
Definition first_log : list (Z * list (entry Z)) := [(5, [((0%nat, 1), 50); ((1%nat, 1), 50)])].
Definition idle_system : system tab Z := mkSystem idle_ctx [idle_table 0; idle_table 1] WIdle ∅ first_log.

Lemma idle_started : started 2 8 idle_system.
Proof.
  split.
  - apply ctx_wf_check. by vm_compute.
  - done.
  - done.
  - by repeat constructor.
  - intros txn a (pos & [Hb _] & _). cbn in Hb. by rewrite Z.bits_0 in Hb.
  - done.
  - intros tr t key Ht.
    assert (tbl t = Demo.one_key Demo.obj1 /\ (tr = 0%nat \/ tr = 1%nat)) as [-> Htr]
      by (destruct tr as [|[|]]; cbn in Ht; simplify_eq/=; auto).
    destruct (tbl_get (Demo.one_key Demo.obj1) key) as [o|] eqn:Ho.
    + change ((({[1 := Demo.obj1]} : gmap Z (MVCCObject Z)) !! key) = Some o) in Ho.
      apply lookup_singleton_Some in Ho as [<- <-]. split; [apply Demo.obj1_wf|]. split.
      * intros i h [-> ->]%Demo.obj1_used. cbn. lia.
      * by destruct Htr as [-> | ->].
    + change ((({[1 := Demo.obj1]} : gmap Z (MVCCObject Z)) !! key) = None) in Ho.
      apply lookup_singleton_None in Ho. intros ts. cbn. destruct (5 <=? ts); [|done].
      unfold writes_of. destruct Htr as [-> | ->]; cbn;
        by rewrite ?lookup_insert_ne by congruence.
Qed.

(** one step of a run, by the rule that allows it *)
Ltac run_rule side tac := eapply rtc_l; [eexists; side; tac; try (vm_compute; reflexivity); try (vm_compute; congruence)
  |match goal with |- rtc _ ?x _ => let y := eval vm_compute in x in change x with y end].
Ltac wrule tac := run_rule ltac:(left) tac.
Ltac rrule tac := run_rule ltac:(right) tac.

Lemma first_read_straddles_commit :
  exists x, rtc (any_step 2 Z.ltb 0) idle_system x /\
    (rd_answers <$> s_readers x !! 30) =
      Some [mkAnswer 1 1 31 (SUCCESS, Some 71); mkAnswer 0 1 31 (SUCCESS, Some 50)] /\
    value_at (s_log x) 0 1 31 = Some 51.
Proof.
  eexists. split.
  - unfold idle_system.
    rrule ltac:(eapply r_begin).
    rrule ltac:(eapply r_copy with (txn := 30) (tr := 0%nat) (key := 1)).
    wrule ltac:(eapply w_begin).
    wrule ltac:(eapply w_insert with (tr := 0%nat) (key := 1) (v := 51)).
    wrule ltac:(eapply w_insert with (tr := 1%nat) (key := 1) (v := 71)).
    wrule ltac:(eapply w_vote with (tr := 0%nat); [unfold MAX_STATES_TOPO; lia|..]).
    wrule ltac:(eapply w_vote with (tr := 1%nat); [unfold MAX_STATES_TOPO; lia|..]).
    wrule ltac:(eapply w_update).
    wrule ltac:(eapply w_install with (f := fun o c => commit_update 2 0 31 71 o c) (s := idle_ctx)).
    wrule ltac:(eapply w_clean).
    wrule ltac:(eapply w_update).
    wrule ltac:(eapply w_install with (f := fun o c => commit_update 2 0 31 51 o c) (s := idle_ctx)).
    wrule ltac:(eapply w_clean).
    wrule ltac:(eapply w_publish).
    wrule ltac:(eapply w_leave).
    rrule ltac:(eapply r_load with (txn := 30)).
    rrule ltac:(eapply r_store with (txn := 30)).
    rrule ltac:(eapply r_copy with (txn := 30) (tr := 1%nat) (key := 1)).
    rrule ltac:(eapply r_read with (txn := 30)).
    apply rtc_refl.
  - by vm_compute.
Qed.

(** the same calls, the first read being complete before the publication *)
Ltac orderly_rule side tac ok := eapply rtc_l;
  [eexists; split; [side; tac; try (vm_compute; reflexivity); try (vm_compute; congruence)|ok]
  |match goal with |- rtc _ ?x _ => let y := eval vm_compute in x in change x with y end].
Ltac worder tac := orderly_rule ltac:(left) tac ltac:(first [exact I|vm_compute; reflexivity]).
Ltac rorder tac := orderly_rule ltac:(right) tac ltac:(first [exact I|vm_compute; reflexivity]).

(** a single reader, between two calls *)
Lemma ready_not_open (T R : Type) c l w log txn (answers : list (answer R)) :
  ~ first_read_open (T:=T) (mkSystem c l w {[txn := mkReader RReady answers]} log).
Proof. intros (t & rd & Hl & Hp). cbn in Hl. apply lookup_singleton_Some in Hl as [<- <-]. done. Qed.

Lemma snapshot_reads_witness :
  exists x an, rtc (orderly 2 Z.ltb 0) idle_system x /\
    (rd_answers <$> s_readers x !! 30) = Some [an; mkAnswer 0 1 8 (SUCCESS, Some 50)] /\
    an = mkAnswer 1 1 8 (SUCCESS, Some 50) /\ getLastCTS (s_ctx x) 0 = Ok 31 /\
    an_result an = read_result (value_at (s_log x) 1 1 8).
Proof.
  assert (exists x, rtc (orderly 2 Z.ltb 0) idle_system x /\ getLastCTS (s_ctx x) 0 = Ok 31 /\
    (s_readers x !! 30) = Some (mkReader RReady [mkAnswer 1 1 8 (SUCCESS, Some 50); mkAnswer 0 1 8 (SUCCESS, Some 50)]))
    as (x & Hrun & Hlast & Hrd).
  { eexists. split.
    - unfold idle_system.
      rorder ltac:(eapply r_begin).
      rorder ltac:(eapply r_copy with (txn := 30) (tr := 0%nat) (key := 1)).
      worder ltac:(eapply w_begin).
      worder ltac:(eapply w_insert with (tr := 0%nat) (key := 1) (v := 51)).
      worder ltac:(eapply w_insert with (tr := 1%nat) (key := 1) (v := 71)).
      worder ltac:(eapply w_vote with (tr := 0%nat); [unfold MAX_STATES_TOPO; lia|..]).
      worder ltac:(eapply w_vote with (tr := 1%nat); [unfold MAX_STATES_TOPO; lia|..]).
      worder ltac:(eapply w_update).
      worder ltac:(eapply w_install with (f := fun o c => commit_update 2 0 31 71 o c) (s := idle_ctx)).
      rorder ltac:(eapply r_load with (txn := 30)).
      worder ltac:(eapply w_clean).
      rorder ltac:(eapply r_store with (txn := 30)).
      worder ltac:(eapply w_update).
      worder ltac:(eapply w_install with (f := fun o c => commit_update 2 0 31 51 o c) (s := idle_ctx)).
      worder ltac:(eapply w_clean).
      orderly_rule ltac:(left) ltac:(eapply w_publish) ltac:(exact (ready_not_open tab Z _ _ _ _ 30 [mkAnswer 0 1 8 (SUCCESS, Some 50)])).
      worder ltac:(eapply w_leave).
      rorder ltac:(eapply r_copy with (txn := 30) (tr := 1%nat) (key := 1)).
      rorder ltac:(eapply r_read with (txn := 30)).
      apply rtc_refl.
    - by vm_compute. }
  exists x, (mkAnswer 1 1 8 (SUCCESS, Some 50)). split; [exact Hrun|]. rewrite Hrd. split_and!; [done|done|exact Hlast|].
  pose proof (proj1 (snapshot_reads 2 Z.ltb 0 8 idle_system x ltac:(lia) idle_started Hrun) 30 _ (mkAnswer 1 1 8 (SUCCESS, Some 50))
    Hrd ltac:(by left) ltac:(done)) as [_ H]. exact H.
Defined.

Lemma calls_are_runs_witness :
  (exists c' l' , rtc (writer_step 2 Z.ltb 0)
     (mkSystem (g_ctx (Demo.group2 [Active; Commit])) (g_tables (Demo.group2 [Active; Commit])) (WBegun 20) ∅ [])
     (mkSystem c' l' WIdle ∅ [(20, [((0%nat, 1), 51); ((1%nat, 2), 7)])])) /\
  exists ts, rtc (reader_step 10)
     (mkSystem (Demo.ctx2 5 1 [Active; Active]) [Demo.writer [(1, 51)] Demo.obj1 0] WIdle {[10 := mkReader RReady []]} [])
     (mkSystem (Demo.ctx2 5 1 [Active; Active]) [Demo.writer [(1, 51)] Demo.obj1 0] WIdle
        {[10 := mkReader RReady [mkAnswer 0 1 ts (SUCCESS, Some 50)]]} []).
Proof.
  split.
  - destruct (transactionPreCommit 2 Z.ltb 0 1 20 0 (Demo.group2 [Active; Commit])) as [[s g']|f] eqn:E; [|by vm_compute in E].
    destruct (proj1 (calls_are_runs 2 Z.ltb 0 ∅ []) 1%nat 20 0%nat (Demo.group2 [Active; Commit]) g' s) as (_ & c1 & st & Hset & Hget & Hrun).
    + split; [done| |done]. by intros [|[|tr]] t [= <-].
    + exact E.
    + vm_compute in Hset. injection Hset as <-. vm_compute in Hget. injection Hget as <-.
      exists (g_ctx g'), (g_tables g'). exact Hrun.
  - destruct (proj2 (calls_are_runs 2 Z.ltb 0 {[10 := mkReader RReady []]} []) 10 1 0%nat
      (Demo.writer [(1, 51)] Demo.obj1 0) (Demo.ctx2 5 1 [Active; Active]) (Demo.ctx2 5 1 [Active; Active]) (SUCCESS, Some 50)
      [Demo.writer [(1, 51)] Demo.obj1 0] WIdle (mkReader RReady []) 5) as [ts Hrun]; try by vm_compute.
    exists ts. unfold answered in Hrun. cbn in Hrun. rewrite insert_singleton_eq in Hrun. exact Hrun.
Defined.
End Concurrent.
