(* ===== verification/Stream.v ===== *)
(** * Stream: elements, punctuations and operators as transducers

    The messages exchanged over the data and punctuation channels (published
    with [publish(data, outdated)], [src/core/Punctuation.hpp]), and the run of
    an operator over a sequence of them.  An operator is a step from an input
    message and a state to the messages it publishes, in order, and the next
    state. *)

From S2P Require Import Prelude.

(** ** Punctuation types (Punctuation.hpp) *)
Inductive PType := PNone | EndOfStream | EndOfSubStream | WindowExpired | SlideExpired
  | TxBegin | TxCommit | TxAbort | PAll.

#[export] Instance PType_eq_dec : EqDecision PType.
Proof. solve_decision. Defined.

(** the bit values of the enumerators *)
Definition ptype_bits (p : PType) : Z :=
  match p with
  | PNone => 0
  | EndOfStream => Z.shiftl 1 0
  | EndOfSubStream => Z.shiftl 1 1
  | WindowExpired => Z.shiftl 1 2
  | SlideExpired => Z.shiftl 1 3
  | TxBegin => Z.shiftl 1 4
  | TxCommit => Z.shiftl 1 5
  | TxAbort => Z.shiftl 1 6
  | PAll => u32 (Z.lnot 0)
  end.

(** a message: a data element with its outdated flag, or a punctuation *)
Inductive event (A : Type) :=
  | Data (a : A) (outdated : bool)
  | Punct (p : PType).
Arguments Data {A} a outdated.
Arguments Punct {A} p.

(** ** The last [n] elements of a list *)

Section lastn.
Context {A : Type}.

Definition lastn (n : nat) (l : list A) : list A := drop (length l - n) l.

Lemma lastn_length n l : length (lastn n l) = Nat.min n (length l).
Proof. unfold lastn. rewrite length_drop. lia. Qed.

Lemma take_lastn n l : take (length l - n) l ++ lastn n l = l.
Proof. apply take_drop. Qed.

(** appending an element to a list of which only the last [n] are kept *)
Lemma lastn_snoc n l x :
  let b := lastn n l ++ [x] in
  drop (length b - n) b = lastn n (l ++ [x]) /\
  take (length l - n) l ++ take (length b - n) b = take (length (l ++ [x]) - n) (l ++ [x]).
Proof.
  cbv zeta. set (b := lastn n l ++ [x]).
  assert (l ++ [x] = take (length l - n) l ++ b) as Heq by (unfold b; by rewrite app_assoc, take_lastn).
  assert (length b = S (Nat.min n (length l))) as Hb by (unfold b; rewrite length_app, lastn_length; simpl; lia).
  assert (length (take (length l - n) l) = (length l - n)%nat) as Ht by (rewrite length_take; lia).
  assert (length (l ++ [x]) = S (length l)) as Hl by (rewrite length_app; simpl; lia).
  unfold lastn at 1. rewrite Hl, Heq. split.
  - rewrite drop_app, Ht, (drop_ge (take _ _)) by lia. cbn [app]. f_equal. lia.
  - rewrite take_app, Ht, (take_ge (take _ _)) by lia. f_equal. f_equal. lia.
Qed.
End lastn.

(** ** Running an operator *)

Section run.
Context {S A B : Type} (step : A -> S -> result (list B * S)).

Fixpoint run (xs : list A) (s : S) : result (list B * S) :=
  match xs with
  | [] => Ok ([], s)
  | x :: rest =>
      '(out, s) ← step x s;
      '(out', s) ← run rest s;
      Ok (out ++ out', s)
  end.

Lemma run_app xs ys s :
  run (xs ++ ys) s = ('(o1, s) ← run xs s; '(o2, s) ← run ys s; Ok (o1 ++ o2, s)).
Proof.
  revert s. induction xs as [|x xs IH]; intros s; simpl.
  - by destruct (run ys s) as [[o s']|f].
  - destruct (step x s) as [[o s1]|f]; simpl; [|done]. rewrite IH.
    destruct (run xs s1) as [[o' s2]|f]; simpl; [|done].
    destruct (run ys s2) as [[o'' s3]|f]; simpl; [|done]. by rewrite app_assoc.
Qed.

Lemma run_step_then x xs s o1 s1 : step x s = Ok (o1, s1) ->
  run (x :: xs) s = ('(o2, s2) ← run xs s1; Ok (o1 ++ o2, s2)).
Proof. intros H. cbn [run]. by rewrite H. Qed.

Lemma run_cons x xs s o1 s1 o2 s2 :
  step x s = Ok (o1, s1) -> run xs s1 = Ok (o2, s2) -> run (x :: xs) s = Ok (o1 ++ o2, s2).
Proof. intros H1 H2. by rewrite (run_step_then x xs s o1 s1 H1), H2. Qed.

Lemma run_snoc xs x s o1 s1 o2 s2 :
  run xs s = Ok (o1, s1) -> step x s1 = Ok (o2, s2) -> run (xs ++ [x]) s = Ok (o1 ++ o2, s2).
Proof. intros H1 H2. rewrite run_app, H1. simpl. rewrite H2. simpl. by rewrite app_nil_r. Qed.

(** an invariant of the single step holds after a run *)
Lemma run_invariant (P : list A -> S -> list B -> Prop) s0 :
  P [] s0 [] ->
  (forall xs x s o, P xs s o -> exists o' s', step x s = Ok (o', s') /\ P (xs ++ [x]) s' (o ++ o')) ->
  forall xs, exists o s, run xs s0 = Ok (o, s) /\ P xs s o.
Proof.
  intros H0 Hstep xs. induction xs as [|x xs IH] using rev_ind; [by exists [], s0|].
  destruct IH as (o & s & Hrun & HP). destruct (Hstep xs x s o HP) as (o' & s' & Hs & HP').
  exists (o ++ o'), s'. split; [|done]. by eapply run_snoc.
Qed.
End run.

(** ** Reading an output stream *)

Section outputs.
Context {A : Type}.

Fixpoint valids (l : list (event A)) : list A :=
  match l with
  | [] => []
  | Data a false :: rest => a :: valids rest
  | _ :: rest => valids rest
  end.

Fixpoint outdateds (l : list (event A)) : list A :=
  match l with
  | [] => []
  | Data a true :: rest => a :: outdateds rest
  | _ :: rest => outdateds rest
  end.

Lemma valids_app l l' : valids (l ++ l') = valids l ++ valids l'.
Proof. induction l as [|[a [|]|p] l IH]; simpl; by rewrite ?IH. Qed.

Lemma outdateds_app l l' : outdateds (l ++ l') = outdateds l ++ outdateds l'.
Proof. induction l as [|[a [|]|p] l IH]; simpl; by rewrite ?IH. Qed.

Lemma valids_retract l : valids ((fun a => Data a true) <$> l) = [].
Proof. by induction l. Qed.

Lemma outdateds_retract l : outdateds ((fun a => Data a true) <$> l) = l.
Proof. induction l as [|a l IH]; [done|]. rewrite fmap_cons. simpl. by f_equal. Qed.
End outputs.
