(* ===== verification/PubSub.v ===== *)
(** * PubSub: signals, slots, channels and subscriptions

    [src/pubsub/].  A signal calls the slots connected to it; an output channel
    has a signal, an input channel gives its slot, and a subscription between
    the two can be closed from either side or by its handle.  [OneToManySignal]
    and [OneToOneSignal] implement the interface [SignalOps] with the laws
    [SignalLaws]; the channels are verified against the interface.  The last part
    is about [SynchronizedSlot] and threads. *)

From S2P Require Import Prelude.

(** ** Values and temporaries

    An argument is forwarded with its value category.  The slots are
    [std::function]s that take their arguments by value: an lvalue is copied into
    each call, a temporary is moved into the first one, and [moved] is what the
    later ones find. *)
Inductive category := LValue | RValue.

#[export] Instance category_eq_dec : EqDecision category.
Proof. solve_decision. Defined.

Section forward.
Context {F A : Type} (moved : A -> A).

(** what is left in an argument after it was passed on *)
Definition forward (cat : category) (data : A) : A :=
  match cat with LValue => data | RValue => moved data end.

(** the calls of a list of slots *)
Fixpoint invoke (cat : category) (data : A) (slots : list F) : list (F * A) :=
  match slots with
  | [] => []
  | f :: slots => (f, data) :: invoke cat (forward cat data) slots
  end.

Lemma invoke_lvalue data slots : invoke LValue data slots = (fun f => (f, data)) <$> slots.
Proof. induction slots as [|f slots IH]; [done|]. rewrite fmap_cons. cbn [invoke forward]. by rewrite IH. Qed.

Lemma invoke_rvalue data slots : (forall x, moved (moved x) = moved x) ->
  invoke RValue data slots = match slots with [] => [] | s :: ss => (s, data) :: ((fun s => (s, moved data)) <$> ss) end.
Proof.
  intros Hm. destruct slots as [|f slots]; [done|]. cbn [invoke forward]. f_equal.
  induction slots as [|f' slots IH]; [done|]. rewrite fmap_cons. cbn [invoke forward]. by rewrite Hm, IH.
Qed.
End forward.

(** ** The interface of signals *)

Class SignalOps (Sig F : Type) := {
  sig_new : Sig;
  sig_connect : option F -> Sig -> result (Z * Sig);
  sig_disconnect : Z -> Sig -> result Sig;
  sig_publish : forall {A}, (A -> A) -> category -> A -> Sig -> list (F * A);
}.

(** [connected]: the slots in the order of their connection, each with its handle;
    [can_connect]: the signal has room for one more *)
Class SignalLaws (Sig F : Type) {ops : SignalOps Sig F} := {
  sig_wf : Sig -> Prop;
  connected : Sig -> list (Z * F);
  can_connect : Sig -> Prop;
  sig_new_ok : sig_wf sig_new /\ connected sig_new = [];
  sig_connected_nodup : forall s, sig_wf s -> NoDup (connected s).*1;
  sig_connect_ok : forall f s, sig_wf s -> can_connect s -> exists c s',
    sig_connect (Some f) s = Ok (c, s') /\ sig_wf s' /\ connected s' = connected s ++ [(c, f)];
  sig_disconnect_ok : forall c s, sig_wf s -> c ∈ (connected s).*1 -> exists s',
    sig_disconnect c s = Ok s' /\ sig_wf s' /\ connected s' = filter (fun e => e.1 <> c) (connected s);
  sig_publish_ok : forall A (moved : A -> A) cat data s, sig_wf s ->
    sig_publish moved cat data s = invoke moved cat data (connected s).*2;
}.

(** ** OneToManySignal *)

Section one_to_many.
Context {F : Type}.

(** a slot may be an empty function object *)
Record OneToManySignal := mkOneToMany { mNextSlotID : Z; mSlots : list (Z * option F) }.

Definition otm_connect (slot : option F) (s : OneToManySignal) : Z * OneToManySignal :=
  let slotID := mNextSlotID s in
  (slotID, mkOneToMany (u32 (slotID + 1)) (mSlots s ++ [(slotID, slot)])).

(** [std::find_if] and [erase] *)
Fixpoint erase_slot (connection : Z) (slots : list (Z * option F)) : option (list (Z * option F)) :=
  match slots with
  | [] => None
  | e :: slots => if e.1 =? connection then Some slots else cons e <$> erase_slot connection slots
  end.

Definition otm_disconnect (connection : Z) (s : OneToManySignal) : result OneToManySignal :=
  match erase_slot connection (mSlots s) with
  | Some slots => Ok (mkOneToMany (mNextSlotID s) slots)
  | None => Err AssertFailed
  end.

Fixpoint otm_call {A} (moved : A -> A) (cat : category) (data : A) (slots : list (Z * option F)) : list (F * A) :=
  match slots with
  | [] => []
  | (_, Some slot) :: slots => (slot, data) :: otm_call moved cat (forward moved cat data) slots
  | (_, None) :: slots => otm_call moved cat data slots
  end.

#[export] Instance OneToMany_ops : SignalOps OneToManySignal F := {|
  sig_new := mkOneToMany 0 [];
  sig_connect slot s := Ok (otm_connect slot s);
  sig_disconnect := otm_disconnect;
  sig_publish A moved cat data s := otm_call moved cat data (mSlots s);
|}.

(** all slots hold functions, the handles are below the next one and different *)
Record otm_wf (s : OneToManySignal) : Prop := {
  otm_full : forall e, e ∈ mSlots s -> is_Some e.2;
  otm_range : forall e, e ∈ mSlots s -> 0 <= e.1 < mNextSlotID s;
  otm_next : 0 <= mNextSlotID s < 2^32;
  otm_nodup : NoDup (mSlots s).*1;
}.

Definition entry (e : Z * option F) : option (Z * F) :=
  match e.2 with Some f => Some (e.1, f) | None => None end.

Definition otm_connected (s : OneToManySignal) : list (Z * F) :=
  omap entry (mSlots s).

Lemma otm_connected_ids l : (forall e : Z * option F, e ∈ l -> is_Some e.2) ->
  (omap entry l).*1 = l.*1.
Proof.
  induction l as [|[c o] l IH]; intros Hl; [done|].
  destruct (Hl (c, o) ltac:(by left)) as [f Hf]. cbn [snd] in Hf. subst o. cbn [omap list_omap entry fst snd]. rewrite !fmap_cons, IH; [done|].
  intros e He. apply Hl. by right.
Qed.

Lemma erase_slot_filter c (l : list (Z * option F)) : NoDup l.*1 -> c ∈ l.*1 ->
  erase_slot c l = Some (filter (fun e => e.1 <> c) l).
Proof.
  induction l as [|e l IH]; intros Hnd Hin; [simpl in Hin; by apply elem_of_nil in Hin|]. rewrite fmap_cons in Hnd, Hin.
  apply NoDup_cons in Hnd as [Hne Hnd]. cbn [erase_slot]. rewrite filter_cons.
  destruct (Z.eqb_spec e.1 c) as [<-|Hc].
  - rewrite decide_False by tauto. f_equal. symmetry. apply filter_all. intros x Hx He. apply Hne.
    rewrite <- He. by apply list_elem_of_fmap_2.
  - rewrite decide_True by done. apply elem_of_cons in Hin as [->|Hin]; [done|]. by rewrite IH.
Qed.

Lemma omap_filter_fst c (l : list (Z * option F)) :
  omap entry (filter (fun e => e.1 <> c) l) =
  filter (fun e => e.1 <> c) (omap entry l).
Proof.
  induction l as [|[d o] l IH]; [done|]. rewrite filter_cons. case_decide as Hd; cbn [omap list_omap]; rewrite IH;
    destruct o as [f|]; try done; change (entry (d, Some f)) with (Some (d, f)); cbn iota;
    rewrite filter_cons; [by rewrite decide_True|rewrite decide_False; [done|intros Hne; by apply Hne]].
Qed.

Lemma otm_call_invoke {A} (moved : A -> A) cat data l :
  otm_call moved cat data l = invoke moved cat data (omap entry l).*2.
Proof.
  revert data. induction l as [|[c [f|]] l IH]; intros data; [done| |by apply IH].
  cbn [otm_call omap list_omap]. change (entry (c, Some f)) with (Some (c, f)). cbn iota. rewrite fmap_cons. cbn [invoke snd].
  by rewrite IH.
Qed.

(** the last handle is not given out: the next one would be 0 again *)
#[export] Program Instance OneToMany_laws : SignalLaws OneToManySignal F := {|
  sig_wf := otm_wf;
  connected := otm_connected;
  can_connect s := mNextSlotID s + 1 < 2^32;
|}.
Next Obligation.
  split; [|done]. split; cbn [mSlots mNextSlotID sig_new OneToMany_ops]; [by intros e ?%elem_of_nil..|lia|constructor].
Qed.
Next Obligation. intros s [Hf _ _ Hn]. unfold otm_connected. by rewrite otm_connected_ids. Qed.
Next Obligation.
  intros f s [Hf Hr Hx Hn] Hlt. exists (mNextSlotID s). eexists. split; [reflexivity|]. cbn [snd].
  rewrite u32_small by (unfold is_u32; lia). split.
  - split; cbn [mSlots mNextSlotID].
    + intros e [He|He%list_elem_of_singleton]%elem_of_app; [by apply Hf|subst e; by eexists].
    + intros e [He|He%list_elem_of_singleton]%elem_of_app; [specialize (Hr e He); lia|]. subst e. cbn [fst]. lia.
    + lia.
    + rewrite fmap_app. apply NoDup_app. split_and!; [done| |apply NoDup_singleton].
      intros c (e & -> & He)%list_elem_of_fmap Hc%list_elem_of_singleton. specialize (Hr e He). cbn [fst] in Hc. lia.
  - unfold otm_connected. cbn [mSlots]. by rewrite omap_app.
Qed.
Next Obligation.
  intros c s [Hf Hr Hx Hn] Hc. unfold otm_connected in Hc. rewrite otm_connected_ids in Hc by done.
  cbn [sig_disconnect OneToMany_ops]. unfold otm_disconnect. rewrite erase_slot_filter by done.
  eexists. split; [reflexivity|]. split.
  - split; cbn [mSlots mNextSlotID]; [|..|done|].
    + intros e [_ He]%list_elem_of_filter. by apply Hf.
    + intros e [_ He]%list_elem_of_filter. by apply Hr.
    + eapply sublist_NoDup; [exact Hn|]. apply fmap_sublist, sublist_filter.
  - apply omap_filter_fst.
Qed.
Next Obligation. intros A moved cat data s _. apply otm_call_invoke. Qed.
End one_to_many.
Arguments OneToManySignal F : clear implicits.

(** ** OneToOneSignal *)

Section one_to_one.
Context {F : Type}.

Record OneToOneSignal := mkOneToOne { mSlot : option F }.

Definition gSLOT_ID : Z := 0.

Definition oto_connect (slot : option F) (s : OneToOneSignal) : result (Z * OneToOneSignal) :=
  _ ← guard_else (match mSlot s with None => true | Some _ => false end) AssertFailed;
  Ok (gSLOT_ID, mkOneToOne slot).

Definition oto_disconnect (connection : Z) (s : OneToOneSignal) : result OneToOneSignal :=
  _ ← guard_else (connection =? gSLOT_ID) AssertFailed;
  Ok (mkOneToOne None).

Definition oto_call {A} (data : A) (s : OneToOneSignal) : list (F * A) :=
  match mSlot s with Some slot => [(slot, data)] | None => [] end.

#[export] Instance OneToOne_ops : SignalOps OneToOneSignal F := {|
  sig_new := mkOneToOne None;
  sig_connect := oto_connect;
  sig_disconnect := oto_disconnect;
  sig_publish A moved cat data s := oto_call data s;
|}.

#[export] Program Instance OneToOne_laws : SignalLaws OneToOneSignal F := {|
  sig_wf _ := True;
  connected s := match mSlot s with Some f => [(gSLOT_ID, f)] | None => [] end;
  can_connect s := mSlot s = None;
|}.
Next Obligation. done. Qed.
Next Obligation. intros [[f|]] _; [apply NoDup_singleton|constructor]. Qed.
Next Obligation. intros f [o] _ Ho. cbn in Ho. subst o. by do 2 eexists. Qed.
Next Obligation.
  intros c [[f|]] _ Hc; [|simpl in Hc; by apply elem_of_nil in Hc]. apply list_elem_of_singleton in Hc as ->.
  eexists. split; [reflexivity|]. done.
Qed.
Next Obligation. by intros A moved cat data [[f|]] _. Qed.

(** a second slot: the assertion fails *)
Lemma oto_connect_full f slot : oto_connect slot (mkOneToOne (Some f)) = Err AssertFailed.
Proof. done. Qed.
End one_to_one.
Arguments OneToOneSignal F : clear implicits.

(** ** Channels and subscriptions

    All channels of a program.  A channel, like a subscription, is a number, its
    place in the list; a slot is the number of the input channel whose consumer it
    calls.  An endpoint that was destroyed is one that [WeakRef::lock] does not
    find any more. *)
Section channels.
Context {Sig : Type} `{SL : SignalLaws Sig nat}.

Record OutputChannel := mkOutput { out_alive : bool; mSignal : Sig; out_subscriptions : gset nat }.
Record InputChannel := mkInput { in_alive : bool; in_subscriptions : gset nat }.
Record Subscription := mkSubscription { mPublisher : nat; mSubscriber : nat; mConnection : Z; mIsConnected : bool }.

Record channels := mkChannels {
  outputs : list OutputChannel;
  inputs : list InputChannel;
  subscriptions : list Subscription;
}.

Definition no_channels : channels := mkChannels [] [] [].

Definition update_output (p : nat) (f : OutputChannel -> OutputChannel) (w : channels) : channels :=
  mkChannels (alter f p (outputs w)) (inputs w) (subscriptions w).
Definition update_input (s : nat) (f : InputChannel -> InputChannel) (w : channels) : channels :=
  mkChannels (outputs w) (alter f s (inputs w)) (subscriptions w).
Definition update_subscription (h : nat) (f : Subscription -> Subscription) (w : channels) : channels :=
  mkChannels (outputs w) (inputs w) (alter f h (subscriptions w)).

Definition new_output (w : channels) : channels :=
  mkChannels (outputs w ++ [mkOutput true sig_new ∅]) (inputs w) (subscriptions w).
Definition new_input (w : channels) : channels :=
  mkChannels (outputs w) (inputs w ++ [mkInput true ∅]) (subscriptions w).

(** [Channel::addSubscription] and [removeSubscription] *)
Definition out_add (h : nat) (o : OutputChannel) : OutputChannel := mkOutput (out_alive o) (mSignal o) ({[h]} ∪ out_subscriptions o).
Definition out_remove (h : nat) (o : OutputChannel) : OutputChannel := mkOutput (out_alive o) (mSignal o) (out_subscriptions o ∖ {[h]}).
Definition in_add (h : nat) (i : InputChannel) : InputChannel := mkInput (in_alive i) ({[h]} ∪ in_subscriptions i).
Definition in_remove (h : nat) (i : InputChannel) : InputChannel := mkInput (in_alive i) (in_subscriptions i ∖ {[h]}).
Definition with_signal (sig : Sig) (o : OutputChannel) : OutputChannel := mkOutput (out_alive o) sig (out_subscriptions o).

(** a reference to a channel that exists *)
Definition output_at (p : nat) (w : channels) : result OutputChannel :=
  o ← get_at (outputs w) p; _ ← guard_else (out_alive o) Dangling; Ok o.
Definition input_at (s : nat) (w : channels) : result InputChannel :=
  i ← get_at (inputs w) s; _ ← guard_else (in_alive i) Dangling; Ok i.

(** [OutputChannel::subscribe], through [connectChannels] *)
Definition subscribe (p s : nat) (w : channels) : result (nat * channels) :=
  o ← output_at p w;
  _ ← input_at s w;
  '(connection, sig) ← sig_connect (Some s) (mSignal o);
  let h := length (subscriptions w) in
  let w := mkChannels (outputs w) (inputs w) (subscriptions w ++ [mkSubscription p s connection true]) in
  let w := update_output p (fun o => out_add h (with_signal sig o)) w in
  Ok (h, update_input s (in_add h) w).

(** [Subscription::closeSubscription] *)
Definition close (h : nat) (w : channels) : result channels :=
  sub ← get_at (subscriptions w) h;
  if mIsConnected sub then
    o ← get_at (outputs w) (mPublisher sub);
    w ← (if out_alive o then
           sig ← sig_disconnect (mConnection sub) (mSignal o);
           Ok (update_output (mPublisher sub) (fun o => out_remove h (with_signal sig o)) w)
         else Ok w);
    i ← get_at (inputs w) (mSubscriber sub);
    let w := if in_alive i then update_input (mSubscriber sub) (in_remove h) w else w in
    Ok (update_subscription h (fun sub => mkSubscription (mPublisher sub) (mSubscriber sub) (mConnection sub) false) w)
  else Ok w.

(** the loop of [~Channel]; fuel: the number of subscriptions *)
Fixpoint close_outgoing (fuel : nat) (p : nat) (w : channels) : result channels :=
  o ← get_at (outputs w) p;
  match elements (out_subscriptions o), fuel with
  | [], _ => Ok w
  | h :: _, S fuel =>
      let w := update_output p (out_remove h) w in
      w ← close h w;
      close_outgoing fuel p w
  | _, O => Err Waits
  end.

Fixpoint close_incoming (fuel : nat) (s : nat) (w : channels) : result channels :=
  i ← get_at (inputs w) s;
  match elements (in_subscriptions i), fuel with
  | [], _ => Ok w
  | h :: _, S fuel =>
      let w := update_input s (in_remove h) w in
      w ← close h w;
      close_incoming fuel s w
  | _, O => Err Waits
  end.

(** the end of a channel: its references are gone when the destructor runs *)
Definition destroy_output (p : nat) (w : channels) : result channels :=
  o ← output_at p w;
  close_outgoing (size (out_subscriptions o)) p (update_output p (fun o => mkOutput false (mSignal o) (out_subscriptions o)) w).
Definition destroy_input (s : nat) (w : channels) : result channels :=
  i ← input_at s w;
  close_incoming (size (in_subscriptions i)) s (update_input s (fun i => mkInput false (in_subscriptions i)) w).

(** [OutputChannel::publish]: the input channels called, with their arguments *)
Definition publish {A} (moved : A -> A) (cat : category) (data : A) (p : nat) (w : channels) : result (list (nat * A)) :=
  o ← output_at p w;
  Ok (sig_publish moved cat data (mSignal o)).

Definition isConnected (h : nat) (w : channels) : result bool :=
  sub ← get_at (subscriptions w) h; Ok (mIsConnected sub).

(** ** The specification: who is alive, and a list of subscriptions *)

Record subscribed := mkSubscribed { from : nat; to : nat; open : bool }.

Record spec := mkSpec { producers : list bool; consumers : list bool; entries : list subscribed }.

Definition abstract_entry (sub : Subscription) : subscribed := mkSubscribed (mPublisher sub) (mSubscriber sub) (mIsConnected sub).

Definition abstract (w : channels) : spec :=
  mkSpec (out_alive <$> outputs w) (in_alive <$> inputs w) (abstract_entry <$> subscriptions w).

Definition shut (e : subscribed) : subscribed := mkSubscribed (from e) (to e) false.
Definition shut_all (P : subscribed -> bool) (es : list subscribed) : list subscribed := (fun e => if P e then shut e else e) <$> es.

Definition spec_subscribe (p s : nat) (a : spec) : spec :=
  mkSpec (producers a) (consumers a) (entries a ++ [mkSubscribed p s true]).
Definition spec_close (h : nat) (a : spec) : spec := mkSpec (producers a) (consumers a) (alter shut h (entries a)).
Definition spec_destroy_output (p : nat) (a : spec) : spec :=
  mkSpec (<[p := false]> (producers a)) (consumers a) (shut_all (fun e => (from e =? p)%nat) (entries a)).
Definition spec_destroy_input (s : nat) (a : spec) : spec :=
  mkSpec (producers a) (<[s := false]> (consumers a)) (shut_all (fun e => (to e =? s)%nat) (entries a)).

(** the open subscriptions of a publisher, in the order of their creation *)
Definition receivers (p : nat) (a : spec) : list nat :=
  omap (fun e => if (from e =? p)%nat && open e then Some (to e) else None) (entries a).

(** programs: any calls, as long as the channels they name exist and a signal has
    room for the slots connected to it *)
Inductive step : channels -> channels -> Prop :=
  | step_new_output w : step w (new_output w)
  | step_new_input w : step w (new_input w)
  | step_subscribe p s h w w' o : output_at p w = Ok o -> can_connect (mSignal o) ->
      subscribe p s w = Ok (h, w') -> step w w'
  | step_close h w w' : close h w = Ok w' -> step w w'
  | step_destroy_output p w w' : destroy_output p w = Ok w' -> step w w'
  | step_destroy_input s w w' : destroy_input s w = Ok w' -> step w w'.

(** ** The invariant

    [x] and [y]: the channels in the middle of their destructor, which are not
    alive but have still to close their subscriptions. *)

(** what the slots of a publisher should be *)
Definition slot_of (p : nat) (sub : Subscription) : option (Z * nat) :=
  if (mPublisher sub =? p)%nat && mIsConnected sub then Some (mConnection sub, mSubscriber sub) else None.

Definition here {X} (x : option nat) (p : nat) (alive : X -> bool) (o : X) : Prop := alive o = true \/ x = Some p.

Record consistent (x y : option nat) (w : channels) : Prop := {
  co_signal : forall p o, outputs w !! p = Some o -> out_alive o = true ->
    sig_wf (mSignal o) /\ connected (mSignal o) = omap (slot_of p) (subscriptions w);
  co_out : forall p o, outputs w !! p = Some o -> here x p out_alive o -> forall h,
    h ∈ out_subscriptions o <-> exists sub, subscriptions w !! h = Some sub /\ mPublisher sub = p /\ mIsConnected sub = true;
  co_in : forall s i, inputs w !! s = Some i -> here y s in_alive i -> forall h,
    h ∈ in_subscriptions i <-> exists sub, subscriptions w !! h = Some sub /\ mSubscriber sub = s /\ mIsConnected sub = true;
  co_ends : forall h sub, subscriptions w !! h = Some sub -> exists o i,
    outputs w !! mPublisher sub = Some o /\ inputs w !! mSubscriber sub = Some i /\
    (mIsConnected sub = true -> here x (mPublisher sub) out_alive o /\ here y (mSubscriber sub) in_alive i)
}.

(** *** Lists *)

Lemma alter_lookup {X} (f : X -> X) i (l : list X) z : l !! i = Some z -> alter f i l = <[i := f z]> l.
Proof.
  intros Hz. apply list_eq. intros j. destruct (decide (i = j)) as [<-|Hne].
  - rewrite list_lookup_alter_eq, Hz, list_lookup_insert_eq by (by eapply lookup_lt_Some). done.
  - by rewrite list_lookup_alter_ne, list_lookup_insert_ne.
Qed.

Lemma omap_insert_same {X Y} (g : X -> option Y) i (l : list X) z z' : l !! i = Some z -> g z' = g z ->
  omap g (<[i := z']> l) = omap g l.
Proof.
  intros Hz Hg. apply list_elem_of_split_length in Hz as (l1 & l2 & -> & ->).
  rewrite insert_app_r_alt, Nat.sub_diag by lia. cbn [insert list_insert].
  rewrite !omap_app. cbn [omap list_omap]. by rewrite Hg.
Qed.

(** taking one entry out of a list whose keys are different *)
Lemma omap_insert_drop {X Y} (g : X -> option (Z * Y)) i (l : list X) z z' c y : l !! i = Some z ->
  g z = Some (c, y) -> g z' = None -> NoDup (omap g l).*1 ->
  omap g (<[i := z']> l) = filter (fun e => e.1 <> c) (omap g l).
Proof.
  intros Hz Hg Hg' Hnd. apply list_elem_of_split_length in Hz as (l1 & l2 & -> & ->). rewrite insert_app_r_alt, Nat.sub_diag by lia. cbn [insert list_insert].
  rewrite !omap_app in *. cbn [omap list_omap] in *. rewrite Hg, Hg' in *.
  rewrite fmap_app, fmap_cons in Hnd. apply NoDup_app in Hnd as (_ & Hd & [Hc _]%NoDup_cons).
  rewrite filter_app, filter_cons, decide_False by (intros Hne; by apply Hne).
  cbn [fst] in *. rewrite !filter_all; [done|..].
  - intros e He <-. apply Hc. by apply list_elem_of_fmap_2.
  - intros e He <-. apply (Hd e.1); [by apply list_elem_of_fmap_2|by left].
Qed.

(** *** Closing *)

(** all that closing a subscription changes *)
Definition closed_state (h : nat) (sub : Subscription) (o : OutputChannel) (i : InputChannel) (sig : Sig) (w : channels) : channels :=
  mkChannels (<[mPublisher sub := mkOutput (out_alive o) sig (out_subscriptions o ∖ {[h]})]> (outputs w))
    (<[mSubscriber sub := mkInput (in_alive i) (in_subscriptions i ∖ {[h]})]> (inputs w))
    (<[h := mkSubscription (mPublisher sub) (mSubscriber sub) (mConnection sub) false]> (subscriptions w)).

Lemma abstract_closed h sub o i sig w : subscriptions w !! h = Some sub ->
  outputs w !! mPublisher sub = Some o -> inputs w !! mSubscriber sub = Some i ->
  abstract (closed_state h sub o i sig w) = spec_close h (abstract w).
Proof.
  intros Hh Ho Hi. unfold abstract, spec_close, closed_state. cbn [outputs inputs subscriptions producers consumers entries].
  rewrite !list_fmap_insert. cbn [out_alive in_alive].
  rewrite (list_insert_id (out_alive <$> _)) by (by rewrite list_lookup_fmap, Ho).
  rewrite (list_insert_id (in_alive <$> _)) by (by rewrite list_lookup_fmap, Hi).
  by rewrite (alter_lookup shut h _ (abstract_entry sub)) by (by rewrite list_lookup_fmap, Hh).
Qed.

(** who is in a set of subscriptions, after one was closed *)
Lemma closed_members h sub (g : Subscription -> nat) c (subs : list Subscription) (S : gset nat) :
  (forall a b d, g (mkSubscription a b d false) = g (mkSubscription a b d true)) ->
  subs !! h = Some sub ->
  (forall h', h' ∈ S <-> exists sub', subs !! h' = Some sub' /\ g sub' = c /\ mIsConnected sub' = true) ->
  forall h', h' ∈ S ∖ {[h]} <->
    exists sub', <[h := mkSubscription (mPublisher sub) (mSubscriber sub) (mConnection sub) false]> subs !! h' = Some sub' /\
      g sub' = c /\ mIsConnected sub' = true.
Proof.
  intros Hg Hh HS h'. rewrite elem_of_difference, elem_of_singleton, HS. destruct (decide (h' = h)) as [->|Hne].
  - rewrite list_lookup_insert_eq by (by eapply lookup_lt_Some). split; [by intros []|]. by intros (? & [= <-] & _ & [=]).
  - rewrite list_lookup_insert_ne by done. split; [by intros []|done].
Qed.

Lemma other_members h sub (g : Subscription -> nat) c (subs : list Subscription) (S : gset nat) :
  g sub <> c -> subs !! h = Some sub ->
  (forall h', h' ∈ S <-> exists sub', subs !! h' = Some sub' /\ g sub' = c /\ mIsConnected sub' = true) ->
  forall h', h' ∈ S <->
    exists sub', <[h := mkSubscription (mPublisher sub) (mSubscriber sub) (mConnection sub) false]> subs !! h' = Some sub' /\
      g sub' = c /\ mIsConnected sub' = true.
Proof.
  intros Hg Hh HS h'. rewrite HS. destruct (decide (h' = h)) as [->|Hne].
  - rewrite list_lookup_insert_eq by (by eapply lookup_lt_Some). split; [|by intros (? & [= <-] & _ & [=])].
    intros (sub' & Hs & Hc & _). rewrite Hh in Hs. by injection Hs as <-.
  - by rewrite list_lookup_insert_ne.
Qed.

Lemma lookup_insert_case {X} (l : list X) i j z z' : l !! i = Some z' -> <[i := z]> l !! j = if decide (j = i) then Some z else l !! j.
Proof.
  intros Hi. case_decide as Hj; [subst; by rewrite list_lookup_insert_eq by (by eapply lookup_lt_Some)|by rewrite list_lookup_insert_ne].
Qed.

(** an update that leaves [f] as it was *)
Lemma lookup_insert_keeps {X Y} (f : X -> Y) (l : list X) i z' z j z0 : l !! i = Some z' -> f z = f z' -> l !! j = Some z0 ->
  exists z1, <[i := z]> l !! j = Some z1 /\ f z1 = f z0.
Proof. intros Hi Hf Hj. rewrite (lookup_insert_case _ _ _ _ _ Hi). case_decide; [subst; eexists; split; [done|congruence]|by eexists]. Qed.

Lemma closed_consistent x y h sub o i sig w : consistent x y w -> subscriptions w !! h = Some sub -> mIsConnected sub = true ->
  outputs w !! mPublisher sub = Some o -> inputs w !! mSubscriber sub = Some i ->
  (out_alive o = true -> sig_wf sig /\ connected sig = filter (fun e => e.1 <> mConnection sub) (connected (mSignal o))) ->
  consistent x y (closed_state h sub o i sig w).
Proof.
  intros [Hsig Hout Hin Hends] Hh Hc Ho Hi Hs. unfold closed_state.
  split; cbn [outputs inputs subscriptions].
  - intros p o' Hp Ha. rewrite (lookup_insert_case _ _ _ _ _ Ho) in Hp. case_decide as Hpp.
    + injection Hp as <-. subst p. cbn [out_alive mSignal] in *. destruct (Hs Ha) as [Hwf ->]. split; [done|].
      destruct (Hsig _ _ Ho Ha) as [Hwf0 Hcon]. pose proof (sig_connected_nodup _ Hwf0) as Hnd. rewrite Hcon in *.
      rewrite (omap_insert_drop _ _ _ sub _ (mConnection sub) (mSubscriber sub)); [done..| | |done]; unfold slot_of.
      * by rewrite Hc, Nat.eqb_refl.
      * cbn. by rewrite andb_false_r.
    + destruct (Hsig _ _ Hp Ha) as [Hwf ->]. split; [done|]. symmetry. eapply omap_insert_same; [exact Hh|].
      unfold slot_of. cbn. by rewrite (proj2 (Nat.eqb_neq _ _)) by done.
  - intros p o' Hp Hx. rewrite (lookup_insert_case _ _ _ _ _ Ho) in Hp. case_decide as Hpp.
    + injection Hp as <-. subst p. cbn [out_subscriptions]. by apply closed_members, (Hout _ _ Ho).
    + apply other_members; [congruence|done|by apply Hout].
  - intros s i' Hp Hy. rewrite (lookup_insert_case _ _ _ _ _ Hi) in Hp. case_decide as Hpp.
    + injection Hp as <-. subst s. cbn [in_subscriptions]. by apply closed_members, (Hin _ _ Hi).
    + apply other_members; [congruence|done|by apply Hin].
  - intros h' sub' Hh'. rewrite (lookup_insert_case _ _ _ _ _ Hh) in Hh'.
    assert (exists sub0, subscriptions w !! h' = Some sub0 /\ mPublisher sub0 = mPublisher sub' /\ mSubscriber sub0 = mSubscriber sub' /\
      (mIsConnected sub' = true -> mIsConnected sub0 = true)) as (sub0 & H0 & Hp0 & Hs0 & Hc0).
    { case_decide; [subst h'; injection Hh' as <-; by exists sub|by exists sub']. }
    destruct (Hends _ _ H0) as (o0 & i0 & Ho0 & Hi0 & Hl0). rewrite Hp0, Hs0 in *.
    destruct (lookup_insert_keeps out_alive _ _ _ (mkOutput (out_alive o) sig (out_subscriptions o ∖ {[h]})) _ _ Ho eq_refl Ho0)
      as (o1 & Ho1 & Ha1).
    destruct (lookup_insert_keeps in_alive _ _ _ (mkInput (in_alive i) (in_subscriptions i ∖ {[h]})) _ _ Hi eq_refl Hi0)
      as (i1 & Hi1 & Hb1).
    exists o1, i1. split_and!; [done..|]. intros Hcc. destruct (Hl0 (Hc0 Hcc)). unfold here in *. by rewrite Ha1, Hb1.
Qed.

(** what [close] finds *)
Lemma close_open h sub o i sig w : subscriptions w !! h = Some sub -> mIsConnected sub = true ->
  outputs w !! mPublisher sub = Some o -> inputs w !! mSubscriber sub = Some i ->
  (if out_alive o then sig_disconnect (mConnection sub) (mSignal o) = Ok sig else sig = mSignal o) ->
  close h w = Ok (mkChannels
    (if out_alive o then <[mPublisher sub := mkOutput true sig (out_subscriptions o ∖ {[h]})]> (outputs w) else outputs w)
    (if in_alive i then <[mSubscriber sub := mkInput true (in_subscriptions i ∖ {[h]})]> (inputs w) else inputs w)
    (<[h := mkSubscription (mPublisher sub) (mSubscriber sub) (mConnection sub) false]> (subscriptions w))).
Proof.
  intros Hh Hc Ho Hi Hs. unfold close. rewrite (get_at_Some _ _ _ Hh). run_step. rewrite Hc, (get_at_Some _ _ _ Ho). run_step.
  destruct (out_alive o) eqn:Ha.
  - rewrite Hs. run_step. unfold update_output. cbn [inputs]. rewrite (get_at_Some _ _ _ Hi). run_step.
    rewrite (alter_lookup _ _ _ _ Ho). unfold update_subscription, update_input.
    destruct (in_alive i) eqn:Hb; cbn [outputs inputs subscriptions]; rewrite (alter_lookup _ _ _ _ Hh);
      [rewrite (alter_lookup _ _ _ _ Hi)|]; unfold out_remove, with_signal, in_remove; cbn [out_alive out_subscriptions mSignal];
      by rewrite Ha, ?Hb.
  - run_step. rewrite (get_at_Some _ _ _ Hi). run_step. unfold update_subscription, update_input.
    destruct (in_alive i) eqn:Hb; cbn [outputs inputs subscriptions]; rewrite (alter_lookup _ _ _ _ Hh);
      [rewrite (alter_lookup _ _ _ _ Hi)|]; unfold in_remove; by rewrite ?Hb.
Qed.

(** the publisher of an open subscription can close its slot *)
Lemma disconnects x y h sub o w : consistent x y w -> subscriptions w !! h = Some sub -> mIsConnected sub = true ->
  outputs w !! mPublisher sub = Some o -> exists sig,
    (if out_alive o then sig_disconnect (mConnection sub) (mSignal o) = Ok sig else sig = mSignal o) /\
    (out_alive o = true -> sig_wf sig /\ connected sig = filter (fun e => e.1 <> mConnection sub) (connected (mSignal o))).
Proof.
  intros [Hsig _ _ _] Hh Hc Ho. destruct (out_alive o) eqn:Ha; [|by exists (mSignal o)].
  destruct (Hsig _ _ Ho Ha) as [Hwf Hcon].
  destruct (sig_disconnect_ok (mConnection sub) (mSignal o) Hwf) as (sig & Hd & Hwf' & Hf); [|by exists sig].
  rewrite Hcon. apply list_elem_of_fmap. exists (mConnection sub, mSubscriber sub). split; [done|].
  apply list_elem_of_omap. exists sub. split; [by eapply list_elem_of_lookup_2|]. unfold slot_of. by rewrite Nat.eqb_refl, Hc.
Qed.

(** closing by the handle *)
Lemma close_handle h sub w : consistent None None w -> subscriptions w !! h = Some sub ->
  exists w', close h w = Ok w' /\ consistent None None w' /\ abstract w' = spec_close h (abstract w).
Proof.
  intros Hco Hh. destruct (mIsConnected sub) eqn:Hc.
  - destruct (co_ends _ _ _ Hco _ _ Hh) as (o & i & Ho & Hi & Hl). destruct (Hl Hc) as [[Ha|[=]] [Hb|[=]]].
    destruct (disconnects _ _ _ _ _ _ Hco Hh Hc Ho) as (sig & Hs & Hs').
    exists (closed_state h sub o i sig w). split_and!; [|by apply closed_consistent|by apply abstract_closed].
    rewrite (close_open _ _ _ _ _ _ Hh Hc Ho Hi Hs). unfold closed_state. by rewrite Ha, Hb.
  - exists w. split_and!; [|done|].
    + unfold close. rewrite (get_at_Some _ _ _ Hh). run_step. by rewrite Hc.
    + unfold spec_close, abstract. cbn [producers consumers entries]. f_equal.
      rewrite (alter_lookup _ _ _ (abstract_entry sub)) by (by rewrite list_lookup_fmap, Hh).
      rewrite list_insert_id; [done|]. rewrite list_lookup_fmap, Hh. unfold shut, abstract_entry. cbn. by rewrite Hc.
Qed.

(** closing from the destructor of the publisher, and of the subscriber *)
Lemma close_from_output p o h w : consistent (Some p) None w -> outputs w !! p = Some o -> out_alive o = false ->
  h ∈ out_subscriptions o -> exists w' e,
    close h (update_output p (out_remove h) w) = Ok w' /\ consistent (Some p) None w' /\
    abstract w' = spec_close h (abstract w) /\ entries (abstract w) !! h = Some e /\ from e = p /\
    outputs w' !! p = Some (out_remove h o).
Proof.
  intros Hco Ho Ha Hin. apply (co_out _ _ _ Hco _ _ Ho) in Hin as (sub & Hh & Hp & Hc); [|by right]. subst p.
  destruct (co_ends _ _ _ Hco _ _ Hh) as (o' & i & Ho' & Hi & Hl). rewrite Ho in Ho'. injection Ho' as <-.
  destruct (Hl Hc) as [_ [Hb|[=]]].
  exists (closed_state h sub o i (mSignal o) w), (abstract_entry sub). split_and!.
  - rewrite (close_open h sub (out_remove h o) i (mSignal o)); unfold update_output; cbn [outputs inputs subscriptions]; try done.
    + unfold closed_state. unfold out_remove. cbn [out_alive]. rewrite Ha, Hb.
      rewrite (alter_lookup _ _ _ _ Ho). unfold out_remove. by rewrite Ha.
    + by rewrite list_lookup_alter_eq, Ho.
    + unfold out_remove. cbn [out_alive]. by rewrite Ha.
  - apply closed_consistent; try done. by rewrite Ha.
  - by apply abstract_closed.
  - unfold abstract. cbn [entries]. by rewrite list_lookup_fmap, Hh.
  - done.
  - unfold closed_state. cbn [outputs]. rewrite list_lookup_insert_eq by (by eapply lookup_lt_Some). done.
Qed.

Lemma close_from_input s i h w : consistent None (Some s) w -> inputs w !! s = Some i -> in_alive i = false ->
  h ∈ in_subscriptions i -> exists w' e,
    close h (update_input s (in_remove h) w) = Ok w' /\ consistent None (Some s) w' /\
    abstract w' = spec_close h (abstract w) /\ entries (abstract w) !! h = Some e /\ to e = s /\
    inputs w' !! s = Some (in_remove h i).
Proof.
  intros Hco Hi Hb Hin. apply (co_in _ _ _ Hco _ _ Hi) in Hin as (sub & Hh & Hs & Hc); [|by right]. subst s.
  destruct (co_ends _ _ _ Hco _ _ Hh) as (o & i' & Ho & Hi' & Hl). rewrite Hi in Hi'. injection Hi' as <-.
  destruct (Hl Hc) as [[Ha|[=]] _]. destruct (disconnects _ _ _ _ _ _ Hco Hh Hc Ho) as (sig & Hs & Hs').
  exists (closed_state h sub o i sig w), (abstract_entry sub). split_and!.
  - rewrite (close_open h sub o (in_remove h i) sig); unfold update_input; cbn [outputs inputs subscriptions]; try done.
    + unfold closed_state, in_remove. cbn [in_alive]. rewrite Ha, Hb.
      rewrite (alter_lookup _ _ _ _ Hi). unfold in_remove. by rewrite Hb.
    + by rewrite list_lookup_alter_eq, Hi.
  - by apply closed_consistent.
  - by apply abstract_closed.
  - unfold abstract. cbn [entries]. by rewrite list_lookup_fmap, Hh.
  - done.
  - unfold closed_state. cbn [inputs]. rewrite list_lookup_insert_eq by (by eapply lookup_lt_Some). done.
Qed.

(** *** The destructors *)

Lemma shut_all_alter (P : subscribed -> bool) h es e : es !! h = Some e -> P e = true -> P (shut e) = true ->
  shut_all P (alter shut h es) = shut_all P es.
Proof.
  intros Hh HP HP'. rewrite (alter_lookup _ _ _ _ Hh). unfold shut_all. rewrite list_fmap_insert, HP'.
  apply list_insert_id. by rewrite list_lookup_fmap, Hh; cbn [fmap option_fmap option_map]; rewrite HP.
Qed.

Lemma shut_all_closed (P : subscribed -> bool) es : (forall e, e ∈ es -> P e = true -> open e = false) -> shut_all P es = es.
Proof.
  intros H. unfold shut_all. rewrite <- (list_fmap_id es) at 2. apply list_fmap_ext. intros k e He%list_elem_of_lookup_2.
  destruct (P e) eqn:HP; [|done]. specialize (H e He HP). destruct e. cbn in H. by subst.
Qed.

(** a channel whose set of subscriptions is empty is no exception to the invariant *)
Lemma consistent_end_out p o w : consistent (Some p) None w -> outputs w !! p = Some o -> out_subscriptions o = ∅ ->
  consistent None None w /\ forall sub, sub ∈ subscriptions w -> mPublisher sub = p -> mIsConnected sub = false.
Proof.
  intros [Hsig Hout Hin Hends] Ho He.
  assert (forall sub, sub ∈ subscriptions w -> mPublisher sub = p -> mIsConnected sub = false) as Hcl.
  { intros sub [h Hh]%list_elem_of_lookup Hp. destruct (mIsConnected sub) eqn:Hc; [|done]. exfalso.
    assert (h ∈ out_subscriptions o) as Hm by (apply (Hout _ _ Ho); [by right|by exists sub]). rewrite He in Hm. by apply elem_of_empty in Hm. }
  split; [|done]. split; [done| |done|].
  - intros p' o' Ho' [Ha|[=]]. apply Hout; [done|by left].
  - intros h sub Hh. destruct (Hends _ _ Hh) as (o1 & i1 & Ho1 & Hi1 & Hl). exists o1, i1. split_and!; [done..|].
    intros Hc. destruct (Hl Hc) as [[Ha|[= Hp]] Hb]; [by split; [left|]|].
    rewrite (Hcl sub) in Hc; [done|by eapply list_elem_of_lookup_2|done].
Qed.

Lemma consistent_end_in s i w : consistent None (Some s) w -> inputs w !! s = Some i -> in_subscriptions i = ∅ ->
  consistent None None w /\ forall sub, sub ∈ subscriptions w -> mSubscriber sub = s -> mIsConnected sub = false.
Proof.
  intros [Hsig Hout Hin Hends] Hi He.
  assert (forall sub, sub ∈ subscriptions w -> mSubscriber sub = s -> mIsConnected sub = false) as Hcl.
  { intros sub [h Hh]%list_elem_of_lookup Hp. destruct (mIsConnected sub) eqn:Hc; [|done]. exfalso.
    assert (h ∈ in_subscriptions i) as Hm by (apply (Hin _ _ Hi); [by right|by exists sub]). rewrite He in Hm. by apply elem_of_empty in Hm. }
  split; [|done]. split; [done|done| |].
  - intros s' i' Hi' [Ha|[=]]. apply Hin; [done|by left].
  - intros h sub Hh. destruct (Hends _ _ Hh) as (o1 & i1 & Ho1 & Hi1 & Hl). exists o1, i1. split_and!; [done..|].
    intros Hc. destruct (Hl Hc) as [Ha [Hb|[= Hp]]]; [by split; [|left]|].
    rewrite (Hcl sub) in Hc; [done|by eapply list_elem_of_lookup_2|done].
Qed.

Lemma shut_all_abstract (P : subscribed -> bool) w : (forall sub, sub ∈ subscriptions w -> P (abstract_entry sub) = true -> mIsConnected sub = false) ->
  shut_all P (entries (abstract w)) = entries (abstract w).
Proof. intros H. apply shut_all_closed. intros e (sub & -> & Hs)%list_elem_of_fmap. by apply H. Qed.

Lemma elements_nil_inv (S : gset nat) : elements S = [] -> S = ∅.
Proof. intros H. apply leibniz_equiv. by apply elements_empty_inv. Qed.

Lemma elements_cons_inv (S : gset nat) h l : elements S = h :: l -> h ∈ S /\ size S = Datatypes.S (size (S ∖ {[h]})).
Proof.
  intros H. assert (h ∈ S) as Hin by (apply elem_of_elements; rewrite H; by left). split; [done|].
  rewrite size_difference by set_solver. rewrite size_singleton.
  assert (size S <> 0)%nat by (intros H0%size_empty_inv; set_solver). lia.
Qed.

Lemma close_outgoing_ok fuel p o w : consistent (Some p) None w -> outputs w !! p = Some o -> out_alive o = false ->
  size (out_subscriptions o) = fuel -> exists w', close_outgoing fuel p w = Ok w' /\ consistent None None w' /\
    abstract w' = mkSpec (producers (abstract w)) (consumers (abstract w)) (shut_all (fun e => (from e =? p)%nat) (entries (abstract w))).
Proof.
  revert o w. induction fuel as [|fuel IH]; intros o w Hco Ho Ha Hsz; cbn [close_outgoing]; rewrite (get_at_Some _ _ _ Ho); run_step;
    destruct (elements (out_subscriptions o)) as [|h l] eqn:He.
  1, 3: apply elements_nil_inv in He; destruct (consistent_end_out _ _ _ Hco Ho He) as [Hco' Hcl]; exists w; split_and!; [done..|];
    rewrite shut_all_abstract by (intros sub Hs Hp%Nat.eqb_eq; by apply Hcl); by destruct (abstract w).
  1: apply elements_cons_inv in He as [_ He]; lia.
  apply elements_cons_inv in He as [Hin Hsz'].
  destruct (close_from_output p o h w Hco Ho Ha Hin) as (w1 & e & -> & Hco1 & Habs & Hee & Hp & Ho1). run_step.
  destruct (IH _ _ Hco1 Ho1) as (w' & -> & Hco' & Habs'); [done|cbn [out_remove out_subscriptions]; lia|].
  exists w'. split_and!; [done..|]. rewrite Habs', Habs. unfold spec_close. cbn [producers consumers entries]. f_equal.
  apply (shut_all_alter _ _ _ e); [done|by apply Nat.eqb_eq..].
Qed.

Lemma close_incoming_ok fuel s i w : consistent None (Some s) w -> inputs w !! s = Some i -> in_alive i = false ->
  size (in_subscriptions i) = fuel -> exists w', close_incoming fuel s w = Ok w' /\ consistent None None w' /\
    abstract w' = mkSpec (producers (abstract w)) (consumers (abstract w)) (shut_all (fun e => (to e =? s)%nat) (entries (abstract w))).
Proof.
  revert i w. induction fuel as [|fuel IH]; intros i w Hco Hi Ha Hsz; cbn [close_incoming]; rewrite (get_at_Some _ _ _ Hi); run_step;
    destruct (elements (in_subscriptions i)) as [|h l] eqn:He.
  1, 3: apply elements_nil_inv in He; destruct (consistent_end_in _ _ _ Hco Hi He) as [Hco' Hcl]; exists w; split_and!; [done..|];
    rewrite shut_all_abstract by (intros sub Hs Hp%Nat.eqb_eq; by apply Hcl); by destruct (abstract w).
  1: apply elements_cons_inv in He as [_ He]; lia.
  apply elements_cons_inv in He as [Hin Hsz'].
  destruct (close_from_input s i h w Hco Hi Ha Hin) as (w1 & e & -> & Hco1 & Habs & Hee & Hp & Hi1). run_step.
  destruct (IH _ _ Hco1 Hi1) as (w' & -> & Hco' & Habs'); [done|cbn [in_remove in_subscriptions]; lia|].
  exists w'. split_and!; [done..|]. rewrite Habs', Habs. unfold spec_close. cbn [producers consumers entries]. f_equal.
  apply (shut_all_alter _ _ _ e); [done|by apply Nat.eqb_eq..].
Qed.

Lemma output_at_ok p w o : output_at p w = Ok o <-> outputs w !! p = Some o /\ out_alive o = true.
Proof.
  unfold output_at, get_at. destruct (outputs w !! p) as [o'|]; [|by split; [|intros []]]. run_step.
  destruct (out_alive o') eqn:Ha; cbn; split; [by intros [= <-]|by intros [[= ->] _]|done|]. intros [[= ->] H]. congruence.
Qed.

Lemma input_at_ok s w i : input_at s w = Ok i <-> inputs w !! s = Some i /\ in_alive i = true.
Proof.
  unfold input_at, get_at. destruct (inputs w !! s) as [i'|]; [|by split; [|intros []]]. run_step.
  destruct (in_alive i') eqn:Ha; cbn; split; [by intros [= <-]|by intros [[= ->] _]|done|]. intros [[= ->] H]. congruence.
Qed.

(** the start of a destructor *)
Lemma dying_output p o w : consistent None None w -> outputs w !! p = Some o -> out_alive o = true ->
  consistent (Some p) None (update_output p (fun o => mkOutput false (mSignal o) (out_subscriptions o)) w).
Proof.
  intros [Hsig Hout Hin Hends] Ho Ha. unfold update_output. rewrite (alter_lookup _ _ _ _ Ho). split; cbn [outputs inputs subscriptions].
  - intros p' o' Ho' Ha'. rewrite (lookup_insert_case _ _ _ _ _ Ho) in Ho'. case_decide; [by injection Ho' as <-|by apply (Hsig p')].
  - intros p' o' Ho' Hx. rewrite (lookup_insert_case _ _ _ _ _ Ho) in Ho'. case_decide.
    + injection Ho' as <-. subst p'. apply (Hout _ _ Ho). by left.
    + apply Hout; [done|]. destruct Hx as [Hx|[=]]; [by left|congruence].
  - done.
  - intros h sub Hh. destruct (Hends _ _ Hh) as (o1 & i1 & Ho1 & Hi1 & Hl). rewrite (lookup_insert_case _ _ _ _ _ Ho).
    case_decide as Hp; do 2 eexists; (split_and!; [done..|]); intros Hc; destruct (Hl Hc) as [[Hx|[=]] Hy]; (split; [|done]).
    + right. by rewrite Hp.
    + by left.
Qed.

Lemma dying_input s i w : consistent None None w -> inputs w !! s = Some i -> in_alive i = true ->
  consistent None (Some s) (update_input s (fun i => mkInput false (in_subscriptions i)) w).
Proof.
  intros [Hsig Hout Hin Hends] Hi Ha. unfold update_input. rewrite (alter_lookup _ _ _ _ Hi). split; cbn [outputs inputs subscriptions].
  - done.
  - done.
  - intros s' i' Hi' Hx. rewrite (lookup_insert_case _ _ _ _ _ Hi) in Hi'. case_decide.
    + injection Hi' as <-. subst s'. apply (Hin _ _ Hi). by left.
    + apply Hin; [done|]. destruct Hx as [Hx|[=]]; [by left|congruence].
  - intros h sub Hh. destruct (Hends _ _ Hh) as (o1 & i1 & Ho1 & Hi1 & Hl). rewrite (lookup_insert_case _ _ _ _ _ Hi).
    case_decide as Hp; do 2 eexists; (split_and!; [done..|]); intros Hc; destruct (Hl Hc) as [Hx [Hy|[=]]]; (split; [done|]).
    + right. by rewrite Hp.
    + by left.
Qed.

(** *** The operations *)

Lemma destroy_output_ok p o w : consistent None None w -> output_at p w = Ok o ->
  exists w', destroy_output p w = Ok w' /\ consistent None None w' /\ abstract w' = spec_destroy_output p (abstract w).
Proof.
  intros Hco Hat. pose proof Hat as [Ho Ha]%output_at_ok. unfold destroy_output. rewrite Hat. run_step.
  destruct (close_outgoing_ok (size (out_subscriptions o)) p (mkOutput false (mSignal o) (out_subscriptions o))
    (update_output p (fun o => mkOutput false (mSignal o) (out_subscriptions o)) w)) as (w' & -> & Hco' & Habs); [..|done|done|].
  - by eapply dying_output.
  - unfold update_output. cbn [outputs]. by rewrite list_lookup_alter_eq, Ho.
  - exists w'. split_and!; [done..|]. rewrite Habs. unfold update_output, abstract, spec_destroy_output.
    cbn [outputs inputs subscriptions producers consumers entries]. by rewrite (alter_lookup _ _ _ _ Ho), list_fmap_insert.
Qed.

Lemma destroy_input_ok s i w : consistent None None w -> input_at s w = Ok i ->
  exists w', destroy_input s w = Ok w' /\ consistent None None w' /\ abstract w' = spec_destroy_input s (abstract w).
Proof.
  intros Hco Hat. pose proof Hat as [Hi Ha]%input_at_ok. unfold destroy_input. rewrite Hat. run_step.
  destruct (close_incoming_ok (size (in_subscriptions i)) s (mkInput false (in_subscriptions i))
    (update_input s (fun i => mkInput false (in_subscriptions i)) w)) as (w' & -> & Hco' & Habs); [..|done|done|].
  - by eapply dying_input.
  - unfold update_input. cbn [inputs]. by rewrite list_lookup_alter_eq, Hi.
  - exists w'. split_and!; [done..|]. rewrite Habs. unfold update_input, abstract, spec_destroy_input.
    cbn [outputs inputs subscriptions producers consumers entries]. by rewrite (alter_lookup _ _ _ _ Hi), list_fmap_insert.
Qed.

(** the members of a set of subscriptions, when one is added *)
Lemma added_members (g : Subscription -> nat) c sub (subs : list Subscription) (S S' : gset nat) :
  mIsConnected sub = true ->
  (forall h, h ∈ S <-> exists sub', subs !! h = Some sub' /\ g sub' = c /\ mIsConnected sub' = true) ->
  S' = (if decide (g sub = c) then {[length subs]} ∪ S else S) ->
  forall h, h ∈ S' <-> exists sub', (subs ++ [sub]) !! h = Some sub' /\ g sub' = c /\ mIsConnected sub' = true.
Proof.
  intros Hc HS -> h. destruct (decide (h = length subs)) as [->|Hne].
  - rewrite list_lookup_middle by done. assert (length subs ∉ S) as Hn.
    { rewrite HS. intros (sub' & Hl%lookup_lt_Some & _). lia. }
    case_decide as Hg; [|split; [done|by intros (? & [= <-] & ? & _)]]. split; [intros _; by exists sub|]. intros _.
    apply elem_of_union. left. by apply elem_of_singleton.
  - assert ((subs ++ [sub]) !! h = subs !! h) as ->.
    { destruct (decide (h < length subs)%nat); [by apply lookup_app_l|]. rewrite !lookup_ge_None_2; [done|lia|rewrite length_app; simpl; lia]. }
    rewrite <- HS. case_decide; [|done]. rewrite elem_of_union, elem_of_singleton. tauto.
Qed.

Lemma subscribe_ok p s o i w : consistent None None w -> output_at p w = Ok o -> input_at s w = Ok i -> can_connect (mSignal o) ->
  exists w', subscribe p s w = Ok (length (subscriptions w), w') /\ consistent None None w' /\ abstract w' = spec_subscribe p s (abstract w).
Proof.
  intros [Hsig Hout Hin Hends] Hpo Hsi Hcan. pose proof Hpo as [Ho Ha]%output_at_ok. pose proof Hsi as [Hi Hb]%input_at_ok.
  destruct (Hsig _ _ Ho Ha) as [Hwf Hcon]. destruct (sig_connect_ok s _ Hwf Hcan) as (c & sig & Hc & Hwf' & Hcon').
  unfold subscribe. rewrite Hpo, Hsi. run_step. rewrite Hc. run_step. unfold update_output, update_input. cbn [outputs inputs subscriptions].
  rewrite (alter_lookup _ _ _ _ Ho), (alter_lookup _ _ _ _ Hi). eexists. split; [reflexivity|].
  set (sub := mkSubscription p s c true). split.
  - split; cbn [outputs inputs subscriptions].
    + intros p' o' Ho' Ha'. rewrite (lookup_insert_case _ _ _ _ _ Ho) in Ho'. rewrite omap_app. cbn [omap list_omap].
      unfold slot_of at 2. cbn [mPublisher mIsConnected mConnection mSubscriber sub]. case_decide as Hp.
      * injection Ho' as <-. subst p'. cbn [out_add with_signal mSignal]. split; [done|]. by rewrite Nat.eqb_refl, Hcon', Hcon.
      * rewrite (proj2 (Nat.eqb_neq _ _)) by done. cbn. rewrite app_nil_r. by apply Hsig.
    + intros p' o' Ho' Hx. rewrite (lookup_insert_case _ _ _ _ _ Ho) in Ho'. case_decide as Hp.
      * injection Ho' as <-. subst p'. eapply added_members; [done|apply (Hout _ _ Ho); by left|by rewrite decide_True].
      * eapply added_members; [done|by apply (Hout _ _ Ho')|by rewrite decide_False].
    + intros s' i' Hi' Hx. rewrite (lookup_insert_case _ _ _ _ _ Hi) in Hi'. case_decide as Hp.
      * injection Hi' as <-. subst s'. eapply added_members; [done|apply (Hin _ _ Hi); by left|by rewrite decide_True].
      * eapply added_members; [done|by apply (Hin _ _ Hi')|by rewrite decide_False].
    + intros h sub' Hh.
      assert (exists o0 i0, outputs w !! mPublisher sub' = Some o0 /\ inputs w !! mSubscriber sub' = Some i0 /\
        (mIsConnected sub' = true -> out_alive o0 = true /\ in_alive i0 = true)) as (o0 & i0 & Ho0 & Hi0 & Hl0).
      { apply lookup_app_Some in Hh as [Hh|[_ Hh]].
        - destruct (Hends _ _ Hh) as (o0 & i0 & ? & ? & Hl). exists o0, i0. split_and!; [done..|]. intros Hcc.
          destruct (Hl Hcc) as [[?|[=]] [?|[=]]]. done.
        - apply list_lookup_singleton_Some in Hh as [_ <-]. by exists o, i. }
      destruct (lookup_insert_keeps out_alive _ _ _ (out_add (length (subscriptions w)) (with_signal sig o)) _ _ Ho eq_refl Ho0) as (o1 & Ho1 & Ha1).
      destruct (lookup_insert_keeps in_alive _ _ _ (in_add (length (subscriptions w)) i) _ _ Hi eq_refl Hi0) as (i1 & Hi1 & Hb1).
      exists o1, i1. split_and!; [done..|]. unfold here. rewrite Ha1, Hb1. intros Hcc. destruct (Hl0 Hcc). by split; left.
  - unfold abstract, spec_subscribe. cbn [outputs inputs subscriptions producers consumers entries].
    rewrite !list_fmap_insert, fmap_app. cbn [out_alive out_add with_signal in_alive in_add].
    rewrite (list_insert_id (out_alive <$> _)) by (by rewrite list_lookup_fmap, Ho).
    by rewrite (list_insert_id (in_alive <$> _)) by (by rewrite list_lookup_fmap, Hi).
Qed.

Lemma new_output_ok w : consistent None None w -> consistent None None (new_output w).
Proof.
  intros [Hsig Hout Hin Hends]. destruct sig_new_ok as [Hwf0 Hn0].
  assert (forall p o, (outputs w ++ [mkOutput true sig_new ∅]) !! p = Some o ->
    outputs w !! p = Some o \/ p = length (outputs w) /\ o = mkOutput true sig_new ∅) as Hcase.
  { intros p o [Hl|[Hge Hl]]%lookup_app_Some; [by left|right]. apply list_lookup_singleton_Some in Hl as [Hp <-]. split; [lia|done]. }
  assert (forall h sub, subscriptions w !! h = Some sub -> mPublisher sub <> length (outputs w)) as Hne.
  { intros h sub Hh He. destruct (Hends _ _ Hh) as (o & _ & Ho%lookup_lt_Some & _). lia. }
  split; cbn [outputs inputs subscriptions new_output].
  - intros p o [Ho|[-> ->]]%Hcase Ha; [by apply (Hsig p)|]. cbn [mSignal]. split; [done|]. rewrite Hn0.
    assert (forall sub, sub ∈ subscriptions w -> mPublisher sub <> length (outputs w)) as Hne' by (intros sub [h Hh]%list_elem_of_lookup; by eapply Hne).
    clear -Hne'. induction (subscriptions w) as [|sub l IH]; [done|]. cbn [omap list_omap]. unfold slot_of at 1.
    rewrite (proj2 (Nat.eqb_neq _ _)) by (apply Hne'; by left). cbn. apply IH. intros sub' H. apply Hne'. by right.
  - intros p o [Ho|[-> ->]]%Hcase Hx h; [by apply (Hout p)|]. cbn [out_subscriptions]. split; [by intros ?%elem_of_empty|].
    intros (sub & Hh & Hp & _). by destruct (Hne _ _ Hh).
  - done.
  - intros h sub Hh. destruct (Hends _ _ Hh) as (o & i & Ho & Hi & Hl). exists o, i. split_and!; [by apply lookup_app_l_Some|done..].
Qed.

Lemma new_input_ok w : consistent None None w -> consistent None None (new_input w).
Proof.
  intros [Hsig Hout Hin Hends]. split; cbn [outputs inputs subscriptions new_input].
  - done.
  - done.
  - intros s i [Hl|[Hge Hl]]%lookup_app_Some Hx h; [by apply (Hin s)|]. apply list_lookup_singleton_Some in Hl as [Hp <-].
    cbn [in_subscriptions]. split; [by intros ?%elem_of_empty|]. intros (sub & Hh & Hs & _).
    destruct (Hends _ _ Hh) as (_ & i & _ & Hi%lookup_lt_Some & _). lia.
  - intros h sub Hh. destruct (Hends _ _ Hh) as (o & i & Ho & Hi & Hl). exists o, i. split_and!; [done|by apply lookup_app_l_Some|done].
Qed.

Lemma no_channels_ok : consistent None None no_channels.
Proof. split; cbn; done. Qed.

Lemma step_consistent w w' : consistent None None w -> step w w' -> consistent None None w'.
Proof.
  intros Hco Hst. destruct Hst as [w1|w1|p s h w1 w2 o Ho Hcan Hs|h w1 w2 Hc|p w1 w2 Hd|s w1 w2 Hd].
  - by apply new_output_ok.
  - by apply new_input_ok.
  - unfold subscribe in Hs. destruct (input_at s w1) as [i|] eqn:Hi; [|by rewrite Ho in Hs].
    destruct (subscribe_ok _ _ _ _ _ Hco Ho Hi Hcan) as (w' & Hs' & Hco' & _). unfold subscribe in Hs'. rewrite Hi in Hs'.
    rewrite Hs in Hs'. by injection Hs' as _ ->.
  - unfold close in Hc. destruct (subscriptions w1 !! h) as [sub|] eqn:Hh; [|unfold get_at in Hc; by rewrite Hh in Hc].
    destruct (close_handle _ _ _ Hco Hh) as (w' & Hc' & Hco' & _). unfold close in Hc'. rewrite Hc in Hc'. by injection Hc' as ->.
  - destruct (output_at p w1) as [o|] eqn:Ho; [|unfold destroy_output in Hd; by rewrite Ho in Hd].
    destruct (destroy_output_ok _ _ _ Hco Ho) as (w' & Hd' & Hco' & _). rewrite Hd in Hd'. by injection Hd' as ->.
  - destruct (input_at s w1) as [i|] eqn:Hi; [|unfold destroy_input in Hd; by rewrite Hi in Hd].
    destruct (destroy_input_ok _ _ _ Hco Hi) as (w' & Hd' & Hco' & _). rewrite Hd in Hd'. by injection Hd' as ->.
Qed.

Lemma reachable_consistent w : rtc step no_channels w -> consistent None None w.
Proof.
  intros Hr. pose proof no_channels_ok as H0. induction Hr as [|w1 w2 w3 Hs _ IH]; [done|]. apply IH. by eapply step_consistent.
Qed.

Lemma slots_receivers p w : (omap (slot_of p) (subscriptions w)).*2 = receivers p (abstract w).
Proof.
  unfold receivers, abstract. cbn [entries]. induction (subscriptions w) as [|sub l IH]; [done|].
  rewrite fmap_cons. cbn [omap list_omap]. unfold slot_of at 1. cbn [abstract_entry from to open].
  destruct ((mPublisher sub =? p)%nat && mIsConnected sub); [|done]. rewrite fmap_cons. by f_equal.
Qed.

Lemma publish_ok p o w A (moved : A -> A) cat data : consistent None None w -> output_at p w = Ok o ->
  publish moved cat data p w = Ok (invoke moved cat data (receivers p (abstract w))).
Proof.
  intros Hco Hat. pose proof Hat as [Ho Ha]%output_at_ok. unfold publish. rewrite Hat. run_step.
  destruct (co_signal _ _ _ Hco _ _ Ho Ha) as [Hwf Hcon]. by rewrite sig_publish_ok, Hcon, slots_receivers.
Qed.

Lemma receivers_alive p s w : consistent None None w -> s ∈ receivers p (abstract w) -> consumers (abstract w) !! s = Some true.
Proof.
  intros Hco (e & He & Hs)%list_elem_of_omap. cbn [abstract entries] in He. apply list_elem_of_fmap in He as (sub & -> & Hin).
  apply list_elem_of_lookup in Hin as [h Hh]. cbn [abstract_entry from to open] in Hs.
  destruct (mPublisher sub =? p)%nat; [|done]. destruct (mIsConnected sub) eqn:Hc; [|done]. injection Hs as <-.
  destruct (co_ends _ _ _ Hco _ _ Hh) as (o & i & _ & Hi & Hl). destruct (Hl Hc) as [_ [Hb|[=]]].
  cbn [abstract consumers]. rewrite list_lookup_fmap, Hi. cbn. by rewrite Hb.
Qed.

Lemma producers_at p w : producers (abstract w) !! p = Some true -> exists o, output_at p w = Ok o.
Proof.
  cbn [abstract producers]. rewrite list_lookup_fmap. intros (o & Ho & Ha)%fmap_Some. exists o. by apply output_at_ok.
Qed.

Lemma consumers_at s w : consumers (abstract w) !! s = Some true -> exists i, input_at s w = Ok i.
Proof.
  cbn [abstract consumers]. rewrite list_lookup_fmap. intros (i & Hi & Hb)%fmap_Some. exists i. by apply input_at_ok.
Qed.

(** C23: after any calls - channels created, connected, disconnected by either end
    or by a handle, destroyed - every further call does what the list of
    subscriptions says: subscribing adds an entry, closing shuts it (again has no
    effect), the end of a channel shuts all its entries, none of the assertions
    fails and no reference to a destroyed channel is used.  What is published goes
    once to each open subscription, in the order of their creation, and only to
    consumers that still exist.  An lvalue arrives everywhere as it is; a temporary
    only at the first subscriber, the others get what its move left. *)
Theorem channels_refine (w : channels) : rtc step no_channels w ->
  let a := abstract w in
  (forall p s, producers a !! p = Some true -> consumers a !! s = Some true ->
     (forall o, output_at p w = Ok o -> can_connect (mSignal o)) ->
     exists w', subscribe p s w = Ok (length (entries a), w') /\ abstract w' = spec_subscribe p s a) /\
  (forall h, (h < length (entries a))%nat -> exists w', close h w = Ok w' /\ abstract w' = spec_close h a) /\
  (forall p, producers a !! p = Some true -> exists w', destroy_output p w = Ok w' /\ abstract w' = spec_destroy_output p a) /\
  (forall s, consumers a !! s = Some true -> exists w', destroy_input s w = Ok w' /\ abstract w' = spec_destroy_input s a) /\
  (forall p A (moved : A -> A) data, producers a !! p = Some true -> (forall x, moved (moved x) = moved x) ->
     publish moved LValue data p w = Ok ((fun s => (s, data)) <$> receivers p a) /\
     publish moved RValue data p w =
       Ok (match receivers p a with [] => [] | s :: ss => (s, data) :: ((fun s => (s, moved data)) <$> ss) end) /\
     forall s, s ∈ receivers p a -> consumers a !! s = Some true).
Proof.
  intros Hr%reachable_consistent a. split_and!.
  - intros p s [o Ho]%producers_at [i Hi]%consumers_at Hcan.
    destruct (subscribe_ok _ _ _ _ _ Hr Ho Hi (Hcan _ Ho)) as (w' & Hs & _ & Ha). exists w'. split; [|done].
    unfold a, abstract. cbn [entries]. by rewrite length_fmap.
  - intros h Hh. unfold a, abstract in Hh. cbn [entries] in Hh. rewrite length_fmap in Hh. apply lookup_lt_is_Some in Hh as [sub Hh].
    destruct (close_handle _ _ _ Hr Hh) as (w' & Hc & _ & Ha). by exists w'.
  - intros p [o Ho]%producers_at. destruct (destroy_output_ok _ _ _ Hr Ho) as (w' & Hd & _ & Ha). by exists w'.
  - intros s [i Hi]%consumers_at. destruct (destroy_input_ok _ _ _ Hr Hi) as (w' & Hd & _ & Ha). by exists w'.
  - intros p A moved data [o Ho]%producers_at Hm. rewrite !(publish_ok p o) by done. fold a. split_and!.
    + by rewrite invoke_lvalue.
    + by rewrite invoke_rvalue.
    + intros s. by apply receivers_alive.
Qed.
End channels.
Arguments channels Sig : clear implicits.
Arguments OutputChannel Sig : clear implicits.

(** ** SynchronizedSlot

    The slot of an input channel with synchronization holds a recursive mutex for
    its calls.  The signal stores a copy of the slot, and the copy constructor
    makes a mutex of its own: there is one per subscription. *)
Section synchronized.

(** the owner of a recursive mutex and how often it has locked it *)
Abbreviation recursive_mutex := (option (nat * nat)).

Record SynchronizedSlot := mkSyncSlot { consumer : nat; mMutex : recursive_mutex }.

Definition copy_slot (slot : SynchronizedSlot) : SynchronizedSlot := mkSyncSlot (consumer slot) None.

Definition lock (t : nat) (m : recursive_mutex) : option recursive_mutex :=
  match m with
  | None => Some (Some (t, 1%nat))
  | Some (t', n) => if decide (t' = t) then Some (Some (t, S n)) else None
  end.

Definition unlock (m : recursive_mutex) : recursive_mutex :=
  match m with Some (t, S (S n)) => Some (t, S n) | _ => None end.

(** the slots stored by all signals, and the calls each thread is in, the last
    one first *)
Record sconfig := mkSConfig { slots : list SynchronizedSlot; stacks : list (list nat) }.

Inductive sstep : sconfig -> sconfig -> Prop :=
  | sstep_call t k st slot m ss ts :
      ts !! t = Some st -> ss !! k = Some slot -> lock t (mMutex slot) = Some m ->
      sstep (mkSConfig ss ts) (mkSConfig (<[k := mkSyncSlot (consumer slot) m]> ss) (<[t := k :: st]> ts))
  | sstep_return t k st slot ss ts :
      ts !! t = Some (k :: st) -> ss !! k = Some slot ->
      sstep (mkSConfig ss ts) (mkSConfig (<[k := mkSyncSlot (consumer slot) (unlock (mMutex slot))]> ss) (<[t := st]> ts)).

(** subscriptions of the slots [ss], and [n] threads *)
Definition sstart (ss : list SynchronizedSlot) (n : nat) : sconfig := mkSConfig (copy_slot <$> ss) (replicate n []).

(** thread [t] is in the code of consumer [s], through the slot [k] *)
Definition inside (c : sconfig) (k s t : nat) : Prop :=
  exists slot st, slots c !! k = Some slot /\ consumer slot = s /\ stacks c !! t = Some st /\ k ∈ st.

Definition calls_of (k : nat) (st : list nat) : nat := length (filter (fun k' => k' = k) st).

Record sync_inv (c : sconfig) : Prop := {
  si_count : forall k slot t st, slots c !! k = Some slot -> stacks c !! t = Some st ->
    calls_of k st = match mMutex slot with Some (t', n) => if decide (t' = t) then n else 0%nat | None => 0%nat end;
  si_depth : forall k slot t n, slots c !! k = Some slot -> mMutex slot = Some (t, n) -> (0 < n)%nat /\ is_Some (stacks c !! t)
}.

Lemma calls_of_cons k k' st : calls_of k (k' :: st) = ((if decide (k' = k) then 1 else 0) + calls_of k st)%nat.
Proof. unfold calls_of. rewrite filter_cons. by case_decide. Qed.

Lemma calls_of_elem k st : k ∈ st <-> calls_of k st <> 0%nat.
Proof.
  induction st as [|k' st IH]; [by split; [intros ?%elem_of_nil|]|]. rewrite calls_of_cons, elem_of_cons, IH.
  case_decide; [split; [lia|by left]|]. split; [intros [?|?]; [congruence|lia]|by right].
Qed.

Lemma sync_start ss n : sync_inv (sstart ss n).
Proof.
  split; cbn [slots stacks sstart].
  - intros k slot t st Hs [-> _]%lookup_replicate. apply list_lookup_fmap_Some in Hs as (s0 & -> & _). done.
  - intros k slot t m Hs. apply list_lookup_fmap_Some in Hs as (s0 & -> & _). done.
Qed.

Lemma sync_step c c' : sync_inv c -> sstep c c' -> sync_inv c'.
Proof.
  intros [Hcount Hdepth] Hst. destruct Hst as [t k st slot m ss ts Ht Hk Hl|t k st slot ss ts Ht Hk]; cbn [slots stacks] in *.
  - split; cbn [slots stacks].
    + intros k' slot' t' st' Hk' Ht'. rewrite (lookup_insert_case _ _ _ _ _ Hk) in Hk'. rewrite (lookup_insert_case _ _ _ _ _ Ht) in Ht'.
      pose proof (Hcount _ _ _ _ Hk Ht) as Hc.
      destruct (decide (k' = k)) as [->|Hne], (decide (t' = t)) as [->|Hnt]; simplify_eq; rewrite ?calls_of_cons; cbn [mMutex].
      * rewrite decide_True by done. unfold lock in Hl. destruct (mMutex slot) as [[t0 n]|]; [case_decide; [|done]|];
          injection Hl as <-; rewrite decide_True by done; lia.
      * pose proof (Hcount _ _ _ _ Hk Ht') as Hc'. unfold lock in Hl.
        destruct (mMutex slot) as [[t0 n]|]; [destruct (decide (t0 = t)) as [->|]; [|done]; rewrite decide_False in Hc' by congruence|];
          injection Hl as <-; by rewrite decide_False by congruence.
      * rewrite decide_False by congruence. by apply Hcount with (k := k').
      * by apply Hcount with (k := k').
    + intros k' slot' t' n Hk' Hm. rewrite (lookup_insert_case _ _ _ _ _ Hk) in Hk'. cbn [stacks].
      rewrite (lookup_insert_case _ _ _ _ _ Ht). case_decide as Hkk.
      * injection Hk' as <-. cbn [mMutex] in Hm. subst m. unfold lock in Hl.
        destruct (mMutex slot) as [[t0 n0]|]; [destruct (decide (t0 = t)); [|done]|]; injection Hl as <- <-;
          rewrite decide_True by done; (split; [lia|by eexists]).
      * destruct (Hdepth _ _ _ _ Hk' Hm) as [? ?]. split; [done|]. case_decide; [by eexists|done].
  - split; cbn [slots stacks].
    + intros k' slot' t' st' Hk' Ht'. rewrite (lookup_insert_case _ _ _ _ _ Hk) in Hk'. rewrite (lookup_insert_case _ _ _ _ _ Ht) in Ht'.
      pose proof (Hcount _ _ _ _ Hk Ht) as Hc. rewrite calls_of_cons, decide_True in Hc by done.
      destruct (mMutex slot) as [[t0 n]|] eqn:Hm; [|lia]. destruct (decide (t0 = t)) as [->|]; [|lia].
      destruct (decide (k' = k)) as [->|Hne], (decide (t' = t)) as [->|Hnt]; simplify_eq; cbn [mMutex unlock].
      * cbn [Nat.add]. destruct (calls_of k st') as [|n']; [done|]. by rewrite decide_True.
      * pose proof (Hcount _ _ _ _ Hk Ht') as Hc'. rewrite Hm, decide_False in Hc' by congruence. rewrite Hc'.
        cbn [Nat.add]. destruct (calls_of k st); [done|]. by rewrite decide_False by congruence.
      * rewrite <- (Hcount _ _ _ _ Hk' Ht), calls_of_cons, decide_False by congruence. done.
      * by apply Hcount with (k := k').
    + intros k' slot' t' n Hk' Hm. rewrite (lookup_insert_case _ _ _ _ _ Hk) in Hk'. cbn [stacks].
      rewrite (lookup_insert_case _ _ _ _ _ Ht). case_decide as Hkk.
      * injection Hk' as <-. cbn [mMutex] in Hm. destruct (mMutex slot) as [[t0 [|[|n0]]]|] eqn:Hs; try done.
        injection Hm as <- <-. destruct (Hdepth _ _ _ _ Hk Hs) as [_ Hex]. split; [lia|]. case_decide; [by eexists|done].
      * destruct (Hdepth _ _ _ _ Hk' Hm) as [? ?]. split; [done|]. case_decide; [by eexists|done].
Qed.

Lemma sync_reachable ss n c : rtc sstep (sstart ss n) c -> sync_inv c.
Proof.
  intros Hr. pose proof (sync_start ss n) as H0. induction Hr as [|c1 c2 c3 Hs _ IH]; [done|]. apply IH. by eapply sync_step.
Qed.

Lemma sync_frame c c' : rtc sstep c c' -> consumer <$> slots c' = consumer <$> slots c /\ length (stacks c') = length (stacks c).
Proof.
  induction 1 as [c|c1 c2 c3 Hs _ [IH1 IH2]]; [done|]. rewrite IH1, IH2. clear IH1 IH2.
  destruct Hs as [t k st slot m ss' ts Ht Hk Hl|t k st slot ss' ts Ht Hk]; cbn [slots stacks];
    rewrite list_fmap_insert, length_insert; cbn [consumer]; (split; [|done]); apply list_insert_id; by rewrite list_lookup_fmap, Hk.
Qed.

Lemma inside_owner c k s t : sync_inv c -> inside c k s t -> exists slot n,
  slots c !! k = Some slot /\ mMutex slot = Some (t, n).
Proof.
  intros [Hcount _] (slot & st & Hk & _ & Ht & Hin). exists slot. apply calls_of_elem in Hin.
  rewrite (Hcount _ _ _ _ Hk Ht) in Hin. destruct (mMutex slot) as [[t0 n]|]; [|done]. case_decide; [subst|done]. by exists n.
Qed.

(** C24: in every interleaving of threads that publish, a call of a synchronized
    slot waits only for another thread in the same subscription, and no two
    threads are in the same subscription at once.  So a consumer with one
    subscription is called by one thread at a time, as documented.  With two
    subscriptions, its usual case behind a merge of partitions, it is not: two
    threads can be in it at once, each under its own mutex. *)
Theorem synchronized_slots (ss : list SynchronizedSlot) (n : nat) :
  (forall c, rtc sstep (sstart ss n) c ->
     (forall k s t t', inside c k s t -> inside c k s t' -> t = t') /\
     (forall k t slot, slots c !! k = Some slot -> (t < n)%nat ->
        (exists m, lock t (mMutex slot) = Some m) \/ exists t', t' <> t /\ inside c k (consumer slot) t') /\
     (NoDup (consumer <$> ss) -> forall k k' s t t', inside c k s t -> inside c k' s t' -> t = t')) /\
  (forall k k' s t t', k <> k' -> t <> t' -> (t < n)%nat -> (t' < n)%nat ->
     consumer <$> ss !! k = Some s -> consumer <$> ss !! k' = Some s ->
     exists c, rtc sstep (sstart ss n) c /\ inside c k s t /\ inside c k' s t').
Proof.
  split.
  - intros c Hr. pose proof (sync_reachable _ _ _ Hr) as Hinv. destruct (sync_frame _ _ Hr) as [Hcons Hlen].
    cbn [slots stacks sstart] in Hcons, Hlen. rewrite length_replicate in Hlen.
    assert (forall k s t t', inside c k s t -> inside c k s t' -> t = t') as Hex.
    { intros k s t t' H1 H2. destruct (inside_owner _ _ _ _ Hinv H1) as (slot & n1 & Hk & Hm).
      destruct (inside_owner _ _ _ _ Hinv H2) as (slot' & n2 & Hk' & Hm'). congruence. }
    split_and!; [done| |].
    + intros k t slot Hk Ht. destruct (mMutex slot) as [[t' m]|] eqn:Hm; [|left; by eexists].
      destruct (decide (t' = t)) as [->|Hne]; [left; cbn; rewrite decide_True by done; by eexists|]. right. exists t'. split; [done|].
      destruct (si_depth _ Hinv _ _ _ _ Hk Hm) as [Hpos [st Hst]]. exists slot, st. split_and!; [done..|].
      apply calls_of_elem. rewrite (si_count _ Hinv _ _ _ _ Hk Hst), Hm, decide_True by done. lia.
    + intros Hnd k k' s t t' H1 H2. assert (k' = k) as ->; [|by eapply Hex].
      destruct H1 as (s1 & _ & Hk1 & Hc1 & _), H2 as (s2 & _ & Hk2 & Hc2 & _).
      eapply NoDup_lookup; [exact Hnd|..].
      * rewrite <- list_fmap_compose in Hcons. change (consumer <$> ss) with (consumer ∘ copy_slot <$> ss). rewrite <- Hcons.
        by rewrite list_lookup_fmap, Hk2; cbn; rewrite Hc2.
      * rewrite <- list_fmap_compose in Hcons. change (consumer <$> ss) with (consumer ∘ copy_slot <$> ss). rewrite <- Hcons.
        by rewrite list_lookup_fmap, Hk1; cbn; rewrite Hc1.
  - intros k k' s t t' Hk Ht Hlt Hlt' [slot [Hs Hc]]%fmap_Some [slot' [Hs' Hc']]%fmap_Some.
    assert (stacks (sstart ss n) !! t = Some []) as H1 by (by apply lookup_replicate).
    assert (stacks (sstart ss n) !! t' = Some []) as H2 by (by apply lookup_replicate).
    assert (slots (sstart ss n) !! k = Some (copy_slot slot)) as H3 by (cbn; by rewrite list_lookup_fmap, Hs).
    assert (slots (sstart ss n) !! k' = Some (copy_slot slot')) as H4 by (cbn; by rewrite list_lookup_fmap, Hs').
    destruct (sstart ss n) as [ss0 ts0]. cbn [slots stacks] in *.
    eexists. split; [eapply rtc_l; [by apply (sstep_call t k [] (copy_slot slot) (Some (t, 1%nat)))|]; eapply rtc_once;
      apply (sstep_call t' k' [] (copy_slot slot') (Some (t', 1%nat))); [..|done]; by rewrite list_lookup_insert_ne|].
    split.
    + eexists _, _. cbn [slots stacks]. split_and!.
      * rewrite list_lookup_insert_ne by done. apply list_lookup_insert_eq. by eapply lookup_lt_Some.
      * done.
      * rewrite list_lookup_insert_ne by done. apply list_lookup_insert_eq. by eapply lookup_lt_Some.
      * by left.
    + eexists _, _. cbn [slots stacks]. split_and!.
      * apply list_lookup_insert_eq. rewrite length_insert. by eapply lookup_lt_Some.
      * done.
      * apply list_lookup_insert_eq. rewrite length_insert. by eapply lookup_lt_Some.
      * by left.
Qed.
End synchronized.

(** ** Witnesses *)

Module Demo.
Abbreviation sig := (OneToManySignal nat).

(** one publisher with two subscribers *)
Definition unsubscribed : channels sig := new_input (new_input (new_output no_channels)).
Definition get {A} (r : result (A * channels sig)) : channels sig := match r with Ok (_, w) => w | Err _ => no_channels end.
Definition first : channels sig := get (subscribe 0 0 unsubscribed).
Definition both : channels sig := get (subscribe 0 1 first).

Lemma both_reachable : rtc step no_channels both.
Proof.
  eapply rtc_l; [apply step_new_output|]. eapply rtc_l; [apply step_new_input|]. eapply rtc_l; [apply step_new_input|].
  eapply rtc_l; [eapply (step_subscribe 0 0 0 _ first); [reflexivity|vm_compute; reflexivity|reflexivity]|].
  eapply rtc_l; [eapply (step_subscribe 0 1 1 _ both); [reflexivity|vm_compute; reflexivity|reflexivity]|].
  apply rtc_refl.
Qed.

Definition sink : SynchronizedSlot := mkSyncSlot 7 None.
End Demo.

(** a punctuation published as a temporary: the second subscriber gets a null
    pointer *)
Lemma channels_refine_witness :
  publish (fun _ : option Z => None) RValue (Some 5) 0 Demo.both = Ok [(0%nat, Some 5); (1%nat, None)] /\
  exists w', close 0 Demo.both = Ok w' /\ entries (abstract w') = [mkSubscribed 0 0 false; mkSubscribed 0 1 true].
Proof.
  destruct (channels_refine Demo.both Demo.both_reachable) as (_ & Hclose & _ & _ & Hpub). split.
  - exact (proj1 (proj2 (Hpub 0%nat (option Z) (fun _ => None) (Some 5) ltac:(reflexivity) ltac:(done)))).
  - destruct (Hclose 0%nat) as (w' & Hw & Ha); [cbn; lia|]. exists w'. split; [exact Hw|]. rewrite Ha. reflexivity.
Defined.

Lemma synchronized_slots_witness : exists c, rtc sstep (sstart [Demo.sink; Demo.sink] 2) c /\ inside c 0 7 0 /\ inside c 1 7 1.
Proof. apply (proj2 (synchronized_slots [Demo.sink; Demo.sink] 2)); (lia || done). Defined.
