(* ===== verification/Serialize.v ===== *)
(** * Serialize: tuples and their byte representation

    [core/serialize.hpp], [core/Tuple.hpp], [core/StreamElementTraits.hpp] and the
    serialization of [core/Punctuation.cpp].  The template recursion over
    attribute types is recursion over a universe of types ([ty], [tys]), from
    which the type of the C++ value is computed ([denote]).

    Writing goes through an iterator into a vector that [serialize] has resized
    by [get_size], so a wrong size is an access past the end or a failing
    assertion of the model, as in the code.  Scalars are stored as their memory
    image, little endian here (the format of the machines the code runs on).
    Whether a vector or string of a given length can be allocated is a
    parameter. *)

From S2P Require Import Prelude Stream.

(** ** The memory image of scalars *)

Fixpoint le_split (w : nat) (x : Z) : list Z :=
  match w with O => [] | S w => x mod 256 :: le_split w (x / 256) end.

Fixpoint le_combine (bs : list Z) : Z :=
  match bs with [] => 0 | b :: bs => b + 256 * le_combine bs end.

Lemma le_split_length w x : length (le_split w x) = w.
Proof. revert x. induction w as [|w IH]; intros x; simpl; [done|]. by rewrite IH. Qed.

Lemma le_split_u8 w x : Forall is_u8 (le_split w x).
Proof. revert x. induction w as [|w IH]; intros x; simpl; constructor; [apply u8_range|apply IH]. Qed.

Lemma pow256_S (w : nat) : 256 ^ Z.of_nat (S w) = 256 * 256 ^ Z.of_nat w.
Proof. rewrite Nat2Z.inj_succ, Z.pow_succ_r; lia. Qed.

Lemma le_combine_split w x : 0 <= x < 256 ^ Z.of_nat w -> le_combine (le_split w x) = x.
Proof.
  revert x. induction w as [|w IH]; intros x Hx; [simpl in *; lia|].
  rewrite pow256_S in Hx. cbn [le_split le_combine]. rewrite IH.
  - pose proof (Z.div_mod x 256). lia.
  - split; [apply Z.div_pos; lia|]. apply Z.div_lt_upper_bound; lia.
Qed.

Lemma le_combine_range bs : Forall is_u8 bs -> 0 <= le_combine bs < 256 ^ Z.of_nat (length bs).
Proof.
  induction 1 as [|b bs Hb _ IH]; [simpl; lia|]. cbn [length le_combine]. rewrite pow256_S. word_lia.
Qed.

Lemma le_split_combine bs : Forall is_u8 bs -> le_split (length bs) (le_combine bs) = bs.
Proof.
  induction 1 as [|b bs Hb Hbs IH]; [done|]. cbn [length le_combine le_split].
  rewrite (Z.mul_comm 256), Z.mod_add, Z.div_add by done. unfold is_u8 in Hb.
  rewrite Z.mod_small, Z.div_small by lia. by rewrite Z.add_0_l, IH.
Qed.

#[global] Arguments le_split : simpl never.
#[global] Arguments le_combine : simpl never.

(** ** Types and values

    [Scalar w] is any type without a specialization, copied as [w] bytes; a
    tuple has at least one attribute ([int_<sizeof...(T)-1>]). *)
Inductive ty :=
  | Scalar (w : nat)
  | TString
  | TVector (t : ty)
  | TTuple (ts : tys)
with tys :=
  | TLast (t : ty)
  | TMore (t : ty) (ts : tys).

Scheme ty_rec2 := Induction for ty Sort Prop
with tys_rec2 := Induction for tys Sort Prop.
Combined Scheme ty_tys_ind from ty_rec2, tys_rec2.

Fixpoint denote (t : ty) : Type :=
  match t with
  | Scalar _ => Z
  | TString => list Z
  | TVector t => list (denote t)
  | TTuple ts => denotes ts
  end
with denotes (ts : tys) : Type :=
  match ts with
  | TLast t => denote t
  | TMore t ts => denote t * denotes ts
  end.

(** the values a C++ object of the type can have *)
Fixpoint wf (t : ty) : denote t -> Prop :=
  match t with
  | Scalar w => fun x => 0 <= x < 256 ^ Z.of_nat w
  | TString => fun s : list Z => Forall is_u8 s /\ is_u64 (Z.of_nat (length s))
  | TVector t => fun l : list (denote t) => Forall (wf t) l /\ is_u64 (Z.of_nat (length l))
  | TTuple ts => wfs ts
  end
with wfs (ts : tys) : denotes ts -> Prop :=
  match ts with
  | TLast t => wf t
  | TMore t ts => fun p : denote t * denotes ts => wf t p.1 /\ wfs ts p.2
  end.

Fixpoint arity (ts : tys) : nat :=
  match ts with TLast _ => 1 | TMore _ ts => S (arity ts) end.

Lemma arity_pos ts : (1 <= arity ts)%nat.
Proof. destruct ts; simpl; lia. Qed.

(** ** get_size *)

Fixpoint get_size (t : ty) : denote t -> Z :=
  match t with
  | Scalar w => fun _ => u64 (Z.of_nat w)
  | TString => fun s : list Z => u64 (8 + Z.of_nat (length s))
  | TVector t => fun l : list (denote t) => fold_left (fun acc cur => u64 (acc + get_size t cur)) l 8
  | TTuple ts => get_tuple_size ts
  end
with get_tuple_size (ts : tys) : denotes ts -> Z :=
  match ts with
  | TLast t => get_size t
  | TMore t ts => fun p : denote t * denotes ts => u64 (get_size t p.1 + get_tuple_size ts p.2)
  end.

(** ** serialize

    The output iterator: the vector and the position in it. *)
Definition sink : Type := list Z * nat.

(** [std::copy(ptr, ptr+n, res); res += n] *)
Definition copy_bytes (bs : list Z) (s : sink) : result sink :=
  let '(buf, it) := s in
  if (it + length bs <=? length buf)%nat
  then Ok (take it buf ++ bs ++ drop (it + length bs) buf, (it + length bs)%nat)
  else Err OutOfBounds.

Definition write_scalar (w : nat) (x : Z) : sink -> result sink := copy_bytes (le_split w x).

Fixpoint write_all {A} (f : A -> sink -> result sink) (l : list A) (s : sink) : result sink :=
  match l with
  | [] => Ok s
  | x :: l => s ← f x s; write_all f l s
  end.

Fixpoint serializer (t : ty) : denote t -> sink -> result sink :=
  match t with
  | Scalar w => write_scalar w
  | TString => fun (obj : list Z) s =>
      s ← write_scalar 8 (Z.of_nat (length obj)) s;
      write_all (write_scalar 1) obj s
  | TVector t => fun (obj : list (denote t)) s =>
      s ← write_scalar 8 (Z.of_nat (length obj)) s;
      write_all (serializer t) obj s
  | TTuple ts => serialize_tuple ts
  end
with serialize_tuple (ts : tys) : denotes ts -> sink -> result sink :=
  match ts with
  | TLast t => serializer t
  | TMore t ts => fun (obj : denote t * denotes ts) s =>
      s ← serializer t obj.1 s;
      serialize_tuple ts obj.2 s
  end.

(** ** deserialize

    The input iterator is the part of the stream from [begin] to [end]. *)
Definition read_scalar (w : nat) (rest : list Z) : result (Z * list Z) :=
  if (w <=? length rest)%nat then Ok (le_combine (take w rest), drop w rest) else Err AssertFailed.

Fixpoint read_n {A} (f : list Z -> result (A * list Z)) (n : nat) (rest : list Z) : result (list A * list Z) :=
  match n with
  | O => Ok ([], rest)
  | S n =>
      '(x, rest) ← f rest;
      '(l, rest) ← read_n f n rest;
      Ok (x :: l, rest)
  end.

Section stream.
Context (can_alloc : Z -> bool).

Definition alloc (n : Z) : result unit := guard_else (can_alloc n) (Throws "bad_alloc").

Definition serialize (t : ty) (obj : denote t) (res : list Z) : result (list Z) :=
  let offset := length res in
  let size := get_size t obj in
  let n := u64 (Z.of_nat offset + size) in
  _ ← alloc n;
  '(res, it) ← serializer t obj (resize (Z.to_nat n) 0 res, offset);
  _ ← guard_else (Z.of_nat offset + size =? Z.of_nat it) AssertFailed;
  Ok res.

Fixpoint deserialize (t : ty) : list Z -> result (denote t * list Z) :=
  match t with
  | Scalar w => read_scalar w
  | TString => fun rest =>
      '(size, rest) ← read_scalar 8 rest;
      if size =? 0 then Ok ([], rest)
      else _ ← alloc size; read_n (read_scalar 1) (Z.to_nat size) rest
  | TVector t => fun rest =>
      '(size, rest) ← read_scalar 8 rest;
      _ ← alloc size;
      read_n (deserialize t) (Z.to_nat size) rest
  | TTuple ts => deserialize_tuple ts
  end
with deserialize_tuple (ts : tys) : list Z -> result (denotes ts * list Z) :=
  match ts with
  | TLast t => deserialize t
  | TMore t ts => fun rest =>
      '(x, rest) ← deserialize t rest;
      '(xs, rest) ← deserialize_tuple ts rest;
      Ok ((x, xs), rest)
  end.

(** ** The format, as a function *)

Fixpoint encode (t : ty) : denote t -> list Z :=
  match t with
  | Scalar w => le_split w
  | TString => fun s : list Z => le_split 8 (Z.of_nat (length s)) ++ (s ≫= le_split 1)
  | TVector t => fun l : list (denote t) => le_split 8 (Z.of_nat (length l)) ++ (l ≫= encode t)
  | TTuple ts => encodes ts
  end
with encodes (ts : tys) : denotes ts -> list Z :=
  match ts with
  | TLast t => encode t
  | TMore t ts => fun p : denote t * denotes ts => encode t p.1 ++ encodes ts p.2
  end.

(** *** Writing it *)

Lemma write_scalar_at w x (pre post : list Z) (gap : list Z) :
  length gap = w ->
  write_scalar w x (pre ++ gap ++ post, length pre) = Ok ((pre ++ le_split w x) ++ post, length (pre ++ le_split w x)).
Proof.
  intros Hg. unfold write_scalar, copy_bytes. rewrite !length_app, !le_split_length.
  replace (length pre + w <=? length pre + (length gap + length post))%nat with true by (symmetry; apply Nat.leb_le; lia).
  rewrite take_app_length, (app_assoc pre gap post), drop_app_length' by (rewrite length_app; lia).
  by rewrite <- app_assoc.
Qed.

(** [f] writes the bytes [e] of an object where they fit *)
Definition writes (f : sink -> result sink) (e : list Z) : Prop :=
  forall pre gap post, length gap = length e ->
  f (pre ++ gap ++ post, length pre) = Ok ((pre ++ e) ++ post, length (pre ++ e)).

Lemma writes_scalar w x : writes (write_scalar w x) (le_split w x).
Proof. intros pre gap post Hg. rewrite le_split_length in Hg. by apply write_scalar_at. Qed.

Lemma writes_seq f g e1 e2 : writes f e1 -> writes g e2 -> writes (fun s => s ← f s; g s) (e1 ++ e2).
Proof.
  intros Hf Hg pre gap post Hl. rewrite length_app in Hl.
  rewrite <- (take_drop (length e1) gap), <- (app_assoc (take _ _)).
  rewrite Hf by (rewrite length_take; lia). run_step.
  rewrite Hg by (rewrite length_drop; lia). by rewrite !app_assoc.
Qed.

Lemma writes_all {A} (f : A -> sink -> result sink) (e : A -> list Z) l :
  (forall x, writes (f x) (e x)) -> writes (write_all f l) (l ≫= e).
Proof.
  intros Hf. induction l as [|x l IH].
  - intros pre gap post Hl. destruct gap; [|done]. simpl. by rewrite app_nil_r.
  - by apply (writes_seq (f x)).
Qed.

Lemma serializer_writes :
  (forall t v, writes (serializer t v) (encode t v)) /\ (forall ts v, writes (serialize_tuple ts v) (encodes ts v)).
Proof.
  apply ty_tys_ind; cbn [serializer serialize_tuple encode encodes denote denotes].
  - intros w x. apply writes_scalar.
  - intros s. apply writes_seq; [apply writes_scalar|]. apply writes_all. intros. apply writes_scalar.
  - intros t IH l. apply writes_seq; [apply writes_scalar|]. by apply writes_all.
  - by auto.
  - by auto.
  - intros t IH ts IHs v. by apply writes_seq.
Qed.

(** *** Its size *)

Lemma le_split_1_bind (s : list Z) : length (s ≫= le_split 1) = length s.
Proof. induction s as [|c s IH]; [done|]. by rewrite bind_cons, length_app, le_split_length, IH. Qed.

Lemma u64_add_l x y : u64 (u64 x + y) = u64 (x + y).
Proof. unfold u64. by rewrite Zplus_mod_idemp_l. Qed.
Lemma u64_add_r x y : u64 (x + u64 y) = u64 (x + y).
Proof. unfold u64. by rewrite Zplus_mod_idemp_r. Qed.

Lemma accumulate_size {A} (size : A -> Z) (e : A -> list Z) (l : list A) (acc : Z) :
  (forall x, size x = u64 (Z.of_nat (length (e x)))) -> is_u64 acc ->
  fold_left (fun acc cur => u64 (acc + size cur)) l acc = u64 (acc + Z.of_nat (length (l ≫= e))).
Proof.
  intros He. revert acc. induction l as [|x l IH]; intros acc Hacc; cbn [fold_left].
  - simpl. rewrite Z.add_0_r. symmetry. by apply u64_small.
  - rewrite IH, bind_cons, length_app, u64_add_l, He, Nat2Z.inj_add by apply u64_range.
    by rewrite <- Z.add_assoc, (Z.add_comm (u64 _)), Z.add_assoc, u64_add_r,
      <- Z.add_assoc, (Z.add_comm (Z.of_nat (length (l ≫= e)))).
Qed.

Lemma get_size_encode :
  (forall t v, get_size t v = u64 (Z.of_nat (length (encode t v)))) /\
  (forall ts v, get_tuple_size ts v = u64 (Z.of_nat (length (encodes ts v)))).
Proof.
  apply ty_tys_ind; cbn [get_size get_tuple_size encode encodes denote denotes].
  - intros w x. by rewrite le_split_length.
  - intros s. rewrite length_app, le_split_length, le_split_1_bind. f_equal. lia.
  - intros t IH l. rewrite (accumulate_size _ (encode t)) by (done || word_lia).
    rewrite length_app, le_split_length. f_equal. lia.
  - by auto.
  - by auto.
  - intros t IH ts IHs v. by rewrite IH, IHs, length_app, Nat2Z.inj_add, u64_add_l, u64_add_r.
Qed.

(** what [serialize] appends to a stream *)
Lemma serialize_encode t v res :
  is_u64 (Z.of_nat (length res + length (encode t v))) ->
  can_alloc (Z.of_nat (length res + length (encode t v))) = true ->
  serialize t v res = Ok (res ++ encode t v).
Proof.
  intros Hlen Halloc. unfold serialize.
  rewrite (proj1 get_size_encode), (u64_small (Z.of_nat _)), <- Nat2Z.inj_add, u64_small by word_lia.
  unfold alloc. rewrite Halloc. run_step. rewrite Nat2Z.id, resize_ge by lia.
  rewrite <- (app_nil_r (replicate _ _)).
  rewrite (proj1 serializer_writes t v) by (rewrite length_replicate; lia). run_step.
  by rewrite length_app, Z.eqb_refl, app_nil_r.
Qed.

(** *** Reading it back *)

Lemma read_scalar_split w x rest : 0 <= x < 256 ^ Z.of_nat w ->
  read_scalar w (le_split w x ++ rest) = Ok (x, rest).
Proof.
  intros Hx. unfold read_scalar. rewrite length_app, le_split_length.
  rewrite (proj2 (Nat.leb_le _ _)) by lia.
  by rewrite take_app_length', drop_app_length', le_combine_split by (done || by rewrite le_split_length).
Qed.

Lemma read_n_encode {A} (f : list Z -> result (A * list Z)) (e : A -> list Z) l rest :
  (forall x rest, x ∈ l -> f (e x ++ rest) = Ok (x, rest)) ->
  read_n f (length l) ((l ≫= e) ++ rest) = Ok (l, rest).
Proof.
  induction l as [|x l IH]; intros Hf; [done|].
  cbn [length read_n]. rewrite bind_cons, <- app_assoc, Hf by (by left). run_step.
  rewrite IH by (intros; apply Hf; by right). done.
Qed.

(** a length fits the counter in front of it *)
Lemma read_length (n : nat) rest : is_u64 (Z.of_nat n) ->
  read_scalar 8 (le_split 8 (Z.of_nat n) ++ rest) = Ok (Z.of_nat n, rest).
Proof. intros H. apply read_scalar_split. word_lia. Qed.

Lemma length_bind_ge {A} (e : A -> list Z) l x : x ∈ l -> (length (e x) <= length (l ≫= e))%nat.
Proof.
  induction 1 as [x l|x y l _ IH]; rewrite bind_cons, length_app; lia.
Qed.

Definition allocates (n : nat) : Prop := forall k, 0 <= k <= Z.of_nat n -> can_alloc k = true.

Lemma allocates_le n m : (m <= n)%nat -> allocates n -> allocates m.
Proof. intros Hle H k Hk. apply H. lia. Qed.

(** every type of the universe occupies memory *)
Fixpoint sized (t : ty) : bool :=
  match t with Scalar w => (0 <? w)%nat | TString => true | TVector t => sized t | TTuple ts => sizeds ts end
with sizeds (ts : tys) : bool :=
  match ts with TLast t => sized t | TMore t ts => sized t && sizeds ts end.

Lemma encode_sized :
  (forall t v, sized t = true -> (0 < length (encode t v))%nat) /\
  (forall ts v, sizeds ts = true -> (0 < length (encodes ts v))%nat).
Proof.
  apply ty_tys_ind; cbn [encode encodes sized sizeds denote denotes].
  - intros w x Hw. rewrite le_split_length. by apply Nat.ltb_lt.
  - intros s _. rewrite length_app, le_split_length. lia.
  - intros t IH l _. rewrite length_app, le_split_length. lia.
  - by auto.
  - by auto.
  - intros t IH ts IHs v [H _]%andb_true_iff. rewrite length_app. by apply Nat.add_pos_l, IH.
Qed.

Lemma length_bind_sized {A} (e : A -> list Z) (l : list A) :
  (forall x, 0 < length (e x))%nat -> (length l <= length (l ≫= e))%nat.
Proof.
  intros He. induction l as [|x l IH]; [done|]. rewrite bind_cons, length_app. cbn [length].
  specialize (He x). lia.
Qed.

Lemma deserialize_encode :
  (forall t v, sized t = true -> wf t v -> allocates (length (encode t v)) ->
     forall rest, deserialize t (encode t v ++ rest) = Ok (v, rest)) /\
  (forall ts v, sizeds ts = true -> wfs ts v -> allocates (length (encodes ts v)) ->
     forall rest, deserialize_tuple ts (encodes ts v ++ rest) = Ok (v, rest)).
Proof.
  apply ty_tys_ind; cbn [encode encodes wf wfs sized sizeds denote denotes deserialize deserialize_tuple].
  - intros w x _ Hx _ rest. by apply read_scalar_split.
  - intros s _ [Hs Hl] Ha rest. rewrite <- app_assoc, read_length by done. run_step.
    rewrite length_app, le_split_length, le_split_1_bind in Ha. destruct (Z.eqb_spec (Z.of_nat (length s)) 0) as [H0|_].
    { by destruct s. }
    unfold alloc. rewrite Ha by lia. run_step. rewrite Nat2Z.id. apply read_n_encode.
    intros x rest' Hx. apply read_scalar_split. rewrite Forall_forall in Hs. apply Hs in Hx. word_lia.
  - intros t IH l Ht [Hwf Hl] Ha rest. rewrite <- app_assoc, read_length by done. run_step.
    rewrite length_app, le_split_length in Ha. pose proof (length_bind_sized (encode t) l (fun x => proj1 encode_sized t x Ht)).
    unfold alloc. rewrite Ha by lia. run_step. rewrite Nat2Z.id. apply read_n_encode.
    intros x rest' Hx. rewrite Forall_forall in Hwf. apply IH; [done|by apply Hwf|].
    eapply allocates_le; [|done]. apply (length_bind_ge (encode t)) in Hx. lia.
  - by auto.
  - by auto.
  - intros t IH ts IHs [v vs] [Ht Hts]%andb_true_iff [Hv Hvs] Ha rest. simpl in *. rewrite length_app in Ha.
    rewrite <- app_assoc, IH by (done || (eapply allocates_le; [|done]; lia)). run_step.
    by rewrite IHs by (done || (eapply allocates_le; [|done]; lia)).
Qed.

(** *** What a stream that can be read contains *)

(** [f] reads only what [e] writes, and yields values in [P] *)
Definition reads_only {A} (f : list Z -> result (A * list Z)) (e : A -> list Z) (P : A -> Prop) : Prop :=
  forall bs x rest, Forall is_u8 bs -> f bs = Ok (x, rest) -> bs = e x ++ rest /\ P x.

Lemma read_scalar_only w : reads_only (read_scalar w) (le_split w) (fun x => 0 <= x < 256 ^ Z.of_nat w).
Proof.
  intros bs x rest Hb H. unfold read_scalar in H. destruct (Nat.leb_spec w (length bs)) as [Hw|]; [|done].
  injection H as <- <-. apply (Forall_take _ w) in Hb as Ht. assert (length (take w bs) = w) as Hl by (rewrite length_take; lia).
  pose proof (le_split_combine (take w bs) Ht) as He. rewrite Hl in He. rewrite He, take_drop. split; [done|].
  apply le_combine_range in Ht. by rewrite Hl in Ht.
Qed.

Lemma read_n_only {A} (f : list Z -> result (A * list Z)) e P n :
  reads_only f e P ->
  reads_only (read_n f n) (fun l => l ≫= e) (fun l => Forall P l /\ length l = n).
Proof.
  intros Hf. induction n as [|n IH]; intros bs l rest Hb H; cbn [read_n] in H.
  { injection H as <- <-. by repeat constructor. }
  bind_inv H as ([x r1] & H1 & H). bind_inv H as ([l' r2] & H2 & H). injection H as <- <-.
  apply Hf in H1 as [-> Hx]; [|done]. apply Forall_app in Hb as [_ Hb].
  apply IH in H2 as (-> & Hl & Hn); [|done]. rewrite bind_cons, <- app_assoc. split; [done|].
  split; [by constructor|]. simpl. by rewrite Hn.
Qed.

Lemma deserialize_only :
  (forall t, reads_only (deserialize t) (encode t) (wf t)) /\
  (forall ts, reads_only (deserialize_tuple ts) (encodes ts) (wfs ts)).
Proof.
  apply ty_tys_ind; cbn [encode encodes wf wfs denote denotes deserialize deserialize_tuple].
  - intros w. apply read_scalar_only.
  - intros bs s rest Hb H. bind_inv H as ([n r1] & H1 & H). apply read_scalar_only in H1 as [-> Hn]; [|done].
    apply Forall_app in Hb as [_ Hb]. destruct (Z.eqb_spec n 0) as [->|Hn0].
    { injection H as <- <-. split; [done|]. split; [constructor|]. simpl. word_lia. }
    bind_inv H as (? & _ & H).
    apply (read_n_only _ _ _ _ (read_scalar_only 1)) in H as (-> & Hs & Hl); [|done].
    rewrite Hl, Z2Nat.id, <- app_assoc by lia. split; [done|]. split; [|word_lia].
    eapply Forall_impl; [done|]. intros c Hc. word_lia.
  - intros t IH bs l rest Hb H. bind_inv H as ([n r1] & H1 & H). apply read_scalar_only in H1 as [-> Hn]; [|done].
    apply Forall_app in Hb as [_ Hb]. bind_inv H as (? & _ & H).
    apply (read_n_only _ _ _ _ IH) in H as (-> & Hs & Hl); [|done].
    rewrite Hl, Z2Nat.id, <- app_assoc by lia. split; [done|]. split; [done|word_lia].
  - by auto.
  - by auto.
  - intros t IH ts IHs bs x rest Hb H. bind_inv H as ([v r1] & H1 & H). bind_inv H as ([vs r2] & H2 & H).
    injection H as <- <-. apply IH in H1 as [-> Hv]; [|done]. apply Forall_app in Hb as [_ Hb].
    apply IHs in H2 as [-> Hvs]; [|done]. simpl. by rewrite <- app_assoc.
Qed.
End stream.

(** ** Tuples *)

Section tuple.
Context (can_alloc : Z -> bool) (ts : tys).

(** the attributes and the bit set of null flags *)
Record Tuple := mkTuple { tdata : denotes ts; mNulls : Z }.

Definition NUM_ATTRIBUTES : nat := arity ts.

(** [Tuple(Types... args)], and the copy constructor: it copies the attributes
    only *)
Definition make_tuple (args : denotes ts) : Tuple := mkTuple args 0.
Definition copy_tuple (tup : Tuple) : Tuple := mkTuple (tdata tup) 0.

Definition setNull (index : nat) (value : bool) (tp : Tuple) : result Tuple :=
  _ ← guard_else (index <? NUM_ATTRIBUTES)%nat AssertFailed;
  Ok (mkTuple (tdata tp)
    (if value then set_bit (mNulls tp) (Z.of_nat index) else clear_bit (mNulls tp) (Z.of_nat index))).

(** [mNulls[index]] is not checked against the size of the bit set *)
Definition isNull (index : nat) (tp : Tuple) : result bool :=
  _ ← guard_else (index <? NUM_ATTRIBUTES)%nat OutOfBounds;
  Ok (Z.testbit (mNulls tp) (Z.of_nat index)).

(** [mNulls.set()] *)
Definition setNull_all (tp : Tuple) : Tuple := mkTuple (tdata tp) (Z.ones (Z.of_nat NUM_ATTRIBUTES)).

(** [StreamElementTraits::isNull] *)
Definition traits_isNull (index : nat) (tp : Tuple) : result bool :=
  _ ← guard_else (index <? NUM_ATTRIBUTES)%nat AssertFailed;
  isNull index tp.

Definition wf_tuple (tp : Tuple) : Prop := wfs ts (tdata tp) /\ 0 <= mNulls tp < 2 ^ Z.of_nat NUM_ATTRIBUTES.

(** [sizeof(std::bitset<N>)]: whole 64-bit words *)
Definition bitset_bytes (n : nat) : nat := 8 * ((n + 63) / 64).

(** the tag in front of serialized elements *)
Definition TupleType_Normal : Z := 0.
Definition TupleType_Punctuation : Z := 1.

Definition serializeToStream (tp : Tuple) (res : list Z) : result (list Z) :=
  res ← serialize can_alloc (Scalar 1) TupleType_Normal res;
  res ← serialize can_alloc (TTuple ts) (tdata tp) res;
  serialize can_alloc (Scalar (bitset_bytes NUM_ATTRIBUTES)) (mNulls tp) res.

(** the tag is read and not looked at *)
Definition deserializeFromStream (res : list Z) : result Tuple :=
  '(_, it) ← deserialize can_alloc (Scalar 1) res;
  '(data, it) ← deserialize can_alloc (TTuple ts) it;
  '(nulls, _) ← deserialize can_alloc (Scalar (bitset_bytes NUM_ATTRIBUTES)) it;
  Ok (mkTuple data nulls).

(** the bytes of a serialized tuple *)
Definition tuple_bytes (tp : Tuple) : list Z :=
  TupleType_Normal :: encodes ts (tdata tp) ++ le_split (bitset_bytes NUM_ATTRIBUTES) (mNulls tp).

Lemma bitset_bytes_enough n : 2 ^ Z.of_nat n <= 256 ^ Z.of_nat (bitset_bytes n).
Proof.
  unfold bitset_bytes. change 256 with (2 ^ 8). rewrite <- Z.pow_mul_r by lia.
  apply Z.pow_le_mono_r; [lia|]. pose proof (Nat.div_mod (n + 63) 64 ltac:(lia)).
  pose proof (Nat.mod_upper_bound (n + 63) 64 ltac:(lia)). lia.
Qed.

Lemma bitset_bytes_pos n : (1 <= n)%nat -> (0 < bitset_bytes n)%nat.
Proof.
  intros Hn. unfold bitset_bytes. pose proof (Nat.Div0.div_le_mono 64 (n + 63) 64 ltac:(lia)) as H.
  change (64 / 64)%nat with 1%nat in H. lia.
Qed.

Lemma length_tuple_bytes tp :
  length (tuple_bytes tp) = (1 + length (encodes ts (tdata tp)) + bitset_bytes NUM_ATTRIBUTES)%nat.
Proof. unfold tuple_bytes. cbn [length]. rewrite length_app, le_split_length. lia. Qed.

Lemma serializeToStream_bytes tp res :
  is_u64 (Z.of_nat (length res + length (tuple_bytes tp))) ->
  allocates can_alloc (length res + length (tuple_bytes tp)) ->
  serializeToStream tp res = Ok (res ++ tuple_bytes tp).
Proof.
  rewrite length_tuple_bytes. intros Hl Ha. unfold serializeToStream.
  assert (forall t v out, (length out + length (encode t v)
      <= length res + (1 + length (encodes ts (tdata tp)) + bitset_bytes NUM_ATTRIBUTES))%nat ->
    serialize can_alloc t v out = Ok (out ++ encode t v)) as Hs.
  { intros t v out Hle. apply serialize_encode; [word_lia|]. apply Ha. lia. }
  rewrite Hs by (cbn [encode]; rewrite le_split_length; lia). run_step.
  rewrite Hs by (cbn [encode]; rewrite length_app, le_split_length; lia). run_step.
  rewrite Hs by (cbn [encode]; rewrite !length_app, !le_split_length; lia).
  by rewrite <- !app_assoc.
Qed.

Lemma deserializeFromStream_bytes tp rest :
  sizeds ts = true -> wf_tuple tp -> allocates can_alloc (length (tuple_bytes tp)) ->
  deserializeFromStream (tuple_bytes tp ++ rest) = Ok tp.
Proof.
  intros Hsz [Hwf Hn] Ha. rewrite length_tuple_bytes in Ha. unfold deserializeFromStream, tuple_bytes.
  assert (forall t v rest, sized t = true -> wf t v -> allocates can_alloc (length (encode t v)) ->
    deserialize can_alloc t (encode t v ++ rest) = Ok (v, rest)) as Hd
    by (intros; by apply (proj1 (deserialize_encode can_alloc))).
  change (TupleType_Normal :: ?l) with (encode (Scalar 1) TupleType_Normal ++ l). rewrite <- app_assoc.
  rewrite Hd by (done || (eapply allocates_le; [|done]; cbn [encode]; rewrite le_split_length; lia)). run_step.
  rewrite <- app_assoc. change (encodes ts) with (encode (TTuple ts)).
  rewrite Hd by (done || (eapply allocates_le; [|done]; cbn [encode]; lia)). run_step.
  change (le_split ?n) with (encode (Scalar n)).
  rewrite Hd; [by destruct tp| | |eapply allocates_le; [|done]; cbn [encode]; rewrite le_split_length; lia].
  - cbn [sized]. apply Nat.ltb_lt, bitset_bytes_pos, arity_pos.
  - pose proof (bitset_bytes_enough NUM_ATTRIBUTES). cbn [wf]. lia.
Qed.

(** null flags are independent of each other and of the attributes *)
Lemma isNull_setNull tp tp' i j value :
  0 <= mNulls tp -> setNull i value tp = Ok tp' -> (j < NUM_ATTRIBUTES)%nat ->
  tdata tp' = tdata tp /\
  isNull j tp' = if decide (i = j) then Ok value else isNull j tp.
Proof.
  intros Hn H Hj. unfold setNull in H. bind_inv H as ([] & _ & H). injection H as <-. split; [done|].
  unfold isNull. rewrite (proj2 (Nat.ltb_lt _ _) Hj). cbn [guard_else mNulls]. run_step.
  destruct value; [rewrite set_bit_testbit by lia|rewrite clear_bit_testbit by lia].
  all: case_decide as Hij; [subst; rewrite bool_decide_eq_true_2 by done|rewrite bool_decide_eq_false_2 by lia].
  all: try done.
Qed.
End tuple.

Arguments mkTuple {ts} tdata mNulls.
Arguments tdata {ts} t.
Arguments mNulls {ts} t.

(** ** Attributes

    An attribute is selected at compile time; an index outside the tuple does
    not compile ([BOOST_STATIC_ASSERT]), here it selects the last one. *)
Fixpoint getAttributeType (ts : tys) (ID : nat) : ty :=
  match ts, ID with
  | TLast t, _ => t
  | TMore t _, O => t
  | TMore _ ts, S ID => getAttributeType ts ID
  end.

Fixpoint getAttribute (ts : tys) (ID : nat) : denotes ts -> denote (getAttributeType ts ID) :=
  match ts, ID with
  | TLast _, _ => fun e => e
  | TMore t ts, O => fun e : denote t * denotes ts => e.1
  | TMore t ts, S ID => fun e : denote t * denotes ts => getAttribute ts ID e.2
  end.

Fixpoint setAttribute (ts : tys) (ID : nat) : denote (getAttributeType ts ID) -> denotes ts -> denotes ts :=
  match ts, ID with
  | TLast _, _ => fun value _ => value
  | TMore t ts, O => fun value (e : denote t * denotes ts) => (value, e.2)
  | TMore t ts, S ID => fun value (e : denote t * denotes ts) => (e.1, setAttribute ts ID value e.2)
  end.

Lemma getAttribute_setAttribute ts ID value e : getAttribute ts ID (setAttribute ts ID value e) = value.
Proof. revert ID value e. induction ts as [t|t ts IH]; intros [|ID] value e; simpl; by auto. Qed.

Lemma getAttribute_setAttribute_ne ts ID ID' value e :
  ID <> ID' -> (ID < arity ts)%nat -> (ID' < arity ts)%nat ->
  getAttribute ts ID' (setAttribute ts ID value e) = getAttribute ts ID' e.
Proof.
  revert ID ID' value e. induction ts as [t|t ts IH]; intros [|ID] [|ID'] value e Hne H1 H2; simpl in *; try (done || lia).
  apply IH; lia.
Qed.

(** [operator==] of attributes; floating point types, where it is not equality
    of the representation, are left out *)
Fixpoint attr_eqb (t : ty) : denote t -> denote t -> bool :=
  match t with
  | Scalar _ => Z.eqb
  | TString => fun x y : list Z => bool_decide (x = y)
  | TVector t => fun x y : list (denote t) => (length x =? length y)%nat && forallb (fun p => attr_eqb t p.1 p.2) (zip x y)
  | TTuple ts => attrs_eqb ts
  end
with attrs_eqb (ts : tys) : denotes ts -> denotes ts -> bool :=
  match ts with
  | TLast t => attr_eqb t
  | TMore t ts => fun x y : denote t * denotes ts => attr_eqb t x.1 y.1 && attrs_eqb ts x.2 y.2
  end.

(** [ElementsEqual<ID>]: from the last attribute to the first *)
Fixpoint ElementsEqual (ts : tys) (ID : nat) (leftElement rightElement : denotes ts) : bool :=
  match ID with
  | O => true
  | S ID =>
      attr_eqb (getAttributeType ts ID) (getAttribute ts ID leftElement) (getAttribute ts ID rightElement) &&
      ElementsEqual ts ID leftElement rightElement
  end.

(** [elementsEqual]: null flags do not take part *)
Definition elementsEqual (ts : tys) (leftElement rightElement : Tuple ts) : bool :=
  ElementsEqual ts (NUM_ATTRIBUTES ts) (tdata leftElement) (tdata rightElement).

Lemma zip_forallb {A} (f : A -> A -> bool) (x y : list A) :
  (forall a b, f a b = true <-> a = b) ->
  (length x =? length y)%nat && forallb (fun p => f p.1 p.2) (zip x y) = true <-> x = y.
Proof.
  intros Hf. revert y. induction x as [|a x IH]; intros [|b y]; try done.
  cbn [length Nat.eqb zip zip_with forallb fst snd].
  rewrite (andb_comm (f a b)), andb_assoc, andb_true_iff, IH, Hf.
  split; [by intros [-> ->]|by intros [= -> ->]].
Qed.

Lemma attr_eqb_spec :
  (forall t x y, attr_eqb t x y = true <-> x = y) /\ (forall ts x y, attrs_eqb ts x y = true <-> x = y).
Proof.
  apply ty_tys_ind; cbn [attr_eqb attrs_eqb].
  - intros w x y. apply Z.eqb_eq.
  - intros x y. apply bool_decide_eq_true.
  - intros t IH x y. by apply zip_forallb.
  - by auto.
  - by auto.
  - intros t IH ts IHs [x xs] [y ys]. cbn [fst snd]. rewrite andb_true_iff, IH, IHs.
    split; [by intros [-> ->]|by intros [= -> ->]].
Qed.

Lemma ElementsEqual_spec ts ID l r :
  ElementsEqual ts ID l r = true <-> forall i, (i < ID)%nat -> getAttribute ts i l = getAttribute ts i r.
Proof.
  induction ID as [|ID IH]; cbn [ElementsEqual]; [split; [by intros _ i Hi; lia|done]|].
  rewrite andb_true_iff, (proj1 attr_eqb_spec), IH. split.
  - intros [He Hl] i Hi. destruct (decide (i = ID)) as [->|]; [done|]. apply Hl. lia.
  - intros H. split; [apply H; lia|]. intros i Hi. apply H. lia.
Qed.

Lemma attributes_ext ts (l r : denotes ts) :
  (forall i, (i < arity ts)%nat -> getAttribute ts i l = getAttribute ts i r) -> l = r.
Proof.
  induction ts as [t|t ts IH]; intros H; [by apply (H 0%nat); simpl; lia|].
  destruct l as [l ls], r as [r rs]. f_equal; [by apply (H 0%nat); simpl; lia|].
  apply IH. intros i Hi. apply (H (S i)). simpl. lia.
Qed.

Lemma elementsEqual_spec ts (l r : Tuple ts) : elementsEqual ts l r = true <-> tdata l = tdata r.
Proof.
  unfold elementsEqual, NUM_ATTRIBUTES. rewrite ElementsEqual_spec. split; [apply attributes_ext|by intros ->].
Qed.

(** ** Punctuations over the byte stream (Punctuation.cpp)

    The data of a punctuation is a transaction id or nothing; the type is the
    32-bit value of its enumerator, the timestamp 64 bits. *)
Record Punctuation := mkPunctuation { mPtype : Z; mData : option Z; mTstamp : Z }.

Section wire.
Context (can_alloc : Z -> bool).

Definition punct_serializeToStream (p : Punctuation) (res : list Z) : result (list Z) :=
  res ← serialize can_alloc (Scalar 1) TupleType_Punctuation res;
  res ← serialize can_alloc (Scalar 8) (mTstamp p) res;
  serialize can_alloc (Scalar 4) (mPtype p) res.

(** called on [p], whose data stays as it is *)
Definition punct_deserializeFromStream (res : list Z) (p : Punctuation) : result Punctuation :=
  '(_, it) ← deserialize can_alloc (Scalar 1) res;
  '(ts, it) ← deserialize can_alloc (Scalar 8) it;
  '(pt, _) ← deserialize can_alloc (Scalar 4) it;
  Ok (mkPunctuation pt (mData p) ts).

(** *** From ZMQSink to TupleDeserializer

    A [ZMQSink] in binary mode sends one message per element and per
    punctuation.  A [ZMQSource<TBufPtr>] publishes every message that is not
    empty as a data element holding the bytes; a [TupleDeserializer] makes a
    tuple of them.  The socket in between is a list of messages. *)
Context (ts : tys).

Inductive zmq_input := ZData (tp : Tuple ts) (outdated : bool) | ZPunct (p : Punctuation).

(** [mBuf] is cleared before each message *)
Definition zmq_sink_step (e : zmq_input) (mBuf : list Z) : result (list (list Z) * list Z) :=
  mBuf ← match e with
         | ZData tp outdated => serializeToStream can_alloc ts tp []
         | ZPunct p => punct_serializeToStream p []
         end;
  Ok ([mBuf], mBuf).

Definition zmq_source_process (msgs : list (list Z)) : list (event (list Z)) :=
  msgs ≫= fun msg => if (length msg =? 0)%nat then [] else [Data msg false].

Definition deserializer_step (e : event (list Z)) (s : unit) : result (list (event (Tuple ts)) * unit) :=
  match e with
  | Data buf outdated => tp ← deserializeFromStream can_alloc ts buf; Ok ([Data tp outdated], s)
  | Punct p => Ok ([Punct p], s)
  end.

Definition zmq_transfer (es : list zmq_input) : result (list (event (Tuple ts))) :=
  '(msgs, _) ← run zmq_sink_step es [];
  '(out, _) ← run deserializer_step (zmq_source_process msgs) tt;
  Ok out.
End wire.

(** ** Properties *)

(** C26: [serialize] appends exactly [get_size] bytes, within the space it has
    reserved, and [deserialize] recovers the object from them and leaves the
    rest of the stream untouched; for every type built from scalars, strings,
    vectors and tuples. *)
Theorem serialize_roundtrip can_alloc t v res :
  sized t = true -> wf t v ->
  is_u64 (Z.of_nat (length res + length (encode t v))) ->
  allocates can_alloc (length res + length (encode t v)) ->
  exists bytes, serialize can_alloc t v res = Ok (res ++ bytes) /\ Z.of_nat (length bytes) = get_size t v /\
    forall rest, deserialize can_alloc t (bytes ++ rest) = Ok (v, rest).
Proof.
  intros Hs Hwf Hl Ha. exists (encode t v). split_and!.
  - apply serialize_encode; [done|]. apply Ha. lia.
  - rewrite (proj1 get_size_encode), u64_small by word_lia. done.
  - apply deserialize_encode; [done..|]. eapply allocates_le; [|done]. lia.
Qed.

(** a tuple of an int, a string and a vector of strings *)
Definition demo_type : ty := TTuple (TMore (Scalar 4) (TMore TString (TLast (TVector TString)))).
Definition demo_value : denote demo_type := (12, ([72; 97], [[1]; []])).
Definition small_alloc (n : Z) : bool := n <=? 1000.

Lemma serialize_roundtrip_witness :
  exists bytes, serialize small_alloc demo_type demo_value [7] = Ok ([7] ++ bytes) /\
    Z.of_nat (length bytes) = get_size demo_type demo_value /\
    forall rest, deserialize small_alloc demo_type (bytes ++ rest) = Ok (demo_value, rest).
Proof.
  apply (serialize_roundtrip small_alloc demo_type demo_value [7]).
  - reflexivity.
  - cbn. repeat split; repeat constructor; (vm_compute; congruence).
  - vm_compute. split; congruence.
  - intros k Hk. unfold small_alloc. apply Z.leb_le. destruct Hk as [_ Hk]. eapply Z.le_trans; [exact Hk|]. vm_compute. congruence.
Defined.

(** C27: whatever bytes arrive, an object that [deserialize] returns is a value of
    its type (lengths and scalars in range), and the bytes consumed are the ones
    [serialize] writes for it. *)
Theorem deserialize_typed can_alloc t bs v rest :
  Forall is_u8 bs -> is_u64 (Z.of_nat (length bs)) ->
  deserialize can_alloc t bs = Ok (v, rest) ->
  wf t v /\ exists bytes, bs = bytes ++ rest /\ Z.of_nat (length bytes) = get_size t v /\
    forall can_alloc', allocates can_alloc' (length bytes) -> serialize can_alloc' t v [] = Ok bytes.
Proof.
  intros Hb Hl H. apply (proj1 (deserialize_only can_alloc)) in H as [-> Hwf]; [|done]. split; [done|].
  rewrite length_app in Hl. exists (encode t v). split_and!; [done| |].
  - rewrite (proj1 get_size_encode), u64_small by word_lia. done.
  - intros can_alloc' Ha. apply serialize_encode; [simpl; word_lia|]. apply Ha. cbn [length]. lia.
Qed.

Lemma deserialize_typed_witness :
  wf (TTuple (TMore TString (TLast (Scalar 2)))) ([65], 513) /\
  exists bytes, [1;0;0;0;0;0;0;0; 65; 1;2; 9] = bytes ++ [9] /\
    Z.of_nat (length bytes) = get_size (TTuple (TMore TString (TLast (Scalar 2)))) ([65], 513) /\
    forall can_alloc', allocates can_alloc' (length bytes) ->
      serialize can_alloc' (TTuple (TMore TString (TLast (Scalar 2)))) ([65], 513) [] = Ok bytes.
Proof.
  apply (deserialize_typed small_alloc (TTuple (TMore TString (TLast (Scalar 2))))
           [1;0;0;0;0;0;0;0; 65; 1;2; 9] ([65], 513) [9]).
  - repeat constructor; (vm_compute; congruence).
  - vm_compute. split; congruence.
  - reflexivity.
Defined.

Section transfer.
Context (can_alloc : Z -> bool) (ts : tys).

(** a tuple whose serialization fits memory *)
Definition sendable (tp : Tuple ts) : Prop :=
  wf_tuple ts tp /\ is_u64 (Z.of_nat (length (tuple_bytes ts tp))) /\ allocates can_alloc (length (tuple_bytes ts tp)).

Lemma zmq_sink_data (es : list (Tuple ts * bool)) buf :
  Forall (fun e => sendable e.1) es ->
  exists buf', run (zmq_sink_step can_alloc ts) ((fun e => ZData ts e.1 e.2) <$> es) buf =
    Ok ((fun e => tuple_bytes ts e.1) <$> es, buf').
Proof.
  intros H. revert buf. induction H as [|[tp o] es (Hwf & Hl & Ha) _ IH]; intros buf; [by exists buf|].
  cbn [fst snd] in *. destruct (IH (tuple_bytes ts tp)) as [buf' Hrun]. exists buf'.
  rewrite !fmap_cons. cbn [run fst snd].
  change (zmq_sink_step can_alloc ts (ZData ts tp o) buf)
    with (mBuf ← serializeToStream can_alloc ts tp []; Ok ([mBuf], mBuf)).
  rewrite serializeToStream_bytes by done. run_step. cbn [app]. by rewrite Hrun.
Qed.

Lemma deserializer_data (es : list (Tuple ts * bool)) :
  sizeds ts = true -> Forall (fun e => sendable e.1) es ->
  run (deserializer_step can_alloc ts) (zmq_source_process ((fun e => tuple_bytes ts e.1) <$> es)) tt =
  Ok ((fun e => Data e.1 false) <$> es, tt).
Proof.
  intros Hs H. induction H as [|[tp o] es (Hwf & Hl & Ha) _ IH]; [done|].
  cbn [fst snd] in *. unfold zmq_source_process in *. rewrite !fmap_cons, bind_cons. cbn [fst].
  destruct (length (tuple_bytes ts tp) =? 0)%nat eqn:Hz; [done|]. cbn [app run].
  change (deserializer_step can_alloc ts (Data (tuple_bytes ts tp) false) tt)
    with (tp ← deserializeFromStream can_alloc ts (tuple_bytes ts tp); Ok ([Data tp false], tt)).
  rewrite <- (app_nil_r (tuple_bytes ts tp)), deserializeFromStream_bytes by done. run_step.
  by rewrite IH.
Qed.
End transfer.

(** Tuples sent through a [ZMQSink] in binary mode arrive at the subscribers
    of the [TupleDeserializer] with their attributes and null flags, in order;
    but every one arrives as a new element, retractions included. *)
Lemma zmq_transfer_tuples can_alloc ts (es : list (Tuple ts * bool)) :
  sizeds ts = true -> Forall (fun e => sendable can_alloc ts e.1) es ->
  zmq_transfer can_alloc ts ((fun e => ZData ts e.1 e.2) <$> es) = Ok ((fun e => Data e.1 false) <$> es).
Proof.
  intros Hs H. unfold zmq_transfer. destruct (zmq_sink_data can_alloc ts es [] H) as [buf ->]. run_step.
  by rewrite deserializer_data.
Qed.

Definition int_tuple : tys := TLast (Scalar 4).

Lemma zmq_transfer_tuples_witness :
  zmq_transfer small_alloc int_tuple [ZData int_tuple (mkTuple (5 : denotes int_tuple) 0) false; ZData int_tuple (mkTuple (5 : denotes int_tuple) 1) true] =
  Ok [Data (mkTuple (5 : denotes int_tuple) 0) false; Data (mkTuple (5 : denotes int_tuple) 1) false].
Proof.
  apply (zmq_transfer_tuples small_alloc int_tuple
           [(mkTuple (5 : denotes int_tuple) 0, false); (mkTuple (5 : denotes int_tuple) 1, true)]); [reflexivity|].
  repeat constructor; try (vm_compute; congruence).
  all: intros k [_ Hk]; apply Z.leb_le; (eapply Z.le_trans; [exact Hk|]); vm_compute; congruence.
Defined.

Definition punctuation_bytes (p : Punctuation) : list Z :=
  TupleType_Punctuation :: le_split 8 (mTstamp p) ++ le_split 4 (mPtype p).

Lemma punct_bytes can_alloc p : allocates can_alloc 13 ->
  punct_serializeToStream can_alloc p [] = Ok (punctuation_bytes p).
Proof.
  intros Ha. unfold punct_serializeToStream.
  assert (forall w x res, (length res + w <= 13)%nat ->
    serialize can_alloc (Scalar w) x res = Ok (res ++ le_split w x)) as Hs.
  { intros w x res Hl. apply serialize_encode; cbn [encode]; rewrite le_split_length; [word_lia|]. apply Ha. lia. }
  rewrite Hs by (simpl; lia). run_step. rewrite Hs by (simpl; lia). run_step.
  rewrite Hs by (rewrite !length_app, !le_split_length; simpl; lia). done.
Qed.

Lemma zmq_transfer_punct can_alloc ts p : allocates can_alloc 13 ->
  zmq_transfer can_alloc ts [ZPunct ts p] =
    (tp ← deserializeFromStream can_alloc ts (punctuation_bytes p); Ok [Data tp false]).
Proof.
  intros Ha. unfold zmq_transfer. cbn [run].
  change (zmq_sink_step can_alloc ts (ZPunct ts p) [])
    with (mBuf ← punct_serializeToStream can_alloc p []; Ok ([mBuf], mBuf)).
  rewrite punct_bytes by done. run_step. cbn [app].
  change (zmq_source_process [punctuation_bytes p]) with [Data (punctuation_bytes p) false]. cbn [run].
  change (deserializer_step can_alloc ts (Data (punctuation_bytes p) false) tt)
    with (tp ← deserializeFromStream can_alloc ts (punctuation_bytes p); Ok ([Data tp false], tt)).
  by destruct (deserializeFromStream can_alloc ts (punctuation_bytes p)).
Qed.

(** the bytes of a word are those of its two halves *)
Lemma le_split_app (n m : nat) x y : 0 <= x < 256 ^ Z.of_nat n ->
  le_split (n + m) (x + 256 ^ Z.of_nat n * y) = le_split n x ++ le_split m y.
Proof.
  revert x. induction n as [|n IH]; intros x Hx.
  - simpl in *. replace x with 0 by lia. f_equal. lia.
  - rewrite pow256_S in *. cbn [Nat.add]. unfold le_split; fold le_split. cbn [app].
    replace (x + 256 * 256 ^ Z.of_nat n * y) with (x + (256 ^ Z.of_nat n * y) * 256) by lia.
    rewrite Z.mod_add, Z.div_add by done. f_equal. apply IH.
    split; [apply Z.div_pos; lia|]. apply Z.div_lt_upper_bound; lia.
Qed.

Lemma length_deserialize_only can_alloc t bs v rest : Forall is_u8 bs ->
  deserialize can_alloc t bs = Ok (v, rest) -> Forall is_u8 rest /\ length bs = (length (encode t v) + length rest)%nat.
Proof.
  intros Hb H. apply (proj1 (deserialize_only can_alloc)) in H as [-> _]; [|done].
  apply Forall_app in Hb as [_ ?]. by rewrite length_app.
Qed.

Lemma punctuation_too_short can_alloc ts p tp : (forall v, 4 < length (encodes ts v))%nat ->
  deserializeFromStream can_alloc ts (punctuation_bytes p) <> Ok tp.
Proof.
  intros Hbig H. unfold deserializeFromStream in H.
  bind_inv H as ([v1 r1] & H1 & H). bind_inv H as ([v2 r2] & H2 & H). bind_inv H as ([v3 r3] & H3 & _).
  apply length_deserialize_only in H1 as [Hr1 Hl1]; [|constructor; [done|]; apply Forall_app_2; apply le_split_u8].
  apply (length_deserialize_only can_alloc (TTuple ts)) in H2 as [Hr2 Hl2]; [|done].
  apply (length_deserialize_only can_alloc (Scalar _)) in H3 as [_ Hl3]; [|done].
  unfold punctuation_bytes in Hl1. cbn [length encode] in *. rewrite length_app, !le_split_length in *.
  pose proof (bitset_bytes_pos (NUM_ATTRIBUTES ts) (arity_pos ts)). specialize (Hbig v2).
  unfold bitset_bytes in *. lia.
Qed.

(** A punctuation sent the same way is not recognized: the deserializer turns
    its timestamp and type into a data element where they are large enough for
    one, and fails otherwise.  Its transaction id is not sent at all. *)
Lemma zmq_transfer_punctuation can_alloc p :
  is_u64 (mTstamp p) -> is_u32 (mPtype p) -> allocates can_alloc 13 ->
  zmq_transfer can_alloc int_tuple [ZPunct int_tuple p] =
    Ok [Data (mkTuple (mTstamp p mod 2^32 : denotes int_tuple) (mTstamp p / 2^32 + 2^32 * mPtype p)) false] /\
  (forall ts, (forall v, 4 < length (encodes ts v))%nat ->
     exists f, zmq_transfer can_alloc ts [ZPunct ts p] = Err f) /\
  (forall q, exists bytes, punct_serializeToStream can_alloc p [] = Ok bytes /\
     punct_deserializeFromStream can_alloc bytes q = Ok (mkPunctuation (mPtype p) (mData q) (mTstamp p))).
Proof.
  intros Ht Hp Ha.
  pose proof (fun ts => zmq_transfer_punct can_alloc ts p Ha) as Hz.
  assert (0 <= mTstamp p / 2^32 < 2^32) as Hd.
  { destruct Ht. split; [by apply Z.div_pos|]. apply Z.div_lt_upper_bound; lia. }
  split_and!.
  - rewrite Hz. unfold punctuation_bytes, deserializeFromStream.
    change (TupleType_Punctuation :: ?l) with (le_split 1 1 ++ l).
    cbn [deserialize deserialize_tuple int_tuple NUM_ATTRIBUTES arity].
    rewrite read_scalar_split by lia. run_step.
    assert (le_split 8 (mTstamp p) ++ le_split 4 (mPtype p) =
      le_split 4 (mTstamp p mod 2^32) ++ le_split 8 (mTstamp p / 2^32 + 2^32 * mPtype p)) as ->.
    { rewrite (Z.div_mod (mTstamp p) (2^32)) at 1 by done. rewrite Z.add_comm.
      rewrite (le_split_app 4 4 (mTstamp p mod 2^32)), <- app_assoc by (apply Z.mod_pos_bound; done).
      f_equal. symmetry. apply (le_split_app 4 4). change (256 ^ Z.of_nat 4) with (2^32); lia. }
    rewrite read_scalar_split by (apply Z.mod_pos_bound; done). run_step.
    rewrite <- (app_nil_r (le_split 8 _)). rewrite read_scalar_split; [done|].
    change (256 ^ Z.of_nat _) with (2^32 * 2^32). word_lia.
  - intros ts Hbig. rewrite Hz.
    destruct (deserializeFromStream can_alloc ts (punctuation_bytes p)) as [tp|f] eqn:He; [|by exists f].
    exfalso. by eapply punctuation_too_short.
  - intros q. exists (punctuation_bytes p). split; [by apply punct_bytes|].
    unfold punctuation_bytes, punct_deserializeFromStream.
    change (TupleType_Punctuation :: ?l) with (le_split 1 1 ++ l). cbn [deserialize].
    rewrite read_scalar_split by lia. run_step. rewrite read_scalar_split by word_lia. run_step.
    rewrite <- (app_nil_r (le_split 4 _)). by rewrite read_scalar_split by word_lia.
Qed.

Lemma zmq_transfer_punctuation_witness :
  zmq_transfer small_alloc int_tuple [ZPunct int_tuple (mkPunctuation (ptype_bits EndOfStream) None (3 * 2^32 + 7))] =
    Ok [Data (mkTuple (7 : denotes int_tuple) (3 + 2^32)) false].
Proof.
  refine (proj1 (zmq_transfer_punctuation small_alloc (mkPunctuation (ptype_bits EndOfStream) None (3 * 2^32 + 7)) _ _ _)).
  1,2: vm_compute; split; congruence.
  intros k [_ Hk]; apply Z.leb_le; (eapply Z.le_trans; [exact Hk|]); vm_compute; congruence.
Defined.
