(* ===== verification/RDBTable.v ===== *)
(** * RDBTable: a table in a RocksDB database

    [src/table/RDBTable.hpp]: the table and its iterator, the values stored in
    the serialization of [Serialize.v] and the keys as the bytes of their
    objects.  RocksDB is a class of operations with what it documents: a map
    from byte strings, whose writes report a status, and whose iterators see
    the database as it was when they were created. *)

From S2P Require Import Prelude Tables Serialize.

(** ** rocksdb::DB *)

(** [rdb_open]: [None] for a database that does not exist, or cannot be opened *)
Class RocksOps (D : Type) := {
  rdb_open : option D -> option D;
  rdb_get : D -> list Z -> option (list Z);
  rdb_put : D -> list Z -> list Z -> bool * D;
  rdb_delete : D -> list Z -> bool * D;
  rdb_scan : D -> list (list Z * list Z);
}.

Class RocksLaws (D : Type) {ops : RocksOps D} : Prop := {
  rdb_open_new : forall d k, rdb_open None = Some d -> rdb_get d k = None;
  rdb_open_existing : forall d d' k, rdb_open (Some d) = Some d' -> rdb_get d' k = rdb_get d k;
  rdb_get_put : forall d k v k', (rdb_put d k v).1 = true ->
    rdb_get (rdb_put d k v).2 k' = if decide (k = k') then Some v else rdb_get d k';
  rdb_put_failed : forall d k v k', (rdb_put d k v).1 = false -> rdb_get (rdb_put d k v).2 k' = rdb_get d k';
  rdb_get_delete : forall d k k', (rdb_delete d k).1 = true ->
    rdb_get (rdb_delete d k).2 k' = if decide (k = k') then None else rdb_get d k';
  rdb_delete_failed : forall d k k', (rdb_delete d k).1 = false -> rdb_get (rdb_delete d k).2 k' = rdb_get d k';
  rdb_scan_nodup : forall d, NoDup (rdb_scan d).*1;
  rdb_scan_get : forall d k v, (k, v) ∈ rdb_scan d <-> rdb_get d k = Some v;
}.

(** ** Keys and values as bytes *)

(** [valToSlice]: the bytes of the object *)
Class KeyBytes (K : Type) := { valToSlice : K -> list Z; #[global] valToSlice_inj :: Inj (=) (=) valToSlice }.

(** [serializeToStream] into an empty buffer, and [sliceToTuple] *)
Class Codec (R : Type) := { toStream : R -> result (list Z); sliceToTuple : list Z -> result R }.

Class CodecLaws (R : Type) {codec : Codec R} := {
  storable : R -> Prop;
  codec_roundtrip : forall r, storable r -> exists bs, toStream r = Ok bs /\ sliceToTuple bs = Ok r;
}.

Section RDBTable.
Context {D K R : Type} `{RocksOps D} `{Countable K} {KB : KeyBytes K} {codec : Codec R}.

Definition notification : Type := nat * R * ModificationMode.

(** [db] is null after [drop]; [numRecords] is an [unsigned long]; [statuses]:
    what the database has answered to the writes so far *)
Record RDBTable := mkRDBTable {
  db : option D;
  numRecords : Z;
  mImmediateObservers : list nat;
  mDeferredObservers : list nat;
  delivered : list notification;
  statuses : list (list Z * bool);
}.

Definition with_db (d : option D) (t : RDBTable) : RDBTable :=
  mkRDBTable d (numRecords t) (mImmediateObservers t) (mDeferredObservers t) (delivered t) (statuses t).
Definition with_count (n : Z) (t : RDBTable) : RDBTable :=
  mkRDBTable (db t) (u64 n) (mImmediateObservers t) (mDeferredObservers t) (delivered t) (statuses t).

Definition notifyObservers (rec : R) (mode : ModificationMode) (notify : NotificationMode) (t : RDBTable) : RDBTable :=
  let obs := match notify with Immediate => mImmediateObservers t | OnCommit => mDeferredObservers t end in
  mkRDBTable (db t) (numRecords t) (mImmediateObservers t) (mDeferredObservers t) (delivered t ++ ((fun o => (o, rec, mode)) <$> obs)) (statuses t).

(** [db->...] *)
Definition the_db (t : RDBTable) : result D := match db t with Some d => Ok d | None => Err Dangling end.

(** ** Opening *)

Definition updateRecordCounter (t : RDBTable) : result RDBTable :=
  d ← the_db t; Ok (with_count (Z.of_nat (length (rdb_scan d))) t).

(** [file]: what is stored under the name of the table *)
Definition openOrCreateTable (file : option D) (t : RDBTable) : result RDBTable :=
  match rdb_open file with
  | Some d => updateRecordCounter (with_db (Some d) t)
  | None => Err (Throws "status")
  end.

Definition new_RDBTable (file : option D) : result RDBTable := openOrCreateTable file (mkRDBTable None 0 [] [] [] []).

(** the files are removed *)
Definition table_drop (t : RDBTable) : RDBTable := with_db None t.
Definition truncate (t : RDBTable) : result RDBTable := openOrCreateTable None (with_db None t).

(** ** Modifications *)

(** the database after a write, and its answer *)
Definition wrote (key : list Z) (status : bool) (d : D) (t : RDBTable) : RDBTable :=
  mkRDBTable (Some d) (numRecords t) (mImmediateObservers t) (mDeferredObservers t) (delivered t) (statuses t ++ [(key, status)]).

Definition put (key : list Z) (rec : R) (t : RDBTable) : result (bool * RDBTable) :=
  buf ← toStream rec;
  d ← the_db t;
  let '(status, d) := rdb_put d key buf in Ok (status, wrote key status d t).

Definition erase (key : list Z) (t : RDBTable) : result (bool * RDBTable) :=
  d ← the_db t;
  let '(status, d) := rdb_delete d key in Ok (status, wrote key status d t).

Definition insert (key : K) (rec : R) (t : RDBTable) : result RDBTable :=
  '(status, t) ← put (valToSlice key) rec t;
  let t := if status : bool then with_count (numRecords t + 1) t else t in
  Ok (notifyObservers rec Insert Immediate t).

Definition deleteByKey (key : K) (t : RDBTable) : result (Z * RDBTable) :=
  d ← the_db t;
  '(nres, t) ←
    match rdb_get d (valToSlice key) with
    | Some res =>
        rec ← sliceToTuple res;
        let t := notifyObservers rec Delete Immediate t in
        '(status, t) ← erase (valToSlice key) t;
        Ok (if status : bool then 1 else 0, t)
    | None => Ok (0, t)
    end;
  Ok (nres, with_count (numRecords t - nres) t).

(** the loop of [deleteWhere] over its iterator's snapshot *)
Fixpoint deleteWhere_loop (func : R -> bool) (l : list (list Z * list Z)) (num : Z) (t : RDBTable) : result (Z * RDBTable) :=
  match l with
  | [] => Ok (num, t)
  | (k, v) :: l =>
      tup ← sliceToTuple v;
      if func tup then
        '(_, t) ← erase k (notifyObservers tup Delete Immediate t);
        deleteWhere_loop func l (num + 1) t
      else deleteWhere_loop func l num t
  end.

Definition deleteWhere (func : R -> bool) (t : RDBTable) : result (Z * RDBTable) :=
  d ← the_db t;
  '(num, t) ← deleteWhere_loop func (rdb_scan d) 0 t;
  Ok (num, with_count (numRecords t - num) t).

(** [ufunc] modifies the tuple and says whether to keep it *)
Definition updateOrDeleteByKey (key : K) (ufunc : R -> R * bool) (ifunc : option R) (t : RDBTable) : result (Z * RDBTable) :=
  d ← the_db t;
  match rdb_get d (valToSlice key) with
  | Some resultData =>
      rec ← sliceToTuple resultData;
      let '(rec, res) := ufunc rec in
      '(num, mode, t) ←
        (if res : bool then '(_, t) ← put (valToSlice key) rec t; Ok (1, Update, t)
         else '(status, t) ← erase (valToSlice key) t; Ok (if status : bool then 1 else 0, Delete, t));
      Ok (num, notifyObservers rec mode Immediate t)
  | None =>
      match ifunc with
      | Some rec => t ← insert key rec t; Ok (1, t)
      | None => Ok (0, t)
      end
  end.

Definition updateByKey (key : K) (ufunc : R -> R) (t : RDBTable) : result (Z * RDBTable) :=
  d ← the_db t;
  match rdb_get d (valToSlice key) with
  | Some resultData =>
      rec ← sliceToTuple resultData;
      let rec := ufunc rec in
      '(_, t) ← put (valToSlice key) rec t;
      Ok (1, notifyObservers rec Update Immediate t)
  | None => Ok (0, t)
  end.

Fixpoint updateWhere_loop (pfunc : R -> bool) (ufunc : R -> R) (l : list (list Z * list Z)) (t : RDBTable) : result RDBTable :=
  match l with
  | [] => Ok t
  | (k, v) :: l =>
      tup ← sliceToTuple v;
      if pfunc tup then
        let tup := ufunc tup in
        '(_, t) ← put k tup t;
        updateWhere_loop pfunc ufunc l (notifyObservers tup Update Immediate t)
      else updateWhere_loop pfunc ufunc l t
  end.

(** [num] stays 0 *)
Definition updateWhere (pfunc : R -> bool) (ufunc : R -> R) (t : RDBTable) : result (Z * RDBTable) :=
  d ← the_db t;
  t ← updateWhere_loop pfunc ufunc (rdb_scan d) t;
  Ok (0, t).

(** ** Reading *)

Definition getByKey (key : K) (t : RDBTable) : result R :=
  d ← the_db t;
  match rdb_get d (valToSlice key) with
  | Some resultData => sliceToTuple resultData
  | None => Err (Throws "key not found")
  end.

Definition table_size (t : RDBTable) : Z := numRecords t.

Definition registerObserver (cb : nat) (mode : NotificationMode) (t : RDBTable) : RDBTable :=
  match mode with
  | Immediate => mkRDBTable (db t) (numRecords t) (mImmediateObservers t ++ [cb]) (mDeferredObservers t) (delivered t) (statuses t)
  | OnCommit => mkRDBTable (db t) (numRecords t) (mImmediateObservers t) (mDeferredObservers t ++ [cb]) (delivered t) (statuses t)
  end.

(** the iterator: the entries from its position on, and the predicate *)
Record RDBTableIterator := mkIter { it_rest : list (list Z * list Z); it_pred : R -> bool }.

(** [while (iter->Valid() && !pred(...)) iter->Next()] *)
Fixpoint skip_while_not (p : R -> bool) (l : list (list Z * list Z)) : result (list (list Z * list Z)) :=
  match l with
  | [] => Ok []
  | e :: rest => tup ← sliceToTuple e.2; if p tup then Ok l else skip_while_not p rest
  end.

Definition makeRDBTableIterator (l : list (list Z * list Z)) (p : R -> bool) : result RDBTableIterator :=
  l ← skip_while_not p l; Ok (mkIter l p).

Definition it_isValid (i : RDBTableIterator) : bool := match it_rest i with [] => false | _ => true end.

Definition it_next (i : RDBTableIterator) : result RDBTableIterator :=
  match it_rest i with
  | [] => Err AssertFailed
  | _ :: rest => l ← skip_while_not (it_pred i) rest; Ok (mkIter l (it_pred i))
  end.

(** the copy shares the position: [i++] returns the iterator after the step *)
Definition it_postfix (i : RDBTableIterator) : result (RDBTableIterator * RDBTableIterator) := i ← it_next i; Ok (i, i).

Definition it_deref (i : RDBTableIterator) : result R :=
  match it_rest i with [] => Err AssertFailed | e :: _ => sliceToTuple e.2 end.

(** [for (; i.isValid(); i++) f( *i)]; fuel: the number of entries *)
Fixpoint it_collect (fuel : nat) (i : RDBTableIterator) : result (list R) :=
  if it_isValid i then
    match fuel with
    | O => Err Waits
    | S fuel => r ← it_deref i; '(_, i) ← it_postfix i; rs ← it_collect fuel i; Ok (r :: rs)
    end
  else Ok [].

Definition select (func : R -> bool) (t : RDBTable) : result RDBTableIterator :=
  d ← the_db t; makeRDBTableIterator (rdb_scan d) func.
Definition select_all (t : RDBTable) : result RDBTableIterator := select (fun _ => true) t.
End RDBTable.
Arguments RDBTable D R : clear implicits.

(** ** What a table promises

    An operation on a finite map, with its result and what the observers are
    told; for [updateWhere] and [deleteWhere] in any order.  The database may
    refuse a write: [accepted] says for which keys it did not. *)
Section spec.
Context {K R : Type} `{Countable K}.

Inductive op :=
  | OpInsert (k : K) (r : R)
  | OpDelete (k : K)
  | OpDeleteWhere (f : R -> bool)
  | OpUpdel (k : K) (f : R -> R * bool) (i : option R)
  | OpUpdate (k : K) (f : R -> R)
  | OpUpdateWhere (p : R -> bool) (f : R -> R)
  | OpTruncate.

(** the map after the operation, when no write is refused *)
Definition intended (o : op) (m : gmap K R) : gmap K R :=
  match o with
  | OpInsert k r => <[k := r]> m
  | OpDelete k => delete k m
  | OpDeleteWhere f => omap (fun r => if f r then None else Some r) m
  | OpUpdel k f i =>
      match m !! k with
      | Some r => if (f r).2 then <[k := (f r).1]> m else delete k m
      | None => match i with Some r => <[k := r]> m | None => m end
      end
  | OpUpdate k f => match m !! k with Some r => <[k := f r]> m | None => m end
  | OpUpdateWhere p f => (fun r => if p r then f r else r) <$> m
  | OpTruncate => ∅
  end.

(** a key whose write is refused keeps what it has *)
Definition kept (accepted : K -> bool) (m' m : gmap K R) : gmap K R :=
  filter (fun e => accepted e.1 = true) m' ∪ filter (fun e => accepted e.1 = false) m.
Definition spec_map (accepted : K -> bool) (o : op) (m : gmap K R) : gmap K R := kept accepted (intended o m) m.

(** the keys that are written; each write is announced, refused or not *)
Definition spec_writes (o : op) (m : gmap K R) : list K :=
  match o with
  | OpInsert k _ => [k]
  | OpDelete k | OpUpdate k _ => match m !! k with Some _ => [k] | None => [] end
  | OpUpdel k _ i => match m !! k, i with None, None => [] | _, _ => [k] end
  | OpDeleteWhere f | OpUpdateWhere f _ => (filter (fun e => f e.2 = true) (map_to_list m)).*1
  | OpTruncate => []
  end.

Definition spec_notes (o : op) (m : gmap K R) : list (R * ModificationMode) :=
  match o with
  | OpInsert k r => [(r, Insert)]
  | OpDelete k => match m !! k with Some r => [(r, Delete)] | None => [] end
  | OpDeleteWhere f => (fun e => (e.2, Delete)) <$> filter (fun e => f e.2 = true) (map_to_list m)
  | OpUpdel k f i =>
      match m !! k with
      | Some r => [((f r).1, if (f r).2 then Update else Delete)]
      | None => match i with Some r => [(r, Insert)] | None => [] end
      end
  | OpUpdate k f => match m !! k with Some r => [(f r, Update)] | None => [] end
  | OpUpdateWhere p f => (fun e => (f e.2, Update)) <$> filter (fun e => p e.2 = true) (map_to_list m)
  | OpTruncate => []
  end.

(** the number of tuples that were announced, except for [updateWhere], which
    answers 0, and a refused deletion of one key, which answers 0 too *)
Definition spec_ret (accepted : K -> bool) (o : op) (m : gmap K R) : Z :=
  match o with
  | OpInsert _ _ | OpUpdateWhere _ _ | OpTruncate => 0
  | OpDelete k => match m !! k with Some _ => if accepted k then 1 else 0 | None => 0 end
  | OpUpdel k f i =>
      match m !! k with
      | Some r => if (f r).2 then 1 else if accepted k then 1 else 0
      | None => match i with Some _ => 1 | None => 0 end
      end
  | _ => Z.of_nat (length (spec_notes o m))
  end.

(** how far the counter is ahead of the number of tuples *)
Definition surplus (accepted : K -> bool) (o : op) (m : gmap K R) (n : Z) : Z :=
  match o with
  | OpInsert k _ => match m !! k with Some _ => if accepted k then n + 1 else n | None => n end
  | OpUpdel k f _ => match m !! k with Some r => if (f r).2 then n else if accepted k then n + 1 else n | None => n end
  | OpDeleteWhere f => n - Z.of_nat (length (filter (fun e => f e.2 = true /\ accepted e.1 = false) (map_to_list m)))
  | OpTruncate => 0
  | _ => n
  end.

Lemma kept_lookup accepted m' m k : kept accepted m' m !! k = if accepted k then m' !! k else m !! k.
Proof.
  unfold kept. rewrite lookup_union, !map_lookup_filter. destruct (accepted k) eqn:Hk, (m' !! k), (m !! k); cbn;
    repeat (case_guard || case_decide); cbn; congruence || done.
Qed.

Lemma kept_all m' m : kept (fun _ => true) m' m = m'.
Proof. apply map_eq. intros k. by rewrite kept_lookup. Qed.

(** an operation that writes one key *)
Lemma kept_one accepted (k : K) o m : (forall k', k' <> k -> accepted k' = true) ->
  kept accepted (partial_alter (fun _ => o) k m) m = if accepted k then partial_alter (fun _ => o) k m else m.
Proof.
  intros Ho. apply map_eq. intros k'. rewrite kept_lookup. destruct (decide (k' = k)) as [->|Hne]; [by destruct (accepted k)|].
  rewrite Ho, lookup_partial_alter_ne by done. destruct (accepted k); [by rewrite lookup_partial_alter_ne|done].
Qed.
End spec.
Arguments op K R : clear implicits.

Section refinement.
Context {D K R : Type} `{RocksLaws D} `{Countable K} {KB : KeyBytes K} {codec : Codec R} {CL : CodecLaws R}.
Implicit Types (t : RDBTable D R) (m : gmap K R) (d : D).

Definition apply (o : op K R) (t : RDBTable D R) : result (Z * RDBTable D R) :=
  match o with
  | OpInsert k r => t ← insert k r t; Ok (0, t)
  | OpDelete k => deleteByKey k t
  | OpDeleteWhere f => deleteWhere f t
  | OpUpdel k f i => updateOrDeleteByKey k f i t
  | OpUpdate k f => updateByKey k f t
  | OpUpdateWhere p f => updateWhere p f t
  | OpTruncate => t ← truncate t; Ok (0, t)
  end.

(** every tuple the operation stores can be serialized *)
Definition op_storable (o : op K R) : Prop :=
  match o with
  | OpInsert _ r => storable r
  | OpUpdel _ f i => (forall r, storable r -> storable (f r).1) /\ (forall r, i = Some r -> storable r)
  | OpUpdate _ f | OpUpdateWhere _ f => forall r, storable r -> storable (f r)
  | _ => True
  end.

Definition holds d m : Prop :=
  (forall k, match m !! k with
             | Some r => storable r /\ exists bs, rdb_get d (valToSlice k) = Some bs /\ sliceToTuple bs = Ok r
             | None => rdb_get d (valToSlice k) = None
             end) /\
  forall bs v, rdb_get d bs = Some v -> exists k, bs = valToSlice k.

(** [n] is the surplus of the counter *)
Record represents t m (n : Z) : Prop := {
  re_db : exists d, db t = Some d /\ holds d m;
  re_count : numRecords t = u64 (Z.of_nat (size m) + n)
}.

Definition notified t (notes : list (R * ModificationMode)) : list notification :=
  notes ≫= fun n => (fun o => (o, n.1, n.2)) <$> mImmediateObservers t.

Lemma notified_cons t r mode ns : notified t ((r, mode) :: ns) = ((fun o => (o, r, mode)) <$> mImmediateObservers t) ++ notified t ns.
Proof. done. Qed.

(** no write of the key was refused *)
Definition accepted (log : list (list Z * bool)) (k : K) : bool := forallb (fun e => e.2 || negb (bool_decide (e.1 = valToSlice k))) log.

Lemma accepted_one k b k' : accepted [(valToSlice k, b)] k' = if decide (k' = k) then b else true.
Proof.
  unfold accepted. cbn. rewrite andb_true_r. case_decide as Hd.
  - subst. by rewrite bool_decide_eq_true_2, orb_false_r.
  - rewrite bool_decide_eq_false_2 by (intros ?%valToSlice_inj; congruence). apply orb_true_r.
Qed.

Lemma accepted_cons e log k : accepted (e :: log) k = accepted [e] k && accepted log k.
Proof. unfold accepted. cbn. by rewrite andb_true_r. Qed.

Lemma accepted_absent log k : valToSlice k ∉ log.*1 -> accepted log k = true.
Proof.
  induction log as [|e log IH]; [done|]. rewrite fmap_cons, not_elem_of_cons. intros [He Hl]. rewrite accepted_cons, IH by done.
  unfold accepted. cbn. rewrite bool_decide_eq_false_2 by congruence. by rewrite orb_true_r.
Qed.

Lemma holds_put d m k r bs : holds d m -> storable r -> sliceToTuple bs = Ok r ->
  holds (rdb_put d (valToSlice k) bs).2 (if (rdb_put d (valToSlice k) bs).1 then <[k := r]> m else m).
Proof.
  intros [Hm Hk] Hr Hbs. destruct (rdb_put d (valToSlice k) bs).1 eqn:Hs; split.
  - intros k'. rewrite rdb_get_put by done. destruct (decide (k = k')) as [<-|Hne].
    + rewrite lookup_insert_eq, decide_True by done. split; [done|]. by exists bs.
    + rewrite lookup_insert_ne, decide_False by (done || by intros ?%valToSlice_inj). apply Hm.
  - intros b v. rewrite rdb_get_put by done. case_decide as Hd; [by exists k|apply Hk].
  - intros k'. rewrite rdb_put_failed by done. apply Hm.
  - intros b v. rewrite rdb_put_failed by done. apply Hk.
Qed.

Lemma holds_delete d m k : holds d m ->
  holds (rdb_delete d (valToSlice k)).2 (if (rdb_delete d (valToSlice k)).1 then delete k m else m).
Proof.
  intros [Hm Hk]. destruct (rdb_delete d (valToSlice k)).1 eqn:Hs; split.
  - intros k'. rewrite rdb_get_delete by done. destruct (decide (k = k')) as [<-|Hne].
    + by rewrite lookup_delete_eq, decide_True by done.
    + rewrite lookup_delete_ne, decide_False by (done || by intros ?%valToSlice_inj). apply Hm.
  - intros b v. rewrite rdb_get_delete by done. case_decide as Hd; [done|apply Hk].
  - intros k'. rewrite rdb_delete_failed by done. apply Hm.
  - intros b v. rewrite rdb_delete_failed by done. apply Hk.
Qed.

(** the snapshot of an iterator lists the map *)
Definition lists (es : list (list Z * list Z)) (l : list (K * R)) : Prop :=
  Forall2 (fun e kr => e.1 = valToSlice kr.1 /\ sliceToTuple e.2 = Ok kr.2) es l.

Lemma scan_lists d m : holds d m -> exists l, lists (rdb_scan d) l /\ l ≡ₚ map_to_list m.
Proof.
  intros [Hm Hk].
  assert (forall es, (forall e, e ∈ es -> rdb_get d e.1 = Some e.2) -> exists l, lists es l /\ forall e, e ∈ l -> m !! e.1 = Some e.2) as Hex.
  { induction es as [|[b v] es IH]; intros Hes; [exists []; split; [constructor|by intros e ?%elem_of_nil]|].
    destruct IH as (l & Hl & Hin); [intros e He; apply Hes; by right|].
    pose proof (Hes (b, v) ltac:(by left)) as Hg. cbn in Hg. destruct (Hk _ _ Hg) as [k ->]. specialize (Hm k).
    destruct (m !! k) as [r|] eqn:Hr; [|congruence]. destruct Hm as (_ & bs & Hg' & Hs). rewrite Hg in Hg'. injection Hg' as <-.
    exists ((k, r) :: l). split; [by constructor|]. intros e [->|He]%elem_of_cons; [done|by apply Hin]. }
  destruct (Hex (rdb_scan d)) as (l & Hl & Hin); [intros [b v] He; by apply rdb_scan_get|]. exists l. split; [done|].
  assert (NoDup l.*1) as Hnd.
  { apply (NoDup_fmap_1 valToSlice). assert (valToSlice <$> l.*1 = (rdb_scan d).*1) as ->; [|apply rdb_scan_nodup].
    clear -Hl. induction Hl as [|e kr es l [He _] _ IH]; [done|]. rewrite !fmap_cons. by rewrite IH, He. }
  apply NoDup_Permutation; [by apply NoDup_fmap_1 in Hnd|apply NoDup_map_to_list|]. intros [k r]. rewrite elem_of_map_to_list. split; [apply Hin|].
  intros Hr. specialize (Hm k). rewrite Hr in Hm. destruct Hm as (_ & bs & Hg & _). apply rdb_scan_get in Hg.
  apply list_elem_of_lookup in Hg as [i Hi]. destruct (Forall2_lookup_l _ _ _ _ _ Hl Hi) as ([k' r'] & Hli & He & _).
  cbn in He. apply valToSlice_inj in He as <-. pose proof (list_elem_of_lookup_2 _ _ _ Hli) as Hin'. pose proof (Hin _ Hin') as Hr'. cbn in Hr'.
  by assert (r' = r) as -> by congruence.
Qed.

Lemma db_put_ok d t m k r : db t = Some d -> holds d m -> storable r ->
  exists b d', put (valToSlice k) r t = Ok (b, wrote (valToSlice k) b d' t) /\ holds d' (if b then <[k := r]> m else m).
Proof.
  intros Hd Hh Hr. destruct (codec_roundtrip r Hr) as (bs & Hbs & Hs). unfold put, the_db. rewrite Hbs, Hd. run_step.
  pose proof (holds_put d m k r bs Hh Hr Hs) as Hh'. destruct (rdb_put d (valToSlice k) bs) as [b d']. by exists b, d'.
Qed.

Lemma erase_ok d t m k : db t = Some d -> holds d m ->
  exists b d', erase (valToSlice k) t = Ok (b, wrote (valToSlice k) b d' t) /\ holds d' (if b then delete k m else m).
Proof.
  intros Hd Hh. unfold erase, the_db. rewrite Hd. run_step. pose proof (holds_delete d m k Hh) as Hh'.
  destruct (rdb_delete d (valToSlice k)) as [b d']. by exists b, d'.
Qed.

Lemma holds_Some d m k r : holds d m -> m !! k = Some r ->
  storable r /\ exists bs, rdb_get d (valToSlice k) = Some bs /\ sliceToTuple bs = Ok r.
Proof. intros [Hm _] Hr. specialize (Hm k). by rewrite Hr in Hm. Qed.

Lemma holds_None d m k : holds d m -> m !! k = None -> rdb_get d (valToSlice k) = None.
Proof. intros [Hm _] Hr. specialize (Hm k). by rewrite Hr in Hm. Qed.

(** a modification that was announced by [notes]; the database answered [log] *)
Record step_to t t' m (n : Z) (notes : list (R * ModificationMode)) (log : list (list Z * bool)) : Prop := {
  st_represents : represents t' m n;
  st_delivered : exists notes', notes' ≡ₚ notes /\ delivered t' = delivered t ++ notified t notes';
  st_observers : mImmediateObservers t' = mImmediateObservers t /\ mDeferredObservers t' = mDeferredObservers t;
  st_statuses : statuses t' = statuses t ++ log
}.

(** the operation does what is specified, given the answers to its writes *)
Definition does (o : op K R) t m (n : Z) (res : result (Z * RDBTable D R)) : Prop :=
  exists log t', res = Ok (spec_ret (accepted log) o m, t') /\
    step_to t t' (spec_map (accepted log) o m) (surplus (accepted log) o m n) (spec_notes o m) log /\
    log.*1 ≡ₚ valToSlice <$> spec_writes o m.

Lemma notified_one t r mode : notified t [(r, mode)] = (fun o => (o, r, mode)) <$> mImmediateObservers t.
Proof. unfold notified. cbn. apply app_nil_r. Qed.

Lemma accepted_self k b : accepted [(valToSlice k, b)] k = b.
Proof. by rewrite accepted_one, decide_True. Qed.

Lemma kept_single k b o m : kept (accepted [(valToSlice k, b)]) (partial_alter (fun _ => o) k m) m = if b then partial_alter (fun _ => o) k m else m.
Proof. rewrite kept_one, accepted_self; [done|]. intros k' Hk. by rewrite accepted_one, decide_False. Qed.

Lemma insert_step t m n k r : represents t m n -> storable r -> does (OpInsert k r) t m n (t ← insert k r t; Ok (0, t)).
Proof.
  intros [(d & Hd & Hh) Hc] Hr. destruct (db_put_ok d t m k r Hd Hh Hr) as (b & d' & Hp & Hh'). unfold insert. rewrite Hp. run_step.
  eexists [(valToSlice k, b)], _. split; [reflexivity|]. split; [split|done]; [|exists [(r, Insert)]; rewrite notified_one; by destruct b|by destruct b|by destruct b].
  unfold spec_map. cbn [intended surplus]. change (<[k := r]> m) with (partial_alter (fun _ => Some r) k m). rewrite kept_single, accepted_self. split; [by exists d'; destruct b|].
  destruct b; cbn [notifyObservers with_count wrote numRecords].
  - change (partial_alter (fun _ => Some r) k m) with (<[k := r]> m). rewrite Hc, u64_add_l, map_size_insert. f_equal. destruct (m !! k); cbn; lia.
  - rewrite Hc. by destruct (m !! k).
Qed.

Lemma deleteByKey_step t m n k : represents t m n -> does (OpDelete k) t m n (deleteByKey k t).
Proof.
  intros [(d & Hd & Hh) Hc]. unfold deleteByKey, the_db. rewrite Hd. run_step. unfold does. cbn [spec_ret spec_notes spec_writes spec_map intended surplus].
  destruct (m !! k) as [r|] eqn:Hr.
  - destruct (holds_Some _ _ _ _ Hh Hr) as (_ & bs & -> & ->). run_step.
    destruct (erase_ok d (notifyObservers r Delete Immediate t) m k Hd Hh) as (b & d' & -> & Hh'). run_step.
    exists [(valToSlice k, b)]. eexists. rewrite accepted_self. split; [reflexivity|]. split; [split|done]; [|exists [(r, Delete)]; by rewrite notified_one|done|done].
    unfold spec_map. cbn [intended]. change (delete k m) with (partial_alter (fun _ => None) k m). rewrite kept_single. split; [by exists d'|].
    cbn [notifyObservers with_count wrote numRecords]. rewrite Hc, <- Z.add_opp_r, u64_add_l. destruct b; [|f_equal; lia].
    change (partial_alter (fun _ => None) k m) with (delete k m). rewrite map_size_delete, Hr. f_equal.
    pose proof (map_size_ne_0_lookup_2 m k (ex_intro _ r Hr)). lia.
  - rewrite (holds_None _ _ _ Hh Hr). run_step. exists []. eexists. split; [reflexivity|]. unfold spec_map. cbn [intended]. rewrite kept_all, delete_id by done.
    split; [split; [|exists []; by rewrite app_nil_r|done|by rewrite app_nil_r]|done]. split; [by exists d|]. cbn [with_count numRecords]. rewrite Hc, Z.sub_0_r. apply Z.mod_mod. lia.
Qed.

Lemma updel_step t m n k f i : represents t m n -> op_storable (OpUpdel k f i) -> does (OpUpdel k f i) t m n (updateOrDeleteByKey k f i t).
Proof.
  intros [(d & Hd & Hh) Hc] [Hf Hi]. unfold updateOrDeleteByKey, the_db. rewrite Hd. run_step. unfold does, spec_map. cbn [spec_ret intended spec_notes surplus spec_writes].
  destruct (m !! k) as [r|] eqn:Hr.
  - destruct (holds_Some _ _ _ _ Hh Hr) as (Hst & bs & -> & ->). run_step. specialize (Hf r Hst). destruct (f r) as [r' [|]]; cbn in Hf |- *.
    + destruct (db_put_ok d t m k r' Hd Hh Hf) as (b & d' & Hp & Hh'). rewrite Hp. run_step. exists [(valToSlice k, b)].
      eexists. split; [reflexivity|]. split; [split|done]; [|exists [(r', Update)]; by rewrite notified_one|done|done].
      change (<[k := r']> m) with (partial_alter (fun _ => Some r') k m). rewrite kept_single. split; [by exists d'|].
      cbn [notifyObservers wrote numRecords]. destruct b; [|done]. change (partial_alter (fun _ => Some r') k m) with (<[k := r']> m). by rewrite Hc, map_size_insert, Hr.
    + destruct (erase_ok d t m k Hd Hh) as (b & d' & Hp & Hh'). rewrite Hp. run_step. exists [(valToSlice k, b)].
      eexists. rewrite accepted_self. split; [reflexivity|]. split; [split|done]; [|exists [(r', Delete)]; by rewrite notified_one|done|done].
      change (delete k m) with (partial_alter (fun _ => None) k m). rewrite kept_single. split; [by exists d'|].
      cbn [notifyObservers wrote numRecords]. destruct b; [|done]. change (partial_alter (fun _ => None) k m) with (delete k m). rewrite Hc, map_size_delete, Hr. f_equal.
      pose proof (map_size_ne_0_lookup_2 m k (ex_intro _ r Hr)). lia.
  - rewrite (holds_None _ _ _ Hh Hr). destruct i as [r|].
    + destruct (insert_step t m n k r) as (log & t' & Hins & Hs & Hl); [split; [by exists d|done]|by apply Hi|].
      destruct (insert k r t) as [t1|e]; [|done]. cbn in Hins. injection Hins as <-. run_step. exists log, t1. split; [done|]. split; [|exact Hl].
      unfold spec_map in Hs. cbn [intended surplus spec_notes] in Hs. by rewrite Hr in Hs.
    + exists [], t. split; [done|]. rewrite kept_all. split; [split; [by split; [exists d|]|exists []; by rewrite app_nil_r|done|by rewrite app_nil_r]|done].
Qed.

Lemma update_step t m n k f : represents t m n -> (forall r, storable r -> storable (f r)) -> does (OpUpdate k f) t m n (updateByKey k f t).
Proof.
  intros [(d & Hd & Hh) Hc] Hf. unfold updateByKey, the_db. rewrite Hd. run_step. unfold does, spec_map, spec_ret. cbn [intended spec_notes spec_writes surplus].
  destruct (m !! k) as [r|] eqn:Hr.
  - destruct (holds_Some _ _ _ _ Hh Hr) as (Hst & bs & -> & ->). run_step.
    destruct (db_put_ok d t m k (f r) Hd Hh (Hf r Hst)) as (b & d' & Hp & Hh'). rewrite Hp. run_step. exists [(valToSlice k, b)].
    eexists. split; [reflexivity|]. split; [split|done]; [|exists [(f r, Update)]; by rewrite notified_one|done|done].
    change (<[k := f r]> m) with (partial_alter (fun _ => Some (f r)) k m). rewrite kept_single. split; [by exists d'|].
    cbn [notifyObservers wrote numRecords]. destruct b; [|done]. change (partial_alter (fun _ => Some (f r)) k m) with (<[k := f r]> m). by rewrite Hc, map_size_insert, Hr.
  - rewrite (holds_None _ _ _ Hh Hr). exists [], t. split; [done|]. rewrite kept_all.
    split; [split; [by split; [exists d|]|exists []; by rewrite app_nil_r|done|by rewrite app_nil_r]|done].
Qed.

(** *** The loops over a snapshot *)

(** each entry of the snapshot is still in the table when the loop comes to it *)
Definition ahead (l : list (K * R)) m : Prop := NoDup l.*1 /\ forall e, e ∈ l -> m !! e.1 = Some e.2.

Lemma ahead_next e l m o : ahead (e :: l) m -> ahead l (partial_alter (fun _ => o) e.1 m).
Proof.
  intros [[Hne Hnd]%NoDup_cons Hin]. split; [done|]. intros e' He'. rewrite lookup_partial_alter_ne; [apply Hin; by right|].
  intros Heq. apply Hne. rewrite Heq. by apply list_elem_of_fmap_2.
Qed.

Lemma ahead_skip e l m : ahead (e :: l) m -> ahead l m /\ partial_alter (fun _ => Some e.2) e.1 m = m.
Proof.
  intros Ha. pose proof (proj2 Ha e ltac:(by left)) as He. assert (partial_alter (fun _ => Some e.2) e.1 m = m) as Hid by (change (<[e.1:=e.2]> m = m); by apply insert_id).
  split; [|done]. rewrite <- Hid. by apply ahead_next.
Qed.

(** [m'] comes from [m] by giving every value [r] in [l] the value [g r], unless
    its write was refused *)
Definition looped (g : R -> option R) (l : list (K * R)) (log : list (list Z * bool)) m m' : Prop :=
  forall k, m' !! k = if decide (k ∈ l.*1) then if accepted log k then m !! k ≫= g else m !! k else m !! k.

Lemma not_logged (P : K * R -> Prop) `{forall e, Decision (P e)} (l : list (K * R)) log k :
  log.*1 = valToSlice <$> (filter P l).*1 -> k ∉ l.*1 -> accepted log k = true.
Proof.
  intros Hl Hk. apply accepted_absent. rewrite Hl. intros (k' & Heq & (e & -> & [_ He]%list_elem_of_filter)%list_elem_of_fmap)%list_elem_of_fmap.
  apply valToSlice_inj in Heq as ->. apply Hk. by apply list_elem_of_fmap_2.
Qed.

Lemma looped_write g (e : K * R) l (b : bool) log m m' : ahead (e :: l) m -> accepted log e.1 = true ->
  looped g l log (if b then partial_alter (fun _ => g e.2) e.1 m else m) m' -> looped g (e :: l) ((valToSlice e.1, b) :: log) m m'.
Proof.
  intros Ha Hlog Hloop k. pose proof (proj2 Ha e ltac:(by left)) as He. destruct Ha as [[Hne _]%NoDup_cons _].
  rewrite Hloop, accepted_cons, accepted_one, fmap_cons. destruct (decide (k = e.1)) as [->|Hk].
  - rewrite (decide_False (P := e.1 ∈ l.*1)), (decide_True (P := e.1 ∈ _ :: _)), Hlog, andb_true_r by (done || by left).
    destruct b; [by rewrite lookup_partial_alter_eq, He|done].
  - assert ((if b then partial_alter (fun _ => g e.2) e.1 m else m) !! k = m !! k) as -> by (destruct b; [by rewrite lookup_partial_alter_ne|done]).
    cbn [andb]. destruct (decide (k ∈ l.*1)); [by rewrite decide_True by (by right)|by rewrite decide_False by (by intros [?|?]%elem_of_cons)].
Qed.

Lemma looped_skip g (e : K * R) l log m m' : ahead (e :: l) m -> accepted log e.1 = true -> g e.2 = Some e.2 ->
  looped g l log m m' -> looped g (e :: l) log m m'.
Proof.
  intros Ha Hlog Hg Hloop k. pose proof (proj2 Ha e ltac:(by left)) as He. destruct Ha as [[Hne _]%NoDup_cons _].
  rewrite Hloop, fmap_cons. destruct (decide (k = e.1)) as [->|Hk].
  - rewrite (decide_False (P := e.1 ∈ l.*1)), (decide_True (P := e.1 ∈ _ :: _)), Hlog, He by (done || by left). by cbn.
  - destruct (decide (k ∈ l.*1)); [by rewrite decide_True by (by right)|by rewrite decide_False by (by intros [?|?]%elem_of_cons)].
Qed.

Lemma looped_all g l log m m' : l ≡ₚ map_to_list m -> looped g l log m m' -> m' = kept (accepted log) (omap g m) m.
Proof.
  intros Hl Hloop. apply map_eq. intros k. rewrite kept_lookup, lookup_omap, Hloop. case_decide as Hk; [done|].
  destruct (m !! k) as [r|] eqn:Hr; [|by destruct (accepted log k)]. destruct Hk. rewrite Hl. apply list_elem_of_fmap. exists (k, r). split; [done|]. by apply elem_of_map_to_list.
Qed.

Lemma ahead_all l m : l ≡ₚ map_to_list m -> ahead l m.
Proof. intros Hl. split; [rewrite Hl; apply NoDup_fst_map_to_list|]. intros [k r] He. rewrite Hl in He. by apply elem_of_map_to_list. Qed.

Lemma ahead_write (e : K * R) l m o (b : bool) : ahead (e :: l) m -> ahead l (if b then partial_alter (fun _ => o) e.1 m else m).
Proof. intros Ha. destruct b; [by apply ahead_next|by apply ahead_skip in Ha as [? _]]. Qed.

Lemma deleteWhere_loop_ok f es l d t m num : lists es l -> db t = Some d -> holds d m -> ahead l m ->
  let gone := filter (fun e => f e.2 = true) l in
  exists d' log m', deleteWhere_loop f es num t = Ok (num + Z.of_nat (length gone),
      mkRDBTable (Some d') (numRecords t) (mImmediateObservers t) (mDeferredObservers t)
        (delivered t ++ notified t ((fun e => (e.2, Delete)) <$> gone)) (statuses t ++ log)) /\
    log.*1 = valToSlice <$> gone.*1 /\ holds d' m' /\ looped (fun r => if f r then None else Some r) l log m m'.
Proof.
  intros Hl. revert d t m num. induction Hl as [|[b v] [k r] es l [Hb Hv] Hl IH]; intros d t m num Hd Hh Ha gone.
  - exists d, [], m. cbn. rewrite Z.add_0_r, !app_nil_r, <- Hd. split; [by destruct t|]. split; [done|]. split; [done|]. intros k. by rewrite decide_False by (by intros ?%elem_of_nil).
  - cbn in Hb, Hv. subst b. cbn [deleteWhere_loop]. rewrite Hv. run_step. unfold gone. rewrite filter_cons. cbn [snd].
    assert (k ∉ l.*1) as Hkl by (by destruct Ha as [[? _]%NoDup_cons _]). destruct (f r) eqn:Hf.
    + rewrite decide_True by done. destruct (erase_ok d (notifyObservers r Delete Immediate t) m k Hd Hh) as (st & d1 & -> & Hh1). run_step.
      destruct (IH d1 (wrote (valToSlice k) st d1 (notifyObservers r Delete Immediate t)) _ (num + 1) eq_refl Hh1) as (d' & log & m' & -> & Hlog & Hh' & Hm').
      { by apply (ahead_write (k, r) l m None). }
      exists d', ((valToSlice k, st) :: log), m'. split_and!; [|by rewrite !fmap_cons, Hlog|done|].
      * rewrite fmap_cons, notified_cons. cbn [wrote notifyObservers delivered numRecords mImmediateObservers mDeferredObservers statuses snd length].
        by rewrite <- !app_assoc, Nat2Z.inj_succ, <- Z.add_1_l, Z.add_assoc.
      * apply looped_write; [done|by eapply not_logged|]. cbn [fst snd]. by rewrite Hf.
    + rewrite decide_False by done. destruct (ahead_skip (k, r) l m Ha) as [Ha' _].
      destruct (IH d t m num Hd Hh Ha') as (d' & log & m' & Hs & Hlog & Hh' & Hm'). exists d', log, m'. split_and!; [done..|].
      apply looped_skip; [done|by eapply not_logged|cbn; by rewrite Hf|done].
Qed.

Lemma updateWhere_loop_ok p f es l d t m : (forall r, storable r -> storable (f r)) -> lists es l -> db t = Some d -> holds d m -> ahead l m ->
  let changed := filter (fun e => p e.2 = true) l in
  exists d' log m', updateWhere_loop p f es t = Ok (mkRDBTable (Some d') (numRecords t) (mImmediateObservers t) (mDeferredObservers t)
      (delivered t ++ notified t ((fun e => (f e.2, Update)) <$> changed)) (statuses t ++ log)) /\
    log.*1 = valToSlice <$> changed.*1 /\ holds d' m' /\ looped (fun r => Some (if p r then f r else r)) l log m m'.
Proof.
  intros Hf Hl. revert d t m. induction Hl as [|[b v] [k r] es l [Hb Hv] Hl IH]; intros d t m Hd Hh Ha changed.
  - exists d, [], m. cbn. rewrite !app_nil_r, <- Hd. split; [by destruct t|]. split; [done|]. split; [done|]. intros k. by rewrite decide_False by (by intros ?%elem_of_nil).
  - cbn in Hb, Hv. subst b. cbn [updateWhere_loop]. rewrite Hv. run_step. unfold changed. rewrite filter_cons. cbn [snd].
    assert (k ∉ l.*1) as Hkl by (by destruct Ha as [[? _]%NoDup_cons _]). destruct (p r) eqn:Hp.
    + rewrite decide_True by done. destruct (holds_Some d m k r Hh) as [Hst _]; [apply (proj2 Ha (k, r)); by left|].
      destruct (db_put_ok d t m k (f r) Hd Hh (Hf r Hst)) as (st & d1 & -> & Hh1). run_step.
      destruct (IH d1 (notifyObservers (f r) Update Immediate (wrote (valToSlice k) st d1 t)) _ eq_refl Hh1) as (d' & log & m' & -> & Hlog & Hh' & Hm').
      { by apply (ahead_write (k, r) l m (Some (f r))). }
      exists d', ((valToSlice k, st) :: log), m'. split_and!; [|by rewrite !fmap_cons, Hlog|done|].
      * rewrite fmap_cons, notified_cons. cbn [wrote notifyObservers delivered numRecords mImmediateObservers mDeferredObservers statuses snd].
        by rewrite <- !app_assoc.
      * apply looped_write; [done|by eapply not_logged|]. cbn [fst snd]. by rewrite Hp.
    + rewrite decide_False by done. destruct (ahead_skip (k, r) l m Ha) as [Ha' _].
      destruct (IH d t m Hd Hh Ha') as (d' & log & m' & Hs & Hlog & Hh' & Hm'). exists d', log, m'. split_and!; [done..|].
      apply looped_skip; [done|by eapply not_logged|cbn; by rewrite Hp|done].
Qed.

(** what a deletion with refusals leaves *)
Lemma size_kept_deleteWhere (f : R -> bool) acc m :
  (size (kept acc (omap (fun r : R => if f r then None else Some r) m) m) + length (filter (fun e : K * R => f e.2 = true) (map_to_list m)) =
   size m + length (filter (fun e : K * R => f e.2 = true /\ acc e.1 = false) (map_to_list m)))%nat.
Proof.
  assert (kept acc (omap (fun r : R => if f r then None else Some r) m) m = filter (fun e : K * R => ~ (f e.2 = true /\ acc e.1 = true)) m) as ->.
  { apply map_eq. intros k. rewrite kept_lookup, lookup_omap, map_lookup_filter. destruct (m !! k) as [r|]; cbn; [|by destruct (acc k)].
    destruct (acc k) eqn:Hk, (f r) eqn:Hf; case_guard; cbn; naive_solver congruence. }
  induction m as [|k r m Hk IH] using map_ind; [done|].
  assert (forall (P : K * R -> Prop) `{forall e, Decision (P e)}, length (filter P (map_to_list (<[k:=r]> m))) = length (filter P ((k, r) :: map_to_list m))) as Hlen.
  { intros P HP. by rewrite map_to_list_insert. }
  rewrite !Hlen, map_size_insert_None, !filter_cons by done. cbn [fst snd]. destruct (f r) eqn:Hf, (acc k) eqn:Ha.
  - rewrite (map_filter_insert_False (M := gmap K)) by (cbn; rewrite Hf, Ha; naive_solver). rewrite delete_id by done.
    rewrite decide_True, decide_False by naive_solver. cbn [length]. lia.
  - rewrite (map_filter_insert_True (M := gmap K)) by (cbn; rewrite Ha; naive_solver). rewrite map_size_insert_None by (apply map_lookup_filter_None; by left).
    rewrite !decide_True by naive_solver. cbn [length]. lia.
  - rewrite (map_filter_insert_True (M := gmap K)) by (cbn; rewrite Hf; naive_solver). rewrite map_size_insert_None by (apply map_lookup_filter_None; by left).
    rewrite !decide_False by naive_solver. lia.
  - rewrite (map_filter_insert_True (M := gmap K)) by (cbn; rewrite Hf; naive_solver). rewrite map_size_insert_None by (apply map_lookup_filter_None; by left).
    rewrite !decide_False by naive_solver. lia.
Qed.

Lemma size_kept_fmap (f : R -> R) acc m : size (kept acc (f <$> m) m) = size m.
Proof.
  assert (dom (kept acc (f <$> m) m) = dom m) as Hd.
  { apply set_eq. intros k. rewrite !elem_of_dom, kept_lookup, lookup_fmap. destruct (acc k); [by rewrite fmap_is_Some|done]. }
  by rewrite <- !size_dom, Hd.
Qed.

Lemma deleteWhere_step t m n f : represents t m n -> does (OpDeleteWhere f) t m n (deleteWhere f t).
Proof.
  intros [(d & Hd & Hh) Hc]. destruct (scan_lists d m Hh) as (l & Hl & Hlm).
  destruct (deleteWhere_loop_ok f _ l d t m 0 Hl Hd Hh (ahead_all l m Hlm)) as (d' & log & m' & Hs & Hlog & Hh' & Hm').
  unfold deleteWhere, the_db. rewrite Hd. run_step. rewrite Hs. run_step. exists log. eexists. cbn [spec_ret spec_notes surplus spec_writes].
  assert (length (filter (fun e : K * R => f e.2 = true) (map_to_list m)) = length (filter (fun e : K * R => f e.2 = true) l)) as Hlen by (by rewrite Hlm).
  rewrite length_fmap, Hlen, Z.add_0_l. split; [reflexivity|]. apply looped_all in Hm' as ->; [|done]. split.
  - split; [split; [by exists d'|]|exists ((fun e => (e.2, Delete)) <$> filter (fun e => f e.2 = true) l); split; [apply fmap_Permutation; by rewrite Hlm|done]|done|done].
    cbn [with_count numRecords]. rewrite Hc, <- Z.add_opp_r, u64_add_l. f_equal. unfold spec_map. cbn [intended]. pose proof (size_kept_deleteWhere f (accepted log) m). lia.
  - rewrite Hlog. by rewrite Hlm.
Qed.

Lemma updateWhere_step t m n p f : represents t m n -> (forall r, storable r -> storable (f r)) -> does (OpUpdateWhere p f) t m n (updateWhere p f t).
Proof.
  intros [(d & Hd & Hh) Hc] Ho. destruct (scan_lists d m Hh) as (l & Hl & Hlm).
  destruct (updateWhere_loop_ok p f _ l d t m Ho Hl Hd Hh (ahead_all l m Hlm)) as (d' & log & m' & Hs & Hlog & Hh' & Hm').
  unfold updateWhere, the_db. rewrite Hd. run_step. rewrite Hs. run_step. exists log. eexists. split; [reflexivity|].
  apply looped_all in Hm' as ->; [|done]. cbn [spec_notes surplus spec_writes]. unfold spec_map. cbn [intended].
  assert (omap (fun r => Some (if p r then f r else r)) m = (fun r => if p r then f r else r) <$> m) as Hom.
  { apply map_eq. intros k. rewrite lookup_fmap, lookup_omap. by destruct (m !! k). }
  split; [|rewrite Hlog; by rewrite Hlm].
  split; [split; [exists d'; split; [done|]; by rewrite <- Hom|]|exists ((fun e => (f e.2, Update)) <$> filter (fun e => p e.2 = true) l); split; [apply fmap_Permutation; by rewrite Hlm|done]|done|done].
  cbn [numRecords]. by rewrite size_kept_fmap.
Qed.

(** a table that opens after its files were removed is empty *)
Lemma truncate_step t m n : is_Some (rdb_open (D := D) None) -> represents t m n -> does OpTruncate t m n (t ← truncate t; Ok (0, t)).
Proof.
  intros [d Hd] Hrep. unfold truncate, openOrCreateTable, updateRecordCounter. rewrite Hd. run_step. cbn [with_db the_db db]. run_step.
  exists []. eexists. split; [reflexivity|]. unfold spec_map. rewrite kept_all. cbn [intended surplus spec_notes spec_writes].
  split; [split; [split|exists []; by rewrite app_nil_r|done|by rewrite app_nil_r]|done].
  - exists d. split; [done|]. split; [intros k; rewrite lookup_empty; by apply rdb_open_new|]. intros bs v Hv. by rewrite (rdb_open_new _ _ Hd) in Hv.
  - cbn. f_equal. assert (rdb_scan d = []) as ->; [|done]. apply elem_of_nil_inv. intros [b v] Hin%rdb_scan_get.
    by rewrite (rdb_open_new _ _ Hd) in Hin.
Qed.

(** an operation returns, unless the database cannot be opened after a truncation *)
Lemma apply_step t m n o : represents t m n -> op_storable o ->
  does o t m n (apply o t) \/ apply o t = Err (Throws "status") /\ o = OpTruncate /\ rdb_open (D := D) None = None.
Proof.
  intros Hrep Ho. destruct o as [k r|k|f|k f i|k f|p f|]; cbn [apply].
  - left. by apply insert_step.
  - left. by apply deleteByKey_step.
  - left. by apply deleteWhere_step.
  - left. by apply updel_step.
  - left. by apply update_step.
  - left. by apply updateWhere_step.
  - destruct (rdb_open (D := D) None) as [d|] eqn:Hd; [left; by apply truncate_step; [exists d|]|right].
    unfold truncate, openOrCreateTable. by rewrite Hd.
Qed.

(** opening counts the tuples that are there *)
Lemma open_represents d d' m : holds d m -> rdb_open (Some d) = Some d' -> exists t, new_RDBTable (Some d) = Ok t /\ represents t m 0.
Proof.
  intros Hh Hd. unfold new_RDBTable, openOrCreateTable, updateRecordCounter. rewrite Hd. run_step.
  cbn [with_db the_db db]. eexists. split; [reflexivity|]. assert (holds d' m) as Hh'.
  { destruct Hh as [Hm Hk]. split.
    - intros k. rewrite (rdb_open_existing _ _ _ Hd). apply Hm.
    - intros bs v. rewrite (rdb_open_existing _ _ _ Hd). apply Hk. }
  split; [by exists d'|]. cbn. f_equal. destruct (scan_lists d' m Hh') as (l & Hl & Hlm).
  rewrite (Forall2_length _ _ _ Hl), Hlm, length_map_to_list. lia.
Qed.

Lemma getByKey_represents t m n k : represents t m n ->
  getByKey k t = match m !! k with Some r => Ok r | None => Err (Throws "key not found") end.
Proof.
  intros [(d & Hd & Hh) _]. unfold getByKey, the_db. rewrite Hd. run_step. destruct (m !! k) as [r|] eqn:Hr.
  - by destruct (holds_Some _ _ _ _ Hh Hr) as (_ & bs & -> & ->).
  - by rewrite (holds_None _ _ _ Hh Hr).
Qed.

(** *** The iterator *)

Lemma skip_lists p es l : lists es l -> exists es' l', skip_while_not p es = Ok es' /\ lists es' l' /\ (length l' <= length l)%nat /\
  filter (fun e => p e.2 = true) l' = filter (fun e => p e.2 = true) l /\ forall e rest, l' = e :: rest -> p e.2 = true.
Proof.
  induction 1 as [|[b v] [k r] es l [Hb Hv] Hl (es' & l' & Hs & Hl' & Hlen & Hf & Hhd)]; [exists [], []; by repeat constructor|].
  cbn in Hb, Hv. cbn [skip_while_not snd]. rewrite Hv. run_step. destruct (p r) eqn:Hp.
  - exists ((b, v) :: es), ((k, r) :: l). split_and!; [done|by constructor|lia|done|]. by intros e rest [= <- <-].
  - exists es', l'. rewrite filter_cons_False by (cbn; congruence). split_and!; [done|done|cbn; lia|done|done].
Qed.

Lemma it_collect_lists p fuel es l : lists es l -> (length l <= fuel)%nat -> (forall e rest, l = e :: rest -> p e.2 = true) ->
  it_collect fuel (mkIter es p) = Ok ((filter (fun e => p e.2 = true) l).*2).
Proof.
  revert es l. induction fuel as [|fuel IH]; intros es l Hl Hlen Hhd; (destruct Hl as [|[b v] [k r] es l [Hb Hv] Hl]; [done|]); [cbn in Hlen; lia|].
  cbn in Hb, Hv. cbn [it_collect it_isValid it_rest]. unfold it_deref, it_postfix, it_next. cbn [it_rest snd it_pred]. rewrite Hv. run_step.
  destruct (skip_lists p es l Hl) as (es' & l' & -> & Hl' & Hlen' & Hf & Hhd'). run_step.
  rewrite (IH es' l' Hl') by (done || (cbn in Hlen; lia)). run_step. rewrite Hf, filter_cons_True by (exact (Hhd (k, r) l eq_refl)). done.
Qed.

Lemma select_represents t m n p : represents t m n -> exists it rs,
  select p t = Ok it /\ it_collect (size m) it = Ok rs /\ rs ≡ₚ (filter (fun e : K * R => p e.2 = true) (map_to_list m)).*2.
Proof.
  intros [(d & Hd & Hh) _]. unfold select, the_db, makeRDBTableIterator. rewrite Hd. run_step.
  destruct (scan_lists d m Hh) as (l & Hl & Hlm). destruct (skip_lists p _ l Hl) as (es' & l' & -> & Hl' & Hlen & Hf & Hhd). run_step.
  assert (length l = size m) as Hz by (by rewrite Hlm, length_map_to_list).
  eexists _, _. split; [reflexivity|]. split; [apply it_collect_lists; [exact Hl'|lia|done]|]. by rewrite Hf, Hlm.
Qed.

(** the table opened again counts what is there *)
Lemma reopen_represents t m n : represents t m n ->
  match new_RDBTable (db t) with
  | Ok t'' => (forall k, getByKey k t'' = getByKey k t) /\ table_size t'' = u64 (Z.of_nat (size m))
  | Err e => e = Throws "status" /\ rdb_open (db t) = None
  end.
Proof.
  intros Hrep. pose proof Hrep as [(d & Hd & Hh) _]. rewrite Hd. destruct (rdb_open (Some d)) as [d'|] eqn:Hopen.
  - destruct (open_represents d d' m Hh Hopen) as (t'' & -> & Hrep''). split.
    + intros k. rewrite (getByKey_represents _ _ _ k Hrep''). symmetry. by apply (getByKey_represents t m n).
    + rewrite <- (Z.add_0_r (Z.of_nat _)). by destruct Hrep''.
  - unfold new_RDBTable, openOrCreateTable. by rewrite Hopen.
Qed.

(** *** Sequences of operations *)

Fixpoint apply_all (os : list (op K R)) t : result (list Z * RDBTable D R) :=
  match os with
  | [] => Ok ([], t)
  | o :: os => '(ret, t) ← apply o t; '(rets, t) ← apply_all os t; Ok (ret :: rets, t)
  end.

(** the specification of a sequence, given the database's answers to the writes
    of each operation *)
Fixpoint spec_all (os : list (op K R)) (logs : list (list (list Z * bool))) m (n : Z) : list Z * gmap K R * Z :=
  match os, logs with
  | o :: os, log :: logs =>
      let '(rets, m', n') := spec_all os logs (spec_map (accepted log) o m) (surplus (accepted log) o m n) in
      (spec_ret (accepted log) o m :: rets, m', n')
  | _, _ => ([], m, n)
  end.

Fixpoint spec_all_notes (os : list (op K R)) (logs : list (list (list Z * bool))) m : list (list (R * ModificationMode)) :=
  match os, logs with
  | o :: os, log :: logs => spec_notes o m :: spec_all_notes os logs (spec_map (accepted log) o m)
  | _, _ => []
  end.

(** the keys each operation writes *)
Fixpoint spec_all_writes (os : list (op K R)) (logs : list (list (list Z * bool))) m : list (list K) :=
  match os, logs with
  | o :: os, log :: logs => spec_writes o m :: spec_all_writes os logs (spec_map (accepted log) o m)
  | _, _ => []
  end.

(** C31: a table in RocksDB is a finite map, with the faults of its
    bookkeeping.  Whatever the database answers to the writes (its reads are
    assumed not to fail, and the tuples stored to be serializable): a sequence
    of operations returns unless the database cannot be opened after a
    truncation; each operation writes exactly the keys it should; a key whose
    write is refused keeps its tuple, all others change as on the map; every
    write is announced to the observers, refused or not.  Results are those on
    the map, but [updateWhere] always answers 0 and a refused write is counted
    except by the two deletions of one key.  The reported size is ahead by the
    inserts that replaced a tuple and the tuples an updater discarded, less the
    refused deletions of [deleteWhere].  [getByKey] and [select] read that map,
    also after the database is closed and opened again. *)
Theorem rdb_refines t m n (os : list (op K R)) :
  represents t m n -> Forall op_storable os ->
  match apply_all os t with
  | Ok (rets, t') => exists logs, length logs = length os /\ statuses t' = statuses t ++ concat logs /\
      Forall2 (fun log ks => log.*1 ≡ₚ valToSlice <$> ks) logs (spec_all_writes os logs m) /\
      let '(rets', m', n') := spec_all os logs m n in
      rets = rets' /\
      (forall k, getByKey k t' = match m' !! k with Some r => Ok r | None => Err (Throws "key not found") end) /\
      (forall p, exists it rs, select p t' = Ok it /\ it_collect (size m') it = Ok rs /\
         rs ≡ₚ (filter (fun e : K * R => p e.2 = true) (map_to_list m')).*2) /\
      table_size t' = u64 (Z.of_nat (size m') + n') /\
      (exists nss, Forall2 Permutation nss (spec_all_notes os logs m) /\ delivered t' = delivered t ++ notified t (concat nss)) /\
      match new_RDBTable (db t') with
      | Ok t'' => (forall k, getByKey k t'' = getByKey k t') /\ table_size t'' = u64 (Z.of_nat (size m'))
      | Err e => e = Throws "status" /\ rdb_open (db t') = None
      end
  | Err e => e = Throws "status" /\ OpTruncate ∈ os /\ rdb_open (D := D) None = None
  end.
Proof.
  intros Hrep Hos. revert t m n Hrep. induction Hos as [|o os Ho Hos IH]; intros t m n Hrep; cbn [apply_all].
  - exists []. split; [done|]. split; [by rewrite app_nil_r|]. split; [constructor|]. cbn [spec_all spec_all_notes]. split; [done|].
    split; [intros k; by apply (getByKey_represents t m n)|]. split; [intros p; by apply (select_represents t m n)|].
    split; [by destruct Hrep|]. split; [exists []; by rewrite app_nil_r|]. by apply (reopen_represents t m n).
  - destruct (apply_step t m n o Hrep Ho) as [(log & t1 & -> & [Hrep1 (ns & Hns & Hd1) [Ho1 _] Hst1] & Hlog)|(-> & -> & Hnone)];
      [|split; [done|]; split; [by left|done]].
    run_step. specialize (IH t1 _ _ Hrep1). destruct (apply_all os t1) as [[rets t']|e]; [|destruct IH as (? & ? & ?); split; [done|]; split; [by right|done]].
    run_step. destruct IH as (logs & Hlen & Hst & Hlogs & IH). exists (log :: logs). split; [cbn; by rewrite Hlen|].
    split; [rewrite Hst, Hst1, <- app_assoc; done|]. split; [by constructor|]. cbn [spec_all spec_all_notes].
    destruct (spec_all os logs (spec_map (accepted log) o m) (surplus (accepted log) o m n)) as [[rets' m'] n'].
    destruct IH as (-> & Hg & Hsel & Hsz & (nss & Hnss & Hd') & Hre). split; [done|]. split; [done|]. split; [done|]. split; [done|]. split; [|done].
    exists (ns :: nss). split; [by constructor|]. rewrite Hd', Hd1, <- app_assoc. f_equal.
    unfold notified. cbn [concat]. by rewrite bind_app, Ho1.
Qed.
End refinement.

(** a write that fails is announced like one that does not *)
Lemma failed_insert {D K R} `{RocksLaws D} `{Countable K} {KB : KeyBytes K} {codec : Codec R} (t : RDBTable D R) d k r bs :
  db t = Some d -> toStream r = Ok bs -> (rdb_put d (valToSlice k) bs).1 = false ->
  exists t', insert k r t = Ok t' /\ (forall k', getByKey k' t' = getByKey k' t) /\ table_size t' = table_size t /\
    delivered t' = delivered t ++ ((fun o => (o, r, Insert)) <$> mImmediateObservers t).
Proof.
  intros Hd Hbs Hp. unfold insert, put, the_db. rewrite Hbs, Hd. run_step. pose proof (rdb_put_failed d (valToSlice k) bs) as Hf.
  destruct (rdb_put d (valToSlice k) bs) as [b d']. cbn in Hp, Hf. subst b. run_step. eexists. split; [reflexivity|]. split; [|done].
  intros k'. unfold getByKey, the_db. cbn. by rewrite Hd, Hf.
Qed.

(** after [drop] every operation follows the null pointer *)
Lemma dropped_table {D K R} `{RocksOps D} `{Countable K} {KB : KeyBytes K} {codec : Codec R} (t : RDBTable D R) (k : K) f :
  getByKey k (table_drop t) = Err Dangling /\ deleteByKey k (table_drop t) = Err Dangling /\ deleteWhere f (table_drop t) = Err Dangling.
Proof. done. Qed.

(** ** Serialized tuples and integer keys *)

#[export] Instance Tuple_codec can_alloc ts : Codec (Tuple ts) := {
  toStream tp := serializeToStream can_alloc ts tp [];
  sliceToTuple bs := deserializeFromStream can_alloc ts bs
}.

#[export] Instance Tuple_codec_laws can_alloc ts : CodecLaws (Tuple ts) (codec := Tuple_codec can_alloc ts).
Proof.
  refine {| storable tp := sizeds ts = true /\ wf_tuple ts tp /\ is_u64 (Z.of_nat (length (tuple_bytes ts tp))) /\
                           allocates can_alloc (length (tuple_bytes ts tp)) |}.
  intros tp (Hs & Hw & Hl & Ha). exists (tuple_bytes ts tp). split; [by apply serializeToStream_bytes|].
  cbn [sliceToTuple Tuple_codec]. rewrite <- (app_nil_r (tuple_bytes ts tp)). by apply deserializeFromStream_bytes.
Defined.

(** [int], stored as its four bytes *)
#[export] Instance is_u32_dec z : Decision (is_u32 z).
Proof. unfold is_u32. apply _. Defined.

Definition int_key : Type := dsig is_u32.

#[export] Instance int_key_eq_dec : EqDecision int_key := _.

Definition to_int_key (z : Z) : option int_key :=
  match decide (is_u32 z) with left Hz => Some (dexist z Hz) | right _ => None end.

#[export] Instance int_key_countable : Countable int_key.
Proof.
  apply (inj_countable proj1_sig to_int_key). intros x. unfold to_int_key.
  destruct (decide (is_u32 (`x))) as [Hz|Hn]; [f_equal; by apply dsig_eq|destruct Hn; apply (proj2_dsig x)].
Defined.

#[export] Program Instance int_key_bytes : KeyBytes int_key := { valToSlice k := le_split 4 (`k) }.
Next Obligation.
  intros x y Heq. apply dsig_eq. pose proof (proj2_dsig x). pose proof (proj2_dsig y).
  rewrite <- (le_combine_split 4 (`x)), Heq by done. by apply le_combine_split.
Qed.

(** ** RocksDB's contract can be met: a finite map of byte strings *)
(** with room for a number of keys: further ones are refused *)
Record limited := mkLimited { room : nat; contents : gmap (list Z) (list Z) }.

#[export] Instance limited_rocks : RocksOps limited := {
  rdb_open file := Some (default (mkLimited 1 ∅) file);
  rdb_get d k := contents d !! k;
  rdb_put d k v :=
    if decide (size (<[k := v]> (contents d)) <= room d)%nat then (true, mkLimited (room d) (<[k := v]> (contents d))) else (false, d);
  rdb_delete d k := (true, mkLimited (room d) (delete k (contents d)));
  rdb_scan d := map_to_list (contents d)
}.

#[export] Instance limited_rocks_laws : RocksLaws limited.
Proof.
  split; cbn.
  - intros d k [= <-]. apply lookup_empty.
  - by intros d d' k [= <-].
  - intros d k v k'. case_decide; cbn; [|done]. intros _. apply lookup_insert.
  - intros d k v k'. by case_decide.
  - intros d k k' _. apply lookup_delete.
  - done.
  - intros d. apply NoDup_fst_map_to_list.
  - intros d k v. apply elem_of_map_to_list.
Qed.

Definition demo_tuple (z : Z) : Tuple int_tuple := make_tuple int_tuple z.
Lemma demo_key_range : is_u32 5.
Proof. by split. Qed.
Definition demo_key : int_key := dexist 5 demo_key_range.
Lemma other_key_range : is_u32 6.
Proof. by split. Qed.
Definition other_key : int_key := dexist 6 other_key_range.

#[local] Instance demo_codec : Codec (Tuple int_tuple) := Tuple_codec small_alloc int_tuple.
#[local] Instance demo_codec_laws : CodecLaws (Tuple int_tuple) := Tuple_codec_laws small_alloc int_tuple.

Lemma demo_storable z : is_u32 z -> storable (demo_tuple z).
Proof.
  intros Hz. cbn [storable demo_codec_laws Tuple_codec_laws]. assert (length (tuple_bytes int_tuple (demo_tuple z)) = 13%nat) as Hl.
  { rewrite length_tuple_bytes. cbn [demo_tuple make_tuple tdata]. cbn [encodes int_tuple encode]. by rewrite le_split_length. }
  rewrite Hl. split_and!; [done|split; [exact Hz|done]|done|]. intros k [_ Hk]. apply Z.leb_le. lia.
Qed.

(** room for one key: the second is refused, then the first is replaced, and
    discarded by an updater: the size is off by two *)
Lemma rdb_refines_witness :
  let os := [OpInsert demo_key (demo_tuple 7); OpInsert other_key (demo_tuple 8); OpInsert demo_key (demo_tuple 9);
             OpUpdel demo_key (fun r => (r, false)) None] in
  exists t0 rets t' logs, new_RDBTable (D := limited) None = Ok t0 /\ apply_all os t0 = Ok (rets, t') /\
    statuses t' = concat logs /\ snd <$> concat logs = [true; false; true; true] /\
    rets = [0; 0; 0; 1] /\ table_size t' = 2 /\
    rets = (spec_all os logs ∅ 0).1.1 /\ forall k, getByKey k t' = match (spec_all os logs ∅ 0).1.2 !! k with Some r => Ok r | None => Err (Throws "key not found") end.
Proof.
  intros os. destruct (new_RDBTable (D := limited) (R := Tuple int_tuple) None) as [t0|e] eqn:H0; [|discriminate H0].
  assert (represents (K := int_key) t0 ∅ 0) as Hrep.
  { injection H0 as <-. split; [eexists; split; [reflexivity|]|reflexivity].
    split; [intros k; rewrite lookup_empty; apply lookup_empty|]. intros bs v Hv. cbn in Hv. by rewrite lookup_empty in Hv. }
  pose proof (rdb_refines t0 ∅ 0 os Hrep) as Hr. destruct (apply_all os t0) as [[rets t']|e] eqn:Hall.
  - destruct Hr as (logs & _ & Hst & _ & Hspec).
    { unfold os. rewrite !Forall_cons, Forall_nil. split; [by apply (demo_storable 7)|split; [by apply (demo_storable 8)|split; [by apply (demo_storable 9)|split; [|done]]]].
      split; [intros r Hr; exact Hr|by intros r [= ]]. }
    destruct (spec_all os logs ∅ 0) as [[rets' m'] n'] eqn:Hsp. destruct Hspec as (Hrets & Hget & _).
    injection H0 as <-. vm_compute in Hall. injection Hall as <- <-. eexists _, _, _, logs. split; [reflexivity|]. split; [vm_compute; reflexivity|].
    cbn [new_RDBTable] in Hst. assert (forall l, l = [] ++ concat logs -> l = concat logs) as Hnil by done. apply Hnil in Hst.
    split; [exact Hst|]. rewrite <- Hst, Hsp. split; [reflexivity|]. split; [reflexivity|]. split; [reflexivity|]. split; [exact Hrets|exact Hget].
  - injection H0 as <-. vm_compute in Hall. discriminate Hall.
Defined.
