(* ===== verification/Extract.v ===== *)
(** * Extract: tuples from text

    The way of a text file into tuples: [TextFileSource.cpp] (the memory mapped
    reader, which is the one [start] calls), [TupleExtractor.hpp],
    [core/parser/TupleParser.hpp] with the attribute parsers, and the printer of
    [core/TuplePrinter.hpp], which writes what they read.

    Characters are their codes.  A [StringRef] is a pointer and a length, so the
    memory it points into is an argument: the extractor follows pointers past
    the referenced string, and what it finds there is part of its result.  The
    number parsers of Boost.Spirit and [boost::lexical_cast] are a class of
    operations with the law the round trip needs. *)

From S2P Require Import Prelude Stream Serialize.
From Stdlib Require Import Ascii DecimalString DecimalZ.

(** ** Characters *)

Definition char_of (c : ascii) : Z := Z.of_nat (nat_of_ascii c).
Definition chars (s : string) : list Z := char_of <$> String.list_ascii_of_string s.
Definition string_of (l : list Z) : string := String.string_of_list_ascii ((fun z => ascii_of_nat (Z.to_nat z)) <$> l).

Definition NUL : Z := 0.
Definition NEWLINE : Z := 10.
Definition COMMA : Z := 44.

Lemma string_of_chars s : string_of (chars s) = s.
Proof.
  unfold string_of, chars. rewrite <- list_fmap_compose.
  rewrite <- (String.string_of_list_ascii_of_string s) at 2. f_equal.
  rewrite <- (list_fmap_id (String.list_ascii_of_string s)) at 2. apply list_fmap_ext.
  intros i c _. unfold compose, char_of. by rewrite Nat2Z.id, ascii_nat_embedding.
Qed.

(** [os << x] for an [int] *)
Definition print_int (x : Z) : list Z := chars (NilZero.string_of_int (Z.to_int x)).

(** ** StringRef *)

Record StringRef := mkRef { begin_ : option nat; size_ : Z }.

(** [std::string(begin, n)] *)
Definition std_string (mem : list Z) (begin : option nat) (n : Z) : result (list Z) :=
  match begin with
  | None => if n =? 0 then Ok [] else Err (Throws "std::logic_error")
  | Some b => if (b + Z.to_nat n <=? length mem)%nat then Ok (take (Z.to_nat n) (drop b mem)) else Err OutOfBounds
  end.

(** ** Attribute parsers *)

(** what is not under [src/]: [qi::int_] and [qi::long_] as [qi::parse] applies
    them (no value: the parser fails and the attribute keeps its value), and
    [boost::lexical_cast] to the other types, which may throw *)
Class Parsers := {
  qi_int : list Z -> option Z;
  qi_long : list Z -> option Z;
  lexical_cast : forall t, list Z -> result (denote t)
}.

(** [qi::int_] recognizes the decimal notation of every [int] *)
Class ParsersLaws (P : Parsers) : Prop :=
  qi_int_decimal : forall z, is_int z -> qi_int (print_int z) = Some z.

Section parse.
Context `{P : Parsers}.

(** the attribute types with a parser of their own: [int], [long] (stored as
    words of 4 and 8 bytes) and [std::string] *)
Definition StringAttributeParser_parse (t : ty) (input : list Z) : denote t -> result (denote t) :=
  match t with
  | Scalar 4 => fun out => Ok (default out (u32 <$> qi_int input))
  | Scalar 8 => fun out => Ok (default out (u64 <$> qi_long input))
  | TString => fun _ => Ok input
  | _ => fun _ => lexical_cast _ input
  end.

(** strings are cut at 1023 characters; the other types go through a string *)
Definition StringRefAttributeParser_parse (mem : list Z) (t : ty) (input : StringRef) : denote t -> result (denote t) :=
  match t with
  | TString => fun _ => std_string mem (begin_ input) (Z.min 1023 (size_ input))
  | t => fun out =>
      s ← std_string mem (begin_ input) (size_ input);
      StringAttributeParser_parse t s out
  end.

(** *** TupleParser *)

Section tuple_parser.
Context {R : Type} (parseAttribute : forall t, R -> denote t -> result (denote t)) (ts : tys) (data : list R).

(** [parseTupleImpl] for the indices below [n], from the last one *)
Fixpoint parseTupleImpl (n : nat) (tup : denotes ts) : result (denotes ts) :=
  match n with
  | O => Ok tup
  | S n =>
      r ← get_at data n;
      v ← parseAttribute (getAttributeType ts n) r (getAttribute ts n tup);
      parseTupleImpl n (setAttribute ts n v tup)
  end.
End tuple_parser.

(** value-initialized attributes: [Base()] *)
Fixpoint value_init (t : ty) : denote t :=
  match t with
  | Scalar _ => 0
  | TString => []
  | TVector t => []
  | TTuple ts => value_inits ts
  end
with value_inits (ts : tys) : denotes ts :=
  match ts with
  | TLast t => value_init t
  | TMore t ts => (value_init t, value_inits ts)
  end.

(** the parsing constructors of [Tuple] *)
Definition tuple_of_strings (ts : tys) (sdata : list (list Z)) : result (Tuple ts) :=
  _ ← guard_else (length sdata =? NUM_ATTRIBUTES ts)%nat AssertFailed;
  data ← parseTupleImpl StringAttributeParser_parse ts sdata (NUM_ATTRIBUTES ts) (value_inits ts);
  Ok (mkTuple data 0).

Definition tuple_of_refs (mem : list Z) (ts : tys) (sdata : list StringRef) : result (Tuple ts) :=
  data ← parseTupleImpl (StringRefAttributeParser_parse mem) ts sdata (NUM_ATTRIBUTES ts) (value_inits ts);
  Ok (mkTuple data 0).

(** ** TupleExtractor *)

Section extractor.
Context (ts : tys) (ifs : Z).

(** [while ( *s && *s != ifs) s++]: the number of steps *)
Fixpoint field_length (rest : list Z) : result nat :=
  match rest with
  | [] => Err OutOfBounds
  | c :: rest => if (c =? NUL) || (c =? ifs) then Ok 0%nat else n ← field_length rest; Ok (S n)
  end.

(** the loop over the fields: at most [n] of them from position [s] *)
Fixpoint extract_fields (mem : list Z) (n : nat) (s : nat) : result (list (StringRef * bool)) :=
  match n with
  | O => Ok []
  | S n =>
      c ← get_at mem s;
      if c =? NUL then Ok []
      else
        len ← field_length (drop s mem);
        rest ← extract_fields mem n (s + len + 1);
        Ok ((if (len =? 0)%nat then (mkRef None 0, true) else (mkRef (Some s) (Z.of_nat len), false)) :: rest)
  end.

(** [if (nulls[n]) res->setNull(n)] *)
Fixpoint set_nulls (n : nat) (nulls : list bool) (res : Tuple ts) : result (Tuple ts) :=
  match nulls with
  | [] => Ok res
  | b :: nulls => res ← (if b then setNull ts n true res else Ok res); set_nulls (S n) nulls res
  end.

Definition te_processDataElement (mem : list Z) (line : nat) (outdated : bool) : result (list (event (Tuple ts))) :=
  let NUM := NUM_ATTRIBUTES ts in
  fields ← extract_fields mem NUM line;
  let fields := fields ++ replicate (NUM - length fields) (mkRef None 0, true) in
  res ← tuple_of_refs mem ts fields.*1;
  res ← set_nulls 0 fields.*2 res;
  Ok [Data res outdated].
End extractor.

(** ** TextFileSource *)

Definition MAX_TUPLE_SIZE : nat := Z.to_nat 10240.
Definition PAGE_SIZE : nat := Z.to_nat 4096.

(** the mapping of a file: the rest of its last page is zero *)
Definition mapped_file (file : list Z) : list Z :=
  file ++ replicate ((PAGE_SIZE - length file mod PAGE_SIZE) mod PAGE_SIZE) NUL.

(** [strchr(p, '\n')]: the distance, [None] for no newline before a NUL *)
Fixpoint strchr_newline (rest : list Z) : result (option nat) :=
  match rest with
  | [] => Err OutOfBounds
  | c :: rest =>
      if c =? NEWLINE then Ok (Some 0%nat)
      else if c =? NUL then Ok None
      else n ← strchr_newline rest; Ok (option_map S n)
  end.

(** [memcpy(store, p, n)] *)
Definition memcpy (src store : list Z) : result (list Z) :=
  if (length src <=? length store)%nat then Ok (src ++ drop (length src) store) else Err OutOfBounds.

Section source.
(** [produceTuple]: what the subscribers make of the line at the start of the
    store, with its length *)
Context {B : Type} (produceTuple : list Z -> nat -> result (list B)).

(** [store] is not cleared between lines.  [maxTuples] = 0: no limit.  Fuel: one
    unit per line. *)
Fixpoint readMemoryMappedFile (fuel : nat) (maxTuples : nat) (p store : list Z) (ntuples : nat)
    : result (list B * nat) :=
  match fuel with
  | O => Err Waits
  | S fuel =>
      pch ← strchr_newline p;
      match pch with
      | None => Ok ([], ntuples)
      | Some k =>
          store ← memcpy (take (S k) p) store;
          store ← set_at store k NUL;
          out ← produceTuple store k;
          let ntuples := S ntuples in
          if (ntuples =? maxTuples)%nat then Ok (out, ntuples)
          else
            '(rest, ntuples) ← readMemoryMappedFile fuel maxTuples (drop (S k) p) store ntuples;
            Ok (out ++ rest, ntuples)
      end
  end.
End source.

(** a text file through a [TextFileSource] into a [TupleExtractor] *)
Definition extract_file (ts : tys) (ifs : Z) (store file : list Z) : result (list (event (Tuple ts)) * nat) :=
  readMemoryMappedFile (fun mem _ => te_processDataElement ts ifs mem 0 false)
    (S (length file)) 0 (mapped_file file) store 0.
End parse.

(** ** TuplePrinter *)

(** the integer whose [w]-byte two's complement image is [x] *)
Definition signed (w : nat) (x : Z) : Z :=
  let m := 256 ^ Z.of_nat w in if x <? m / 2 then x else x - m.

(** [os << attribute], for the signed integers and the strings *)
Definition print_attr (t : ty) : denote t -> list Z :=
  match t with
  | Scalar w => fun x => print_int (signed w x)
  | TString => fun s : list Z => s
  | _ => fun _ => []
  end.

(** [TuplePrinter<Tuple, CurrentIndex>::print] *)
Fixpoint TuplePrinter_print (ts : tys) (CurrentIndex : nat) (t : denotes ts) : list Z :=
  match CurrentIndex with
  | O => []
  | S O => print_attr (getAttributeType ts 0) (getAttribute ts 0 t)
  | S n => TuplePrinter_print ts n t ++ COMMA :: print_attr (getAttributeType ts n) (getAttribute ts n t)
  end.

Definition print (ts : tys) (t : denotes ts) : list Z := TuplePrinter_print ts (arity ts) t.

(** ** Fields in memory

    [laid_out ifs mem s fields]: what the extractor takes for the fields when it
    starts at [s].  A field ends at a separator or at a NUL; the scan is over
    when it starts at a NUL, and the fields that are left are empty. *)
Definition field_ok (ifs : Z) (f : list Z) : Prop := Forall (fun c => c <> NUL /\ c <> ifs) f.

Fixpoint laid_out (ifs : Z) (mem : list Z) (s : nat) (fields : list (list Z)) : Prop :=
  match fields with
  | [] => True
  | f :: fs =>
      (exists c rest, drop s mem = f ++ c :: rest /\ field_ok ifs f /\
         (c = ifs \/ c = NUL /\ f <> []) /\ laid_out ifs mem (s + length f + 1) fs) \/
      (mem !! s = Some NUL /\ Forall (fun g => g = []) (f :: fs))
  end.

Definition null_ref : StringRef * bool := (mkRef None 0, true).

Definition ref_of (s : nat) (f : list Z) : StringRef * bool :=
  if (length f =? 0)%nat then null_ref else (mkRef (Some s) (Z.of_nat (length f)), false).

Fixpoint refs_of (s : nat) (fields : list (list Z)) : list (StringRef * bool) :=
  match fields with
  | [] => []
  | f :: fs => ref_of s f :: refs_of (s + length f + 1) fs
  end.

Lemma refs_of_empty s fields : Forall (fun g => g = []) fields -> refs_of s fields = replicate (length fields) null_ref.
Proof. intros H. revert s. induction H as [|f fs -> _ IH]; intros s; [done|]. simpl. by rewrite IH. Qed.

Lemma field_length_at ifs f c rest : field_ok ifs f -> c = NUL \/ c = ifs -> field_length ifs (f ++ c :: rest) = Ok (length f).
Proof.
  intros Hf Hc. induction Hf as [|x f [Hx1 Hx2] _ IH]; simpl.
  - destruct Hc as [-> | ->]; rewrite Z.eqb_refl, ?orb_true_r; done.
  - rewrite (proj2 (Z.eqb_neq _ _) Hx1), (proj2 (Z.eqb_neq _ _) Hx2). simpl. by rewrite IH.
Qed.

Lemma drop_cons_lookup {A} (l : list A) s x rest : drop s l = x :: rest -> l !! s = Some x.
Proof. intros H. by rewrite <- (Nat.add_0_r s), <- lookup_drop, H. Qed.

Lemma extract_fields_laid_out ifs mem s fields : ifs <> NUL -> laid_out ifs mem s fields ->
  exists l, extract_fields ifs mem (length fields) s = Ok l /\
    l ++ replicate (length fields - length l) null_ref = refs_of s fields.
Proof.
  intros Hifs. revert s. induction fields as [|f fs IH]; intros s Hl; [by exists []|].
  destruct Hl as [(c & rest & Hd & Hf & Hc & Hl)|[Hn Hall]].
  - destruct (IH _ Hl) as (l & Hx & Hp). exists (ref_of s f :: l). cbn [length extract_fields].
    assert (exists c0, mem !! s = Some c0 /\ c0 <> NUL) as (c0 & Hc0 & Hne).
    { destruct f as [|x f]; simpl in Hd; apply drop_cons_lookup in Hd; [exists c|exists x; split; [done|]].
      - split; [done|]. destruct Hc as [->|[_ ?]]; done.
      - by apply Forall_cons in Hf as [[? _] _]. }
    rewrite (get_at_Some _ _ _ Hc0). run_step. rewrite (proj2 (Z.eqb_neq _ _) Hne).
    rewrite Hd, field_length_at by (done || destruct Hc as [->|[-> _]]; auto). run_step.
    rewrite Hx. run_step. split; [done|]. simpl. by rewrite Hp.
  - exists []. cbn [length extract_fields]. rewrite (get_at_Some _ _ _ Hn). run_step.
    split; [done|]. rewrite (refs_of_empty s) by done. done.
Qed.

(** a reference is the field it was made for *)
Lemma refs_of_std_string ifs mem s fields i f n : laid_out ifs mem s fields -> fields !! i = Some f ->
  exists r, (refs_of s fields).*1 !! i = Some r /\ size_ r = Z.of_nat (length f) /\
    (0 <= n <= Z.of_nat (length f) -> std_string mem (begin_ r) n = Ok (take (Z.to_nat n) f)).
Proof.
  revert s i. induction fields as [|g fs IH]; intros s i Hl Hi; [done|].
  destruct Hl as [(c & rest & Hd & Hf & Hc & Hl)|[Hn Hall]].
  - destruct i as [|i]; [|by apply IH]. injection Hi as ->. cbn [refs_of fmap list_fmap lookup list_lookup].
    exists (ref_of s f).1. split; [done|]. unfold ref_of. destruct f as [|x f]; simpl length; cbn [Nat.eqb fst size_ begin_].
    { split; [done|]. intros Hn. assert (n = 0) as -> by lia. done. }
    split; [done|]. intros Hn. unfold std_string. rewrite Hd.
    assert (length mem = (s + length (x :: f ++ c :: rest))%nat) as Hlen.
    { rewrite <- (take_drop s mem), length_app, Hd, length_take. simpl.
      assert (s <= length mem)%nat; [|lia]. destruct (decide (s <= length mem)%nat); [done|].
      by rewrite drop_ge in Hd by lia. }
    rewrite (proj2 (Nat.leb_le _ _)) by (rewrite Hlen; simpl; rewrite length_app; lia).
    by rewrite take_app_le by (simpl; lia).
  - rewrite refs_of_empty by done. assert (f = []) as -> by (by eapply (proj1 (Forall_lookup _ _) Hall i f)).
    exists (mkRef None 0). split_and!; [|done|intros Hn'; assert (n = 0) as -> by (simpl in *; lia); done].
    rewrite list_lookup_fmap, lookup_replicate_2; [done|]. by apply lookup_lt_Some in Hi.
Qed.

(** ** What the extractor computes *)

Section extractor_spec.
Context `{P : Parsers} (ts : tys) (ifs : Z) (Hifs : ifs <> NUL).

(** an attribute from the characters of its field *)
Definition field_parse (t : ty) (f : list Z) : denote t -> result (denote t) :=
  match t with
  | TString => fun _ => Ok (take 1023 f)
  | t => StringAttributeParser_parse t f
  end.

Lemma parseTupleImpl_ext {R R'} (p : forall t, R -> denote t -> result (denote t)) (p' : forall t, R' -> denote t -> result (denote t))
    (data : list R) (data' : list R') n tup :
  (n <= length data)%nat -> (n <= length data')%nat ->
  (forall i r r' t v, (i < n)%nat -> data !! i = Some r -> data' !! i = Some r' -> p t r v = p' t r' v) ->
  parseTupleImpl p ts data n tup = parseTupleImpl p' ts data' n tup.
Proof.
  revert tup. induction n as [|n IH]; intros tup H1 H2 H; [done|]. cbn [parseTupleImpl].
  destruct (lookup_lt_is_Some_2 data n ltac:(lia)) as [r Hr].
  destruct (lookup_lt_is_Some_2 data' n ltac:(lia)) as [r' Hr'].
  rewrite (get_at_Some _ _ _ Hr), (get_at_Some _ _ _ Hr'). run_step. rewrite (H n r r') by (done || lia).
  destruct (p' _ r' _) as [v|]; [|done]. run_step. apply IH; [lia..|].
  intros i x x' t y Hi Hx Hx'. apply (H i x x'); [lia|done..].
Qed.

Lemma refs_of_length s fields : length (refs_of s fields) = length fields.
Proof. revert s. induction fields as [|f fs IH]; intros s; simpl; [done|]. by rewrite IH. Qed.

Lemma tuple_of_refs_fields mem s fields : laid_out ifs mem s fields -> length fields = NUM_ATTRIBUTES ts ->
  tuple_of_refs mem ts (refs_of s fields).*1 =
    (data ← parseTupleImpl field_parse ts fields (NUM_ATTRIBUTES ts) (value_inits ts); Ok (mkTuple data 0)).
Proof.
  intros Hl Hn. unfold tuple_of_refs. f_equal. apply parseTupleImpl_ext.
  - rewrite length_fmap, refs_of_length. lia.
  - lia.
  - intros i r f t v Hi Hr Hf.
    destruct (refs_of_std_string ifs mem s fields i f (Z.of_nat (length f)) Hl Hf) as (r1 & Hr1 & Hsz & Hstr).
    rewrite Hr in Hr1. injection Hr1 as <-. rewrite Nat2Z.id, take_ge in Hstr by lia. specialize (Hstr ltac:(lia)).
    assert (std_string mem (begin_ r) (size_ r) = Ok f) as Hs by (by rewrite Hsz).
    destruct t; cbn [StringRefAttributeParser_parse field_parse]; try (by rewrite Hs).
    destruct (refs_of_std_string ifs mem s fields i f (Z.min 1023 (size_ r)) Hl Hf) as (r1 & Hr1 & _ & Hcut).
    rewrite Hr in Hr1. injection Hr1 as <-. rewrite Hcut by (rewrite Hsz; lia). f_equal. rewrite Hsz.
    destruct (decide (length f <= 1023)%nat).
    + rewrite !take_ge; [done|..]; lia.
    + f_equal. lia.
Qed.

Lemma set_nulls_spec n nulls (res : Tuple ts) : (n + length nulls <= NUM_ATTRIBUTES ts)%nat -> 0 <= mNulls res ->
  exists m, set_nulls ts n nulls res = Ok (mkTuple (tdata res) m) /\ 0 <= m /\
    forall j, Z.testbit m (Z.of_nat j) =
      Z.testbit (mNulls res) (Z.of_nat j) || bool_decide ((n <= j)%nat /\ nulls !! (j - n)%nat = Some true).
Proof.
  revert n res. induction nulls as [|b nulls IH]; intros n res Hn Hm.
  { exists (mNulls res). split; [by destruct res|]. split; [done|]. intros j.
    rewrite bool_decide_eq_false_2 by (intros [_ ?]; done). by rewrite orb_false_r. }
  cbn [set_nulls length] in *.
  set (res1 := if b then mkTuple (tdata res) (set_bit (mNulls res) (Z.of_nat n)) else res).
  assert ((if b then setNull ts n true res else Ok res) = Ok res1) as ->.
  { destruct b; [|done]. unfold setNull. rewrite (proj2 (Nat.ltb_lt _ _)) by lia. done. }
  run_step. assert (0 <= mNulls res1) as Hm1.
  { destruct b; [|done]. cbn [res1 mNulls]. unfold set_bit. apply Z.lor_nonneg. split; [done|]. apply Z.shiftl_nonneg. lia. }
  destruct (IH (S n) res1 ltac:(lia) Hm1) as (m & -> & Hm2 & Hbit). exists m.
  split; [by destruct b|]. split; [done|]. intros j. rewrite Hbit.
  assert (Z.testbit (mNulls res1) (Z.of_nat j) = (b && bool_decide (j = n)) || Z.testbit (mNulls res) (Z.of_nat j)) as ->.
  { destruct b; [|done]. cbn [res1 mNulls]. rewrite set_bit_testbit by lia. f_equal. apply bool_decide_ext. lia. }
  rewrite <- orb_assoc, (orb_comm (b && _)), <- orb_assoc. f_equal. apply eq_bool_prop_intro.
  rewrite orb_True, andb_True, !bool_decide_spec. destruct (decide (j = n)) as [->|Hne].
  - rewrite Nat.sub_diag. simpl. split; [intros [[? _]|[Hb _]]; [lia|]|].
    + split; [lia|]. by destruct b.
    + intros [_ [= ->]]. by right.
  - split.
    + intros [[? Hl]|[_ ?]]; [|done]. split; [lia|]. by replace (j - n)%nat with (S (j - S n)) by lia.
    + intros [? Hl]. left. split; [lia|]. by replace (j - n)%nat with (S (j - S n)) in Hl by lia.
Qed.

Lemma refs_of_nulls s fields i : (refs_of s fields).*2 !! i = Some true <-> fields !! i = Some [].
Proof.
  revert s i. induction fields as [|f fs IH]; intros s [|i]; simpl; [done..| |apply IH].
  unfold ref_of. destruct f; simpl; by split; intros [=].
Qed.

Lemma te_laid_out mem s outdated fields data :
  laid_out ifs mem s fields -> length fields = NUM_ATTRIBUTES ts ->
  parseTupleImpl field_parse ts fields (NUM_ATTRIBUTES ts) (value_inits ts) = Ok data ->
  exists m, te_processDataElement ts ifs mem s outdated = Ok [Data (mkTuple data m) outdated] /\ 0 <= m /\
    forall j, Z.testbit m (Z.of_nat j) = bool_decide (fields !! j = Some []).
Proof.
  intros Hl Hn Hp. unfold te_processDataElement. rewrite <- Hn.
  destruct (extract_fields_laid_out ifs mem s fields Hifs Hl) as (l & -> & Hrefs). run_step.
  change (mkRef None 0, true) with null_ref. rewrite Hrefs.
  rewrite (tuple_of_refs_fields mem s fields Hl Hn), Hp. run_step.
  destruct (set_nulls_spec 0 (refs_of s fields).*2 (mkTuple data 0)) as (m & -> & Hm & Hbit).
  { rewrite length_fmap, refs_of_length. lia. }
  { done. }
  run_step. exists m. split; [done|]. split; [done|]. intros j. rewrite Hbit. cbn [mNulls]. rewrite Z.bits_0, Nat.sub_0_r.
  simpl. apply bool_decide_ext. rewrite refs_of_nulls. split; [by intros [_ ?]|]. intros ?. split; [lia|done].
Qed.
End extractor_spec.

(** ** Lines *)

Fixpoint join (sep : Z) (fields : list (list Z)) : list Z :=
  match fields with
  | [] => []
  | [f] => f
  | f :: fs => f ++ sep :: join sep fs
  end.

Lemma drop_shift {A} (l : list A) s f c rest : drop s l = f ++ c :: rest -> drop (s + length f + 1) l = rest.
Proof.
  intros H. replace (s + length f + 1)%nat with (s + S (length f))%nat by lia.
  rewrite <- drop_drop, H. change (f ++ c :: rest) with (f ++ [c] ++ rest).
  rewrite app_assoc, drop_app_length'; [done|]. rewrite length_app. simpl. lia.
Qed.

(** a line, and what the extractor finds behind it when it needs more fields *)
Lemma laid_out_line ifs mem s fields fields2 c rest :
  drop s mem = join ifs fields ++ c :: rest -> fields <> [] -> Forall (field_ok ifs) fields ->
  (c = ifs \/ c = NUL /\ (fields2 = [] \/ last fields <> Some [])) ->
  laid_out ifs mem (s + length (join ifs fields) + 1) fields2 ->
  laid_out ifs mem s (fields ++ fields2).
Proof.
  intros Hd Hne Hok Hc Hl. revert s Hd Hl. induction Hok as [|f fs Hf Hfs IH]; intros s Hd Hl; [done|].
  destruct fs as [|g fs].
  - cbn [join app] in *. cbn [laid_out]. destruct Hc as [->|[-> Hc]].
    + left. exists ifs, rest. by auto.
    + destruct f as [|x f].
      * right. split; [by eapply drop_cons_lookup|]. destruct Hc as [->|]; [by repeat constructor|done].
      * left. exists NUL, rest. split; [done|]. split; [done|]. split; [by right|done].
  - change (join ifs (f :: g :: fs)) with (f ++ ifs :: join ifs (g :: fs)) in *.
    rewrite <- app_assoc in Hd. cbn [app] in Hd |- *. left. exists ifs, (join ifs (g :: fs) ++ c :: rest).
    split; [done|]. split; [done|]. split; [by left|]. apply IH; [done| | |].
    + destruct Hc as [?|[? [?|?]]]; auto.
    + by eapply drop_shift.
    + rewrite length_app in Hl. cbn [length] in Hl.
      by replace (s + length f + 1 + length (join ifs (g :: fs)) + 1)%nat
        with (s + (length f + S (length (join ifs (g :: fs)))) + 1)%nat by lia.
Qed.

(** the fields of a printed tuple *)
Fixpoint print_fields (ts : tys) : denotes ts -> list (list Z) :=
  match ts with
  | TLast t => fun v => [print_attr t v]
  | TMore t ts => fun v : denote t * denotes ts => print_attr t v.1 :: print_fields ts v.2
  end.

Lemma print_fields_length ts v : length (print_fields ts v) = arity ts.
Proof. induction ts as [t|t ts IH]; simpl; [done|]. by rewrite IH. Qed.

Lemma print_fields_ne ts v : print_fields ts v <> [].
Proof. by destruct ts. Qed.

Lemma TuplePrinter_more t ts n v : TuplePrinter_print (TMore t ts) (S (S n)) v =
  print_attr t v.1 ++ COMMA :: TuplePrinter_print ts (S n) v.2.
Proof.
  induction n as [|n IH]; [done|].
  change (TuplePrinter_print (TMore t ts) (S (S (S n))) v) with
    (TuplePrinter_print (TMore t ts) (S (S n)) v ++
      COMMA :: print_attr (getAttributeType ts (S n)) (getAttribute ts (S n) v.2)).
  rewrite IH, <- app_assoc. done.
Qed.

Lemma print_join ts v : print ts v = join COMMA (print_fields ts v).
Proof.
  unfold print. induction ts as [t|t ts IH]; [done|].
  cbn [arity print_fields]. destruct (arity ts) as [|n] eqn:Ha; [pose proof (arity_pos ts); lia|].
  destruct v as [x xs]. rewrite TuplePrinter_more. cbn [fst snd]. rewrite IH.
  pose proof (print_fields_ne ts xs). by destruct (print_fields ts xs).
Qed.

(** ** Printed attributes are read back *)

Definition csv_char (c : Z) : Prop := c <> NUL /\ c <> COMMA /\ c <> NEWLINE.

(** what can be printed and read: [int]s, and strings without separators, not
    empty and not cut *)
Definition csv_attr (t : ty) : denote t -> Prop :=
  match t with
  | Scalar 4 => fun x => is_u32 x
  | TString => fun s => Forall csv_char s /\ s <> [] /\ (length s <= 1023)%nat
  | _ => fun _ => False
  end.

Fixpoint csv_attrs (ts : tys) : denotes ts -> Prop :=
  match ts with
  | TLast t => csv_attr t
  | TMore t ts => fun v : denote t * denotes ts => csv_attr t v.1 /\ csv_attrs ts v.2
  end.

Lemma print_uint_chars d : Forall csv_char (chars (NilEmpty.string_of_uint d)).
Proof.
  induction d as [|d IH|d IH|d IH|d IH|d IH|d IH|d IH|d IH|d IH|d IH]; [constructor|..].
  all: cbn [NilEmpty.string_of_uint]; constructor; [repeat split; vm_compute; congruence|exact IH].
Qed.

Lemma print_int_chars x : Forall csv_char (print_int x) /\ print_int x <> [].
Proof.
  unfold print_int, NilZero.string_of_int, NilZero.string_of_uint.
  destruct (Z.to_int x) as [d|d]; destruct d; cbn; split; try done.
  all: repeat (constructor; [repeat split; vm_compute; congruence|]); apply print_uint_chars || constructor.
Qed.

Lemma print_attr_chars t v : csv_attr t v -> Forall csv_char (print_attr t v) /\ print_attr t v <> [].
Proof.
  destruct t as [[|[|[|[|[|w]]]]]| |t|ts]; cbn [csv_attr print_attr]; try done.
  - intros _. apply print_int_chars.
  - intros (? & ? & _). done.
Qed.

Section read_back.
Context `{PL : ParsersLaws}.

Lemma signed_u32 x : is_u32 x -> is_int (signed 4 x) /\ u32 (signed 4 x) = x.
Proof.
  intros Hx. unfold signed. change (256 ^ Z.of_nat 4) with (2^32). change (2^32 / 2) with (2^31).
  destruct (Z.ltb_spec x (2^31)); (split; [word_lia|]).
  - apply u32_small. done.
  - unfold u32. replace (x - 2^32) with (x + (-1) * 2^32) by lia. rewrite Z.mod_add by done. by apply u32_small.
Qed.

Lemma field_parse_print t v out : csv_attr t v -> field_parse t (print_attr t v) out = Ok v.
Proof.
  destruct t as [[|[|[|[|[|w]]]]]| |t|ts]; cbn [csv_attr print_attr field_parse StringAttributeParser_parse]; try done.
  - intros Hv. apply signed_u32 in Hv as [Hi Hu]. rewrite qi_int_decimal by done. cbn. by rewrite Hu.
  - intros (_ & _ & Hl). by rewrite take_ge.
Qed.

Lemma print_fields_lookup ts v i : (i < arity ts)%nat ->
  print_fields ts v !! i = Some (print_attr (getAttributeType ts i) (getAttribute ts i v)).
Proof.
  revert i. induction ts as [t|t ts IH]; intros [|i] Hi; simpl in *; try (done || lia). apply IH. lia.
Qed.

Lemma csv_attrs_lookup ts v i : csv_attrs ts v -> csv_attr (getAttributeType ts i) (getAttribute ts i v).
Proof.
  revert i. induction ts as [t|t ts IH]; intros [|i] Hv; simpl in *; try done; [apply Hv|]. apply IH, Hv.
Qed.

(** [parseTupleImpl] sets the attributes one by one, from the last *)
Lemma parseTupleImpl_values {R} (p : forall t, R -> denote t -> result (denote t)) ts (data : list R) (v : denotes ts) n tup :
  (n <= arity ts)%nat ->
  (forall i, (i < n)%nat -> exists r, data !! i = Some r /\ forall out, p (getAttributeType ts i) r out = Ok (getAttribute ts i v)) ->
  exists tup', parseTupleImpl p ts data n tup = Ok tup' /\
    forall i, (i < arity ts)%nat -> getAttribute ts i tup' = getAttribute ts i (if (i <? n)%nat then v else tup).
Proof.
  revert tup. induction n as [|n IH]; intros tup Hn Hp; [by exists tup|].
  cbn [parseTupleImpl]. destruct (Hp n ltac:(lia)) as (r & Hr & Hv). rewrite (get_at_Some _ _ _ Hr). run_step.
  rewrite Hv. run_step.
  destruct (IH (setAttribute ts n (getAttribute ts n v) tup)) as (tup' & -> & Hget); [lia|intros; apply Hp; lia|].
  exists tup'. split; [done|]. intros i Hi. rewrite Hget by done.
  destruct (Nat.ltb_spec i n), (Nat.ltb_spec i (S n)); try (done || lia).
  - assert (i = n) as -> by lia. apply getAttribute_setAttribute.
  - apply getAttribute_setAttribute_ne; lia.
Qed.

Lemma parse_printed ts v : csv_attrs ts v ->
  parseTupleImpl field_parse ts (print_fields ts v) (arity ts) (value_inits ts) = Ok v.
Proof.
  intros Hv. destruct (parseTupleImpl_values field_parse ts (print_fields ts v) v (arity ts) (value_inits ts))
    as (tup & -> & Hget); [done| |].
  - intros i Hi. eexists. split; [by apply print_fields_lookup|]. intros out. apply field_parse_print, csv_attrs_lookup, Hv.
  - f_equal. apply attributes_ext. intros i Hi. rewrite Hget by done. by rewrite (proj2 (Nat.ltb_lt _ _) Hi).
Qed.

Lemma print_fields_ok ts v : csv_attrs ts v ->
  Forall (fun f => Forall csv_char f /\ f <> []) (print_fields ts v).
Proof.
  induction ts as [t|t ts IH]; intros Hv.
  - constructor; [by apply print_attr_chars|constructor].
  - destruct Hv as [Ht Hts]. constructor; [by apply print_attr_chars|by apply IH].
Qed.

Lemma join_chars sep fields (Q : Z -> Prop) : Q sep -> Forall (Forall Q) fields -> Forall Q (join sep fields).
Proof.
  intros Hs H. induction H as [|f fs Hf Hfs IH]; [constructor|]. destruct fs as [|g fs]; [done|].
  change (join sep (f :: g :: fs)) with (f ++ sep :: join sep (g :: fs)).
  apply Forall_app. split; [done|]. by constructor.
Qed.

(** a printed tuple, as a line in memory, is extracted again *)
Lemma te_printed ts v post outdated : csv_attrs ts v ->
  te_processDataElement ts COMMA (print ts v ++ NUL :: post) 0 outdated = Ok [Data (mkTuple v 0) outdated].
Proof.
  intros Hv. pose proof (print_fields_ok ts v Hv) as Hok.
  destruct (te_laid_out ts COMMA ltac:(done) (print ts v ++ NUL :: post) 0 outdated (print_fields ts v) v) as (m & -> & Hm & Hbit).
  - rewrite <- (app_nil_r (print_fields ts v)). eapply laid_out_line with (c := NUL) (rest := post).
    + by rewrite print_join.
    + apply print_fields_ne.
    + eapply Forall_impl; [done|]. intros f [Hf _]. eapply Forall_impl; [done|]. intros c (? & ? & ?). done.
    + right. split; [done|]. by left.
    + done.
  - apply print_fields_length.
  - by apply parse_printed.
  - repeat f_equal. apply Z.bits_inj'. intros n Hn. rewrite Z.bits_0. rewrite <- (Z2Nat.id n) by done.
    rewrite Hbit. apply bool_decide_eq_false_2. intros Hf. rewrite Forall_lookup in Hok.
    by apply Hok in Hf as [_ ?].
Qed.

(** ** Reading a file line by line *)

Lemma strchr_newline_line line rest : Forall (fun c => c <> NUL /\ c <> NEWLINE) line ->
  strchr_newline (line ++ NEWLINE :: rest) = Ok (Some (length line)).
Proof.
  induction 1 as [|c line [H1 H2] _ IH]; [done|]. cbn [app strchr_newline length].
  rewrite (proj2 (Z.eqb_neq _ _) H1), (proj2 (Z.eqb_neq _ _) H2), IH. done.
Qed.

(** behind the file: nothing, or the zeros of its last page *)
Lemma strchr_tail n : strchr_newline (replicate ((PAGE_SIZE - n mod PAGE_SIZE) mod PAGE_SIZE) NUL) =
  if (n mod PAGE_SIZE =? 0)%nat then Err OutOfBounds else Ok None.
Proof.
  pose proof (Nat.mod_upper_bound n PAGE_SIZE ltac:(by unfold PAGE_SIZE)). destruct (Nat.eqb_spec (n mod PAGE_SIZE) 0) as [->|Hne].
  - rewrite Nat.sub_0_r, Nat.Div0.mod_same. done.
  - rewrite Nat.mod_small by lia. destruct (PAGE_SIZE - _)%nat eqn:Hp; [lia|done].
Qed.

Lemma readMemoryMappedFile_lines {B} (produceTuple : list Z -> nat -> result (list B)) n
    (lines : list (list Z)) (outs : list (list B)) fuel m tail r store ntuples :
  strchr_newline tail = r -> (forall k, r <> Ok (Some k)) ->
  Forall2 (fun line out => Forall (fun c => c <> NUL /\ c <> NEWLINE) line /\ (length line < n)%nat /\
    forall post, produceTuple (line ++ NUL :: post) (length line) = Ok out) lines outs ->
  (length lines < fuel)%nat -> length store = n -> m = 0%nat \/ (ntuples < m)%nat ->
  readMemoryMappedFile produceTuple fuel m ((lines ≫= fun l => l ++ [NEWLINE]) ++ tail) store ntuples =
    if negb (m =? 0)%nat && (m <=? ntuples + length lines)%nat then Ok (concat (take (m - ntuples) outs), m)
    else match r with Ok _ => Ok (concat outs, (ntuples + length lines)%nat) | Err f => Err f end.
Proof.
  intros Hr Hr' H. revert fuel store ntuples. induction H as [|line out lines outs (Hl & Hn & Hp) _ IH]; intros [|fuel] store ntuples Hf Hs Hm; simpl length in Hf; try lia.
  - assert (negb (m =? 0)%nat && (m <=? ntuples + 0)%nat = false) as Hlim.
    { destruct Hm as [->|Hm]; [done|]. rewrite (proj2 (Nat.leb_gt _ _)) by lia. apply andb_false_r. }
    cbn [mbind list_bind app readMemoryMappedFile concat length]. rewrite Hr, Hlim.
    destruct r as [[k|]|f]; [by destruct (Hr' k)| |done]. run_step. by rewrite Nat.add_0_r.
  - rewrite bind_cons. cbn [readMemoryMappedFile]. rewrite <- !app_assoc. cbn [app].
    rewrite strchr_newline_line by done. run_step.
    set (rest := (lines ≫= (fun l => l ++ [NEWLINE])) ++ tail).
    assert (take (S (length line)) (line ++ NEWLINE :: rest) = line ++ [NEWLINE]) as ->.
    { change (line ++ NEWLINE :: rest) with (line ++ [NEWLINE] ++ rest). rewrite app_assoc, take_app_length'; [done|].
      rewrite length_app. simpl. lia. }
    assert (drop (S (length line)) (line ++ NEWLINE :: rest) = rest) as ->.
    { change (line ++ NEWLINE :: rest) with (line ++ [NEWLINE] ++ rest). rewrite app_assoc, drop_app_length'; [done|].
      rewrite length_app. simpl. lia. }
    assert (length (line ++ [NEWLINE]) = S (length line)) as Hll by (rewrite length_app; simpl; lia).
    unfold memcpy. rewrite Hll. rewrite (proj2 (Nat.leb_le _ _)) by lia. run_step.
    rewrite set_at_lt by (rewrite length_app, Hll; lia). run_step.
    assert (<[length line:=NUL]> ((line ++ [NEWLINE]) ++ drop (S (length line)) store) = line ++ NUL :: drop (S (length line)) store) as ->.
    { rewrite <- app_assoc. cbn [app]. rewrite <- (Nat.add_0_r (length line)), insert_app_r. done. }
    rewrite Hp. run_step. cbn [length]. destruct (Nat.eqb_spec (S ntuples) m) as [Heq|Hne].
    { rewrite (proj2 (Nat.eqb_neq m 0)), (proj2 (Nat.leb_le _ _)) by lia. cbn [negb andb].
      replace (m - ntuples)%nat with 1%nat by lia. cbn. by rewrite app_nil_r, Heq. }
    rewrite IH; [|lia| |lia].
    + rewrite Nat.add_succ_r. cbn [Nat.add]. destruct (negb (m =? 0)%nat && (m <=? S (ntuples + length lines))%nat) eqn:Hlim.
      * run_step. apply andb_prop in Hlim as [Hz%negb_true_iff%Nat.eqb_neq _].
        replace (m - ntuples)%nat with (S (m - S ntuples)) by lia. done.
      * destruct r as [a|f]; [|done]. run_step. done.
    + rewrite length_app. cbn [length]. rewrite length_drop. lia.
Qed.
End read_back.

(** ** Parsers for the examples *)

Definition parse_int (s : list Z) : option Z :=
  match NilZero.int_of_string (string_of s) with
  | Some d => let z := Z.of_int d in if bool_decide (- 2^31 <= z < 2^31) then Some z else None
  | None => None
  end.

Definition int_parsers : Parsers := {|
  qi_int := parse_int;
  qi_long := fun _ => None;
  lexical_cast := fun _ _ => Err (Throws "boost::bad_lexical_cast") |}.

Lemma int_parsers_laws : ParsersLaws int_parsers.
Proof.
  intros z Hz. cbn [qi_int int_parsers]. unfold parse_int, print_int. rewrite string_of_chars.
  assert (exists d, NilZero.int_of_string (NilZero.string_of_int (Z.to_int z)) = Some d /\ Z.of_int d = z) as (d & -> & ->).
  { pose proof (DecimalZ.of_to z) as Ht. destruct (Z.to_int z) as [u|u]; rewrite <- Ht; destruct u.
    1,12: by eexists.
    all: by (eexists; split; [apply NilZero.isi|]). }
  by rewrite bool_decide_eq_true_2.
Qed.

(** ** Properties *)

(** the text file with the tuples as lines *)
Definition file_of (ts : tys) (vs : list (denotes ts)) : list Z :=
  vs ≫= fun v => print ts v ++ [NEWLINE].

Lemma file_of_lines ts vs : file_of ts vs = (print ts <$> vs) ≫= fun l => l ++ [NEWLINE].
Proof. induction vs as [|v vs IH]; [done|]. unfold file_of in *. by rewrite fmap_cons, !bind_cons, IH. Qed.

Lemma print_line `{PL : ParsersLaws} ts v : csv_attrs ts v -> Forall (fun c => c <> NUL /\ c <> NEWLINE) (print ts v).
Proof.
  intros Hv. rewrite print_join. apply join_chars; [done|].
  eapply Forall_impl; [by apply print_fields_ok|]. intros f [Hf _].
  eapply Forall_impl; [done|]. intros c (? & ? & ?). done.
Qed.

Lemma length_file_of ts (vs : list (denotes ts)) : (length vs <= length (file_of ts vs))%nat.
Proof.
  induction vs as [|v vs IH]; [done|]. unfold file_of in *. rewrite bind_cons, !length_app. simpl length in *. lia.
Qed.

(** A text file of printed tuples, read by a [TextFileSource] and a
    [TupleExtractor], gives the tuples again, in order and without null flags.
    Where the file fills its last page there is no character behind it that
    would end the search for the next line: the reader leaves the file. *)
Lemma file_roundtrip `{PL : ParsersLaws} ts (vs : list (denotes ts)) store :
  Forall (fun v => csv_attrs ts v /\ (length (print ts v) < length store)%nat) vs ->
  extract_file ts COMMA store (file_of ts vs) =
    if (length (file_of ts vs) mod PAGE_SIZE =? 0)%nat then Err OutOfBounds
    else Ok ((fun v => Data (mkTuple v 0) false) <$> vs, length vs).
Proof.
  intros Hvs. unfold extract_file, mapped_file. set (tail := replicate _ NUL).
  pose proof (strchr_tail (length (file_of ts vs))) as Htail. fold tail in Htail.
  pose proof (length_file_of ts vs) as Hlen. rewrite (file_of_lines ts vs) in *.
  rewrite (readMemoryMappedFile_lines _ (length store) (print ts <$> vs) ((fun v => [Data (mkTuple v 0) false]) <$> vs) _ 0 tail _ _ _ Htail); cbn [Nat.eqb negb andb].
  - rewrite length_fmap. destruct (_ =? 0)%nat; [done|]. f_equal. f_equal. clear.
    induction vs as [|v vs IH]; [done|]. rewrite !fmap_cons. cbn [concat app]. by rewrite IH.
  - intros k. by destruct (_ =? 0)%nat.
  - rewrite Forall2_fmap. apply Forall_Forall2_diag. eapply Forall_impl; [done|]. intros v [Hv Hl].
    split; [by apply print_line|]. split; [done|]. intros post. by apply te_printed.
  - rewrite length_fmap. lia.
  - done.
  - by left.
Qed.

Definition demo_ts : tys := TMore (Scalar 4) (TMore TString (TLast (Scalar 4))).

Definition demo_v1 : denotes demo_ts := (2^32 - 12, (chars "ab", 0)).
Definition demo_v2 : denotes demo_ts := (7, (chars "c d", 30)).

Lemma file_roundtrip_witness :
  extract_file (P := int_parsers) demo_ts COMMA (replicate 20 7) (file_of demo_ts [demo_v1; demo_v2]) =
    Ok ([Data (mkTuple demo_v1 0) false; Data (mkTuple demo_v2 0) false], 2%nat).
Proof.
  refine (file_roundtrip (PL := int_parsers_laws) demo_ts [demo_v1; demo_v2] (replicate 20 7) _).
  repeat constructor; try (vm_compute; congruence).
  all: vm_compute; lia.
Defined.

Lemma refs_of_null_flags s fields : (refs_of s fields).*2 = (fun f => bool_decide (f = [])) <$> fields.
Proof.
  revert s. induction fields as [|f fs IH]; intros s; [done|]. cbn [refs_of]. rewrite !fmap_cons, IH. f_equal.
  unfold ref_of. by destruct f.
Qed.

(** the tuple of a sequence of fields: parsed from the last to the first, empty
    ones marked as null *)
Definition tuple_of_fields `{Parsers} (ts : tys) (fields : list (list Z)) : result (Tuple ts) :=
  data ← parseTupleImpl field_parse ts fields (NUM_ATTRIBUTES ts) (value_inits ts);
  set_nulls ts 0 ((fun f => bool_decide (f = [])) <$> fields) (mkTuple data 0).

Lemma te_fields `{Parsers} ts ifs mem s outdated fields : ifs <> NUL ->
  laid_out ifs mem s fields -> length fields = NUM_ATTRIBUTES ts ->
  te_processDataElement ts ifs mem s outdated = (tp ← tuple_of_fields ts fields; Ok [Data tp outdated]).
Proof.
  intros Hifs Hl Hn. unfold te_processDataElement, tuple_of_fields. rewrite <- Hn.
  destruct (extract_fields_laid_out ifs mem s fields Hifs Hl) as (l & -> & Hrefs). run_step.
  change (mkRef None 0, true) with null_ref. rewrite Hrefs, (tuple_of_refs_fields ts ifs mem s fields Hl Hn), refs_of_null_flags, Hn.
  by destruct (parseTupleImpl field_parse ts fields _ _).
Qed.

(** From a line with one field per attribute the extractor publishes the tuple
    of its fields.  A line with fewer fields whose last one is not empty is not
    ended by its terminator: the missing fields are taken from the bytes behind
    it, as if the terminator were a separator. *)
Lemma extractor_fields `{Parsers} ts ifs pre fields rest outdated :
  ifs <> NUL -> fields <> [] -> Forall (field_ok ifs) fields ->
  (length fields = NUM_ATTRIBUTES ts ->
   te_processDataElement ts ifs (pre ++ join ifs fields ++ NUL :: rest) (length pre) outdated =
     (tp ← tuple_of_fields ts fields; Ok [Data tp outdated])) /\
  (forall fields2 rest2, rest = join ifs fields2 ++ NUL :: rest2 -> fields2 <> [] -> Forall (field_ok ifs) fields2 ->
   last fields <> Some [] -> (length fields + length fields2 = NUM_ATTRIBUTES ts)%nat ->
   te_processDataElement ts ifs (pre ++ join ifs fields ++ NUL :: rest) (length pre) outdated =
     (tp ← tuple_of_fields ts (fields ++ fields2); Ok [Data tp outdated])).
Proof.
  intros Hifs Hne Hok.
  assert (forall l, drop (length pre) (pre ++ l) = l) as Hdrop by (intros; apply drop_app_length).
  split.
  - intros Hn. apply te_fields; [done| |done]. rewrite <- (app_nil_r fields).
    eapply laid_out_line with (c := NUL); [by rewrite Hdrop, app_nil_r|done..| |done]. right. auto.
  - intros fields2 rest2 -> Hne2 Hok2 Hlast Hn. apply te_fields; [done| |by rewrite length_app].
    eapply laid_out_line with (c := NUL); [by rewrite Hdrop|done..|right; by auto|].
    rewrite <- (app_nil_r fields2).
    eapply laid_out_line with (c := NUL) (rest := rest2); [|done..|right; by auto|done].
    rewrite app_nil_r. eapply drop_shift. by rewrite Hdrop.
Qed.

Definition three_ints : tys := TMore (Scalar 4) (TMore (Scalar 4) (TLast (Scalar 4))).

(** the line "4" in a store that held the line "1,2,3" before *)
Lemma extractor_fields_witness :
  te_processDataElement (P := int_parsers) three_ints COMMA (chars "4" ++ NUL :: chars "2,3" ++ NUL :: [7]) 0 false =
    Ok [Data (mkTuple (ts := three_ints) (4, (2, 3)) 0) false].
Proof.
  refine (proj2 (extractor_fields (H := int_parsers) three_ints COMMA []
    [chars "4"] (chars "2,3" ++ NUL :: [7]) false _ _ _) [chars "2"; chars "3"] [7] _ _ _ _ _).
  all: try done.
  all: repeat constructor; vm_compute; congruence.
Defined.
