(* ===== verification/Operators.v ===== *)
(** * Operators: the stateless operators, batching, queues and partitioning

    [Where.hpp], [Map.hpp], [StatefulMap.hpp], [Notify.hpp], [Barrier.hpp],
    [Merge.hpp], [Batcher.hpp] (with its [UnBatcher]), [Queue.hpp],
    [PartitionBy.hpp] and [StreamGenerator.hpp].  Punctuations carry the data that
    transactional operators need, so the messages here have it, unlike the
    events of [Stream.v]. *)

From S2P Require Import Prelude Stream.

(** a punctuation with its data: a transaction id, or nothing.  Its timestamp is
    not looked at by any operator. *)
Record punctuation := mkPunct { ptype : PType; pdata : option Z }.

Inductive message (A : Type) :=
  | MData (a : A) (outdated : bool)
  | MPunct (p : punctuation).
Arguments MData {A} a outdated.
Arguments MPunct {A} p.

#[export] Instance punctuation_eq_dec : EqDecision punctuation.
Proof. solve_decision. Defined.

(** the data elements of a stream with their flags, and its punctuations *)
Fixpoint datas {A} (l : list (message A)) : list (A * bool) :=
  match l with
  | [] => []
  | MData a o :: l => (a, o) :: datas l
  | MPunct _ :: l => datas l
  end.

Fixpoint puncts {A} (l : list (message A)) : list punctuation :=
  match l with
  | [] => []
  | MData _ _ :: l => puncts l
  | MPunct p :: l => p :: puncts l
  end.

Lemma datas_app {A} (l l' : list (message A)) : datas (l ++ l') = datas l ++ datas l'.
Proof. induction l as [|[a o|p] l IH]; simpl; by rewrite ?IH. Qed.

Lemma puncts_app {A} (l l' : list (message A)) : puncts (l ++ l') = puncts l ++ puncts l'.
Proof. induction l as [|[a o|p] l IH]; simpl; by rewrite ?IH. Qed.

Lemma datas_data {A} (l : list (A * bool)) : datas ((fun p => MData p.1 p.2) <$> l) = l.
Proof. induction l as [|[a o] l IH]; [done|]. rewrite fmap_cons. simpl. by rewrite IH. Qed.

Lemma puncts_data {A} (l : list (A * bool)) : puncts ((fun p => MData p.1 p.2) <$> l) = [].
Proof. induction l as [|[a o] l IH]; [done|]. rewrite fmap_cons. exact IH. Qed.

(** ** Selection, projection, notification *)

Section simple.
Context {A B St : Type}.

(** [Where]: the predicate sees the flag *)
Definition where_step (mFunc : A -> bool -> bool) (m : message A) (s : St) : result (list (message A) * St) :=
  match m with
  | MData data outdated => Ok (if mFunc data outdated then [MData data outdated] else [], s)
  | MPunct p => Ok ([MPunct p], s)
  end.

Definition map_step (mFunc : A -> bool -> B) (m : message A) (s : St) : result (list (message B) * St) :=
  match m with
  | MData data outdated => Ok ([MData (mFunc data outdated) outdated], s)
  | MPunct p => Ok ([MPunct p], s)
  end.

(** [StatefulMap]: the function is given the operator: it may change the state and
    publish punctuations, which come before the result *)
Definition stateful_map_step (mFunc : A -> bool -> St -> B * list punctuation * St) (m : message A) (s : St)
    : result (list (message B) * St) :=
  match m with
  | MData data outdated =>
      let '(res, ps, s) := mFunc data outdated s in
      Ok ((MPunct <$> ps) ++ [MData res outdated], s)
  | MPunct p => Ok ([MPunct p], s)
  end.

(** [Notify]: the callbacks change the state of the program; the punctuation
    callback is optional *)
Definition notify_step (mFunc : A -> bool -> St -> St) (mPunctFunc : option (punctuation -> St -> St))
    (m : message A) (s : St) : result (list (message A) * St) :=
  match m with
  | MData data outdated => Ok ([MData data outdated], mFunc data outdated s)
  | MPunct p => Ok ([MPunct p], match mPunctFunc with Some f => f p s | None => s end)
  end.

(** [Merge]: one lock around each call, every input forwarded *)
Definition merge_step (m : message A) (s : St) : result (list (message A) * St) := Ok ([m], s).

(** [Barrier]: the element waits until its predicate holds of the state the other
    threads change; punctuations do not wait *)
Definition barrier_step (mPred : A -> St -> bool) (m : message A) (s : St) : result (list (message A) * St) :=
  match m with
  | MData data outdated => if mPred data s then Ok ([MData data outdated], s) else Err Waits
  | MPunct p => Ok ([MPunct p], s)
  end.

(** [StreamGenerator::start] *)
Definition generator_start (mGenerator : nat -> A) (mNumTuples : nat) : list (message A) * nat :=
  (((fun i => MData (mGenerator i) false) <$> seq 0 mNumTuples) ++ [MPunct (mkPunct EndOfStream None)], mNumTuples).

Lemma where_run mFunc es (s : St) : exists out,
  run (where_step mFunc) es s = Ok (out, s) /\
  datas out = filter (fun p => mFunc p.1 p.2 = true) (datas es) /\ puncts out = puncts es.
Proof.
  induction es as [|[a o|p] es (out & Hrun & Hd & Hp)]; [by exists []| |].
  - exists ((if mFunc a o then [MData a o] else []) ++ out). cbn [run where_step]. run_step. rewrite Hrun. run_step.
    split; [done|]. rewrite datas_app, puncts_app, Hd, Hp. cbn [datas puncts]. rewrite filter_cons. cbn [fst snd].
    case_decide as Hf; [by rewrite Hf|]. apply not_true_is_false in Hf. by rewrite Hf.
  - exists (MPunct p :: out). cbn [run where_step]. run_step. rewrite Hrun. run_step. simpl. by rewrite Hd, Hp.
Qed.

Lemma map_run mFunc es (s : St) : exists out,
  run (map_step mFunc) es s = Ok (out, s) /\
  datas out = (fun p => (mFunc p.1 p.2, p.2)) <$> datas es /\ puncts out = puncts es.
Proof.
  induction es as [|[a o|p] es (out & Hrun & Hd & Hp)]; [by exists []| |].
  all: eexists; cbn [run map_step]; run_step; rewrite Hrun; run_step; split; [reflexivity|]; simpl; by rewrite Hd, Hp.
Qed.
End simple.

(** ** Batcher and UnBatcher *)

Definition SIZE_MAX : Z := 2^64 - 1.

Section batch.
Context {A : Type} (can_alloc : Z -> bool).

(** a slot of the buffer holds an element and its flag, or a null pointer *)
Record Batcher := mkBatcher { mBatchSize : Z; mPos : nat; mBuf : list (option (A * bool)) }.

Definition new_batcher (batchSize : Z) : Batcher :=
  mkBatcher batchSize 0 (if batchSize =? SIZE_MAX then [] else replicate (Z.to_nat batchSize) None).

(** the buffer is moved into the published tuple, and sized again *)
Definition publishBatch (b : Batcher) : result (list (message (list (option (A * bool)))) * Batcher) :=
  _ ← guard_else (can_alloc (mBatchSize b)) (Throws "std::length_error");
  Ok ([MData (mBuf b) false], mkBatcher (mBatchSize b) 0 (replicate (Z.to_nat (mBatchSize b)) None)).

Definition batcher_step (m : message A) (b : Batcher) : result (list (message (list (option (A * bool)))) * Batcher) :=
  match m with
  | MPunct p =>
      '(out, b) ← (if mBatchSize b =? SIZE_MAX then publishBatch b else Ok ([], b));
      Ok (out ++ [MPunct p], b)
  | MData data outdated =>
      let buf := if mBatchSize b =? SIZE_MAX then resize (mPos b + 1) None (mBuf b) else mBuf b in
      buf ← set_at buf (mPos b) (Some (data, outdated));
      let b := mkBatcher (mBatchSize b) (S (mPos b)) buf in
      if Z.of_nat (mPos b) =? mBatchSize b then publishBatch b else Ok ([], b)
  end.

(** publishing a null pointer: the subscribers dereference it *)
Fixpoint unbatch_loop (vec : list (option (A * bool))) : result (list (message A)) :=
  match vec with
  | [] => Ok []
  | None :: _ => Err Dangling
  | Some (a, o) :: vec => rest ← unbatch_loop vec; Ok (MData a o :: rest)
  end.

Definition unbatcher_step (m : message (list (option (A * bool)))) (s : unit) : result (list (message A) * unit) :=
  match m with
  | MData data _ => out ← unbatch_loop data; Ok (out, s)
  | MPunct p => Ok ([MPunct p], s)
  end.

(** the elements a batcher holds back *)
Definition pending (b : Batcher) : list (option (A * bool)) := take (mPos b) (mBuf b).

Lemma unbatch_loop_Some (l : list (A * bool)) : unbatch_loop (Some <$> l) = Ok ((fun p => MData p.1 p.2) <$> l).
Proof. induction l as [|[a o] l IH]; [done|]. rewrite fmap_cons. cbn [unbatch_loop]. by rewrite IH. Qed.
End batch.

Arguments Batcher : clear implicits.

(** ** Queue *)

Section queue.
Context {A : Type}.

(** [std::tuple<PType, StreamElement, bool>] *)
Definition queue_entry : Type := PType * option A * bool.

(** [ConcurrentQueue] *)
Record ConcurrentQueue := mkQueue { queue_ : list queue_entry; stopped_ : bool }.

Definition queue_push (item : queue_entry) (q : ConcurrentQueue) : ConcurrentQueue :=
  mkQueue (queue_ q ++ [item]) (stopped_ q).

Definition queue_stop (q : ConcurrentQueue) : ConcurrentQueue := mkQueue (queue_ q) true.

(** [bool pop(T&)]: waits for an element or for [stop]; a stopped queue gives
    nothing, even when it holds elements *)
Definition queue_pop (q : ConcurrentQueue) : result (option queue_entry * ConcurrentQueue) :=
  if stopped_ q then Ok (None, q)
  else match queue_ q with
       | [] => Err Waits
       | item :: rest => Ok (Some item, mkQueue rest false)
       end.

(** the producer side: only the type of a punctuation is kept *)
Definition queue_receive (m : message A) (q : ConcurrentQueue) : ConcurrentQueue :=
  match m with
  | MData data outdated => queue_push (PNone, Some data, outdated) q
  | MPunct p => queue_push (ptype p, None, false) q
  end.

(** the consumer thread *)
Definition dequeueTuple (q : ConcurrentQueue) : result (list (message A) * ConcurrentQueue) :=
  '(tp, q) ← queue_pop q;
  match tp with
  | None => Ok ([], q)
  | Some (PNone, Some a, o) => Ok ([MData a o], q)
  | Some (PNone, None, _) => Err Dangling
  | Some (p, _, _) => Ok ([MPunct (mkPunct p None)], q)
  end.

(** what a message is after a queue *)
Definition queued (m : message A) : message A :=
  match m with
  | MData a o => MData a o
  | MPunct p => MPunct (mkPunct (ptype p) None)
  end.

Definition entry_of (m : message A) : queue_entry :=
  match m with MData a o => (PNone, Some a, o) | MPunct p => (ptype p, None, false) end.

Lemma queue_receive_entry m q : queue_receive m q = queue_push (entry_of m) q.
Proof. by destruct m. Qed.

Lemma dequeue_entry m l : (forall p, m = MPunct p -> ptype p <> PNone) ->
  dequeueTuple (mkQueue (entry_of m :: l) false) = Ok ([queued m], mkQueue l false).
Proof.
  intros Hp. destruct m as [a o|p]; [done|]. specialize (Hp p eq_refl).
  unfold dequeueTuple, queue_pop. cbn [stopped_ queue_ entry_of]. run_step. cbn [queued]. revert Hp. by destruct (ptype p).
Qed.
End queue.

Arguments queue_entry : clear implicits.
Arguments ConcurrentQueue : clear implicits.

(** ** PartitionBy, its queues, and a Merge behind them

    Each partition has a queue with a thread of its own that feeds the operators
    of the partition; here they publish to a [Merge], which handles one element
    at a time.  A step is the call of [PartitionBy] for one input, or one turn of
    a consumer thread. *)

Section partition.
Context {A : Type} (mFunc : A -> Z).

(** [mPartitions] holds the registered ids with their queues.
    [boost::unordered_map::insert] keeps an entry that exists: the queue created
    for a second registration of an id is never fed *)
Definition connectChannelsForPartition (mNumPartitions id : Z) (ps : list (Z * ConcurrentQueue A)) : result (list (Z * ConcurrentQueue A)) :=
  _ ← guard_else ((0 <=? id) && (id <? mNumPartitions)) AssertFailed;
  Ok (if decide (id ∈ ps.*1) then ps else ps ++ [(id, mkQueue [] false)]).

Definition pb_receive (m : message A) (ps : list (Z * ConcurrentQueue A)) : list (Z * ConcurrentQueue A) :=
  match m with
  | MData data _ => (fun e => if decide (e.1 = mFunc data) then (e.1, queue_receive m e.2) else e) <$> ps
  | MPunct _ => (fun e => (e.1, queue_receive m e.2)) <$> ps
  end.

Record pconfig := mkPConfig {
  pc_input : list (message A);              (** what the publisher still sends *)
  pc_parts : list (Z * ConcurrentQueue A);
  pc_published : list (Z * message A) }.    (** what the merge published, with the partition *)

Inductive pstep : pconfig -> pconfig -> Prop :=
  | pstep_input m rest ps out : pstep (mkPConfig (m :: rest) ps out) (mkPConfig rest (pb_receive m ps) out)
  | pstep_dequeue input ps out i k q q' o :
      ps !! i = Some (k, q) -> dequeueTuple q = Ok (o, q') ->
      pstep (mkPConfig input ps out) (mkPConfig input (<[i := (k, q')]> ps) (out ++ (pair k <$> o))).

(** the messages partition [k] is meant to get *)
Definition is_relevant (k : Z) (m : message A) : bool :=
  match m with MData a _ => mFunc a =? k | MPunct _ => true end.

Definition relevant (k : Z) (es : list (message A)) : list (message A) :=
  filter (fun m => is_relevant k m = true) es.

(** what partition [k] has published *)
Definition published_by (k : Z) (out : list (Z * message A)) : list (message A) :=
  (filter (fun e => e.1 = k) out).*2.

Definition drained (c : pconfig) : Prop :=
  pc_input c = [] /\ Forall (fun e => queue_ e.2 = []) (pc_parts c).

(** steps left at most *)
Definition work (c : pconfig) : nat :=
  length (pc_input c) * S (length (pc_parts c)) + sum_list_with (fun e => length (queue_ e.2)) (pc_parts c).

(** no thread has been stopped, and queue [k] holds what is left for [k] *)
Definition pinv (es : list (message A)) (ids : list Z) (c : pconfig) : Prop :=
  (pc_parts c).*1 = ids /\
  exists consumed, es = consumed ++ pc_input c /\
    forall i k q, pc_parts c !! i = Some (k, q) ->
      stopped_ q = false /\
      exists pend, queue_ q = entry_of <$> pend /\ Forall (fun m => m ∈ es) pend /\
        published_by k (pc_published c) ++ (queued <$> pend) = queued <$> relevant k consumed.

Definition no_none (es : list (message A)) : Prop := forall p, MPunct p ∈ es -> ptype p <> PNone.

Definition pstart (es : list (message A)) (ids : list Z) : pconfig :=
  mkPConfig es ((fun k => (k, mkQueue [] false)) <$> ids) [].

Lemma relevant_snoc k es m : relevant k (es ++ [m]) = relevant k es ++ relevant k [m].
Proof. apply filter_app. Qed.

Lemma published_by_app k l l' : published_by k (l ++ l') = published_by k l ++ published_by k l'.
Proof. unfold published_by. by rewrite filter_app, fmap_app. Qed.

Lemma published_by_same k (o : list (message A)) : published_by k (pair k <$> o) = o.
Proof. induction o as [|m o IH]; [done|]. unfold published_by in *.
  rewrite fmap_cons, filter_cons_True by done. by rewrite fmap_cons, IH.
Qed.

Lemma published_by_other k k' (o : list (message A)) : k <> k' -> published_by k (pair k' <$> o) = [].
Proof.
  intros Hne. induction o as [|m o IH]; [done|]. unfold published_by in *. by rewrite fmap_cons, filter_cons_False.
Qed.

(** one input: the queue of every partition gets what is relevant for it *)
Lemma pb_receive_lookup m ps i k q : ps !! i = Some (k, q) ->
  pb_receive m ps !! i = Some (k, mkQueue (queue_ q ++ (entry_of <$> relevant k [m])) (stopped_ q)).
Proof.
  intros H. destruct m as [a o|p]; unfold pb_receive, relevant; rewrite list_lookup_fmap, H; cbn [fmap option_fmap option_map fst snd].
  - case_decide as Hk.
    + rewrite filter_cons_True by (simpl; lia). done.
    + rewrite filter_cons_False by (simpl; lia). cbn. rewrite app_nil_r. by destruct q.
  - by rewrite filter_cons_True by done.
Qed.

Lemma pb_receive_ids m ps : (pb_receive m ps).*1 = ps.*1.
Proof.
  destruct m as [a o|p]; unfold pb_receive; rewrite <- list_fmap_compose; apply list_fmap_ext; intros i [k q] _; simpl; [|done].
  by case_decide.
Qed.

Lemma pinv_start es ids : pinv es ids (pstart es ids).
Proof.
  split; [by unfold pstart; cbn [pc_parts]; rewrite <- list_fmap_compose, list_fmap_id|].
  exists []. split; [done|]. intros i k q H. cbn [pstart pc_parts] in H. rewrite list_lookup_fmap in H.
  destruct (ids !! i); [|done]. injection H as <- <-. split; [done|]. by exists [].
Qed.

Lemma pinv_step es ids c c' : NoDup ids -> no_none es -> pinv es ids c -> pstep c c' -> pinv es ids c'.
Proof.
  intros Hnd Hnn (Hids & consumed & Hes & Hq) Hstep. unfold pinv.
  destruct Hstep as [m rest ps out|input ps out i k q q' o Hi Hd].
  - cbn [pc_parts pc_input pc_published] in *. split; [by rewrite pb_receive_ids|].
    exists (consumed ++ [m]). split; [by rewrite <- app_assoc|]. intros i k q' Hi.
    destruct (ps !! i) as [[k0 q]|] eqn:Hps.
    + rewrite (pb_receive_lookup m ps i k0 q Hps) in Hi. injection Hi as <- <-.
      destruct (Hq i k0 q Hps) as (Hst & pend & Hqe & Hin & Hpub). split; [done|].
      exists (pend ++ relevant k0 [m]). cbn [queue_]. rewrite Hqe, fmap_app. split; [done|]. split.
      { apply Forall_app. split; [done|]. apply Forall_forall. intros x Hx. apply list_elem_of_filter in Hx as [_ Hx].
        apply list_elem_of_singleton in Hx as ->. rewrite Hes. apply elem_of_app. right. by left. }
      by rewrite relevant_snoc, !fmap_app, app_assoc, Hpub.
    + apply lookup_ge_None_1 in Hps. apply lookup_lt_Some in Hi.
      assert (length (pb_receive m ps) = length ps) by (destruct m; apply length_fmap). lia.
  - cbn [pc_parts pc_input pc_published] in *.
    destruct (Hq i k q Hi) as (Hst & pend & Hqe & Hin & Hpub).
    assert (exists m pend', pend = m :: pend' /\ o = [queued m] /\ q' = mkQueue (entry_of <$> pend') false) as (m & pend' & -> & -> & ->).
    { destruct q as [qs st]. cbn [stopped_ queue_] in *. subst qs st. destruct pend as [|m pend']; [done|].
      exists m, pend'. split; [done|]. rewrite fmap_cons, dequeue_entry in Hd; [by injection Hd as <- <-|].
      intros p ->. apply Hnn. by apply Forall_cons in Hin as [? _]. }
    split.
    { rewrite list_fmap_insert. cbn [fst]. rewrite Hids. apply list_insert_id. by rewrite <- Hids, list_lookup_fmap, Hi. }
    exists consumed. split; [done|]. intros j k0 q0 Hj. apply list_lookup_insert_Some in Hj as [(-> & Hj & _)|[Hne Hj]].
    + injection Hj as <- <-. split; [done|]. exists pend'. split; [done|]. apply Forall_cons in Hin as [_ ?]. split; [done|].
      rewrite published_by_app, published_by_same, <- app_assoc. by rewrite fmap_cons in Hpub.
    + destruct (Hq j k0 q0 Hj) as (? & pend0 & ? & ? & Hpub0). split; [done|]. exists pend0. split; [done|]. split; [done|].
      rewrite published_by_app, published_by_other, app_nil_r; [done|].
      intros ->. apply Hne. eapply NoDup_lookup; [exact Hnd|rewrite <- Hids, list_lookup_fmap, Hi|rewrite <- Hids, list_lookup_fmap, Hj]; done.
Qed.

Lemma pinv_steps es ids c c' : NoDup ids -> no_none es -> pinv es ids c -> rtc pstep c c' -> pinv es ids c'.
Proof. intros ? ? H Hs. induction Hs as [c|c c1 c2 Hs _ IH]; [done|]. apply IH. by eapply pinv_step. Qed.

Lemma sum_list_with_insert {T} (f : T -> nat) (l : list T) i x y : l !! i = Some x ->
  (sum_list_with f (<[i:=y]> l) + f x = sum_list_with f l + f y)%nat.
Proof.
  revert i. induction l as [|z l IH]; intros [|i] H; try done.
  - injection H as ->. simpl. lia.
  - specialize (IH i H). simpl in *. lia.
Qed.

Lemma sum_list_with_fmap_le {T} (f : T -> nat) (g : T -> T) (l : list T) : (forall x, f (g x) <= S (f x))%nat ->
  (sum_list_with f (g <$> l) <= length l + sum_list_with f l)%nat.
Proof. intros H. induction l as [|x l IH]; [done|]. rewrite fmap_cons. simpl. specialize (H x). lia. Qed.

Lemma pstep_work es ids c c' : no_none es -> pinv es ids c -> pstep c c' -> (work c' < work c)%nat.
Proof.
  intros Hnn (_ & consumed & Hes & Hq) Hstep.
  destruct Hstep as [m rest ps out|input ps out i k q q' o Hi Hd]; unfold work; cbn [pc_input pc_parts].
  - assert (length (pb_receive m ps) = length ps) as -> by (destruct m; apply length_fmap).
    assert (sum_list_with (fun e => length (queue_ e.2)) (pb_receive m ps)
      <= length ps + sum_list_with (fun e => length (queue_ e.2)) ps)%nat; [|simpl; lia].
    destruct m as [a o|p]; unfold pb_receive; apply sum_list_with_fmap_le; intros [k q]; simpl.
    + case_decide; cbn; [rewrite length_app; simpl|]; lia.
    + rewrite length_app. simpl. lia.
  - rewrite length_insert. pose proof (sum_list_with_insert (fun e => length (queue_ e.2)) ps i (k, q) (k, q') Hi) as Hs.
    cbn [snd] in Hs.
    destruct (Hq i k q Hi) as (Hst & pend & Hqe & _). destruct q as [qs st]. cbn [stopped_ queue_] in *. subst st.
    destruct qs as [|e qs]; [done|]. unfold dequeueTuple, queue_pop in Hd. cbn in Hd.
    assert (q' = mkQueue qs false) as ->.
    { destruct e as [[p [a|]] o']; destruct p; by simplify_eq/=. }
    cbn [queue_ length] in Hs. lia.
Qed.

Lemma pstep_or_drained es ids c : no_none es -> pinv es ids c -> (exists c', pstep c c') \/ drained c.
Proof.
  intros Hnn (_ & consumed & Hes & Hq). destruct c as [[|m input] ps out]; [|left; eexists; constructor].
  destruct (decide (Forall (fun e => queue_ e.2 = []) ps)) as [|Hne]; [right; by split|left].
  assert (exists i k q, ps !! i = Some (k, q) /\ queue_ q <> []) as (i & k & q & Hi & Hqne).
  { apply not_Forall_Exists in Hne; [|apply _]. apply Exists_exists in Hne as ([k q] & Hin & Hx).
    apply list_elem_of_lookup in Hin as [i Hi]. by exists i, k, q. }
  destruct (Hq i k q Hi) as (Hst & pend & Hqe & Hin & _). destruct q as [qs st]. cbn [stopped_ queue_] in *. subst qs st.
  destruct pend as [|m pend]; [done|]. eexists. eapply pstep_dequeue; [exact Hi|]. apply dequeue_entry.
  intros p ->. apply Hnn. by apply Forall_cons in Hin as [? _].
Qed.
End partition.

(** ** Properties *)

(** C28: whatever the order in which the consumer threads run, every step brings
    the partitions closer to the end, no state with work left is stuck, and when
    it is done each registered partition has published exactly its elements (by
    the partition function) and every punctuation, in the order of the input; at
    any time it has published a prefix of that.  Elements of other partitions
    are dropped, and punctuations lose their data. *)
Theorem partition_delivers {A} (mFunc : A -> Z) (es : list (message A)) (ids : list Z) c :
  NoDup ids -> no_none es -> rtc (pstep mFunc) (pstart es ids) c ->
  (forall c', pstep mFunc c c' -> (work c' < work c)%nat) /\
  ((exists c', pstep mFunc c c') \/ drained c) /\
  (forall k, k ∈ ids -> published_by k (pc_published c) `prefix_of` (queued <$> relevant mFunc k es)) /\
  (drained c -> forall k, k ∈ ids -> published_by k (pc_published c) = queued <$> relevant mFunc k es).
Proof.
  intros Hnd Hnn Hr. assert (pinv mFunc es ids c) as Hinv by (eapply pinv_steps; [done..|apply pinv_start|done]).
  assert (forall k, k ∈ ids -> exists i q, pc_parts c !! i = Some (k, q)) as Hk.
  { intros k Hk. destruct Hinv as [Hids _]. rewrite <- Hids in Hk. apply list_elem_of_lookup in Hk as [i Hi].
    rewrite list_lookup_fmap in Hi. destruct (pc_parts c !! i) as [[k0 q]|] eqn:Hp; [|done]. injection Hi as ->. by exists i, q. }
  split_and!.
  - intros c' Hs. by eapply pstep_work.
  - by eapply pstep_or_drained.
  - intros k Hin. destruct (Hk k Hin) as (i & q & Hi). destruct Hinv as (_ & consumed & -> & Hq).
    destruct (Hq i k q Hi) as (_ & pend & _ & _ & Hpub).
    exists ((queued <$> pend) ++ (queued <$> relevant mFunc k (pc_input c))).
    unfold relevant in *. by rewrite filter_app, fmap_app, app_assoc, Hpub.
  - intros [Hinput Hempty] k Hin. destruct (Hk k Hin) as (i & q & Hi). destruct Hinv as (_ & consumed & -> & Hq).
    destruct (Hq i k q Hi) as (_ & pend & Hqe & _ & Hpub). rewrite Hinput, app_nil_r.
    assert (queue_ q = []) as H0 by (exact (proj1 (Forall_lookup _ _) Hempty i (k, q) Hi)).
    rewrite H0 in Hqe. destruct pend; [|done]. by rewrite app_nil_r in Hpub.
Qed.

Lemma partition_delivers_witness :
  let es := [MData 4 false; MData 7 false; MPunct (mkPunct TxCommit (Some 1))] in
  exists c, rtc (pstep (fun x => x mod 2)) (pstart es [0; 1]) c /\
    drained c /\ published_by 1 (pc_published c) = [MData 7 false; MPunct (mkPunct TxCommit None)].
Proof.
  set (es := [MData 4 false; MData 7 false; MPunct (mkPunct TxCommit (Some 1))]).
  assert (exists c, rtc (pstep (fun x => x mod 2)) (pstart es [0; 1]) c /\ drained c) as (c & Hr & Hd).
  { eexists. split.
    - do 3 (eapply rtc_l; [apply pstep_input|]). cbn -[Z.modulo].
      eapply rtc_l; [eapply (pstep_dequeue _ _ _ _ 1); reflexivity|].
      eapply rtc_l; [eapply (pstep_dequeue _ _ _ _ 1); reflexivity|].
      eapply rtc_l; [eapply (pstep_dequeue _ _ _ _ 0); reflexivity|].
      eapply rtc_l; [eapply (pstep_dequeue _ _ _ _ 0); reflexivity|]. apply rtc_refl.
    - split; [reflexivity|]. repeat constructor. }
  exists c. split; [exact Hr|]. split; [exact Hd|].
  apply (partition_delivers (fun x => x mod 2) es [0; 1] c).
  - apply NoDup_ListNoDup. repeat constructor; simpl; lia.
  - intros p Hp. repeat (apply elem_of_cons in Hp as [Hp|Hp]); try discriminate; [by injection Hp as ->|by apply not_elem_of_nil in Hp].
  - exact Hr.
  - exact Hd.
  - right. left.
Defined.

Section batching.
Context {A : Type} (can_alloc : Z -> bool).

(** what a batcher of size [n] has published and still holds *)
Definition batched (n : Z) (es : list (message A)) (b : Batcher A) (bs : list (message (list (option (A * bool))))) : Prop :=
  mBatchSize b = n /\ length (mBuf b) = Z.to_nat n /\ (mPos b < Z.to_nat n)%nat /\
  exists out held, run unbatcher_step bs tt = Ok (out, tt) /\
    pending b = Some <$> held /\ datas out ++ held = datas es /\ puncts out = puncts es.

Lemma batched_step n es b bs m : 0 < n -> n <> SIZE_MAX -> can_alloc n = true ->
  batched n es b bs ->
  exists o b', batcher_step can_alloc m b = Ok (o, b') /\ batched n (es ++ [m]) b' (bs ++ o).
Proof.
  intros Hn Hmax Ha (Hsz & Hlen & Hpos & out & held & Hrun & Hpend & Hd & Hp). 
  destruct b as [sz pos buf]. cbn [mBatchSize mBuf mPos pending] in *. subst sz.
  unfold pending in Hpend. cbn [mPos mBuf] in Hpend. destruct m as [a o|p]; unfold batcher_step; cbn [mBatchSize mBuf mPos].
  - assert (pos < length buf)%nat as Hlt by (by rewrite Hlen).
    rewrite (proj2 (Z.eqb_neq _ _) Hmax), set_at_lt by exact Hlt. run_step.
    assert (take (S pos) (<[pos:=Some (a, o)]> buf) = Some <$> (held ++ [(a, o)])) as Htake.
    { rewrite (take_S_r _ _ (Some (a, o))) by (rewrite list_lookup_insert_eq; [done|exact Hlt]).
      by rewrite take_insert_ge, Hpend, fmap_app by lia. }
    destruct (Z.eqb_spec (Z.of_nat (S pos)) n) as [Hfull|Hnot].
    + unfold publishBatch. cbn [mBatchSize mBuf]. rewrite Ha. run_step. do 2 eexists. split; [done|].
      unfold batched. cbn [mBatchSize mBuf mPos]. rewrite length_replicate. split_and!; [done..|lia|].
      exists (out ++ ((fun p => MData p.1 p.2) <$> held ++ [(a, o)])), []. split_and!.
      * eapply run_snoc; [done|]. unfold unbatcher_step.
        rewrite take_ge in Htake by (rewrite length_insert; lia). by rewrite Htake, unbatch_loop_Some.
      * done.
      * rewrite !datas_app, datas_data, app_nil_r, <- Hd, app_assoc. done.
      * by rewrite !puncts_app, puncts_data, app_nil_r, Hp, app_nil_r.
    + do 2 eexists. split; [done|]. unfold batched. cbn [mBatchSize mBuf mPos]. rewrite length_insert, app_nil_r.
      split_and!; [done..|lia|]. exists out, (held ++ [(a, o)]). split_and!; [done|exact Htake| |].
      * by rewrite datas_app, app_assoc, Hd.
      * by rewrite puncts_app, app_nil_r, Hp.
  - rewrite (proj2 (Z.eqb_neq _ _) Hmax). run_step. do 2 eexists. split; [done|]. unfold batched. cbn [mBatchSize mBuf mPos app].
    split_and!; [done..|]. exists (out ++ [MPunct p]), held. split_and!; [by eapply run_snoc|done| |].
    + by rewrite !datas_app, !app_nil_r.
    + by rewrite !puncts_app, Hp.
Qed.
End batching.

(** A batcher of a given size followed by an unbatcher publishes the elements
    with their flags, in order, except that the last incomplete batch is held
    back; a punctuation, [EndOfStream] too, neither flushes it nor waits for it.
    A batcher without a size is to publish a batch at each punctuation: the first
    one makes it fail, for any buffer that can exist. *)
Lemma batch_roundtrip {A} can_alloc n (es : list (message A)) :
  0 < n -> n <> SIZE_MAX -> can_alloc n = true -> can_alloc SIZE_MAX = false ->
  (exists bs b out held,
     run (batcher_step can_alloc) es (new_batcher n) = Ok (bs, b) /\
     run unbatcher_step bs tt = Ok (out, tt) /\
     pending b = Some <$> held /\ (length held < Z.to_nat n)%nat /\
     datas out ++ held = datas es /\ puncts out = puncts es) /\
  (forall p, run (batcher_step can_alloc) [MPunct p] (@new_batcher A SIZE_MAX) = Err (Throws "std::length_error")).
Proof.
  intros Hn Hmax Ha Hna. split.
  - destruct (run_invariant (batcher_step (A := A) can_alloc) (batched (A := A) n) (new_batcher n)) with (xs := es)
      as (bs & b & Hrun & Hsz & Hlen & Hpos & out & held & Hun & Hpend & Hd & Hp).
    + unfold batched, new_batcher. rewrite (proj2 (Z.eqb_neq _ _) Hmax). cbn [mBatchSize mBuf mPos].
      rewrite length_replicate. split_and!; [done..|lia|]. by exists [], [].
    + intros. by apply batched_step.
    + exists bs, b, out, held. split_and!; try done. apply (f_equal length) in Hpend.
      unfold pending in Hpend. rewrite length_take, length_fmap in Hpend. lia.
  - intros p. cbn [run]. unfold batcher_step, publishBatch. cbn [new_batcher mBatchSize]. by rewrite Z.eqb_refl, Hna.
Qed.

Lemma batch_roundtrip_witness :
  exists bs b out held,
    run (batcher_step (fun n => n <? 2^40)) [MData 1 false; MPunct (mkPunct EndOfStream None); MData 2 true; MData 3 false] (new_batcher 2) = Ok (bs, b) /\
    run unbatcher_step bs tt = Ok (out, tt) /\
    pending b = Some <$> held /\ (length held < 2)%nat /\
    datas out ++ held = [(1, false); (2, true); (3, false)] /\ puncts out = [mkPunct EndOfStream None].
Proof.
  apply (batch_roundtrip (fun n => n <? 2^40) 2 [MData 1 false; MPunct (mkPunct EndOfStream None); MData 2 true; MData 3 false]).
  - lia.
  - vm_compute. congruence.
  - reflexivity.
  - reflexivity.
Defined.
