(* ===== verification/Files.v ===== *)
(** * Files: reading and writing streams of text, tables as sources

    The three readers of [src/qop/TextFileSource.cpp], the writers
    [src/qop/FileWriter.hpp] and [src/qop/ConsoleWriter.hpp], the source of
    buffered tuples [src/qop/MemorySource.hpp], and the sources
    [src/qop/SelectFromTable.hpp] and [src/qop/SelectFromMVCCTable.hpp]. *)

From S2P Require Import Prelude StateContext Tables MVCC Stream Serialize Extract Operators.

(** ** The readers of TextFileSource *)

Section readers.
Context {B : Type} (produceTuple : list Z -> nat -> result (list B)) (maxTuples : nat).

Definition BUFFER_SIZE : nat := 16 * 1024.

(** [memchr(p, '\n', n)]: the distance *)
Fixpoint memchr_newline (l : list Z) : option nat :=
  match l with
  | [] => None
  | c :: l => if c =? NEWLINE then Some 0%nat else S <$> memchr_newline l
  end.

(** [memcpy(store + off, src, n)] *)
Definition memcpy_at (off : nat) (src store : list Z) : result (list Z) :=
  if (off + length src <=? length store)%nat then Ok (take off store ++ src ++ drop (off + length src) store)
  else Err OutOfBounds.

(** the variables of [readRawFile] *)
Record RawReader := mkRaw { r_store : list Z; r_start : nat; r_remaining : nat; r_ntuples : nat }.

(** the loop over the lines of a block: [p] is the rest of the block from
    position [pos] on; the flag says that [maxTuples] is reached.  Fuel: one unit
    per line. *)
Fixpoint raw_lines (fuel : nat) (p : list Z) (pos : nat) (s : RawReader) : result (list B * RawReader * bool) :=
  match fuel with
  | O => Err Waits
  | S fuel =>
      match memchr_newline p with
      | None => Ok ([], s, false)
      | Some k =>
          _ ← guard_else (k + 1 + r_start s <? MAX_TUPLE_SIZE)%nat AssertFailed;
          store ← memcpy_at (r_start s) (take (S k) p) (r_store s);
          store ← set_at store (k + r_start s) NUL;
          out ← produceTuple store (k + r_start s);
          let ntuples := S (r_ntuples s) in
          if (ntuples =? maxTuples)%nat then Ok (out, mkRaw store (r_start s) (r_remaining s) ntuples, true)
          else
            '(out', s, stop) ← raw_lines fuel (drop (S k) p) (pos + S k) (mkRaw store 0 (pos + S k) ntuples);
            Ok (out ++ out', s, stop)
      end
  end.

(** the loop over the blocks that [read] returns *)
Fixpoint raw_blocks (blocks : list (list Z)) (s : RawReader) : result (list B * nat) :=
  match blocks with
  | [] => Ok ([], r_ntuples s)
  | buf :: blocks =>
      if (length buf =? 0)%nat then Ok ([], r_ntuples s)
      else
        '(out, s, stop) ← raw_lines (S (length buf)) buf 0 s;
        if stop : bool then Ok (out, r_ntuples s)
        else
          s ← (if (r_remaining s <? length buf)%nat then
                 store ← memcpy_at 0 (drop (r_remaining s) buf) (r_store s);
                 Ok (mkRaw store (length buf - r_remaining s) (r_remaining s) (r_ntuples s))
               else Ok s);
          '(out', n) ← raw_blocks blocks s;
          Ok (out ++ out', n)
  end.

(** [store]: what the allocated memory holds *)
Definition readRawFile (blocks : list (list Z)) (store : list Z) : result (list B * nat) :=
  raw_blocks blocks (mkRaw store 0 0 0).

(** one way for [read] to deliver a file: [BUFFER_SIZE] bytes at a time, and the
    rest at last *)
Fixpoint blocks_of (fuel : nat) (file : list Z) : list (list Z) :=
  match fuel, file with
  | O, _ | _, [] => []
  | S fuel, _ => take BUFFER_SIZE file :: blocks_of fuel (drop BUFFER_SIZE file)
  end.

(** [getline(in, line)]: the line and the rest; fails at the end *)
Fixpoint until_newline (l : list Z) : list Z * list Z :=
  match l with
  | [] => ([], [])
  | c :: l => if c =? NEWLINE then ([], l) else let '(line, rest) := until_newline l in (c :: line, rest)
  end.
Definition getline (l : list Z) : option (list Z * list Z) := match l with [] => None | _ => Some (until_newline l) end.

(** [content]: what the decompressing stream delivers; without
    [COMPRESSED_FILE_SOURCE] the body is empty *)
Fixpoint compressed_lines (fuel : nat) (content : list Z) (ntuples : nat) : result (list B * nat) :=
  match fuel with
  | O => Err Waits
  | S fuel =>
      match getline content with
      | None => Ok ([], ntuples)
      | Some (line, rest) =>
          out ← produceTuple (line ++ [NUL]) (length line);
          let ntuples := S ntuples in
          if (ntuples =? maxTuples)%nat then Ok (out, ntuples)
          else '(out', n) ← compressed_lines fuel rest ntuples; Ok (out ++ out', n)
      end
  end.
Definition readCompressedFile (COMPRESSED_FILE_SOURCE : bool) (content : list Z) : result (list B * nat) :=
  if COMPRESSED_FILE_SOURCE then compressed_lines (S (length content)) content 0 else Ok ([], 0%nat).

(** [boost::algorithm::iends_with], letters compared in lower case *)
Definition to_lower (c : Z) : Z := if (65 <=? c) && (c <=? 90) then c + 32 else c.
Definition iends_with (s suffix : list Z) : bool :=
  bool_decide (to_lower <$> drop (length s - length suffix) s = to_lower <$> suffix).

(** [start]; [unpack] is the decompression of the filter *)
Definition source_start (COMPRESSED_FILE_SOURCE : bool) (unpack : list Z -> list Z) (producePunctuation : list B)
    (fileName file store : list Z) : result (list B * nat) :=
  '(out, n) ←
    (if iends_with fileName (chars ".gz") || iends_with fileName (chars ".bz2") then readCompressedFile COMPRESSED_FILE_SOURCE (unpack file)
     else readMemoryMappedFile produceTuple (S (length file)) maxTuples (mapped_file file) store 0);
  Ok (out ++ producePunctuation, n).
End readers.

(** ** The lines of a file *)

(** the complete lines, and what follows the last newline *)
Fixpoint split_lines (l : list Z) : list (list Z) * list Z :=
  match l with
  | [] => ([], [])
  | c :: l =>
      let '(ls, t) := split_lines l in
      if c =? NEWLINE then ([] :: ls, t)
      else match ls with [] => ([], c :: t) | x :: ls => ((c :: x) :: ls, t) end
  end.

Definition no_newline (l : list Z) : Prop := Forall (fun c => c <> NEWLINE) l.

Lemma split_line line rest : no_newline line ->
  split_lines (line ++ NEWLINE :: rest) = (line :: (split_lines rest).1, (split_lines rest).2).
Proof.
  induction 1 as [|c line Hc _ IH]; cbn.
  - by destruct (split_lines rest).
  - rewrite IH. by rewrite (proj2 (Z.eqb_neq _ _) Hc).
Qed.

Lemma split_rest t : no_newline t -> split_lines t = ([], t).
Proof. induction 1 as [|c t Hc _ IH]; [done|]. cbn. rewrite IH. by rewrite (proj2 (Z.eqb_neq _ _) Hc). Qed.

Lemma split_no_newline l : Forall no_newline (split_lines l).1 /\ no_newline (split_lines l).2.
Proof.
  induction l as [|c l [IH1 IH2]]; [by repeat constructor|]. cbn. destruct (split_lines l) as [ls t]. cbn in *.
  destruct (Z.eqb_spec c NEWLINE); [split; [by repeat constructor|done]|]. destruct ls as [|x ls]; cbn in *.
  - split; [constructor|by constructor].
  - apply Forall_cons in IH1 as [Hx Hls]. split; [|done]. constructor; [by constructor|done].
Qed.

Lemma memchr_split l : memchr_newline l = match (split_lines l).1 with [] => None | x :: _ => Some (length x) end.
Proof.
  induction l as [|c l IH]; [done|]. cbn. rewrite IH. destruct (split_lines l) as [ls t]. cbn.
  destruct (Z.eqb_spec c NEWLINE); [done|]. by destruct ls.
Qed.

(** the text is its lines *)
Lemma join_lines l : l = ((split_lines l).1 ≫= fun x => x ++ [NEWLINE]) ++ (split_lines l).2.
Proof.
  induction l as [|c l IH]; [done|]. cbn. destruct (split_lines l) as [ls t]. cbn in *.
  destruct (Z.eqb_spec c NEWLINE) as [->|]; [cbn; by rewrite <- IH|]. destruct ls as [|x ls]; cbn in *; by rewrite <- IH.
Qed.

Lemma split_app_rest a b : split_lines (a ++ b) =
  ((split_lines a).1 ++ (split_lines ((split_lines a).2 ++ b)).1, (split_lines ((split_lines a).2 ++ b)).2).
Proof.
  destruct (split_no_newline a) as [Hls Ht]. rewrite (join_lines a) at 1. rewrite <- app_assoc.
  set (t := (split_lines a).2 ++ b). clearbody t. induction Hls as [|x ls Hx _ IH]; cbn [mbind list_bind app].
  - by destruct (split_lines t).
  - rewrite <- !app_assoc. cbn [app]. rewrite split_line by done. change (foldr _ _ ls) with (ls ≫= (fun x : list Z => x ++ [NEWLINE])).
    by rewrite IH.
Qed.

(** the lines that a limit of [m] tuples leaves, [n] of them delivered already *)
Definition limited {A} (m n : nat) (ls : list A) : list A := if (m =? 0)%nat then ls else take (m - n) ls.

Definition short (x : list Z) : Prop := (length x + 1 < MAX_TUPLE_SIZE)%nat.
Definition text_of (lines : list (list Z)) : list Z := lines ≫= fun l => l ++ [NEWLINE].

Lemma limited_fmap {A A'} (f : A -> A') m n ls : limited m n (f <$> ls) = f <$> limited m n ls.
Proof. unfold limited. destruct (m =? 0)%nat; by rewrite ?fmap_take. Qed.

Lemma length_text_of lines : (length lines <= length (text_of lines))%nat.
Proof. unfold text_of. induction lines as [|l lines IH]; [done|]. rewrite bind_cons, !length_app. cbn [length]. lia. Qed.

Definition plain (l : list Z) : Prop := Forall (fun c => c <> NUL /\ c <> NEWLINE) l.

Lemma strchr_plain t rest : plain t -> strchr_newline (t ++ rest) = (n ← strchr_newline rest; Ok (option_map (fun k => length t + k)%nat n)).
Proof.
  induction 1 as [|c t [H0 H1] _ IH]; cbn; [by destruct (strchr_newline rest) as [[k|]|]|].
  rewrite (proj2 (Z.eqb_neq _ _) H0), (proj2 (Z.eqb_neq _ _) H1), IH. by destruct (strchr_newline rest) as [[k|]|].
Qed.

(** the reader of mapped files, up to its limit: what follows the last newline
    is not delivered *)
Lemma mapped_limited_rest {B} (produceTuple : list Z -> nat -> result (list B)) m (lines : list (list Z)) (outs : list (list B)) t store :
  Forall2 (fun line out => plain line /\ short line /\
    forall post, produceTuple (line ++ NUL :: post) (length line) = Ok out) lines outs ->
  plain t -> length store = MAX_TUPLE_SIZE ->
  let file := text_of lines ++ t in
  readMemoryMappedFile produceTuple (S (length file)) m (mapped_file file) store 0 =
    if (length file mod PAGE_SIZE =? 0)%nat && ((m =? 0)%nat || (length lines <? m)%nat) then Err OutOfBounds
    else Ok (concat (limited m 0 outs), length (limited m 0 lines)).
Proof.
  intros Hlines Ht Hstore file. unfold mapped_file. unfold file at 2. rewrite <- app_assoc.
  assert (strchr_newline (t ++ replicate ((PAGE_SIZE - length file mod PAGE_SIZE) mod PAGE_SIZE) NUL) =
    if (length file mod PAGE_SIZE =? 0)%nat then Err OutOfBounds else Ok None) as Htail.
  { rewrite strchr_plain, strchr_tail by done. by destruct (_ =? 0)%nat. }
  unfold text_of at 1. assert (length lines <= length file)%nat as Hlen.
  { unfold file. rewrite length_app. pose proof (length_text_of lines). lia. }
  pose proof (Forall2_length _ _ _ Hlines) as Hl2.
  rewrite (readMemoryMappedFile_lines produceTuple MAX_TUPLE_SIZE lines outs _ _ _ _ _ _ Htail); [| | |lia|done|lia].
  - unfold limited. destruct (Nat.eqb_spec m 0) as [Hm|Hm]; cbn [negb andb orb]; [by destruct (_ =? 0)%nat|]. rewrite Nat.sub_0_r.
    destruct (Nat.leb_spec m (0 + length lines)) as [Hle|Hgt].
    + rewrite (proj2 (Nat.ltb_ge _ _)), andb_false_r by (cbn in Hle; lia). rewrite length_take. do 2 f_equal. cbn in Hle. lia.
    + rewrite (proj2 (Nat.ltb_lt _ _)), andb_true_r by (cbn in Hgt; lia). destruct (_ =? 0)%nat; [done|]. cbn in Hgt.
      by rewrite !take_ge by lia.
  - intros k. by destruct (_ =? 0)%nat.
  - eapply Forall2_impl; [exact Hlines|]. unfold short. intros l out (Hl & Hs & Hp). split; [done|]. split; [lia|done].
Qed.

Lemma mapped_limited {B} (produceTuple : list Z -> nat -> result (list B)) m (lines : list (list Z)) (outs : list (list B)) store :
  Forall2 (fun line out => plain line /\ short line /\
    forall post, produceTuple (line ++ NUL :: post) (length line) = Ok out) lines outs ->
  length store = MAX_TUPLE_SIZE ->
  readMemoryMappedFile produceTuple (S (length (text_of lines))) m (mapped_file (text_of lines)) store 0 =
    if (length (text_of lines) mod PAGE_SIZE =? 0)%nat && ((m =? 0)%nat || (length lines <? m)%nat) then Err OutOfBounds
    else Ok (concat (limited m 0 outs), length (limited m 0 lines)).
Proof.
  intros Hlines Hstore. pose proof (mapped_limited_rest produceTuple m lines outs [] store Hlines ltac:(constructor) Hstore) as H.
  cbv zeta in H. by rewrite app_nil_r in H.
Qed.

Section reader_spec.
Context {B : Type} (produceTuple : list Z -> nat -> result (list B)) (g : list Z -> list B) (maxTuples : nat).
(** the subscribers look at the line only *)
Context (producing : forall line post, produceTuple (line ++ NUL :: post) (length line) = Ok (g line)).

Definition room (n : nat) : Prop := maxTuples = 0%nat \/ (n < maxTuples)%nat.

(** a reader between two lines: [c] is the beginning of the next line *)
Record carries (c : list Z) (s : RawReader) : Prop := {
  ca_start : r_start s = length c;
  ca_store : exists post, r_store s = c ++ post;
  ca_length : length (r_store s) = MAX_TUPLE_SIZE;
  ca_room : room (r_ntuples s);
}.

Lemma store_line c x post : length (c ++ post) = MAX_TUPLE_SIZE -> (length c + length x + 1 < MAX_TUPLE_SIZE)%nat -> exists store post',
  memcpy_at (length c) (x ++ [NEWLINE]) (c ++ post) = Ok store /\ set_at store (length x + length c) NUL = Ok ((c ++ x) ++ NUL :: post') /\
  length ((c ++ x) ++ NUL :: post') = MAX_TUPLE_SIZE.
Proof.
  intros Hlen Hfit. rewrite length_app in Hlen. unfold memcpy_at. rewrite !length_app. cbn [length].
  rewrite (proj2 (Nat.leb_le _ _)) by lia. rewrite take_app_length, drop_app_ge by lia.
  replace (length c + (length x + 1) - length c)%nat with (length x + 1)%nat by lia.
  eexists _, (drop (length x + 1) post). split; [done|]. split.
  - rewrite set_at_lt by (rewrite !length_app; cbn; lia). f_equal. rewrite <- !app_assoc. cbn [app].
    rewrite insert_app_r_alt by lia. replace (length x + length c - length c)%nat with (length x + 0)%nat by lia. by rewrite insert_app_r.
  - rewrite !length_app. cbn [length]. rewrite length_drop. lia.
Qed.

Lemma newline_cases p : (memchr_newline p = None /\ no_newline p) \/
  exists x p', p = x ++ NEWLINE :: p' /\ no_newline x /\ memchr_newline p = Some (length x).
Proof.
  pose proof (join_lines p) as Hp. rewrite memchr_split. destruct (split_no_newline p) as [H1 H2].
  destruct (split_lines p) as [[|x ls] t]; cbn in *; [left; by subst|].
  right. apply Forall_cons in H1 as [Hx _]. exists x, ((ls ≫= fun x => x ++ [NEWLINE]) ++ t). rewrite Hp at 1.
  split; [|done]. by rewrite <- !app_assoc.
Qed.

Definition short_lines (l : list Z) : Prop := Forall short (split_lines l).1 /\ short (split_lines l).2.

(** the output for some lines, and whether the limit is reached with them *)
Definition delivered_lines (n : nat) (ls : list (list Z)) : list B := concat (g <$> limited maxTuples n ls).
Definition reached (n : nat) (ls : list (list Z)) : bool := negb (maxTuples =? 0)%nat && (maxTuples <=? n + length ls)%nat.

Lemma delivered_cons n x ls : room n -> delivered_lines n (x :: ls) =
  g x ++ if (S n =? maxTuples)%nat then [] else delivered_lines (S n) ls.
Proof.
  intros [Hr|Hr]; unfold delivered_lines, limited.
  - rewrite Hr. done.
  - rewrite (proj2 (Nat.eqb_neq maxTuples 0)) by lia.
    replace (maxTuples - n)%nat with (S (maxTuples - S n)) by lia. cbn [take]. rewrite fmap_cons. cbn [concat].
    destruct (Nat.eqb_spec (S n) maxTuples) as [Hm|]; [|done]. by replace (maxTuples - S n)%nat with 0%nat by lia.
Qed.

Lemma room_next n : room n -> S n <> maxTuples -> room (S n).
Proof. intros [?|?] ?; [by left|right; lia]. Qed.

Lemma raw_lines_ok fuel p pos s c : carries c s -> no_newline c -> (length p < fuel)%nat -> short_lines (c ++ p) ->
  let '(ls, t) := split_lines (c ++ p) in
  exists s', raw_lines produceTuple maxTuples fuel p pos s = Ok (delivered_lines (r_ntuples s) ls, s', reached (r_ntuples s) ls) /\
    r_ntuples s' = (r_ntuples s + length (limited maxTuples (r_ntuples s) ls))%nat /\
    (reached (r_ntuples s) ls = false -> ls = [] /\ s' = s \/
       carries [] s' /\ (pos <= r_remaining s' <= pos + length p)%nat /\ drop (r_remaining s' - pos) p = t).
Proof.
  revert p pos s c. induction fuel as [|fuel IH]; intros p pos s c Hc Hnc Hf [Hls Ht]; [lia|]. cbn [raw_lines].
  destruct (newline_cases p) as [[-> Hp]|(x & p' & -> & Hx & ->)].
  - rewrite split_rest in * by by apply Forall_app. exists s. unfold delivered_lines, reached, limited.
    assert (maxTuples = 0%nat \/ (r_ntuples s < maxTuples)%nat) as [->|Hr] by apply Hc.
    + cbn. rewrite Nat.add_0_r. split; [done|]. split; [done|]. by left.
    + rewrite (proj2 (Nat.eqb_neq maxTuples 0)), take_nil by lia. cbn. rewrite Nat.add_0_r, (proj2 (Nat.leb_gt _ _)) by lia.
      split; [done|]. split; [done|]. by left.
  - rewrite app_assoc, split_line in * by by apply Forall_app. destruct (split_lines p') as [ls t] eqn:Hsplit. cbn [fst snd] in *.
    apply Forall_cons in Hls as [Hcx Hls]. unfold short in Hcx. rewrite length_app in Hcx.
    destruct Hc as [Hstart [post Hstore] Hlen Hroom]. rewrite Hstart. unfold guard_else at 1. rewrite (proj2 (Nat.ltb_lt _ _)) by lia. run_step.
    assert (take (S (length x)) (x ++ NEWLINE :: p') = x ++ [NEWLINE]) as ->.
    { change (x ++ NEWLINE :: p') with (x ++ [NEWLINE] ++ p'). rewrite app_assoc, take_app_length'; [done|]. rewrite length_app. cbn. lia. }
    assert (drop (S (length x)) (x ++ NEWLINE :: p') = p') as Hdrop.
    { change (x ++ NEWLINE :: p') with (x ++ [NEWLINE] ++ p'). rewrite app_assoc, drop_app_length'; [done|]. rewrite length_app. cbn. lia. }
    rewrite Hdrop. rewrite Hstore in Hlen |- *. destruct (store_line c x post Hlen ltac:(lia)) as (store & post' & -> & Hset & Hlen'). run_step.
    rewrite Hset. run_step. rewrite (Nat.add_comm (length x)), <- (length_app c x), producing. run_step.
    rewrite delivered_cons by done. destruct (Nat.eqb_spec (S (r_ntuples s)) maxTuples) as [Hm|Hm].
    + eexists. assert (reached (r_ntuples s) ((c ++ x) :: ls) = true) as ->.
      { unfold reached. rewrite (proj2 (Nat.eqb_neq maxTuples 0)), (proj2 (Nat.leb_le _ _)) by (cbn [length]; lia). done. }
      rewrite app_nil_r. split; [done|]. split; [|done]. cbn. unfold limited. rewrite (proj2 (Nat.eqb_neq maxTuples 0)) by lia.
      rewrite length_take. cbn [length]. lia.
    + set (s1 := mkRaw _ 0 (pos + S (length x)) (S (r_ntuples s))).
      assert (carries [] s1) as Hc1 by (split; [done|by eexists|done|by apply room_next]).
      assert (reached (r_ntuples s) ((c ++ x) :: ls) = reached (S (r_ntuples s)) ls) as ->.
      { unfold reached. cbn [length]. by rewrite Nat.add_succ_r. }
      rewrite !length_app in Hf. cbn [length] in Hf.
      specialize (IH p' (pos + S (length x))%nat s1 [] Hc1 ltac:(constructor) ltac:(lia)). cbn [app] in IH. unfold short_lines in IH. rewrite Hsplit in IH.
      destruct (IH (conj Hls Ht)) as (s' & Hrun & Hn & Hend). rewrite Hrun. run_step. exists s'. split; [done|]. split.
      * rewrite Hn. cbn [r_ntuples s1]. unfold limited. destruct (Nat.eqb_spec maxTuples 0); [cbn; lia|]. destruct Hroom as [|Hr]; [done|].
        replace (maxTuples - r_ntuples s)%nat with (S (maxTuples - S (r_ntuples s))) by lia. cbn. lia.
      * intros Hre. right. specialize (Hend Hre). rewrite !length_app. cbn [length].
        destruct Hend as [[-> ->]|(Hc' & Hrem & Hd)].
        -- assert (p' = t) as <- by (rewrite (join_lines p'), Hsplit; done). cbn [r_remaining s1]. split; [done|]. split; [lia|].
           replace (pos + S (length x) - pos)%nat with (S (length x)) by lia. exact Hdrop.
        -- split; [done|]. split; [lia|]. rewrite <- Hd. rewrite <- Hdrop at 2. rewrite drop_drop. f_equal. lia.
Qed.

Lemma delivered_app n ls ls' : reached n ls = false -> delivered_lines n (ls ++ ls') = delivered_lines n ls ++ delivered_lines (n + length ls) ls'.
Proof.
  unfold delivered_lines, reached, limited. destruct (Nat.eqb_spec maxTuples 0) as [|Hm]; [by rewrite fmap_app, concat_app|].
  cbn [negb andb]. intros Hr%Nat.leb_gt. rewrite take_app_ge, (take_ge ls) by lia. rewrite fmap_app, concat_app. do 4 f_equal. lia.
Qed.

Lemma delivered_all n ls ls' : reached n ls = true -> delivered_lines n (ls ++ ls') = delivered_lines n ls.
Proof.
  unfold delivered_lines, reached, limited. destruct (Nat.eqb_spec maxTuples 0) as [|Hm]; [done|].
  cbn [negb andb]. intros Hr%Nat.leb_le. by rewrite take_app_le by lia.
Qed.

Lemma counted_app n ls ls' : length (limited maxTuples n (ls ++ ls')) =
  if reached n ls then length (limited maxTuples n ls) else (length ls + length (limited maxTuples (n + length ls) ls'))%nat.
Proof.
  unfold reached, limited. destruct (Nat.eqb_spec maxTuples 0) as [|Hm]; cbn [negb andb]; [by rewrite length_app|].
  rewrite !length_take, length_app. destruct (Nat.leb_spec maxTuples (n + length ls)); lia.
Qed.

Lemma limited_all n ls : reached n ls = false -> length (limited maxTuples n ls) = length ls.
Proof.
  unfold reached, limited. destruct (Nat.eqb_spec maxTuples 0) as [|Hm]; [done|]. cbn [negb andb]. intros Hr%Nat.leb_gt.
  rewrite length_take. lia.
Qed.

Lemma limited_nil n : length (limited maxTuples n ([] : list (list Z))) = 0%nat.
Proof. unfold limited. destruct (maxTuples =? 0)%nat; by rewrite ?take_nil. Qed.

Lemma delivered_nil n : delivered_lines n [] = [].
Proof. unfold delivered_lines, limited. destruct (maxTuples =? 0)%nat; by rewrite ?take_nil. Qed.

(** every block but the last holds a newline *)
Fixpoint readable (blocks : list (list Z)) : Prop :=
  match blocks with
  | [] => True
  | b :: rest => b <> [] /\ (rest = [] \/ ~ no_newline b) /\ readable rest
  end.

(** the beginning of a line is as short as the line *)
Lemma short_app a b : no_newline a -> short_lines (a ++ b) -> short a.
Proof.
  intros Ha [Hls Ht]. unfold short in *. destruct (newline_cases b) as [[_ Hb]|(x & b' & -> & Hx & _)].
  - rewrite split_rest in Ht by by apply Forall_app. cbn in Ht. rewrite length_app in Ht. lia.
  - rewrite app_assoc, split_line in Hls by by apply Forall_app. apply Forall_cons in Hls as [Hls _].
    rewrite length_app in Hls. lia.
Qed.

(** what follows the last newline of a block is kept in front of the store *)
Lemma keep_rest (b : list Z) s : length (r_store s) = MAX_TUPLE_SIZE -> (length (drop (r_remaining s) b) <= MAX_TUPLE_SIZE)%nat ->
  exists s', (if (r_remaining s <? length b)%nat then
                store ← memcpy_at 0 (drop (r_remaining s) b) (r_store s);
                Ok (mkRaw store (length b - r_remaining s) (r_remaining s) (r_ntuples s))
              else Ok s) = Ok s' /\ r_ntuples s' = r_ntuples s /\
    (carries [] s -> (r_remaining s <= length b)%nat -> carries (drop (r_remaining s) b) s').
Proof.
  intros Hlen Hfit. destruct (Nat.ltb_spec (r_remaining s) (length b)) as [Hlt|Hge].
  - unfold memcpy_at. rewrite (proj2 (Nat.leb_le _ _)) by lia. run_step. eexists. split; [done|]. split; [done|].
    intros [_ _ _ Hroom] _. split; cbn [r_start r_store r_ntuples take app].
    + by rewrite length_drop.
    + by eexists.
    + rewrite length_drop in Hfit. rewrite !length_app, !length_drop, length_take. lia.
    + done.
  - exists s. split; [done|]. split; [done|]. intros Hc Hle. by rewrite drop_ge by lia.
Qed.

Lemma raw_blocks_ok blocks s c : carries c s -> no_newline c -> readable blocks -> short_lines (c ++ concat blocks) ->
  let ls := (split_lines (c ++ concat blocks)).1 in
  raw_blocks produceTuple maxTuples blocks s =
    Ok (delivered_lines (r_ntuples s) ls, (r_ntuples s + length (limited maxTuples (r_ntuples s) ls))%nat).
Proof.
  revert s c. induction blocks as [|b blocks IH]; intros s c Hc Hnc Hb Hs ls; subst ls; cbn [concat raw_blocks].
  - cbn [concat]. rewrite app_nil_r, split_rest by done. cbn [fst]. by rewrite limited_nil, delivered_nil, Nat.add_0_r.
  - destruct Hb as (Hne & Hnl & Hb). rewrite (proj2 (Nat.eqb_neq (length b) 0)) by by destruct b.
    cbn [concat] in Hs. rewrite app_assoc in *. destruct Hs as [Hs1 Hs2]. rewrite split_app_rest in *. cbn [fst snd] in *.
    apply Forall_app in Hs1 as [Hs1 Hs3]. pose proof (split_no_newline (c ++ b)) as [_ Hrest].
    pose proof (raw_lines_ok (S (length b)) b 0 s c Hc Hnc ltac:(lia)) as Hlines. unfold short_lines in Hlines.
    destruct (split_lines (c ++ b)) as [ls t] eqn:Hsplit. cbn [fst snd] in *.
    destruct Hlines as (s' & -> & Hn & Hend); [split; [done|]; by apply (short_app t (concat blocks))|]. run_step.
    rewrite counted_app. destruct (reached (r_ntuples s) ls) eqn:Hre.
    + rewrite Hn, delivered_all by done. done.
    + specialize (Hend eq_refl). rewrite delivered_app, limited_all in * by done.
      assert (short t) as Hst by (by apply (short_app t (concat blocks))). unfold short in Hst.
      destruct (decide (ls = [])) as [->|Hls].
      * destruct Hnl as [->|Hnl].
        -- cbn [concat] in *. rewrite app_nil_r, split_rest by done.
           assert (t = c ++ b) as -> by by rewrite (join_lines (c ++ b)), Hsplit.
           rewrite length_app in Hst. destruct (keep_rest b s') as (s2 & -> & Hn2 & _); [by destruct Hend as [[_ ->]|[Hc' _]]; [apply Hc|apply Hc']|rewrite length_drop; lia|].
           run_step. cbn [concat raw_blocks]. run_step. cbn [fst]. by rewrite Hn2, Hn, !limited_nil, !delivered_nil.
        -- exfalso. apply Hnl. assert (t = c ++ b) as -> by by rewrite (join_lines (c ++ b)), Hsplit.
           by apply Forall_app in Hrest as [_ ?].
      * destruct Hend as [[]|(Hc' & Hrem & Hd)]; [done|].
        rewrite Nat.sub_0_r in Hd. destruct (keep_rest b s') as (s2 & -> & Hn2 & Hk); [apply Hc'|rewrite Hd; lia|]. run_step.
        rewrite Hd in Hk. specialize (Hk Hc' ltac:(lia)). rewrite (IH s2 t Hk Hrest Hb); [|by split]. run_step.
        by rewrite Hn2, Hn, Nat.add_assoc.
Qed.

(** a stretch of a file without a newline is part of one line *)
Lemma short_infix a b c : no_newline b -> short_lines (a ++ b ++ c) -> short b.
Proof.
  intros Hb [Hls Ht]. rewrite split_app_rest in Hls, Ht. cbn [fst snd] in *. pose proof (split_no_newline a) as [_ Hn].
  destruct (split_lines a) as [ls t]. cbn [fst snd] in *. apply Forall_app in Hls as [_ Hls]. rewrite app_assoc in *.
  assert (short (t ++ b)) as Hs by (apply (short_app (t ++ b) c); [by apply Forall_app|by split]).
  unfold short in *. rewrite length_app in Hs. lia.
Qed.

Lemma blocks_of_ok fuel pre file : (length file < fuel)%nat -> short_lines (pre ++ file) ->
  readable (blocks_of fuel file) /\ concat (blocks_of fuel file) = file.
Proof.
  revert pre file. induction fuel as [|fuel IH]; intros pre file Hf Hs; [lia|]. destruct file as [|x file]; [done|].
  cbn [blocks_of readable concat]. set (f := x :: file) in *.
  assert (f = take BUFFER_SIZE f ++ drop BUFFER_SIZE f) as Hcut by by rewrite take_drop.
  assert (0 < BUFFER_SIZE)%nat as Hpos by (apply Nat.ltb_lt; by vm_compute).
  assert (length (drop BUFFER_SIZE f) < fuel)%nat as Hf' by (rewrite length_drop; subst f; cbn [length] in *; lia).
  destruct (IH (pre ++ take BUFFER_SIZE f) (drop BUFFER_SIZE f) Hf') as [Hr Hc]; [by rewrite <- app_assoc, take_drop|].
  rewrite Hc, take_drop. split_and!; [|..|done|done].
  - subst f. by destruct BUFFER_SIZE; [lia|].
  - destruct (decide (length f <= BUFFER_SIZE)%nat) as [Hle|Hgt].
    + left. rewrite drop_ge by done. by destruct fuel.
    + right. intros Hn. rewrite Hcut in Hs. apply (short_infix pre _ _ Hn) in Hs. unfold short in Hs. rewrite length_take in Hs.
      assert (MAX_TUPLE_SIZE < BUFFER_SIZE)%nat by (apply Nat.ltb_lt; by vm_compute). lia.
Qed.

Lemma split_text lines t : Forall no_newline lines -> no_newline t -> split_lines (text_of lines ++ t) = (lines, t).
Proof.
  intros Hl Ht. induction Hl as [|l lines Hl _ IH]; [by apply split_rest|].
  unfold text_of in *. rewrite bind_cons, <- !app_assoc. cbn [app]. rewrite split_line by done. by rewrite IH.
Qed.

(** whatever [read] returns at a time, when every block but the last holds a
    newline *)
Lemma raw_reader (file store : list Z) blocks : concat blocks = file -> readable blocks -> short_lines file -> length store = MAX_TUPLE_SIZE ->
  readRawFile produceTuple maxTuples blocks store =
    Ok (delivered_lines 0 (split_lines file).1, length (limited maxTuples 0 (split_lines file).1)).
Proof.
  intros <- Hr Hs Hlen. unfold readRawFile. rewrite (raw_blocks_ok _ _ []); [done| |constructor|done|done].
  split; [done|by eexists|done|]. unfold room. cbn [r_ntuples]. lia.
Qed.

Lemma until_newline_line line rest : no_newline line -> until_newline (line ++ NEWLINE :: rest) = (line, rest).
Proof. induction 1 as [|c line Hc _ IH]; [done|]. cbn. by rewrite (proj2 (Z.eqb_neq _ _) Hc), IH. Qed.

Lemma until_newline_rest t : no_newline t -> until_newline t = (t, []).
Proof. induction 1 as [|c t Hc _ IH]; [done|]. cbn. by rewrite (proj2 (Z.eqb_neq _ _) Hc), IH. Qed.

(** [getline] also delivers what follows the last newline *)
Definition getlines (lines : list (list Z)) (t : list Z) : list (list Z) := lines ++ match t with [] => [] | _ => [t] end.

Lemma counted_cons n (x : list Z) ls : room n -> length (limited maxTuples n (x :: ls)) =
  if (S n =? maxTuples)%nat then 1%nat else S (length (limited maxTuples (S n) ls)).
Proof.
  intros [Hr|Hr]; unfold limited; [by rewrite Hr|]. rewrite (proj2 (Nat.eqb_neq maxTuples 0)) by lia.
  rewrite !length_take. cbn [length]. destruct (Nat.eqb_spec (S n) maxTuples); lia.
Qed.

Lemma compressed_ok lines t fuel n : Forall no_newline lines -> no_newline t -> (length lines + length t < fuel)%nat -> room n ->
  compressed_lines produceTuple maxTuples fuel (text_of lines ++ t) n =
    Ok (delivered_lines n (getlines lines t), (n + length (limited maxTuples n (getlines lines t)))%nat).
Proof.
  intros Hl Ht. revert fuel n. assert (forall x : list Z, produceTuple (x ++ [NUL]) (length x) = Ok (g x)) as Hp by (intros x; apply producing).
  induction Hl as [|l lines Hl _ IH]; intros [|fuel] n Hf Hr; cbn [length] in Hf; try lia.
  - cbn [text_of mbind list_bind app]. cbn [compressed_lines]. unfold getlines. destruct t as [|c t]; cbn [app getline].
    + by rewrite limited_nil, delivered_nil, Nat.add_0_r.
    + rewrite until_newline_rest, Hp by done. run_step. rewrite counted_cons, delivered_cons by done.
      destruct (S n =? maxTuples)%nat eqn:Hm; [by rewrite app_nil_r, Nat.add_1_r|].
      destruct fuel; [cbn in Hf; lia|]. cbn [compressed_lines getline]. run_step. rewrite limited_nil, delivered_nil. do 2 f_equal. lia.
  - unfold text_of, getlines in *. rewrite bind_cons, <- !app_assoc. cbn [app compressed_lines].
    assert (getline (l ++ NEWLINE :: (lines ≫= (fun l => l ++ [NEWLINE])) ++ t) = Some (l, (lines ≫= (fun l => l ++ [NEWLINE])) ++ t)) as ->.
    { unfold getline. rewrite until_newline_line by done. by destruct l. }
    rewrite Hp. run_step. rewrite counted_cons, delivered_cons by done. destruct (S n =? maxTuples)%nat eqn:Hm; [by rewrite app_nil_r, Nat.add_1_r|].
    rewrite IH by (lia || by apply room_next, Nat.eqb_neq). run_step. do 2 f_equal. lia.
Qed.

(** C34: the readers of a text source deliver the lines of the file in order, up
    to the limit, whatever the subscribers make of a line.  For lines without
    NUL and shorter than [MAX_TUPLE_SIZE] - 1: [readRawFile] does so however
    [read] cuts the file, if every block but the last has a newline; that is so
    when [read] fills its 16 KiB buffer until the end (shorter blocks can lose
    text: [short_reads_lose_text]).  [readMemoryMappedFile] does so unless the
    file fills its last page and the limit is not reached: then nothing ends
    the search for the next newline.  Both drop an unterminated last line;
    [readCompressedFile] delivers it.  On a file that ends with a newline the
    three agree. *)
Theorem readers_agree (lines : list (list Z)) (t : list Z) (store : list Z)
  (Hlines : Forall (fun l => plain l /\ short l) lines) (Ht : plain t /\ short t) (Hstore : length store = MAX_TUPLE_SIZE) :
  let file := text_of lines ++ t in
  let all := Ok (concat (g <$> limited maxTuples 0 lines), length (limited maxTuples 0 lines)) in
  (forall blocks, concat blocks = file -> readable blocks -> readRawFile produceTuple maxTuples blocks store = all) /\
  (readable (blocks_of (S (length file)) file) /\ concat (blocks_of (S (length file)) file) = file) /\
  (readMemoryMappedFile produceTuple (S (length file)) maxTuples (mapped_file file) store 0 =
    if (length file mod PAGE_SIZE =? 0)%nat && ((maxTuples =? 0)%nat || (length lines <? maxTuples)%nat) then Err OutOfBounds else all) /\
  let lines' := getlines lines t in
  readCompressedFile produceTuple maxTuples true file = Ok (concat (g <$> limited maxTuples 0 lines'), length (limited maxTuples 0 lines')).
Proof using producing.
  intros file all. assert (forall l, plain l -> no_newline l) as Hpl by (intros l Hl; eapply Forall_impl; [exact Hl|]; by intros c []).
  assert (Forall no_newline lines) as Hnl by (eapply Forall_impl; [exact Hlines|]; intros l [Hl _]; by apply Hpl).
  assert (no_newline t) as Htn by apply Hpl, Ht.
  assert (split_lines file = (lines, t)) as Hsplit by by apply split_text.
  assert (short_lines file) as Hsl.
  { unfold short_lines. rewrite Hsplit. split; [|apply Ht]. eapply Forall_impl; [exact Hlines|]. by intros l []. }
  pose proof (length_text_of lines) as Hlen.
  split_and!.
  - intros blocks Hc Hr. rewrite (raw_reader file); [by rewrite Hsplit|done..].
  - by apply (blocks_of_ok _ []); [lia|].
  - by apply (blocks_of_ok _ []); [lia|].
  - subst file all. rewrite (mapped_limited_rest _ _ lines (g <$> lines)); [by rewrite limited_fmap| |apply Ht|done].
    rewrite Forall2_fmap_r. apply Forall_Forall2_diag. eapply Forall_impl; [exact Hlines|]. intros l [Hl Hs].
    split; [done|]. split; [exact Hs|]. intros post. apply producing.
  - unfold readCompressedFile. subst file. rewrite compressed_ok; [done|done|done|rewrite length_app; lia|unfold room; lia].
Qed.
End reader_spec.

(** a block without a newline that is not the last, from a pipe say: the text
    before it and its own are lost or overwritten *)
Lemma short_reads_lose_text :
  readRawFile (fun mem n => Ok [take n mem]) 0 [chars "a" ++ [NEWLINE] ++ chars "b"; chars "cd"; chars "e" ++ [NEWLINE]] (replicate MAX_TUPLE_SIZE 0) =
    Ok ([chars "a"; chars "be"], 2%nat).
Proof. vm_compute. reflexivity. Qed.

(** a compressed file delivers nothing when the library is built without
    compression *)
Lemma compressed_without_support {B} (produceTuple : list Z -> nat -> result (list B)) limit unpack punct name file store :
  iends_with name (chars ".gz") = true -> source_start produceTuple limit false unpack punct name file store = Ok (punct, 0%nat).
Proof. intros Hn. unfold source_start. by rewrite Hn. Qed.

(** ** FileWriter and ConsoleWriter

    The text that has gone to the stream; [std::endl] ends a line. *)
Section writer.
Context {A : Type} (mFormatterFunc : A -> list Z).

(** retractions and punctuations are not written *)
Definition writer_processDataElement (data : A) (outdated : bool) (mStream : list Z) : list Z :=
  if negb outdated then mStream ++ mFormatterFunc data else mStream.
Definition writer_processPunctuation (p : punctuation) (mStream : list Z) : list Z := mStream.

Definition writer_step (m : message A) (mStream : list Z) : list Z :=
  match m with
  | MData data outdated => writer_processDataElement data outdated mStream
  | MPunct p => writer_processPunctuation p mStream
  end.

Lemma writer_run ms mStream : fold_left (fun s m => writer_step m s) ms mStream =
  mStream ++ (omap (fun m => match m with MData d false => Some d | _ => None end) ms ≫= mFormatterFunc).
Proof.
  revert mStream. induction ms as [|m ms IH]; intros mStream; cbn [fold_left]; [by rewrite app_nil_r|].
  rewrite IH. destruct m as [d [|]|p]; try done. cbn [omap list_omap]. rewrite bind_cons. cbn. by rewrite <- app_assoc.
Qed.
End writer.

(** [os << streamElement << std::endl] *)
Definition defaultFormatter (ts : tys) (tp : Tuple ts) : list Z := print ts (tdata tp) ++ [NEWLINE].

(** ** MemorySource *)
Section memory_source.
Context `{P : Parsers} (ts : tys) (delim : Z) (limit : nat).

(** [prepare]: the file through the extractor; the notifier keeps the tuples
    (what it passes on has no subscriber) *)
Definition notify_keep (e : event (Tuple ts)) (data : list (Tuple ts)) : list (Tuple ts) :=
  match e with Data tp _ => data ++ [tp] | Punct _ => data end.

Definition memory_prepare (COMPRESSED_FILE_SOURCE : bool) (unpack : list Z -> list Z) (fileName file store : list Z) (data : list (Tuple ts)) : result (nat * list (Tuple ts)) :=
  '(out, n) ← source_start (fun mem _ => te_processDataElement ts delim mem 0 false) limit COMPRESSED_FILE_SOURCE unpack [Punct EndOfStream] fileName file store;
  Ok (n, fold_left (fun d e => notify_keep e d) out data).

Definition memory_start (data : list (Tuple ts)) : list (event (Tuple ts)) * nat :=
  (((fun tp => Data tp false) <$> data) ++ [Punct EndOfStream], length data).
End memory_source.

(** ** Writing and reading back *)

Section write_read.
Context `{PL : ParsersLaws} (ts : tys).

(** what can be written to a line and read from it *)
Definition writable (tp : Tuple ts) : Prop := csv_attrs ts (tdata tp) /\ short (print ts (tdata tp)).

Definition inserted (ms : list (message (Tuple ts))) : list (Tuple ts) :=
  omap (fun m => match m with MData tp false => Some tp | _ => None end) ms.

Lemma written_text ms : fold_left (fun s m => writer_step (defaultFormatter ts) m s) ms [] =
  text_of ((fun tp => print ts (tdata tp)) <$> inserted ms).
Proof.
  rewrite writer_run. cbn [app]. unfold text_of, defaultFormatter, inserted.
  induction (omap _ ms) as [|tp l IH]; [done|]. by rewrite fmap_cons, !bind_cons, IH.
Qed.

Lemma notify_keep_run (tps : list (Tuple ts)) data p :
  fold_left (fun d e => notify_keep ts e d) (concat ((fun tp => [Data tp false]) <$> tps) ++ [Punct p]) data = data ++ tps.
Proof.
  revert data. induction tps as [|tp tps IH]; intros data; [by cbn; rewrite app_nil_r|].
  rewrite fmap_cons. cbn [concat app fold_left notify_keep]. rewrite IH, <- app_assoc. done.
Qed.

(** C35: a stream written to a file by a [FileWriter] and read by a
    [MemorySource] is published again: the tuples that were inserted, in order,
    up to the limit, and the end of the stream.  Retractions, punctuations and
    the null flags of the tuples are not in the file.  For tuples of [int] and
    string columns, whose strings have 1 to 1023 characters and no comma,
    newline or NUL, and whose lines are shorter than [MAX_TUPLE_SIZE] - 1; for a file name
    without a suffix of a compressed file, and a file whose length is not a
    multiple of the page size (the reader of such a file runs past its mapping).  Other column
    types are not covered. *)
Theorem written_stream_is_read (ms : list (message (Tuple ts))) (limit : nat) (compressed : bool) (unpack : list Z -> list Z) (name store : list Z)
  (Hms : Forall writable (inserted ms)) (Hstore : length store = MAX_TUPLE_SIZE)
  (Hname : iends_with name (chars ".gz") = false /\ iends_with name (chars ".bz2") = false) :
  let file := fold_left (fun s m => writer_step (defaultFormatter ts) m s) ms [] in
  (length file mod PAGE_SIZE <> 0)%nat ->
  exists data, memory_prepare ts COMMA limit compressed unpack name file store [] = Ok (length data, data) /\
    memory_start ts data =
      (((fun tp => Data (mkTuple (tdata tp) 0) false) <$> limited limit 0 (inserted ms)) ++ [Punct EndOfStream], length (limited limit 0 (inserted ms))).
Proof using PL.
  intros file Hpage. subst file. rewrite written_text in *. set (lines := (fun tp => print ts (tdata tp)) <$> inserted ms) in *.
  destruct Hname as [Hgz Hbz]. unfold memory_prepare, source_start. rewrite Hgz, Hbz. cbn [orb].
  rewrite (mapped_limited _ _ lines ((fun tp => [Data (mkTuple (tdata tp) 0) false]) <$> inserted ms)); [| |done].
  - rewrite (proj2 (Nat.eqb_neq _ _) Hpage). cbn [andb]. run_step. rewrite limited_fmap. subst lines. rewrite limited_fmap, length_fmap.
    exists ((fun tp => mkTuple (tdata tp) 0) <$> limited limit 0 (inserted ms)).
    pose proof (notify_keep_run ((fun tp => mkTuple (tdata tp) 0) <$> limited limit 0 (inserted ms)) [] EndOfStream) as Hk.
    rewrite <- list_fmap_compose in Hk. unfold compose in Hk. rewrite Hk, length_fmap. split; [done|].
    unfold memory_start. by rewrite <- list_fmap_compose, length_fmap.
  - subst lines. rewrite Forall2_fmap. apply Forall_Forall2_diag. eapply Forall_impl; [exact Hms|]. intros tp [Hc Hs].
    split; [by apply print_line|]. split; [done|]. intros post. by apply te_printed.
Qed.
End write_read.

(** ** SelectFromTable *)

Section select_from_table.
Context {K R : Type} `{Countable K}.

Record SelectFromTable := mkSelect { mTable : option (HashMap.HashMapTable K R); mPredicate : option (R -> bool) }.

(** the constructor does not keep the predicate *)
Definition new_SelectFromTable (tbl : option (HashMap.HashMapTable K R)) (pred : option (R -> bool)) : SelectFromTable := mkSelect tbl None.

(** fuel: the elements of the table and one more *)
Definition select_start (s : SelectFromTable) : result (list (event R) * nat) :=
  match mTable s with
  | None => Err AssertFailed
  | Some t =>
      let iter := match mPredicate s with None => HashMap.select_all t | Some p => HashMap.select p t end in
      tuples ← HashMap.it_collect (length (HashMap.scan t)) iter;
      Ok (((fun tup => Data tup false) <$> tuples) ++ [Punct EndOfStream], length tuples)
  end.

(** The whole table is published, whatever predicate the source is given. *)
Lemma select_ignores_predicate t pred :
  select_start (new_SelectFromTable (Some t) pred) =
    Ok (((fun e => Data e.2 false) <$> HashMap.scan t) ++ [Punct EndOfStream], length (HashMap.scan t)).
Proof.
  unfold select_start. cbn [mTable new_SelectFromTable mPredicate]. unfold HashMap.select_all, HashMap.makeHashMapIterator.
  rewrite HashMap.it_collect_skip by lia. run_step. rewrite (filter_all _ (HashMap.scan t)) by done.
  by rewrite <- list_fmap_compose, length_fmap.
Qed.
End select_from_table.

(** ** SelectFromMVCCTable

    [mTable->select()] iterates over the versioned objects of the table; the
    transaction id is drawn from a counter of the caller's. *)
Section select_from_mvcc.
Context {K R : Type} `{Countable K}.

(** [mvccObj.values[mvccObj.getCurrent(mTxnID)]] *)
Definition current_value (mvccObj : MVCCObject R) (mTxnID : Z) : result R :=
  p ← subscript (length (values mvccObj)) (getCurrent mvccObj mTxnID);
  get_at (values mvccObj) p.

Fixpoint publish_current (objs : list (MVCCObject R)) (mTxnID : Z) : result (list (event R) * nat) :=
  match objs with
  | [] => Ok ([], 0%nat)
  | o :: objs =>
      tup ← current_value o mTxnID;
      '(out, ntuples) ← publish_current objs mTxnID;
      Ok (Data tup false :: out, S ntuples)
  end.

(** [start]: the output, the number of tuples and the counter *)
Definition mvcc_select_start (mTable : option (HashMap.HashMapTable K (MVCCObject R))) (mPredicate : option (MVCCObject R -> bool)) (mACnter : Z)
    : result (list (event R) * nat * Z) :=
  let mTxnID := mACnter in
  let mACnter := u64 (mACnter + 1) in
  match mTable with
  | None => Err AssertFailed
  | Some t =>
      let iter := match mPredicate with None => HashMap.select_all t | Some p => HashMap.select p t end in
      objs ← HashMap.it_collect (length (HashMap.scan t)) iter;
      '(out, ntuples) ← publish_current objs mTxnID;
      Ok (out ++ [Punct EndOfStream], ntuples, mACnter)
  end.

Lemma current_visible V (o : MVCCObject R) txn : version_wf V o ->
  current_value o txn = match visible o txn with Some v => Ok v | None => Err OutOfBounds end.
Proof.
  intros Hwf. unfold current_value, visible, subscript. pose proof (vw_size V o Hwf). pose proof (vw_values V o Hwf) as Hv. pose proof (vw_headers V o Hwf) as Hh.
  destruct (getCurrent_cases o txn) as [(-> & _)|(i & h & [Hi _] & -> & _)].
  - change (u64 (-1)) with (2^64 - 1). by rewrite (proj2 (Z.ltb_ge _ _)) by lia.
  - apply lookup_lt_Some in Hi. rewrite u64_small by word_lia. rewrite (proj2 (Z.ltb_lt _ _)) by lia. run_step.
    rewrite (proj2 (Z.eqb_neq _ _)) by lia. rewrite Nat2Z.id. destruct (lookup_lt_is_Some_2 (values o) i) as [v Hlv]; [lia|].
    rewrite Hlv. by apply get_at_Some.
Qed.

(** The source publishes the snapshot of its transaction id: for every object
    the value visible to it; an object that has none, written by a later
    transaction only, is read outside its versions. *)
Lemma mvcc_select_snapshot V (t : HashMap.HashMapTable K (MVCCObject R)) txn :
  (forall k o, HashMap.mDataTable t !! k = Some o -> version_wf V o) ->
  mvcc_select_start (Some t) None txn =
    match mapM (fun e => visible e.2 txn) (HashMap.scan t) with
    | Some vs => Ok (((fun v => Data v false) <$> vs) ++ [Punct EndOfStream], length vs, u64 (txn + 1))
    | None => Err OutOfBounds
    end.
Proof.
  intros Hwf. unfold mvcc_select_start, HashMap.select_all, HashMap.makeHashMapIterator. rewrite HashMap.it_collect_skip by lia. run_step.
  rewrite (filter_all _ (HashMap.scan t)) by done. assert (forall e, e ∈ HashMap.scan t -> version_wf V e.2) as Hall.
  { intros [k o] He. apply (Hwf k). by apply elem_of_map_to_list. }
  induction (HashMap.scan t) as [|[k o] es IH]; [done|]. rewrite fmap_cons. cbn [publish_current snd mapM].
  rewrite (current_visible V) by (by apply (Hall (k, o)); left). destruct (visible o txn) as [v|]; [|done]. run_step. cbn [mbind option_bind mret option_ret].
  specialize (IH ltac:(intros e He; apply Hall; by right)). revert IH. destruct (mapM _ es) as [vs|]; cbn [mbind option_bind mret option_ret];
    destruct (publish_current es.*2 txn) as [[out n]|f]; run_step; intros IH; try done.
  injection IH as Ho Hn. rewrite fmap_cons. cbn [app length]. by rewrite Ho, Hn.
Qed.
End select_from_mvcc.

Definition whole_line (mem : list Z) (n : nat) : result (list (list Z)) := Ok [take n mem].

Lemma whole_line_producing (line post : list Z) : whole_line (line ++ NUL :: post) (length line) = Ok [line].
Proof. unfold whole_line. by rewrite take_app_length. Qed.

(** two lines and an unterminated one, read in two blocks *)
Lemma readers_agree_witness :
  let file := chars "ab" ++ [NEWLINE] ++ [NEWLINE] ++ chars "cde" in
  let store := replicate MAX_TUPLE_SIZE 7 in
  readRawFile whole_line 0 [chars "ab" ++ [NEWLINE] ++ [NEWLINE] ++ chars "c"; chars "de"] store = Ok ([chars "ab"; []], 2%nat) /\
  readMemoryMappedFile whole_line 8 0 (mapped_file file) store 0 = Ok ([chars "ab"; []], 2%nat) /\
  readCompressedFile whole_line 0 true file = Ok ([chars "ab"; []; chars "cde"], 3%nat).
Proof.
  assert (forall l : list Z, forallb (fun c => negb (c =? NUL) && negb (c =? NEWLINE)) l = true -> plain l) as Hplain.
  { intros l Hl. apply Forall_forall. intros c Hc.
    apply (proj1 (List.forallb_forall _ l)) with (x := c) in Hl; [|by apply list_elem_of_In].
    apply andb_true_iff in Hl as [H1%negb_true_iff H2%negb_true_iff]. by split; apply Z.eqb_neq. }
  assert (Forall (fun l => plain l /\ short l) [chars "ab"; []]) as Hlines.
  { apply Forall_cons. split; [|apply Forall_cons; split; [|by apply Forall_nil]]; (split; [by apply Hplain|by apply Nat.ltb_lt; vm_compute]). }
  destruct (readers_agree whole_line (fun l => [l]) 0 whole_line_producing [chars "ab"; []] (chars "cde") (replicate MAX_TUPLE_SIZE 7) Hlines) as (Hraw & _ & Hmap & Hcomp).
  - split; [by apply Hplain|by apply Nat.ltb_lt; vm_compute].
  - by rewrite length_replicate.
  - split_and!; [|exact Hmap|exact Hcomp]. apply Hraw; [reflexivity|].
    split; [done|]. split; [right; intros Hn; by apply Forall_cons_1 in Hn as [_ [_ [Hn _]%Forall_cons_1]%Forall_cons_1]|].
    split; [done|]. split; [by left|exact I].
Defined.

Definition demo_messages : list (message (Tuple demo_ts)) :=
  [MData (mkTuple demo_v1 0) false; MData (mkTuple demo_v1 0) true; MPunct (mkPunct WindowExpired None); MData (mkTuple demo_v2 1) false].

Lemma written_stream_is_read_witness :
  exists data, memory_prepare (P := int_parsers) demo_ts COMMA 0 false (fun f => f) (chars "t.csv")
      (fold_left (fun s m => writer_step (defaultFormatter demo_ts) m s) demo_messages []) (replicate MAX_TUPLE_SIZE 7) [] = Ok (length data, data) /\
    memory_start demo_ts data = ([Data (mkTuple demo_v1 0) false; Data (mkTuple demo_v2 0) false; Punct EndOfStream], 2%nat).
Proof.
  apply (written_stream_is_read (PL := int_parsers_laws) demo_ts demo_messages 0 false (fun f => f) (chars "t.csv") (replicate MAX_TUPLE_SIZE 7)).
  - apply Forall_cons. split; [|apply Forall_cons; split; [|by apply Forall_nil]];
      (split; [|by apply Nat.ltb_lt; vm_compute]); repeat constructor; try (vm_compute; congruence); vm_compute; lia.
  - by rewrite length_replicate.
  - split; reflexivity.
  - intros H. vm_compute in H. discriminate H.
Defined.
