(* ===== verification/Timestamps.v ===== *)
(** * Timestamps: times as text, as calendar dates and as microseconds

    [TimestampHelper.hpp] and [TimestampHelper.cpp] of [src/core]: a [Timestamp]
    is a [std::chrono::microseconds], a signed 64-bit count since 1970.  The C
    library's [strptime], [timegm], [stoi] and [atol] are modelled as far as the
    code uses them; the dates of Boost and its regular expressions are
    parameters with the laws they document. *)

From S2P Require Import Prelude Extract.

(** ** The C library *)

Definition is_long (x : Z) : Prop := - 2^63 <= x < 2^63.
Definition to_long (x : Z) : result Z := if (- 2^63 <=? x) && (x <? 2^63) then Ok x else Err IntOverflow.
(** the conversion of an [unsigned long] to [long] *)
Definition s64 (x : Z) : Z := (x + 2^63) mod 2^64 - 2^63.

Definition is_digit (c : Z) : bool := (48 <=? c) && (c <=? 57).
Definition is_space (c : Z) : bool := (c =? 32) || ((9 <=? c) && (c <=? 13)).
Fixpoint skip_space (l : list Z) : list Z := match l with c :: l' => if is_space c then skip_space l' else l | [] => [] end.

(** a run of digits: its value and the rest *)
Fixpoint read_digits (acc : Z) (l : list Z) : Z * list Z :=
  match l with
  | c :: l' => if is_digit c then read_digits (acc * 10 + (c - 48)) l' else (acc, l)
  | [] => (acc, [])
  end.

(** what [strtol] in base 10 reads; [None] without a digit *)
Definition read_number (l : list Z) : option Z :=
  let l := skip_space l in
  let '(neg, l) := match l with c :: l' => if c =? 45 then (true, l') else if c =? 43 then (false, l') else (false, l) | [] => (false, []) end in
  match l with
  | c :: _ => if is_digit c then let v := (read_digits 0 l).1 in Some (if neg : bool then - v else v) else None
  | [] => None
  end.

Definition stoi (l : list Z) : result Z :=
  match read_number l with
  | None => Err (Throws "std::invalid_argument")
  | Some v => if (- 2^31 <=? v) && (v <? 2^31) then Ok v else Err (Throws "std::out_of_range")
  end.

(** [atol]: undefined where the number is no [long] *)
Definition atol (l : list Z) : result Z := match read_number l with None => Ok 0 | Some v => to_long v end.

(** [struct tm]; month and year are kept the way it keeps them *)
Record tm := mkTm { tm_sec : Z; tm_min : Z; tm_hour : Z; tm_mday : Z; tm_mon : Z; tm_year : Z }.

(** a number of [strptime]: at most [n] digits, not beyond [hi] *)
Fixpoint number_digits (n : nat) (hi val : Z) (l : list Z) : Z * list Z :=
  match n, l with
  | S n, c :: l' =>
      if is_digit c && (val * 10 <=? hi) then number_digits n hi (val * 10 + (c - 48)) l' else (val, l)
  | _, _ => (val, l)
  end.
Fixpoint skip_blank (l : list Z) : list Z := match l with c :: l' => if c =? 32 then skip_blank l' else l | [] => [] end.
Definition get_number (lo hi : Z) (n : nat) (l : list Z) : option (Z * list Z) :=
  match skip_blank l with
  | c :: l' =>
      if is_digit c then
        let '(val, rest) := number_digits (n - 1) hi (c - 48) l' in
        if (val <? lo) || (val >? hi) then None else Some (val, rest)
      else None
  | [] => None
  end.
Definition literal (c : Z) (l : list Z) : option (list Z) :=
  match l with c' :: l' => if c' =? c then Some l' else None | [] => None end.

(** [strptime(s, "%Y-%m-%dT%H:%M:%S", &tm)]: the fields, [None] for the null
    pointer *)
Definition strptime (l : list Z) : option (tm * list Z) :=
  '(y, l) ← get_number 0 9999 4 l;
  l ← literal 45 l;
  '(mo, l) ← get_number 1 12 2 l;
  l ← literal 45 l;
  '(d, l) ← get_number 1 31 2 l;
  l ← literal 84 l;
  '(h, l) ← get_number 0 23 2 l;
  l ← literal 58 l;
  '(mi, l) ← get_number 0 59 2 l;
  l ← literal 58 l;
  '(s, l) ← get_number 0 61 2 l;
  Some (mkTm s mi h d (mo - 1) (y - 1900), l).

Definition leap (y : Z) : bool := ((y mod 4 =? 0) && negb (y mod 100 =? 0)) || (y mod 400 =? 0).
(** the days before a month (0 to 11) of a common year *)
Definition month_days : list Z := [0; 31; 59; 90; 120; 151; 181; 212; 243; 273; 304; 334].
(** the leap days before a year, from 1970 on *)
Definition leap_days (y : Z) : Z := (y - 1) / 4 - (y - 1) / 100 + (y - 1) / 400 - 477.

Definition timegm (t : tm) : Z :=
  let y := tm_year t + 1900 in
  let days := (y - 1970) * 365 + leap_days y + nth (Z.to_nat (tm_mon t)) month_days 0
    + (if (2 <=? tm_mon t) && leap y then 1 else 0) + (tm_mday t - 1) in
  days * 86400 + tm_hour t * 3600 + tm_min t * 60 + tm_sec t.

(** ** stringToTimestamp *)

(** [std::string::find] of a character from a position on; [None] is [npos] *)
Fixpoint find_char (c : Z) (l : list Z) : option nat :=
  match l with
  | [] => None
  | c' :: l => if c' =? c then Some 0%nat else S <$> find_char c l
  end.
Definition find (c : Z) (from : nat) (l : list Z) : option nat := Nat.add from <$> find_char c (drop from l).

(** the milliseconds: from behind the point to the sign; [npos + 1] is 0.
    Where [strptime] fails the fields are indeterminate. *)
Definition stringToTimestamp (date : list Z) : result Z :=
  match strptime date with
  | None => Err Dangling
  | Some (t, _) =>
      let offs1 := match find 46 0 date with Some i => S i | None => 0%nat end in
      let part := match find 43 offs1 date with Some i => take (i - offs1) (drop offs1 date) | None => drop offs1 date end in
      i ← stoi part;
      let milliseconds := u64 i in
      Ok (s64 (u64 (u64 (timegm t * 1000000) + u64 (milliseconds * 1000))))
  end.

(** ** Dates of Boost *)

(** [timestampFromTime] and [timestampToPtime] use these operations of
    [boost::posix_time] *)
Class PosixTime := {
  ptime : Type;
  UNIX_EPOCH : ptime;
  from_time_t : Z -> ptime;
  plus_seconds : ptime -> Z -> ptime;
  plus_microseconds : ptime -> Z -> ptime;
  minus_microseconds : ptime -> ptime -> Z;   (** [(a - b).total_microseconds()] *)
  time_from_string : list Z -> result ptime;
  from_iso_string : list Z -> result ptime;
}.

(** the dates of years 1400 to 9999, in microseconds since 1970 *)
Definition in_ptime (x : Z) : Prop := - 17987443200000000 <= x < 253402300800000000.

(** how far a time is behind the epoch *)
Definition since `{PosixTime} (p : ptime) : Z := minus_microseconds p UNIX_EPOCH.

Class PosixTimeLaws `{PosixTime} := {
  since_time_t : since (from_time_t 0) = 0;
  since_seconds : forall p s, in_ptime (since p + 1000000 * s) -> since (plus_seconds p s) = since p + 1000000 * s;
  since_microseconds : forall p us, in_ptime (since p + us) -> since (plus_microseconds p us) = since p + us;
}.

Section ptime.
Context `{PosixTime}.

Definition timestampFromTime (p : ptime) : Z := minus_microseconds p UNIX_EPOCH.

(** the count of nanoseconds overflows beyond 292 years *)
Definition timestampToPtime (ts : Z) : result ptime :=
  d ← to_long (ts * 1000);
  let sec := Z.quot d (1000 * 1000 * 1000) in
  let nsec := Z.rem d (1000 * 1000 * 1000) in
  Ok (plus_microseconds (plus_seconds (from_time_t 0) sec) (Z.quot (nsec + 500) 1000)).

Definition toDays (ts : Z) : Z := u32 (Z.quot (Z.quot ts 3600000000) 24).

(** ** parseTimestamp *)

Inductive TimeFormat := Unknown | Unix | String_ | ISOString.

Definition unix_expr : string := "^[0-9]+$".
Definition string_expr : string := "^[0-9]{4}-[0-1][0-9]-[0-3][0-9] [0-2][0-9]:[0-5][0-9]:[0-5][0-9](.[0-9]{3})?$".
Definition iso_string_expr_secs : string := "^[0-9]{8}T[0-9]{6}$".
Definition iso_string_expr_msecs : string := "^[0-9]{8}T[0-9]{6}.[0-9]{6}$".

Context (regex_match : list Z -> string -> bool).

Definition timetype (val : list Z) : TimeFormat :=
  if regex_match val unix_expr then Unix
  else if regex_match val string_expr then String_
  else if regex_match val iso_string_expr_secs || regex_match val iso_string_expr_msecs then ISOString
  else Unknown.

(** [s >> t] for an [unsigned long long]: [None] where it throws *)
Definition read_unsigned (l : list Z) : option Z :=
  v ← read_number l;
  if Z.abs v <? 2^64 then Some (u64 v) else None.

(** where the text is no number either, [result] was never set *)
Definition parseTimestamp (val : list Z) : result Z :=
  match timetype val with
  | Unix => v ← atol val; to_long (v * 1000)
  | String_ => p ← time_from_string val; Ok (timestampFromTime p)
  | ISOString => p ← from_iso_string val; Ok (timestampFromTime p)
  | Unknown => match read_unsigned val with Some t => Ok (s64 t) | None => Err Dangling end
  end.

(** [StringAttributeParser<ptime>] *)
Definition parse_ptime (input : list Z) : result ptime := ts ← parseTimestamp input; timestampToPtime ts.
End ptime.

(** ** time_to_epoch

    The sums are of [long]s and [unsigned]s, in 64 bits. *)
Definition prefixSumMonthDays : list Z := [31; 59; 90; 120; 151; 181; 212; 243; 273; 304; 334; 365].
Definition SECONDS_PER_MIN : Z := 60.
Definition SECONDS_PER_HOUR : Z := 60 * SECONDS_PER_MIN.
Definition SECONDS_PER_DAY : Z := 365 * SECONDS_PER_HOUR.

Definition time_to_epoch (ltm : tm) (utcdiff : Z) : result Z :=
  let tyears := tm_year ltm - 70 in
  let leaps := Z.quot (tyears + 2) 4 in
  _ ← guard_else (0 <=? tm_mon ltm) OutOfBounds;
  tdays ← get_at prefixSumMonthDays (Z.to_nat (tm_mon ltm));
  let tdays := tdays + (tm_mday ltm - 1) in
  let tdays := tdays + tyears * 365 + leaps in
  let utc_hrs := tm_hour ltm + utcdiff in
  Ok (tdays * SECONDS_PER_DAY + utc_hrs * SECONDS_PER_HOUR + tm_min ltm * SECONDS_PER_MIN + tm_sec ltm).

(** ** The calendar, by counting *)

Definition month_length (y mo : Z) : Z :=
  if mo =? 1 then (if leap y then 29 else 28)
  else if (mo =? 3) || (mo =? 5) || (mo =? 8) || (mo =? 10) then 30 else 31.
Definition year_length (y : Z) : Z := if leap y then 366 else 365.
Definition total (l : list Z) : Z := foldr Z.add 0 l.
(** the days from 1970 to a date; months count from 0 *)
Definition day_number (y mo d : Z) : Z :=
  total (year_length <$> seqZ 1970 (y - 1970)) + total (month_length y <$> seqZ 0 mo) + (d - 1).

Lemma total_app l l' : total (l ++ l') = total l + total l'.
Proof. induction l as [|x l IH]; [done|]. cbn [app total foldr] in *. unfold total in *. cbn. lia. Qed.

Lemma leap_days_next y : leap_days (y + 1) = leap_days y + (if leap y then 1 else 0).
Proof.
  unfold leap_days, leap. destruct (Z.eqb_spec (y mod 4) 0), (Z.eqb_spec (y mod 100) 0), (Z.eqb_spec (y mod 400) 0);
    cbn [andb orb negb]; Z.div_mod_to_equations; lia.
Qed.

Lemma years_total n : total (year_length <$> seqZ 1970 (Z.of_nat n)) = Z.of_nat n * 365 + leap_days (1970 + Z.of_nat n).
Proof.
  induction n as [|n IH]; [done|]. rewrite Nat2Z.inj_succ, <- Z.add_1_r, seqZ_app by lia.
  rewrite fmap_app, total_app, IH. replace (1970 + (Z.of_nat n + 1)) with (1970 + Z.of_nat n + 1) by lia. rewrite leap_days_next.
  change (seqZ (1970 + Z.of_nat n) 1) with [Z.of_nat 0 + (1970 + Z.of_nat n)].
  cbn [fmap list_fmap total foldr]. replace (Z.of_nat 0 + (1970 + Z.of_nat n)) with (1970 + Z.of_nat n) by lia.
  unfold year_length. destruct (leap (1970 + Z.of_nat n)); lia.
Qed.

Lemma months_total y mo : 0 <= mo < 12 ->
  total (month_length y <$> seqZ 0 mo) = nth (Z.to_nat mo) month_days 0 + (if (2 <=? mo) && leap y then 1 else 0).
Proof.
  intros H. assert (mo = 0 \/ mo = 1 \/ mo = 2 \/ mo = 3 \/ mo = 4 \/ mo = 5 \/ mo = 6 \/ mo = 7 \/ mo = 8 \/ mo = 9 \/ mo = 10 \/ mo = 11) as Hc by lia.
  unfold month_length. destruct (leap y); destruct_or! Hc; subst mo; reflexivity.
Qed.

(** [timegm] counts the seconds since 1970 *)
Lemma timegm_counts t : 0 <= tm_mon t < 12 -> 70 <= tm_year t ->
  timegm t = day_number (tm_year t + 1900) (tm_mon t) (tm_mday t) * 86400 + tm_hour t * 3600 + tm_min t * 60 + tm_sec t.
Proof.
  intros Hm Hy. unfold timegm, day_number. rewrite months_total by done.
  pose proof (years_total (Z.to_nat (tm_year t + 1900 - 1970))) as Hyears. rewrite Z2Nat.id in Hyears by lia. rewrite Hyears.
  replace (1970 + (tm_year t + 1900 - 1970)) with (tm_year t + 1900) by lia. cbn zeta. lia.
Qed.

(** ** Text of a time *)

Definition pad2 (v : Z) : list Z := [48 + v / 10; 48 + v mod 10].
Definition pad3 (v : Z) : list Z := (48 + v / 100) :: pad2 (v mod 100).
Definition pad4 (v : Z) : list Z := (48 + v / 1000) :: pad3 (v mod 1000).

Record moment := mkMoment { year : Z; month : Z; day : Z; hour : Z; minute : Z; second : Z }.
Definition moment_ok (m : moment) : Prop :=
  1970 <= year m <= 9999 /\ 1 <= month m <= 12 /\ 1 <= day m <= 31 /\ 0 <= hour m <= 23 /\ 0 <= minute m <= 59 /\ 0 <= second m <= 59.
(** [YYYY-MM-DDThh:mm:ss] *)
Definition moment_text (m : moment) : list Z :=
  pad4 (year m) ++ 45 :: pad2 (month m) ++ 45 :: pad2 (day m) ++ 84 :: pad2 (hour m) ++ 58 :: pad2 (minute m) ++ 58 :: pad2 (second m).
Definition moment_seconds (m : moment) : Z :=
  day_number (year m) (month m - 1) (day m) * 86400 + hour m * 3600 + minute m * 60 + second m.

Lemma digit_ok v : 0 <= v <= 9 -> is_digit (48 + v) = true.
Proof. intros H. unfold is_digit. rewrite (proj2 (Z.leb_le _ _)), (proj2 (Z.leb_le _ _)) by lia. done. Qed.

Lemma skip_blank_digit c l : is_digit c = true -> skip_blank (c :: l) = c :: l.
Proof. intros H. cbn. destruct (Z.eqb_spec c 32) as [->|]; [done|done]. Qed.

Lemma number_digits_0 hi val l : number_digits 0 hi val l = (val, l).
Proof. by destruct l. Qed.

Lemma number_digits_S n hi val d l : 0 <= d <= 9 -> val * 10 <= hi ->
  number_digits (S n) hi val ((48 + d) :: l) = number_digits n hi (val * 10 + d) l.
Proof.
  intros Hd Hv. cbn [number_digits]. rewrite digit_ok by done. rewrite (proj2 (Z.leb_le _ _) Hv). cbn [andb]. f_equal. lia.
Qed.

Lemma get_number_start lo hi n d l : 0 <= d <= 9 ->
  get_number lo hi (S n) ((48 + d) :: l) =
    (let '(val, rest) := number_digits n hi d l in if (val <? lo) || (val >? hi) then None else Some (val, rest)).
Proof.
  intros Hd. unfold get_number. rewrite skip_blank_digit by by apply digit_ok. rewrite digit_ok by done.
  replace (48 + d - 48) with d by lia. replace (S n - 1)%nat with n by lia. done.
Qed.

Lemma in_bounds lo hi v : lo <= v <= hi -> (v <? lo) || (v >? hi) = false.
Proof. intros H. rewrite (proj2 (Z.ltb_ge _ _)) by lia. rewrite Z.gtb_ltb, (proj2 (Z.ltb_ge _ _)) by lia. done. Qed.

Lemma get_number2 lo hi v l : 0 <= v <= 99 -> lo <= v <= hi -> get_number lo hi 2 (pad2 v ++ l) = Some (v, l).
Proof.
  intros Hv Hb. pose proof (Z.div_mod v 10). pose proof (Z.mod_pos_bound v 10). cbn [pad2 app]. rewrite get_number_start by lia.
  rewrite number_digits_S, number_digits_0 by lia. replace (v / 10 * 10 + v mod 10) with v by lia. by rewrite in_bounds.
Qed.

Lemma get_number4 v l : 0 <= v <= 9999 -> get_number 0 9999 4 (pad4 v ++ l) = Some (v, l).
Proof.
  intros Hv. unfold pad4, pad3, pad2. cbn [app]. rewrite get_number_start by (Z.div_mod_to_equations; lia).
  rewrite !number_digits_S, number_digits_0 by (Z.div_mod_to_equations; lia).
  replace (_ * 10 + v mod 1000 mod 100 mod 10) with v by (Z.div_mod_to_equations; lia). by rewrite in_bounds.
Qed.

Lemma literal_ok c l : literal c (c :: l) = Some l.
Proof. cbn. by rewrite Z.eqb_refl. Qed.

Lemma strptime_text m rest : moment_ok m ->
  strptime (moment_text m ++ rest) = Some (mkTm (second m) (minute m) (hour m) (day m) (month m - 1) (year m - 1900), rest).
Proof.
  intros (Hy & Hmo & Hd & Hh & Hmi & Hs). unfold moment_text, strptime. repeat rewrite <- ?app_assoc, <- ?app_comm_cons.
  rewrite get_number4 by lia. cbn [mbind option_bind]. rewrite literal_ok. cbn [mbind option_bind].
  rewrite get_number2 by lia. cbn [mbind option_bind]. rewrite literal_ok. cbn [mbind option_bind].
  rewrite get_number2 by lia. cbn [mbind option_bind]. rewrite literal_ok. cbn [mbind option_bind].
  rewrite get_number2 by lia. cbn [mbind option_bind]. rewrite literal_ok. cbn [mbind option_bind].
  rewrite get_number2 by lia. cbn [mbind option_bind]. rewrite literal_ok. cbn [mbind option_bind].
  rewrite get_number2 by lia. done.
Qed.

(** no point and no plus in the digits of a time *)
Definition plain (l : list Z) : Prop := Forall (fun c => c <> 46 /\ c <> 43) l.

Lemma find_skip c l l' : Forall (fun x => x <> c) l -> find_char c (l ++ l') = Nat.add (length l) <$> find_char c l'.
Proof.
  induction 1 as [|x l Hx Hl IH]; cbn [app find_char length].
  - by destruct (find_char c l').
  - rewrite (proj2 (Z.eqb_neq _ _) Hx), IH. by destruct (find_char c l').
Qed.

Lemma find_at c pre l rest : Forall (fun x => x <> c) l ->
  find c (length pre) (pre ++ l ++ c :: rest) = Some (length pre + length l)%nat.
Proof.
  intros Hl. unfold find. rewrite drop_app_length, find_skip by done. cbn [find_char]. rewrite Z.eqb_refl.
  cbn [fmap option_fmap option_map]. f_equal. lia.
Qed.

Lemma find_nowhere c l : Forall (fun x => x <> c) l -> find c 0 l = None.
Proof. intros Hl. unfold find. rewrite drop_0, <- (app_nil_r l), find_skip by done. done. Qed.

Lemma plain_pad2 v : 0 <= v <= 99 -> plain (pad2 v).
Proof. intros H. repeat constructor; Z.div_mod_to_equations; lia. Qed.
Lemma plain_pad4 v : 0 <= v <= 9999 -> plain (pad4 v).
Proof. intros H. repeat constructor; Z.div_mod_to_equations; lia. Qed.

Lemma plain_moment m : moment_ok m -> plain (moment_text m).
Proof.
  intros (Hy & Hmo & Hd & Hh & Hmi & Hs). unfold moment_text, plain.
  repeat first [ apply Forall_app; split | apply Forall_cons; split; [lia|] | apply plain_pad4; lia | apply plain_pad2; lia ].
Qed.

Lemma read_digits_S acc d l : 0 <= d <= 9 -> read_digits acc ((48 + d) :: l) = read_digits (acc * 10 + d) l.
Proof. intros Hd. cbn [read_digits]. rewrite digit_ok by done. f_equal. lia. Qed.

(** a number of digits, at the end of the text or before something else *)
Lemma read_number_digits d l : 0 <= d <= 9 -> read_number ((48 + d) :: l) = Some (read_digits d l).1.
Proof.
  intros Hd. unfold read_number. cbn [skip_space].
  assert (is_space (48 + d) = false) as -> by (unfold is_space; apply orb_false_iff; split; [apply Z.eqb_neq; lia|apply andb_false_iff; right; apply Z.leb_gt; lia]).
  rewrite (proj2 (Z.eqb_neq _ _)) by lia. rewrite (proj2 (Z.eqb_neq (48 + d) 43)) by lia. rewrite digit_ok by done.
  by rewrite read_digits_S.
Qed.

Lemma stoi_pad3 v : 0 <= v <= 999 -> stoi (pad3 v) = Ok v.
Proof.
  intros Hv. unfold stoi, pad3, pad2. rewrite read_number_digits by (Z.div_mod_to_equations; lia).
  rewrite !read_digits_S by (Z.div_mod_to_equations; lia). cbn [read_digits fst].
  replace (v / 100 * 10 + v mod 100 / 10) with (v / 10) by (Z.div_mod_to_equations; lia).
  replace (v / 10 * 10 + v mod 100 mod 10) with v by (Z.div_mod_to_equations; lia).
  rewrite (proj2 (Z.leb_le _ _)), (proj2 (Z.ltb_lt _ _)) by lia. done.
Qed.

Lemma stoi_year m : moment_ok m -> stoi (moment_text m) = Ok (year m).
Proof.
  intros (Hy & _). unfold moment_text, pad4, pad3, pad2, stoi. cbn [app]. rewrite read_number_digits by (Z.div_mod_to_equations; lia).
  rewrite !read_digits_S by (Z.div_mod_to_equations; lia). cbn [read_digits]. change (is_digit 45) with false. cbn [fst].
  replace (_ * 10 + year m mod 1000 mod 100 mod 10) with (year m) by (Z.div_mod_to_equations; lia).
  rewrite (proj2 (Z.leb_le _ _)), (proj2 (Z.ltb_lt _ _)) by lia. done.
Qed.

(** the sum, without wrap-around *)
Lemma timestamp_sum t ms : 0 <= t < 2^40 -> 0 <= ms < 2^20 ->
  s64 (u64 (u64 (t * 1000000) + u64 (u64 ms * 1000))) = t * 1000000 + ms * 1000.
Proof.
  intros Ht Hm. rewrite (u64_small ms) by word_lia. rewrite (u64_small (t * 1000000)), (u64_small (ms * 1000)) by word_lia.
  rewrite u64_small by word_lia. unfold s64. rewrite Z.mod_small by lia. lia.
Qed.

Lemma leap_days_bound y : 1970 <= y <= 9999 -> 0 <= leap_days y <= 2100.
Proof. intros H. unfold leap_days. Z.div_mod_to_equations; lia. Qed.

Lemma moment_seconds_bound m : moment_ok m -> 0 <= moment_seconds m < 2^40.
Proof.
  intros (Hy & Hmo & Hd & Hh & Hmi & Hs).
  assert (Hday : 0 <= day_number (year m) (month m - 1) (day m) <= 8030 * 365 + 2100 + 365 + 31).
  { unfold day_number. rewrite months_total by lia.
    pose proof (years_total (Z.to_nat (year m - 1970))) as Hyears. rewrite Z2Nat.id in Hyears by lia. rewrite Hyears.
    pose proof (leap_days_bound (1970 + (year m - 1970)) ltac:(lia)) as Hl.
    assert (Forall (fun x => 0 <= x <= 334) month_days) as Hm by (repeat constructor; lia).
    assert (0 <= nth (Z.to_nat (month m - 1)) month_days 0 <= 334) as Hn.
    { destruct (nth_in_or_default (Z.to_nat (month m - 1)) month_days 0) as [Hin|E]; [|rewrite E; lia].
      rewrite List.Forall_forall in Hm. by apply Hm. }
    destruct ((2 <=? month m - 1) && leap (year m)); lia. }
  unfold moment_seconds. lia.
Qed.

Lemma timegm_moment m : moment_ok m ->
  timegm (mkTm (second m) (minute m) (hour m) (day m) (month m - 1) (year m - 1900)) = moment_seconds m.
Proof.
  intros (Hy & Hmo & Hd & Hh & Hmi & Hs). rewrite timegm_counts by (cbn; lia). cbn [tm_sec tm_min tm_hour tm_mday tm_mon tm_year].
  unfold moment_seconds. by replace (year m - 1900 + 1900) with (year m) by lia.
Qed.

(** A time with milliseconds, as [YYYY-MM-DDThh:mm:ss.mmm+zone], becomes its
    number of microseconds since the start of 1970 counted by the calendar; the
    zone is ignored.  Without milliseconds, what is added is not 0 but the year,
    read as milliseconds. *)
Lemma stringToTimestamp_text (m : moment) (ms : Z) (zone : list Z) :
  moment_ok m -> 0 <= ms <= 999 ->
  stringToTimestamp (moment_text m ++ 46 :: pad3 ms ++ 43 :: zone) = Ok (moment_seconds m * 1000000 + ms * 1000)
  /\ stringToTimestamp (moment_text m) = Ok (moment_seconds m * 1000000 + year m * 1000).
Proof.
  intros Hm Hms. pose proof (plain_moment m Hm) as Hplain. pose proof (moment_seconds_bound m Hm) as Hs.
  assert (Hdot : Forall (fun c => c <> 46) (moment_text m)) by (eapply Forall_impl; [exact Hplain|]; by intros c [? _]).
  assert (Hplus : Forall (fun c => c <> 43) (moment_text m)) by (eapply Forall_impl; [exact Hplain|]; by intros c [_ ?]).
  unfold stringToTimestamp. split.
  - rewrite strptime_text by done. pose proof (find_at 46 [] (moment_text m) (pad3 ms ++ 43 :: zone) Hdot) as Hf. cbn [length Nat.add app] in Hf. rewrite Hf.
    replace (S (length (moment_text m))) with (length (moment_text m ++ [46])) by (rewrite length_app; cbn; lia).
    replace (moment_text m ++ 46 :: pad3 ms ++ 43 :: zone) with ((moment_text m ++ [46]) ++ pad3 ms ++ 43 :: zone) by by rewrite <- app_assoc.
    rewrite (find_at 43 (moment_text m ++ [46]) (pad3 ms)) by (repeat constructor; Z.div_mod_to_equations; lia).
    rewrite drop_app_length. replace (_ + length (pad3 ms) - _)%nat with (length (pad3 ms)) by lia.
    rewrite take_app_length, stoi_pad3 by done. run_step. rewrite timegm_moment by done. by rewrite timestamp_sum by lia.
  - rewrite <- (app_nil_r (moment_text m)) at 1. rewrite strptime_text by done. rewrite !find_nowhere by done. rewrite drop_0.
    rewrite stoi_year by done. run_step. rewrite timegm_moment by done. destruct Hm as (Hy & _). by rewrite timestamp_sum by lia.
Qed.

(** the test of the repository: 2012-10-20T15:14:27.841 *)
Definition demo_moment : moment := mkMoment 2012 10 20 15 14 27.

Lemma stringToTimestamp_text_witness :
  stringToTimestamp (moment_text demo_moment ++ 46 :: pad3 841 ++ 43 :: chars "0000") = Ok (1350746067 * 1000000 + 841 * 1000)
  /\ stringToTimestamp (moment_text demo_moment) = Ok (1350746067 * 1000000 + 2012 * 1000).
Proof.
  apply (stringToTimestamp_text demo_moment 841 (chars "0000")); [|lia]. unfold moment_ok, demo_moment. cbn. lia.
Defined.

(** ** Dates and timestamps *)

(** A timestamp converted to a date and back is the same timestamp as long as
    its count of nanoseconds fits, 292 years on both sides of 1970; but before
    1970, where the fraction of the second is rounded towards zero, it comes back
    one microsecond later. *)
Lemma timestamp_ptime_roundtrip `{PL : PosixTimeLaws} (ts : Z) (Hts : is_long (ts * 1000)) :
  exists p, timestampToPtime ts = Ok p
    /\ timestampFromTime p = if (ts <? 0) && negb (ts mod 1000000 =? 0) then ts + 1 else ts.
Proof.
  unfold is_long in Hts. unfold timestampToPtime, to_long. rewrite (proj2 (Z.leb_le _ _)), (proj2 (Z.ltb_lt _ _)) by lia. run_step. cbn [andb].
  set (sec := Z.quot (ts * 1000) (1000 * 1000 * 1000)). set (us := Z.quot (Z.rem (ts * 1000) (1000 * 1000 * 1000) + 500) 1000).
  eexists. split; [done|].
  assert (Hsec : sec = Z.quot ts 1000000) by (unfold sec; Z.quot_rem_to_equations; lia).
  assert (Hsum : 1000000 * sec + us = if (ts <? 0) && negb (ts mod 1000000 =? 0) then ts + 1 else ts).
  { assert (Hrem : Z.rem (ts * 1000) (1000 * 1000 * 1000) = Z.rem ts 1000000 * 1000) by (Z.quot_rem_to_equations; lia).
    unfold us. rewrite Hrem, Hsec. pose proof (Z.quot_rem' ts 1000000) as Hqr.
    destruct (Z.ltb_spec ts 0) as [Hneg|Hpos]; cbn [andb].
    - assert (Hb : - 1000000 < Z.rem ts 1000000 <= 0) by (Z.quot_rem_to_equations; lia).
      assert (Hmod : ts mod 1000000 = 0 <-> Z.rem ts 1000000 = 0) by (Z.quot_rem_to_equations; Z.div_mod_to_equations; lia).
      destruct (Z.eqb_spec (ts mod 1000000) 0) as [E|E]; cbn [negb].
      + apply Hmod in E. rewrite E in *. change (Z.quot (0 * 1000 + 500) 1000) with 0. lia.
      + assert (Z.rem ts 1000000 <> 0) by tauto. assert (Z.quot (Z.rem ts 1000000 * 1000 + 500) 1000 = Z.rem ts 1000000 + 1) by (Z.quot_rem_to_equations; lia). lia.
    - assert (Hb : 0 <= Z.rem ts 1000000 < 1000000) by (Z.quot_rem_to_equations; lia).
      assert (Z.quot (Z.rem ts 1000000 * 1000 + 500) 1000 = Z.rem ts 1000000) by (Z.quot_rem_to_equations; lia). lia. }
  assert (Hus : - 1000000 < us < 1000000) by (unfold us; Z.quot_rem_to_equations; lia).
  rewrite <- Hsum. change (since (plus_microseconds (plus_seconds (from_time_t 0) sec) us) = 1000000 * sec + us).
  assert (Hs : since (plus_seconds (from_time_t 0) sec) = 1000000 * sec).
  { rewrite since_seconds; rewrite since_time_t; [lia|]. unfold in_ptime. destruct (_ && _) in Hsum; lia. }
  rewrite since_microseconds; rewrite Hs; [done|]. unfold in_ptime. destruct (_ && _) in Hsum; lia.
Qed.

(** dates as their distance from 1970 *)
#[local] Instance demo_time : PosixTime := {|
  ptime := Z; UNIX_EPOCH := 0; from_time_t s := s * 1000000; plus_seconds p s := p + 1000000 * s;
  plus_microseconds p us := p + us; minus_microseconds a b := a - b;
  time_from_string _ := Err (Throws "bad_lexical_cast"); from_iso_string _ := Err (Throws "bad_lexical_cast") |}.
#[local] Instance demo_time_laws : PosixTimeLaws.
Proof. split; unfold since; cbn; intros; lia. Qed.

Lemma timestamp_ptime_roundtrip_witness :
  exists p, timestampToPtime (-1500001) = Ok p /\ timestampFromTime p = -1500000.
Proof. apply (timestamp_ptime_roundtrip (-1500001)). unfold is_long. lia. Defined.

(** A text of digits is a number of milliseconds; a text of no known format is
    a number of microseconds if it starts with one, and otherwise the function
    returns a value that was never set. *)
Lemma parseTimestamp_numbers `{PosixTime} (regex_match : list Z -> string -> bool) d l :
  (forall v, regex_match v unix_expr = forallb is_digit v && negb (bool_decide (v = []))) ->
  0 <= d <= 9 -> forallb is_digit l = true -> is_long ((read_digits d l).1 * 1000) ->
  parseTimestamp regex_match ((48 + d) :: l) = Ok ((read_digits d l).1 * 1000).
Proof.
  intros Hre Hd Hl Hlong. unfold parseTimestamp, timetype. rewrite Hre. cbn [forallb]. rewrite digit_ok by done. rewrite Hl.
  cbn [andb bool_decide]. rewrite bool_decide_false by done. cbn [negb]. unfold atol. rewrite read_number_digits by done.
  assert (Hok : forall x, is_long (x * 1000) -> to_long x = Ok x /\ to_long (x * 1000) = Ok (x * 1000)).
  { unfold is_long, to_long. intros x Hx. split; by rewrite (proj2 (Z.leb_le _ _)), (proj2 (Z.ltb_lt _ _)) by lia. }
  destruct (Hok _ Hlong) as [-> H2]. run_step. by rewrite H2.
Qed.

Lemma parseTimestamp_unset `{PosixTime} (regex_match : list Z -> string -> bool) val :
  timetype regex_match val = Unknown -> read_number val = None -> parseTimestamp regex_match val = Err Dangling.
Proof. intros Ht Hn. unfold parseTimestamp, read_unsigned. by rewrite Ht, Hn. Qed.

(** The start of 1970 should be 0: the days before a month include the month
    itself, and a day has 365 hours. *)
Lemma time_to_epoch_start : time_to_epoch (mkTm 0 0 0 1 0 70) 0 = Ok (31 * (365 * 3600)).
Proof. reflexivity. Qed.
