(* ===== verification/PatternMining.v ===== *)
(** * PatternMining: frequent sequences of landmarks

    [Pattern.hpp/.cpp] and [PrefixSpan.hpp/.cpp] of [usecases/FreqTrajectories]:
    patterns are ranges of a shared vector of [int]s; PrefixSpan grows the
    patterns that are contained in enough sequences. *)

From S2P Require Import Prelude Extract.
From Stdlib Require Import DecimalString DecimalZ.

Local Open Scope nat_scope.

(** ** Pattern *)

(** [seqData] can be null; [freq] does not wrap around here *)
Record Pattern := mkPattern { seqData : option (list Z); start : nat; len : nat; freq : nat }.

Definition Pattern_vec (vec : list Z) (f : nat) : Pattern := mkPattern (Some vec) 0 (length vec) f.
Definition Pattern_copy (seq : Pattern) (f : nat) : Pattern :=
  mkPattern (seqData seq) (start seq) (len seq) (if 0 <? f then f else freq seq).
Definition Pattern_empty (f : nat) : Pattern := mkPattern None 0 0 f.
(** the frequency that is passed is not used *)
Definition Pattern_range (data : option (list Z)) (s l f : nat) : Pattern := mkPattern data s l 1.

Definition isEmpty (p : Pattern) : bool := (len p =? 0) || match seqData p with None => true | Some _ => false end.
Definition incrFrequency (incr : nat) (p : Pattern) : Pattern := mkPattern (seqData p) (start p) (len p) (freq p + incr).

(** a difference of [size_t]s *)
Definition size_sub (a b : nat) : nat := Z.to_nat (u64 (Z.of_nat a - Z.of_nat b)).

(** [seqData->at(i)] *)
Definition data_at (p : Pattern) (i : nat) : result Z :=
  match seqData p with
  | None => Err Dangling
  | Some d => match d !! i with Some x => Ok x | None => Err (Throws "std::out_of_range") end
  end.

Definition subscript_op (p : Pattern) (pos : nat) : result Z := data_at p (start p + pos).

Definition slice (p : Pattern) (s l : nat) : Pattern :=
  Pattern_range (seqData p) (start p + s) (if l =? 0 then size_sub (len p) s else l) 1.

(** copies the range: undefined where it is not in the vector *)
Definition concat_item (p : Pattern) (i : Z) : result Pattern :=
  match seqData p with
  | None => Err Dangling
  | Some d =>
      if start p + len p <=? length d then Ok (Pattern_vec (take (len p) (drop (start p) d) ++ [i]) 1)
      else Err OutOfBounds
  end.

(** a loop over [n] positions from [i] on that returns [false] ([true]) as soon as
    a test fails (succeeds) *)
Fixpoint for_all (f : nat -> result bool) (n i : nat) : result bool :=
  match n with
  | O => Ok true
  | S n => b ← f i; if b : bool then for_all f n (S i) else Ok false
  end.
Fixpoint for_any (f : nat -> result bool) (n i : nat) : result bool :=
  match n with
  | O => Ok false
  | S n => b ← f i; if b : bool then Ok true else for_any f n (S i)
  end.

(** [seqData->at(i + start) != seq.seqData->at(j + seq.start)], negated *)
Definition same_at (p seq : Pattern) (i j : nat) : result bool :=
  x ← data_at p (i + start p); y ← data_at seq (j + start seq); Ok (x =? y)%Z.

Definition isEqualAt (p : Pattern) (pos : nat) (seq : Pattern) : result bool :=
  if size_sub (len p) pos <? len seq then Ok false
  else for_all (fun i => x ← subscript_op p (i + pos); y ← subscript_op seq i; Ok (x =? y)%Z) (len seq) 0.

Definition contains (p seq : Pattern) : result bool :=
  if len p <=? len seq then Ok false
  else for_any (fun i => isEqualAt p i seq) (S (len p - len seq)) 0.

Definition isEqualN (p seq : Pattern) (maxLen : nat) : result bool :=
  if (len p <? maxLen) || (len seq <? maxLen) then Ok false else for_all (fun i => same_at p seq i i) maxLen 0.

Definition hasPrefix (p seq : Pattern) : result bool :=
  if len p <=? len seq then Ok false else isEqualN p seq (len seq).

Definition equals (p seq : Pattern) : result bool :=
  if negb (len p =? len seq) then Ok false else for_all (fun i => same_at p seq i i) (len p) 0.

(** the loop of [findFirst]; [-1] if there is none; the position is returned as
    an [int] *)
Fixpoint find_from (p : Pattern) (elem : Z) (n i : nat) : result Z :=
  match n with
  | O => Ok (-1)%Z
  | S n => x ← subscript_op p i; if (x =? elem)%Z then Ok (s32 (Z.of_nat i)) else find_from p elem n (S i)
  end.
Definition findFirst (p : Pattern) (elem : Z) : result Z := find_from p elem (len p) 0.

(** the comparison goes up to the length of the prefix, wherever it starts *)
Definition findSuffix (p pfx : Pattern) : result Pattern :=
  e ← subscript_op pfx 0;
  first ← findFirst p e;
  if (0 <=? first)%Z then
    _ ← guard_else (first <? 2^31 - 1)%Z IntOverflow;
    let first := Z.to_nat first in
    let pmin := min (len p) (len pfx) in
    same ← for_all (fun q => x ← subscript_op p q; y ← subscript_op pfx (q - first); Ok (x =? y)%Z) (pmin - (first + 1)) (first + 1);
    Ok (if same : bool then slice p first 0 else Pattern_empty 1)
  else Ok (Pattern_empty 1).

Definition findSubPatterns (p : Pattern) (pfxLen : nat) : list Pattern :=
  (fun i => slice p i pfxLen) <$> filter (fun i => i + pfxLen <= len p) (seq 0 (len p)).

(** [operator<<]: the numbers with commas between them *)
Fixpoint write_rest (p : Pattern) (n i : nat) : result (list Z) :=
  match n with
  | O => Ok []
  | S n => x ← subscript_op p i; rest ← write_rest p n (S i); Ok (COMMA :: print_int x ++ rest)
  end.
Definition toString (p : Pattern) : result (list Z) :=
  if len p =? 0 then Ok []
  else x ← subscript_op p 0; rest ← write_rest p (len p - 1) 1; Ok (print_int x ++ rest).

(** ** PrefixSpan *)

Section prefixspan.
(** the order in which the hash maps are traversed *)
Context (map_order : forall A : Type, list A -> list A).
Context (minSupport : nat).

(** [insert] and [find] of an [unordered_map], as a list of entries *)
Fixpoint count_key {K : Type} `{EqDecision K} {V} (k : K) (upd : V -> V) (new : V) (m : list (K * V)) : list (K * V) :=
  match m with
  | [] => [(k, new)]
  | (k', v) :: m => if decide (k = k') then (k', upd v) :: m else (k', v) :: count_key k upd new m
  end.

Fixpoint projectedPatternDB (dataSet : list Pattern) (pfx : Pattern) : result (list Pattern) :=
  match dataSet with
  | [] => Ok []
  | s :: dataSet =>
      pseq ← findSuffix s pfx;
      rest ← projectedPatternDB dataSet pfx;
      Ok (if negb (isEmpty pseq) then pseq :: rest else rest)
  end.

(** the two loops of [findFreqPrefixes] *)
Fixpoint count_subs (subSeqs : list Pattern) (m : list (list Z * Pattern)) : result (list (list Z * Pattern)) :=
  match subSeqs with
  | [] => Ok m
  | sub :: subSeqs =>
      key ← toString sub;
      count_subs subSeqs (count_key key (incrFrequency 1) (Pattern_copy sub 0) m)
  end.
Fixpoint count_seqs (dataSet : list Pattern) (pfxLen : nat) (m : list (list Z * Pattern)) : result (list (list Z * Pattern)) :=
  match dataSet with
  | [] => Ok m
  | s :: dataSet => m ← count_subs (findSubPatterns s pfxLen) m; count_seqs dataSet pfxLen m
  end.
Definition findFreqPrefixes (dataSet : list Pattern) (pfxLen : nat) : result (list Pattern) :=
  m ← count_seqs dataSet pfxLen [];
  Ok (filter (fun p => minSupport <= freq p) ((map_order _ m).*2)).

Fixpoint count_items (dataSet : list Pattern) (pattern : Pattern) (pfxLen : nat) (items : list (Z * nat)) : result (list (Z * nat)) :=
  match dataSet with
  | [] => Ok items
  | s :: dataSet =>
      if len s <=? size_sub pfxLen 1 then count_items dataSet pattern pfxLen items
      else
        b ← isEqualN s pattern (size_sub pfxLen 1);
        if (b : bool) && (pfxLen <=? len s) then
          key ← subscript_op s (size_sub pfxLen 1);
          count_items dataSet pattern pfxLen (count_key key S 1 items)
        else count_items dataSet pattern pfxLen items
  end.
Fixpoint grown (items : list (Z * nat)) (pattern : Pattern) : result (list Pattern) :=
  match items with
  | [] => Ok []
  | (k, n) :: items => p ← concat_item pattern k; rest ← grown items pattern; Ok (Pattern_copy p n :: rest)
  end.
Definition growPattern (dataSet : list Pattern) (pattern : Pattern) (pfxLen : nat) : result (list Pattern) :=
  items ← count_items dataSet pattern pfxLen [];
  grown (map_order _ items) pattern.

(** a loop that appends to a result *)
Fixpoint collect {A B : Type} (f : A -> result (list B)) (l : list A) : result (list B) :=
  match l with
  | [] => Ok []
  | x :: l => out ← f x; rest ← collect f l; Ok (out ++ rest)
  end.

(** [mineFreqPatterns]: fuel for the depth of the recursion *)
Fixpoint mine (fuel : nat) (dataSet : list Pattern) (pfxLen : nat) : result (list Pattern) :=
  match fuel with
  | O => Err Waits
  | S fuel =>
      prefixes ← findFreqPrefixes dataSet (pfxLen + 1);
      collect (fun prefix =>
        pdb ← projectedPatternDB dataSet prefix;
        patterns ← growPattern pdb prefix (pfxLen + 2);
        collect (fun pattern =>
          if minSupport <=? freq pattern then
            nextResult ← mine fuel pdb (pfxLen + 1);
            Ok (pattern :: nextResult)
          else Ok []) patterns) prefixes
  end.

(** the sequences get shorter than the prefixes at last *)
Definition max_len (dataSet : list Pattern) : nat := foldr (fun p n => max (len p) n) 0 dataSet.
Definition mineFreqPatterns (dataSet : list Pattern) : result (list Pattern) := mine (S (max_len dataSet)) dataSet 0.
End prefixspan.

(** [suppressSubPatterns]: whether the pattern at [p1] is to be left out *)
Fixpoint suppressed (it1 : Pattern) (p1 : nat) (dataSet : list Pattern) (p2 : nat) (suppress : bool) : result bool :=
  match dataSet with
  | [] => Ok suppress
  | it2 :: dataSet =>
      if p1 =? p2 then suppressed it1 p1 dataSet (S p2) suppress
      else
        e ← equals it1 it2;
        b ← (if (e : bool) && (p1 <? p2) then Ok true else contains it2 it1);
        suppressed it1 p1 dataSet (S p2) (if b : bool then true else suppress)
  end.
Fixpoint keep_maximal (dataSet : list Pattern) (rest : list Pattern) (p1 : nat) : result (list Pattern) :=
  match rest with
  | [] => Ok []
  | it1 :: rest =>
      s ← suppressed it1 p1 dataSet 0 false;
      out ← keep_maximal dataSet rest (S p1);
      Ok (if s : bool then out else it1 :: out)
  end.
Definition suppressSubPatterns (dataSet : list Pattern) : result (list Pattern) := keep_maximal dataSet dataSet 0.

(** [findFrequentTrajectories] of [TrackerServer.cpp]: the maximal ones of the
    patterns mined with support 2 *)
Definition findFrequentTrajectories (map_order : forall A : Type, list A -> list A) (trajectories : list Pattern) : result (list (Pattern * bool)) :=
  mined ← mineFreqPatterns map_order 2 trajectories;
  res ← suppressSubPatterns mined;
  Ok (map (fun pattern => (pattern, false)) res).

(** ** What a pattern stands for *)

Definition data (p : Pattern) : list Z := match seqData p with Some d => take (len p) (drop (start p) d) | None => [] end.

(** a range of its vector, shorter than [2^31] *)
Definition wf (p : Pattern) : Prop :=
  match seqData p with Some d => start p + len p <= length d | None => len p = 0 end /\ (Z.of_nat (len p) < 2^31)%Z.

(** one sequence occurs in another, without gaps *)
Definition occurs (x l : list Z) : Prop := Exists (fun i => take (length x) (drop i l) = x) (seq 0 (S (length l))).

Lemma occurs_infix x l : occurs x l <-> exists a b, l = a ++ x ++ b.
Proof.
  unfold occurs. rewrite Exists_exists. split.
  - intros (i & _ & Hi). exists (take i l), (drop (length x) (drop i l)). rewrite <- Hi at 1. by rewrite !take_drop.
  - intros (a & b & ->). exists (length a). split; [|by rewrite drop_app_length, take_app_length].
    apply elem_of_seq. rewrite length_app. lia.
Qed.

Lemma occurs_trans x y z : occurs x y -> occurs y z -> occurs x z.
Proof.
  rewrite !occurs_infix. intros (a & b & ->) (a' & b' & ->). exists (a' ++ a), (b ++ b'). by rewrite <- !app_assoc.
Qed.

Lemma occurs_length x l : occurs x l -> length x <= length l.
Proof. rewrite occurs_infix. intros (a & b & ->). rewrite !length_app. lia. Qed.

Lemma occurs_same x l : occurs x l -> length l <= length x -> x = l.
Proof.
  rewrite occurs_infix. intros (a & b & ->). rewrite !length_app. intros H.
  destruct a, b; cbn in *; try lia. by rewrite app_nil_r.
Qed.

Lemma occurs_refl x : occurs x x.
Proof. apply occurs_infix. exists [], []. by rewrite app_nil_r. Qed.

Lemma length_data p : wf p -> length (data p) = len p.
Proof. intros [H _]. unfold data. destruct (seqData p); [|done]. rewrite length_take, length_drop. lia. Qed.

Lemma data_at_ok p i : wf p -> i < len p -> exists x, data p !! i = Some x /\ data_at p (i + start p) = Ok x.
Proof.
  intros [H _] Hi. unfold data, data_at. destruct (seqData p) as [d|]; [|lia].
  destruct (lookup_lt_is_Some_2 d (i + start p)) as [x Hx]; [lia|]. exists x. rewrite Hx. split; [|done].
  rewrite lookup_take_lt by lia. rewrite lookup_drop. by rewrite Nat.add_comm.
Qed.

Lemma subscript_ok p i : wf p -> i < len p -> exists x, data p !! i = Some x /\ subscript_op p i = Ok x.
Proof. intros Hw Hi. unfold subscript_op. rewrite Nat.add_comm. by apply data_at_ok. Qed.

Lemma size_sub_ok a b : b <= a -> (Z.of_nat a < 2^64)%Z -> size_sub a b = a - b.
Proof. intros Hb Ha. unfold size_sub. rewrite u64_small by (unfold is_u64; lia). lia. Qed.

Lemma for_all_spec f (g : nat -> bool) n i : (forall j, i <= j < i + n -> f j = Ok (g j)) -> for_all f n i = Ok (forallb g (seq i n)).
Proof.
  induction n as [|n IH] in i |- *; intros H; [done|]. cbn [for_all seq forallb]. rewrite H by lia. run_step.
  destruct (g i); [|done]. cbn [andb]. apply IH. intros j Hj. apply H. lia.
Qed.

Lemma for_any_spec f (g : nat -> bool) n i : (forall j, i <= j < i + n -> f j = Ok (g j)) -> for_any f n i = Ok (existsb g (seq i n)).
Proof.
  induction n as [|n IH] in i |- *; intros H; [done|]. cbn [for_any seq existsb]. rewrite H by lia. run_step.
  destruct (g i); [done|]. cbn [orb]. apply IH. intros j Hj. apply H. lia.
Qed.

(** the loop over [n] positions compares two sublists *)
Lemma forallb_same (u v : list Z) n : n <= length u -> n <= length v ->
  forallb (fun i => bool_decide (u !! i = v !! i)) (seq 0 n) = bool_decide (take n u = take n v).
Proof.
  intros Hu Hv. apply eq_true_iff_eq. rewrite forallb_forall, bool_decide_eq_true. split.
  - intros H. apply list_eq. intros i. destruct (decide (i < n)) as [Hi|Hi].
    + rewrite !lookup_take_lt by done. specialize (H i). rewrite in_seq in H. specialize (H ltac:(lia)). by apply bool_decide_eq_true in H.
    + rewrite !lookup_take_ge by lia. done.
  - intros H i Hi%in_seq. apply bool_decide_eq_true. rewrite <- (lookup_take_lt u n i), <- (lookup_take_lt v n i) by lia. by rewrite H.
Qed.

Lemma same_at_ok p q i j : wf p -> wf q -> i < len p -> j < len q ->
  same_at p q i j = Ok (bool_decide (data p !! i = data q !! j)).
Proof.
  intros Hp Hq Hi Hj. unfold same_at. destruct (data_at_ok p i Hp Hi) as (x & -> & ->), (data_at_ok q j Hq Hj) as (y & -> & ->). run_step.
  f_equal. apply eq_true_iff_eq. rewrite Z.eqb_eq, bool_decide_eq_true. split; [by intros ->|by intros [= ->]].
Qed.

Lemma equals_spec p q : wf p -> wf q -> equals p q = Ok (bool_decide (data p = data q)).
Proof.
  intros Hp Hq. unfold equals. destruct (Nat.eqb_spec (len p) (len q)) as [E|E]; cbn [negb].
  - rewrite (for_all_spec _ (fun i => bool_decide (data p !! i = data q !! i))) by (intros j Hj; apply same_at_ok; done || lia).
    pose proof (length_data p Hp). pose proof (length_data q Hq).
    rewrite forallb_same by lia. by rewrite !take_ge by lia.
  - rewrite bool_decide_false; [done|]. intros Heq. apply E. by rewrite <- (length_data p Hp), <- (length_data q Hq), Heq.
Qed.

Lemma isEqualN_spec p q n : wf p -> wf q ->
  isEqualN p q n = Ok (bool_decide (n <= len p /\ n <= len q /\ take n (data p) = take n (data q))).
Proof.
  intros Hp Hq. unfold isEqualN. destruct (Nat.ltb_spec (len p) n), (Nat.ltb_spec (len q) n); cbn [orb];
    try by (rewrite bool_decide_false by lia).
  rewrite (for_all_spec _ (fun i => bool_decide (data p !! i = data q !! i))) by (intros j Hj; apply same_at_ok; done || lia).
  pose proof (length_data p Hp). pose proof (length_data q Hq). rewrite forallb_same by lia. f_equal. apply bool_decide_ext. tauto.
Qed.

Lemma isEqualAt_spec p pos q : wf p -> wf q -> pos + len q <= len p ->
  isEqualAt p pos q = Ok (bool_decide (take (len q) (drop pos (data p)) = data q)).
Proof.
  intros Hp Hq H. unfold isEqualAt. pose proof (length_data p Hp). pose proof (length_data q Hq). pose proof (proj2 Hp).
  rewrite size_sub_ok by lia. rewrite (proj2 (Nat.ltb_ge _ _)) by lia.
  rewrite (for_all_spec _ (fun i => bool_decide (drop pos (data p) !! i = data q !! i))).
  - rewrite forallb_same by (rewrite ?length_drop; lia). by rewrite (take_ge (data q)) by lia.
  - intros j Hj. destruct (subscript_ok p (j + pos) Hp) as (x & Hx & ->); [lia|]. destruct (subscript_ok q j Hq) as (y & Hy & ->); [lia|].
    run_step. rewrite lookup_drop, Nat.add_comm, Hx, Hy. f_equal. apply eq_true_iff_eq. rewrite Z.eqb_eq, bool_decide_eq_true.
    split; [by intros ->|by intros [= ->]].
Qed.

Lemma contains_spec p q : wf p -> wf q -> contains p q = Ok (bool_decide (len q < len p /\ occurs (data q) (data p))).
Proof.
  intros Hp Hq. unfold contains. destruct (Nat.leb_spec (len p) (len q)); [by rewrite bool_decide_false by lia|].
  rewrite (for_any_spec _ (fun i => bool_decide (take (len q) (drop i (data p)) = data q))) by (intros j Hj; apply isEqualAt_spec; done || lia).
  pose proof (length_data p Hp) as Hlp. pose proof (length_data q Hq) as Hlq. f_equal. apply eq_true_iff_eq. rewrite existsb_exists, bool_decide_eq_true. split.
  - intros (i & Hi & Heq%bool_decide_eq_true). split; [done|]. apply Exists_exists. exists i. rewrite Hlq. split; [|done].
    apply elem_of_seq. apply in_seq in Hi. lia.
  - intros [_ (a & b & Hab)%occurs_infix]. exists (length a). split.
    + apply in_seq. assert (length (data p) = length a + (length (data q) + length b)) by (rewrite Hab, !length_app; lia). lia.
    + apply bool_decide_eq_true. rewrite Hab, drop_app_length, <- Hlq. apply take_app_length.
Qed.

(** ** suppressSubPatterns keeps the maximal patterns *)

(** the pattern at [j] makes that at [i] superfluous *)
Definition covers (ds : list Pattern) (i j : nat) : Prop :=
  exists p q, ds !! i = Some p /\ ds !! j = Some q /\ i <> j /\
    ((data p = data q /\ i < j) \/ (len p < len q /\ occurs (data p) (data q))).

Lemma suppressed_spec p i ds k b : wf p -> Forall wf ds ->
  exists r, suppressed p i ds k b = Ok r /\
    (r = true <-> b = true \/ exists j q, ds !! j = Some q /\ i <> k + j /\
      ((data p = data q /\ i < k + j) \/ (len p < len q /\ occurs (data p) (data q)))).
Proof.
  intros Hp Hds. induction Hds as [|q ds Hq Hds IH] in k, b |- *.
  { exists b. split; [done|]. split; [by left|]. intros [->|(j & q & Hj & _)]; [done|]. by rewrite lookup_nil in Hj. }
  cbn [suppressed]. destruct (Nat.eqb_spec i k) as [->|Hik].
  - destruct (IH (S k) b) as (r & -> & Hr). exists r. split; [done|]. rewrite Hr. split; (intros [Hb|(j & q' & Hj & Hrest)]; [by left|right]).
    + exists (S j), q'. split; [done|]. by replace (k + S j) with (S k + j) by lia.
    + destruct j as [|j]; [destruct Hrest; lia|]. exists j, q'. split; [done|]. by replace (S k + j) with (k + S j) by lia.
  - rewrite equals_spec by done. run_step.
    assert (exists c, (if bool_decide (data p = data q) && (i <? k) then Ok true else contains q p) = Ok c /\
      (c = true <-> (data p = data q /\ i < k) \/ (len p < len q /\ occurs (data p) (data q)))) as (c & -> & Hc).
    { destruct (decide (data p = data q /\ i < k)) as [[He Hlt]|Hno].
      - exists true. rewrite bool_decide_true by done. rewrite (proj2 (Nat.ltb_lt _ _)) by done. split; [done|]. split; [by left|done].
      - rewrite contains_spec by done. exists (bool_decide (len p < len q /\ occurs (data p) (data q))). split.
        + case_bool_decide; [|done]. rewrite (proj2 (Nat.ltb_ge _ _)); [done|]. assert (~ i < k) by tauto. lia.
        + rewrite bool_decide_eq_true. tauto. }
    run_step. destruct (IH (S k) (if c then true else b)) as (r & -> & Hr). exists r. split; [done|]. rewrite Hr. split.
    + intros [Hb|(j & q' & Hj & Hrest)].
      * destruct c; [|by left]. right. exists 0, q. rewrite Nat.add_0_r. split; [done|]. split; [done|]. by apply Hc.
      * right. exists (S j), q'. split; [done|]. by replace (k + S j) with (S k + j) by lia.
    + intros [->|(j & q' & Hj & Hne & Hrest)]; [left; by destruct c|]. destruct j as [|j].
      * left. cbn in Hj. simplify_eq. rewrite Nat.add_0_r in Hrest. by rewrite (proj2 Hc Hrest).
      * right. exists j, q'. split; [done|]. by replace (S k + j) with (k + S j) by lia.
Qed.

(** the positions that are kept *)
Lemma keep_maximal_spec pre rest : Forall wf (pre ++ rest) ->
  exists kept, keep_maximal (pre ++ rest) rest (length pre) = Ok (omap (fun i => (pre ++ rest) !! i) kept)
    /\ StronglySorted lt kept
    /\ forall i, i ∈ kept <-> length pre <= i < length (pre ++ rest) /\ forall j, ~ covers (pre ++ rest) i j.
Proof.
  intros Hwf. remember (pre ++ rest) as ds eqn:Hds. induction rest as [|p rest IH] in pre, Hds |- *.
  - exists []. split; [done|]. split; [constructor|]. intros i. rewrite Hds, app_nil_r. split; [intros H; by apply elem_of_nil in H|lia].
  - assert (Hp : ds !! length pre = Some p) by (by rewrite Hds, lookup_app_r, Nat.sub_diag by lia).
    destruct (suppressed_spec p (length pre) ds 0 false) as (r & Hr & Hcov);
      [by rewrite Forall_forall in Hwf; apply Hwf; eapply list_elem_of_lookup_2|done|].
    destruct (IH (pre ++ [p])) as (kept & Hkept & Hsort & Hin); [by rewrite <- app_assoc|].
    rewrite length_app, Nat.add_1_r in Hkept, Hin. cbn [keep_maximal]. rewrite Hr. run_step. rewrite Hkept. run_step.
    assert (Hc : r = true <-> exists j, covers ds (length pre) j).
    { rewrite Hcov. split.
      - intros [?|(j & q & Hj & Hne & Hrest)]; [done|]. exists j, p, q. done.
      - intros (j & p' & q & Hp' & Hj & Hne & Hrest). simplify_eq. right. by exists j, q. }
    assert (Hlen : length ds = length pre + S (length rest)) by (rewrite Hds, length_app; done).
    destruct r.
    + exists kept. split; [done|]. split; [done|]. intros i. rewrite Hin. split; [intros [? ?]; split; [lia|done]|].
      intros [Hi Hno]. split; [|done]. destruct (decide (i = length pre)) as [->|]; [|lia].
      exfalso. destruct (proj1 Hc eq_refl) as (j & Hj). by apply (Hno j).
    + exists (length pre :: kept). cbn [omap list_omap]. rewrite Hp. split; [done|]. split.
      * constructor; [done|]. apply Forall_forall. intros i Hi%Hin. lia.
      * intros i. rewrite elem_of_cons, Hin. split.
        -- intros [->|[? ?]]; [|split; [lia|done]]. split; [lia|]. intros j Hj. assert (false = true) by (apply Hc; by exists j). done.
        -- intros [Hi Hno]. destruct (decide (i = length pre)) as [->|]; [by left|]. right. split; [lia|done].
Qed.

(** every position is below one that is kept *)
Lemma kept_above ds (kept : list nat) : Forall wf ds -> (forall i, i ∈ kept <-> 0 <= i < length ds /\ forall j, ~ covers ds i j) ->
  forall i p, ds !! i = Some p -> exists j q, j ∈ kept /\ ds !! j = Some q /\ occurs (data p) (data q).
Proof.
  intros Hwf Hkept.
  assert (Hdec : forall i p, ds !! i = Some p -> (exists j, covers ds i j) \/ (forall j, ~ covers ds i j)).
  { intros i p Hp. destruct (suppressed_spec p i ds 0 false) as (r & _ & Hr);
      [by rewrite Forall_forall in Hwf; apply Hwf; eapply list_elem_of_lookup_2|done|].
    destruct r.
    - left. destruct (proj1 Hr eq_refl) as [?|(j & q & Hj & Hne & Hrest)]; [done|]. exists j, p, q. done.
    - right. intros j (p' & q & Hp' & Hj & Hne & Hrest). simplify_eq. assert (false = true); [|done]. apply Hr. right. by exists j, q. }
  assert (Hmax : forall i p, ds !! i = Some p -> len p <= foldr (fun p n => max (len p) n) 0 ds).
  { clear. induction ds as [|q ds IH]; intros i p Hp; [by rewrite lookup_nil in Hp|]. destruct i as [|i]; cbn in Hp |- *; simplify_eq; [lia|].
    specialize (IH _ _ Hp). lia. }
  set (L := foldr (fun p n => max (len p) n) 0 ds) in *. set (N := length ds).
  intros i0. remember ((L - match ds !! i0 with Some p => len p | None => 0 end) * S N + (N - i0)) as m eqn:Hm. revert Hm. generalize i0. clear i0. intros i Hm.
  revert i Hm. induction m as [m IH] using lt_wf_ind. intros i Hm p Hp. rewrite Hp in Hm. pose proof (lookup_lt_Some _ _ _ Hp) as Hi.
  destruct (Hdec i p Hp) as [(j & p' & q & Hp' & Hq & Hne & Hrest)|Hno].
  - assert (p' = p) as -> by congruence. pose proof (lookup_lt_Some _ _ _ Hq) as Hj. pose proof (Hmax _ _ Hp). pose proof (Hmax _ _ Hq).
    assert (Hocc : occurs (data p) (data q)) by (destruct Hrest as [[-> _]|[_ ?]]; [apply occurs_refl|done]).
    destruct (IH ((L - len q) * S N + (N - j))) with (i := j) (p := q) as (k & r & Hk & Hr & Hor); [|by rewrite Hq|done|].
    + rewrite Hm. fold N in Hi, Hj. destruct Hrest as [[Heq Hlt]|[Hlt _]].
      * assert (len p = len q) as ->.
        { rewrite Forall_forall in Hwf. rewrite <- (length_data p), <- (length_data q); [by rewrite Heq|..]; apply Hwf; by eapply list_elem_of_lookup_2. }
        lia.
      * nia.
    + exists k, r. split; [done|]. split; [done|]. by eapply occurs_trans.
  - exists i, p. split; [|by split; [|apply occurs_refl]]. apply Hkept. split; [lia|done].
Qed.

Lemma shifted_positions {A} (d : A) ds kept res : StronglySorted lt kept -> Forall (fun i => 0 < i) kept ->
  Forall2 (fun i p => (d :: ds) !! i = Some p) kept res ->
  StronglySorted lt (pred <$> kept) /\ Forall2 (fun i p => ds !! i = Some p) (pred <$> kept) res.
Proof.
  intros Hs Hpos Hall. split.
  - clear Hall. induction Hs as [|i kept Hs IH Hi]; [constructor|]. apply Forall_cons in Hpos as [Hi0 Hpos].
    rewrite fmap_cons. constructor; [by apply IH|]. apply Forall_fmap. rewrite Forall_forall in Hi, Hpos |- *.
    intros j Hj. cbn. specialize (Hi _ Hj). specialize (Hpos _ Hj). lia.
  - rewrite Forall2_fmap_l. induction Hall as [|i p kept res Hp Hall IH]; [constructor|]. apply Forall_cons in Hpos as [Hi0 Hpos].
    apply StronglySorted_inv in Hs as [Hs _]. constructor; [|by apply IH]. destruct i; [lia|done].
Qed.

(** increasing positions pick a sublist *)
Lemma picked_sublist {A} (ds : list A) kept res : StronglySorted lt kept -> Forall2 (fun i p => ds !! i = Some p) kept res -> res `sublist_of` ds.
Proof.
  induction ds as [|d ds IH] in kept, res |- *; intros Hsort Hall.
  { destruct Hall as [|i p kept res Hp]; [constructor|]. by rewrite lookup_nil in Hp. }
  destruct Hall as [|i p kept res Hp Hall]; [apply sublist_nil_l|]. pose proof Hsort as [Hs Hlt]%StronglySorted_inv. destruct i as [|i].
  - cbn in Hp. simplify_eq. apply sublist_skip.
    destruct (shifted_positions p ds kept res Hs Hlt Hall) as [Hs' Hall']. by eapply IH.
  - apply sublist_cons. destruct (shifted_positions d ds (S i :: kept) (p :: res)) as [Hs' Hall']; [done| |by constructor|by eapply IH].
    constructor; [lia|]. eapply Forall_impl; [exact Hlt|]. cbn. lia.
Qed.

Lemma sorted_NoDup (kept : list nat) : StronglySorted lt kept -> NoDup kept.
Proof.
  induction 1 as [|i l Hs IH Hi]; constructor; [|done]. intros Hin. rewrite Forall_forall in Hi. specialize (Hi _ Hin). lia.
Qed.

(** a pattern that occurs in another one is covered, or covers it *)
Lemma occurs_covers ds i j p q : Forall wf ds -> ds !! i = Some p -> ds !! j = Some q -> i <> j -> occurs (data p) (data q) ->
  covers ds i j \/ covers ds j i.
Proof.
  intros Hwf Hp Hq Hne Hocc. rewrite Forall_forall in Hwf.
  pose proof (length_data p ltac:(eapply Hwf, list_elem_of_lookup_2, Hp)). pose proof (length_data q ltac:(eapply Hwf, list_elem_of_lookup_2, Hq)).
  pose proof (occurs_length _ _ Hocc) as Hlen. destruct (decide (len p < len q)) as [Hlt|Hge]; [left; exists p, q; by repeat split; [..|right]|].
  assert (data p = data q) as Heq by (apply occurs_same; [done|lia]).
  destruct (decide (i < j)); [left; exists p, q|right; exists q, p]; repeat split; try done; left; split; done || lia.
Qed.

(** Of a list of patterns, [suppressSubPatterns] keeps maximal ones: every
    pattern occurs in one that is kept, those kept are patterns of the list in
    their order, and none of them occurs in another. *)
Lemma suppressSubPatterns_maximal (ds : list Pattern) : Forall wf ds ->
  exists res, suppressSubPatterns ds = Ok res
    /\ res `sublist_of` ds
    /\ (forall p, p ∈ ds -> exists q, q ∈ res /\ occurs (data p) (data q))
    /\ (forall i j p q, res !! i = Some p -> res !! j = Some q -> occurs (data p) (data q) -> i = j).
Proof.
  intros Hwf. destruct (keep_maximal_spec [] ds Hwf) as (kept & Hk & Hsort & Hin). cbn [app length] in Hk, Hin.
  set (res := omap (fun i => ds !! i) kept) in *. assert (Hall : Forall2 (fun i p => ds !! i = Some p) kept res).
  { assert (Hv : Forall (fun i => is_Some (ds !! i)) kept).
    { apply Forall_forall. intros i [Hi _]%Hin. apply lookup_lt_is_Some. lia. }
    subst res. clear -Hv. induction Hv as [|i kept [p Hp] Hv IH]; [constructor|]. cbn [omap list_omap]. rewrite Hp. by constructor. }
  exists res. unfold suppressSubPatterns. split; [done|]. split; [by eapply picked_sublist|]. split.
  - intros p [i Hi]%list_elem_of_lookup_1. destruct (kept_above ds kept Hwf Hin i p Hi) as (j & q & Hj & Hq & Hocc).
    exists q. split; [|done]. apply list_elem_of_lookup_1 in Hj as [k Hkj].
    destruct (Forall2_lookup_l _ _ _ _ _ Hall Hkj) as (q' & Hq' & Hd). simplify_eq. by eapply list_elem_of_lookup_2.
  - intros i j p q Hp Hq Hocc.
    destruct (Forall2_lookup_r _ _ _ _ _ Hall Hp) as (i' & Hi' & Hdi), (Forall2_lookup_r _ _ _ _ _ Hall Hq) as (j' & Hj' & Hdj).
    destruct (decide (i' = j')) as [->|Hne]; [by eapply NoDup_lookup; [apply sorted_NoDup|..]|exfalso].
    apply list_elem_of_lookup_2, Hin in Hi', Hj'. destruct (occurs_covers ds i' j' p q Hwf Hdi Hdj Hne Hocc) as [Hc|Hc]; naive_solver.
Qed.

(** ** What is mined is frequent *)

(** the number of sequences in which [x] occurs *)
Definition support (x : list Z) (ds : list Pattern) : nat := length (filter (fun s => occurs x (data s)) ds).

(** suffixes of some of the sequences, in order *)
Inductive suffixes : list Pattern -> list Pattern -> Prop :=
  | suffixes_nil : suffixes [] []
  | suffixes_skip s pdb ds : suffixes pdb ds -> suffixes pdb (s :: ds)
  | suffixes_keep p k s pdb ds : wf p -> data p = drop k (data s) -> suffixes pdb ds -> suffixes (p :: pdb) (s :: ds).

Lemma occurs_drop x k l : occurs x (drop k l) -> occurs x l.
Proof. intros H. eapply occurs_trans; [exact H|]. apply occurs_infix. exists (take k l), []. by rewrite app_nil_r, take_drop. Qed.

Lemma support_cons x s ds : support x (s :: ds) = (if bool_decide (occurs x (data s)) then 1 else 0) + support x ds.
Proof. unfold support. rewrite filter_cons. case_bool_decide; by case_decide. Qed.

Lemma support_suffixes x pdb ds : suffixes pdb ds -> support x pdb <= support x ds.
Proof.
  induction 1 as [|s pdb ds _ IH|p k s pdb ds Hp Hd _ IH]; [done|..]; rewrite ?support_cons; [lia|].
  destruct (decide (occurs x (data p))) as [Ho|Ho].
  - rewrite !bool_decide_true; [lia| |done]. rewrite Hd in Ho. by eapply occurs_drop.
  - rewrite (bool_decide_false _ Ho). lia.
Qed.

Lemma suffixes_wf pdb ds : suffixes pdb ds -> Forall wf pdb.
Proof. induction 1; [constructor|done|by constructor]. Qed.

Lemma suffixes_max pdb ds : suffixes pdb ds -> Forall wf ds -> max_len pdb <= max_len ds.
Proof.
  induction 1 as [|s pdb ds _ IH|p k s pdb ds Hp Hd _ IH]; intros Hwf; [done|..]; apply Forall_cons in Hwf as [Hs Hds]; specialize (IH Hds).
  - change (max_len (s :: ds)) with (max (len s) (max_len ds)). lia.
  - change (max (len p) (max_len pdb) <= max (len s) (max_len ds)).
    pose proof (length_data p Hp) as Hl. pose proof (length_data s Hs). rewrite Hd, length_drop in Hl. lia.
Qed.

Lemma find_from_spec p e n i : wf p -> i + n <= len p ->
  exists z, find_from p e n i = Ok z /\ (z = (-1)%Z \/ exists k, z = Z.of_nat k /\ i <= k < i + n /\ data p !! k = Some e).
Proof.
  intros Hp. pose proof (proj2 Hp) as Hbound. induction n as [|n IH] in i |- *; intros Hi; [exists (-1)%Z; by split; [|left]|]. cbn [find_from].
  destruct (subscript_ok p i Hp) as (x & Hx & ->); [lia|]. run_step. destruct (Z.eqb_spec x e) as [->|].
  - exists (Z.of_nat i). split; [by rewrite s32_small by word_lia|]. right. exists i. repeat split; done || lia.
  - destruct (IH (S i)) as (z & -> & Hz); [lia|]. exists z. split; [done|]. destruct Hz as [?|(k & ? & ? & ?)]; [by left|right].
    exists k. repeat split; done || lia.
Qed.

Lemma pattern_slice p s l : wf p -> s + (if l =? 0 then 0 else l) <= len p ->
  wf (slice p s l) /\ data (slice p s l) = take (if l =? 0 then len p - s else l) (drop s (data p)) /\
  len (slice p s l) = (if l =? 0 then len p - s else l).
Proof.
  intros Hp Hs. pose proof Hp as [Hd Hl]. unfold slice, Pattern_range.
  assert (Hlen : (if l =? 0 then size_sub (len p) s else l) = (if l =? 0 then len p - s else l)).
  { destruct (l =? 0); [|done]. apply size_sub_ok; lia. }
  rewrite Hlen. assert (Hle : s + (if l =? 0 then len p - s else l) <= len p) by (destruct (l =? 0); lia).
  unfold wf, data. cbn [seqData start len]. destruct (seqData p) as [d|].
  - split; [split; lia|]. split; [|done]. rewrite skipn_firstn_comm, take_take, drop_drop.
    rewrite (Nat.min_l _ (len p - s)) by lia. done.
  - split; [split; lia|]. split; [|done]. by rewrite drop_nil, take_nil.
Qed.

Lemma findSuffix_spec s pfx : wf s -> wf pfx -> 0 < len pfx ->
  exists p, findSuffix s pfx = Ok p /\ (isEmpty p = true \/ wf p /\ exists k, data p = drop k (data s)).
Proof.
  intros Hs Hp H0. unfold findSuffix. destruct (subscript_ok pfx 0 Hp H0) as (e & He & ->). run_step.
  unfold findFirst. destruct (find_from_spec s e (len s) 0 Hs) as (z & -> & Hz); [lia|]. run_step.
  destruct Hz as [->|(k & -> & Hk & Hek)]; [by eexists; split; [|left]|]. rewrite (proj2 (Z.leb_le _ _)) by lia.
  pose proof (proj2 Hs) as Hbound. unfold guard_else. rewrite (proj2 (Z.ltb_lt _ _)) by lia. run_step. rewrite Nat2Z.id.
  rewrite (for_all_spec _ (fun q => bool_decide (data s !! q = data pfx !! (q - k)))).
  - run_step. eexists. split; [done|]. destruct (forallb _ _); [right|by left].
    destruct (pattern_slice s k 0 Hs) as (Hw & Hd & _); [cbn; lia|]. split; [done|]. exists k. rewrite Hd. cbn [Nat.eqb].
    apply take_ge. rewrite length_drop, (length_data s Hs). lia.
  - intros q Hq. destruct (subscript_ok s q Hs) as (x & Hx & ->); [lia|]. destruct (subscript_ok pfx (q - k) Hp) as (y & Hy & ->); [lia|].
    run_step. rewrite Hx, Hy. f_equal. apply eq_true_iff_eq. rewrite Z.eqb_eq, bool_decide_eq_true. split; [by intros ->|by intros [= ->]].
Qed.

Lemma projected_spec ds pfx : Forall wf ds -> wf pfx -> 0 < len pfx ->
  exists pdb, projectedPatternDB ds pfx = Ok pdb /\ suffixes pdb ds.
Proof.
  intros Hds Hp H0. induction Hds as [|s ds Hs Hds (pdb & IH & Hsuf)]; [by exists []; split; [|constructor]|].
  cbn [projectedPatternDB]. destruct (findSuffix_spec s pfx Hs Hp H0) as (p & -> & Hc). run_step. rewrite IH. run_step.
  destruct (isEmpty p) eqn:E; cbn [negb].
  - exists pdb. split; [done|by constructor].
  - destruct Hc as [?|(Hw & k & Hk)]; [done|]. exists (p :: pdb). split; [done|]. by econstructor.
Qed.

Lemma write_rest_ok p n i : wf p -> i + n <= len p -> exists t, write_rest p n i = Ok t.
Proof.
  intros Hp. induction n as [|n IH] in i |- *; intros Hi; [by eexists|]. cbn [write_rest].
  destruct (subscript_ok p i Hp) as (x & _ & ->); [lia|]. run_step. destruct (IH (S i)) as (t & ->); [lia|]. by eexists.
Qed.

Lemma toString_ok p : wf p -> exists t, toString p = Ok t.
Proof.
  intros Hp. unfold toString. destruct (Nat.eqb_spec (len p) 0); [by eexists|].
  destruct (subscript_ok p 0 Hp) as (x & _ & ->); [lia|]. run_step. destruct (write_rest_ok p (len p - 1) 1 Hp) as (t & ->); [lia|]. by eexists.
Qed.

(** patterns of one length *)
Definition sized (n : nat) (p : Pattern) : Prop := wf p /\ len p = n.

Lemma findSubPatterns_spec p n : wf p -> 0 < n -> Forall (sized n) (findSubPatterns p n) /\ (findSubPatterns p n <> [] -> n <= len p).
Proof.
  intros Hp Hn. unfold findSubPatterns. split.
  - apply Forall_fmap, Forall_forall. intros i [Hi _]%list_elem_of_filter. unfold compose.
    destruct (pattern_slice p i n Hp) as (Hw & _ & Hl); [by destruct (Nat.eqb_spec n 0); lia|].
    split; [done|]. rewrite Hl. destruct (Nat.eqb_spec n 0); [lia|done].
  - intros Hne. destruct (filter _ _) as [|i l] eqn:E; [done|]. assert (Hi : i ∈ filter (fun i => i + n <= len p) (seq 0 (len p))) by (rewrite E; by left).
    apply list_elem_of_filter in Hi. lia.
Qed.

Lemma count_key_sized n key sub (m : list (list Z * Pattern)) : sized n sub -> Forall (fun e => sized n e.2) m ->
  Forall (fun e => sized n e.2) (count_key key (incrFrequency 1) sub m).
Proof.
  intros Hs. induction 1 as [|[k p] m Hp Hm IH]; cbn [count_key]; [by constructor|].
  case_decide; constructor; done.
Qed.

Lemma count_subs_ok n subs m : Forall (sized n) subs -> Forall (fun e => sized n e.2) m ->
  exists m', count_subs subs m = Ok m' /\ Forall (fun e => sized n e.2) m' /\ (subs = [] -> m' = m).
Proof.
  intros Hsubs. induction Hsubs as [|sub subs Hsub Hsubs IH] in m |- *; intros Hm; [by exists m|]. cbn [count_subs].
  destruct (toString_ok sub (proj1 Hsub)) as (key & ->). run_step.
  destruct (IH (count_key key (incrFrequency 1) (Pattern_copy sub 0) m)) as (m' & -> & Hm' & _); [by apply count_key_sized|]. by exists m'.
Qed.

Lemma count_seqs_ok n ds m : 0 < n -> Forall wf ds -> Forall (fun e => sized n e.2) m ->
  exists m', count_seqs ds n m = Ok m' /\ Forall (fun e => sized n e.2) m' /\ (m' = m \/ n <= max_len ds).
Proof.
  intros Hn Hds. induction Hds as [|s ds Hs Hds IH] in m |- *; intros Hm; [by exists m; split; [|split; [|left]]|]. cbn [count_seqs].
  destruct (findSubPatterns_spec s n Hs Hn) as [Hsub Hne]. destruct (count_subs_ok n _ m Hsub Hm) as (m1 & -> & Hm1 & Hnil). run_step.
  destruct (IH m1 Hm1) as (m' & -> & Hm' & Hc). exists m'. split; [done|]. split; [done|].
  change (max_len (s :: ds)) with (max (len s) (max_len ds)).
  destruct (findSubPatterns s n) as [|x l]; [|right; specialize (Hne ltac:(done)); lia]. rewrite Hnil in Hc by done. destruct Hc; [by left|right; lia].
Qed.

(** the entries of a counting map: each key with the number [f] gives it *)
Definition counted {K} (f : K -> nat) (m : list (K * nat)) : Prop := NoDup m.*1 /\ forall k n, (k, n) ∈ m <-> n = f k /\ 0 < n.

Lemma key_of_entry {K V} (k : K) (v : V) m : (k, v) ∈ m -> k ∈ m.*1.
Proof. intros H. apply list_elem_of_fmap. by exists (k, v). Qed.

Lemma count_key_elem {K} `{EqDecision K} (k : K) (m : list (K * nat)) : NoDup m.*1 ->
  NoDup (count_key k S 1 m).*1 /\ (forall x, x ∈ (count_key k S 1 m).*1 <-> x = k \/ x ∈ m.*1) /\
  (forall x n, x <> k -> (x, n) ∈ count_key k S 1 m <-> (x, n) ∈ m) /\
  (forall n, (k, n) ∈ count_key k S 1 m <-> (exists n', n = S n' /\ (k, n') ∈ m) \/ (n = 1 /\ k ∉ m.*1)).
Proof.
  induction m as [|[k' v] m IH]; cbn [count_key]; rewrite ?fmap_cons; cbn [fst].
  - intros _. split; [apply NoDup_singleton|]. split; [intros x; by rewrite elem_of_cons|].
    split; [intros x n Hx|intros n]; rewrite elem_of_cons, ?elem_of_nil; split.
    + intros [[= ? ?]|?]; done.
    + done.
    + intros [[= ->]|?]; [right|done]. split; [done|]. by intros [].
    + intros [(n' & _ & Hn)|[-> _]]; [by apply elem_of_nil in Hn|by left].
  - intros [Hk Hnd]%NoDup_cons. specialize (IH Hnd) as (IH1 & IH2 & IH3 & IH4). case_decide as E.
    + subst k'. rewrite fmap_cons. cbn [fst]. split; [by constructor|]. split; [intros x; rewrite elem_of_cons; naive_solver|].
      split; intros; rewrite !elem_of_cons; [naive_solver|]. split.
      * intros [[= ->]|Hin]; [left; exists v; rewrite elem_of_cons; naive_solver|]. by apply key_of_entry in Hin.
      * intros [(n' & -> & [[= ->]|Hin]%elem_of_cons)|[_ Hno]]; [by left|by apply key_of_entry in Hin|naive_solver].
    + rewrite fmap_cons. cbn [fst]. split; [constructor; [rewrite IH2; naive_solver|done]|].
      split; [intros x; rewrite !elem_of_cons, IH2; naive_solver|]. split; intros; rewrite !elem_of_cons; [rewrite IH3 by done; done|].
      rewrite IH4. split; [|intros [(n' & ? & [?|?]%elem_of_cons)|[? ?]]; naive_solver].
      intros [[= ? ?]|[(n' & -> & ?)|[-> ?]]]; [done|left; exists n'; rewrite elem_of_cons; naive_solver|right; split; [done|]]. by intros [?|?].
Qed.

Lemma count_key_counted {K} `{EqDecision K} (k : K) f (m : list (K * nat)) : counted f m ->
  counted (fun x => if decide (x = k) then S (f x) else f x) (count_key k S 1 m).
Proof.
  intros [Hnd Hm]. destruct (count_key_elem k m Hnd) as (H1 & _ & H3 & H4). split; [done|]. intros x n. case_decide as E.
  - subst x. rewrite H4. split.
    + intros [(n' & -> & [-> ?]%Hm)|[-> Hno]]; [lia|]. destruct (decide (0 < f k)) as [Hp|Hz]; [|lia].
      exfalso. apply Hno, list_elem_of_fmap. exists (k, f k). split; [done|]. by apply Hm.
    + intros [-> _]. destruct (decide (0 < f k)) as [Hp|Hz].
      * left. exists (f k). split; [done|]. by apply Hm.
      * right. split; [lia|]. intros [[k' n] [-> Hin]]%list_elem_of_fmap. apply Hm in Hin as [-> ?]. cbn in *. lia.
  - rewrite H3 by done. apply Hm.
Qed.

(** the sequences that begin with [x] *)
Definition begins (x : list Z) (ds : list Pattern) : nat := length (filter (fun s => take (length x) (data s) = x) ds).

Lemma begins_support x ds : begins x ds <= support x ds.
Proof.
  unfold begins, support. induction ds as [|s ds IH]; [done|]. rewrite !filter_cons. case_decide as H1; case_decide as H2; cbn [length]; try lia.
  exfalso. apply H2, occurs_infix. exists [], (drop (length x) (data s)). cbn. rewrite <- H1 at 1. by rewrite take_drop.
Qed.

Section mining.
Context (map_order : forall A : Type, list A -> list A) (map_order_perm : forall A (l : list A), map_order A l ≡ₚ l).
Context (minSupport : nat).

Lemma findFreqPrefixes_ok n ds : 0 < n -> Forall wf ds ->
  exists ps, findFreqPrefixes map_order minSupport ds n = Ok ps /\ Forall (sized n) ps /\ (ps = [] \/ n <= max_len ds).
Proof.
  intros Hn Hds. unfold findFreqPrefixes. destruct (count_seqs_ok n ds [] Hn Hds) as (m & -> & Hm & Hc); [constructor|]. run_step.
  eexists. split; [done|]. split.
  - apply Forall_forall. intros p [_ Hp]%list_elem_of_filter. apply list_elem_of_fmap in Hp as (e & -> & He). rewrite map_order_perm in He.
    rewrite Forall_forall in Hm. by apply Hm.
  - destruct Hc as [->|?]; [left|by right]. assert (map_order (list Z * Pattern) [] = []) as E by (apply Permutation_nil; by rewrite map_order_perm).
    by rewrite E.
Qed.

Lemma take_S_app (l x : list Z) k : take (length (x ++ [k])) l = x ++ [k] <-> take (length x) l = x /\ l !! length x = Some k.
Proof.
  rewrite length_app, Nat.add_1_r. split.
  - intros H. assert (length x < length l) as Hl.
    { assert (length (take (S (length x)) l) = length (x ++ [k])) as E by (by rewrite H). rewrite length_take, length_app in E. cbn [length] in E. lia. }
    destruct (lookup_lt_is_Some_2 l (length x) Hl) as [y Hy]. rewrite (take_S_r _ _ _ Hy) in H.
    apply app_inj_2 in H as [H1 H2]; [|done]. split; [done|]. congruence.
  - intros [H1 H2]. by rewrite (take_S_r _ _ _ H2), H1.
Qed.

Lemma count_items_ok pattern n ds items f : wf pattern -> len pattern = n -> (Z.of_nat n < 2^31)%Z -> Forall wf ds -> counted f items ->
  exists items', count_items ds pattern (S n) items = Ok items' /\ counted (fun k => f k + begins (data pattern ++ [k]) ds) items'.
Proof.
  intros Hp Hn Hsz Hds. assert (Hsub : size_sub (S n) 1 = n) by (rewrite size_sub_ok; lia). pose proof (length_data pattern Hp) as Hlp. rewrite Hn in Hlp.
  induction Hds as [|s ds Hs Hds IH] in items, f |- *; intros Hc.
  { exists items. split; [done|]. split; [apply Hc|]. intros k m. unfold begins. cbn. rewrite Nat.add_0_r. apply Hc. }
  cbn [count_items]. rewrite Hsub. pose proof (length_data s Hs) as Hls.
  assert (Hskip : (forall k, ~ take (length (data pattern ++ [k])) (data s) = data pattern ++ [k]) ->
    exists items', count_items ds pattern (S n) items = Ok items' /\ counted (fun k => f k + begins (data pattern ++ [k]) (s :: ds)) items').
  { intros Hno. destruct (IH items f Hc) as (items' & -> & Hc'). exists items'. split; [done|]. split; [apply Hc'|]. intros k m.
    unfold begins. rewrite filter_cons_False by apply Hno. apply Hc'. }
  destruct (Nat.leb_spec (len s) n) as [Hle|Hgt].
  { apply Hskip. intros k [_ Hk]%take_S_app. apply lookup_lt_Some in Hk. lia. }
  rewrite isEqualN_spec by done. run_step. destruct (decide (take n (data s) = data pattern)) as [Heq|Hne].
  - rewrite bool_decide_true by (split; [lia|split; [lia|]]; by rewrite (take_ge (data pattern)) by lia).
    rewrite (proj2 (Nat.leb_le (S n) (len s))) by lia. cbn [andb].
    destruct (subscript_ok s n Hs) as (k & Hk & ->); [lia|]. run_step.
    destruct (IH _ _ (count_key_counted k f items Hc)) as (items' & -> & Hc'). exists items'. split; [done|]. split; [apply Hc'|]. intros x m.
    destruct Hc' as [_ Hc']. rewrite Hc'. unfold begins. rewrite filter_cons. destruct (decide (x = k)) as [->|Hx]; case_decide as Hcase; cbn [length].
    + by rewrite Nat.add_succ_r.
    + exfalso. apply Hcase, take_S_app. by rewrite Hlp.
    + exfalso. apply take_S_app in Hcase as [_ Hcase]. rewrite Hlp in Hcase. congruence.
    + done.
  - rewrite bool_decide_false by (intros (_ & _ & He); rewrite (take_ge (data pattern)) in He by lia; done). cbn [andb].
    apply Hskip. intros k [Hk _]%take_S_app. by rewrite Hlp in Hk.
Qed.

Lemma begins_length x ds : Forall wf ds -> 0 < begins x ds -> (Z.of_nat (length x) < 2^31)%Z.
Proof.
  intros Hds. unfold begins. destruct (filter _ ds) as [|s l] eqn:E; [cbn; lia|]. intros _.
  assert (Hs : s ∈ filter (fun s => take (length x) (data s) = x) ds) by (rewrite E; by left). apply list_elem_of_filter in Hs as [Hx Hs].
  rewrite Forall_forall in Hds. specialize (Hds _ Hs). pose proof (length_data s Hds). destruct Hds as [_ Hl].
  assert (length x <= length (data s)) by (rewrite <- Hx, length_take at 1; lia). lia.
Qed.

Lemma grown_ok pattern its : wf pattern -> 0 < len pattern ->
  exists ps, grown its pattern = Ok ps /\
    Forall2 (fun e p => seqData p = Some (data p) /\ start p = 0 /\ len p = length (data p) /\ data p = data pattern ++ [e.1] /\ freq p = if 0 <? e.2 then e.2 else 1) its ps.
Proof.
  intros Hp H0. pose proof (length_data pattern Hp) as Hl.
  assert (Hconcat : forall k, concat_item pattern k = Ok (Pattern_vec (data pattern ++ [k]) 1)).
  { intros k. unfold concat_item, data. destruct Hp as [Hw _]. destruct (seqData pattern) as [d|]; [|lia]. by rewrite (proj2 (Nat.leb_le _ _) Hw). }
  induction its as [|[k m] its (ps & IH & Hps)]; [by exists []; split; [|constructor]|]. cbn [grown]. rewrite Hconcat. run_step. rewrite IH. run_step.
  eexists. split; [done|]. constructor; [|done]. cbn [fst snd]. generalize (data pattern ++ [k]) (length_app (data pattern) [k]). intros x Hx.
  unfold data. cbn [Pattern_copy Pattern_vec seqData start len freq fst snd length] in *. by rewrite drop_0, take_ge by done.
Qed.

(** the patterns grown from a prefix: one for each number that follows it, with
    the number of sequences that begin so *)
Lemma growPattern_ok pattern n ds : wf pattern -> len pattern = n -> 0 < n -> (Z.of_nat n < 2^31)%Z -> Forall wf ds ->
  exists ps, growPattern map_order ds pattern (S n) = Ok ps
    /\ Forall (fun p => wf p /\ 0 < freq p /\ freq p = begins (data p) ds /\ exists k, data p = data pattern ++ [k]) ps
    /\ (forall k, 0 < begins (data pattern ++ [k]) ds -> exists p, p ∈ ps /\ data p = data pattern ++ [k]).
Proof.
  intros Hp Hn H0 Hsz Hds. unfold growPattern.
  destruct (count_items_ok pattern n ds [] (fun _ => 0) Hp Hn Hsz Hds) as (items & -> & Hnd & Hin).
  { split; [constructor|]. intros k m. split; [intros H; by apply elem_of_nil in H|lia]. }
  run_step. cbn [Nat.add] in Hin.
  assert (Hin' : forall k m, (k, m) ∈ map_order _ items <-> m = begins (data pattern ++ [k]) ds /\ 0 < m) by (intros k m; by rewrite map_order_perm).
  destruct (grown_ok pattern (map_order _ items)) as (ps & -> & Hps); [done|lia|]. exists ps. split; [done|]. split.
  - apply Forall_forall. intros p [i Hi]%list_elem_of_lookup_1. destruct (Forall2_lookup_r _ _ _ _ _ Hps Hi) as ([k m] & Hkm & Hs & Hst & Hl & Hd & Hf).
    apply list_elem_of_lookup_2, Hin' in Hkm as [Hm Hpos]. cbn [fst snd] in Hd, Hf. rewrite (proj2 (Nat.ltb_lt _ _) Hpos) in Hf.
    assert (Hbeg : freq p = begins (data p) ds) by (by rewrite Hd, Hf). split; [|split; [lia|split; [done|by exists k]]].
    unfold wf. rewrite Hs, Hst, Hl. split; [done|]. apply (begins_length _ ds Hds). lia.
  - intros k Hk. assert (Hkm : (k, begins (data pattern ++ [k]) ds) ∈ map_order _ items) by (by apply Hin').
    apply list_elem_of_lookup_1 in Hkm as [i Hi]. destruct (Forall2_lookup_l _ _ _ _ _ Hps Hi) as (p & Hpi & _ & _ & _ & Hd & _).
    exists p. split; [by eapply list_elem_of_lookup_2|done].
Qed.

(** what is reported for a data set *)
Definition frequent (ds : list Pattern) (p : Pattern) : Prop := wf p /\ minSupport <= freq p /\ freq p <= support (data p) ds.

Lemma frequent_suffixes pdb ds p : suffixes pdb ds -> frequent pdb p -> frequent ds p.
Proof. intros Hs (Hw & Hm & Hf). split; [done|]. split; [done|]. etrans; [exact Hf|]. by apply support_suffixes. Qed.

Lemma collect_ok {A B} (f : A -> result (list B)) (P : B -> Prop) l :
  (forall x, x ∈ l -> exists r, f x = Ok r /\ Forall P r) -> exists r, collect f l = Ok r /\ Forall P r.
Proof.
  induction l as [|x l IH]; intros H; [by exists []|]. cbn [collect]. destruct (H x) as (r & -> & Hr); [by left|].
  destruct IH as (r' & IH & Hr'); [intros y Hy; apply H; by right|]. run_step. rewrite IH. run_step. eexists. split; [done|]. by apply Forall_app.
Qed.

Lemma max_len_bound ds : Forall wf ds -> (Z.of_nat (max_len ds) < 2^31)%Z.
Proof. induction 1 as [|s ds [_ Hs] Hds IH]; [done|]. change (max_len (s :: ds)) with (max (len s) (max_len ds)). lia. Qed.

Lemma mine_step fuel ds n : mine map_order minSupport (S fuel) ds n =
  (prefixes ← findFreqPrefixes map_order minSupport ds (n + 1);
   collect (fun prefix =>
     pdb ← projectedPatternDB ds prefix;
     patterns ← growPattern map_order pdb prefix (n + 2);
     collect (fun pattern =>
       if minSupport <=? freq pattern then nextResult ← mine map_order minSupport fuel pdb (n + 1); Ok (pattern :: nextResult)
       else Ok []) patterns) prefixes).
Proof. reflexivity. Qed.

Lemma mine_ok fuel ds n : Forall wf ds -> max_len ds <= fuel + n ->
  exists res, mine map_order minSupport (S fuel) ds n = Ok res /\ Forall (frequent ds) res.
Proof.
  induction fuel as [|fuel IH] in ds, n |- *; intros Hds Hmax.
  all: destruct (findFreqPrefixes_ok (n + 1) ds ltac:(lia) Hds) as (ps & Hps & Hsized & Hc).
  all: rewrite mine_step, Hps; run_step.
  { destruct Hc as [->|?]; [by exists []|lia]. }
  apply collect_ok. intros pfx Hpfx. rewrite Forall_forall in Hsized. destruct (Hsized _ Hpfx) as [Hw Hl].
  assert (Hlen : n + 1 <= max_len ds) by (destruct Hc as [->|]; [by apply elem_of_nil in Hpfx|done]). pose proof (max_len_bound ds Hds).
  destruct (projected_spec ds pfx Hds Hw ltac:(lia)) as (pdb & -> & Hsuf). run_step.
  pose proof (suffixes_wf _ _ Hsuf) as Hpdb. pose proof (suffixes_max _ _ Hsuf Hds) as Hpmax.
  destruct (growPattern_ok pfx (n + 1) pdb Hw Hl ltac:(lia) ltac:(lia) Hpdb) as (pats & Hpats & Hall & _).
  replace (n + 2) with (S (n + 1)) by lia. rewrite Hpats. run_step.
  apply collect_ok. intros p Hp. rewrite Forall_forall in Hall. destruct (Hall _ Hp) as (Hwp & _ & Hf & _).
  destruct (Nat.leb_spec minSupport (freq p)); [|by exists []].
  destruct (IH pdb (n + 1) Hpdb ltac:(lia)) as (res & -> & Hres). run_step. eexists. split; [done|]. constructor.
  - apply (frequent_suffixes _ _ _ Hsuf). split; [done|]. split; [done|]. rewrite Hf. apply begins_support.
  - eapply Forall_impl; [exact Hres|]. intros q. by apply frequent_suffixes.
Qed.
End mining.

(** ** Which pairs are found *)

(** the text of a sequence; different sequences have different texts *)
Definition csv (l : list Z) : list Z := match l with [] => [] | x :: l => print_int x ++ (l ≫= fun y => COMMA :: print_int y) end.

Lemma print_int_inj x y : print_int x = print_int y -> x = y.
Proof.
  assert (Hread : forall z, exists d, NilZero.int_of_string (string_of (print_int z)) = Some d /\ Z.of_int d = z).
  { intros z. unfold print_int. rewrite string_of_chars. pose proof (DecimalZ.of_to z) as Ht.
    destruct (Z.to_int z) as [u|u]; rewrite <- Ht; destruct u.
    1,12: by eexists.
    all: by (eexists; split; [apply NilZero.isi|]). }
  intros H. destruct (Hread x) as (d & Hd & <-), (Hread y) as (d' & Hd' & <-). rewrite H in Hd. congruence.
Qed.

Lemma separated_inj (c : Z) u v r r' : Forall (fun x => x <> c) u -> Forall (fun x => x <> c) v ->
  match r with [] => True | x :: _ => x = c end -> match r' with [] => True | x :: _ => x = c end ->
  u ++ r = v ++ r' -> u = v /\ r = r'.
Proof.
  intros Hu. induction Hu as [|x u Hx Hu IH] in v |- *; intros Hv Hr Hr' H; destruct Hv as [|y v Hy Hv]; cbn in H.
  - done.
  - subst r. by subst.
  - subst r'. by subst.
  - injection H as -> H. destruct (IH v Hv Hr Hr' H) as [-> ->]. done.
Qed.

Lemma csv_inj l l' : csv l = csv l' -> l = l'.
Proof.
  assert (Hchars : forall x, Forall (fun c => c <> COMMA) (print_int x) /\ print_int x <> []).
  { intros x. destruct (print_int_chars x) as [H ?]. split; [|done]. eapply Forall_impl; [exact H|]. by intros c (_ & ? & _). }
  assert (Hrest : forall l : list Z, match l ≫= (fun y => COMMA :: print_int y) with [] => True | x :: _ => x = COMMA end) by (by intros []).
  assert (Htail : forall l l' : list Z, l ≫= (fun y => COMMA :: print_int y) = l' ≫= (fun y => COMMA :: print_int y) -> l = l').
  { induction l0 as [|x l0 IH]; intros [|y l1] H; try done. rewrite !bind_cons in H. cbn in H. injection H as H.
    destruct (separated_inj COMMA _ _ _ _ (proj1 (Hchars x)) (proj1 (Hchars y)) (Hrest l0) (Hrest l1) H) as [Hx Hl].
    f_equal; [by apply print_int_inj|by apply IH]. }
  destruct l as [|x l], l' as [|y l']; cbn; intros H; try done.
  - symmetry in H. apply app_nil in H as [H _]. by apply Hchars in H.
  - apply app_nil in H as [H _]. by apply Hchars in H.
  - destruct (separated_inj COMMA _ _ _ _ (proj1 (Hchars x)) (proj1 (Hchars y)) (Hrest l) (Hrest l') H) as [Hx Hl].
    f_equal; [by apply print_int_inj|by apply Htail].
Qed.

Lemma write_rest_csv p n i : wf p -> i + n = len p -> write_rest p n i = Ok (drop i (data p) ≫= fun y => COMMA :: print_int y).
Proof.
  intros Hp. pose proof (proj2 Hp) as Hbound. induction n as [|n IH] in i |- *; intros Hi.
  - cbn. rewrite drop_ge; [done|]. rewrite (length_data p Hp). lia.
  - cbn [write_rest]. destruct (subscript_ok p i Hp) as (x & Hx & ->); [lia|]. run_step. rewrite IH by lia. run_step.
    by rewrite (drop_S _ _ _ Hx), bind_cons.
Qed.

Lemma toString_csv p : wf p -> toString p = Ok (csv (data p)).
Proof.
  intros Hp. unfold toString. pose proof (length_data p Hp) as Hl. destruct (Nat.eqb_spec (len p) 0) as [E|E].
  - destruct (data p); [done|cbn in Hl; lia].
  - destruct (subscript_ok p 0 Hp) as (x & Hx & ->); [lia|]. run_step. rewrite write_rest_csv by (done || lia). run_step.
    destruct (data p) as [|y l]; [done|]. cbn in Hx. simplify_eq. cbn [drop csv]. by rewrite drop_0.
Qed.

(** the sub-sequences counted so far: one entry for each, with its number *)
Definition same_data (x : list Z) (subs : list Pattern) : nat := length (filter (fun s => data s = x) subs).
Definition tallied (subs : list Pattern) (m : list (list Z * Pattern)) : Prop :=
  NoDup m.*1 /\ (forall key p, (key, p) ∈ m -> wf p /\ key = csv (data p) /\ freq p = same_data (data p) subs)
  /\ (forall s, s ∈ subs -> csv (data s) ∈ m.*1).

Lemma same_data_snoc x subs s : same_data x (subs ++ [s]) = same_data x subs + (if bool_decide (data s = x) then 1 else 0).
Proof. unfold same_data. rewrite list.filter_app, length_app, filter_cons, filter_nil. case_bool_decide; by case_decide. Qed.
Lemma count_key_split {K} `{EqDecision K} {V} (k : K) (upd : V -> V) new m : NoDup m.*1 ->
  (k ∉ m.*1 /\ count_key k upd new m = m ++ [(k, new)]) \/
  (exists m1 v m2, m = m1 ++ (k, v) :: m2 /\ k ∉ m1.*1 /\ k ∉ m2.*1 /\ count_key k upd new m = m1 ++ (k, upd v) :: m2).
Proof.
  induction m as [|[k' v] m IH]; cbn [count_key]; [intros _; left; split; [by intros ?%elem_of_nil|done]|]. rewrite fmap_cons. cbn [fst].
  intros [Hk Hnd]%NoDup_cons. case_decide as E.
  - subst k'. right. exists [], v, m. repeat split; [by intros ?%elem_of_nil|done].
  - destruct (IH Hnd) as [[Hno ->]|(m1 & v' & m2 & -> & H1 & H2 & ->)].
    + left. split; [|done]. rewrite elem_of_cons. naive_solver.
    + right. exists ((k', v) :: m1), v', m2. rewrite fmap_cons. repeat split; [rewrite elem_of_cons; naive_solver|done].
Qed.

Lemma tally subs m s : wf s -> freq s = 1 -> Forall wf subs -> tallied subs m ->
  tallied (subs ++ [s]) (count_key (csv (data s)) (incrFrequency 1) (Pattern_copy s 0) m).
Proof.
  intros Hs Hf Hsubs (Hnd & Hm & Hin).
  assert (Hold : forall key p, (key, p) ∈ m -> key <> csv (data s) -> wf p /\ key = csv (data p) /\ freq p = same_data (data p) (subs ++ [s])).
  { intros key p Hp Hne. destruct (Hm _ _ Hp) as (Hw & -> & Hfp). split; [done|]. split; [done|].
    rewrite same_data_snoc, bool_decide_false by congruence. lia. }
  destruct (count_key_split (csv (data s)) (incrFrequency 1) (Pattern_copy s 0) m Hnd) as [[Hno ->]|(m1 & p & m2 & -> & H1 & H2 & ->)].
  - split; [|split].
    + rewrite fmap_app. apply NoDup_app. split; [done|]. split; [|apply NoDup_singleton]. intros x Hx ->%list_elem_of_singleton. done.
    + intros key q [Hq|Hq]%elem_of_app; [apply Hold; [done|]; intros ->; by apply key_of_entry in Hq|].
      apply list_elem_of_singleton in Hq as [= -> ->]. split; [done|]. split; [done|]. change (freq s = same_data (data s) (subs ++ [s])).
      rewrite same_data_snoc, bool_decide_true by done. rewrite Hf. enough (same_data (data s) subs = 0) by lia.
      unfold same_data. destruct (filter _ subs) as [|q l] eqn:E; [done|]. exfalso.
      assert (Hq : q ∈ filter (fun x => data x = data s) subs) by (rewrite E; by left). apply list_elem_of_filter in Hq as [Hd Hq].
      apply Hno. rewrite <- Hd. by apply Hin.
    + intros q [Hq|Hq]%elem_of_app; rewrite fmap_app, elem_of_app; [left; by apply Hin|right]. apply list_elem_of_singleton in Hq as ->. by left.
  - destruct (Hm (csv (data s)) p) as (Hw & Hkey & Hfp); [apply elem_of_app; right; by left|]. apply csv_inj in Hkey. split; [|split].
    + rewrite fmap_app, fmap_cons in *. done.
    + intros key q [Hq|[Hq|Hq]%elem_of_cons]%elem_of_app.
      * apply Hold; [apply elem_of_app; by left|]. intros ->. by apply key_of_entry in Hq.
      * injection Hq as -> ->. split; [done|]. split; [by f_equal|]. change (freq p + 1 = same_data (data p) (subs ++ [s])).
        rewrite same_data_snoc, bool_decide_true by done. lia.
      * apply Hold; [apply elem_of_app; right; by right|]. intros ->. by apply key_of_entry in Hq.
    + intros q [Hq|Hq]%elem_of_app; rewrite fmap_app, fmap_cons in *.
      * by apply Hin.
      * apply list_elem_of_singleton in Hq as ->. apply elem_of_app. right. by left.
Qed.

Lemma count_subs_tally subs done_ m : Forall wf subs -> Forall (fun s => freq s = 1) subs -> Forall wf done_ -> tallied done_ m ->
  exists m', count_subs subs m = Ok m' /\ tallied (done_ ++ subs) m'.
Proof.
  intros Hs Hf. induction Hs as [|s subs Hs Hsubs IH] in done_, m, Hf |- *; intros Hd Hm; [exists m; by rewrite app_nil_r|].
  apply Forall_cons in Hf as [Hfs Hf]. cbn [count_subs]. rewrite toString_csv by done. run_step.
  destruct (IH (done_ ++ [s]) (count_key (csv (data s)) (incrFrequency 1) (Pattern_copy s 0) m) Hf) as (m' & -> & Hm').
  - apply Forall_app. split; [done|]. by constructor.
  - by apply tally.
  - exists m'. by rewrite <- app_assoc in Hm'.
Qed.

Lemma findSubPatterns_freq s n : Forall (fun p => freq p = 1) (findSubPatterns s n).
Proof. unfold findSubPatterns. apply Forall_fmap, Forall_forall. done. Qed.

Lemma count_seqs_tally n ds done_ m : 0 < n -> Forall wf ds -> Forall wf done_ -> tallied done_ m ->
  exists m', count_seqs ds n m = Ok m' /\ tallied (done_ ++ (ds ≫= fun s => findSubPatterns s n)) m'.
Proof.
  intros Hn Hds. induction Hds as [|s ds Hs Hds IH] in done_, m |- *; intros Hd Hm; [exists m; by rewrite app_nil_r|].
  cbn [count_seqs]. destruct (findSubPatterns_spec s n Hs Hn) as [Hsub _].
  assert (Hw : Forall wf (findSubPatterns s n)) by (eapply Forall_impl; [exact Hsub|]; by intros p []).
  destruct (count_subs_tally _ done_ m Hw (findSubPatterns_freq s n) Hd Hm) as (m1 & -> & Hm1). run_step.
  destruct (IH (done_ ++ findSubPatterns s n) m1) as (m' & -> & Hm'); [by apply Forall_app|done|].
  exists m'. rewrite bind_cons. by rewrite <- app_assoc in Hm'.
Qed.

(** the prefixes that are found are the sub-sequences counted often enough *)
Lemma findFreqPrefixes_complete (map_order : forall A : Type, list A -> list A) minSupport ds n x :
  (forall A (l : list A), map_order A l ≡ₚ l) -> 0 < n -> Forall wf ds ->
  let k := same_data x (ds ≫= fun s => findSubPatterns s n) in 0 < k -> minSupport <= k ->
  exists ps p, findFreqPrefixes map_order minSupport ds n = Ok ps /\ p ∈ ps /\ data p = x.
Proof.
  intros Hperm Hn Hds k Hk Hmin. unfold findFreqPrefixes.
  destruct (count_seqs_tally n ds [] [] Hn Hds) as (m & -> & Hnd & Hm & Hin); [constructor| |].
  { split; [constructor|]. split; [intros key p H; by apply elem_of_nil in H|intros s H; by apply elem_of_nil in H]. }
  run_step. cbn [app] in Hm, Hin. subst k. unfold same_data in Hk. destruct (filter _ _) as [|s l] eqn:E; [cbn in Hk; lia|].
  assert (Hs : s ∈ filter (fun s => data s = x) (ds ≫= fun s => findSubPatterns s n)) by (rewrite E; by left).
  apply list_elem_of_filter in Hs as [<- Hs]. specialize (Hin _ Hs). apply list_elem_of_fmap in Hin as ([key p] & Hkey & Hp). cbn in Hkey. subst key.
  destruct (Hm _ _ Hp) as (Hw & Hd & Hf). apply csv_inj in Hd. eexists _, p. split; [done|]. split; [|done].
  apply list_elem_of_filter. split; [by rewrite Hf, <- Hd|]. apply list_elem_of_fmap. exists (csv (data s), p). split; [done|]. by rewrite Hperm.
Qed.
(** what follows the first occurrence of a number *)
Fixpoint index_of (e : Z) (l : list Z) : option nat :=
  match l with [] => None | x :: l => if (x =? e)%Z then Some 0 else S <$> index_of e l end.
Definition after_first (a : Z) (l : list Z) : option Z := k ← index_of a l; l !! S k.
Definition followers (a b : Z) (ds : list Pattern) : nat := length (filter (fun s => after_first a (data s) = Some b) ds).

Lemma index_of_Some e l k : index_of e l = Some k -> l !! k = Some e.
Proof.
  induction l as [|x l IH] in k |- *; [done|]. cbn [index_of]. destruct (Z.eqb_spec x e) as [->|]; [by intros [= <-]|].
  destruct (index_of e l) as [j|]; [|done]. intros [= <-]. by apply IH.
Qed.

Lemma find_from_index p e n i : wf p -> i + n = len p ->
  find_from p e n i = Ok (match index_of e (drop i (data p)) with Some k => Z.of_nat (i + k) | None => (-1)%Z end).
Proof.
  intros Hp. pose proof (proj2 Hp) as Hbound. induction n as [|n IH] in i |- *; intros Hi.
  - cbn. rewrite drop_ge; [done|]. rewrite (length_data p Hp). lia.
  - cbn [find_from]. destruct (subscript_ok p i Hp) as (x & Hx & ->); [lia|]. run_step. rewrite (drop_S _ _ _ Hx). cbn [index_of].
    destruct (Z.eqb_spec x e); [by rewrite Nat.add_0_r, s32_small by word_lia|]. rewrite IH by lia. destruct (index_of e (drop (S i) (data p))) as [k|]; [|done].
    cbn [fmap option_fmap option_map]. do 2 f_equal. lia.
Qed.

(** behind 2^31 elements the first occurrence is reported as a negative number,
    and [findSuffix] finds none *)
Lemma find_first_narrows p e n i : subscript_op p i = Ok e -> (2^31 <= Z.of_nat i < 2^32)%Z ->
  find_from p e (S n) i = Ok (Z.of_nat i - 2^32)%Z.
Proof.
  intros Hx Hi. cbn [find_from]. rewrite Hx. run_step. rewrite Z.eqb_refl. f_equal. unfold s32.
  replace (Z.of_nat i + 2^31)%Z with (Z.of_nat i - 2^31 + 1 * 2^32)%Z by lia. rewrite Z.mod_add by lia. rewrite Z.mod_small; lia.
Qed.

(** the suffix behind a prefix of one number *)
Lemma findSuffix_single s pfx a : wf s -> wf pfx -> data pfx = [a] ->
  findSuffix s pfx = Ok (match index_of a (data s) with Some k => slice s k 0 | None => Pattern_empty 1 end).
Proof.
  intros Hs Hp Ha. pose proof (length_data pfx Hp) as Hl. rewrite Ha in Hl. cbn [length] in Hl. unfold findSuffix.
  destruct (subscript_ok pfx 0 Hp) as (e & He & ->); [lia|]. run_step. rewrite Ha in He. injection He as <-.
  unfold findFirst. rewrite find_from_index by done. run_step. rewrite drop_0. destruct (index_of a (data s)) as [k|] eqn:Hk; [|done]. cbn [Nat.add].
  pose proof (lookup_lt_Some _ _ _ (index_of_Some _ _ _ Hk)) as Hlt.
  rewrite (proj2 (Z.leb_le _ _)) by lia. pose proof (proj2 Hs) as Hbound.
  unfold guard_else. rewrite (proj2 (Z.ltb_lt _ _)) by (pose proof (length_data s Hs); lia). run_step. rewrite Nat2Z.id. by replace (min (len s) (len pfx) - (k + 1)) with 0 by lia.
Qed.

Lemma slice_found s a k : wf s -> index_of a (data s) = Some k ->
  isEmpty (slice s k 0) = false /\ forall b, take 2 (data (slice s k 0)) = [a; b] <-> data s !! S k = Some b.
Proof.
  intros Hs Hk. pose proof (index_of_Some _ _ _ Hk) as Hkk. pose proof (lookup_lt_Some _ _ _ Hkk) as Hlt. rewrite (length_data s Hs) in Hlt.
  destruct (pattern_slice s k 0 Hs) as (Hw & Hd & Hl); [cbn; lia|]. cbn [Nat.eqb] in Hd, Hl.
  rewrite take_ge in Hd by (rewrite length_drop, (length_data s Hs); lia). rewrite (drop_S _ _ _ Hkk) in Hd. split.
  - unfold isEmpty. rewrite Hl. rewrite (proj2 (Nat.eqb_neq _ _)) by lia. cbn [orb]. destruct (seqData (slice s k 0)) eqn:E; [done|].
    exfalso. unfold data in Hd at 1. by rewrite E in Hd.
  - intros b. rewrite Hd. rewrite <- (Nat.add_0_r (S k)) at 2. rewrite <- lookup_drop. destruct (drop (S k) (data s)) as [|y l]; cbn; [done|].
    rewrite take_0. split; [by intros [= ->]|by intros [= ->]].
Qed.

Lemma projected_single ds pfx a b : Forall wf ds -> wf pfx -> data pfx = [a] ->
  exists pdb, projectedPatternDB ds pfx = Ok pdb /\ begins [a; b] pdb = followers a b ds.
Proof.
  intros Hds Hp Ha. induction Hds as [|s ds Hs Hds (pdb & IH & Hb)]; [by exists []|]. cbn [projectedPatternDB].
  rewrite (findSuffix_single s pfx a) by done. run_step. rewrite IH. run_step. unfold followers. rewrite filter_cons.
  case_decide as H2; unfold after_first in H2; destruct (index_of a (data s)) as [k|] eqn:Hk; cbn [mbind option_bind] in H2; [|done| |by exists pdb].
  all: destruct (slice_found s a k Hs Hk) as (He & Hiff); rewrite He; cbn [negb]; eexists; (split; [done|]); unfold begins; rewrite filter_cons;
    case_decide as H1; cbn [length] in *; rewrite Hiff in H1; try tauto; unfold begins, followers in Hb; cbn [length] in Hb; congruence.
Qed.

Lemma collect_elem {A B} (f : A -> result (list B)) l r x :
  collect f l = Ok r -> x ∈ l -> exists ys, f x = Ok ys /\ forall y, y ∈ ys -> y ∈ r.
Proof.
  induction l as [|z l IH] in r |- *; intros Hr Hx; [by apply elem_of_nil in Hx|]. cbn [collect] in Hr.
  bind_inv Hr as (out & Hout & Hr). bind_inv Hr as (rest & Hrest & Hr). injection Hr as <-.
  apply elem_of_cons in Hx as [->|Hx].
  - exists out. split; [done|]. intros y Hy. apply elem_of_app. by left.
  - destruct (IH _ Hrest Hx) as (ys & Hys & Hy). exists ys. split; [done|]. intros y Hin. apply elem_of_app. right. by apply Hy.
Qed.

Lemma followers_counted a b ds : Forall wf ds -> followers a b ds <= same_data [a] (ds ≫= fun s => findSubPatterns s 1).
Proof.
  intros Hds. unfold followers, same_data. induction Hds as [|s ds Hs Hds IH]; [done|]. rewrite bind_cons, list.filter_app, length_app, filter_cons.
  case_decide as Hc; cbn [length]; [|lia]. enough (1 <= length (filter (fun q => data q = [a]) (findSubPatterns s 1))) by lia.
  unfold after_first in Hc. destruct (index_of a (data s)) as [k|] eqn:Hk; [|done]. pose proof (index_of_Some _ _ _ Hk) as Hkk.
  pose proof (lookup_lt_Some _ _ _ Hkk) as Hlt. rewrite (length_data s Hs) in Hlt.
  destruct (pattern_slice s k 1 Hs) as (_ & Hd & _); [cbn; lia|]. cbn [Nat.eqb] in Hd. rewrite (drop_S _ _ _ Hkk) in Hd. cbn in Hd. rewrite take_0 in Hd.
  assert (Hin : slice s k 1 ∈ filter (fun q => data q = [a]) (findSubPatterns s 1)).
  { apply list_elem_of_filter. split; [done|]. unfold findSubPatterns. apply list_elem_of_fmap. exists k. split; [done|].
    apply list_elem_of_filter. split; [lia|]. apply elem_of_seq. lia. }
  destruct (filter _ (findSubPatterns s 1)); [by apply elem_of_nil in Hin|cbn; lia].
Qed.

(** C37: mining sequences shorter than 2^31 (the code returns positions as
    [int]s: [find_first_narrows]) comes to an end without an error, whatever
    order the hash maps are traversed in; every pattern it reports has a
    frequency of at least the minimal support and occurs, without gaps, in at
    least so many of the sequences; and every pair of numbers is reported for
    which enough sequences have the second right behind the first occurrence of
    the first. *)
Theorem mined_patterns_frequent (map_order : forall A : Type, list A -> list A) (minSupport : nat) (ds : list Pattern) :
  (forall A (l : list A), map_order A l ≡ₚ l) -> Forall wf ds ->
  exists res, mineFreqPatterns map_order minSupport ds = Ok res
    /\ (forall p, p ∈ res -> minSupport <= freq p <= support (data p) ds)
    /\ (forall a b, 0 < followers a b ds -> minSupport <= followers a b ds ->
          exists p, p ∈ res /\ data p = [a; b] /\ freq p = followers a b ds).
Proof.
  intros Hperm Hds. unfold mineFreqPatterns. destruct (mine_ok map_order Hperm minSupport (max_len ds) ds 0 Hds) as (res & Hmine & Hres); [lia|].
  exists res. split; [done|]. split.
  - intros p Hp. rewrite Forall_forall in Hres. destruct (Hres p Hp) as (_ & ? & ?). done.
  - intros a b Hpos Hmin. pose proof (followers_counted a b ds Hds) as Hf. pose proof (max_len_bound ds Hds).
    destruct (findFreqPrefixes_complete map_order minSupport ds 1 [a] Hperm) as (ps & pfx & Hps & Hpfx & Ha); [lia|done|lia|lia|].
    destruct (findFreqPrefixes_ok map_order Hperm minSupport 1 ds) as (ps' & Hps' & Hsized & Hc); [lia|done|]. assert (ps' = ps) as -> by congruence.
    rewrite Forall_forall in Hsized. destruct (Hsized _ Hpfx) as [Hw Hl].
    destruct (projected_single ds pfx a b Hds Hw Ha) as (pdb & Hpdb & Hbeg).
    destruct (projected_spec ds pfx Hds Hw) as (pdb' & Hpdb' & Hsuf); [lia|]. assert (pdb' = pdb) as -> by congruence.
    destruct (growPattern_ok map_order Hperm pfx 1 pdb Hw Hl) as (pats & Hpats & Hall & Hcomplete); [lia|lia|by eapply suffixes_wf|].
    rewrite Ha in Hcomplete. destruct (Hcomplete b) as (p & Hp & Hd); [cbn; lia|]. rewrite Forall_forall in Hall.
    destruct (Hall p Hp) as (_ & _ & Hfp & _). rewrite Hd in Hfp. cbn [app] in Hfp, Hd. exists p. split; [|split; [done|congruence]].
    rewrite mine_step in Hmine. cbn [Nat.add] in Hmine. rewrite Hps in Hmine. cbn [mbind result_bind] in Hmine.
    destruct (collect_elem _ _ _ _ Hmine Hpfx) as (out & Hout & Hin). rewrite Hpdb in Hout. cbn [mbind result_bind] in Hout.
    rewrite Hpats in Hout. cbn [mbind result_bind] in Hout.
    destruct (collect_elem _ _ _ _ Hout Hp) as (here & Hhere & Hin'). rewrite (proj2 (Nat.leb_le _ _)) in Hhere by lia.
    bind_inv Hhere as (next & _ & Hnext). injection Hnext as <-. apply Hin, Hin'. by left.
Qed.

(** ** Examples *)

Definition demo_order (A : Type) (l : list A) : list A := l.
Definition demo_ds : list Pattern := [Pattern_vec [1; 2; 3]%Z 1; Pattern_vec [5; 1; 2; 3]%Z 1; Pattern_vec [2; 1; 2]%Z 1].
Lemma demo_wf : Forall wf demo_ds.
Proof. unfold wf. repeat constructor. Qed.

Lemma mined_patterns_frequent_witness :
  exists res, mineFreqPatterns demo_order 2 demo_ds = Ok res
    /\ (forall p, p ∈ res -> 2 <= freq p <= support (data p) demo_ds)
    /\ (forall a b, 0 < followers a b demo_ds -> 2 <= followers a b demo_ds ->
          exists p, p ∈ res /\ data p = [a; b] /\ freq p = followers a b demo_ds).
Proof. apply (mined_patterns_frequent demo_order 2 demo_ds); [reflexivity|apply demo_wf]. Defined.

Lemma suppressSubPatterns_maximal_witness :
  exists res, suppressSubPatterns demo_ds = Ok res
    /\ res `sublist_of` demo_ds
    /\ (forall p, p ∈ demo_ds -> exists q, q ∈ res /\ occurs (data p) (data q))
    /\ (forall i j p q, res !! i = Some p -> res !! j = Some q -> occurs (data p) (data q) -> i = j).
Proof. apply (suppressSubPatterns_maximal demo_ds), demo_wf. Defined.

(** Only the first occurrence of the first number of a prefix is looked at: the
    pair 1, 3 occurs in both sequences and is not found. *)
Lemma later_occurrence_missed :
  let ds := [Pattern_vec [1; 2; 1; 3]%Z 1; Pattern_vec [1; 3]%Z 1] in
  support [1; 3]%Z ds = 2 /\ mineFreqPatterns demo_order 2 ds = Ok [].
Proof. by vm_compute. Qed.

Example frequent_trajectories :
  match findFrequentTrajectories demo_order demo_ds with Ok res => map (fun p => (data p.1, freq p.1)) res | Err _ => [] end = [([1; 2; 3]%Z, 2)].
Proof. by vm_compute. Qed.
