(* ===== verification/Tracker.v ===== *)
(** * Tracker: the tracks of users

    [usecases/FreqTrajectories/TrackerServer.cpp]: the waypoints of users, which
    arrive and leave with a window, are collected in a table of tracks by
    [Pipe::updateTable], and the tracks are mined for frequent trajectories
    ([PatternMining.v]). *)

From S2P Require Import Prelude Tables PatternMining.

(** the coordinates of the landmark, which no operation below uses, are left out *)
Record Waypoint := mkWaypoint { uid : Z; landmarkID : Z; ts : Z }.
Record Trackpoint := mkTrackpoint { tp_ts : Z; tp_landmarkID : Z }.

(** [UserTrack]: the user and the path *)
Abbreviation UserTrack := (Z * list Trackpoint)%type.

(** the functions that [main] passes to [updateTable] *)
Definition point (tp : Waypoint) : Trackpoint := mkTrackpoint (ts tp) (landmarkID tp).
Definition track_update (tp : Waypoint) (outdated : bool) (rec : UserTrack) : UserTrack * bool := ((rec.1, rec.2 ++ [point tp]), true).
Definition track_insert (tp : Waypoint) : UserTrack := (uid tp, [point tp]).

Abbreviation tracks := (HashMap.HashMapTable Z UserTrack).

Definition collect (tp : Waypoint) (outdated : bool) (t : tracks) : result (Waypoint * tracks) :=
  HashMap.updateTable_func uid track_update track_insert tp outdated t.

Fixpoint collect_all (l : list (Waypoint * bool)) (t : tracks) : result tracks :=
  match l with [] => Ok t | (tp, outdated) :: l => '(_, t) ← collect tp outdated t; collect_all l t end.

(** [pvec] is a vector of [int]: the ids of landmarks are [unsigned] *)
Definition userTrackToPattern (tp : UserTrack) : Pattern := Pattern_vec ((fun p => s32 (tp_landmarkID p)) <$> tp.2) 1.

(** ** What is in a track *)

(** retractions before the first insertion find no record *)
Fixpoint from_first_insertion (l : list (Waypoint * bool)) : list (Waypoint * bool) :=
  match l with (_, true) :: l => from_first_insertion l | _ => l end.

Definition of_user (u : Z) (l : list (Waypoint * bool)) : list (Waypoint * bool) := filter (fun e => uid e.1 = u) l.

Definition track_of (u : Z) (l : list (Waypoint * bool)) : option UserTrack :=
  match from_first_insertion (of_user u l) with [] => None | l => Some (u, (fun e => point e.1) <$> l) end.

Lemma collect_data tp outdated (t : tracks) :
  exists t', collect tp outdated t = Ok (tp, t') /\
    forall u, HashMap.mDataTable t' !! u =
      if decide (uid tp = u) then
        match HashMap.mDataTable t !! u with
        | Some rec => Some (rec.1, rec.2 ++ [point tp])
        | None => if outdated then None else Some (u, [point tp])
        end
      else HashMap.mDataTable t !! u.
Proof.
  unfold collect, HashMap.updateTable_func.
  pose proof (HashMap.updateOrDeleteByKey_spec (uid tp) (track_update tp outdated) (if outdated then None else Some (track_insert tp)) t) as Hs.
  destruct (HashMap.mDataTable t !! uid tp) as [rec|] eqn:Hk; destruct outdated; cbn [negb snd track_update] in *.
  - destruct Hs as (t' & -> & Hd & _). exists t'. split; [done|]. intros u. rewrite Hd, lookup_insert.
    case_decide as Hu; [|done]. subst. by rewrite Hk.
  - destruct Hs as (t' & -> & Hd & _). exists t'. split; [done|]. intros u. rewrite Hd, lookup_insert.
    case_decide as Hu; [|done]. subst. by rewrite Hk.
  - rewrite Hs. exists t. split; [done|]. intros u. case_decide as Hu; [|done]. by rewrite <- Hu, Hk.
  - destruct Hs as (t' & -> & Hd). exists t'. split; [done|]. intros u. rewrite Hd, lookup_insert.
    case_decide as Hu; [|done]. subst. by rewrite Hk.
Qed.

(** The track of a user has a point for every insertion and, from the first one
    on, one for every retraction too: what leaves the window is recorded again
    and nothing is removed. *)
Lemma tracks_record_everything l : forall t0 : tracks, (forall u, HashMap.mDataTable t0 !! u = None) ->
  exists t, collect_all l t0 = Ok t /\ forall u, HashMap.mDataTable t !! u = track_of u l.
Proof.
  intros t0 H0.
  assert (forall l t, exists t', collect_all l t = Ok t' /\ forall u, HashMap.mDataTable t' !! u =
    match HashMap.mDataTable t !! u with
    | Some rec => Some (rec.1, rec.2 ++ ((fun e => point e.1) <$> of_user u l))
    | None => track_of u l
    end) as Hall.
  { clear. induction l as [|[tp o] l IH]; intros t; cbn [collect_all].
    - exists t. split; [done|]. intros u. destruct (HashMap.mDataTable t !! u) as [[? ?]|]; [|done]. cbn. by rewrite app_nil_r.
    - destruct (collect_data tp o t) as (t1 & -> & Hd). run_step. destruct (IH t1) as (t' & -> & Hl). exists t'. split; [done|].
      intros u. rewrite Hl, Hd. unfold track_of, of_user. rewrite filter_cons. cbn [fst].
      case_decide as Hu; [|done]. destruct (HashMap.mDataTable t !! u) as [[u' p]|]; cbn [fst snd].
      + by rewrite <- app_assoc.
      + by destruct o. }
  destruct (Hall l t0) as (t & Ht & Hl). exists t. split; [done|]. intros u. by rewrite Hl, H0.
Qed.

(** A user who visits the landmarks 1 and 2 while the first visit leaves the
    window: the track says 1, 2, 1. *)
Example left_window :
  track_of 5 [(mkWaypoint 5 1 10, false); (mkWaypoint 5 2 20, false); (mkWaypoint 5 1 10, true)] =
    Some (5, [mkTrackpoint 10 1; mkTrackpoint 20 2; mkTrackpoint 10 1]).
Proof. reflexivity. Qed.
