(* ===== verification/TxOperators.v ===== *)
(** * TxOperators: the operators on transactional tables

    [ToTxTable.hpp], which writes a stream into a table under the transactions its
    punctuations announce, [FromTxTables.hpp], which reads some keys from all
    tables of a group in one transaction, and [SelectFromTxTable.hpp].  They are
    written against the interface [TxTableOps] of a table type, with an instance
    for the multi-version tables of [MVCC.v].

    Other threads run between any two accesses of a reader: [env n] is what they
    do to the tables and the context before access [n].  The theorems ask of them
    what their own commits guarantee ([commit_is_environment]). *)

From S2P Require Import Prelude StateContext Tables MVCC MVCCProtocol Stream Operators.

(** [restarts++], [txCntR++] *)
Definition count_restart (c : ctx) : ctx := mkCtx (nextTxID c) (topoGrps c) (regStates c) (tToTX c) (u64 (restarts c + 1))
  (txCntR c) (txCntW c) (usedSlots c) (activeTxs c) (oldestVisibleVersion c) (numStates c) (numGroups c).
Definition count_reader (c : ctx) : ctx := mkCtx (nextTxID c) (topoGrps c) (regStates c) (tToTX c) (restarts c)
  (u64 (txCntR c + 1)) (txCntW c) (usedSlots c) (activeTxs c) (oldestVisibleVersion c) (numStates c) (numGroups c).

(** ** The interface

    [W] is the state of the group: its tables, by number, and the context they
    share. *)
Class TxTableOps (W R : Type) := {
  tx_ctx : W -> ctx;
  tx_set_ctx : ctx -> W -> W;
  tx_begin : nat -> Z -> W -> result W;
  tx_preCommit : nat -> Z -> W -> result W;
  tx_commit : nat -> Z -> W -> result W;
  tx_abort : nat -> Z -> W -> result W;
  tx_insert : nat -> Z -> Z -> R -> W -> result W;
  tx_deleteByKey : nat -> Z -> Z -> W -> result W;
  tx_getByKey : nat -> Z -> Z -> W -> result (Errc * option R * W);
  tx_readCommit : nat -> Z -> list Z -> nat -> W -> result (Errc * W);
  tx_cleanUpReads : nat -> list Z -> nat -> W -> result W;
}.

(** [boost::any_cast<TransactionID>(punctuation->data())] *)
Definition transaction_of (p : punctuation) : result Z :=
  match pdata p with Some id => Ok id | None => Err (Throws "boost::bad_any_cast") end.

Section operators.
Context {W R : Type} `{TxTableOps W R}.

(** ** ToTxTable *)
Section to_tx.
Context (mTable : nat) (mKeyFunc mTxFunc : R -> Z) (mAutoCommit : bool).

Definition to_tx_processPunctuation (p : punctuation) (w : W) : result (list (message R) * W) :=
  w ← match ptype p with
      | TxBegin => id ← transaction_of p; tx_begin mTable id w
      | TxCommit => id ← transaction_of p; tx_preCommit mTable id w
      | TxAbort => id ← transaction_of p; tx_abort mTable id w
      | _ => Ok w
      end;
  Ok ([MPunct p], w).

Definition to_tx_processDataElement (data : R) (outdated : bool) (w : W) : result (list (message R) * W) :=
  let txID := mTxFunc data in
  let key := mKeyFunc data in
  w ← (if outdated then tx_deleteByKey mTable txID key w else tx_insert mTable txID key data w);
  w ← (if mAutoCommit then tx_commit mTable txID w else Ok w);
  Ok ([MData data outdated], w).

Definition to_tx_step (m : message R) (w : W) : result (list (message R) * W) :=
  match m with
  | MData data outdated => to_tx_processDataElement data outdated w
  | MPunct p => to_tx_processPunctuation p w
  end.

(** *** ToMVCCTable: the same on a multi-version table *)
Definition to_mvcc_processPunctuation (p : punctuation) (w : W) : result (list (message R) * W) :=
  w ← (if decide (ptype p = TxCommit) then id ← transaction_of p; tx_preCommit mTable id w
       else if decide (ptype p = TxAbort) then id ← transaction_of p; tx_abort mTable id w
       else if decide (ptype p = TxBegin) then id ← transaction_of p; tx_begin mTable id w
       else Ok w);
  Ok ([MPunct p], w).

Definition to_mvcc_processDataElement (data : R) (outdated : bool) (w : W) : result (list (message R) * W) :=
  let txID := mTxFunc data in
  let key := mKeyFunc data in
  w ← (if outdated then tx_deleteByKey mTable txID key w else tx_insert mTable txID key data w);
  w ← (if mAutoCommit then tx_commit mTable txID w else Ok w);
  Ok ([MData data outdated], w).

Definition to_mvcc_step (m : message R) (w : W) : result (list (message R) * W) :=
  match m with
  | MData data outdated => to_mvcc_processDataElement data outdated w
  | MPunct p => to_mvcc_processPunctuation p w
  end.

Lemma to_mvcc_same m w : to_mvcc_step m w = to_tx_step m w.
Proof.
  destruct m as [data o|p]; [done|]. cbn [to_mvcc_step to_tx_step]. unfold to_mvcc_processPunctuation, to_tx_processPunctuation.
  by destruct (ptype p).
Qed.
End to_tx.

(** ** FromTxTables *)
Section from_tx.
Context (env : nat -> W -> W).

(** one key from the states [ss]: the values, or the state that failed *)
Fixpoint read_states (ss : list nat) (txn key : Z) (n : nat) (w : W) : result ((list R + nat) * nat * W) :=
  match ss with
  | [] => Ok (inl [], n, w)
  | i :: ss =>
      '(e, v, w) ← tx_getByKey i txn key (env n w);
      match e, v with
      | SUCCESS, Some r =>
          '(rest, n, w) ← read_states ss txn key (S n) w;
          Ok (match rest with inl l => inl (r :: l) | inr i => inr i end, n, w)
      | _, _ => Ok (inr i, S n, w)
      end
  end.

(** all keys from [j] on: a row of values per key, or the key and state that
    failed *)
Fixpoint read_keys (j : nat) (keys : list Z) (txn : Z) (n : nat) (w : W) : result ((list (list R) + nat * nat) * nat * W) :=
  match keys with
  | [] => Ok (inl [], n, w)
  | key :: keys =>
      '(row, n, w) ← read_states (seq 0 MAX_STATES_TOPO) txn key n w;
      match row with
      | inr i => Ok (inr (j, i), n, w)
      | inl row =>
          '(rest, n, w) ← read_keys (S j) keys txn n w;
          Ok (match rest with inl rows => inl (row :: rows) | inr f => inr f end, n, w)
      end
  end.

(** [f] on the states in turn *)
Fixpoint for_states (ss : list nat) (f : nat -> W -> result W) (w : W) : result W :=
  match ss with
  | [] => Ok w
  | s :: ss => w ← f s w; for_states ss f w
  end.

Fixpoint read_commits (ss : list nat) (txn : Z) (keys : list Z) (w : W) : result (list Errc * W) :=
  match ss with
  | [] => Ok ([], w)
  | s :: ss =>
      '(e, w) ← tx_readCommit s txn keys (length keys) w;
      '(es, w) ← read_commits ss txn keys w;
      Ok (e :: es, w)
  end.

Definition ctx_op {A} (f : ctx -> result (A * ctx)) (w : W) : result (A * W) :=
  '(a, c) ← f (tx_ctx w); Ok (a, tx_set_ctx c w).

(** the rounds of [start]; fuel: one unit per round *)
Fixpoint from_tx_rounds (fuel : nat) (keys : list Z) (txn : Z) (n : nat) (w : W)
    : result (list (list R) * Z * nat * W) :=
  match fuel with
  | O => Err Waits
  | S fuel =>
      '(r, n, w) ← read_keys 0 keys txn n w;
      match r with
      | inr (j, i) =>
          let w := tx_set_ctx (count_restart (tx_ctx w)) w in
          w ← for_states (seq 0 MAX_STATES_TOPO) (fun s => tx_cleanUpReads s keys (if (s <? i)%nat then S j else j)) w;
          '(_, w) ← ctx_op (fun c => c ← setReadCTS c txn 0 0; Ok (tt, c)) w;
          from_tx_rounds fuel keys txn n w
      | inl rows =>
          '(status, w) ← read_commits (seq 0 MAX_STATES_TOPO) txn keys w;
          if forallb (fun e => bool_decide (e = SUCCESS)) status then Ok (rows, txn, n, w)
          else
            let w := tx_set_ctx (count_restart (tx_ctx w)) w in
            '(_, w) ← ctx_op (fun c => c ← removeTx txn c; Ok (tt, c)) w;
            '(txn, w) ← ctx_op newTx w;
            from_tx_rounds fuel keys txn n w
      end
  end.

(** [tpls[s][o]]: the rows by state *)
Definition column (s : nat) (rows : list (list R)) : list R := rows ≫= fun row => option_list (row !! s).

(** [start], for the keys the generators have drawn *)
Definition from_tx_start (fuel : nat) (mKeys : list Z) (w : W) : result (list (message R) * nat * W) :=
  '(txn, w) ← ctx_op newTx w;
  let w := tx_set_ctx (count_reader (tx_ctx w)) w in
  '(rows, txn, _, w) ← from_tx_rounds fuel mKeys txn 0 w;
  let out := (seq 0 MAX_STATES_TOPO ≫= fun s => (fun r => MData r false) <$> column s rows) in
  w ← for_states (seq 0 MAX_STATES_TOPO) (fun s => tx_cleanUpReads s mKeys (length mKeys)) w;
  '(_, w) ← ctx_op (fun c => c ← removeTx txn c; Ok (tt, c)) w;
  Ok (out ++ [MPunct (mkPunct EndOfStream None)], (MAX_STATES_TOPO * length mKeys)%nat, w).
End from_tx.
End operators.

Lemma read_states_ok {W R} `{TxTableOps W R} (env : nat -> W -> W) i ss txn key n w v w1 l n' (w' : W) :
  tx_getByKey i txn key (env n w) = Ok (SUCCESS, Some v, w1) ->
  read_states env ss txn key (S n) w1 = Ok (inl l, n', w') ->
  read_states env (i :: ss) txn key n w = Ok (inl (v :: l), n', w').
Proof. intros H1 H2. cbn [read_states]. rewrite H1. run_step. by rewrite H2. Qed.

Lemma read_keys_ok {W R} `{TxTableOps W R} (env : nat -> W -> W) j key keys txn n w row n1 w1 rows n' (w' : W) :
  read_states env (seq 0 MAX_STATES_TOPO) txn key n w = Ok (inl row, n1, w1) ->
  read_keys env (S j) keys txn n1 w1 = Ok (inl rows, n', w') ->
  read_keys env j (key :: keys) txn n w = Ok (inl (row :: rows), n', w').
Proof. intros H1 H2. cbn [read_keys]. rewrite H1. run_step. by rewrite H2. Qed.

(** ** SelectFromTxTable

    [mPredicate] is never set: the constructor ignores the predicate it is
    given.  [select] is what the table's iterators visit. *)
Definition select_tx_start {R} (select : option (R -> bool) -> list R) (pred : option (R -> bool))
    : list (message R) * nat :=
  let mPredicate : option (R -> bool) := None in
  let rows := match mPredicate with None => select None | Some p => select (Some p) end in
  (((fun r => MData r false) <$> rows) ++ [MPunct (mkPunct EndOfStream None)], length rows).

(** ** Multi-version tables *)

Section mvcc.
Context {T R : Type} (V fuel : nat) (ltR : R -> R -> bool) (dflt : R).
Context {ops : TableOps T Z (MVCCObject R)}.

Definition on_table {A} (tr : nat) (f : MVCCTable T R -> result (A * MVCCTable T R)) (g : group T R) : result (A * group T R) :=
  t ← get_at (g_tables g) tr;
  '(a, t) ← f t;
  g ← set_table tr t g;
  Ok (a, g).

Definition mvcc_tx_ops : TxTableOps (group T R) R := {|
  tx_ctx := g_ctx;
  tx_set_ctx c g := mkGroup c (g_tables g);
  tx_begin tr id g :=
    t ← get_at (g_tables g) tr;
    let '(t, c) := transactionBegin id t (g_ctx g) in
    set_table tr t (mkGroup c (g_tables g));
  tx_preCommit tr id g := '(_, g) ← transactionPreCommit V ltR dflt fuel id tr g; Ok g;
  tx_commit tr id g := '(_, g) ← commit_at V ltR dflt fuel id tr g; Ok g;
  tx_abort tr id g := '(_, g) ← on_table tr (fun t => Ok (tt, transactionAbort id t)) g; Ok g;
  tx_insert tr id key rec g := '(_, g) ← on_table tr (fun t => Ok (mvcc_insert id key rec t)) g; Ok g;
  tx_deleteByKey tr id key g := '(_, g) ← on_table tr (fun t => Ok (mvcc_deleteByKey id key t)) g; Ok g;
  tx_getByKey tr id key g :=
    t ← get_at (g_tables g) tr;
    '(e, v, c) ← mvcc_getByKey id key t (g_ctx g);
    Ok (e, v, mkGroup c (g_tables g));
  tx_readCommit tr id keys until g := Ok (MVCC.readCommit id keys until, g);
  tx_cleanUpReads tr keys until g := Ok g;
|}.
End mvcc.

(** ** A reader among other threads *)

Section reader.
Context {T R : Type} (V fuel : nat) (ltR : R -> R -> bool) (dflt : R).
Context {ops : TableOps T Z (MVCCObject R)} {laws : TableLaws T Z (MVCCObject R)}.

#[local] Hint Extern 0 (TxTableOps (group T R) _) => exact (mvcc_tx_ops V fuel ltR dflt) : typeclass_instances.

(** the value of [key] in state [i] at snapshot [ts] *)
Definition snap (i : nat) (key ts : Z) (g : group T R) : option R :=
  t ← g_tables g !! i; snapshot (tbl t) key ts.

(** transaction [txn] reads at slot [pos]; it writes nothing *)
Record reader_ok (txn : Z) (pos : nat) (a : ActiveTx) (g : group T R) : Prop := {
  ro_wf : ctx_wf (g_ctx g);
  ro_live : live_at (g_ctx g) pos a;
  ro_id : at_id a = txn;
  ro_tables : length (g_tables g) = MAX_STATES_TOPO;
  ro_table : forall i t, g_tables g !! i = Some t ->
    ws_txnID (writeSet t) <> txn /\ exists id, table_wf V id (tbl t);
}.

(** every key has a value in the last commit, in every state *)
Definition covered (keys : list Z) (g : group T R) : Prop :=
  exists last, getLastCTS (g_ctx g) 0 = Ok last /\ last <> 0 /\
    forall i key, (i < MAX_STATES_TOPO)%nat -> key ∈ keys -> is_Some (snap i key last g).

(** what the reader relies on: the others leave its slot alone, keep the tables
    well formed, do not take the values of its keys away, and do not change the
    snapshot it reads *)
Definition relies (env : nat -> group T R -> group T R) (txn : Z) (keys : list Z) : Prop :=
  forall n pos a g, reader_ok txn pos a g ->
    reader_ok txn pos a (env n g) /\
    (covered keys g -> covered keys (env n g)) /\
    (read0 a <> 0 -> forall i key, snap i key (read0 a) (env n g) = snap i key (read0 a) g).

(** the first read takes the last commit as the snapshot *)
Lemma tx_first txn pos a g i t key o last :
  reader_ok txn pos a g -> read0 a = 0 -> getLastCTS (g_ctx g) 0 = Ok last ->
  g_tables g !! i = Some t -> tbl_get (tbl t) key = Some o ->
  let a' := mkActiveTx (at_id a) (at_write a) [last] in
  exists g', tx_getByKey i txn key g = Ok ((read_result (snap i key last g), g')) /\
    reader_ok txn pos a' g' /\ g_tables g' = g_tables g.
Proof.
  intros [Hwf Hlive Hid Hlen Htab] Hz Hlast Hi Ho a'. destruct (Htab i t Hi) as (Hown & id & Htw).
  destruct (fixed_reader_live (g_ctx g) pos a last Hwf Hlive Hlast) as [Hwf' Hlive'].
  exists (mkGroup (fixed_reader (g_ctx g) pos a) (g_tables g)). cbn [tx_getByKey mvcc_tx_ops].
  rewrite (get_at_Some _ _ _ Hi). run_step. subst txn.
  rewrite (getByKey_first V id t (g_ctx g) pos a key o last Hwf Hlive Hz Hown Hlast Htw Ho). run_step.
  unfold snap. rewrite Hi. cbn [mbind option_bind]. destruct (read_result _) as [e v]. by split_and!.
Qed.

Lemma tx_fixed txn pos a g i t key :
  reader_ok txn pos a g -> read0 a <> 0 -> g_tables g !! i = Some t ->
  tx_getByKey i txn key g = Ok (read_result (snap i key (read0 a) g), g).
Proof.
  intros [Hwf Hlive Hid Hlen Htab] Hnz Hi. destruct (Htab i t Hi) as (Hown & id & Htw).
  cbn [tx_getByKey mvcc_tx_ops]. rewrite (get_at_Some _ _ _ Hi). run_step. subst txn.
  rewrite (getByKey_reader V id t (g_ctx g) pos a key Hwf Hlive Hnz Hown Htw). run_step.
  unfold snap. rewrite Hi. cbn [mbind option_bind]. destruct (read_result _) as [e v]. by destruct g.
Qed.

Lemma state_lookup txn pos a g i : reader_ok txn pos a g -> (i < MAX_STATES_TOPO)%nat ->
  exists t, g_tables g !! i = Some t.
Proof. intros H Hi. apply lookup_lt_is_Some_2. by rewrite (ro_tables _ _ _ _ H). Qed.

(** an attempt that reads a value *)
Definition read_ok (env : nat -> group T R -> group T R) (txn : Z) (pos : nat) (n : nat) (g : group T R) (ts : Z)
    (i : nat) (key : Z) (v : R) (g' : group T R) (a' : ActiveTx) : Prop :=
  tx_getByKey i txn key (env n g) = Ok (SUCCESS, Some v, g') /\ reader_ok txn pos a' g' /\ read0 a' = ts.

Context (env : nat -> group T R -> group T R) (txn : Z) (keys : list Z) (Henv : relies env txn keys).

(** with a fixed snapshot, in which the keys have the values [val] *)
Section fixed.
Context (pos : nat) (a : ActiveTx) (val : nat -> Z -> R) (Hts : read0 a <> 0).

Definition shows (g : group T R) : Prop :=
  reader_ok txn pos a g /\
  forall i key, (i < MAX_STATES_TOPO)%nat -> key ∈ keys -> snap i key (read0 a) g = Some (val i key).

Lemma shows_env n g : shows g -> shows (env n g).
Proof.
  intros [Hr Hs]. destruct (Henv n pos a g Hr) as (Hr' & _ & Hst). split; [done|].
  intros i key Hi Hk. by rewrite Hst, Hs.
Qed.

Lemma read_states_fixed ss key n g : Forall (fun i => (i < MAX_STATES_TOPO)%nat) ss -> key ∈ keys -> shows g ->
  exists g', read_states env ss txn key n g = Ok (inl ((fun i => val i key) <$> ss), (n + length ss)%nat, g') /\ shows g'.
Proof.
  intros Hss Hk. revert n g. induction Hss as [|i ss Hi _ IH]; intros n g Hg.
  { exists g. by rewrite Nat.add_0_r. }
  pose proof (shows_env n g Hg) as Hg1. destruct (state_lookup _ _ _ _ i (proj1 Hg1) Hi) as [t Ht].
  cbn [read_states]. rewrite (tx_fixed txn pos a (env n g) i t key (proj1 Hg1) Hts Ht), (proj2 Hg1) by done.
  cbn [read_result]. run_step. destruct (IH (S n) (env n g) Hg1) as (g' & -> & Hg'). run_step.
  exists g'. split; [|done]. rewrite fmap_cons. do 2 f_equal. f_equal. simpl. lia.
Qed.

Lemma read_keys_fixed ks j n g : Forall (fun k => k ∈ keys) ks -> shows g ->
  exists g', read_keys env j ks txn n g =
      Ok (inl ((fun k => (fun i => val i k) <$> seq 0 MAX_STATES_TOPO) <$> ks), (n + MAX_STATES_TOPO * length ks)%nat, g') /\
    shows g'.
Proof.
  intros Hks. revert j n g. induction Hks as [|k ks Hk _ IH]; intros j n g Hg.
  { exists g. simpl. by rewrite Nat.add_0_r. }
  cbn [read_keys].
  destruct (read_states_fixed (seq 0 MAX_STATES_TOPO) k n g) as (g1 & -> & Hg1); [|done..|].
  { apply Forall_forall. intros i Hi%elem_of_seq. lia. }
  run_step. destruct (IH (S j) (n + length (seq 0 MAX_STATES_TOPO))%nat g1 Hg1) as (g2 & -> & Hg2). run_step.
  exists g2. split; [|done]. rewrite fmap_cons. do 2 f_equal. f_equal. rewrite length_seq. unfold MAX_STATES_TOPO. cbn [length]. lia.
Qed.
End fixed.

(** the first attempt, with the snapshot still open *)
Lemma read_keys_first pos a g k0 ks : keys = k0 :: ks -> reader_ok txn pos a g -> read0 a = 0 -> covered keys g ->
  exists ts val a' g',
    getLastCTS (g_ctx (env 0 g)) 0 = Ok ts  /\
    (forall i key, (i < MAX_STATES_TOPO)%nat -> key ∈ keys -> snap i key ts (env 0 g) = Some (val i key))  /\
    read_keys env 0 keys txn 0 g =
      Ok (inl ((fun k => (fun i => val i k) <$> seq 0 MAX_STATES_TOPO) <$> keys), (MAX_STATES_TOPO * length keys)%nat, g')  /\
    read0 a' <> 0 /\ shows pos a' val g'.
Proof.
  intros Hkeys Hr Hz Hc. destruct (Henv 0%nat pos a g Hr) as (Hr1 & Hc1 & _). specialize (Hc1 Hc).
  destruct Hc1 as (ts & Hlast & Hnz & Hcov). set (g1 := env 0 g) in *.
  exists ts, (fun i key => default dflt (snap i key ts g1)).
  assert (forall i key, (i < MAX_STATES_TOPO)%nat -> key ∈ keys -> snap i key ts g1 = Some (default dflt (snap i key ts g1))) as Hval.
  { intros i key Hi Hk. by destruct (Hcov i key Hi Hk) as [v ->]. }
  destruct (state_lookup _ _ _ _ 0%nat Hr1 ltac:(unfold MAX_STATES_TOPO; lia)) as [t0 Ht0].
  assert (k0 ∈ keys) as Hk0 by (rewrite Hkeys; by left).
  destruct (tbl_get (tbl t0) k0) as [o|] eqn:Ho.
  2: { specialize (Hval 0%nat k0 ltac:(unfold MAX_STATES_TOPO; lia) Hk0). unfold snap in Hval. rewrite Ht0 in Hval.
       cbn [mbind option_bind] in Hval. unfold snapshot in Hval. by rewrite Ho in Hval. }
  destruct (tx_first txn pos a g1 0%nat t0 k0 o ts Hr1 Hz Hlast Ht0 Ho) as (g2 & Hget & Hr2 & Htab2).
  set (a' := mkActiveTx (at_id a) (at_write a) [ts]) in *. set (val := fun i key => default dflt (snap i key ts g1)) in *.
  assert (read0 a' <> 0) as Hts' by done.
  assert (shows pos a' val g2) as Hs2.
  { split; [done|]. intros i key Hi Hk. unfold snap at 1. rewrite Htab2. by apply Hval. }
  destruct (read_states_fixed pos a' val Hts' [1%nat] k0 1%nat g2) as (g3 & Hrow & Hs3); [|done|done|].
  { repeat constructor; unfold MAX_STATES_TOPO; lia. }
  destruct (read_keys_fixed pos a' val Hts' ks 1%nat 2%nat g3) as (g4 & Hrest & Hs4); [|done|].
  { apply Forall_forall. intros k Hk. rewrite Hkeys. by right. }
  exists a', g4. split; [done|]. split; [done|]. split; [|done].
  rewrite Hval in Hget by (done || unfold MAX_STATES_TOPO; lia). cbn [read_result] in Hget.
  rewrite Hkeys. eapply read_keys_ok; [eapply (read_states_ok env 0%nat); [exact Hget|exact Hrow]|].
  change (MAX_STATES_TOPO * length (k0 :: ks))%nat with (MAX_STATES_TOPO * S (length ks))%nat.
  replace (MAX_STATES_TOPO * S (length ks))%nat with (2 + MAX_STATES_TOPO * length ks)%nat by (unfold MAX_STATES_TOPO; lia).
  exact Hrest.
Qed.
End reader.

(** ** Starting and leaving *)

Lemma newTx_live c : ctx_wf c -> nextTxID c + 1 < 2^64 -> usedSlots c <> UINT64_MAX ->
  exists c' pos, newTx c = Ok (nextTxID c, c') /\ ctx_wf c' /\
    live_at c' pos (mkActiveTx (nextTxID c) [Active; Active] [0]) /\ topoGrps c' = topoGrps c.
Proof.
  intros Hwf Hov Hfree. destruct (newTx_unfold c Hwf Hfree) as (pos & (Hrange & _) & Hnew).
  do 2 eexists. split; [exact Hnew|]. split; [apply claim_slot_wf; (done || lia)|]. split; [|done]. split; simpl.
  - rewrite set_bit_testbit by lia. by rewrite bool_decide_eq_true_2.
  - apply list_lookup_insert_eq. rewrite (wf_len c Hwf). lia.
Qed.

(** a removed transaction holds no slot any more *)
Lemma removeTx_live c pos a : ctx_wf c -> live_at c pos a -> exists c', removeTx (at_id a) c = Ok c' /\ ctx_wf c' /\
  forall p b, live_at c' p b -> at_id b <> at_id a.
Proof.
  intros Hwf Hlive. destruct (removeTx_spec c pos a Hwf Hlive) as (c' & Hrem & Hwf' & Hgone & Hothers & _).
  exists c'. split_and!; [done|done|]. intros p b Hb Hid. destruct (decide (p = pos)) as [->|Hp]; [by eapply Hgone|].
  apply Hothers in Hb; [|done]. apply Hp. eapply (wf_unique c Hwf); [exact (proj2 Hb)|exact (proj2 Hlive)|exact Hid|].
  exact (wf_live c Hwf _ _ (proj1 Hb) (proj2 Hb)).
Qed.

(** a reader may start: a free slot, well-formed tables, none of which is being
    written under its id *)
Record can_start {T R : Type} (V : nat) {ops : TableOps T Z (MVCCObject R)} (g : group T R) : Prop := {
  cs_wf : ctx_wf (g_ctx g);
  cs_next : nextTxID (g_ctx g) + 1 < 2^64;
  cs_free : usedSlots (g_ctx g) <> UINT64_MAX;
  cs_tables : length (g_tables g) = MAX_STATES_TOPO;
  cs_table : forall i t, g_tables g !! i = Some t ->
    ws_txnID (writeSet t) <> nextTxID (g_ctx g) /\ exists id, table_wf V id (tbl t);
}.

Section start.
Context {T R : Type} (V fuel : nat) (ltR : R -> R -> bool) (dflt : R).
Context {ops : TableOps T Z (MVCCObject R)} {laws : TableLaws T Z (MVCCObject R)}.
#[local] Hint Extern 0 (TxTableOps (group T R) _) => exact (mvcc_tx_ops V fuel ltR dflt) : typeclass_instances.

Lemma start_reader (g : group T R) : can_start V g ->
  exists c1 pos, newTx (g_ctx g) = Ok (nextTxID (g_ctx g), c1) /\
    let g1 := mkGroup (count_reader c1) (g_tables g) in
    reader_ok V (nextTxID (g_ctx g)) pos (mkActiveTx (nextTxID (g_ctx g)) [Active; Active] [0]) g1 /\
    (forall keys, covered keys g -> covered keys g1).
Proof.
  intros [Hwf Hov Hfree Hlen Htab]. destruct (newTx_live (g_ctx g) Hwf Hov Hfree) as (c1 & pos & Hnew & Hwf1 & Hlive & Htopo).
  exists c1, pos. split; [done|]. split; [by split; try done; destruct Hwf1; split|].
  intros keys (last & Hlast & Hnz & Hcov). exists last. split; [|done].
  unfold getLastCTS in *. cbn [g_ctx count_reader topoGrps]. by rewrite Htopo.
Qed.

Lemma column_rows (val : nat -> Z -> R) (keys : list Z) s : (s < MAX_STATES_TOPO)%nat ->
  column s ((fun k => (fun i => val i k) <$> seq 0 MAX_STATES_TOPO) <$> keys) = val s <$> keys.
Proof.
  intros Hs. unfold column. induction keys as [|k keys IH]; [done|]. rewrite !fmap_cons.
  assert (((fun i => val i k) <$> seq 0 MAX_STATES_TOPO) !! s = Some (val s k)) as Hrow
    by (by rewrite list_lookup_fmap, lookup_seq_lt).
  by rewrite bind_cons, Hrow, IH.
Qed.

(** ** Livelock *)

Context (txn : Z) (i0 : nat) (k0 : Z).

Definition lacks (g : group T R) : Prop := forall t, g_tables g !! i0 = Some t -> tbl_get (tbl t) k0 = None.

Lemma tx_any pos a g i key : reader_ok V txn pos a g -> (i < MAX_STATES_TOPO)%nat ->
  exists e v a' g', tx_getByKey i txn key g = Ok (e, v, g') /\ reader_ok V txn pos a' g' /\ g_tables g' = g_tables g /\
    (i = i0 -> key = k0 -> lacks g -> e = NOT_FOUND).
Proof.
  intros Hr Hi. destruct (state_lookup _ _ _ _ _ i Hr Hi) as [t Ht].
  destruct (tbl_get (tbl t) key) as [o|] eqn:Ho.
  - assert (i = i0 -> key = k0 -> ~ lacks g) as Hnl by (intros -> -> Hl; rewrite (Hl t Ht) in Ho; done).
    destruct (decide (read0 a = 0)) as [Hz|Hnz].
    + destruct (getLastCTS_wf (g_ctx g) (ro_wf _ _ _ _ _ Hr)) as [last Hlast].
      destruct (tx_first V fuel ltR dflt txn pos a g i t key o last Hr Hz Hlast Ht Ho) as (g' & Hget & Hr' & Htab).
      destruct (read_result _) as [e v]. exists e, v, (mkActiveTx (at_id a) (at_write a) [last]), g'.
      split_and!; [done..|]. intros H1 H2 H3. by destruct (Hnl H1 H2).
    + pose proof (tx_fixed V fuel ltR dflt txn pos a g i t key Hr Hnz Ht) as Hget.
      destruct (read_result _) as [e v]. exists e, v, a, g. split_and!; [done..|]. intros H1 H2 H3. by destruct (Hnl H1 H2).
  - exists NOT_FOUND, None, a, g. split_and!; [|done..]. cbn [tx_getByKey mvcc_tx_ops].
    rewrite (get_at_Some _ _ _ Ht). run_step. unfold mvcc_getByKey.
    rewrite (proj2 (Z.eqb_neq _ _) (proj1 (ro_table _ _ _ _ _ Hr i t Ht))), Ho. run_step. by destruct g.
Qed.

Context (env : nat -> group T R -> group T R).
Hypothesis Henv : forall n pos a g, reader_ok V txn pos a g -> lacks g ->
  reader_ok V txn pos a (env n g) /\ lacks (env n g).

Lemma read_states_any pos ss key n a g : Forall (fun i => (i < MAX_STATES_TOPO)%nat) ss ->
  reader_ok V txn pos a g -> lacks g ->
  exists r n' a' g', read_states env ss txn key n g = Ok (r, n', g') /\ reader_ok V txn pos a' g' /\ lacks g' /\
    (i0 ∈ ss -> key = k0 -> exists i, r = inr i).
Proof.
  intros Hss. revert n a g. induction Hss as [|i ss Hi _ IH]; intros n a g Hr Hl.
  { exists (inl []), n, a, g. split_and!; [done..|]. by intros ?%elem_of_nil. }
  destruct (Henv n pos a g Hr Hl) as [Hr1 Hl1].
  destruct (tx_any pos a (env n g) i key Hr1 Hi) as (e & v & a1 & g1 & Hget & Hr2 & Htab & Hnf).
  assert (lacks g1) as Hl2 by (intros t; rewrite Htab; apply Hl1).
  cbn [read_states]. rewrite Hget. run_step.
  assert ((exists r, (e, v) = (SUCCESS, Some r)) \/ (forall f : R -> result ((list R + nat) * nat * group T R),
    match e, v with SUCCESS, Some r => f r | _, _ => Ok (inr i, S n, g1) end = Ok (inr i, S n, g1))) as [[r Her]|Hno].
  { destruct e, v; first [by left; eexists|by right]. }
  - injection Her as -> ->. destruct (IH (S n) a1 g1 Hr2 Hl2) as (r' & n' & a' & g' & -> & Hr' & Hl' & Hinr).
    run_step. do 4 eexists. split; [done|]. split; [done|]. split; [done|].
    intros [Heq|Hin]%elem_of_cons Hk; [by specialize (Hnf (eq_sym Heq) Hk Hl1)|].
    destruct (Hinr Hin Hk) as [i' ->]. by exists i'.
  - rewrite Hno. do 4 eexists. split; [done|]. split_and!; [done..|]. by eexists.
Qed.

Lemma read_keys_any pos keys j n a g : reader_ok V txn pos a g -> lacks g -> (i0 < MAX_STATES_TOPO)%nat ->
  exists r n' a' g', read_keys env j keys txn n g = Ok (r, n', g') /\ reader_ok V txn pos a' g' /\ lacks g' /\
    (k0 ∈ keys -> exists f, r = inr f).
Proof.
  intros Hr Hl Hi0. revert j n a g Hr Hl. induction keys as [|k keys IH]; intros j n a g Hr Hl.
  { exists (inl []), n, a, g. split_and!; [done..|]. by intros ?%elem_of_nil. }
  cbn [read_keys]. destruct (read_states_any pos (seq 0 MAX_STATES_TOPO) k n a g) as (r & n1 & a1 & g1 & -> & Hr1 & Hl1 & Hinr); [|done..|].
  { apply Forall_forall. intros i Hi%elem_of_seq. lia. }
  run_step. destruct r as [row|i].
  - destruct (IH (S j) n1 a1 g1 Hr1 Hl1) as (r2 & n2 & a2 & g2 & -> & Hr2 & Hl2 & Hinr2). run_step.
    do 4 eexists. split; [done|]. split_and!; [done..|]. intros [Heq|Hin]%elem_of_cons.
    + destruct Hinr as [i Hi]; [apply elem_of_seq; lia|done|done].
    + destruct (Hinr2 Hin) as [f ->]. by exists f.
  - do 4 eexists. split; [done|]. split_and!; [done..|]. by eexists.
Qed.

Lemma rounds_wait rounds keys pos n a g : reader_ok V txn pos a g -> lacks g -> (i0 < MAX_STATES_TOPO)%nat -> k0 ∈ keys ->
  from_tx_rounds env rounds keys txn n g = Err Waits.
Proof.
  intros Hr Hl Hi0 Hk. revert n a g Hr Hl. induction rounds as [|rounds IH]; intros n a g Hr Hl; [done|].
  cbn [from_tx_rounds]. destruct (read_keys_any pos keys 0 n a g Hr Hl Hi0) as (r & n' & a' & g' & -> & Hr' & Hl' & Hinr).
  destruct (Hinr Hk) as [[j i] ->]. run_step.
  destruct Hr' as [Hwf Hlive Hid Hlen Htab].
  assert (ctx_wf (count_restart (g_ctx g'))) as Hwf1 by (destruct Hwf; by split).
  pose proof (setReadCTS_at (count_restart (g_ctx g')) pos a' 0 Hwf1 Hlive) as Hset. rewrite Hid in Hset.
  cbn [for_states seq MAX_STATES_TOPO tx_cleanUpReads tx_set_ctx tx_ctx mvcc_tx_ops]. run_step.
  unfold ctx_op. cbn [tx_ctx tx_set_ctx mvcc_tx_ops g_ctx g_tables]. rewrite Hset. run_step.
  eapply (IH _ (mkActiveTx txn (at_write a') [0])).
  - split; cbn [g_ctx g_tables at_id]; try done.
    + rewrite <- Hid. apply update_slot_wf; [done|apply Hlive| |done]. exact (proj1 (ctx_shape _ pos a' Hwf (proj2 Hlive))).
    + split; [apply Hlive|]. apply list_lookup_insert_eq. eapply lookup_lt_Some, Hlive.
  - exact Hl'.
Qed.
End start.

(** ** What the commits of others guarantee *)

Section guarantee.
Context {T R : Type} (V fuel : nat) (ltR : R -> R -> bool) (dflt : R).
Context {ops : TableOps T Z (MVCCObject R)} {laws : TableLaws T Z (MVCCObject R)}.
Context {order : TupleOrder ltR}.

(** a well-formed object shows a value to every transaction younger than its
    versions *)
Lemma snapshot_present txn (tb : T) k ts : table_wf V txn tb -> txn < DTS_INF -> is_Some (snapshot tb k ts) ->
  is_Some (snapshot tb k txn).
Proof.
  intros Hwf Htxn [v Hv]. unfold snapshot in *. destruct (tbl_get tb k) as [o|] eqn:Ho; [|done].
  destruct (Hwf k o Ho) as [Hw Hold]. unfold visible.
  destruct (getCurrent_live V o txn Hw Hold Htxn) as (d & h & [Hd _] & _ & ->).
  rewrite (proj2 (Z.eqb_neq _ _)), Nat2Z.id by lia. apply lookup_lt_is_Some_2.
  apply lookup_lt_Some in Hd. by rewrite (vw_headers V o Hw), <- (vw_values V o Hw) in Hd.
Qed.

(** The deciding [transactionPreCommit] of another transaction, as a step of the
    environment: it leaves the reader and its snapshot alone, and a key that had
    a value in the last commit has one in the new last commit. *)
Lemma commit_is_environment (g : group T R) t0 t1 t0' t1' c1 c2 s0 s1 pw w txn pos a keys :
  (1 <= V <= 8)%nat -> registered g t0 t1 -> horizon_set (g_ctx g) ->
  live_at (g_ctx g) pw w -> at_id w < DTS_INF -> at_write w !! 1%nat = Some Commit ->
  table_wf V (at_id w) (tbl t0) -> table_wf V (at_id w) (tbl t1) ->
  reader_ok V txn pos a g -> pos <> pw -> txn <> 0 -> read0 a < at_id w ->
  transactionCommit V ltR dflt fuel (at_id w) t0 (marked (g_ctx g) pw w 0) = Ok (s0, t0', c1) ->
  transactionCommit V ltR dflt fuel (at_id w) t1 c1 = Ok (s1, t1', c2) ->
  exists g', transactionPreCommit V ltR dflt fuel (at_id w) 0 g = Ok (SUCCESS, g') /\
    reader_ok V txn pos a g' /\
    (covered keys g -> covered keys g') /\
    (read0 a <> 0 -> forall i key, snap i key (read0 a) g' = snap i key (read0 a) g).
Proof.
  intros HV [Htab Hi0 Hi1 Hst] Hh Hlw Hid Hc Htw0 Htw1 [Hwf Hlive Hida Hlen Hok] Hne Htxn Hlt Hc0 Hc1.
  destruct g as [c l]. cbn [g_tables g_ctx] in *. subst l.
  destruct (marked_live c pw w 0 Hwf Hlw) as [Hwf1 Hlive1].
  pose proof (ctx_shape c pw w Hwf (proj2 Hlw)) as (_ & _ & Hidpos).
  pose proof (wf_live c Hwf pw w (proj1 Hlw) (proj2 Hlw)) as Hidnz.
  assert (horizon_set (marked c pw w 0)) as Hhm by exact Hh.
  destruct (commit_snapshot_core V ltR dflt fuel (at_id w) t0 t0' _ c1 s0 HV ltac:(lia) Hhm Htw0 Hc0)
    as (-> & Hws0 & Hh1 & Hoh1 & Htw0' & Hread0 & Hnew0).
  destruct (commit_snapshot_core V ltR dflt fuel (at_id w) t1 t1' c1 c2 s1 HV ltac:(lia) Hh1 Htw1 Hc1)
    as (-> & Hws1 & Hh2 & Hoh2 & Htw1' & Hread1 & Hnew1).
  pose proof (only_horizon_trans _ _ _ Hoh1 Hoh2) as Hoh.
  destruct (publish_and_leave c2 pw _ (only_horizon_wf _ _ Hoh Hwf1)
    ltac:(by destruct Hoh as [x ->]; exact Hlive1)) as (c3 & c4 & Hset & Hrem & Hwf4 & Hlast & _ & Hkeep).
  exists (mkGroup c4 [t0'; t1']). split.
  { rewrite (precommit_unfold V ltR dflt fuel c [t0; t1] 0 t0 pw w Commit Hwf Hlw ltac:(lia) eq_refl Hi0 Hc), decide_True by done.
    by apply (precommit_tail V ltR dflt fuel (at_id w) 0 t0 t1 t0' t1' _ c1 c2 c3 c4 ltac:(lia) Hc0 Hc1 ltac:(by destruct Hoh1 as [x ->])). }
  assert (live_at c4 pos a) as Hlive4.
  { apply Hkeep; [done|]. destruct Hoh as [x ->]. destruct Hlive as [Hb Hl]. split; [done|].
    cbn. by rewrite list_lookup_insert_ne. }
  assert (forall i t, [t0'; t1'] !! i = Some t -> exists tp, [t0; t1] !! i = Some tp /\
    ws_txnID (writeSet t) = 0 /\ table_wf V (at_id w + 1) (tbl t) /\ table_wf V (at_id w) (tbl tp) /\
    (forall k ts, reader_at c ts -> ts < at_id w -> snapshot (tbl t) k ts = snapshot (tbl tp) k ts) /\
    (forall k, is_Some (snapshot (tbl tp) k (at_id w)) -> is_Some (snapshot (tbl t) k (at_id w)))) as Hpair.
  { assert (forall ts, reader_at c ts -> reader_at (marked c pw w 0) ts) as Hrd by (intros ts; by apply reader_marked).
    intros i t Ht. destruct i as [|[|i]]; [| |by destruct i]; injection Ht as <-; eexists; (split; [done|]).
    - rewrite Hws0. split_and!; [done..| |]; [intros k ts Hts Hl; by apply Hread0; [apply Hrd|]|].
      intros k Hk. rewrite Hnew0 by lia. by destruct (find_write k _).
    - rewrite Hws1. split_and!; [done..| |].
      + intros k ts Hts Hl. apply Hread1; [|done]. by apply (reader_at_horizon _ c1 ts Hoh1), Hrd.
      + intros k Hk. rewrite Hnew1 by lia. by destruct (find_write k _). }
  split; [|split].
  - split; cbn [g_ctx g_tables]; try done. intros i t Ht. destruct (Hpair i t Ht) as (t' & _ & Hw & Htw & _).
    rewrite Hw. split; [done|by eexists].
  - intros (last & Hlast0 & Hnz & Hcov). exists (at_id w). split; [exact Hlast|]. split; [done|].
    intros i key Hi Hk. specialize (Hcov i key Hi Hk). unfold snap in *. cbn [g_tables] in *.
    destruct ([t0'; t1'] !! i) as [t|] eqn:Ht; [|by apply lookup_ge_None_1 in Ht; simpl in Ht; unfold MAX_STATES_TOPO in Hi; lia].
    destruct (Hpair i t Ht) as (t' & Ht' & _ & _ & Htw & _ & Hsome). rewrite Ht' in Hcov. cbn [mbind option_bind] in *.
    apply Hsome. by eapply snapshot_present.
  - intros Hnz i key. unfold snap. cbn [g_tables].
    destruct ([t0'; t1'] !! i) as [t|] eqn:Ht.
    + destruct (Hpair i t Ht) as (t' & -> & _ & _ & _ & Hsame & _). cbn [mbind option_bind]. apply Hsame; [|done].
      exists pos, a. split_and!; [done|done|done|]. unfold DTS_INF in *. lia.
    + apply lookup_ge_None_1 in Ht. by rewrite lookup_ge_None_2.
Qed.
End guarantee.

(** ** Properties *)

Section properties.
Context {T R : Type} (V fuel : nat) (ltR : R -> R -> bool) (dflt : R).
Context {ops : TableOps T Z (MVCCObject R)} {laws : TableLaws T Z (MVCCObject R)}.
#[local] Hint Extern 0 (TxTableOps (group T R) _) => exact (mvcc_tx_ops V fuel ltR dflt) : typeclass_instances.

(** C25: a [FromTxTables] over two multi-version tables, started when a slot is
    free and every one of its keys has a value in the last commit of both
    tables, needs one round: it publishes, for its keys, the values both tables
    have in one and the same commit - the last one at its first read - then
    [EndOfStream], and afterwards no slot holds its transaction.  Between any
    two of its reads other transactions may do anything that leaves its slot
    alone, keeps the tables well formed, keeps its keys' values and does not
    change the snapshot it reads (what the commit theorems guarantee once the
    garbage horizon is set).  Without a value for a key the operator starts
    over for ever. *)
Theorem from_tx_tables_snapshot (env : nat -> group T R -> group T R) (rounds : nat) (keys : list Z) (g : group T R) :
  keys <> [] -> can_start V g -> covered keys g -> relies V env (nextTxID (g_ctx g)) keys ->
  exists c1 ts val g', newTx (g_ctx g) = Ok (nextTxID (g_ctx g), c1) /\
    let first := env 0%nat (mkGroup (count_reader c1) (g_tables g)) in
    getLastCTS (g_ctx first) 0 = Ok ts /\
    (forall i key, (i < MAX_STATES_TOPO)%nat -> key ∈ keys -> snap i key ts first = Some (val i key)) /\
    from_tx_start env (S rounds) keys g =
      Ok (((fun k => MData (val 0%nat k) false) <$> keys) ++ ((fun k => MData (val 1%nat k) false) <$> keys) ++
          [MPunct (mkPunct EndOfStream None)], (2 * length keys)%nat, g') /\
    ctx_wf (g_ctx g') /\ forall pos a, live_at (g_ctx g') pos a -> at_id a <> nextTxID (g_ctx g).
Proof.
  intros Hne Hcs Hcov Henv. destruct keys as [|k0 ks] eqn:Hkeys; [done|]. rewrite <- Hkeys in *.
  destruct (start_reader V g Hcs) as (c1 & pos & Hnew & Hr & Hcov1).
  destruct (read_keys_first V fuel ltR dflt env (nextTxID (g_ctx g)) keys Henv pos _ _ k0 ks Hkeys Hr eq_refl (Hcov1 keys Hcov))
    as (ts & val & a' & g1 & Hlast & Hval & Hread & Hts & [Hr1 _]).
  destruct (removeTx_live (g_ctx g1) pos a' (ro_wf _ _ _ _ _ Hr1) (ro_live _ _ _ _ _ Hr1)) as (c2 & Hrem & Hwf2 & Hgone).
  rewrite (ro_id _ _ _ _ _ Hr1) in Hrem, Hgone.
  exists c1, ts, val, (mkGroup c2 (g_tables g1)). split; [done|]. cbv zeta. split_and!; [done|done| |done|done].
  unfold from_tx_start, ctx_op. cbn [tx_ctx tx_set_ctx mvcc_tx_ops]. rewrite Hnew. run_step.
  cbn [from_tx_rounds g_ctx g_tables]. rewrite Hread. run_step.
  cbn [read_commits seq MAX_STATES_TOPO tx_readCommit mvcc_tx_ops]. run_step. unfold MVCC.readCommit.
  cbn [forallb]. rewrite bool_decide_eq_true_2 by done. cbn [andb]. run_step.
  cbn [for_states tx_cleanUpReads mvcc_tx_ops]. run_step. unfold ctx_op. cbn [tx_ctx tx_set_ctx mvcc_tx_ops g_ctx g_tables].
  rewrite Hrem. run_step.
  cbn [list_bind].
  rewrite !column_rows, <- !list_fmap_compose by (unfold MAX_STATES_TOPO; lia). by rewrite app_nil_r, <- app_assoc.
Qed.

(** Where a table lacks one of the keys, and keeps lacking it, a
    [FromTxTables] starts over again and again: it returns after no number of
    rounds. *)
Lemma from_tx_tables_missing_key (env : nat -> group T R -> group T R) (rounds : nat) (keys : list Z) (g : group T R) i0 k0 :
  can_start V g -> (i0 < MAX_STATES_TOPO)%nat -> k0 ∈ keys -> lacks i0 k0 g ->
  (forall n pos a g', reader_ok V (nextTxID (g_ctx g)) pos a g' -> lacks i0 k0 g' ->
     reader_ok V (nextTxID (g_ctx g)) pos a (env n g') /\ lacks i0 k0 (env n g')) ->
  from_tx_start env rounds keys g = Err Waits.
Proof.
  intros Hcs Hi Hk Hl Henv. destruct (start_reader V g Hcs) as (c1 & pos & Hnew & Hr & _).
  unfold from_tx_start, ctx_op. cbn [tx_ctx tx_set_ctx mvcc_tx_ops]. rewrite Hnew. run_step.
  cbn [g_ctx g_tables].
  by rewrite (rounds_wait V fuel ltR dflt (nextTxID (g_ctx g)) i0 k0 env Henv rounds keys pos 0 _ _ Hr Hl Hi Hk).
Qed.

(** the elements of a transaction *)
Definition inserts (key : R -> Z) (l : list R) (w : WriteSet R) : WriteSet R :=
  fold_left (fun w r => ws_insert (key r) r w) l w.

Lemma set_table_at tr t0 t (g : group T R) : g_tables g !! tr = Some t0 ->
  set_table tr t g = Ok (mkGroup (g_ctx g) (<[tr := t]> (g_tables g))).
Proof. intros H. unfold set_table. by rewrite set_at_lt by (by eapply lookup_lt_Some). Qed.

Lemma to_tx_insert_step tr key id r (g : group T R) t :
  g_tables g !! tr = Some t ->
  to_tx_step tr key (fun _ => id) false (MData r false) g =
    Ok ([MData r false],
        mkGroup (g_ctx g) (<[tr := mkMVCCTable (ws_insert (key r) r (writeSet t)) (tbl t) (tblID t)]> (g_tables g))).
Proof.
  intros Ht. unfold to_tx_step, to_tx_processDataElement. cbn [tx_insert mvcc_tx_ops].
  unfold on_table. rewrite (get_at_Some _ _ _ Ht). run_step. cbn [mvcc_insert].
  by rewrite (set_table_at _ _ _ _ Ht).
Qed.

Lemma to_tx_begin_step tr key id (g : group T R) t :
  g_tables g !! tr = Some t ->
  to_tx_step tr key (fun _ => id) false (MPunct (mkPunct TxBegin (Some id))) g =
    Ok ([MPunct (mkPunct TxBegin (Some id))],
        mkGroup (with_txCntW (u64 (txCntW (g_ctx g) + 1)) (g_ctx g))
          (<[tr := mkMVCCTable (mkWriteSet id (ws_set (writeSet t))) (tbl t) (tblID t)]> (g_tables g))).
Proof.
  intros Ht. unfold to_tx_step, to_tx_processPunctuation. cbn [ptype pdata transaction_of tx_begin mvcc_tx_ops].
  run_step. rewrite (get_at_Some _ _ _ Ht). run_step. cbn [transactionBegin].
  by rewrite (set_table_at tr t).
Qed.

Lemma to_tx_inserts tr key id (l : list R) (g : group T R) t :
  g_tables g !! tr = Some t ->
  run (to_tx_step tr key (fun _ => id) false) ((fun r => MData r false) <$> l) g =
    Ok ((fun r => MData r false) <$> l,
        mkGroup (g_ctx g) (<[tr := mkMVCCTable (inserts key l (writeSet t)) (tbl t) (tblID t)]> (g_tables g))).
Proof.
  revert g t. induction l as [|r l IH]; intros g t Ht.
  - cbn. destruct g as [c l], t; cbn in *. by rewrite list_insert_id.
  - rewrite fmap_cons. eapply (run_cons _ _ _ _ [MData r false]); [by apply to_tx_insert_step|].
    rewrite (IH _ (mkMVCCTable (ws_insert (key r) r (writeSet t)) (tbl t) (tblID t))).
    + cbn [g_ctx g_tables writeSet tbl tblID]. by rewrite list_insert_insert_eq.
    + apply list_lookup_insert_eq. by eapply lookup_lt_Some.
Qed.

(** A transaction in a stream, the elements between [TxBegin] and [TxCommit],
    goes through a [ToTxTable] unchanged; the table is not touched before the
    commit, which is [transactionPreCommit] with all its elements in the write
    set.  A queue in front takes the id from the punctuations: the operator
    throws. *)
Lemma to_tx_table_stream tr key id (l : list R) (g : group T R) t :
  g_tables g !! tr = Some t ->
  let input := MPunct (mkPunct TxBegin (Some id)) :: ((fun r => MData r false) <$> l) ++ [MPunct (mkPunct TxCommit (Some id))] in
  let written := mkMVCCTable (inserts key l (mkWriteSet id (ws_set (writeSet t)))) (tbl t) (tblID t) in
  run (to_tx_step tr key (fun _ => id) false) input g =
    ('(_, g') ← transactionPreCommit V ltR dflt fuel id tr
       (mkGroup (with_txCntW (u64 (txCntW (g_ctx g) + 1)) (g_ctx g)) (<[tr := written]> (g_tables g)));
     Ok (input, g')) /\
  (forall p, ptype p = TxBegin \/ ptype p = TxCommit \/ ptype p = TxAbort ->
     exists m, dequeueTuple (queue_receive (MPunct p : message R) (mkQueue [] false)) = Ok ([m], mkQueue [] false) /\
       to_tx_step tr key (fun _ => id) false m g = Err (Throws "boost::bad_any_cast")).
Proof.
  intros Ht. cbv zeta. split.
  - rewrite (run_step_then _ _ _ _ _ _ (to_tx_begin_step tr key id g t Ht)), run_app.
    rewrite (to_tx_inserts tr key id l _ (mkMVCCTable (mkWriteSet id (ws_set (writeSet t))) (tbl t) (tblID t)))
      by (apply list_lookup_insert_eq; by eapply lookup_lt_Some).
    run_step. cbn [g_ctx g_tables writeSet tbl tblID]. rewrite list_insert_insert_eq. cbn [run].
    unfold to_tx_step, to_tx_processPunctuation. cbn [ptype pdata transaction_of tx_preCommit mvcc_tx_ops]. run_step.
    by destruct (transactionPreCommit _ _ _ _ _ _ _) as [[s g']|f].
  - intros [pt pd] Hp. exists (MPunct (mkPunct pt None)). cbn [ptype] in Hp.
    split; by destruct Hp as [->|[->| ->]].
Qed.
End properties.

(** ** Witnesses

    Key 1 in two tables, with the values 50 and 60 in the last commit, 8;
    transactions 10 and 20 are live, the next id is 30. *)

Module Demo.
Import MVCCProtocol.Demo.

Definition g0 : group tab Z :=
  mkGroup (ctx2 0 1 [Active; Active]) [writer [] obj1 0; writer [] obj2 1].

(** another thread moves the garbage horizon on *)
Definition other (n : nat) (g : group tab Z) : group tab Z :=
  mkGroup (with_oldest (5 + Z.of_nat n) (g_ctx g)) (g_tables g).

Lemma other_ok txn pos a n g : reader_ok 2 txn pos a g -> reader_ok 2 txn pos a (other n g).
Proof. intros [Hwf Hlive Hid Hlen Htab]. split; try done. by destruct Hwf; split. Qed.

Lemma other_relies txn keys : relies 2 other txn keys.
Proof. intros n pos a g Hr. split; [by apply other_ok|]. by split. Qed.

Lemma g0_start : can_start 2 g0.
Proof.
  split; [by apply ctx2_wf|done|done|done|].
  intros [|[|i]] t Ht; [| |by destruct i]; injection Ht as <-; (split; [done|exists 20]);
    apply one_key_wf; first [apply obj1_wf|apply obj2_wf].
Qed.

Lemma g0_covered : covered [1] g0.
Proof.
  exists 8. split_and!; [done|done|]. intros [|[|i]] key Hi Hk%list_elem_of_singleton; subst; [by eexists..|].
  unfold MAX_STATES_TOPO in Hi. lia.
Qed.
End Demo.

#[local] Hint Extern 0 (TxTableOps (group MVCCProtocol.Demo.tab Z) _) =>
  exact (mvcc_tx_ops 2 5 Z.ltb 0) : typeclass_instances.

Lemma from_tx_tables_snapshot_witness :
  exists g', from_tx_start Demo.other 1 [1] Demo.g0 =
    Ok ([MData 50 false; MData 60 false; MPunct (mkPunct EndOfStream None)], 2%nat, g') /\
    ctx_wf (g_ctx g') /\ forall pos a, live_at (g_ctx g') pos a -> at_id a <> nextTxID (g_ctx Demo.g0).
Proof.
  destruct (from_tx_tables_snapshot 2 5 Z.ltb 0 Demo.other 0 [1] Demo.g0 ltac:(done) Demo.g0_start Demo.g0_covered
    (Demo.other_relies _ _)) as (c1 & ts & val & g' & Hnew & Hlast & Hval & Hrun & Hwf).
  exists g'. split; [|exact Hwf]. rewrite Hrun.
  vm_compute in Hnew. injection Hnew as <-. vm_compute in Hlast. injection Hlast as <-.
  pose proof (Hval 0%nat 1 ltac:(unfold MAX_STATES_TOPO; lia) ltac:(by left)) as H0. vm_compute in H0. injection H0 as H0.
  pose proof (Hval 1%nat 1 ltac:(unfold MAX_STATES_TOPO; lia) ltac:(by left)) as H1. vm_compute in H1. injection H1 as H1.
  cbn [fmap list_fmap app]. by rewrite <- H0, <- H1.
Defined.

(** key 2 is in neither table *)
Lemma from_tx_tables_missing_key_witness :
  from_tx_start Demo.other 100 [1; 2] Demo.g0 = Err Waits.
Proof.
  apply (from_tx_tables_missing_key 2 5 Z.ltb 0 Demo.other 100 [1; 2] Demo.g0 1 2 Demo.g0_start).
  - unfold MAX_STATES_TOPO. lia.
  - right. by left.
  - intros t Ht. by injection Ht as <-.
  - intros n pos a g Hr Hl. split; [by apply Demo.other_ok|exact Hl].
Defined.

Lemma to_tx_table_stream_witness :
  exists g', run (to_tx_step 0 (fun r => r) (fun _ => 20) false)
      [MPunct (mkPunct TxBegin (Some 20)); MData 7 false; MData 9 false; MPunct (mkPunct TxCommit (Some 20))] Demo.g0 =
    Ok ([MPunct (mkPunct TxBegin (Some 20)); MData 7 false; MData 9 false; MPunct (mkPunct TxCommit (Some 20))], g') /\
    (t ← g_tables g' !! 0%nat; Some (ws_set (writeSet t))) = Some [(7, 7); (9, 9)].
Proof.
  eexists. split.
  - etransitivity; [exact (proj1 (to_tx_table_stream 2 5 Z.ltb 0 0 (fun r => r) 20 [7; 9] Demo.g0 _ eq_refl))|].
    vm_compute. reflexivity.
  - vm_compute. reflexivity.
Defined.
