(* ===== verification/TxChopping.v ===== *)
(** * TxChopping: a stream cut into transactions

    The writer of [usecases/TxSupport/TxExample.hpp] and of [TxProcessing.cpp]: a
    [StatefulMap] whose function compares the transaction of each element with
    that of the last one and publishes [TxCommit] and [TxBegin] between them, in
    front of the [ToTxTable] of each table ([TxOperators.v]).  What the function
    publishes is processed before it goes on: [publish] stands for the operators
    behind it. *)

From S2P Require Import Prelude StateContext Tables MVCC MVCCProtocol MVCCInterleaving Stream Operators TxOperators.

Section chopping.
Context {W R : Type} `{TxTableOps W R} (mId : R -> Z) (publish : message R -> W -> result W).

(** ** TxExample.hpp: the context numbers the transactions *)

(** [sCtx.tToTX[id] = txID] *)
Definition register_transaction (id txID : Z) (c : ctx) : ctx :=
  mkCtx (nextTxID c) (topoGrps c) (regStates c) (<[id := txID]> (tToTX c)) (restarts c) (txCntR c) (txCntW c)
    (usedSlots c) (activeTxs c) (oldestVisibleVersion c) (numStates c) (numGroups c).

Definition begin_transaction (id : Z) (w : W) : result W :=
  '(txID, w) ← ctx_op newTx w;
  publish (MPunct (mkPunct TxBegin (Some txID))) (tx_set_ctx (register_transaction id txID (tx_ctx w)) w).

(** [sCtx.tToTX[id]] makes an entry if there is none *)
Definition transaction_ID (id : Z) (w : W) : Z * W :=
  match tToTX (tx_ctx w) !! id with
  | Some txID => (txID, w)
  | None => (0, tx_set_ctx (register_transaction id 0 (tx_ctx w)) w)
  end.

Definition commit_transaction (id : Z) (w : W) : result W :=
  let '(txID, w) := transaction_ID id w in publish (MPunct (mkPunct TxCommit (Some txID))) w.

Definition txChopping (tp : R) (lastTx : Z) (w : W) : result (Z * W) :=
  w ← (if (lastTx =? 0) || bool_decide (tToTX (tx_ctx w) = ∅) then begin_transaction (mId tp) w
       else if negb (lastTx =? mId tp) then w ← commit_transaction lastTx w; begin_transaction (mId tp) w
       else Ok w);
  Ok (mId tp, w).

(** ** TxProcessing.cpp: the elements carry the numbers *)

Definition txChopping_ids (tp : R) (lastTx : Z) (w : W) : result (Z * W) :=
  let txID := mId tp in
  w ← (if lastTx =? 0 then publish (MPunct (mkPunct TxBegin (Some txID))) w
       else if negb (lastTx =? txID) then
         w ← publish (MPunct (mkPunct TxCommit (Some lastTx))) w;
         publish (MPunct (mkPunct TxBegin (Some txID))) w
       else Ok w);
  Ok (txID, w).

(** ** The stateful map around the function *)

Fixpoint chopped (chop : R -> Z -> W -> result (Z * W)) (l : list R) (lastTx : Z) (w : W) : result (Z * W) :=
  match l with
  | [] => Ok (lastTx, w)
  | tp :: l =>
      '(lastTx, w) ← chop tp lastTx w;
      w ← publish (MData tp false) w;
      chopped chop l lastTx w
  end.

(** ** What it amounts to: one transaction after another *)

Fixpoint publish_all (l : list R) (w : W) : result W :=
  match l with [] => Ok w | tp :: l => w ← publish (MData tp false) w; publish_all l w end.

(** the transactions of a stream with their elements; the last one stays open *)
Fixpoint transactions (begin_ commit : Z -> W -> result W) (gs : list (Z * list R)) (w : W) : result W :=
  match gs with
  | [] => Ok w
  | (id, l) :: gs =>
      w ← begin_ id w;
      w ← publish_all l w;
      match gs with [] => Ok w | _ => w ← commit id w; transactions begin_ commit gs w end
  end.

(** neighbouring groups have different ids, and none has id 0 *)
Fixpoint groups_ok (gs : list (Z * list R)) : Prop :=
  match gs with
  | [] => True
  | (id, l) :: gs => id <> 0 /\ l <> [] /\ Forall (fun tp => mId tp = id) l /\
      match gs with (id', _) :: _ => id <> id' | [] => True end /\ groups_ok gs
  end.

Definition elements (gs : list (Z * list R)) : list R := gs ≫= snd.
Definition last_id (gs : list (Z * list R)) (lastTx : Z) : Z := default lastTx (fst <$> last gs).

(** [TxProcessing.cpp]: the id of the elements is the transaction's *)

Definition begin_id (id : Z) : W -> result W := publish (MPunct (mkPunct TxBegin (Some id))).
Definition commit_id (id : Z) : W -> result W := publish (MPunct (mkPunct TxCommit (Some id))).

Lemma last_id_cons id l gs lastTx : last_id ((id, l) :: gs) lastTx = last_id gs id.
Proof. unfold last_id. rewrite last_cons. by destruct (last gs). Qed.

Section equivalence.
Context (chop : R -> Z -> W -> result (Z * W)) (begin_ commit : Z -> W -> result W) (started : W -> Prop).
Context (chop_first : forall tp w, chop tp 0 w = (w ← begin_ (mId tp) w; Ok (mId tp, w))).
Context (chop_next : forall tp lastTx w, started w -> lastTx <> 0 -> lastTx <> mId tp ->
  chop tp lastTx w = (w ← (w ← commit lastTx w; begin_ (mId tp) w); Ok (mId tp, w))).
Context (chop_same : forall tp w, started w -> mId tp <> 0 -> chop tp (mId tp) w = Ok (mId tp, w)).
Context (begin_started : forall id w w', begin_ id w = Ok w' -> started w').
Context (publish_started : forall m w w', publish m w = Ok w' -> started w -> started w').

Lemma publish_all_started l w w' : publish_all l w = Ok w' -> started w -> started w'.
Proof.
  revert w. induction l as [|tp l IH]; intros w Hp Hs; cbn in Hp; [by injection Hp as <-|].
  bind_inv Hp as (w1 & Hp1 & Hp). eauto.
Qed.

Lemma chopped_same id l rest w : id <> 0 -> Forall (fun tp => mId tp = id) l -> started w ->
  chopped chop (l ++ rest) id w = (w ← publish_all l w; chopped chop rest id w).
Proof.
  intros Hid Hl. revert w. induction Hl as [|tp l Htp Hl IH]; intros w Hs; [done|].
  cbn [app chopped publish_all]. rewrite <- Htp at 1. rewrite chop_same by (done || congruence). run_step.
  destruct (publish (MData tp false) w) as [w1|e] eqn:Hp; [|done]. run_step. rewrite Htp. by apply IH; eauto.
Qed.

(** an open transaction [id], then the groups *)
Lemma chopped_groups gs id w : id <> 0 -> started w -> groups_ok gs -> (forall g, head gs = Some g -> id <> g.1) ->
  chopped chop (elements gs) id w =
    (w ← match gs with [] => Ok w | _ => w ← commit id w; transactions begin_ commit gs w end; Ok (last_id gs id, w)).
Proof.
  revert id w. induction gs as [|[id' l] gs IH]; intros id w Hid Hs Hok Hne; [done|].
  destruct Hok as (Hid' & Hl & Hall & Hnext & Hok). specialize (Hne _ eq_refl). cbn in Hne.
  destruct l as [|tp l]; [done|]. apply Forall_cons in Hall as [Htp Hall].
  unfold elements. cbn [mbind list_bind snd app]. fold (elements gs). cbn [chopped transactions publish_all].
  rewrite chop_next by (done || congruence). rewrite Htp.
  destruct (commit id w) as [w1|e]; [|done]. run_step. destruct (begin_ id' w1) as [w2|e] eqn:Hb; [|done]. run_step.
  destruct (publish (MData tp false) w2) as [w3|e] eqn:Hp; [|done]. run_step.
  rewrite chopped_same by eauto. destruct (publish_all l w3) as [w4|e] eqn:Hpl; [|done]. run_step.
  rewrite IH; [|done|by eauto using publish_all_started|done|].
  - rewrite last_id_cons. by destruct gs as [|[id'' l''] gs].
  - intros g Hg. by destruct gs as [|[id'' l''] gs]; [|injection Hg as <-].
Qed.

Lemma chopped_transactions gs w : groups_ok gs ->
  chopped chop (elements gs) 0 w = (w ← transactions begin_ commit gs w; Ok (last_id gs 0, w)).
Proof.
  destruct gs as [|[id l] gs]; [done|]. intros (Hid & Hl & Hall & Hnext & Hok).
  destruct l as [|tp l]; [done|]. apply Forall_cons in Hall as [Htp Hall].
  unfold elements. cbn [mbind list_bind snd app]. fold (elements gs). cbn [chopped transactions publish_all].
  rewrite chop_first, Htp. destruct (begin_ id w) as [w2|e] eqn:Hb; [|done]. run_step.
  destruct (publish (MData tp false) w2) as [w3|e] eqn:Hp; [|done]. run_step.
  rewrite chopped_same by eauto. destruct (publish_all l w3) as [w4|e] eqn:Hpl; [|done]. run_step.
  rewrite chopped_groups; [|done|by eauto using publish_all_started|done|].
  - rewrite last_id_cons. by destruct gs as [|[id'' l''] gs].
  - intros g Hg. by destruct gs as [|[id'' l''] gs]; [|injection Hg as <-].
Qed.
End equivalence.

(** Both functions turn a stream whose elements are grouped by transaction into
    its transactions: each in its [TxBegin], its elements and, when the next
    one arrives, its [TxCommit]. *)
Lemma ids_chopped gs w : groups_ok gs ->
  chopped txChopping_ids (elements gs) 0 w = (w ← transactions begin_id commit_id gs w; Ok (last_id gs 0, w)).
Proof.
  apply (chopped_transactions txChopping_ids begin_id commit_id (fun _ => True)); try done.
  - intros tp lastTx w' _ H1 H2. unfold txChopping_ids. rewrite (proj2 (Z.eqb_neq _ _) H1), (proj2 (Z.eqb_neq _ _) H2). done.
  - intros tp w' _ H1. unfold txChopping_ids. by rewrite (proj2 (Z.eqb_neq _ _) H1), Z.eqb_refl.
Qed.

Context (tx_ctx_set : forall c w, tx_ctx (tx_set_ctx c w) = c).
Context (publish_keeps : forall m w w', publish m w = Ok w' -> tToTX (tx_ctx w) <> ∅ -> tToTX (tx_ctx w') <> ∅).

Lemma begin_transaction_started id w w' : begin_transaction id w = Ok w' -> tToTX (tx_ctx w') <> ∅.
Proof.
  unfold begin_transaction. intros Hb. bind_inv Hb as ([txID w1] & _ & Hb). apply (publish_keeps _ _ _ Hb).
  rewrite tx_ctx_set. cbn. apply insert_non_empty.
Qed.

Lemma context_chopped gs w : groups_ok gs ->
  chopped txChopping (elements gs) 0 w = (w ← transactions begin_transaction commit_transaction gs w; Ok (last_id gs 0, w)).
Proof.
  apply (chopped_transactions txChopping begin_transaction commit_transaction (fun w => tToTX (tx_ctx w) <> ∅)); [done| | |apply begin_transaction_started|apply publish_keeps].
  - intros tp lastTx w' Hs H1 H2. unfold txChopping.
    by rewrite (proj2 (Z.eqb_neq _ _) H1), (proj2 (Z.eqb_neq _ _) H2), bool_decide_false.
  - intros tp w' Hs H1. unfold txChopping. by rewrite (proj2 (Z.eqb_neq _ _) H1), Z.eqb_refl, bool_decide_false.
Qed.

Lemma txChopping_first tp w : txChopping tp 0 w = (w ← begin_transaction (mId tp) w; Ok (mId tp, w)).
Proof. done. Qed.

(** Elements with the id 0, with which the state starts, begin a transaction each;
    none of them is committed. *)
Lemma zero_id_never_commits tp tp' w : mId tp = 0 -> mId tp' = 0 ->
  chopped txChopping [tp; tp'] 0 w =
    (w ← begin_transaction 0 w; w ← publish (MData tp false) w; w ← begin_transaction 0 w; w ← publish (MData tp' false) w; Ok (0, w)).
Proof.
  intros H1 H2. cbn [chopped]. rewrite txChopping_first, H1.
  destruct (begin_transaction 0 w) as [w1|]; [|done]. run_step. destruct (publish _ w1) as [w2|]; [|done]. run_step.
  rewrite txChopping_first, H2. by destruct (begin_transaction 0 w2) as [w3|].
Qed.
End chopping.

(** ** In front of the tables *)

Section tables.
Context {W R : Type} `{TxTableOps W R} (mId mKey : R -> Z).

(** the elements get the number that the context has for their transaction *)
Fixpoint to_tables (tables : list nat) (m : message R) (w : W) : result W :=
  match tables with
  | [] => Ok w
  | s :: tables =>
      let '(txID, w) := match m with MData r _ => transaction_ID (mId r) w | MPunct _ => (0, w) end in
      '(_, w) ← to_tx_step s mKey (fun _ => txID) false m w;
      to_tables tables m w
  end.
End tables.

Section mvcc_tables.
Context {T R : Type} (V fuel : nat) (ltR : R -> R -> bool) (dflt : R) (mId mKey : R -> Z).
Context {ops : TableOps T Z (MVCCObject R)} {laws : TableLaws T Z (MVCCObject R)}.

#[local] Hint Extern 0 (TxTableOps (group T R) _) => exact (mvcc_tx_ops V fuel ltR dflt) : typeclass_instances.

Lemma setReadCTS_tToTX c txn topo r c' : setReadCTS c txn topo r = Ok c' -> tToTX c' = tToTX c.
Proof.
  unfold setReadCTS. intros H. bind_inv H as (p & _ & H). bind_inv H as (a & _ & H). bind_inv H as (rs & _ & H).
  by bind_inv H as (l & _ & [= <-]).
Qed.

Lemma setWriteStatus_tToTX c txn tr s c' : setWriteStatus c txn tr s = Ok c' -> tToTX c' = tToTX c.
Proof.
  unfold setWriteStatus. intros H. bind_inv H as (p & _ & H). bind_inv H as (a & _ & H). bind_inv H as (w & _ & H).
  by bind_inv H as (l & _ & [= <-]).
Qed.

Lemma removeTx_tToTX txn c c' : removeTx txn c = Ok c' -> tToTX c' = tToTX c.
Proof.
  unfold removeTx. intros H. bind_inv H as (c1 & Hr & H). bind_inv H as (p & _ & [= <-]). cbn.
  revert c Hr. induction (seq 0 MAX_TOPO_GRPS) as [|t l IH]; intros c Hr; cbn in Hr; [by injection Hr as <-|].
  bind_inv Hr as (c2 & Hs%setReadCTS_tToTX & Hr). by rewrite (IH _ Hr).
Qed.

Lemma wait_free_slot_tToTX n txn (o o' : MVCCObject R) c c' p :
  wait_free_slot V n txn o c = Ok (p, o', c') -> tToTX c' = tToTX c.
Proof.
  revert o c. induction n as [|n IH]; intros o c H; simpl in H; destruct (_ >? _); try done; [by injection H as <- <- <-| |by injection H as <- <- <-].
  bind_inv H as ([r c1] & [x ->]%recalc_horizon & H). by rewrite (IH _ _ H).
Qed.

Lemma commit_entries_tToTX txn l (tb tb' : T) c c' : commit_entries V dflt fuel txn l tb c = Ok (tb', c') -> tToTX c' = tToTX c.
Proof.
  revert tb c. induction l as [|[k v] l IH]; intros tb c H; cbn [commit_entries] in H; [by injection H as <- <-|].
  bind_inv H as ([tb1 c1] & He & H). rewrite (IH _ _ H). clear H IH. unfold commit_entry in He. cbn [fst snd] in He.
  destruct (tbl_get tb k) as [o|] eqn:Hk.
  - destruct (commit_update V fuel txn v o c) as [[o' c2]|e] eqn:Hu;
      [|by rewrite (tbl_update_fault _ k (fun o c => commit_update V fuel txn v o c) tb c o e Hk Hu) in He].
    destruct (tbl_update_present _ k (fun o c => commit_update V fuel txn v o c) tb c o o' c2 Hk Hu) as (t' & Hup & _).
    rewrite Hup in He. injection He as <- <-. unfold commit_update in Hu.
    bind_inv Hu as ([[p o1] c3] & Hw%wait_free_slot_tToTX & Hu). by bind_inv Hu as (o2 & _ & [= _ <-]).
  - rewrite (tbl_update_absent _ k (fun o c => commit_update V fuel txn v o c) tb c Hk) in He. cbn in He. bind_inv He as (o & _ & [= _ <-]). done.
Qed.

Lemma commit_at_tToTX n txn (g g' : group T R) s : commit_at V ltR dflt fuel txn n g = Ok (s, g') -> tToTX (g_ctx g') = tToTX (g_ctx g).
Proof.
  unfold commit_at, transactionCommit. intros H. bind_inv H as (t & _ & H). bind_inv H as ([[s1 t1] c1] & Ht & H).
  bind_inv Ht as ([tb c2] & Hc%commit_entries_tToTX & [= <- <- <-]). bind_inv H as (g1 & Hs & [= <- <-]).
  unfold set_table in Hs. by bind_inv Hs as (l & _ & [= <-]).
Qed.

Lemma preCommit_tToTX n txn (g g' : group T R) s : transactionPreCommit V ltR dflt fuel txn n g = Ok (s, g') -> tToTX (g_ctx g') = tToTX (g_ctx g).
Proof.
  unfold transactionPreCommit. intros H. bind_inv H as (t & _ & H). bind_inv H as (c & Hw%setWriteStatus_tToTX & H).
  bind_inv H as (os & _ & H). case_decide; [|by injection H as <- <-].
  bind_inv H as ([s1 g1] & Hc1%commit_at_tToTX & H). case_decide; [|injection H as <- <-; cbn in *; congruence].
  bind_inv H as (o & _ & H). destruct o; [|done]. bind_inv H as ([s2 g2] & Hc2%commit_at_tToTX & H).
  bind_inv H as (c2 & Hl & H). bind_inv H as (c3 & Hr%removeTx_tToTX & [= <- <-]).
  unfold setLastCTS in Hl. bind_inv Hl as (gr & _ & Hl). bind_inv Hl as (l & _ & [= <-]). cbn in *. congruence.
Qed.

Lemma on_table_ctx {A} n (f : MVCCTable T R -> result (A * MVCCTable T R)) (g g' : group T R) a :
  on_table n f g = Ok (a, g') -> g_ctx g' = g_ctx g.
Proof.
  unfold on_table, set_table. intros H. bind_inv H as (t & _ & H). bind_inv H as ([b t'] & _ & H).
  bind_inv H as (g1 & Hs & [= _ <-]). by bind_inv Hs as (l & _ & [= <-]).
Qed.

Lemma to_tx_step_tToTX n key tx m (g g' : group T R) out : to_tx_step n key tx false m g = Ok (out, g') -> tToTX (g_ctx g') = tToTX (g_ctx g).
Proof.
  destruct m as [r o|p]; unfold to_tx_step; intros H.
  - unfold to_tx_processDataElement in H. bind_inv H as (g1 & H1 & H). cbn [mbind result_bind] in H. injection H as _ <-.
    destruct o; cbn in H1; bind_inv H1 as ([a g2] & Ho%on_table_ctx & [= <-]); by rewrite Ho.
  - unfold to_tx_processPunctuation in H. bind_inv H as (g1 & H1 & H). injection H as _ <-.
    destruct (ptype p); try by injection H1 as <-.
    + bind_inv H1 as (id & _ & H1). cbn in H1. bind_inv H1 as (t & _ & H1). unfold set_table in H1. by bind_inv H1 as (l & _ & [= <-]).
    + bind_inv H1 as (id & _ & H1). cbn in H1. bind_inv H1 as ([s g2] & Hp%preCommit_tToTX & [= <-]). done.
    + bind_inv H1 as (id & _ & H1). cbn in H1. bind_inv H1 as ([s g2] & Hp%on_table_ctx & [= <-]). by rewrite Hp.
Qed.
Lemma transaction_ID_known id (g : group T R) : tToTX (g_ctx g) <> ∅ -> tToTX (g_ctx (transaction_ID id g).2) <> ∅.
Proof. unfold transaction_ID. intros Hg. cbn. destruct (tToTX (g_ctx g) !! id); [done|]. cbn. apply insert_non_empty. Qed.

Lemma to_tables_keeps ts m (g g' : group T R) : to_tables mId mKey ts m g = Ok g' -> tToTX (g_ctx g) <> ∅ -> tToTX (g_ctx g') <> ∅.
Proof.
  revert g. induction ts as [|t ts IH]; intros g H Hg; cbn [to_tables] in H; [by injection H as <-|].
  destruct m as [r o|p].
  - pose proof (transaction_ID_known (mId r) g Hg) as Hk. destruct (transaction_ID (mId r) g) as [txID g1].
    bind_inv H as ([out g2] & Hs%to_tx_step_tToTX & H). apply (IH _ H). by rewrite Hs.
  - bind_inv H as ([out g2] & Hs%to_tx_step_tToTX & H). apply (IH _ H). by rewrite Hs.
Qed.

(** The writer in front of multi-version tables: every group of elements is one
    transaction on all of the tables. *)
Lemma mvcc_writer ts gs (g : group T R) : groups_ok mId gs ->
  chopped (to_tables mId mKey ts) (txChopping mId (to_tables mId mKey ts)) (elements gs) 0 g =
    (g ← transactions (to_tables mId mKey ts) (begin_transaction (to_tables mId mKey ts)) (commit_transaction (to_tables mId mKey ts)) gs g;
     Ok (last_id gs 0, g)).
Proof. apply context_chopped; [done|]. apply to_tables_keeps. Qed.
End mvcc_tables.

(** ** Two transactions on two tables

    Elements are (transaction, key, value).  The first transaction is in both
    tables when the second one begins; the second is still open at the end.  Of
    the two values that the first one writes to key 7 the smaller one is kept
    ([MVCC.dedup_writes]). *)
Module Demo.
Import MVCCProtocol.Demo.

Abbreviation elem := (Z * Z * Z)%type.
Definition mId (r : elem) : Z := r.1.1.
Definition mKey (r : elem) : Z := r.1.2.
Definition less (a b : elem) : bool := (mKey a <? mKey b) || ((mKey a =? mKey b) && (a.2 <? b.2)).

Abbreviation table := (HashMap.HashMapTable Z (MVCCObject elem)) (only parsing).
Definition no_rows (id : nat) : MVCCTable table elem := mkMVCCTable (mkWriteSet 0 []) (HashMap.mkHashMapTable ∅ [] [] []) id.
Definition g0 : group table elem := mkGroup (ctx2 0 1 [Active; Active]) [no_rows 0; no_rows 1].

#[local] Hint Extern 0 (TxTableOps (group _ _) _) => exact (mvcc_tx_ops 2 5 less (0, 0, 0)) : typeclass_instances.

Definition stream : list elem := [(1, 7, 70); (1, 8, 80); (1, 7, 71); (2, 7, 72)].

(** last transaction of the stream; of each table the values of keys 7 and 8 now, and the keys of the open write set *)
Definition shown : result (Z * list (option elem * option elem * list Z)) :=
  '(lastTx, g) ← chopped (to_tables mId mKey [0; 1]%nat) (txChopping mId (to_tables mId mKey [0; 1]%nat)) stream 0 g0;
  Ok (lastTx, (fun t => (snapshot (tbl t) 7 100, snapshot (tbl t) 8 100, (ws_set (writeSet t)).*1)) <$> g_tables g).

Lemma two_transactions : shown =
  Ok (2, [(Some (1, 7, 70), Some (1, 8, 80), [7]); (Some (1, 7, 70), Some (1, 8, 80), [7])]).
Proof. vm_compute. reflexivity. Qed.

Lemma two_transactions_grouped : stream = elements [(1, take 3 stream); (2, drop 3 stream)] /\
  groups_ok mId [(1, take 3 stream); (2, drop 3 stream)].
Proof. split; [done|]. cbn. repeat split; try done; repeat constructor. Qed.
End Demo.
