(* ===== verification/Tuplify.v ===== *)
(** * Tuplify: tuples from triples and from JSON documents

    [Tuplifier.hpp], which collects the (subject, predicate, object) triples of a
    subject into one tuple, and [JsonExtractor.hpp].  Both build a vector of
    strings and leave its parsing to the constructor of the tuple ([create], for
    instance [tuple_of_strings] of [Extract.v]).  The order of the hash table is
    the order of its entries in a list, new ones at the end; in ordered mode it
    holds one entry at most. *)

From S2P Require Import Prelude Stream Serialize Extract.

(** ** Association lists *)

Section assoc.
Context {V : Type}.

Fixpoint assoc (k : list Z) (l : list (list Z * V)) : option V :=
  match l with
  | [] => None
  | (k', v) :: l => if decide (k = k') then Some v else assoc k l
  end.

(** [insert] keeps an entry that exists *)
Definition assoc_insert (k : list Z) (v : V) (l : list (list Z * V)) : list (list Z * V) :=
  match assoc k l with Some _ => l | None => l ++ [(k, v)] end.

Definition assoc_erase (k : list Z) (l : list (list Z * V)) : list (list Z * V) :=
  filter (fun e => e.1 <> k) l.

Fixpoint assoc_update (k : list Z) (f : V -> V) (l : list (list Z * V)) : list (list Z * V) :=
  match l with
  | [] => []
  | (k', v) :: l => if decide (k = k') then (k', f v) :: l else (k', v) :: assoc_update k f l
  end.
End assoc.

(** ** Tuplifier *)

Record triple := mkTriple { subj : list Z; pred : list Z; obj : list Z }.

Inductive TuplifyMode := ORDERED | WINDOW | PUNCTUATED | COMPLETED.

#[export] Instance TuplifyMode_eq_dec : EqDecision TuplifyMode.
Proof. solve_decision. Defined.

Record BufferItem := mkItem { tripleList : list triple; matches : Z; arrivalTime : Z }.

Record Tuplifier := mkTuplifier {
  mode : TuplifyMode;
  predicates : list (list Z * nat);
  mTimestampExtractor : option (triple -> Z);
  tupleBuffer : list (list Z * BufferItem);
  currentSubj : list Z }.

(** the predicates get the positions 1, 2, ... *)
Definition index_predicates (predList : list (list Z)) : list (list Z * nat) :=
  fold_left (fun m p => assoc_insert p.2 (S p.1) m) (zip (seq 0 (length predList)) predList) [].

Definition new_Tuplifier (func : option (triple -> Z)) (predList : list (list Z)) (m : TuplifyMode) : Tuplifier :=
  mkTuplifier m (index_predicates predList) func [] [].

Definition with_buffer b t := mkTuplifier (mode t) (predicates t) (mTimestampExtractor t) b (currentSubj t).
Definition with_subj s t := mkTuplifier (mode t) (predicates t) (mTimestampExtractor t) (tupleBuffer t) s.

Section tuplifier.
Context {T : Type} (create : list (list Z) -> result T).

Definition addToBuffer (data : triple) (t : Tuplifier) : Tuplifier :=
  match assoc (pred data) (predicates t) with
  | None => t
  | Some _ =>
      match assoc (subj data) (tupleBuffer t) with
      | Some _ =>
          with_buffer (assoc_update (subj data) (fun it =>
            mkItem (tripleList it ++ [data]) (u32 (matches it + 1)) (arrivalTime it)) (tupleBuffer t)) t
      | None =>
          let ts := match mTimestampExtractor t with None => 0 | Some f => f data end in
          with_buffer (tupleBuffer t ++ [(subj data, mkItem [data] 1 ts)]) t
      end
  end.

(** the fields of the triples, a later one over an earlier one *)
Fixpoint fill_fields (preds : list (list Z * nat)) (tbuf : list triple) (data : list (list Z)) : result (list (list Z)) :=
  match tbuf with
  | [] => Ok data
  | tr :: tbuf =>
      match assoc (pred tr) preds with
      | None => Err AssertFailed
      | Some field => data ← set_at data field (obj tr); fill_fields preds tbuf data
      end
  end.

Definition produceTuple (preds : list (list Z * nat)) (tbuf : list triple) : result (list (event T)) :=
  match tbuf with
  | [] => Err EmptyAccess
  | front :: _ =>
      data ← fill_fields preds tbuf (subj front :: replicate (length preds) []);
      tn ← create data;
      Ok [Data tn false]
  end.

Definition produceTupleForSubject (s : list Z) (t : Tuplifier) : result (list (event T) * Tuplifier) :=
  match assoc s (tupleBuffer t) with
  | None => Ok ([], t)
  | Some it =>
      out ← produceTuple (predicates t) (tripleList it);
      Ok (out, with_buffer (assoc_erase s (tupleBuffer t)) t)
  end.

(** a scan of the buffer that publishes and erases the items in [P] *)
Fixpoint produce_where (P : BufferItem -> bool) (preds : list (list Z * nat)) (b : list (list Z * BufferItem))
    : result (list (event T) * list (list Z * BufferItem)) :=
  match b with
  | [] => Ok ([], [])
  | (s, it) :: b =>
      if P it then
        out ← produceTuple preds (tripleList it);
        '(out', b') ← produce_where P preds b;
        Ok (out ++ out', b')
      else
        '(out', b') ← produce_where P preds b;
        Ok (out', (s, it) :: b')
  end.

Definition produce_scan (P : BufferItem -> bool) (t : Tuplifier) : result (list (event T) * Tuplifier) :=
  '(out, b) ← produce_where P (predicates t) (tupleBuffer t);
  Ok (out, with_buffer b t).

(** complete: as many triples as predicates *)
Definition produceCompleteTuples (t : Tuplifier) : result (list (event T) * Tuplifier) :=
  produce_scan (fun it => matches it =? Z.of_nat (length (predicates t))) t.
Definition produceAllTuples (t : Tuplifier) : result (list (event T) * Tuplifier) :=
  produce_scan (fun _ => true) t.
Definition produceOutdatedTuples (t : Tuplifier) : result (list (event T) * Tuplifier) :=
  produce_scan (fun it => arrivalTime it =? 0) t.

(** the flag of the element is not looked at *)
Definition tuplifier_processDataElement (data : triple) (outdated : bool) (t : Tuplifier) : result (list (event T) * Tuplifier) :=
  if decide (mode t = ORDERED) then
    if decide (currentSubj t = [] \/ subj data = currentSubj t) then
      let t := addToBuffer data t in
      Ok ([], if decide (currentSubj t = []) then with_subj (subj data) t else t)
    else
      '(out, t) ← produceTupleForSubject (currentSubj t) t;
      Ok (out, addToBuffer data (with_subj (subj data) t))
  else
    let t := addToBuffer data t in
    if decide (mode t = COMPLETED) then produceCompleteTuples t else Ok ([], t).

Definition tuplifier_processPunctuation (pp : PType) (t : Tuplifier) : result (list (event T) * Tuplifier) :=
  '(out, t) ← (if decide (mode t = ORDERED) then produceTupleForSubject (currentSubj t) t else produceAllTuples t);
  Ok (out ++ [Punct pp], t).

(** [notificationCallback] *)
Definition tuplifier_notificationCallback (t : Tuplifier) : result (list (event T) * Tuplifier) := produceOutdatedTuples t.

Definition tuplifier_step (e : event triple) (t : Tuplifier) : result (list (event T) * Tuplifier) :=
  match e with
  | Data data outdated => tuplifier_processDataElement data outdated t
  | Punct pp => tuplifier_processPunctuation pp t
  end.

(** *** Ordered mode *)

Context (preds : list (list Z * nat)) (mk : list (list Z) -> T).
Hypothesis create_ok : forall d, length d = S (length preds) -> create d = Ok (mk d).
Hypothesis fields_ok : forall p i, assoc p preds = Some i -> (i <= length preds)%nat.

(** the triples of a subject that have a predicate of the schema *)
Definition wanted (ts : list triple) : list triple := filter (fun t => is_Some (assoc (pred t) preds)) ts.

Definition put_field (d : list (list Z)) (t : triple) : list (list Z) :=
  match assoc (pred t) preds with Some i => <[i := obj t]> d | None => d end.

(** the record of a subject: for each predicate the last object given for it *)
Definition record_of (s : list Z) (ts : list triple) : list (list Z) :=
  fold_left put_field
    ts (s :: replicate (length preds) []).

Definition group_output (s : list Z) (ts : list triple) : list (event T) :=
  match wanted ts with [] => [] | _ => [Data (mk (record_of s ts)) false] end.

(** the state after the triples [ts] of subject [s] *)
Definition in_group (f : option (triple -> Z)) (s : list Z) (ts : list triple) (t : Tuplifier) : Prop :=
  mode t = ORDERED /\ predicates t = preds /\ mTimestampExtractor t = f /\ currentSubj t = s /\
  match wanted ts with
  | [] => tupleBuffer t = []
  | w => exists m a, tupleBuffer t = [(s, mkItem w m a)]
  end.

Lemma fill_fields_spec tbuf d : length d = S (length preds) -> Forall (fun t => is_Some (assoc (pred t) preds)) tbuf ->
  fill_fields preds tbuf d =
    Ok (fold_left put_field tbuf d).
Proof.
  intros Hd H. revert d Hd. induction H as [|t tbuf [i Hi] _ IH]; intros d Hd; [done|].
  cbn [fill_fields fold_left]. unfold put_field at 2. rewrite Hi. pose proof (fields_ok _ _ Hi).
  rewrite set_at_lt by lia. run_step. apply IH. by rewrite length_insert.
Qed.

Lemma record_of_wanted ts d :
  fold_left put_field (wanted ts) d =
  fold_left put_field ts d.
Proof.
  revert d. induction ts as [|t ts IH]; intros d; [done|]. unfold wanted in *. rewrite filter_cons.
  case_decide as Hw; cbn [fold_left]; rewrite IH; [done|].
  unfold put_field at 3. destruct (assoc (pred t) preds) eqn:Ha; [|done]. by exfalso; apply Hw.
Qed.

Lemma record_length ts d : length (fold_left put_field ts d) = length d.
Proof.
  revert d. induction ts as [|t ts IH]; intros d; [done|]. cbn [fold_left]. rewrite IH.
  unfold put_field. destruct (assoc (pred t) preds); [by rewrite length_insert|done].
Qed.

Lemma produceTuple_wanted s ts w : wanted ts = w -> w <> [] -> Forall (fun t => subj t = s) ts ->
  produceTuple preds w = Ok [Data (mk (record_of s ts)) false].
Proof.
  intros Hw Hne Hs. destruct w as [|t w]; [done|]. cbn [produceTuple].
  assert (t ∈ wanted ts) as [Ht Hin]%list_elem_of_filter by (rewrite Hw; by left).
  assert (subj t = s) as -> by (by rewrite Forall_forall in Hs; apply Hs).
  rewrite fill_fields_spec; [|simpl; by rewrite length_replicate|].
  - run_step. rewrite <- Hw, record_of_wanted by done. rewrite create_ok; [done|].
    rewrite record_length. simpl. by rewrite length_replicate.
  - rewrite <- Hw. apply Forall_forall. by intros x [? _]%list_elem_of_filter.
Qed.

Lemma produce_group f s ts t : in_group f s ts t -> Forall (fun t => subj t = s) ts ->
  exists t', produceTupleForSubject s t = Ok (group_output s ts, t') /\ tupleBuffer t' = [] /\
    mode t' = ORDERED /\ predicates t' = preds /\ mTimestampExtractor t' = f.
Proof.
  intros (Hm & Hp & Hf & Hc & Hb) Hs. unfold produceTupleForSubject, group_output.
  destruct (wanted ts) as [|w0 w] eqn:Hw.
  - rewrite Hb. by exists t.
  - destruct Hb as (m & a & Hb). rewrite Hb. cbn [assoc]. rewrite decide_True by done. cbn [tripleList].
    rewrite Hp, (produceTuple_wanted s ts (w0 :: w) Hw) by done. run_step. eexists. split; [done|].
    unfold with_buffer. cbn [tupleBuffer mode predicates mTimestampExtractor]. split_and!; [|done..].
    unfold assoc_erase. by rewrite filter_cons_False by (intros Hx; by apply Hx).
Qed.

Lemma wanted_snoc ts d : wanted (ts ++ [d]) = wanted ts ++ (if decide (is_Some (assoc (pred d) preds)) then [d] else []).
Proof. unfold wanted. by rewrite filter_app, filter_cons, filter_nil. Qed.

Lemma add_in_group f s ts t d : in_group f s ts t -> subj d = s -> in_group f s (ts ++ [d]) (addToBuffer d t).
Proof.
  intros (Hm & Hp & Hf & Hc & Hb) Hd. unfold in_group, addToBuffer. rewrite wanted_snoc, Hp.
  destruct (assoc (pred d) preds) as [i|] eqn:Ha.
  - rewrite decide_True by done. destruct (wanted ts) as [|w0 w] eqn:Hw.
    + rewrite Hb. cbn. split_and!; [done..|]. rewrite Hd. by do 2 eexists.
    + destruct Hb as (m & a & Hb). rewrite Hb, Hd. cbn [assoc]. rewrite decide_True by done.
      cbn [with_buffer mode predicates mTimestampExtractor currentSubj tupleBuffer assoc_update app].
      rewrite decide_True by done. split_and!; [done..|]. by do 2 eexists.
  - rewrite decide_False by (by intros []). rewrite app_nil_r. by destruct (wanted ts).
Qed.

Lemma same_group f s ts t d o : s <> [] -> in_group f s ts t -> subj d = s ->
  exists t', tuplifier_step (Data d o) t = Ok ([], t') /\ in_group f s (ts ++ [d]) t'.
Proof.
  intros Hs Hg Hd. pose proof (add_in_group f s ts t d Hg Hd) as Hg'.
  destruct Hg as (Hm & Hp & Hf & Hc & Hb). unfold tuplifier_step, tuplifier_processDataElement.
  rewrite decide_True, decide_True by (by rewrite ?Hc; auto). eexists. split; [done|].
  rewrite decide_False; [done|]. destruct Hg' as (_ & _ & _ & -> & _). done.
Qed.

Lemma next_group f s ts t d o : s <> [] -> in_group f s ts t -> Forall (fun t => subj t = s) ts -> subj d <> s ->
  exists t', tuplifier_step (Data d o) t = Ok (group_output s ts, t') /\ in_group f (subj d) [d] t'.
Proof.
  intros Hs Hg Hts Hd. destruct (produce_group f s ts t Hg Hts) as (t1 & Hpr & Hb1 & Hm1 & Hp1 & Hf1).
  destruct Hg as (Hm & Hp & Hf & Hc & Hb). unfold tuplifier_step, tuplifier_processDataElement.
  rewrite decide_True, decide_False by (done || (intros [?|?]; congruence)). rewrite Hc, Hpr. run_step.
  eexists. split; [done|]. apply (add_in_group f (subj d) [] (with_subj (subj d) t1) d); [|done].
  unfold in_group. cbn. by rewrite Hb1.
Qed.

Lemma run_group f s ts t ds : s <> [] -> in_group f s ts t -> Forall (fun t => subj t = s) ds ->
  exists t', run tuplifier_step ((fun d => Data d false) <$> ds) t = Ok ([], t') /\ in_group f s (ts ++ ds) t'.
Proof.
  intros Hs Hg H. revert ts t Hg. induction H as [|d ds Hd _ IH]; intros ts t Hg.
  - exists t. by rewrite app_nil_r.
  - destruct (same_group f s ts t d false Hs Hg Hd) as (t1 & H1 & Hg1).
    destruct (IH _ _ Hg1) as (t2 & H2 & Hg2). exists t2. rewrite fmap_cons. cbn [run]. rewrite H1. run_step.
    rewrite H2. run_step. split; [done|]. by rewrite <- app_assoc in Hg2.
Qed.

(** groups of triples: adjacent ones have different subjects, none is empty *)
Fixpoint groups_ok (prev : list Z) (gs : list (list Z * list triple)) : Prop :=
  match gs with
  | [] => True
  | (s, ts) :: gs => s <> [] /\ s <> prev /\ ts <> [] /\ Forall (fun t => subj t = s) ts /\ groups_ok s gs
  end.

Lemma run_groups f s ts t gs pp : s <> [] -> in_group f s ts t -> Forall (fun t => subj t = s) ts -> groups_ok s gs ->
  exists t', run tuplifier_step (((fun d => Data d false) <$> (gs ≫= snd)) ++ [Punct pp]) t =
    Ok (group_output s ts ++ (gs ≫= fun g => group_output g.1 g.2) ++ [Punct pp], t') /\ tupleBuffer t' = [].
Proof.
  revert s ts t. induction gs as [|[s' ts'] gs IH]; intros s ts t Hs Hg Hts Hok.
  - destruct (produce_group f s ts t Hg Hts) as (t1 & Hpr & Hb1 & _). exists t1. split; [|done].
    cbn [run mbind list_bind fmap list_fmap app]. unfold tuplifier_step, tuplifier_processPunctuation.
    destruct Hg as (Hm & _ & _ & Hc & _). rewrite decide_True, Hc, Hpr by done. run_step. by rewrite app_nil_r.
  - destruct Hok as (Hs' & Hne & Hts'ne & Hts' & Hok). destruct ts' as [|d ds]; [done|].
    pose proof Hts' as [Hd Hds]%Forall_cons.
    destruct (next_group f s ts t d false Hs Hg Hts ltac:(congruence)) as (t1 & H1 & Hg1). rewrite Hd in Hg1.
    destruct (run_group f s' [d] t1 ds Hs' Hg1 Hds) as (t2 & H2 & Hg2). cbn [app] in Hg2.
    destruct (IH s' (d :: ds) t2 Hs' Hg2 Hts' Hok) as (t3 & H3 & Hb3). exists t3. split; [|done].
    rewrite !bind_cons. cbn [snd fst]. rewrite fmap_app, fmap_cons, <- app_assoc. cbn [app run].
    rewrite H1. run_step. rewrite run_app, H2. run_step. rewrite H3. run_step. cbn [app]. by rewrite <- !app_assoc.
Qed.
End tuplifier.

(** the positions of the predicates *)
Lemma assoc_app {V} k (l l' : list (list Z * V)) :
  assoc k (l ++ l') = match assoc k l with Some v => Some v | None => assoc k l' end.
Proof. induction l as [|[k' v] l IH]; [done|]. simpl. by case_decide. Qed.

Lemma assoc_None {V} k (l : list (list Z * V)) : assoc k l = None <-> k ∉ l.*1.
Proof.
  induction l as [|[k' v] l IH]; [by split; [intros _ ?%elem_of_nil|]|].
  rewrite fmap_cons, not_elem_of_cons. cbn [assoc fst]. case_decide as Hk; [by split; [done|intros [? _]]|].
  split; [intros H; split; [done|by apply IH]|intros [_ H]; by apply IH].
Qed.

Lemma index_predicates_nodup n predList m : NoDup (m.*1 ++ predList) ->
  fold_left (fun m p => assoc_insert p.2 (S p.1) m) (zip (seq n (length predList)) predList) m =
  m ++ zip predList (seq (S n) (length predList)).
Proof.
  revert n m. induction predList as [|p l IH]; intros n m Hnd; [by rewrite app_nil_r|].
  cbn [length seq zip zip_with fold_left fst snd].
  assert (assoc_insert p (S n) m = m ++ [(p, S n)]) as ->.
  { unfold assoc_insert. apply NoDup_app in Hnd as (_ & Hn & _).
    destruct (assoc p m) eqn:Ha; [|done]. exfalso. apply (Hn p); [|by left].
    destruct (decide (p ∈ m.*1)) as [|Hx]; [done|]. apply assoc_None in Hx. congruence. }
  change (zip_with pair (seq (S n) (length l)) l) with (zip (seq (S n) (length l)) l).
  rewrite IH; [by rewrite <- app_assoc|]. rewrite fmap_app, <- app_assoc. done.
Qed.

Lemma index_predicates_spec predList : NoDup predList ->
  index_predicates predList = zip predList (seq 1 (length predList)).
Proof. intros H. unfold index_predicates. by rewrite index_predicates_nodup. Qed.

Lemma assoc_zip_seq (l : list (list Z)) n p i : assoc p (zip l (seq n (length l))) = Some i ->
  (n <= i < n + length l)%nat /\ l !! (i - n)%nat = Some p.
Proof.
  revert n. induction l as [|x l IH]; intros n H; [done|]. cbn [length seq zip zip_with assoc] in H.
  case_decide as Hx.
  - injection H as <-. subst x. rewrite Nat.sub_diag. simpl. split; [lia|done].
  - apply IH in H as [Hi Hl]. simpl length. split; [lia|]. by replace (i - n)%nat with (S (i - S n)) by lia.
Qed.

(** ** JsonExtractor

    What the parser of the JSON library gives for a key: nothing, or a value of
    one of its kinds.  For a float it is the text of [std::to_string((float)val)]. *)
Inductive json_value := JInt (z : Z) | JFloat (text : list Z) | JString (s : list Z) | JOther.

Section json.
Context {T : Type} (create : list (list Z) -> result T) (mKeys : list (list Z)).

(** one key: [mData[i]]; a value of another kind (null, a boolean, an object)
    leaves the string that is there *)
Definition json_field (val : option json_value) (old : list Z) : list Z :=
  match val with
  | None => []
  | Some (JInt z) => print_int (s32 z)
  | Some (JFloat text) => text
  | Some (JString s) => s
  | Some JOther => old
  end.

(** [j] is the document, [mData] the strings of the previous one *)
Definition json_processDataElement (j : list Z -> option json_value) (outdated : bool) (mData : list (list Z))
    : result (list (event T) * list (list Z)) :=
  let mData := zip_with (fun key old => json_field (j key) old) mKeys mData in
  res ← create mData;
  Ok ([Data res outdated], mData).
End json.

(** ** Properties *)

(** a schema gives each predicate a field *)
Lemma index_predicates_fields predList p i : NoDup predList ->
  assoc p (index_predicates predList) = Some i -> (i <= length (index_predicates predList))%nat.
Proof.
  intros Hnd H. rewrite index_predicates_spec in * by done. apply assoc_zip_seq in H as [Hi _].
  rewrite length_zip_with, length_seq. lia.
Qed.

(** In ordered mode a tuplifier that is given the triples of one subject
    after the other, and then a punctuation, publishes one tuple per subject that
    has a predicate of the schema: the subject, and for each predicate the last
    object given for it, the empty string where there is none. *)
Lemma ordered_tuplifier {T} (create : list (list Z) -> result T) mk f predList gs pp :
  NoDup predList -> (forall d, length d = S (length predList) -> create d = Ok (mk d)) -> groups_ok [] gs ->
  exists t, run (tuplifier_step create) (((fun d => Data d false) <$> (gs ≫= snd)) ++ [Punct pp]) (new_Tuplifier f predList ORDERED) =
    Ok ((gs ≫= fun g => group_output (index_predicates predList) mk g.1 g.2) ++ [Punct pp], t) /\ tupleBuffer t = [].
Proof.
  intros Hnd Hcr Hok. set (preds := index_predicates predList).
  assert (length preds = length predList) as Hlen.
  { unfold preds. rewrite index_predicates_spec, length_zip_with, length_seq by done. lia. }
  assert (forall d, length d = S (length preds) -> create d = Ok (mk d)) as Hcr' by (intros d Hd; apply Hcr; by rewrite <- Hlen).
  assert (forall p i, assoc p preds = Some i -> (i <= length preds)%nat) as Hf by (intros p i; by apply index_predicates_fields).
  destruct gs as [|[s ts] gs]; [by eexists|]. destruct Hok as (Hs & _ & Hne & Hts & Hok).
  destruct ts as [|d ds]; [done|]. pose proof Hts as [Hd Hds]%Forall_cons.
  set (t0 := new_Tuplifier f predList ORDERED).
  assert (in_group preds f s [d] (with_subj s (addToBuffer d t0))) as Hg1.
  { assert (in_group preds f s ([] ++ [d]) (addToBuffer d (with_subj s t0))) as Hg by (apply add_in_group; [done|done]).
    cbn [app] in Hg. unfold addToBuffer in *. cbn [with_subj predicates tupleBuffer t0 new_Tuplifier] in *.
    by destruct (assoc (pred d) (index_predicates predList)). }
  assert (tuplifier_step create (Data d false) t0 = Ok ([], with_subj s (addToBuffer d t0))) as H1.
  { unfold tuplifier_step, tuplifier_processDataElement. rewrite decide_True, decide_True by (done || by left).
    rewrite decide_True; [by rewrite Hd|]. unfold addToBuffer, t0. cbn. by destruct (assoc (pred d) _). }
  destruct (run_group create preds f s [d] (with_subj s (addToBuffer d t0)) ds Hs Hg1 Hds) as (t2 & H2 & Hg2).
  destruct (run_groups create preds mk Hcr' Hf f s ([d] ++ ds) t2 gs pp Hs Hg2 Hts Hok) as (t3 & H3 & Hb3).
  exists t3. split; [|done]. rewrite !bind_cons. cbn [fst snd]. rewrite fmap_app, fmap_cons, <- app_assoc. cbn [app run].
  rewrite H1. run_step. rewrite run_app, H2. run_step. rewrite H3. run_step. cbn [app]. by rewrite <- app_assoc.
Qed.

Lemma ordered_tuplifier_witness :
  let p1 := [112; 49] in let p2 := [112; 50] in
  exists t, run (tuplifier_step (fun d => Ok d))
    [Data (mkTriple [65] p1 [1]) false; Data (mkTriple [65] p2 [2]) false;
     Data (mkTriple [66] p2 [3]) false; Punct EndOfStream] (new_Tuplifier None [p1; p2] ORDERED) =
    Ok ([Data [[65]; [1]; [2]] false; Data [[66]; []; [3]] false; Punct EndOfStream], t) /\ tupleBuffer t = [].
Proof.
  refine (ordered_tuplifier (fun d => Ok d) (fun d => d) None [[112; 49]; [112; 50]]
    [([65], [mkTriple [65] [112; 49] [1]; mkTriple [65] [112; 50] [2]]); ([66], [mkTriple [66] [112; 50] [3]])] EndOfStream _ _ _).
  - apply NoDup_ListNoDup. repeat constructor; simpl; intuition congruence.
  - reflexivity.
  - simpl. repeat split; try discriminate; repeat constructor.
Defined.

(** In completed mode a tuple counts as complete when it has as many triples as
    there are predicates, whatever their predicates: a predicate that is given
    twice, or retracted, completes a tuple of two that lacks the other. *)
Lemma completed_counts_triples {T} (create : list (list Z) -> result T) x f s p q o1 o2 b1 b2 : p <> q ->
  create [s; o2; []] = Ok x ->
  exists t, run (tuplifier_step create) [Data (mkTriple s p o1) b1; Data (mkTriple s p o2) b2] (new_Tuplifier f [p; q] COMPLETED) =
    Ok ([Data x false], t) /\ tupleBuffer t = [].
Proof.
  intros Hpq Hx. assert (index_predicates [p; q] = [(p, 1%nat); (q, 2%nat)]) as Hi.
  { apply index_predicates_spec. apply NoDup_cons. split; [by rewrite list_elem_of_singleton|apply NoDup_singleton]. }
  unfold new_Tuplifier. rewrite Hi. eexists.
  cbn [run]. unfold tuplifier_step, tuplifier_processDataElement, produceCompleteTuples, produce_scan, addToBuffer.
  repeat first [progress cbn | rewrite (decide_True (P := p = p)) by done | rewrite (decide_True (P := s = s)) by done
    | rewrite (decide_False (P := COMPLETED = ORDERED)) by done | rewrite (decide_True (P := COMPLETED = COMPLETED)) by done
    | progress change (Z.of_nat 2) with 2 | progress change (u32 (1 + 1)) with 2 | rewrite set_at_lt by (simpl; lia)].
  rewrite Hx. by cbn.
Qed.

(** A key with a value that is neither a number nor a string repeats the field of
    the tuple before. *)
Lemma json_repeats_field {T} (create : list (list Z) -> result T) x j1 j2 key o1 o2 z old :
  j1 key = Some (JInt z) -> j2 key = Some JOther -> create [print_int (s32 z)] = Ok x ->
  run (fun j => json_processDataElement create [key] j.1 j.2) [(j1, o1); (j2, o2)] [old] =
    Ok ([Data x o1; Data x o2], [print_int (s32 z)]).
Proof.
  intros H1 H2 Hx. unfold json_processDataElement. cbn [run fst snd zip_with]. rewrite H1. cbn [json_field].
  rewrite Hx. run_step. cbn [zip_with]. rewrite H2. cbn [json_field]. by rewrite Hx.
Qed.
