(* ===== verification/Windows.v ===== *)
(** * Windows: sliding and tumbling windows

    Models [src/qop/Window.hpp], [src/qop/SlidingWindow.hpp] and
    [src/qop/TumblingWindow.hpp]: the window buffer, the eviction by count and
    by time, and [processDataElement] of both operators.  Timestamps are
    microseconds. *)

From S2P Require Import Prelude Stream.

Inductive WinType := InvalidWindow | RangeWindow | RowWindow.

#[export] Instance WinType_eq_dec : EqDecision WinType.
Proof. solve_decision. Defined.

(** [boost::variant<Timestamp, unsigned int>] *)
Inductive WinSizeType := WinTime (t : Z) | WinCount (n : Z).

(** [boost::get] throws when the variant holds the other type *)
Definition get_time (w : WinSizeType) : result Z :=
  match w with WinTime t => Ok t | WinCount _ => Err (Throws "bad_get") end.
Definition get_count (w : WinSizeType) : result Z :=
  match w with WinCount n => Ok n | WinTime _ => Err (Throws "bad_get") end.

Section Window.
Context {E : Type} (mTimestampExtractor : E -> Z) (mWindowOpFunc : option (list E -> E -> E)).

Record Window := mkWindow {
  mWinType : WinType;
  mWinSize : WinSizeType;
  mEvictInterval : Z;
  mTupleBuf : list E;
  mCurrSize : Z;
}.

(** the constructor taking the size as an [unsigned int] and a timestamp
    extractor: seconds are scaled in 32-bit arithmetic *)
Definition Window_init (wt : WinType) (sz ei : Z) : Window :=
  mkWindow wt (if decide (wt = RangeWindow) then WinTime (u32 (u32 (sz * 1000) * 1000)) else WinCount sz) ei [] 0.

(** the constructor taking a duration (here in microseconds) *)
Definition Window_init_duration (wt : WinType) (sz ei : Z) : Window := mkWindow wt (WinTime sz) ei [] 0.

(** the constructor without extractor *)
Definition Window_init_row (wt : WinType) (sz ei : Z) : result Window :=
  _ ← guard_else (bool_decide (wt = RowWindow)) AssertFailed; Ok (mkWindow wt (WinCount sz) ei [] 0).

Definition with_buf (buf : list E) (cur : Z) (w : Window) : Window :=
  mkWindow (mWinType w) (mWinSize w) (mEvictInterval w) buf cur.

Definition push (data : E) (w : Window) : Window :=
  with_buf (mTupleBuf w ++ [data]) (u32 (mCurrSize w + 1)) w.

Definition back {A} (l : list A) : result A :=
  match last l with Some x => Ok x | None => Err EmptyAccess end.
Definition front {A} (l : list A) : result A :=
  match l with x :: _ => Ok x | [] => Err EmptyAccess end.

(** ** SlidingWindow *)

Fixpoint evictByCount_loop (n : Z) (buf : list E) (cur : Z) : result (list (event E) * (list E * Z)) :=
  if cur >? n then
    match buf with
    | [] => Err EmptyAccess
    | tup :: rest =>
        '(out, s) ← evictByCount_loop n rest (u32 (cur - 1));
        Ok (Data tup true :: out, s)
    end
  else Ok ([], (buf, cur)).

Definition sliding_evictByCount (w : Window) : result (list (event E) * Window) :=
  n ← get_count (mWinSize w);
  '(out, (buf, cur)) ← evictByCount_loop n (mTupleBuf w) (mCurrSize w);
  Ok (out, with_buf buf cur w).

Fixpoint evictByTime_loop (accepted_time : Z) (buf : list E) (cur : Z) : list (event E) * (list E * Z) :=
  match buf with
  | [] => ([], (buf, cur))
  | tup :: rest =>
      if mTimestampExtractor tup <=? accepted_time then
        let '(out, s) := evictByTime_loop accepted_time rest (u32 (cur - 1)) in (Data tup true :: out, s)
      else ([], (buf, cur))
  end.

Definition sliding_evictByTime (w : Window) : result (list (event E) * Window) :=
  lastWindowElement ← back (mTupleBuf w);
  let lastTupleTime := mTimestampExtractor lastWindowElement in
  sz ← get_time (mWinSize w);
  if lastTupleTime >=? sz then
    let '(out, (buf, cur)) := evictByTime_loop (lastTupleTime - sz) (mTupleBuf w) (mCurrSize w) in
    Ok (out, with_buf buf cur w)
  else Ok ([], w).

(** [setupEviction]: without an eviction interval the eviction runs with
    every element; with one it is left to the notifier thread, which always
    evicts by time *)
Definition sliding_mEvictFun (w : Window) : Window -> result (list (event E) * Window) :=
  if decide (mWinType w = RangeWindow) then sliding_evictByTime else sliding_evictByCount.
Definition sliding_notifier (w : Window) : option (Window -> result (list (event E) * Window)) :=
  if mEvictInterval w =? 0 then None else Some sliding_evictByTime.

Definition sliding_evict_inline (w : Window) : result (list (event E) * Window) :=
  match sliding_notifier w with None => sliding_mEvictFun w w | Some _ => Ok ([], w) end.

Definition sliding_processDataElement (data : E) (outdated : bool) (w : Window)
    : result (list (event E) * Window) :=
  if outdated then Ok ([Data data outdated], w)
  else
    match mWindowOpFunc with
    | Some f =>
        '(out, w) ← sliding_evict_inline (push data w);
        Ok (out ++ [Data (f (mTupleBuf w) data) outdated], w)
    | None =>
        '(out, w) ← sliding_evict_inline (push data w);
        Ok (out ++ [Data data outdated], w)
    end.

(** ** TumblingWindow *)

Definition tumbling_evictByCount (w : Window) : result (list (event E) * Window) :=
  n ← get_count (mWinSize w);
  if mCurrSize w =? n then
    Ok (((fun e => Data e true) <$> mTupleBuf w) ++ [Punct WindowExpired], with_buf [] 0 w)
  else Ok ([], w).

Definition tumbling_evictByTime (w : Window) : result (list (event E) * Window) :=
  lastWindowElement ← back (mTupleBuf w);
  let lastTupleTime := mTimestampExtractor lastWindowElement in
  sz ← get_time (mWinSize w);
  if lastTupleTime >=? sz then
    tup ← front (mTupleBuf w);
    if mTimestampExtractor tup <=? lastTupleTime - sz then
      Ok (((fun e => Data e true) <$> removelast (mTupleBuf w)) ++ [Punct WindowExpired],
          with_buf [lastWindowElement] 1 w)
    else Ok ([], w)
  else Ok ([], w).

Definition tumbling_mEvictFun (w : Window) : Window -> result (list (event E) * Window) :=
  if decide (mWinType w = RowWindow) then tumbling_evictByCount else tumbling_evictByTime.

Definition tumbling_processDataElement (data : E) (outdated : bool) (w : Window)
    : result (list (event E) * Window) :=
  if outdated then Ok ([Data data outdated], w)
  else
    match mWindowOpFunc with
    | Some f =>
        let w := push data w in
        let res := f (mTupleBuf w) data in
        '(out, w) ← tumbling_mEvictFun w w;
        Ok (Data res outdated :: out, w)
    | None =>
        let w := push data w in
        '(out, w) ← tumbling_mEvictFun w w;
        Ok (out ++ [Data data outdated], w)
    end.

(** neither window passes punctuations on *)
Definition window_processPunctuation (p : PType) (w : Window) : list (event E) * Window := ([], w).

Definition sliding_step (data : E) : Window -> result (list (event E) * Window) :=
  sliding_processDataElement data false.
Definition tumbling_step (data : E) : Window -> result (list (event E) * Window) :=
  tumbling_processDataElement data false.
End Window.
Arguments Window : clear implicits.

(** ** Sliding windows over a row count *)

Section sliding_rows.
Context {E : Type} (ts : E -> Z) (f : option (list E -> E -> E)) (n : nat).

Lemma evictByCount_loop_spec (buf : list E) :
  Z.of_nat (length buf) < 2^32 ->
  let k := (length buf - n)%nat in
  evictByCount_loop (Z.of_nat n) buf (Z.of_nat (length buf)) =
    Ok ((fun e => Data e true) <$> take k buf, (drop k buf, Z.of_nat (length (drop k buf)))).
Proof.
  intros Hlen k. subst k. induction buf as [|e buf IH]; cbn [evictByCount_loop].
  - by destruct (Z.gtb_spec (Z.of_nat (length (@nil E))) (Z.of_nat n)); [simpl in *; lia|].
  - destruct (Z.gtb_spec (Z.of_nat (length (e :: buf))) (Z.of_nat n)) as [Hgt|Hle].
    + cbn [length] in *. replace (u32 (Z.of_nat (S (length buf)) - 1)) with (Z.of_nat (length buf))
        by (rewrite u32_small; word_lia).
      rewrite IH by lia. run_step.
      by replace (S (length buf) - n)%nat with (S (length buf - n)) by lia.
    + by replace (length (e :: buf) - n)%nat with 0%nat by lia.
Qed.

Definition window_value (l : list E) (x : E) : E :=
  match f with Some f => f l x | None => x end.

Lemma sliding_row_step (xs : list E) (x : E) :
  Z.of_nat n < 2^32 - 1 ->
  let b := lastn n xs ++ [x] in
  sliding_step ts f x (mkWindow RowWindow (WinCount (Z.of_nat n)) 0 (lastn n xs) (Z.of_nat (length (lastn n xs)))) =
    Ok (((fun e => Data e true) <$> take (length b - n) b) ++ [Data (window_value (lastn n (xs ++ [x])) x) false],
        mkWindow RowWindow (WinCount (Z.of_nat n)) 0 (lastn n (xs ++ [x])) (Z.of_nat (length (lastn n (xs ++ [x]))))).
Proof.
  intros Hn b. destruct (lastn_snoc n xs x) as [Hd _]. fold b in Hd.
  unfold sliding_step, sliding_processDataElement, sliding_evict_inline, sliding_notifier, sliding_mEvictFun, push.
  cbn [mEvictInterval mWinType mWinSize mTupleBuf mCurrSize with_buf Z.eqb]. fold b.
  assert (length b = S (length (lastn n xs))) as Hb by (unfold b; rewrite length_app; simpl; lia).
  pose proof (lastn_length n xs).
  replace (u32 (Z.of_nat (length (lastn n xs)) + 1)) with (Z.of_nat (length b))
    by (rewrite u32_small; word_lia).
  rewrite (decide_False (P := RowWindow = RangeWindow)) by done.
  unfold sliding_evictByCount.
  cbn [with_buf mWinType mWinSize mEvictInterval get_count mbind result_bind mTupleBuf mCurrSize].
  rewrite evictByCount_loop_spec by lia. rewrite Hd.
  unfold window_value. destruct f; cbn [mbind result_bind with_buf mTupleBuf mWinType mWinSize mEvictInterval]; done.
Qed.

Lemma imap_take_snoc {B} (g : list E -> E -> B) (xs : list E) (x : E) :
  imap (fun i y => g (take (S i) (xs ++ [x])) y) (xs ++ [x]) =
  imap (fun i y => g (take (S i) xs) y) xs ++ [g (xs ++ [x]) x].
Proof.
  rewrite imap_app. f_equal.
  - apply imap_ext. intros i y Hi. f_equal. apply lookup_lt_Some in Hi.
    apply take_app_le. lia.
  - cbn. rewrite take_ge; [done|]. rewrite length_app. simpl. lia.
Qed.

(** C13: a sliding window of [n] rows.  After any stream of elements the
    window holds exactly the last [n] of them; the elements retracted so far
    are the others, each once and in arrival order; the published elements
    are one per input, in order, each the input itself or the window
    function applied to the last [n] elements at that moment. *)
Theorem sliding_row_window (Hn : Z.of_nat n < 2^32 - 1) (xs : list E) :
  exists out w, run (sliding_step ts f) xs (Window_init RowWindow (Z.of_nat n) 0) = Ok (out, w) /\
    mTupleBuf w = lastn n xs /\ mCurrSize w = Z.of_nat (length (mTupleBuf w)) /\
    outdateds out = take (length xs - n) xs /\
    valids out = imap (fun i x => window_value (lastn n (take (S i) xs)) x) xs.
Proof.
  edestruct (run_invariant (sliding_step ts f) (fun xs w out =>
    w = mkWindow RowWindow (WinCount (Z.of_nat n)) 0 (lastn n xs) (Z.of_nat (length (lastn n xs))) /\
    outdateds out = take (length xs - n) xs /\
    valids out = imap (fun i x => window_value (lastn n (take (S i) xs)) x) xs)
    (Window_init RowWindow (Z.of_nat n) 0)) as (out & w & Hrun & -> & Ho & Hv); [| |by exists out; eexists].
  - split; [|done]. unfold Window_init. by rewrite decide_False.
  - intros ys x s o (-> & Ho & Hv). eexists _, _. split; [by apply sliding_row_step|]. split; [done|].
    destruct (lastn_snoc n ys x) as [_ Ht].
    rewrite !outdateds_app, !valids_app, outdateds_retract, valids_retract, Ho, Hv, app_nil_r. split; [done|].
    by rewrite (imap_take_snoc (fun l y => window_value (lastn n l) y)).
Qed.
End sliding_rows.

(** ** Sliding windows over a time range *)

Section sliding_range.
Context {E : Type} (ts : E -> Z) (f : option (list E -> E -> E)).

(** arrival in timestamp order *)
Definition ts_sorted (l : list E) : Prop := StronglySorted (fun a b => ts a <= ts b) l.

Lemma ts_sorted_snoc_inv l x : ts_sorted (l ++ [x]) -> ts_sorted l /\ forall e, e ∈ l -> ts e <= ts x.
Proof.
  intros (Hle & Hl & _)%StronglySorted_app. split; [done|]. intros e He.
  apply Hle; [done|by apply list_elem_of_singleton].
Qed.

Lemma evictByTime_loop_spec acc buf cur :
  exists k, let res := evictByTime_loop ts acc buf cur in
    res.1 = (fun e => Data e true) <$> take k buf /\ res.2.1 = drop k buf /\
    (forall e, e ∈ take k buf -> ts e <= acc) /\
    (ts_sorted buf -> drop k buf = filter (fun e => acc < ts e) buf).
Proof.
  revert cur. induction buf as [|e buf IH]; intros cur; cbn [evictByTime_loop].
  - exists 0%nat. split_and!; try done. by intros ? ?%not_elem_of_nil.
  - destruct (Z.leb_spec (ts e) acc) as [Hle|Hgt].
    + destruct (IH (u32 (cur - 1))) as (k & H1 & H2 & H3 & H4).
      destruct (evictByTime_loop ts acc buf (u32 (cur - 1))) as [out s]. cbn [fst snd] in *.
      exists (S k). rewrite H1, H2. cbn [take drop fst snd]. split_and!; [done|done| |].
      * intros e' [->|He]%elem_of_cons; [done|by apply H3].
      * intros [Hs _]%StronglySorted_inv. rewrite filter_cons_False by lia. by apply H4.
    + exists 0%nat. cbn [take drop fst snd]. split_and!; [done|done|by intros ? ?%not_elem_of_nil|].
      intros [Hs Hall]%StronglySorted_inv. rewrite Forall_forall in Hall.
      symmetry. apply filter_all. intros e' He. apply elem_of_cons in He as [->|He]; [done|].
      specialize (Hall e' He). lia.
Qed.

(** the elements younger than [d] at the time of the last one *)
Definition alive (d : Z) (xs : list E) : list E :=
  match last xs with
  | Some l => if ts l >=? d then filter (fun e => ts l - d < ts e) xs else xs
  | None => []
  end.

Lemma alive_snoc d xs x :
  ts_sorted (xs ++ [x]) ->
  (if ts x >=? d then filter (fun e => ts x - d < ts e) (alive d xs ++ [x]) else alive d xs ++ [x]) = alive d (xs ++ [x]).
Proof.
  intros Hs. destruct (ts_sorted_snoc_inv xs x Hs) as [_ Hle]. unfold alive. rewrite last_snoc.
  destruct (last xs) as [l|] eqn:El; [|by apply last_None in El as ->].
  specialize (Hle l (last_Some_elem_of xs l El)).
  destruct (Z.geb_spec (ts x) d) as [Hx|Hx], (Z.geb_spec (ts l) d) as [Hl|Hl]; try done; [|lia].
  rewrite !filter_app. f_equal. apply list_filter_filter_l. intros e. lia.
Qed.

Lemma sliding_range_step d (xs : list E) (x : E) cur buf :
  ts_sorted (xs ++ [x]) -> buf = alive d xs -> ts_sorted buf ->
  exists out w, sliding_step ts f x (mkWindow RangeWindow (WinTime d) 0 buf cur) =
      Ok (out ++ [Data (match f with Some f => f (mTupleBuf w) x | None => x end) false], w) /\
    valids out = [] /\ outdateds out ++ mTupleBuf w = buf ++ [x] /\
    mTupleBuf w = alive d (xs ++ [x]) /\ mWinType w = RangeWindow /\ mWinSize w = WinTime d /\ mEvictInterval w = 0.
Proof.
  intros Hs -> Hb. pose proof (alive_snoc d xs x Hs) as Hal.
  assert (ts_sorted (alive d xs ++ [x])) as Hb'.
  { apply StronglySorted_app. split; [|split; [done|repeat constructor]].
    intros e e' He ->%list_elem_of_singleton. destruct (ts_sorted_snoc_inv xs x Hs) as [_ Hle]. apply Hle.
    unfold alive in He. destruct (last xs) as [l|]; [|by apply not_elem_of_nil in He].
    destruct (ts l >=? d); [|done]. by apply list_elem_of_filter in He as [_ He]. }
  unfold sliding_step, sliding_processDataElement, sliding_evict_inline, sliding_notifier, sliding_mEvictFun, push.
  cbn [mEvictInterval mWinType mWinSize mTupleBuf mCurrSize with_buf Z.eqb].
  rewrite (decide_True (P := RangeWindow = RangeWindow)) by done.
  unfold sliding_evictByTime, back. cbn [with_buf mWinType mWinSize mEvictInterval mTupleBuf mCurrSize].
  rewrite last_snoc. cbn [get_time mbind result_bind].
  destruct (Z.geb_spec (ts x) d) as [Hge|Hlt].
  - destruct (evictByTime_loop_spec (ts x - d) (alive d xs ++ [x]) (u32 (cur + 1))) as (k & H1 & H2 & _ & H4).
    destruct (evictByTime_loop _ _ _ _) as [out [buf' cur']]. cbn [fst snd] in *. subst out buf'.
    rewrite (H4 Hb'), Hal.
    destruct f; run_step; eexists _, _; (split; [reflexivity|]); cbn [mTupleBuf with_buf mWinType mWinSize mEvictInterval];
      (split_and!; [apply valids_retract| |done..]); rewrite outdateds_retract, <- Hal, <- (H4 Hb'); apply take_drop.
  - destruct f; run_step; eexists [], _; (split; [reflexivity|]); cbn; by rewrite Hal.
Qed.

Lemma alive_sorted d xs : ts_sorted xs -> ts_sorted (alive d xs).
Proof.
  intros Hs. unfold alive. destruct (last xs) as [l|]; [|constructor]. destruct (ts l >=? d); [|done].
  by apply StronglySorted_filter.
Qed.

(** C14: a sliding window over a time range, without an eviction interval.  The
    constructor takes the size in seconds ([Window.hpp]; [Operators.md] and the
    comments of [Pipe.hpp] call it milliseconds).  For a size below 4295 seconds
    and a stream in timestamp order the window holds, after every element,
    exactly the elements younger than that many seconds at that element's time;
    what has been retracted is the rest, in arrival order, and every input has
    been published once.  The size is scaled to microseconds in 32 bits: from
    4295 seconds on the range is another one. *)
Theorem sliding_range_window (secs : Z) (xs : list E)
  (Hsecs : 0 <= secs) (Hsmall : secs * 1000 * 1000 < 2^32) (Hsorted : ts_sorted xs) :
  (exists out w, run (sliding_step ts f) xs (Window_init RangeWindow secs 0) = Ok (out, w) /\
    mTupleBuf w = alive (secs * 1000 * 1000) xs /\
    outdateds out ++ mTupleBuf w = xs /\
    length (valids out) = length xs /\ (f = None -> valids out = xs)) /\
  mWinSize (Window_init (E := E) RangeWindow 4295 0) = WinTime 32704.
Proof.
  split; [|reflexivity]. set (d := secs * 1000 * 1000).
  assert (mWinSize (Window_init (E := E) RangeWindow secs 0) = WinTime d) as Hsz.
  { unfold Window_init. cbn [mWinSize decide]. rewrite decide_True by done. unfold u32.
    rewrite (Z.mod_small (secs * 1000)), Z.mod_small by lia. done. }
  assert (exists out w, run (sliding_step ts f) xs (Window_init RangeWindow secs 0) = Ok (out, w) /\
    (mWinType w = RangeWindow /\ mWinSize w = WinTime d /\ mEvictInterval w = 0) /\
    mTupleBuf w = alive d xs /\ outdateds out ++ mTupleBuf w = xs /\
    length (valids out) = length xs /\ (f = None -> valids out = xs)) as (out & w & Hrun & _ & H);
    [|by exists out, w].
  clearbody d. induction xs as [|x xs IH] using rev_ind.
  { eexists _, _. split; [reflexivity|]. split_and!; done. }
  destruct (ts_sorted_snoc_inv xs x Hsorted) as [Hs _].
  destruct (IH Hs) as (out & [wt sz ei buf cur] & Hrun & (Hwt & Hsize & Hei) & Hb & Hc & Hlen & Hv). cbn in *. subst.
  destruct (sliding_range_step d xs x cur (alive d xs) Hsorted eq_refl (alive_sorted d xs Hs))
    as (out' & w' & Hstep & Hnv & Hcons & Hb' & Hwt' & Hsz' & Hei').
  eexists _, w'. split; [by eapply run_snoc|]. split; [done|]. split; [done|].
  rewrite !outdateds_app, !valids_app, Hnv. cbn. rewrite app_nil_r, !length_app. cbn.
  split_and!; [|lia|].
  - rewrite <- app_assoc, Hcons, app_assoc. by rewrite Hc.
  - intros Hf. specialize (Hv Hf). rewrite Hv. by rewrite Hf.
Qed.
End sliding_range.

(** ** Tumbling windows over a row count *)

Section tumbling.
Context {E : Type} (ts : E -> Z) (f : option (list E -> E -> E)).

(** the values published for the elements of one window, in order *)
Definition window_values (b xs : list E) : list (event E) :=
  imap (fun i x => Data (match f with Some f => f (b ++ take (S i) xs) x | None => x end) false) xs.

Lemma tumbling_fill (n : nat) (xs b : list E) :
  Z.of_nat n < 2^32 -> (length b + length xs < n)%nat ->
  run (tumbling_step ts f) xs (mkWindow RowWindow (WinCount (Z.of_nat n)) 0 b (Z.of_nat (length b))) =
    Ok (window_values b xs, mkWindow RowWindow (WinCount (Z.of_nat n)) 0 (b ++ xs) (Z.of_nat (length (b ++ xs)))).
Proof.
  intros Hn. revert b. induction xs as [|x xs IH]; intros b Hlen; cbn [run].
  { by rewrite app_nil_r. }
  cbn [length] in Hlen.
  assert (tumbling_step ts f x (mkWindow RowWindow (WinCount (Z.of_nat n)) 0 b (Z.of_nat (length b))) =
    Ok ([Data (match f with Some f => f (b ++ [x]) x | None => x end) false],
        mkWindow RowWindow (WinCount (Z.of_nat n)) 0 (b ++ [x]) (Z.of_nat (length (b ++ [x]))))) as ->.
  { assert (u32 (Z.of_nat (length b) + 1) = Z.of_nat (length (b ++ [x]))) as Hu
      by (rewrite length_app, u32_small; unfold is_u32; cbn; lia).
    unfold tumbling_step, tumbling_processDataElement, tumbling_mEvictFun, tumbling_evictByCount, push.
    cbn [with_buf mWinType mWinSize mTupleBuf mCurrSize mEvictInterval].
    rewrite (decide_True (P := RowWindow = RowWindow)) by done.
    cbn [with_buf mWinType mWinSize mTupleBuf mCurrSize mEvictInterval get_count mbind result_bind].
    rewrite Hu, (proj2 (Z.eqb_neq _ _)) by (rewrite length_app; cbn; lia). by destruct f. }
  run_step. rewrite IH by (rewrite length_app; cbn; lia). run_step.
  rewrite <- app_assoc. unfold window_values. cbn [imap app]. do 3 f_equal.
  apply imap_ext. intros i y _. cbn. by rewrite <- app_assoc.
Qed.

(** what one full window publishes *)
Definition window_output (xs : list E) : list (event E) :=
  let vs := window_values [] xs in
  let closing := ((fun e => Data e true) <$> xs) ++ [Punct WindowExpired] in
  match f with
  | Some _ => vs ++ closing
  | None => take (length xs - 1) vs ++ closing ++ drop (length xs - 1) vs
  end.

Lemma tumbling_one_window (n : nat) (xs : list E) :
  Z.of_nat n < 2^32 -> length xs = n -> xs <> [] ->
  run (tumbling_step ts f) xs (mkWindow RowWindow (WinCount (Z.of_nat n)) 0 [] 0) =
    Ok (window_output xs, mkWindow RowWindow (WinCount (Z.of_nat n)) 0 [] 0).
Proof.
  intros Hn Hlen Hne. destruct xs as [|x xs _] using rev_ind; [done|]. clear Hne.
  rewrite length_app in Hlen. cbn in Hlen.
  pose proof (tumbling_fill n xs [] Hn ltac:(cbn; lia)) as Hfill. cbn [app length] in Hfill.
  assert (u32 (Z.of_nat (length xs) + 1) = Z.of_nat n) as Hu by (rewrite u32_small; word_lia).
  assert (window_values [] (xs ++ [x]) = window_values [] xs ++
    [Data (match f with Some f => f (xs ++ [x]) x | None => x end) false]) as Hw.
  { unfold window_values. cbn [app].
    apply (imap_take_snoc (fun l y => Data (match f with Some f => f l y | None => y end) false)). }
  assert (length (window_values [] xs) = length xs) as Hlw by apply length_imap.
  assert (tumbling_step ts f x (mkWindow RowWindow (WinCount (Z.of_nat n)) 0 xs (Z.of_nat (length xs))) =
    Ok (match f with
        | Some f => Data (f (xs ++ [x]) x) false :: ((fun e => Data e true) <$> (xs ++ [x])) ++ [Punct WindowExpired]
        | None => (((fun e => Data e true) <$> (xs ++ [x])) ++ [Punct WindowExpired]) ++ [Data x false]
        end, mkWindow RowWindow (WinCount (Z.of_nat n)) 0 [] 0)) as Hstep.
  { unfold tumbling_step, tumbling_processDataElement, tumbling_mEvictFun, tumbling_evictByCount, push.
    cbn [with_buf mWinType mWinSize mTupleBuf mCurrSize mEvictInterval].
    rewrite (decide_True (P := RowWindow = RowWindow)) by done.
    cbn [with_buf mWinType mWinSize mTupleBuf mCurrSize mEvictInterval get_count mbind result_bind].
    rewrite Hu, Z.eqb_refl. by destruct f. }
  etransitivity; [exact (run_snoc _ _ _ _ _ _ _ _ Hfill Hstep)|]. unfold window_output. rewrite Hw, length_app.
  cbn [length]. rewrite Nat.add_sub, <- Hlw, take_app_length, drop_app_length.
  destruct f; [|done]. by rewrite <- app_assoc.
Qed.

(** A tumbling window of [n] rows.  On a stream of whole windows it
    publishes each element once and, at the end of each window, retracts all
    its elements in order and announces [WindowExpired], starting the next
    window empty.  With a window function the last element of a window is
    published before the window closes; without one it is published only
    after its own retraction and after the punctuation. *)
Lemma tumbling_row_window (n : nat) (chunks : list (list E))
  (Hn : Z.of_nat n < 2^32) (Hpos : n <> 0%nat) (Hfull : forall c, c ∈ chunks -> length c = n) :
  run (tumbling_step ts f) (concat chunks) (Window_init RowWindow (Z.of_nat n) 0) =
    Ok (concat (window_output <$> chunks), Window_init RowWindow (Z.of_nat n) 0).
Proof.
  change (Window_init RowWindow (Z.of_nat n) 0) with (mkWindow (E := E) RowWindow (WinCount (Z.of_nat n)) 0 [] 0).
  induction chunks as [|c chunks IH]; [done|]. cbn [concat fmap list_fmap].
  rewrite run_app. assert (length c = n) as Hc by (apply Hfull; by left).
  rewrite (tumbling_one_window n c Hn Hc) by (intros ->; by destruct Hpos).
  run_step. rewrite IH by (intros c' Hc'; apply Hfull; by right). done.
Qed.
End tumbling.

(** ** Examples *)

Lemma sliding_row_window_witness :
  exists out w, run (sliding_step (fun x : Z => x) (Some (fun l _ => fold_right Z.add 0 l))) [1; 2; 3; 4]
      (Window_init RowWindow 2 0) = Ok (out, w) /\
    mTupleBuf w = [3; 4] /\ outdateds out = [1; 2] /\ valids out = [1; 3; 5; 7].
Proof.
  destruct (sliding_row_window (fun x : Z => x) (Some (fun l _ => fold_right Z.add 0 l)) 2 ltac:(lia) [1; 2; 3; 4])
    as (out & w & Hrun & Hb & _ & Ho & Hv).
  exists out, w. split; [exact Hrun|]. split; [exact Hb|]. split; [exact Ho|exact Hv].
Defined.

Lemma sliding_range_window_witness :
  exists out w, run (sliding_step (fun x : Z => x) None) [0; 500000; 1000000; 1200000] (Window_init RangeWindow 1 0)
      = Ok (out, w) /\ mTupleBuf w = [500000; 1000000; 1200000] /\ outdateds out ++ mTupleBuf w = [0; 500000; 1000000; 1200000].
Proof.
  destruct (proj1 (sliding_range_window (fun x : Z => x) None 1 [0; 500000; 1000000; 1200000] ltac:(lia) ltac:(lia)
    ltac:(repeat constructor; lia))) as (out & w & Hrun & Hb & Hc & _).
  exists out, w. split; [exact Hrun|]. split; [rewrite Hb; vm_compute; reflexivity|exact Hc].
Defined.

Lemma tumbling_row_window_witness :
  run (tumbling_step (fun x : Z => x) None) [1; 2; 3; 4] (Window_init RowWindow 2 0) =
    Ok ([Data 1 false; Data 1 true; Data 2 true; Punct WindowExpired; Data 2 false;
         Data 3 false; Data 3 true; Data 4 true; Punct WindowExpired; Data 4 false], Window_init RowWindow 2 0).
Proof.
  exact (tumbling_row_window (fun x : Z => x) None 2 [[1; 2]; [3; 4]] ltac:(lia) ltac:(lia)
    ltac:(intros c [->|[->|[]%elem_of_nil]%elem_of_cons]%elem_of_cons; reflexivity)).
Defined.
