(* ===== verification/OrderedMap.v ===== *)
(** * OrderedMap: [std::map] with a comparator

    The associative container behind [AggrMinMax] and [AggrMedian], as the
    list of its nodes in comparator order.  Iterators are the key of their
    node, [None] being [end()]. *)

From S2P Require Import Prelude.

(** a comparator in the sense of [std::less]: a strict total order *)
Class Comparator {K} (cmp : K -> K -> bool) : Prop := {
  cmp_irrefl : forall a, cmp a a = false;
  cmp_trans : forall a b c, cmp a b = true -> cmp b c = true -> cmp a c = true;
  cmp_total : forall a b, cmp a b = false -> cmp b a = false -> a = b;
}.

#[export] Instance less_comparator : Comparator Z.ltb.
Proof. split; intros; lia. Qed.

(** [std::greater<int>] *)
#[export] Instance greater_comparator : Comparator Z.gtb.
Proof. split; intros; lia. Qed.

Section OrderedMap.
Context {K V : Type} `{EqDecision K} (cmp : K -> K -> bool).

Fixpoint om_find (k : K) (l : list (K * V)) : option V :=
  match l with
  | [] => None
  | (k', v) :: rest => if cmp k' k then om_find k rest else if cmp k k' then None else Some v
  end.

(** [m\[k\] = v] *)
Fixpoint om_put (k : K) (v : V) (l : list (K * V)) : list (K * V) :=
  match l with
  | [] => [(k, v)]
  | (k', v') :: rest =>
      if cmp k' k then (k', v') :: om_put k v rest
      else if cmp k k' then (k, v) :: l else (k', v) :: rest
  end.

Fixpoint om_erase (k : K) (l : list (K * V)) : list (K * V) :=
  match l with
  | [] => []
  | (k', v') :: rest =>
      if cmp k' k then (k', v') :: om_erase k rest
      else if cmp k k' then l else rest
  end.

Definition om_begin (l : list (K * V)) : option K := fst <$> head l.

(** [++it]: moving past [end()] is undefined *)
Fixpoint om_next (k : K) (l : list (K * V)) : result (option K) :=
  match l with
  | [] => Err Dangling
  | (k', _) :: rest => if cmp k' k then om_next k rest else if cmp k k' then Err Dangling else Ok (om_begin rest)
  end.

(** [--it], from [end()] to the last node; before [begin()] it is undefined *)
Fixpoint om_prev_from (before : option K) (k : K) (l : list (K * V)) : result (option K) :=
  match l with
  | [] => Err Dangling
  | (k', _) :: rest =>
      if cmp k' k then om_prev_from (Some k') k rest
      else if cmp k k' then Err Dangling
      else match before with Some b => Ok (Some b) | None => Err OutOfBounds end
  end.
Definition om_prev (k : K) (l : list (K * V)) : result (option K) := om_prev_from None k l.

Definition om_sorted (l : list (K * V)) : Prop := StronglySorted (fun a b => cmp a b = true) l.*1.

Context {comp : Comparator cmp}.

Lemma cmp_asym a b : cmp a b = true -> cmp b a = false.
Proof.
  intros Hab. destruct (cmp b a) eqn:E; [|done]. pose proof (cmp_trans a b a Hab E) as H.
  by rewrite cmp_irrefl in H.
Qed.

Lemma om_sorted_cons k v l : om_sorted ((k, v) :: l) <-> om_sorted l /\ forall k', k' ∈ l.*1 -> cmp k k' = true.
Proof.
  unfold om_sorted. cbn. split.
  - intros [Hs Hall]%StronglySorted_inv. rewrite Forall_forall in Hall. done.
  - intros [Hs Hall]. constructor; [done|]. by rewrite Forall_forall.
Qed.

Lemma om_find_lt k l : om_sorted l -> (forall k', k' ∈ l.*1 -> cmp k k' = true) -> om_find k l = None.
Proof.
  intros Hs Hlt. destruct l as [|[k' v] l]; [done|]. cbn.
  pose proof (Hlt k' ltac:(cbn; by left)) as Hk. by rewrite (cmp_asym _ _ Hk), Hk.
Qed.

Lemma om_put_keys k v l k' : k' ∈ (om_put k v l).*1 <-> k' = k \/ k' ∈ l.*1.
Proof.
  induction l as [|[k0 v0] l IH]; cbn; [by rewrite list_elem_of_singleton, elem_of_nil; intuition|].
  destruct (cmp k0 k) eqn:E1; cbn; [rewrite !elem_of_cons, IH; intuition|].
  destruct (cmp k k0) eqn:E2; cbn; [by rewrite !elem_of_cons|].
  rewrite (cmp_total k0 k E1 E2), !elem_of_cons. intuition.
Qed.

Lemma om_put_sorted k v l : om_sorted l -> om_sorted (om_put k v l).
Proof.
  induction l as [|[k0 v0] l IH]; cbn; intros Hs; [apply om_sorted_cons; split; [done|by intros ? ?%not_elem_of_nil]|].
  pose proof Hs as [Hs' Hall]%om_sorted_cons.
  destruct (cmp k0 k) eqn:E1; [|destruct (cmp k k0) eqn:E2].
  - apply om_sorted_cons. split; [by apply IH|]. intros k' [->|Hk]%om_put_keys; [done|by apply Hall].
  - apply om_sorted_cons. split; [done|]. cbn. intros k' [->|Hk]%elem_of_cons; [done|].
    by apply (cmp_trans k k0); [|apply Hall].
  - by apply om_sorted_cons.
Qed.

Lemma om_find_put k v l k' : om_sorted l ->
  om_find k' (om_put k v l) = if decide (k = k') then Some v else om_find k' l.
Proof.
  induction l as [|[k0 v0] l IH]; cbn; intros Hs.
  - case_decide as Hd; [subst; by rewrite cmp_irrefl|].
    destruct (cmp k k') eqn:E1; [done|]. destruct (cmp k' k) eqn:E2; [done|].
    by destruct Hd; apply cmp_total.
  - pose proof Hs as [Hs' Hall]%om_sorted_cons. destruct (cmp k0 k) eqn:E1; cbn.
    + destruct (cmp k0 k') eqn:E2; [by apply IH|].
      case_decide as Hd; [congruence|done].
    + destruct (cmp k k0) eqn:E2; cbn.
      * case_decide as Hd; [subst; by rewrite cmp_irrefl|].
        destruct (cmp k k') eqn:E3; [done|]. destruct (cmp k' k) eqn:E4; [|by destruct Hd; apply cmp_total].
        pose proof (cmp_trans k' k k0 E4 E2) as H. by rewrite (cmp_asym _ _ H), H.
      * pose proof (cmp_total k0 k E1 E2) as ->. destruct (cmp k k') eqn:E3.
        -- rewrite decide_False; [done|]. intros ->. by rewrite cmp_irrefl in E3.
        -- destruct (cmp k' k) eqn:E4; [rewrite decide_False; [done|intros ->; by rewrite cmp_irrefl in E4]|].
           by rewrite decide_True by by apply cmp_total.
Qed.

Lemma om_erase_keys k l k' : k' ∈ (om_erase k l).*1 -> k' ∈ l.*1.
Proof.
  induction l as [|[k0 v0] l IH]; cbn; [done|].
  destruct (cmp k0 k); [cbn; rewrite !elem_of_cons; intuition|].
  destruct (cmp k k0); [done|]. intros H. by right.
Qed.

Lemma om_erase_sorted k l : om_sorted l -> om_sorted (om_erase k l).
Proof.
  induction l as [|[k0 v0] l IH]; cbn; intros Hs; [done|].
  pose proof Hs as [Hs' Hall]%om_sorted_cons.
  destruct (cmp k0 k); [|by destruct (cmp k k0)].
  apply om_sorted_cons. split; [by apply IH|]. intros k' Hk%om_erase_keys. by apply Hall.
Qed.

Lemma om_find_erase k l k' : om_sorted l ->
  om_find k' (om_erase k l) = if decide (k = k') then None else om_find k' l.
Proof.
  induction l as [|[k0 v0] l IH]; cbn; intros Hs; [by case_decide|].
  pose proof Hs as [Hs' Hall]%om_sorted_cons. destruct (cmp k0 k) eqn:E1; cbn.
  - destruct (cmp k0 k') eqn:E2; [by apply IH|]. case_decide as Hd; [congruence|done].
  - destruct (cmp k k0) eqn:E2; cbn.
    + case_decide as Hd; [subst; by rewrite E1, E2|done].
    + pose proof (cmp_total k0 k E1 E2) as ->. case_decide as Hd.
      * subst. by apply om_find_lt.
      * destruct (cmp k k') eqn:E3; [done|]. destruct (cmp k' k) eqn:E4; [|by destruct Hd; apply cmp_total].
        apply om_find_lt; [done|]. intros k1 Hk1. by apply (cmp_trans k' k); [|apply Hall].
Qed.

Lemma om_find_Some k l v : om_sorted l -> om_find k l = Some v <-> (k, v) ∈ l.
Proof.
  induction l as [|[k0 v0] l IH]; cbn; intros Hs; [split; [done|by intros ?%not_elem_of_nil]|].
  pose proof Hs as [Hs' Hall]%om_sorted_cons. rewrite elem_of_cons. destruct (cmp k0 k) eqn:E1.
  - rewrite (IH Hs'). split; [by right|]. intros [[= <- <-]|?]; [|done]. by rewrite cmp_irrefl in E1.
  - assert ((k, v) ∉ l) as Hnot.
    { intros Hin. apply (list_elem_of_fmap_2 fst) in Hin. pose proof (Hall _ Hin) as Hk. cbn in Hk. congruence. }
    destruct (cmp k k0) eqn:E2.
    + split; [done|]. intros [[= <- <-]|?]; [|done]. by rewrite cmp_irrefl in E2.
    + rewrite (cmp_total k0 k E1 E2). split; [intros [= ->]; by left|]. intros [[= ->]|?]; done.
Qed.
End OrderedMap.

(** ** Positions *)
Section positions.
Context {K V : Type} `{EqDecision K} (cmp : K -> K -> bool) {comp : Comparator cmp}.

Lemma om_put_new_position k v (l : list (K * V)) i a :
  om_sorted cmp l -> om_find cmp k l = None -> l.*1 !! i = Some a ->
  (om_put cmp k v l).*1 !! (if cmp k a then S i else i) = Some a.
Proof.
  revert i. induction l as [|[k0 v0] l IH]; intros i Hs Hf Hi; [done|].
  pose proof Hs as [Hs' Hall]%om_sorted_cons. cbn in Hf, Hi |- *.
  destruct (cmp k0 k) eqn:E1.
  - destruct i as [|i]; cbn in Hi.
    + injection Hi as ->. rewrite (cmp_asym cmp _ _ E1). done.
    + specialize (IH i Hs' Hf Hi). cbn. destruct (cmp k a); exact IH.
  - destruct (cmp k k0) eqn:E2; [|done]. cbn.
    assert (cmp k a = true) as ->; [|exact Hi]. destruct i as [|i]; cbn in Hi; [congruence|].
    apply (cmp_trans k k0 a E2), Hall. by apply list_elem_of_lookup_2 in Hi.
Qed.

Lemma om_put_new_length k v (l : list (K * V)) :
  om_find cmp k l = None -> (om_put cmp k v l).*1 ≡ₚ k :: l.*1.
Proof.
  induction l as [|[k0 v0] l IH]; intros Hf; [done|]. cbn in Hf |- *.
  destruct (cmp k0 k); [cbn; rewrite (IH Hf); constructor|].
  destruct (cmp k k0); [done|discriminate].
Qed.

Lemma om_put_new_values k v (l : list (K * V)) e :
  om_find cmp k l = None -> e ∈ om_put cmp k v l -> e = (k, v) \/ e ∈ l.
Proof.
  induction l as [|[k0 v0] l IH]; intros Hf; cbn in Hf |- *.
  - intros He%list_elem_of_singleton. by left.
  - destruct (cmp k0 k); [rewrite !elem_of_cons; intuition|].
    destruct (cmp k k0); [rewrite !elem_of_cons; intuition|discriminate].
Qed.

(** the key at a position is preceded by smaller and followed by larger ones *)
Lemma om_next_position k (l : list (K * V)) i :
  om_sorted cmp l -> l.*1 !! i = Some k -> om_next cmp k l = Ok (l.*1 !! S i).
Proof.
  revert i. induction l as [|[k0 v0] l IH]; intros i Hs Hi; [done|].
  pose proof Hs as [Hs' Hall]%om_sorted_cons. cbn. destruct i as [|i]; cbn in Hi.
  - injection Hi as ->. rewrite cmp_irrefl. unfold om_begin. destruct l; done.
  - rewrite (Hall k (list_elem_of_lookup_2 _ _ _ Hi)). by apply IH.
Qed.

Lemma om_prev_from_position b k (l : list (K * V)) i :
  om_sorted cmp l -> l.*1 !! i = Some k ->
  om_prev_from cmp b k l =
    match (match i with O => b | S j => l.*1 !! j end) with Some x => Ok (Some x) | None => Err OutOfBounds end.
Proof.
  revert b i. induction l as [|[k0 v0] l IH]; intros b i Hs Hi; [done|].
  pose proof Hs as [Hs' Hall]%om_sorted_cons. cbn. destruct i as [|i]; cbn in Hi.
  - injection Hi as ->. by rewrite cmp_irrefl.
  - rewrite (Hall k (list_elem_of_lookup_2 _ _ _ Hi)), (IH _ i Hs' Hi). by destruct i.
Qed.

Lemma om_prev_position j k (l : list (K * V)) i :
  om_sorted cmp l -> l.*1 !! S i = Some k -> l.*1 !! i = Some j -> om_prev cmp k l = Ok (Some j).
Proof. intros Hs Hk Hj. unfold om_prev. by rewrite (om_prev_from_position None k l (S i)), Hj. Qed.
End positions.
