(* ===== verification/Aggregates.v ===== *)
(** * Aggregates: the incremental aggregate functions

    Models [src/qop/aggr_functions]: each function as its state with [init],
    [iterate] (add a value, or take one back when it is outdated) and [value].
    The class [AggregateFunc] is the C++ base class; [AggregateLaws] is its
    contract: after any history of additions and retractions the value is the
    aggregate of the values currently in the window, a multiset. *)

From stdpp Require Export gmultiset.
From S2P Require Import Prelude OrderedMap.

(** ** The base class (AggregateFunc.hpp) *)
Class AggregateFunc (S Tin Tres : Type) := {
  init : S;
  iterate : Tin -> bool -> S -> result S;
  value : S -> result (Tres * S);
}.
Arguments init {S Tin Tres AggregateFunc}.

Section history.
Context {S Tin Tres : Type} {F : AggregateFunc S Tin Tres}.

Fixpoint iterates (h : list (Tin * bool)) (s : S) : result S :=
  match h with
  | [] => Ok s
  | (x, outdated) :: rest => s ← iterate x outdated s; iterates rest s
  end.

Lemma iterates_app h h' s : iterates (h ++ h') s = (s ← iterates h s; iterates h' s).
Proof.
  revert s. induction h as [|[x o] h IH]; intros s; [done|]. cbn.
  destruct (iterate x o s) as [s'|]; [|done]. cbn. apply IH.
Qed.
End history.

(** the values in the window after a history; a retraction needs something to
    retract *)
Section content.
Context {A : Type} `{Countable A}.

Fixpoint content_from (M : gmultiset A) (h : list (A * bool)) : option (gmultiset A) :=
  match h with
  | [] => Some M
  | (x, false) :: rest => content_from (M ⊎ {[+ x +]}) rest
  | (x, true) :: rest => if decide (x ∈ M) then content_from (M ∖ {[+ x +]}) rest else None
  end.
Definition content (h : list (A * bool)) : option (gmultiset A) := content_from ∅ h.
End content.

(** the contract: [af_inv M s]: state [s] represents the window [M];
    [af_ok] restricts the histories (number of steps so far, values) *)
Class AggregateLaws (A S Tres : Type) `{Countable A} {F : AggregateFunc S A Tres} := {
  af_inv : gmultiset A -> S -> Prop;
  af_ok : gmultiset A -> Prop;
  af_spec : gmultiset A -> Tres -> Prop;
  af_init : af_inv ∅ init;
  af_add : forall M s x, af_inv M s -> af_ok (M ⊎ {[+ x +]}) ->
    exists s', iterate x false s = Ok s' /\ af_inv (M ⊎ {[+ x +]}) s';
  af_retract : forall M s x, af_inv M s -> af_ok M -> x ∈ M ->
    exists s', iterate x true s = Ok s' /\ af_inv (M ∖ {[+ x +]}) s';
  af_value : forall M s, af_inv M s -> af_ok M -> M <> ∅ ->
    exists v, value s = Ok (v, s) /\ af_spec M v;
}.

Section laws.
Context {A S Tres : Type} `{Countable A} {F : AggregateFunc S A Tres} {L : AggregateLaws A S Tres}.

(** every window a history goes through is admissible *)
Fixpoint windows_ok (ok : gmultiset A -> Prop) (M : gmultiset A) (h : list (A * bool)) : Prop :=
  ok M /\
  match h with
  | [] => True
  | (x, false) :: rest => windows_ok ok (M ⊎ {[+ x +]}) rest
  | (x, true) :: rest => windows_ok ok (M ∖ {[+ x +]}) rest
  end.

Lemma windows_ok_here ok M h : windows_ok ok M h -> ok M.
Proof. by destruct h as [|[x [|]] h]; intros []. Qed.

Lemma iterates_inv h M s M' :
  af_inv M s -> windows_ok af_ok M h -> content_from M h = Some M' ->
  exists s', iterates h s = Ok s' /\ af_inv M' s' /\ af_ok M'.
Proof.
  revert M s. induction h as [|[x [|]] h IH]; intros M s Hinv Hok Hc; cbn in *.
  - injection Hc as <-. destruct Hok. by exists s.
  - destruct Hok as [Hok Hrest]. case_decide as Hx; [|done].
    destruct (af_retract M s x Hinv Hok Hx) as (s' & -> & Hinv'). cbn. by apply (IH _ s' Hinv').
  - destruct Hok as [Hok Hrest].
    destruct (af_add M s x Hinv (windows_ok_here _ _ _ Hrest)) as (s' & -> & Hinv'). cbn. by apply (IH _ s' Hinv').
Qed.

Lemma incremental_value h M :
  windows_ok af_ok ∅ h -> content h = Some M -> M <> ∅ ->
  exists s v, iterates h init = Ok s /\ value s = Ok (v, s) /\ af_spec M v.
Proof.
  intros Hok Hc Hne. destruct (iterates_inv h ∅ init M af_init Hok Hc) as (s & Hs & Hinv & HM).
  destruct (af_value M s Hinv HM Hne) as (v & Hv & Hspec). by exists s, v.
Qed.
End laws.

(** ** Sums over windows *)

Definition zsum (l : list Z) : Z := fold_right Z.add 0 l.
Definition msum (M : gmultiset Z) : Z := zsum (elements M).
Definition msum_abs (M : gmultiset Z) : Z := zsum (Z.abs <$> elements M).

#[export] Instance zsum_Permutation : Proper (Permutation ==> eq) zsum.
Proof. induction 1; unfold zsum in *; cbn [fold_right]; lia. Qed.

Lemma zsum_app l l' : zsum (l ++ l') = zsum l + zsum l'.
Proof. induction l as [|x l IH]; [done|]. unfold zsum in *. cbn [fold_right app]. lia. Qed.

Lemma msum_add M x : msum (M ⊎ {[+ x +]}) = msum M + x.
Proof. unfold msum. rewrite gmultiset_elements_disj_union, gmultiset_elements_singleton, zsum_app. cbn. lia. Qed.

Lemma msum_abs_add M x : msum_abs (M ⊎ {[+ x +]}) = msum_abs M + Z.abs x.
Proof.
  unfold msum_abs. rewrite gmultiset_elements_disj_union, gmultiset_elements_singleton, fmap_app, zsum_app. cbn. lia.
Qed.

Lemma retracted `{Countable A} (M : gmultiset A) x : x ∈ M -> M = (M ∖ {[+ x +]}) ⊎ {[+ x +]}.
Proof. intros Hx. rewrite gmultiset_disj_union_comm. apply gmultiset_disj_union_difference'. done. Qed.

Lemma msum_retract M x : x ∈ M -> msum (M ∖ {[+ x +]}) = msum M - x.
Proof. intros Hx. rewrite (retracted M x Hx) at 2. rewrite msum_add. lia. Qed.

Lemma msum_abs_retract M x : x ∈ M -> msum_abs (M ∖ {[+ x +]}) = msum_abs M - Z.abs x.
Proof. intros Hx. rewrite (retracted M x Hx) at 2. rewrite msum_abs_add. lia. Qed.

Lemma zsum_abs_bound l : Z.abs (zsum l) <= zsum (Z.abs <$> l).
Proof. induction l as [|x l IH]; [done|]. rewrite fmap_cons. unfold zsum in *. cbn [fold_right]. lia. Qed.

Lemma msum_bound M : Z.abs (msum M) <= msum_abs M.
Proof. apply zsum_abs_bound. Qed.

Lemma size_add `{Countable A} (M : gmultiset A) x : Z.of_nat (size (M ⊎ {[+ x +]})) = Z.of_nat (size M) + 1.
Proof. rewrite gmultiset_size_disj_union, gmultiset_size_singleton. lia. Qed.

Lemma size_retract `{Countable A} (M : gmultiset A) x : x ∈ M -> Z.of_nat (size (M ∖ {[+ x +]})) = Z.of_nat (size M) - 1.
Proof. intros Hx. rewrite (retracted M x Hx) at 2. rewrite size_add. lia. Qed.

(** ** AggrSum *)
Record AggrSum := mkSum { sum_mSum : Z }.

#[export] Instance AggrSum_func : AggregateFunc AggrSum Z Z := {
  init := mkSum 0;
  iterate data outdated s :=
    d ← (if outdated : bool then to_int (- data) else Ok data);
    r ← to_int (sum_mSum s + d);
    Ok (mkSum r);
  value s := Ok (sum_mSum s, s);
}.

(** values that [int] sums can hold *)
Definition sums_fit (M : gmultiset Z) : Prop := msum_abs M < 2^31.

#[export, refine] Instance AggrSum_laws : AggregateLaws Z AggrSum Z := {
  af_inv M s := sum_mSum s = msum M;
  af_ok := sums_fit;
  af_spec M v := v = msum M;
}.
Proof.
  - done.
  - intros M s x Hinv Hok. cbn. unfold sums_fit in Hok. rewrite Hinv.
    pose proof (msum_bound (M ⊎ {[+ x +]})) as Hb. rewrite msum_add in Hb.
    rewrite to_int_Ok by word_lia. eexists. split; [reflexivity|]. cbn. by rewrite msum_add.
  - intros M s x Hinv Hok Hx. cbn. unfold sums_fit in Hok. rewrite Hinv.
    pose proof (msum_bound (M ∖ {[+ x +]})) as Hb. rewrite msum_retract, msum_abs_retract in Hb by done.
    assert (0 <= msum_abs (M ∖ {[+ x +]})).
    { pose proof (msum_bound (M ∖ {[+ x +]})). lia. }
    rewrite msum_abs_retract in H by done.
    rewrite to_int_Ok by word_lia. cbn. rewrite to_int_Ok by word_lia.
    eexists. split; [reflexivity|]. cbn. rewrite msum_retract by done. lia.
  - intros M s Hinv Hok Hne. by exists (sum_mSum s).
Defined.

(** ** AggrCount *)
Record AggrCount := mkCount { count_mCount : Z }.

#[export] Instance AggrCount_func : AggregateFunc AggrCount Z Z := {
  init := mkCount 0;
  iterate data outdated s := Ok (mkCount (u32 (count_mCount s + if outdated : bool then -1 else 1)));
  value s := Ok (count_mCount s, s);
}.

Definition count_fits `{Countable A} (M : gmultiset A) : Prop := Z.of_nat (size M) < 2^31.

#[export, refine] Instance AggrCount_laws : AggregateLaws Z AggrCount Z := {
  af_inv M s := count_mCount s = u32 (Z.of_nat (size M));
  af_ok := count_fits;
  af_spec M v := v = Z.of_nat (size M);
}.
Proof.
  - done.
  - intros M s x Hinv _. eexists. split; [reflexivity|]. cbn. rewrite Hinv, size_add. unfold u32.
    by rewrite Zplus_mod_idemp_l.
  - intros M s x Hinv _ Hx. eexists. split; [reflexivity|]. cbn. rewrite Hinv, size_retract by done. unfold u32.
    by rewrite Zplus_mod_idemp_l.
  - intros M s Hinv Hok _. eexists. split; [reflexivity|]. rewrite Hinv. unfold count_fits in Hok.
    apply u32_small. unfold is_u32. lia.
Defined.

(** ** AggrAvg over [int]: the counter is unsigned, and so is the division *)
Record AggrAvg := mkAvg { avg_mCount : Z; avg_mSum : Z }.

#[export] Instance AggrAvg_func : AggregateFunc AggrAvg Z Z := {
  init := mkAvg 0 0;
  iterate data outdated s :=
    if outdated : bool then
      r ← to_int (avg_mSum s - data); Ok (mkAvg (u32 (avg_mCount s - 1)) r)
    else
      r ← to_int (avg_mSum s + data); Ok (mkAvg (u32 (avg_mCount s + 1)) r);
  value s :=
    if avg_mCount s =? 0 then Err DivByZero
    else Ok (s32 (u32 (avg_mSum s) / avg_mCount s), s);
}.

#[export, refine] Instance AggrAvg_laws : AggregateLaws Z AggrAvg Z := {
  af_inv M s := avg_mCount s = u32 (Z.of_nat (size M)) /\ avg_mSum s = msum M;
  af_ok M := sums_fit M /\ count_fits M;
  af_spec M v := v = s32 (u32 (msum M) / Z.of_nat (size M));
}.
Proof.
  - done.
  - intros M s x [Hc Hs] [Hok _]. unfold sums_fit in Hok. cbn. rewrite Hs, Hc.
    pose proof (msum_bound (M ⊎ {[+ x +]})) as Hb. rewrite msum_add in Hb.
    rewrite to_int_Ok by word_lia. eexists. split; [reflexivity|]. cbn.
    rewrite msum_add, size_add. split; [|done]. unfold u32. by rewrite Zplus_mod_idemp_l.
  - intros M s x [Hc Hs] [Hok _] Hx. unfold sums_fit in Hok. cbn. rewrite Hs, Hc.
    pose proof (msum_bound (M ∖ {[+ x +]})) as Hb. rewrite msum_retract, msum_abs_retract in Hb by done.
    rewrite to_int_Ok by word_lia. eexists. split; [reflexivity|]. cbn.
    rewrite msum_retract, size_retract by done. split; [|done]. unfold u32. by rewrite Zminus_mod_idemp_l.
  - intros M s [Hc Hs] [_ Hok] Hne. cbn. rewrite Hc, Hs.
    assert (size M <> 0%nat) by (rewrite gmultiset_size_empty_iff; done). unfold count_fits in Hok.
    rewrite u32_small by word_lia. rewrite (proj2 (Z.eqb_neq _ _)) by lia. by eexists.
Defined.

(** ** Counting occurrences *)

Lemma mult_add (M : gmultiset Z) x y :
  Z.of_nat (multiplicity y (M ⊎ {[+ x +]})) = Z.of_nat (multiplicity y M) + if decide (x = y) then 1 else 0.
Proof. rewrite multiplicity_disj_union, multiplicity_singleton. do 2 case_decide; congruence || lia. Qed.

Lemma mult_pos (M : gmultiset Z) x : x ∈ M <-> 1 <= Z.of_nat (multiplicity x M).
Proof. rewrite elem_of_multiplicity. lia. Qed.

Lemma mult_retract (M : gmultiset Z) x y : x ∈ M ->
  Z.of_nat (multiplicity y (M ∖ {[+ x +]})) = Z.of_nat (multiplicity y M) - if decide (x = y) then 1 else 0.
Proof. intros Hx. rewrite (retracted M x Hx) at 2. rewrite mult_add. lia. Qed.

Lemma mult_le_size (M : gmultiset Z) x : Z.of_nat (multiplicity x M) <= Z.of_nat (size M).
Proof.
  induction M as [|y M IH] using gmultiset_ind; [by rewrite multiplicity_empty|].
  rewrite (gmultiset_disj_union_comm {[+ y +]}), mult_add, size_add. case_decide; lia.
Qed.

(** [find] is the table of the multiplicities of [M] *)
Definition counters (M : gmultiset Z) (find : Z -> option Z) : Prop :=
  forall x, find x = if decide (x ∈ M) then Some (Z.of_nat (multiplicity x M)) else None.

Lemma counters_add M find find' x :
  counters M find ->
  (forall y, find' y = if decide (x = y) then Some (default 0 (find x) + 1) else find y) ->
  counters (M ⊎ {[+ x +]}) find'.
Proof.
  intros Hc Hf y. rewrite Hf, !Hc, mult_add. destruct (decide (x = y)) as [->|Hne].
  - rewrite (decide_True (P := y ∈ M ⊎ _)) by multiset_solver. f_equal.
    case_decide as Hx; cbn; [done|]. rewrite mult_pos in Hx. lia.
  - rewrite Z.add_0_r. apply decide_ext. multiset_solver.
Qed.

Lemma counters_retract M find find' x :
  counters M find -> x ∈ M ->
  (forall y, find' y = if decide (x = y) then
     (if Z.of_nat (multiplicity x M) =? 1 then None else Some (Z.of_nat (multiplicity x M) - 1)) else find y) ->
  counters (M ∖ {[+ x +]}) find'.
Proof.
  intros Hc Hx Hf y. rewrite Hf, !Hc. rewrite mult_retract by done.
  assert (y ∈ M ∖ {[+ x +]} <-> 1 <= Z.of_nat (multiplicity y M) - if decide (x = y) then 1 else 0) as Hin
    by (by rewrite mult_pos, mult_retract).
  rewrite mult_pos in Hx. destruct (decide (x = y)) as [->|Hne].
  - destruct (Z.eqb_spec (Z.of_nat (multiplicity y M)) 1) as [H1|H1].
    + rewrite decide_False; [done|]. rewrite Hin. lia.
    + rewrite decide_True; [done|]. rewrite Hin. lia.
  - rewrite Z.sub_0_r in Hin |- *. apply decide_ext. by rewrite mult_pos, Hin.
Qed.

(** ** AggrDCount *)
Record AggrDCount := mkDCount { dCountElements : gmap Z Z }.

#[export] Instance AggrDCount_func : AggregateFunc AggrDCount Z Z := {
  init := mkDCount ∅;
  iterate data outdated s :=
    match dCountElements s !! data with
    | Some c =>
        let c := u32 (c + if outdated : bool then -1 else 1) in
        if c <=? 0 then Ok (mkDCount (delete data (dCountElements s)))
        else Ok (mkDCount (<[data := c]> (dCountElements s)))
    | None =>
        _ ← guard_else (negb outdated) AssertFailed;
        Ok (mkDCount (<[data := 1]> (dCountElements s)))
    end;
  value s := Ok (Z.of_nat (size (dCountElements s)), s);
}.

#[export, refine] Instance AggrDCount_laws : AggregateLaws Z AggrDCount Z := {
  af_inv M s := counters M (fun x => dCountElements s !! x);
  af_ok := count_fits;
  af_spec M v := v = Z.of_nat (size (dom M));
}.
Proof.
  - intros x. cbn. rewrite lookup_empty, decide_False by multiset_solver. done.
  - intros M s x Hinv Hok. cbn. pose proof (Hinv x) as Hfx. cbn in Hfx. rewrite Hfx. unfold count_fits in Hok. rewrite size_add in Hok.
    pose proof (mult_le_size M x). case_decide as Hx.
    + rewrite u32_small, (proj2 (Z.leb_gt _ 0)) by word_lia. eexists. split; [reflexivity|].
      eapply counters_add; [done|]. intros y. cbn. by rewrite lookup_insert, Hfx.
    + eexists. split; [reflexivity|].
      eapply counters_add; [done|]. intros y. cbn. by rewrite lookup_insert, Hfx.
  - intros M s x Hinv Hok Hx. cbn. pose proof (Hinv x) as Hfx. cbn in Hfx. rewrite Hfx, decide_True by done. unfold count_fits in Hok.
    pose proof (mult_le_size M x). pose proof (proj1 (mult_pos M x) Hx).
    rewrite u32_small by word_lia.
    destruct (Z.leb_spec (Z.of_nat (multiplicity x M) + -1) 0); eexists; (split; [reflexivity|]);
      (eapply counters_retract; [done|done|]); intros y; cbn.
    + rewrite lookup_delete. by rewrite (proj2 (Z.eqb_eq _ 1)) by lia.
    + rewrite lookup_insert. by rewrite (proj2 (Z.eqb_neq _ 1)) by lia.
  - intros M s Hinv _ _. eexists. split; [reflexivity|]. f_equal. rewrite <- size_dom. f_equal. apply set_eq.
    intros x. rewrite elem_of_dom, gmultiset_elem_of_dom, Hinv. case_decide; by split.
Defined.

(** ** AggrMinMax *)
Record AggrMinMax := mkMinMax { mMap : list (Z * Z) }.

Section MinMax.
Context (cmp : Z -> Z -> bool).

Definition AggrMinMax_func : AggregateFunc AggrMinMax Z Z := {|
  init := mkMinMax [];
  iterate data outdated s :=
    match om_find cmp data (mMap s) with
    | Some c =>
        let c := u32 (c + if outdated : bool then -1 else 1) in
        if c <=? 0 then Ok (mkMinMax (om_erase cmp data (mMap s)))
        else Ok (mkMinMax (om_put cmp data c (mMap s)))
    | None => Ok (mkMinMax (om_put cmp data 1 (mMap s)))
    end;
  value s :=
    match om_begin (mMap s) with
    | Some k => Ok (k, s)
    | None => Err AssertFailed
    end;
|}.

Context {comp : Comparator cmp}.
#[local] Existing Instance AggrMinMax_func.

Definition AggrMinMax_laws : AggregateLaws Z AggrMinMax Z.
Proof.
  refine {|
    af_inv M s := om_sorted cmp (mMap s) /\ counters M (fun x => om_find cmp x (mMap s));
    af_ok := count_fits;
    af_spec M v := v ∈ M /\ forall x, x ∈ M -> x = v \/ cmp v x = true;
  |}.
  - split; [constructor|]. intros x. cbn. by rewrite decide_False by multiset_solver.
  - intros M s x [Hs Hinv] Hok. cbn. pose proof (Hinv x) as Hfx. cbn in Hfx. rewrite Hfx. unfold count_fits in Hok. rewrite size_add in Hok.
    pose proof (mult_le_size M x). case_decide as Hx.
    + rewrite u32_small, (proj2 (Z.leb_gt _ 0)) by word_lia. eexists. split; [reflexivity|].
      split; [by apply om_put_sorted|]. eapply counters_add; [done|]. intros y. cbn.
      by rewrite om_find_put, Hfx by done.
    + eexists. split; [reflexivity|]. split; [by apply om_put_sorted|].
      eapply counters_add; [done|]. intros y. cbn. by rewrite om_find_put, Hfx by done.
  - intros M s x [Hs Hinv] Hok Hx. cbn. pose proof (Hinv x) as Hfx. cbn in Hfx. rewrite Hfx, decide_True by done. unfold count_fits in Hok.
    pose proof (mult_le_size M x). pose proof (proj1 (mult_pos M x) Hx).
    rewrite u32_small by word_lia.
    destruct (Z.leb_spec (Z.of_nat (multiplicity x M) + -1) 0); eexists; (split; [reflexivity|]).
    + split; [by apply om_erase_sorted|]. eapply counters_retract; [done|done|]. intros y. cbn.
      rewrite om_find_erase by done. by rewrite (proj2 (Z.eqb_eq _ 1)) by lia.
    + split; [by apply om_put_sorted|]. eapply counters_retract; [done|done|]. intros y. cbn.
      rewrite om_find_put by done. by rewrite (proj2 (Z.eqb_neq _ 1)) by lia.
  - intros M s [Hs Hinv] _ Hne. cbn.
    assert (forall x, x ∈ M <-> x ∈ (mMap s).*1) as Hdom.
    { intros x. specialize (Hinv x). cbn in Hinv. split.
      - intros Hx. rewrite decide_True in Hinv by done. apply om_find_Some in Hinv; [|done..].
        by apply (list_elem_of_fmap_2 fst) in Hinv.
      - intros ([k c] & -> & Hx)%list_elem_of_fmap. cbn in *. apply (om_find_Some cmp k (mMap s) c Hs) in Hx.
        rewrite Hx in Hinv. by case_decide. }
    destruct (mMap s) as [|[k c] l] eqn:E; cbn.
    + destruct (gmultiset_choose M Hne) as [x Hx]. apply Hdom in Hx. by apply not_elem_of_nil in Hx.
    + exists k. split; [done|]. split; [apply Hdom; cbn; by left|].
      intros x Hx. apply Hdom in Hx. cbn in Hx. apply elem_of_cons in Hx as [->|Hx]; [by left|right].
      apply om_sorted_cons in Hs as [_ Hall]. by apply Hall.
Defined.
End MinMax.

(** ** The functions without retraction, and the recency functions *)

(** [AggrGlobalMax] and [AggrGlobalMin]; [numeric_min] and [numeric_max] are
    [std::numeric_limits<Tin>::min()] and [max()] *)
Record AggrGlobal := mkGlobal { g_value : Z }.

Definition AggrGlobalMax_func (numeric_min : Z) : AggregateFunc AggrGlobal Z Z := {|
  init := mkGlobal numeric_min;
  iterate data outdated s :=
    _ ← guard_else (negb outdated) AssertFailed; Ok (mkGlobal (Z.max (g_value s) data));
  value s := Ok (g_value s, s);
|}.

Definition AggrGlobalMin_func (numeric_max : Z) : AggregateFunc AggrGlobal Z Z := {|
  init := mkGlobal numeric_max;
  iterate data outdated s :=
    _ ← guard_else (negb outdated) AssertFailed; Ok (mkGlobal (Z.min (g_value s) data));
  value s := Ok (g_value s, s);
|}.

(** [mValue] and [mVal] are not initialised *)
Record AggrIdentity := mkIdentity { mValue : option Z }.

#[export] Instance AggrIdentity_func : AggregateFunc AggrIdentity Z (option Z) := {
  init := mkIdentity None;
  iterate data outdated s := Ok (mkIdentity (Some data));
  value s := Ok (mValue s, s);
}.

Record AggrLRecent := mkLRecent { mData : list Z }.

#[export] Instance AggrLRecent_func : AggregateFunc AggrLRecent Z Z := {
  init := mkLRecent [];
  iterate data outdated s :=
    if negb outdated then Ok (mkLRecent (mData s ++ [data]))
    else match mData s with [] => Err AssertFailed | _ :: rest => Ok (mkLRecent rest) end;
  value s := match mData s with [] => Err AssertFailed | x :: _ => Ok (x, s) end;
}.

Record AggrMRecent := mkMRecent { mVal : option Z; mMostRecentTime : Z }.

#[export] Instance AggrMRecent_func : AggregateFunc AggrMRecent Z (option Z) := {
  init := mkMRecent None 0;
  iterate data outdated s := Ok (if negb outdated then mkMRecent (Some data) (mMostRecentTime s) else s);
  value s := Ok (mVal s, s);
}.

Definition MRecent_iterate_ts (data ts : Z) (outdated : bool) (s : AggrMRecent) : AggrMRecent :=
  if negb outdated && (ts >? mMostRecentTime s) then mkMRecent (Some data) ts else s.

(** ** AggrMedian *)

Record AggrMedian := mkMedian {
  total : Z;
  mapElement : list (Z * Z);
  mapIt : option Z;
  elemBefore : Z;
}.

Section Median.
Context (cmp : Z -> Z -> bool).

(** [it->second] *)
Definition it_second (it : option Z) (m : list (Z * Z)) : result Z :=
  match it with
  | None => Err OutOfBounds
  | Some k => match om_find cmp k m with Some c => Ok c | None => Err Dangling end
  end.
(** [it->first] *)
Definition it_first (it : option Z) (m : list (Z * Z)) : result Z :=
  match it with
  | None => Err OutOfBounds
  | Some k => match om_find cmp k m with Some _ => Ok k | None => Err Dangling end
  end.
Definition it_incr (it : option Z) (m : list (Z * Z)) : result (option Z) :=
  match it with None => Err OutOfBounds | Some k => om_next cmp k m end.
Definition it_decr (it : option Z) (m : list (Z * Z)) : result (option Z) :=
  match it with
  | None => match last m with Some e => Ok (Some e.1) | None => Err OutOfBounds end
  | Some k => om_prev cmp k m
  end.

Definition decrementMap (s : AggrMedian) : result AggrMedian :=
  if elemBefore s <=? 0 then
    it ← it_decr (mapIt s) (mapElement s);
    c ← it_second it (mapElement s);
    Ok (mkMedian (total s) (mapElement s) it (c - 1))
  else
    it ← it_decr (mapIt s) (mapElement s);
    Ok (mkMedian (total s) (mapElement s) it (elemBefore s)).

Definition incrementMap (s : AggrMedian) : result AggrMedian :=
  c ← it_second (mapIt s) (mapElement s);
  if u32 (elemBefore s + 1) >=? c then
    it ← it_incr (mapIt s) (mapElement s);
    Ok (mkMedian (total s) (mapElement s) it 0)
  else
    it ← it_incr (mapIt s) (mapElement s);
    Ok (mkMedian (total s) (mapElement s) it (elemBefore s)).

Definition median_retract (data : Z) (s : AggrMedian) : result AggrMedian :=
  match om_find cmp data (mapElement s) with
  | None => Ok s
  | Some _ =>
      let odd := negb (Z.rem (total s) 2 =? 0) in
      s ← (if bool_decide (mapIt s = Some data) then
             if odd then decrementMap s
             else c ← it_second (mapIt s) (mapElement s);
                  if u32 (elemBefore s + 1) >=? c then incrementMap s else Ok s
           else
             k ← it_first (mapIt s) (mapElement s);
             if odd && negb (cmp data k) then decrementMap s
             else if negb odd && cmp data k then incrementMap s
             else Ok s);
      c ← it_second (Some data) (mapElement s);
      if c =? 1 then
        let s := mkMedian (total s - 1) (om_erase cmp data (mapElement s)) (mapIt s) (elemBefore s) in
        if total s =? 0 then Ok (mkMedian (total s) (mapElement s) None 0) else Ok s
      else Ok (mkMedian (total s - 1) (om_put cmp data (u32 (c - 1)) (mapElement s)) (mapIt s) (elemBefore s))
  end.

(** the last part of the insertion: move the median position *)
Definition median_adjust (data : Z) (s : AggrMedian) : result AggrMedian :=
  k ← it_first (mapIt s) (mapElement s);
  if (Z.rem (total s) 2 =? 0) && cmp data k then decrementMap s
  else if negb (Z.rem (total s) 2 =? 0) && negb (cmp data k) then incrementMap s
  else Ok s.

Definition median_insert (data : Z) (s : AggrMedian) : result AggrMedian :=
  match om_find cmp data (mapElement s) with
  | Some c => median_adjust data (mkMedian (total s + 1) (om_put cmp data (u32 (c + 1)) (mapElement s)) (mapIt s) (elemBefore s))
  | None =>
      let s := mkMedian (total s + 1) (om_put cmp data 1 (mapElement s)) (mapIt s) (elemBefore s) in
      if total s =? 1 then Ok (mkMedian (total s) (mapElement s) (om_begin (mapElement s)) 0)
      else median_adjust data s
  end.

(** the result is twice the median, the division by [2.0] being exact *)
Definition AggrMedian_func : AggregateFunc AggrMedian Z Z := {|
  init := mkMedian 0 [] None 0;
  iterate data outdated s := if outdated : bool then median_retract data s else median_insert data s;
  value s :=
    if total s =? 0 then Ok (0, s)
    else if Z.rem (total s) 2 =? 0 then
      currElement ← it_first (mapIt s) (mapElement s);
      c ← it_second (mapIt s) (mapElement s);
      if u32 (elemBefore s + 1) >=? c then
        it ← it_incr (mapIt s) (mapElement s);
        nextElement ← it_first it (mapElement s);
        it' ← it_decr it (mapElement s);
        sum ← to_int (currElement + nextElement);
        Ok (sum, mkMedian (total s) (mapElement s) it' (elemBefore s))
      else Ok (2 * currElement, s)
    else
      k ← it_first (mapIt s) (mapElement s);
      Ok (2 * k, s);
|}.
End Median.

(** *** The median of distinct values *)

Section median_distinct.
Context (cmp : Z -> Z -> bool) {comp : Comparator cmp}.

Record median_inv (xs : list Z) (s : AggrMedian) : Prop := {
  mi_total : total s = Z.of_nat (length xs);
  mi_sorted : om_sorted cmp (mapElement s);
  mi_keys : (mapElement s).*1 ≡ₚ xs;
  mi_ones : forall k c, (k, c) ∈ mapElement s -> c = 1;
  mi_before : elemBefore s = 0;
  mi_it : mapIt s = (mapElement s).*1 !! ((length xs - 1) / 2)%nat;
}.

Lemma mi_find xs s i k : median_inv xs s -> (mapElement s).*1 !! i = Some k -> om_find cmp k (mapElement s) = Some 1.
Proof.
  intros Hinv Hi. apply list_elem_of_lookup_2, list_elem_of_fmap in Hi as ([k' c] & -> & Hin). cbn.
  rewrite (mi_ones xs s Hinv k' c Hin) in Hin. apply (om_find_Some cmp); [apply Hinv|done].
Qed.

Lemma mi_length xs s : median_inv xs s -> length (mapElement s).*1 = length xs.
Proof. intros Hinv. by rewrite (mi_keys xs s Hinv). Qed.

Lemma rem2 n : (Z.rem (Z.of_nat n) 2 =? 0) = Nat.even n.
Proof.
  rewrite Z.rem_mod_nonneg by lia. destruct (Nat.even n) eqn:E.
  - apply Nat.even_spec in E as [m ->]. apply Z.eqb_eq. Z.to_euclidean_division_equations. lia.
  - assert (Nat.odd n = true) as [m ->]%Nat.odd_spec by (by rewrite <- Nat.negb_even, E).
    apply Z.eqb_neq. Z.to_euclidean_division_equations. lia.
Qed.

(** the position moves by one, or stays, and ends in the middle *)
Lemma median_adjust_middle (m : list (Z * Z)) n k x p :
  om_sorted cmp m -> (forall k c, (k, c) ∈ m -> c = 1) -> length m.*1 = S n -> n <> 0%nat ->
  p = ((n - 1) / 2)%nat -> m.*1 !! (if cmp x k then S p else p) = Some k ->
  median_adjust cmp x (mkMedian (Z.of_nat (S n)) m (Some k) 0) =
    Ok (mkMedian (Z.of_nat (S n)) m (m.*1 !! (n / 2)%nat) 0).
Proof.
  intros Hs Ho Hlen Hn -> Hk.
  assert (forall i k', m.*1 !! i = Some k' -> om_find cmp k' m = Some 1) as Hfind.
  { intros i k' Hi. apply list_elem_of_lookup_2, list_elem_of_fmap in Hi as ([k1 c] & -> & Hin).
    rewrite (Ho _ _ Hin) in Hin. by apply (om_find_Some cmp). }
  unfold median_adjust. cbn [mapIt mapElement total it_first]. rewrite (Hfind _ _ Hk). run_step.
  rewrite rem2. destruct (Nat.even (S n)) eqn:Ev, (cmp x k) eqn:Ec; cbn [andb negb].
  - (* one step back *)
    apply Nat.even_spec in Ev as [q Hq]. assert (((n - 1) / 2)%nat = (n / 2)%nat) as Hmid.
    { replace n with (2 * (q - 1) + 1)%nat at 2 by lia. replace (n - 1)%nat with ((q - 1) * 2)%nat by lia.
      rewrite Nat.div_mul, (Nat.mul_comm 2), Nat.div_add_l by lia. cbn. lia. }
    rewrite Hmid in Hk.
    destruct (lookup_lt_is_Some_2 m.*1 (n / 2)%nat) as [j Hj].
    { apply lookup_lt_Some in Hk. lia. }
    unfold decrementMap. cbn [elemBefore mapIt mapElement total it_decr Z.leb Z.compare].
    rewrite (om_prev_position cmp j k m (n / 2)%nat Hs Hk Hj). cbn [mbind result_bind it_second].
    rewrite (Hfind _ _ Hj), Hj. done.
  - apply Nat.even_spec in Ev as [q Hq]. assert (((n - 1) / 2)%nat = (n / 2)%nat) as Hmid.
    { replace n with (2 * (q - 1) + 1)%nat at 2 by lia. replace (n - 1)%nat with ((q - 1) * 2)%nat by lia.
      rewrite Nat.div_mul, (Nat.mul_comm 2), Nat.div_add_l by lia. cbn. lia. }
    by rewrite <- Hmid, Hk.
  - assert (Nat.odd (S n) = true) as [q Hq]%Nat.odd_spec by (by rewrite <- Nat.negb_even, Ev).
    assert (S ((n - 1) / 2)%nat = (n / 2)%nat) as Hmid.
    { replace n with (q * 2)%nat at 2 by lia. replace (n - 1)%nat with ((q - 1) * 2 + 1)%nat by lia.
      rewrite Nat.div_mul, Nat.div_add_l by lia. cbn. lia. }
    by rewrite <- Hmid, Hk.
  - (* one step forward *)
    assert (Nat.odd (S n) = true) as [q Hq]%Nat.odd_spec by (by rewrite <- Nat.negb_even, Ev).
    assert (S ((n - 1) / 2)%nat = (n / 2)%nat) as Hmid.
    { replace n with (q * 2)%nat at 2 by lia. replace (n - 1)%nat with ((q - 1) * 2 + 1)%nat by lia.
      rewrite Nat.div_mul, Nat.div_add_l by lia. cbn. lia. }
    unfold incrementMap. cbn [elemBefore mapIt mapElement total it_second].
    rewrite (Hfind _ _ Hk). cbn [mbind result_bind it_incr].
    change (u32 (0 + 1) >=? 1) with true. cbn.
    rewrite (om_next_position cmp k m _ Hs Hk), Hmid. done.
Qed.

Lemma median_insert_new xs s x :
  median_inv xs s -> x ∉ xs ->
  exists s', median_insert cmp x s = Ok s' /\ median_inv (xs ++ [x]) s'.
Proof.
  intros [Ht Hs Hk Ho Hb Hit] Hx.
  assert (om_find cmp x (mapElement s) = None) as Hf.
  { destruct (om_find cmp x (mapElement s)) as [c|] eqn:E; [|done]. apply (om_find_Some cmp) in E; [|done..].
    apply (list_elem_of_fmap_2 fst) in E. cbn in E. by rewrite Hk in E. }
  pose proof (om_put_sorted cmp x 1 _ Hs) as Hs'.
  pose proof (om_put_new_length cmp x 1 (mapElement s) Hf) as Hk'.
  assert (forall k c, (k, c) ∈ om_put cmp x 1 (mapElement s) -> c = 1) as Ho'.
  { intros k c [[= _ ->]|Hin]%(om_put_new_values cmp); [done|by apply (Ho k)|done]. }
  unfold median_insert. rewrite Hf. cbn [total mapElement]. rewrite Ht.
  set (m' := om_put cmp x 1 (mapElement s)) in *. set (n := length xs) in *.
  assert (length m'.*1 = S n) as Hlen by (rewrite Hk'; cbn; by rewrite Hk).
  assert (median_inv (xs ++ [x]) (mkMedian (Z.of_nat (S n)) m' (m'.*1 !! (n / 2)%nat) 0)) as Hdone.
  { assert (length (xs ++ [x]) = S n) as Hn' by (rewrite length_app; cbn; lia).
    split; cbn; [by rewrite Hn'|done| |done|done|].
    - rewrite Hk', Hk. apply Permutation_cons_append.
    - rewrite Hn'. cbn. by rewrite Nat.sub_0_r. }
  replace (Z.of_nat n + 1) with (Z.of_nat (S n)) by lia. eexists. split; [|exact Hdone].
  destruct (decide (n = 0%nat)) as [Hz|Hz].
  { rewrite Hz. cbn. unfold om_begin. by destruct m'. }
  rewrite (proj2 (Z.eqb_neq _ 1)) by lia. rewrite Hb, Hit. fold n.
  destruct (lookup_lt_is_Some_2 (mapElement s).*1 ((n - 1) / 2)%nat) as [k Hmid].
  { rewrite Hk. fold n. apply Nat.Div0.div_lt_upper_bound; lia. }
  rewrite Hmid. by apply (median_adjust_middle m' n k x ((n - 1) / 2)); [..|apply om_put_new_position].
Qed.

Lemma median_distinct_inv xs :
  NoDup xs -> exists s, iterates (F := AggrMedian_func cmp) ((fun x => (x, false)) <$> xs) (init (AggregateFunc := AggrMedian_func cmp)) = Ok s /\
    median_inv xs s.
Proof.
  induction xs as [|x xs IH] using rev_ind; intros Hnd.
  - eexists. split; [reflexivity|]. split; try done; [constructor|by intros ? ? ?%not_elem_of_nil].
  - apply NoDup_app in Hnd as (Hnd & Hdis & _). destruct (IH Hnd) as (s & Hrun & Hinv).
    destruct (median_insert_new xs s x Hinv) as (s' & Hins & Hinv').
    { intros Hin. apply (Hdis x Hin). by apply list_elem_of_singleton. }
    exists s'. split; [|done]. rewrite fmap_app, iterates_app, Hrun. cbn. by rewrite Hins.
Qed.

Ltac median_compute x :=
  unfold median_insert, median_adjust, incrementMap, it_first, it_second, it_incr;
  repeat (rewrite ?(cmp_irrefl (cmp := cmp) x); cbn [om_find om_put om_next mapElement mapIt total elemBefore mbind result_bind]);
  reflexivity.

Lemma median_first x : median_insert cmp x (mkMedian 0 [] None 0) = Ok (mkMedian 1 [(x, 1)] (Some x) 0).
Proof. median_compute x. Qed.
Lemma median_second x : median_insert cmp x (mkMedian 1 [(x, 1)] (Some x) 0) = Ok (mkMedian 2 [(x, 2)] (Some x) 0).
Proof. median_compute x. Qed.
Lemma median_third x : median_insert cmp x (mkMedian 2 [(x, 2)] (Some x) 0) = Ok (mkMedian 3 [(x, 3)] None 0).
Proof. median_compute x. Qed.

Lemma median_value xs :
  NoDup xs -> xs <> [] -> (forall x, x ∈ xs -> Z.abs x < 2^30) ->
  exists ks a b, ks ≡ₚ xs /\ StronglySorted (fun x y => cmp x y = true) ks /\
     ks !! ((length xs - 1) / 2)%nat = Some a /\ ks !! (length xs / 2)%nat = Some b /\
     (s ← iterates (F := AggrMedian_func cmp) ((fun x => (x, false)) <$> xs) (init (AggregateFunc := AggrMedian_func cmp));
      r ← value (AggregateFunc := AggrMedian_func cmp) s; Ok r.1) = Ok (a + b).
Proof.
  intros Hnd Hne Hsmall. destruct (median_distinct_inv xs Hnd) as (s & -> & Hinv).
  pose proof Hinv as [Ht Hs Hk Ho Hb Hit]. set (n := length xs) in *.
  assert (n <> 0%nat) as Hn by (subst n; by destruct xs).
  assert (length (mapElement s).*1 = n) as Hlen by by rewrite Hk.
  destruct (lookup_lt_is_Some_2 (mapElement s).*1 ((n - 1) / 2)%nat) as [a Ha];
    [rewrite Hlen; apply Nat.Div0.div_lt_upper_bound; lia|].
  destruct (lookup_lt_is_Some_2 (mapElement s).*1 (n / 2)%nat) as [b Hb'];
    [rewrite Hlen; apply Nat.Div0.div_lt_upper_bound; lia|].
  exists (mapElement s).*1, a, b. split; [done|]. split; [exact Hs|]. split; [done|]. split; [done|].
  assert (Z.abs a < 2^30 /\ Z.abs b < 2^30) as [Hsa Hsb].
  { split; apply Hsmall; rewrite <- Hk; by eapply list_elem_of_lookup_2. }
  run_step. cbn [value AggrMedian_func]. rewrite Ht, (proj2 (Z.eqb_neq _ 0)), rem2 by lia.
  rewrite Hit, Ha, Hb. cbn [it_first it_second]. rewrite (mi_find xs s _ a Hinv Ha). run_step.
  destruct (Nat.even n) eqn:Ev.
  - apply Nat.even_spec in Ev as [q Hq].
    assert (S ((n - 1) / 2)%nat = (n / 2)%nat) as Hmid.
    { replace n with (q * 2)%nat at 2 by lia. replace (n - 1)%nat with ((q - 1) * 2 + 1)%nat by lia.
      rewrite Nat.div_mul, Nat.div_add_l by lia. cbn. lia. }
    change (u32 (0 + 1) >=? 1) with true. cbn [it_incr].
    rewrite (om_next_position cmp a _ _ Hs Ha), Hmid, Hb'. cbn [mbind result_bind it_first].
    rewrite (mi_find xs s _ b Hinv Hb'). cbn [mbind result_bind it_decr].
    rewrite <- Hmid in Hb'. rewrite (om_prev_position cmp a b _ _ Hs Hb' Ha). run_step.
    rewrite to_int_Ok by word_lia. done.
  - assert (Nat.odd n = true) as [q Hq]%Nat.odd_spec by (by rewrite <- Nat.negb_even, Ev).
    assert (((n - 1) / 2)%nat = (n / 2)%nat) as Hmid.
    { rewrite Hq. replace (2 * q + 1 - 1)%nat with (q * 2)%nat by lia.
      rewrite Nat.div_mul, (Nat.mul_comm 2), Nat.div_add_l by lia. cbn. lia. }
    rewrite <- Hmid, Ha in Hb'. injection Hb' as <-. cbn. f_equal. lia.
Qed.
End median_distinct.

(** ** Properties *)

(** the value after a history, from a fresh state *)
Definition aggregate {A S Tres} (F : AggregateFunc S A Tres) (h : list (A * bool)) : result Tres :=
  s ← iterates h init; r ← value s; Ok r.1.

(** histories short enough, and with values small enough, for 32-bit states *)
Definition history_fits (h : list (Z * bool)) : Prop :=
  zsum ((fun e => Z.abs e.1) <$> h) < 2^31 /\ Z.of_nat (length h) < 2^31.

Lemma zsum_abs_nonneg {A} (f : A -> Z) (l : list A) : 0 <= zsum ((fun e => Z.abs (f e)) <$> l).
Proof. induction l as [|x l IH]; [done|]. rewrite fmap_cons. unfold zsum in *. cbn [fold_right]. lia. Qed.

Lemma msum_abs_empty : msum_abs ∅ = 0.
Proof. unfold msum_abs. by rewrite gmultiset_elements_empty. Qed.

Lemma windows_fit M h M' :
  content_from M h = Some M' ->
  msum_abs M + zsum ((fun e => Z.abs e.1) <$> h) < 2^31 -> Z.of_nat (size M) + Z.of_nat (length h) < 2^31 ->
  windows_ok (fun M => sums_fit M /\ count_fits M) M h.
Proof.
  revert M. induction h as [|[x o] h IH]; intros M Hc Hs Hn.
  - split; [|done]. unfold sums_fit, count_fits. cbn in Hs, Hn. lia.
  - rewrite fmap_cons in Hs. cbn [length] in Hn. unfold zsum in Hs. cbn [fold_right fst] in Hs. fold zsum in Hs.
    fold (zsum ((fun e : Z * bool => Z.abs e.1) <$> h)) in Hs.
    pose proof (zsum_abs_nonneg (fun e : Z * bool => e.1) h).
    split; [unfold sums_fit, count_fits; lia|]. cbn in Hc. destruct o.
    + case_decide as Hx; [|done]. apply IH; [done|rewrite msum_abs_retract by done|rewrite size_retract by done]; lia.
    + apply IH; [done|rewrite msum_abs_add|rewrite size_add]; lia.
Qed.

Lemma windows_ok_mono `{Countable A} (P Q : gmultiset A -> Prop) M h :
  (forall M, P M -> Q M) -> windows_ok P M h -> windows_ok Q M h.
Proof.
  intros HPQ. revert M. induction h as [|[x [|]] h IH]; intros M [H1 H2]; (split; [by apply HPQ|]); auto.
Qed.

Lemma aggregate_spec {A S Tres} `{Countable A} (F : AggregateFunc S A Tres) {L : AggregateLaws A S Tres} h M :
  windows_ok af_ok ∅ h -> content h = Some M -> M <> ∅ ->
  exists v, aggregate F h = Ok v /\ af_spec M v.
Proof.
  intros Hok Hc Hne. destruct (incremental_value h M Hok Hc Hne) as (s & v & Hs & Hv & Hspec).
  exists v. split; [|done]. unfold aggregate. rewrite Hs. cbn. by rewrite Hv.
Qed.

Section properties.
Context (cmp : Z -> Z -> bool) {comp : Comparator cmp}.

(** C12: incremental aggregation computes the aggregate of the window.
    After any history of additions and retractions that never retracts a
    value it does not hold, sum, count, number of distinct values and the
    extremum under any comparator are those of the multiset of values held:
    no trace of the retracted values is left. *)
Theorem incremental_equals_batch (h : list (Z * bool)) (M : gmultiset Z)
  (Hfit : history_fits h) (Hc : content h = Some M) (Hne : M <> ∅) :
  aggregate AggrSum_func h = Ok (msum M) /\
  aggregate AggrCount_func h = Ok (Z.of_nat (size M)) /\
  aggregate AggrDCount_func h = Ok (Z.of_nat (size (dom M))) /\
  exists v, aggregate (AggrMinMax_func cmp) h = Ok v /\ v ∈ M /\ forall x, x ∈ M -> x = v \/ cmp v x = true.
Proof.
  destruct Hfit as [Hs Hn].
  pose proof (windows_fit ∅ h M Hc ltac:(rewrite msum_abs_empty; lia) ltac:(rewrite gmultiset_size_empty; lia)) as Hok.
  assert (windows_ok sums_fit ∅ h) as Hok1 by (eapply windows_ok_mono; [|exact Hok]; by intros ? []).
  assert (windows_ok count_fits ∅ h) as Hok2 by (eapply windows_ok_mono; [|exact Hok]; by intros ? []).
  destruct (aggregate_spec AggrSum_func (L := AggrSum_laws) h M Hok1 Hc Hne) as (v1 & H1 & ->).
  destruct (aggregate_spec AggrCount_func (L := AggrCount_laws) h M Hok2 Hc Hne) as (v2 & H2 & ->).
  destruct (aggregate_spec AggrDCount_func (L := AggrDCount_laws) h M Hok2 Hc Hne) as (v3 & H3 & ->).
  destruct (aggregate_spec (AggrMinMax_func cmp) (L := AggrMinMax_laws cmp) h M Hok2 Hc Hne) as (v4 & H4 & Hv4).
  split_and!; [done..|]. by exists v4.
Qed.

(** The average over [int].  While the sum of the window is not
    negative the value is the truncated average; the division being unsigned,
    the average of -1 and -3 comes out as 2147483646. *)
Lemma int_average (h : list (Z * bool)) (M : gmultiset Z)
  (Hfit : history_fits h) (Hc : content h = Some M) (Hne : M <> ∅) (Hpos : 0 <= msum M) :
  aggregate AggrAvg_func h = Ok (Z.quot (msum M) (Z.of_nat (size M))) /\
  aggregate AggrAvg_func [(-1, false); (-3, false)] = Ok 2147483646.
Proof.
  split; [|vm_compute; reflexivity]. destruct Hfit as [Hs Hn].
  pose proof (windows_fit ∅ h M Hc ltac:(rewrite msum_abs_empty; lia) ltac:(rewrite gmultiset_size_empty; lia)) as Hok.
  destruct (iterates_inv (F := AggrSum_func) h ∅ init M (af_init (AggregateLaws := AggrSum_laws))
    ltac:(eapply windows_ok_mono; [|exact Hok]; by intros ? []) Hc) as (s1 & _ & _ & Hsum).
  destruct (aggregate_spec AggrAvg_func (L := AggrAvg_laws) h M Hok Hc Hne) as (v & Hv & ->). rewrite Hv. f_equal.
  pose proof (msum_bound M) as Hb. cbn in Hsum. unfold sums_fit in Hsum.
  assert (size M <> 0%nat) by (rewrite gmultiset_size_empty_iff; done).
  rewrite u32_small by word_lia. rewrite Z.quot_div_nonneg by lia.
  apply s32_small. assert (1 <= Z.of_nat (size M)) by lia.
  assert (0 <= msum M / Z.of_nat (size M) <= msum M).
  { split; [apply Z.div_pos; lia|apply Z.div_le_upper_bound; [lia|nia]]. }
  unfold is_int. lia.
Qed.

(** The median.  On distinct values, added in any order, the value is
    (twice) the median: the sum of the elements at the positions [(n-1)/2]
    and [n/2] of the sorted sequence.  With repeated values the position
    moves by whole map nodes instead of within a node: the third insertion of
    the same value already runs off the end of the map. *)
Lemma median_of_distinct (xs : list Z)
  (Hnd : NoDup xs) (Hne : xs <> []) (Hsmall : forall x, x ∈ xs -> Z.abs x < 2^30) :
  (exists ks a b, ks ≡ₚ xs /\ StronglySorted (fun x y => cmp x y = true) ks /\
     ks !! ((length xs - 1) / 2)%nat = Some a /\ ks !! (length xs / 2)%nat = Some b /\
     aggregate (AggrMedian_func cmp) ((fun x => (x, false)) <$> xs) = Ok (a + b)) /\
  forall x, aggregate (AggrMedian_func cmp) [(x, false); (x, false); (x, false)] = Err OutOfBounds.
Proof.
  split; [by apply median_value|]. intros x. unfold aggregate. cbn [iterates iterate init AggrMedian_func].
  rewrite (median_first cmp x). run_step. rewrite (median_second cmp x). run_step.
  rewrite (median_third cmp x). reflexivity.
Qed.
End properties.

Definition demo_history : list (Z * bool) := [(5, false); (2, false); (5, false); (9, false); (2, true)].

Lemma demo_content : content demo_history = Some (∅ ⊎ {[+ 5 +]} ⊎ {[+ 5 +]} ⊎ {[+ 9 +]}).
Proof.
  unfold content, demo_history. cbn [content_from]. rewrite decide_True by multiset_solver.
  f_equal.
Qed.

Lemma demo_fits : history_fits demo_history.
Proof. by split; vm_compute. Qed.

Lemma incremental_equals_batch_witness :
  aggregate AggrSum_func demo_history = Ok 19 /\ aggregate AggrCount_func demo_history = Ok 3 /\
  exists v, aggregate (AggrMinMax_func Z.ltb) demo_history = Ok v /\ v = 5.
Proof.
  destruct (incremental_equals_batch Z.ltb demo_history _ demo_fits demo_content ltac:(multiset_solver))
    as (Hs & Hc & _ & v & Hv & _).
  split; [rewrite Hs, !msum_add; reflexivity|].
  split; [rewrite Hc, !size_add; reflexivity|].
  exists v. split; [exact Hv|]. vm_compute in Hv. congruence.
Defined.

Lemma int_average_witness : aggregate AggrAvg_func demo_history = Ok 6.
Proof.
  destruct (int_average demo_history _ demo_fits demo_content ltac:(multiset_solver)) as [H _].
  { rewrite !msum_add. change (msum ∅) with 0. lia. }
  rewrite H, !msum_add, !size_add. reflexivity.
Defined.

Lemma median_of_distinct_witness :
  exists a b, [10; 20; 30; 40] !! 1%nat = Some a /\ [10; 20; 30; 40] !! 2%nat = Some b /\
    aggregate (AggrMedian_func Z.ltb) ((fun x => (x, false)) <$> [30; 10; 40; 20]) = Ok (a + b).
Proof.
  exists 20, 30. split; [reflexivity|]. split; [reflexivity|].
  destruct (median_of_distinct Z.ltb [30; 10; 40; 20]) as [(ks & a & b & _ & _ & _ & _ & H) _].
  - apply (bool_decide_unpack _). vm_compute. exact I.
  - discriminate.
  - intros x Hx. rewrite !elem_of_cons in Hx. destruct Hx as [->|[->|[->|[->|[]%elem_of_nil]]]]; cbn; lia.
  - transitivity (Ok (a + b)); [exact H|]. rewrite <- H. vm_compute. reflexivity.
Defined.
