(* ===== verification/Aggregation.v ===== *)
(** * Aggregation: the aggregation operators

    Models [src/qop/Aggregation.hpp] and [src/qop/GroupedAggregation.hpp] (with
    the state of [src/qop/AggregateStateBase.hpp]): a global and a grouped
    aggregation, published with every element or when a trigger fires. *)

From S2P Require Import Aggregates Prelude Stream Windows.

(** [PFabricTypes.hpp] *)
Inductive AggregationTriggerType := TriggerAll | TriggerByCount | TriggerByTime | TriggerByTimestamp.

(** ** Aggregation *)

Section Aggregation.
Context {E O S : Type} (mIterateFunc : E -> S -> bool -> result S) (mFinalFunc : S -> result (O * S)).
Context (mTimestampExtractor : option (E -> Z)).

Record Aggregation := mkAggregation {
  mAggrState : S;
  mLastTriggerTime : Z;
  mTriggerType : AggregationTriggerType;
  mTriggerInterval : WinSizeType;     (** [boost::variant<Timestamp, unsigned int>] *)
  mCounter : Z;
}.

(** the constructor with a trigger type and an interval *)
Definition Aggregation_init (state : S) (tType : AggregationTriggerType) (tInterval : Z) : Aggregation :=
  mkAggregation state 0 tType (WinCount tInterval) 0.

(** the constructor with a timestamp extractor: the interval in seconds *)
Definition Aggregation_init_ts (state : S) (tInterval : Z) : Aggregation :=
  mkAggregation state 0 TriggerByTimestamp (WinTime (u32 (u32 (tInterval * 1000) * 1000))) 0.

Definition with_state (s : S) (a : Aggregation) : Aggregation :=
  mkAggregation s (mLastTriggerTime a) (mTriggerType a) (mTriggerInterval a) (mCounter a).
Definition with_trigger (last cnt : Z) (a : Aggregation) : Aggregation :=
  mkAggregation (mAggrState a) last (mTriggerType a) (mTriggerInterval a) cnt.

Definition produceAggregates (a : Aggregation) : result (list (event O) * Aggregation) :=
  '(tn, s) ← mFinalFunc (mAggrState a); Ok ([Data tn false], with_state s a).

Definition notificationCallback (a : Aggregation) : result (list (event O) * Aggregation) :=
  '(out, a) ← produceAggregates a; Ok (out ++ [Punct SlideExpired], a).

(** calling an empty [std::function] throws *)
Definition call_extractor (data : E) : result Z :=
  match mTimestampExtractor with Some f => Ok (f data) | None => Err (Throws "bad_function_call") end.

Definition processDataElement (data : E) (outdated : bool) (a : Aggregation)
    : result (list (event O) * Aggregation) :=
  s ← mIterateFunc data (mAggrState a) outdated;
  let a := with_state s a in
  if negb outdated then
    match mTriggerType a with
    | TriggerAll =>
        '(tn, s) ← mFinalFunc (mAggrState a);
        Ok ([Data tn outdated], with_state s a)
    | TriggerByCount =>
        n ← get_count (mTriggerInterval a);
        let cnt := u32 (mCounter a + 1) in
        let a := with_trigger (mLastTriggerTime a) cnt a in
        if cnt =? n then
          '(out, a) ← notificationCallback a;
          Ok (out, with_trigger (mLastTriggerTime a) 0 a)
        else Ok ([], a)
    | TriggerByTimestamp =>
        ts ← call_extractor data;
        n ← get_time (mTriggerInterval a);
        if ts - mLastTriggerTime a >=? n then
          '(out, a) ← notificationCallback a;
          Ok (out, with_trigger ts (mCounter a) a)
        else Ok ([], a)
    | TriggerByTime => Ok ([], a)
    end
  else
    '(tn, s) ← mFinalFunc (mAggrState a);
    Ok ([Data tn true], with_state s a).

Definition processPunctuation (p : PType) (a : Aggregation) : list (event O) * Aggregation := ([Punct p], a).
End Aggregation.
Arguments Aggregation : clear implicits.

(** ** GroupedAggregation *)

Section GroupedAggregation.
Context {E O K S : Type} `{Countable K}.
Context (mGroupByFunc : E -> K) (mIterateFunc : E -> K -> S -> bool -> result S) (mFinalFunc : S -> result (O * S)).
Context (mTimestampExtractor : option (E -> Z)) (newState : S).

(** [AggregateStateBase]: the counter starts at 1 *)
Record AggregateState := mkAggregateState { as_aggr : S; mTstmp : Z; as_counter : Z }.

Definition AggregateState_new : AggregateState := mkAggregateState newState 0 1.
Definition setTimestamp (t : Z) (s : AggregateState) : AggregateState := mkAggregateState (as_aggr s) t (as_counter s).
Definition updateCounter (v : Z) (s : AggregateState) : AggregateState :=
  mkAggregateState (as_aggr s) (mTstmp s) (u32 (as_counter s + v)).
Definition getCounter (s : AggregateState) : Z := s32 (as_counter s).
Definition set_aggr (x : S) (s : AggregateState) : AggregateState := mkAggregateState x (mTstmp s) (as_counter s).

Record GroupedAggregation := mkGrouped {
  mAggregateTable : gmap K AggregateState;
  ga_LastTriggerTime : Z;
  ga_TriggerType : AggregationTriggerType;
  ga_TriggerInterval : WinSizeType;
  ga_Counter : Z;
}.

Definition GroupedAggregation_init (tType : AggregationTriggerType) (tInterval : Z) : GroupedAggregation :=
  mkGrouped ∅ 0 tType (WinCount tInterval) 0.

(** the constructor with an extractor ignores [tType] and keeps the interval
    as an [unsigned int] *)
Definition GroupedAggregation_init_ts (tType : AggregationTriggerType) (tInterval : Z) : GroupedAggregation :=
  mkGrouped ∅ 0 TriggerByTimestamp (WinCount tInterval) 0.

Definition with_table (m : gmap K AggregateState) (g : GroupedAggregation) : GroupedAggregation :=
  mkGrouped m (ga_LastTriggerTime g) (ga_TriggerType g) (ga_TriggerInterval g) (ga_Counter g).
Definition ga_with_trigger (last cnt : Z) (g : GroupedAggregation) : GroupedAggregation :=
  mkGrouped (mAggregateTable g) last (ga_TriggerType g) (ga_TriggerInterval g) cnt.

Definition elementTime (data : E) : Z :=
  match mTimestampExtractor with Some f => f data | None => 0 end.

Definition produceAggregate (st : AggregateState) (outdated : bool) : result (list (event O) * AggregateState) :=
  '(tn, x) ← mFinalFunc (as_aggr st); Ok ([Data tn outdated], set_aggr x st).

Definition is_TriggerAll (t : AggregationTriggerType) : bool := match t with TriggerAll => true | _ => false end.

Definition processNewAggregationGroup (grpKey : K) (data : E) (g : GroupedAggregation)
    : result (list (event O) * GroupedAggregation) :=
  let newAggrState := setTimestamp (elementTime data) AggregateState_new in
  x ← mIterateFunc data grpKey (as_aggr newAggrState) false;
  let newAggrState := set_aggr x newAggrState in
  '(out, st) ← (if is_TriggerAll (ga_TriggerType g) then produceAggregate newAggrState false
                else Ok ([], newAggrState));
  Ok (out, with_table (<[grpKey := st]> (mAggregateTable g)) g).

Definition updateAggregationGroup (grpKey : K) (data : E) (outdated : bool) (aggrState : AggregateState)
    (g : GroupedAggregation) : result (list (event O) * GroupedAggregation) :=
  let aggrState := setTimestamp (elementTime data) aggrState in
  let aggrState := updateCounter (if outdated then -1 else 1) aggrState in
  let outdatedAggregate := getCounter aggrState =? 0 in
  x ← mIterateFunc data grpKey (as_aggr aggrState) outdated;
  let aggrState := set_aggr x aggrState in
  '(out, st) ← (if is_TriggerAll (ga_TriggerType g) then produceAggregate aggrState outdated
                else Ok ([], aggrState));
  Ok (out, if outdatedAggregate then with_table (delete grpKey (mAggregateTable g)) g
           else with_table (<[grpKey := st]> (mAggregateTable g)) g).

(** [notificationCallback] takes the operator's mutex; it is not recursive,
    so called with the mutex held it never returns *)
Definition ga_notificationCallback (mutex_held : bool) (g : GroupedAggregation)
    : result (list (event O) * GroupedAggregation) :=
  if mutex_held then Err Waits else Ok ([Punct SlideExpired], g).

(** [processDataElement] holds the mutex from its first line on *)
Definition ga_processDataElement (data : E) (outdated : bool) (g : GroupedAggregation)
    : result (list (event O) * GroupedAggregation) :=
  let grpKey := mGroupByFunc data in
  '(out, g) ← (match mAggregateTable g !! grpKey with
               | None => if outdated then Ok ([], g) else processNewAggregationGroup grpKey data g
               | Some st => updateAggregationGroup grpKey data outdated st g
               end);
  match ga_TriggerType g with
  | TriggerByCount =>
      n ← get_count (ga_TriggerInterval g);
      let cnt := u32 (ga_Counter g + 1) in
      let g := ga_with_trigger (ga_LastTriggerTime g) cnt g in
      if cnt =? n then
        '(out', g) ← ga_notificationCallback true g;
        Ok (out ++ out', ga_with_trigger (ga_LastTriggerTime g) 0 g)
      else Ok (out, g)
  | TriggerByTimestamp =>
      ts ← call_extractor mTimestampExtractor data;
      n ← get_time (ga_TriggerInterval g);
      if ts - ga_LastTriggerTime g >=? n then
        '(out', g) ← ga_notificationCallback true g;
        Ok (out ++ out', ga_with_trigger ts (ga_Counter g) g)
      else Ok (out, g)
  | _ => Ok (out, g)
  end.

Definition ga_processPunctuation (p : PType) (g : GroupedAggregation) : list (event O) * GroupedAggregation :=
  ([Punct p], g).
End GroupedAggregation.
Arguments AggregateState : clear implicits.
Arguments GroupedAggregation K S {_ _}.

(** ** Properties *)

Section grouped.
Context {E A K S Tres : Type} `{Countable A, Countable K} {F : AggregateFunc S A Tres} {L : AggregateLaws A S Tres}.
Context (key : E -> K) (val : E -> A) (ts : option (E -> Z)).

Definition grouped_step : E -> bool -> GroupedAggregation K S -> result (list (event Tres) * GroupedAggregation K S) :=
  ga_processDataElement key (fun e _ s o => iterate (val e) o s) value ts init.

(** the specification: a window of values per group, none of them empty *)
Definition window_of (W : gmap K (gmultiset A)) (k : K) : gmultiset A := default ∅ (W !! k).

Definition represents_group (st : option (AggregateState S)) (M : option (gmultiset A)) : Prop :=
  match st, M with
  | Some st, Some M => af_inv M (as_aggr st) /\ af_ok M /\ M <> ∅ /\ as_counter st = Z.of_nat (size M) /\ count_fits M
  | None, None => True
  | _, _ => False
  end.

Definition represents (g : GroupedAggregation K S) (W : gmap K (gmultiset A)) : Prop :=
  ga_TriggerType g = TriggerAll /\ forall k, represents_group (mAggregateTable g !! k) (W !! k).

Lemma represents_insert g W k st M :
  represents g W -> represents_group (Some st) (Some M) ->
  represents (with_table (<[k := st]> (mAggregateTable g)) g) (<[k := M]> W).
Proof.
  intros [Ht Hg] Hst. split; [done|]. intros k'. cbn. rewrite !lookup_insert. by case_decide.
Qed.

Lemma represents_delete g W k :
  represents g W -> represents (with_table (delete k (mAggregateTable g)) g) (delete k W).
Proof.
  intros [Ht Hg]. split; [done|]. intros k'. cbn. rewrite !lookup_delete. by case_decide.
Qed.

(** an update of an existing group, once its state has been iterated *)
Lemma update_group g st e o s' :
  ga_TriggerType g = TriggerAll -> mAggregateTable g !! key e = Some st ->
  iterate (val e) o (as_aggr st) = Ok s' ->
  grouped_step e o g =
    ('(v, s'') ← value s';
     let cnt := u32 (as_counter st + if o then -1 else 1) in
     Ok ([Data v o],
         if s32 cnt =? 0 then with_table (delete (key e) (mAggregateTable g)) g
         else with_table (<[key e := mkAggregateState s'' (elementTime ts e) cnt]> (mAggregateTable g)) g)).
Proof.
  intros Ht Hst Hit. unfold grouped_step, ga_processDataElement. rewrite Hst.
  unfold updateAggregationGroup. cbn [as_aggr setTimestamp updateCounter]. rewrite Hit.
  run_step. rewrite Ht. cbn [is_TriggerAll]. unfold produceAggregate. cbn [as_aggr set_aggr].
  destruct (value s') as [[v s'']|]; [|done]. unfold getCounter, updateCounter, setTimestamp, set_aggr. cbn. destruct o; cbn; destruct (s32 _ =? 0); cbn; rewrite ?Ht; done.
Qed.

(** adding a value to a window, of a new group or of one that exists *)
Lemma group_add g W e : represents g W ->
  let M' := window_of W (key e) ⊎ {[+ val e +]} in
  af_ok M' -> count_fits M' ->
  exists v g', grouped_step e false g = Ok ([Data v false], g') /\ af_spec M' v /\ represents g' (<[key e := M']> W).
Proof.
  intros Hrep M' Hok' Hfit'. pose proof Hrep as [Ht Hg]. specialize (Hg (key e)). subst M'. unfold window_of in *.
  destruct (mAggregateTable g !! key e) as [st|] eqn:Est, (W !! key e) as [M|] eqn:EM; try done; cbn [from_option id] in *.
  - destruct Hg as (Hinv & Hok & Hne & Hcnt & Hfit).
    destruct (af_add M (as_aggr st) (val e) Hinv Hok') as (s' & Hit & Hinv').
    destruct (af_value _ s' Hinv' Hok') as (v & Hv & Hspec); [multiset_solver|].
    rewrite (update_group g st e false s' Ht Est Hit), Hv. run_step. cbv beta iota zeta.
    unfold count_fits in Hfit'. rewrite size_add in Hfit'.
    rewrite Hcnt, u32_small by word_lia. rewrite s32_small by word_lia.
    rewrite (proj2 (Z.eqb_neq _ 0)) by lia. exists v. eexists. split; [reflexivity|]. split; [done|].
    apply represents_insert; [done|]. cbn. rewrite size_add. unfold count_fits. rewrite size_add.
    split_and!; [done|done|multiset_solver|done|done].
  - assert (∅ ⊎ {[+ val e +]} <> (∅ : gmultiset A)) as Hne by (clear; multiset_solver).
    destruct (af_add ∅ init (val e) af_init Hok') as (s' & Hit & Hinv').
    destruct (af_value _ s' Hinv' Hok' Hne) as (v & Hv & Hspec).
    unfold grouped_step, ga_processDataElement. rewrite Est. unfold processNewAggregationGroup.
    cbn [as_aggr setTimestamp AggregateState_new]. rewrite Hit. run_step. rewrite Ht.
    cbn [is_TriggerAll]. unfold produceAggregate. cbn [as_aggr set_aggr]. rewrite Hv. cbn. rewrite Ht.
    exists v. eexists. split; [reflexivity|]. split; [done|].
    apply represents_insert; [done|]. unfold represents_group. split_and!; [done|done|done| |done].
    symmetry. exact (size_add ∅ (val e)).
Qed.

(** retracting one of several values of a window *)
Lemma group_retract g W e : represents g W ->
  let M := window_of W (key e) in let M' := M ∖ {[+ val e +]} in
  val e ∈ M -> M <> {[+ val e +]} -> af_ok M' ->
  exists v g', grouped_step e true g = Ok ([Data v true], g') /\ af_spec M' v /\ represents g' (<[key e := M']> W).
Proof.
  intros Hrep M M' Hx Hne1 Hok'. pose proof Hrep as [Ht Hg]. specialize (Hg (key e)). subst M' M. unfold window_of in *.
  destruct (mAggregateTable g !! key e) as [st|] eqn:Est, (W !! key e) as [M|] eqn:EM; try done; cbn [from_option id] in *; [|multiset_solver].
  destruct Hg as (Hinv & Hok & Hne & Hcnt & Hfit).
  destruct (af_retract M (as_aggr st) (val e) Hinv Hok Hx) as (s' & Hit & Hinv').
  assert (M ∖ {[+ val e +]} <> ∅) as Hne2.
  { intros He. apply Hne1. rewrite (retracted M (val e) Hx), He. multiset_solver. }
  destruct (af_value _ s' Hinv' Hok' Hne2) as (v & Hv & Hspec).
  rewrite (update_group g st e true s' Ht Est Hit), Hv. run_step. cbv beta iota zeta.
  pose proof (size_retract M (val e) Hx) as Hsz. unfold count_fits in Hfit.
  assert (size (M ∖ {[+ val e +]}) <> 0%nat) by (rewrite gmultiset_size_empty_iff; done).
  rewrite Hcnt, u32_small by word_lia. rewrite s32_small by word_lia.
  rewrite (proj2 (Z.eqb_neq _ 0)) by lia. exists v. eexists. split; [reflexivity|]. split; [done|].
  apply represents_insert; [done|]. cbn. unfold count_fits. split_and!; [done|done|done|lia|lia].
Qed.

(** retracting the last value of a window *)
Lemma group_last g W e : represents g W -> window_of W (key e) = {[+ val e +]} ->
  exists s, af_inv ∅ s /\
    grouped_step e true g = ('(v, _) ← value s; Ok ([Data v true], with_table (delete (key e) (mAggregateTable g)) g)) /\
    represents (with_table (delete (key e) (mAggregateTable g)) g) (delete (key e) W).
Proof.
  intros Hrep HM. pose proof Hrep as [Ht Hg]. specialize (Hg (key e)). unfold window_of in *.
  destruct (mAggregateTable g !! key e) as [st|] eqn:Est, (W !! key e) as [M|] eqn:EM; try done; cbn [from_option id] in *.
  subst M.
  destruct Hg as (Hinv & Hok & Hne & Hcnt & Hfit).
  destruct (af_retract _ (as_aggr st) (val e) Hinv Hok) as (s' & Hit & Hinv'); [multiset_solver|].
  exists s'. split; [replace ∅ with ({[+ val e +]} ∖ {[+ val e +]} : gmultiset A) by multiset_solver; done|].
  split; [|by apply represents_delete].
  rewrite (update_group g st e true s' Ht Est Hit). rewrite gmultiset_size_singleton in Hcnt. rewrite Hcnt.
  by destruct (value s') as [[v s'']|].
Qed.

(** retracting from a group that does not exist *)
Lemma group_unknown g W e : represents g W -> window_of W (key e) = ∅ -> grouped_step e true g = Ok ([], g).
Proof.
  intros [Ht Hg] HM. specialize (Hg (key e)). unfold window_of in *.
  destruct (mAggregateTable g !! key e) as [st|] eqn:Est, (W !! key e) as [M|] eqn:EM; try done; cbn [from_option id] in *.
  - by destruct Hg as (_ & _ & ? & _).
  - unfold grouped_step, ga_processDataElement. rewrite Est. cbn. by rewrite Ht.
Qed.

(** Grouped aggregation maintains one aggregate per group.  With every
    element a result is published: adding a value publishes the aggregate of
    its group's window including it, retracting one publishes, flagged
    outdated, the aggregate of what is left, other groups untouched.  A group
    exists exactly as long as its window is not empty; retracting from an
    unknown group publishes nothing.  The last retraction still evaluates
    the emptied state before the group is dropped. *)
Lemma grouped_aggregation_refines (g : GroupedAggregation K S) (W : gmap K (gmultiset A)) (e : E)
  (Hrep : represents g W) :
  let k := key e in let x := val e in let M := window_of W k in
  (af_ok (M ⊎ {[+ x +]}) -> count_fits (M ⊎ {[+ x +]}) ->
     exists v g', grouped_step e false g = Ok ([Data v false], g') /\ af_spec (M ⊎ {[+ x +]}) v /\
       represents g' (<[k := M ⊎ {[+ x +]}]> W)) /\
  (x ∈ M -> M <> {[+ x +]} -> af_ok (M ∖ {[+ x +]}) ->
     exists v g', grouped_step e true g = Ok ([Data v true], g') /\ af_spec (M ∖ {[+ x +]}) v /\
       represents g' (<[k := M ∖ {[+ x +]}]> W)) /\
  (M = {[+ x +]} -> exists s, af_inv ∅ s /\
     grouped_step e true g = ('(v, _) ← value s; Ok ([Data v true], with_table (delete k (mAggregateTable g)) g)) /\
     represents (with_table (delete k (mAggregateTable g)) g) (delete k W)) /\
  (M = ∅ -> grouped_step e true g = Ok ([], g)).
Proof.
  cbv zeta. split_and!.
  - by apply group_add.
  - by apply group_retract.
  - by apply group_last.
  - by apply group_unknown.
Qed.
End grouped.

Section triggers.
Context {E O S : Type} (it : E -> S -> S) (fin : S -> O).

Definition aggr_step (e : E) : Aggregation S -> result (list (event O) * Aggregation S) :=
  processDataElement (fun e s _ => Ok (it e s)) (fun s => Ok (fin s, s)) None e false.

Definition count_state (n : nat) (s : S) (c : nat) : Aggregation S :=
  mkAggregation s 0 TriggerByCount (WinCount (Z.of_nat n)) (Z.of_nat c).

Lemma count_step n e s c :
  Z.of_nat n < 2^32 -> (c < n)%nat ->
  aggr_step e (count_state n s c) =
    if decide (Datatypes.S c = n) then Ok ([Data (fin (it e s)) false; Punct SlideExpired], count_state n (it e s) 0)
    else Ok ([], count_state n (it e s) (Datatypes.S c)).
Proof.
  intros Hn Hc. unfold aggr_step, processDataElement, count_state.
  cbn [mbind result_bind negb with_state mTriggerType mTriggerInterval get_count mCounter with_trigger mLastTriggerTime mAggrState].
  replace (Z.of_nat c + 1) with (Z.of_nat (Datatypes.S c)) by lia. rewrite u32_small by word_lia.
  case_decide as Hd.
  - by rewrite (proj2 (Z.eqb_eq _ _)) by lia.
  - by rewrite (proj2 (Z.eqb_neq _ _)) by lia.
Qed.

Lemma count_trigger_fill (n : nat) xs s c :
  Z.of_nat n < 2^32 -> (c + length xs < n)%nat ->
  run aggr_step xs (count_state n s c) = Ok ([], count_state n (fold_left (fun s e => it e s) xs s) (c + length xs)).
Proof.
  intros Hn. revert s c. induction xs as [|x xs IH]; intros s c Hlen; cbn [run length fold_left].
  - by rewrite Nat.add_0_r.
  - cbn [length] in Hlen. rewrite count_step by lia. rewrite decide_False by lia. run_step.
    rewrite IH by lia. cbn. by rewrite Nat.add_succ_r.
Qed.

Lemma count_trigger_round (n : nat) xs s :
  Z.of_nat n < 2^32 -> length xs = n -> n <> 0%nat ->
  run aggr_step xs (count_state n s 0) =
    Ok ([Data (fin (fold_left (fun s e => it e s) xs s)) false; Punct SlideExpired],
        count_state n (fold_left (fun s e => it e s) xs s) 0).
Proof.
  intros Hn Hlen Hne. destruct xs as [|x xs _] using rev_ind; [by subst|].
  rewrite length_app in Hlen. cbn in Hlen.
  pose proof (count_trigger_fill n xs s 0 Hn ltac:(lia)) as Hfill.
  pose proof (count_step n x (fold_left (fun s e => it e s) xs s) (length xs) Hn ltac:(lia)) as Hstep.
  rewrite decide_True in Hstep by lia. rewrite (run_snoc _ _ _ _ _ _ _ _ Hfill Hstep).
  by rewrite fold_left_app.
Qed.

Fixpoint round_outputs (chunks : list (list E)) (s : S) : list (event O) :=
  match chunks with
  | [] => []
  | c :: rest =>
      let s := fold_left (fun s e => it e s) c s in
      Data (fin s) false :: Punct SlideExpired :: round_outputs rest s
  end.

(** the grouped operator with the same functions *)
Definition grouped_count_step (key : E -> Z) (s0 : S) (e : E) :
    GroupedAggregation Z S -> result (list (event O) * GroupedAggregation Z S) :=
  ga_processDataElement key (fun e _ s _ => Ok (it e s)) (fun s => Ok (fin s, s)) None s0 e false.

Lemma grouped_count_step_spec key s0 n e (g : GroupedAggregation Z S) c :
  ga_TriggerType g = TriggerByCount -> ga_TriggerInterval g = WinCount (Z.of_nat n) -> ga_Counter g = Z.of_nat c ->
  Z.of_nat n < 2^32 -> (c < n)%nat ->
  if decide (Datatypes.S c = n) then grouped_count_step key s0 e g = Err Waits
  else exists g', grouped_count_step key s0 e g = Ok ([], g') /\
    ga_TriggerType g' = TriggerByCount /\ ga_TriggerInterval g' = WinCount (Z.of_nat n) /\ ga_Counter g' = Z.of_nat (Datatypes.S c).
Proof.
  intros Ht Hi Hc Hn Hlt. unfold grouped_count_step, ga_processDataElement.
  assert (exists m, (match mAggregateTable g !! key e with
     | None => processNewAggregationGroup (fun e _ s _ => Ok (it e s)) (fun s => Ok (fin s, s)) None s0 (key e) e g
     | Some st => updateAggregationGroup (fun e _ s _ => Ok (it e s)) (fun s => Ok (fin s, s)) None (key e) e false st g
     end) = Ok ([] : list (event O), with_table m g)) as [m Hm].
  { destruct (mAggregateTable g !! key e) as [st|].
    - unfold updateAggregationGroup. run_step. rewrite Ht. cbn.
      destruct (_ =? 0); by eexists.
    - unfold processNewAggregationGroup. run_step. rewrite Ht. by eexists. }
  rewrite Hm. cbn [mbind result_bind ga_TriggerType with_table]. rewrite Ht.
  cbn [ga_TriggerInterval with_table ga_Counter ga_LastTriggerTime ga_with_trigger mAggregateTable]. rewrite Hi, Hc.
  cbn [get_count mbind result_bind].
  replace (Z.of_nat c + 1) with (Z.of_nat (Datatypes.S c)) by lia. rewrite u32_small by word_lia.
  case_decide as Hd.
  - by rewrite (proj2 (Z.eqb_eq _ _)) by lia.
  - rewrite (proj2 (Z.eqb_neq _ _)) by lia. eexists. split; [reflexivity|]. done.
Qed.

Lemma grouped_blocks key s0 n xs (g : GroupedAggregation Z S) c :
  ga_TriggerType g = TriggerByCount -> ga_TriggerInterval g = WinCount (Z.of_nat n) -> ga_Counter g = Z.of_nat c ->
  Z.of_nat n < 2^32 -> (c < n)%nat -> (c + length xs = n)%nat ->
  run (grouped_count_step key s0) xs g = Err Waits.
Proof.
  revert g c. induction xs as [|x xs IH]; intros g c Ht Hi Hc Hn Hlt Hlen; cbn [length] in Hlen; [lia|].
  cbn [run]. pose proof (grouped_count_step_spec key s0 n x g c Ht Hi Hc Hn Hlt) as Hstep.
  case_decide as Hd; [by rewrite Hstep|]. destruct Hstep as (g' & -> & Ht' & Hi' & Hc'). run_step.
  rewrite (IH g' (Datatypes.S c)); try done; lia.
Qed.

(** The count trigger.  [Aggregation] with an interval of [n] publishes,
    after every [n]-th element, the aggregate of everything received so far,
    and a [SlideExpired]; nothing in between.  [GroupedAggregation] with the
    same trigger blocks on its [n]-th element for ever: it asks for its own
    mutex while holding it. *)
Lemma count_trigger (n : nat) (chunks : list (list E)) (s : S)
  (Hn : Z.of_nat n < 2^32) (Hpos : n <> 0%nat) (Hfull : forall c, c ∈ chunks -> length c = n) :
  (exists a, run aggr_step (concat chunks) (Aggregation_init s TriggerByCount (Z.of_nat n)) = Ok (round_outputs chunks s, a)) /\
  forall (key : E -> Z) (xs : list E), length xs = n ->
    run (grouped_count_step key s) xs (GroupedAggregation_init TriggerByCount (Z.of_nat n)) = Err Waits.
Proof.
  split.
  - change (Aggregation_init s TriggerByCount (Z.of_nat n)) with (count_state n s 0).
    revert s. induction chunks as [|c chunks IH]; intros s; [by eexists|]. cbn [concat round_outputs].
    assert (length c = n) as Hc by (apply Hfull; by left).
    destruct (IH ltac:(intros c' Hc'; apply Hfull; by right) (fold_left (fun s e => it e s) c s)) as [a Ha].
    exists a. rewrite run_app, (count_trigger_round n c s Hn Hc Hpos). run_step. by rewrite Ha.
  - intros key xs Hlen. apply (grouped_blocks key s n xs _ 0); try done; lia.
Qed.
End triggers.

(** one group, 1, holding the value 5 *)
Definition demo_grouped : GroupedAggregation Z AggrSum :=
  mkGrouped {[1 := mkAggregateState (mkSum 5) 0 1]} 0 TriggerAll (WinCount 0) 0.

Lemma demo_represents : represents demo_grouped {[1 := {[+ 5 +]}]}.
Proof.
  split; [done|]. intros k. cbn [mAggregateTable demo_grouped]. rewrite !lookup_singleton. case_decide; [|done].
  cbn. split_and!; [by vm_compute|by vm_compute|apply gmultiset_non_empty_singleton|by vm_compute|by vm_compute].
Qed.

Lemma grouped_aggregation_refines_witness :
  exists v g', grouped_step (fun e : Z * Z => e.1) snd None (1, 7) false demo_grouped = Ok ([Data v false], g') /\ v = 12.
Proof.
  destruct (grouped_aggregation_refines (fun e : Z * Z => e.1) snd None demo_grouped _ (1, 7) demo_represents)
    as (Hadd & _).
  destruct Hadd as (v & g' & Hrun & Hspec & _).
  - by vm_compute.
  - by vm_compute.
  - exists v, g'. split; [exact Hrun|]. rewrite Hspec. vm_compute. reflexivity.
Defined.

Lemma count_trigger_witness :
  (exists a, run (aggr_step Z.add (fun s => s)) [1; 2; 3; 4] (Aggregation_init 0 TriggerByCount 2)
     = Ok ([Data 3 false; Punct SlideExpired; Data 10 false; Punct SlideExpired], a)) /\
  run (grouped_count_step Z.add (fun s => s) (fun e => e mod 2) 0) [1; 2] (GroupedAggregation_init TriggerByCount 2) = Err Waits.
Proof.
  destruct (count_trigger Z.add (fun s : Z => s) 2 [[1; 2]; [3; 4]] 0 ltac:(lia) ltac:(lia)) as [H1 H2].
  { intros c Hc. rewrite !elem_of_cons in Hc. by destruct Hc as [->|[->|[]%elem_of_nil]]. }
  split; [exact H1|]. exact (H2 (fun e => e mod 2) [1; 2] eq_refl).
Defined.
