(* ===== verification/Aggregators.v ===== *)
(** * Aggregators: several aggregate functions over the columns of an element

    [Aggregator1] to [Aggregator4] of [src/qop/AggregateStateBase.hpp]: the
    state of an aggregation operator made of one to four aggregate functions,
    each over a column.  An aggregator satisfies the contract of [Aggregates.v]
    when its functions do, so the grouped aggregation of [Aggregation.v] runs
    with it. *)

From S2P Require Import Prelude Stream OrderedMap Aggregates Windows Aggregation.

(** ** The four classes; a column is the accessor of an attribute *)

Section Aggregator1.
Context {E A1 S1 R1 : Type} {F1 : AggregateFunc S1 A1 R1} (col1 : E -> A1).

Record Aggregator1 := mkAggregator1 { a1_1 : S1 }.

#[export] Instance Aggregator1_func : AggregateFunc Aggregator1 E R1 := {
  init := mkAggregator1 init;
  iterate tp outdated st :=
    aggr1 ← iterate (col1 tp) outdated (a1_1 st);
    Ok (mkAggregator1 aggr1);
  value st :=
    '(v1, aggr1) ← value (a1_1 st);
    Ok (v1, mkAggregator1 aggr1);
}.
End Aggregator1.
Arguments Aggregator1 : clear implicits.

Section Aggregator2.
Context {E A1 S1 R1 A2 S2 R2 : Type} {F1 : AggregateFunc S1 A1 R1} (col1 : E -> A1) {F2 : AggregateFunc S2 A2 R2} (col2 : E -> A2).

Record Aggregator2 := mkAggregator2 { a2_1 : S1; a2_2 : S2 }.

#[export] Instance Aggregator2_func : AggregateFunc Aggregator2 E (R1 * R2) := {
  init := mkAggregator2 init init;
  iterate tp outdated st :=
    aggr1 ← iterate (col1 tp) outdated (a2_1 st);
    aggr2 ← iterate (col2 tp) outdated (a2_2 st);
    Ok (mkAggregator2 aggr1 aggr2);
  value st :=
    '(v1, aggr1) ← value (a2_1 st);
    '(v2, aggr2) ← value (a2_2 st);
    Ok ((v1, v2), mkAggregator2 aggr1 aggr2);
}.
End Aggregator2.
Arguments Aggregator2 : clear implicits.

Section Aggregator3.
Context {E A1 S1 R1 A2 S2 R2 A3 S3 R3 : Type} {F1 : AggregateFunc S1 A1 R1} (col1 : E -> A1)
  {F2 : AggregateFunc S2 A2 R2} (col2 : E -> A2) {F3 : AggregateFunc S3 A3 R3} (col3 : E -> A3).

Record Aggregator3 := mkAggregator3 { a3_1 : S1; a3_2 : S2; a3_3 : S3 }.

#[export] Instance Aggregator3_func : AggregateFunc Aggregator3 E (R1 * R2 * R3) := {
  init := mkAggregator3 init init init;
  iterate tp outdated st :=
    aggr1 ← iterate (col1 tp) outdated (a3_1 st);
    aggr2 ← iterate (col2 tp) outdated (a3_2 st);
    aggr3 ← iterate (col3 tp) outdated (a3_3 st);
    Ok (mkAggregator3 aggr1 aggr2 aggr3);
  value st :=
    '(v1, aggr1) ← value (a3_1 st);
    '(v2, aggr2) ← value (a3_2 st);
    '(v3, aggr3) ← value (a3_3 st);
    Ok ((v1, v2, v3), mkAggregator3 aggr1 aggr2 aggr3);
}.
End Aggregator3.
Arguments Aggregator3 : clear implicits.

Section Aggregator4.
Context {E A1 S1 R1 A2 S2 R2 A3 S3 R3 A4 S4 R4 : Type} {F1 : AggregateFunc S1 A1 R1} (col1 : E -> A1)
  {F2 : AggregateFunc S2 A2 R2} (col2 : E -> A2) {F3 : AggregateFunc S3 A3 R3} (col3 : E -> A3)
  {F4 : AggregateFunc S4 A4 R4} (col4 : E -> A4).

Record Aggregator4 := mkAggregator4 { a4_1 : S1; a4_2 : S2; a4_3 : S3; a4_4 : S4 }.

#[export] Instance Aggregator4_func : AggregateFunc Aggregator4 E (R1 * R2 * R3 * R4) := {
  init := mkAggregator4 init init init init;
  iterate tp outdated st :=
    aggr1 ← iterate (col1 tp) outdated (a4_1 st);
    aggr2 ← iterate (col2 tp) outdated (a4_2 st);
    aggr3 ← iterate (col3 tp) outdated (a4_3 st);
    aggr4 ← iterate (col4 tp) outdated (a4_4 st);
    Ok (mkAggregator4 aggr1 aggr2 aggr3 aggr4);
  value st :=
    '(v1, aggr1) ← value (a4_1 st);
    '(v2, aggr2) ← value (a4_2 st);
    '(v3, aggr3) ← value (a4_3 st);
    '(v4, aggr4) ← value (a4_4 st);
    Ok ((v1, v2, v3, v4), mkAggregator4 aggr1 aggr2 aggr3 aggr4);
}.
End Aggregator4.
Arguments Aggregator4 : clear implicits.

(** ** An aggregator runs its functions side by side *)

Definition column {E A} (col : E -> A) (h : list (E * bool)) : list (A * bool) := (fun e => (col e.1, e.2)) <$> h.

Section side_by_side.
Context {E A1 S1 R1 A2 S2 R2 A3 S3 R3 A4 S4 R4 : Type} {F1 : AggregateFunc S1 A1 R1} (col1 : E -> A1)
  {F2 : AggregateFunc S2 A2 R2} (col2 : E -> A2) {F3 : AggregateFunc S3 A3 R3} (col3 : E -> A3)
  {F4 : AggregateFunc S4 A4 R4} (col4 : E -> A4).

Ltac side_by_side := intros h; induction h as [|[e o] h IH]; intros st st'; cbn [iterates column fmap list_fmap];
  [by destruct st, st'; cbn; naive_solver|cbn].

Lemma iterates1 h st st' : iterates (F := Aggregator1_func (F1 := F1) col1) h st = Ok st' <->
  iterates (column col1 h) (a1_1 st) = Ok (a1_1 st').
Proof.
  revert h st st'. side_by_side. destruct (iterate (col1 e) o (a1_1 st)); run_step; [|done]. by rewrite IH.
Qed.

Lemma iterates2 h st st' : iterates (F := Aggregator2_func (F1 := F1) (F2 := F2) col1 col2) h st = Ok st' <->
  iterates (column col1 h) (a2_1 st) = Ok (a2_1 st') /\ iterates (column col2 h) (a2_2 st) = Ok (a2_2 st').
Proof.
  revert h st st'. side_by_side. destruct (iterate (col1 e) o (a2_1 st)), (iterate (col2 e) o (a2_2 st)); run_step; [|by split; [|intros ?; destruct_and?]..].
  by rewrite IH.
Qed.

Lemma iterates3 h st st' : iterates (F := Aggregator3_func (F1 := F1) (F2 := F2) (F3 := F3) col1 col2 col3) h st = Ok st' <->
  iterates (column col1 h) (a3_1 st) = Ok (a3_1 st') /\ iterates (column col2 h) (a3_2 st) = Ok (a3_2 st') /\
  iterates (column col3 h) (a3_3 st) = Ok (a3_3 st').
Proof.
  revert h st st'. side_by_side.
  destruct (iterate (col1 e) o (a3_1 st)), (iterate (col2 e) o (a3_2 st)), (iterate (col3 e) o (a3_3 st)); run_step; [|by split; [|intros ?; destruct_and?]..].
  by rewrite IH.
Qed.

Lemma iterates4 h st st' : iterates (F := Aggregator4_func (F1 := F1) (F2 := F2) (F3 := F3) (F4 := F4) col1 col2 col3 col4) h st = Ok st' <->
  iterates (column col1 h) (a4_1 st) = Ok (a4_1 st') /\ iterates (column col2 h) (a4_2 st) = Ok (a4_2 st') /\
  iterates (column col3 h) (a4_3 st) = Ok (a4_3 st') /\ iterates (column col4 h) (a4_4 st) = Ok (a4_4 st').
Proof.
  revert h st st'. side_by_side.
  destruct (iterate (col1 e) o (a4_1 st)), (iterate (col2 e) o (a4_2 st)), (iterate (col3 e) o (a4_3 st)),
    (iterate (col4 e) o (a4_4 st)); run_step; [|by split; [|intros ?; destruct_and?]..].
  by rewrite IH.
Qed.

(** the value after a history: each function's own after the history of its
    column; and the aggregator fails exactly when one of them does *)
Lemma aggregator4_values h v1 v2 v3 v4 :
  aggregate (Aggregator4_func (F1 := F1) (F2 := F2) (F3 := F3) (F4 := F4) col1 col2 col3 col4) h = Ok (v1, v2, v3, v4) <->
  aggregate F1 (column col1 h) = Ok v1 /\ aggregate F2 (column col2 h) = Ok v2 /\
  aggregate F3 (column col3 h) = Ok v3 /\ aggregate F4 (column col4 h) = Ok v4.
Proof.
  unfold aggregate. split.
  - destruct (iterates h init) as [st|] eqn:Hi; [|done]. apply iterates4 in Hi as (E1 & E2 & E3 & E4). cbn [init Aggregator4_func a4_1 a4_2 a4_3 a4_4] in *.
    rewrite E1, E2, E3, E4. run_step. cbn [value Aggregator4_func].
    destruct (value (a4_1 st)) as [[]|], (value (a4_2 st)) as [[]|], (value (a4_3 st)) as [[]|], (value (a4_4 st)) as [[]|]; run_step; naive_solver.
  - intros (H1 & H2 & H3 & H4).
    destruct (iterates (column col1 h) init) as [s1|] eqn:E1, (iterates (column col2 h) init) as [s2|] eqn:E2,
      (iterates (column col3 h) init) as [s3|] eqn:E3, (iterates (column col4 h) init) as [s4|] eqn:E4; try done.
    assert (iterates (F := Aggregator4_func (F1 := F1) (F2 := F2) (F3 := F3) (F4 := F4) col1 col2 col3 col4) h init = Ok (mkAggregator4 s1 s2 s3 s4)) as ->
      by (by apply iterates4).
    revert H1 H2 H3 H4. run_step. cbn.
    destruct (value s1) as [[]|], (value s2) as [[]|], (value s3) as [[]|], (value s4) as [[]|]; run_step; cbn; naive_solver.
Qed.
End side_by_side.

(** ** The contract *)

(** the window of a column *)
Section column_window.
Context {E A S R : Type} `{Countable E, Countable A} {F : AggregateFunc S A R} {L : AggregateLaws A S R} (col : E -> A).
Implicit Types M : gmultiset E.

Definition win M : gmultiset A := gmultiset_map col M.

Lemma win_add M x : win (M ⊎ {[+ x +]}) = win M ⊎ {[+ col x +]}.
Proof. unfold win. by rewrite gmultiset_map_disj_union, gmultiset_map_singleton. Qed.

Lemma win_elem M x : x ∈ M -> col x ∈ win M.
Proof. intros Hx. apply elem_of_gmultiset_map. by exists x. Qed.

Lemma win_retract M x : x ∈ M -> win (M ∖ {[+ x +]}) = win M ∖ {[+ col x +]}.
Proof.
  intros Hx. rewrite (retracted M x Hx) at 2. rewrite win_add. multiset_solver.
Qed.

Lemma win_size M : size (win M) = size M.
Proof.
  induction M as [|x M IH] using gmultiset_ind; [done|].
  rewrite (gmultiset_disj_union_comm {[+ x +]}), win_add, !gmultiset_size_disj_union, IH, !gmultiset_size_singleton. done.
Qed.

Lemma win_nonempty M : M <> ∅ -> win M <> ∅.
Proof. rewrite <- !gmultiset_size_empty_iff, win_size. done. Qed.

Lemma col_init : af_inv (win ∅) init.
Proof. apply af_init. Qed.

Lemma col_add M s x : af_inv (win M) s -> af_ok (win (M ⊎ {[+ x +]})) ->
  exists s', iterate (col x) false s = Ok s' /\ af_inv (win (M ⊎ {[+ x +]})) s'.
Proof. rewrite win_add. apply af_add. Qed.

Lemma col_retract M s x : x ∈ M -> af_inv (win M) s -> af_ok (win M) ->
  exists s', iterate (col x) true s = Ok s' /\ af_inv (win (M ∖ {[+ x +]})) s'.
Proof. intros Hx Hi Ho. rewrite win_retract by done. by apply af_retract; [..|apply win_elem]. Qed.

Lemma col_value M s : M <> ∅ -> af_inv (win M) s -> af_ok (win M) ->
  exists v, value s = Ok (v, s) /\ af_spec (win M) v.
Proof. intros Hne Hi Ho. by apply af_value; [..|apply win_nonempty]. Qed.
End column_window.

(** the laws of an aggregator, column by column *)
Ltac aggregator_laws :=
  lazymatch goal with
  | |- forall M s x, _ -> _ -> x ∈ M -> _ => intros M s x Hi Ho Hx; destruct_and?;
      repeat match goal with H : af_inv (win ?c M) ?st, H' : af_ok (win ?c M) |- _ =>
        destruct (col_retract c M st x Hx H H') as (? & ? & ?); clear H H' end
  | |- forall M s, _ -> _ -> M <> ∅ -> _ => intros M s Hi Ho Hne; destruct_and?;
      repeat match goal with H : af_inv (win ?c M) ?st, H' : af_ok (win ?c M) |- _ =>
        destruct (col_value c M st Hne H H') as (? & ? & ?); clear H H' end; destruct s
  | |- forall M s x, _ -> _ -> _ => intros M s x Hi Ho; destruct_and?;
      repeat match goal with H : af_inv (win ?c M) ?st, H' : af_ok (win ?c _) |- _ =>
        destruct (col_add c M st x H H') as (? & ? & ?); clear H H' end
  | |- _ => split_and?; apply col_init
  end; cbn in *; try (repeat match goal with H : _ = Ok _ |- _ => rewrite H; clear H; cbn end);
  try (eexists; split; [reflexivity|by cbn]).

Section laws.
Context {E A1 S1 R1 A2 S2 R2 A3 S3 R3 A4 S4 R4 : Type} `{Countable E, Countable A1, Countable A2, Countable A3, Countable A4}.
Context {F1 : AggregateFunc S1 A1 R1} {L1 : AggregateLaws A1 S1 R1} (col1 : E -> A1)
  {F2 : AggregateFunc S2 A2 R2} {L2 : AggregateLaws A2 S2 R2} (col2 : E -> A2)
  {F3 : AggregateFunc S3 A3 R3} {L3 : AggregateLaws A3 S3 R3} (col3 : E -> A3)
  {F4 : AggregateFunc S4 A4 R4} {L4 : AggregateLaws A4 S4 R4} (col4 : E -> A4).

#[export, refine] Instance Aggregator1_laws : AggregateLaws E (Aggregator1 S1) R1 (F := Aggregator1_func col1) := {
  af_inv M s := af_inv (win col1 M) (a1_1 s);
  af_ok M := af_ok (win col1 M);
  af_spec M v := af_spec (win col1 M) v;
}.
Proof. all: aggregator_laws. Defined.

#[export, refine] Instance Aggregator2_laws : AggregateLaws E (Aggregator2 S1 S2) (R1 * R2) (F := Aggregator2_func col1 col2) := {
  af_inv M s := af_inv (win col1 M) (a2_1 s) /\ af_inv (win col2 M) (a2_2 s);
  af_ok M := af_ok (win col1 M) /\ af_ok (win col2 M);
  af_spec M v := af_spec (win col1 M) v.1 /\ af_spec (win col2 M) v.2;
}.
Proof. all: aggregator_laws. Defined.

#[export, refine] Instance Aggregator3_laws : AggregateLaws E (Aggregator3 S1 S2 S3) (R1 * R2 * R3) (F := Aggregator3_func col1 col2 col3) := {
  af_inv M s := af_inv (win col1 M) (a3_1 s) /\ af_inv (win col2 M) (a3_2 s) /\ af_inv (win col3 M) (a3_3 s);
  af_ok M := af_ok (win col1 M) /\ af_ok (win col2 M) /\ af_ok (win col3 M);
  af_spec M v := af_spec (win col1 M) v.1.1 /\ af_spec (win col2 M) v.1.2 /\ af_spec (win col3 M) v.2;
}.
Proof. all: aggregator_laws. Defined.

#[export, refine] Instance Aggregator4_laws :
  AggregateLaws E (Aggregator4 S1 S2 S3 S4) (R1 * R2 * R3 * R4) (F := Aggregator4_func col1 col2 col3 col4) := {
  af_inv M s := af_inv (win col1 M) (a4_1 s) /\ af_inv (win col2 M) (a4_2 s) /\ af_inv (win col3 M) (a4_3 s) /\ af_inv (win col4 M) (a4_4 s);
  af_ok M := af_ok (win col1 M) /\ af_ok (win col2 M) /\ af_ok (win col3 M) /\ af_ok (win col4 M);
  af_spec M v := af_spec (win col1 M) v.1.1.1 /\ af_spec (win col2 M) v.1.1.2 /\ af_spec (win col3 M) v.1.2 /\ af_spec (win col4 M) v.2;
}.
Proof. all: aggregator_laws. Defined.
End laws.

(** ** Whole streams through the grouped aggregation *)

Section grouped_run.
Context {E A K S Tres : Type} `{Countable A, Countable K} {F : AggregateFunc S A Tres} {L : AggregateLaws A S Tres}.
Context (key : E -> K) (val : E -> A) (ts : option (E -> Z)).

(** the history of one group *)
Definition group_history (k : K) (h : list (E * bool)) : list (A * bool) :=
  column val (filter (fun e => key e.1 = k) h).

(** the window of the group of the last element of a history *)
Definition last_window (h : list (E * bool)) (e : E) : option (gmultiset A) := content (group_history (key e) h).

(** every window of every group is admissible, and no retraction lacks its value *)
Definition history_ok (h : list (E * bool)) : Prop :=
  forall h1 e o h2, h = h1 ++ (e, o) :: h2 -> exists M, last_window (h1 ++ [(e, o)]) e = Some M /\ af_ok M /\ count_fits M.

(** what is published for an element: the aggregate of the window it leaves *)
Definition published (h : list (E * bool)) (outs : list (event Tres)) : Prop :=
  length outs = length h /\
  forall i e o, h !! i = Some (e, o) -> exists v, outs !! i = Some (Data v o) /\
    forall M, last_window (take (Datatypes.S i) h) e = Some M -> M <> ∅ -> af_spec M v.

Lemma content_snoc M (h : list (A * bool)) x o : content_from M (h ++ [(x, o)]) =
  M' ← content_from M h; if o then (if decide (x ∈ M') then Some (M' ∖ {[+ x +]}) else None) else Some (M' ⊎ {[+ x +]}).
Proof.
  revert M. induction h as [|[y [|]] h IH]; intros M; cbn; [done| |].
  - case_decide; [apply IH|done].
  - apply IH.
Qed.

Lemma group_history_snoc k h e o :
  group_history k (h ++ [(e, o)]) = group_history k h ++ if decide (key e = k) then [(val e, o)] else [].
Proof.
  unfold group_history, column. rewrite list.filter_app, fmap_app. f_equal. rewrite filter_cons, filter_nil. cbn. by case_decide.
Qed.

(** the groups of a history: those whose window is not empty *)
Definition groups_of (h : list (E * bool)) (W : gmap K (gmultiset A)) : Prop :=
  forall k, exists M, content (group_history k h) = Some M /\ W !! k = if decide (M = ∅) then None else Some M.

Lemma groups_window h W k : groups_of h W -> content (group_history k h) = Some (window_of W k).
Proof.
  intros Hg. destruct (Hg k) as (M & -> & HW). unfold window_of. rewrite HW. f_equal. case_decide; by subst.
Qed.

Lemma groups_step h W e o M : groups_of h W -> last_window (h ++ [(e, o)]) e = Some M ->
  groups_of (h ++ [(e, o)]) (if decide (M = ∅) then delete (key e) W else <[key e := M]> W).
Proof.
  intros Hg HM k. unfold last_window in HM. rewrite group_history_snoc in *. destruct (decide (key e = k)) as [<-|Hne].
  - rewrite decide_True in HM by done. exists M. split; [done|]. case_decide; [by rewrite lookup_delete_eq|by rewrite lookup_insert_eq].
  - rewrite app_nil_r. destruct (Hg k) as (M' & HM' & HW). exists M'. split; [done|].
    rewrite <- HW. destruct (decide (M = ∅)); [by rewrite lookup_delete_ne|by rewrite lookup_insert_ne].
Qed.

(** one element of a history: the state of a group that becomes empty is
    evaluated once more before the group is dropped *)
Lemma grouped_event h W g e o M : groups_of h W -> represents g W -> last_window (h ++ [(e, o)]) e = Some M -> af_ok M -> count_fits M ->
  (exists v g' W', grouped_step key val ts e o g = Ok ([Data v o], g') /\ (M <> ∅ -> af_spec M v) /\ represents g' W' /\ groups_of (h ++ [(e, o)]) W') \/
  (exists s f, grouped_step key val ts e o g = Err f /\ o = true /\ M = ∅ /\ af_inv ∅ s /\ value s = Err f).
Proof.
  intros Hg Hrep HM Hok Hfit. pose proof (groups_step h W e o M Hg HM) as Hg'.
  pose proof HM as HM'. unfold last_window in HM'. rewrite group_history_snoc, decide_True in HM' by done.
  unfold content in HM'. rewrite content_snoc in HM'. pose proof (groups_window h W (key e) Hg) as Hwin. unfold content in Hwin.
  rewrite Hwin in HM'. cbn in HM'. destruct o.
  - destruct (decide (val e ∈ window_of W (key e))) as [Hx|]; [|done]. injection HM' as HM'.
    destruct (decide (M = ∅)) as [He|Hne].
    + destruct (group_last key val ts g W e Hrep) as (s & Hs & Hrun & Hrep').
      { rewrite (retracted _ _ Hx), HM', He. multiset_solver. }
      destruct (value s) as [[v s'']|f] eqn:Hv; [left|right; by exists s, f].
      exists v. do 2 eexists. split; [exact Hrun|]. by split_and!.
    + destruct (group_retract key val ts g W e Hrep Hx) as (v & g' & Hrun & Hspec & Hrep').
      { intros Heq. apply Hne. rewrite <- HM', Heq. multiset_solver. }
      { by rewrite HM'. }
      rewrite HM' in *. left. exists v, g', (<[key e := M]> W). by split_and!.
  - injection HM' as HM'. destruct (decide (M = ∅)) as [He|Hne]; [exfalso; multiset_solver|].
    destruct (group_add key val ts g W e Hrep) as (v & g' & Hrun & Hspec & Hrep'); [by rewrite HM'..|].
    rewrite HM' in *. left. exists v, g', (<[key e := M]> W). by split_and!.
Qed.

Definition grouped_stream_step (x : E * bool) := grouped_step (Tres := Tres) key val ts x.1 x.2.

Lemma history_ok_snoc h e o : history_ok (h ++ [(e, o)]) ->
  history_ok h /\ exists M, last_window (h ++ [(e, o)]) e = Some M /\ af_ok M /\ count_fits M.
Proof.
  intros Hok. split.
  - intros h1 e' o' h2 ->. apply (Hok h1 e' o' (h2 ++ [(e, o)])). by rewrite <- app_assoc.
  - by apply (Hok h e o []).
Qed.

Lemma history_ok_extend h e o M : history_ok h -> last_window (h ++ [(e, o)]) e = Some M -> af_ok M -> count_fits M ->
  history_ok (h ++ [(e, o)]).
Proof.
  intros Hok HM HokM Hfit h1 e' o' h2 Heq. destruct h2 as [|x h2 _] using rev_ind.
  - apply app_inj_tail in Heq as [-> [= -> ->]]. by exists M.
  - rewrite app_comm_cons, app_assoc in Heq. apply app_inj_tail in Heq as [-> _]. by apply (Hok h1 e' o' h2).
Qed.

Lemma published_snoc h outs e o v : published h outs -> (forall M, last_window (h ++ [(e, o)]) e = Some M -> M <> ∅ -> af_spec M v) ->
  published (h ++ [(e, o)]) (outs ++ [Data v o]).
Proof.
  intros [Hlen Hp] Hv. split; [rewrite !length_app; cbn; lia|]. intros i e' o' Hi.
  apply lookup_app_Some in Hi as [Hi|[Hge Hi]].
  - destruct (Hp i e' o' Hi) as (v' & Ho & Hspec). exists v'. pose proof (lookup_lt_Some _ _ _ Hi).
    split; [by apply lookup_app_l_Some|]. by rewrite take_app_le by lia.
  - apply list_lookup_singleton_Some in Hi as [Hi [= <- <-]]. exists v. assert (i = length h) as -> by lia.
    split; [rewrite <- Hlen; by apply list_lookup_middle|]. rewrite take_ge by (rewrite length_app; cbn; lia). exact Hv.
Qed.

Lemma groups_empty : groups_of [] ∅.
Proof. intros k. exists ∅. by rewrite lookup_empty, decide_True. Qed.

(** C32: grouped aggregation over a whole stream of insertions and retractions,
    for a function that keeps the contract of [Aggregates.v] (sum, count,
    distinct count, average, and the aggregators of one or two of them; the
    code's aggregators of three and four do not compile with groups).  Every
    retraction has its insertion, windows are admissible for the function and
    counters fit an [int].  Every element publishes one result with its own
    outdated flag, the aggregate of what is left of its group's values at that
    moment (any value when nothing is left); at the end exactly the groups with
    values left are held, each with its window.  The stream fails only when a
    retraction takes the last value of a group and the function has no value
    for an empty window, as the average, which then divides by zero. *)
Theorem grouped_aggregation_stream (h : list (E * bool)) (interval : Z) (Hok : history_ok h) :
  match run grouped_stream_step h (GroupedAggregation_init TriggerAll interval) with
  | Ok (outs, g) => exists W, published h outs /\ groups_of h W /\ represents g W
  | Err f => exists h1 e h2 s, h = h1 ++ (e, true) :: h2 /\ last_window (h1 ++ [(e, true)]) e = Some ∅ /\ af_inv ∅ s /\ value s = Err f
  end.
Proof.
  induction h as [|[e o] h IH] using rev_ind.
  - exists ∅. split; [by split|]. split; [exact groups_empty|]. split; [done|]. intros k. cbn. by rewrite !lookup_empty.
  - apply history_ok_snoc in Hok as [Hok (M & HM & HokM & Hfit)]. specialize (IH Hok).
    destruct (run grouped_stream_step h _) as [[outs g]|f] eqn:Hrun.
    + destruct IH as (W & Hp & Hg & Hrep).
      destruct (grouped_event h W g e o M Hg Hrep HM HokM Hfit) as [(v & g' & W' & Hstep & Hspec & Hrep' & Hg')|(s & f & Hstep & -> & -> & Hs & Hv)].
      * rewrite (run_snoc grouped_stream_step h (e, o) _ outs g [Data v o] g' Hrun Hstep). exists W'. split_and!; [|done..].
        apply published_snoc; [done|]. rewrite HM. by intros ? [= <-].
      * rewrite run_app, Hrun. cbn [mbind result_bind run]. unfold grouped_stream_step. cbn [fst snd]. rewrite Hstep. by exists h, e, [], s.
    + destruct IH as (h1 & e' & h2 & s & -> & HM' & Hs & Hv). rewrite run_app, Hrun. cbn [mbind result_bind].
      exists h1, e', (h2 ++ [(e, o)]), s. by rewrite <- app_assoc.
Qed.
End grouped_run.

(** ** An example: sum and number of the second column, by the first *)

Definition demo_group (e : Z * Z) : Z := e.1.
Definition demo_value (e : Z * Z) : Z := e.2.
Definition demo_stream : list (Z * Z * bool) := [((1, 5), false); ((2, 7), false); ((1, 6), false); ((2, 7), true); ((1, 5), true)]%Z.

#[local] Instance demo_func : AggregateFunc (Aggregator2 AggrSum AggrCount) Z (Z * Z) := Aggregator2_func id id.
#[local] Instance demo_laws : AggregateLaws Z (Aggregator2 AggrSum AggrCount) (Z * Z) := Aggregator2_laws id id.

Ltac demo_extend :=
  match goal with |- history_ok ?key ?val (?h ++ [(?e, ?o)]) =>
    apply (history_ok_extend key val h e o (default ∅ (last_window key val (h ++ [(e, o)]) e)));
      [|vm_compute; reflexivity|by vm_compute|by vm_compute]
  end.

Lemma demo_ok : history_ok demo_group demo_value demo_stream.
Proof.
  change demo_stream with (((((([] ++ [((1, 5), false)]) ++ [((2, 7), false)]) ++ [((1, 6), false)]) ++ [((2, 7), true)]) ++ [((1, 5), true)])%Z).
  do 5 demo_extend. by intros [|? ?] ? ? ?.
Qed.

Lemma grouped_aggregation_stream_witness :
  exists v1 v2 v3 v4 v5 g, run (grouped_stream_step demo_group demo_value None) demo_stream (GroupedAggregation_init TriggerAll 0)
    = Ok ([Data v1 false; Data v2 false; Data v3 false; Data v4 true; Data v5 true], g) /\ v3 = (11, 2)%Z /\ v5 = (6, 1)%Z.
Proof.
  pose proof (grouped_aggregation_stream demo_group demo_value None demo_stream 0 demo_ok) as Hstream.
  destruct (run _ demo_stream _) as [[outs g]|f] eqn:Hrun.
  2: { destruct Hstream as (_ & _ & _ & [[] []] & _ & _ & _ & Hv). discriminate Hv. }
  destruct Hstream as (W & [Hlen Hp] & _).
  destruct (Hp 0%nat _ _ eq_refl) as (v1 & H1 & _), (Hp 1%nat _ _ eq_refl) as (v2 & H2 & _), (Hp 2%nat _ _ eq_refl) as (v3 & H3 & Hv3),
    (Hp 3%nat _ _ eq_refl) as (v4 & H4 & _), (Hp 4%nat _ _ eq_refl) as (v5 & H5 & Hv5).
  exists v1, v2, v3, v4, v5, g.
  destruct outs as [|? [|? [|? [|? [|? [|]]]]]]; try discriminate. injection H1 as ->. injection H2 as ->. injection H3 as ->. injection H4 as ->. injection H5 as ->.
  split; [reflexivity|].
  assert (exists M3, last_window demo_group demo_value (take 3 demo_stream) (1, 6)%Z = Some M3) as [M3 E3] by (eexists; vm_compute; reflexivity).
  assert (exists M5, last_window demo_group demo_value (take 5 demo_stream) (1, 5)%Z = Some M5) as [M5 E5] by (eexists; vm_compute; reflexivity).
  specialize (Hv3 M3 E3). specialize (Hv5 M5 E5). vm_compute in E3, E5. injection E3 as <-. injection E5 as <-.
  destruct (Hv3 ltac:(discriminate)) as [Ha Hb], (Hv5 ltac:(discriminate)) as [Hc Hd], v3, v5. vm_compute in Ha, Hb, Hc, Hd. by subst.
Defined.
