(* ===== verification/Dataflow.v ===== *)
(** * Dataflow: building a topology

    [dsl/Pipe.hpp], [dsl/Dataflow.cpp] and the stream sources of
    [dsl/Topology.hpp]: the methods by which a program strings operators
    together.  A [Pipe] is a cursor on the publishers of a dataflow; each method
    creates operators, connects their channels and answers a new pipe.  The
    methods are translated with the operators they create, the subscriptions they
    make, the exceptions they throw and the change they make to the pipe they are
    called on.  How messages run through the graph that results is in
    [Pipelines.v].

    Methods that no program can call are left out: [sendZMQ] and [deserialize] do
    not compile when they are instantiated (they call constructors that do not
    exist), nor do the matrix methods (dynamic exception specifications). *)

From S2P Require Import Prelude Stream Operators Tuplify Windows Aggregation.

(** ** Types and functions of a program

    Element types, the types of keys and timestamps, and what a [boost::any]
    member of a pipe holds: a function object with its type.  Elements of all
    types are values of [V].  Functions that are only handed on to an operator
    are [handle]s. *)

Inductive etype := TStringPtr | Elem (n : nat) | BatchPtr (t : etype) | JoinOf (l r : etype).
Inductive rtype := TimestampT | TransactionIDT | KeyT (n : nat).

#[export] Instance etype_eq_dec : EqDecision etype.
Proof. solve_decision. Defined.
#[export] Instance rtype_eq_dec : EqDecision rtype.
Proof. solve_decision. Defined.

Abbreviation handle := nat (only parsing).

Inductive PartitioningState := NoPartitioning | FirstInPartitioning | NextInPartitioning.

#[export] Instance PartitioningState_eq_dec : EqDecision PartitioningState.
Proof. solve_decision. Defined.

Definition no_source : fault := AssertFailed.
Definition TopologyException (msg : string) : fault := Throws ("TopologyException: " ++ msg).
Definition bad_any_cast : fault := Throws "boost::bad_any_cast".

Section dsl.
Context {V : Type}.

Record extractor := mkExtractor { x_result : rtype; x_arg : etype; x_fun : V -> Z }.

(** [boost::any_cast<std::function<R(const A&)>>] *)
Definition any_cast (R : rtype) (A : etype) (a : option extractor) : result (V -> Z) :=
  match a with
  | Some x => if decide (x_result x = R /\ x_arg x = A) then Ok (x_fun x) else Err bad_any_cast
  | None => Err bad_any_cast
  end.

(** The operator classes with their constructor arguments. *)
Inductive kind :=
  | KSource (cls : string)
  | KWhere (func : V -> bool -> bool)
  | KNotify (func : handle) (pfunc : option handle)
  | KMap (func : V -> bool -> V)
  | KStatefulMap (func : handle)
  | KTupleExtractor (sep : Z)
  | KJsonExtractor (keys : list string)
  | KBatcher (bsize : Z)
  | KUnBatcher
  | KTuplifier (predList : list string) (m : TuplifyMode) (ws : Z)
  | KQueue
  | KPartitionBy (pFun : V -> Z) (nPartitions : nat)
  | KMerge
  | KBarrier (cVar mtx f : handle)
  | KSlidingWindow (fn : option (V -> Z)) (wt : WinType) (sz : Z) (windowFunc : option handle) (ei : Z)
  | KTumblingWindow (fn : option (V -> Z)) (wt : WinType) (sz : Z) (windowFunc : option handle)
  | KAggregation (state : option handle) (finalFun iterFun : handle) (fn : option (V -> Z))
      (tType : AggregationTriggerType) (tInterval : Z)
  | KGroupedAggregation (state : option (handle * handle)) (keyFunc : V -> Z) (finalFun iterFun : handle)
      (tType : AggregationTriggerType) (tInterval : Z)
  | KMatcher (nfa : handle)
  | KSHJoin (fn1 fn2 : V -> Z) (pred : handle)
  | KScaleJoin (fn1 fn2 : V -> Z) (pred : handle) (id threadnum : nat)
  | KToTable (tbl : handle) (keyFunc : V -> Z) (autoCommit : bool)
  | KToTxTable (tbl : handle) (keyFunc txFunc : V -> Z) (autoCommit : bool)
  | KConsoleWriter (os ffun : handle)
  | KFileWriter (fname : string) (ffun : handle).

(** [opName()]: a class that does not override it is a "BaseOp" *)
Definition opName (k : kind) : string :=
  match k with
  | KSource cls => if decide (cls = "TextFileSource" \/ cls = "MemorySource") then cls else "BaseOp"
  | KWhere _ => "Where" | KNotify _ _ => "Notify" | KMap _ => "Map" | KStatefulMap _ => "StatefulMap"
  | KTupleExtractor _ => "TupleExtractor" | KBatcher _ => "Batcher" | KUnBatcher => "UnBatcher"
  | KPartitionBy _ _ => "PartitionBy" | KMerge => "Merge" | KBarrier _ _ _ => "Barrier"
  | KAggregation _ _ _ _ _ _ => "Aggregation" | KSHJoin _ _ _ => "SHJoin" | KToTable _ _ _ => "ToTable"
  | KToTxTable _ _ _ _ => "ToTxTable" | KConsoleWriter _ _ => "ConsoleWriter"
  | _ => "BaseOp"
  end%string.

(** An operator with the element types of its data channels: the input (of a
    join: the left one), the right input, and the output, if it is a
    [DataSource]. *)
Record operator := mkOp { okind : kind; oin : option etype; oright : option etype; oout : option etype }.

Inductive port := In | Left | Right.

(** A subscription: the source's output channel for data, or the one for
    punctuations, to a channel of the subscriber.  The order of the list is the
    order in which [connectChannels] was called. *)
Inductive link :=
  | DataLink (src : nat) (p : port) (dst : nat)
  | PunctLink (src dst : nat).

(** The operators created so far, by number, and the subscriptions; the partition
    table of each [PartitionBy]; the dataflow, and the start functions of the
    topology.  An iterator of the publisher list is a position, [None] its end. *)
Record world := mkWorld {
  heap : list operator;
  links : list link;
  mPartitions : list ((nat * nat) * nat);
  publishers : list nat;
  sinks : list nat;
  startupList : list nat;
  prepareList : list nat
}.

Definition empty_world : world := mkWorld [] [] [] [] [] [] [].

Record pipe := mkPipe {
  elem : etype;
  partitioningState : PartitioningState;
  timestampExtractor : option extractor;
  keyExtractor : option extractor;
  transactionIDExtractor : option extractor;
  numPartitions : nat;
  tailIter : option nat
}.

(** ** Exceptions and state

    An exception leaves behind what was done before it. *)
Definition M (A : Type) : Type := world -> result A * world.

#[export] Instance M_ret : MRet M := fun A a w => (Ok a, w).
#[export] Instance M_bind : MBind M := fun A B f m w =>
  match m w with (Ok a, w') => f a w' | (Err e, w') => (Err e, w') end.

Definition throw {A} (e : fault) : M A := fun w => (Err e, w).
Definition lift {A} (r : result A) : M A := fun w => (r, w).
Definition gets {A} (f : world -> A) : M A := fun w => (Ok (f w), w).
Definition modify (f : world -> world) : M unit := fun w => (Ok tt, f w).
Definition check (b : bool) (e : fault) : M unit := lift (guard_else b e).

(** [catch (const boost::bad_any_cast&) { throw TopologyException(msg); }] *)
Definition catch_bad_any_cast {A} (msg : string) (m : M A) : M A := fun w =>
  match m w with
  | (Err e, w') => (Err (if decide (e = bad_any_cast) then TopologyException msg else e), w')
  | r => r
  end.

Fixpoint mapM {A B} (f : A -> M B) (l : list A) : M (list B) :=
  match l with
  | [] => mret []
  | x :: l => y ← f x; ys ← mapM f l; mret (y :: ys)
  end.

Fixpoint forM {A} (f : A -> M unit) (l : list A) : M unit :=
  match l with
  | [] => mret tt
  | x :: l => _ ← f x; forM f l
  end.

(** ** Operators and channels *)

(** [std::make_shared] *)
Definition new_op (o : operator) : M nat := fun w =>
  (Ok (length (heap w)),
   mkWorld (heap w ++ [o]) (links w) (mPartitions w) (publishers w) (sinks w) (startupList w) (prepareList w)).

Definition op_at (o : nat) : M operator := fun w => (get_at (heap w) o, w).

Definition connectChannels (l : link) : M unit := modify (fun w =>
  mkWorld (heap w) (links w ++ [l]) (mPartitions w) (publishers w) (sinks w) (startupList w) (prepareList w)).

(** both channels of a source to the data channel [p] and the punctuation channel
    of an operator; [CREATE_LINK] for [p = In] *)
Definition connect_op (src : nat) (p : port) (dst : nat) : M unit :=
  _ ← connectChannels (DataLink src p dst);
  connectChannels (PunctLink src dst).
Definition CREATE_LINK (src dst : nat) : M unit := connect_op src In dst.

(** ** Dataflow *)

Definition addPublisherList (lst : list nat) : M (option nat) := fun w =>
  (Ok (if decide (lst = []) then None else Some (length (publishers w))),
   mkWorld (heap w) (links w) (mPartitions w) (publishers w ++ lst) (sinks w) (startupList w) (prepareList w)).
Definition dataflow_addPublisher (op : nat) : M (option nat) := fun w =>
  (Ok (Some (length (publishers w))),
   mkWorld (heap w) (links w) (mPartitions w) (publishers w ++ [op]) (sinks w) (startupList w) (prepareList w)).
Definition addSink (op : nat) : M unit := modify (fun w =>
  mkWorld (heap w) (links w) (mPartitions w) (publishers w) (sinks w ++ [op]) (startupList w) (prepareList w)).

(** [*iter], [++iter] *)
Definition deref (it : option nat) : M nat :=
  match it with
  | Some i => fun w => (get_at (publishers w) i, w)
  | None => throw Dangling
  end.
Definition next (it : option nat) : M (option nat) :=
  match it with
  | Some i => gets (fun w => if decide (S i < length (publishers w))%nat then Some (S i) else None)
  | None => throw Dangling
  end.

(** [Pipe::getPublisher] *)
Definition getPublisher (p : pipe) : M nat :=
  match tailIter p with
  | None => throw no_source
  | Some i => deref (Some i)
  end.

(** [castOperator<DataSource<T>>] and [castOperator<PartitionBy<T>>] *)
Definition cast_source (T : etype) (o : nat) : M unit :=
  x ← op_at o;
  if decide (oout x = Some T) then mret tt else throw (TopologyException "Incompatible tuple types in Pipe.").
Definition cast_partition (T : etype) (o : nat) : M unit :=
  x ← op_at o;
  match okind x with
  | KPartitionBy _ _ => cast_source T o
  | _ => throw (TopologyException "Incompatible tuple types in Pipe.")
  end.

(** [PartitionBy::connectChannelsForPartition]: the consumer gets a queue of its
    own; [insert] keeps an entry that is there *)
Definition connectChannelsForPartition (partition i : nat) (T : etype) (p : port) (op : nat) : M unit :=
  x ← op_at partition;
  _ ← check (match okind x with KPartitionBy _ n => (i <? n)%nat | _ => false end) AssertFailed;
  queue ← new_op (mkOp KQueue (Some T) None (Some T));
  _ ← connect_op queue p op;
  modify (fun w =>
    mkWorld (heap w) (links w)
      (if decide (Exists (fun e => e.1 = (partition, i)) (mPartitions w)) then mPartitions w
       else mPartitions w ++ [((partition, i), queue)])
      (publishers w) (sinks w) (startupList w) (prepareList w)).

(** [Pipe::addPublisher<Publisher, DataSource<T>>] *)
Definition addPublisher (T : etype) (op : nat) (p : pipe) : M (option nat) :=
  pOp ← getPublisher p;
  _ ← cast_source T pOp;
  _ ← CREATE_LINK pOp op;
  dataflow_addPublisher op.

Definition set_state (s : PartitioningState) (p : pipe) : pipe :=
  mkPipe (elem p) s (timestampExtractor p) (keyExtractor p) (transactionIDExtractor p) (numPartitions p) (tailIter p).

(** the first loop of [addPartitionedPublisher]: one queue per operator *)
Fixpoint link_partitions (partition : nat) (T : etype) (i : nat) (opList : list nat) : M unit :=
  match opList with
  | [] => mret tt
  | op :: rest => _ ← connectChannelsForPartition partition i T In op; link_partitions partition T (S i) rest
  end.

(** the second one: operator by operator, until the publishers end *)
Fixpoint link_next (T : etype) (iter : option nat) (opList : list nat) : M unit :=
  match opList, iter with
  | op :: rest, Some _ =>
      pOp ← deref iter;
      _ ← cast_source T pOp;
      _ ← CREATE_LINK pOp op;
      iter ← next iter;
      link_next T iter rest
  | _, _ => mret tt
  end.

(** [Pipe::addPartitionedPublisher]: it changes the state of the pipe it is called
    on *)
Definition addPartitionedPublisher (T : etype) (opList : list nat) (p : pipe) : M (pipe * option nat) :=
  match partitioningState p with
  | NoPartitioning => throw (TopologyException "Missing partitionBy operator in topology.")
  | FirstInPartitioning =>
      partition ← getPublisher p;
      _ ← cast_partition T partition;
      _ ← link_partitions partition T 0 opList;
      iter ← addPublisherList opList;
      mret (set_state NextInPartitioning p, iter)
  | NextInPartitioning =>
      _ ← link_next T (tailIter p) opList;
      iter ← addPublisherList opList;
      mret (p, iter)
  end.

(** the new pipe of a method: the state and the extractors are handed on *)
Definition derive (p : pipe) (Tout : etype) (iter : option nat) : pipe :=
  mkPipe Tout (partitioningState p) (timestampExtractor p) (keyExtractor p) (transactionIDExtractor p) (numPartitions p) iter.

(** The body that the methods for operators with one input share: one operator,
    or one per partition.  A method answers the pipe it was called on, as it is
    then, and the new pipe. *)
Definition unary (k : kind) (Tin Tout : etype) (p : pipe) : M (pipe * pipe) :=
  let o := mkOp k (Some Tin) None (Some Tout) in
  match partitioningState p with
  | NoPartitioning =>
      op ← new_op o;
      iter ← addPublisher Tin op p;
      mret (p, derive p Tout iter)
  | _ =>
      ops ← mapM (fun _ => new_op o) (seq 0 (numPartitions p));
      '(p, iter) ← addPartitionedPublisher Tin ops p;
      mret (p, derive p Tout iter)
  end.

(** ** The methods of [Pipe] *)

Definition keyBy (f : extractor) (p : pipe) : pipe :=
  mkPipe (elem p) (partitioningState p) (timestampExtractor p) (Some f) (transactionIDExtractor p) (numPartitions p) (tailIter p).
Definition assignTimestamps (f : extractor) (p : pipe) : pipe :=
  mkPipe (elem p) (partitioningState p) (Some f) (keyExtractor p) (transactionIDExtractor p) (numPartitions p) (tailIter p).
Definition assignTransactionID (f : extractor) (p : pipe) : pipe :=
  mkPipe (elem p) (partitioningState p) (timestampExtractor p) (keyExtractor p) (Some f) (numPartitions p) (tailIter p).

(** [assignTimestamps<N>]: the attribute is taken as seconds; for an [int]
    attribute the product is computed in [int] *)
Definition timestamp_of_seconds (attr : Z) : result Z :=
  micro ← to_int (attr * 1000 * 1000); Ok micro.

Definition where_ (func : V -> bool -> bool) (p : pipe) := unary (KWhere func) (elem p) (elem p) p.
Definition notify (func : handle) (pfunc : option handle) (p : pipe) := unary (KNotify func pfunc) (elem p) (elem p) p.
Definition map_ (Tout : etype) (func : V -> bool -> V) (p : pipe) := unary (KMap func) (elem p) Tout p.
Definition statefulMap (Tout : etype) (func : handle) (p : pipe) := unary (KStatefulMap func) (elem p) Tout p.
Definition queue (p : pipe) := unary KQueue (elem p) (elem p) p.
Definition batch (bsize : Z) (p : pipe) := unary (KBatcher bsize) (elem p) (BatchPtr (elem p)) p.
Definition unbatch (Tout : etype) (p : pipe) := unary KUnBatcher (BatchPtr Tout) Tout p.
Definition extract (Tout : etype) (sep : Z) (p : pipe) := unary (KTupleExtractor sep) TStringPtr Tout p.
Definition extractJson (Tout : etype) (keys : list string) (p : pipe) := unary (KJsonExtractor keys) TStringPtr Tout p.
Definition tuplify (Tout : etype) (predList : list string) (m : TuplifyMode) (ws : Z) (p : pipe) :=
  unary (KTuplifier predList m ws) (elem p) Tout p.
Definition barrier (cVar mtx f : handle) (p : pipe) := unary (KBarrier cVar mtx f) (elem p) (elem p) p.

(** the timestamp extractor, for the windows that need one *)
Definition window_extractor (wt : WinType) (p : pipe) : M (option (V -> Z)) :=
  match wt with
  | RangeWindow => fn ← lift (any_cast TimestampT (elem p) (timestampExtractor p)); mret (Some fn)
  | _ => mret None
  end.

Definition slidingWindow (wt : WinType) (sz : Z) (windowFunc : option handle) (ei : Z) (p : pipe) : M (pipe * pipe) :=
  catch_bad_any_cast "No TimestampExtractor defined for slidingWindow."
    (fn ← window_extractor wt p;
     unary (KSlidingWindow fn wt sz windowFunc ei) (elem p) (elem p) p).

Definition tumblingWindow (wt : WinType) (sz : Z) (windowFunc : option handle) (p : pipe) : M (pipe * pipe) :=
  catch_bad_any_cast "No TimestampExtractor defined for tumblingWindow."
    (fn ← window_extractor wt p;
     unary (KTumblingWindow fn wt sz windowFunc) (elem p) (elem p) p).

(** [aggregate(finalFun, iterFun, ...)]: a pipe with timestamps always gets the
    timestamp trigger; the operators of partitions get no extractor for it *)
Definition aggregate (Tout : etype) (finalFun iterFun : handle) (tType : AggregationTriggerType) (tInterval : Z) (p : pipe)
    : M (pipe * pipe) :=
  let tType := match timestampExtractor p with Some _ => TriggerByTimestamp | None => tType end in
  fn ← match partitioningState p, tType with
       | NoPartitioning, TriggerByTimestamp => fn ← lift (any_cast TimestampT (elem p) (timestampExtractor p)); mret (Some fn)
       | _, _ => mret None
       end;
  unary (KAggregation None finalFun iterFun fn tType tInterval) (elem p) Tout p.

(** [aggregate(state, ...)]: all partitions share the state *)
Definition aggregate_state (Tout : etype) (state finalFun iterFun : handle) (tType : AggregationTriggerType) (tInterval : Z)
    (p : pipe) : M (pipe * pipe) :=
  unary (KAggregation (Some state) finalFun iterFun None tType tInterval) (elem p) Tout p.

Definition groupBy (K : nat) (Tout : etype) (state : option (handle * handle)) (finalFun iterFun : handle)
    (tType : AggregationTriggerType) (tInterval : Z) (p : pipe) : M (pipe * pipe) :=
  catch_bad_any_cast "No KeyExtractor defined for groupBy."
    (keyFunc ← lift (any_cast (KeyT K) (elem p) (keyExtractor p));
     unary (KGroupedAggregation state keyFunc finalFun iterFun tType tInterval) (elem p) Tout p).

(** [matchByNFA] does not look at the partitioning; [matcher] asserts that there
    is none *)
Definition matchByNFA (Tout : etype) (nfa : handle) (p : pipe) : M (pipe * pipe) :=
  op ← new_op (mkOp (KMatcher nfa) (Some (elem p)) None (Some Tout));
  iter ← addPublisher (elem p) op p;
  mret (p, derive p Tout iter).
Definition matcher (Tout : etype) (expr : handle) (p : pipe) : M (pipe * pipe) :=
  _ ← check (bool_decide (partitioningState p = NoPartitioning)) AssertFailed;
  matchByNFA Tout expr p.

(** The sinks: they are no publishers, the pipe stays where it is. *)
Definition sink_op (k : kind) (p : pipe) : M (pipe * pipe) :=
  _ ← check (bool_decide (partitioningState p = NoPartitioning)) AssertFailed;
  op ← new_op (mkOp k (Some (elem p)) None None);
  pOp ← getPublisher p;
  _ ← cast_source (elem p) pOp;
  _ ← CREATE_LINK pOp op;
  _ ← addSink op;
  mret (p, derive p (elem p) (tailIter p)).
Definition print (os ffun : handle) (p : pipe) : M (pipe * pipe) := sink_op (KConsoleWriter os ffun) p.
Definition saveToFile (fname : string) (ffun : handle) (p : pipe) : M (pipe * pipe) := sink_op (KFileWriter fname ffun) p.

(** [toStream]: into the queue of a named stream *)
Definition toStream (stream : nat) (p : pipe) : M (pipe * pipe) :=
  _ ← check (bool_decide (partitioningState p = NoPartitioning)) AssertFailed;
  x ← op_at stream;
  _ ← match okind x with
      | KQueue => cast_source (elem p) stream
      | _ => throw (TopologyException "Incompatible tuple types in Pipe.")
      end;
  pOp ← getPublisher p;
  _ ← cast_source (elem p) pOp;
  _ ← CREATE_LINK pOp stream;
  mret (p, derive p (elem p) (tailIter p)).

Definition toTable (K : nat) (tbl : handle) (autoCommit : bool) (p : pipe) : M (pipe * pipe) :=
  _ ← check (bool_decide (partitioningState p = NoPartitioning)) AssertFailed;
  catch_bad_any_cast "No KeyExtractor defined for toTable."
    (keyFunc ← lift (any_cast (KeyT K) (elem p) (keyExtractor p));
     op ← new_op (mkOp (KToTable tbl keyFunc autoCommit) (Some (elem p)) None (Some (elem p)));
     iter ← addPublisher (elem p) op p;
     mret (p, derive p (elem p) iter)).

Definition toTxTable (K : nat) (tbl : handle) (autoCommit : bool) (p : pipe) : M (pipe * pipe) :=
  _ ← check (bool_decide (partitioningState p = NoPartitioning)) AssertFailed;
  catch_bad_any_cast "No KeyExtractor or TransactionIDExtractor defined for toTxTable."
    (keyFunc ← lift (any_cast (KeyT K) (elem p) (keyExtractor p));
     txFunc ← lift (any_cast TransactionIDT (elem p) (transactionIDExtractor p));
     op ← new_op (mkOp (KToTxTable tbl keyFunc txFunc autoCommit) (Some (elem p)) None (Some (elem p)));
     iter ← addPublisher (elem p) op p;
     mret (p, derive p (elem p) iter)).

(** ** Partitioning *)

Definition partitionBy (pFun : V -> Z) (nPartitions : nat) (p : pipe) : M (pipe * pipe) :=
  match partitioningState p with
  | NoPartitioning =>
      op ← new_op (mkOp (KPartitionBy pFun nPartitions) (Some (elem p)) None (Some (elem p)));
      iter ← addPublisher (elem p) op p;
      mret (p, mkPipe (elem p) FirstInPartitioning (timestampExtractor p) (keyExtractor p) (transactionIDExtractor p)
                 nPartitions iter)
  | _ => throw (TopologyException "Cannot partition an already partitioned stream.")
  end.

(** the loop of [merge]: every publisher from the position of the pipe to the end
    of the list.  Fuel: the number of publishers *)
Fixpoint link_all (T : etype) (fuel : nat) (iter : option nat) (op : nat) : M unit :=
  match fuel, iter with
  | S fuel, Some _ =>
      pOp ← deref iter;
      _ ← cast_source T pOp;
      _ ← CREATE_LINK pOp op;
      iter ← next iter;
      link_all T fuel iter op
  | _, _ => mret tt
  end.

Definition merge (p : pipe) : M (pipe * pipe) :=
  match partitioningState p with
  | NextInPartitioning =>
      op ← new_op (mkOp KMerge (Some (elem p)) None (Some (elem p)));
      n ← gets (fun w => length (publishers w));
      _ ← link_all (elem p) n (tailIter p) op;
      _ ← dataflow_addPublisher op;
      queue ← new_op (mkOp KQueue (Some (elem p)) None (Some (elem p)));
      _ ← CREATE_LINK op queue;
      iter2 ← dataflow_addPublisher queue;
      mret (p, mkPipe (elem p) NoPartitioning (timestampExtractor p) (keyExtractor p) (transactionIDExtractor p) 0 iter2)
  | _ => throw (TopologyException "Nothing to merge in topology.")
  end.

(** ** Joins *)

(** the right input of join [i]: the whole other stream, or its partition [i].
    The iterator of the other pipe moves on only past operators of partitions. *)
Definition join_right (other : pipe) (i op : nat) (otherOpIt : option nat) : M (option nat) :=
  match partitioningState other with
  | NoPartitioning =>
      otherOp ← getPublisher other;
      _ ← cast_source (elem other) otherOp;
      _ ← connect_op otherOp Right op;
      mret otherOpIt
  | _ =>
      otherOp ← deref otherOpIt;
      _ ← cast_source (elem other) otherOp;
      x ← op_at otherOp;
      if decide (opName (okind x) = "PartitionBy"%string) then
        _ ← cast_partition (elem other) otherOp;
        _ ← connectChannelsForPartition otherOp i (elem other) Right op;
        mret otherOpIt
      else
        _ ← connect_op otherOp Right op;
        next otherOpIt
  end.

Fixpoint join_first (T : etype) (other : pipe) (partition i : nat) (opList : list nat) (otherOpIt : option nat) : M unit :=
  match opList with
  | [] => mret tt
  | op :: rest =>
      _ ← connectChannelsForPartition partition i T Left op;
      otherOpIt ← join_right other i op otherOpIt;
      join_first T other partition (S i) rest otherOpIt
  end.

Fixpoint join_next (T : etype) (other : pipe) (iter : option nat) (i : nat) (opList : list nat) (otherOpIt : option nat) : M unit :=
  match opList, iter with
  | op :: rest, Some _ =>
      pOp ← deref iter;
      _ ← cast_source T pOp;
      _ ← connect_op pOp Left op;
      otherOpIt ← join_right other i op otherOpIt;
      iter ← next iter;
      join_next T other iter (S i) rest otherOpIt
  | _, _ => mret tt
  end.

(** all operators from the other pipe's position on; fuel as for [link_all] *)
Fixpoint join_all_right (T2 : etype) (fuel : nat) (iter : option nat) (op : nat) : M unit :=
  match fuel, iter with
  | S fuel, Some _ =>
      otherOp ← deref iter;
      _ ← cast_source T2 otherOp;
      x ← op_at otherOp;
      _ ← (if decide (opName (okind x) = "BaseOp"%string) then mret tt else connect_op otherOp Right op);
      iter ← next iter;
      join_all_right T2 fuel iter op
  | _, _ => mret tt
  end.

Definition addJoin (opList : list nat) (other : pipe) (p : pipe) : M (pipe * option nat) :=
  p ← match partitioningState p with
      | FirstInPartitioning =>
          partition ← getPublisher p;
          _ ← cast_partition (elem p) partition;
          _ ← join_first (elem p) other partition 0 opList (tailIter other);
          mret (set_state NextInPartitioning p)
      | NoPartitioning =>
          pOp ← getPublisher p;
          _ ← cast_source (elem p) pOp;
          op0 ← lift (get_at opList 0);
          _ ← connect_op pOp Left op0;
          otherOp ← deref (tailIter other);
          _ ← cast_source (elem other) otherOp;
          x ← op_at otherOp;
          _ ← (if decide (opName (okind x) = "PartitionBy"%string) then
                 _ ← cast_partition (elem other) otherOp;
                 forM (fun i => connectChannelsForPartition otherOp i (elem other) Right op0) (seq 0 (numPartitions other))
               else
                 n ← gets (fun w => length (publishers w));
                 join_all_right (elem other) n (tailIter other) op0);
          mret p
      | NextInPartitioning =>
          _ ← join_next (elem p) other (tailIter p) 0 opList (tailIter other);
          mret p
      end;
  iter ← addPublisherList opList;
  mret (p, iter).

Definition join (K : nat) (pred : handle) (other : pipe) (p : pipe) : M (pipe * pipe) :=
  let Tout := JoinOf (elem p) (elem other) in
  catch_bad_any_cast "No KeyExtractor defined for join."
    (fn1 ← lift (any_cast (KeyT K) (elem p) (keyExtractor p));
     fn2 ← lift (any_cast (KeyT K) (elem other) (keyExtractor other));
     let o := mkOp (KSHJoin fn1 fn2 pred) (Some (elem p)) (Some (elem other)) (Some Tout) in
     match partitioningState p, partitioningState other with
     | NoPartitioning, NoPartitioning =>
         op ← new_op o;
         pOp ← getPublisher p;
         _ ← cast_source (elem p) pOp;
         _ ← connect_op pOp Left op;
         otherOp ← getPublisher other;
         _ ← cast_source (elem other) otherOp;
         _ ← connect_op otherOp Right op;
         iter ← dataflow_addPublisher op;
         mret (p, derive p Tout iter)
     | NoPartitioning, _ =>
         op ← new_op o;
         '(p, iter) ← addJoin [op] other p;
         mret (p, derive p Tout iter)
     | _, _ =>
         ops ← mapM (fun _ => new_op o) (seq 0 (numPartitions p));
         '(p, iter) ← addJoin ops other p;
         mret (p, derive p Tout iter)
     end).

(** one thread of [scaleJoin]: a queue for the left stream and a join; the right
    stream goes to the join directly *)
Definition scale_thread (o : nat -> operator) (T : etype) (pOp otherOp combine i : nat) : M (nat * nat) :=
  qu ← new_op (mkOp KQueue (Some T) None (Some T));
  scJoin ← new_op (o i);
  _ ← CREATE_LINK pOp qu;
  _ ← connect_op qu Left scJoin;
  _ ← connect_op otherOp Right scJoin;
  _ ← CREATE_LINK scJoin combine;
  mret (qu, scJoin).

Definition scaleJoin (K : nat) (pred : handle) (threadnum : nat) (other : pipe) (p : pipe) : M (pipe * pipe) :=
  let Tout := JoinOf (elem p) (elem other) in
  catch_bad_any_cast "No KeyExtractor defined for join."
    (fn1 ← lift (any_cast (KeyT K) (elem p) (keyExtractor p));
     fn2 ← lift (any_cast (KeyT K) (elem other) (keyExtractor other));
     pOp ← getPublisher p;
     _ ← cast_source (elem p) pOp;
     otherOp ← getPublisher other;
     _ ← cast_source (elem other) otherOp;
     _ ← check (bool_decide (partitioningState p = NoPartitioning)) AssertFailed;
     _ ← check (bool_decide (partitioningState other = NoPartitioning)) AssertFailed;
     _ ← check (0 <? threadnum)%nat AssertFailed;
     combine ← new_op (mkOp KQueue (Some Tout) None (Some Tout));
     threads ← mapM (scale_thread
         (fun i => mkOp (KScaleJoin fn1 fn2 pred i threadnum) (Some (elem p)) (Some (elem other)) (Some Tout))
         (elem p) pOp otherOp combine) (seq 0 threadnum);
     _ ← addPublisherList (threads.*1);
     _ ← addPublisherList (threads.*2);
     iter ← dataflow_addPublisher combine;
     mret (p, derive p Tout iter)).

(** ** Topology: the sources *)

(** [Pipe(dataflow, iter)] *)
Definition new_pipe (T : etype) (iter : option nat) : pipe := mkPipe T NoPartitioning None None None 0 iter.

Definition registerStartupFunction (op : nat) : M unit := modify (fun w =>
  mkWorld (heap w) (links w) (mPartitions w) (publishers w) (sinks w) (startupList w ++ [op]) (prepareList w)).
Definition registerPrepareFunction (op : nat) : M unit := modify (fun w =>
  mkWorld (heap w) (links w) (mPartitions w) (publishers w) (sinks w) (startupList w) (prepareList w ++ [op])).

Definition new_source (cls : string) (T : etype) : M nat := new_op (mkOp (KSource cls) None None (Some T)).

(** a source with a start function *)
Definition started_source (cls : string) (T : etype) : M pipe :=
  op ← new_source cls T;
  _ ← registerStartupFunction op;
  iter ← dataflow_addPublisher op;
  mret (new_pipe T iter).

Definition newStreamFromFile : M pipe := started_source "TextFileSource" TStringPtr.
Definition newStreamFromREST : M pipe := started_source "RESTSource" TStringPtr.
Definition selectFromTable (T : etype) : M pipe := started_source "SelectFromTable" T.
Definition selectFromTxTable (T : etype) : M pipe := started_source "SelectFromTxTable" T.
Definition fromTxTables (T : etype) : M pipe := started_source "FromTxTables" T.
Definition streamFromGenerator (T : etype) : M pipe := started_source "StreamGenerator" T.

(** a table notifies its [FromTable] operators: nothing to start *)
Definition newStreamFromTable (T : etype) : M pipe :=
  op ← new_source "FromTable" T;
  iter ← dataflow_addPublisher op;
  mret (new_pipe T iter).

Definition newStreamFromMemory (T : etype) : M pipe :=
  op ← new_source "MemorySource" T;
  _ ← registerStartupFunction op;
  _ ← registerPrepareFunction op;
  iter ← dataflow_addPublisher op;
  mret (new_pipe T iter).

(** a named stream is a queue ([PFabricContext::createStream]) *)
Definition createStream (T : etype) : M nat := new_op (mkOp KQueue (Some T) None (Some T)).

Definition fromStream (T : etype) (stream : nat) : M pipe :=
  x ← op_at stream;
  if decide ((match okind x with KQueue => true | _ => false end) = true /\ oout x = Some T) then
    iter ← dataflow_addPublisher stream;
    mret (new_pipe T iter)
  else throw (TopologyException "Incompatible tuple type of stream object.").

(** ** What the calls of the DSL can build *)

Inductive method_call : (pipe -> M (pipe * pipe)) -> Prop :=
  | call_where func : method_call (where_ func)
  | call_notify func pfunc : method_call (notify func pfunc)
  | call_map Tout func : method_call (map_ Tout func)
  | call_statefulMap Tout func : method_call (statefulMap Tout func)
  | call_queue : method_call queue
  | call_batch bsize : method_call (batch bsize)
  | call_unbatch Tout : method_call (unbatch Tout)
  | call_extract Tout sep : method_call (extract Tout sep)
  | call_extractJson Tout keys : method_call (extractJson Tout keys)
  | call_tuplify Tout predList m ws : method_call (tuplify Tout predList m ws)
  | call_barrier cVar mtx f : method_call (barrier cVar mtx f)
  | call_slidingWindow wt sz wf ei : method_call (slidingWindow wt sz wf ei)
  | call_tumblingWindow wt sz wf : method_call (tumblingWindow wt sz wf)
  | call_aggregate Tout ff itf tt ti : method_call (aggregate Tout ff itf tt ti)
  | call_aggregate_state Tout st ff itf tt ti : method_call (aggregate_state Tout st ff itf tt ti)
  | call_groupBy K Tout st ff itf tt ti : method_call (groupBy K Tout st ff itf tt ti)
  | call_matchByNFA Tout nfa : method_call (matchByNFA Tout nfa)
  | call_matcher Tout expr : method_call (matcher Tout expr)
  | call_print os ffun : method_call (print os ffun)
  | call_saveToFile fname ffun : method_call (saveToFile fname ffun)
  | call_toStream stream : method_call (toStream stream)
  | call_toTable K tbl ac : method_call (toTable K tbl ac)
  | call_toTxTable K tbl ac : method_call (toTxTable K tbl ac)
  | call_partitionBy f n : method_call (partitionBy f n)
  | call_merge : method_call merge
  | call_join K pred other : method_call (join K pred other)
  | call_scaleJoin K pred n other : method_call (scaleJoin K pred n other).

Inductive source_call : M pipe -> Prop :=
  | source_file : source_call newStreamFromFile
  | source_rest : source_call newStreamFromREST
  | source_select T : source_call (selectFromTable T)
  | source_select_tx T : source_call (selectFromTxTable T)
  | source_from_tx T : source_call (fromTxTables T)
  | source_generator T : source_call (streamFromGenerator T)
  | source_table T : source_call (newStreamFromTable T)
  | source_memory T : source_call (newStreamFromMemory T)
  | source_stream T stream : source_call (fromStream T stream).

(** The states any sequence of calls can lead to: on any pipes, at any time,
    calls that throw included. *)
Inductive built : world -> Prop :=
  | built_empty : built empty_world
  | built_stream w T : built w -> built (createStream T w).2
  | built_source w m : built w -> source_call m -> built (m w).2
  | built_method w m p : built w -> method_call m -> built (m p w).2.

Definition input (x : operator) (p : port) : option etype :=
  match p with Right => oright x | _ => oin x end.

Definition has_out (o : nat) (T : etype) (w : world) : Prop := exists x, heap w !! o = Some x /\ oout x = Some T.
Definition has_in (o : nat) (p : port) (T : etype) (w : world) : Prop := exists x, heap w !! o = Some x /\ input x p = Some T.
Definition partitions_to (o i : nat) (T : etype) (w : world) : Prop :=
  exists x f n, heap w !! o = Some x /\ okind x = KPartitionBy f n /\ (i < n)%nat /\ oout x = Some T.

(** Every subscription, and every entry of a partition table, hands elements to
    an input of their type; a queue publishes what it takes. *)
Record typed (w : world) : Prop := {
  typed_data : forall s p d, DataLink s p d ∈ links w -> exists T, has_out s T w /\ has_in d p T w;
  typed_punct : forall s d, PunctLink s d ∈ links w -> (s < length (heap w))%nat /\ (d < length (heap w))%nat;
  typed_partition : forall o i q, ((o, i), q) ∈ mPartitions w -> exists T, partitions_to o i T w /\ has_in q In T w /\
    (x ← heap w !! q; Some (okind x)) = Some KQueue;
  typed_queue : forall o x, heap w !! o = Some x -> okind x = KQueue -> oin x = oout x;
}.

(** [wp m w Q]: from the typed state [w], [m] keeps the state typed, does not
    change the operators that are there, and if it returns, it returns as [Q]
    says *)
Definition wp {A} (m : M A) (w : world) (Q : A -> world -> Prop) : Prop :=
  typed w -> typed (m w).2 /\ heap w `prefix_of` heap (m w).2 /\ forall a, (m w).1 = Ok a -> Q a (m w).2.

Lemma wp_bind {A B} (m : M A) (f : A -> M B) w (P : A -> world -> Prop) Q :
  wp m w P -> (forall a w', heap w `prefix_of` heap w' -> P a w' -> wp (f a) w' Q) -> wp (m ≫= f) w Q.
Proof.
  intros Hm Hf Hw. destruct (Hm Hw) as (Hw1 & Hpre & HP). unfold mbind, M_bind.
  destruct (m w) as [[a|e] w1]; cbn [fst snd] in *; [|by split_and!].
  destruct (Hf a w1 Hpre (HP a eq_refl) Hw1) as (Hw2 & Hpre2 & HQ). split_and!; [done| |done]. by etransitivity.
Qed.

(** the first step of a sequence, by its lemma *)
Tactic Notation "wp_do" uconstr(l) := eapply wp_bind; [apply l|cbn beta].

Lemma wp_ret {A} (a : A) w (Q : A -> world -> Prop) : Q a w -> wp (mret a) w Q.
Proof. intros HQ Hw. split_and!; [done..|]. by intros a' [= <-]. Qed.

Lemma wp_throw {A} e w (Q : A -> world -> Prop) : wp (throw e) w Q.
Proof. intros Hw. by split_and!. Qed.

Lemma wp_lift_any {A} (r : result A) w : wp (lift r) w (fun _ _ => True).
Proof. intros Hw. by split_and!. Qed.

Lemma wp_lift {A} (r : result A) w (Q : A -> world -> Prop) : (forall a, r = Ok a -> Q a w) -> wp (lift r) w Q.
Proof. intros HQ Hw. by split_and!. Qed.

Lemma wp_mono {A} (m : M A) w (P Q : A -> world -> Prop) : wp m w P -> (forall a w', P a w' -> Q a w') -> wp m w Q.
Proof. intros Hm Himp Hw. destruct (Hm Hw) as (? & ? & HP). split_and!; [done..|]. eauto. Qed.

Lemma wp_true {A} (m : M A) w (P : A -> world -> Prop) : wp m w P -> wp m w (fun _ _ => True).
Proof. intros Hm. by eapply wp_mono. Qed.

Lemma wp_catch {A} msg (m : M A) w Q : wp m w Q -> wp (catch_bad_any_cast msg m) w Q.
Proof.
  intros Hm Hw. destruct (Hm Hw) as (Hw1 & Hpre & HQ). unfold catch_bad_any_cast.
  destruct (m w) as [[a|e] w1]; cbn [fst snd] in *; by split_and!.
Qed.

(** a state transformer that adds nothing but start functions, sinks, and
    publishers *)
Lemma wp_pure {A} (f : world -> A) (g : world -> world) w (Q : A -> world -> Prop) :
  heap (g w) = heap w -> links (g w) = links w -> mPartitions (g w) = mPartitions w ->
  Q (f w) (g w) -> wp (fun w => (Ok (f w), g w)) w Q.
Proof.
  intros Hh Hl Hp HQ [Hd Hu Hm Hq]. cbn [fst snd]. split_and!.
  - split; unfold has_out, has_in, partitions_to in *; rewrite ?Hh, ?Hl, ?Hp; done.
  - by rewrite Hh.
  - by intros a [= <-].
Qed.

Lemma prefix_lookup {A} (l l' : list A) i x : l `prefix_of` l' -> l !! i = Some x -> l' !! i = Some x.
Proof. intros. by eapply prefix_lookup_Some. Qed.

Lemma has_out_ext w w' o T : heap w `prefix_of` heap w' -> has_out o T w -> has_out o T w'.
Proof. intros Hp (x & Hx & Ho). exists x. split; [by eapply prefix_lookup|done]. Qed.
Lemma has_in_ext w w' o p T : heap w `prefix_of` heap w' -> has_in o p T w -> has_in o p T w'.
Proof. intros Hp (x & Hx & Ho). exists x. split; [by eapply prefix_lookup|done]. Qed.
Lemma partitions_to_ext w w' o i T : heap w `prefix_of` heap w' -> partitions_to o i T w -> partitions_to o i T w'.
Proof. intros Hp (x & f & n & Hx & Ho). exists x, f, n. split; [by eapply prefix_lookup|done]. Qed.

Lemma has_out_lt w o T : has_out o T w -> (o < length (heap w))%nat.
Proof. intros (x & Hx & _). by eapply lookup_lt_Some. Qed.
Lemma has_in_lt w o p T : has_in o p T w -> (o < length (heap w))%nat.
Proof. intros (x & Hx & _). by eapply lookup_lt_Some. Qed.

(** facts about operators hold in later states *)
Ltac later :=
  match goal with
  | |- ?a `prefix_of` ?b =>
      first [reflexivity | assumption |
        match goal with H : a `prefix_of` ?c |- _ => transitivity c; [exact H|later] end]
  end.

Lemma wp_new_op o w : (okind o = KQueue -> oin o = oout o) ->
  wp (new_op o) w (fun i w' => heap w' !! i = Some o).
Proof.
  intros Ho [Hd Hu Hm Hq]. unfold new_op. cbn [fst snd].
  assert (heap w `prefix_of` heap w ++ [o]) as Hpre by (by eexists). split_and!; [split; cbn [links mPartitions]|done|].
  - intros s p d Hin. destruct (Hd s p d Hin) as (T & H1 & H2). exists T.
    split; [by eapply has_out_ext, H1|by eapply has_in_ext, H2].
  - intros s d Hin. destruct (Hu s d Hin). cbn [heap]. rewrite length_app. simpl. lia.
  - intros p i q Hin. destruct (Hm p i q Hin) as (T & H1 & H2 & H3). exists T.
    split_and!; [by eapply partitions_to_ext, H1|by eapply has_in_ext, H2|]. cbn [heap].
    destruct (heap w !! q) as [x|] eqn:Hx; [|done]. by erewrite prefix_lookup.
  - cbn [heap]. intros i x [Hx|[_ Hx%list_lookup_singleton_Some]]%lookup_app_Some; [by eapply Hq|]. by destruct Hx as [_ <-].
  - intros a [= <-]. cbn [heap]. by rewrite lookup_app_r, Nat.sub_diag by lia.
Qed.

Lemma wp_new_ops {B} o (l : list B) w : (okind o = KQueue -> oin o = oout o) ->
  wp (mapM (fun _ => new_op o) l) w (fun ops w' => Forall (fun i => heap w' !! i = Some o) ops).
Proof.
  intros Ho. revert w. induction l as [|x l IH]; intros w; cbn [mapM]; [by apply wp_ret|].
  wp_do wp_new_op; [done|]. intros i w1 _ Hi. eapply wp_bind; [apply IH|]. intros ops w2 Hpre Hops.
  apply wp_ret. constructor; [by eapply prefix_lookup|done].
Qed.

Lemma wp_op_at o w : wp (op_at o) w (fun x w' => heap w' !! o = Some x).
Proof. intros Hw. unfold op_at. cbn [fst snd]. split_and!; [done..|]. intros x Hx. by apply get_at_Ok. Qed.

Lemma wp_cast_source T o w : wp (cast_source T o) w (fun _ w' => has_out o T w').
Proof.
  wp_do wp_op_at. intros x w1 _ Hx. cbn beta. case_decide; [|apply wp_throw].
  apply wp_ret. by exists x.
Qed.

Lemma wp_connectChannels l w :
  match l with
  | DataLink s p d => exists T, has_out s T w /\ has_in d p T w
  | PunctLink s d => (s < length (heap w))%nat /\ (d < length (heap w))%nat
  end -> wp (connectChannels l) w (fun _ _ => True).
Proof.
  intros Hl [Hd Hu Hm Hq]. unfold connectChannels, modify. cbn [fst snd]. split_and!; [|done..].
  split; cbn [links mPartitions heap]; [| |done..].
  - intros s p d [Hin|Hin%list_elem_of_singleton]%elem_of_app; [by apply Hd|by subst l].
  - intros s d [Hin|Hin%list_elem_of_singleton]%elem_of_app; [by apply Hu|by subst l].
Qed.

Lemma wp_connect_op s p d T w : has_out s T w -> has_in d p T w -> wp (connect_op s p d) w (fun _ _ => True).
Proof.
  intros Hs Hd. eapply wp_bind; [apply wp_connectChannels; by exists T|]. intros _ w1 Hpre _.
  apply wp_connectChannels. split; [eapply has_out_lt, has_out_ext; done|eapply has_in_lt, has_in_ext; done].
Qed.

Lemma wp_cast_partition T o w : wp (cast_partition T o) w
  (fun _ w' => exists x f n, heap w' !! o = Some x /\ okind x = KPartitionBy f n /\ oout x = Some T).
Proof.
  wp_do wp_op_at. intros x w1 _ Hx. cbn beta. destruct (okind x) eqn:Hk; try apply wp_throw.
  eapply wp_mono; [wp_do wp_op_at|].
  - intros x' w2 Hpre Hx'. case_decide as Ho; [|apply wp_throw].
    apply (wp_ret tt w2 (fun _ w' => exists x f n, heap w' !! o = Some x /\ okind x = KPartitionBy f n /\ oout x = Some T)).
    assert (heap w2 !! o = Some x) as Hx2 by (by eapply prefix_lookup). rewrite Hx2 in Hx'. injection Hx' as <-. eauto 10.
  - intros a w' H. exact H.
Qed.

Lemma wp_connectChannelsForPartition o i T p op w f n x :
  heap w !! o = Some x -> okind x = KPartitionBy f n -> oout x = Some T -> has_in op p T w ->
  wp (connectChannelsForPartition o i T p op) w (fun _ _ => True).
Proof.
  intros Hx Hk Ho Hop. wp_do wp_op_at. intros x' w1 Hpre1 Hx'.
  assert (x' = x) as -> by (eapply prefix_lookup in Hx; [|done]; congruence). rewrite Hk.
  eapply (wp_bind _ _ _ (fun _ w' => (i < n)%nat)); [apply wp_lift|].
  { intros []. unfold guard_else. case_match eqn:Hlt; [|done]. intros _. by apply Nat.ltb_lt. }
  intros _ w2 Hpre2 Hi. wp_do wp_new_op; [done|]. intros q w3 Hpre3 Hq.
  assert (heap w `prefix_of` heap w3) as Hpre by (etransitivity; [done|etransitivity; done]).
  eapply wp_bind; [apply (wp_connect_op q p op T)|cbn beta].
  { by eexists. }
  { by eapply has_in_ext. }
  intros _ w4 Hpre4 _ [Hd Hu Hm Hqs]. unfold modify. cbn [fst snd]. split_and!; [|done..].
  split; [exact Hd|exact Hu| |exact Hqs].
  cbn [mPartitions]. intros o' i' q'. case_decide; [apply Hm|].
  intros [Hin|Hin%list_elem_of_singleton]%elem_of_app; [by apply Hm|]. injection Hin as -> -> ->.
  pose proof (prefix_lookup _ _ _ _ Hpre4 Hq) as Hq4.
  exists T. split_and!.
  - exists x, f, n. split_and!; [|done..]. eapply prefix_lookup; [exact Hpre4|]. by eapply prefix_lookup.
  - by eexists.
  - cbn [heap]. by rewrite Hq4.
Qed.

Lemma wp_addPublisherList l w : wp (addPublisherList l) w (fun _ _ => True).
Proof. by apply (wp_pure (fun w => _) (fun w => _)). Qed.
Lemma wp_addPublisher_list o w : wp (dataflow_addPublisher o) w (fun _ _ => True).
Proof. by apply (wp_pure (fun w => _) (fun w => _)). Qed.
Lemma wp_addSink o w : wp (addSink o) w (fun _ _ => True).
Proof. by apply (wp_pure (fun w => _) (fun w => _)). Qed.
Lemma wp_gets {A} (f : world -> A) w : wp (gets f) w (fun _ _ => True).
Proof. by apply (wp_pure (fun w => _) (fun w => _)). Qed.
Lemma wp_check b e w : wp (check b e) w (fun _ _ => True).
Proof. by apply wp_lift. Qed.
Lemma wp_deref it w : wp (deref it) w (fun _ _ => True).
Proof. destruct it; [|apply wp_throw]. intros Hw. by split_and!. Qed.
Lemma wp_next it w : wp (next it) w (fun _ _ => True).
Proof. destruct it; [apply wp_gets|apply wp_throw]. Qed.
Lemma wp_getPublisher p w : wp (getPublisher p) w (fun _ _ => True).
Proof. unfold getPublisher. case_match; [apply wp_deref|apply wp_throw]. Qed.

Lemma wp_addPublisher T op p w : has_in op In T w -> wp (addPublisher T op p) w (fun _ _ => True).
Proof.
  intros Hop. wp_do wp_getPublisher. intros o w1 Hpre1 _. wp_do wp_cast_source. intros _ w2 Hpre2 Ho.
  eapply wp_bind; [apply (wp_connect_op o In op T)|intros _ w3 _ _; apply wp_addPublisher_list]; [done|].
  eapply has_in_ext; [|exact Hop]. by etransitivity.
Qed.

(** operators of one input type *)
Definition all_in (ops : list nat) (p : port) (T : etype) (w : world) : Prop := Forall (fun o => has_in o p T w) ops.

Lemma all_in_ext w w' ops p T : heap w `prefix_of` heap w' -> all_in ops p T w -> all_in ops p T w'.
Proof. intros Hpre. intros H. eapply Forall_impl; [exact H|]. intros o. by apply has_in_ext. Qed.

Ltac up :=
  first [done |
  match goal with
  | H : has_in ?o ?p ?T ?w |- has_in ?o ?p ?T ?w' => apply (has_in_ext w w' o p T); [later|exact H]
  | H : has_out ?o ?T ?w |- has_out ?o ?T ?w' => apply (has_out_ext w w' o T); [later|exact H]
  | H : all_in ?l ?p ?T ?w |- all_in ?l ?p ?T ?w' => apply (all_in_ext w w' l p T); [later|exact H]
  | H : Forall _ ?l |- all_in ?l _ _ _ => eapply all_in_ext; [|exact H]; later
  | H : heap ?w !! ?o = Some ?x |- heap ?w' !! ?o = Some ?x => eapply prefix_lookup; [|exact H]; later
  | H : heap ?w !! ?o = Some ?x |- has_in ?o _ _ ?w' => exists x; split; [eapply prefix_lookup; [|exact H]; later|done]
  | H : heap ?w !! ?o = Some ?x |- has_out ?o _ ?w' => exists x; split; [eapply prefix_lookup; [|exact H]; later|done]
  end].

Lemma wp_link_partitions o T i ops w f n x :
  heap w !! o = Some x -> okind x = KPartitionBy f n -> oout x = Some T -> all_in ops In T w ->
  wp (link_partitions o T i ops) w (fun _ _ => True).
Proof.
  intros Hx Hk Ho Hops. revert i w Hx Hops. induction ops as [|op ops IH]; intros i w Hx Hops; [by apply wp_ret|].
  apply Forall_cons in Hops as [Hop Hops]. cbn [link_partitions].
  eapply wp_bind; [by eapply wp_connectChannelsForPartition|]. intros _ w1 Hpre _.
  apply IH; [by eapply prefix_lookup|by eapply all_in_ext].
Qed.

Lemma wp_link_next T it ops w : all_in ops In T w -> wp (link_next T it ops) w (fun _ _ => True).
Proof.
  revert it w. induction ops as [|op ops IH]; intros it w Hops; [by apply wp_ret|].
  apply Forall_cons in Hops as [Hop Hops]. cbn [link_next]. destruct it as [it|]; [|by apply wp_ret].
  wp_do wp_deref. intros o w1 Hpre1 _. wp_do wp_cast_source. intros _ w2 Hpre2 Ho.
  assert (heap w `prefix_of` heap w2) as Hpre by (by etransitivity).
  eapply wp_bind; [apply (wp_connect_op o In op T); [done|by eapply has_in_ext]|]. intros _ w3 Hpre3 _.
  wp_do wp_next. intros it' w4 Hpre4 _. apply IH. eapply all_in_ext; [|exact Hops]. by do 2 (etransitivity; [|done]).
Qed.

Lemma wp_addPartitionedPublisher T ops p w : all_in ops In T w ->
  wp (addPartitionedPublisher T ops p) w (fun _ _ => True).
Proof.
  intros Hops. unfold addPartitionedPublisher. destruct (partitioningState p); [apply wp_throw| |].
  - wp_do wp_getPublisher. intros o w1 Hpre1 _. wp_do wp_cast_partition. intros _ w2 Hpre2 (x & f & n & Hx & Hk & Ho).
    eapply wp_bind; [eapply wp_link_partitions; [done..|]|].
    { eapply all_in_ext; [|exact Hops]. by etransitivity. }
    intros _ w3 _ _. wp_do wp_addPublisherList. intros it w4 _ _. by apply wp_ret.
  - eapply wp_bind; [by apply wp_link_next|]. intros _ w1 _ _. wp_do wp_addPublisherList. intros it w2 _ _. by apply wp_ret.
Qed.

Lemma made_in {w} o i T : heap w !! i = Some o -> oin o = Some T -> has_in i In T w.
Proof. intros Hi HT. by exists o. Qed.

Lemma made_all_in {w} o ops T : Forall (fun i => heap w !! i = Some o) ops -> oin o = Some T -> all_in ops In T w.
Proof. intros Hops HT. eapply Forall_impl; [exact Hops|]. intros i Hi. exact (made_in o i T Hi HT). Qed.

Lemma wp_unary k Tin Tout p w : (k = KQueue -> Tin = Tout) -> wp (unary k Tin Tout p) w (fun _ _ => True).
Proof.
  intros Hk. unfold unary. set (o := mkOp k _ _ _).
  assert (okind o = KQueue -> oin o = oout o) as Hqueue by (intros Hkq; cbn; by rewrite Hk).
  assert (wp (ops ← mapM (fun _ => new_op o) (seq 0 (numPartitions p));
     '(p, iter) ← addPartitionedPublisher Tin ops p; mret (p, derive p Tout iter)) w (fun _ _ => True)) as Hparts.
  { wp_do wp_new_ops; [done|]. intros ops w1 _ Hops. eapply wp_bind; [apply wp_addPartitionedPublisher; by eapply made_all_in|].
    intros [p' it] w2 _ _. by apply wp_ret. }
  destruct (partitioningState p); [|exact Hparts..].
  wp_do wp_new_op; [done|]. intros op w1 _ Hop. eapply wp_bind; [apply wp_addPublisher; by eapply made_in|].
  intros it w2 _ _. by apply wp_ret.
Qed.

(** an operator with one input that is created and subscribed to the pipe *)
Lemma wp_one_op k Tin Tout p w (f : option nat -> pipe) : (k = KQueue -> Tin = Tout) ->
  wp (op ← new_op (mkOp k (Some Tin) None (Some Tout)); iter ← addPublisher Tin op p; mret (p, f iter)) w (fun _ _ => True).
Proof.
  intros Hk. wp_do wp_new_op; [intros Hkq; cbn; by rewrite Hk|]. intros op w1 _ Hop.
  eapply wp_bind; [apply wp_addPublisher; by eapply made_in|].
  intros it w2 _ _. by apply wp_ret.
Qed.

Lemma wp_sink_op k p w : k <> KQueue -> wp (sink_op k p) w (fun _ _ => True).
Proof.
  intros Hk. wp_do wp_check. intros _ w1 _ _. wp_do wp_new_op; [done|]. intros op w2 _ Hop. wp_do wp_getPublisher. intros o w3 Hpre3 _.
  wp_do wp_cast_source. intros _ w4 Hpre4 Ho. eapply wp_bind; [apply (wp_connect_op o In op (elem p)); [done|]|].
  { eapply has_in_ext; [|by eapply made_in]. by etransitivity. }
  intros _ w5 _ _. wp_do wp_addSink. intros _ w6 _ _. by apply wp_ret.
Qed.

Lemma wp_link_all T fuel it op w : has_in op In T w -> wp (link_all T fuel it op) w (fun _ _ => True).
Proof.
  revert it w. induction fuel as [|fuel IH]; intros it w Hop; [by apply wp_ret|].
  cbn [link_all]. destruct it as [it|]; [|by apply wp_ret].
  wp_do wp_deref. intros o w1 Hpre1 _. wp_do wp_cast_source. intros _ w2 Hpre2 Ho.
  assert (heap w `prefix_of` heap w2) as Hpre by (by etransitivity).
  eapply wp_bind; [apply (wp_connect_op o In op T); [done|by eapply has_in_ext]|]. intros _ w3 Hpre3 _.
  wp_do wp_next. intros it' w4 Hpre4 _. apply IH. eapply has_in_ext; [|exact Hop]. by do 2 (etransitivity; [|done]).
Qed.

Lemma wp_merge p w : wp (merge p) w (fun _ _ => True).
Proof.
  unfold merge. destruct (partitioningState p); [apply wp_throw..|]. wp_do wp_new_op; [done|]. intros op w1 _ Hop.
  wp_do wp_gets. intros n w2 Hpre2 _.
  eapply wp_bind; [apply wp_link_all; eapply has_in_ext; [done|by eapply made_in]|]. intros _ w3 Hpre3 _.
  wp_do wp_addPublisher_list. intros _ w4 Hpre4 _. wp_do wp_new_op; [done|]. intros q w5 Hpre5 Hq.
  eapply wp_bind; [apply (wp_connect_op op In q (elem p))|]; [|by eapply made_in|].
  - eapply has_out_ext; [|by exists (mkOp KMerge (Some (elem p)) None (Some (elem p)))]. by do 3 (etransitivity; [|done]).
  - intros _ w6 _ _. wp_do wp_addPublisher_list. intros it w7 _ _. by apply wp_ret.
Qed.

Lemma wp_join_right other i op it w : has_in op Right (elem other) w ->
  wp (join_right other i op it) w (fun _ _ => True).
Proof.
  intros Hop.
  assert (forall o w', heap w `prefix_of` heap w' -> has_out o (elem other) w' ->
    wp (connect_op o Right op) w' (fun _ _ => True)) as Hlink.
  { intros o w' Hpre Ho. apply (wp_connect_op o Right op (elem other)); [done|up]. }
  assert (wp (otherOp ← deref it; _ ← cast_source (elem other) otherOp; x ← op_at otherOp;
      if decide (opName (okind x) = "PartitionBy"%string) then
        _ ← cast_partition (elem other) otherOp;
        _ ← connectChannelsForPartition otherOp i (elem other) Right op; mret it
      else _ ← connect_op otherOp Right op; next it) w (fun _ _ => True)) as Hparts.
  { wp_do wp_deref. intros o w1 Hpre1 _. wp_do wp_cast_source. intros _ w2 Hpre2 Ho. wp_do wp_op_at. intros x w3 Hpre3 Hx.
    assert (heap w `prefix_of` heap w3) as Hpre by later. case_decide.
    - wp_do wp_cast_partition. intros _ w4 Hpre4 (x' & f & n & Hx' & Hk & Ho').
      eapply wp_bind; [eapply wp_connectChannelsForPartition; [done..|]|intros _ w5 _ _; by apply wp_ret].
      up.
    - eapply wp_bind; [apply Hlink; [later|up]|]. intros _ w4 _ _. apply wp_next. }
  unfold join_right. destruct (partitioningState other); [|exact Hparts..].
  wp_do wp_getPublisher. intros o w1 Hpre1 _. wp_do wp_cast_source. intros _ w2 Hpre2 Ho.
  eapply wp_bind; [apply Hlink; [later|up]|]. intros _ w3 _ _. by apply wp_ret.
Qed.

Lemma wp_join_first T other o i ops it w f n x :
  heap w !! o = Some x -> okind x = KPartitionBy f n -> oout x = Some T ->
  all_in ops Left T w -> all_in ops Right (elem other) w ->
  wp (join_first T other o i ops it) w (fun _ _ => True).
Proof.
  intros Hx Hk Ho HL HR. revert i it w Hx HL HR. induction ops as [|op ops IH]; intros i it w Hx HL HR; [by apply wp_ret|].
  apply Forall_cons in HL as [HL HLs]. apply Forall_cons in HR as [HR HRs]. cbn [join_first].
  eapply wp_bind; [by eapply wp_connectChannelsForPartition|]. intros _ w1 Hpre1 _.
  eapply wp_bind; [apply wp_join_right; up|]. intros it' w2 Hpre2 _.
  apply IH; up.
Qed.

Lemma wp_join_next T other iter i ops it w :
  all_in ops Left T w -> all_in ops Right (elem other) w ->
  wp (join_next T other iter i ops it) w (fun _ _ => True).
Proof.
  revert iter i it w. induction ops as [|op ops IH]; intros iter i it w HL HR; [by apply wp_ret|].
  apply Forall_cons in HL as [HL HLs]. apply Forall_cons in HR as [HR HRs]. cbn [join_next].
  destruct iter as [iter|]; [|by apply wp_ret].
  wp_do wp_deref. intros o w1 Hpre1 _. wp_do wp_cast_source. intros _ w2 Hpre2 Ho.
  eapply wp_bind; [apply (wp_connect_op o Left op T); [done|up]|]. intros _ w3 Hpre3 _.
  eapply wp_bind; [apply wp_join_right; up|]. intros it' w4 Hpre4 _. wp_do wp_next. intros iter' w5 Hpre5 _.
  apply IH; up.
Qed.

Lemma wp_join_all_right T2 fuel it op w : has_in op Right T2 w -> wp (join_all_right T2 fuel it op) w (fun _ _ => True).
Proof.
  revert it w. induction fuel as [|fuel IH]; intros it w Hop; [by apply wp_ret|].
  cbn [join_all_right]. destruct it as [it|]; [|by apply wp_ret].
  wp_do wp_deref. intros o w1 Hpre1 _. wp_do wp_cast_source. intros _ w2 Hpre2 Ho. wp_do wp_op_at. intros x w3 Hpre3 Hx.
  assert (heap w `prefix_of` heap w3) as Hpre by later.
  eapply (wp_bind _ _ _ (fun _ _ => True)).
  - case_decide; [by apply wp_ret|]. apply (wp_connect_op o Right op T2); [up|up].
  - intros _ w4 Hpre4 _. wp_do wp_next. intros it' w5 Hpre5 _. apply IH. up.
Qed.

Lemma wp_all_partitions other o op is_ w x f n : heap w !! o = Some x -> okind x = KPartitionBy f n -> oout x = Some (elem other) ->
  has_in op Right (elem other) w ->
  wp (forM (fun i => connectChannelsForPartition o i (elem other) Right op) is_) w (fun _ _ => True).
Proof.
  revert w. induction is_ as [|i is_ IH]; intros w Hx Hk Ho Hop; [by apply wp_ret|]. cbn [forM].
  eapply wp_bind; [by eapply wp_connectChannelsForPartition|]. intros _ w1 Hpre _.
  apply IH; up.
Qed.

Lemma wp_addJoin ops other p w :
  all_in ops Left (elem p) w -> all_in ops Right (elem other) w -> wp (addJoin ops other p) w (fun _ _ => True).
Proof.
  intros HL HR. unfold addJoin. eapply (wp_bind _ _ _ (fun _ _ => True)).
  - destruct (partitioningState p).
    + wp_do wp_getPublisher. intros o w1 Hpre1 _. wp_do wp_cast_source. intros _ w2 Hpre2 Ho.
      eapply (wp_bind _ _ _ (fun op w' => has_in op Left (elem p) w' /\ has_in op Right (elem other) w')); [apply wp_lift|].
      { intros op Hop%get_at_Ok. split.
        - pose proof (Forall_lookup_1 _ _ _ _ HL Hop : has_in op Left _ w). up.
        - pose proof (Forall_lookup_1 _ _ _ _ HR Hop : has_in op Right _ w). up. }
      intros op w3 Hpre3 [HopL HopR]. eapply wp_bind; [apply (wp_connect_op o Left op (elem p)); up|].
      intros _ w4 Hpre4 _. wp_do wp_deref. intros o2 w5 Hpre5 _. wp_do wp_cast_source. intros _ w6 Hpre6 Ho2.
      wp_do wp_op_at. intros x w7 Hpre7 Hx.
      eapply (wp_bind _ _ _ (fun _ _ => True)); [|intros _ w8 _ _; by apply wp_ret]. case_decide.
      * wp_do wp_cast_partition. intros _ w8 Hpre8 (x' & f & n & Hx' & Hk' & Ho'). eapply wp_all_partitions; [done..|].
        up.
      * wp_do wp_gets. intros n w8 Hpre8 _. apply wp_join_all_right. up.
    + wp_do wp_getPublisher. intros o w1 Hpre1 _. wp_do wp_cast_partition. intros _ w2 Hpre2 (x & f & n & Hx & Hk & Ho).
          eapply wp_bind; [eapply wp_join_first; [done..|up|up]|].
      intros _ w3 _ _. by apply wp_ret.
    + eapply wp_bind; [by apply wp_join_next|]. intros _ w1 _ _. by apply wp_ret.
  - intros p' w1 _ _. wp_do wp_addPublisherList. intros it w2 _ _. by apply wp_ret.
Qed.

Lemma wp_join K pred other p w : wp (join K pred other p) w (fun _ _ => True).
Proof.
  unfold join. apply wp_catch. wp_do wp_lift_any. intros fn1 w1 _ _. wp_do wp_lift_any. intros fn2 w2 _ _.
  set (Tout := JoinOf (elem p) (elem other)). set (o := mkOp (KSHJoin fn1 fn2 pred) _ _ _).
  assert (wp (ops ← mapM (fun _ => new_op o) (seq 0 (numPartitions p)); '(p, iter) ← addJoin ops other p;
     mret (p, derive p Tout iter)) w2 (fun _ _ => True)) as Hparts.
  { wp_do wp_new_ops; [done|]. intros ops w3 _ Hops.
    eapply wp_bind; [apply wp_addJoin; (eapply Forall_impl; [exact Hops|]; intros i Hi; by exists o)|].
    intros [p' it] w4 _ _. by apply wp_ret. }
  destruct (partitioningState p); [|exact Hparts..].
  destruct (partitioningState other); (wp_do wp_new_op; [done|]); intros op w3 _ Hop.
  - wp_do wp_getPublisher. intros o1 w4 Hpre4 _. wp_do wp_cast_source. intros _ w5 Hpre5 Ho1.
    eapply wp_bind; [apply (wp_connect_op o1 Left op (elem p)); up|]. intros _ w6 Hpre6 _.
    wp_do wp_getPublisher. intros o2 w7 Hpre7 _. wp_do wp_cast_source. intros _ w8 Hpre8 Ho2.
    eapply wp_bind; [apply (wp_connect_op o2 Right op (elem other)); up|]. intros _ w9 _ _.
    wp_do wp_addPublisher_list. intros it w10 _ _. by apply wp_ret.
  - eapply wp_bind; [apply wp_addJoin; repeat constructor; by exists o|]. intros [p' it] w4 _ _. by apply wp_ret.
  - eapply wp_bind; [apply wp_addJoin; repeat constructor; by exists o|]. intros [p' it] w4 _ _. by apply wp_ret.
Qed.

Lemma wp_scale_threads o T T2 Tout pOp otherOp combine is_ w :
  (forall i, okind (o i) <> KQueue /\ oin (o i) = Some T /\ oright (o i) = Some T2 /\ oout (o i) = Some Tout) ->
  has_out pOp T w -> has_out otherOp T2 w -> has_in combine In Tout w ->
  wp (mapM (scale_thread o T pOp otherOp combine) is_) w (fun _ _ => True).
Proof.
  intros Ho. revert w. induction is_ as [|i is_ IH]; intros w HpOp Hother Hcomb; [by apply wp_ret|]. cbn [mapM].
  destruct (Ho i) as (Hnq & Hin & Hright & Hout).
  eapply (wp_bind _ _ _ (fun _ _ => True)).
  - unfold scale_thread. wp_do wp_new_op; [done|]. intros qu w1 Hpre1 Hqu. wp_do wp_new_op; [done|]. intros sc w2 Hpre2 Hsc.
    eapply wp_bind; [apply (wp_connect_op pOp In qu T); up|]. intros _ w3 Hpre3 _.
    eapply wp_bind; [apply (wp_connect_op qu Left sc T); up|]. intros _ w4 Hpre4 _.
    eapply wp_bind; [apply (wp_connect_op otherOp Right sc T2); up|]. intros _ w5 Hpre5 _.
    eapply wp_bind; [apply (wp_connect_op sc In combine Tout); up|]. intros _ w6 Hpre6 _. by apply wp_ret.
  - intros qs w1 Hpre1 _. eapply wp_bind; [apply IH; up|]. intros l w2 _ _. by apply wp_ret.
Qed.

Lemma wp_scaleJoin K pred n other p w : wp (scaleJoin K pred n other p) w (fun _ _ => True).
Proof.
  unfold scaleJoin. apply wp_catch. wp_do wp_lift_any. intros fn1 w1 _ _. wp_do wp_lift_any. intros fn2 w2 _ _.
  wp_do wp_getPublisher. intros o1 w3 Hpre3 _. wp_do wp_cast_source. intros _ w4 Hpre4 Ho1.
  wp_do wp_getPublisher. intros o2 w5 Hpre5 _. wp_do wp_cast_source. intros _ w6 Hpre6 Ho2.
  wp_do wp_check. intros _ w7 Hpre7 _. wp_do wp_check. intros _ w8 Hpre8 _. wp_do wp_check. intros _ w9 Hpre9 _.
  wp_do wp_new_op; [done|]. intros combine w10 Hpre10 Hc.
  eapply wp_bind; [apply (wp_scale_threads _ _ (elem other) (JoinOf (elem p) (elem other))); [done|up..]|].
  intros threads w11 _ _. wp_do wp_addPublisherList. intros _ w12 _ _. wp_do wp_addPublisherList. intros _ w13 _ _.
  wp_do wp_addPublisher_list. intros it w14 _ _. by apply wp_ret.
Qed.

Lemma wp_toStream stream p w : wp (toStream stream p) w (fun _ _ => True).
Proof.
  wp_do wp_check. intros _ w1 _ _. wp_do wp_op_at. intros x w2 Hpre2 Hx.
  eapply (wp_bind _ _ _ (fun _ w' => has_out stream (elem p) w' /\ okind x = KQueue)).
  - destruct (okind x); try apply wp_throw. eapply wp_mono; [apply wp_cast_source|]. intros a w3 Ho. by split.
  - intros _ w3 Hpre3 [Ho Hk] Hw3. assert (has_in stream In (elem p) w3) as Hin.
    { exists x. split; [up|]. destruct Ho as (x' & Hx' & Ho). assert (heap w3 !! stream = Some x) as Hx3 by up.
      cbn [input]. rewrite (typed_queue w3 Hw3 stream x Hx3 Hk). congruence. }
    revert Hw3. change (wp (pOp ← getPublisher p; _ ← cast_source (elem p) pOp; _ ← CREATE_LINK pOp stream;
      mret (p, derive p (elem p) (tailIter p))) w3 (fun _ _ => True)). wp_do wp_getPublisher. intros o w4 Hpre4 _. wp_do wp_cast_source. intros _ w5 Hpre5 Ho2.
    eapply wp_bind; [apply (wp_connect_op o In stream (elem p)); up|]. intros _ w6 _ _. by apply wp_ret.
Qed.

Lemma wp_window_extractor wt p w : wp (window_extractor wt p) w (fun _ _ => True).
Proof.
  unfold window_extractor. destruct wt; try by apply wp_ret. wp_do wp_lift_any. intros fn w1 _ _. by apply wp_ret.
Qed.

(** the methods whose last step is [unary] *)
Ltac wp_unary := apply wp_unary; done.

Lemma wp_aggregate Tout ff itf tt ti p w : wp (aggregate Tout ff itf tt ti p) w (fun _ _ => True).
Proof.
  unfold aggregate. eapply (wp_bind _ _ _ (fun _ _ => True)); [|intros fn w1 _ _; wp_unary].
  destruct (partitioningState p); [|by apply wp_ret..].
  destruct (match timestampExtractor p with Some _ => _ | None => _ end); try by apply wp_ret.
  wp_do wp_lift_any. intros fn w1 _ _. by apply wp_ret.
Qed.

Lemma wp_method m p w : method_call m -> wp (m p) w (fun _ _ => True).
Proof.
  intros Hm. destruct Hm;
    try (unfold where_, notify, map_, statefulMap, queue, batch, unbatch, extract, extractJson, tuplify, barrier,
           aggregate_state; wp_unary).
  - apply wp_catch. wp_do wp_window_extractor. intros fn w1 _ _. wp_unary.
  - apply wp_catch. wp_do wp_window_extractor. intros fn w1 _ _. wp_unary.
  - apply wp_aggregate.
  - apply wp_catch. wp_do wp_lift_any. intros fn w1 _ _. wp_unary.
  - by apply wp_one_op.
  - wp_do wp_check. intros _ w1 _ _. by apply wp_one_op.
  - by apply wp_sink_op.
  - by apply wp_sink_op.
  - apply wp_toStream.
  - wp_do wp_check. intros _ w1 _ _. apply wp_catch. wp_do wp_lift_any. intros fn w2 _ _. by apply wp_one_op.
  - wp_do wp_check. intros _ w1 _ _. apply wp_catch. wp_do wp_lift_any. intros fn w2 _ _.
    wp_do wp_lift_any. intros fn' w3 _ _. by apply wp_one_op.
  - unfold partitionBy. destruct (partitioningState p); [|apply wp_throw..]. by apply wp_one_op.
  - apply wp_merge.
  - apply wp_join.
  - apply wp_scaleJoin.
Qed.

Lemma wp_register o w : wp (registerStartupFunction o) w (fun _ _ => True) /\ wp (registerPrepareFunction o) w (fun _ _ => True).
Proof. split; by apply (wp_pure (fun w => _) (fun w => _)). Qed.

Lemma wp_started cls T w : wp (started_source cls T) w (fun _ _ => True).
Proof.
  wp_do wp_new_op; [done|]. intros o w1 _ _. eapply wp_bind; [apply wp_register|]. intros _ w2 _ _.
  wp_do wp_addPublisher_list. intros it w3 _ _. by apply wp_ret.
Qed.

Lemma wp_source m w : source_call m -> wp m w (fun _ _ => True).
Proof.
  intros Hm. destruct Hm. 1-6: apply wp_started.
  - wp_do wp_new_op; [done|]. intros o w1 _ _. wp_do wp_addPublisher_list. intros it w2 _ _. by apply wp_ret.
  - wp_do wp_new_op; [done|]. intros o w1 _ _. eapply wp_bind; [apply wp_register|]. intros _ w2 _ _.
    eapply wp_bind; [apply wp_register|]. intros _ w3 _ _. wp_do wp_addPublisher_list. intros it w4 _ _. by apply wp_ret.
  - wp_do wp_op_at. intros x w1 _ _. case_decide; [|apply wp_throw].
    wp_do wp_addPublisher_list. intros it w2 _ _. by apply wp_ret.
Qed.

Lemma typed_empty : typed empty_world.
Proof.
  split; cbn [empty_world heap links mPartitions]; intros *; [by intros ?%elem_of_nil..|by rewrite lookup_nil].
Qed.

(** C22: Whatever calls of the DSL a program makes, on whatever pipes, and also
    when some of them throw half way: in the dataflow that results every
    subscription connects an output with an input of the same element type, and
    so does every entry of the partition tables. *)
Theorem built_typed (w : world) : built w -> typed w.
Proof.
  intros Hw. induction Hw as [|w T Hw IH|w m Hw IH Hm|w m p Hw IH Hm].
  - apply typed_empty.
  - by apply wp_new_op.
  - by apply wp_source.
  - by apply wp_method.
Qed.

End dsl.

(** ** Witness: a source, a partitioned selection, and a merge that throws *)

Definition demo_source : world (V:=Z) := (streamFromGenerator (Elem 1) empty_world).2.
Definition demo_pipe : pipe (V:=Z) := new_pipe (Elem 1) (Some 0%nat).
Definition demo_partitioned : world := (partitionBy (fun v => v mod 2) 2 demo_pipe demo_source).2.
Definition demo_where : world :=
  (where_ (fun v _ => v <? 10) (mkPipe (Elem 1) FirstInPartitioning None None None 2 (Some 1%nat)) demo_partitioned).2.

Lemma built_typed_witness : typed (merge demo_pipe demo_where).2 /\ length (links (merge demo_pipe demo_where).2) = 6%nat.
Proof.
  split; [|reflexivity].
  apply built_typed. apply built_method; [|apply call_merge]. apply built_method; [|apply call_where].
  apply built_method; [|apply call_partitionBy]. apply built_source; [|apply source_generator]. apply built_empty.
Defined.
