(* ===== verification/Lifecycle.v ===== *)
(** * Lifecycle: starting, waiting for and stopping a topology

    The part of [dsl/Topology.cpp] that runs what [Dataflow.v] has built: the
    start functions, called one after another or each in a thread of its own
    ([std::async]), [wait] on their futures, and the threads of [runEvery].

    Between two steps of the program that owns the topology any of the threads
    may proceed.  [wait] and [stopThreads] are therefore programs with a
    position: the future, or the thread, that they have come to. *)

From S2P Require Import Prelude Dataflow.

(** ** One call after another *)

Section calls.
Context {W : Type} (body : nat -> W -> result Z * W).

(** an exception ends the loop *)
Fixpoint call_all (l : list nat) (w : W) : result unit * W :=
  match l with
  | [] => (Ok tt, w)
  | f :: l => match body f w with (Ok _, w) => call_all l w | (Err e, w) => (Err e, w) end
  end.

Definition prepare {V} (t : world (V := V)) (w : W) : result unit * W := call_all (prepareList t) w.
Definition start_sync {V} (t : world (V := V)) (w : W) : result unit * W := call_all (startupList t) w.
End calls.

(** ** Threads *)

(** a thread of [std::async]: the start function, and how it ended *)
Record thread := mkThread { t_fun : nat; t_end : option (string + Z) }.

(** a thread of [runEvery]: asleep, in its call of the [k]-th start function, or
    ended by the interruption it was sent *)
Inductive timer_state := Sleeping | Calling (k : nat) | Ended.
Record timer := mkTimer { interrupted : bool; tm_state : timer_state }.

(** the program that owns the topology *)
Inductive client :=
  | Free
  | Getting (k : nat)       (** in [wait], about to get future [k] *)
  | Joining (k : nat)       (** in [stopThreads], about to join thread [k] *)
  | Waited                  (** [wait] has just returned *)
  | Stopped                 (** [stopThreads] has just returned *)
  | Threw (msg : string)    (** the exception of a start function came out of [wait] *)
  | Undefined               (** [get] on a future without shared state *)
  | Terminated.             (** an exception left a thread of [runEvery] *)

Section lifecycle.
Context {V : Type}.

(** A future is the thread it belongs to, or empty after [get]. *)
Record system := mkSystem {
  built : world (V := V);
  asyncStarted : bool;
  startupFutures : list (option nat);
  wakeupTimers : list timer;
  threads : list thread;
  owner : client
}.

Definition Topology_new (w : world) : system := mkSystem w false [] [] [] Free.

Definition owner_to (c : client) (s : system) : system :=
  mkSystem (built s) (asyncStarted s) (startupFutures s) (wakeupTimers s) (threads s) c.
Definition with_futures (fs : list (option nat)) (s : system) : system :=
  mkSystem (built s) (asyncStarted s) fs (wakeupTimers s) (threads s) (owner s).
Definition with_timers (ts : list timer) (s : system) : system :=
  mkSystem (built s) (asyncStarted s) (startupFutures s) ts (threads s) (owner s).
Definition with_threads (ts : list thread) (s : system) : system :=
  mkSystem (built s) (asyncStarted s) (startupFutures s) (wakeupTimers s) ts (owner s).

(** all start functions are launched; the call returns without waiting for them *)
Definition startAsync (s : system) : system :=
  let l := startupList (built s) in
  mkSystem (built s) true
    (startupFutures s ++ (Some <$> seq (length (threads s)) (length l)))
    (wakeupTimers s) (threads s ++ ((fun f => mkThread f None) <$> l)) Free.

Definition ended (s : system) (i : nat) : Prop := exists th r, threads s !! i = Some th /\ t_end th = Some r.

(** the destructor of a future of [std::async] waits for its thread *)
Definition can_clear (s : system) : Prop := forall i, Some i ∈ startupFutures s -> ended s i.
Definition cleanStartupFunctions (s : system) : system := with_futures [] s.

Definition runEvery (s : system) : system := with_timers (wakeupTimers s ++ [mkTimer false Sleeping]) s.

Definition interrupt (t : timer) : timer := mkTimer true (tm_state t).
(** the first loop of [stopThreads], and the second one at its start *)
Definition stopThreads (s : system) : system := owner_to (Joining 0) (with_timers (interrupt <$> wakeupTimers s) s).

(** the owner runs its own code *)
Definition at_rest (c : client) : bool := match c with Free | Waited | Stopped | Threw _ => true | _ => false end.

(** ** Steps *)

(** one step of a [runEvery] thread, with the number [n] of start functions;
    [boost::this_thread::sleep_for] is where an interruption takes effect *)
Inductive timer_step (n : nat) : timer -> timer -> Prop :=
  | timer_wakes t : tm_state t = Sleeping -> interrupted t = false -> timer_step n t (mkTimer false (Calling 0))
  | timer_calls t k : tm_state t = Calling k -> (k < n)%nat -> timer_step n t (mkTimer (interrupted t) (Calling (S k)))
  | timer_sleeps t : tm_state t = Calling n -> timer_step n t (mkTimer (interrupted t) Sleeping)
  | timer_ends t : tm_state t = Sleeping -> interrupted t = true -> timer_step n t (mkTimer true Ended).

Inductive step (s : system) : system -> Prop :=
  (* the threads *)
  | thread_ends i th r : threads s !! i = Some th -> t_end th = None ->
      step s (with_threads (<[i := mkThread (t_fun th) (Some r)]> (threads s)) s)
  | timer_proceeds i t t' : wakeupTimers s !! i = Some t -> timer_step (length (startupList (built s))) t t' ->
      step s (with_timers (<[i := t']> (wakeupTimers s)) s)
  | timer_throws i t k : wakeupTimers s !! i = Some t -> tm_state t = Calling k -> (k < length (startupList (built s)))%nat ->
      step s (owner_to Terminated s)
  (* the owner; a topology is not built further while timers read its list *)
  | owner_builds w : at_rest (owner s) = true -> wakeupTimers s = [] ->
      step s (mkSystem w (asyncStarted s) (startupFutures s) (wakeupTimers s) (threads s) Free)
  | owner_starts : at_rest (owner s) = true -> step s (startAsync s)
  | owner_clears : at_rest (owner s) = true -> can_clear s -> step s (owner_to Free (cleanStartupFunctions s))
  | owner_runs_every : at_rest (owner s) = true -> step s (owner_to Free (runEvery s))
  | wait_not_async : at_rest (owner s) = true -> asyncStarted s = false -> step s (owner_to Free s)
  | wait_begins : at_rest (owner s) = true -> asyncStarted s = true -> step s (owner_to (Getting 0) s)
  | wait_gets k i th z : owner s = Getting k -> startupFutures s !! k = Some (Some i) ->
      threads s !! i = Some th -> t_end th = Some (inr z) ->
      step s (owner_to (Getting (S k)) (with_futures (<[k := None]> (startupFutures s)) s))
  | wait_throws k i th msg : owner s = Getting k -> startupFutures s !! k = Some (Some i) ->
      threads s !! i = Some th -> t_end th = Some (inl msg) ->
      step s (owner_to (Threw msg) (with_futures (<[k := None]> (startupFutures s)) s))
  | wait_gets_again k : owner s = Getting k -> startupFutures s !! k = Some None -> step s (owner_to Undefined s)
  | wait_returns k : owner s = Getting k -> (length (startupFutures s) <= k)%nat -> step s (owner_to Waited s)
  | stop_begins : at_rest (owner s) = true -> step s (stopThreads s)
  | stop_joins k t : owner s = Joining k -> wakeupTimers s !! k = Some t -> tm_state t = Ended -> step s (owner_to (Joining (S k)) s)
  | stop_returns k : owner s = Joining k -> (length (wakeupTimers s) <= k)%nat -> step s (owner_to Stopped s).

Definition reachable (w : world) (s : system) : Prop := rtc step (Topology_new w) s.


(** ** What holds in every state *)

Record inv (s : system) : Prop := {
  running_has_future : forall i th, threads s !! i = Some th -> t_end th = None -> exists j, startupFutures s !! j = Some (Some i);
  future_has_thread : forall j i, startupFutures s !! j = Some (Some i) -> (i < length (threads s))%nat;
  got_before : forall k j i, owner s = Getting k -> (j < k)%nat -> startupFutures s !! j <> Some (Some i);
  waited_for_all : forall j i, owner s = Waited -> startupFutures s !! j <> Some (Some i);
  told_to_end : forall k j t, owner s = Joining k -> wakeupTimers s !! j = Some t -> interrupted t = true;
  joined_before : forall k j t, owner s = Joining k -> (j < k)%nat -> wakeupTimers s !! j = Some t -> tm_state t = Ended;
  joined_all : forall j t, owner s = Stopped -> wakeupTimers s !! j = Some t -> tm_state t = Ended
}.

Lemma inv_new w : inv (Topology_new w).
Proof. split; cbn; intros; simplify_eq. Qed.

Lemma timer_step_interrupted n t t' : timer_step n t t' -> interrupted t = true -> interrupted t' = true.
Proof. inversion 1; subst; cbn; congruence. Qed.

Lemma timer_step_alive n t t' : timer_step n t t' -> tm_state t <> Ended.
Proof. inversion 1; congruence. Qed.

(** what only depends on the futures and the threads *)
Lemma inv_owner s c : inv s -> (c = Free \/ c = Undefined \/ c = Terminated \/ exists m, c = Threw m) -> inv (owner_to c s).
Proof.
  intros [Hr Hf _ _ _ _ _] Hc. split; cbn; try done; intros; exfalso; destruct Hc as [->|[->|[->|[m ->]]]]; discriminate.
Qed.

Lemma inv_thread_ends s i th r : inv s -> threads s !! i = Some th ->
  inv (with_threads (<[i := mkThread (t_fun th) (Some r)]> (threads s)) s).
Proof.
  intros [Hr Hf Hg Hw Ht Hb Ha] Hi. split; cbn; try done.
  - intros j th' [[_ [<- _]]|[_ Hj]]%list_lookup_insert_Some; [done|by apply Hr].
  - intros j k. rewrite length_insert. apply Hf.
Qed.

Lemma inv_timer s i t t' n : inv s -> wakeupTimers s !! i = Some t -> timer_step n t t' ->
  inv (with_timers (<[i := t']> (wakeupTimers s)) s).
Proof.
  intros [Hr Hf Hg Hw Ht Hb Ha] Hi Hst. pose proof (timer_step_alive _ _ _ Hst) as Hal. split; cbn; try done.
  - intros k j t0 Hk [[<- [<- _]]|[_ Hj]]%list_lookup_insert_Some; [|by eapply Ht].
    apply (timer_step_interrupted _ _ _ Hst). by eapply Ht.
  - intros k j t0 Hk Hjk [[<- [<- _]]|[_ Hj]]%list_lookup_insert_Some; [|by eapply Hb].
    destruct Hal. by eapply Hb.
  - intros j t0 Hk [[<- [<- _]]|[_ Hj]]%list_lookup_insert_Some; [|by eapply Ha]. destruct Hal. by eapply Ha.
Qed.

Lemma inv_startAsync s : inv s -> inv (startAsync s).
Proof.
  intros [Hr Hf _ _ _ _ _]. split; cbn; try done.
  - intros i th [Hi|[Hi Hl]]%lookup_app_Some Hn.
    + destruct (Hr _ _ Hi Hn) as [j Hj]. exists j. by apply lookup_app_l_Some.
    + rewrite list_lookup_fmap_Some in Hl. destruct Hl as (f & -> & Hl).
      exists (length (startupFutures s) + (i - length (threads s)))%nat.
      rewrite lookup_app_r by lia. rewrite list_lookup_fmap, lookup_seq_lt by (apply lookup_lt_Some in Hl; lia).
      cbn. do 2 f_equal. lia.
  - intros j i. rewrite length_app, length_fmap. intros [Hj|[_ Hj]]%lookup_app_Some; [pose proof (Hf _ _ Hj); lia|].
    rewrite list_lookup_fmap_Some in Hj. destruct Hj as (x & [= ->] & [-> Hx]%lookup_seq). lia.
Qed.

(** [get] on the future of a thread that has ended *)
Lemma inv_gets s k i th r c : inv s -> owner s = Getting k -> startupFutures s !! k = Some (Some i) ->
  threads s !! i = Some th -> t_end th = Some r -> c = Getting (S k) \/ (exists m, c = Threw m) ->
  inv (owner_to c (with_futures (<[k := None]> (startupFutures s)) s)).
Proof.
  intros [Hr Hf Hg _ _ _ _] Hk Hfk Hi Hend Hc. 
  assert (c <> Waited /\ c <> Stopped /\ (forall k', c <> Joining k')) as (Hc1 & Hc2 & Hc3) by (destruct Hc as [->|[m ->]]; done).
  split; cbn; try (intros; exfalso; first [by apply Hc1|by apply Hc2|by eapply Hc3]).
  - intros i' th' Hi' Hn. destruct (Hr _ _ Hi' Hn) as [j Hj]. exists j. rewrite list_lookup_insert_ne; [done|]. intros <-. naive_solver.
  - intros j x [[_ [? _]]|[_ Hj]]%list_lookup_insert_Some; [done|by eapply Hf].
  - intros k' j x Hk' Hj [[_ [? _]]|[Hne Hx]]%list_lookup_insert_Some; [done|].
    destruct Hc as [->|[m ->]]; [injection Hk' as <-|done]. eapply (Hg k j); [done|lia|done].
Qed.

Lemma inv_step s s' : inv s -> step s s' -> inv s'.
Proof.
  intros Hinv Hst. pose proof Hinv as [Hr Hf Hg Hw Ht Hb Ha]. destruct Hst.
  - by apply inv_thread_ends.
  - by eapply inv_timer.
  - apply inv_owner; tauto.
  - by split.
  - by apply inv_startAsync.
  - apply inv_owner; [|tauto]. split; cbn; try done; try (intros *; by rewrite lookup_nil).
    intros i th Hi Hn. destruct (Hr _ _ Hi Hn) as [j Hj]. destruct (H0 i) as (th' & r & Hi' & Hr'); [by eapply list_elem_of_lookup_2|].
    naive_solver.
  - by split.
  - apply inv_owner; tauto.
  - split; cbn; try done. intros k j i [= <-]. lia.
  - eapply inv_gets; eauto.
  - eapply inv_gets; eauto.
  - apply inv_owner; tauto.
  - split; cbn; try done. intros j i _ Hj. eapply (Hg k j); [done| |done]. apply lookup_lt_Some in Hj. lia.
  - split; cbn; try done.
    + intros k j t _. rewrite list_lookup_fmap_Some. by intros (t0 & -> & _).
    + intros k j t [= <-]. lia.
  - split; cbn; try done.
    + intros k' j t' [= <-]. by eapply Ht.
    + intros k' j t' [= <-] Hj Hj'. destruct (decide (j = k)) as [->|]; [congruence|]. eapply (Hb k j); [done|lia|done].
  - split; cbn; try done. intros j t _ Hj. eapply (Hb k j); [done| |done]. apply lookup_lt_Some in Hj. lia.
Qed.

Lemma inv_steps s s' : rtc step s s' -> inv s -> inv s'.
Proof. induction 1; eauto using inv_step. Qed.

Lemma lifecycle_inv w s : reachable w s -> inv s.
Proof. intros Hs. exact (inv_steps _ _ Hs (inv_new w)). Qed.

(** ** What a program can rely on *)

(** When [wait] has returned every thread of the start functions has ended;
    until then it waits only for threads that have not. *)
Lemma wait_joins w s : reachable w s ->
  (owner s = Waited -> forall i, (i < length (threads s))%nat -> ended s i) /\
  (forall k, owner s = Getting k -> (forall i, startupFutures s !! k = Some (Some i) -> ended s i) -> exists s', step s s' /\ owner s' <> owner s).
Proof.
  intros Hs%lifecycle_inv. split.
  - intros Hw i [th Hi]%lookup_lt_is_Some. destruct (t_end th) as [r|] eqn:Hn; [by exists th, r|].
    destruct (running_has_future _ Hs _ _ Hi Hn) as [j Hj]. by destruct (waited_for_all _ Hs j i Hw).
  - intros k Hk He. destruct (startupFutures s !! k) as [[i|]|] eqn:Hf.
    + destruct (He i eq_refl) as (th & [msg|z] & Hi & Hr).
      * eexists. split; [by eapply wait_throws|]. cbn. by rewrite Hk.
      * eexists. split; [by eapply wait_gets|]. cbn. rewrite Hk. intros [=]. lia.
    + eexists. split; [by eapply wait_gets_again|]. cbn. by rewrite Hk.
    + eexists. split; [eapply wait_returns; [done|by apply lookup_ge_None]|]. cbn. by rewrite Hk.
Qed.

(** [start(true)] is back before any start function has ended; a [wait] that is
    not preceded by it returns at once. *)
Lemma start_async_returns_early s : owner (startAsync s) = Free /\ startupList (built (startAsync s)) = startupList (built s) /\
  (forall k f, startupList (built s) !! k = Some f -> threads (startAsync s) !! (length (threads s) + k)%nat = Some (mkThread f None)) .
Proof.
  split_and!; [done|done|]. intros k f Hk. cbn. rewrite lookup_app_r by lia.
  replace (_ + k - _)%nat with k by lia. by rewrite list_lookup_fmap, Hk.
Qed.

(** The futures are kept after [wait]: a second one has no defined behaviour. *)
Lemma wait_twice w s s1 s2 : reachable w s -> owner s = Waited -> startupFutures s <> [] ->
  owner s1 = Getting 0 -> step s s1 -> step s1 s2 -> owner s2 <> Getting 0 -> owner s2 = Undefined \/ owner s2 = Terminated.
Proof.
  intros Hs%lifecycle_inv Hw Hne H1 Hst1 Hst2 H2.
  assert (startupFutures s1 = startupFutures s) as Hf by (destruct Hst1; cbn in *; congruence).
  assert (forall i, startupFutures s1 !! 0%nat <> Some (Some i)) as Hnone by (intros i; rewrite Hf; by eapply waited_for_all).
  assert (startupFutures s1 !! 0%nat <> None) as Hsome by (rewrite Hf; by destruct (startupFutures s)).
  destruct Hst2; cbn in *; simplify_eq; rewrite ?H1 in *; cbn in *; simplify_eq; auto.
  all: try by destruct (Hnone _ ltac:(eassumption)).
  destruct Hsome. apply lookup_ge_None. lia.
Qed.

Lemma ended_timer_stays s s' j t : step s s' -> wakeupTimers s !! j = Some t -> tm_state t = Ended ->
  exists t', wakeupTimers s' !! j = Some t' /\ tm_state t' = Ended.
Proof.
  intros Hstep Hj He. destruct Hstep as [|i t0 t' Hi Ht| | | | | | | | | | | | | |]; cbn; eauto.
  - destruct (decide (i = j)) as [->|]; [|rewrite list_lookup_insert_ne by done; eauto].
    by destruct (timer_step_alive _ _ _ Ht); congruence.
  - exists t. by rewrite (lookup_app_l_Some _ _ _ _ Hj).
  - rewrite list_lookup_fmap, Hj. cbn. eauto.
Qed.

(** After [stopThreads] no thread of [runEvery] is left, and none that was there
    calls a start function again. *)
Lemma stop_joins_all w s : reachable w s -> owner s = Stopped ->
  (forall j t, wakeupTimers s !! j = Some t -> tm_state t = Ended) /\
  (forall s', rtc step s s' -> forall j t, wakeupTimers s !! j = Some t -> exists t', wakeupTimers s' !! j = Some t' /\ tm_state t' = Ended).
Proof.
  intros Hs%lifecycle_inv Hst. assert (forall j t, wakeupTimers s !! j = Some t -> tm_state t = Ended) as Hall by (intros; by eapply joined_all).
  split; [done|]. intros s' Hrun j t Hj. pose proof (Hall _ _ Hj) as He. clear Hall Hs Hst.
  revert t Hj He. induction Hrun as [|s1 s2 s3 Hstep _ IH]; intros t Hj He; [eauto|].
  destruct (ended_timer_stays _ _ _ _ Hstep Hj He) as (t' & Hj' & He'). eauto.
Qed.
End lifecycle.

(** Two sources that end in the opposite order, and the state after [wait]. *)
Lemma a_run : let w := mkWorld (V := unit) [] [] [] [] [] [3; 5]%nat [] in
  exists s, reachable w s /\ owner s = Waited /\ startupFutures s = [None; None] /\
    threads s = [mkThread 3 (Some (inr 7)); mkThread 5 (Some (inr 8))].
Proof.
  cbv zeta. eexists. split; [|split; [|split]].
  - unfold reachable. eapply rtc_l; [by apply owner_starts|].
    eapply rtc_l; [by apply (thread_ends _ 1 (mkThread 5 None) (inr 8))|].
    eapply rtc_l; [by apply wait_begins|].
    eapply rtc_l; [by apply (thread_ends _ 0 (mkThread 3 None) (inr 7))|].
    eapply rtc_l; [by eapply (wait_gets _ 0 0)|]. eapply rtc_l; [by eapply (wait_gets _ 1 1)|].
    eapply rtc_l; [by apply (wait_returns _ 2)|]. apply rtc_refl.
  - done.
  - done.
  - done.
Qed.
