(* ===== verification/Pipelines.v ===== *)
(** * Pipelines: running a dataflow

    How messages run through a graph built with the calls of [Dataflow.v]:
    publishing calls the subscribers one after the other, down to the queues
    ([PartitionBy] has one per partition), which threads of their own empty.  A
    run is a sequence of steps of the source and of these threads, in any order.
    The operators without state are run; the file shows that for them the order
    does not matter for what arrives, and that a pipeline which the DSL
    partitions and merges does the work of the same pipeline without
    partitions. *)

From S2P Require Import Prelude Stream Operators Aggregation Dataflow.

Section run.
Context {V : Type} (w : world (V:=V)).

(** a call of the input channel of an operator *)
Abbreviation call := (nat * message V)%type.

(** what the call of a channel does: messages put in queues, and those that user
    code has seen (the callback of a [Notify], a sink) *)
Abbreviation effect := (list call * list call)%type.

Fixpoint collect (f : call -> option effect) (l : list call) : option effect :=
  match l with
  | [] => Some ([], [])
  | c :: l => '(q1, l1) ← f c; '(q2, l2) ← collect f l; Some (q1 ++ q2, l1 ++ l2)
  end.

(** the subscribers that a message published by [o] goes to, in the order of
    their subscriptions *)
Definition subscribers (o : nat) (m : message V) : list nat :=
  omap (fun l => match l, m with
                 | DataLink s _ d, MData _ _ => if decide (s = o) then Some d else None
                 | PunctLink s d, MPunct _ => if decide (s = o) then Some d else None
                 | _, _ => None
                 end) (links w).

Definition calls (o : nat) (outs : list (message V)) : list call :=
  outs ≫= fun m => (fun d => (d, m)) <$> subscribers o m.

(** the queues of a [PartitionBy] for a message: of the partition of an element,
    all for a punctuation *)
Definition partition_calls (o : nat) (f : V -> Z) (m : message V) : list call :=
  omap (fun e => let '((o', i), q) := e in
                 if decide (o' = o) then
                   match m with
                   | MData v _ => if decide (f v = Z.of_nat i) then Some (q, m) else None
                   | MPunct _ => Some (q, m)
                   end
                 else None) (mPartitions w).

(** what an operator without state publishes for a message *)
Definition react (k : kind (V:=V)) (m : message V) : option (list (message V)) :=
  let out r := match r with Ok (out, tt) => Some out | Err _ => None end in
  match k with
  | KWhere func => out (where_step func m tt)
  | KMap func => out (map_step func m tt)
  | KMerge => out (merge_step m tt)
  | _ => None
  end.

(** a synchronous call, given what the calls it makes do; fuel: the length of the
    chains of subscriptions *)
Definition deliver_call (F : call -> option effect) (c : call) : option effect :=
  let '(o, m) := c in
  x ← heap w !! o;
  match okind x with
  | KQueue => Some ([(o, m)], [])
  | KPartitionBy f _ => Some (partition_calls o f m, [])
  | KConsoleWriter _ _ | KFileWriter _ _ => Some ([], [(o, m)])
  | KNotify _ _ => '(q, l) ← collect F (calls o [m]); Some (q, (o, m) :: l)
  | k => outs ← react k m; collect F (calls o outs)
  end.

Fixpoint deliver (fuel : nat) : call -> option effect :=
  match fuel with
  | O => fun _ => None
  | S fuel => deliver_call (deliver fuel)
  end.

(** Queues and most sources publish a punctuation as a temporary object, which
    moves into the call of the first subscriber: any further one is called with a
    null pointer, see [PubSub.v].  Such a call has no defined result. *)
Definition publishes_temporaries (k : kind (V:=V)) : bool :=
  match k with
  | KQueue => true
  | KSource cls => bool_decide (cls ∈ ["StreamGenerator"; "MemorySource"; "SelectFromTable"; "SelectFromTxTable"; "FromTxTables"])
  | _ => false
  end%string.

Definition thread_calls (o : nat) (m : message V) : option (list call) :=
  match m, heap w !! o with
  | MPunct _, Some x =>
      if publishes_temporaries (okind x) && (1 <? length (subscribers o m))%nat then None else Some (calls o [m])
  | _, _ => Some (calls o [m])
  end.

(** the source, or the thread of a queue, publishes a message *)
Definition publish (fuel : nat) (c : call) : option effect := thread_calls c.1 c.2 ≫= collect (deliver fuel).

(** ** Runs *)

(** what the source has still to publish, what is in the queues, in order of
    arrival, and what user code has seen *)
Record config := mkConfig { input : list call; pending : list call; seen : list call }.

Inductive step (fuel : nat) : config -> config -> Prop :=
  | step_source s m rest qs l q' l' :
      publish fuel (s, m) = Some (q', l') ->
      step fuel (mkConfig ((s, m) :: rest) qs l) (mkConfig rest (qs ++ q') (l ++ l'))
  | step_queue inp pre q m post l q' l' :
      (forall m', (q, m') ∉ pre) ->
      publish fuel (q, queued m) = Some (q', l') ->
      step fuel (mkConfig inp (pre ++ (q, m) :: post) l) (mkConfig inp (pre ++ post ++ q') (l ++ l')).

Definition drained (c : config) : Prop := input c = [] /\ pending c = [].

(** The same without queues: the thread of a queue runs at once.  The first
    component now lists the elements taken from queues. *)
Definition final_call (F : call -> option effect) (c : call) : option effect :=
  let '(o, m) := c in
  x ← heap w !! o;
  match okind x with
  | KQueue => '(q, l) ← thread_calls o (queued m) ≫= collect F; Some ((o, m) :: q, l)
  | KPartitionBy f _ => collect F (partition_calls o f m)
  | KConsoleWriter _ _ | KFileWriter _ _ => Some ([], [(o, m)])
  | KNotify _ _ => '(q, l) ← collect F (calls o [m]); Some (q, (o, m) :: l)
  | k => outs ← react k m; collect F (calls o outs)
  end.

Fixpoint final (fuel : nat) : call -> option effect :=
  match fuel with
  | O => fun _ => None
  | S fuel => final_call (final fuel)
  end.

Definition final_publish (fuel : nat) (c : call) : option effect := thread_calls c.1 c.2 ≫= collect (final fuel).

(** ** Lemmas *)

Lemma collect_app f l l' : collect f (l ++ l') =
  ('(q1, l1) ← collect f l; '(q2, l2) ← collect f l'; Some (q1 ++ q2, l1 ++ l2)).
Proof.
  induction l as [|c l IH]; cbn [collect app mbind option_bind].
  - by destruct (collect f l') as [[q2 l2]|].
  - destruct (f c) as [[q1 l1]|]; [|done]. cbn [mbind option_bind]. rewrite IH.
    destruct (collect f l) as [[q2 l2]|]; [|done]. cbn [mbind option_bind].
    destruct (collect f l') as [[q3 l3]|]; [|done]. cbn [mbind option_bind]. by rewrite !app_assoc.
Qed.

Lemma collect_mono (f g : call -> option effect) l r :
  (forall c e, f c = Some e -> g c = Some e) -> collect f l = Some r -> collect g l = Some r.
Proof.
  intros Hfg. revert r. induction l as [|c l IH]; intros r; cbn [collect]; [done|].
  destruct (f c) as [[q1 l1]|] eqn:Hc; [|done]. cbn [mbind option_bind].
  destruct (collect f l) as [[q2 l2]|]; [|done]. rewrite (Hfg c _ Hc). by rewrite (IH _ eq_refl).
Qed.

Lemma final_call_mono (F G : call -> option effect) c r :
  (forall c e, F c = Some e -> G c = Some e) -> final_call F c = Some r -> final_call G c = Some r.
Proof.
  intros HFG. destruct c as [o m]. unfold final_call. destruct (heap w !! o) as [x|]; [|done]. cbn [mbind option_bind].
  assert (forall l e, collect F l = Some e -> collect G l = Some e) as Hc by (intros l e; by apply collect_mono).
  assert (forall outs : option (list (message V)), (outs ≫= fun outs => collect F (calls o outs)) = Some r ->
    (outs ≫= fun outs => collect G (calls o outs)) = Some r) as Hr by (intros [outs|]; [apply Hc|done]).
  destruct (okind x); try exact (Hr _); try done; try exact (Hc _ _).
  - destruct (collect F _) as [[q l]|] eqn:He; [|done]. by rewrite (Hc _ _ He).
  - destruct (thread_calls o _) as [cs|]; [|done]. cbn [mbind option_bind].
    destruct (collect F cs) as [[q l]|] eqn:He; [|done]. by rewrite (Hc _ _ He).
Qed.

Lemma final_S fuel c r : final fuel c = Some r -> final (S fuel) c = Some r.
Proof. revert c r. induction fuel as [|fuel IH]; intros c r; [done|]. cbn [final]. by apply final_call_mono. Qed.

(** A synchronous call does part of what [final] does; the rest is in the queues. *)
Definition splits (D F : call -> option effect) (c : call) : Prop := forall qs ls, F c = Some (qs, ls) ->
  exists Q L qs' ls', D c = Some (Q, L) /\ collect F Q = Some (qs', ls') /\ qs ≡ₚ qs' /\ ls ≡ₚ L ++ ls'.

Lemma collect_splits D F l qs ls : (forall c, splits D F c) -> collect F l = Some (qs, ls) ->
  exists Q L qs' ls', collect D l = Some (Q, L) /\ collect F Q = Some (qs', ls') /\ qs ≡ₚ qs' /\ ls ≡ₚ L ++ ls'.
Proof.
  intros HDF. revert qs ls. induction l as [|c l IH]; intros qs ls; cbn [collect].
  - intros [= <- <-]. by exists [], [], [], [].
  - destruct (F c) as [[q1 l1]|] eqn:Hc; [|done]. cbn [mbind option_bind].
    destruct (collect F l) as [[q2 l2]|]; [|done]. cbn [mbind option_bind]. intros [= <- <-].
    destruct (HDF c q1 l1 Hc) as (Q1 & L1 & q1' & l1' & -> & HQ1 & Hq1 & Hl1).
    destruct (IH q2 l2 eq_refl) as (Q2 & L2 & q2' & l2' & -> & HQ2 & Hq2 & Hl2). cbn [mbind option_bind].
    exists (Q1 ++ Q2), (L1 ++ L2), (q1' ++ q2'), (l1' ++ l2'). split_and!; [done| |by rewrite Hq1, Hq2|].
    + rewrite collect_app, HQ1. cbn [mbind option_bind]. by rewrite HQ2.
    + rewrite Hl1, Hl2. solve_Permutation.
Qed.

Lemma deliver_splits fuel c : splits (deliver fuel) (final fuel) c.
Proof.
  revert c. induction fuel as [|fuel IH]; intros [o m] qs ls; [done|]. cbn [final deliver].
  assert (forall l qs ls, collect (final fuel) l = Some (qs, ls) -> exists Q L qs' ls',
    collect (deliver fuel) l = Some (Q, L) /\ collect (final_call (final fuel)) Q = Some (qs', ls') /\ qs ≡ₚ qs' /\ ls ≡ₚ L ++ ls')
    as Hc.
  { intros l qs' ls' Hl. destruct (collect_splits _ _ l qs' ls' IH Hl) as (Q & L & qs2 & ls2 & HD & HF & Hq & Hls).
    exists Q, L, qs2, ls2. split_and!; [done| |done..]. eapply collect_mono; [|exact HF]. apply final_S. }
  assert (forall outs : option (list (message V)), (outs ≫= fun outs => collect (final fuel) (calls o outs)) = Some (qs, ls) ->
    exists Q L qs' ls', (outs ≫= fun outs => collect (deliver fuel) (calls o outs)) = Some (Q, L) /\
      collect (final_call (final fuel)) Q = Some (qs', ls') /\ qs ≡ₚ qs' /\ ls ≡ₚ L ++ ls') as Hr
    by (intros [outs|]; [apply Hc|done]).
  intros Hf. pose proof Hf as Hf'. unfold final_call in Hf. unfold deliver_call. destruct (heap w !! o) as [x|] eqn:Hx; [|done].
  cbn [mbind option_bind] in *.
  destruct (okind x) eqn:Hk; try exact (Hr _ Hf); try done.
  - destruct (collect (final fuel) _) as [[q l]|] eqn:He; [|done]. injection Hf as <- <-.
    destruct (Hc _ _ _ He) as (Q & L & qs' & ls' & -> & HF & Hq & Hl). exists Q, ((o, m) :: L), qs', ls'.
    split_and!; [done..|]. cbn [app]. by rewrite Hl.
  - exists [(o, m)], [], qs, ls. split_and!; [done| |done..]. cbn [collect]. rewrite Hf'. cbn [mbind option_bind].
    by rewrite !app_nil_r.
  - exists (partition_calls o pFun m), [], qs, ls. split_and!; [done| |done..].
    eapply collect_mono; [|exact Hf]. apply final_S.
  - injection Hf as <- <-. by exists [], [(o, m)], [], [].
  - injection Hf as <- <-. by exists [], [(o, m)], [], [].
Qed.

(** ** All runs show the same *)

Definition is_queue (q : nat) : Prop := exists x, heap w !! q = Some x /\ okind x = KQueue.

Context (Hparts : forall o i q, ((o, i), q) ∈ mPartitions w -> is_queue q).

Lemma collect_queues D l Q L : (forall c Q L, D c = Some (Q, L) -> Forall (fun c => is_queue c.1) Q) ->
  collect D l = Some (Q, L) -> Forall (fun c => is_queue c.1) Q.
Proof.
  intros HD. revert Q L. induction l as [|c l IH]; intros Q L; cbn [collect]; [intros [= <- <-]; by constructor|].
  destruct (D c) as [[q1 l1]|] eqn:Hc; [|done]. cbn [mbind option_bind].
  destruct (collect D l) as [[q2 l2]|] eqn:Hl; [|done]. cbn [mbind option_bind]. intros [= <- <-].
  apply Forall_app. split; [by eapply HD|by eapply IH].
Qed.

Lemma partition_queues o f m : Forall (fun c => is_queue c.1) (partition_calls o f m).
Proof.
  unfold partition_calls. apply Forall_forall. intros [q m'] Hin.
  apply list_elem_of_omap in Hin as ([[o' i] q'] & Hin & He). pose proof (Hparts _ _ _ Hin) as Hq.
  repeat case_match; by simplify_eq.
Qed.

Lemma deliver_queues fuel c Q L : deliver fuel c = Some (Q, L) -> Forall (fun c => is_queue c.1) Q.
Proof.
  revert c Q L. induction fuel as [|fuel IH]; intros [o m] Q L; [done|]. cbn [deliver]. unfold deliver_call.
  destruct (heap w !! o) as [x|] eqn:Hx; [|done]. cbn [mbind option_bind].
  assert (forall outs : option (list (message V)), (outs ≫= fun outs => collect (deliver fuel) (calls o outs)) = Some (Q, L) ->
    Forall (fun c => is_queue c.1) Q) as Hr by (intros [outs|]; [by apply collect_queues|done]).
  destruct (okind x) eqn:Hk; try exact (Hr _); try done.
  - destruct (collect _ _) as [[q l]|] eqn:He; [|done]. intros [= <- <-]. eapply collect_queues, He. exact IH.
  - intros [= <- <-]. constructor; [by exists x|constructor].
  - intros [= <- <-]. apply partition_queues.
  - intros [= <- <-]. constructor.
  - intros [= <- <-]. constructor.
Qed.

(** what a configuration has still to do: the elements that will go through
    queues, and what will be seen *)
Definition owes (fuel : nat) (c : config) (qs ls : list call) : Prop :=
  Forall (fun c => is_queue c.1) (pending c) /\
  exists q1 l1 q2 l2, collect (final_publish fuel) (input c) = Some (q1, l1) /\
    collect (final fuel) (pending c) = Some (q2, l2) /\ qs ≡ₚ q1 ++ q2 /\ ls ≡ₚ l1 ++ l2.

Lemma publish_splits fuel c qs ls : final_publish fuel c = Some (qs, ls) ->
  exists Q L qs' ls', publish fuel c = Some (Q, L) /\ Forall (fun c => is_queue c.1) Q /\
    collect (final fuel) Q = Some (qs', ls') /\ qs ≡ₚ qs' /\ ls ≡ₚ L ++ ls'.
Proof.
  unfold final_publish, publish. destruct (thread_calls _ _) as [cs|]; [|done]. cbn [mbind option_bind].
  intros Hf. destruct (collect_splits _ _ _ _ _ (deliver_splits fuel) Hf) as (Q & L & qs' & ls' & HD & HF & Hq & Hl).
  exists Q, L, qs', ls'. split_and!; [done| |done..]. eapply collect_queues, HD. apply deliver_queues.
Qed.

(** an element of a queue: what its thread publishes *)
Lemma queue_final fuel q m qs ls : is_queue q -> final fuel (q, m) = Some (qs, ls) ->
  exists qs', final_publish fuel (q, queued m) = Some (qs', ls) /\ qs = (q, m) :: qs'.
Proof.
  intros (x & Hx & Hk). destruct fuel as [|fuel]; [done|]. cbn [final]. unfold final_call. rewrite Hx. cbn [mbind option_bind].
  rewrite Hk. destruct (thread_calls q _) as [cs|] eqn:Hcs; [|done]. cbn [mbind option_bind].
  destruct (collect (final fuel) cs) as [[q' l']|] eqn:He; [|done]. intros [= <- <-].
  exists q'. split; [|done]. unfold final_publish. cbn [fst snd]. rewrite Hcs. cbn [mbind option_bind]. eapply collect_mono; [|exact He]. apply final_S.
Qed.

Lemma step_owes fuel c c' qs ls : owes fuel c qs ls -> step fuel c c' ->
  exists qs' ls', owes fuel c' qs' ls' /\ seen c ++ ls ≡ₚ seen c' ++ ls' /\
    (length (input c) + length qs = S (length (input c') + length qs'))%nat.
Proof.
  intros (Hall & q1 & l1 & q2 & l2 & Hin & Hpend & Hq & Hl) Hstep.
  destruct Hstep as [s m rest pend l q' l' Hpub|inp pre q m post l q' l' Hfirst Hpub]; cbn [input pending seen] in *.
  - cbn [collect] in Hin. destruct (final_publish fuel (s, m)) as [[qa la]|] eqn:Hf; [|done].
    cbn [mbind option_bind] in Hin. destruct (collect (final_publish fuel) rest) as [[qb lb]|] eqn:Hb; [|done].
    injection Hin as <- <-. destruct (publish_splits _ _ _ _ Hf) as (Q & L & qs' & ls' & Hpub' & HQ & HF & Hqa & Hla).
    rewrite Hpub in Hpub'. injection Hpub' as <- <-.
    exists (qb ++ q2 ++ qs'), (lb ++ l2 ++ ls'). split_and!.
    + split; [by apply Forall_app|]. exists qb, lb, (q2 ++ qs'), (l2 ++ ls'). cbn [pending input].
      split_and!; [done| |done..]. rewrite collect_app, Hpend. cbn [mbind option_bind]. by rewrite HF.
    + rewrite Hl, Hla. solve_Permutation.
    + apply Permutation_length in Hq, Hqa. rewrite !length_app in *. simpl. lia.
  - apply Forall_app in Hall as [Hpre Hall]. apply Forall_cons in Hall as [Hqu Hpost]. cbn [fst] in Hqu.
    rewrite collect_app in Hpend. destruct (collect (final fuel) pre) as [[qa la]|] eqn:Ha; [|done].
    cbn [mbind option_bind collect] in Hpend. destruct (final fuel (q, m)) as [[qm lm]|] eqn:Hf; [|done].
    cbn [mbind option_bind] in Hpend. destruct (collect (final fuel) post) as [[qb lb]|] eqn:Hb; [|done].
    injection Hpend as <- <-. destruct (queue_final _ _ _ _ _ Hqu Hf) as (qm' & Hfp & ->).
    destruct (publish_splits _ _ _ _ Hfp) as (Q & L & qs' & ls' & Hpub' & HQ & HF & Hqa & Hla).
    rewrite Hpub in Hpub'. injection Hpub' as <- <-.
    exists (q1 ++ qa ++ qb ++ qs'), (l1 ++ la ++ lb ++ ls'). split_and!.
    + split; [cbn [pending]; by rewrite !Forall_app|]. exists q1, l1, (qa ++ qb ++ qs'), (la ++ lb ++ ls'). cbn [pending input].
      split_and!; [done| |done..]. rewrite collect_app, Ha. cbn [mbind option_bind].
      rewrite collect_app, Hb. cbn [mbind option_bind]. by rewrite HF.
    + rewrite Hl, Hla. solve_Permutation.
    + apply Permutation_length in Hq, Hqa. cbn [app length] in *. rewrite !length_app in *. cbn [length] in *.
      rewrite !length_app in Hq. lia.
Qed.

Lemma owes_progress fuel c qs ls : owes fuel c qs ls -> drained c \/ exists c', step fuel c c'.
Proof.
  intros (Hall & q1 & l1 & q2 & l2 & Hin & Hpend & _). destruct c as [inp pend l]. cbn [input pending] in *.
  destruct inp as [|[s m] rest].
  - destruct pend as [|[q m] post]; [by left|]. right.
    apply Forall_cons in Hall as [Hqu _]. cbn [collect] in Hpend.
    destruct (final fuel (q, m)) as [[qm lm]|] eqn:Hf; [|done]. destruct (queue_final _ _ _ _ _ Hqu Hf) as (qm' & Hfp & _).
    destruct (publish_splits _ _ _ _ Hfp) as (Q & L & _ & _ & Hpub & _).
    eexists. apply (step_queue fuel [] [] q m post l Q L); [by intros m' ?%elem_of_nil|done].
  - right. cbn [collect] in Hin. destruct (final_publish fuel (s, m)) as [[qa la]|] eqn:Hf; [|done].
    destruct (publish_splits _ _ _ _ Hf) as (Q & L & _ & _ & Hpub & _). eexists. by apply step_source.
Qed.

(** A run can be continued until everything is done, takes a bounded number of
    steps, and shows in the end what the calls without queues show. *)
Lemma runs_agree fuel es qs ls k c : collect (final_publish fuel) es = Some (qs, ls) ->
  nsteps (step fuel) k (mkConfig es [] []) c ->
  (drained c \/ exists c', step fuel c c') /\ (k <= length es + length qs)%nat /\ (drained c -> seen c ≡ₚ ls).
Proof.
  intros Hes. cut (forall c0 qs0 ls0, owes fuel c0 qs0 ls0 -> nsteps (step fuel) k c0 c ->
    exists qs' ls', owes fuel c qs' ls' /\ seen c0 ++ ls0 ≡ₚ seen c ++ ls' /\
      (length (input c0) + length qs0 = k + (length (input c) + length qs'))%nat).
  - intros H Hk. destruct (H (mkConfig es [] []) qs ls) as (qs' & ls' & Ho & Hs & Hlen); [|done|].
    + split; [constructor|]. exists qs, ls, [], []. cbn [input pending]. split_and!; [done..|by rewrite app_nil_r|by rewrite app_nil_r].
    + cbn [input] in Hlen. split_and!; [by eapply owes_progress|lia|]. intros [Hin Hpend].
      destruct Ho as (_ & q1 & l1 & q2 & l2 & H1 & H2 & _ & Hl). rewrite Hin in H1. rewrite Hpend in H2.
      injection H1 as <- <-. injection H2 as <- <-. rewrite Hl in Hs. cbn [seen app] in Hs. by rewrite Hs, app_nil_r.
  - clear Hes. induction k as [|k IH]; intros c0 qs0 ls0 Ho Hk.
    + inv Hk. exists qs0, ls0. by split_and!.
    + inversion Hk as [|? ? c1 ? Hs Hk1]; subst. destruct (step_owes _ _ _ _ _ Ho Hs) as (qs1 & ls1 & Ho1 & Hs1 & Hlen1).
      destruct (IH c1 qs1 ls1 Ho1 Hk1) as (qs' & ls' & Ho' & Hs' & Hlen'). exists qs', ls'.
      split_and!; [done| |lia]. by rewrite Hs1.
Qed.

End run.

(** ** Pipelines of selections and projections *)

Section pipeline.
Context {V : Type}.

Abbreviation W := (world (V:=V)).

Inductive stage := SWhere (func : V -> bool -> bool) | SMap (Tout : etype) (func : V -> bool -> V).

Definition stage_kind (st : stage) : kind (V:=V) :=
  match st with SWhere func => KWhere func | SMap _ func => KMap func end.
Definition stage_type (st : stage) (T : etype) : etype := match st with SWhere _ => T | SMap Tout _ => Tout end.
Definition stage_op (st : stage) (T : etype) : operator (V:=V) :=
  mkOp (stage_kind st) (Some T) None (Some (stage_type st T)).

Definition stage_call (st : stage) (p : pipe) : M (pipe * pipe) :=
  match st with SWhere func => where_ func p | SMap Tout func => map_ Tout func p end.

Fixpoint build (sts : list stage) (p : pipe) : M pipe :=
  match sts with
  | [] => mret p
  | st :: sts => '(_, p) ← stage_call st p; build sts p
  end.

(** [topology.streamFromGenerator(...).<stages>.notify(...)], and the same with
    [partitionBy(f, n)] before the stages and [merge()] behind them *)
Definition sequential (T : etype) (sts : list stage) (cb : handle) : M (pipe * pipe) :=
  p ← streamFromGenerator T;
  p ← build sts p;
  notify cb None p.

Definition partitioned (T : etype) (f : V -> Z) (n : nat) (sts : list stage) (cb : handle) : M (pipe * pipe) :=
  p ← streamFromGenerator T;
  '(_, p) ← partitionBy f n p;
  p ← build sts p;
  '(_, p) ← merge p;
  notify cb None p.

(** what the stages make of a message, and of a stream *)
Definition stage_step (st : stage) (m : message V) : list (message V) :=
  match react (stage_kind st) m with Some out => out | None => [] end.

Definition run_stages (sts : list stage) (ms : list (message V)) : list (message V) :=
  fold_left (fun ms st => ms ≫= stage_step st) sts ms.

(** ** States of the builder *)

Definition src_of (l : link) : nat := match l with DataLink s _ _ => s | PunctLink s _ => s end.
Definition links_of (w : W) (o : nat) : list link := filter (fun l => src_of l = o) (links w).

(** the subscriptions that [CREATE_LINK] makes *)
Definition pair_links (x y : nat) : list link := [DataLink x In y; PunctLink x y].

(** a state with more operators, subscriptions, partitions and publishers *)
Definition ext (os : list operator) (ls : list link) (ps : list ((nat * nat) * nat)) (pubs : list nat) (w : W) : W :=
  mkWorld (heap w ++ os) (links w ++ ls) (mPartitions w ++ ps) (publishers w ++ pubs) (sinks w) (startupList w) (prepareList w).

Lemma ext_ext os1 ls1 ps1 pubs1 os2 ls2 ps2 pubs2 w :
  ext os2 ls2 ps2 pubs2 (ext os1 ls1 ps1 pubs1 w) = ext (os1 ++ os2) (ls1 ++ ls2) (ps1 ++ ps2) (pubs1 ++ pubs2) w.
Proof. unfold ext. cbn. by rewrite !app_assoc. Qed.

Lemma ext_nil w : ext [] [] [] [] w = w.
Proof. destruct w. unfold ext. cbn. by rewrite !app_nil_r. Qed.

Lemma M_step {A B} (m : M (V:=V) A) (f : A -> M B) w a w' r : m w = (Ok a, w') -> f a w' = r -> (m ≫= f) w = r.
Proof. intros Hm Hf. unfold mbind, M_bind. by rewrite Hm. Qed.

Tactic Notation "m_step" uconstr(l) := eapply M_step; [apply l|cbn beta].

Lemma new_op_ext o w : new_op o w = (Ok (length (heap w)), ext [o] [] [] [] w).
Proof. unfold new_op, ext. by rewrite !app_nil_r. Qed.

Lemma connect_op_ext x p y w : connect_op x p y w = (Ok tt, ext [] [DataLink x p y; PunctLink x y] [] [] w).
Proof. unfold connect_op, connectChannels, mbind, M_bind, modify, ext. cbn. by rewrite !app_nil_r, <- app_assoc. Qed.

Lemma add_publisher_ext o w : dataflow_addPublisher o w = (Ok (Some (length (publishers w))), ext [] [] [] [o] w).
Proof. unfold dataflow_addPublisher, ext. by rewrite !app_nil_r. Qed.

Lemma add_list_ext l w : l <> [] -> addPublisherList l w = (Ok (Some (length (publishers w))), ext [] [] [] l w).
Proof. intros Hl. unfold addPublisherList, ext. by rewrite decide_False, !app_nil_r. Qed.

Lemma deref_ok t x (w : W) : publishers w !! t = Some x -> deref (Some t) w = (Ok x, w).
Proof. intros H. unfold deref. by rewrite (get_at_Some _ _ _ H). Qed.

Lemma getPublisher_ok p t x (w : W) : tailIter p = Some t -> publishers w !! t = Some x -> getPublisher p w = (Ok x, w).
Proof. intros Ht H. unfold getPublisher. rewrite Ht. by apply deref_ok. Qed.

Lemma cast_source_ok T o (w : W) : has_out o T w -> cast_source T o w = (Ok tt, w).
Proof.
  intros (x & Hx & Ho). unfold cast_source. eapply M_step; [unfold op_at; by rewrite (get_at_Some _ _ _ Hx)|].
  cbn beta. by rewrite decide_True.
Qed.

Lemma has_out_ext' o T os ls ps pubs w : has_out o T w -> has_out o T (ext os ls ps pubs w).
Proof. apply has_out_ext. by eexists. Qed.

(** one stage behind a pipe without partitions *)
Lemma addPublisher_ok T op p t x (w : W) : tailIter p = Some t -> publishers w !! t = Some x -> has_out x T w ->
  addPublisher T op p w = (Ok (Some (length (publishers w))), ext [] (pair_links x op) [] [op] w).
Proof.
  intros Ht Hx Ho. unfold addPublisher. m_step (getPublisher_ok _ _ _ _ Ht Hx). m_step cast_source_ok; [done|].
  unfold CREATE_LINK. m_step connect_op_ext. rewrite add_publisher_ext, ext_ext.
  cbn [ext publishers]. by rewrite app_nil_r.
Qed.

Lemma unary_one k Tin Tout p t x (w : W) : partitioningState p = NoPartitioning -> tailIter p = Some t ->
  publishers w !! t = Some x -> has_out x Tin w ->
  unary k Tin Tout p w =
    (Ok (p, derive p Tout (Some (length (publishers w)))),
     ext [mkOp k (Some Tin) None (Some Tout)] (pair_links x (length (heap w))) [] [length (heap w)] w).
Proof.
  intros Hs Ht Hx Ho. unfold unary. rewrite Hs. m_step new_op_ext.
  m_step (addPublisher_ok _ _ _ t x); [done|by apply lookup_app_l_Some|by apply has_out_ext'|].
  rewrite ext_ext. cbn [ext publishers app]. by rewrite app_nil_r.
Qed.

(** ** The loops over partitions *)

Definition zip_links (xs ys : list nat) : list link := concat (zip_with pair_links xs ys).

Lemma new_ops_ext {B} o (l : list B) w :
  mapM (fun _ => new_op o) l w = (Ok (seq (length (heap w)) (length l)), ext (replicate (length l) o) [] [] [] w).
Proof.
  revert w. induction l as [|b l IH]; intros w; cbn [mapM]; [cbn [length seq replicate]; by rewrite ext_nil|].
  m_step new_op_ext. m_step IH. rewrite ext_ext. cbn [ext heap]. by rewrite length_app, Nat.add_1_r.
Qed.

(** an iterator at position [t], when [xs] are the publishers from there on *)
Definition it_of (t : nat) (xs : list nat) : option nat := match xs with [] => None | _ => Some t end.

Lemma deref_it t x xs (w : W) : drop t (publishers w) = x :: xs -> deref (Some t) w = (Ok x, w).
Proof. intros H. apply deref_ok. by rewrite <- (Nat.add_0_r t), <- lookup_drop, H. Qed.

Lemma drop_S t x xs (w : W) : drop t (publishers w) = x :: xs -> drop (S t) (publishers w) = xs.
Proof. intros H. by rewrite <- Nat.add_1_r, <- drop_drop, H. Qed.

Lemma next_it t x xs (w : W) : drop t (publishers w) = x :: xs -> next (Some t) w = (Ok (it_of (S t) xs), w).
Proof.
  intros H%drop_S. unfold next, gets. do 2 f_equal. apply (f_equal length) in H. rewrite length_drop in H.
  destruct xs; simpl in *; case_decide; (done || lia).
Qed.

Lemma Forall_out_ext xs T os ls ps pubs (w : W) :
  Forall (fun x => has_out x T w) xs -> Forall (fun x => has_out x T (ext os ls ps pubs w)) xs.
Proof. intros H. eapply Forall_impl; [exact H|]. intros x. apply has_out_ext'. Qed.

Lemma link_next_ok T t xs ops (w : W) : drop t (publishers w) = xs -> length ops = length xs ->
  Forall (fun x => has_out x T w) xs ->
  link_next T (it_of t xs) ops w = (Ok tt, ext [] (zip_links xs ops) [] [] w).
Proof.
  revert t ops w. induction xs as [|x xs IH]; intros t ops w Hd Hlen Hout.
  { destruct ops; [|done]. by rewrite ext_nil. }
  destruct ops as [|op ops]; [done|]. injection Hlen as Hlen. apply Forall_cons in Hout as [Hx Hxs].
  cbn [it_of link_next]. m_step (deref_it _ _ _ _ Hd). m_step cast_source_ok; [done|]. m_step connect_op_ext.
  assert (drop t (publishers (ext [] (pair_links x op) [] [] w)) = x :: xs) as Hd'
    by (cbn [ext publishers]; by rewrite app_nil_r).
  m_step (next_it _ _ _ _ Hd'). rewrite (IH (S t) ops _ (drop_S _ _ _ _ Hd') Hlen); [|by apply Forall_out_ext].
  by rewrite ext_ext.
Qed.

Lemma link_all_ok T t xs fuel op (w : W) : drop t (publishers w) = xs -> (length xs <= fuel)%nat ->
  Forall (fun x => has_out x T w) xs ->
  link_all T fuel (it_of t xs) op w = (Ok tt, ext [] (xs ≫= fun x => pair_links x op) [] [] w).
Proof.
  revert t fuel w. induction xs as [|x xs IH]; intros t fuel w Hd Hlen Hout.
  { destruct fuel; by rewrite ext_nil. }
  destruct fuel as [|fuel]; [simpl in Hlen; lia|]. apply Forall_cons in Hout as [Hx Hxs].
  cbn [it_of link_all]. m_step (deref_it _ _ _ _ Hd). m_step cast_source_ok; [done|]. m_step connect_op_ext.
  assert (drop t (publishers (ext [] (pair_links x op) [] [] w)) = x :: xs) as Hd'
    by (cbn [ext publishers]; by rewrite app_nil_r).
  m_step (next_it _ _ _ _ Hd').
  rewrite (IH (S t) fuel _ (drop_S _ _ _ _ Hd') ltac:(simpl in Hlen; lia)); [|by apply Forall_out_ext].
  by rewrite ext_ext.
Qed.

Definition queue_op (T : etype) : operator (V:=V) := mkOp KQueue (Some T) None (Some T).

Definition partition_entries (pid i : nat) (qs : list nat) : list ((nat * nat) * nat) :=
  zip (pair pid <$> seq i (length qs)) qs.

Lemma connect_partition_ok pid i T p op f n x (w : W) :
  heap w !! pid = Some x -> okind x = KPartitionBy f n -> (i < n)%nat ->
  (forall e, e ∈ mPartitions w -> e.1.1 = pid -> (e.1.2 < i)%nat) ->
  connectChannelsForPartition pid i T p op w =
    (Ok tt, ext [queue_op T] [DataLink (length (heap w)) p op; PunctLink (length (heap w)) op] [((pid, i), length (heap w))] [] w).
Proof.
  intros Hx Hk Hi Hfresh. unfold connectChannelsForPartition.
  eapply M_step; [unfold op_at; by rewrite (get_at_Some _ _ _ Hx)|]. cbn beta. rewrite Hk.
  eapply M_step; [unfold check, lift, guard_else; by rewrite (proj2 (Nat.ltb_lt i n) Hi)|]. cbn beta.
  m_step new_op_ext. m_step connect_op_ext. rewrite ext_ext. unfold modify, ext. cbn.
  rewrite decide_False; [by rewrite !app_nil_r|].
  intros (e & Hin & He)%Exists_exists. rewrite app_nil_r in Hin. specialize (Hfresh e Hin). rewrite He in Hfresh.
  simpl in Hfresh. specialize (Hfresh eq_refl). lia.
Qed.

Lemma link_partitions_ok pid T f n x i ops (w : W) :
  heap w !! pid = Some x -> okind x = KPartitionBy f n -> (i + length ops <= n)%nat ->
  (forall e, e ∈ mPartitions w -> e.1.1 = pid -> (e.1.2 < i)%nat) ->
  let qs := seq (length (heap w)) (length ops) in
  link_partitions pid T i ops w =
    (Ok tt, ext (replicate (length ops) (queue_op T)) (zip_links qs ops) (partition_entries pid i qs) [] w).
Proof.
  cbv zeta. revert i w. induction ops as [|op ops IH]; intros i w Hx Hk Hn Hfresh.
  { cbn. by rewrite ext_nil. }
  cbn [length] in Hn. cbn [link_partitions]. m_step (connect_partition_ok pid i T In op f n x); [done..|lia|done|].
  rewrite IH.
  - rewrite ext_ext. cbn [ext heap length]. rewrite length_app, Nat.add_1_r. unfold partition_entries.
    rewrite !length_seq. cbn [replicate seq length fmap list_fmap zip_with app]. done.
  - by apply lookup_app_l_Some.
  - done.
  - lia.
  - cbn [ext mPartitions]. intros e [Hin|Hin%list_elem_of_singleton]%elem_of_app Hp; [specialize (Hfresh e Hin Hp); lia|].
    subst e. simpl. lia.
Qed.

(** ** Who subscribes to whom *)

Definition links_below (w : W) : Prop := forall l, l ∈ links w -> (src_of l < length (heap w))%nat.

Lemma links_of_ext os ls ps pubs w o :
  links_of (ext os ls ps pubs w) o = links_of w o ++ filter (fun l => src_of l = o) ls.
Proof. unfold links_of. cbn [ext links]. apply filter_app. Qed.

Lemma filter_pair x y o : filter (fun l => src_of l = o) (pair_links x y) = if decide (x = o) then pair_links x y else [].
Proof. unfold pair_links. rewrite !filter_cons. cbn [src_of]. by case_decide. Qed.

Lemma filter_zip_none xs ys o : o ∉ xs -> filter (fun l => src_of l = o) (zip_links xs ys) = [].
Proof.
  revert ys. induction xs as [|x xs IH]; intros [|y ys] Ho; [done..|]. apply not_elem_of_cons in Ho as [Hne Ho].
  change (zip_links (x :: xs) (y :: ys)) with (pair_links x y ++ zip_links xs ys).
  rewrite filter_app, filter_pair, decide_False by done. by apply IH.
Qed.

Lemma filter_zip xs ys i o y : NoDup xs -> xs !! i = Some o -> ys !! i = Some y ->
  filter (fun l => src_of l = o) (zip_links xs ys) = pair_links o y.
Proof.
  revert ys i. induction xs as [|x xs IH]; intros [|y' ys] i Hnd Hx Hy; [done..|]. apply NoDup_cons in Hnd as [Hni Hnd].
  change (zip_links (x :: xs) (y' :: ys)) with (pair_links x y' ++ zip_links xs ys).
  rewrite filter_app, filter_pair. destruct i as [|i].
  - simplify_eq/=. rewrite decide_True by done. by rewrite filter_zip_none, app_nil_r.
  - cbn in Hx, Hy. rewrite decide_False by (intros ->; by apply Hni, list_elem_of_lookup; exists i). by apply (IH ys i).
Qed.

Lemma fan_in_zip xs op : (xs ≫= fun x => pair_links x op) = zip_links xs (replicate (length xs) op).
Proof. unfold zip_links. induction xs as [|x xs IH]; [done|]. cbn [mbind list_bind length replicate zip_with concat]. by rewrite <- IH. Qed.

Lemma links_of_fresh w o : links_below w -> (length (heap w) <= o)%nat -> links_of w o = [].
Proof.
  intros Hb Ho. unfold links_of. destruct (filter _ _) as [|l ls] eqn:Hf; [done|].
  assert (l ∈ filter (fun l => src_of l = o) (links w)) as Hin by (rewrite Hf; by left).
  apply list_elem_of_filter in Hin as [<- Hin]. specialize (Hb l Hin). lia.
Qed.

(** only the subscriptions of [o] matter for what it publishes *)
Lemma subscribers_links_of w o m : subscribers w o m =
  omap (fun l => match l, m with
                 | DataLink s _ d, MData _ _ => if decide (s = o) then Some d else None
                 | PunctLink s d, MPunct _ => if decide (s = o) then Some d else None
                 | _, _ => None
                 end) (links_of w o).
Proof.
  unfold subscribers, links_of. induction (links w) as [|l ls IH]; [done|]. rewrite filter_cons. cbn [omap list_omap].
  destruct (decide (src_of l = o)) as [Hs|Hs]; cbn [omap list_omap]; rewrite IH; [done|].
  destruct l as [s p d|s d], m; cbn [src_of] in Hs; try done; by rewrite decide_False.
Qed.

Lemma subscribers_pair w o y m : links_of w o = pair_links o y -> subscribers w o m = [y].
Proof. intros H. rewrite subscribers_links_of, H. destruct m; cbn; by rewrite decide_True. Qed.

Lemma calls_pair w o y outs : links_of w o = pair_links o y -> calls w o outs = (fun m => (y, m)) <$> outs.
Proof.
  intros H. unfold calls. induction outs as [|m outs IH]; [done|]. rewrite fmap_cons. cbn [mbind list_bind].
  rewrite (subscribers_pair _ _ _ _ H). cbn [fmap list_fmap app]. by f_equal.
Qed.

Lemma thread_calls_pair w o y m : links_of w o = pair_links o y -> thread_calls w o m = Some [(y, m)].
Proof.
  intros H. unfold thread_calls. rewrite (subscribers_pair _ _ _ _ H), (calls_pair _ _ _ _ H). cbn.
  destruct m, (heap w !! o) as [x|]; [done..| |done]. by destruct (publishes_temporaries _).
Qed.

Lemma calls_nil w o outs : links_of w o = [] -> calls w o outs = [].
Proof. intros H. unfold calls. induction outs as [|m outs IH]; [done|]. cbn [mbind list_bind]. by rewrite subscribers_links_of, H. Qed.

(** ** Paths of stages *)

Inductive path (w : W) : nat -> list stage -> nat -> Prop :=
  | path_here o : path w o [] o
  | path_next o sts x st y T : path w o sts x -> links_of w x = pair_links x y -> heap w !! y = Some (stage_op st T) ->
      path w o (sts ++ [st]) y.

(** a larger state: what has subscribers keeps them *)
Definition grows (w w' : W) : Prop :=
  heap w `prefix_of` heap w' /\ forall o, links_of w o <> [] -> links_of w' o = links_of w o.

Lemma grows_refl w : grows w w.
Proof. by split. Qed.

Lemma grows_trans w1 w2 w3 : grows w1 w2 -> grows w2 w3 -> grows w1 w3.
Proof.
  intros [Hp1 Hl1] [Hp2 Hl2]. split; [by etransitivity|]. intros o Ho. rewrite Hl2; [by apply Hl1|]. by rewrite Hl1.
Qed.

Lemma grows_ext os ls ps pubs w : (forall l, l ∈ ls -> links_of w (src_of l) = []) -> grows w (ext os ls ps pubs w).
Proof.
  intros Hls. split; [by eexists|]. intros o Ho. rewrite links_of_ext.
  destruct (filter _ ls) as [|l ls'] eqn:Hf; [by rewrite app_nil_r|].
  assert (l ∈ filter (fun l => src_of l = o) ls) as Hin by (rewrite Hf; by left).
  apply list_elem_of_filter in Hin as [<- Hin]. by rewrite Hls in Ho.
Qed.

Lemma path_grows w w' o sts x : grows w w' -> path w o sts x -> path w' o sts x.
Proof.
  intros [Hp Hl] Hpath. induction Hpath as [o|o sts x st y T _ IH Hx Hy]; [constructor|].
  econstructor; [exact IH| |by eapply prefix_lookup]. by rewrite Hl; rewrite Hx.
Qed.

(** the one subscriber of the operator a path starts from *)
Lemma path_start w o sts x z : path w o sts x -> links_of w x = pair_links x z -> exists y, links_of w o = pair_links o y.
Proof. intros Hp. revert z. induction Hp as [o|o sts x st y T _ IH Hx _]; intros z Hz; [by eexists|by eapply IH]. Qed.

(** ** Running along a path *)

Lemma collect_bind (F : nat * message V -> option (list (nat * message V) * list (nat * message V))) g l :
  collect (fun c => collect F (g c)) l = collect F (l ≫= g).
Proof.
  induction l as [|c l IH]; [done|]. cbn [mbind list_bind collect]. rewrite collect_app. fold (l ≫= g). rewrite <- IH.
  done.
Qed.

Lemma calls_app (w : W) o l l' : calls w o (l ++ l') = calls w o l ++ calls w o l'.
Proof. unfold calls. by rewrite bind_app. Qed.

Lemma stage_final w (F : nat * message V -> option (list (nat * message V) * list (nat * message V))) y st T m :
  heap w !! y = Some (stage_op st T) -> final_call w F (y, m) = collect F (calls w y (stage_step st m)).
Proof. intros Hy. unfold final_call, stage_step. rewrite Hy. by destruct st, m. Qed.

(** what arrives at the end of a path *)
Lemma path_final w o sts x k outs : path w o sts x ->
  collect (final w (length sts + k)) (calls w o outs) = collect (final w k) (calls w x (run_stages sts outs)).
Proof.
  intros Hpath. revert k. induction Hpath as [o|o sts x st y T _ IH Hx Hy]; intros k; [done|].
  rewrite length_app, <- Nat.add_assoc. cbn [length Nat.add]. rewrite IH. clear IH.
  unfold run_stages. rewrite fold_left_app. cbn [fold_left]. fold (run_stages sts outs).
  rewrite (calls_pair _ _ _ _ Hx). cbn [final].
  induction (run_stages sts outs) as [|m l IHl]; [done|]. rewrite fmap_cons. cbn [mbind list_bind collect].
  rewrite (stage_final _ _ _ _ _ _ Hy), calls_app, collect_app. by rewrite IHl.
Qed.

(** ** Building without partitions *)

(** a pipe without partitions at operator [x], which has no subscribers yet *)
Record cursor (w : W) (p : pipe (V:=V)) (x : nat) : Prop := {
  cur_state : partitioningState p = NoPartitioning;
  cur_tail : exists t, tailIter p = Some t /\ publishers w !! t = Some x;
  cur_out : has_out x (elem p) w;
  cur_links : links_of w x = [];
  cur_below : links_below w;
}.

Lemma links_below_ext os ls ps pubs w : links_below w -> (forall l, l ∈ ls -> (src_of l < length (heap w) + length os)%nat) ->
  links_below (ext os ls ps pubs w).
Proof.
  intros Hb Hls l. cbn [ext links heap]. rewrite length_app. intros [Hin|Hin]%elem_of_app; [specialize (Hb l Hin); lia|].
  by apply Hls.
Qed.

Lemma cursor_lt w p x : cursor w p x -> (x < length (heap w))%nat.
Proof. intros H. by eapply has_out_lt, cur_out. Qed.

(** a new operator [y] behind [x] *)
Definition behind (w : W) (x : nat) (o : operator) : W :=
  ext [o] (pair_links x (length (heap w))) [] [length (heap w)] w.

Lemma behind_facts w x o : (x < length (heap w))%nat -> links_of w x = [] -> links_below w ->
  let w' := behind w x o in let y := length (heap w) in
  grows w w' /\ links_of w' x = pair_links x y /\ links_of w' y = [] /\ heap w' !! y = Some o /\
  links_below w' /\ publishers w' !! length (publishers w) = Some y.
Proof.
  intros Hx Hl Hb. cbv zeta. unfold behind.
  assert (length (heap w) <> x) as Hne by lia. split_and!.
  - apply grows_ext. intros l [->|[->|?%elem_of_nil]%elem_of_cons]%elem_of_cons; done.
  - rewrite links_of_ext, Hl, filter_pair, decide_True by done. done.
  - rewrite links_of_ext, filter_pair, decide_False by done. by rewrite links_of_fresh.
  - cbn [ext heap]. by rewrite lookup_app_r, Nat.sub_diag by lia.
  - apply links_below_ext; [done|]. intros l [->|[->|?%elem_of_nil]%elem_of_cons]%elem_of_cons; simpl; lia || done.
  - cbn [ext publishers]. by rewrite lookup_app_r, Nat.sub_diag by lia.
Qed.

Lemma unary_cursor k Tout w p x : cursor w p x ->
  let w' := behind w x (mkOp k (Some (elem p)) None (Some Tout)) in
  exists p', unary k (elem p) Tout p w = (Ok (p, p'), w') /\ elem p' = Tout /\ cursor w' p' (length (heap w)) /\
    grows w w' /\ links_of w' x = pair_links x (length (heap w)) /\
    heap w' !! length (heap w) = Some (mkOp k (Some (elem p)) None (Some Tout)).
Proof.
  intros Hc. pose proof (cursor_lt _ _ _ Hc) as Hlt. destruct Hc as [Hs (t & Ht & Hx) Ho Hl Hb]. cbv zeta.
  destruct (behind_facts w x (mkOp k (Some (elem p)) None (Some Tout)) Hlt Hl Hb) as (Hg & Hlx & Hly & Hy & Hb' & Hpub).
  eexists. split; [by apply (unary_one k _ _ _ t x)|]. split_and!; [done| |done..]. split; [done| |by eexists|done..].
  by eexists.
Qed.

Lemma stage_call_unary st p : stage_call st p = unary (stage_kind st) (elem p) (stage_type st (elem p)) p.
Proof. by destruct st. Qed.

Lemma build_sequential sts p w x : cursor w p x -> exists p' w' y,
  build sts p w = (Ok p', w') /\ cursor w' p' y /\ path w' x sts y /\ grows w w' /\ mPartitions w' = mPartitions w.
Proof.
  cut (forall done o, path w o done x -> cursor w p x -> exists p' w' y,
    build sts p w = (Ok p', w') /\ cursor w' p' y /\ path w' o (done ++ sts) y /\ grows w w' /\ mPartitions w' = mPartitions w).
  { intros H Hc. apply (H [] x); [constructor|done]. }
  revert p w x. induction sts as [|st sts IH]; intros p w x before o Hpath Hc.
  { exists p, w, x. rewrite app_nil_r. by split_and!. }
  cbn [build]. destruct (unary_cursor (stage_kind st) (stage_type st (elem p)) w p x Hc) as (p1 & Hu & Hel & Hc1 & Hg & Hlx & Hy).
  set (w1 := behind _ _ _) in *.
  destruct (IH p1 w1 (length (heap w)) (before ++ [st]) o) as (p' & w' & y & Hb & Hc' & Hp' & Hg' & Hm).
  { econstructor; [by eapply path_grows|done|exact Hy]. }
  { done. }
  exists p', w', y. rewrite stage_call_unary. split; [eapply M_step; [exact Hu|exact Hb]|].
  split_and!; [done|by rewrite <- app_assoc in Hp'|by eapply grows_trans|].
  rewrite Hm. unfold w1, behind. cbn [ext mPartitions]. by rewrite app_nil_r.
Qed.

(** ** Building behind a [PartitionBy] *)

(** a pipe whose last stage has one operator per partition, [xs], reached from the
    queues of [pid] through the stages [sts] *)
Record lanes (w : W) (p : pipe (V:=V)) (pid : nat) (n : nat) (sts : list stage) (xs : list nat) : Prop := {
  la_state : partitioningState p = NextInPartitioning;
  la_n : numPartitions p = n;
  la_length : length xs = n;
  la_tail : exists t, tailIter p = Some t /\ drop t (publishers w) = xs;
  la_out : Forall (fun x => has_out x (elem p) w) xs;
  la_nodup : NoDup xs;
  la_links : Forall (fun x => links_of w x = []) xs;
  la_below : links_below w;
  la_paths : exists qs, mPartitions w = partition_entries pid 0 qs /\ length qs = n /\
    Forall2 (fun q x => path w q sts x) qs xs /\ Forall (fun q => exists T, heap w !! q = Some (queue_op T)) qs
}.

Lemma cast_partition_ok T o f n (w : W) x : heap w !! o = Some x -> okind x = KPartitionBy f n -> oout x = Some T ->
  cast_partition T o w = (Ok tt, w).
Proof.
  intros Hx Hk Ho. unfold cast_partition. eapply M_step; [unfold op_at; by rewrite (get_at_Some _ _ _ Hx)|]. cbn beta.
  rewrite Hk. apply cast_source_ok. by exists x.
Qed.

Lemma zip_links_src xs ys l : l ∈ zip_links xs ys -> src_of l ∈ xs.
Proof.
  revert ys. induction xs as [|x xs IH]; intros [|y ys]; [by intros ?%elem_of_nil..|].
  change (zip_links (x :: xs) (y :: ys)) with (pair_links x y ++ zip_links xs ys).
  intros [Hin|Hin]%elem_of_app; [|right; by eapply IH].
  apply elem_of_cons. left. by apply elem_of_cons in Hin as [->|[->|?%elem_of_nil]%elem_of_cons].
Qed.

Lemma replicate_tail {A} (l : list A) o n i : i ∈ seq (length l) n -> (l ++ replicate n o) !! i = Some o.
Proof.
  intros [H1 H2]%elem_of_seq. rewrite lookup_app_r by lia. apply lookup_replicate_2. lia.
Qed.

(** the first stage *)
Lemma first_stage st p w t pid f n tin : partitioningState p = FirstInPartitioning -> numPartitions p = n -> (0 < n)%nat ->
  tailIter p = Some t -> publishers w !! t = Some pid ->
  heap w !! pid = Some (mkOp (KPartitionBy f n) tin None (Some (elem p))) -> links_below w -> mPartitions w = [] ->
  exists p1 p' w' xs, stage_call st p w = (Ok (p1, p'), w') /\ lanes w' p' pid n [st] xs /\ grows w w' /\
    sinks w' = sinks w.
Proof.
  intros Hs Hnp Hn Ht Hpub Hpid Hb Hm. rewrite stage_call_unary. unfold unary. rewrite Hs, Hnp.
  set (o := mkOp (stage_kind st) _ _ _). set (N := length (heap w)). set (ys := seq N n). set (qs := seq (N + n) n).
  set (w' := ext (replicate n o ++ replicate n (queue_op (elem p))) (zip_links qs ys) (partition_entries pid 0 qs) ys w).
  exists (set_state NextInPartitioning p), (derive (set_state NextInPartitioning p) (stage_type st (elem p)) (Some (length (publishers w)))), w', ys.
  assert (ys <> []) as Hys by (unfold ys; destruct n; [lia|done]).
  assert (length ys = n) as Hlys by apply length_seq. assert (length qs = n) as Hlqs by apply length_seq.
  assert (forall x, x ∈ ys -> heap w' !! x = Some o) as Hheap.
  { intros x Hx. unfold w'. cbn [ext heap]. rewrite app_assoc. apply lookup_app_l_Some. by apply replicate_tail. }
  assert (forall q, q ∈ qs -> heap w' !! q = Some (queue_op (elem p))) as Hheapq.
  { intros q Hq. unfold w'. cbn [ext heap]. rewrite app_assoc. apply replicate_tail. by rewrite length_app, length_replicate. }
  assert (forall x, x ∈ qs -> (N + n <= x)%nat) as Hqs by (intros x [? ?]%elem_of_seq; lia).
  split_and!.
  - m_step new_ops_ext. rewrite length_seq. eapply M_step.
    + unfold addPartitionedPublisher. rewrite Hs.
      m_step (getPublisher_ok _ t pid); [done|by cbn [ext publishers]; apply lookup_app_l_Some|].
      m_step (cast_partition_ok _ _ f n _ (mkOp (KPartitionBy f n) tin None (Some (elem p)))); [by apply lookup_app_l_Some|done..|].
      eapply M_step; [apply (link_partitions_ok pid (elem p) f n (mkOp (KPartitionBy f n) tin None (Some (elem p))) 0 ys)|].
      * by apply lookup_app_l_Some.
      * done.
      * lia.
      * cbn [ext mPartitions]. rewrite Hm. by intros e ?%elem_of_nil.
      * m_step (add_list_ext ys); [done|]. reflexivity.
    + cbn beta iota. unfold mret, M_ret. f_equal.
      * cbn [ext publishers heap]. by rewrite !app_nil_r.
      * rewrite !ext_ext. cbn [ext heap app]. by rewrite Hlys, length_app, length_replicate, !app_nil_r.
  - split; cbn [derive set_state partitioningState numPartitions tailIter elem]; try done.
    + eexists. split; [done|]. unfold w'. cbn [ext publishers]. by rewrite drop_app_length.
    + apply Forall_forall. intros x Hx. exists o. split; [by apply Hheap|done].
    + apply NoDup_seq.
    + apply Forall_forall. intros x Hx. unfold w'. apply elem_of_seq in Hx as Hx'.
      rewrite links_of_ext, (links_of_fresh w x) by (done || lia). apply filter_zip_none. intros Hq%Hqs. lia.
    + unfold w'. apply links_below_ext; [done|]. intros l Hl%zip_links_src. rewrite length_app, !length_replicate.
      apply elem_of_seq in Hl. unfold N in *. lia.
    + exists qs. split; [unfold w'; cbn [ext mPartitions]; by rewrite Hm|]. split; [done|]. split.
      * apply Forall2_same_length_lookup. split; [by rewrite Hlys|]. intros i q x Hq Hx.
        apply (path_next _ q [] q st x (elem p)); [constructor| |by apply Hheap, (list_elem_of_lookup_2 _ i)].
        unfold w'. rewrite links_of_ext, (links_of_fresh w q); [|done|by apply (list_elem_of_lookup_2 _ _ _), Hqs in Hq; unfold N in *; lia].
        apply (filter_zip qs ys i); [apply NoDup_seq|done..].
      * apply Forall_forall. intros q Hq. eexists. by apply Hheapq.
  - unfold w'. apply grows_ext. intros l Hl%zip_links_src%Hqs. apply links_of_fresh; [done|unfold N in *; lia].
  - done.
Qed.

Lemma it_of_tail t xs (w : W) : drop t (publishers w) = xs -> xs <> [] -> Some t = it_of t xs.
Proof. by destruct xs. Qed.

(** a further stage *)
Lemma next_stage st p w pid n sts xs : lanes w p pid n sts xs -> (0 < n)%nat ->
  exists p' w' ys, stage_call st p w = (Ok (p, p'), w') /\ lanes w' p' pid n (sts ++ [st]) ys /\ grows w w' /\ sinks w' = sinks w.
Proof.
  intros [Hs Hnp Hlen (t & Ht & Hd) Hout Hnd Hl Hb (qs & Hm & Hlqs & Hpaths & Hqs)] Hn.
  rewrite stage_call_unary. unfold unary. rewrite Hs, Hnp.
  set (o := mkOp (stage_kind st) _ _ _). set (N := length (heap w)). set (ys := seq N n).
  set (w' := ext (replicate n o) (zip_links xs ys) [] ys w).
  exists (derive p (stage_type st (elem p)) (Some (length (publishers w)))), w', ys.
  assert (ys <> []) as Hys by (unfold ys; destruct n; [lia|done]).
  assert (length ys = n) as Hlys by apply length_seq.
  assert (forall x, x ∈ ys -> heap w' !! x = Some o) as Hheap by (intros x Hx; by apply replicate_tail).
  assert (forall x, x ∈ xs -> (x < N)%nat) as Hxs.
  { intros x Hx. rewrite Forall_forall in Hout. by eapply has_out_lt, Hout. }
  assert (forall x, x ∈ xs -> links_of w x = []) as Hlx by (by apply Forall_forall).
  assert (grows w w') as Hg by (apply grows_ext; intros l Hin%zip_links_src; by apply Hlx).
  split_and!; [| |done|done].
  - m_step new_ops_ext. rewrite length_seq. eapply M_step.
    + unfold addPartitionedPublisher. rewrite Hs, Ht, (it_of_tail t xs w Hd) by (intros ->; simpl in *; lia).
      eapply M_step; [apply (link_next_ok (elem p) t xs ys)|].
      * cbn [ext publishers]. by rewrite app_nil_r.
      * by rewrite Hlys.
      * by apply Forall_out_ext.
      * m_step (add_list_ext ys); [done|]. reflexivity.
    + cbn beta iota. unfold mret, M_ret. f_equal.
      * cbn [ext publishers]. by rewrite !app_nil_r.
      * rewrite !ext_ext. cbn [app]. by rewrite !app_nil_r.
  - split; cbn [derive partitioningState numPartitions tailIter elem]; try done.
    + eexists. split; [done|]. unfold w'. cbn [ext publishers]. by rewrite drop_app_length.
    + apply Forall_forall. intros x Hx. exists o. split; [by apply Hheap|done].
    + apply NoDup_seq.
    + apply Forall_forall. intros x Hx%elem_of_seq. unfold w'. rewrite links_of_ext, (links_of_fresh w x) by (done || lia).
      apply filter_zip_none. intros Hin%Hxs. lia.
    + unfold w'. apply links_below_ext; [done|]. intros l Hin%zip_links_src%Hxs. rewrite length_replicate. unfold N in *. lia.
    + exists qs. split; [unfold w'; cbn [ext mPartitions]; by rewrite app_nil_r|]. split; [done|]. split.
      * apply Forall2_same_length_lookup. split; [by rewrite Hlys|]. intros i q y Hq Hy.
        destruct (Forall2_lookup_l _ _ _ _ _ Hpaths Hq) as (x & Hx & Hp).
        apply (path_next _ q sts x st y (elem p)); [by eapply path_grows| |by apply Hheap, (list_elem_of_lookup_2 _ i)].
        unfold w'. rewrite links_of_ext, Hlx by (by apply (list_elem_of_lookup_2 _ i)).
        by apply (filter_zip xs ys i).
      * eapply Forall_impl; [exact Hqs|]. intros q [T Hq]. exists T. eapply prefix_lookup; [|exact Hq]. apply Hg.
Qed.

Lemma build_lanes sts p w pid n before xs : lanes w p pid n before xs -> (0 < n)%nat ->
  exists p' w' ys, build sts p w = (Ok p', w') /\ lanes w' p' pid n (before ++ sts) ys /\ grows w w'.
Proof.
  intros Hla Hn. revert p w before xs Hla. induction sts as [|st sts IH]; intros p w before xs Hla.
  { exists p, w, xs. rewrite app_nil_r. split_and!; [done..|apply grows_refl]. }
  destruct (next_stage st p w pid n before xs Hla Hn) as (p1 & w1 & ys & Hc & Hla1 & Hg1 & _).
  destruct (IH p1 w1 (before ++ [st]) ys Hla1) as (p' & w' & zs & Hb & Hla' & Hg').
  exists p', w', zs. cbn [build]. split; [eapply M_step; [exact Hc|exact Hb]|].
  split; [by rewrite <- app_assoc in Hla'|by eapply grows_trans].
Qed.

(** [merge] *)
Lemma merge_lanes p w pid n sts xs : lanes w p pid n sts xs -> (0 < n)%nat ->
  exists p' w' m q qs, merge p w = (Ok (p, p'), w') /\ cursor w' p' q /\ grows w w' /\
    mPartitions w' = partition_entries pid 0 qs /\ length qs = n /\
    Forall (fun q => exists T, heap w' !! q = Some (queue_op T)) qs /\
    Forall (fun o => exists x, path w' o sts x /\ links_of w' x = pair_links x m) qs /\
    (exists T, heap w' !! m = Some (mkOp KMerge (Some T) None (Some T))) /\ links_of w' m = pair_links m q /\
    (exists T, heap w' !! q = Some (queue_op T)).
Proof.
  intros [Hs Hnp Hlen (t & Ht & Hd) Hout Hnd Hl Hb (qs & Hm & Hlqs & Hpaths & Hqs)] Hn.
  set (mo := mkOp (KMerge (V:=V)) (Some (elem p)) None (Some (elem p))). set (N := length (heap w)).
  set (w1 := ext [mo] (zip_links xs (replicate n N)) [] [N] w).
  assert (forall x, x ∈ xs -> (x < N)%nat) as Hxs.
  { intros x Hx. rewrite Forall_forall in Hout. by eapply has_out_lt, Hout. }
  assert (forall x, x ∈ xs -> links_of w x = []) as Hlx by (by apply Forall_forall).
  assert (grows w w1) as Hg1 by (apply grows_ext; intros l Hin%zip_links_src; by apply Hlx).
  assert (links_of w1 N = []) as HlN.
  { unfold w1. rewrite links_of_ext, links_of_fresh by (done || unfold N; lia). apply filter_zip_none. intros Hin%Hxs. lia. }
  assert (links_below w1) as Hb1.
  { apply links_below_ext; [done|]. intros l Hin%zip_links_src%Hxs. simpl. unfold N in *. lia. }
  assert (length (heap w1) = S N) as HN1 by (unfold w1; cbn [ext heap]; rewrite length_app; simpl; unfold N; lia).
  destruct (behind_facts w1 N (queue_op (elem p)) ltac:(lia) HlN Hb1) as (Hg2 & HlN2 & Hlq & Hq & Hb2 & Hpub).
  set (w2 := behind w1 N (queue_op (elem p))) in *. rewrite HN1 in *.
  assert (grows w w2) as Hg by (by eapply grows_trans).
  eexists _, w2, N, (S N), qs. split_and!.
  - unfold merge. rewrite Hs. m_step new_op_ext. eapply M_step; [reflexivity|]. cbn beta.
    rewrite Ht, (it_of_tail t xs w Hd) by (intros ->; simpl in *; lia).
    eapply M_step; [apply (link_all_ok (elem p) t xs)|].
    + cbn [ext publishers]. by rewrite app_nil_r.
    + cbn [ext publishers]. rewrite app_nil_r, <- Hd, length_drop. lia.
    + by apply Forall_out_ext.
    + rewrite fan_in_zip, Hlen. m_step add_publisher_ext. rewrite !ext_ext. cbn [app]. rewrite !app_nil_r.
      change (ext _ _ _ _ w) with w1. m_step new_op_ext. m_step connect_op_ext. rewrite ext_ext.
      m_step add_publisher_ext. rewrite ext_ext. reflexivity.
  - split; cbn [partitioningState tailIter elem]; [done| |by eexists|done..].
    eexists. split; [reflexivity|]. unfold w2, behind. cbn [ext publishers]. rewrite app_nil_r. exact Hpub.
  - done.
  - unfold w2, behind, w1. cbn [ext mPartitions]. by rewrite !app_nil_r.
  - done.
  - eapply Forall_impl; [exact Hqs|]. intros q [T Hq']. exists T. eapply prefix_lookup; [|exact Hq']. apply Hg.
  - apply Forall_forall. intros q [i Hqi]%list_elem_of_lookup. destruct (Forall2_lookup_l _ _ _ _ _ Hpaths Hqi) as (x & Hx & Hp).
    exists x. split; [by eapply path_grows|]. assert (links_of w1 x = pair_links x N) as Hx1.
    { unfold w1. rewrite links_of_ext, Hlx by (by apply (list_elem_of_lookup_2 _ i)).
      apply (filter_zip xs _ i); [done..|]. apply lookup_replicate_2. by apply lookup_lt_Some in Hx; rewrite Hlen in Hx. }
    destruct Hg2 as [_ Hg2]. by rewrite Hg2; rewrite Hx1.
  - exists (elem p). eapply prefix_lookup; [apply Hg2|]. unfold w1, N. cbn [ext heap]. by rewrite lookup_app_r, Nat.sub_diag by lia.
  - done.
  - by eexists.
Qed.

(** ** What arrives *)

Lemma collect_seen (F : nat * message V -> option (list (nat * message V) * list (nat * message V))) g l :
  (forall c, c ∈ l -> exists q, F c = Some (q, g c)) -> exists q, collect F l = Some (q, l ≫= g).
Proof.
  induction l as [|c l IH]; intros H; [by exists []|]. cbn [collect mbind list_bind].
  destruct (H c ltac:(by left)) as [q1 ->]. destruct IH as [q2 Hq2]; [intros c' Hc'; apply H; by right|].
  cbn [mbind option_bind]. rewrite Hq2. cbn [mbind option_bind]. by eexists.
Qed.

Lemma run_stages_cons st sts ms : run_stages (st :: sts) ms = run_stages sts (ms ≫= stage_step st).
Proof. done. Qed.

Lemma run_stages_app sts l l' : run_stages sts (l ++ l') = run_stages sts l ++ run_stages sts l'.
Proof.
  revert l l'. induction sts as [|st sts IH]; intros l l'; [done|]. rewrite !run_stages_cons, bind_app. apply IH.
Qed.

Lemma run_stages_bind sts l : run_stages sts l = l ≫= fun m => run_stages sts [m].
Proof.
  induction l as [|m l IH].
  - induction sts as [|st sts IH]; [done|]. by rewrite run_stages_cons.
  - change (m :: l) with ([m] ++ l). by rewrite run_stages_app, bind_app, IH, bind_singleton.
Qed.

Lemma run_stages_punct sts p : run_stages sts [MPunct p] = [MPunct p].
Proof. induction sts as [|st sts IH]; [done|]. rewrite run_stages_cons. by destruct st. Qed.

(** the stages make no punctuations, and queues change none of their elements *)
Lemma run_stages_data sts ms m : (forall m, m ∈ ms -> queued m = m) -> m ∈ run_stages sts ms -> queued m = m.
Proof.
  revert ms. induction sts as [|st sts IH]; intros ms Hms; [apply Hms|]. rewrite run_stages_cons. apply IH.
  intros m' (m0 & Hin & H0)%list_elem_of_bind. specialize (Hms m0 H0). unfold stage_step in Hin.
  destruct st, m0 as [v o|p]; cbn in Hin; try case_match; cbn in Hin;
    repeat match goal with H : _ ∈ _ :: _ |- _ => apply elem_of_cons in H as [->|H] | H : _ ∈ [] |- _ => by apply elem_of_nil in H end;
    done.
Qed.

(** the entry of partition [z] among those of the partitions from [i] on *)
Definition pick (z : Z) (i : nat) (qs : list nat) (m : message V) : list (nat * message V) :=
  omap (fun '(j, q) => if decide (z = Z.of_nat j) then Some (q, m) else None) (zip (seq i (length qs)) qs).

Lemma pick_below z i qs m : z < Z.of_nat i -> pick z i qs m = [].
Proof.
  revert i. induction qs as [|q qs IH]; intros i Hi; [done|]. unfold pick. cbn [length seq zip_with omap list_omap].
  rewrite decide_False by lia. apply IH. lia.
Qed.

Lemma pick_one z i qs m : Z.of_nat i <= z < Z.of_nat (i + length qs) -> exists q, q ∈ qs /\ pick z i qs m = [(q, m)].
Proof.
  revert i. induction qs as [|q qs IH]; intros i Hi; [simpl in Hi; lia|].
  unfold pick. cbn [length seq zip_with omap list_omap] in *. case_decide as Hz.
  - exists q. split; [by left|]. f_equal. apply pick_below. lia.
  - destruct (IH (S i) ltac:(lia)) as (q' & Hq' & He). exists q'. split; [by right|exact He].
Qed.

Lemma omap_entries {B} (g : nat -> nat -> option B) pid i qs :
  omap (fun e => let '((o, i), q) := e in if decide (o = pid) then g i q else None) (partition_entries pid i qs) =
  omap (fun '(j, q) => g j q) (zip (seq i (length qs)) qs).
Proof.
  unfold partition_entries. revert i. induction qs as [|q qs IH]; intros i; [done|].
  cbn [length seq fmap list_fmap zip_with omap list_omap]. rewrite decide_True by done. by rewrite IH.
Qed.

Lemma partition_data (w : W) pid f qs v o : mPartitions w = partition_entries pid 0 qs -> 0 <= f v < Z.of_nat (length qs) ->
  exists q, q ∈ qs /\ partition_calls w pid f (MData v o) = [(q, MData v o)].
Proof.
  intros Hm Hf. destruct (pick_one (f v) 0 qs (MData v o) Hf) as (q & Hq & He). exists q. split; [done|].
  rewrite <- He. unfold partition_calls. rewrite Hm. apply (omap_entries (fun i q => if decide (f v = Z.of_nat i) then Some (q, _) else None)).
Qed.

Lemma partition_punct (w : W) pid f qs p : mPartitions w = partition_entries pid 0 qs ->
  partition_calls w pid f (MPunct p) = (fun q => (q, MPunct p)) <$> qs.
Proof.
  intros Hm. unfold partition_calls. rewrite Hm. rewrite (omap_entries (fun _ q => Some (q, MPunct p))). generalize 0%nat.
  clear Hm. induction qs as [|q qs IH]; intros i; [done|]. cbn [length seq zip_with omap list_omap fmap list_fmap]. by rewrite IH.
Qed.

(** [Notify] at the end of a pipeline *)
Lemma notify_final (w : W) k x cb Tin m : heap w !! x = Some (mkOp (KNotify cb None) (Some Tin) None (Some Tin)) ->
  links_of w x = [] -> final w (S k) (x, m) = Some ([], [(x, m)]).
Proof. intros Hx Hl. cbn [final]. unfold final_call. rewrite Hx. cbn [mbind option_bind okind]. by rewrite calls_nil. Qed.

(** the end of a partitioned pipeline: [Merge], a queue, [Notify] *)
Record tail_ok (w : W) (m q x : nat) : Prop := {
  tl_merge : exists T, heap w !! m = Some (mkOp KMerge (Some T) None (Some T));
  tl_merge_links : links_of w m = pair_links m q;
  tl_queue : exists T, heap w !! q = Some (queue_op T);
  tl_queue_links : links_of w q = pair_links q x;
  tl_notify : exists cb T, heap w !! x = Some (mkOp (KNotify cb None) (Some T) None (Some T));
  tl_notify_links : links_of w x = []
}.

Lemma tail_final w m q x k c : tail_ok w m q x -> exists h, final w (S (S (S k))) (m, c) = Some (h, [(x, queued c)]).
Proof.
  intros [[T Hm] Hlm [T' Hq] Hlq (cb & T'' & Hx) Hlx].
  assert (final w (S (S k)) (q, c) = Some ([(q, c)], [(x, queued c)])) as Hfq.
  { change (final w (S (S k))) with (final_call w (final w (S k))). unfold final_call. rewrite Hq.
    cbn [mbind option_bind okind queue_op]. rewrite (thread_calls_pair _ _ _ _ Hlq). cbn [mbind option_bind collect].
    by rewrite (notify_final _ _ _ _ _ _ Hx Hlx). }
  exists [(q, c)]. change (final w (S (S (S k)))) with (final_call w (final w (S (S k)))). unfold final_call. rewrite Hm.
  cbn [mbind option_bind okind]. destruct c as [v o|p]; cbn [react merge_step mbind option_bind];
    rewrite (calls_pair _ _ _ _ Hlm); cbn [fmap list_fmap collect]; by rewrite Hfq.
Qed.

(** a partition: its queue, the stages, and the end *)
Lemma lane_final w sts m q x qi xi k c : tail_ok w m q x -> (exists T, heap w !! qi = Some (queue_op T)) ->
  path w qi sts xi -> links_of w xi = pair_links xi m ->
  exists h, final w (S (length sts + S (S (S k)))) (qi, c) =
    Some (h, (fun c => (x, queued c)) <$> run_stages sts [queued c]).
Proof.
  intros Htl [T Hqi] Hp Hxi.
  destruct (collect_seen (final w (S (S (S k)))) (fun c => [(x, queued c.2)]) (calls w xi (run_stages sts [queued c]))) as [h Hh].
  { rewrite (calls_pair _ _ _ _ Hxi). intros [m' c'] (c'' & [= -> ->] & _)%list_elem_of_fmap. by apply (tail_final _ _ q). }
  exists ((qi, c) :: h). cbn [final]. unfold final_call. rewrite Hqi. cbn [mbind option_bind okind queue_op].
  destruct (path_start _ _ _ _ _ Hp Hxi) as [y Hy].
  rewrite (thread_calls_pair _ _ _ _ Hy). cbn [mbind option_bind]. change [(y, queued c)] with ((fun m => (y, m)) <$> [queued c]).
  rewrite <- (calls_pair _ _ _ _ Hy), (path_final _ _ _ _ (S (S (S k))) _ Hp), Hh. cbn [mbind option_bind]. do 2 f_equal.
  rewrite (calls_pair _ _ _ _ Hxi). clear Hh. induction (run_stages sts [queued c]) as [|c' l IH]; [done|].
  rewrite !fmap_cons. cbn [mbind list_bind app snd]. by f_equal.
Qed.

(** what a partitioned pipeline shows for a message *)
Definition partitioned_output (sts : list stage) (n : nat) (c : message V) : list (message V) :=
  match c with
  | MData _ _ => run_stages sts [c]
  | MPunct p => replicate n (MPunct (mkPunct (ptype p) None))
  end.

Lemma partitioned_final w f n pid sts qs m q x s T c :
  links_of w s = pair_links s pid -> heap w !! pid = Some (mkOp (KPartitionBy f n) (Some T) None (Some T)) ->
  mPartitions w = partition_entries pid 0 qs -> length qs = n ->
  Forall (fun q => exists T, heap w !! q = Some (queue_op T)) qs ->
  Forall (fun o => exists x, path w o sts x /\ links_of w x = pair_links x m) qs -> tail_ok w m q x ->
  (forall v o, c = MData v o -> 0 <= f v < Z.of_nat n) ->
  forall k, exists h, final_publish w (length sts + 5 + k) (s, c) = Some (h, (fun c => (x, c)) <$> partitioned_output sts n c).
Proof.
  intros Hs Hpid Hm Hn Hqs Hpaths Htl Hf k. unfold final_publish. cbn [fst snd]. rewrite (thread_calls_pair _ _ _ _ Hs).
  cbn [mbind option_bind]. replace (length sts + 5 + k)%nat with (S (S (length sts + S (S (S k))))) by lia.
  assert (forall F, collect (final_call w F) [(pid, c)] = collect F (partition_calls w pid f c)) as Hsplit.
  { intros F. cbn [collect]. unfold final_call. rewrite Hpid. cbn [mbind option_bind okind].
    destruct (collect F _) as [[h l]|]; [|done]. cbn [mbind option_bind]. by rewrite !app_nil_r. }
  change (final w (S (S (length sts + S (S (S k)))))) with (final_call w (final w (S (length sts + S (S (S k)))))).
  rewrite Hsplit. clear Hsplit. rewrite Forall_forall in Hqs, Hpaths.
  assert (forall qi, qi ∈ qs -> exists h, final w (S (length sts + S (S (S k)))) (qi, c) =
    Some (h, (fun c => (x, queued c)) <$> run_stages sts [queued c])) as Hlane.
  { intros qi Hqi. destruct (Hpaths qi Hqi) as (xi & Hp & Hxi). by apply (lane_final w sts m q x qi xi); [|apply Hqs| |]. }
  destruct c as [v o|p].
  - destruct (partition_data w pid f qs v o Hm ltac:(rewrite Hn; by eapply Hf)) as (qi & Hqi & ->).
    destruct (Hlane qi Hqi) as [h Hh]. cbn [collect]. rewrite Hh. cbn [mbind option_bind]. eexists. do 2 f_equal.
    rewrite app_nil_r. cbn [partitioned_output queued]. apply list_fmap_ext. intros i c' Hc'%list_elem_of_lookup_2.
    f_equal. eapply run_stages_data, Hc'. by intros c0 ->%list_elem_of_singleton.
  - rewrite (partition_punct w pid f qs p Hm).
    destruct (collect_seen (final w (S (length sts + S (S (S k))))) (fun _ => [(x, MPunct (mkPunct (ptype p) None))])
      ((fun q => (q, MPunct p)) <$> qs)) as [h ->].
    { intros [q' c'] (qi & [= -> ->] & Hqi)%list_elem_of_fmap. destruct (Hlane qi Hqi) as [h ->]. exists h.
      cbn [queued]. by rewrite run_stages_punct. }
    exists h. do 2 f_equal. rewrite <- Hn. cbn [partitioned_output]. clear. induction qs as [|q qs IH]; [done|].
    cbn [fmap list_fmap mbind list_bind length replicate app]. by f_equal.
Qed.

(** ** The two programs *)

Definition source_world (T : etype) : W := mkWorld [mkOp (KSource "StreamGenerator") None None (Some T)] [] [] [0%nat] [] [0%nat] [].

Lemma generator_ok T : streamFromGenerator T empty_world = (Ok (new_pipe T (Some 0%nat)), source_world T) /\
  cursor (source_world T) (new_pipe T (Some 0%nat)) 0.
Proof.
  split; [done|]. split; [done|by exists 0%nat|by eexists|done|]. by intros l ?%elem_of_nil.
Qed.

Lemma sequential_ok T sts cb : exists p w x y, sequential T sts cb empty_world = (Ok p, w) /\ mPartitions w = [] /\
  path w 0 sts x /\ links_of w x = pair_links x y /\ links_of w y = [] /\
  exists T', heap w !! y = Some (mkOp (KNotify cb None) (Some T') None (Some T')).
Proof.
  destruct (generator_ok T) as [Hg Hc]. destruct (build_sequential sts _ _ _ Hc) as (p1 & w1 & x & Hb & Hc1 & Hp & _ & Hm).
  destruct (unary_cursor (KNotify cb None) (elem p1) w1 p1 x Hc1) as (p2 & Hu & _ & Hc2 & Hg2 & Hlx & Hy).
  exists (p1, p2), (behind w1 x (mkOp (KNotify cb None) (Some (elem p1)) None (Some (elem p1)))), x, (length (heap w1)).
  split_and!; [|cbn [behind ext mPartitions]; by rewrite Hm|by eapply path_grows|done|apply Hc2|by eexists].
  unfold sequential. eapply M_step; [exact Hg|]. eapply M_step; [exact Hb|exact Hu].
Qed.

Lemma partitioned_ok T f n st sts cb : (0 < n)%nat -> exists p w pid qs m q x,
  partitioned T f n (st :: sts) cb empty_world = (Ok p, w) /\
  links_of w 0 = pair_links 0 pid /\ heap w !! pid = Some (mkOp (KPartitionBy f n) (Some T) None (Some T)) /\
  mPartitions w = partition_entries pid 0 qs /\ length qs = n /\
  Forall (fun q => exists T, heap w !! q = Some (queue_op T)) qs /\
  Forall (fun o => exists x, path w o (st :: sts) x /\ links_of w x = pair_links x m) qs /\ tail_ok w m q x.
Proof.
  intros Hn. destruct (generator_ok T) as [Hg [_ _ Ho Hl Hb]]. set (w0 := source_world T) in *. set (p0 := new_pipe T (Some 0%nat)) in *.
  set (po := mkOp (KPartitionBy f n) (Some T) None (Some T)).
  destruct (behind_facts w0 0 po ltac:(simpl; lia) Hl Hb) as (Hg1 & Hl0 & Hl1 & Hpid & Hb1 & Hpub1).
  set (w1 := behind w0 0 po) in *.
  set (p1 := mkPipe T FirstInPartitioning None None None n (Some 1%nat) : pipe (V:=V)).
  assert (partitionBy f n p0 w0 = (Ok (p0, p1), w1)) as Hpb.
  { unfold partitionBy. cbn [p0 new_pipe partitioningState elem]. m_step new_op_ext.
    m_step (addPublisher_ok _ _ _ 0%nat 0%nat); [done..|by apply has_out_ext'|]. rewrite ext_ext. reflexivity. }
  destruct (first_stage st p1 w1 1 1 f n (Some T) eq_refl eq_refl Hn eq_refl Hpub1 Hpid Hb1 eq_refl)
    as (p1' & p2 & w2 & xs & Hst & Hla & Hg2 & _).
  destruct (build_lanes sts p2 w2 1 n [st] xs Hla Hn) as (p3 & w3 & ys & Hbl & Hla3 & Hg3).
  destruct (merge_lanes p3 w3 1 n _ ys Hla3 Hn) as (p4 & w4 & m & q & qs & Hmg & Hc4 & Hg4 & Hm4 & Hlqs & Hqs & Hps & Hmo & Hlm & Hqo).
  destruct (unary_cursor (KNotify cb None) (elem p4) w4 p4 q Hc4) as (p5 & Hu & _ & Hc5 & Hg5 & Hlq & Hx).
  set (w5 := behind w4 q _) in *.
  assert (grows w1 w5) as Hg15 by (do 3 (eapply grows_trans; [done|]); done).
  exists (p4, p5), w5, 1%nat, qs, m, q, (length (heap w4)). split_and!.
  - unfold partitioned. eapply M_step; [exact Hg|]. eapply M_step; [exact Hpb|]. cbn [build].
    eapply M_step; [eapply M_step; [exact Hst|exact Hbl]|]. eapply M_step; [exact Hmg|exact Hu].
  - destruct Hg15 as [_ Hg15]. by rewrite Hg15; rewrite Hl0.
  - eapply prefix_lookup; [apply Hg15|exact Hpid].
  - unfold w5. cbn [behind ext mPartitions]. by rewrite Hm4, app_nil_r.
  - done.
  - eapply Forall_impl; [exact Hqs|]. intros q' [T' Hq']. exists T'. eapply prefix_lookup; [apply Hg5|exact Hq'].
  - eapply Forall_impl; [exact Hps|]. intros q' (x & Hp & Hlx). exists x. split; [eapply path_grows; [exact Hg5|exact Hp]|].
    destruct Hg5 as [_ Hg5]. by rewrite Hg5; rewrite Hlx.
  - destruct Hmo as [T1 Hmo], Hqo as [T2 Hqo]. split.
    + exists T1. eapply prefix_lookup; [apply Hg5|exact Hmo].
    + destruct Hg5 as [_ Hg5]. by rewrite Hg5; rewrite Hlm.
    + exists T2. eapply prefix_lookup; [apply Hg5|exact Hqo].
    + done.
    + by eexists _, _.
    + apply Hc5.
Qed.

(** the inputs of a topology with one source *)
Definition start (es : list (message V)) : config := mkConfig ((fun m => (0%nat, m)) <$> es) [] [].

(** what runs show, from what each message of the input does *)
Lemma runs_show w fuel y (g : message V -> list (message V)) es :
  (forall o i q, ((o, i), q) ∈ mPartitions w -> is_queue w q) ->
  (forall m, m ∈ es -> exists h, final_publish w fuel (0%nat, m) = Some (h, (fun m => (y, m)) <$> g m)) ->
  exists bound, forall k c, nsteps (step w fuel) k (start es) c ->
    (drained c \/ exists c', step w fuel c c') /\ (k <= bound)%nat /\ (drained c -> (seen c).*2 ≡ₚ es ≫= g).
Proof.
  intros Hq Hg.
  destruct (collect_seen (final_publish w fuel) (fun c => (fun m => (y, m)) <$> g c.2) ((fun m => (0%nat, m)) <$> es)) as [h Hh].
  { intros [s c] (m & [= -> ->] & Hm)%list_elem_of_fmap. by apply Hg. }
  exists (length es + length h)%nat. intros k c Hk.
  destruct (runs_agree w Hq _ _ _ _ _ _ Hh Hk) as (Hprog & Hbound & Hseen). rewrite length_fmap in Hbound.
  split_and!; [done..|]. intros Hd. rewrite (Hseen Hd). clear.
  induction es as [|m es IH]; [done|]. rewrite fmap_cons. cbn [mbind list_bind snd]. rewrite fmap_app, IH.
  by rewrite <- list_fmap_compose, list_fmap_id.
Qed.

(** a pipeline without partitions, message by message *)
Lemma sequential_final w sts x y cb T k m : path w 0 sts x -> links_of w x = pair_links x y -> links_of w y = [] ->
  heap w !! y = Some (mkOp (KNotify cb None) (Some T) None (Some T)) ->
  exists h, final_publish w (length sts + S k) (0%nat, m) = Some (h, (fun m => (y, m)) <$> run_stages sts [m]).
Proof.
  intros Hp Hx Hly Hy. unfold final_publish. cbn [fst snd].
  destruct (path_start _ _ _ _ _ Hp Hx) as [y0 Hy0]. rewrite (thread_calls_pair _ _ _ _ Hy0). cbn [mbind option_bind].
  change [(y0, m)] with ((fun m => (y0, m)) <$> [m]).
  rewrite <- (calls_pair _ _ _ _ Hy0), (path_final _ _ _ _ _ _ Hp), (calls_pair _ _ _ _ Hx).
  destruct (collect_seen (final w (S k)) (fun c => [c]) ((fun m => (y, m)) <$> run_stages sts [m])) as [h ->].
  - intros [y' c'] (c'' & [= -> ->] & _)%list_elem_of_fmap. exists []. by apply (notify_final w _ y cb T).
  - exists h. do 2 f_equal. generalize ((fun m => (y, m)) <$> run_stages sts [m]). intros l.
    induction l as [|c l IH]; [done|]. cbn [mbind list_bind app]. by f_equal.
Qed.

(** C21: A pipeline of selections and projections that the DSL builds between
    [partitionBy(f, n)] and [merge()] does the work of the same pipeline without
    them.  Both programs build without an exception.  Every run of either - the
    source and the threads of the queues in any order - can be continued until all
    is done, after a bounded number of steps; what the callback behind it has then
    seen of elements is, up to the order, what the stages make of the input
    stream.  Punctuations reach it once per partition, without their data. *)
Theorem partitioned_pipeline (T : etype) (f : V -> Z) (n : nat) (st : stage) (sts : list stage) (cb : handle)
    (es : list (message V)) (j : nat) :
  (0 < n)%nat -> (forall v o, MData v o ∈ es -> 0 <= f v < Z.of_nat n) ->
  let fuel := (length (st :: sts) + 5 + j)%nat in
  exists p1 w1 p2 w2 bound,
    sequential T (st :: sts) cb empty_world = (Ok p1, w1) /\
    partitioned T f n (st :: sts) cb empty_world = (Ok p2, w2) /\
    (forall k c, nsteps (step w1 fuel) k (start es) c ->
       (drained c \/ exists c', step w1 fuel c c') /\ (k <= bound)%nat /\
       (drained c -> (seen c).*2 ≡ₚ run_stages (st :: sts) es)) /\
    (forall k c, nsteps (step w2 fuel) k (start es) c ->
       (drained c \/ exists c', step w2 fuel c c') /\ (k <= bound)%nat /\
       (drained c -> (seen c).*2 ≡ₚ es ≫= partitioned_output (st :: sts) n)).
Proof.
  intros Hn Hf fuel. destruct (sequential_ok T (st :: sts) cb) as (p1 & w1 & x & y & Hseq & Hm1 & Hp1 & Hlx & Hly & T' & Hy).
  destruct (partitioned_ok T f n st sts cb Hn) as (p2 & w2 & pid & qs & m & q & z & Hpar & Hl0 & Hpid & Hm2 & Hlqs & Hqs & Hps & Htl).
  destruct (runs_show w1 fuel y (fun m => run_stages (st :: sts) [m]) es) as [b1 H1].
  { rewrite Hm1. by intros ? ? ? ?%elem_of_nil. }
  { intros m0 _. unfold fuel. rewrite <- Nat.add_assoc. by eapply (sequential_final w1 _ x y cb T'). }
  destruct (runs_show w2 fuel z (partitioned_output (st :: sts) n) es) as [b2 H2].
  { rewrite Hm2. intros o i q' Hin%elem_of_zip_r. rewrite Forall_forall in Hqs. destruct (Hqs q' Hin) as [T1 Hq']. by exists (queue_op T1). }
  { intros m0 Hin. apply (partitioned_final w2 f n pid (st :: sts) qs m q z 0 T m0 Hl0 Hpid Hm2 Hlqs Hqs Hps Htl).
    intros v o ->. by eapply Hf. }
  exists p1, w1, p2, w2, (b1 + b2)%nat. split_and!; [done..| |].
  - intros k c Hk. destruct (H1 k c Hk) as (? & ? & ?). rewrite (run_stages_bind _ es). by split_and!; [|lia|].
  - intros k c Hk. destruct (H2 k c Hk) as (? & ? & ?). by split_and!; [|lia|].
Qed.

End pipeline.

(** ** Examples *)

Module Demo.
Definition T1 : etype := Elem 1.
Definition T2 : etype := Elem 2.
Definition parity (v : Z) : Z := v mod 2.
Definition small : stage (V:=Z) := SWhere (fun v _ => v <? 10).
Definition ten_times : stage (V:=Z) := SMap T2 (fun v _ => 10 * v).

(** [merge()] right behind [partitionBy] *)
Lemma merge_needs_stage : (partitioned T1 parity 2 [] 0%nat empty_world).1 =
  Err (TopologyException "Nothing to merge in topology.").
Proof. reflexivity. Qed.

(** A method changes the partitioned pipe it is called on: a second method on the
    same pipe takes the [PartitionBy] for the first of its operators.  The first
    [Map] (6) subscribes to the output of the [PartitionBy] (1), on which nothing
    is ever published, the second (7) to the selection (2) of partition 0; nobody
    takes what the selection of partition 1 publishes. *)
Definition twice : M (V:=Z) pipe :=
  p ← streamFromGenerator T1;
  '(_, p) ← partitionBy parity 2 p;
  '(p, _) ← where_ (fun v _ => v <? 10) p;
  '(_, q) ← map_ T1 (fun v _ => 10 * v) p;
  mret q.

Lemma reused_partitioned_pipe : (exists q, (twice empty_world).1 = Ok q) /\
  links (twice empty_world).2 =
    pair_links 0 1 ++ pair_links 4 2 ++ pair_links 5 3 ++ pair_links 1 6 ++ pair_links 2 7.
Proof. split; [vm_compute; by eexists|vm_compute; reflexivity]. Qed.

(** [merge] takes all publishers to the end of the dataflow: a source created in
    between (6) is merged into the stream, or makes it throw if its elements have
    another type. *)
Definition with_source (T : etype) : M (V:=Z) pipe :=
  p ← streamFromGenerator T1;
  '(_, p) ← partitionBy parity 2 p;
  '(_, p) ← where_ (fun v _ => v <? 10) p;
  _ ← streamFromGenerator T;
  '(_, p) ← merge p;
  mret p.

Lemma merge_takes_others :
  (exists p, (with_source T1 empty_world).1 = Ok p) /\ DataLink 6 In 7 ∈ links (with_source T1 empty_world).2 /\
  (with_source T2 empty_world).1 = Err (TopologyException "Incompatible tuple types in Pipe.").
Proof.
  split_and!; [vm_compute; by eexists| |vm_compute; reflexivity].
  change (DataLink 6 In 7 ∈ pair_links 0 1 ++ pair_links 4 2 ++ pair_links 5 3 ++ pair_links 2 7 ++ pair_links 3 7 ++
    pair_links 6 7 ++ pair_links 7 8). do 10 right. by left.
Qed.

(** A stream forked behind a queue: elements go both ways, a punctuation is a null
    pointer for the second subscriber. *)
Definition forked : M (V:=Z) pipe :=
  p ← streamFromGenerator T1;
  '(_, p) ← queue p;
  _ ← notify 1%nat None p;
  _ ← notify 2%nat None p;
  mret p.

Lemma forked_queue fuel v o p :
  publish (forked empty_world).2 (S fuel) (1%nat, MData v o) = Some ([], [(2%nat, MData v o); (3%nat, MData v o)]) /\
  publish (forked empty_world).2 (S fuel) (1%nat, MPunct p) = None.
Proof. split; reflexivity. Qed.

(** The operators of partitions get the timestamp trigger without a timestamp
    extractor. *)
Definition stamped (n : nat) : M (V:=Z) (pipe * pipe) :=
  p ← streamFromGenerator T1;
  let p := assignTimestamps (mkExtractor TimestampT T1 (fun v => v)) p in
  '(_, p) ← partitionBy parity n p;
  aggregate T2 1%nat 2%nat TriggerAll 5 p.

Lemma partitioned_trigger_unset :
  heap (stamped 1 empty_world).2 !! 2%nat =
    Some (mkOp (KAggregation None 1%nat 2%nat None TriggerByTimestamp 5) (Some T1) None (Some T2)).
Proof. reflexivity. Qed.
End Demo.

(** ** Witnesses *)

Lemma partitioned_pipeline_witness : exists p w,
  partitioned Demo.T1 Demo.parity 2 [Demo.small; Demo.ten_times] 0%nat empty_world = (Ok p, w) /\
  forall k c, nsteps (step w 7) k
      (start [MData 3 false; MData 12 false; MData 4 true; MPunct (mkPunct EndOfStream (Some 9))]) c -> drained c ->
    (seen c).*2 ≡ₚ [MData 30 false; MData 40 true; MPunct (mkPunct EndOfStream None); MPunct (mkPunct EndOfStream None)].
Proof.
  destruct (partitioned_pipeline Demo.T1 Demo.parity 2 Demo.small [Demo.ten_times] 0%nat
    [MData 3 false; MData 12 false; MData 4 true; MPunct (mkPunct EndOfStream (Some 9))] 0 ltac:(lia))
    as (p1 & w1 & p2 & w2 & bound & _ & Hpar & _ & Hrun).
  { intros v o _. unfold Demo.parity. apply Z.mod_pos_bound. lia. }
  exists p2, w2. split; [exact Hpar|]. intros k c Hk. exact (proj2 (proj2 (Hrun k c Hk))).
Defined.
