(* ===== verification/Wiring.v ===== *)
(** * Wiring: the dataflow on channels

    [Dataflow.v] keeps the subscriptions of a program as a list, and
    [Pipelines.v] calls the subscribers in the order of that list.  Here the list
    is carried out on the channels of [PubSub.v]: each operator gets its output
    and input channels ([DataSource.hpp], [DataSink.hpp], [BinaryTransform.hpp]),
    each entry is one [connectChannels]. *)

From S2P Require Import Prelude PubSub Stream Operators Dataflow.
From S2P Require Pipelines.

Section wiring.
Context {V : Type}.

Abbreviation sig := (PubSub.OneToManySignal nat).

(** the channels of operator [o]: outputs for data (id 0) and punctuations (id 1);
    inputs for data, of two operands where there are two, and punctuations *)
Definition output_channel (o : nat) (punct : bool) : nat := (2 * o + if punct then 1 else 0)%nat.
Definition input_channel (o : nat) (p : option port) : nat :=
  (4 * o + match p with Some In => 0 | Some Left => 1 | Some Right => 2 | None => 3 end)%nat.

Definition link_from (l : link) : nat := match l with DataLink s _ _ => output_channel s false | PunctLink s _ => output_channel s true end.
Definition link_to (l : link) : nat := match l with DataLink _ p d => input_channel d (Some p) | PunctLink _ d => input_channel d None end.

(** the constructors of the operators create their channels *)
Definition operators (n : nat) : PubSub.channels sig :=
  PubSub.mkChannels (replicate (2 * n) (PubSub.mkOutput true (PubSub.sig_new (F := nat)) ∅)) (replicate (4 * n) (PubSub.mkInput true ∅)) [].

Fixpoint connect_all (ls : list link) (ch : PubSub.channels sig) : result (PubSub.channels sig) :=
  match ls with
  | [] => Ok ch
  | l :: ls => '(_, ch) ← PubSub.subscribe (link_from l) (link_to l) ch; connect_all ls ch
  end.

(** ** Lemmas *)

Lemma operators_consistent n : PubSub.consistent None None (operators n).
Proof.
  split; cbn [PubSub.outputs PubSub.inputs PubSub.subscriptions operators].
  - intros p o [-> _]%lookup_replicate _. exact PubSub.sig_new_ok.
  - intros p o [-> _]%lookup_replicate _ h. split; [by intros ?%elem_of_empty|by intros (? & ? & _)].
  - intros s i [-> _]%lookup_replicate _ h. split; [by intros ?%elem_of_empty|by intros (? & ? & _)].
  - done.
Qed.

(** a signal has given out no more handles than there are subscriptions *)
Definition few_slots (k : Z) (ch : PubSub.channels sig) : Prop :=
  forall p o, PubSub.outputs ch !! p = Some o -> 0 <= PubSub.mNextSlotID (PubSub.mSignal o) <= k.

Lemma subscribe_few p s ch h ch' k : 0 <= k -> k + 1 < 2^32 -> few_slots k ch -> PubSub.subscribe p s ch = Ok (h, ch') -> few_slots (k + 1) ch'.
Proof.
  intros Hk Hlt Hf Hs. unfold PubSub.subscribe in Hs. bind_inv Hs as (o & Ho & Hs). apply PubSub.output_at_ok in Ho as [Ho _].
  bind_inv Hs as (i & _ & Hs). cbn in Hs. injection Hs as <- <-. intros q o' Hq.
  unfold PubSub.update_output, PubSub.update_input in Hq. cbn [PubSub.outputs] in Hq.
  rewrite (PubSub.alter_lookup _ _ _ _ Ho), (PubSub.lookup_insert_case _ _ _ _ _ Ho) in Hq. pose proof (Hf _ _ Ho) as Hb. case_decide.
  - injection Hq as <-. cbn. rewrite u32_small by (unfold is_u32; lia). lia.
  - specialize (Hf _ _ Hq). lia.
Qed.

Lemma connect_all_ok n ls ch k :
  PubSub.consistent None None ch -> few_slots k ch -> 0 <= k -> k + Z.of_nat (length ls) + 1 < 2^32 ->
  PubSub.producers (PubSub.abstract ch) = replicate (2 * n) true -> PubSub.consumers (PubSub.abstract ch) = replicate (4 * n) true ->
  (forall l, l ∈ ls -> (link_from l < 2 * n)%nat /\ (link_to l < 4 * n)%nat) ->
  exists ch', connect_all ls ch = Ok ch' /\ PubSub.consistent None None ch' /\
    PubSub.abstract ch' = PubSub.mkSpec (replicate (2 * n) true) (replicate (4 * n) true)
      (PubSub.entries (PubSub.abstract ch) ++ ((fun l => PubSub.mkSubscribed (link_from l) (link_to l) true) <$> ls)).
Proof.
  revert ch k. induction ls as [|l ls IH]; intros ch k Hco Hf Hk Hlt Hp Hc Hls; cbn [connect_all].
  - exists ch. split_and!; [done..|]. rewrite fmap_nil, app_nil_r, <- Hp, <- Hc. by destruct (PubSub.abstract ch).
  - destruct (Hls l ltac:(by left)) as [Hfrom Hto]. cbn [length] in Hlt.
    destruct (PubSub.producers_at (link_from l) ch) as [o Ho]; [by rewrite Hp; apply lookup_replicate|].
    destruct (PubSub.consumers_at (link_to l) ch) as [i Hi]; [by rewrite Hc; apply lookup_replicate|].
    pose proof Ho as [Ho' _]%PubSub.output_at_ok. pose proof (Hf _ _ Ho') as Hb.
    destruct (PubSub.subscribe_ok _ _ _ _ _ Hco Ho Hi) as (ch1 & Hs & Hco1 & Habs); [cbn; lia|]. rewrite Hs. run_step.
    destruct (IH ch1 (k + 1)) as (ch' & Hall & Hco' & Habs'); [done|by apply (subscribe_few _ _ _ _ _ k ltac:(lia) ltac:(lia) Hf Hs)|lia|lia|..].
    + by rewrite Habs.
    + by rewrite Habs.
    + intros l' Hl'. apply Hls. by right.
    + exists ch'. split_and!; [done..|]. rewrite Habs', Habs. cbn [PubSub.spec_subscribe PubSub.entries].
      by rewrite fmap_cons, <- app_assoc.
Qed.

(** the operator of an input channel *)
Definition channel_op (c : nat * message V) : nat * message V := ((c.1 / 4)%nat, c.2).

Lemma channel_op_to l m : channel_op (link_to l, m) = (match l with DataLink _ _ d => d | PunctLink _ d => d end, m).
Proof.
  unfold channel_op. cbn [fst snd]. f_equal. assert (forall d r, (r < 4)%nat -> ((4 * d + r) / 4 = d)%nat) as Hd
    by (intros d r Hr; symmetry; by eapply Nat.div_unique).
  destruct l as [s [] d|s d]; apply Hd; lia.
Qed.

Lemma output_channel_eqb l o (m : message V) :
  (link_from l =? output_channel o (match m with MPunct _ => true | _ => false end))%nat = true <->
  match l, m with DataLink s _ _, MData _ _ => s = o | PunctLink s _, MPunct _ => s = o | _, _ => False end.
Proof. rewrite Nat.eqb_eq. unfold link_from, output_channel. destruct l as [s p d|s d], m; lia. Qed.

Lemma receivers_subscribers (w : world (V:=V)) ps cs o m :
  (fun s => channel_op (s, m)) <$> PubSub.receivers (output_channel o (match m with MPunct _ => true | _ => false end))
    (PubSub.mkSpec ps cs ((fun l => PubSub.mkSubscribed (link_from l) (link_to l) true) <$> links w)) =
  (fun d => (d, m)) <$> Pipelines.subscribers w o m.
Proof.
  unfold PubSub.receivers, Pipelines.subscribers. cbn [PubSub.entries]. induction (links w) as [|l ls IH]; [done|].
  rewrite fmap_cons. cbn [omap list_omap PubSub.from PubSub.to PubSub.open]. rewrite andb_true_r.
  pose proof (output_channel_eqb l o m) as He. destruct (link_from l =? _)%nat.
  - rewrite fmap_cons, channel_op_to, IH. destruct He as [He _]. specialize (He eq_refl).
    destruct l, m; try done; subst; rewrite decide_True by done; by rewrite fmap_cons.
  - rewrite IH. destruct l, m; try done; (rewrite decide_False; [done|]); intros ->; by destruct He as [_ He]; discriminate He.
Qed.

(** A dataflow whose subscriptions connect existing operators, in particular
    every one the DSL builds, can be wired: all its subscriptions succeed one
    after the other, and publishing on an output channel then calls exactly the
    subscribers that [Pipelines.v] runs, in the same order, on the channel of
    their kind. *)
Lemma wiring_calls (w : world (V:=V)) : typed w -> Z.of_nat (length (links w)) + 1 < 2^32 ->
  exists ch, connect_all (links w) (operators (length (heap w))) = Ok ch /\
    forall o m (moved : message V -> message V), (o < length (heap w))%nat ->
      exists cs, PubSub.publish moved PubSub.LValue m (output_channel o (match m with MPunct _ => true | _ => false end)) ch = Ok cs /\
        channel_op <$> cs = Pipelines.calls w o [m].
Proof.
  intros Ht Hlt. set (n := length (heap w)).
  destruct (connect_all_ok n (links w) (operators n) 0) as (ch & Hch & Hco & Habs); [apply operators_consistent| |lia|lia|..].
  - intros p o [-> _]%lookup_replicate. cbn. lia.
  - cbn. by rewrite fmap_replicate.
  - cbn. by rewrite fmap_replicate.
  - intros l Hl. destruct l as [s p d|s d]; cbn [link_from link_to]; unfold output_channel, input_channel.
    + destruct (typed_data _ Ht _ _ _ Hl) as (T & Hs%has_out_lt & Hd%has_in_lt). fold n in Hs, Hd. destruct p; lia.
    + destruct (typed_punct _ Ht _ _ Hl) as [Hs Hd]. fold n in Hs, Hd. lia.
  - exists ch. split; [done|]. intros o m moved Ho.
    destruct (PubSub.producers_at (output_channel o (match m with MPunct _ => true | _ => false end)) ch) as [oc Hoc].
    { rewrite Habs. cbn [PubSub.producers]. apply lookup_replicate. split; [done|]. unfold output_channel. fold n in Ho. destruct m; lia. }
    eexists. split; [by apply (PubSub.publish_ok _ _ _ _ _ _ _ Hco Hoc)|]. rewrite PubSub.invoke_lvalue, Habs. cbn [PubSub.abstract PubSub.entries operators PubSub.subscriptions fmap list_fmap app].
    rewrite <- list_fmap_compose. etransitivity; [apply (receivers_subscribers w)|]. unfold Pipelines.calls. cbn [mbind list_bind].
    by rewrite app_nil_r.
Qed.
End wiring.

(** ** Witness: the dataflow of [Dataflow.v]'s example *)

Lemma wiring_calls_witness : exists ch,
  connect_all (links demo_where) (operators (length (heap demo_where))) = Ok ch /\
  exists cs, PubSub.publish (fun m => m) PubSub.LValue (MData 4 false) (output_channel 0 false) ch = Ok cs /\
    channel_op <$> cs = [(1%nat, MData 4 false)].
Proof.
  destruct (wiring_calls demo_where) as (ch & Hch & Hpub).
  - apply wp_method; [apply call_where|]. apply wp_method; [apply call_partitionBy|].
    apply wp_source; [apply source_generator|apply typed_empty].
  - reflexivity.
  - exists ch. split; [exact Hch|]. exact (Hpub 0%nat (MData 4 false) (fun m => m) ltac:(by apply Nat.ltb_lt; vm_compute)).
Defined.
