(* ===== verification/Matrices.v ===== *)
(** * Matrices: dense matrices, slicing and merging

    [DenseMatrix.hpp], [BaseMatrix.hpp], [MatrixSlice.hpp], [MatrixMerge.hpp].
    The matrices of the Eigen library are a class of operations with the laws
    its documentation gives; the laws say nothing about cells that were never
    written and about assignments between overlapping blocks of one matrix.
    Allocation is taken to succeed.  Cells are integers. *)

From S2P Require Import Prelude Stream.

(** ** Eigen::Matrix *)

(** [dn_resize] loses the contents, [dn_conservativeResize] keeps what fits.
    [dn_copy dst r c src r' c' h w] is [dst.block(r,c,h,w) = src.block(r',c',h,w)]
    for two matrices, [dn_move] the same within one. *)
Class DenseOps (M : Type) := {
  dn_new : Z -> Z -> M;
  dn_rows : M -> Z;
  dn_cols : M -> Z;
  dn_coeff : M -> Z -> Z -> Z;
  dn_write : M -> Z -> Z -> Z -> M;
  dn_resize : M -> Z -> Z -> M;
  dn_conservativeResize : M -> Z -> Z -> M;
  dn_copy : M -> Z -> Z -> M -> Z -> Z -> Z -> Z -> M;
  dn_move : M -> Z -> Z -> Z -> Z -> Z -> Z -> M;
}.

Definition in_range {M} `{DenseOps M} (m : M) (x y : Z) : bool :=
  (0 <=? x) && (x <? dn_rows m) && ((0 <=? y) && (y <? dn_cols m)).

Definition in_block (x y r c h w : Z) : bool := (r <=? x) && (x <? r + h) && ((c <=? y) && (y <? c + w)).

Class DenseLaws (M : Type) {ops : DenseOps M} := {
  dn_new_dims : forall r c, 0 <= r -> 0 <= c -> dn_rows (dn_new r c) = r /\ dn_cols (dn_new r c) = c;
  dn_write_dims : forall m x y v, dn_rows (dn_write m x y v) = dn_rows m /\ dn_cols (dn_write m x y v) = dn_cols m;
  dn_coeff_write : forall m x y v x' y', in_range m x y = true ->
    dn_coeff (dn_write m x y v) x' y' = if (x' =? x) && (y' =? y) then v else dn_coeff m x' y';
  dn_resize_dims : forall m r c, 0 <= r -> 0 <= c -> dn_rows (dn_resize m r c) = r /\ dn_cols (dn_resize m r c) = c;
  dn_conservativeResize_dims : forall m r c, 0 <= r -> 0 <= c ->
    dn_rows (dn_conservativeResize m r c) = r /\ dn_cols (dn_conservativeResize m r c) = c;
  dn_coeff_conservativeResize : forall m r c x y, in_range m x y = true -> x < r -> y < c ->
    dn_coeff (dn_conservativeResize m r c) x y = dn_coeff m x y;
  dn_copy_dims : forall d r c s r' c' h w,
    dn_rows (dn_copy d r c s r' c' h w) = dn_rows d /\ dn_cols (dn_copy d r c s r' c' h w) = dn_cols d;
  dn_coeff_copy : forall d r c s r' c' h w x y,
    dn_coeff (dn_copy d r c s r' c' h w) x y = if in_block x y r c h w then dn_coeff s (r' + (x - r)) (c' + (y - c)) else dn_coeff d x y;
  dn_move_dims : forall d r c r' c' h w,
    dn_rows (dn_move d r c r' c' h w) = dn_rows d /\ dn_cols (dn_move d r c r' c' h w) = dn_cols d;
  dn_coeff_move : forall d r c r' c' h w x y,
    r' + h <= r \/ r + h <= r' \/ c' + w <= c \/ c + w <= c' ->
    dn_coeff (dn_move d r c r' c' h w) x y = if in_block x y r c h w then dn_coeff d (r' + (x - r)) (c' + (y - c)) else dn_coeff d x y;
}.

(** the storage order of a matrix type; row vectors are stored by row *)
Inductive order := ColMajor | RowMajor.

(** ** DenseMatrix *)

Section dense.
Context {M : Type} `{DL : DenseLaws M} {K : Type}.

(** [MatrixType::Options], and the dimensions of a default-constructed matrix: 0
    where they are dynamic *)
Context (Options : order) (Rows Cols : Z).

(** [None]: an identifier that was not initialised *)
Record DenseMatrix := mkDense { matrix : M; id : option K; incidentIndexes : list (Z * Z) }.

Definition new_DenseMatrix : DenseMatrix := mkDense (dn_new Rows Cols) None [].

Definition with_matrix (m : M) (d : DenseMatrix) : DenseMatrix := mkDense m (id d) (incidentIndexes d).
Definition setID (i : K) (d : DenseMatrix) : DenseMatrix := mkDense (matrix d) (Some i) (incidentIndexes d).
Definition getRows (d : DenseMatrix) : Z := dn_rows (matrix d).
Definition getCols (d : DenseMatrix) : Z := dn_cols (matrix d).

(** element access tests the indices *)
Definition get (x y : Z) (d : DenseMatrix) : result Z :=
  _ ← guard_else (in_range (matrix d) x y) OutOfBounds; Ok (dn_coeff (matrix d) x y).
Definition put (x y v : Z) (d : DenseMatrix) : result DenseMatrix :=
  _ ← guard_else (in_range (matrix d) x y) OutOfBounds; Ok (with_matrix (dn_write (matrix d) x y v) d).

Definition resize (newRows newCols : Z) (d : DenseMatrix) : DenseMatrix :=
  with_matrix (dn_conservativeResize (matrix d) newRows newCols) d.

Definition remove (x y : Z) (d : DenseMatrix) : result DenseMatrix :=
  _ ← guard_else ((0 <=? x) && (0 <=? y)) AssertFailed;
  _ ← guard_else ((x <? getRows d) && (y <? getCols d)) AssertFailed;
  put x y 0 d.

Definition set (x y value : Z) (d : DenseMatrix) : result DenseMatrix :=
  let d :=
    if (x >=? getRows d) || (y >=? getCols d) then
      let resizeRow := if x >=? getRows d then x + 1 else getRows d in
      let resizeCol := if y >=? getCols d then y + 1 else getCols d in
      resize resizeRow resizeCol d
    else d in
  _ ← guard_else (x <? getRows d) AssertFailed;
  _ ← guard_else (y <? getCols d) AssertFailed;
  put x y value d.

Definition insertRow (row : Z) (other : M) (d : DenseMatrix) : result DenseMatrix :=
  _ ← guard_else (0 <=? row) AssertFailed;
  if (row >? getRows d) || (dn_rows other <=? 0) || (dn_cols other <=? 0) then Ok d
  else
    let resizeRows := dn_rows other in
    let shiftedRows := getRows d - row in
    let d := resize (getRows d + resizeRows) (dn_cols other) d in
    let m := matrix d in
    let m := dn_move m (dn_rows m - shiftedRows) 0 row 0 shiftedRows (dn_cols m) in
    let m := dn_copy m row 0 other 0 0 resizeRows (dn_cols other) in
    Ok (with_matrix m d).

Definition insertCol (col : Z) (other : M) (d : DenseMatrix) : result DenseMatrix :=
  _ ← guard_else (0 <=? col) AssertFailed;
  if (col >? getCols d) || (dn_rows other <=? 0) || (dn_cols other <=? 0) then Ok d
  else
    let resizeCols := dn_cols other in
    let shiftedCols := getCols d - col in
    let d := resize (dn_rows other) (getCols d + resizeCols) d in
    let m := matrix d in
    let m := dn_move m 0 (dn_cols m - shiftedCols) 0 col (dn_rows m) shiftedCols in
    let m := dn_copy m 0 col other 0 0 (dn_rows other) resizeCols in
    Ok (with_matrix m d).

(** [BaseMatrix::removeRow] and [removeCol] *)
Definition base_removeRow (m : M) (row : Z) : M :=
  let temp := m in
  let m := dn_resize m (dn_rows m - 1) (dn_cols m) in
  let bottomRows := dn_rows temp - row - 1 in
  let m := dn_copy m 0 0 temp 0 0 row (dn_cols m) in
  dn_copy m (dn_rows m - bottomRows) 0 temp (dn_rows temp - bottomRows) 0 bottomRows (dn_cols m).
Definition base_removeCol (m : M) (col : Z) : M :=
  let temp := m in
  let m := dn_resize m (dn_rows m) (dn_cols m - 1) in
  let rightColSize := dn_cols temp - col - 1 in
  let m := dn_copy m 0 0 temp 0 0 (dn_rows m) col in
  dn_copy m 0 (dn_cols m - rightColSize) temp 0 (dn_cols temp - rightColSize) (dn_rows m) rightColSize.

Definition removeRow (row : Z) (d : DenseMatrix) : result DenseMatrix :=
  _ ← guard_else (0 <=? row) AssertFailed;
  if row >=? getRows d then Ok d else Ok (with_matrix (base_removeRow (matrix d) row) d).
Definition removeCol (col : Z) (d : DenseMatrix) : result DenseMatrix :=
  _ ← guard_else (0 <=? col) AssertFailed;
  if col >=? getCols d then Ok d else Ok (with_matrix (base_removeCol (matrix d) col) d).

(** *** Incident values: the cells of a slice, each with its place *)

Definition add2end (value : Z) (d : DenseMatrix) : result DenseMatrix :=
  match Options with
  | ColMajor => set (getRows d) (if getCols d =? 0 then 0 else getCols d - 1) value d
  | RowMajor => set (if getRows d =? 0 then 0 else getRows d - 1) (getCols d) value d
  end.

Definition addIncident (i j value : Z) (d : DenseMatrix) : result DenseMatrix :=
  d ← add2end value d;
  Ok (mkDense (matrix d) (id d) (incidentIndexes d ++ [(i, j)])).

Definition getIncident (index : Z) (d : DenseMatrix) : result (Z * Z * Z) :=
  let '(i, j) := match Options with
                 | ColMajor => (index, if getCols d =? 0 then 0 else getCols d - 1)
                 | RowMajor => (if getRows d =? 0 then 0 else getRows d - 1, index)
                 end in
  value ← get i j d;
  ids ← get_at (incidentIndexes d) (Z.to_nat i);
  Ok (ids, value).

(** *** The iterator: a position, [begin] and [end] *)

Record DenseIterator := mkIt { row : Z; col : Z; rows : Z; cols : Z }.

Definition it_begin (d : DenseMatrix) : DenseIterator := mkIt 0 0 (getRows d) (getCols d).
Definition it_end (d : DenseMatrix) : DenseIterator := mkIt (getRows d) (getCols d) (getRows d) (getCols d).

Definition it_eq (a b : DenseIterator) : bool := (row a =? row b) && (col a =? col b).

Definition incIters (a : DenseIterator) : DenseIterator :=
  if row a + 1 >=? rows a then
    if col a + 1 <? cols a then mkIt 0 (col a + 1) (rows a) (cols a) else mkIt (row a + 1) (col a + 1) (rows a) (cols a)
  else mkIt (row a + 1) (col a) (rows a) (cols a).

Definition decIters (a : DenseIterator) : DenseIterator :=
  if row a - 1 <? 0 then
    if col a - 1 >=? 0 then mkIt (rows a - 1) (col a - 1) (rows a) (cols a) else mkIt (row a - 1) (col a - 1) (rows a) (cols a)
  else mkIt (row a - 1) (col a) (rows a) (cols a).

(** ** MatrixSlice *)

Context (sliceFun : Z -> Z -> Z -> nat) (numParts : nat).

Definition add_to (parts : list DenseMatrix) (i j v : Z) : result (list DenseMatrix) :=
  let id := sliceFun v i j in
  p ← get_at parts id;
  p ← addIncident i j v p;
  set_at parts id p.

(** the loop over the matrix; fuel: one more than the number of its cells *)
Fixpoint slice_loop (fuel : nat) (d : DenseMatrix) (it : DenseIterator) (parts : list DenseMatrix) : result (list DenseMatrix) :=
  if it_eq it (it_end d) then Ok parts
  else match fuel with
       | O => Err Waits
       | S fuel =>
           v ← get (row it) (col it) d;
           parts ← add_to parts (row it) (col it) v;
           slice_loop fuel d (incIters it) parts
       end.

Definition slice (d : DenseMatrix) : result (list DenseMatrix) :=
  slice_loop (S (Z.to_nat (getRows d * getCols d))) d (it_begin d) (replicate numParts new_DenseMatrix).

(** the state: the identifiers that will be generated *)
Definition slice_step (e : event DenseMatrix) (ids : list K) : result (list (event DenseMatrix) * list K) :=
  match e with
  | Punct p => Ok ([Punct p], ids)
  | Data rec _ =>
      parts ← slice rec;
      match ids with
      | [] => Err Waits
      | partID :: ids => Ok ((fun m => Data (setID partID m) false) <$> (parts : list DenseMatrix), ids)
      end
  end.

(** ** MatrixMerge *)

Context `{Countable K}.

Record Partition := mkPartition { countParts : nat; part_matrix : DenseMatrix }.

Fixpoint merge_loop (indexes : list nat) (src dst : DenseMatrix) : result DenseMatrix :=
  match indexes with
  | [] => Ok dst
  | i :: indexes =>
      '(x, y, v) ← getIncident (Z.of_nat i) src;
      dst ← set x y v dst;
      merge_loop indexes src dst
  end.

Definition merge_to (src dst : DenseMatrix) : result DenseMatrix :=
  merge_loop (seq 0 (length (incidentIndexes src))) src dst.

Definition merge_step (e : event DenseMatrix) (parts : gmap K Partition) : result (list (event DenseMatrix) * gmap K Partition) :=
  match e with
  | Punct p => Ok ([Punct p], parts)
  | Data mat outdated =>
      match id mat with
      | None => Err Dangling (* an indeterminate identifier *)
      | Some i =>
          let part := default (mkPartition 0 new_DenseMatrix) (parts !! i) in
          m ← merge_to mat (part_matrix part);
          let part := mkPartition (S (countParts part)) m in
          if (countParts part =? numParts)%nat then Ok ([Data (part_matrix part) outdated], delete i parts)
          else Ok ([], <[i := part]> parts)
      end
  end.

(** ** Lemmas: single cells *)

Definition dims (d : DenseMatrix) (r c : Z) : Prop := getRows d = r /\ getCols d = c.
Definition cell (d : DenseMatrix) (x y : Z) : Z := dn_coeff (matrix d) x y.

Lemma in_range_true (m : M) x y : in_range m x y = true <-> 0 <= x < dn_rows m /\ 0 <= y < dn_cols m.
Proof using Type. unfold in_range. rewrite !andb_true_iff, !Z.leb_le, !Z.ltb_lt. split; intros [[? ?] [? ?]]; done. Qed.

Lemma get_ok x y d : 0 <= x < getRows d -> 0 <= y < getCols d -> get x y d = Ok (cell d x y).
Proof. intros Hx Hy. unfold get. by rewrite (proj2 (in_range_true _ _ _)). Qed.

Lemma put_ok x y v d : 0 <= x < getRows d -> 0 <= y < getCols d ->
  exists d', put x y v d = Ok d' /\ dims d' (getRows d) (getCols d) /\ id d' = id d /\ incidentIndexes d' = incidentIndexes d /\
    forall i j, cell d' i j = if (i =? x) && (j =? y) then v else cell d i j.
Proof.
  intros Hx Hy. unfold put. assert (in_range (matrix d) x y = true) as Hr by (by apply in_range_true). rewrite Hr.
  run_step. eexists. split; [reflexivity|]. destruct (dn_write_dims (matrix d) x y v) as [H1 H2]. split; [done|]. split; [done|]. split; [done|].
  intros i j. unfold cell. cbn [with_matrix matrix]. by apply dn_coeff_write.
Qed.

(** [set] makes room, keeps the other cells and writes its own *)
Lemma set_ok x y v d : 0 <= x -> 0 <= y -> 0 <= getRows d -> 0 <= getCols d ->
  exists d', set x y v d = Ok d' /\ dims d' (Z.max (getRows d) (x + 1)) (Z.max (getCols d) (y + 1)) /\
    id d' = id d /\ incidentIndexes d' = incidentIndexes d /\ cell d' x y = v /\
    forall i j, 0 <= i < getRows d -> 0 <= j < getCols d -> (i, j) <> (x, y) -> cell d' i j = cell d i j.
Proof.
  intros Hx Hy Hr0 Hc0. unfold set.
  set (d1 := if (x >=? getRows d) || (y >=? getCols d) then _ else d).
  assert (dims d1 (Z.max (getRows d) (x + 1)) (Z.max (getCols d) (y + 1)) /\ id d1 = id d /\ incidentIndexes d1 = incidentIndexes d /\
    forall i j, 0 <= i < getRows d -> 0 <= j < getCols d -> cell d1 i j = cell d i j) as ([Hr1 Hc1] & Hid & Hinc & Hcell).
  { unfold d1. destruct ((x >=? getRows d) || (y >=? getCols d)) eqn:Hb.
    - set (r := if x >=? getRows d then _ else _). set (c := if y >=? getCols d then _ else _).
      assert (r = Z.max (getRows d) (x + 1)) as Hr by (unfold r; destruct (Z.geb_spec x (getRows d)); lia).
      assert (c = Z.max (getCols d) (y + 1)) as Hc by (unfold c; destruct (Z.geb_spec y (getCols d)); lia).
      destruct (dn_conservativeResize_dims (matrix d) r c ltac:(lia) ltac:(lia)) as [H1 H2].
      split; [split; [exact (eq_trans H1 Hr)|exact (eq_trans H2 Hc)]|]. split_and!; [done..|].
      intros i j Hi Hj. unfold cell, resize. cbn [with_matrix matrix]. apply dn_coeff_conservativeResize; [by apply in_range_true|unfold getRows in *; lia|unfold getCols in *; lia].
    - apply orb_false_iff in Hb as [Hb1 Hb2]. unfold Z.geb in *. split_and!; [|done|done|done].
      split; [destruct (Z.compare_spec x (getRows d)); (done || lia)|destruct (Z.compare_spec y (getCols d)); (done || lia)]. }
  rewrite (proj2 (Z.ltb_lt x (getRows d1))) by lia. run_step. rewrite (proj2 (Z.ltb_lt y (getCols d1))) by lia. run_step.
  destruct (put_ok x y v d1 ltac:(lia) ltac:(lia)) as (d' & Hput & [Hr2 Hc2] & Hid2 & Hinc2 & Hcell2).
  exists d'. rewrite Hput, Hid2, Hinc2. split_and!; [done|split; congruence|done|done| |].
  - by rewrite Hcell2, !Z.eqb_refl.
  - intros i j Hi Hj Hne. rewrite Hcell2. destruct (Z.eqb_spec i x), (Z.eqb_spec j y); subst; cbn [andb]; [done|by apply Hcell..].
Qed.

(** ** Lemmas: the loop over a matrix *)

(** the cells of a matrix in the order of the iterator *)
Definition cells (r c : Z) : list (Z * Z) := (fun k => (k mod r, k / r)) <$> seqZ 0 (r * c).

Lemma cells_range r c i j : 0 < r -> (i, j) ∈ cells r c <-> 0 <= i < r /\ 0 <= j < c.
Proof.
  intros Hr. unfold cells. rewrite list_elem_of_fmap. split.
  - intros (k & [= -> ->] & Hk%elem_of_seqZ). pose proof (Z.mod_pos_bound k r Hr). split; [lia|].
    split; [apply Z.div_pos; lia|]. apply Z.div_lt_upper_bound; lia.
  - intros [Hi Hj]. exists (i + j * r). rewrite Z.mod_add, Z.mod_small, Z.div_add, Z.div_small by lia. split; [done|].
    apply elem_of_seqZ. nia.
Qed.

Fixpoint add_cells (d : DenseMatrix) (cs : list (Z * Z)) (parts : list DenseMatrix) : result (list DenseMatrix) :=
  match cs with
  | [] => Ok parts
  | (i, j) :: cs => parts ← add_to parts i j (cell d i j); add_cells d cs parts
  end.

(** the iterator before cell [k] *)
Definition it_at (r c k : Z) : DenseIterator := mkIt (if k =? r * c then r else k mod r) (k / r) r c.

Lemma it_at_next r c k : 0 < r -> 0 <= k < r * c -> incIters (it_at r c k) = it_at r c (k + 1).
Proof.
  intros Hr Hk. unfold incIters, it_at. rewrite (proj2 (Z.eqb_neq k _)) by lia. cbn [row col rows cols].
  pose proof (Z.mod_pos_bound k r Hr) as Hm. pose proof (Z.div_mod k r ltac:(lia)) as Hd.
  destruct (Z.geb_spec (k mod r + 1) r) as [Hge|Hlt].
  - assert ((k + 1) / r = k / r + 1) as Hq by (symmetry; apply Z.div_unique with 0; lia).
    assert ((k + 1) mod r = 0) as Hz by (symmetry; apply Z.mod_unique with (k / r + 1); lia).
    rewrite Hq, Hz. destruct (Z.ltb_spec (k / r + 1) c) as [Hc|Hc].
    + rewrite (proj2 (Z.eqb_neq _ _)) by nia. done.
    + assert (k / r < c) by (apply Z.div_lt_upper_bound; lia). assert (k / r + 1 = c) by lia.
      rewrite (proj2 (Z.eqb_eq _ _)) by nia. f_equal. lia.
  - assert ((k + 1) / r = k / r) as Hq by (symmetry; apply Z.div_unique with (k mod r + 1); lia).
    assert ((k + 1) mod r = k mod r + 1) as Hz by (symmetry; apply Z.mod_unique with (k / r); lia).
    rewrite Hq, Hz. rewrite (proj2 (Z.eqb_neq _ _)); [done|].
    intros He. assert (k = r * (c - 1) + (r - 1)) as -> by lia.
    rewrite (Z.add_comm (r * (c - 1))), (Z.mul_comm r), Z.mod_add, Z.mod_small in Hlt by lia. lia.
Qed.

Lemma slice_loop_cells d r c fuel k parts : dims d r c -> 0 < r -> 0 <= k -> r * c - k = Z.of_nat fuel ->
  slice_loop (fuel + 1) d (it_at r c k) parts = add_cells d ((fun k => (k mod r, k / r)) <$> seqZ k (Z.of_nat fuel)) parts.
Proof.
  intros [Hr Hc] Hpos. revert k parts. induction fuel as [|fuel IH]; intros k parts Hk Hf.
  - cbn [slice_loop Nat.add]. assert (k = r * c) as -> by lia. unfold it_eq, it_end, it_at. rewrite Hr, Hc, Z.eqb_refl. cbn [row col].
    rewrite (Z.mul_comm r c), Z.div_mul, !Z.eqb_refl by lia. by rewrite seqZ_nil.
  - rewrite seqZ_cons by lia. rewrite fmap_cons. cbn [add_cells slice_loop Nat.add].
    assert (it_eq (it_at r c k) (it_end d) = false) as ->.
    { unfold it_eq, it_end, it_at. cbn [row col]. rewrite Hr, (proj2 (Z.eqb_neq k _)) by lia.
      rewrite (proj2 (Z.eqb_neq _ _)); [done|]. pose proof (Z.mod_pos_bound k r Hpos). lia. }
    assert (row (it_at r c k) = k mod r) as -> by (unfold it_at; cbn [row]; by rewrite (proj2 (Z.eqb_neq k _)) by lia).
    change (col (it_at r c k)) with (k / r).
    assert (0 <= k / r < c) as Hq by (split; [apply Z.div_pos; lia|apply Z.div_lt_upper_bound; lia]).
    rewrite get_ok by (rewrite ?Hr, ?Hc; try done; apply Z.mod_pos_bound; lia). run_step.
    destruct (add_to parts (k mod r) (k / r) _) as [parts'|]; [|done]. run_step. rewrite it_at_next by lia.
    rewrite IH by lia. by replace (Z.pred (Z.of_nat (S fuel))) with (Z.of_nat fuel) by lia.
Qed.

(** a matrix with cells, or an empty one *)
Definition proper (d : DenseMatrix) : Prop := (0 < getRows d /\ 0 < getCols d) \/ (getRows d = 0 /\ getCols d = 0).

Lemma slice_cells d : proper d -> slice d = add_cells d (cells (getRows d) (getCols d)) (replicate numParts new_DenseMatrix).
Proof.
  intros [[Hr Hc]|[Hr Hc]]; unfold slice, cells.
  - assert (it_begin d = it_at (getRows d) (getCols d) 0) as ->.
    { unfold it_begin, it_at. rewrite (proj2 (Z.eqb_neq 0 _)) by nia. by rewrite Z.mod_0_l, Z.div_0_l by lia. }
    rewrite <- Nat.add_1_r, (slice_loop_cells d (getRows d) (getCols d)); [|done|done|lia|rewrite Z2Nat.id; nia]. by rewrite Z2Nat.id by nia.
  - assert (it_eq (it_begin d) (it_end d) = true) as He by (unfold it_eq, it_begin, it_end; cbn [row col]; by rewrite Hr, Hc).
    rewrite Hr, Hc. change (Z.to_nat (0 * 0)) with O. cbn [slice_loop]. by rewrite He.
Qed.

(** the loop over a matrix that has columns and no row leaves the matrix *)
Lemma slice_no_row d : getRows d = 0 -> 0 < getCols d -> slice d = Err OutOfBounds.
Proof.
  intros Hr Hc. unfold slice. cbn [slice_loop]. unfold it_eq, it_begin, it_end. cbn [row col]. rewrite Hr, (proj2 (Z.eqb_neq 0 (getCols d))) by lia.
  cbn [andb Z.eqb]. unfold get, in_range. unfold getRows in Hr. by rewrite Hr.
Qed.

Definition in_matrix (d : DenseMatrix) (c : Z * Z) : Prop := 0 <= c.1 < getRows d /\ 0 <= c.2 < getCols d.

(** the same matrix: dimensions and cells *)
Definition same (d d' : DenseMatrix) : Prop :=
  dims d' (getRows d) (getCols d) /\ forall i j, in_matrix d (i, j) -> cell d' i j = cell d i j.

(** ** Lemmas: rows *)

Lemma in_block_in x y r c h w : r <= x < r + h -> c <= y < c + w -> in_block x y r c h w = true.
Proof using Type. intros Hx Hy. unfold in_block. rewrite !andb_true_iff, !Z.leb_le, !Z.ltb_lt. lia. Qed.

Lemma in_block_out x y r c h w : x < r \/ r + h <= x -> in_block x y r c h w = false.
Proof using Type. intros Hx. unfold in_block. apply not_true_iff_false. rewrite !andb_true_iff, !Z.leb_le, !Z.ltb_lt. lia. Qed.

Lemma base_removeRow_ok m row : 0 <= row < dn_rows m -> 0 <= dn_cols m ->
  dn_rows (base_removeRow m row) = dn_rows m - 1 /\ dn_cols (base_removeRow m row) = dn_cols m /\
  forall x y, 0 <= x < dn_rows m - 1 -> 0 <= y < dn_cols m ->
    dn_coeff (base_removeRow m row) x y = dn_coeff m (if x <? row then x else x + 1) y.
Proof using DL.
  intros Hrow Hc. destruct (dn_resize_dims m (dn_rows m - 1) (dn_cols m)) as [Hr1 Hc1]; [lia..|]. unfold base_removeRow.
  set (m1 := dn_resize m _ _) in *. destruct (dn_copy_dims m1 0 0 m 0 0 row (dn_cols m1)) as [Hr2 Hc2].
  set (m2 := dn_copy m1 0 0 m 0 0 row (dn_cols m1)) in *. set (b := dn_rows m - row - 1).
  destruct (dn_copy_dims m2 (dn_rows m2 - b) 0 m (dn_rows m - b) 0 b (dn_cols m2)) as [Hr3 Hc3].
  split_and!; [lia|lia|]. intros x y Hx Hy. rewrite dn_coeff_copy.
  assert (dn_coeff m2 x y = if in_block x y 0 0 row (dn_cols m1) then dn_coeff m (0 + (x - 0)) (0 + (y - 0)) else dn_coeff m1 x y) as -> by apply dn_coeff_copy.
  unfold b in *. destruct (Z.ltb_spec x row).
  - rewrite in_block_out, in_block_in by lia. f_equal; lia.
  - rewrite in_block_in by lia. f_equal; lia.
Qed.

(** rows are inserted where the shifted rows do not overlap themselves *)
Lemma insertRow_ok row other d : 0 <= row <= getRows d -> 0 < dn_rows other -> dn_cols other = getCols d -> 0 < getCols d ->
  getRows d - row <= dn_rows other ->
  exists d', insertRow row other d = Ok d' /\ getRows d' = getRows d + dn_rows other /\ getCols d' = getCols d /\
    forall x y, 0 <= x < getRows d + dn_rows other -> 0 <= y < getCols d ->
      cell d' x y = if x <? row then cell d x y else if x <? row + dn_rows other then dn_coeff other (x - row) y
                    else cell d (x - dn_rows other) y.
Proof using DL.
  intros Hrow Ho Hco Hc Hov. unfold insertRow. rewrite (proj2 (Z.leb_le 0 row)) by lia. run_step.
  rewrite Z.gtb_ltb, (proj2 (Z.ltb_ge (getRows d) row)), (proj2 (Z.leb_gt (dn_rows other) 0)), (proj2 (Z.leb_gt (dn_cols other) 0)) by lia.
  cbn [orb]. eexists. split; [reflexivity|]. unfold getRows, getCols, cell in *. cbn [with_matrix matrix resize].
  set (k := dn_rows other) in *. set (r0 := dn_rows (matrix d)) in *.
  destruct (dn_conservativeResize_dims (matrix d) (r0 + k) (dn_cols other)) as [Hr1 Hc1]; [lia..|].
  pose proof (fun x y H1 H2 H3 => dn_coeff_conservativeResize (matrix d) (r0 + k) (dn_cols other) x y (proj2 (in_range_true _ _ _) (conj H1 H2)) H3) as Hcell.
  set (m1 := dn_conservativeResize _ _ _) in *. rewrite Hr1, Hc1.
  destruct (dn_move_dims m1 (r0 + k - (r0 - row)) 0 row 0 (r0 - row) (dn_cols other)) as [Hr2 Hc2].
  pose proof (dn_coeff_move m1 (r0 + k - (r0 - row)) 0 row 0 (r0 - row) (dn_cols other)) as Hmv. set (m2 := dn_move _ _ _ _ _ _ _) in *.
  destruct (dn_copy_dims m2 row 0 other 0 0 k (dn_cols other)) as [Hr3 Hc3]. split_and!; [lia|lia|].
  intros x y Hx Hy. rewrite dn_coeff_copy, Hmv by lia. destruct (Z.ltb_spec x row); [|destruct (Z.ltb_spec x (row + k))].
  - rewrite !in_block_out by lia. apply Hcell; lia.
  - rewrite in_block_in by lia. f_equal; lia.
  - rewrite in_block_out, in_block_in by lia. rewrite Hcell by lia. f_equal; lia.
Qed.

(** a row vector keeps its places by position, and looks them up by row *)
Lemma rowmajor_places p k v : Options = RowMajor -> getRows p = 1 -> 0 <= k < getCols p ->
  getIncident k p = Ok v -> incidentIndexes p !! 0%nat = Some v.1.
Proof.
  intros HO Hr Hk. unfold getIncident. rewrite HO, Hr. cbn. rewrite get_ok by lia. run_step.
  destruct (incidentIndexes p) as [|c l]; [done|]. cbn. by intros [= <-].
Qed.

(** ** Lemmas: the parts of a matrix *)

Definition part_of (d : DenseMatrix) (n : nat) (c : Z * Z) : Prop := sliceFun (cell d c.1 c.2) c.1 c.2 = n.

#[local] Instance part_of_dec d n c : Decision (part_of d n c).
Proof. unfold part_of. apply _. Defined.

(** a part that holds the cells [l] of [d], in a column *)
Record holds (d p : DenseMatrix) (l : list (Z * Z)) : Prop := {
  ho_dims : dims p (Z.of_nat (length l)) (match l with [] => 0 | _ => 1 end);
  ho_indexes : incidentIndexes p = l;
  ho_cells : forall k c, l !! k = Some c -> cell p (Z.of_nat k) 0 = cell d c.1 c.2
}.

(** what has been merged into [acc] *)
Record merged (d acc : DenseMatrix) (l : list (Z * Z)) : Prop := {
  me_rows : 0 <= getRows acc <= getRows d;
  me_cols : 0 <= getCols acc <= getCols d;
  me_cells : forall c, c ∈ l -> in_matrix acc c /\ cell acc c.1 c.2 = cell d c.1 c.2
}.

(** A row inserted at the end, or before the last row, and removed again
    leaves the matrix as it was *)
Lemma insert_remove_row row other d :
  0 <= row <= getRows d -> getRows d <= row + 1 -> 0 < getCols d -> dn_rows other = 1 -> dn_cols other = getCols d ->
  exists d' d'', insertRow row other d = Ok d' /\ removeRow row d' = Ok d'' /\ same d d'' /\
    (forall y, 0 <= y < getCols d -> cell d' row y = dn_coeff other 0 y).
Proof using DL.
  intros Hrow Hlast Hc Ho Hco. destruct (insertRow_ok row other d) as (d' & Hins & Hr' & Hc' & Hcell); [lia..|].
  destruct (base_removeRow_ok (matrix d') row) as (Hr & Hcs & Hrm); [unfold getRows, getCols in *; lia..|].
  exists d', (with_matrix (base_removeRow (matrix d') row) d'). split; [done|]. split; [|split; [split|]].
  - unfold removeRow. rewrite (proj2 (Z.leb_le 0 row)) by lia. run_step. by rewrite Z.geb_leb, (proj2 (Z.leb_gt _ row)) by lia.
  - unfold dims, getRows, getCols in *. cbn [with_matrix matrix]. lia.
  - intros x y [Hx Hy]. cbn [fst snd] in *. unfold cell at 1. cbn [with_matrix matrix]. rewrite Hrm by (unfold getRows, getCols in *; lia).
    fold (cell d' (if x <? row then x else x + 1) y). destruct (Z.ltb_spec x row); rewrite Hcell by lia.
    + by rewrite (proj2 (Z.ltb_lt x row)).
    + rewrite (proj2 (Z.ltb_ge (x + 1) row)), (proj2 (Z.ltb_ge (x + 1) _)) by lia. f_equal; lia.
  - intros y Hy. rewrite Hcell, Z.ltb_irrefl, (proj2 (Z.ltb_lt row _)) by lia. f_equal; lia.
Qed.

Context (HCol : Options = ColMajor) (HRows : Rows = 0) (HCols : Cols = 0).

Lemma new_dims : dims new_DenseMatrix 0 0.
Proof. unfold dims, getRows, getCols, new_DenseMatrix. cbn [matrix]. rewrite HRows, HCols. by apply dn_new_dims. Qed.

Lemma new_holds d : holds d new_DenseMatrix [].
Proof. split; [exact new_dims|done|]. by intros k c Hk; rewrite lookup_nil in Hk. Qed.

Lemma addIncident_ok d p l i j : holds d p l ->
  exists p', addIncident i j (cell d i j) p = Ok p' /\ holds d p' (l ++ [(i, j)]).
Proof.
  intros [[Hr Hc] Hi Hcell]. unfold addIncident, add2end. rewrite HCol, Hr, Hc.
  assert ((if match l with [] => 0 | _ => 1 end =? 0 then 0 else match l with [] => 0 | _ => 1 end - 1) = 0) as -> by (by destruct l).
  destruct (set_ok (Z.of_nat (length l)) 0 (cell d i j) p) as (p' & -> & [Hr' Hc'] & _ & Hinc & Hv & Hcell'); [lia|lia|lia|rewrite Hc; by destruct l|].
  run_step. eexists. split; [reflexivity|]. rewrite Hr, Hc in *. split.
  - unfold dims, getRows, getCols in *. cbn [matrix]. rewrite Hr', Hc', length_app. cbn [length]. split; [lia|]. by destruct l.
  - cbn [incidentIndexes]. by rewrite Hinc, Hi.
  - intros k c [Hk|[Hge Hk]]%lookup_app_Some.
    + rewrite <- (Hcell _ _ Hk). apply lookup_lt_Some in Hk. unfold cell in *. cbn [matrix]. apply Hcell'; [lia|destruct l; simpl in *; lia|].
      intros [= He]. lia.
    + apply list_lookup_singleton_Some in Hk as [Hk <-]. replace k with (length l) by lia. exact Hv.
Qed.

Definition parts_hold (d : DenseMatrix) (parts : list DenseMatrix) (f : nat -> list (Z * Z)) : Prop :=
  forall n p, parts !! n = Some p -> holds d p (f n).

Lemma add_cells_ok d cs parts f : parts_hold d parts f ->
  (forall c, c ∈ cs -> (sliceFun (cell d c.1 c.2) c.1 c.2 < length parts)%nat) ->
  exists parts', add_cells d cs parts = Ok parts' /\ length parts' = length parts /\
    parts_hold d parts' (fun n => f n ++ filter (part_of d n) cs).
Proof.
  revert parts f. induction cs as [|[i j] cs IH]; intros parts f Hp Hlt; cbn [add_cells].
  - exists parts. split_and!; [done..|]. intros n p Hn. rewrite app_nil_r. by apply Hp.
  - set (n0 := sliceFun (cell d i j) i j). assert (n0 < length parts)%nat as Hn0 by (apply (Hlt (i, j)); by left).
    destruct (lookup_lt_is_Some_2 _ _ Hn0) as [p0 Hp0]. unfold add_to. fold n0. rewrite (get_at_Some _ _ _ Hp0). run_step.
    destruct (addIncident_ok d p0 (f n0) i j (Hp _ _ Hp0)) as (p0' & -> & Hh0). run_step. rewrite set_at_lt by done. run_step.
    destruct (IH (<[n0 := p0']> parts) (fun n => f n ++ (if decide (n = n0) then [(i, j)] else []))) as (parts' & -> & Hlen & Hp').
    + intros n p Hn. destruct (decide (n = n0)) as [->|Hne].
      * rewrite list_lookup_insert_eq in Hn by done. by injection Hn as <-.
      * rewrite list_lookup_insert_ne in Hn by done. rewrite app_nil_r. by apply Hp.
    + intros c Hc. rewrite length_insert. apply Hlt. by right.
    + exists parts'. rewrite length_insert in Hlen. split_and!; [done..|]. intros n p Hn. rewrite filter_cons.
      specialize (Hp' n p Hn). cbn beta in Hp'. rewrite <- app_assoc in Hp'.
      destruct (decide (n = n0)) as [->|Hne]; [by rewrite decide_True|]. rewrite decide_False; [done|]. intros He. by apply Hne.
Qed.

Lemma cells_in_matrix d i j : proper d -> (i, j) ∈ cells (getRows d) (getCols d) <-> in_matrix d (i, j).
Proof.
  unfold in_matrix. cbn [fst snd]. intros [[Hr Hc]|[Hr Hc]]; [by apply cells_range|]. unfold cells. rewrite Hr, Hc.
  split; [by intros ?%elem_of_nil|lia].
Qed.

(** slicing: part [n] holds the cells the function gives to [n] *)
Lemma slice_ok d : proper d -> (forall i j, in_matrix d (i, j) -> (sliceFun (cell d i j) i j < numParts)%nat) ->
  exists parts, slice d = Ok parts /\ length parts = numParts /\
    parts_hold d parts (fun n => filter (part_of d n) (cells (getRows d) (getCols d))).
Proof.
  intros Hd Hlt. rewrite slice_cells by done.
  destruct (add_cells_ok d (cells (getRows d) (getCols d)) (replicate numParts new_DenseMatrix) (fun _ => [])) as (parts & H1 & H2 & H3).
  - intros n p [-> _]%lookup_replicate. apply new_holds.
  - rewrite length_replicate. intros [i j] Hc. cbn [fst snd]. by apply Hlt, cells_in_matrix.
  - exists parts. rewrite length_replicate in H2. done.
Qed.

(** ** Lemmas: merging *)

Lemma getIncident_ok d p l k c : holds d p l -> l !! k = Some c -> getIncident (Z.of_nat k) p = Ok (c, cell d c.1 c.2).
Proof.
  intros [[Hr Hc] Hi Hcell] Hk. unfold getIncident. rewrite HCol, Hc.
  assert ((if match l with [] => 0 | _ => 1 end =? 0 then 0 else match l with [] => 0 | _ => 1 end - 1) = 0) as -> by (by destruct l).
  pose proof (lookup_lt_Some _ _ _ Hk). rewrite get_ok; [|rewrite Hr; lia|rewrite Hc; destruct l; simpl in *; lia]. run_step.
  rewrite Hi, Nat2Z.id, (get_at_Some _ _ _ Hk). run_step. by rewrite (Hcell _ _ Hk).
Qed.

Lemma set_merged d acc l i j : in_matrix d (i, j) -> merged d acc l ->
  exists acc', set i j (cell d i j) acc = Ok acc' /\ merged d acc' ((i, j) :: l).
Proof.
  intros [Hi Hj] [Hr Hc Hcells]. cbn [fst snd] in *.
  destruct (set_ok i j (cell d i j) acc) as (acc' & Hs & [Hr' Hc'] & _ & _ & Hv & Hcell'); [lia..|].
  exists acc'. split; [done|]. split; [lia|lia|]. intros [i' j'] Hin. cbn [fst snd].
  destruct (decide ((i', j') = (i, j))) as [[= -> ->]|Hne].
  - split; [|done]. split; cbn [fst snd]; lia.
  - apply elem_of_cons in Hin as [Heq|Hin]; [done|]. destruct (Hcells _ Hin) as [[Hi' Hj'] Heq]. cbn [fst snd] in *.
    split; [split; cbn [fst snd]; lia|]. by rewrite Hcell'.
Qed.

Lemma merge_loop_ok d p l k S acc : holds d p l -> (forall c, c ∈ l -> in_matrix d c) -> merged d acc S ->
  (k <= length l)%nat -> exists acc', merge_loop (seq k (length l - k)) p acc = Ok acc' /\
    merged d acc' (drop k l ++ S).
Proof.
  intros Hh Hin. remember (length l - k)%nat as n eqn:Hn. revert k S acc Hn. induction n as [|n IH]; intros k S acc Hn Hm Hk; cbn [seq merge_loop].
  - exists acc. split; [done|]. by rewrite drop_ge by lia.
  - destruct (lookup_lt_is_Some_2 l k ltac:(lia)) as [[i j] Hkc]. rewrite (getIncident_ok _ _ _ _ _ Hh Hkc). run_step. cbn [fst snd].
    destruct (set_merged d acc S i j) as (acc1 & -> & Hm1); [apply Hin; by eapply list_elem_of_lookup_2|done|]. run_step.
    destruct (IH (Datatypes.S k) ((i, j) :: S) acc1 ltac:(lia) Hm1 ltac:(lia)) as (acc' & -> & Hm'). exists acc'. split; [done|].
    destruct Hm' as [H1 H2 H3]. split; [done..|]. intros c. rewrite (drop_S _ _ _ Hkc). intros Hc. apply H3.
    rewrite elem_of_app, !elem_of_cons in *. tauto.
Qed.

Lemma merge_to_ok d p l S acc : holds d p l -> (forall c, c ∈ l -> in_matrix d c) -> merged d acc S ->
  exists acc', merge_to p acc = Ok acc' /\ merged d acc' (l ++ S).
Proof.
  intros Hh Hin Hm. unfold merge_to. rewrite (ho_indexes _ _ _ Hh). pose proof (merge_loop_ok d p l 0 S acc Hh Hin Hm ltac:(lia)) as Hl.
  by rewrite Nat.sub_0_r, drop_0 in Hl.
Qed.

Lemma new_merged d : 0 <= getRows d -> 0 <= getCols d -> merged d new_DenseMatrix [].
Proof. intros Hr Hc. destruct new_dims as [H1 H2]. split; [lia|lia|]. by intros c ?%elem_of_nil. Qed.

Lemma merged_same d acc S : proper d -> merged d acc S -> (forall i j, in_matrix d (i, j) -> (i, j) ∈ S) -> same d acc.
Proof.
  intros Hd [Hr Hc Hcells] Hall. split.
  - destruct Hd as [[Hr0 Hc0]|[Hr0 Hc0]]; [|split; lia].
    destruct (Hcells (getRows d - 1, getCols d - 1)) as [[H1 H2] _]; [apply Hall; split; cbn [fst snd]; lia|]. cbn [fst snd] in *. split; lia.
  - intros i j Hij. by destruct (Hcells _ (Hall i j Hij)).
Qed.

(** ** Parts of many matrices, in any order *)

Definition of_id (i : K) (p : DenseMatrix) : Prop := id p = Some i.
#[local] Instance of_id_dec i p : Decision (of_id i p).
Proof. unfold of_id. apply _. Defined.

Definition count (i : K) (ps : list DenseMatrix) : nat := length (filter (of_id i) ps).
Definition cells_of (i : K) (ps : list DenseMatrix) : list (Z * Z) := filter (of_id i) ps ≫= incidentIndexes.

Lemma count_app i ps qs : count i (ps ++ qs) = (count i ps + count i qs)%nat.
Proof. unfold count. by rewrite filter_app, length_app. Qed.

Lemma cells_of_app i ps qs : cells_of i (ps ++ qs) = cells_of i ps ++ cells_of i qs.
Proof. unfold cells_of. by rewrite filter_app, bind_app. Qed.

Lemma of_id_other i j p : id p = Some j -> i <> j -> count i [p] = 0%nat /\ cells_of i [p] = [].
Proof.
  intros Hp Hne. unfold count, cells_of. assert (filter (of_id i) [p] = []) as ->; [|done].
  rewrite filter_cons, decide_False; [done|]. unfold of_id. congruence.
Qed.

Lemma of_id_same i p : id p = Some i -> count i [p] = 1%nat /\ cells_of i [p] = incidentIndexes p.
Proof.
  intros Hp. unfold count, cells_of. assert (filter (of_id i) [p] = [p]) as -> by (by rewrite filter_cons, decide_True).
  split; [done|]. cbn. by rewrite app_nil_r.
Qed.

Lemma count_none i ps : count i ps = 0%nat -> cells_of i ps = [].
Proof. unfold count, cells_of. by destruct (filter (of_id i) ps). Qed.

Section arrivals.
Context (batch : list (K * DenseMatrix)) (total : list DenseMatrix).
Context (Hparts : (0 < numParts)%nat) (Hbatch : NoDup batch.*1).
Context (Harrive : forall p, p ∈ total -> exists i d, (i, d) ∈ batch /\ id p = Some i /\ holds d p (incidentIndexes p) /\
  forall c, c ∈ incidentIndexes p -> in_matrix d c).
Context (Hwhole : forall i d, (i, d) ∈ batch -> proper d /\ count i total = numParts /\
  forall c, in_matrix d c -> c ∈ cells_of i total).

Lemma batch_unique i d d' : (i, d) ∈ batch -> (i, d') ∈ batch -> d = d'.
Proof.
  intros [k Hk]%list_elem_of_lookup [k' Hk']%list_elem_of_lookup. assert (k = k') as <-; [|congruence].
  eapply NoDup_lookup; [exact Hbatch|by rewrite list_lookup_fmap, Hk|by rewrite list_lookup_fmap, Hk'].
Qed.

(** what the state holds for a matrix when the parts [seen] have arrived *)
Definition key_ok (seen : list DenseMatrix) (st : gmap K Partition) (i : K) : Prop :=
  (count i seen = 0%nat \/ count i seen = numParts -> st !! i = None) /\
  forall d, (i, d) ∈ batch -> (0 < count i seen < numParts)%nat -> exists part,
    st !! i = Some part /\ countParts part = count i seen /\ merged d (part_matrix part) (cells_of i seen).

Record merging (seen : list DenseMatrix) (st : gmap K Partition) (outs : list (event DenseMatrix)) (complete : list (K * DenseMatrix)) : Prop := {
  mg_key : forall i, key_ok seen st i;
  mg_complete : forall i d, (i, d) ∈ complete <-> (i, d) ∈ batch /\ count i seen = numParts;
  mg_nodup : NoDup complete.*1;
  mg_outs : Forall2 (fun o b => exists d', o = Data d' false /\ same b.2 d') outs complete
}.

(** the part of a matrix before the next one arrives *)
Lemma merging_part seen st i d : key_ok seen st i -> (i, d) ∈ batch -> (count i seen < numParts)%nat ->
  let part := default (mkPartition 0 new_DenseMatrix) (st !! i) in
  countParts part = count i seen /\ merged d (part_matrix part) (cells_of i seen).
Proof.
  intros [Hn Hs] Hi Hlt. destruct (decide (count i seen = 0%nat)) as [H0|Hn0].
  - rewrite Hn, H0, (count_none _ _ H0) by tauto. cbn. split; [done|].
    destruct (Hwhole i d Hi) as ([[? ?]|[? ?]] & _ & _); apply new_merged; lia.
  - by destruct (Hs d Hi ltac:(lia)) as (part & -> & Hc & Hmg).
Qed.

Lemma seen_snoc seen p i : id p = Some i ->
  count i (seen ++ [p]) = S (count i seen) /\ cells_of i (seen ++ [p]) = cells_of i seen ++ incidentIndexes p /\
  forall j, j <> i -> count j (seen ++ [p]) = count j seen /\ cells_of j (seen ++ [p]) = cells_of j seen.
Proof.
  intros Hp. destruct (of_id_same i p Hp) as [Hc Hl]. rewrite count_app, cells_of_app, Hc, Hl. split_and!; [lia|done|].
  intros j Hj. destruct (of_id_other j i p Hp Hj) as [H1 H2]. rewrite count_app, cells_of_app, H1, H2. split; [lia|by rewrite app_nil_r].
Qed.

(** the parts that are still to come *)
Lemma seen_rest seen p rest i d : total = seen ++ p :: rest -> (i, d) ∈ batch -> id p = Some i ->
  (count i seen < numParts)%nat /\ (S (count i seen) = numParts -> cells_of i total = cells_of i (seen ++ [p])).
Proof.
  intros Htot Hi Hid. destruct (Hwhole i d Hi) as (_ & Hct & _). destruct (seen_snoc seen p i Hid) as (Hc & _ & _).
  assert (total = (seen ++ [p]) ++ rest) as -> by (by rewrite <- app_assoc). rewrite count_app, Hc in Hct. split; [lia|].
  intros Hlast. rewrite cells_of_app, (count_none i rest), app_nil_r; [done|lia].
Qed.

Lemma key_ok_other seen p i j st st' : id p = Some i -> j <> i -> st' !! j = st !! j -> key_ok seen st j -> key_ok (seen ++ [p]) st' j.
Proof.
  intros Hid Hj Hst [Hn Hs]. destruct (seen_snoc seen p i Hid) as (_ & _ & Ho). destruct (Ho j Hj) as [H1 H2].
  unfold key_ok. by rewrite H1, H2, Hst.
Qed.

(** the last part of a matrix arrives *)
Lemma merging_last seen p st outs complete i d acc : merging seen st outs complete -> id p = Some i -> (i, d) ∈ batch ->
  S (count i seen) = numParts -> same d acc ->
  merging (seen ++ [p]) (delete i st) (outs ++ [Data acc false]) (complete ++ [(i, d)]).
Proof.
  intros Hm Hid Hi Heq Hsame. destruct (seen_snoc seen p i Hid) as (Hci & _ & Hother). split.
  - intros j. destruct (decide (j = i)) as [->|Hji]; [|eapply key_ok_other; [done..|by rewrite lookup_delete_ne|apply (mg_key _ _ _ _ Hm)]].
    split; [intros _; apply lookup_delete_eq|lia].
  - intros j d'. rewrite elem_of_app, list_elem_of_singleton, (mg_complete _ _ _ _ Hm). destruct (decide (j = i)) as [->|Hji].
    + split; [intros [[_ ?]|[= ->]]; [lia|split; [done|lia]]|]. intros [Hb _]. right. by rewrite (batch_unique i d d' Hi Hb).
    + rewrite (proj1 (Hother j Hji)). split; [by intros [?|[= ]]|by left].
  - rewrite fmap_app. apply NoDup_app. split_and!; [by eapply mg_nodup| |apply NoDup_singleton].
    intros j ([j' d'] & -> & Hb)%list_elem_of_fmap Hj%list_elem_of_singleton. cbn [fst] in Hj.
    apply (mg_complete _ _ _ _ Hm) in Hb as [_ Hb]. subst j'. lia.
  - apply Forall2_app; [by eapply mg_outs|]. constructor; [by exists acc|constructor].
Qed.

(** another part of a matrix arrives *)
Lemma merging_more seen p st outs complete i d acc : merging seen st outs complete -> id p = Some i -> (i, d) ∈ batch ->
  (S (count i seen) < numParts)%nat -> merged d acc (cells_of i (seen ++ [p])) ->
  merging (seen ++ [p]) (<[i := mkPartition (S (count i seen)) acc]> st) outs complete.
Proof.
  intros Hm Hid Hi Hlt Hmg. destruct (seen_snoc seen p i Hid) as (Hci & _ & Hother). split.
  - intros j. destruct (decide (j = i)) as [->|Hji]; [|eapply key_ok_other; [done..|by rewrite lookup_insert_ne|apply (mg_key _ _ _ _ Hm)]].
    split; [lia|]. intros d' Hd' _. rewrite (batch_unique i d' d Hd' Hi), lookup_insert_eq. by eexists.
  - intros j d'. rewrite (mg_complete _ _ _ _ Hm). destruct (decide (j = i)) as [->|Hji]; [split; intros [? ?]; lia|].
    by rewrite (proj1 (Hother j Hji)).
  - by eapply mg_nodup.
  - by eapply mg_outs.
Qed.

Lemma merging_step seen p rest st outs complete : total = seen ++ p :: rest -> merging seen st outs complete ->
  exists o st' complete', merge_step (Data p false) st = Ok (o, st') /\ merging (seen ++ [p]) st' (outs ++ o) complete'.
Proof.
  intros Htot Hm. destruct (Harrive p) as (i & d & Hi & Hid & Hh & Hin); [rewrite Htot; apply elem_of_app; right; by left|].
  destruct (Hwhole i d Hi) as (Hd & _ & Hall). destruct (seen_snoc seen p i Hid) as (_ & Hcells & _).
  destruct (seen_rest seen p rest i d Htot Hi Hid) as [Hlt Hlast].
  destruct (merging_part _ _ i d (mg_key _ _ _ _ Hm i) Hi Hlt) as [Hcp Hmg]. set (part := default _ _) in *.
  destruct (merge_to_ok d p (incidentIndexes p) (cells_of i seen) (part_matrix part) Hh Hin Hmg) as (acc & Hacc & [Ha1 Ha2 Ha3]).
  assert (merged d acc (cells_of i (seen ++ [p]))) as Hmg2.
  { split; [done..|]. intros c Hc. apply Ha3. rewrite Hcells in Hc. rewrite elem_of_app in *. tauto. }
  unfold merge_step. rewrite Hid. fold part. rewrite Hacc. run_step. cbn [countParts part_matrix]. rewrite Hcp.
  destruct (Nat.eqb_spec (S (count i seen)) numParts) as [Heq|Hne].
  - eexists _, _, _. split; [reflexivity|]. apply (merging_last _ _ _ _ _ i d acc Hm Hid Hi Heq).
    apply (merged_same d acc _ Hd Hmg2). intros x y Hxy. rewrite <- (Hlast Heq). by apply Hall.
  - eexists _, _, _. split; [reflexivity|]. rewrite app_nil_r. apply (merging_more _ _ _ _ _ i d acc Hm Hid Hi); [lia|done].
Qed.

Lemma merging_run seen rest st outs complete : total = seen ++ rest -> merging seen st outs complete ->
  exists o st' complete', run merge_step ((fun p => Data p false) <$> rest) st = Ok (o, st') /\ merging total st' (outs ++ o) complete'.
Proof.
  revert seen st outs complete. induction rest as [|p rest IH]; intros seen st outs complete Htot Hm.
  - exists [], st, complete. rewrite app_nil_r in *. subst. done.
  - destruct (merging_step seen p rest st outs complete Htot Hm) as (o1 & st1 & c1 & Hs & Hm1).
    destruct (IH (seen ++ [p]) st1 (outs ++ o1) c1) as (o2 & st2 & c2 & Hr & Hm2); [by rewrite <- app_assoc|done|].
    exists (o1 ++ o2), st2, c2. rewrite fmap_cons. split; [by eapply run_cons|]. by rewrite app_assoc.
Qed.

Lemma merging_all : exists outs ms, run merge_step ((fun p => Data p false) <$> total) ∅ = Ok (outs, ∅) /\
  ms ≡ₚ batch.*2 /\ Forall2 (fun o d => exists d', o = Data d' false /\ same d d') outs ms.
Proof.
  destruct (merging_run [] total ∅ [] []) as (o & st & complete & Hr & Hm); [done| |].
  { split; cbn; [|intros i d; split; [by intros ?%elem_of_nil|intros [_ ?]; lia]|constructor..].
    intros i. split; [intros _; apply lookup_empty|]. intros d _ [? _]. cbn in *. lia. }
  exists o, complete.*2. assert (st = ∅) as ->.
  { apply map_eq. intros i. rewrite lookup_empty. apply (mg_key _ _ _ _ Hm). destruct (filter (of_id i) total) as [|p l] eqn:Hf.
    - left. unfold count. by rewrite Hf.
    - right. assert (p ∈ filter (of_id i) total) as [Hp Hpt]%list_elem_of_filter by (rewrite Hf; by left).
      destruct (Harrive p Hpt) as (j & d & Hj & Hpj & _). unfold of_id in Hp. rewrite Hp in Hpj. injection Hpj as ->.
      apply (Hwhole _ _ Hj). }
  split_and!; [done| |].
  - apply fmap_Permutation. apply NoDup_Permutation; [by eapply NoDup_fmap_1, mg_nodup|by eapply NoDup_fmap_1|].
    intros [i d]. rewrite (mg_complete _ _ _ _ Hm). split; [by intros [? _]|]. intros Hb. split; [done|]. apply (Hwhole _ _ Hb).
  - apply Forall2_fmap_r. exact (mg_outs _ _ _ _ Hm).
Qed.
End arrivals.

(** ** What a slice operator publishes *)

Lemma setID_holds d p i l : holds d p l -> holds d (setID i p) l.
Proof. by intros [H1 H2 H3]. Qed.

Lemma count_setID i j ps : count i (setID j <$> ps) = if decide (i = j) then length ps else 0%nat.
Proof.
  induction ps as [|p ps IH]; [by case_decide|]. rewrite fmap_cons. change (setID j p :: ?l) with ([setID j p] ++ l).
  rewrite count_app, IH. case_decide as Hij.
  - subst. by rewrite (proj1 (of_id_same j (setID j p) eq_refl)).
  - by rewrite (proj1 (of_id_other i j (setID j p) eq_refl Hij)).
Qed.

Lemma elem_of_cells_of i ps c : c ∈ cells_of i ps <-> exists p, p ∈ ps /\ id p = Some i /\ c ∈ incidentIndexes p.
Proof.
  unfold cells_of. rewrite list_elem_of_bind. split.
  - intros (p & Hc & [Hp Hin]%list_elem_of_filter). by exists p.
  - intros (p & Hin & Hp & Hc). exists p. split; [done|]. by apply list_elem_of_filter.
Qed.

Lemma count_permutation i ps qs : ps ≡ₚ qs -> count i ps = count i qs.
Proof. intros Hp. unfold count. by rewrite Hp. Qed.

Definition sliced (b : K * DenseMatrix) (ps : list DenseMatrix) : Prop :=
  length ps = numParts /\ parts_hold b.2 ps (fun n => filter (part_of b.2 n) (cells (getRows b.2) (getCols b.2))).

Definition all_parts (batch : list (K * DenseMatrix)) (pss : list (list DenseMatrix)) : list DenseMatrix :=
  concat (zip_with (fun b ps => setID b.1 <$> ps) batch pss).

Lemma slice_run batch flag : (forall b, b ∈ batch -> proper b.2 /\
    forall i j, in_matrix b.2 (i, j) -> (sliceFun (cell b.2 i j) i j < numParts)%nat) ->
  exists pss, run slice_step ((fun b => Data b.2 flag) <$> batch) batch.*1 = Ok ((fun p => Data p false) <$> all_parts batch pss, []) /\
    Forall2 sliced batch pss.
Proof.
  induction batch as [|b batch IH]; intros Hb; [by exists []|].
  destruct (Hb b ltac:(by left)) as [Hd Hlt]. destruct (slice_ok b.2 Hd Hlt) as (ps & Hs & Hlen & Hh).
  destruct IH as (pss & Hrun & HF); [intros b' Hb'; apply Hb; by right|]. exists (ps :: pss). split; [|by constructor].
  rewrite !fmap_cons. unfold all_parts. cbn [zip_with concat]. rewrite fmap_app. eapply run_cons; [|exact Hrun].
  unfold slice_step. rewrite Hs. run_step. by rewrite <- list_fmap_compose.
Qed.

Lemma all_parts_elem batch pss p : Forall2 sliced batch pss -> p ∈ all_parts batch pss -> exists i d n,
  (i, d) ∈ batch /\ id p = Some i /\ holds d p (filter (part_of d n) (cells (getRows d) (getCols d))).
Proof.
  intros HF. induction HF as [|[i d] ps batch pss [Hlen Hh] _ IH]; [by intros ?%elem_of_nil|].
  unfold all_parts. cbn [zip_with concat fst]. intros [(p0 & -> & [n Hn]%list_elem_of_lookup)%list_elem_of_fmap|Hp]%elem_of_app.
  - exists i, d, n. split_and!; [by left|done|]. by apply setID_holds, Hh.
  - destruct (IH Hp) as (i' & d' & n & Hb & Hr). exists i', d', n. split; [by right|done].
Qed.

Lemma all_parts_cons b batch ps pss : all_parts (b :: batch) (ps :: pss) = (setID b.1 <$> ps) ++ all_parts batch pss.
Proof. done. Qed.

Lemma all_parts_absent batch pss i : Forall2 sliced batch pss -> i ∉ batch.*1 -> count i (all_parts batch pss) = 0%nat.
Proof.
  intros HF. induction HF as [|b ps batch pss _ _ IH]; [done|]. rewrite fmap_cons, not_elem_of_cons. intros [Hne Hni].
  by rewrite all_parts_cons, count_app, count_setID, decide_False, (IH Hni).
Qed.

Lemma all_parts_whole batch pss i d : Forall2 sliced batch pss -> NoDup batch.*1 -> (i, d) ∈ batch ->
  count i (all_parts batch pss) = numParts /\
  forall n, (n < numParts)%nat -> exists p, p ∈ all_parts batch pss /\ id p = Some i /\
    incidentIndexes p = filter (part_of d n) (cells (getRows d) (getCols d)).
Proof.
  intros HF. induction HF as [|b ps batch pss [Hlen Hh] HF IH]; [by intros _ ?%elem_of_nil|].
  rewrite fmap_cons. intros [Hb Hnd]%NoDup_cons Hi. rewrite all_parts_cons, count_app, count_setID.
  apply elem_of_cons in Hi as [<-|Hi].
  - cbn [fst snd] in *. rewrite decide_True, (all_parts_absent _ _ _ HF Hb), Hlen by done. split; [lia|].
    intros n Hn. rewrite <- Hlen in Hn. apply lookup_lt_is_Some_2 in Hn as [p Hp]. exists (setID i p).
    split_and!; [|done|exact (ho_indexes _ _ _ (Hh n p Hp))].
    apply elem_of_app. left. apply list_elem_of_fmap. exists p. split; [done|]. by eapply list_elem_of_lookup_2.
  - destruct (IH Hnd Hi) as [Hc Hp]. rewrite decide_False, Hc.
    + split; [done|]. intros n Hn. destruct (Hp n Hn) as (p & Hin & Hr). exists p. split; [|done]. apply elem_of_app. by right.
    + intros ->. apply Hb. apply list_elem_of_fmap. by exists (b.1, d).
Qed.

(** C29: slicing followed by merging gives dense matrices back, whatever the
    order in which their parts arrive.  For dense, column-major matrices whose
    dimensions are dynamic and which have cells in rows and columns or are
    empty in both; for at least one part, a slicing function that names an
    existing part for every cell, and distinct identifiers for the matrices:
    every matrix of the batch is merged once, with its size and values, the
    merger is left empty, and the outdated flag is lost (all parts and merged
    matrices are published as new).  Not covered, and false: sparse matrices
    ([sparse_slice_merge]), row vectors and row-major matrices
    ([rowmajor_places]), matrices with columns and no row ([slice_no_row]). *)
Theorem slice_merge batch flag :
  NoDup batch.*1 -> (0 < numParts)%nat ->
  (forall b, b ∈ batch -> proper b.2 /\ forall i j, in_matrix b.2 (i, j) -> (sliceFun (cell b.2 i j) i j < numParts)%nat) ->
  exists parts, run slice_step ((fun b => Data b.2 flag) <$> batch) batch.*1 = Ok ((fun p => Data p false) <$> parts, []) /\
    forall arrivals, arrivals ≡ₚ parts -> exists outs ms,
      run merge_step ((fun p => Data p false) <$> arrivals) ∅ = Ok (outs, ∅) /\
      ms ≡ₚ batch.*2 /\ Forall2 (fun o d => exists d', o = Data d' false /\ same d d') outs ms.
Proof.
  intros Hnd Hn Hb. destruct (slice_run batch flag Hb) as (pss & Hrun & HF). exists (all_parts batch pss). split; [done|].
  intros arrivals Hperm. apply (merging_all batch arrivals Hn Hnd).
  - intros p Hp. rewrite Hperm in Hp. destruct (all_parts_elem _ _ _ HF Hp) as (i & d & n & Hi & Hid & Hh).
    exists i, d. rewrite (ho_indexes _ _ _ Hh). split_and!; [done..|]. intros [x y] [_ Hc]%list_elem_of_filter.
    by apply cells_in_matrix; [apply (Hb (i, d))|].
  - intros i d Hi. destruct (all_parts_whole _ _ i d HF Hnd Hi) as [Hc Hp]. destruct (Hb _ Hi) as [Hd Hlt]. cbn [snd] in *.
    rewrite (count_permutation _ _ _ Hperm). split_and!; [done..|]. intros [x y] Hxy.
    destruct (Hp _ (Hlt x y Hxy)) as (p & Hin & Hid & Hinc). apply elem_of_cells_of. exists p. rewrite Hperm, Hinc. split_and!; [done..|].
    apply list_elem_of_filter. split; [done|]. by apply cells_in_matrix.
Qed.
End dense.

(** ** Matrices as functions *)

Record FMat := mkF { f_rows : Z; f_cols : Z; f_at : Z -> Z -> Z }.

Definition f_block (d : FMat) (r c : Z) (s : FMat) (r' c' h w : Z) : FMat :=
  mkF (f_rows d) (f_cols d) (fun x y => if in_block x y r c h w then f_at s (r' + (x - r)) (c' + (y - c)) else f_at d x y).

#[local] Instance FMat_ops : DenseOps FMat := {
  dn_new r c := mkF r c (fun _ _ => 0);
  dn_rows := f_rows;
  dn_cols := f_cols;
  dn_coeff := f_at;
  dn_write m x y v := mkF (f_rows m) (f_cols m) (fun x' y' => if (x' =? x) && (y' =? y) then v else f_at m x' y');
  dn_resize _ r c := mkF r c (fun _ _ => 0);
  dn_conservativeResize m r c := mkF r c (f_at m);
  dn_copy := f_block;
  dn_move m r c := f_block m r c m;
}.

#[local] Instance FMat_laws : DenseLaws FMat.
Proof. by split. Qed.

Definition f_matrix (r c : Z) (f : Z -> Z -> Z) : DenseMatrix (K := nat) := mkDense (mkF r c f) None [].

(** a 2x2 and a 1x3 matrix in two parts each, the parts in reverse order *)
Lemma slice_merge_witness :
  let batch := [(0%nat, f_matrix 2 2 (fun x y => 10 * x + y)); (1%nat, f_matrix 1 3 (fun x y => y))] in
  let chess := (fun _ x y : Z => Z.to_nat ((x + y) mod 2)) in
  exists parts outs ms,
    run (slice_step ColMajor 0 0 chess 2) ((fun b => Data b.2 true) <$> batch) batch.*1 = Ok ((fun p => Data p false) <$> parts, []) /\
    run (merge_step ColMajor 0 0 2) ((fun p => Data p false) <$> rev parts) ∅ = Ok (outs, ∅) /\
    ms ≡ₚ batch.*2 /\ Forall2 (fun o d => exists d', o = Data d' false /\ same d d') outs ms.
Proof.
  intros batch chess. destruct (slice_merge ColMajor 0 0 chess 2 eq_refl eq_refl eq_refl batch true) as (parts & Hs & Hm).
  - apply (bool_decide_unpack _). by vm_compute.
  - lia.
  - intros b Hb. split.
    + left. apply elem_of_cons in Hb as [->|[->|[]%elem_of_nil]%elem_of_cons]; done.
    + intros i j _. unfold chess. pose proof (Z.mod_pos_bound (i + j) 2). lia.
  - destruct (Hm (rev parts)) as (outs & ms & Hr & Hp & Hf); [by rewrite <- Permutation_rev|]. by exists parts, outs, ms.
Defined.

Lemma insert_remove_row_witness :
  let d := f_matrix 2 2 (fun x y => 10 * x + y) in
  let r := mkF 1 2 (fun _ y => 7 + y) in
  exists d' d'', insertRow 1 r d = Ok d' /\ removeRow 1 d' = Ok d'' /\ same d d'' /\ cell d' 1 1 = 8.
Proof.
  intros d r. destruct (insert_remove_row 1 r d) as (d' & d'' & H1 & H2 & H3 & H4); [done..|].
  exists d', d''. split_and!; [done..|]. by apply (H4 1).
Defined.
