(* ===== verification/SparseMatrices.v ===== *)
(** * SparseMatrices: sparse matrices, and the streams into and out of them

    [SparseMatrix.hpp], [ReaderValue.hpp], the sparse cases of [MatrixSlice.hpp]
    and [MatrixMerge.hpp], [ToMatrix.hpp], [FromMatrix.hpp].  Eigen's sparse
    matrices are a class of operations with the laws of its documentation; an
    element of a stream is a row, a column and a value. *)

From S2P Require Import Prelude Stream.

(** ** Eigen::SparseMatrix, stored by column *)

(** [sp_column m j]: the stored entries of a column, row and value, in the order
    of [InnerIterator]; [sp_write m x y v] is [m.coeffRef(x, y) = v] *)
Class SparseOps (M : Type) := {
  sp_new : Z -> Z -> M;
  sp_rows : M -> Z;
  sp_cols : M -> Z;
  sp_column : M -> Z -> list (Z * Z);
  sp_coeff : M -> Z -> Z -> Z;
  sp_nonZeros : M -> nat;
  sp_write : M -> Z -> Z -> Z -> M;
  sp_conservativeResize : M -> Z -> Z -> M;
  sp_pruned : M -> Z -> M;
}.

Section entries.
Context {M : Type} `{SparseOps M}.

Definition in_range (m : M) (x y : Z) : bool := (0 <=? x) && (x <? sp_rows m) && ((0 <=? y) && (y <? sp_cols m)).

(** an entry is stored at row [x] and column [y] *)
Definition stored (m : M) (x y v : Z) : Prop := (x, v) ∈ sp_column m y.
End entries.

Class SparseLaws (M : Type) {ops : SparseOps M} := {
  sp_dims : forall m, 0 <= sp_rows m /\ 0 <= sp_cols m;
  sp_stored_range : forall m x y v, stored m x y v -> in_range m x y = true;
  sp_coeff_stored : forall m x y v, stored m x y v -> sp_coeff m x y = v;
  sp_coeff_absent : forall m x y, (forall v, ~ stored m x y v) -> sp_coeff m x y = 0;
  sp_nonZeros_none : forall m, sp_nonZeros m = 0%nat <-> forall x y v, ~ stored m x y v;
  sp_new_dims : forall r c, 0 <= r -> 0 <= c -> sp_rows (sp_new r c) = r /\ sp_cols (sp_new r c) = c;
  sp_new_stored : forall r c x y v, ~ stored (sp_new r c) x y v;
  sp_write_dims : forall m x y v, sp_rows (sp_write m x y v) = sp_rows m /\ sp_cols (sp_write m x y v) = sp_cols m;
  sp_write_stored : forall m x y v x' y' v', in_range m x y = true ->
    stored (sp_write m x y v) x' y' v' <-> if decide ((x', y') = (x, y)) then v' = v else stored m x' y' v';
  sp_resize_dims : forall m r c, 0 <= r -> 0 <= c ->
    sp_rows (sp_conservativeResize m r c) = r /\ sp_cols (sp_conservativeResize m r c) = c;
  sp_resize_stored : forall m r c x y v, 0 <= r -> 0 <= c ->
    stored (sp_conservativeResize m r c) x y v <-> stored m x y v /\ x < r /\ y < c;
  sp_pruned_dims : forall m v, sp_rows (sp_pruned m v) = sp_rows m /\ sp_cols (sp_pruned m v) = sp_cols m;
  sp_pruned_stored : forall m x y v, stored (sp_pruned m 0) x y v <-> stored m x y v /\ v <> 0;
}.

(** ** Matrix *)

Section sparse.
Context {M : Type} `{SL : SparseLaws M} {K : Type}.

(** [None]: an identifier that was not initialised *)
Record Matrix := mkMatrix { matrix : M; id : option K }.

Definition StreamElement : Type := Z * Z * Z.

(** [Matrix()], [Matrix(rows, cols)] *)
Definition new_Matrix (rows cols : Z) : Matrix := mkMatrix (sp_new rows cols) None.

(** [Matrix(self_type&&)]: the identifier stays behind *)
Definition move_Matrix (d : Matrix) : Matrix := mkMatrix (matrix d) None.

Definition setID (i : K) (d : Matrix) : Matrix := mkMatrix (matrix d) (Some i).
Definition setMatrix (m : M) (d : Matrix) : Matrix := mkMatrix m (id d).
Definition getRows (d : Matrix) : Z := sp_rows (matrix d).
Definition getCols (d : Matrix) : Z := sp_cols (matrix d).
Definition getNumElements (d : Matrix) : nat := sp_nonZeros (matrix d).

Definition resize (newRow newCol : Z) (d : Matrix) : Matrix :=
  if (newRow =? getRows d) && (newCol =? getCols d) then d else setMatrix (sp_conservativeResize (matrix d) newRow newCol) d.

(** [coeffRef] tests the indices *)
Definition put (x y value : Z) (d : Matrix) : result Matrix :=
  _ ← guard_else (in_range (matrix d) x y) OutOfBounds; Ok (setMatrix (sp_write (matrix d) x y value) d).

Definition set (x y value : Z) (d : Matrix) : result Matrix :=
  let resizeRow := if x >=? getRows d then x + 1 else getRows d in
  let resizeCol := if y >=? getCols d then y + 1 else getCols d in
  put x y value (resize resizeRow resizeCol d).

Definition preemt (value : Z) (d : Matrix) : Matrix := setMatrix (sp_pruned (matrix d) value) d.

Definition remove (x y : Z) (d : Matrix) : result Matrix := d ← put x y 0 d; Ok (preemt 0 d).

(** [ReaderValue::insert] and [erase] *)
Definition reader_insert (rec : StreamElement) (d : Matrix) : result Matrix :=
  let '(x, y, v) := rec in
  _ ← guard_else ((0 <=? x) && (0 <=? y)) AssertFailed; set x y v d.
Definition reader_erase (rec : StreamElement) (d : Matrix) : result Matrix :=
  let '(x, y, _) := rec in
  _ ← guard_else ((0 <=? x) && (0 <=? y)) AssertFailed; remove x y d.

Inductive ModificationMode := Insert | Update | Delete.

(** [insert] and [erase] also call the observers *)
Definition insert (rec : StreamElement) (d : Matrix) : result (Matrix * (StreamElement * ModificationMode)) :=
  d ← reader_insert rec d; Ok (d, (rec, Insert)).
Definition erase (rec : StreamElement) (d : Matrix) : result (Matrix * (StreamElement * ModificationMode)) :=
  d ← reader_erase rec d; Ok (d, (rec, Delete)).

(** *** The iterator: a column and the entries of it that are left *)

Record SparseIterator := mkIt { index : Z; inner : list (Z * Z) }.

(** [InnerIterator(matrix, index)] *)
Definition inner_at (d : Matrix) (index : Z) : result (list (Z * Z)) :=
  _ ← guard_else ((0 <=? index) && (index <? getCols d)) OutOfBounds; Ok (sp_column (matrix d) index).

Definition it_begin (d : Matrix) : result SparseIterator := inner ← inner_at d 0; Ok (mkIt 0 inner).

(** [operator==] with [end] moves on to the next column that has entries; fuel:
    the number of columns *)
Fixpoint it_settle (fuel : nat) (d : Matrix) (it : SparseIterator) : result SparseIterator :=
  match inner it with
  | [] =>
      if index it =? getCols d - 1 then Ok it
      else match fuel with
           | O => Err Waits
           | S fuel => inner ← inner_at d (index it + 1); it_settle fuel d (mkIt (index it + 1) inner)
           end
  | _ => Ok it
  end.

(** a loop over the entries, the body given row, column and value; fuel: one
    more than the number of entries *)
Fixpoint for_each {S : Type} (body : Z -> Z -> Z -> S -> result S) (fuel : nat) (d : Matrix) (it : SparseIterator) (s : S) : result S :=
  it ← it_settle (Z.to_nat (getCols d)) d it;
  match inner it with
  | [] => Ok s
  | (x, v) :: inner =>
      match fuel with
      | O => Err Waits
      | Datatypes.S fuel => s ← body x (index it) v s; for_each body fuel d (mkIt (index it) inner) s
      end
  end.

(** the entries in the order of the iterator *)
Definition entries (d : Matrix) : list StreamElement :=
  seqZ 0 (getCols d) ≫= fun y => (fun e => (e.1, y, e.2)) <$> sp_column (matrix d) y.

Definition loop {S : Type} (body : Z -> Z -> Z -> S -> result S) (d : Matrix) (s : S) : result S :=
  it ← it_begin d; for_each body (Datatypes.S (length (entries d))) d it s.

(** ** MatrixSlice, for sparse matrices *)

Context (sliceFun : Z -> Z -> Z -> nat) (numParts : nat).

Definition slice_body (i j v : Z) (partitions : list Matrix) : result (list Matrix) :=
  let id := sliceFun v i j in
  p ← get_at partitions id;
  p ← set i j v p;
  set_at partitions id p.

Definition slice (d : Matrix) : result (list Matrix) :=
  loop slice_body d (replicate numParts (new_Matrix (getRows d) (getCols d))).

(** the state: the identifiers that will be generated *)
Definition slice_step (e : event Matrix) (ids : list K) : result (list (event Matrix) * list K) :=
  match e with
  | Punct p => Ok ([Punct p], ids)
  | Data rec _ =>
      parts ← slice rec;
      match ids with
      | [] => Err Waits
      | partID :: ids => Ok ((fun m => Data (move_Matrix (setID partID m)) false) <$> (parts : list Matrix), ids)
      end
  end.

(** ** MatrixMerge, for sparse matrices *)

Definition merge_to (src dst : Matrix) : result Matrix :=
  if (getNumElements dst =? 0)%nat then Ok (setMatrix (matrix src) dst)
  else loop set src dst.

Context `{Countable K}.

Record Partition := mkPartition { countParts : nat; part_matrix : Matrix }.

Definition merge_step (e : event Matrix) (parts : gmap K Partition) : result (list (event Matrix) * gmap K Partition) :=
  match e with
  | Punct p => Ok ([Punct p], parts)
  | Data mat outdated =>
      match id mat with
      | None => Err Dangling (* an indeterminate identifier *)
      | Some i =>
          let part := default (mkPartition 0 (new_Matrix 0 0)) (parts !! i) in
          m ← merge_to mat (part_matrix part);
          let part := mkPartition (S (countParts part)) m in
          if (countParts part =? numParts)%nat then Ok ([Data (move_Matrix (part_matrix part)) outdated], delete i parts)
          else Ok ([], <[i := part]> parts)
      end
  end.

(** ** ToMatrix: the matrix and the calls of its observers *)

Definition to_matrix_step (e : event StreamElement) (s : Matrix * list (StreamElement * ModificationMode)) :
    result (list (event StreamElement) * (Matrix * list (StreamElement * ModificationMode))) :=
  match e with
  | Punct p => Ok ([Punct p], s)
  | Data rec outdated =>
      let '(d, calls) := s in
      '(d, call) ← (if outdated then erase rec d else insert rec d);
      Ok ([Data rec outdated], (d, calls ++ [call]))
  end.

(** ** FromMatrix: the queue between the observer and the thread *)

Section from_matrix.

Inductive thread := Head (* at the test of [interupted] *) | Waiting (* for the condition *) | Done.

Record FromMatrix := mkFrom { queue : list (StreamElement * bool); interupted : bool; producerTh : thread; published : list (event StreamElement) }.

Inductive from_op := MatrixCallback (tuple : StreamElement) (mode : ModificationMode) | Destroy | Produce.

Definition is_delete (mode : ModificationMode) : bool := match mode with Delete => true | _ => false end.

Definition matrixCallback (tuple : StreamElement) (mode : ModificationMode) (s : FromMatrix) : FromMatrix :=
  mkFrom (queue s ++ [(tuple, is_delete mode)]) (interupted s) (producerTh s) (published s).

(** the test of the loop, and the rest of its body, which holds the mutex *)
Definition produce (s : FromMatrix) : option FromMatrix :=
  match producerTh s with
  | Done => None
  | Head => Some (mkFrom (queue s) (interupted s) (if interupted s then Done else Waiting) (published s))
  | Waiting =>
      if interupted s || negb (bool_decide (queue s = [])) then
        Some (mkFrom [] (interupted s) Head (published s ++ ((fun c => Data c.1 c.2) <$> queue s)))
      else None
  end.

(** [None]: the thread cannot move *)
Definition from_step (op : from_op) (s : FromMatrix) : option FromMatrix :=
  match op with
  | MatrixCallback tuple mode => Some (matrixCallback tuple mode s)
  | Destroy => Some (mkFrom (queue s) true (producerTh s) (published s))
  | Produce => produce s
  end.

Definition new_FromMatrix : FromMatrix := mkFrom [] false Head [].

Fixpoint from_run (ops : list from_op) (s : FromMatrix) : option FromMatrix :=
  match ops with
  | [] => Some s
  | op :: ops => s ← from_step op s; from_run ops s
  end.
End from_matrix.

(** ** Lemmas: single entries *)

Definition dims (d : Matrix) (r c : Z) : Prop := getRows d = r /\ getCols d = c.
Definition entry (d : Matrix) (x y v : Z) : Prop := stored (matrix d) x y v.
Definition coeff (d : Matrix) (x y : Z) : Z := sp_coeff (matrix d) x y.

Lemma sp_in_range_true (m : M) x y : in_range m x y = true <-> 0 <= x < sp_rows m /\ 0 <= y < sp_cols m.
Proof. unfold in_range. rewrite !andb_true_iff, !Z.leb_le, !Z.ltb_lt. split; intros [[? ?] [? ?]]; done. Qed.

Lemma stored_functional (m : M) x y v v' : stored m x y v -> stored m x y v' -> v = v'.
Proof. intros H1 H2. rewrite <- (sp_coeff_stored _ _ _ _ H1). by apply sp_coeff_stored. Qed.

Lemma stored_dec (m : M) x y : (exists v, stored m x y v) \/ (forall v, ~ stored m x y v).
Proof.
  unfold stored. destruct (decide (x ∈ (sp_column m y).*1)) as [([x' v] & -> & Hin)%list_elem_of_fmap|Hn]; [left; by exists v|].
  right. intros v Hv. apply Hn, list_elem_of_fmap. by exists (x, v).
Qed.

Lemma put_entry x y v d : 0 <= x < getRows d -> 0 <= y < getCols d ->
  exists d', put x y v d = Ok d' /\ dims d' (getRows d) (getCols d) /\ id d' = id d /\
    forall x' y' v', entry d' x' y' v' <-> if decide ((x', y') = (x, y)) then v' = v else entry d x' y' v'.
Proof.
  intros Hx Hy. unfold put. assert (in_range (matrix d) x y = true) as Hr by (by apply sp_in_range_true). rewrite Hr. run_step.
  eexists. split; [reflexivity|]. split; [exact (sp_write_dims (matrix d) x y v)|]. split; [done|]. intros x' y' v'. by apply sp_write_stored.
Qed.

Lemma resize_entry r c d : getRows d <= r -> getCols d <= c -> dims (resize r c d) r c /\ id (resize r c d) = id d /\
  forall x y v, entry (resize r c d) x y v <-> entry d x y v.
Proof.
  intros Hr Hc. pose proof (sp_dims (matrix d)) as [H1 H2]. unfold resize. destruct ((r =? getRows d) && (c =? getCols d)) eqn:Hb.
  - apply andb_true_iff in Hb as [->%Z.eqb_eq ->%Z.eqb_eq]. done.
  - unfold getRows, getCols in *. split; [apply sp_resize_dims; lia|]. split; [done|]. intros x y v. unfold entry. cbn [setMatrix matrix].
    rewrite sp_resize_stored by lia. split; [by intros [? _]|]. intros Hs. split; [done|].
    apply sp_stored_range, sp_in_range_true in Hs. lia.
Qed.

(** [set] makes room and writes one entry *)
Lemma sparse_set_ok x y v d : 0 <= x -> 0 <= y ->
  exists d', set x y v d = Ok d' /\ dims d' (Z.max (getRows d) (x + 1)) (Z.max (getCols d) (y + 1)) /\ id d' = id d /\
    forall x' y' v', entry d' x' y' v' <-> if decide ((x', y') = (x, y)) then v' = v else entry d x' y' v'.
Proof.
  intros Hx Hy. unfold set. set (r := if x >=? getRows d then _ else _). set (c := if y >=? getCols d then _ else _).
  assert (r = Z.max (getRows d) (x + 1)) as Hr by (unfold r; destruct (Z.geb_spec x (getRows d)); lia).
  assert (c = Z.max (getCols d) (y + 1)) as Hc by (unfold c; destruct (Z.geb_spec y (getCols d)); lia).
  destruct (resize_entry r c d ltac:(lia) ltac:(lia)) as ([Hr1 Hc1] & Hid & He).
  destruct (put_entry x y v (resize r c d) ltac:(lia) ltac:(lia)) as (d' & -> & [Hr2 Hc2] & Hid2 & He2).
  exists d'. split; [done|]. split; [split; congruence|]. split; [congruence|]. intros x' y' v'. rewrite He2. case_decide; [done|apply He].
Qed.

(** ** Lemmas: the iterator *)

Definition column_entries (y : Z) (l : list (Z * Z)) : list StreamElement := (fun e => (e.1, y, e.2)) <$> l.

Definition entries_from (d : Matrix) (y : Z) : list StreamElement :=
  seqZ y (getCols d - y) ≫= fun y => column_entries y (sp_column (matrix d) y).

Lemma entries_from_next d y : 0 <= y < getCols d -> entries_from d y = column_entries y (sp_column (matrix d) y) ++ entries_from d (y + 1).
Proof.
  intros Hy. unfold entries_from. rewrite seqZ_cons by lia. cbn [mbind list_bind]. do 2 f_equal. unfold Z.succ. f_equal. lia.
Qed.

Lemma elem_of_entries d x y v : 0 <= y < getCols d -> (x, y, v) ∈ entries d <-> entry d x y v.
Proof.
  intros Hy. unfold entries, entry, stored. rewrite list_elem_of_bind. split.
  - intros (y' & ([x' v'] & [= -> -> ->] & Hin)%list_elem_of_fmap & _). done.
  - intros Hin. exists y. split; [|apply elem_of_seqZ; lia]. apply list_elem_of_fmap. by exists (x, v).
Qed.

Lemma entries_range d x y v : (x, y, v) ∈ entries d -> 0 <= y < getCols d.
Proof.
  unfold entries. intros (y' & ([x' v'] & [= -> -> ->] & _)%list_elem_of_fmap & Hy%elem_of_seqZ)%list_elem_of_bind. lia.
Qed.

Lemma it_settle_ok d fuel y l : 0 <= y < getCols d -> getCols d <= Z.of_nat fuel + 1 + y ->
  exists y' l', it_settle fuel d (mkIt y l) = Ok (mkIt y' l') /\ 0 <= y' < getCols d /\ (l' = [] -> y' = getCols d - 1) /\
    column_entries y l ++ entries_from d (y + 1) = column_entries y' l' ++ entries_from d (y' + 1).
Proof.
  revert y l. induction fuel as [|fuel IH]; intros y [|e l] Hy Hf; cbn [it_settle inner]; [| |..|by exists y, (e :: l)].
  - rewrite (proj2 (Z.eqb_eq _ _)) by (cbn [index]; lia). exists y, []. split_and!; [done|lia|lia|lia|done].
  - by exists y, (e :: l).
  - cbn [index]. destruct (Z.eqb_spec y (getCols d - 1)) as [->|Hne]; [by exists (getCols d - 1), []|].
    unfold inner_at. rewrite (proj2 (Z.leb_le 0 _)), (proj2 (Z.ltb_lt _ _)) by lia. cbn [andb]. run_step.
    destruct (IH (y + 1) (sp_column (matrix d) (y + 1))) as (y' & l' & Hs & Hy' & Hl & He); [lia|lia|].
    exists y', l'. split_and!; [done|lia|lia|done|]. rewrite <- He. cbn [column_entries fmap list_fmap app]. apply entries_from_next; lia.
Qed.

Section loop.
Context {S : Type} (body : Z -> Z -> Z -> S -> result S).

Fixpoint fold_entries (es : list StreamElement) (s : S) : result S :=
  match es with
  | [] => Ok s
  | (x, y, v) :: es => s ← body x y v s; fold_entries es s
  end.

Lemma for_each_fold d fuel y l s : 0 <= y < getCols d -> (length (column_entries y l ++ entries_from d (y + 1)) <= fuel)%nat ->
  for_each body fuel d (mkIt y l) s = fold_entries (column_entries y l ++ entries_from d (y + 1)) s.
Proof.
  revert y l s. induction fuel as [|fuel IH]; intros y l s Hy Hf.
  all: destruct (it_settle_ok d (Z.to_nat (getCols d)) y l Hy ltac:(lia)) as (y' & l' & Hs & Hy' & Hl & He); rewrite He in *.
  all: cbn [for_each]; rewrite Hs; run_step; cbn [inner index]; destruct l' as [|[x v] l'].
  1, 3: rewrite (Hl eq_refl); unfold entries_from; by rewrite Z.sub_add, Z.sub_diag.
  - cbn in Hf. lia.
  - cbn [column_entries fmap list_fmap app fold_entries fst snd]. destruct (body x y' v s) as [s'|]; [|done]. run_step.
    apply IH; [done|]. cbn in Hf. unfold column_entries. lia.
Qed.

(** the loop visits the entries once, and ends *)
Lemma loop_fold d s : 0 < getCols d -> loop body d s = fold_entries (entries d) s.
Proof.
  intros Hc. unfold loop, it_begin, inner_at. set (fuel := Datatypes.S _). rewrite (proj2 (Z.ltb_lt 0 _)) by done. cbn [andb Z.leb Z.compare guard_else]. run_step.
  assert (entries d = column_entries 0 (sp_column (matrix d) 0) ++ entries_from d (0 + 1)) as He.
  { rewrite <- (entries_from_next d 0) by lia. unfold entries_from. by rewrite Z.sub_0_r. }
  rewrite for_each_fold; [by rewrite <- He|lia|rewrite <- He; unfold fuel; lia].
Qed.

Lemma loop_no_column d s : getCols d <= 0 -> loop body d s = Err OutOfBounds.
Proof. intros Hc. unfold loop, it_begin, inner_at. by rewrite (proj2 (Z.ltb_ge 0 _)) by done. Qed.
End loop.
(** ** Lemmas: slicing *)

(** a matrix of the size of [d] with the entries [P] *)
Record has (d p : Matrix) (P : Z -> Z -> Z -> Prop) : Prop := {
  has_dims : dims p (getRows d) (getCols d);
  has_entries : forall x y v, entry p x y v <-> P x y v
}.

Lemma has_ext d p P Q : has d p P -> (forall x y v, P x y v <-> Q x y v) -> has d p Q.
Proof. intros [H1 H2] HPQ. split; [done|]. intros x y v. by rewrite H2. Qed.

Definition same (d d' : Matrix) : Prop := has d d' (entry d).

Lemma entry_range d x y v : entry d x y v -> 0 <= x < getRows d /\ 0 <= y < getCols d.
Proof. intros He. by apply sp_in_range_true, (sp_stored_range _ _ _ v). Qed.

(** an entry of [d] is set in a matrix with entries of [d] *)
Lemma has_set d p P x y v : has d p P -> (forall x y v, P x y v -> entry d x y v) -> entry d x y v ->
  exists p', set x y v p = Ok p' /\ id p' = id p /\ has d p' (fun x' y' v' => P x' y' v' \/ (x', y', v') = (x, y, v)).
Proof.
  intros [[Hr Hc] He] HP Hv. destruct (entry_range _ _ _ _ Hv) as [Hx Hy].
  destruct (sparse_set_ok x y v p ltac:(lia) ltac:(lia)) as (p' & Hs & [Hr' Hc'] & Hid & He').
  exists p'. split_and!; [done|done|]. split; [split; lia|]. intros x' y' v'. rewrite He'.
  destruct (decide ((x', y') = (x, y))) as [[= -> ->]|Hne].
  - split; [intros ->; by right|]. intros [Hp|[= ->]]; [|done]. exact (stored_functional _ _ _ _ _ (HP _ _ _ Hp) Hv).
  - rewrite He. split; [by left|]. by intros [?|[= -> -> ->]].
Qed.

Lemma set_entries_ok d es p P : has d p P -> (forall x y v, P x y v -> entry d x y v) ->
  (forall x y v, (x, y, v) ∈ es -> entry d x y v) ->
  exists p', fold_entries set es p = Ok p' /\ id p' = id p /\ has d p' (fun x y v => P x y v \/ (x, y, v) ∈ es).
Proof.
  revert p P. induction es as [|[[x y] v] es IH]; intros p P Hp HP Hes; cbn [fold_entries].
  - exists p. split_and!; [done..|]. apply (has_ext _ _ _ _ Hp). intros x y v. split; [by left|]. by intros [?|?%elem_of_nil].
  - destruct (has_set d p P x y v Hp HP (Hes x y v ltac:(by left))) as (p1 & -> & Hid & Hp1). run_step.
    destruct (IH p1 _ Hp1) as (p2 & -> & Hid2 & Hp2).
    + intros x' y' v' [?|[= -> -> ->]]; [by apply HP|apply Hes; by left].
    + intros x' y' v' ?. apply Hes. by right.
    + exists p2. split_and!; [done|congruence|]. apply (has_ext _ _ _ _ Hp2). intros x' y' v'. rewrite elem_of_cons. tauto.
Qed.

Definition parts_have (d : Matrix) (parts : list Matrix) (P : Z -> Z -> Z -> Prop) : Prop :=
  forall n p, parts !! n = Some p -> has d p (fun x y v => P x y v /\ sliceFun v x y = n).

Lemma slice_entries_ok d es parts P : parts_have d parts P -> (forall x y v, P x y v -> entry d x y v) ->
  (forall x y v, (x, y, v) ∈ es -> entry d x y v /\ (sliceFun v x y < length parts)%nat) ->
  exists parts', fold_entries slice_body es parts = Ok parts' /\ length parts' = length parts /\
    parts_have d parts' (fun x y v => P x y v \/ (x, y, v) ∈ es).
Proof.
  revert parts P. induction es as [|[[x y] v] es IH]; intros parts P Hp HP Hes; cbn [fold_entries].
  - exists parts. split_and!; [done..|]. intros n p Hn. apply (has_ext _ _ _ _ (Hp n p Hn)). intros x y v. rewrite elem_of_nil. tauto.
  - destruct (Hes x y v ltac:(by left)) as [Hv Hlt]. destruct (lookup_lt_is_Some_2 _ _ Hlt) as [p Hn].
    destruct (has_set d p _ x y v (Hp _ _ Hn)) as (p1 & Hs & _ & Hp1); [by intros x' y' v' [? _]; apply HP|done|].
    assert (slice_body x y v parts = Ok (<[sliceFun v x y := p1]> parts)) as ->.
    { unfold slice_body. rewrite (get_at_Some _ _ _ Hn). run_step. rewrite Hs. run_step. by apply set_at_lt. }
    run_step.
    destruct (IH (<[sliceFun v x y := p1]> parts) (fun x' y' v' => P x' y' v' \/ (x', y', v') = (x, y, v))) as (parts2 & -> & Hlen & Hp2).
    + intros n q Hq. destruct (decide (n = sliceFun v x y)) as [->|Hne].
      * rewrite list_lookup_insert_eq in Hq by done. injection Hq as <-. apply (has_ext _ _ _ _ Hp1). intros x' y' v'.
        split; [intros [[? ?]|[= -> -> ->]]; auto|]. intros [[?|?] ?]; auto.
      * rewrite list_lookup_insert_ne in Hq by done. apply (has_ext _ _ _ _ (Hp _ _ Hq)). intros x' y' v'.
        split; [intros [? ?]; auto|]. intros [[?|[= -> -> ->]] He]; [auto|by destruct Hne].
    + intros x' y' v' [?|[= -> -> ->]]; [by apply HP|done].
    + intros x' y' v' ?. rewrite length_insert. apply Hes. by right.
    + exists parts2. rewrite length_insert in Hlen. split_and!; [done..|]. intros n q Hq. apply (has_ext _ _ _ _ (Hp2 n q Hq)).
      intros x' y' v'. rewrite elem_of_cons. tauto.
Qed.

(** part [n] has the entries the function gives to [n], at their places *)
Lemma sparse_slice_ok d : 0 < getCols d -> (forall x y v, entry d x y v -> (sliceFun v x y < numParts)%nat) ->
  exists parts, slice d = Ok parts /\ length parts = numParts /\ parts_have d parts (entry d).
Proof.
  intros Hc Hlt. unfold slice. rewrite loop_fold by done. pose proof (sp_dims (matrix d)) as [H1 H2].
  destruct (slice_entries_ok d (entries d) (replicate numParts (new_Matrix (getRows d) (getCols d))) (fun _ _ _ => False)) as (parts & -> & Hlen & Hp).
  - intros n p [-> _]%lookup_replicate. split; [by apply sp_new_dims|]. intros x y v. split; [by intros ?%sp_new_stored|tauto].
  - done.
  - intros x y v Hin. pose proof (entries_range _ _ _ _ Hin) as Hy. apply elem_of_entries in Hin; [|done].
    rewrite length_replicate. split; [done|]. by apply Hlt.
  - exists parts. rewrite length_replicate in Hlen. split_and!; [done..|]. intros n p Hn. apply (has_ext _ _ _ _ (Hp n p Hn)).
    intros x y v. split; [intros [[[]|Hin] ?]|intros [Hin ?]].
    + split; [|done]. apply elem_of_entries; [by eapply entries_range|done].
    + split; [|done]. right. apply elem_of_entries; [exact (proj2 (entry_range _ _ _ _ Hin))|done].
Qed.

(** ** Lemmas: merging *)

(** a matrix being put together from parts of [d] *)
Definition collects (d acc : Matrix) (P : Z -> Z -> Z -> Prop) : Prop :=
  has d acc P \/ (getNumElements acc = 0%nat /\ forall x y v, ~ P x y v).

Lemma sparse_merge_to_ok d p acc P Q : 0 < getCols d -> collects d acc P -> has d p Q ->
  (forall x y v, P x y v -> entry d x y v) -> (forall x y v, Q x y v -> entry d x y v) ->
  exists acc', merge_to p acc = Ok acc' /\ has d acc' (fun x y v => P x y v \/ Q x y v).
Proof.
  intros Hc Hacc Hp HP HQ. unfold merge_to. destruct (Nat.eqb_spec (getNumElements acc) 0) as [H0|Hn0].
  - eexists. split; [reflexivity|]. assert (forall x y v, ~ P x y v) as HnP.
    { destruct Hacc as [[_ He]|[_ Hn]]; [|done]. intros x y v HPx%He. by eapply sp_nonZeros_none. }
    destruct Hp as [Hd He]. split; [done|]. intros x y v. rewrite (He x y v : entry (setMatrix (matrix p) acc) x y v <-> _).
    split; [by right|]. by intros [?%HnP|?].
  - destruct Hacc as [Hacc|[? _]]; [|done]. destruct Hp as [[Hpr Hpc] He]. rewrite loop_fold by lia.
    destruct (set_entries_ok d (entries p) acc P Hacc HP) as (acc' & -> & _ & Ha).
    + intros x y v Hin. apply HQ, He, elem_of_entries; [by eapply entries_range|done].
    + exists acc'. split; [done|]. apply (has_ext _ _ _ _ Ha). intros x y v. rewrite <- He. split.
      * intros [?|Hin]; [by left|]. right. apply elem_of_entries; [by eapply entries_range|done].
      * intros [?|Hin]; [by left|]. right. apply elem_of_entries; [exact (proj2 (entry_range _ _ _ _ Hin))|done].
Qed.

Definition in_parts (ps : list Matrix) (x y v : Z) : Prop := exists p, p ∈ ps /\ entry p x y v.

Section arrivals.
Context (i : K) (d : Matrix) (total : list Matrix) (Hcols : 0 < getCols d) (Hlen : length total = numParts) (Hpos : (0 < numParts)%nat).
Context (Hpart : forall p, p ∈ total -> dims p (getRows d) (getCols d) /\ forall x y v, entry p x y v -> entry d x y v).

Lemma in_parts_snoc seen p x y v : in_parts (seen ++ [p]) x y v <-> in_parts seen x y v \/ entry p x y v.
Proof.
  unfold in_parts. split.
  - intros (q & [Hq|Hq]%elem_of_app & He); [left; by exists q|]. apply list_elem_of_singleton in Hq as ->. by right.
  - intros [(q & Hq & He)|He]; [exists q|exists p]; (split; [|done]); apply elem_of_app; [by left|right; by left].
Qed.

Definition merging (seen : list Matrix) (st : gmap K Partition) (outs : list (event Matrix)) : Prop :=
  if decide (length seen < numParts)%nat then
    outs = [] /\ (forall j, j <> i -> st !! j = None) /\
    let part := default (mkPartition 0 (new_Matrix 0 0)) (st !! i) in
    countParts part = length seen /\ collects d (part_matrix part) (in_parts seen)
  else st = ∅ /\ exists d', outs = [Data d' false] /\ has d d' (in_parts seen).

Lemma sparse_merging_step seen p rest st outs : total = seen ++ p :: rest -> merging seen st outs ->
  exists o st', merge_step (Data (setID i p) false) st = Ok (o, st') /\ merging (seen ++ [p]) st' (outs ++ o).
Proof.
  intros Htot. unfold merging at 1. rewrite decide_True by (rewrite <- Hlen, Htot, length_app; cbn; lia).
  intros (-> & Hst & Hc & Hacc). set (part := default _ _) in *.
  destruct (Hpart p) as [Hd He]; [rewrite Htot; apply elem_of_app; right; by left|].
  destruct (sparse_merge_to_ok d (setID i p) (part_matrix part) (in_parts seen) (entry p) Hcols Hacc) as (acc & Hm & Ha).
  { by split. }
  { intros x y v (q & Hq & Hqe). destruct (Hpart q) as [_ H']; [rewrite Htot; apply elem_of_app; by left|]. by apply H'. }
  { done. }
  assert (has d acc (in_parts (seen ++ [p]))) as Ha' by (apply (has_ext _ _ _ _ Ha); intros x y v; by rewrite in_parts_snoc).
  unfold merge_step. cbn [setID id]. fold part. rewrite Hm. run_step. cbn [countParts part_matrix]. rewrite Hc.
  unfold merging. rewrite length_app. cbn [length].
  destruct (Nat.eqb_spec (S (length seen)) numParts) as [Heq|Hne]; (eexists _, _; split; [reflexivity|]).
  - rewrite decide_False by lia. split; [|exists (move_Matrix acc); split; [done|by destruct Ha'; split]]. apply map_eq. intros j. rewrite lookup_empty.
    destruct (decide (j = i)) as [->|Hj]; [apply lookup_delete_eq|]. rewrite lookup_delete_ne by done. by apply Hst.
  - assert (length seen < numParts)%nat by (rewrite <- Hlen, Htot, length_app; cbn; lia). rewrite decide_True by lia.
    rewrite lookup_insert_eq. split_and!; [done| |cbn; lia|by left].
    intros j Hj. rewrite lookup_insert_ne by done. by apply Hst.
Qed.

Lemma sparse_merging_run : exists d', run merge_step ((fun p => Data (setID i p) false) <$> total) ∅ = Ok ([Data d' false], ∅) /\
  has d d' (in_parts total).
Proof.
  assert (forall rest seen st outs, total = seen ++ rest -> merging seen st outs ->
    exists o st', run merge_step ((fun p => Data (setID i p) false) <$> rest) st = Ok (o, st') /\ merging total st' (outs ++ o)) as Hrun.
  { induction rest as [|p rest IH]; intros seen st outs Htot Hm.
    - exists [], st. rewrite app_nil_r in *. by subst.
    - destruct (sparse_merging_step seen p rest st outs Htot Hm) as (o1 & st1 & Hs & Hm1).
      destruct (IH (seen ++ [p]) st1 (outs ++ o1)) as (o2 & st2 & Hr & Hm2); [by rewrite <- app_assoc|done|].
      exists (o1 ++ o2), st2. rewrite fmap_cons, app_assoc. split; [by eapply run_cons|done]. }
  destruct (Hrun total [] ∅ []) as (o & st & Hr & Hm); [done| |].
  - unfold merging. rewrite decide_True by (cbn; lia). rewrite lookup_empty. split_and!; [done|intros; apply lookup_empty|done|].
    right. split; [|by intros x y v (p & ?%elem_of_nil & _)]. apply sp_nonZeros_none. intros x y v. apply sp_new_stored.
  - unfold merging in Hm. rewrite decide_False in Hm by lia. destruct Hm as (-> & d' & Ho & Hd'). cbn in Ho. subst o. by exists d'.
Qed.
End arrivals.

(** The parts of a sparse matrix are published without their identifier,
    so that merging them is undefined; with it they merge, in any order, to the
    matrix that was sliced *)
Lemma sparse_slice_merge d i flag ids :
  0 < getCols d -> (0 < numParts)%nat -> (forall x y v, entry d x y v -> (sliceFun v x y < numParts)%nat) ->
  exists parts, slice_step (Data d flag) (i :: ids) = Ok ((fun p => Data p false) <$> parts, ids) /\ length parts = numParts /\
    (forall p st, p ∈ parts -> merge_step (Data p false) st = Err Dangling) /\
    forall arrivals, arrivals ≡ₚ parts -> exists d',
      run merge_step ((fun p => Data (setID i p) false) <$> arrivals) ∅ = Ok ([Data d' false], ∅) /\ same d d'.
Proof.
  intros Hc Hn Hlt. destruct (sparse_slice_ok d Hc Hlt) as (parts & Hs & Hlen & Hp). exists ((fun p => move_Matrix (setID i p)) <$> parts).
  split_and!; [unfold slice_step; rewrite Hs; run_step; by rewrite <- list_fmap_compose|by rewrite length_fmap|by intros p st (q & -> & _)%list_elem_of_fmap|].
  intros arrivals Hperm. destruct (sparse_merging_run i d arrivals) as (d' & Hr & Hd'); [done|by rewrite Hperm, length_fmap|done| |].
  - intros p Hin. rewrite Hperm in Hin. apply list_elem_of_fmap in Hin as (q & -> & [n [Hd He]%Hp]%list_elem_of_lookup). split; [done|]. intros x y v Hv. by apply (He x y v) in Hv as [? _].
  - exists d'. split; [done|]. apply (has_ext _ _ _ _ Hd'). intros x y v. unfold in_parts. split.
    + intros (p & Hin & Hv). rewrite Hperm in Hin. apply list_elem_of_fmap in Hin as (q & -> & [n [_ He]%Hp]%list_elem_of_lookup).
      by apply (He x y v) in Hv as [? _].
    + intros Hv. destruct (lookup_lt_is_Some_2 parts (sliceFun v x y)) as [p Hpn]; [rewrite Hlen; by apply Hlt|].
      exists (move_Matrix (setID i p)). rewrite Hperm. split; [apply list_elem_of_fmap; exists p; split; [done|by eapply list_elem_of_lookup_2]|].
      by apply (has_entries _ _ _ (Hp _ _ Hpn) x y v).
Qed.

(** ** Lemmas: the matrix of a stream *)

Lemma coeff_ext (d d' : Matrix) x y : (forall v, entry d x y v <-> entry d' x y v) -> coeff d x y = coeff d' x y.
Proof.
  intros He. unfold coeff. destruct (stored_dec (matrix d) x y) as [[v Hv]|Hn].
  - rewrite (sp_coeff_stored _ _ _ _ Hv). symmetry. by apply sp_coeff_stored, He.
  - rewrite (sp_coeff_absent _ _ _ Hn). symmetry. apply sp_coeff_absent. intros v Hv. by apply (Hn v), He.
Qed.

(** one entry is overwritten *)
Lemma coeff_overwritten (d d' : Matrix) x y v :
  (forall x' y' v', entry d' x' y' v' <-> if decide ((x', y') = (x, y)) then v' = v else entry d x' y' v') ->
  forall x' y', coeff d' x' y' = if decide ((x', y') = (x, y)) then v else coeff d x' y'.
Proof.
  intros He x' y'. case_decide as Heq.
  - injection Heq as -> ->. unfold coeff. apply sp_coeff_stored, He. by rewrite decide_True.
  - apply coeff_ext. intros v'. rewrite He. by rewrite decide_False.
Qed.

Lemma coeff_preemt d x y : coeff (preemt 0 d) x y = coeff d x y.
Proof.
  unfold coeff, preemt. cbn [setMatrix matrix]. destruct (stored_dec (matrix d) x y) as [[v Hv]|Hn].
  - rewrite (sp_coeff_stored _ _ _ _ Hv). destruct (decide (v = 0)) as [->|Hv0].
    + apply sp_coeff_absent. intros v' [Hv' Hn0]%sp_pruned_stored. by rewrite (stored_functional _ _ _ _ _ Hv' Hv) in Hn0.
    + by apply sp_coeff_stored, sp_pruned_stored.
  - rewrite (sp_coeff_absent _ _ _ Hn). apply sp_coeff_absent. intros v [Hv _]%sp_pruned_stored. by apply (Hn v).
Qed.

(** the last element of a stream for a cell; a retraction sets it to 0 *)
Definition element_at (x y : Z) (acc : Z) (e : event StreamElement) : Z :=
  match e with
  | Data (x', y', v) outdated => if decide ((x, y) = (x', y')) then (if outdated then 0 else v) else acc
  | Punct _ => acc
  end.
Definition value_at (evs : list (event StreamElement)) (x y : Z) : Z := foldl (element_at x y) 0 evs.

(** a stream retracts only at cells it has given a value *)
Definition retracts (evs : list (event StreamElement)) : Prop :=
  forall pre x y v post, evs = pre ++ Data (x, y, v) true :: post -> exists v', Data (x, y, v') false ∈ pre.
Definition at_cells (evs : list (event StreamElement)) : Prop :=
  forall x y v o, Data (x, y, v) o ∈ evs -> 0 <= x /\ 0 <= y.

(** what the observers are told *)
Definition calls_of (evs : list (event StreamElement)) : list (StreamElement * ModificationMode) :=
  evs ≫= fun e => match e with Data rec outdated => [(rec, if outdated then Delete else Insert)] | Punct _ => [] end.

Record filled (evs : list (event StreamElement)) (d : Matrix) : Prop := {
  fi_room : forall x y v, Data (x, y, v) false ∈ evs -> x < getRows d /\ y < getCols d;
  fi_coeff : forall x y, coeff d x y = value_at evs x y
}.

Lemma value_at_snoc evs e x y : value_at (evs ++ [e]) x y = element_at x y (value_at evs x y) e.
Proof. unfold value_at. by rewrite foldl_app. Qed.

Lemma elem_of_snoc {A} (l : list A) (a b : A) : a ∈ l ++ [b] <-> a ∈ l \/ a = b.
Proof. by rewrite elem_of_app, list_elem_of_singleton. Qed.

Lemma filled_insert evs d x y v : filled evs d -> 0 <= x -> 0 <= y ->
  exists d', insert (x, y, v) d = Ok (d', ((x, y, v), Insert)) /\ filled (evs ++ [Data (x, y, v) false]) d'.
Proof.
  intros [Hr Hc] Hx Hy. unfold insert, reader_insert. rewrite !(proj2 (Z.leb_le 0 _)) by done. cbn [andb guard_else]. run_step.
  destruct (sparse_set_ok x y v d Hx Hy) as (d' & -> & [Hr' Hc'] & _ & He). run_step. exists d'. split; [done|]. split.
  - intros x' y' v' [Hin|[= -> -> ->]]%elem_of_snoc; [|lia]. apply Hr in Hin. lia.
  - intros x' y'. rewrite value_at_snoc, (coeff_overwritten _ _ _ _ _ He). cbn [element_at]. case_decide; [done|apply Hc].
Qed.

Lemma filled_erase evs d x y v : filled evs d -> 0 <= x < getRows d -> 0 <= y < getCols d ->
  exists d', erase (x, y, v) d = Ok (d', ((x, y, v), Delete)) /\ filled (evs ++ [Data (x, y, v) true]) d'.
Proof.
  intros [Hr Hc] Hx Hy. unfold erase, reader_erase, remove. rewrite !(proj2 (Z.leb_le 0 _)) by lia. cbn [andb guard_else]. run_step.
  destruct (put_entry x y 0 d Hx Hy) as (d' & -> & [Hr' Hc'] & _ & He). run_step. eexists. split; [reflexivity|].
  destruct (sp_pruned_dims (matrix d') 0) as [Hr2 Hc2]. split.
  - intros x' y' v' [Hin|[= ]]%elem_of_snoc. apply Hr in Hin. unfold getRows, getCols, preemt in *. cbn [setMatrix matrix]. lia.
  - intros x' y'. rewrite coeff_preemt, value_at_snoc, (coeff_overwritten _ _ _ _ _ He). cbn [element_at]. case_decide; [done|apply Hc].
Qed.

Lemma retracts_snoc evs e : retracts (evs ++ [e]) -> retracts evs.
Proof. intros Hr pre x y v post ->. apply (Hr pre x y v (post ++ [e])). by rewrite <- app_assoc. Qed.

Lemma to_matrix_run evs : at_cells evs -> retracts evs ->
  exists d, run to_matrix_step evs (new_Matrix 0 0, []) = Ok (evs, (d, calls_of evs)) /\ filled evs d.
Proof.
  induction evs as [|e evs IH] using rev_ind; intros Hat Hre.
  - exists (new_Matrix 0 0). split; [done|]. split; [by intros x y v ?%elem_of_nil|]. intros x y. unfold coeff. apply sp_coeff_absent.
    intros v. apply sp_new_stored.
  - destruct IH as (d & Hrun & Hf); [|by eapply retracts_snoc|].
    { intros x y v o Hin. apply (Hat x y v o), elem_of_app. by left. }
    assert (calls_of (evs ++ [e]) = calls_of evs ++ calls_of [e]) as -> by apply bind_app.
    destruct e as [[[x y] v] o|p].
    + destruct (Hat x y v o) as [Hx Hy]; [apply elem_of_snoc; by right|]. pose proof (sp_dims (matrix d)) as [Hd1 Hd2].
      assert (exists d', to_matrix_step (Data (x, y, v) o) (d, calls_of evs) = Ok ([Data (x, y, v) o], (d', calls_of evs ++ calls_of [Data (x, y, v) o])) /\
        filled (evs ++ [Data (x, y, v) o]) d') as (d' & Hs & Hf').
      { unfold to_matrix_step. destruct o.
        - destruct (Hre evs x y v [] eq_refl) as [v' Hv']. apply (fi_room _ _ Hf) in Hv'.
          destruct (filled_erase evs d x y v Hf) as (d' & -> & Hf'); [lia..|]. by exists d'.
        - destruct (filled_insert evs d x y v Hf Hx Hy) as (d' & -> & Hf'). by exists d'. }
      exists d'. split; [by eapply run_snoc|done].
    + exists d. split; [eapply run_snoc; [done|]; by rewrite app_nil_r|]. destruct Hf as [Hr Hc]. split.
      * intros x y v [Hin|[= ]]%elem_of_snoc. by apply Hr in Hin.
      * intros x y. rewrite value_at_snoc. apply Hc.
Qed.
End sparse.

(** ** Lemmas: the thread of [FromMatrix] *)

Definition callbacks (ops : list from_op) : list (StreamElement * ModificationMode) :=
  ops ≫= fun op => match op with MatrixCallback t m => [(t, m)] | _ => [] end.

Definition as_event (c : StreamElement * bool) : event StreamElement := Data c.1 c.2.

(** nothing is lost, repeated or reordered between the matrix and the stream *)
Lemma from_step_order op s s' : from_step op s = Some s' ->
  published s' ++ (as_event <$> queue s') =
  published s ++ (as_event <$> queue s) ++ ((fun c => Data c.1 (is_delete c.2)) <$> callbacks [op]).
Proof.
  destruct op as [t m| |]; cbn [from_step callbacks mbind list_bind app fmap list_fmap].
  - intros [= <-]. cbn [matrixCallback published queue]. by rewrite fmap_app.
  - intros [= <-]. by rewrite app_nil_r.
  - unfold produce. destruct (producerTh s); [intros [= <-]; by rewrite app_nil_r| |done].
    destruct (_ || _); [|done]. intros [= <-]. cbn [published queue fmap list_fmap]. by rewrite !app_nil_r.
Qed.

Lemma from_run_order ops s s' : from_run ops s = Some s' ->
  published s' ++ (as_event <$> queue s') =
  published s ++ (as_event <$> queue s) ++ ((fun c => Data c.1 (is_delete c.2)) <$> callbacks ops).
Proof.
  revert s. induction ops as [|op ops IH]; intros s; cbn [from_run].
  - intros [= <-]. by rewrite app_nil_r.
  - intros (s1 & Hs & Hr)%bind_Some. rewrite (IH _ Hr), app_assoc, (from_step_order _ _ _ Hs), <- !app_assoc.
    do 2 f_equal. rewrite <- fmap_app. f_equal. by destruct op.
Qed.

(** the thread ends only after the destructor has started *)
Lemma from_run_alive ops s s' : from_run ops s = Some s' -> (producerTh s = Done -> interupted s = true) ->
  producerTh s' = Done -> interupted s' = true.
Proof.
  revert s. induction ops as [|op ops IH]; intros s; cbn [from_run]; [by intros [= <-]|].
  intros (s1 & Hs & Hr)%bind_Some Hal. apply (IH _ Hr). destruct op as [t m| |]; cbn [from_step] in Hs; [by injection Hs as <-..|].
  unfold produce in Hs. destruct (producerTh s); [injection Hs as <-; cbn; by destruct (interupted s)| |done].
  destruct (_ || _); [|done]. by injection Hs as <-.
Qed.

(** the thread empties the queue in two passes at most *)
Lemma produce_empties s : interupted s = false -> producerTh s <> Done ->
  exists n s', (n <= 2)%nat /\ from_run (replicate n Produce) s = Some s' /\ queue s' = [].
Proof.
  intros Hi Ht. destruct (decide (queue s = [])) as [Hq|Hq]; [exists 0%nat, s; split_and!; [lia|done..]|].
  destruct (producerTh s) eqn:Hth; [exists 2%nat|exists 1%nat|done]; eexists; (split; [lia|]).
  - cbn [replicate from_run from_step]. unfold produce at 2. rewrite Hth, Hi. cbn [mbind option_bind]. unfold produce. cbn [producerTh interupted queue].
    by rewrite bool_decide_false.
  - cbn [replicate from_run from_step]. unfold produce. by rewrite Hth, Hi, bool_decide_false.
Qed.

(** C30: a stream stored into a sparse matrix arrives unchanged at a stream out of
    it: the matrix holds the last value of each cell, and in every interleaving
    the observer's thread has published a prefix of the changes, the rest is
    queued, and two passes of the thread publish it *)
Theorem matrix_stream {M : Type} `{SL : SparseLaws M} {K : Type} (evs : list (event StreamElement)) :
  at_cells evs -> retracts evs ->
  exists (d : Matrix (M := M) (K := K)) calls,
    run to_matrix_step evs (new_Matrix 0 0, []) = Ok (evs, (d, calls)) /\
    (forall x y, coeff d x y = value_at evs x y) /\
    forall steps s, callbacks steps = calls -> from_run steps new_FromMatrix = Some s ->
      let changes := omap (fun e => match e with Data rec o => Some (Data rec o) | Punct _ => None end) evs in
      published s ++ (as_event <$> queue s) = changes /\
      (interupted s = false -> exists n s', (n <= 2)%nat /\ from_run (replicate n Produce) s = Some s' /\ published s' = changes).
Proof.
  intros Hat Hre. destruct (to_matrix_run (M := M) (K := K) evs Hat Hre) as (d & Hrun & [_ Hc]). exists d, (calls_of evs). split_and!; [done..|].
  intros steps s Hops Hr changes.
  assert (((fun c => Data c.1 (is_delete c.2)) <$> calls_of evs) = changes) as Hch.
  { clear. unfold changes, calls_of. induction evs as [|[r [|]|p] evs IH]; cbn; by rewrite ?IH. }
  pose proof (from_run_order _ _ _ Hr) as Ho. rewrite Hops, Hch in Ho. cbn in Ho. split; [done|]. intros Hi.
  destruct (produce_empties s Hi) as (n & s' & Hn & Hr' & Hq).
  { intros Hd. apply (from_run_alive _ _ _ Hr) in Hd; [congruence|done]. }
  exists n, s'. split_and!; [done..|]. apply from_run_order in Hr'. rewrite Hq, app_nil_r in Hr'. rewrite Hr'.
  assert (callbacks (replicate n Produce) = []) as -> by (clear; induction n; [done|exact IHn]). by rewrite app_nil_r.
Qed.

(** destroyed before its thread looks at the queue, the operator drops it *)
Lemma destroyed_with_queue t : exists s, from_run [MatrixCallback t Insert; Destroy; Produce] new_FromMatrix = Some s /\
  producerTh s = Done /\ published s = [] /\ queue s = [(t, false)].
Proof. by eexists. Qed.

(** ** Matrices as maps *)

(** rows, columns and the stored entries *)
Record SMat := mkS { s_rows : Z; s_cols : Z; s_entries : gmap (Z * Z) Z }.

#[local] Instance SMat_ops : SparseOps SMat := {
  sp_new r c := mkS r c ∅;
  sp_rows m := Z.max 0 (s_rows m);
  sp_cols m := Z.max 0 (s_cols m);
  sp_column m j := omap (fun e => let '((x, y), v) := e in
    if decide (y = j /\ 0 <= x < s_rows m /\ 0 <= y < s_cols m) then Some (x, v) else None) (map_to_list (s_entries m));
  sp_coeff m x y := if decide (0 <= x < s_rows m /\ 0 <= y < s_cols m) then default 0 (s_entries m !! (x, y)) else 0;
  sp_nonZeros m := length (filter (fun e : Z * Z * Z => 0 <= e.1.1 < s_rows m /\ 0 <= e.1.2 < s_cols m) (map_to_list (s_entries m)));
  sp_write m x y v := mkS (s_rows m) (s_cols m) (<[(x, y) := v]> (s_entries m));
  sp_conservativeResize m r c := mkS r c (filter (fun e : Z * Z * Z => 0 <= e.1.1 < s_rows m /\ 0 <= e.1.2 < s_cols m /\ e.1.1 < r /\ e.1.2 < c) (s_entries m));
  sp_pruned m v := mkS (s_rows m) (s_cols m) (filter (fun e : Z * Z * Z => e.2 <> v) (s_entries m));
}.

Lemma SMat_stored (m : SMat) x y v :
  stored m x y v <-> s_entries m !! (x, y) = Some v /\ 0 <= x < s_rows m /\ 0 <= y < s_cols m.
Proof.
  unfold stored. cbn [sp_column SMat_ops]. rewrite list_elem_of_omap. split.
  - intros ([[x' y'] v'] & Hin%elem_of_map_to_list & He). case_decide as Hd; [|done]. by injection He as -> ->; destruct Hd as (-> & ? & ?).
  - intros (He & Hx & Hy). exists ((x, y), v). split; [by apply elem_of_map_to_list|]. by rewrite decide_True.
Qed.

#[local] Instance SMat_laws : SparseLaws SMat.
Proof.
  split.
  - intros m. cbn. lia.
  - intros m x y v (_ & ? & ?)%SMat_stored. apply sp_in_range_true. cbn. lia.
  - intros m x y v (He & ? & ?)%SMat_stored. cbn. by rewrite decide_True, He.
  - intros m x y Hn. cbn. case_decide as Hd; [|done]. destruct (s_entries m !! (x, y)) as [v|] eqn:He; [|done].
    destruct (Hn v). apply SMat_stored. tauto.
  - intros m. cbn [sp_nonZeros SMat_ops]. rewrite length_zero_iff_nil. split.
    + intros Hf x y v (He & ? & ?)%SMat_stored. eapply (not_elem_of_nil (x, y, v)). rewrite <- Hf.
      apply list_elem_of_filter. split; [done|]. by apply elem_of_map_to_list.
    + intros Hn. apply elem_of_nil_inv. intros [[x y] v] [? Hin%elem_of_map_to_list]%list_elem_of_filter.
      apply (Hn x y v), SMat_stored. done.
  - intros r c Hr Hc. cbn. lia.
  - intros r c x y v (He & _)%SMat_stored. cbn [sp_new SMat_ops s_entries] in He; by rewrite lookup_empty in He.
  - done.
  - intros m x y v x' y' v' Hr%sp_in_range_true. cbn in Hr. rewrite SMat_stored. cbn [sp_write SMat_ops s_entries s_rows s_cols].
    case_decide as Hd.
    + injection Hd as -> ->. rewrite lookup_insert_eq. split; [by intros ([= ->] & _)|]. intros ->. split; [done|lia].
    + rewrite lookup_insert_ne by congruence. by rewrite SMat_stored.
  - intros m r c Hr Hc. cbn. lia.
  - intros m r c x y v Hr Hc. rewrite !SMat_stored. cbn [sp_conservativeResize SMat_ops s_entries s_rows s_cols].
    rewrite map_lookup_filter_Some. cbn [fst snd].
    split; [intros ((? & ?) & ? & ?)|intros ((? & ? & ?) & ? & ?)]; split_and!; (done || lia).
  - done.
  - intros m x y v. rewrite !SMat_stored. cbn [sp_pruned SMat_ops s_entries s_rows s_cols]. rewrite map_lookup_filter_Some. cbn [snd]. tauto.
Qed.

Definition s_matrix (r c : Z) (es : list (Z * Z * Z)) : Matrix (M := SMat) (K := nat) := mkMatrix (mkS r c (list_to_map es)) None.

(** a 2x3 matrix with three entries, in two parts *)
Lemma sparse_slice_merge_witness :
  let d := s_matrix 2 3 [(0, 0, 5); (1, 0, 7); (0, 2, 9)] in
  let chess := (fun _ x y : Z => Z.to_nat ((x + y) mod 2)) in
  exists parts d', slice_step chess 2 (Data d false) [4%nat] = Ok ((fun p => Data p false) <$> parts, []) /\
    run (merge_step 2) ((fun p => Data (setID 4%nat p) false) <$> rev parts) ∅ = Ok ([Data d' false], ∅) /\ same d d'.
Proof.
  intros d chess. destruct (sparse_slice_merge chess 2 d 4%nat false []) as (parts & Hs & _ & _ & Hm).
  - done.
  - lia.
  - intros x y v _. unfold chess. pose proof (Z.mod_pos_bound (x + y) 2). lia.
  - destruct (Hm (rev parts)) as (d' & Hr & Hd); [by rewrite <- Permutation_rev|]. by exists parts, d'.
Defined.

(** a cell is set, set again, and retracted, another one is set *)
Lemma matrix_stream_witness :
  let evs := [Data (0, 0, 5) false; Data (2, 1, 7) false; Data (0, 0, 6) false; Data (0, 0, 6) true] in
  exists (d : Matrix (M := SMat) (K := nat)) calls, run to_matrix_step evs (new_Matrix 0 0, []) = Ok (evs, (d, calls)) /\
    coeff d 0 0 = 0 /\ coeff d 2 1 = 7.
Proof.
  intros evs. destruct (matrix_stream (M := SMat) (K := nat) evs) as (d & calls & Hr & Hc & _).
  - intros x y v o Hin. unfold evs in Hin. rewrite !elem_of_cons, elem_of_nil in Hin. destruct_or! Hin; simplify_eq; lia.
  - intros pre x y v post He. destruct pre as [|e0 [|e1 [|e2 [|e3 pre]]]]; simplify_eq/=; [|by destruct pre].
    exists 5. by left.
  - exists d, calls. rewrite !Hc. by split_and!.
Defined.
