(* ===== verification/Joins.v ===== *)
(** * Joins: the symmetric hash join and its parallel variant

    Models [src/qop/SHJoin.hpp] and [src/qop/ScaleJoin.hpp]: the two hash
    tables and the handlers of both inputs; and the instances of a [ScaleJoin],
    wired as [Pipe::scaleJoin] ([src/dsl/Pipe.hpp]) does it, with a queue and
    a thread for the left input of each, under any schedule of the threads.  An
    [unordered_multimap] is the list of its entries in insertion order;
    [equal_range] are the entries of a key.  The theorems compare outputs up to
    permutation, so that they do not depend on the order inside a bucket. *)

From S2P Require Import Prelude Stream.

(** an input of a binary operator: an element of either side with its
    outdated flag, or a punctuation *)
Inductive input (L R : Type) :=
  | InLeft (l : L) (outdated : bool)
  | InRight (r : R) (outdated : bool)
  | InPunct (p : PType).
Arguments InLeft {L R} l outdated.
Arguments InRight {L R} r outdated.
Arguments InPunct {L R} p.

(** ** std::unordered_multimap *)

Section multimap.
Context {K A : Type} `{EqDecision K} `{EqDecision A}.

Definition equal_range (k : K) (t : list (K * A)) : list A := snd <$> filter (fun e => e.1 = k) t.

(** [elementsEqual] compares all attributes *)
Definition elementsEqual (x y : A) : bool := bool_decide (x = y).

(** the loop over the equal range that erases the equal elements *)
Fixpoint erase_equal (k : K) (x : A) (t : list (K * A)) : list (K * A) :=
  match t with
  | [] => []
  | (k', y) :: rest =>
      if decide (k' = k) then
        if elementsEqual x y then erase_equal k x rest else (k', y) :: erase_equal k x rest
      else (k', y) :: erase_equal k x rest
  end.

Definition updateHashTable (key : K) (newElement : A) (outdated : bool) (hashTable : list (K * A)) : list (K * A) :=
  if outdated then erase_equal key newElement hashTable else hashTable ++ [(key, newElement)].
End multimap.

(** ** SHJoin *)

Section SHJoin.
Context {K L R O : Type} `{EqDecision K} `{EqDecision L} `{EqDecision R}.
Variables (mLKeyExtractor : L -> K) (mRKeyExtractor : R -> K)
  (mJoinPredicate : L -> R -> bool) (joinElements : L -> R -> O).

Record SHJoin := mkSHJoin { mLTable : list (K * L); mRTable : list (K * R) }.

Definition SHJoin_new : SHJoin := mkSHJoin [] [].

Definition joinTuples (left : L) (right : R) (outdated : bool) : list (event O) :=
  if mJoinPredicate left right then [Data (joinElements left right) outdated] else [].

Definition processLeftDataElement (left : L) (outdated : bool) (s : SHJoin) : list (event O) * SHJoin :=
  let keyval := mLKeyExtractor left in
  (equal_range keyval (mRTable s) ≫= (fun right => joinTuples left right outdated),
   mkSHJoin (updateHashTable keyval left outdated (mLTable s)) (mRTable s)).

Definition processRightDataElement (right : R) (outdated : bool) (s : SHJoin) : list (event O) * SHJoin :=
  let keyval := mRKeyExtractor right in
  (equal_range keyval (mLTable s) ≫= (fun left => joinTuples left right outdated),
   mkSHJoin (mLTable s) (updateHashTable keyval right outdated (mRTable s))).

Definition processPunctuation (p : PType) (s : SHJoin) : list (event O) * SHJoin := ([Punct p], s).

Definition shjoin_step (i : input L R) (s : SHJoin) : list (event O) * SHJoin :=
  match i with
  | InLeft l o => processLeftDataElement l o s
  | InRight r o => processRightDataElement r o s
  | InPunct p => processPunctuation p s
  end.

(** ** What a join promises: the windows and the joined pairs *)

Definition windows : Type := list L * list R.

(** the elements added and not retracted so far *)
Definition window_step (i : input L R) (w : windows) : windows :=
  match i with
  | InLeft l false => (w.1 ++ [l], w.2)
  | InLeft l true => (filter (fun x => x <> l) w.1, w.2)
  | InRight r false => (w.1, w.2 ++ [r])
  | InRight r true => (w.1, filter (fun x => x <> r) w.2)
  | InPunct _ => w
  end.

(** added elements are new to their window, retracted ones are in it *)
Definition admissible (i : input L R) (w : windows) : Prop :=
  match i with
  | InLeft l false => l ∉ w.1
  | InLeft l true => l ∈ w.1
  | InRight r false => r ∉ w.2
  | InRight r true => r ∈ w.2
  | InPunct _ => True
  end.

Definition match_pair (l : L) (r : R) : list O :=
  if decide (mLKeyExtractor l = mRKeyExtractor r) then
    if mJoinPredicate l r then [joinElements l r] else []
  else [].

Definition join_of (w : windows) : list O := w.1 ≫= (fun l => w.2 ≫= match_pair l).

(** a list of inputs, each admissible when it arrives *)
Fixpoint well_fed (ok : input L R -> windows -> Prop) (h : list (input L R)) (w : windows) : Prop :=
  match h with
  | [] => True
  | i :: h => ok i w /\ well_fed ok h (window_step i w)
  end.

Definition windows_of (h : list (input L R)) (w : windows) : windows := fold_left (fun w i => window_step i w) h w.
End SHJoin.

Arguments mkSHJoin {K L R} mLTable mRTable.
Arguments mLTable {K L R} s.
Arguments mRTable {K L R} s.

(** an operator whose handlers cannot fail, run over a list of inputs *)
Fixpoint run_all {I O S : Type} (step : I -> S -> list O * S) (h : list I) (s : S) : list O * S :=
  match h with
  | [] => ([], s)
  | i :: h => let '(o, s) := step i s in let '(o', s) := run_all step h s in (o ++ o', s)
  end.

(** ** Bags of results *)

Section bags.
Context {A C : Type}.
Implicit Types (xs : list A).

Lemma bind_all_nil (f : A -> list C) xs : (forall x, x ∈ xs -> f x = []) -> xs ≫= f = [].
Proof.
  induction xs as [|x xs IH]; intros H; [done|]. rewrite bind_cons, H by set_solver. apply IH. set_solver.
Qed.

Lemma bind_perm (f g : A -> list C) xs : (forall x, x ∈ xs -> f x ≡ₚ g x) -> xs ≫= f ≡ₚ xs ≫= g.
Proof.
  induction xs as [|x xs IH]; intros H; [done|]. rewrite !bind_cons, H, IH by set_solver. done.
Qed.

Lemma bind_split (f g : A -> list C) xs : xs ≫= (fun x => f x ++ g x) ≡ₚ (xs ≫= f) ++ (xs ≫= g).
Proof.
  induction xs as [|x xs IH]; [done|]. rewrite !bind_cons, IH.
  rewrite <- !app_assoc. apply Permutation_app_head. rewrite !app_assoc. apply Permutation_app_tail, Permutation_app_comm.
Qed.

(** a duplicate-free list is any of its elements and the others *)
Lemma split_off `{EqDecision A} x xs : NoDup xs -> x ∈ xs -> xs ≡ₚ filter (fun y => y <> x) xs ++ [x].
Proof.
  induction xs as [|y xs IH]; intros Hnd Hx; [set_solver|]. apply NoDup_cons in Hnd as [Hy Hnd].
  destruct (decide (y = x)) as [->|Hne].
  - rewrite filter_cons_False by (intros H; by apply H). rewrite filter_all; [apply Permutation_cons_append|].
    intros z Hz ->. done.
  - rewrite filter_cons_True by done. cbn [app]. constructor. apply IH; [done|set_solver].
Qed.
End bags.

(** the pairs can be enumerated from either side *)
Lemma bind_swap {A B C} (f : A -> B -> list C) (xs : list A) (ys : list B) :
  xs ≫= (fun x => ys ≫= f x) ≡ₚ ys ≫= (fun y => xs ≫= (fun x => f x y)).
Proof.
  induction xs as [|x xs IH].
  - symmetry. rewrite (bind_all_nil _ ys); done.
  - rewrite bind_cons, IH, <- bind_split. done.
Qed.

Section tables.
Context {K A : Type} `{EqDecision K} `{EqDecision A} (key : A -> K).

(** a table that holds exactly the elements [xs] under their keys *)
Definition keyed (xs : list A) : list (K * A) := (fun x => (key x, x)) <$> xs.

Lemma equal_range_keyed k xs : equal_range k (keyed xs) = filter (fun x => key x = k) xs.
Proof.
  unfold equal_range, keyed. induction xs as [|x xs IH]; [done|].
  rewrite fmap_cons, !filter_cons. cbn [fst]. case_decide; [rewrite fmap_cons|]; by rewrite IH.
Qed.

Lemma keyed_bind xs : keyed xs = xs ≫= (fun x => [(key x, x)]).
Proof. unfold keyed. induction xs as [|x xs IH]; [done|]. by rewrite fmap_cons, bind_cons, IH. Qed.

Lemma keyed_app xs ys : keyed (xs ++ ys) = keyed xs ++ keyed ys.
Proof. apply fmap_app. Qed.

Lemma erase_keyed x xs : erase_equal (key x) x (keyed xs) = keyed (filter (fun y => y <> x) xs).
Proof.
  unfold keyed. induction xs as [|y xs IH]; [done|]. rewrite fmap_cons. cbn [erase_equal]. unfold elementsEqual.
  destruct (decide (y = x)) as [->|Hne].
  - rewrite decide_True, bool_decide_true, filter_cons_False by (done || intros H; by apply H). done.
  - rewrite filter_cons_True, fmap_cons, IH by done. case_decide; [|done]. by rewrite bool_decide_false.
Qed.

Lemma updateHashTable_keyed x o xs :
  updateHashTable (key x) x o (keyed xs) = keyed (if o then filter (fun y => y <> x) xs else xs ++ [x]).
Proof. destruct o; cbn [updateHashTable]; [apply erase_keyed|]. by rewrite keyed_app. Qed.

(** joining an element with the equal range of its key *)
Lemma range_join {B} (f : A -> list B) k xs :
  equal_range k (keyed xs) ≫= f = xs ≫= (fun x => if decide (k = key x) then f x else []).
Proof.
  rewrite equal_range_keyed. induction xs as [|x xs IH]; [done|]. rewrite filter_cons, bind_cons.
  destruct (decide (key x = k)) as [<-|Hne].
  - rewrite decide_True, bind_cons, IH by done. done.
  - rewrite IH. by rewrite (decide_False (P := k = key x)) by congruence.
Qed.
End tables.

(** ** The net result of an output stream *)

(** the published elements that are still valid: [out] is worth [xs] *)
Definition net {O} (out : list (event O)) (xs : list O) : Prop := valids out ≡ₚ outdateds out ++ xs.

Section join_outputs.
Context {K L R O : Type} `{EqDecision K} `{EqDecision L} `{EqDecision R}.
Variables (lk : L -> K) (rk : R -> K) (pr : L -> R -> bool) (jn : L -> R -> O).

Abbreviation pairs := (match_pair lk rk pr jn).
Abbreviation joined := (join_of lk rk pr jn).

(** the data elements [xs], all with the flag [o] *)
Definition flagged (o : bool) (xs : list O) : list (event O) := (fun x => Data x o) <$> xs.

Lemma flagged_app o xs ys : flagged o (xs ++ ys) = flagged o xs ++ flagged o ys.
Proof. apply fmap_app. Qed.

Lemma valids_flagged o xs : valids (flagged o xs) = if o then [] else xs.
Proof. unfold flagged. induction xs as [|x xs IH]; [by destruct o|]. rewrite fmap_cons. destruct o; cbn; by rewrite IH. Qed.

Lemma outdateds_flagged o xs : outdateds (flagged o xs) = if o then xs else [].
Proof. unfold flagged. induction xs as [|x xs IH]; [by destruct o|]. rewrite fmap_cons. destruct o; cbn; by rewrite IH. Qed.

Lemma flagged_bind {A} o (f : A -> list O) xs : flagged o (xs ≫= f) = xs ≫= (fun x => flagged o (f x)).
Proof. induction xs as [|x xs IH]; [done|]. by rewrite !bind_cons, flagged_app, IH. Qed.

Lemma joinTuples_flagged l r o :
  (if decide (lk l = rk r) then joinTuples pr jn l r o else []) = flagged o (pairs l r).
Proof. unfold joinTuples, match_pair, flagged. case_decide; [|done]. by destruct (pr l r). Qed.

(** the outputs of the two handlers, for tables that hold the windows *)
Lemma left_output l o WL WR :
  processLeftDataElement lk pr jn l o (mkSHJoin (keyed lk WL) (keyed rk WR)) =
    (flagged o (WR ≫= pairs l), mkSHJoin (keyed lk (if o then filter (fun x => x <> l) WL else WL ++ [l])) (keyed rk WR)).
Proof.
  unfold processLeftDataElement. cbn [mLTable mRTable]. rewrite updateHashTable_keyed, range_join, flagged_bind.
  f_equal. apply list_bind_ext; [|done]. intros r. apply joinTuples_flagged.
Qed.

Lemma right_output r o WL WR :
  processRightDataElement rk pr jn r o (mkSHJoin (keyed lk WL) (keyed rk WR)) =
    (flagged o (WL ≫= (fun l => pairs l r)), mkSHJoin (keyed lk WL) (keyed rk (if o then filter (fun x => x <> r) WR else WR ++ [r]))).
Proof.
  unfold processRightDataElement. cbn [mLTable mRTable]. rewrite updateHashTable_keyed, range_join, flagged_bind.
  f_equal. apply list_bind_ext; [|done]. intros l. rewrite <- joinTuples_flagged. by repeat case_decide.
Qed.

(** ** How one element changes the join of the windows *)
Lemma join_add_left l WL WR : joined (WL ++ [l], WR) = joined (WL, WR) ++ (WR ≫= pairs l).
Proof. unfold join_of. cbn [fst snd]. rewrite bind_app, bind_cons. cbn [mbind list_bind]. by rewrite app_nil_r. Qed.

Lemma join_add_right r WL WR : joined (WL, WR ++ [r]) ≡ₚ joined (WL, WR) ++ (WL ≫= (fun l => pairs l r)).
Proof.
  unfold join_of. cbn [fst snd]. rewrite <- bind_split. apply bind_perm. intros l _.
  rewrite bind_app, bind_cons. cbn [mbind list_bind]. by rewrite app_nil_r.
Qed.

#[global] Instance join_of_perm WR : Proper (Permutation ==> Permutation) (fun WL => joined (WL, WR)).
Proof. intros WL WL' H. unfold join_of. cbn [fst snd]. by rewrite H. Qed.

Lemma join_drop_left l WL WR : NoDup WL -> l ∈ WL ->
  joined (WL, WR) ≡ₚ joined (filter (fun x => x <> l) WL, WR) ++ (WR ≫= pairs l).
Proof.
  intros Hnd Hl. rewrite <- join_add_left. unfold join_of. cbn [fst snd].
  apply bind_Permutation. by apply split_off.
Qed.

Lemma join_drop_right r WL WR : NoDup WR -> r ∈ WR ->
  joined (WL, WR) ≡ₚ joined (WL, filter (fun x => x <> r) WR) ++ (WL ≫= (fun l => pairs l r)).
Proof.
  intros Hnd Hr. rewrite <- join_add_right. unfold join_of. cbn [fst snd].
  apply bind_perm. intros l _. apply bind_Permutation. by apply split_off.
Qed.
End join_outputs.

(** ** ScaleJoin

    Every instance receives all elements of both inputs; an instance stores
    (and erases) only every [mThreadnum]-th, starting with the one of its id. *)

(** [updateHashTable] takes its key as the [int] type [key_t] *)
Definition as_key_t (k : Z) : Z := u64 (s32 k).

Section ScaleJoin.
Context {L R O : Type} `{EqDecision L} `{EqDecision R}.
Variables (mLKeyExtractor : L -> Z) (mRKeyExtractor : R -> Z)
  (mJoinPredicate : L -> R -> bool) (joinElements : L -> R -> O).

Record ScaleJoin := mkScale {
  sc_LTable : list (Z * L); sc_RTable : list (Z * R);
  mLCntr : Z; mRCntr : Z; mLOCntr : Z; mROCntr : Z;
}.

Definition ScaleJoin_new : ScaleJoin := mkScale [] [] 0 0 0 0.

(** [cntr++; cntr %= mThreadnum] on a [short] *)
Definition next_cntr (mThreadnum cntr : Z) : Z := s16 (Z.rem (s16 (cntr + 1)) mThreadnum).

Definition store {A} `{EqDecision A} (mine : bool) (key : Z) (x : A) (outdated : bool) (t : list (Z * A)) : list (Z * A) :=
  if mine then updateHashTable (as_key_t key) x outdated t else t.

Definition scale_processLeft (mID mThreadnum : Z) (left : L) (outdated : bool) (s : ScaleJoin) : list (event O) * ScaleJoin :=
  let keyval := mLKeyExtractor left in
  let s' :=
    if outdated then
      mkScale (store (mLOCntr s =? mID) keyval left outdated (sc_LTable s)) (sc_RTable s)
        (mLCntr s) (mRCntr s) (next_cntr mThreadnum (mLOCntr s)) (mROCntr s)
    else
      mkScale (store (mLCntr s =? mID) keyval left outdated (sc_LTable s)) (sc_RTable s)
        (next_cntr mThreadnum (mLCntr s)) (mRCntr s) (mLOCntr s) (mROCntr s) in
  (equal_range keyval (sc_RTable s') ≫= (fun right => joinTuples mJoinPredicate joinElements left right outdated), s').

Definition scale_processRight (mID mThreadnum : Z) (right : R) (outdated : bool) (s : ScaleJoin) : list (event O) * ScaleJoin :=
  let keyval := mRKeyExtractor right in
  let s' :=
    if outdated then
      mkScale (sc_LTable s) (store (mROCntr s =? mID) keyval right outdated (sc_RTable s))
        (mLCntr s) (mRCntr s) (mLOCntr s) (next_cntr mThreadnum (mROCntr s))
    else
      mkScale (sc_LTable s) (store (mRCntr s =? mID) keyval right outdated (sc_RTable s))
        (mLCntr s) (next_cntr mThreadnum (mRCntr s)) (mLOCntr s) (mROCntr s) in
  (equal_range keyval (sc_LTable s') ≫= (fun left => joinTuples mJoinPredicate joinElements left right outdated), s').

Definition scale_step (mID mThreadnum : Z) (i : input L R) (s : ScaleJoin) : list (event O) * ScaleJoin :=
  match i with
  | InLeft l o => scale_processLeft mID mThreadnum l o s
  | InRight r o => scale_processRight mID mThreadnum r o s
  | InPunct p => ([Punct p], s)
  end.

(** retractions that follow the order of arrival, as those of a window do *)
Definition in_order (i : input L R) (w : windows) : Prop :=
  match i with
  | InLeft l true => head w.1 = Some l
  | InRight r true => head w.2 = Some r
  | _ => admissible i w
  end.

(** *** The wiring of [Pipe::scaleJoin]

    The left publisher is linked to one [Queue] per instance, which the
    queue's own thread empties into the left input of its instance; the right
    publisher is linked to the instances themselves and calls them one after
    the other.  The schedule says which thread goes on: the left publisher
    ([PushLeft]: one queue gets the current element), the right publisher
    ([PublishRight]: one instance handles the current element) or the thread
    of queue [i] ([Dequeue i]).  A call of a handler is one step. *)
Inductive scale_action := PushLeft | PublishRight | Dequeue (i : nat).

Record scale_net := mkNet {
  net_left : list (event L);  net_pushed : nat;      (** the left stream, current element first, and how many queues have that one *)
  net_right : list (event R); net_delivered : nat;   (** likewise for the right stream and the instances *)
  net_queues : list (list (event L));                (** [scQueueVec] *)
  net_joins : list ScaleJoin;                        (** [scJoinVec] *)
}.

Definition net_start (ls : list (event L)) (rs : list (event R)) (threadnum : nat) : scale_net :=
  mkNet ls 0 rs 0 (replicate threadnum []) (replicate threadnum ScaleJoin_new).

(** a publisher moves to its next element when all [n] subscribers have this one *)
Definition advance {A} (n pos : nat) (stream : list A) : list A * nat :=
  if (S pos =? n)%nat then (tail stream, 0%nat) else (stream, S pos).

Definition left_input (e : event L) : input L R := match e with Data l o => InLeft l o | Punct p => InPunct p end.
Definition right_input (e : event R) : input L R := match e with Data r o => InRight r o | Punct p => InPunct p end.

(** instance [i] handles an input: the step is logged, the results go to the
    combining queue *)
Definition net_deliver (i : nat) (x : input L R) (js : list ScaleJoin) : (list (nat * input L R) * list (event O)) * list ScaleJoin :=
  match js !! i with
  | Some j => let '(out, j') := scale_step (Z.of_nat i) (Z.of_nat (length js)) x j in (([(i, x)], out), <[i := j']> js)
  | None => (([], []), js)
  end.

Definition net_act (a : scale_action) (s : scale_net) : (list (nat * input L R) * list (event O)) * scale_net :=
  let n := length (net_joins s) in
  match a with
  | PushLeft =>
      match net_left s with
      | [] => (([], []), s)
      | e :: _ =>
          let '(ls, k) := advance n (net_pushed s) (net_left s) in
          (([], []), mkNet ls k (net_right s) (net_delivered s) (alter (fun q => q ++ [e]) (net_pushed s) (net_queues s)) (net_joins s))
      end
  | PublishRight =>
      match net_right s with
      | [] => (([], []), s)
      | e :: _ =>
          let '(rs, k) := advance n (net_delivered s) (net_right s) in
          let '(lo, js) := net_deliver (net_delivered s) (right_input e) (net_joins s) in
          (lo, mkNet (net_left s) (net_pushed s) rs k (net_queues s) js)
      end
  | Dequeue i =>
      match net_queues s !! i with
      | Some (e :: q) =>
          let '(lo, js) := net_deliver i (left_input e) (net_joins s) in
          (lo, mkNet (net_left s) (net_pushed s) (net_right s) (net_delivered s) (<[i := q]> (net_queues s)) js)
      | _ => (([], []), s)
      end
  end.

(** a schedule: what the instances handle, what reaches the combining queue,
    and the state *)
Fixpoint net_run (acts : list scale_action) (s : scale_net) : (list (nat * input L R) * list (event O)) * scale_net :=
  match acts with
  | [] => (([], []), s)
  | a :: acts =>
      let '((log, out), s) := net_act a s in
      let '((log', out'), s) := net_run acts s in
      ((log ++ log', out ++ out'), s)
  end.

(** what instance [i] handles, in its order *)
Definition net_view (i : nat) (log : list (nat * input L R)) : list (input L R) := snd <$> filter (fun e => e.1 = i) log.

(** a view as events of the left (of the right) side *)
Definition lefts_of (h : list (input L R)) : list (L * bool) := omap (fun x => match x with InLeft l o => Some (l, o) | _ => None end) h.
Definition rights_of (h : list (input L R)) : list (R * bool) := omap (fun x => match x with InRight r o => Some (r, o) | _ => None end) h.
Definition data_of {A} (es : list (event A)) : list (A * bool) := omap (fun e => match e with Data x o => Some (x, o) | Punct _ => None end) es.

Definition net_finished (s : scale_net) : Prop := net_left s = [] /\ net_right s = [] /\ Forall (fun q => q = []) (net_queues s).
End ScaleJoin.

Arguments mkNet {L R} _ _ _ _ _ _.
Arguments net_left {L R} s.
Arguments net_pushed {L R} s.
Arguments net_right {L R} s.
Arguments net_delivered {L R} s.
Arguments net_queues {L R} s.
Arguments net_joins {L R} s.

Arguments mkScale {L R} sc_LTable sc_RTable mLCntr mRCntr mLOCntr mROCntr.
Arguments sc_LTable {L R} s.
Arguments sc_RTable {L R} s.
Arguments mLCntr {L R} s.
Arguments mRCntr {L R} s.
Arguments mLOCntr {L R} s.
Arguments mROCntr {L R} s.

(** ** Properties of SHJoin *)

Section shjoin_properties.
Context {K L R O : Type} `{EqDecision K} `{EqDecision L} `{EqDecision R}.
Variables (lk : L -> K) (rk : R -> K) (pr : L -> R -> bool) (jn : L -> R -> O).

Abbreviation step := (shjoin_step lk rk pr jn).
Abbreviation joined := (join_of lk rk pr jn).

(** the state for given windows *)
Definition holding (w : windows) : SHJoin := mkSHJoin (keyed lk w.1) (keyed rk w.2).

Definition distinct (w : windows (L := L) (R := R)) : Prop := NoDup w.1 /\ NoDup w.2.

Lemma NoDup_snoc {A} (x : A) xs : NoDup xs -> x ∉ xs -> NoDup (xs ++ [x]).
Proof. intros Hnd Hx. apply NoDup_app. split; [done|]. split; [set_solver|]. apply NoDup_singleton. Qed.

Lemma window_step_distinct (i : input L R) w : distinct w -> admissible i w -> distinct (window_step i w).
Proof.
  destruct w as [WL WR], i as [l []|r []|p]; intros [Hl Hr] Ha; split; cbn in *;
    done || (by apply NoDup_filter) || (by apply NoDup_snoc).
Qed.

Lemma shjoin_step_spec (i : input L R) w : distinct w -> admissible i w ->
  exists o, step i (holding w) = (o, holding (window_step i w)) /\
    joined w ++ valids o ≡ₚ outdateds o ++ joined (window_step i w).
Proof.
  destruct w as [WL WR], i as [l o|r o|p]; intros [Hl Hr] Ha; unfold holding; cbn [shjoin_step fst snd].
  - rewrite left_output. eexists. split; [by destruct o|]. rewrite valids_flagged, outdateds_flagged.
    destruct o; cbn [window_step fst snd app].
    + rewrite app_nil_r, join_drop_left by done. apply Permutation_app_comm.
    + by rewrite join_add_left.
  - rewrite right_output. eexists. split; [by destruct o|]. rewrite valids_flagged, outdateds_flagged.
    destruct o; cbn [window_step fst snd app].
    + rewrite app_nil_r, join_drop_right by done. apply Permutation_app_comm.
    + by rewrite join_add_right.
  - eexists. split; [done|]. cbn. by rewrite app_nil_r.
Qed.

Lemma shjoin_run (h : list (input L R)) w : distinct w -> well_fed admissible h w ->
  exists o, run_all step h (holding w) = (o, holding (windows_of h w)) /\
    joined w ++ valids o ≡ₚ outdateds o ++ joined (windows_of h w).
Proof.
  revert w. induction h as [|i h IH]; intros w Hd Hf; [exists []; split; [done|]; cbn; by rewrite app_nil_r|].
  destruct Hf as [Ha Hf]. destruct (shjoin_step_spec i w Hd Ha) as (o1 & Hs & Hn).
  destruct (IH (window_step i w)) as (o2 & Hr & Hn2); [by apply window_step_distinct|done|].
  exists (o1 ++ o2). cbn [run_all]. rewrite Hs, Hr. split; [done|].
  rewrite valids_app, outdateds_app, app_assoc, Hn, <- app_assoc, Hn2. by rewrite app_assoc.
Qed.

(** C15: the symmetric hash join maintains the join of its windows.  For any
    interleaving of additions and retractions on both sides, as long as an
    added element is not already in its window and a retracted one is, the
    results published and not retracted are exactly (as a bag) the pairs of
    the current windows with equal keys that satisfy the predicate.  With
    equal elements in a window this is lost: retracting one copy erases all,
    and retracting the other retracts a result that was never published. *)
Theorem shjoin_incremental (h : list (input L R)) (Hfed : well_fed admissible h ([], [])) :
  (exists out, run_all step h SHJoin_new = (out, holding (windows_of h ([], []))) /\
     valids out ≡ₚ outdateds out ++ joined (windows_of h ([], []))) /\
  forall l r, lk l = rk r -> pr l r = true ->
    (run_all step [InLeft l false; InLeft l false; InLeft l true; InRight r false; InLeft l true] SHJoin_new).1
      = [Data (jn l r) true].
Proof.
  split.
  - destruct (shjoin_run h ([], [])) as (o & Hr & Hn); [by split; constructor|done|].
    exists o. split; [done|]. by rewrite <- Hn.
  - intros l r Hk Hp. unfold run_all, shjoin_step, processLeftDataElement, processRightDataElement, equal_range, SHJoin_new.
    cbn. unfold elementsEqual. rewrite !bool_decide_true by done. rewrite !decide_True by done. cbn.
    unfold joinTuples. by rewrite Hp.
Qed.
End shjoin_properties.

(** ** Distributing a window over the instances *)

(** the elements of a window at the positions [p] with [(b + p) mod n = i] *)
Fixpoint share {A} (n i b : nat) (xs : list A) : list A :=
  match xs with
  | [] => []
  | x :: xs => if decide (b `mod` n = i)%nat then x :: share n i (S b) xs else share n i (S b) xs
  end.

Lemma share_snoc {A} n i b (xs : list A) x :
  share n i b (xs ++ [x]) = share n i b xs ++ (if decide ((b + length xs) `mod` n = i)%nat then [x] else []).
Proof.
  revert b. induction xs as [|y xs IH]; intros b; cbn [app share length].
  - by rewrite Nat.add_0_r.
  - rewrite IH. replace (S b + length xs)%nat with (b + S (length xs))%nat by lia. by case_decide.
Qed.

Lemma share_elem {A} n i b (xs : list A) x : x ∈ share n i b xs -> x ∈ xs.
Proof.
  revert b. induction xs as [|y xs IH]; intros b; cbn [share]; [done|].
  specialize (IH (S b)). case_decide; set_solver.
Qed.

Lemma seq_pick {C} n j (xs : list C) : (j < n)%nat ->
  seq 0 n ≫= (fun i => if decide (j = i) then xs else []) = xs.
Proof.
  intros Hj. replace n with (j + S (n - S j))%nat by lia. rewrite seq_app, bind_app.
  rewrite bind_all_nil by (intros i Hi%elem_of_seq; rewrite decide_False; [done|lia]).
  cbn [seq app]. rewrite bind_cons, decide_True by lia.
  rewrite (bind_all_nil _ (seq _ _)) by (intros i Hi%elem_of_seq; rewrite decide_False; [done|lia]).
  by rewrite app_nil_r.
Qed.

(** together the shares are the window *)
Lemma shares_all {A C} (f : A -> list C) n b (xs : list A) : (0 < n)%nat ->
  seq 0 n ≫= (fun i => share n i b xs ≫= f) ≡ₚ xs ≫= f.
Proof.
  intros Hn. revert b. induction xs as [|x xs IH]; intros b; [cbn; by rewrite bind_all_nil|].
  rewrite bind_cons, <- (IH (S b)). rewrite <- (seq_pick n (b `mod` n) (f x)) by (apply Nat.mod_upper_bound; lia).
  rewrite <- bind_split. apply bind_perm. intros i _. cbn [share]. case_decide; [by rewrite bind_cons|done].
Qed.

(** ** The instances of ScaleJoin against SHJoin *)

Lemma as_key_t_small k : 0 <= k < 2^31 -> as_key_t k = k.
Proof. intros H. unfold as_key_t. rewrite s32_small by word_lia. apply u64_small. unfold is_u64. lia. Qed.

Lemma next_cntr_mod (n j : nat) : (0 < n)%nat -> Z.of_nat n < 2^15 ->
  next_cntr (Z.of_nat n) (Z.of_nat (j `mod` n)) = Z.of_nat (S j `mod` n).
Proof.
  intros Hn Hb. pose proof (Nat.mod_upper_bound j n ltac:(lia)) as Hj.
  unfold next_cntr. rewrite (s16_small (_ + 1)) by lia. rewrite Z.rem_mod_nonneg by lia.
  replace (Z.of_nat (j `mod` n) + 1) with (Z.of_nat (S (j `mod` n))) by lia. rewrite <- Nat2Z.inj_mod.
  rewrite s16_small by (pose proof (Nat.mod_upper_bound (S (j `mod` n)) n ltac:(lia)); lia).
  f_equal. rewrite <- (Nat.add_1_r (j `mod` n)), <- (Nat.add_1_r j). apply Nat.Div0.add_mod_idemp_l.
Qed.

Section stores.
Context {A : Type} `{EqDecision A} (key : A -> Z) (n i : nat).

Lemma store_add b xs x : 0 <= key x < 2^31 ->
  store (Z.of_nat ((b + length xs) `mod` n) =? Z.of_nat i) (key x) x false (keyed key (share n i b xs)) =
    keyed key (share n i b (xs ++ [x])).
Proof.
  intros Hk. unfold store. rewrite as_key_t_small, updateHashTable_keyed, share_snoc by done.
  case_decide; destruct (Z.eqb_spec (Z.of_nat ((b + length xs) `mod` n)) (Z.of_nat i)); try lia; [done|].
  by rewrite app_nil_r.
Qed.

Lemma store_drop b xs x : 0 <= key x < 2^31 -> x ∉ xs ->
  store (Z.of_nat (b `mod` n) =? Z.of_nat i) (key x) x true (keyed key (share n i b (x :: xs))) =
    keyed key (share n i (S b) xs).
Proof.
  intros Hk Hx. unfold store. rewrite as_key_t_small, updateHashTable_keyed by done. cbn [share].
  case_decide; destruct (Z.eqb_spec (Z.of_nat (b `mod` n)) (Z.of_nat i)); try lia; [|done].
  rewrite filter_cons_False by (intros H'; by apply H'). f_equal. apply filter_all. intros y Hy ->. by apply share_elem in Hy.
Qed.
End stores.

(** ** The network under an arbitrary schedule *)

Section network_properties.
Context {L R O : Type} `{EqDecision L} `{EqDecision R}.
Variables (lk : L -> Z) (rk : R -> Z) (pr : L -> R -> bool) (jn : L -> R -> O).

Abbreviation instance i n := (scale_step lk rk pr jn (Z.of_nat i) (Z.of_nat n)).
Abbreviation act := (net_act lk rk pr jn).
Abbreviation run := (net_run lk rk pr jn).

(** all instances handle the same input before any handles the next one *)
Definition lockstep (i : input L R) (js : list (ScaleJoin (L := L) (R := R))) : list (event O) * list ScaleJoin :=
  let rs := imap (fun id j => instance id (length js) i j) js in
  (concat (rs.*1), rs.*2).

(** instances that handle inputs of their own: what they publish and become *)
Definition apart (n : nat) (hs : nat -> list (input L R)) (js : list (ScaleJoin (L := L) (R := R))) : list (list (event O) * ScaleJoin) :=
  imap (fun i j => run_all (instance i n) (hs i) j) js.

Lemma net_view_app i (l1 l2 : list (nat * input L R)) : net_view i (l1 ++ l2) = net_view i l1 ++ net_view i l2.
Proof. unfold net_view. by rewrite filter_app, fmap_app. Qed.

Lemma net_view_one i k (x : input L R) : net_view i [(k, x)] = if decide (k = i) then [x] else [].
Proof. unfold net_view. rewrite filter_cons. cbn. by case_decide. Qed.

Lemma imap_insert {A B} (f : nat -> A -> B) (xs : list A) k x : imap f (<[k := x]> xs) = <[k := f k x]> (imap f xs).
Proof.
  apply list_eq. intros i. rewrite list_lookup_imap.
  destruct (decide (i = k)) as [->|Hi].
  - destruct (decide (k < length xs)%nat) as [Hk|Hk].
    + rewrite !list_lookup_insert_eq by (rewrite ?length_imap; done). done.
    + rewrite !list_insert_ge by (rewrite ?length_imap; lia). by rewrite list_lookup_imap.
  - rewrite !list_lookup_insert_ne by congruence. by rewrite list_lookup_imap.
Qed.

(** one instance goes ahead with an input of its own *)
Lemma apart_deliver n (hs hs' : nat -> list (input L R)) js k x log out js' :
  n = length js -> net_deliver lk rk pr jn k x js = ((log, out), js') ->
  (forall i, hs' i = net_view i log ++ hs i) ->
  length js' = length js /\ (snd <$> apart n hs' js) = (snd <$> apart n hs js') /\ concat (fst <$> apart n hs' js) ≡ₚ out ++ concat (fst <$> apart n hs js').
Proof.
  intros -> Hd Hv. unfold net_deliver in Hd. destruct (js !! k) as [j|] eqn:Hj.
  - destruct (instance k (length js) x j) as [o j'] eqn:Hs. injection Hd as <- <- <-.
    rewrite length_insert. split; [done|]. unfold apart. rewrite imap_insert.
    set (m := imap (fun i j0 => run_all (instance i (length js)) (hs i) j0) js).
    set (v := run_all (instance k (length js)) (hs k) j').
    assert (imap (fun i j0 => run_all (instance i (length js)) (hs' i) j0) js = <[k := (o ++ v.1, v.2)]> m) as ->.
    { apply list_eq. intros i. rewrite list_lookup_imap. destruct (decide (i = k)) as [->|Hi].
      - rewrite list_lookup_insert_eq by (unfold m; rewrite length_imap; by eapply lookup_lt_Some).
        rewrite Hj, Hv, net_view_one, decide_True by done. cbn [fmap option_fmap option_map app run_all]. rewrite Hs.
        unfold v. by destruct (run_all _ (hs k) j').
      - rewrite list_lookup_insert_ne by congruence. unfold m. rewrite list_lookup_imap, Hv, net_view_one, decide_False by congruence. done. }
    split; [by rewrite !list_fmap_insert|]. rewrite !list_fmap_insert. cbn [fst].
    assert (k < length (fst <$> m))%nat as Hk by (unfold m; rewrite length_fmap, length_imap; by eapply lookup_lt_Some).
    rewrite !insert_take_drop by done. rewrite !concat_app. cbn [concat]. rewrite !app_assoc. do 2 f_equiv.
    apply Permutation_app_comm.
  - injection Hd as <- <- <-. split; [done|]. cbn [app].
    assert (apart (length js) hs' js = apart (length js) hs js) as ->; [|done].
    apply imap_ext. intros i j _. by rewrite Hv.
Qed.

Lemma act_apart n (hs hs' : nat -> list (input L R)) a s log out s' :
  n = length (net_joins s) -> act a s = ((log, out), s') ->
  (forall i, hs' i = net_view i log ++ hs i) ->
  length (net_joins s') = n /\ (snd <$> apart n hs' (net_joins s)) = (snd <$> apart n hs (net_joins s')) /\
  concat (fst <$> apart n hs' (net_joins s)) ≡ₚ out ++ concat (fst <$> apart n hs (net_joins s')).
Proof.
  intros Hn Ha Hv.
  assert (forall js, log = [] -> out = [] -> net_joins s' = js -> js = net_joins s ->
    length (net_joins s') = n /\ (snd <$> apart n hs' (net_joins s)) = (snd <$> apart n hs (net_joins s')) /\
    concat (fst <$> apart n hs' (net_joins s)) ≡ₚ out ++ concat (fst <$> apart n hs (net_joins s'))) as Hidle.
  { intros js -> -> -> ->. split; [done|]. assert (apart n hs' (net_joins s) = apart n hs (net_joins s)) as ->; [|done].
    apply imap_ext. intros i j _. by rewrite Hv. }
  destruct a as [| |k]; cbn [net_act] in Ha.
  - destruct (net_left s) as [|e es]; [|destruct (advance _ _ _)]; injection Ha as <- <- <-; by eapply Hidle.
  - destruct (net_right s) as [|e es]; [injection Ha as <- <- <-; by eapply Hidle|].
    destruct (advance _ _ _), (net_deliver _ _ _ _ _ _ _) as [lo js] eqn:Hd. injection Ha as -> <-. cbn [net_joins].
    destruct (apart_deliver n hs hs' _ _ _ _ _ _ Hn Hd Hv) as (Hl & H2 & H1). by rewrite Hl.
  - destruct (net_queues s !! k) as [[|e q]|]; [injection Ha as <- <- <-; by eapply Hidle| |injection Ha as <- <- <-; by eapply Hidle].
    destruct (net_deliver _ _ _ _ _ _ _) as [lo js] eqn:Hd. injection Ha as -> <-. cbn [net_joins].
    destruct (apart_deliver n hs hs' _ _ _ _ _ _ Hn Hd Hv) as (Hl & H2 & H1). by rewrite Hl.
Qed.

(** under every schedule each instance runs through its own view, and the
    combining queue gets the results of all of them *)
Lemma run_apart acts s log out s' : run acts s = ((log, out), s') ->
  let ends := apart (length (net_joins s)) (fun i => net_view i log) (net_joins s) in
  net_joins s' = (snd <$> ends) /\ out ≡ₚ concat (fst <$> ends).
Proof.
  cbv zeta. revert s log out. induction acts as [|a acts IH]; intros s log out Hr; cbn [net_run] in Hr.
  - injection Hr as <- <- <-. unfold apart. split.
    + apply list_eq. intros i. rewrite list_lookup_fmap, list_lookup_imap. by destruct (net_joins s !! i).
    + by induction (net_joins s) using rev_ind; [|rewrite imap_app, fmap_app, concat_app, <- IHl].
  - destruct (act a s) as [[log1 out1] s1] eqn:Ha, (run acts s1) as [[log2 out2] s2] eqn:Hr2. injection Hr as <- <- <-.
    destruct (act_apart _ (fun i => net_view i log2) (fun i => net_view i (log1 ++ log2)) _ _ _ _ _ eq_refl Ha) as (Hl & H2 & H1);
      [intros i; apply net_view_app|].
    destruct (IH _ _ _ Hr2) as [Hj Ho]. rewrite Hl in Hj, Ho. by rewrite Hj, <- H2, Ho, H1.
Qed.

Lemma concat_imap_app {A B} (f g : nat -> A -> list B) xs :
  concat (imap (fun i x => f i x ++ g i x) xs) ≡ₚ concat (imap f xs) ++ concat (imap g xs).
Proof.
  revert f g. induction xs as [|x xs IH]; intros f g; [done|]. cbn [imap concat].
  rewrite (IH (f ∘ S) (g ∘ S)). rewrite <- !app_assoc. f_equiv. rewrite !app_assoc. f_equiv. apply Permutation_app_comm.
Qed.

Lemma lockstep_apart h js :
  let ends := apart (length js) (fun _ => h) js in
  (run_all lockstep h js).2 = (snd <$> ends) /\ (run_all lockstep h js).1 ≡ₚ concat (fst <$> ends).
Proof.
  cbv zeta. revert js. induction h as [|x h IH]; intros js; cbn [run_all].
  - unfold apart. cbn [run_all fst snd]. split.
    + apply list_eq. intros i. rewrite list_lookup_fmap, list_lookup_imap. by destruct (js !! i).
    + by induction js using rev_ind; [|rewrite imap_app, fmap_app, concat_app, <- IHjs].
  - destruct (lockstep x js) as [o js1] eqn:Hl, (run_all lockstep h js1) as [o' js2] eqn:Hr. cbn [fst snd].
    unfold lockstep in Hl. injection Hl as <- <-. specialize (IH (snd <$> imap (fun id j => instance id (length js) x j) js)).
    rewrite Hr in IH. cbn [fst snd] in IH. destruct IH as [-> ->]. rewrite length_fmap, length_imap.
    unfold apart. rewrite !fmap_imap. cbn [run_all]. split.
    + apply list_eq. intros i. rewrite !list_lookup_imap. destruct (js !! i) as [j|]; [|done]. cbn.
      destruct (instance i (length js) x j) as [a b]. cbn. by destruct (run_all _ h b).
    + etransitivity.
      2: { apply Permutation_refl'. apply (f_equal (concat (A:=_))). symmetry.
           apply (imap_ext _ (fun i j => (instance i (length js) x j).1 ++ (run_all (instance i (length js)) h (instance i (length js) x j).2).1)).
           intros i j _. cbn. destruct (instance i (length js) x j) as [a b]. cbn. by destruct (run_all _ h b). }
      rewrite concat_imap_app. apply Permutation_app_head. apply Permutation_refl'. apply (f_equal (concat (A:=_))). apply list_eq. intros i.
      rewrite !list_lookup_imap. by destruct (js !! i).
Qed.

(** *** What every instance gets *)
Definition net_wf (n : nat) (s : scale_net (L := L) (R := R)) : Prop :=
  length (net_joins s) = n /\ length (net_queues s) = n /\ (net_pushed s < n)%nat /\ (net_delivered s < n)%nat.

(** what a subscriber of a publisher still has to get *)
Definition pending {A} (i pos : nat) (stream : list A) : list A := if (i <? pos)%nat then tail stream else stream.

Definition left_flow (i : nat) (log : list (nat * input L R)) (s : scale_net (L := L) (R := R)) : list (L * bool) :=
  lefts_of (net_view i log) ++ data_of (default [] (net_queues s !! i) ++ pending i (net_pushed s) (net_left s)).
Definition right_flow (i : nat) (log : list (nat * input L R)) (s : scale_net (L := L) (R := R)) : list (R * bool) :=
  rights_of (net_view i log) ++ data_of (pending i (net_delivered s) (net_right s)).

Lemma advance_lt {A} n pos (xs : list A) : (pos < n)%nat -> ((advance n pos xs).2 < n)%nat.
Proof. intros H. unfold advance. destruct (Nat.eqb_spec (S pos) n); cbn; lia. Qed.

Lemma pending_advance {A} i n pos e (xs : list A) : (i < n)%nat -> (pos < n)%nat ->
  pending i pos (e :: xs) = (if decide (i = pos) then [e] else []) ++ pending i (advance n pos (e :: xs)).2 (advance n pos (e :: xs)).1.
Proof.
  intros Hi Hp. unfold advance, pending. destruct (Nat.eqb_spec (S pos) n); cbn [fst snd tail].
  - destruct (Nat.ltb_spec i 0); [lia|]. case_decide; destruct (Nat.ltb_spec i pos); done || lia.
  - case_decide; destruct (Nat.ltb_spec i pos), (Nat.ltb_spec i (S pos)); done || lia.
Qed.

Lemma data_of_app {A} (xs ys : list (event A)) : data_of (xs ++ ys) = data_of xs ++ data_of ys.
Proof. apply omap_app. Qed.

Lemma deliver_view n k x js log out js' : length js = n -> (k < n)%nat ->
  net_deliver lk rk pr jn k x js = ((log, out), js') -> log = [(k, x)] /\ length js' = n.
Proof.
  intros Hn Hk Hd. unfold net_deliver in Hd. destruct (lookup_lt_is_Some_2 js k) as [j Hj]; [lia|]. rewrite Hj in Hd.
  destruct (instance k (length js) x j) as [o j']. injection Hd as <- <- <-. by rewrite length_insert.
Qed.

Lemma lefts_of_one i k (e : event L) : lefts_of (R := R) (net_view i [(k, left_input e)]) = if decide (k = i) then data_of [e] else [].
Proof. rewrite net_view_one. case_decide; [|done]. by destruct e. Qed.
Lemma rights_of_one i k (e : event R) : rights_of (L := L) (net_view i [(k, right_input e)]) = if decide (k = i) then data_of [e] else [].
Proof. rewrite net_view_one. case_decide; [|done]. by destruct e. Qed.
Lemma lefts_of_right i k (e : event R) : lefts_of (L := L) (net_view i [(k, right_input e)]) = [].
Proof. rewrite net_view_one. case_decide; [|done]. by destruct e. Qed.
Lemma rights_of_left i k (e : event L) : rights_of (R := R) (net_view i [(k, left_input e)]) = [].
Proof. rewrite net_view_one. case_decide; [|done]. by destruct e. Qed.

(** no step loses, duplicates or reorders an element on its way to an instance *)
Lemma act_flow n i a s log out s' : (i < n)%nat -> net_wf n s -> act a s = ((log, out), s') ->
  net_wf n s' /\ left_flow i log s' = left_flow i [] s /\ right_flow i log s' = right_flow i [] s.
Proof.
  intros Hi (Hj & Hq & Hp & Hd) Ha. unfold left_flow, right_flow, net_wf. destruct a as [| |k]; cbn [net_act] in Ha; rewrite ?Hj in Ha.
  - destruct s as [[|e ls] p rs d qs js]; cbn [net_left net_pushed net_right net_delivered net_queues net_joins] in *; [by injection Ha as <- <- <-|].
    pose proof (advance_lt n p (e :: ls) Hp) as Hlt. rewrite (pending_advance i n p e ls Hi Hp).
    destruct (advance n p (e :: ls)) as [ls' p']. injection Ha as <- <- <-. cbn [fst snd net_left net_pushed net_right net_delivered net_queues net_joins] in *.
    rewrite length_alter. split; [done|]. split; [|done]. cbn [app]. f_equal. f_equal. case_decide as Hip.
    + subst. destruct (lookup_lt_is_Some_2 qs p) as [q Hqi]; [lia|]. rewrite list_lookup_alter_eq, Hqi. cbn. by rewrite <- app_assoc.
    + by rewrite list_lookup_alter_ne by done.
  - destruct s as [ls p [|e rs] d qs js]; cbn [net_left net_pushed net_right net_delivered net_queues net_joins] in *; [by injection Ha as <- <- <-|].
    pose proof (advance_lt n d (e :: rs) Hd) as Hlt. rewrite (pending_advance i n d e rs Hi Hd).
    destruct (advance n d (e :: rs)) as [rs' d'], (net_deliver lk rk pr jn d (right_input e) js) as [[lg o] js'] eqn:Hdl.
    destruct (deliver_view n d _ _ _ _ _ Hj Hd Hdl) as [-> Hl]. injection Ha as <- <- <-.
    cbn [fst snd net_left net_pushed net_right net_delivered net_queues net_joins] in *. split; [done|].
    rewrite lefts_of_right, rights_of_one. split; [done|]. cbn [app]. rewrite data_of_app. repeat case_decide; done || congruence.
  - destruct s as [ls p rs d qs js]; cbn [net_left net_pushed net_right net_delivered net_queues net_joins] in *.
    destruct (qs !! k) as [[|e q]|] eqn:Hk; [by injection Ha as <- <- <-| |by injection Ha as <- <- <-].
    destruct (net_deliver lk rk pr jn k (left_input e) js) as [[lg o] js'] eqn:Hdl.
    destruct (deliver_view n k (left_input e) js lg o js' Hj) as [-> Hl]; [apply lookup_lt_Some in Hk; lia|done|]. injection Ha as <- <- <-.
    cbn [fst snd net_left net_pushed net_right net_delivered net_queues net_joins] in *. rewrite length_insert. split; [done|].
    rewrite rights_of_left, lefts_of_one. split; [|done]. case_decide as Hki.
    + subst. rewrite list_lookup_insert_eq, Hk by (by eapply lookup_lt_Some). change (default [] (Some q)) with q. change (default [] (Some (e :: q))) with ([e] ++ q). by rewrite (data_of_app ([e] ++ q)), (data_of_app [e]), (data_of_app q), app_assoc.
    + by rewrite list_lookup_insert_ne by done.
Qed.

Lemma run_flow n i acts s log out s' : (i < n)%nat -> net_wf n s -> run acts s = ((log, out), s') ->
  net_wf n s' /\ left_flow i log s' = left_flow i [] s /\ right_flow i log s' = right_flow i [] s.
Proof.
  intros Hi. revert s log out. induction acts as [|a acts IH]; intros s log out Hw Hr; cbn [net_run] in Hr.
  - by injection Hr as <- <- <-.
  - destruct (act a s) as [[log1 out1] s1] eqn:Ha, (run acts s1) as [[log2 out2] s2] eqn:Hr2. injection Hr as <- <- <-.
    destruct (act_flow n i _ _ _ _ _ Hi Hw Ha) as (Hw1 & Hl1 & Hr1), (IH _ _ _ Hw1 Hr2) as (Hw2 & Hl2 & Hr2'). split; [done|].
    rewrite <- Hl1, <- Hr1. unfold left_flow, right_flow in *. cbn [net_view] in Hl2, Hr2'.
    rewrite net_view_app. unfold lefts_of, rights_of in *. rewrite !omap_app, <- !app_assoc, Hl2, Hr2'. done.
Qed.
End network_properties.

Section scalejoin_properties.
Context {L R O : Type} `{EqDecision L} `{EqDecision R}.
Variables (lk : L -> Z) (rk : R -> Z) (pr : L -> R -> bool) (jn : L -> R -> O) (n : nat).
Hypothesis (Hn : (0 < n)%nat) (Hshort : Z.of_nat n < 2^15)
  (Hlk : forall l, 0 <= lk l < 2^31) (Hrk : forall r, 0 <= rk r < 2^31).

Abbreviation pairs := (match_pair lk rk pr jn).
Abbreviation joinstep := (shjoin_step lk rk pr jn).
Abbreviation netstep := (lockstep lk rk pr jn).

(** instance [i] when [bL] and [bR] elements have left the windows [w] *)
Definition instance_at (bL bR : nat) (w : windows) (i : nat) : ScaleJoin (L := L) (R := R) :=
  mkScale (keyed lk (share n i bL w.1)) (keyed rk (share n i bR w.2))
    (Z.of_nat ((bL + length w.1) `mod` n)) (Z.of_nat ((bR + length w.2) `mod` n))
    (Z.of_nat (bL `mod` n)) (Z.of_nat (bR `mod` n)).

(** what an input takes off the front of the windows *)
Definition left_by (i : input L R) : nat := match i with InLeft _ true => 1%nat | _ => 0%nat end.
Definition right_by (i : input L R) : nat := match i with InRight _ true => 1%nat | _ => 0%nat end.

(** what instance [i] publishes *)
Definition instance_output (x : input L R) (bL bR : nat) (w : windows) (i : nat) : list (event O) :=
  match x with
  | InLeft l o => flagged o (share n i bR w.2 ≫= pairs l)
  | InRight r o => flagged o (share n i bL w.1 ≫= (fun l => pairs l r))
  | InPunct p => [Punct p]
  end.


Lemma instance_step (x : input L R) bL bR w i :
  distinct w -> in_order x w ->
  scale_step lk rk pr jn (Z.of_nat i) (Z.of_nat n) x (instance_at bL bR w i) =
    (instance_output x bL bR w i, instance_at (bL + left_by x) (bR + right_by x) (window_step x w) i).
Proof.
  destruct w as [WL WR], x as [l o|r o|p]; intros [Hl Hr] Ha; cbn [fst snd] in *;
    unfold instance_at, instance_output, left_by, right_by; cbn [scale_step window_step fst snd];
    [| |by rewrite !Nat.add_0_r].
  - unfold scale_processLeft. cbn [sc_LTable sc_RTable mLCntr mRCntr mLOCntr mROCntr].
    destruct o; cbn [sc_LTable sc_RTable window_step fst snd].
    + cbn in Ha. destruct WL as [|l' WL]; [done|]. injection Ha as ->. apply NoDup_cons in Hl as [Hni Hl].
      rewrite store_drop, next_cntr_mod, filter_cons_False, filter_all by (done || (intros H'; by apply H') || (intros y Hy ->; done)).
      rewrite range_join, flagged_bind. rewrite !Nat.add_0_r, Nat.add_1_r. cbn [length]. f_equal.
      * apply list_bind_ext; [|done]. intros r. apply joinTuples_flagged.
      * f_equal. f_equal. f_equal. lia.
    + rewrite store_add, next_cntr_mod, range_join, flagged_bind by done. rewrite !Nat.add_0_r. f_equal.
      * apply list_bind_ext; [|done]. intros r. apply joinTuples_flagged.
      * f_equal. f_equal. f_equal. rewrite length_app. cbn [length]. lia.
  - unfold scale_processRight. cbn [sc_LTable sc_RTable mLCntr mRCntr mLOCntr mROCntr].
    destruct o; cbn [sc_LTable sc_RTable window_step fst snd].
    + cbn in Ha. destruct WR as [|r' WR]; [done|]. injection Ha as ->. apply NoDup_cons in Hr as [Hni Hr].
      rewrite store_drop, next_cntr_mod, filter_cons_False, filter_all by (done || (intros H'; by apply H') || (intros y Hy ->; done)).
      rewrite range_join, flagged_bind. rewrite !Nat.add_0_r, Nat.add_1_r. cbn [length]. f_equal.
      * apply list_bind_ext; [|done]. intros l. rewrite <- joinTuples_flagged. by repeat case_decide.
      * f_equal. f_equal. f_equal. lia.
    + rewrite store_add, next_cntr_mod, range_join, flagged_bind by done. rewrite !Nat.add_0_r. f_equal.
      * apply list_bind_ext; [|done]. intros l. rewrite <- joinTuples_flagged. by repeat case_decide.
      * f_equal. f_equal. f_equal. rewrite length_app. cbn [length]. lia.
Qed.

Definition network_at (bL bR : nat) (w : windows) : list ScaleJoin := instance_at bL bR w <$> seq 0 n.

Lemma imap_seq {A B} (f : nat -> A -> B) (g : nat -> A) m : imap f (g <$> seq 0 m) = (fun i => f i (g i)) <$> seq 0 m.
Proof.
  apply list_eq. intros i. rewrite list_lookup_imap, !list_lookup_fmap.
  destruct (decide (i < m)%nat); [by rewrite lookup_seq_lt by done|by rewrite lookup_seq_ge by lia].
Qed.

Lemma network_step (x : input L R) bL bR w : distinct w -> in_order x w ->
  netstep x (network_at bL bR w) =
    (seq 0 n ≫= instance_output x bL bR w, network_at (bL + left_by x) (bR + right_by x) (window_step x w)).
Proof.
  intros Hd Ho. unfold lockstep, network_at. rewrite length_fmap, length_seq, imap_seq. rewrite <- !list_fmap_compose. f_equal.
  - induction (seq 0 n) as [|j js IH]; [done|]. rewrite fmap_cons, bind_cons. cbn [concat compose].
    rewrite instance_step by done. by rewrite IH.
  - apply list_fmap_ext. intros _ i _. cbn. by rewrite instance_step.
Qed.

Lemma valids_bind {A B} (f : A -> list (event B)) xs : valids (xs ≫= f) = xs ≫= (fun x => valids (f x)).
Proof. induction xs as [|x xs IH]; [done|]. by rewrite !bind_cons, valids_app, IH. Qed.

Lemma outdateds_bind {A B} (f : A -> list (event B)) xs : outdateds (xs ≫= f) = xs ≫= (fun x => outdateds (f x)).
Proof. induction xs as [|x xs IH]; [done|]. by rewrite !bind_cons, outdateds_app, IH. Qed.

(** together the instances publish what the single operator does *)
Lemma flagged_shares {A} o b (xs : list A) (f : A -> list O) :
  let out := seq 0 n ≫= (fun i => flagged o (share n i b xs ≫= f)) in
  valids out ≡ₚ valids (flagged o (xs ≫= f)) /\ outdateds out ≡ₚ outdateds (flagged o (xs ≫= f)).
Proof.
  cbv zeta. rewrite <- flagged_bind, !valids_flagged, !outdateds_flagged.
  destruct o; split; by rewrite ?shares_all.
Qed.

Lemma network_output (x : input L R) bL bR w :
  let out := seq 0 n ≫= instance_output x bL bR w in
  let out' := (joinstep x (holding lk rk w)).1 in
  valids out ≡ₚ valids out' /\ outdateds out ≡ₚ outdateds out'.
Proof.
  cbv zeta. destruct x as [l o|r o|p]; unfold holding; cbn [shjoin_step fst].
  - rewrite left_output. apply flagged_shares.
  - rewrite right_output. apply flagged_shares.
  - rewrite valids_bind, outdateds_bind. cbn. by rewrite !bind_all_nil.
Qed.

Lemma in_order_admissible (x : input L R) w : in_order x w -> admissible x w.
Proof.
  destruct w as [WL WR], x as [l []|r []|p]; cbn; try done; intros Hh.
  - destruct WL; [done|]. injection Hh as ->. set_solver.
  - destruct WR; [done|]. injection Hh as ->. set_solver.
Qed.

Lemma network_run (h : list (input L R)) bL bR w : distinct w -> well_fed in_order h w ->
  exists o bL' bR' o', run_all netstep h (network_at bL bR w) = (o, network_at bL' bR' (windows_of h w)) /\
    run_all joinstep h (holding lk rk w) = (o', holding lk rk (windows_of h w)) /\
    valids o ≡ₚ valids o' /\ outdateds o ≡ₚ outdateds o'.
Proof.
  revert bL bR w. induction h as [|x h IH]; intros bL bR w Hd Hf; [by exists [], bL, bR, []|].
  destruct Hf as [Ho Hf]. pose proof (in_order_admissible x w Ho) as Ha.
  destruct (IH (bL + left_by x)%nat (bR + right_by x)%nat (window_step x w)) as (o & bL' & bR' & o' & Hr & Hr' & Hv & Hout);
    [by apply window_step_distinct|done|].
  destruct (shjoin_step_spec lk rk pr jn x w Hd Ha) as (o1 & Hs & _).
  destruct (network_output x bL bR w) as [Hv1 Ho1]. rewrite Hs in Hv1, Ho1. cbn [fst] in Hv1, Ho1.
  eexists _, bL', bR', _. cbn [run_all]. rewrite network_step, Hs, Hr, Hr' by done. split; [done|]. split; [done|].
  by rewrite !valids_app, !outdateds_app, Hv, Hout, Hv1, Ho1.
Qed.

Lemma shares_keyed {A} (key : A -> Z) b xs : seq 0 n ≫= (fun i => keyed key (share n i b xs)) ≡ₚ keyed key xs.
Proof.
  rewrite keyed_bind, <- (shares_all _ n b xs) by done. apply bind_perm. intros i _. by rewrite keyed_bind.
Qed.

#[export] Instance valids_perm {A} : Proper (Permutation ==> Permutation) (valids (A := A)).
Proof.
  induction 1 as [|[a [|]|p] l l' _ IH|[a [|]|p] [b [|]|q] l| l l' l'' _ IH _ IH']; cbn; rewrite ?IH; done || by constructor.
Qed.
#[export] Instance outdateds_perm {A} : Proper (Permutation ==> Permutation) (outdateds (A := A)).
Proof.
  induction 1 as [|[a [|]|p] l l' _ IH|[a [|]|p] [b [|]|q] l| l l' l'' _ IH _ IH']; cbn; rewrite ?IH; done || by constructor.
Qed.

Lemma net_start_at : replicate n ScaleJoin_new = network_at 0 0 ([], []).
Proof using Hn.
  unfold network_at. apply list_eq. intros i. rewrite list_lookup_fmap. destruct (decide (i < n)%nat).
  - rewrite lookup_replicate_2, lookup_seq_lt by done. cbn. unfold instance_at, ScaleJoin_new. cbn [fst snd share length].
    by rewrite Nat.add_0_r, Nat.Div0.mod_0_l.
  - rewrite lookup_seq_ge by lia. apply lookup_replicate_None. lia.
Qed.

(** all instances went through [h]: together they are the single operator *)
Lemma same_views_run (h : list (input L R)) ls rs acts log out s' :
  net_run lk rk pr jn acts (net_start ls rs n) = ((log, out), s') ->
  well_fed in_order h ([], []) -> (forall i, (i < n)%nat -> net_view i log = h) ->
  exists out' s, run_all joinstep h SHJoin_new = (out', s) /\
    valids out ≡ₚ valids out' /\ outdateds out ≡ₚ outdateds out' /\
    net_joins s' ≫= sc_LTable ≡ₚ mLTable s /\ net_joins s' ≫= sc_RTable ≡ₚ mRTable s.
Proof.
  intros Hr Hf Hv. destruct (run_apart lk rk pr jn _ _ _ _ _ Hr) as [Hj Ho].
  destruct (network_run h 0 0 ([], [])) as (o & bL & bR & o' & Hn1 & Hn2 & Hval & Hout); [by split; constructor|done|].
  rewrite <- net_start_at in Hn1. destruct (lockstep_apart lk rk pr jn h (replicate n ScaleJoin_new)) as [Hl2 Hl1]. rewrite Hn1 in Hl1, Hl2. cbn [fst snd] in Hl1, Hl2.
  assert (apart lk rk pr jn n (fun i => net_view i log) (replicate n ScaleJoin_new) = apart lk rk pr jn n (fun _ => h) (replicate n ScaleJoin_new)) as E.
  { apply imap_ext. intros i j Hi. apply lookup_replicate in Hi as [_ Hi]. by rewrite Hv. }
  cbn [net_start net_joins] in Hj, Ho. rewrite length_replicate in Hj, Ho, Hl1, Hl2. rewrite E in Hj, Ho. rewrite <- Hl2 in Hj. rewrite <- Hl1 in Ho.
  eexists _, _. split; [exact Hn2|]. rewrite Ho. split; [done|]. split; [done|]. rewrite Hj.
  unfold network_at, holding, instance_at, keyed. cbn [mLTable mRTable].
  split; rewrite list_fmap_bind; unfold compose; cbn [sc_LTable sc_RTable]; apply shares_keyed.
Qed.

(** a finished network has shown both streams, in their order, to every instance *)
Lemma finished_views ls rs acts log out s' i :
  net_run lk rk pr jn acts (net_start ls rs n) = ((log, out), s') -> net_finished s' -> (i < n)%nat ->
  lefts_of (net_view i log) = data_of ls /\ rights_of (net_view i log) = data_of rs.
Proof.
  intros Hr (Hfl & Hfr & Hfq) Hi. assert (net_wf n (net_start (L := L) (R := R) ls rs n)) as Hw0.
  { unfold net_wf, net_start. cbn. rewrite !length_replicate. lia. }
  destruct (run_flow lk rk pr jn n i _ _ _ _ _ Hi Hw0 Hr) as (Hw & Hl & Hrr).
  unfold left_flow, right_flow, pending in Hl, Hrr. rewrite Hfl in Hl. rewrite Hfr in Hrr. cbn [net_start net_queues net_left net_right net_pushed net_delivered] in Hl, Hrr.
  rewrite lookup_replicate_2 in Hl by done. cbn [default tail] in Hl, Hrr.
  destruct (net_queues s' !! i) as [q|] eqn:Hq; [rewrite (Forall_lookup_1 _ _ _ _ Hfq Hq) in Hl|].
  all: assert (forall (A : Type) (b : bool), (if b then @nil A else []) = []) as Hnil by (by intros A []).
  all: rewrite !Hnil in Hl; rewrite Hnil in Hrr; cbn in Hl, Hrr; by rewrite !app_nil_r in Hl, Hrr.
Qed.

(** C16: the instances of [Pipe::scaleJoin] compute what [SHJoin] does, as
    long as they all handle the two streams in the same order.  For every
    schedule of the publishers and the queues' threads, each instance gets
    both streams complete and in their order; if the interleaving is the same
    for all, they publish together the results and retractions of one
    symmetric hash join of it, and every element is stored in exactly one of
    them.  Assumed: fewer than 2^15 instances, keys in [0, 2^31), an element
    added is not in its window already, retractions come in the order of
    arrival, a handler's call is one step.  Only the left stream is queued, so
    a schedule may interleave the streams differently for two instances: then
    a matching pair can be lost or published twice (schedules given).  A key
    that [key_t] cannot hold is stored under another one, and its matches are
    lost. *)
Theorem scalejoin_refines_shjoin ls rs acts log out s'
  (Hrun : net_run lk rk pr jn acts (net_start ls rs n) = ((log, out), s')) :
  (net_finished s' -> forall i, (i < n)%nat ->
     lefts_of (net_view i log) = data_of ls /\ rights_of (net_view i log) = data_of rs) /\
  (forall h, well_fed in_order h ([], []) -> (forall i, (i < n)%nat -> net_view i log = h) ->
     exists out' s, run_all joinstep h SHJoin_new = (out', s) /\
       valids out ≡ₚ valids out' /\ outdateds out ≡ₚ outdateds out' /\
       net_joins s' ≫= sc_LTable ≡ₚ mLTable s /\ net_joins s' ≫= sc_RTable ≡ₚ mRTable s) /\
  (forall l0 l r, lk l = rk r -> pr l r = true -> pr l0 r = false ->
     let start := net_start [Data l0 false; Data l false] [Data r false] 2 in
     let all_pushed := [PushLeft; PushLeft; PushLeft; PushLeft] in
     (exists lg s1, net_run lk rk pr jn (all_pushed ++ [Dequeue 0; Dequeue 0; PublishRight; PublishRight; Dequeue 1; Dequeue 1]) start =
        ((lg, []), s1) /\ net_finished s1) /\
     (exists lg s2, net_run lk rk pr jn (all_pushed ++ [Dequeue 1; Dequeue 1; PublishRight; PublishRight; Dequeue 0; Dequeue 0]) start =
        ((lg, [Data (jn l r) false; Data (jn l r) false]), s2) /\ net_finished s2)) /\
  (forall (lk' : L -> Z) (rk' : R -> Z) (l : L) (r : R),
    lk' l = rk' r -> pr l r = true -> as_key_t (lk' l) <> lk' l ->
    (run_all (shjoin_step lk' rk' pr jn) [InLeft l false; InRight r false] SHJoin_new).1 = [Data (jn l r) false] /\
    (net_run lk' rk' pr jn [PushLeft; Dequeue 0; PublishRight] (net_start [Data l false] [Data r false] 1)).1.2 = []).
Proof.
  split; [intros Hf i Hi; by eapply finished_views|]. split; [intros h; by eapply same_views_run|]. split.
  - intros l0 l r Hk Hp Hp0. cbv zeta.
    assert (as_key_t (lk l0) = lk l0 /\ as_key_t (rk r) = rk r) as [Hl0 Hr0] by (by rewrite !as_key_t_small).
    change (Z.of_nat 2) with 2.
    split; eexists _, _; (split; [cbn; change (next_cntr (Z.of_nat 2) 0) with 1; unfold equal_range, store, updateHashTable, joinTuples;
      change (Z.of_nat 0) with 0; change (Z.of_nat 1) with 1; cbn; rewrite ?Hk, ?Hl0, ?Hr0; cbn; repeat case_decide; try congruence; cbn;
      try rewrite !Hp0; try rewrite !Hp; reflexivity|by repeat constructor]).
  - intros lk' rk' l r Hk Hp Hbad. split.
    + unfold run_all, shjoin_step, processLeftDataElement, processRightDataElement, equal_range, SHJoin_new.
      cbn. rewrite decide_True by done. cbn. unfold joinTuples. by rewrite Hp.
    + cbn. unfold equal_range, store. change (Z.of_nat 0) with 0. cbn. rewrite decide_False by congruence. done.
Qed.
End scalejoin_properties.

Lemma shjoin_incremental_witness :
  let pair_up := (fun l r : Z * Z => (l.2, r.2)) in
  let h := [InLeft (1, 10) false; InRight (1, 20) false; InLeft (1, 11) false; InRight (2, 30) false; InLeft (1, 10) true] in
  exists out s, run_all (shjoin_step fst fst (fun _ _ => true) pair_up) h SHJoin_new = (out, s) /\
    valids out = [(10, 20); (11, 20)] /\ outdateds out = [(10, 20)] /\
    valids out ≡ₚ outdateds out ++ join_of fst fst (fun _ _ => true) pair_up (windows_of h ([], [])).
Proof.
  cbv zeta. set (h := [InLeft (1, 10) false; _; _; _; _]).
  assert (well_fed admissible h ([], [])) as Hf.
  { unfold h. cbn. repeat split; (apply (bool_decide_unpack _); vm_compute; exact I). }
  destruct (shjoin_incremental fst fst (fun _ _ => true) (fun l r : Z * Z => (l.2, r.2)) h Hf) as [(out & Hr & Hn) _].
  exists out, (holding fst fst (windows_of h ([], []))). split; [exact Hr|].
  assert (out = [Data (10, 20) false; Data (11, 20) false; Data (10, 20) true]) as ->.
  { vm_compute in Hr. by injection Hr as <-. }
  split; [reflexivity|]. split; [reflexivity|exact Hn].
Defined.

Lemma scalejoin_refines_shjoin_witness :
  let pair_up := (fun l r : Z => (l, r)) in
  let key := (fun x : Z => x mod 2) in
  let h := [InLeft 1 false; InRight 3 false; InLeft 5 false; InRight 7 false; InLeft 1 true] in
  let left := [PushLeft; PushLeft; Dequeue 1; Dequeue 0] in
  let right := [PublishRight; PublishRight] in
  exists log out s',
    net_run key key (fun _ _ => true) pair_up (left ++ right ++ left ++ right ++ left)
      (net_start [Data 1 false; Data 5 false; Data 1 true] [Data 3 false; Data 7 false] 2) = ((log, out), s') /\
    net_finished s' /\
    exists out' s, run_all (shjoin_step key key (fun _ _ => true) pair_up) h SHJoin_new = (out', s) /\
      valids out ≡ₚ valids out' /\ outdateds out ≡ₚ outdateds out' /\
      net_joins s' ≫= sc_LTable ≡ₚ mLTable s /\ net_joins s' ≫= sc_RTable ≡ₚ mRTable s.
Proof.
  cbv zeta. eexists _, _, _. split; [vm_compute; reflexivity|]. split; [by repeat constructor|].
  refine (proj1 (proj2 (scalejoin_refines_shjoin (fun x => x mod 2) (fun x => x mod 2) (fun _ _ => true) (fun l r : Z => (l, r)) 2 _ _ _ _
    [Data 1 false; Data 5 false; Data 1 true] [Data 3 false; Data 7 false]
    ([PushLeft; PushLeft; Dequeue 1; Dequeue 0] ++ [PublishRight; PublishRight] ++ [PushLeft; PushLeft; Dequeue 1; Dequeue 0] ++
     [PublishRight; PublishRight] ++ [PushLeft; PushLeft; Dequeue 1; Dequeue 0]) _ _ _ _))
    [InLeft 1 false; InRight 3 false; InLeft 5 false; InRight 7 false; InLeft 1 true] _ _).
  - lia.
  - reflexivity.
  - intros l. pose proof (Z.mod_pos_bound l 2 ltac:(lia)). lia.
  - intros r. pose proof (Z.mod_pos_bound r 2 ltac:(lia)). lia.
  - vm_compute. reflexivity.
  - cbn. repeat split; (apply (bool_decide_unpack _); vm_compute; exact I).
  - intros [|[|i]] Hi; [reflexivity|reflexivity|lia].
Defined.
