(* ===== verification/Elements.v ===== *)
(** * Elements: tuple pointers and the concatenation of elements

    Reference counting of [src/core/Tuple.hpp], the factory of
    [src/core/TuplePtrFactory.hpp], the accessors of
    [src/core/StreamElementTraits.hpp] and the element that a join produces
    ([src/qop/EagerElementJoin.hpp], [src/qop/ElementJoinTraits.hpp]). *)

From Stdlib Require Import Eqdep_dec.
From S2P Require Import Prelude Stream Serialize Joins.

(** ** Reference counting

    The object a [TuplePtr] points to: its counter is a [short], [freed] after
    [delete].  The two functions are atomic, so the calls of all threads form
    one sequence. *)
Record cell := mkCell { mRefCnt : Z; freed : bool }.

(** [new ResultTuple(...)] *)
Definition new_cell : cell := mkCell 0 false.

Definition intrusive_ptr_add_ref (c : cell) : result cell :=
  _ ← guard_else (negb (freed c)) Dangling;
  Ok (mkCell (s16 (mRefCnt c + 1)) false).

Definition intrusive_ptr_release (c : cell) : result cell :=
  _ ← guard_else (negb (freed c)) Dangling;
  Ok (mkCell (s16 (mRefCnt c - 1)) (mRefCnt c =? 1)).

(** what the holders of pointers do: copy one of theirs, or drop one *)
Inductive ptr_op := CopyPtr | DropPtr.

Definition ptr_step (o : ptr_op) : cell -> result cell :=
  match o with CopyPtr => intrusive_ptr_add_ref | DropPtr => intrusive_ptr_release end.

Fixpoint ptr_run (os : list ptr_op) (c : cell) : result cell :=
  match os with
  | [] => Ok c
  | o :: os => c ← ptr_step o c; ptr_run os c
  end.

(** [boost::intrusive_ptr<T>(new T(...))], held once *)
Definition make_cell : result cell := intrusive_ptr_add_ref new_cell.

(** the pointers that exist after a sequence; only who holds one can copy or
    drop it *)
Fixpoint held (os : list ptr_op) (n : Z) : option Z :=
  match os with
  | [] => Some n
  | o :: os => if n <? 1 then None else held os (match o with CopyPtr => n + 1 | DropPtr => n - 1 end)
  end.

(** at most [b] pointers at any time *)
Fixpoint at_most (b : Z) (os : list ptr_op) (n : Z) : Prop :=
  n <= b /\
  match os with
  | [] => True
  | o :: os => at_most b os (match o with CopyPtr => n + 1 | DropPtr => n - 1 end)
  end.

Lemma s16_congruent x y : (x - y) mod 2^16 = 0 -> s16 x = s16 y.
Proof.
  intros H. unfold s16. f_equal. replace (x + 2^15) with ((y + 2^15) + (x - y)) by lia.
  rewrite Z.add_mod, H, Z.add_0_r, Z.mod_mod by lia. done.
Qed.

Lemma s16_step x d : s16 (s16 x + d) = s16 (x + d).
Proof.
  apply s16_congruent. unfold s16. replace (_ - _) with ((x + 2^15) mod 2^16 - (x + 2^15)) by lia.
  rewrite Zminus_mod_idemp_l, Z.sub_diag. done.
Qed.

Lemma s16_is_one n : 1 <= n <= 2^16 -> s16 n = 1 -> n = 1.
Proof. unfold s16. intros Hn H. destruct (Z.le_gt_cases (2^16 - 2^15) n).
  - rewrite <- (Z_mod_plus_full _ (-1)), Z.mod_small in H by lia. lia.
  - rewrite Z.mod_small in H by lia. lia.
Qed.

(** the object with [n] pointers to it, the last of [0] dropped *)
Definition held_cell (n : Z) : cell := mkCell (s16 n) (bool_decide (n = 0)).

Lemma ptr_step_held o k : 1 <= k <= 2^16 ->
  ptr_step o (held_cell k) = Ok (held_cell (match o with CopyPtr => k + 1 | DropPtr => k - 1 end)).
Proof.
  intros Hk. unfold held_cell. rewrite bool_decide_eq_false_2 by lia.
  destruct o; cbn; rewrite <- ?Z.add_opp_r, s16_step; repeat f_equal.
  - by rewrite bool_decide_eq_false_2 by lia.
  - apply eq_true_iff_eq. rewrite Z.eqb_eq, bool_decide_eq_true. split; [intros ?%s16_is_one; lia|].
    intros ?. by replace k with 1 by lia.
Qed.

Lemma refcount_run os k n : 0 <= k -> held os k = Some n -> at_most (2^16) os k -> ptr_run os (held_cell k) = Ok (held_cell n).
Proof.
  revert k. induction os as [|o os IH]; intros k Hk Hheld Hmost; cbn [held at_most ptr_run] in *; [by injection Hheld as <-|].
  destruct (Z.ltb_spec k 1) as [|Hk1]; [done|]. destruct Hmost as [Hle Hmost].
  rewrite ptr_step_held by lia. run_step. apply IH; [destruct o; lia|done|done].
Qed.

(** C33: a tuple is freed when its last pointer is dropped and not before, and no
    pointer that is still held ever dangles, whatever threads copy and drop
    pointers in whatever order, as long as there are never more than 65536
    pointers to it; with one more, dropping any of them frees the tuple under
    all the others *)
Theorem refcount_safe (os : list ptr_op) (n : Z) (Hheld : held os 1 = Some n) (Hmost : at_most (2^16) os 1) :
  (exists c, (c ← make_cell; ptr_run os c) = Ok c /\ freed c = bool_decide (n = 0)) /\
  (n = 2^16 -> exists c, (c ← make_cell; ptr_run (os ++ [CopyPtr; DropPtr]) c) = Ok c /\ freed c = true).
Proof.
  pose proof (refcount_run os 1 n ltac:(lia) Hheld Hmost) as Hrun. change make_cell with (Ok (held_cell 1)). run_step. split.
  - rewrite Hrun. by eexists.
  - intros ->. assert (forall os' c, ptr_run (os ++ os') c = (c ← ptr_run os c; ptr_run os' c)) as ->.
    { clear. intros os'. induction os as [|o os IH]; intros c; [done|]. cbn. destruct (ptr_step o c); [apply IH|done]. }
    rewrite Hrun. cbn. by eexists.
Qed.

(** ** Creating an element from attributes *)

(** an attribute with its type *)
Definition attribute : Type := {t : ty & denote t}.

(** a tuple with its type *)
Definition any_tuple : Type := {ts : tys & Tuple ts}.

(** [getAttribute<ID>(element)] *)
Definition attribute_at {ts} (tp : Tuple ts) (ID : nat) : attribute :=
  existT (getAttributeType ts ID) (getAttribute ts ID (tdata tp)).

(** the tuple of the arguments, at least one *)
Fixpoint tuple_of (a : attribute) (args : list attribute) : {ts : tys & denotes ts} :=
  match args with
  | [] => existT (TLast (projT1 a)) (projT2 a)
  | b :: args => let r := tuple_of b args in existT (TMore (projT1 a) (projT1 r)) (projT2 a, projT2 r)
  end.

(** [TuplePtrFactory::create(args...)]; without arguments it does not compile *)
Definition create (args : list attribute) : option any_tuple :=
  match args with
  | [] => None
  | a :: args => let r := tuple_of a args in Some (existT (projT1 r) (make_tuple (projT1 r) (projT2 r)))
  end.

(** [generateIndexes<NumIndices, FirstIndex>], [generateIndexesImpl] *)
Fixpoint generateIndexesImpl (CurrentIndex : nat) (remaining : nat) (acc : list nat) : list nat :=
  match remaining with
  | O => acc
  | S n => generateIndexesImpl (S CurrentIndex) n (acc ++ [CurrentIndex])
  end.
Definition generateIndexes (NumIndices FirstIndex : nat) : list nat := generateIndexesImpl FirstIndex NumIndices [].

(** [StreamElementTraits::setNull] *)
Definition traits_setNull {ts} (index : nat) (value : bool) (tp : Tuple ts) : result (Tuple ts) :=
  _ ← guard_else (index <? NUM_ATTRIBUTES ts)%nat AssertFailed;
  setNull ts index value tp.

(** ** EagerElementJoin *)

(** the loop that copies the null flags of one side, [offset] attributes before it *)
Fixpoint copy_nulls {ts us} (from : Tuple ts) (offset : nat) (attributeIdx remaining : nat) (joined : Tuple us) : result (Tuple us) :=
  match remaining with
  | O => Ok joined
  | S n =>
      b ← traits_isNull ts attributeIdx from;
      joined ← traits_setNull (attributeIdx + offset) b joined;
      copy_nulls from offset (S attributeIdx) n joined
  end.

Definition joinImpl {ts us} (leftElement : Tuple ts) (leftAttributeIndexes : list nat)
    (rightElement : Tuple us) (rightAttributeIndexes : list nat) : result any_tuple :=
  match create ((attribute_at leftElement <$> leftAttributeIndexes) ++ (attribute_at rightElement <$> rightAttributeIndexes)) with
  | None => Err AssertFailed
  | Some (existT ws joinedElement) =>
      joinedElement ← copy_nulls leftElement 0 0 (NUM_ATTRIBUTES ts) joinedElement;
      joinedElement ← copy_nulls rightElement (NUM_ATTRIBUTES ts) 0 (NUM_ATTRIBUTES us) joinedElement;
      Ok (existT ws joinedElement)
  end.

(** [ElementJoinTraits::joinElements] forwards to it *)
Definition joinElements {ts us} (leftElement : Tuple ts) (rightElement : Tuple us) : result any_tuple :=
  joinImpl leftElement (generateIndexes (NUM_ATTRIBUTES ts) 0) rightElement (generateIndexes (NUM_ATTRIBUTES us) 0).

(** ** Properties *)

Lemma generateIndexes_seq n k : generateIndexes n k = seq k n.
Proof.
  unfold generateIndexes. change (seq k n) with ([] ++ seq k n). generalize (@nil nat) as acc. revert k.
  induction n as [|n IH]; intros k acc; cbn; [by rewrite app_nil_r|]. rewrite IH, <- app_assoc. done.
Qed.

(** the types and attributes of the left side, then those of the right *)
Fixpoint app_tys (ts us : tys) : tys :=
  match ts with TLast t => TMore t us | TMore t ts => TMore t (app_tys ts us) end.

Fixpoint app_denotes (ts us : tys) : denotes ts -> denotes us -> denotes (app_tys ts us) :=
  match ts with
  | TLast t => fun l r => (l, r)
  | TMore t ts => fun (l : denote t * denotes ts) r => (l.1, app_denotes ts us l.2 r)
  end.

Lemma arity_app ts us : arity (app_tys ts us) = (arity ts + arity us)%nat.
Proof. induction ts as [|t ts IH]; cbn; [done|by rewrite IH]. Qed.

(** all attributes of a tuple, in order *)
Fixpoint attributes (ts : tys) : denotes ts -> list attribute :=
  match ts with
  | TLast t => fun e => [existT t e]
  | TMore t ts => fun e : denote t * denotes ts => existT t e.1 :: attributes ts e.2
  end.

Lemma attributes_at ts (d : denotes ts) :
  (fun i => existT (getAttributeType ts i) (getAttribute ts i d) : attribute) <$> seq 0 (arity ts) = attributes ts d.
Proof.
  induction ts as [t|t ts IH]; [done|]. destruct d as [x d]. cbn [arity seq attributes]. rewrite fmap_cons. cbn [snd fst]. f_equal.
  rewrite <- (IH d), <- seq_shift. change (List.map S) with (fmap (M := list) S). by rewrite <- list_fmap_compose.
Qed.

Lemma attributes_cons ts d : exists a l, attributes ts d = a :: l /\ tuple_of a l = existT ts d.
Proof.
  induction ts as [t|t ts IH]; [by eexists _, _|]. destruct d as [x d]. destruct (IH d) as (a & l & Hd & Hl). cbn [attributes fst snd]. rewrite Hd.
  do 2 eexists. split; [done|]. cbn. by rewrite Hl.
Qed.

Lemma attributes_app ts us l r : attributes ts l ++ attributes us r = attributes (app_tys ts us) (app_denotes ts us l r).
Proof. induction ts as [t|t ts IH]; [done|]. cbn. f_equal. apply IH. Qed.

Lemma create_attributes ts d : create (attributes ts d) = Some (existT ts (make_tuple ts d)).
Proof. destruct (attributes_cons ts d) as (a & l & -> & Hl). cbn. by rewrite Hl. Qed.

(** the flags after the loop *)
Lemma copy_nulls_ok {ts us} (from : Tuple ts) offset i n (joined : Tuple us) :
  (i + n <= arity ts)%nat -> (offset + arity ts <= arity us)%nat -> 0 <= mNulls joined < 2 ^ Z.of_nat (arity us) ->
  exists nulls, copy_nulls from offset i n joined = Ok (mkTuple (tdata joined) nulls) /\ 0 <= nulls < 2 ^ Z.of_nat (arity us) /\
    forall j, Z.testbit nulls (Z.of_nat j) =
      if decide (offset + i <= j < offset + i + n)%nat then Z.testbit (mNulls from) (Z.of_nat (j - offset)) else Z.testbit (mNulls joined) (Z.of_nat j).
Proof.
  revert i joined. induction n as [|n IH]; intros i joined Hi Ho Hn; cbn [copy_nulls].
  - exists (mNulls joined). split; [by destruct joined|]. split; [done|]. intros j. by rewrite decide_False by lia.
  - unfold traits_isNull, isNull, traits_setNull, setNull, NUM_ATTRIBUTES. rewrite (proj2 (Nat.ltb_lt _ _)) by lia. run_step.
    cbn [guard_else mbind result_bind]. rewrite !(proj2 (Nat.ltb_lt _ _)) by lia. run_step. cbn [guard_else mbind result_bind].
    set (b := Z.testbit (mNulls from) (Z.of_nat i)). set (p := Z.of_nat (i + offset)).
    set (v := if b then set_bit (mNulls joined) p else clear_bit (mNulls joined) p).
    assert (0 <= v < 2 ^ Z.of_nat (arity us)) as Hv.
    { subst v. destruct b; [apply set_bit_bound|apply clear_bit_bound]; lia. }
    destruct (IH (S i) (mkTuple (tdata joined) v)) as (nulls & -> & Hb & Hbit); [lia..|done|]. cbn [tdata mNulls] in *.
    exists nulls. split; [done|]. split; [done|]. intros j. rewrite Hbit.
    destruct (decide (j = i + offset)%nat) as [->|Hne].
    + rewrite decide_False, decide_True by lia. replace (i + offset - offset)%nat with i by lia. fold p. subst v. fold b.
      destruct b; [rewrite set_bit_testbit by lia|rewrite clear_bit_testbit by lia]; by rewrite bool_decide_eq_true_2.
    + replace (Z.testbit v (Z.of_nat j)) with (Z.testbit (mNulls joined) (Z.of_nat j)).
      { apply decide_ext. lia. }
      subst v p. destruct b; [rewrite set_bit_testbit by lia|rewrite clear_bit_testbit by lia];
        rewrite bool_decide_eq_false_2 by lia; done.
Qed.

Lemma attributes_lookup ts (d : denotes ts) n i : (i < arity ts)%nat -> attributes ts d !! i = Some (attribute_at (mkTuple d n) i).
Proof. intros Hi. rewrite <- attributes_at, list_lookup_fmap, lookup_seq_lt by done. done. Qed.

Lemma length_attributes ts (d : denotes ts) : length (attributes ts d) = arity ts.
Proof. by rewrite <- attributes_at, length_fmap, length_seq. Qed.

Lemma attribute_at_app {ts us} (l : Tuple ts) (r : Tuple us) n i : (i < arity ts + arity us)%nat ->
  attribute_at (mkTuple (app_denotes ts us (tdata l) (tdata r)) n) i =
    if decide (i < arity ts)%nat then attribute_at l i else attribute_at r (i - arity ts).
Proof.
  intros Hi. apply (inj Some). rewrite <- attributes_lookup, <- attributes_app by by rewrite arity_app. destruct l as [l nl], r as [r nr]. cbn [tdata].
  case_decide as Hd.
  - rewrite lookup_app_l by by rewrite length_attributes. by apply attributes_lookup.
  - rewrite lookup_app_r by (rewrite length_attributes; lia). rewrite length_attributes. apply attributes_lookup. lia.
Qed.

Lemma wfs_app ts us l r : wfs (app_tys ts us) (app_denotes ts us l r) <-> wfs ts l /\ wfs us r.
Proof.
  induction ts as [t|t ts IH]; [done|]. destruct l as [x l]. cbn. rewrite IH. tauto.
Qed.

Lemma joinElements_ok {ts us} (l : Tuple ts) (r : Tuple us) :
  exists nulls, joinElements l r = Ok (existT (app_tys ts us) (mkTuple (app_denotes ts us (tdata l) (tdata r)) nulls)) /\
    0 <= nulls < 2 ^ Z.of_nat (arity ts + arity us) /\
    forall j, (j < arity ts + arity us)%nat -> Z.testbit nulls (Z.of_nat j) =
      if decide (j < arity ts)%nat then Z.testbit (mNulls l) (Z.of_nat j) else Z.testbit (mNulls r) (Z.of_nat (j - arity ts)).
Proof.
  unfold joinElements, joinImpl. rewrite !generateIndexes_seq. unfold attribute_at, NUM_ATTRIBUTES.
  rewrite (attributes_at ts (tdata l)), (attributes_at us (tdata r)), attributes_app, create_attributes.
  destruct (copy_nulls_ok l 0 0 (arity ts) (make_tuple (app_tys ts us) (app_denotes ts us (tdata l) (tdata r)))) as (n1 & -> & Hb1 & Ht1);
    [lia|rewrite arity_app; lia|cbn; lia|]. run_step. cbn [tdata make_tuple].
  destruct (copy_nulls_ok r (arity ts) 0 (arity us) (mkTuple (app_denotes ts us (tdata l) (tdata r)) n1 : Tuple (app_tys ts us))) as (n2 & -> & Hb2 & Ht2);
    [lia|rewrite arity_app; lia|done|]. run_step.
  exists n2. split; [done|]. rewrite arity_app in Hb2. split; [done|]. intros j Hj. cbn [mNulls] in Ht2. rewrite Ht2.
  destruct (decide (j < arity ts)%nat) as [Hl|Hl].
  - rewrite decide_False by lia. rewrite Ht1, decide_True by lia. by rewrite Nat.sub_0_r.
  - by rewrite decide_True by lia.
Qed.

(** types are decidable, so an attribute determines its value *)
Definition ty_eq_dec : forall t u : ty, {t = u} + {t <> u}.
Proof.
  fix ty_dec 1 with (tys_dec (ts us : tys) {struct ts} : {ts = us} + {ts <> us}).
  - intros t u. destruct t as [w| |t|ts], u as [w'| |t'|ts']; try (right; discriminate).
    + destruct (Nat.eq_dec w w') as [->|]; [by left|right; congruence].
    + by left.
    + destruct (ty_dec t t') as [->|]; [by left|right; congruence].
    + destruct (tys_dec ts ts') as [->|]; [by left|right; congruence].
  - destruct ts as [t|t ts], us as [u|u us]; try (right; discriminate).
    + destruct (ty_dec t u) as [->|]; [by left|right; congruence].
    + destruct (ty_dec t u) as [->|]; [|right; congruence]. destruct (tys_dec ts us) as [->|]; [by left|right; congruence].
Defined.

Lemma attribute_inj t (x y : denote t) : existT t x = existT t y :> attribute -> x = y.
Proof. apply (inj_pair2_eq_dec _ ty_eq_dec). Qed.

Lemma tuple_ext ts (x y : Tuple ts) : wf_tuple ts x -> wf_tuple ts y ->
  (forall i, (i < arity ts)%nat -> attribute_at x i = attribute_at y i /\ isNull ts i x = isNull ts i y) -> x = y.
Proof.
  intros [_ Hx] [_ Hy] H. destruct x as [x nx], y as [y ny]. cbn [tdata mNulls] in *. f_equal.
  - apply attributes_ext. intros i Hi. apply attribute_inj. apply (H i Hi).
  - apply Z.bits_inj'. intros i Hi. destruct (Z.ltb_spec i (Z.of_nat (arity ts))) as [Hlt|Hge].
    + destruct (H (Z.to_nat i) ltac:(lia)) as [_ Hb]. unfold isNull, NUM_ATTRIBUTES in Hb. rewrite (proj2 (Nat.ltb_lt _ _)) in Hb by lia.
      cbn in Hb. rewrite Z2Nat.id in Hb by lia. by injection Hb.
    + unfold NUM_ATTRIBUTES in *. by rewrite !(testbit_above _ (Z.of_nat (arity ts))) by lia.
Qed.

(** The element that a join produces: all attributes of the left element,
    then all attributes of the right one, each with its value, type and null
    flag; nothing of the two is lost, so different pairs give different
    elements *)
Lemma element_join {ts us : tys} (l : Tuple ts) (r : Tuple us) (Hl : wf_tuple ts l) (Hr : wf_tuple us r) :
  exists ws (j : Tuple ws), joinElements l r = Ok (existT ws j) /\ wf_tuple ws j /\
    NUM_ATTRIBUTES ws = (NUM_ATTRIBUTES ts + NUM_ATTRIBUTES us)%nat /\
    (forall i, (i < NUM_ATTRIBUTES ts)%nat -> attribute_at j i = attribute_at l i /\ isNull ws i j = isNull ts i l) /\
    (forall i, (i < NUM_ATTRIBUTES us)%nat ->
       attribute_at j (NUM_ATTRIBUTES ts + i) = attribute_at r i /\ isNull ws (NUM_ATTRIBUTES ts + i) j = isNull us i r) /\
    forall (l' : Tuple ts) (r' : Tuple us), wf_tuple ts l' -> wf_tuple us r' -> joinElements l' r' = joinElements l r -> l' = l /\ r' = r.
Proof.
  assert (forall (l : Tuple ts) (r : Tuple us), exists j : any_tuple, joinElements l r = Ok j /\ NUM_ATTRIBUTES (projT1 j) = (arity ts + arity us)%nat /\
    (wf_tuple ts l -> wf_tuple us r -> wf_tuple (projT1 j) (projT2 j)) /\
    (forall i, (i < arity ts)%nat -> attribute_at (projT2 j) i = attribute_at l i /\ isNull (projT1 j) i (projT2 j) = isNull ts i l) /\
    (forall i, (i < arity us)%nat -> attribute_at (projT2 j) (arity ts + i) = attribute_at r i /\ isNull (projT1 j) (arity ts + i) (projT2 j) = isNull us i r)) as Hjoin.
  { clear. intros l r. destruct (joinElements_ok l r) as (nulls & -> & Hb & Ht). eexists. split; [done|]. cbn [projT1 projT2].
    split; [apply arity_app|]. split_and!.
    - intros [Hl _] [Hr _]. split; [by apply wfs_app|]. unfold NUM_ATTRIBUTES. by rewrite arity_app.
    - intros i Hi. rewrite attribute_at_app, decide_True by lia. split; [done|]. unfold isNull, NUM_ATTRIBUTES.
      rewrite arity_app, !(proj2 (Nat.ltb_lt _ _)) by lia. cbn. by rewrite Ht, decide_True by lia.
    - intros i Hi. rewrite attribute_at_app, decide_False by lia. replace (arity ts + i - arity ts)%nat with i by lia. split; [done|].
      unfold isNull, NUM_ATTRIBUTES. rewrite arity_app, !(proj2 (Nat.ltb_lt _ _)) by lia. cbn. rewrite Ht, decide_False by lia.
      by replace (arity ts + i - arity ts)%nat with i by lia. }
  destruct (Hjoin l r) as ([ws j] & -> & Hn & Hwf & H1 & H2). exists ws, j. split; [done|]. split; [by apply Hwf|]. split_and!; [done..|].
  intros l' r' Hl' Hr' Heq. destruct (Hjoin l' r') as (j' & Hj' & _ & _ & H1' & H2'). rewrite Heq in Hj'. injection Hj' as <-. cbn [projT1 projT2] in *.
  split; (apply tuple_ext; [done..|]); intros i Hi.
  - destruct (H1 i Hi) as [<- <-], (H1' i Hi) as [<- <-]. done.
  - destruct (H2 i Hi) as [<- <-], (H2' i Hi) as [<- <-]. done.
Qed.

Lemma refcount_safe_witness :
  held [CopyPtr; DropPtr; DropPtr] 1 = Some 0 /\
  exists c, (c ← make_cell; ptr_run [CopyPtr; DropPtr; DropPtr] c) = Ok c /\ freed c = true.
Proof.
  split; [reflexivity|].
  destruct (refcount_safe [CopyPtr; DropPtr; DropPtr] 0 eq_refl ltac:(vm_compute; intuition discriminate)) as [(c & Hrun & Hfree) _].
  exists c. split; [exact Hrun|]. rewrite Hfree. reflexivity.
Defined.

Definition demo_left : Tuple (TMore (Scalar 4) (TLast TString)) := mkTuple ((7, [104; 105]) : denotes (TMore (Scalar 4) (TLast TString))) 2.
Definition demo_right : Tuple (TLast (Scalar 2)) := mkTuple (9 : denotes (TLast (Scalar 2))) 0.

Lemma demo_left_wf : wf_tuple _ demo_left.
Proof. split; [split; [cbn; lia|split; [repeat constructor|]; cbv; by repeat split]|cbn; lia]. Qed.
Lemma demo_right_wf : wf_tuple _ demo_right.
Proof. split; cbn; lia. Qed.

Lemma element_join_witness :
  joinElements demo_left demo_right =
    Ok (existT (TMore (Scalar 4) (TMore TString (TLast (Scalar 2)))) (mkTuple ((7, ([104; 105], 9)) : denotes (TMore (Scalar 4) (TMore TString (TLast (Scalar 2))))) 2)) /\
  exists ws (j : Tuple ws), joinElements demo_left demo_right = Ok (existT ws j) /\ isNull ws 1 j = Ok true /\ isNull ws 2 j = Ok false.
Proof.
  split; [vm_compute; reflexivity|].
  destruct (element_join demo_left demo_right demo_left_wf demo_right_wf) as (ws & j & Hj & _ & _ & H1 & H2 & _).
  exists ws, j. split; [exact Hj|]. split.
  - destruct (H1 1%nat ltac:(cbn; lia)) as [_ ->]. reflexivity.
  - destruct (H2 0%nat ltac:(cbn; lia)) as [_ H]. cbn [NUM_ATTRIBUTES arity Nat.add] in H. rewrite H. reflexivity.
Defined.
