(* ===== verification/Cep.v ===== *)
(** * Cep: complex event processing

    Models the pattern matcher of [src/cep/]: the automaton ([NFAController.hpp],
    [state/], [edge/]), one partial match ([NFAStructure.hpp]), the pool of
    partial matches ([StructurePool.hpp], [util/ValueIDMultimap.hpp],
    [util/Partition.hpp]), the two engines ([CEPEngine.hpp],
    [engine/FirstMatchEngine.hpp], [engine/NextMatchEngine.hpp]) and the
    operator ([Matcher.hpp]).

    States and edges live in two arenas and are referred to by their index,
    which stands for the pointer of the code; a pointer that has not been set
    is [None].  A partial match is identified by the sequence number it gets
    from [SequencePartition], the only partition the code has; the pool keeps
    the order of insertion, where the hash map behind it has one of its own (the
    theorems are independent of it).  Matches are published one by one, the
    default output strategy; with the other one nothing is published. *)

From S2P Require Import Prelude Stream.

(** ** The automaton *)

Inductive StateType := StStart | StKleene | StFinal | StNormal | StNegation.
Inductive KleeneSpecification := Star | Plus | Question | Restricted.
Inductive EdgeType := Loop | Forward.

#[export] Instance StateType_eq_dec : EqDecision StateType.
Proof. solve_decision. Defined.

Section Cep.
(** events and the related values of a match (a pointer, null by default) *)
Context {Ev D : Type}.

Definition EdgePredicate : Type := Ev -> option D -> bool.

Record NFAEdge := mkEdge {
  edgeType : EdgeType;
  edgeID : Z;
  predicate : EdgePredicate;
  destState : option nat;
  numOfLoop : Z;
}.

Record NFAState := mkState {
  stateType : StateType;
  stateID : Z;
  stateName : string;
  forwardEdges : list nat;
  loopEdge : option nat;
  spec : KleeneSpecification;
}.

Record NFAController := mkNFA {
  states : list NFAState;
  transitions : list NFAEdge;
  startState : option nat;
  init : option D;
  update : option D -> Z -> Ev -> option D;
}.

(** without [setDependency] there are no related values *)
Definition NFAController_new : NFAController := mkNFA [] [] None None (fun d _ _ => d).

Definition setDependency (i : option D) (u : option D -> Z -> Ev -> option D) (n : NFAController) : NFAController :=
  mkNFA (states n) (transitions n) (startState n) i u.

Definition add_state (t : StateType) (name : string) (sp : KleeneSpecification) (n : NFAController) : nat * NFAController :=
  let id := length (states n) in
  (id, mkNFA (states n ++ [mkState t (Z.of_nat id) name [] None sp]) (transitions n) (startState n) (init n) (update n)).

Definition createStartState (name : string) (n : NFAController) : nat * NFAController :=
  let '(id, n') := add_state StStart name Star n in
  (id, mkNFA (states n') (transitions n') (Some id) (init n') (update n')).
Definition createNormalState (name : string) (n : NFAController) : nat * NFAController := add_state StNormal name Star n.
Definition createKleeneState (name : string) (sp : KleeneSpecification) (n : NFAController) : nat * NFAController :=
  add_state StKleene name sp n.
Definition createFinalState (name : string) (n : NFAController) : nat * NFAController := add_state StFinal name Star n.
Definition createNegationState (name : string) (n : NFAController) : nat * NFAController := add_state StNegation name Star n.

Definition add_edge (e : NFAEdge) (n : NFAController) : nat * NFAController :=
  (length (transitions n), mkNFA (states n) (transitions n ++ [e]) (startState n) (init n) (update n)).

Definition createForwardEdge (p : EdgePredicate) (n : NFAController) : nat * NFAController :=
  add_edge (mkEdge Forward (Z.of_nat (length (transitions n))) p None 0) n.
(** the number of loops defaults to the maximum of [short] *)
Definition createLoopEdge (p : EdgePredicate) (n : NFAController) : nat * NFAController :=
  add_edge (mkEdge Loop (Z.of_nat (length (transitions n))) p None 32767) n.

Definition set_state (i : nat) (s : NFAState) (n : NFAController) : NFAController :=
  mkNFA (<[i := s]> (states n)) (transitions n) (startState n) (init n) (update n).
Definition set_edge (i : nat) (e : NFAEdge) (n : NFAController) : NFAController :=
  mkNFA (states n) (<[i := e]> (transitions n)) (startState n) (init n) (update n).

(** [addEdge]: the final state has no edges to add to *)
Definition addEdge (edge : nat) (s : NFAState) : result NFAState :=
  match stateType s with
  | StFinal => Err Dangling
  | _ => Ok (mkState (stateType s) (stateID s) (stateName s) (forwardEdges s ++ [edge]) (loopEdge s) (spec s))
  end.

Definition setDestState (dest : nat) (e : NFAEdge) : NFAEdge :=
  mkEdge (edgeType e) (edgeID e) (predicate e) (Some dest) (numOfLoop e).

Definition createForwardTransition (src edge dest : nat) (n : NFAController) : result NFAController :=
  e ← get_at (transitions n) edge;
  match edgeType e with
  | Loop => Err AssertFailed
  | Forward =>
      s ← get_at (states n) src;
      s' ← addEdge edge s;
      Ok (set_state src s' (set_edge edge (setDestState dest e) n))
  end.

(** [KleeneState::setLoopEdge], with the loop edge of the arena *)
Definition setLoopEdge (src edge : nat) (n : NFAController) : result NFAController :=
  s ← get_at (states n) src;
  Ok (set_state src (mkState (stateType s) (stateID s) (stateName s) (forwardEdges s) (Some edge) (spec s)) n).

(** [LoopEdge::setNumOfLoop], a [short] *)
Definition setNumOfLoop (edge : nat) (numLoop : Z) (n : NFAController) : result NFAController :=
  e ← get_at (transitions n) edge;
  _ ← guard_else (0 <=? numLoop) AssertFailed;
  Ok (set_edge edge (mkEdge (edgeType e) (edgeID e) (predicate e) (destState e) (s16 numLoop)) n).

Definition is_kleene (s : NFAState) : bool := match stateType s with StKleene => true | _ => false end.

(** *** States and edges by their identifiers *)

Definition states_of (t : StateType) (n : NFAController) : list nat :=
  omap (fun i => s ← states n !! i; if decide (stateType s = t) then Some i else None) (seq 0 (length (states n))).

Definition getStartStateID (n : NFAController) : Z := match startState n ≫= (fun i => states n !! i) with Some s => stateID s | None => -1 end.
Definition getInterStates (n : NFAController) : list nat := states_of StNormal n ++ states_of StKleene n ++ states_of StNegation n.
Definition getKleeneStatesCount (n : NFAController) : Z := Z.of_nat (length (states_of StKleene n)).
Definition getNegationStatesCount (n : NFAController) : Z := Z.of_nat (length (states_of StNegation n)).

Definition with_id (n : NFAController) (id : Z) (l : list nat) : option nat :=
  head (filter (fun i => (stateID <$> states n !! i) = Some id) l).

(** [None]: the null pointer; the Kleene states are not searched *)
Definition getState (id : Z) (n : NFAController) : result (option nat) :=
  match startState n with
  | None => Err Dangling
  | Some start =>
      s ← get_at (states n) start;
      if stateID s =? id then Ok (Some start)
      else Ok (with_id n id (states_of StNegation n ++ states_of StNormal n ++ states_of StFinal n))
  end.

Definition getEdge (id : Z) (n : NFAController) : option nat :=
  head (filter (fun i => (edgeID <$> transitions n !! i) = Some id) (seq 0 (length (transitions n)))).

Definition non_null (p : option nat) : result nat := match p with Some i => Ok i | None => Err Dangling end.

Definition createForwardTransition_id (src edge dest : Z) (n : NFAController) : result NFAController :=
  _ ← guard_else (src =? dest) AssertFailed;
  s ← getState src n; s ← non_null s;
  e ← non_null (getEdge edge n);
  d ← getState dest n; d ← non_null d;
  createForwardTransition s e d n.

Definition addForwardEdge (state edge : nat) (n : NFAController) : result NFAController :=
  s ← get_at (states n) state;
  _ ← guard_else (bool_decide (stateType s = StNormal)) AssertFailed;
  s' ← addEdge edge s; Ok (set_state state s' n).

(** the edges replace those of the state *)
Definition addForwardEdges (state : nat) (edges : list nat) (n : NFAController) : result NFAController :=
  s ← get_at (states n) state;
  _ ← guard_else (bool_decide (stateType s = StNormal)) AssertFailed;
  Ok (set_state state (mkState (stateType s) (stateID s) (stateName s) edges (loopEdge s) (spec s)) n).

(** ** One partial match *)

Record Instance_ := mkInstance { originalEvent : Ev; sequenceInComplex : Z; inst_state : string }.

Record NFAStructure := mkStructure {
  events : list Instance_;
  currentState : nat;
  complete : bool;
  relatedValues : option D;
  equality : Z;
  kleeneState : list (nat * Z);
}.

Definition NFAStructure_new (n : NFAController) (eq : Z) : result NFAStructure :=
  match startState n with
  | None => Err Dangling
  | Some s =>
      let ks := filter (fun i => from_option is_kleene false (states n !! i) = true)
                  (seq 0 (length (states n))) in
      Ok (mkStructure [] s false (init n) eq ((fun k => (k, 0)) <$> ks))
  end.

(** the loop counter of the current state, whichever state is asked for *)
Definition getCurrentKleene (str : NFAStructure) : result Z :=
  match list_find (fun p => p.1 = currentState str) (kleeneState str) with
  | Some (_, p) => Ok p.2
  | None => Err OutOfBounds
  end.

Definition evaluate (e : NFAEdge) (ev : Ev) (d : option D) : bool := predicate e ev d.

Definition addEvent (n : NFAController) (ev : Ev) (edge : nat) (str : NFAStructure) : result NFAStructure :=
  cur ← get_at (states n) (currentState str);
  e ← get_at (transitions n) edge;
  let evs := events str ++ [mkInstance ev (Z.of_nat (S (length (events str)))) (stateName cur)] in
  let d := update n (relatedValues str) (edgeID e) ev in
  '(cur', ks) ←
    match edgeType e with
    | Forward => match destState e with Some dst => Ok (dst, kleeneState str) | None => Err Dangling end
    | Loop =>
        match list_find (fun p => p.1 = currentState str) (kleeneState str) with
        | Some (i, p) => Ok (currentState str, <[i := (p.1, s16 (p.2 + 1))]> (kleeneState str))
        | None => Err OutOfBounds
        end
    end;
  st ← get_at (states n) cur';
  Ok (mkStructure evs cur' (match stateType st with StFinal => true | _ => complete str end) d (equality str) ks).

Definition setCurrentState (cur : nat) (str : NFAStructure) : NFAStructure :=
  mkStructure (events str) cur (complete str) (relatedValues str) (equality str) (kleeneState str).

Definition getForwardEdgeByIndex (s : NFAState) (i : nat) : result nat :=
  match forwardEdges s !! i with Some e => Ok e | None => Err AssertFailed end.

(** the first edge of [es] whose predicate holds, counting from [i] *)
Fixpoint first_edge (n : NFAController) (es : list nat) (i : Z) (ev : Ev) (d : option D) : result (option Z) :=
  match es with
  | [] => Ok None
  | e :: es =>
      edge ← get_at (transitions n) e;
      if evaluate edge ev d then Ok (Some i) else first_edge n es (i + 1) ev d
  end.

(** ** The engines (CEPEngine.hpp) *)

(** the body of [checkWindowTime] is commented out *)
Definition checkWindowTime (ev : Ev) (str : NFAStructure) : bool := true.

(** the walk over consecutive negation states: [Ok None] when one of their
    edges fires, otherwise the first state that is not a negation; [fuel]
    bounds the states visited *)
Fixpoint walk_negations (fuel : nat) (n : NFAController) (ev : Ev) (d : option D) (cur : nat) : result (option nat) :=
  match fuel with
  | O => Err Waits
  | S fuel =>
      st ← get_at (states n) cur;
      hit ← first_edge n (forwardEdges st) 0 ev d;
      match hit with
      | Some _ => Ok None
      | None =>
          e ← getForwardEdgeByIndex st 0;
          edge ← get_at (transitions n) e;
          match destState edge with
          | None => Err Dangling
          | Some next =>
              st' ← get_at (states n) next;
              match stateType st' with
              | StNegation => walk_negations fuel n ev d next
              | _ => Ok (Some next)
              end
          end
      end
  end.

Definition getLoopEdge (n : NFAController) (st : NFAState) : result NFAEdge :=
  match loopEdge st with Some l => get_at (transitions n) l | None => Err Dangling end.

(** whether a Kleene state may be left, and whether it takes another event *)
Definition kleene_forward (n : NFAController) (st : NFAState) (str : NFAStructure) : result bool :=
  match spec st with
  | Star | Question => Ok true
  | Plus => c ← getCurrentKleene str; Ok (c =? 1)
  | Restricted => c ← getCurrentKleene str; l ← getLoopEdge n st; Ok (numOfLoop l <=? c)
  end.
Definition kleene_loop (n : NFAController) (st : NFAState) (str : NFAStructure) : result bool :=
  match spec st with
  | Star | Question => Ok true
  | Plus => c ← getCurrentKleene str; Ok (c =? 0)
  | Restricted => c ← getCurrentKleene str; l ← getLoopEdge n st; Ok (c <? numOfLoop l)
  end.

(** [checkPredicate]: the index of the edge to take ([-1] for none), the type
    reported back, and the match, which a loop edge has extended and a
    negation has moved on *)
Definition checkPredicate (fuel : nat) (n : NFAController) (ev : Ev) (str : NFAStructure) : result (Z * StateType * NFAStructure) :=
  st ← get_at (states n) (currentState str);
  let none := Ok (-1, StNormal, str) in
  match stateType st with
  | StNormal =>
      hit ← first_edge n (forwardEdges st) 0 ev (relatedValues str);
      Ok (default (-1) hit, StNormal, str)
  | StKleene =>
      forwardOK ← kleene_forward n st str;
      hit ← (if forwardOK : bool then first_edge n (forwardEdges st) 0 ev (relatedValues str) else Ok None);
      match hit with
      | Some i => Ok (i, StNormal, str)
      | None =>
          loop ← getLoopEdge n st;
          if evaluate loop ev (relatedValues str) then
            again ← kleene_loop n st str;
            if again : bool then
              str' ← addEvent n ev (default 0%nat (loopEdge st)) str;
              Ok (-1, StNormal, str')
            else none
          else none
      end
  | StNegation =>
      next ← walk_negations fuel n ev (relatedValues str) (currentState str);
      match next with
      | None => Ok (-1, StNegation, str)
      | Some cur =>
          st' ← get_at (states n) cur;
          match stateType st' with
          | StFinal => Ok (0, StNormal, str)
          | _ =>
              hit ← first_edge n (forwardEdges st') 0 ev (relatedValues str);
              match hit with
              | Some i => Ok (i, StNormal, setCurrentState cur str)
              | None => none
              end
          end
      end
  | _ => none
  end.

(** the engine: the pool in its iteration order, the matches to be removed,
    and the sequence numbers of [SequencePartition] *)
Record CEPEngine := mkEngine {
  counter : Z;
  pool : list NFAStructure;
  deletedStructures : list Z;
  sequence : Z;
  hasWindow : bool;
}.

Definition CEPEngine_new : CEPEngine := mkEngine 0 [] [] 0 false.

Definition with_pool (p : list NFAStructure) (g : CEPEngine) : CEPEngine :=
  mkEngine (counter g) p (deletedStructures g) (sequence g) (hasWindow g).

(** the loop over the edges of the start state *)
Fixpoint start_edge (n : NFAController) (es : list nat) (ev : Ev) : result (option nat) :=
  match es with
  | [] => Ok None
  | e :: es =>
      edge ← get_at (transitions n) e;
      if evaluate edge ev None then Ok (Some e) else start_edge n es ev
  end.

Definition createStartStructure (n : NFAController) (ev : Ev) (g : CEPEngine) : result CEPEngine :=
  match startState n with
  | None => Err Dangling
  | Some s =>
      st ← get_at (states n) s;
      hit ← start_edge n (forwardEdges st) ev;
      match hit with
      | None => Ok g
      | Some e =>
          str ← NFAStructure_new n (sequence g);
          str' ← addEvent n ev e str;
          Ok (mkEngine (counter g) (pool g ++ [str']) (deletedStructures g) (sequence g + 1) (hasWindow g))
      end
  end.

(** [publishResultMatches], one by one *)
Definition publishResultMatches (str : NFAStructure) : list (event Ev) := (fun i => Data (originalEvent i) false) <$> events str.

(** what happens to a match when an event is offered to it *)
Inductive verdict := Kept | Removed | Completed.

(** the common part of the two [engineProcess] functions *)
Definition engineStep (fuel : nat) (n : NFAController) (ev : Ev) (window : bool) (str : NFAStructure) : result (verdict * NFAStructure) :=
  '(res, type, str) ← checkPredicate fuel n ev str;
  if negb (res =? -1) then
    if negb window || checkWindowTime ev str then
      st ← get_at (states n) (currentState str);
      e ← getForwardEdgeByIndex st (Z.to_nat res);
      str' ← addEvent n ev e str;
      Ok (if complete str' then Completed else Kept, str')
    else Ok (Removed, str)
  else
    match type with
    | StNegation => Ok (Removed, str)
    | _ => Ok (Kept, str)
    end.

(** FirstMatchEngine: one match at a time *)
Definition first_runEngine (fuel : nat) (n : NFAController) (ev : Ev) (g : CEPEngine) : result (list (event Ev) * CEPEngine) :=
  match pool g with
  | [] => g' ← createStartStructure n ev g; Ok ([], g')
  | str :: rest =>
      '(v, str') ← engineStep fuel n ev (hasWindow g) str;
      match v with
      | Kept => Ok ([], with_pool (str' :: rest) g)
      | Removed => Ok ([], with_pool [] g)
      | Completed => Ok (publishResultMatches str', mkEngine (counter g + 1) [] (deletedStructures g) (sequence g) (hasWindow g))
      end
  end.

(** NextMatchEngine: the loop over the pool *)
Fixpoint next_process (fuel : nat) (n : NFAController) (ev : Ev) (window : bool) (p : list NFAStructure)
    : result (list (event Ev) * list NFAStructure * list Z * Z) :=
  match p with
  | [] => Ok ([], [], [], 0)
  | str :: p =>
      '(v, str') ← engineStep fuel n ev window str;
      '(out, p', del, found) ← next_process fuel n ev window p;
      match v with
      | Kept => Ok (out, str' :: p', del, found)
      | Removed => Ok (out, str' :: p', equality str' :: del, found)
      | Completed => Ok (publishResultMatches str' ++ out, str' :: p', equality str' :: del, found + 1)
      end
  end.

(** [runGCstructures]: [i] runs against the size of a list that shrinks *)
Fixpoint runGC_loop (i : nat) (deleted : list Z) (p : list NFAStructure) : list Z * list NFAStructure :=
  match deleted with
  | [] => ([], p)
  | d :: rest =>
      if decide (i < length deleted)%nat then runGC_loop (S i) rest (filter (fun s => equality s <> d) p)
      else (deleted, p)
  end.
Definition runGCstructures (g : CEPEngine) : CEPEngine :=
  let '(del, p) := runGC_loop 0 (deletedStructures g) (pool g) in
  mkEngine (counter g) p del (sequence g) (hasWindow g).

Definition next_runEngine (fuel : nat) (n : NFAController) (ev : Ev) (g : CEPEngine) : result (list (event Ev) * CEPEngine) :=
  '(out, p, del, found) ← next_process fuel n ev (hasWindow g) (pool g);
  let g := mkEngine (counter g + found) p (deletedStructures g ++ del) (sequence g) (hasWindow g) in
  g ← createStartStructure n ev g;
  Ok (out, match deletedStructures g with [] => g | _ => runGCstructures g end).

(** ** The operator (Matcher.hpp): [outdated] is not looked at *)
Inductive SelectionStrategy := NextMatches | AllMatches | ContiyuityMatches | FirstMatch | RecentMatch.

Definition matcher_processDataElement (strategy : SelectionStrategy) (fuel : nat) (n : NFAController)
    (data : Ev) (outdated : bool) (g : CEPEngine) : result (list (event Ev) * CEPEngine) :=
  match strategy with
  | FirstMatch => first_runEngine fuel n data g
  | NextMatches => next_runEngine fuel n data g
  | _ => Err Dangling (** [createEngine] leaves the engine pointer unset *)
  end.

Definition matcher_processPunctuation (p : PType) (g : CEPEngine) : list (event Ev) * CEPEngine := ([Punct p], g).
End Cep.

Arguments NFAEdge Ev D : clear implicits.
Arguments NFAState : clear implicits.
Arguments NFAController Ev D : clear implicits.
Arguments NFAStructure Ev D : clear implicits.
Arguments Instance_ Ev : clear implicits.
Arguments CEPEngine Ev D : clear implicits.

(** ** States and edges by their identifiers *)

Section identifiers.
Context {Ev D : Type}.
Implicit Types n : NFAController Ev D.

(** states and edges are numbered in the order of their creation *)
Record numbered n : Prop := {
  state_numbers : forall i s, states n !! i = Some s -> stateID s = Z.of_nat i;
  edge_numbers : forall i e, transitions n !! i = Some e -> edgeID e = Z.of_nat i
}.

Lemma numbered_new : numbered (NFAController_new (Ev := Ev) (D := D)).
Proof. split; intros i x; cbn; by rewrite lookup_nil. Qed.

Lemma numbered_add_state t name sp n : numbered n -> numbered (add_state t name sp n).2.
Proof.
  intros [Hs He]. split; [|done]. intros i s [Hi|[Hi [Hj <-]%list_lookup_singleton_Some]]%lookup_app_Some; [by apply Hs|].
  cbn. lia.
Qed.

Lemma numbered_createStartState name n : numbered n -> numbered (createStartState name n).2.
Proof. intros Hn. destruct (numbered_add_state StStart name Star n Hn) as [Hs He]. by split. Qed.

Lemma numbered_createForwardEdge p n : numbered n -> numbered (createForwardEdge p n).2.
Proof.
  intros [Hs He]. split; [done|]. intros i e [Hi|[Hi [Hj <-]%list_lookup_singleton_Some]]%lookup_app_Some; [by apply He|].
  cbn. lia.
Qed.

Lemma numbered_createForwardTransition src edge dest n n' : numbered n -> createForwardTransition src edge dest n = Ok n' -> numbered n'.
Proof.
  intros [Hs He] Hc. unfold createForwardTransition in Hc. bind_inv Hc as (e & Hge%get_at_Ok & Hc). destruct (edgeType e); [done|].
  bind_inv Hc as (s & Hgs%get_at_Ok & Hc). bind_inv Hc as (s' & Hadd & [= <-]). split.
  - intros i s0. cbn [states set_state set_edge]. intros [[-> [<- _]]|[_ Hi]]%list_lookup_insert_Some; [|by apply Hs].
    unfold addEdge in Hadd. specialize (Hs _ _ Hgs). destruct (stateType s); injection Hadd as <- || discriminate Hadd; exact Hs.
  - intros i e0. cbn [transitions set_state set_edge]. intros [[<- [<- _]]|[_ Hi]]%list_lookup_insert_Some; [exact (He _ _ Hge)|by apply He].
Qed.

Lemma elem_of_states_of t n i : i ∈ states_of t n <-> exists s, states n !! i = Some s /\ stateType s = t.
Proof.
  unfold states_of. rewrite list_elem_of_omap. split.
  - intros (j & _ & Hj). destruct (states n !! j) as [s|] eqn:Hs; cbn in Hj; [|done]. case_decide; [|done]. injection Hj as ->. by exists s.
  - intros (s & Hs & Ht). exists i. split; [apply elem_of_seq; split; [lia|by eapply lookup_lt_Some]|]. rewrite Hs. cbn. by rewrite decide_True.
Qed.

Lemma with_id_numbered n i l : numbered n -> is_Some (states n !! i) -> with_id n (Z.of_nat i) l = if decide (i ∈ l) then Some i else None.
Proof.
  intros [Hs _] [s Hi]. unfold with_id. induction l as [|j l IH]; [done|]. rewrite filter_cons. destruct (decide (_ = _)) as [Hj|Hj].
  - cbn [head]. destruct (states n !! j) as [s'|] eqn:Hsj; [|done]. injection Hj as Hid. rewrite (Hs j s' Hsj) in Hid. apply Nat2Z.inj in Hid as ->.
    by rewrite decide_True by (by left).
  - rewrite IH. apply decide_ext. rewrite elem_of_cons. split; [by right|]. intros [->|?]; [|done]. destruct Hj. rewrite Hi. cbn. by rewrite (Hs j s Hi).
Qed.

(** [getState] finds every state but the Kleene states and earlier start states *)
Lemma getState_spec n start i s : numbered n -> startState n = Some start -> is_Some (states n !! start) -> states n !! i = Some s ->
  getState (Z.of_nat i) n = Ok (if decide (i = start \/ stateType s ∈ [StNegation; StNormal; StFinal]) then Some i else None).
Proof.
  intros Hn Hstart [s0 Hs0] Hi. unfold getState. rewrite Hstart, (get_at_Some _ _ _ Hs0). run_step.
  rewrite (state_numbers _ Hn _ _ Hs0). destruct (Z.eqb_spec (Z.of_nat start) (Z.of_nat i)) as [He|He].
  - apply Nat2Z.inj in He as ->. by rewrite decide_True by (by left).
  - f_equal. rewrite with_id_numbered by done. apply decide_ext. rewrite !elem_of_app, !elem_of_states_of, !elem_of_cons, elem_of_nil, Hi.
    split; [intros [(? & [= <-] & ?)|[(? & [= <-] & ?)|(? & [= <-] & ?)]]; tauto|]. intros [->|Ht]; [done|]. destruct Ht as [?|[?|[?|[]]]]; eauto 6.
Qed.

(** a transition by identifiers connects a state with itself only *)
Lemma createForwardTransition_id_self src edge dest n n' : createForwardTransition_id src edge dest n = Ok n' -> src = dest.
Proof.
  unfold createForwardTransition_id. destruct (Z.eqb_spec src dest) as [->|]; [done|]. intros Hc. by bind_inv Hc as (u & Hu & _).
Qed.
End identifiers.
