(* ===== verification/CepSequences.v ===== *)
(** * CepSequences: sequence patterns, from the DSL to the matches

    Models the pattern expressions of [src/cep/dsl/CEPState.hpp] and their
    translation by [Matcher::constructNFA] ([src/cep/Matcher.hpp]), and proves
    what the two engines of [Cep.v] publish for a sequence pattern. *)

From stdpp Require Import pretty.
From S2P Require Import Prelude Stream OrderedMap Cep.

(** ** Pattern expressions (CEPState.hpp) *)

Inductive Op := SEQ | OR | NOT | START | END.

Section dsl.
Context {Ev D : Type}.

(** a state object: its id and its predicate; the start state has none *)
Record CEPNode := mkNode { node_id : Z; node_pred : option (EdgePredicate (Ev := Ev) (D := D)) }.

Record Expr := mkExpr { op : Op; fromState : CEPNode; toState : option CEPNode }.

(** [CEPState]: a node and the expressions collected in it *)
Record CEPState := mkCEPState { node : CEPNode; exprs : list Expr }.

(** the three constructors: the start state, a final state (tag [Stopp]) and
    an intermediate one, whose id is the next value of the global counter *)
Definition CEPState_start : CEPState := let n := mkNode 0 None in mkCEPState n [mkExpr START n None].
Definition CEPState_stop (p : EdgePredicate) : CEPState := let n := mkNode 1000 (Some p) in mkCEPState n [mkExpr END n None].
Definition CEPState_mid (p : EdgePredicate) (globalId : Z) : CEPState * Z :=
  (mkCEPState (mkNode (globalId + 1) (Some p)) [], globalId + 1).

(** [a >> b], [a || b] and [!a] *)
Definition seq_op (this other : CEPState) : CEPState :=
  mkCEPState (node other) (exprs other ++ exprs this ++ [mkExpr SEQ (node this) (Some (node other))]).
Definition or_op (this other : CEPState) : CEPState :=
  mkCEPState (node this) (exprs this ++ exprs other ++ [mkExpr OR (node this) (Some (node other))]).
Definition not_op (this : CEPState) : CEPState :=
  mkCEPState (node this) (exprs this ++ [mkExpr NOT (node this) None]).

(** ** constructNFA (Matcher.hpp) *)

(** the first loop: the nodes by id, in the order of a [std::map] *)
Definition collect_node (m : list (Z * CEPNode)) (n : CEPNode) : list (Z * CEPNode) := om_put Z.ltb (node_id n) n m.
Definition collect_expr (m : list (Z * CEPNode)) (e : Expr) : list (Z * CEPNode) :=
  let m := collect_node m (fromState e) in
  match toState e with Some n => collect_node m n | None => m end.

(** the second loop: a state per node and, except for the start, its edge *)
Record StateInfo := mkInfo { nptr : nat; eptr : option nat }.

Definition create_node (z : Z) (n : CEPNode) (nfa : NFAController Ev D) : result (StateInfo * NFAController Ev D) :=
  if z =? 0 then
    let '(i, nfa) := createStartState (pretty z) nfa in Ok (mkInfo i None, nfa)
  else
    let '(i, nfa) := (if z =? 1000 then createFinalState (pretty z) nfa else createNormalState (pretty z) nfa) in
    match node_pred n with
    | None => Err AssertFailed (** [NFAEdge] asserts that it has a predicate *)
    | Some p => let '(e, nfa) := createForwardEdge p nfa in Ok (mkInfo i (Some e), nfa)
    end.

Fixpoint create_nodes (m : list (Z * CEPNode)) (nfa : NFAController Ev D) : result (list (Z * StateInfo) * NFAController Ev D) :=
  match m with
  | [] => Ok ([], nfa)
  | (z, n) :: m =>
      '(i, nfa) ← create_node z n nfa;
      '(info, nfa) ← create_nodes m nfa;
      Ok ((z, i) :: info, nfa)
  end.

(** the third loop: only sequences become transitions *)
Definition connect (info : list (Z * StateInfo)) (e : Expr) (nfa : NFAController Ev D) : result (NFAController Ev D) :=
  match op e, toState e with
  | SEQ, Some to =>
      match om_find Z.ltb (node_id (fromState e)) info, om_find Z.ltb (node_id to) info with
      | Some b, Some f =>
          match eptr f with
          | Some edge => createForwardTransition (nptr b) edge (nptr f) nfa
          | None => Err Dangling
          end
      | _, _ => Err Dangling
      end
  | _, _ => Ok nfa
  end.

Fixpoint connect_all (info : list (Z * StateInfo)) (es : list Expr) (nfa : NFAController Ev D) : result (NFAController Ev D) :=
  match es with
  | [] => Ok nfa
  | e :: es => nfa ← connect info e nfa; connect_all info es nfa
  end.

Definition constructNFA (expr : CEPState) (nfa : NFAController Ev D) : result (NFAController Ev D) :=
  '(info, nfa) ← create_nodes (fold_left collect_expr (exprs expr) []) nfa;
  connect_all info (exprs expr) nfa.
End dsl.

Arguments CEPNode Ev D : clear implicits.
Arguments CEPState Ev D : clear implicits.
Arguments Expr Ev D : clear implicits.

(** ** Sequence patterns and their matches *)

Section sequences.
Context {Ev D : Type}.
Implicit Types (n : NFAController Ev D) (str : NFAStructure Ev D).

(** one element of a pattern: the id of its edge and its predicate *)
Definition pstep : Type := Z * EdgePredicate (Ev := Ev) (D := D).

(** from state [i] a chain of normal states leads to a final one *)
Inductive path n : nat -> list pstep -> Prop :=
  | path_end i st : states n !! i = Some st -> stateType st = StFinal -> path n i []
  | path_step i st e edge j rest :
      states n !! i = Some st -> stateType st = StNormal -> forwardEdges st = [e] ->
      transitions n !! e = Some edge -> edgeType edge = Forward -> destState edge = Some j ->
      path n j rest -> path n i ((edgeID edge, predicate edge) :: rest).

(** the automaton of the sequence pattern [p :: rest] *)
Definition sequence_nfa n (p : pstep) (rest : list pstep) : Prop :=
  exists s st e edge j, startState n = Some s /\ states n !! s = Some st /\ forwardEdges st = [e] /\
    transitions n !! e = Some edge /\ edgeType edge = Forward /\ destState edge = Some j /\
    p = (edgeID edge, predicate edge) /\ path n j rest.

(** the matches, skipping events till the next one that fits: what completes
    the pattern [todo] in [h], with what is left of [h] *)
Fixpoint rest_match n (todo : list pstep) (d : option D) (h : list Ev) : option (list Ev * list Ev) :=
  match todo with
  | [] => Some ([], h)
  | (id, p) :: todo' =>
      match h with
      | [] => None
      | e :: h =>
          if p e d then (fun r => (e :: r.1, r.2)) <$> rest_match n todo' (update n d id e) h
          else rest_match n todo d h
      end
  end.

(** the earliest match in [h]; the first predicate sees no related values *)
Fixpoint first_match n (p : pstep) (rest : list pstep) (h : list Ev) : option (list Ev * list Ev) :=
  match h with
  | [] => None
  | e :: h =>
      if p.2 e None then (fun r => (e :: r.1, r.2)) <$> rest_match n rest (update n (init n) p.1 e) h
      else first_match n p rest h
  end.

(** one match after the other *)
Fixpoint all_matches n (p : pstep) (rest : list pstep) (fuel : nat) (h : list Ev) : list (list Ev) :=
  match fuel with
  | O => []
  | S fuel =>
      match first_match n p rest h with
      | Some (m, h') => m :: all_matches n p rest fuel h'
      | None => []
      end
  end.

(** the match that starts with each event that can start one *)
Fixpoint matches_from_everywhere n (p : pstep) (rest : list pstep) (h : list Ev) : list (list Ev) :=
  match h with
  | [] => []
  | e :: h =>
      (if p.2 e None then
         match rest_match n rest (update n (init n) p.1 e) h with Some (m, _) => [e :: m] | None => [] end
       else []) ++ matches_from_everywhere n p rest h
  end.

(** the events of a match as they are published *)
Definition published (m : list Ev) : list (event Ev) := (fun e => Data e false) <$> m.

Lemma rest_match_nil n d h : rest_match n [] d h = Some ([], h).
Proof. by destruct h. Qed.

Lemma rest_match_shorter n todo d h m r : rest_match n todo d h = Some (m, r) -> (length r <= length h)%nat.
Proof.
  revert todo d m r. induction h as [|e h IH]; intros [|[id p] todo] d m r; cbn; [by intros [= <- <-]|done|by intros [= <- <-]|].
  destruct (p e d); [|intros H%IH; lia]. intros ([m' r'] & Hr & Heq)%fmap_Some. cbn in Heq. simplify_eq. apply IH in Hr. cbn. lia.
Qed.

Lemma first_match_shorter n p rest h m r : first_match n p rest h = Some (m, r) -> (length r < length h)%nat.
Proof.
  induction h as [|e h IH]; cbn; [done|]. destruct (p.2 e None); [|intros H%IH; lia].
  intros ([m' r'] & Hr & Heq)%fmap_Some. cbn in Heq. simplify_eq. apply rest_match_shorter in Hr. cbn. lia.
Qed.

Lemma all_matches_fuel n p rest k k' h :
  (length h <= k)%nat -> (length h <= k')%nat -> all_matches n p rest k h = all_matches n p rest k' h.
Proof.
  revert k' h. induction k as [|k IH]; intros [|k'] h Hk Hk'; try done; try (destruct h; [done|cbn in *; lia]).
  cbn. destruct (first_match n p rest h) as [[m r]|] eqn:E; [|done]. apply first_match_shorter in E.
  f_equal. apply IH; lia.
Qed.

(** ** A partial match on its way *)

(** [str] has taken [evs], holds [d] and still needs [todo] *)
Record on_path n str (todo : list pstep) (evs : list Ev) (d : option D) : Prop := {
  op_path : path n (currentState str) todo;
  op_events : originalEvent <$> events str = evs;
  op_values : relatedValues str = d;
  op_complete : complete str = match todo with [] => true | _ => false end;
}.

Lemma publish_events str : publishResultMatches str = published (originalEvent <$> events str).
Proof. unfold publishResultMatches, published. by rewrite <- list_fmap_compose. Qed.

Lemma path_type n i todo : path n i todo -> exists st, states n !! i = Some st /\
  stateType st = match todo with [] => StFinal | _ => StNormal end.
Proof. intros [? st ? ?|? st ? ? ? ? ? ? ? ? ? ? ?]; by exists st. Qed.

(** taking the edge to the rest of the path *)
Lemma addEvent_forward n ev e edge j str todo :
  transitions n !! e = Some edge -> edgeType edge = Forward -> destState edge = Some j -> path n j todo ->
  (exists st, states n !! currentState str = Some st) -> complete str = false ->
  exists str', addEvent n ev e str = Ok str' /\ equality str' = equality str /\
    on_path n str' todo ((originalEvent <$> events str) ++ [ev]) (update n (relatedValues str) (edgeID edge) ev).
Proof.
  intros He Ht Hd Hp [st Hst] Hc. destruct (path_type n j todo Hp) as (st' & Hst' & Hty).
  unfold addEvent. rewrite (get_at_Some _ _ _ Hst), (get_at_Some _ _ _ He). run_step.
  rewrite Ht, Hd. run_step. rewrite (get_at_Some _ _ _ Hst'). run_step.
  eexists. split; [done|]. split; [done|]. constructor; cbn; [done|by rewrite fmap_app|done|].
  rewrite Hty, Hc. by destruct todo.
Qed.

Lemma engineStep_pending n fuel ev w str id p todo evs d :
  on_path n str ((id, p) :: todo) evs d ->
  exists v str', engineStep fuel n ev w str = Ok (v, str') /\ equality str' = equality str /\
    if p ev d then on_path n str' todo (evs ++ [ev]) (update n d id ev) /\ v = match todo with [] => Completed | _ => Kept end
    else str' = str /\ v = Kept.
Proof.
  intros [Hp He Hv Hc]. inversion Hp as [|i st e edge j rest Hst Hty Hf Hed Het Hds Hrest]; subst.
  unfold engineStep, checkPredicate. rewrite (get_at_Some _ _ _ Hst). run_step. rewrite Hty, Hf. cbn [first_edge].
  rewrite (get_at_Some _ _ _ Hed). run_step. unfold evaluate.
  destruct (predicate edge ev (relatedValues str)) eqn:E; cbn [mbind result_bind default].
  - change (id 0) with 0. change (negb (0 =? -1)) with true. change (Z.to_nat 0) with 0%nat. change (checkWindowTime ev str) with true. rewrite orb_true_r. cbn match.
    rewrite (get_at_Some _ _ _ Hst). run_step. unfold getForwardEdgeByIndex. rewrite Hf. cbn [lookup list_lookup mbind result_bind].
    destruct (addEvent_forward n ev e edge j str todo) as (str' & Ha & Hq & Hon); [done..|by exists st|done|].
    rewrite Ha. run_step. eexists _, str'. split; [done|]. split; [done|]. split; [done|].
    rewrite (op_complete _ _ _ _ _ Hon). by destruct todo.
  - change (negb (-1 =? -1)) with false. cbn match. by exists Kept, str.
Qed.

(** a complete match stays as it is *)
Lemma engineStep_final n fuel ev w str evs d : on_path n str [] evs d -> engineStep fuel n ev w str = Ok (Kept, str).
Proof.
  intros [Hp _ _ _]. inversion Hp as [i st Hst Hty|]; subst.
  unfold engineStep, checkPredicate. rewrite (get_at_Some _ _ _ Hst). run_step. by rewrite Hty.
Qed.

(** starting a match *)
Lemma createStart_spec n ev (g : CEPEngine Ev D) p rest : sequence_nfa n p rest ->
  exists g', createStartStructure n ev g = Ok g' /\
    if p.2 ev None then exists str, on_path n str rest [ev] (update n (init n) p.1 ev) /\ equality str = sequence g /\
      g' = mkEngine (counter g) (pool g ++ [str]) (deletedStructures g) (sequence g + 1) (hasWindow g)
    else g' = g.
Proof.
  intros (s & st & e & edge & j & Hs & Hst & Hf & Hed & Het & Hds & -> & Hp).
  unfold createStartStructure. rewrite Hs, (get_at_Some _ _ _ Hst). run_step. rewrite Hf. cbn [start_edge].
  rewrite (get_at_Some _ _ _ Hed). run_step. unfold evaluate. cbn [fst snd].
  destruct (predicate edge ev None) eqn:E; run_step; [|by exists g].
  unfold NFAStructure_new. rewrite Hs. run_step.
  match goal with |- context [addEvent n ev e ?x] => set (str0 := x) end.
  destruct (addEvent_forward n ev e edge j str0 rest) as (str' & Ha & Hq & Hon); [done..|by exists st|done|].
  rewrite Ha. run_step. eexists. split; [done|]. by exists str'.
Qed.
End sequences.

(** ** The engine for the first match *)

Section first_match_engine.
Context {Ev D : Type}.
Variables (n : NFAController Ev D) (p : pstep (Ev := Ev) (D := D)) (rest : list (pstep (Ev := Ev) (D := D))) (fuel : nat).
Hypothesis (Hseq : sequence_nfa n p rest).

Abbreviation step := (first_runEngine fuel n).

Lemma first_engine_empty ev g : pool g = [] -> step ev g = (g' ← createStartStructure n ev g; Ok ([], g')).
Proof. intros H. unfold first_runEngine. by rewrite H. Qed.

Lemma first_engine_one ev g str : pool g = [str] ->
  step ev g = ('(v, str') ← engineStep fuel n ev (hasWindow g) str;
    match v with
    | Kept => Ok ([], with_pool [str'] g)
    | Removed => Ok ([], with_pool [] g)
    | Completed => Ok (publishResultMatches str', mkEngine (counter g + 1) [] (deletedStructures g) (sequence g) (hasWindow g))
    end).
Proof. intros H. unfold first_runEngine. by rewrite H. Qed.

(** the matches still to come, from an empty pool and from a partial match *)
Definition from_empty (h : list Ev) : list (list Ev) := all_matches n p rest (length h) h.
Definition from_partial (todo : list pstep) (evs : list Ev) (d : option D) (h : list Ev) : list (list Ev) :=
  match rest_match n todo d h with Some (m, r) => (evs ++ m) :: from_empty r | None => [] end.

Lemma from_empty_cons e h :
  from_empty (e :: h) =
    if p.2 e None then from_partial rest [e] (update n (init n) p.1 e) h else from_empty h.
Proof.
  unfold from_empty, from_partial. cbn [length all_matches first_match].
  destruct (p.2 e None).
  - destruct (rest_match n rest _ h) as [[m r]|] eqn:E; [|done]. cbn. f_equal.
    apply rest_match_shorter in E. by apply all_matches_fuel.
  - change (all_matches n p rest (S (length h)) h = all_matches n p rest (length h) h). apply all_matches_fuel; lia.
Qed.

Lemma from_partial_cons id q todo evs d e h :
  from_partial ((id, q) :: todo) evs d (e :: h) =
    if q e d then from_partial todo (evs ++ [e]) (update n d id e) h else from_partial ((id, q) :: todo) evs d h.
Proof.
  unfold from_partial. cbn [rest_match]. destruct (q e d).
  - destruct (rest_match n todo _ h) as [[m r]|] eqn:E; [|done]. cbn. by rewrite <- app_assoc.
  - destruct h; done.
Qed.

Lemma first_run (Hlong : rest <> []) (h : list Ev) (g : CEPEngine Ev D) :
  (pool g = [] -> exists g', run step h g = Ok (from_empty h ≫= published, g')) /\
  (forall str todo evs d, pool g = [str] -> on_path n str todo evs d -> todo <> [] ->
     exists g', run step h g = Ok (from_partial todo evs d h ≫= published, g')).
Proof.
  revert g. induction h as [|e h IH]; intros g.
  - split; [by exists g|]. intros str todo evs d _ _ Htodo. exists g. destruct todo as [|[id q] todo]; done.
  - split.
    + intros Hpool. cbn [run]. rewrite (first_engine_empty e g Hpool).
      destruct (createStart_spec n e g p rest Hseq) as (g' & Hc & Hg'). rewrite Hc. run_step.
      rewrite from_empty_cons. destruct (p.2 e None).
      * destruct Hg' as (str & Hon & _ & Hg'). destruct (IH g') as [_ IH2].
        destruct (IH2 str rest [e] _ ltac:(subst g'; cbn [pool]; by rewrite Hpool) Hon Hlong) as (g2 & Hr).
        rewrite Hr. by exists g2.
      * subst g'. destruct (IH g) as [IH1 _]. destruct (IH1 Hpool) as (g2 & Hr). rewrite Hr. by exists g2.
    + intros str todo evs d Hpool Hon Htodo. destruct todo as [|[id q] todo]; [done|]. clear Htodo.
      cbn [run]. rewrite (first_engine_one e g str Hpool).
      destruct (engineStep_pending n fuel e (hasWindow g) str id q todo evs d Hon) as (v & str' & Hs & _ & Hv).
      rewrite Hs. run_step. rewrite from_partial_cons. destruct (q e d).
      * destruct Hv as [Hon' ->]. destruct todo as [|t todo].
        -- destruct (IH (mkEngine (counter g + 1) [] (deletedStructures g) (sequence g) (hasWindow g))) as [IH1 _].
           destruct (IH1 eq_refl) as (g2 & Hr). run_step. rewrite Hr. exists g2. unfold from_partial. rewrite rest_match_nil.
           run_step. rewrite app_nil_r, bind_cons, publish_events, (op_events _ _ _ _ _ Hon'). done.
        -- destruct (IH (with_pool [str'] g)) as [_ IH2]. destruct (IH2 str' _ _ _ eq_refl Hon' ltac:(done)) as (g2 & Hr).
           run_step. rewrite Hr. by exists g2.
      * destruct Hv as [-> ->]. destruct (IH (with_pool [str] g)) as [_ IH2]. destruct (IH2 str _ _ _ eq_refl Hon ltac:(done)) as (g2 & Hr).
        run_step. rewrite Hr. by exists g2.
Qed.

(** a pattern of a single event fills the pool with a match nobody collects *)
Lemma first_run_stuck (Hone : rest = []) (h : list Ev) (g : CEPEngine Ev D) :
  (pool g = [] \/ exists str evs d, pool g = [str] /\ on_path n str [] evs d) -> exists g', run step h g = Ok ([], g').
Proof.
  revert g. induction h as [|e h IH]; intros g Hg; [by exists g|]. cbn [run].
  destruct Hg as [Hpool|(str & evs & d & Hpool & Hon)].
  - rewrite (first_engine_empty e g Hpool). destruct (createStart_spec n e g p rest Hseq) as (g' & Hc & Hg'). rewrite Hc. run_step.
    destruct (IH g') as (g2 & Hr); [|rewrite Hr; by exists g2].
    destruct (p.2 e None); [right|left; by subst].
    destruct Hg' as (str & Hon & _ & ->). exists str. do 2 eexists. cbn [pool]. rewrite Hpool. split; [done|]. by rewrite Hone in Hon.
  - rewrite (first_engine_one e g str Hpool), (engineStep_final n fuel e _ str evs d Hon). run_step.
    destruct (IH (with_pool [str] g)) as (g2 & Hr); [|rewrite Hr; by exists g2]. right. by exists str, evs, d.
Qed.
End first_match_engine.

Section first_match_property.
Context {Ev D : Type}.
Implicit Types (n : NFAController Ev D) (h : list Ev).

(** C18: the first-match engine on a sequence pattern.  For a pattern of two
    or more elements it publishes exactly the earliest matches, one after the
    other: the first event that starts the pattern, then for each further
    element the next event that fits it (given the related values gathered so
    far), and after the last one the search starts afresh.  A pattern of one
    element is never published, and its first occurrence blocks the engine for
    good. *)
Theorem first_match_engine n (p : pstep) (rest : list pstep) (fuel : nat) h (Hseq : sequence_nfa n p rest) :
  (rest <> [] -> exists g, run (first_runEngine fuel n) h CEPEngine_new = Ok (all_matches n p rest (length h) h ≫= published, g)) /\
  (rest = [] -> exists g, run (first_runEngine fuel n) h CEPEngine_new = Ok ([], g)).
Proof.
  split; intros H.
  - by apply (first_run n p rest fuel Hseq H h CEPEngine_new).
  - apply (first_run_stuck n p rest fuel Hseq H h CEPEngine_new). by left.
Qed.
End first_match_property.

(** ** The engine for all starting points *)

Section next_match_engine.
Context {Ev D : Type}.
Variables (n : NFAController Ev D) (p : pstep (Ev := Ev) (D := D)) (rest : list (pstep (Ev := Ev) (D := D))) (fuel : nat).
Hypothesis (Hseq : sequence_nfa n p rest) (Hlong : rest <> []).
Implicit Types (str : NFAStructure Ev D) (g : CEPEngine Ev D).

Lemma path_functional i todo todo' : path n i todo -> path n i todo' -> todo = todo'.
Proof.
  intros H. revert todo'. induction H as [i st Hst Hty|i st e edge j rest' Hst Hty Hf Hed Het Hds Hp IH]; intros todo' H';
    inversion H' as [? st' Hst' Hty'|? st' e' edge' j' rest'' Hst' Hty' Hf' Hed' Het' Hds' Hp']; simplify_eq; try congruence.
  assert (e' = e) as -> by congruence. assert (edge' = edge) as -> by congruence. assert (j' = j) as -> by congruence.
  by rewrite (IH _ Hp').
Qed.

(** what a partial match will still contribute *)
Definition future (h : list Ev) str (out : list (list Ev)) : Prop :=
  exists todo evs d, on_path n str todo evs d /\
    out = match todo with
          | [] => []
          | _ => match rest_match n todo d h with Some (m, _) => [evs ++ m] | None => [] end
          end.

Definition tracked str : Prop := exists todo evs d, on_path n str todo evs d.

Lemma complete_future h str : tracked str -> complete str = true -> future h str [].
Proof. intros (todo & evs & d & Hon) Hc. exists todo, evs, d. split; [done|]. rewrite (op_complete _ _ _ _ _ Hon) in Hc. by destruct todo. Qed.

(** one event offered to one match *)
Lemma step_future ev w str : tracked str ->
  exists v str', engineStep fuel n ev w str = Ok (v, str') /\ equality str' = equality str /\ tracked str' /\
    v <> Removed /\ (complete str = true -> str' = str /\ v = Kept) /\ (v = Completed -> complete str' = true) /\
    forall h out', future h str' out' ->
      exists out, future (ev :: h) str out /\
        out = match v with Completed => [originalEvent <$> events str'] | _ => [] end ++ out'.
Proof.
  intros (todo & evs & d & Hon). destruct todo as [|[id q] todo].
  - exists Kept, str. rewrite (engineStep_final n fuel ev w str evs d Hon). split; [done|]. split; [done|].
    split; [by exists [], evs, d|]. split; [done|]. split; [done|]. split; [done|].
    intros h out' (todo' & evs' & d' & Hon' & ->). exists []. split; [by exists [], evs, d|].
    by rewrite (path_functional _ _ _ (op_path _ _ _ _ _ Hon') (op_path _ _ _ _ _ Hon)).
  - destruct (engineStep_pending n fuel ev w str id q todo evs d Hon) as (v & str' & Hs & Hq & Hv).
    exists v, str'. split; [done|]. split; [done|].
    assert (complete str = false) as Hc by apply (op_complete _ _ _ _ _ Hon).
    destruct (q ev d) eqn:E; destruct Hv as [Hon' ->].
    + split; [by exists todo, (evs ++ [ev]), (update n d id ev)|]. split; [by destruct todo|]. split; [by rewrite Hc|].
      split; [intros Hv; rewrite (op_complete _ _ _ _ _ Hon'); by destruct todo|].
      intros h out' (todo' & evs' & d' & Hon2 & ->).
      pose proof (path_functional _ _ _ (op_path _ _ _ _ _ Hon2) (op_path _ _ _ _ _ Hon')) as ->.
      pose proof (op_events _ _ _ _ _ Hon2) as <-. pose proof (op_values _ _ _ _ _ Hon2) as <-.
      pose proof (op_values _ _ _ _ _ Hon') as Hvals. pose proof (op_events _ _ _ _ _ Hon') as Hevs.
      eexists. split; [exists ((id, q) :: todo), evs, d; split; [done|reflexivity]|].
      cbn [rest_match]. rewrite E, <- Hvals, Hevs. destruct todo as [|t todo].
      * rewrite rest_match_nil. cbn. done.
      * destruct (rest_match n (t :: todo) (relatedValues str') h) as [[m r]|] eqn:Em; [|done]. cbn. by rewrite <- app_assoc.
    + subst str'. split; [by exists ((id, q) :: todo), evs, d|]. split; [done|]. split; [done|]. split; [done|].
      intros h out' (todo' & evs' & d' & Hon2 & ->).
      pose proof (path_functional _ _ _ (op_path _ _ _ _ _ Hon2) (op_path _ _ _ _ _ Hon)) as ->.
      eexists. split; [exists ((id, q) :: todo), evs', d'; split; [done|reflexivity]|].
      cbn [rest_match app]. destruct Hon as [_ _ Hval _], Hon2 as [_ _ Hval2 _].
      rewrite <- Hval2, Hval, E. by destruct h.
Qed.

(** one event offered to the whole pool *)
Lemma pool_future ev w (ps : list (NFAStructure Ev D)) : Forall tracked ps ->
  exists ms ps' del found, next_process fuel n ev w ps = Ok (ms ≫= published, ps', del, found) /\
    Forall2 (fun s s' => equality s' = equality s /\ (complete s = true -> complete s' = true)) ps ps' /\
    Forall tracked ps' /\
    (forall x, x ∈ del -> exists s', s' ∈ ps' /\ equality s' = x /\ complete s' = true) /\
    forall h outs', Forall2 (future h) ps' outs' ->
      exists outs, Forall2 (future (ev :: h)) ps outs /\ concat outs ≡ₚ ms ++ concat outs'.
Proof.
  intros Ht. induction Ht as [|s ps Hs _ IH].
  { exists [], [], [], 0. split; [done|]. do 2 (split; [constructor|]). split; [by intros ? ?%not_elem_of_nil|].
    intros h outs' Ho. apply Forall2_nil_inv_l in Ho as ->. exists []. split; [constructor|done]. }
  destruct IH as (ms & ps' & del & found & Hrun & Hrel & Ht' & Hdel & Hfut).
  destruct (step_future ev w s Hs) as (v & s' & Hstep & Hq & Hts' & Hnr & Hkeep & Hcompl & Hf).
  assert (forall h outs', Forall2 (future h) (s' :: ps') outs' ->
    exists outs, Forall2 (future (ev :: h)) (s :: ps) outs /\
      concat outs ≡ₚ (match v with Completed => [originalEvent <$> events s'] | _ => [] end ++ ms) ++ concat outs') as Hall.
  { intros h outs' Ho. inversion Ho as [|? o ? os Hso Hos]; subst. destruct (Hf h o Hso) as (o1 & Ho1 & ->).
    destruct (Hfut h os Hos) as (outs & Houts & Hperm). eexists (_ :: outs). split; [by constructor|].
    cbn [concat]. rewrite Hperm. rewrite <- !app_assoc. apply Permutation_app_head. rewrite !app_assoc.
    apply Permutation_app_tail, Permutation_app_comm. }
  assert (Forall2 (fun s s' => equality s' = equality s /\ (complete s = true -> complete s' = true)) (s :: ps) (s' :: ps')) as Hrel'.
  { constructor; [|done]. split; [done|]. intros Hc. by destruct (Hkeep Hc) as [-> _]. }
  cbn [next_process]. rewrite Hstep, Hrun. run_step. destruct v; [|done|].
  - exists ms, (s' :: ps'), del, found. split; [done|]. split; [done|]. split; [by constructor|].
    split; [intros x Hx; destruct (Hdel x Hx) as (t & ? & ? & ?); exists t; set_solver|]. done.
  - exists ((originalEvent <$> events s') :: ms), (s' :: ps'), (equality s' :: del), (found + 1).
    split; [by rewrite bind_cons, publish_events|]. split; [done|]. split; [by constructor|]. split; [|done].
    intros x [->|Hx]%elem_of_cons; [exists s'; split; [by left|by split; [|apply Hcompl]]|].
    destruct (Hdel x Hx) as (t & ? & ? & ?). exists t. set_solver.
Qed.

(** collecting complete matches takes nothing away *)
Lemma filter_future h (keep : NFAStructure Ev D -> Prop) `{!forall s, Decision (keep s)} ps outs' :
  Forall tracked ps -> (forall s, s ∈ ps -> ~ keep s -> complete s = true) ->
  Forall2 (future h) (filter keep ps) outs' -> exists outs, Forall2 (future h) ps outs /\ concat outs = concat outs'.
Proof.
  intros Ht. revert outs'. induction Ht as [|s ps Hs _ IH]; intros outs' Hc Ho.
  - apply Forall2_nil_inv_l in Ho as ->. by exists [].
  - assert (forall t, t ∈ ps -> ~ keep t -> complete t = true) as Hc' by (intros t Ht; apply Hc; by right).
    destruct (decide (keep s)) as [Hk|Hk].
    + rewrite filter_cons_True in Ho by done. inversion Ho as [|? o ? os Hso Hos]; subst.
      destruct (IH os Hc' Hos) as (outs & Houts & Heq). exists (o :: outs). split; [by constructor|]. cbn. by rewrite Heq.
    + rewrite filter_cons_False in Ho by done. destruct (IH outs' Hc' Ho) as (outs & Houts & Heq).
      exists ([] :: outs). split; [|done]. constructor; [|done]. apply complete_future; [done|]. apply Hc; [by left|done].
Qed.

Lemma runGC_loop_spec i deleted (ps : list (NFAStructure Ev D)) :
  exists gone left, runGC_loop i deleted ps = (left, filter (fun s => equality s ∉ gone) ps) /\ deleted = gone ++ left.
Proof.
  revert i ps. induction deleted as [|d deleted IH]; intros i ps; cbn [runGC_loop].
  - exists [], []. split; [|done]. f_equal. symmetry. apply filter_all. set_solver.
  - case_decide.
    + destruct (IH (S i) (filter (fun s => equality s <> d) ps)) as (gone & left & -> & ->).
      exists (d :: gone), left. split; [|done]. f_equal. rewrite list_filter_filter. apply list_filter_iff. intros s. set_solver.
    + exists [], (d :: deleted). split; [|done]. f_equal. symmetry. apply filter_all. set_solver.
Qed.

Record next_inv g : Prop := {
  ni_tracked : Forall tracked (pool g);
  ni_old : Forall (fun s => equality s < sequence g) (pool g);
  ni_distinct : NoDup (equality <$> pool g);
  ni_deleted_old : Forall (fun d => d < sequence g) (deletedStructures g);
  ni_deleted : forall s, s ∈ pool g -> equality s ∈ deletedStructures g -> complete s = true;
}.

Lemma Forall2_equality (ps ps' : list (NFAStructure Ev D)) :
  Forall2 (fun s s' => equality s' = equality s /\ (complete s = true -> complete s' = true)) ps ps' ->
  equality <$> ps' = equality <$> ps /\
  forall s', s' ∈ ps' -> exists s, s ∈ ps /\ equality s = equality s' /\ (complete s = true -> complete s' = true).
Proof.
  induction 1 as [|s s' ps ps' [Hq Hc] _ [IH1 IH2]]; [split; [done|by intros ? ?%not_elem_of_nil]|].
  split; [by rewrite !fmap_cons, Hq, IH1|]. intros t [->|Ht]%elem_of_cons.
  - exists s. split; [by left|by rewrite Hq].
  - destruct (IH2 t Ht) as (t0 & ? & ?). exists t0. split; [by right|done].
Qed.

Lemma NoDup_equality_eq (ps : list (NFAStructure Ev D)) s t :
  NoDup (equality <$> ps) -> s ∈ ps -> t ∈ ps -> equality s = equality t -> s = t.
Proof.
  induction ps as [|u ps IH]; [by intros _ ?%not_elem_of_nil|]. rewrite fmap_cons, NoDup_cons. intros [Hu Hnd].
  intros [->|Hs]%elem_of_cons [->|Ht]%elem_of_cons Heq; [done| | |by apply IH].
  - destruct Hu. rewrite Heq. by apply list_elem_of_fmap_2.
  - destruct Hu. rewrite <- Heq. by apply list_elem_of_fmap_2.
Qed.

(** after the pool has been offered the event *)
Lemma processed_inv g ps' del c :
  next_inv g -> Forall tracked ps' ->
  Forall2 (fun s s' => equality s' = equality s /\ (complete s = true -> complete s' = true)) (pool g) ps' ->
  (forall x, x ∈ del -> exists s', s' ∈ ps' /\ equality s' = x /\ complete s' = true) ->
  next_inv (mkEngine c ps' (deletedStructures g ++ del) (sequence g) (hasWindow g)).
Proof.
  intros [Ht Hold Hnd Hdo Hdel] Ht' Hrel Hd. destruct (Forall2_equality _ _ Hrel) as [Heq Hback].
  rewrite Forall_forall in Hold. rewrite Forall_forall in Hdo. constructor; cbn [pool sequence deletedStructures].
  - done.
  - apply Forall_forall. intros s' Hs'. destruct (Hback s' Hs') as (s & Hs & <- & _). by apply Hold.
  - by rewrite Heq.
  - apply Forall_forall. intros x [Hx|Hx]%elem_of_app; [by apply Hdo|]. destruct (Hd x Hx) as (s' & Hs' & <- & _).
    destruct (Hback s' Hs') as (s & Hs & <- & _). by apply Hold.
  - intros s' Hs' [Hin|Hin]%elem_of_app.
    + destruct (Hback s' Hs') as (s & Hs & Hq & Hc). apply Hc, Hdel; [done|by rewrite Hq].
    + destruct (Hd _ Hin) as (t & Htt & Hq & Hc). by rewrite (NoDup_equality_eq ps' s' t) by (done || by rewrite Heq).
Qed.

(** after a new match has been started *)
Lemma started_inv g str : next_inv g -> tracked str -> equality str = sequence g ->
  next_inv (mkEngine (counter g) (pool g ++ [str]) (deletedStructures g) (sequence g + 1) (hasWindow g)).
Proof.
  intros [Ht Hold Hnd Hdo Hdel] Hs Hq. rewrite Forall_forall in Hold. rewrite Forall_forall in Hdo.
  constructor; cbn [pool sequence deletedStructures].
  - apply Forall_app. by split; [|constructor].
  - apply Forall_forall. intros s [Hin| ->%list_elem_of_singleton]%elem_of_app; [specialize (Hold s Hin)|]; lia.
  - rewrite fmap_app. apply NoDup_app. split; [done|]. split; [|apply NoDup_singleton].
    intros x (s & -> & Hin)%list_elem_of_fmap Hx%list_elem_of_singleton. specialize (Hold s Hin). lia.
  - apply Forall_forall. intros x Hx. specialize (Hdo x Hx). lia.
  - intros s [Hin| ->%list_elem_of_singleton]%elem_of_app Hd; [by apply Hdel|]. rewrite Hq in Hd. specialize (Hdo _ Hd). lia.
Qed.

(** after the collection *)
Lemma collected_inv g : next_inv g ->
  next_inv (runGCstructures g) /\
  forall h outs', Forall2 (future h) (pool (runGCstructures g)) outs' ->
    exists outs, Forall2 (future h) (pool g) outs /\ concat outs = concat outs'.
Proof.
  intros [Ht Hold Hnd Hdo Hdel]. unfold runGCstructures.
  destruct (runGC_loop_spec 0 (deletedStructures g) (pool g)) as (gone & left & -> & Hd). rewrite Hd in *. split.
  - constructor; cbn [pool sequence deletedStructures].
    + apply Forall_forall. intros s [_ Hs]%list_elem_of_filter. rewrite Forall_forall in Ht. by apply Ht.
    + apply Forall_forall. intros s [_ Hs]%list_elem_of_filter. rewrite Forall_forall in Hold. by apply Hold.
    + eapply sublist_NoDup; [exact Hnd|]. apply fmap_sublist, sublist_filter.
    + by apply Forall_app in Hdo as [_ ?].
    + intros s [_ Hs]%list_elem_of_filter Hin. apply Hdel; [done|]. set_solver.
  - cbn [pool]. intros h outs' Ho. eapply filter_future; [exact Ht| |exact Ho].
    intros s Hs Hk. apply Hdel; [done|]. apply elem_of_app. left. by destruct (decide (equality s ∈ gone)).
Qed.

Lemma started_future h str : on_path n str rest [h.1] (update n (init n) p.1 h.1) -> forall out,
  future h.2 str out -> p.2 h.1 None = true -> out ++ matches_from_everywhere n p rest h.2 = matches_from_everywhere n p rest (h.1 :: h.2).
Proof.
  destruct h as [e h]. cbn [fst snd]. intros Hon out (todo & evs & d & Hon' & ->) Hp. cbn [matches_from_everywhere]. rewrite Hp.
  rewrite (path_functional _ _ _ (op_path _ _ _ _ _ Hon') (op_path _ _ _ _ _ Hon)).
  rewrite <- (op_events _ _ _ _ _ Hon'), <- (op_values _ _ _ _ _ Hon'), (op_events _ _ _ _ _ Hon), (op_values _ _ _ _ _ Hon).
  f_equal. destruct rest as [|t todo']; [done|]. by destruct (rest_match n (t :: todo') _ h) as [[m r]|].
Qed.

Lemma next_step ev g : next_inv g ->
  exists ms g', next_runEngine fuel n ev g = Ok (ms ≫= published, g') /\ next_inv g' /\
    forall h outs', Forall2 (future h) (pool g') outs' ->
      exists outs, Forall2 (future (ev :: h)) (pool g) outs /\
        ms ++ concat outs' ++ matches_from_everywhere n p rest h ≡ₚ concat outs ++ matches_from_everywhere n p rest (ev :: h).
Proof.
  intros Hinv. destruct (pool_future ev (hasWindow g) (pool g) (ni_tracked g Hinv)) as (ms & ps' & del & found & Hrun & Hrel & Ht' & Hdel & Hfut).
  pose proof (processed_inv g ps' del (counter g + found) Hinv Ht' Hrel Hdel) as Hinv1.
  set (g1 := mkEngine (counter g + found) ps' (deletedStructures g ++ del) (sequence g) (hasWindow g)) in *.
  destruct (createStart_spec n ev g1 p rest Hseq) as (g2 & Hcreate & Hg2).
  set (g3 := match deletedStructures g2 with [] => g2 | _ => runGCstructures g2 end).
  assert (next_inv g2 /\ forall h outs2, Forall2 (future h) (pool g2) outs2 -> exists outs1, Forall2 (future h) ps' outs1 /\
    concat outs2 ++ matches_from_everywhere n p rest h = concat outs1 ++ matches_from_everywhere n p rest (ev :: h)) as [Hinv2 Hf2].
  { destruct (p.2 ev None) eqn:E.
    - destruct Hg2 as (str & Hon & Hq & ->). split; [apply started_inv; [done|by exists rest, [ev], (update n (init n) p.1 ev)|done]|].
      intros h outs2 (outs1 & o & Ho1 & Ho & ->)%Forall2_app_inv_l. exists outs1. split; [done|].
      inversion Ho as [|? o1 ? os Hso Hos]; subst. inversion Hos; subst. rewrite concat_app. cbn [concat].
      rewrite app_nil_r, <- app_assoc. f_equal. by apply (started_future (ev, h) str).
    - subst g2. split; [done|]. intros h outs2 Ho. exists outs2. split; [done|]. cbn [matches_from_everywhere]. by rewrite E. }
  assert (next_inv g3 /\ forall h outs3, Forall2 (future h) (pool g3) outs3 ->
    exists outs2, Forall2 (future h) (pool g2) outs2 /\ concat outs2 = concat outs3) as [Hinv3 Hf3].
  { unfold g3. destruct (deletedStructures g2); [split; [done|]; intros h outs3 Ho; by exists outs3|by apply collected_inv]. }
  exists ms, g3. split; [unfold next_runEngine; rewrite Hrun; run_step; fold g1; by rewrite Hcreate|].
  split; [done|]. intros h outs3 Ho3. destruct (Hf3 h outs3 Ho3) as (outs2 & Ho2 & <-). destruct (Hf2 h outs2 Ho2) as (outs1 & Ho1 & Heq).
  destruct (Hfut h outs1 Ho1) as (outs & Houts & Hperm). exists outs. split; [done|]. rewrite Heq, Hperm. by rewrite app_assoc.
Qed.

Lemma next_run (h : list Ev) g : next_inv g ->
  exists ms outs g', run (next_runEngine fuel n) h g = Ok (ms ≫= published, g') /\
    Forall2 (future h) (pool g) outs /\ ms ≡ₚ concat outs ++ matches_from_everywhere n p rest h.
Proof.
  revert g. induction h as [|ev h IH]; intros g Hinv.
  - assert (exists outs, Forall2 (future []) (pool g) outs /\ concat outs = []) as (outs & Ho & Hc).
    { pose proof (ni_tracked g Hinv) as Ht. induction Ht as [|s ps (todo & evs & d & Hon) _ IH]; [by exists []|].
      destruct IH as (outs & Ho & Hc). exists ([] :: outs). split; [|done]. constructor; [|done].
      exists todo, evs, d. split; [done|]. destruct todo as [|[id q] todo]; done. }
    exists [], outs, g. split; [done|]. split; [done|]. by rewrite Hc.
  - destruct (next_step ev g Hinv) as (ms1 & g1 & Hs & Hinv1 & Hf). destruct (IH g1 Hinv1) as (ms2 & outs1 & g2 & Hr & Ho & Hperm).
    destruct (Hf h outs1 Ho) as (outs & Houts & Hp). exists (ms1 ++ ms2), outs, g2. split; [|split; [done|by rewrite Hperm]].
    cbn [run]. rewrite Hs. run_step. rewrite Hr. run_step. by rewrite bind_app.
Qed.
End next_match_engine.

Section next_match_property.
Context {Ev D : Type}.
Implicit Types (n : NFAController Ev D) (h : list Ev).

(** C17: the next-match engine on a sequence pattern.  For a pattern of two
    or more elements it publishes, as a bag of matches, the match that starts
    with each single event of the stream that can start one, completed by the
    next fitting events; overlapping matches do not disturb each other, and
    the collection of finished matches, which skips some of them, loses and
    repeats none. *)
Theorem next_match_engine n (p : pstep) (rest : list pstep) (fuel : nat) h
  (Hseq : sequence_nfa n p rest) (Hlong : rest <> []) :
  exists ms g, run (next_runEngine fuel n) h CEPEngine_new = Ok (ms ≫= published, g) /\
    ms ≡ₚ matches_from_everywhere n p rest h.
Proof.
  destruct (next_run n p rest fuel Hseq Hlong h CEPEngine_new) as (ms & outs & g & Hr & Ho & Hp).
  - constructor; cbn; try constructor. by intros ? ?%not_elem_of_nil.
  - exists ms, g. split; [done|]. inversion Ho; subst. done.
Qed.
End next_match_property.

(** ** From the DSL to a sequence automaton *)

Section dsl_sequence.
Context {Ev D : Type}.

(** [start >> s1 >> ... >> sk >> last] *)
Definition chain (mids : list (CEPState Ev D)) (last : CEPState Ev D) : CEPState Ev D :=
  seq_op (fold_left seq_op mids CEPState_start) last.

(** intermediate states as their constructor makes them *)
Definition mid_state (id : Z) (p : EdgePredicate) : CEPState Ev D := mkCEPState (mkNode id (Some p)) [].

(** an intermediate or final state: its id and predicate *)
Abbreviation item := (Z * EdgePredicate (Ev := Ev) (D := D))%type.
Implicit Types (tl : list item).

Definition item_node (x : item) : CEPNode Ev D := mkNode x.1 (Some x.2).
Definition node_entry (x : CEPNode Ev D) : Z * CEPNode Ev D := (node_id x, x).
Definition start_node : CEPNode Ev D := mkNode 0 None.

Fixpoint links (x : CEPNode Ev D) (l : list (CEPNode Ev D)) : list (Expr Ev D) :=
  match l with [] => [] | y :: l => mkExpr SEQ x (Some y) :: links y l end.

Lemma fold_seq mids (s : CEPState Ev D) :
  let r := fold_left seq_op ((fun x => mid_state x.1 x.2) <$> mids) s in
  node r = default (node s) (last (item_node <$> mids)) /\ exprs r = exprs s ++ links (node s) (item_node <$> mids).
Proof.
  revert s. induction mids as [|x mids IH]; intros s; [by rewrite app_nil_r|].
  rewrite fmap_cons. cbn [fold_left]. destruct (IH (seq_op s (mid_state x.1 x.2))) as [Hn He]. cbv zeta. rewrite Hn, He. split.
  - rewrite fmap_cons, last_cons. by destruct (last _).
  - rewrite fmap_cons. cbn. by rewrite <- app_assoc.
Qed.

Lemma links_snoc x l y : links x (l ++ [y]) = links x l ++ [mkExpr SEQ (default x (last l)) (Some y)].
Proof.
  revert x. induction l as [|z l IH]; intros x; [done|]. cbn [app links]. rewrite IH, last_cons. by destruct (last l).
Qed.

Lemma chain_exprs mids (p : EdgePredicate) :
  exprs (chain ((fun x => mid_state x.1 x.2) <$> mids) (CEPState_stop p)) =
    mkExpr END (mkNode 1000 (Some p)) None :: mkExpr START start_node None ::
    links start_node (item_node <$> (mids ++ [(1000, p)])).
Proof.
  unfold chain. destruct (fold_seq mids CEPState_start) as [Hn He]. cbv zeta in Hn, He.
  set (r := fold_left seq_op _ _) in *. cbn [seq_op exprs node]. rewrite He, Hn, fmap_app.
  change (item_node <$> [(1000, p)]) with [item_node (1000, p)]. by rewrite links_snoc.
Qed.

(** ids in the order of declaration, strictly between those of the first and the last state *)
Fixpoint increasing (lo : Z) (l : list Z) : Prop :=
  match l with [] => True | z :: l => lo < z /\ increasing z l end.

Lemma om_put_append (k : Z) {V} (v : V) pre post : (forall k', k' ∈ pre.*1 -> k' < k) ->
  om_put Z.ltb k v (pre ++ post) = pre ++ om_put Z.ltb k v post.
Proof.
  induction pre as [|[k' v'] pre IH]; intros Hlt; [done|]. cbn [app om_put].
  assert (k' <? k = true) as -> by (apply Z.ltb_lt, Hlt; by left). rewrite IH; [done|]. intros k0 Hk0. apply Hlt. by right.
Qed.

Lemma om_put_here (k : Z) {V} (v v' : V) post : om_put Z.ltb k v ((k, v') :: post) = (k, v) :: post.
Proof. cbn. by rewrite Z.ltb_irrefl. Qed.

Lemma om_put_entry x post : om_put Z.ltb (node_id x) x (node_entry x :: post) = node_entry x :: post.
Proof. apply om_put_here. Qed.

(** collecting the links inserts the states one by one before the last *)
Lemma collect_links tl x pre stop :
  node_id stop = 1000 -> increasing (node_id x) tl.*1 -> (forall z, z ∈ tl.*1 -> z < 1000) -> node_id x < 1000 ->
  (forall k, k ∈ pre.*1 -> k < node_id x) ->
  fold_left collect_expr (links x (item_node <$> tl) ++ [mkExpr SEQ (default x (last (item_node <$> tl))) (Some stop)])
    (pre ++ [node_entry x; node_entry stop]) =
  pre ++ node_entry x :: (node_entry ∘ item_node <$> tl) ++ [node_entry stop].
Proof.
  intros Hs. revert x pre. induction tl as [|[z q] tl IH]; intros x pre Hinc Hlt Hx Hpre.
  - cbn [fmap list_fmap links app last default fold_left collect_expr fromState toState]. unfold collect_node.
    rewrite om_put_append, om_put_entry by done.
    change (pre ++ [node_entry x; node_entry stop]) with (pre ++ [node_entry x] ++ [node_entry stop]). rewrite app_assoc, om_put_append.
    + rewrite om_put_entry. by rewrite <- app_assoc.
    + rewrite Hs, fmap_app. intros k [Hk| ->%list_elem_of_singleton]%elem_of_app; [specialize (Hpre k Hk); lia|done].
  - destruct Hinc as [Hz Hinc]. cbn [fst] in Hz.
    rewrite fmap_cons. cbn [links app fold_left collect_expr fromState toState]. unfold collect_node.
    rewrite om_put_append, om_put_entry by done.
    change (pre ++ [node_entry x; node_entry stop]) with (pre ++ [node_entry x] ++ [node_entry stop]). rewrite app_assoc, om_put_append.
    2: { rewrite fmap_app. intros k [Hk| ->%list_elem_of_singleton]%elem_of_app; [specialize (Hpre k Hk); cbn; lia|done]. }
    assert (z < 1000) as Hz2 by (apply Hlt; by left).
    cbn [om_put node_entry]. rewrite Hs. cbn [item_node node_id fst].
    assert (1000 <? z = false) as -> by lia. assert (z <? 1000 = true) as -> by lia.
    specialize (IH (item_node (z, q)) (pre ++ [node_entry x])).
    rewrite fmap_cons, <- app_assoc. cbn [app]. rewrite <- app_assoc in IH. cbn [app] in IH.
    assert (default x (last (item_node (z, q) :: (item_node <$> tl))) = default (item_node (z, q)) (last (item_node <$> tl))) as -> by (rewrite last_cons; by destruct (last _)).
    change (z, item_node (z, q)) with (node_entry (item_node (z, q))).
    etransitivity; [apply IH|by rewrite <- app_assoc]; [done| |done|].
    + intros k Hk. apply Hlt. by right.
    + intros k. rewrite fmap_app. intros [Hk| ->%list_elem_of_singleton]%elem_of_app; [specialize (Hpre k Hk); cbn; lia|done].
Qed.

(** ** The automaton of a chain after its first [m] transitions *)

Definition first_edges (m k : nat) : list nat := if (k <? m)%nat then [k] else [].

Fixpoint chain_states (m k : nat) tl : list NFAState :=
  match tl with
  | [] => []
  | x :: tl =>
      mkState (if x.1 =? 1000 then StFinal else StNormal) (Z.of_nat k) (pretty x.1) (first_edges m k) None Star
        :: chain_states m (S k) tl
  end.

Fixpoint chain_edges (m k : nat) tl : list (NFAEdge Ev D) :=
  match tl with
  | [] => []
  | x :: tl => mkEdge Forward (Z.of_nat k) x.2 (if (k <? m)%nat then Some (S k) else None) 0 :: chain_edges m (S k) tl
  end.

Definition chain_nfa (i : option D) (u : option D -> Z -> Ev -> option D) tl (m : nat) : NFAController Ev D :=
  mkNFA (mkState StStart 0 (pretty 0) (first_edges m 0) None Star :: chain_states m 1 tl) (chain_edges m 0 tl) (Some 0%nat) i u.

Fixpoint chain_info (k : nat) tl : list (Z * StateInfo) :=
  match tl with [] => [] | x :: tl => (x.1, mkInfo (S k) (Some k)) :: chain_info (S k) tl end.

Fixpoint chain_steps (k : nat) tl : list (Z * EdgePredicate (Ev := Ev) (D := D)) :=
  match tl with [] => [] | x :: tl => (Z.of_nat k, x.2) :: chain_steps (S k) tl end.

Lemma chain_states_lookup m k tl i : chain_states m k tl !! i =
  (fun x => mkState (if x.1 =? 1000 then StFinal else StNormal) (Z.of_nat (k + i)) (pretty x.1) (first_edges m (k + i)) None Star) <$> tl !! i.
Proof.
  revert k i. induction tl as [|x tl IH]; intros k [|i]; cbn; try done; [by rewrite Nat.add_0_r|].
  rewrite IH. replace (S k + i)%nat with (k + S i)%nat by lia. done.
Qed.

Lemma chain_edges_lookup m k tl i : chain_edges m k tl !! i =
  (fun x => mkEdge Forward (Z.of_nat (k + i)) x.2 (if (k + i <? m)%nat then Some (S (k + i)) else None) 0) <$> tl !! i.
Proof.
  revert k i. induction tl as [|x tl IH]; intros k [|i]; cbn; try done; [by rewrite Nat.add_0_r|].
  rewrite IH. replace (S k + i)%nat with (k + S i)%nat by lia. done.
Qed.

Lemma chain_lengths m k tl : length (chain_states m k tl) = length tl /\ length (chain_edges m k tl) = length tl.
Proof. revert k. induction tl as [|x tl IH]; intros k; [done|]. cbn. by destruct (IH (S k)) as [-> ->]. Qed.

(** creating the states and edges *)
Lemma create_item z (q : EdgePredicate) (nfa : NFAController Ev D) : 0 < z ->
  create_node z (mkNode z (Some q)) nfa =
    Ok (mkInfo (length (states nfa)) (Some (length (transitions nfa))),
        mkNFA (states nfa ++ [mkState (if z =? 1000 then StFinal else StNormal) (Z.of_nat (length (states nfa))) (pretty z) [] None Star])
          (transitions nfa ++ [mkEdge Forward (Z.of_nat (length (transitions nfa))) q None 0]) (startState nfa) (init nfa) (update nfa)).
Proof.
  intros Hz. unfold create_node. assert (z =? 0 = false) as -> by lia. by destruct (z =? 1000).
Qed.

Lemma create_chain tl k (nfa : NFAController Ev D) :
  (forall z, z ∈ tl.*1 -> 0 < z) -> length (states nfa) = S k -> length (transitions nfa) = k ->
  create_nodes (node_entry ∘ item_node <$> tl) nfa =
    Ok (chain_info k tl, mkNFA (states nfa ++ chain_states 0 (S k) tl) (transitions nfa ++ chain_edges 0 k tl)
          (startState nfa) (init nfa) (update nfa)).
Proof.
  revert k nfa. induction tl as [|[z q] tl IH]; intros k nfa Hpos Hs Ht.
  - cbn. rewrite !app_nil_r. by destruct nfa.
  - rewrite fmap_cons. cbn [create_nodes compose node_entry item_node node_id fst snd].
    change (item_node (z, q)) with (mkNode z (Some q)). rewrite create_item by (apply Hpos; by left). run_step. rewrite (IH (S k)).
    + cbn [mbind result_bind states transitions startState init update chain_info chain_states chain_edges fst snd].
      by rewrite Hs, Ht, <- !app_assoc.
    + intros z' Hz'. apply Hpos. by right.
    + cbn [states]. rewrite length_app, Hs. cbn. lia.
    + cbn [transitions]. rewrite length_app, Ht. cbn. lia.
Qed.

(** the transition from state [m] to the next *)
Lemma connect_step i u tl m x : tl !! m = Some x -> (forall y, m <> 0%nat -> tl !! pred m = Some y -> y.1 <> 1000) ->
  createForwardTransition m m (S m) (chain_nfa i u tl m) = Ok (chain_nfa i u tl (S m)).
Proof.
  intros Hx Hprev. unfold createForwardTransition. cbn [chain_nfa transitions states].
  rewrite (get_at_Some _ _ _ ltac:(by rewrite chain_edges_lookup, Hx)). cbn [mbind result_bind Nat.add edgeType].
  assert (exists st, (mkState StStart 0 (pretty 0) (first_edges m 0) None Star :: chain_states m 1 tl) !! m = Some st /\
    addEdge m st = Ok (mkState (stateType st) (stateID st) (stateName st) [m] (loopEdge st) (spec st)) /\
    forall k, (mkState StStart 0 (pretty 0) (first_edges (S m) 0) None Star :: chain_states (S m) 1 tl) !! k =
      if decide (k = m) then Some (mkState (stateType st) (stateID st) (stateName st) [m] (loopEdge st) (spec st))
      else (mkState StStart 0 (pretty 0) (first_edges m 0) None Star :: chain_states m 1 tl) !! k) as (st & Hst & Hadd & Hnew).
  { assert (forall a, first_edges m m = a -> a = []) as Hnone by (intros a <-; unfold first_edges; by rewrite Nat.ltb_irrefl).
    assert (forall k, k <> m -> first_edges (S m) k = first_edges m k) as Hother.
    { intros k Hk. unfold first_edges. destruct (Nat.ltb_spec k (S m)), (Nat.ltb_spec k m); done || lia. }
    assert (first_edges (S m) m = [m]) as Hhere by (unfold first_edges; by rewrite (proj2 (Nat.ltb_lt m (S m)) ltac:(lia))).
    destruct m as [|m].
    - eexists. split; [done|]. split; [done|]. intros [|k]; [done|]. rewrite decide_False by done.
      cbn [lookup list_lookup]. rewrite !chain_states_lookup. by rewrite Hother by lia.
    - assert (exists y, tl !! m = Some y) as [y Hy] by (apply lookup_lt_is_Some; apply lookup_lt_Some in Hx; lia).
      pose proof (Hprev y ltac:(done) Hy) as Hy0.
      eexists. split; [cbn [lookup list_lookup]; by rewrite chain_states_lookup, Hy|]. cbn [Nat.add].
      assert (y.1 =? 1000 = false) as E by lia.
      split; [unfold addEdge; cbn [stateType forwardEdges]; rewrite E; cbn; by rewrite (Hnone _ eq_refl)|].
      intros [|k]; [by rewrite decide_False by done|]. cbn [lookup list_lookup].
      rewrite !chain_states_lookup. cbn [Nat.add]. destruct (decide (k = m)) as [->|Hk].
      + rewrite Hy, (decide_True (P := S m = S m)) by done. cbn. by rewrite Hhere.
      + rewrite decide_False by lia. by rewrite Hother by lia. }
  rewrite (get_at_Some _ _ _ Hst). run_step. rewrite Hadd. run_step.
  unfold set_state, set_edge. cbn [states transitions startState init update]. unfold chain_nfa. f_equal. f_equal.
  - apply list_eq. intros k. rewrite Hnew. case_decide as Hk.
    + subst k. apply list_lookup_insert_eq. apply lookup_lt_Some in Hst. done.
    + by rewrite list_lookup_insert_ne.
  - apply list_eq. intros k. destruct (decide (k = m)) as [->|Hk].
    + rewrite list_lookup_insert_eq by (pose proof (chain_lengths m 0 tl) as [_ Hl]; apply lookup_lt_Some in Hx; cbn; lia).
      rewrite chain_edges_lookup, Hx. cbn [fmap option_fmap option_map Nat.add]. by rewrite (proj2 (Nat.ltb_lt m (S m)) ltac:(lia)).
    + rewrite list_lookup_insert_ne by done. cbn [transitions]. rewrite !chain_edges_lookup. cbn [Nat.add].
      destruct (tl !! k) as [y|]; [|done]. cbn [fmap option_fmap option_map]. do 2 f_equal. destruct (Nat.ltb_spec k (S m)), (Nat.ltb_spec k m); done || lia.
Qed.

Lemma increasing_sorted lo l : increasing lo l -> StronglySorted (fun a b => (a <? b) = true) l /\ forall z, z ∈ l -> lo < z.
Proof.
  revert lo. induction l as [|z l IH]; intros lo; cbn; [intros _; split; [constructor|by intros ? ?%not_elem_of_nil]|].
  intros [Hz Hinc]. destruct (IH z Hinc) as [Hs Hall]. split.
  - constructor; [done|]. apply Forall_forall. intros y Hy. by apply Z.ltb_lt, Hall.
  - intros y [->|Hy]%elem_of_cons; [done|]. specialize (Hall y Hy). lia.
Qed.

Lemma chain_info_keys k tl : (chain_info k tl).*1 = tl.*1.
Proof. revert k. induction tl as [|x tl IH]; intros k; [done|]. cbn. by rewrite <- (IH (S k)). Qed.

Lemma chain_info_elem k tl j x : tl !! j = Some x -> (x.1, mkInfo (S (k + j)) (Some (k + j)%nat)) ∈ chain_info k tl.
Proof.
  revert k j. induction tl as [|y tl IH]; intros k [|j]; cbn; [done|done| |].
  - intros [= ->]. rewrite Nat.add_0_r. by left.
  - intros Hj. right. specialize (IH (S k) j Hj). by replace (k + S j)%nat with (S k + j)%nat by lia.
Qed.

Lemma info_sorted tl : increasing 0 tl.*1 -> om_sorted Z.ltb ((0, mkInfo 0 None) :: chain_info 0 tl).
Proof.
  intros Hinc. destruct (increasing_sorted 0 _ Hinc) as [Hs Hpos]. apply om_sorted_cons. unfold om_sorted.
  rewrite chain_info_keys. split; [done|]. intros z Hz. by apply Z.ltb_lt, Hpos.
Qed.

Lemma info_find tl j x : increasing 0 tl.*1 -> tl !! j = Some x ->
  om_find Z.ltb x.1 ((0, mkInfo 0 None) :: chain_info 0 tl) = Some (mkInfo (S j) (Some j)).
Proof.
  intros Hinc Hx. refine (proj2 (om_find_Some Z.ltb _ _ _ (info_sorted tl Hinc)) _). right. by apply (chain_info_elem 0 tl j).
Qed.

Lemma connect_chain i u tl :
  increasing 0 tl.*1 -> (forall j y, tl !! j = Some y -> (S j < length tl)%nat -> y.1 <> 1000) ->
  forall tl' k x, drop k tl = tl' -> match k with O => x = start_node | S j => exists y, tl !! j = Some y /\ x = item_node y end ->
  connect_all ((0, mkInfo 0 None) :: chain_info 0 tl) (links x (item_node <$> tl')) (chain_nfa i u tl k) =
    Ok (chain_nfa i u tl (k + length tl')).
Proof.
  intros Hinc Hmid. induction tl' as [|y tl' IH]; intros k x Hdrop Hx; [by rewrite Nat.add_0_r|].
  assert (tl !! k = Some y) as Hy by (rewrite <- (Nat.add_0_r k), <- lookup_drop, Hdrop; done).
  rewrite fmap_cons. cbn [links connect_all]. unfold connect. cbn [op toState fromState].
  assert (exists e, om_find Z.ltb (node_id x) ((0, mkInfo 0 None) :: chain_info 0 tl) = Some (mkInfo k e)) as [e He].
  { destruct k as [|j].
    - subst x. exists None. cbn [start_node node_id]. refine (proj2 (om_find_Some Z.ltb _ _ _ (info_sorted tl Hinc)) _). by left.
    - destruct Hx as (x0 & Hx0 & ->). exists (Some j). cbn [item_node node_id]. by apply info_find. }
  rewrite He. cbn [item_node node_id]. rewrite (info_find tl k y Hinc Hy). cbn [nptr eptr].
  rewrite (connect_step i u tl k y Hy).
  - run_step. rewrite (IH (S k) (item_node y)); [f_equal; f_equal; cbn; lia| |].
    + by rewrite <- (drop_drop _ 1), Hdrop || (replace (S k) with (k + 1)%nat by lia; rewrite <- drop_drop, Hdrop).
    + by exists y.
  - intros y0 Hk Hy0. destruct k as [|k]; [done|]. cbn [pred] in Hy0. apply (Hmid k y0 Hy0). by apply lookup_lt_Some in Hy.
Qed.

(** the connected automaton is the sequence automaton of its steps *)
Lemma chain_path i u tl k todo :
  (forall j y, tl !! j = Some y -> y.1 = 1000 <-> S j = length tl) ->
  drop (S k) tl = todo -> (k < length tl)%nat -> path (chain_nfa i u tl (length tl)) (S k) (chain_steps (S k) todo).
Proof.
  intros Hfinal. revert k. induction todo as [|x todo IH]; intros k Hdrop Hk.
  - assert (exists y, tl !! k = Some y) as [y Hy] by (by apply lookup_lt_is_Some).
    assert (S k = length tl) as Hl by (apply (f_equal length) in Hdrop; rewrite length_drop in Hdrop; cbn in Hdrop; lia).
    eapply path_end.
    + cbn [chain_nfa states lookup list_lookup]. by rewrite chain_states_lookup, Hy.
    + cbn. by rewrite (proj2 (Hfinal k y Hy) Hl).
  - assert (exists y, tl !! k = Some y) as [y Hy] by (by apply lookup_lt_is_Some).
    assert (tl !! S k = Some x) as Hx by (rewrite <- (Nat.add_0_r (S k)), <- lookup_drop, Hdrop; done).
    pose proof (lookup_lt_Some _ _ _ Hx) as Hlt.
    assert (y.1 =? 1000 = false) as E by (apply Z.eqb_neq; rewrite (Hfinal k y Hy); lia).
    cbn [chain_steps].
    refine (path_step _ _ _ (S k) (mkEdge Forward (Z.of_nat (S k)) x.2 (Some (S (S k))) 0) (S (S k)) _ _ _ _ _ eq_refl eq_refl _).
    + cbn [chain_nfa states lookup list_lookup]. rewrite chain_states_lookup, Hy. reflexivity.
    + cbn. by rewrite E.
    + cbn [forwardEdges]. unfold first_edges. by rewrite (proj2 (Nat.ltb_lt (1 + k) (length tl)) Hlt).
    + cbn [chain_nfa transitions]. rewrite chain_edges_lookup, Hx. cbn [fmap option_fmap option_map Nat.add].
      by rewrite (proj2 (Nat.ltb_lt (S k) (length tl)) Hlt).
    + apply IH; [|done]. rewrite <- (drop_drop tl (S k) 1) || replace (S (S k)) with (S k + 1)%nat by lia. rewrite <- drop_drop, Hdrop. done.
Qed.

Lemma collect_chain (mids : list item) (p : EdgePredicate) :
  increasing 0 mids.*1 -> (forall z, z ∈ mids.*1 -> z < 1000) ->
  fold_left collect_expr (exprs (chain ((fun x => mid_state x.1 x.2) <$> mids) (CEPState_stop p))) [] =
    node_entry start_node :: (node_entry ∘ item_node <$> mids ++ [(1000, p)]).
Proof.
  intros Hinc Hlt. rewrite chain_exprs, fmap_app. change (item_node <$> [(1000, p)]) with [item_node (1000, p)].
  rewrite links_snoc. cbn [fold_left collect_expr fromState toState].
  change (collect_node (collect_node [] (mkNode 1000 (Some p))) start_node) with ([] ++ [node_entry start_node; node_entry (item_node (1000, p))]).
  rewrite collect_links; [|done..|by intros ? ?%not_elem_of_nil]. by rewrite fmap_app.
Qed.

Lemma increasing_snoc lo l : increasing lo l -> (forall z, z ∈ l -> z < 1000) -> lo < 1000 -> increasing lo (l ++ [1000]).
Proof.
  revert lo. induction l as [|z l IH]; intros lo Hi Hb Hlo; [done|]. destruct Hi as [Hz Hi]. split; [done|].
  apply IH; [done| |apply Hb; by left]. intros y Hy. apply Hb. by right.
Qed.

Lemma chain_final (mids : list item) (p : EdgePredicate) j y :
  (forall z, z ∈ mids.*1 -> z < 1000) -> (mids ++ [(1000, p)]) !! j = Some y ->
  y.1 = 1000 <-> S j = length (mids ++ [(1000, p)]).
Proof.
  intros Hlt Hy. rewrite length_app. cbn [length]. destruct (decide (j < length mids)%nat) as [Hj|Hj].
  - rewrite lookup_app_l in Hy by done. apply list_elem_of_lookup_2 in Hy.
    specialize (Hlt y.1 ltac:(by apply list_elem_of_fmap_2)). lia.
  - rewrite lookup_app_r in Hy by lia. pose proof (lookup_lt_Some _ _ _ Hy) as Hl. cbn in Hl.
    replace (j - length mids)%nat with 0%nat in Hy by lia. injection Hy as <-. cbn. lia.
Qed.

Lemma construct_chain i u (mids : list item) (p : EdgePredicate) :
  increasing 0 mids.*1 -> (forall z, z ∈ mids.*1 -> z < 1000) ->
  let tl := mids ++ [(1000, p)] in
  constructNFA (chain ((fun x => mid_state x.1 x.2) <$> mids) (CEPState_stop p)) (setDependency i u NFAController_new) =
    Ok (chain_nfa i u tl (length tl)).
Proof.
  intros Hinc Hlt tl. unfold constructNFA. rewrite collect_chain by done.
  assert (increasing 0 tl.*1) as Hinc' by (unfold tl; rewrite fmap_app; by apply increasing_snoc).
  assert (forall j y, tl !! j = Some y -> y.1 = 1000 <-> S j = length tl) as Hfinal
    by (intros j y Hy; exact (chain_final mids p j y Hlt Hy)).
  destruct (increasing_sorted 0 _ Hinc') as [_ Hpos].
  cbn [create_nodes node_entry start_node node_id]. unfold create_node. cbn [Z.eqb].
  cbn [createStartState add_state mbind result_bind]. rewrite (create_chain tl 0) by done.
  cbn [mbind result_bind states transitions startState init update setDependency NFAController_new app length].
  rewrite chain_exprs. cbn [connect_all]. unfold connect at 1 2. cbn [op toState mbind result_bind].
  apply (connect_chain i u tl Hinc') with (k := 0%nat); [|done|done].
  intros j y Hy Hj Heq. apply (Hfinal j y Hy) in Heq. lia.
Qed.

(** From the DSL to the automaton.  For states declared in the order in
    which they are chained with [>>] between the start and the final state,
    [constructNFA] builds the automaton of exactly that sequence, each step
    with its state's predicate.  Negation and alternative are dropped on the
    way: a pattern with [!d] becomes the one that requires [d], and [b || c]
    becomes [b] alone. *)
Lemma constructNFA_sequence (i : option D) (u : option D -> Z -> Ev -> option D) (mids : list item) (p : EdgePredicate)
  (Hinc : increasing 0 mids.*1) (Hlt : forall z, z ∈ mids.*1 -> z < 1000) :
  (exists nfa first rest,
     constructNFA (chain ((fun x => mid_state x.1 x.2) <$> mids) (CEPState_stop p)) (setDependency i u NFAController_new) = Ok nfa /\
     init nfa = i /\ update nfa = u /\
     chain_steps 0 (mids ++ [(1000, p)]) = first :: rest /\ sequence_nfa nfa first rest) /\
  (forall pa pd pe : EdgePredicate (Ev := Ev) (D := D),
     constructNFA (chain [mid_state 1 pa; not_op (mid_state 2 pd)] (CEPState_stop pe)) NFAController_new =
     constructNFA (chain [mid_state 1 pa; mid_state 2 pd] (CEPState_stop pe)) NFAController_new) /\
  (forall pb pc pe : EdgePredicate (Ev := Ev) (D := D), exists nfa,
     constructNFA (chain [or_op (mid_state 1 pb) (mid_state 2 pc)] (CEPState_stop pe)) NFAController_new = Ok nfa /\
     sequence_nfa nfa (0, pb) [(2, pe)]).
Proof.
  split; [|split].
  - pose proof (construct_chain i u mids p Hinc Hlt) as Hc. set (tl := mids ++ [(1000, p)]) in *. cbv zeta in Hc.
    assert (exists x tl', tl = x :: tl') as (x & tl' & Htl) by (unfold tl; destruct mids as [|x l]; cbn; eauto).
    exists (chain_nfa i u tl (length tl)), (0, x.2), (chain_steps 1 tl'). split; [done|]. split; [done|]. split; [done|].
    split; [by rewrite Htl|].
    assert (path (chain_nfa i u tl (length tl)) 1 (chain_steps 1 tl')) as Hp.
    { apply chain_path; [|by rewrite Htl|rewrite Htl; cbn; lia]. intros j y Hy. exact (chain_final mids p j y Hlt Hy). }
    exists 0%nat, (mkState StStart 0 (pretty 0) [0%nat] None Star), 0%nat, (mkEdge Forward 0 x.2 (Some 1%nat) 0), 1%nat.
    split; [done|]. split; [by rewrite Htl|]. split; [done|]. split; [by rewrite Htl|]. done.
  - intros pa pd pe. vm_compute. reflexivity.
  - intros pb pc pe. eexists. split; [vm_compute; reflexivity|].
    eexists 0%nat, _, 0%nat, _, 1%nat. do 7 (split; [reflexivity|]).
    eapply (path_step _ 1 _ 2 (mkEdge Forward 2 pe (Some 3%nat) 0) 3 []); [reflexivity..|].
    by eapply path_end.
Qed.
End dsl_sequence.

(** ** Kleene states *)

Section kleene.
Context {Ev D : Type}.
Implicit Types (n : NFAController Ev D) (str : NFAStructure Ev D).

(** offering events to one match, one after the other *)
Fixpoint offer (fuel : nat) n (evs : list Ev) str : result (NFAStructure Ev D) :=
  match evs with
  | [] => Ok str
  | ev :: evs => '(_, str') ← engineStep fuel n ev false str; offer fuel n evs str'
  end.

(** a Kleene state [k] with its loop edge and one way on *)
Record kleene_at n (k : nat) (st : NFAState) (l : nat) (loop forward : NFAEdge Ev D) : Prop := {
  ka_state : states n !! k = Some st;
  ka_type : stateType st = StKleene;
  ka_loop : loopEdge st = Some l /\ transitions n !! l = Some loop /\ edgeType loop = Loop;
  ka_forward : exists f dst, forwardEdges st = [f] /\ transitions n !! f = Some forward /\
    edgeType forward = Forward /\ destState forward = Some dst /\ is_Some (states n !! dst);
}.

(** the match is in state [k], which has taken [c] events *)
Definition in_loop (k : nat) (c : Z) str : Prop :=
  currentState str = k /\ exists i, list_find (fun p : nat * Z => p.1 = k) (kleeneState str) = Some (i, (k, c)).

(** how many of [m] matching events the state takes when it has [c] *)
Definition taken (sp : KleeneSpecification) (loops c m : nat) : nat :=
  match sp with Star | Question => m | Plus => Nat.min m (1 - c) | Restricted => Nat.min m (loops - c) end.

(** whether it can be left with [c] events *)
Definition may_leave (sp : KleeneSpecification) (loops c : nat) : bool :=
  match sp with Star | Question => true | Plus => (c =? 1)%nat | Restricted => (loops <=? c)%nat end.

Lemma addEvent_loop n k st l loop forward ev c str :
  kleene_at n k st l loop forward -> in_loop k c str -> - 2^15 <= c + 1 < 2^15 ->
  exists str', addEvent n ev l str = Ok str' /\ in_loop k (c + 1) str' /\
    originalEvent <$> events str' = (originalEvent <$> events str) ++ [ev].
Proof.
  intros [Hst Hty (Hl & Hlt & Hlty) _] [Hcur (i & Hfind)] Hc.
  unfold addEvent. rewrite Hcur, (get_at_Some _ _ _ Hst), (get_at_Some _ _ _ Hlt). run_step.
  rewrite Hlty, Hfind. cbn [mbind result_bind fst snd]. rewrite (get_at_Some _ _ _ Hst). run_step.
  eexists. split; [done|]. split; [split; [done|]|by cbn; rewrite fmap_app].
  exists i. cbn [kleeneState]. rewrite s16_small by done.
  apply list_find_Some in Hfind as (Hi & _ & Hfirst). apply list_find_Some. split.
  - by apply list_lookup_insert_eq, (lookup_lt_Some _ _ _ Hi).
  - split; [done|]. intros j y Hj Hlt'. rewrite list_lookup_insert_ne in Hj by lia. by apply (Hfirst j).
Qed.

Lemma current_count k c str : in_loop k c str -> getCurrentKleene str = Ok c.
Proof. intros [Hcur (i & Hf)]. unfold getCurrentKleene. by rewrite Hcur, Hf. Qed.

(** an event that fits the loop only *)
Lemma loop_step fuel n k st l loop forward ev (c loops : nat) str :
  kleene_at n k st l loop forward -> in_loop k (Z.of_nat c) str -> numOfLoop loop = Z.of_nat loops -> Z.of_nat c + 1 < 2^15 ->
  (forall d, predicate loop ev d = true /\ predicate forward ev d = false) ->
  exists str', engineStep fuel n ev false str = Ok (Kept, str') /\ in_loop k (Z.of_nat (c + taken (spec st) loops c 1)) str' /\
    originalEvent <$> events str' = (originalEvent <$> events str) ++ take (taken (spec st) loops c 1) [ev].
Proof.
  intros Hk Hin Hloops Hc Hev. pose proof Hk as [Hst Hty (Hl & Hlt & Hlty) (f & dst & Hf & Hft & _)].
  destruct (addEvent_loop n k st l loop forward ev _ str Hk Hin ltac:(lia)) as (str1 & Hadd & Hin1 & Hevs).
  pose proof (current_count k _ str Hin) as Hcount. pose proof Hin as [Hcur _].
  unfold engineStep, checkPredicate. rewrite Hcur, (get_at_Some _ _ _ Hst). run_step. rewrite Hty.
  assert (forall b : bool, (if b then first_edge n (forwardEdges st) 0 ev (relatedValues str) else Ok None) = Ok None) as Hnone.
  { intros []; [|done]. rewrite Hf. cbn [first_edge]. rewrite (get_at_Some _ _ _ Hft). run_step. unfold evaluate.
    by destruct (Hev (relatedValues str)) as [_ ->]. }
  assert (getLoopEdge n st = Ok loop) as Hgl by (unfold getLoopEdge; rewrite Hl; by apply get_at_Some).
  assert (exists b, kleene_forward n st str = Ok b) as [b Hb].
  { unfold kleene_forward. rewrite Hcount, Hgl. destruct (spec st); by eexists. }
  assert (kleene_loop n st str = Ok (taken (spec st) loops c 1 =? 1)%nat) as Htake.
  { unfold kleene_loop. rewrite Hcount, Hgl. run_step. rewrite Hloops. unfold taken.
    destruct (spec st); run_step; try done; f_equal.
    - destruct (Z.eqb_spec (Z.of_nat c) 0), (Nat.eqb_spec (Nat.min 1 (1 - c)) 1); done || lia.
    - destruct (Z.ltb_spec (Z.of_nat c) (Z.of_nat loops)), (Nat.eqb_spec (Nat.min 1 (loops - c)) 1); done || lia. }
  rewrite Hb. run_step. rewrite Hnone. run_step. rewrite Hgl. run_step.
  unfold evaluate. destruct (Hev (relatedValues str)) as [-> _]. rewrite Htake. run_step.
  assert (taken (spec st) loops c 1 <= 1)%nat as Hle by (unfold taken; destruct (spec st); lia).
  destruct (Nat.eqb_spec (taken (spec st) loops c 1) 1) as [Ht|Ht].
  - rewrite Hl. cbn [default]. change (id l) with l. rewrite Hadd. run_step.
    exists str1. split; [done|]. rewrite Ht. split; [|done]. by replace (Z.of_nat (c + 1)) with (Z.of_nat c + 1) by lia.
  - exists str. split; [done|]. replace (taken (spec st) loops c 1) with 0%nat by lia. rewrite Nat.add_0_r. split; [done|]. by rewrite app_nil_r.
Qed.

(** an event that fits the way on only *)
Lemma leave_step fuel n k st l loop forward ev (c loops : nat) str :
  kleene_at n k st l loop forward -> in_loop k (Z.of_nat c) str -> numOfLoop loop = Z.of_nat loops ->
  (forall d, predicate loop ev d = false /\ predicate forward ev d = true) ->
  exists v str', engineStep fuel n ev false str = Ok (v, str') /\
    if may_leave (spec st) loops c then
      Some (currentState str') = destState forward /\ originalEvent <$> events str' = (originalEvent <$> events str) ++ [ev]
    else str' = str.
Proof.
  intros Hk Hin Hloops Hev. pose proof Hk as [Hst Hty (Hl & Hlt & Hlty) (f & dst & Hf & Hft & Hfty & Hdst & [sd Hsd])].
  pose proof (current_count k _ str Hin) as Hcount. pose proof Hin as [Hcur _].
  unfold engineStep, checkPredicate. rewrite Hcur, (get_at_Some _ _ _ Hst). run_step. rewrite Hty.
  assert (getLoopEdge n st = Ok loop) as Hgl by (unfold getLoopEdge; rewrite Hl; by apply get_at_Some).
  assert (kleene_forward n st str = Ok (may_leave (spec st) loops c)) as Hb.
  { unfold kleene_forward. rewrite Hcount, Hgl. run_step. rewrite Hloops. unfold may_leave.
    destruct (spec st); run_step; try done; f_equal.
    - destruct (Z.eqb_spec (Z.of_nat c) 1), (Nat.eqb_spec c 1); done || lia.
    - destruct (Z.leb_spec (Z.of_nat loops) (Z.of_nat c)), (Nat.leb_spec loops c); done || lia. }
  rewrite Hb. run_step. destruct (may_leave (spec st) loops c).
  - rewrite Hf. cbn [first_edge]. rewrite (get_at_Some _ _ _ Hft). run_step. unfold evaluate.
    destruct (Hev (relatedValues str)) as [_ ->]. run_step.
    change (negb (0 =? -1)) with true. cbn [negb orb]. rewrite Hcur, (get_at_Some _ _ _ Hst). run_step.
    unfold getForwardEdgeByIndex. rewrite Hf. change (Z.to_nat 0) with 0%nat. cbn [lookup list_lookup mbind result_bind].
    unfold addEvent. rewrite Hcur, (get_at_Some _ _ _ Hst), (get_at_Some _ _ _ Hft). run_step.
    rewrite Hfty, Hdst. run_step. rewrite (get_at_Some _ _ _ Hsd). run_step.
    eexists _, _. split; [done|]. split; [done|]. cbn. by rewrite fmap_app.
  - run_step. rewrite Hgl. run_step. unfold evaluate.
    destruct (Hev (relatedValues str)) as [-> _]. by exists Kept, str.
Qed.

(** Repetition.  Offered a run of events that fit its loop, a [Star]
    state takes them all and a [Restricted] one the first [numOfLoop]; but a
    [Plus] state, documented as one or more, takes exactly one and can only be
    left with exactly one, and a [Question] state, documented as at most one,
    takes them all. *)
Lemma kleene_repetition (fuel : nat) n (k : nat) (st : NFAState) (l : nat) (loop forward : NFAEdge Ev D) (loops : nat)
  (evs : list Ev) str
  (Hk : kleene_at n k st l loop forward) (Hin : in_loop k 0 str) (Hloops : numOfLoop loop = Z.of_nat loops)
  (Hev : forall ev d, ev ∈ evs -> predicate loop ev d = true /\ predicate forward ev d = false)
  (Hlen : Z.of_nat (length evs) < 2^15) :
  let t := taken (spec st) loops 0 (length evs) in
  exists str', offer fuel n evs str = Ok str' /\ in_loop k (Z.of_nat t) str' /\
    originalEvent <$> events str' = (originalEvent <$> events str) ++ take t evs /\
    forall ev, (forall d, predicate loop ev d = false /\ predicate forward ev d = true) ->
      exists v str2, engineStep fuel n ev false str' = Ok (v, str2) /\
        if may_leave (spec st) loops t then
          Some (currentState str2) = destState forward /\ originalEvent <$> events str2 = (originalEvent <$> events str') ++ [ev]
        else str2 = str'.
Proof.
  cbv zeta. assert (exists str', offer fuel n evs str = Ok str' /\ in_loop k (Z.of_nat (taken (spec st) loops 0 (length evs))) str' /\
    originalEvent <$> events str' = (originalEvent <$> events str) ++ take (taken (spec st) loops 0 (length evs)) evs) as (str' & Ho & Hi & He).
  { change 0 with (Z.of_nat 0) in Hin. assert (Z.of_nat 0 + Z.of_nat (length evs) < 2^15) as Hb by lia. clear Hlen.
    change (taken (spec st) loops 0 (length evs)) with (0 + taken (spec st) loops 0 (length evs))%nat at 1.
    revert Hin Hb. generalize 0%nat as c. revert str. induction evs as [|ev evs IH]; intros str c Hin Hb.
    - exists str. split; [done|]. assert (taken (spec st) loops c 0 = 0%nat) as Ht by (unfold taken; by destruct (spec st)).
      cbn [length]. rewrite Ht, Nat.add_0_r. split; [done|]. by rewrite app_nil_r.
    - cbn [length] in Hb |- *.
      destruct (loop_step fuel n k st l loop forward ev c loops str Hk Hin Hloops ltac:(lia)) as (s1 & Hs1 & Hi1 & He1).
      { intros d. apply Hev. by left. }
      cbn [offer]. rewrite Hs1. run_step.
      assert (taken (spec st) loops c 1 <= 1)%nat as Hle by (unfold taken; destruct (spec st); lia).
      destruct (IH ltac:(intros e d Hd; apply Hev; by right) s1 (c + taken (spec st) loops c 1)%nat Hi1 ltac:(lia)) as (s2 & Ho & Hi2 & He2).
      exists s2. split; [done|].
      assert (taken (spec st) loops c (S (length evs)) = taken (spec st) loops c 1 + taken (spec st) loops (c + taken (spec st) loops c 1) (length evs))%nat as Hsum
        by (unfold taken; destruct (spec st); lia).
      rewrite Hsum. split; [by rewrite Nat.add_assoc|]. rewrite He2, He1, <- app_assoc. f_equal.
      destruct (taken (spec st) loops c 1) as [|[|m]] eqn:E; [|done|lia]. cbn [take app Nat.add].
      assert (taken (spec st) loops (c + 0) (length evs) = 0%nat) as -> by (rewrite Nat.add_0_r; revert E; unfold taken; destruct (spec st); lia).
      done. }
  exists str'. split; [done|]. split; [done|]. split; [done|]. intros ev Hev'. by apply (leave_step fuel n k st l loop forward ev _ loops str').
Qed.
End kleene.

(** ** A forbidden event *)

(** start -(1)-> not 9 -> -(2)-> final: the edge of the negation state carries
    the forbidden event, the one behind it the awaited one *)
Definition is_event (z : Z) : EdgePredicate (Ev := Z) (D := unit) := fun e _ => e =? z.

Definition negation_nfa : result (NFAController Z unit) :=
  let '(s, n) := createStartState "A" NFAController_new in
  let '(x, n) := createNegationState "N" n in
  let '(b, n) := createNormalState "B" n in
  let '(f, n) := createFinalState "F" n in
  let '(e0, n) := createForwardEdge (is_event 1) n in
  let '(e1, n) := createForwardEdge (is_event 9) n in
  let '(e2, n) := createForwardEdge (is_event 2) n in
  n ← createForwardTransition s e0 x n;
  n ← createForwardTransition x e1 b n;
  createForwardTransition b e2 f n.

(** the next-match engine with this automaton *)
Definition negation_run (h : list Z) : result (list (event Z)) :=
  n ← negation_nfa; '(out, _) ← run (next_runEngine 2 n) h CEPEngine_new; Ok out.

(** The collection of refuted matches stops half way.  A match refuted by
    the forbidden event 9 publishes nothing any more; but when two matches are
    refuted by the same event, only one is collected, and the other one is
    completed by a later 2 although the 9 lies in between. *)
Lemma refuted_match_survives :
  negation_run [1; 2] = Ok (published [1; 2]) /\ negation_run [1; 9; 2] = Ok [] /\
  negation_run [1; 1; 9; 2] = Ok (published [1; 2]).
Proof. repeat split; vm_compute; reflexivity. Qed.

(** ** Instances of the theorems *)

Definition demo_nfa : NFAController Z unit :=
  match constructNFA (chain [mid_state 1 (is_event 1); mid_state 2 (is_event 2)] (CEPState_stop (is_event 3))) NFAController_new with
  | Ok n => n
  | Err _ => NFAController_new
  end.

Lemma demo_sequence : sequence_nfa demo_nfa (0, is_event 1) [(1, is_event 2); (2, is_event 3)].
Proof.
  assert (demo_nfa = chain_nfa None (fun d _ _ => d) [(1, is_event 1); (2, is_event 2); (1000, is_event 3)] 3) as ->
    by (vm_compute; reflexivity).
  eexists 0%nat, _, 0%nat, _, 1%nat. do 7 (split; [reflexivity|]).
  eapply (path_step _ 1 _ 1 (mkEdge Forward 1 (is_event 2) (Some 2%nat) 0) 2); [reflexivity..|].
  eapply (path_step _ 2 _ 2 (mkEdge Forward 2 (is_event 3) (Some 3%nat) 0) 3); [reflexivity..|].
  by eapply path_end.
Qed.

Lemma first_match_engine_witness :
  exists g, run (first_runEngine 1 demo_nfa) [1; 1; 2; 5; 3; 1; 2; 3] CEPEngine_new = Ok (published [1; 2; 3; 1; 2; 3], g).
Proof.
  destruct (proj1 (first_match_engine demo_nfa _ _ 1 [1; 1; 2; 5; 3; 1; 2; 3] demo_sequence) ltac:(discriminate)) as [g Hg].
  exists g. rewrite Hg. reflexivity.
Defined.

Lemma next_match_engine_witness :
  exists ms g, run (next_runEngine 1 demo_nfa) [1; 1; 2; 5; 3; 1; 2; 3] CEPEngine_new = Ok (ms ≫= published, g) /\
    ms ≡ₚ [[1; 2; 3]; [1; 2; 3]; [1; 2; 3]].
Proof.
  destruct (next_match_engine demo_nfa _ _ 1 [1; 1; 2; 5; 3; 1; 2; 3] demo_sequence ltac:(discriminate)) as (ms & g & Hr & Hp).
  exists ms, g. split; [exact Hr|exact Hp].
Defined.

Lemma constructNFA_sequence_witness :
  exists nfa first rest,
    constructNFA (chain [mid_state 1 (is_event 1); mid_state 2 (is_event 2)] (CEPState_stop (is_event 3)))
      (setDependency None (fun d _ _ => d) NFAController_new) = Ok nfa /\
    first = (0, is_event 1) /\ rest = [(1, is_event 2); (2, is_event 3)] /\ sequence_nfa nfa first rest.
Proof.
  destruct (proj1 (constructNFA_sequence None (fun d _ _ => d) [(1, is_event 1); (2, is_event 2)] (is_event 3)
    ltac:(repeat split) ltac:(intros z Hz; cbn in Hz; set_unfold; lia))) as (nfa & first & rest & Hc & _ & _ & Hs & Hq).
  exists nfa, first, rest. split; [exact Hc|]. injection Hs as <- <-. split; [reflexivity|]. split; [reflexivity|exact Hq].
Defined.

(** a loop over 5 that is left with 7 *)
Definition plus_nfa : NFAController Z unit :=
  mkNFA [mkState StStart 0 "A" [0%nat] None Star; mkState StKleene 1 "K" [1%nat] (Some 2%nat) Plus; mkState StFinal 2 "F" [] None Star]
    [mkEdge Forward 0 (is_event 1) (Some 1%nat) 0; mkEdge Forward 1 (is_event 7) (Some 2%nat) 0; mkEdge Loop 2 (is_event 5) None 3]
    (Some 0%nat) None (fun d _ _ => d).

Lemma kleene_repetition_witness :
  let str := mkStructure [mkInstance 1 1 "A"] 1 false None 0 [(1%nat, 0)] in
  exists str', offer 1 plus_nfa [5; 5; 5] str = Ok str' /\ originalEvent <$> events str' = [1; 5].
Proof.
  cbv zeta.
  destruct (kleene_repetition 1 plus_nfa 1 (mkState StKleene 1 "K" [1%nat] (Some 2%nat) Plus) 2
    (mkEdge Loop 2 (is_event 5) None 3) (mkEdge Forward 1 (is_event 7) (Some 2%nat) 0) 3 [5; 5; 5]
    (mkStructure [mkInstance 1 1 "A"] 1 false None 0 [(1%nat, 0)])) as (str' & Ho & _ & He & _).
  - constructor; [reflexivity|reflexivity|repeat split|]. exists 1%nat, 2%nat. repeat split. by eexists.
  - split; [reflexivity|]. by exists 0%nat.
  - reflexivity.
  - intros ev d Hev. set_unfold. assert (ev = 5) as -> by intuition. split; reflexivity.
  - reflexivity.
  - exists str'. split; [exact Ho|exact He].
Defined.
