(* ===== verification/Floats.v ===== *)
(** * Floats: bounds of rounded arithmetic

    The standard library defines IEEE arithmetic on its type [spec_float] with
    the precision and the largest exponent as parameters, and proves nothing of
    it.  This file bounds the operations on numbers that are not negative:
    [between L N x] says that [x] is finite and lies between the integers [L]
    and [N], and a bound that is itself representable ([grid]) survives the
    rounding of the sum, the quotient and the conversion of an integer. *)

From Stdlib Require Import SpecFloat.
From S2P Require Import Prelude.

Section Bounds.
Context (prec emax : Z) (Hprec : 1 < prec) (Hemax : 3 < emax).

Lemma digits_pos p : 2 ^ (Zpos (digits2_pos p) - 1) <= Zpos p < 2 ^ Zpos (digits2_pos p).
Proof.
  assert (forall k : positive, 2 ^ (Z.succ (Zpos k) - 1) = 2 * 2 ^ (Zpos k - 1)) as Hlow.
  { intros k. rewrite <- Z.pow_succ_r by lia. f_equal. lia. }
  induction p as [p IH|p IH|]; cbn [digits2_pos]; [| |done];
    rewrite Pos2Z.inj_succ, Hlow, Z.pow_succ_r by lia; lia.
Qed.

Lemma iter_xO m d : Zpos (Pos.iter xO m d) = Zpos m * 2 ^ Zpos d.
Proof.
  induction d as [|d IH] using Pos.peano_ind; [cbn; lia|].
  rewrite Pos.iter_succ, Pos2Z.inj_succ, Z.pow_succ_r by lia. rewrite Pos2Z.inj_xO, IH. lia.
Qed.

(** the record of a shift: the quotient, and whether something was lost *)
Definition lost (r : shr_record) : bool := shr_r r || shr_s r.

Definition shifted (k : Z) (r r' : shr_record) : Prop :=
  0 <= shr_m r' /\ shr_m r' = shr_m r / 2 ^ k /\ (lost r' = true -> lost r = true \/ shr_m r' * 2 ^ k < shr_m r).

Lemma shifted_trans k l r1 r2 r3 : 0 <= k -> 0 <= l -> shifted k r1 r2 -> shifted l r2 r3 -> shifted (k + l) r1 r3.
Proof.
  intros Hk Hl (P2 & E2 & L2) (P3 & E3 & L3). pose proof (Z.pow_pos_nonneg 2 k) as H1. pose proof (Z.pow_pos_nonneg 2 l) as H2.
  unfold shifted. rewrite E3, E2, Z.pow_add_r, Z.div_div by lia. split_and!; [rewrite <- Z.div_div, <- E2, <- E3; lia|done|].
  pose proof (Z.mul_div_le (shr_m r1) (2 ^ k) ltac:(lia)) as Hle. rewrite <- E2 in Hle.
  rewrite <- Z.div_div, <- E2, <- E3 by lia. intros [[?|Hlt]%L2|Hlt]%L3; [by left|right..]; [|nia].
  pose proof (Z.mul_div_le (shr_m r2) (2 ^ l) ltac:(lia)) as Hle2. rewrite <- E3 in Hle2. nia.
Qed.

Lemma shr_1_shifted r : 0 <= shr_m r -> shifted 1 r (shr_1 r).
Proof.
  destruct r as [m r s]. unfold shifted, lost. intros Hm.
  change (2 ^ 1) with 2. destruct m as [|m|m]; [|destruct m as [p|p|]|]; cbn -[Z.div Z.mul] in *; try lia.
  - split_and!; [done..|]. destruct r, s; auto.
  - rewrite Pos2Z.inj_xI. split_and!; [lia|Z.div_mod_to_equations; lia|]. intros _. right. lia.
  - rewrite Pos2Z.inj_xO. split_and!; [lia|Z.div_mod_to_equations; lia|]. destruct r, s; auto.
  - split_and!; [lia|done|]. intros _. right. lia.
Qed.

Lemma iter_shifted p r : 0 <= shr_m r -> shifted (Zpos p) r (SpecFloat.iter_pos shr_1 p r).
Proof.
  revert r. induction p as [p IH|p IH|]; intros r Hr; cbn [SpecFloat.iter_pos]; [| |by apply shr_1_shifted].
  - pose proof (shr_1_shifted r Hr) as H1. pose proof (IH _ (proj1 H1)) as H2. pose proof (IH _ (proj1 H2)) as H3.
    replace (Zpos p~1) with (1 + Zpos p + Zpos p) by lia. eapply shifted_trans, H3; [lia..|]. by eapply shifted_trans, H2.
  - pose proof (IH _ Hr) as H1. pose proof (IH _ (proj1 H1)) as H2.
    replace (Zpos p~0) with (Zpos p + Zpos p) by lia. by eapply shifted_trans, H2.
Qed.

Lemma shr_fexp_spec m e l : 0 <= m ->
  let (r, e') := shr_fexp prec emax m e l in
  e' = Z.max e (fexp prec emax (Zdigits2 m + e)) /\ shifted (e' - e) (shr_record_of_loc m l) r.
Proof.
  intros Hm. unfold shr_fexp, shr. set (n := fexp _ _ _ - e).
  assert (shr_m (shr_record_of_loc m l) = m) as Hl by (by destruct l as [|[]]).
  destruct n as [|k|k] eqn:En; [| |]; (split; [lia|]).
  - rewrite Z.sub_diag. unfold shifted. rewrite Hl, Z.pow_0_r, Z.div_1_r. split_and!; [done..|by left].
  - replace (e + Zpos k - e) with (Zpos k) by lia. apply iter_shifted. by rewrite Hl.
  - rewrite Z.sub_diag. unfold shifted. rewrite Hl, Z.pow_0_r, Z.div_1_r. split_and!; [done..|by left].
Qed.

Lemma digits_bounds m : 0 < m -> 2 ^ (Zdigits2 m - 1) <= m < 2 ^ Zdigits2 m /\ 1 <= Zdigits2 m.
Proof. destruct m as [|p|p]; [lia| |lia]. intros _. cbn [Zdigits2]. pose proof (digits_pos p). lia. Qed.

(** an integer that the format holds, at the exponent [j] *)
Definition on_grid (j N : Z) : Prop := 0 <= j /\ exists b, 0 <= b < 2 ^ prec /\ N = b * 2 ^ j.

(** [m * 2 ^ e] against [N], with both scaled by [2 ^ K] *)
Context (K : Z) (HK : 0 <= K).

(** a shift stops at a multiple of the grid, or the number is beyond it *)
Lemma shift_large m e j : 0 <= m -> 0 <= e + K -> 0 <= j ->
  let e' := Z.max e (fexp prec emax (Zdigits2 m + e)) in
  e' = fexp prec emax (Zdigits2 m + e) ->
  e' <= j \/ 2 ^ (j + prec + K) <= m / 2 ^ (e' - e) * 2 ^ (e' + K).
Proof.
  intros Hm He Hj e' He'. destruct (Z.le_gt_cases e' j) as [|Hgt]; [by left|right].
  unfold fexp, SpecFloat.emin in He'. assert (e <= e') as Hee by lia.
  assert (e' = Zdigits2 m + e - prec) as Hd by lia.
  destruct (Z.eq_dec m 0) as [->|Hm0]; [cbn in Hd; lia|].
  destruct (digits_bounds m ltac:(lia)) as [[Hlow _] Hdig].
  assert (2 ^ (prec - 1) <= m / 2 ^ (e' - e)) as Hq.
  { apply Z.div_le_lower_bound; [apply Z.pow_pos_nonneg; lia|]. rewrite <- Z.pow_add_r by lia.
    by replace (e' - e + (prec - 1)) with (Zdigits2 m - 1) by lia. }
  etrans; [|apply Z.mul_le_mono_nonneg_r; [apply Z.pow_nonneg; lia|exact Hq]].
  rewrite <- Z.pow_add_r by lia. apply Z.pow_le_mono_r; lia.
Qed.

Lemma grid_limit j N : on_grid j N -> N * 2 ^ K < 2 ^ (j + prec + K).
Proof.
  intros (Hj & b & Hb & ->). replace (j + prec + K) with (prec + (j + K)) by lia. rewrite (Z.pow_add_r 2 prec) by lia.
  rewrite Z.pow_add_r by lia. pose proof (Z.pow_pos_nonneg 2 j). pose proof (Z.pow_pos_nonneg 2 K). nia.
Qed.

Lemma grid_multiple j N e' : on_grid j N -> 0 <= e' + K -> e' <= j -> exists c, N * 2 ^ K = c * 2 ^ (e' + K).
Proof.
  intros (Hj & b & Hb & ->) H1 H2. exists (b * 2 ^ (j - e')). rewrite <- !Z.mul_assoc, <- !Z.pow_add_r by lia.
  by replace (j - e' + (e' + K)) with (j + K) by lia.
Qed.

(** a shift keeps the bounds on the grid, and leaves room for rounding up *)
Lemma shift_bounds m e i L j N : 0 <= m -> 0 <= e + K -> on_grid i L -> on_grid j N ->
  let e' := Z.max e (fexp prec emax (Zdigits2 m + e)) in let q := m / 2 ^ (e' - e) in
  L * 2 ^ K <= m * 2 ^ (e + K) <= N * 2 ^ K ->
  L * 2 ^ K <= q * 2 ^ (e' + K) <= N * 2 ^ K /\
  (e' = fexp prec emax (Zdigits2 m + e) -> q * 2 ^ (e' + K) < N * 2 ^ K -> (q + 1) * 2 ^ (e' + K) <= N * 2 ^ K).
Proof.
  intros Hm He HL HN e' q [Hlow Hup]. assert (e <= e') as Hee by lia.
  pose proof (Z.pow_pos_nonneg 2 (e' - e) ltac:(lia) ltac:(lia)) as Hp.
  pose proof (Z.pow_pos_nonneg 2 (e + K) ltac:(lia) ltac:(lia)) as HpK.
  assert (2 ^ (e' + K) = 2 ^ (e' - e) * 2 ^ (e + K)) as Hsplit by (rewrite <- Z.pow_add_r by lia; f_equal; lia).
  pose proof (Z.mul_div_le m _ Hp) as Hq. fold q in Hq.
  assert (q * 2 ^ (e' + K) <= N * 2 ^ K) as Hqup by (rewrite Hsplit; nia).
  split; [split; [|exact Hqup]|].
  - destruct (Z.le_gt_cases e' e) as [Hle|Hgt].
    { assert (e' = e) as Heq by lia. subst q. by rewrite Heq, Z.sub_diag, Z.pow_0_r, Z.div_1_r. }
    destruct (shift_large m e i Hm He (proj1 HL) ltac:(lia)) as [Hi|Hbig];
      [|pose proof (grid_limit i L HL); fold e' q in Hbig; lia].
    destruct (grid_multiple i L e' HL ltac:(lia) Hi) as [c Hc]. rewrite Hc in Hlow |- *.
    apply Z.mul_le_mono_nonneg_r; [lia|]. apply Z.div_le_lower_bound; [done|]. rewrite Hsplit in Hlow. nia.
  - intros Hfe Hlt. destruct (shift_large m e j Hm He (proj1 HN) Hfe) as [Hi|Hbig];
      [|pose proof (grid_limit j N HN); fold e' q in Hbig; lia].
    destruct (grid_multiple j N e' HN ltac:(lia) Hi) as [c Hc]. rewrite Hc in Hlt |- *.
    apply Z.mul_le_mono_nonneg_r; [lia|]. apply Z.mul_lt_mono_pos_r in Hlt; [lia|]. rewrite Hsplit. lia.
Qed.

Lemma round_spec q r : shr_m r = q ->
  round_nearest_even q (loc_of_shr_record r) = q \/ lost r = true /\ round_nearest_even q (loc_of_shr_record r) = q + 1.
Proof. intros _. destruct r as [m [|] [|]]; cbn; try (destruct (Z.even q)); auto. Qed.
End Bounds.

(** [x] is finite, not negative and between two integers *)
Definition between (L N : Z) (x : spec_float) : Prop :=
  match x with
  | S754_zero _ => L <= 0 <= N
  | S754_finite false m e => exists K, 0 <= K /\ 0 <= e + K /\ L * 2 ^ K <= Zpos m * 2 ^ (e + K) <= N * 2 ^ K
  | _ => False
  end.

Lemma scale_le a b k : 0 <= k -> a * 2 ^ k <= b * 2 ^ k <-> a <= b.
Proof. intros Hk. symmetry. apply Z.mul_le_mono_pos_r, Z.pow_pos_nonneg; lia. Qed.

(** the scale can be chosen *)
Lemma between_at L N m e K : 0 <= K -> 0 <= e + K -> between L N (S754_finite false m e) ->
  L * 2 ^ K <= Zpos m * 2 ^ (e + K) <= N * 2 ^ K.
Proof.
  intros HK He (K' & HK' & He' & Hlow & Hup).
  assert (forall a, a * 2 ^ K * 2 ^ K' = a * 2 ^ K' * 2 ^ K) as Hsw by (intros a; lia).
  assert (Zpos m * 2 ^ (e + K) * 2 ^ K' = Zpos m * 2 ^ (e + K') * 2 ^ K) as Hm.
  { rewrite <- !Z.mul_assoc, <- !Z.pow_add_r by lia. do 2 f_equal. lia. }
  split; apply (scale_le _ _ K' HK'); rewrite Hsw, Hm; by apply scale_le.
Qed.

Lemma between_mono L N L' N' x : L' <= L -> N <= N' -> between L N x -> between L' N' x.
Proof.
  intros HL HN. destruct x as [z| | |[] m e]; cbn; try done; [lia|].
  intros (K & HK & He & Hlow & Hup). exists K. pose proof (Z.pow_pos_nonneg 2 K ltac:(lia) HK). split_and!; [lia..|nia|nia].
Qed.

Lemma shl_align_spec m e e' :
  (shl_align m e e').2 = Z.min e e' /\ Zpos (shl_align m e e').1 = Zpos m * 2 ^ (e - Z.min e e').
Proof.
  unfold shl_align. destruct (e' - e) as [|d|d] eqn:E; cbn [fst snd].
  - replace (e - Z.min e e') with 0 by lia. lia.
  - replace (e - Z.min e e') with 0 by lia. lia.
  - rewrite iter_xO. split; [lia|]. do 2 f_equal. lia.
Qed.

Section Operations.
Context (prec emax : Z) (Hprec : 2 < prec) (Hemax : prec < emax).

(** a bound: held by the format, and below its largest numbers *)
Definition bound (N : Z) : Prop := (exists j, on_grid prec j N) /\ N <= 2 ^ (emax - prec).

Lemma round_aux_between L N K m e l : bound L -> bound N -> 0 <= K -> 0 <= m -> 0 <= e + K ->
  L * 2 ^ K <= m * 2 ^ (e + K) <= N * 2 ^ K ->
  (l <> loc_Exact -> m * 2 ^ (e + K) < N * 2 ^ K /\ e <= fexp prec emax (Zdigits2 m + e)) ->
  between L N (binary_round_aux prec emax false m e l).
Proof.
  intros [[i HL] HLe] [[j HN] HNe] HK Hm He Hb Hl. unfold binary_round_aux.
  pose proof (shr_fexp_spec prec emax m e l Hm) as Hs. destruct (shr_fexp prec emax m e l) as [r e1].
  destruct Hs as [He1 (Hr & Hq & Hlost)]. replace (shr_m (shr_record_of_loc m l)) with m in * by (by destruct l as [|[]]).
  destruct (shift_bounds prec emax ltac:(lia) ltac:(lia) K HK m e i L j N Hm He HL HN Hb) as [Hb1 Hroom].
  rewrite <- He1, <- Hq in Hb1, Hroom. set (n := round_nearest_even _ _).
  assert (L * 2 ^ K <= n * 2 ^ (e1 + K) <= N * 2 ^ K /\ 0 <= n) as [Hb2 Hn].
  { destruct (round_spec (shr_m r) r eq_refl) as [Hn|[Hin Hn]]; fold n in Hn; rewrite Hn; [by split|]. split; [|lia].
    enough ((shr_m r + 1) * 2 ^ (e1 + K) <= N * 2 ^ K).
    { pose proof (Z.pow_pos_nonneg 2 (e1 + K)). nia. }
    assert (2 ^ (e1 + K) = 2 ^ (e1 - e) * 2 ^ (e + K)) as Hsplit by (rewrite <- Z.pow_add_r by lia; f_equal; lia).
    pose proof (Z.pow_pos_nonneg 2 (e1 - e) ltac:(lia) ltac:(lia)) as Hp.
    pose proof (Z.pow_pos_nonneg 2 (e + K) ltac:(lia) ltac:(lia)) as HpK.
    pose proof (Z.mul_div_le m _ Hp) as Hfl. rewrite <- Hq in Hfl.
    assert (l = loc_Exact \/ l <> loc_Exact) as [->|Hne] by (destruct l; [by left|by right]).
    - destruct Hlost as [Hc|Hlt]; [done|cbn in Hc; done|]. apply Hroom; [|rewrite Hsplit; nia].
      destruct (Z.eq_dec e1 e) as [->|]; [|lia]. rewrite Z.sub_diag in Hlt, Hq. rewrite Hq, Z.div_1_r in Hlt. lia.
    - destruct (Hl Hne). apply Hroom; [lia|]. rewrite Hsplit. nia. }
  pose proof (shr_fexp_spec prec emax n e1 loc_Exact Hn) as Hs. destruct (shr_fexp prec emax n e1 loc_Exact) as [r2 e2].
  destruct Hs as [He2 (Hr2 & Hq2 & _)]. cbn [shr_record_of_loc shr_m] in Hq2.
  destruct (shift_bounds prec emax ltac:(lia) ltac:(lia) K HK n e1 i L j N Hn ltac:(lia) HL HN Hb2) as [Hb3 _].
  rewrite <- He2, <- Hq2 in Hb3. clear Hq2. pose proof (Z.pow_pos_nonneg 2 K ltac:(lia) HK).
  destruct (shr_m r2) as [|p|p].
  - cbn. nia.
  - assert (2 ^ (e2 + K) <= 2 ^ (emax - prec + K)) as Hle by (rewrite (Z.pow_add_r 2 (emax - prec)) by lia; nia).
    apply Z.pow_le_mono_r_iff in Hle; [|lia..]. rewrite (proj2 (Z.leb_le _ _)) by lia. cbn. exists K. split_and!; lia.
  - lia.
Qed.

Lemma binary_round_between L N m e : bound L -> bound N ->
  between L N (S754_finite false m e) -> between L N (binary_round prec emax false m e).
Proof.
  intros HL HN Hb. unfold binary_round. set (e' := fexp prec emax (Z.pos (digits2_pos m) + e)).
  pose proof (shl_align_spec m e e') as [Hez Hmz]. destruct (shl_align m e e') as [mz ez]. cbn [fst snd] in *.
  pose proof (between_at L N m e (Z.max 0 (- ez)) ltac:(lia) ltac:(lia) Hb) as Hk.
  apply (round_aux_between L N (Z.max 0 (- ez))); try done; try lia.
  rewrite Hmz, <- Z.mul_assoc, <- Z.pow_add_r by lia.
  by replace (e - Z.min e e' + (ez + Z.max 0 (- ez))) with (e + Z.max 0 (- ez)) by lia.
Qed.

Lemma normalize_between L N K m e z : bound L -> bound N -> 0 <= m -> 0 <= K -> 0 <= e + K ->
  L * 2 ^ K <= m * 2 ^ (e + K) <= N * 2 ^ K -> between L N (binary_normalize prec emax m e z).
Proof.
  intros HL HN Hm HK He Hb. destruct m as [|m|m]; [| |lia].
  - cbn. pose proof (Z.pow_pos_nonneg 2 K). nia.
  - apply binary_round_between; [done..|]. by exists K.
Qed.

(** an integer as a floating-point number *)
Lemma of_int_between L N n : bound L -> bound N -> 0 <= n -> L <= n <= N ->
  between L N (binary_normalize prec emax n 0 false).
Proof. intros HL HN Hn Hb. apply (normalize_between L N 0); try done; lia. Qed.

(** the sum *)
Lemma add_between L N L' N' x y : bound (L + L') -> bound (N + N') -> between L N x -> between L' N' y ->
  between (L + L') (N + N') (SFadd prec emax x y).
Proof.
  intros HL HN Hx Hy.
  destruct x as [zx| | |[] mx ex]; try done; destruct y as [zy| | |[] my ey]; try done; cbn [SFadd].
  - cbn in Hx, Hy. destruct zx, zy; cbn; lia.
  - cbn in Hx. eapply between_mono, Hy; lia.
  - cbn in Hy. eapply between_mono, Hx; lia.
  - set (ez := Z.min ex ey). cbn [cond_Zopp].
    pose proof (shl_align_spec mx ex ez) as [_ Ex]. pose proof (shl_align_spec my ey ez) as [_ Ey].
    replace (Z.min ex ez) with ez in Ex by lia. replace (Z.min ey ez) with ez in Ey by lia.
    set (K := Z.max 0 (- ez)).
    pose proof (between_at L N mx ex K ltac:(lia) ltac:(lia) Hx). pose proof (between_at L' N' my ey K ltac:(lia) ltac:(lia) Hy).
    apply (normalize_between _ _ K); try done; try lia.
    rewrite Ex, Ey, !Z.mul_add_distr_r, <- !Z.mul_assoc, <- !Z.pow_add_r by lia.
    replace (ex - ez + (ez + K)) with (ex + K) by lia. replace (ey - ez + (ez + K)) with (ey + K) by lia. lia.
Qed.

Lemma bound_zero : bound 0.
Proof. split; [|by apply Z.pow_nonneg]. exists 0. split; [done|]. exists 0. pose proof (Z.pow_pos_nonneg 2 prec). lia. Qed.

(** the quotient of the division, before it is rounded *)
Lemma div_core_spec m1 e1 m2 e2 : 0 < m1 -> 0 < m2 ->
  let '(q, e, l) := SFdiv_core_binary prec emax m1 e1 m2 e2 in
  0 <= q /\ e <= e1 - e2 /\ e <= fexp prec emax (Zdigits2 q + e) /\
  q * m2 <= m1 * 2 ^ (e1 - e2 - e) /\ (l <> loc_Exact -> q * m2 < m1 * 2 ^ (e1 - e2 - e)).
Proof.
  intros H1 H2. unfold SFdiv_core_binary. set (t := Zdigits2 m1 + e1 - (Zdigits2 m2 + e2)).
  set (e := Z.min (fexp prec emax t) (e1 - e2)).
  replace (match e1 - e2 - e with Z0 => m1 | Zpos _ => Z.shiftl m1 (e1 - e2 - e) | Zneg _ => 0 end) with (m1 * 2 ^ (e1 - e2 - e)).
  2: { destruct (e1 - e2 - e) as [|s|s] eqn:E; [lia|by rewrite Z.shiftl_mul_pow2|lia]. }
  set (m := m1 * 2 ^ (e1 - e2 - e)). assert (0 <= e1 - e2 - e) as Hs by lia.
  pose proof (Z.pow_pos_nonneg 2 (e1 - e2 - e) ltac:(lia) Hs) as Hp.
  pose proof (Z_div_mod m m2 ltac:(lia)) as Hdiv. destruct (Z.div_eucl m m2) as [q r]. destruct Hdiv as [Hm Hr].
  assert (0 <= q) as Hq by nia. split_and!; [done|lia| |nia|].
  - assert (t <= Zdigits2 q + e) as Ht; [|unfold fexp in *; lia].
    destruct (digits_bounds m1 H1) as [[Hm1 _] Hd1]. destruct (digits_bounds m2 H2) as [[_ Hm2] Hd2].
    assert (q < 2 ^ Zdigits2 q /\ 0 <= Zdigits2 q) as [Hdq Hdq0].
    { destruct (Z.eq_dec q 0) as [->|]; [done|]. destruct (digits_bounds q ltac:(lia)). lia. }
    assert (2 ^ (Zdigits2 m1 - 1 + (e1 - e2 - e)) < 2 ^ (Zdigits2 m2 + Zdigits2 q)) as Hlt.
    { rewrite !Z.pow_add_r by lia. nia. }
    apply Z.pow_lt_mono_r_iff in Hlt; lia.
  - unfold new_location, new_location_even, new_location_odd. destruct (Z.eqb_spec r 0) as [->|]; [by destruct (Z.even m2)|nia].
Qed.

(** the quotient *)
Lemma div_between A N B C x y : bound N -> between 0 A x -> between B C y -> 0 < B -> A <= N * B ->
  between 0 N (SFdiv prec emax x y).
Proof.
  intros HN Hx Hy HB HA.
  destruct y as [zy| | |[] my ey]; try done; [cbn in Hy; lia|].
  destruct x as [zx| | |[] mx ex]; try done; [cbn in *; nia|]. cbn [SFdiv xorb].
  pose proof (div_core_spec (Zpos mx) ex (Zpos my) ey eq_refl eq_refl) as Hc.
  destruct (SFdiv_core_binary _ _ _ _ _ _) as [[q e] l]. destruct Hc as (Hq & He & Hfe & Hle & Hlt).
  set (K := Z.max 0 (Z.max (- e) (Z.max (- ex) (- ey)))).
  pose proof (between_at 0 A mx ex (2 * K + 0) ltac:(lia) ltac:(lia) Hx) as [_ HxA].
  pose proof (between_at B C my ey K ltac:(lia) ltac:(lia) Hy) as [HyB _].
  pose proof (Z.pow_pos_nonneg 2 K ltac:(lia) ltac:(lia)) as HpK.
  pose proof (Z.pow_pos_nonneg 2 (e + K) ltac:(lia) ltac:(lia)) as Hpe.
  pose proof (Z.pow_pos_nonneg 2 (ey + K) ltac:(lia) ltac:(lia)) as Hpy.
  (* the numerator at the scale of the product *)
  assert (Zpos mx * 2 ^ (ex - ey - e) * 2 ^ (e + K) * 2 ^ (ey + K) <= N * 2 ^ K * (Zpos my * 2 ^ (ey + K))) as Hnum.
  { rewrite <- !Z.mul_assoc, <- !Z.pow_add_r by lia. replace (ex - ey - e + (e + K + (ey + K))) with (ex + (2 * K + 0)) by lia.
    etrans; [exact HxA|]. rewrite Z.add_0_r. replace (2 * K) with (K + K) by lia. rewrite Z.pow_add_r by lia.
    assert (A * (2 ^ K * 2 ^ K) <= N * B * (2 ^ K * 2 ^ K)) by (apply Z.mul_le_mono_nonneg_r; nia).
    assert (0 <= N) by nia. nia. }
  apply (round_aux_between 0 N K); try done; try lia; [apply bound_zero| |].
  - split; [nia|]. apply (Z.mul_le_mono_pos_r _ _ (Zpos my * 2 ^ (ey + K))); [lia|]. nia.
  - intros Hne. split; [|done]. specialize (Hlt Hne).
    apply (Z.mul_lt_mono_pos_r (Zpos my * 2 ^ (ey + K))); [lia|]. nia.
Qed.
End Operations.
