(* ===== verification/LinearRoad.v ===== *)
(** * LinearRoad: the tolling query of [usecases/LinearRoad]

    Models [src/usecases/LinearRoad/LinRoad.cpp]: the global state of the
    query, its helpers, the two functions its pipeline calls for every element
    of the sliding window ([notify] and the second [where]), and the functions
    of the benchmark's paper in [FunctionsFromPaper.cpp], which work on the list
    [P] of all position reports.  Single precision arithmetic is IEEE binary32
    (the standard library's [SpecFloat] with 24 bits of precision).

    What is shown: on reports that arrive in the order of their times, the
    statistics kept per minute and segment are those of the paper's functions,
    except for what [deleteSpeedEntries] has dropped; what that is; that every
    cast and sum of the notifications stays inside [int], by the bounds of
    [Floats]; which tolls are printed; when a vehicle counts as stopped; and
    what the toll formula computes.

    The printing helpers and the data driver, which reads through a library
    that is not in the repository, are not modelled. *)

From Stdlib Require Import SpecFloat.
From S2P Require Import Prelude OrderedMap Floats.

(** ** Single precision *)

Definition f_of_int (z : Z) : spec_float := binary_normalize 24 128 z 0 false.
Definition f_add : spec_float -> spec_float -> spec_float := SFadd 24 128.
Definition f_div : spec_float -> spec_float -> spec_float := SFdiv 24 128.
Definition f_zero : spec_float := S754_zero false.

(** a [double] assigned to a [float] *)
Definition f_narrow (x : spec_float) : spec_float :=
  match x with S754_finite s m e => binary_normalize 24 128 (cond_Zopp s (Zpos m)) e s | _ => x end.
(** [f += 1.0], where [1.0] is a [double] *)
Definition f_incr (x : spec_float) : spec_float := f_narrow (SFadd 53 1024 x (f_of_int 1)).

(** [static_cast<int>], undefined when the truncated value is no [int] *)
Definition f_to_int (x : spec_float) : result Z :=
  match x with
  | S754_zero _ => Ok 0
  | S754_finite s m e => to_int (cond_Zopp s (if 0 <=? e then Z.shiftl (Zpos m) e else Z.shiftr (Zpos m) (- e)))
  | _ => Err IntOverflow
  end.

(** ** Data *)

Record PosReport := mkPosReport {
  r_t : Z; r_v : Z; r_spd : Z; r_x : Z; r_l : Z; r_d : Z; r_s : Z; r_pos : Z;
}.
Definition nullStruct : PosReport := mkPosReport 0 0 0 0 0 0 0 0.

Abbreviation PosID := (Z * Z)%type (only parsing).            (** [t], [v] *)
Definition PosID_lt (a b : PosID) : bool := (a.2 <? b.2) || ((a.2 =? b.2) && (a.1 <? b.1)).

Record AccidentID := mkAccident { ac_x : Z; ac_s : Z; ac_v : Z; ac_m : Z; ac_d : Z }.
Definition AccidentID_lt (a b : AccidentID) : bool :=
  (ac_x a <? ac_x b) ||
  ((ac_x a =? ac_x b) && (ac_s a <? ac_s b)) ||
  ((ac_x a =? ac_x b) && (ac_s a =? ac_s b) && (ac_v a <? ac_v b)) ||
  ((ac_x a =? ac_x b) && (ac_s a =? ac_s b) && (ac_v a =? ac_v b) && (ac_m a <? ac_m b)) ||
  ((ac_x a =? ac_x b) && (ac_s a =? ac_s b) && (ac_v a =? ac_v b) && (ac_m a =? ac_m b) && (ac_d a <? ac_d b)).

#[export] Instance AccidentID_eq_dec : EqDecision AccidentID.
Proof. solve_decision. Defined.

Abbreviation SegID := (Z * Z * Z * Z)%type (only parsing).    (** minute, expressway, segment, direction *)
Definition seg_minute (k : SegID) : Z := k.1.1.1.

Record AvgSpd := mkAvgSpd { a_sum : Z; a_n : Z }.

Record AccAlert := mkAlert { al_repType : Z; al_t : Z; al_emit : Z; al_s : Z }.
Record TollNote := mkNote { tn_repType : Z; tn_v : Z; tn_t : Z; tn_emit : Z; tn_spd : Z; tn_toll : Z }.
Inductive printed := PToll (n : TollNote) | PAlert (a : AccAlert).

(** the globals *)
Record lr := mkLr {
  globalTimeSeconds : Z;
  globalTimeMinute : Z;
  activePosReports : Z;
  posReports : list (PosID * PosReport);
  segs : gmap Z Z;
  accidents : list (AccidentID * unit);
  spdOfSegments : gmap SegID (list (Z * AvgSpd));
}.
Definition lr_init : lr := mkLr 0 1 0 [] ∅ [] ∅.

Definition with_pos x st := mkLr (globalTimeSeconds st) (globalTimeMinute st) (activePosReports st) x (segs st) (accidents st) (spdOfSegments st).
Definition with_active x st := mkLr (globalTimeSeconds st) (globalTimeMinute st) x (posReports st) (segs st) (accidents st) (spdOfSegments st).
Definition with_segs x st := mkLr (globalTimeSeconds st) (globalTimeMinute st) (activePosReports st) (posReports st) x (accidents st) (spdOfSegments st).
Definition with_accidents x st := mkLr (globalTimeSeconds st) (globalTimeMinute st) (activePosReports st) (posReports st) (segs st) x (spdOfSegments st).
Definition with_speeds x st := mkLr (globalTimeSeconds st) (globalTimeMinute st) (activePosReports st) (posReports st) (segs st) (accidents st) x.
Definition with_clock s m st := mkLr s m (activePosReports st) (posReports st) (segs st) (accidents st) (spdOfSegments st).

(** ** Helpers *)

Definition changedSegment (v s : Z) (st : lr) : bool * lr :=
  match segs st !! v with
  | None => (false, with_segs (<[v := s]> (segs st)) st)
  | Some oldSeg =>
      if negb (oldSeg =? s) then (true, with_segs (<[v := s]> (delete v (segs st))) st)
      else (false, st)
  end.

Definition eraseFromPosReports (t v : Z) (st : lr) : result lr :=
  n ← to_int (activePosReports st - 1);
  Ok (with_pos (om_erase PosID_lt (t, v) (posReports st)) (with_active n st)).

Definition eraseFromSegs (v : Z) (st : lr) : lr := with_segs (delete v (segs st)) st.

(** [std::map::insert] keeps an entry that is there *)
Definition addToPosReports (p : PosReport) (st : lr) : result lr :=
  n ← to_int (activePosReports st + 1);
  let key := (r_t p, r_v p) in
  Ok (with_pos (match om_find PosID_lt key (posReports st) with
                | Some _ => posReports st
                | None => om_put PosID_lt key p (posReports st)
                end) (with_active n st)).

Definition deleteSpeedEntries (m : Z) (st : lr) : lr :=
  with_speeds (filter (fun e => m < seg_minute e.1) (spdOfSegments st)) st.

(** ** The functions of the query *)

Definition M (t : Z) : Z := Z.quot t 60 + 1.

(** positions of [lower_bound] and [upper_bound] *)
Fixpoint lower_bound (k : PosID) (l : list (PosID * PosReport)) : nat :=
  match l with
  | [] => 0
  | e :: rest => if PosID_lt e.1 k then S (lower_bound k rest) else 0
  end.
Fixpoint upper_bound (k : PosID) (l : list (PosID * PosReport)) : nat :=
  match l with
  | [] => 0
  | e :: rest => if PosID_lt k e.1 then 0 else S (upper_bound k rest)
  end.

Definition Last (i v t : Z) (st : lr) : result PosReport :=
  timeLowerBound ← to_int (t - 30 * i);
  u ← to_int (t - 30 * (i - 1));
  timeUpperBound ← to_int (u - 1);
  let it := lower_bound (timeLowerBound, v) (posReports st) in
  if Nat.eqb it (upper_bound (timeUpperBound, v) (posReports st)) then Ok nullStruct
  else e ← get_at (posReports st) it; Ok e.2.

Definition same_place (p : PosReport) (x l pos d : Z) : bool :=
  (r_x p =? x) && (r_l p =? l) && (r_pos p =? pos) && (r_d p =? d).

Fixpoint stop_from (js : list Z) (v t x l pos d : Z) (st : lr) : result bool :=
  match js with
  | [] => Ok true
  | i :: rest =>
      last ← Last i v t st;
      if negb (same_place last x l pos d) then Ok false else stop_from rest v t x l pos d st
  end.
Definition Stop (v t x l pos d : Z) (st : lr) : result bool := stop_from [1; 2; 3; 4] v t x l pos d st.

(** the test of one entry of the accidents set *)
Definition accident_fits (p : PosReport) (a : AccidentID) : result bool :=
  if negb (ac_x a =? r_x p) then Ok false
  else
    near ← (if r_d p =? 0 then
        if ac_s a >=? r_s p then hi ← to_int (r_s p + 4); Ok (ac_s a <=? hi) else Ok false
      else lo ← to_int (r_s p - 4); Ok ((ac_s a >=? lo) && (ac_s a <=? r_s p)));
    if near : bool then t ← to_int (r_t p - 1); Ok ((ac_m a =? M t) && (ac_d a =? r_d p)) else Ok false.

Fixpoint find_accident (p : PosReport) (l : list (AccidentID * unit)) (numEntriesFound : Z) : result Z :=
  match l with
  | [] => Ok (-1)
  | e :: rest =>
      fits ← accident_fits p e.1;
      let n := if fits : bool then numEntriesFound + 1 else numEntriesFound in
      if n >=? 2 then Ok (ac_s e.1) else find_accident p rest n
  end.

Definition DetectAccident (p : PosReport) (st : lr) : result (Z * lr) :=
  let accID := mkAccident (r_x p) (r_s p) (r_v p) (M (r_t p)) (r_d p) in
  stopped ← (if negb (r_l p =? 0) && negb (r_l p =? 4)
             then Stop (r_v p) (r_t p) (r_x p) (r_l p) (r_pos p) (r_d p) st else Ok false);
  let st := with_accidents (if stopped : bool then om_put AccidentID_lt accID tt (accidents st)
                            else om_erase AccidentID_lt accID (accidents st)) st in
  seg ← find_accident p (accidents st) 0;
  Ok (seg, st).

Definition addToSpeedEntries (p : PosReport) (st : lr) : result lr :=
  let key : SegID := (M (r_t p), r_x p, r_s p, r_d p) in
  segMap ← match spdOfSegments st !! key with
           | Some segMap =>
               match om_find Z.ltb (r_v p) segMap with
               | Some speedEntry =>
                   sum ← to_int (a_sum speedEntry + r_spd p);
                   n ← to_int (a_n speedEntry + 1);
                   Ok (om_put Z.ltb (r_v p) (mkAvgSpd sum n) segMap)
               | None => Ok (om_put Z.ltb (r_v p) (mkAvgSpd (r_spd p) 1) segMap)
               end
           | None => Ok (om_put Z.ltb (r_v p) (mkAvgSpd (r_spd p) 1) [])
           end;
  Ok (with_speeds (<[key := segMap]> (spdOfSegments st)) st).

Definition avg_of (e : AvgSpd) : spec_float := f_div (f_of_int (a_sum e)) (f_of_int (a_n e)).

Definition Avgs (m x s d : Z) (st : lr) : spec_float :=
  match spdOfSegments st !! ((m, x, s, d) : SegID) with
  | Some segMap =>
      let '(sumSpeeds, numSpeeds) :=
        fold_left (fun acc e => (f_add acc.1 (avg_of e.2), f_incr acc.2)) segMap (f_zero, f_zero) in
      f_div sumSpeeds numSpeeds
  | None => f_zero
  end.

(** the loop over the five minutes before [m], and the final division *)
Definition lav_loop {E} (avgs : Z -> result E) (add : E -> E -> E) (zero : E) (m : Z) : result (Z * E) :=
  fold_left (fun acc i =>
    '(numAvgs, sumAvgs) ← acc;
    if m - i >? 0 then a ← avgs (m - i); Ok (numAvgs + 1, add sumAvgs a) else Ok (numAvgs, sumAvgs))
    [1; 2; 3; 4; 5] (Ok (0, zero)).

Definition Lav (m x s d : Z) (st : lr) : result Z :=
  '(numAvgs, sumAvgs) ← lav_loop (fun m => Ok (Avgs m x s d st)) f_add f_zero m;
  if numAvgs =? 0 then Ok 0 else f_to_int (f_div sumAvgs (f_of_int numAvgs)).

Definition Cars (m x s d : Z) (st : lr) : Z :=
  match spdOfSegments st !! ((m, x, s, d) : SegID) with
  | Some segMap => s32 (Z.of_nat (length segMap))
  | None => 0
  end.

(** ** The pipeline *)

(** the function given to [notify] *)
Definition lr_notify (p : PosReport) (outdated : bool) (st : lr) : result lr :=
  if outdated then st ← eraseFromPosReports (r_t p) (r_v p) st; Ok (eraseFromSegs (r_v p) st)
  else Ok st.

Definition lr_clock (p : PosReport) (st : lr) : lr :=
  if r_t p >? globalTimeSeconds st then
    let st := with_clock (r_t p) (globalTimeMinute st) st in
    if M (globalTimeSeconds st) >? globalTimeMinute st then
      let st := with_clock (globalTimeSeconds st) (M (globalTimeSeconds st)) st in
      deleteSpeedEntries (M (globalTimeMinute st - 6)) st
    else st
  else st.

(** [2 * (cars - 50)^2]: [^] is the exclusive or *)
Definition toll_of (lav accSegment cars : Z) : result Z :=
  if (lav <? 40) && (accSegment =? -1) && (cars >? 50) then t ← to_int (2 * (cars - 50)); Ok (Z.lxor t 2)
  else Ok 0.

(** what is printed for a vehicle that entered a segment *)
Definition lr_notes (p : PosReport) (accSegment : Z) (st : lr) : result (list printed) :=
  lav ← Lav (M (r_t p)) (r_x p) (r_s p) (r_d p) st;
  let cars := Cars (M (r_t p) - 1) (r_x p) (r_s p) (r_d p) st in
  toll ← toll_of lav accSegment cars;
  let note := mkNote 0 (r_v p) (r_t p) (globalTimeSeconds st) lav toll in
  let alert := mkAlert 1 (r_t p) (globalTimeSeconds st) accSegment in
  Ok ((if toll >? 0 then [PToll note] else []) ++ (if negb (accSegment =? -1) then [PAlert alert] else [])).

(** the state changes of the second [where]: the segment of an accident and
    whether the vehicle entered a new segment *)
Definition lr_update (p : PosReport) (outdated : bool) (st : lr) : result (Z * bool * lr) :=
  let st := lr_clock p st in
  if outdated then Ok (-1, false, st)
  else
    st ← addToPosReports p st;
    st ← addToSpeedEntries p st;
    '(accSegment, st) ← DetectAccident p st;
    let '(changed, st) := if negb (r_l p =? 4) then changedSegment (r_v p) (r_s p) st else (false, st) in
    Ok (accSegment, changed, st).

Definition lr_where (p : PosReport) (outdated : bool) (st : lr) : result (list printed * lr) :=
  '(accSegment, changed, st) ← lr_update p outdated st;
  out ← (if changed : bool then lr_notes p accSegment st else Ok []);
  Ok (out, st).

Definition lr_element (p : PosReport) (outdated : bool) (st : lr) : result (list printed * lr) :=
  st ← lr_notify p outdated st; lr_where p outdated st.

(** the elements of the window's output, one after another: what is printed,
    and the state *)
Fixpoint lr_run (l : list (PosReport * bool)) (st : lr) : result (list printed * lr) :=
  match l with
  | [] => Ok ([], st)
  | e :: rest =>
      '(out, st) ← lr_element e.1 e.2 st;
      '(outs, st) ← lr_run rest st;
      Ok (out ++ outs, st)
  end.

(** the state alone *)
Definition lr_states (l : list (PosReport * bool)) (st : lr) : result lr :=
  '(_, st) ← lr_run l st; Ok st.

(** ** The functions of the paper *)

Definition paper_Last (P : list PosReport) (i v t : Z) : PosReport :=
  match list_find (fun p => r_v p = v /\ 30 * (i - 1) <= t - r_t p < 30 * i) P with
  | Some (_, p) => p
  | None => nullStruct
  end.

(** [std::unique] on neighbours *)
Fixpoint uniq (l : list Z) : list Z :=
  match l with
  | a :: rest => match rest with b :: _ => if a =? b then uniq rest else a :: uniq rest | [] => [a] end
  | [] => []
  end.

Definition at_segment (m x s d : Z) (p : PosReport) : bool :=
  (M (r_t p) =? m) && (r_x p =? x) && (r_s p =? s) && (r_d p =? d).

Definition paper_cars (P : list PosReport) (m x s d : Z) : list Z :=
  uniq (merge_sort Z.le (r_v <$> filter (fun p => at_segment m x s d p = true) P)).

Definition paper_speeds (P : list PosReport) (v m x s d : Z) : result (Z * Z) :=
  fold_left (fun acc p =>
    '(numSpeeds, sumSpeeds) ← acc;
    if (r_v p =? v) && at_segment m x s d p then
      n ← to_int (numSpeeds + 1); sum ← to_int (sumSpeeds + r_spd p); Ok (n, sum)
    else Ok (numSpeeds, sumSpeeds)) P (Ok (0, 0)).

Definition paper_Avgsv (P : list PosReport) (v m x s d : Z) : result spec_float :=
  '(numSpeeds, sumSpeeds) ← paper_speeds P v m x s d;
  if numSpeeds =? 0 then Ok f_zero else Ok (f_div (f_of_int sumSpeeds) (f_of_int numSpeeds)).

Definition paper_Avgs (P : list PosReport) (m x s d : Z) : result spec_float :=
  '(numAvgsvs, sumAvgsvs) ← fold_left (fun acc v =>
      '(n, sum) ← acc;
      n ← to_int (n + 1);
      a ← paper_Avgsv P v m x s d;
      Ok (n, f_add sum a)) (paper_cars P m x s d) (Ok (0, f_zero));
  if numAvgsvs =? 0 then Ok f_zero else Ok (f_div sumAvgsvs (f_of_int numAvgsvs)).

Definition paper_Lav (P : list PosReport) (m x s d : Z) : result Z :=
  '(numAvgs, sumAvgs) ← lav_loop (fun m => paper_Avgs P m x s d) f_add f_zero m;
  if numAvgs =? 0 then Ok 0 else f_to_int (f_div sumAvgs (f_of_int numAvgs)).

Definition paper_Stop (P : list PosReport) (v t x l pos d : Z) : bool :=
  forallb (fun i => same_place (paper_Last P i v t) x l pos d) [1; 2; 3; 4].

Definition Dn (s d i : Z) : Z :=
  if d =? 0 then (if s + 1 <? 99 then s + 1 else 99)
  else (if s - i >? 0 then s - i else 0).

(** two different vehicles stopped in one travel lane *)
Definition paper_Acc (P : list PosReport) (t x pos d : Z) : bool :=
  existsb (fun lane =>
    1 <? Z.of_nat (length (uniq (merge_sort Z.le
      (r_v <$> filter (fun p => (r_l p =? lane) && paper_Stop P (r_v p) t x (r_l p) pos d = true) P)))))
    [1; 2; 3].

(** ** What the statistics should be *)

(** the reports of vehicle [v] in a minute and segment *)
Definition counts (v : Z) (k : SegID) (p : PosReport) : bool :=
  (r_v p =? v) && at_segment k.1.1.1 k.1.1.2 k.1.2 k.2 p.
Definition speeds (P : list PosReport) (v : Z) (k : SegID) : list Z := r_spd <$> filter (fun p => counts v k p = true) P.
Definition sum_of (l : list Z) : Z := foldr Z.add 0 l.

(** minutes up to this one have been dropped *)
Definition dropped (minute : Z) : Z := if minute =? 1 then 0 else M (minute - 6).

Definition entry_of (l : list Z) : option AvgSpd :=
  match l with [] => None | _ => Some (mkAvgSpd (sum_of l) (Z.of_nat (length l))) end.

(** one entry of [spdOfSegments] against the history *)
Record segment_ok (P : list PosReport) (k : SegID) (segMap : list (Z * AvgSpd)) : Prop := {
  sg_sorted : om_sorted Z.ltb segMap;
  sg_entry : forall v, om_find Z.ltb v segMap = entry_of (speeds P v k);
}.

Definition speeds_ok (P : list PosReport) (b : Z) (m : gmap SegID (list (Z * AvgSpd))) : Prop :=
  forall k, if b <? seg_minute k then
      match m !! k with Some segMap => segMap <> [] /\ segment_ok P k segMap | None => segment_ok P k [] end
    else m !! k = None.

(** ** Sorted vehicle lists *)

Lemma strictly_sorted_NoDup (a : list Z) : StronglySorted Z.lt a -> NoDup a.
Proof.
  induction 1 as [|x a Hs IH Hall]; constructor; [|done]. rewrite Forall_forall in Hall.
  intros Hin. specialize (Hall x Hin). lia.
Qed.

Lemma strictly_sorted_eq (l k : list Z) : StronglySorted Z.lt l -> StronglySorted Z.lt k ->
  (forall x, x ∈ l <-> x ∈ k) -> l = k.
Proof.
  assert (forall a : list Z, StronglySorted Z.lt a -> StronglySorted Z.le a) as Hle.
  { induction 1 as [|x a Hs IH Hall]; constructor; [done|]. eapply Forall_impl; [exact Hall|]. cbn. lia. }
  intros Hl Hk He. apply (StronglySorted_unique Z.le); [by apply Hle..|].
  apply NoDup_Permutation; [by apply strictly_sorted_NoDup..|exact He].
Qed.

Lemma uniq_spec l : StronglySorted Z.le l -> StronglySorted Z.lt (uniq l) /\ forall x, x ∈ uniq l <-> x ∈ l.
Proof.
  induction 1 as [|a l Hs [IHs IHe] Hall]; [split; [constructor|done]|].
  cbn [uniq]. destruct l as [|b l]; [split; [by repeat constructor|done]|].
  rewrite Forall_forall in Hall. destruct (Z.eqb_spec a b) as [<-|Hne].
  - split; [done|]. intros x. rewrite IHe, !elem_of_cons. naive_solver.
  - split.
    + constructor; [done|]. rewrite Forall_forall. intros x Hx%IHe.
      pose proof (Hall b ltac:(by left)). apply elem_of_cons in Hx as [->|Hx]; [lia|].
      apply StronglySorted_inv in Hs as [_ Hb]. rewrite Forall_forall in Hb. specialize (Hb x Hx). lia.
    + intros x. rewrite elem_of_cons, IHe. by rewrite (elem_of_cons _ x a).
Qed.

Lemma counts_segment P v k : speeds P v k <> [] <->
  v ∈ (r_v <$> filter (fun p => at_segment k.1.1.1 k.1.1.2 k.1.2 k.2 p = true) P).
Proof.
  unfold speeds. split.
  - intros Hne. destruct (filter (fun p => counts v k p = true) P) as [|p l] eqn:E; [done|].
    assert (p ∈ filter (fun p => counts v k p = true) P) as Hp by (rewrite E; by left).
    apply list_elem_of_filter in Hp as [[Hv Hseg]%andb_prop Hp]. apply list_elem_of_fmap. exists p.
    split; [lia|]. by apply list_elem_of_filter.
  - intros (p & -> & [Hseg Hp]%list_elem_of_filter)%list_elem_of_fmap Hnil.
    assert (p ∈ filter (fun q => counts (r_v p) k q = true) P) as Hin.
    { apply list_elem_of_filter. split; [|done]. unfold counts. by rewrite Z.eqb_refl, Hseg. }
    apply fmap_nil_inv in Hnil. rewrite Hnil in Hin. by apply not_elem_of_nil in Hin.
Qed.

(** the paper's cars: the vehicles seen, each once, in order *)
Lemma paper_cars_sorted P m x s d : StronglySorted Z.lt (paper_cars P m x s d) /\
  forall v, v ∈ paper_cars P m x s d <-> v ∈ (r_v <$> filter (fun p => at_segment m x s d p = true) P).
Proof.
  destruct (uniq_spec (merge_sort Z.le (r_v <$> filter (fun p => at_segment m x s d p = true) P))) as [Hu Hin].
  { apply (StronglySorted_merge_sort Z.le). }
  split; [exact Hu|]. intros v. unfold paper_cars. by rewrite Hin, merge_sort_Permutation.
Qed.

(** the vehicles of a correct entry are the paper's *)
Lemma segment_vehicles P m x s d segMap : segment_ok P (m, x, s, d) segMap -> segMap.*1 = paper_cars P m x s d.
Proof.
  intros [Hs He]. destruct (paper_cars_sorted P m x s d) as [Hu Hin].
  apply strictly_sorted_eq; [|done|].
  - unfold om_sorted in Hs. clear He. induction Hs as [|v l Hs IH Hall]; constructor; [done|].
    eapply Forall_impl; [exact Hall|]. cbn. lia.
  - intros v. rewrite Hin, <- (counts_segment P v (m, x, s, d)). specialize (He v).
    split.
    + intros ([v' e] & -> & Hin')%list_elem_of_fmap. apply (om_find_Some Z.ltb) in Hin'; [|done]. cbn in *.
      rewrite Hin' in He. by destruct (speeds P v' (m, x, s, d)).
    + intros Hne. destruct (speeds P v (m, x, s, d)) as [|z l]; [done|].
      apply (om_find_Some Z.ltb) in He; [|done]. by apply (list_elem_of_fmap_2 fst) in He.
Qed.

(** ** Keeping the statistics *)

(** a report within the documented ranges *)
Definition proper (p : PosReport) : Prop := 0 <= r_t p < 2^31 /\ 0 <= r_spd p <= 100 /\ 0 <= r_s p <= 99.

Definition key_of (p : PosReport) : SegID := (M (r_t p), r_x p, r_s p, r_d p).

Lemma counts_key v k p : counts v k p = true <-> r_v p = v /\ key_of p = k.
Proof.
  destruct k as [[[m x] s] d]. unfold counts, at_segment, key_of. cbn.
  rewrite !andb_true_iff, !Z.eqb_eq. split; [by intros (-> & ((-> & ->) & ->) & ->)|intros (-> & [= -> -> -> ->])]. done.
Qed.

Lemma speeds_snoc P p v k :
  speeds (P ++ [p]) v k = speeds P v k ++ (if decide (r_v p = v /\ key_of p = k) then [r_spd p] else []).
Proof.
  unfold speeds. rewrite filter_app, fmap_app. f_equal. rewrite filter_cons, filter_nil.
  destruct (decide (counts v k p = true)) as [H|H]; rewrite counts_key in H.
  - by rewrite decide_True.
  - by rewrite decide_False.
Qed.

Lemma sum_of_app l k : sum_of (l ++ k) = sum_of l + sum_of k.
Proof. unfold sum_of. induction l as [|a l IH]; [done|]. cbn. lia. Qed.

Lemma speeds_bound P v k : Forall proper P ->
  0 <= sum_of (speeds P v k) <= 100 * Z.of_nat (length (speeds P v k)) /\ (length (speeds P v k) <= length P)%nat.
Proof.
  induction P as [|p P IH] using rev_ind; intros HP; [cbn; lia|].
  apply Forall_app in HP as [HP Hp]. apply Forall_inv in Hp as (_ & Hp & _). specialize (IH HP).
  rewrite speeds_snoc, sum_of_app, !length_app. case_decide; cbn; lia.
Qed.

Lemma entry_snoc l z : entry_of (l ++ [z]) = Some (mkAvgSpd (sum_of l + z) (Z.of_nat (length l) + 1)).
Proof.
  unfold entry_of. destruct (l ++ [z]) eqn:E; [by destruct l|]. rewrite <- E, sum_of_app, length_app. cbn.
  do 2 f_equal; lia.
Qed.

Lemma segment_ok_add P p segMap : segment_ok P (key_of p) segMap ->
  segment_ok (P ++ [p]) (key_of p) (om_put Z.ltb (r_v p)
    (mkAvgSpd (sum_of (speeds P (r_v p) (key_of p)) + r_spd p) (Z.of_nat (length (speeds P (r_v p) (key_of p))) + 1)) segMap).
Proof.
  intros [Hs He]. split; [by apply (om_put_sorted Z.ltb)|]. intros v. rewrite (om_find_put Z.ltb) by done. rewrite speeds_snoc.
  destruct (decide (r_v p = v)) as [<-|Hne].
  - by rewrite (decide_True _ _ (conj eq_refl eq_refl)), entry_snoc.
  - rewrite decide_False by naive_solver. rewrite app_nil_r. apply He.
Qed.

Lemma segment_ok_other P p k segMap : k <> key_of p -> segment_ok P k segMap -> segment_ok (P ++ [p]) k segMap.
Proof.
  intros Hne [Hs He]. split; [done|]. intros v. rewrite speeds_snoc, decide_False by naive_solver. by rewrite app_nil_r.
Qed.

Lemma om_put_not_nil {V} k (v : V) l : om_put Z.ltb k v l <> [].
Proof. destruct l as [|[k' v'] l]; cbn; [done|]. by repeat case_match. Qed.

Lemma add_speed P p b st : speeds_ok P b (spdOfSegments st) -> Forall proper P -> proper p ->
  100 * Z.of_nat (length P) + 100 < 2^31 -> b < M (r_t p) ->
  exists m', addToSpeedEntries p st = Ok (with_speeds m' st) /\ speeds_ok (P ++ [p]) b m'.
Proof.
  intros Hok HP (Ht & Hspd & _) Hlen Hb. destruct (speeds_bound P (r_v p) (key_of p) HP) as [Hsum Hcnt].
  assert (exists sm, segment_ok P (key_of p) sm /\ addToSpeedEntries p st = Ok (with_speeds (<[key_of p := om_put Z.ltb (r_v p)
    (mkAvgSpd (sum_of (speeds P (r_v p) (key_of p)) + r_spd p) (Z.of_nat (length (speeds P (r_v p) (key_of p))) + 1)) sm]>
    (spdOfSegments st)) st)) as (sm & Hsm & Hadd).
  { pose proof (Hok (key_of p)) as Hk. rewrite (proj2 (Z.ltb_lt _ _)) in Hk by done.
    unfold addToSpeedEntries. fold (key_of p). destruct (spdOfSegments st !! key_of p) as [sm|] eqn:E0.
    - exists sm. destruct Hk as [_ Hk]. split; [done|]. rewrite (sg_entry _ _ _ Hk (r_v p)).
      destruct (speeds P (r_v p) (key_of p)) as [|z l] eqn:E; [done|].
      cbn [entry_of]. rewrite <- E in *. cbn [a_sum a_n]. rewrite !to_int_Ok by (unfold is_int; lia). done.
    - exists []. split; [done|]. pose proof (sg_entry _ _ _ Hk (r_v p)) as He. cbn in He.
      destruct (speeds P (r_v p) (key_of p)); [done|done]. }
  eexists. split; [exact Hadd|]. intros k. specialize (Hok k).
  destruct (decide (k = key_of p)) as [->|Hne].
  - rewrite (proj2 (Z.ltb_lt _ _)) by done. rewrite lookup_insert_eq. split; [apply om_put_not_nil|by apply segment_ok_add].
  - rewrite lookup_insert_ne by done. destruct (b <? seg_minute k); [|done].
    destruct (spdOfSegments st !! k); [|by apply segment_ok_other].
    destruct Hok. split; [done|by apply segment_ok_other].
Qed.

(** ** The clock *)

Lemma M_mono t u : 0 <= t <= u -> M t <= M u.
Proof. intros H. unfold M. pose proof (Z.quot_le_mono t u 60 ltac:(lia) ltac:(lia)). lia. Qed.

Lemma dropped_val g : 2 <= g -> dropped g = Z.max 0 (g - 6) / 60 + 1.
Proof.
  intros Hg. unfold dropped, M. rewrite (proj2 (Z.eqb_neq _ _)) by lia. f_equal. destruct (Z.le_gt_cases 6 g).
  - rewrite Z.quot_div_nonneg, Z.max_r by lia. done.
  - rewrite Z.max_l by lia. replace (g - 6) with (- (6 - g)) by lia. rewrite Z.quot_opp_l, Z.quot_small by lia. done.
Qed.

Lemma dropped_mono g h : 1 <= g <= h -> dropped g <= dropped h /\ 0 <= dropped g < g.
Proof.
  intros H. destruct (decide (g = 1)) as [->|Hg].
  - split; [|done]. destruct (decide (h = 1)) as [->|Hh]; [done|]. rewrite (dropped_val h) by lia.
    pose proof (Z.div_pos (Z.max 0 (h - 6)) 60). unfold dropped. cbn. lia.
  - rewrite !dropped_val by lia. pose proof (Z.div_le_mono (Z.max 0 (g - 6)) (Z.max 0 (h - 6)) 60 ltac:(lia) ltac:(lia)).
    pose proof (Z.div_pos (Z.max 0 (g - 6)) 60 ltac:(lia) ltac:(lia)).
    assert (Z.max 0 (g - 6) / 60 <= Z.max 0 (g - 6)) by (apply Z.div_le_upper_bound; lia). lia.
Qed.

(** *** The invariant of the query *)

Definition clock_ok (P : list PosReport) (st : lr) : Prop :=
  0 <= globalTimeSeconds st < 2^31 /\ globalTimeMinute st = M (globalTimeSeconds st) /\
  Forall (fun p => r_t p <= globalTimeSeconds st) P.

Record lr_inv (P : list PosReport) (n : Z) (st : lr) : Prop := {
  li_clock : clock_ok P st;
  li_proper : Forall proper P;
  li_len : Z.of_nat (length P) <= n;
  li_active : - n <= activePosReports st <= n;
  li_pos : om_sorted PosID_lt (posReports st);
  li_speeds : speeds_ok P (dropped (globalTimeMinute st)) (spdOfSegments st);
}.

#[export] Instance PosID_comparator : Comparator PosID_lt.
Proof.
  split; unfold PosID_lt.
  - intros [t v]. cbn. lia.
  - intros [t v] [t' v'] [t'' v'']. cbn. lia.
  - intros [t v] [t' v']. cbn. intros H1 H2. f_equal; lia.
Qed.

Lemma M_pos t : 0 <= t -> 1 <= M t.
Proof. intros H. unfold M. pose proof (Z.quot_pos t 60 H). lia. Qed.

(** dropping more minutes *)
Lemma speeds_ok_drop P b b' m : b <= b' -> speeds_ok P b m -> speeds_ok P b' (filter (fun e => b' < seg_minute e.1) m).
Proof.
  intros Hb Hok k. specialize (Hok k). destruct (Z.ltb_spec b' (seg_minute k)) as [Hlt|Hge].
  - rewrite (proj2 (Z.ltb_lt _ _)) in Hok by lia. rewrite map_lookup_filter.
    destruct (m !! k) as [sm|]; cbn; [|done]. by rewrite option_guard_True.
  - rewrite map_lookup_filter. destruct (m !! k) as [sm|]; cbn; [|done]. rewrite option_guard_False; [done|cbn; lia].
Qed.

Lemma clock_inv P n p st : lr_inv P n st -> 0 <= r_t p < 2^31 -> lr_inv P n (lr_clock p st) /\
  globalTimeSeconds (lr_clock p st) = Z.max (globalTimeSeconds st) (r_t p).
Proof.
  intros [(Hs & Hm & HP) Hprop Hlen Hact Hpos Hspd] Ht. unfold lr_clock.
  destruct (Z.gtb_spec (r_t p) (globalTimeSeconds st)) as [Hgt|Hle]; [|split; [by split|lia]].
  assert (Forall (fun q => r_t q <= r_t p) P) as HP' by (eapply Forall_impl; [exact HP|]; cbn; lia).
  assert (globalTimeMinute st <= M (r_t p)) as Hmono by (rewrite Hm; apply M_mono; lia).
  pose proof (M_pos (globalTimeSeconds st) ltac:(lia)) as H1.
  cbn [globalTimeSeconds globalTimeMinute with_clock]. split; [|destruct (_ >? _); cbn; lia].
  destruct (Z.gtb_spec (M (r_t p)) (globalTimeMinute st)) as [Hnew|Hold].
  - assert (M (M (r_t p) - 6) = dropped (M (r_t p))) as Hd
      by (unfold dropped at 1; by rewrite (proj2 (Z.eqb_neq _ _)) by lia).
    split; cbn; rewrite ?Hd; [unfold clock_ok; cbn; split_and!; first [lia|done]|done..|].
    eapply speeds_ok_drop; [|exact Hspd]. by apply dropped_mono; lia.
  - assert (globalTimeMinute st = M (r_t p)) as Heq by lia.
    split; cbn; [unfold clock_ok; cbn; split_and!; first [lia|done]|done..].
Qed.

(** *** Position reports *)

Lemma bounds_le k k' l : PosID_lt k' k = false -> (lower_bound k l <= upper_bound k' l)%nat.
Proof.
  intros Hk. induction l as [|e l IH]; cbn; [lia|]. destruct (PosID_lt e.1 k) eqn:E1; [|lia].
  destruct (PosID_lt k' e.1) eqn:E2; [|lia].
  pose proof (cmp_trans (cmp:=PosID_lt) k' e.1 k E2 E1). congruence.
Qed.

Lemma upper_bound_length k l : (upper_bound k l <= length l)%nat.
Proof. induction l as [|e l IH]; cbn; [lia|]. destruct (PosID_lt k e.1); lia. Qed.

Lemma lower_bound_spec k l j e : om_sorted PosID_lt l -> l !! j = Some e ->
  (j < lower_bound k l)%nat <-> PosID_lt e.1 k = true.
Proof.
  revert j. induction l as [|[k0 p0] l IH]; intros j Hs Hj; [done|]. apply om_sorted_cons in Hs as [Hs Hall].
  destruct j as [|j]; cbn in *.
  - injection Hj as <-. cbn. destruct (PosID_lt k0 k); [split; [done|lia]|split; [lia|done]].
  - destruct (PosID_lt k0 k) eqn:E; [rewrite <- (IH j Hs Hj); lia|]. split; [lia|]. intros He.
    assert (PosID_lt k0 e.1 = true) as Hk by (apply Hall; apply list_elem_of_fmap; exists e; split; [done|by eapply list_elem_of_lookup_2]).
    pose proof (cmp_trans (cmp:=PosID_lt) _ _ _ Hk He). congruence.
Qed.

Lemma upper_bound_spec k l j e : om_sorted PosID_lt l -> l !! j = Some e ->
  (j < upper_bound k l)%nat <-> PosID_lt k e.1 = false.
Proof.
  revert j. induction l as [|[k0 p0] l IH]; intros j Hs Hj; [done|]. apply om_sorted_cons in Hs as [Hs Hall].
  destruct j as [|j]; cbn in *.
  - injection Hj as <-. cbn. destruct (PosID_lt k k0); [split; [lia|done]|split; [done|lia]].
  - destruct (PosID_lt k k0) eqn:E; [|rewrite <- (IH j Hs Hj); lia]. split; [lia|]. intros He.
    assert (PosID_lt k0 e.1 = true) as Hk by (apply Hall; apply list_elem_of_fmap; exists e; split; [done|by eapply list_elem_of_lookup_2]).
    pose proof (cmp_trans (cmp:=PosID_lt) _ _ _ E Hk). congruence.
Qed.

Lemma om_sorted_positions (l : list (PosID * PosReport)) i j a b : om_sorted PosID_lt l -> (i < j)%nat ->
  l !! i = Some a -> l !! j = Some b -> PosID_lt a.1 b.1 = true.
Proof.
  revert i j. induction l as [|[k q] l IH]; intros i j Hs Hij Hi Hj; [done|]. apply om_sorted_cons in Hs as [Hs Hall].
  destruct i as [|i], j as [|j]; cbn in *; [lia| |lia|by apply (IH i j); [|lia|..]].
  injection Hi as <-. cbn. apply Hall. apply list_elem_of_fmap. exists b. split; [done|by eapply list_elem_of_lookup_2].
Qed.

(** the window of the [i]-th report before [t], as the code has it *)
Definition in_window (i t u : Z) : Prop := t - 30 * i <= u < t - 30 * (i - 1).

(** [Last] answers the earliest stored report of the vehicle in the window, or
    the report whose fields are all zero. *)
Lemma Last_spec i v t st : om_sorted PosID_lt (posReports st) -> 1 <= i <= 4 -> 0 <= t < 2^31 ->
  exists p, Last i v t st = Ok p /\
    ((p = nullStruct /\ forall u q, ((u, v), q) ∈ posReports st -> ~ in_window i t u) \/
     (exists u, ((u, v), p) ∈ posReports st /\ in_window i t u /\
        forall u' q, ((u', v), q) ∈ posReports st -> in_window i t u' -> u <= u')).
Proof.
  intros Hs Hi Ht. unfold Last. rewrite !to_int_Ok by (unfold is_int; lia). run_step.
  rewrite to_int_Ok by (unfold is_int; lia). run_step. unfold in_window.
  set (lo := (t - 30 * i, v)). set (hi := (t - 30 * (i - 1) - 1, v)). set (l := posReports st) in *.
  pose proof (bounds_le lo hi l ltac:(unfold PosID_lt; cbn; lia)) as Hle. pose proof (upper_bound_length hi l) as Hlen.
  assert (forall u q j, l !! j = Some ((u, v), q) ->
    ((j < lower_bound lo l)%nat <-> u < t - 30 * i) /\ ((j < upper_bound hi l)%nat <-> u < t - 30 * (i - 1))) as Hwin.
  { intros u q j Hj. rewrite (lower_bound_spec lo l j _ Hs Hj), (upper_bound_spec hi l j _ Hs Hj).
    unfold PosID_lt, lo, hi. cbn. lia. }
  destruct (Nat.eqb_spec (lower_bound lo l) (upper_bound hi l)) as [Heq|Hne].
  - exists nullStruct. split; [done|]. left. split; [done|]. intros u q [j Hj]%list_elem_of_lookup_1 Hw.
    pose proof (Hwin u q j Hj). lia.
  - destruct (lookup_lt_is_Some_2 l (lower_bound lo l)) as [[[u w] p] Hj]; [lia|].
    rewrite (get_at_Some _ _ _ Hj). run_step. exists p. split; [done|]. right. exists u.
    assert (w = v) as ->.
    { pose proof (lower_bound_spec lo l _ _ Hs Hj) as [_ H1]. pose proof (upper_bound_spec hi l _ _ Hs Hj) as [H2 _].
      unfold PosID_lt, lo, hi in *. cbn in *. specialize (H2 ltac:(lia)).
      destruct (decide (w < v)); [specialize (H1 ltac:(lia)); lia|]. lia. }
    split_and!; [by eapply list_elem_of_lookup_2|pose proof (Hwin u p _ Hj); lia..|].
    intros u' q [j Hj']%list_elem_of_lookup_1 Hw. destruct (decide (j = lower_bound lo l)) as [->|Hj2].
    + rewrite Hj in Hj'. injection Hj' as -> ->. lia.
    + pose proof (Hwin u' q j Hj'). assert (lower_bound lo l < j)%nat as Hlt by lia.
      assert (PosID_lt (u, v) (u', v) = true) as Hsort.
      { exact (om_sorted_positions l _ j _ _ Hs Hlt Hj Hj'). }
      unfold PosID_lt in Hsort. cbn in Hsort. lia.
Qed.

Lemma addToPosReports_inv P n p st : lr_inv P n st -> n + 1 < 2^31 ->
  exists st', addToPosReports p st = Ok st' /\ om_sorted PosID_lt (posReports st') /\
    activePosReports st' = activePosReports st + 1 /\ spdOfSegments st' = spdOfSegments st /\
    globalTimeSeconds st' = globalTimeSeconds st /\ globalTimeMinute st' = globalTimeMinute st.
Proof.
  intros Hinv Hn. destruct Hinv as [_ _ Hlen Hact Hpos _]. unfold addToPosReports. rewrite to_int_Ok by (unfold is_int; lia). run_step.
  eexists. split; [done|]. cbn. split_and!; try done. destruct (om_find PosID_lt _ _); [done|by apply (om_put_sorted PosID_lt)].
Qed.

(** [DetectAccident] always answers, and changes only the accidents *)
Lemma stop_from_total js p x l pos d st : om_sorted PosID_lt (posReports st) -> 0 <= r_t p < 2^31 ->
  Forall (fun i => 1 <= i <= 4) js -> exists b, stop_from js (r_v p) (r_t p) x l pos d st = Ok b.
Proof.
  intros Hs Ht Hjs. induction Hjs as [|i js Hi _ IH]; cbn [stop_from]; [by eexists|].
  destruct (Last_spec i (r_v p) (r_t p) st Hs Hi Ht) as (q & -> & _). run_step.
  destruct (negb _); [by eexists|done].
Qed.

Lemma accident_fits_total p a : proper p -> exists b, accident_fits p a = Ok b.
Proof.
  intros (Ht & _ & Hseg). unfold accident_fits. destruct (negb _); [by eexists|].
  rewrite !to_int_Ok by (unfold is_int; lia). destruct (r_d p =? 0); [destruct (_ >=? _)|]; run_step; repeat case_match; by eexists.
Qed.

Lemma find_accident_total p l n : proper p -> exists s, find_accident p l n = Ok s.
Proof.
  intros Hp. revert n. induction l as [|e l IH]; intros n; cbn [find_accident]; [by eexists|].
  destruct (accident_fits_total p e.1 Hp) as [b ->]. run_step. destruct (_ >=? 2); [by eexists|apply IH].
Qed.

Lemma DetectAccident_total p st : om_sorted PosID_lt (posReports st) -> proper p ->
  exists s a, DetectAccident p st = Ok (s, with_accidents a st).
Proof.
  intros Hs Hp. unfold DetectAccident, Stop.
  destruct (stop_from_total [1; 2; 3; 4] p (r_x p) (r_l p) (r_pos p) (r_d p) st Hs (proj1 Hp)) as [b Hb];
    [by repeat constructor; lia|].
  assert (exists c, (if negb (r_l p =? 0) && negb (r_l p =? 4)
     then stop_from [1; 2; 3; 4] (r_v p) (r_t p) (r_x p) (r_l p) (r_pos p) (r_d p) st else Ok false) = Ok c) as [c ->]
    by (destruct (_ && _); [by exists b|by eexists]). run_step.
  destruct (find_accident_total p (accidents (with_accidents (if c then om_put AccidentID_lt
     (mkAccident (r_x p) (r_s p) (r_v p) (M (r_t p)) (r_d p)) tt (accidents st) else om_erase AccidentID_lt
     (mkAccident (r_x p) (r_s p) (r_v p) (M (r_t p)) (r_d p)) (accidents st)) st)) 0 Hp) as [s ->].
  run_step. by do 2 eexists.
Qed.

(** *** One element of the window *)

Lemma changedSegment_frame v s st : exists m, (changedSegment v s st).2 = with_segs m st.
Proof.
  unfold changedSegment. destruct (segs st !! v) as [o|]; [destruct (negb _)|]; try (by eexists).
  exists (segs st). by destruct st.
Qed.

Lemma lr_insert_inv P n p st : lr_inv P n st -> proper p -> globalTimeSeconds st <= r_t p -> 100 * n + 100 < 2^31 ->
  exists a c st', lr_update p false st = Ok (a, c, st') /\ lr_inv (P ++ [p]) (n + 1) st' /\ globalTimeSeconds st' = r_t p.
Proof.
  intros Hinv0 Hp Hnow Hn. destruct (clock_inv P n p st Hinv0 (proj1 Hp)) as [Hinv Hsec].
  rewrite Z.max_r in Hsec by lia. unfold lr_update. set (st1 := lr_clock p st) in *.
  pose proof (li_len _ _ _ Hinv) as Hlen. pose proof Hinv as [(Hs & Hm & HP) Hprop _ Hact _ Hspd].
  destruct (addToPosReports_inv P n p st1 Hinv ltac:(lia)) as (st2 & -> & Hpos2 & Hact2 & Hspd2 & Hs2 & Hm2). run_step.
  pose proof (M_pos (r_t p) ltac:(lia)) as H1. pose proof (dropped_mono (M (r_t p)) (M (r_t p)) ltac:(lia)) as [_ Hd].
  assert (globalTimeMinute st1 = M (r_t p)) as Hmin by (by rewrite Hm, Hsec).
  rewrite <- Hspd2 in Hspd. rewrite Hmin in Hspd.
  destruct (add_speed P p (dropped (M (r_t p))) st2 Hspd Hprop Hp ltac:(lia) ltac:(lia)) as (m & -> & Hspd3). run_step.
  destruct (DetectAccident_total p (with_speeds m st2) Hpos2 Hp) as (s & acc & ->). run_step.
  set (st4 := with_accidents acc (with_speeds m st2)).
  assert (exists c sg, (if negb (r_l p =? 4) then changedSegment (r_v p) (r_s p) st4 else (false, st4)) = (c, with_segs sg st4)) as (c & sg & ->).
  { destruct (negb _); [|exists false, (segs st4); by destruct st4].
    destruct (changedSegment_frame (r_v p) (r_s p) st4) as [sg Hsg].
    destruct (changedSegment (r_v p) (r_s p) st4) as [c st']. cbn in Hsg. subst st'. by do 2 eexists. }
  do 3 eexists. split; [done|]. cbn. split; [|by rewrite Hs2].
  split; cbn; rewrite ?Hs2, ?Hm2, ?Hact2, ?length_app, ?Hsec, ?Hmin; cbn; try done; try lia.
  - unfold clock_ok. cbn. rewrite Hs2, Hm2, Hsec, Hmin. split_and!; [lia|lia|done|].
    rewrite Hsec in HP. apply Forall_app. split; [done|]. apply Forall_singleton. lia.
  - apply Forall_app. split; [done|]. by apply Forall_singleton.
Qed.

Lemma lr_outdated_inv P n p st : lr_inv P n st -> proper p -> r_t p <= globalTimeSeconds st -> n + 1 < 2^31 ->
  exists st1 st', lr_notify p true st = Ok st1 /\ lr_update p true st1 = Ok (-1, false, st') /\ lr_inv P (n + 1) st' /\
    globalTimeSeconds st' = globalTimeSeconds st.
Proof.
  intros Hinv Hp Hnow Hn. pose proof Hinv as [Hclock Hprop Hlen Hact Hpos Hspd].
  unfold lr_notify, eraseFromPosReports, eraseFromSegs. rewrite to_int_Ok by (unfold is_int; lia). run_step.
  eexists _, _. split; [done|]. unfold lr_update. split; [reflexivity|].
  unfold lr_clock. cbn. destruct (Z.gtb_spec (r_t p) (globalTimeSeconds st)); [lia|].
  split; [|done]. split; cbn; [done|done|lia|lia|by apply (om_erase_sorted PosID_lt)|done].
Qed.

(** the elements of the window's output: new reports in the order of their
    times, outdated ones at any later moment *)
Fixpoint in_order (now : Z) (l : list (PosReport * bool)) : Prop :=
  match l with
  | [] => True
  | (p, outdated) :: rest =>
      proper p /\
      if outdated then r_t p <= now /\ in_order now rest else now <= r_t p /\ in_order (r_t p) rest
  end.

Definition arrived (l : list (PosReport * bool)) : list PosReport := fst <$> filter (fun e => e.2 = false) l.

Lemma lr_init_inv : lr_inv [] 0 lr_init.
Proof.
  split; [by unfold clock_ok|constructor|done|cbn; lia|constructor|].
  intros k. cbn. destruct (_ <? _); [|done]. split; [constructor|done].
Qed.

(** ** The statistics and the paper's functions *)

#[export] Instance spec_float_eq_dec : EqDecision spec_float.
Proof. solve_decision. Defined.

(** the most vehicles a segment is assumed to have in a minute *)
Definition car_limit : Z := 4096.

Lemma f_incr_checked : forallb (fun n => bool_decide (f_incr (f_of_int n) = f_of_int (n + 1))) (seqZ 0 car_limit) = true.
Proof. vm_compute. reflexivity. Qed.

Lemma f_incr_of_int n : 0 <= n < car_limit -> f_incr (f_of_int n) = f_of_int (n + 1).
Proof.
  intros Hn. pose proof f_incr_checked as H. rewrite forallb_forall in H. specialize (H n).
  apply bool_decide_eq_true in H; [done|]. apply list_elem_of_In, elem_of_seqZ. lia.
Qed.

Lemma paper_speeds_ok P v m x s d : Forall proper P -> 100 * Z.of_nat (length P) < 2^31 ->
  paper_speeds P v m x s d =
    Ok (Z.of_nat (length (speeds P v (m, x, s, d))), sum_of (speeds P v (m, x, s, d))).
Proof.
  unfold paper_speeds. induction P as [|p P IH] using rev_ind; intros HP Hlen; [done|].
  rewrite length_app in Hlen. cbn in Hlen. pose proof HP as [HP' Hp]%Forall_app. apply Forall_singleton in Hp as (_ & Hspd & _).
  rewrite fold_left_app, IH by (done || lia). cbn [fold_left]. run_step. rewrite speeds_snoc, sum_of_app, length_app.
  destruct (speeds_bound P v (m, x, s, d) HP') as [Hs Hc]. pose proof (counts_key v (m, x, s, d) p) as Hk.
  unfold counts in Hk. cbn in Hk. destruct ((r_v p =? v) && at_segment m x s d p).
  - rewrite decide_True by (by apply Hk). rewrite to_int_Ok by (unfold is_int; lia). run_step.
    rewrite to_int_Ok by (unfold is_int; lia). run_step. cbn. do 2 f_equal; lia.
  - rewrite decide_False by (by rewrite <- Hk). cbn. do 2 f_equal; lia.
Qed.

Lemma paper_Avgsv_entry P m x s d segMap v e : Forall proper P -> 100 * Z.of_nat (length P) < 2^31 ->
  segment_ok P (m, x, s, d) segMap -> (v, e) ∈ segMap -> paper_Avgsv P v m x s d = Ok (avg_of e).
Proof.
  intros HP Hlen [Hs He] Hin. unfold paper_Avgsv. rewrite paper_speeds_ok by done. run_step.
  apply (om_find_Some Z.ltb) in Hin; [|done]. rewrite He in Hin. unfold entry_of in Hin.
  destruct (speeds P v (m, x, s, d)) as [|z l] eqn:E; [done|]. injection Hin as <-. unfold avg_of. cbn [a_sum a_n].
  rewrite (proj2 (Z.eqb_neq _ _)) by (cbn; lia). done.
Qed.

(** both loops over the vehicles of a segment *)
Lemma avgs_loops P m x s d (segMap : list (Z * AvgSpd)) n f : 0 <= n -> n + Z.of_nat (length segMap) <= car_limit ->
  (forall v e, (v, e) ∈ segMap -> paper_Avgsv P v m x s d = Ok (avg_of e)) ->
  let res := fold_left (fun acc e => (f_add acc.1 (avg_of e.2), f_incr acc.2)) segMap (f, f_of_int n) in
  fold_left (fun acc v => '(n, sum) ← acc; n ← to_int (n + 1); a ← paper_Avgsv P v m x s d; Ok (n, f_add sum a))
    segMap.*1 (Ok (n, f)) = Ok (n + Z.of_nat (length segMap), res.1) /\ res.2 = f_of_int (n + Z.of_nat (length segMap)).
Proof.
  revert n f. induction segMap as [|[v e] segMap IH]; intros n f Hn Hlen Hv; cbn [length].
  { cbn. by rewrite Z.add_0_r. }
  cbn [length] in Hlen. cbn [fmap list_fmap fold_left fst snd]. run_step. unfold car_limit in *.
  rewrite to_int_Ok by (unfold is_int; lia). run_step. rewrite (Hv v e) by (by left). run_step.
  rewrite f_incr_of_int by (unfold car_limit; lia).
  replace (n + Z.of_nat (S (length segMap))) with (n + 1 + Z.of_nat (length segMap)) by lia.
  apply IH; [lia|lia|]. intros v' e' Hin. apply Hv. by right.
Qed.

Lemma segment_statistics P n st m x s d : lr_inv P n st -> 100 * Z.of_nat (length P) < 2^31 ->
  Z.of_nat (length (paper_cars P m x s d)) <= car_limit -> dropped (globalTimeMinute st) < m ->
  Cars m x s d st = Z.of_nat (length (paper_cars P m x s d)) /\ paper_Avgs P m x s d = Ok (Avgs m x s d st).
Proof.
  intros Hinv Hlen Hcars Hm. pose proof (li_speeds _ _ _ Hinv (m, x, s, d)) as Hk. pose proof (li_proper _ _ _ Hinv) as HP.
  unfold seg_minute in Hk. cbn [fst snd] in Hk. rewrite (proj2 (Z.ltb_lt _ _)) in Hk by done.
  unfold Cars, Avgs, paper_Avgs. destruct (spdOfSegments st !! (m, x, s, d)) as [sm|].
  - destruct Hk as [Hne Hok]. pose proof (segment_vehicles P m x s d sm Hok) as Hv. rewrite <- Hv, length_fmap in *.
    destruct (avgs_loops P m x s d sm 0 f_zero ltac:(lia) ltac:(lia)) as [Hloop Hcount].
    { intros v e Hin. by eapply paper_Avgsv_entry. }
    cbn [f_of_int] in *. change (f_of_int 0) with f_zero in *. rewrite Hloop. run_step.
    destruct (fold_left _ sm (f_zero, f_zero)) as [sum cnt]. cbn [fst snd] in *.
    unfold car_limit in *. split; [by rewrite s32_small by (unfold is_int; lia)|].
    rewrite (proj2 (Z.eqb_neq _ _)) by (destruct sm; [done|cbn; lia]). by rewrite Hcount.
  - pose proof (segment_vehicles P m x s d [] Hk) as Hv. rewrite <- Hv. done.
Qed.

(** a minute of which nothing is kept *)
Lemma dropped_statistics P n st m x s d : lr_inv P n st -> m <= dropped (globalTimeMinute st) ->
  Cars m x s d st = 0 /\ Avgs m x s d st = f_zero.
Proof.
  intros Hinv Hm. pose proof (li_speeds _ _ _ Hinv (m, x, s, d)) as Hk. unfold seg_minute in Hk. cbn [fst snd] in Hk.
  rewrite (proj2 (Z.ltb_ge _ _)) in Hk by done. unfold Cars, Avgs. by rewrite Hk.
Qed.

Lemma lav_loop_ext {E} (f g : Z -> result E) add zero m :
  (forall i, 1 <= i <= 5 -> 0 < m - i -> f (m - i) = g (m - i)) -> lav_loop f add zero m = lav_loop g add zero m.
Proof.
  intros Hfg. unfold lav_loop. assert (Forall (fun i => 1 <= i <= 5) [1; 2; 3; 4; 5]) as Hall by (repeat constructor; lia).
  generalize (@Ok (Z * E) (0, zero)) as acc. induction Hall as [|i l Hi _ IH]; intros acc; [done|]. cbn [fold_left].
  rewrite <- IH. f_equal. destruct acc as [[n a]|e]; [|done]. run_step.
  destruct (Z.gtb_spec (m - i) 0) as [Hpos|]; [|done]. by rewrite Hfg by lia.
Qed.

(** *** What is printed *)

(** the notification of a toll after the reports [P]: it is about the last of
    them, and from the seventh minute on its velocity is the paper's and its
    toll is computed from the paper's number of cars *)
Definition charged (P : list PosReport) (note : TollNote) : Prop :=
  exists P' p, P = P' ++ [p] /\ tn_v note = r_v p /\ tn_t note = r_t p /\ tn_emit note = r_t p /\
    0 <= tn_spd note < 40 /\ 0 < tn_toll note /\
    (7 <= M (r_t p) ->
       paper_Lav P (M (r_t p)) (r_x p) (r_s p) (r_d p) = Ok (tn_spd note) /\
       toll_of (tn_spd note) (-1) (Z.of_nat (length (paper_cars P (M (r_t p) - 1) (r_x p) (r_s p) (r_d p)))) = Ok (tn_toll note)).

Lemma toll_of_range lav acc cars : 0 <= cars <= car_limit ->
  exists toll, toll_of lav acc cars = Ok toll /\ (0 < toll -> lav < 40 /\ acc = -1).
Proof.
  intros Hc. unfold toll_of, car_limit in *.
  destruct (Z.ltb_spec lav 40); [|by exists 0]. destruct (Z.eqb_spec acc (-1)); [|by exists 0].
  destruct (_ >? _); [|by exists 0]. rewrite to_int_Ok by (unfold is_int; lia). run_step. by eexists.
Qed.

(** fewer reports, fewer cars *)
Lemma paper_cars_prefix P Q m x s d :
  Z.of_nat (length (paper_cars P m x s d)) <= Z.of_nat (length (paper_cars (P ++ Q) m x s d)).
Proof.
  destruct (paper_cars_sorted P m x s d) as [Hs Hin]. destruct (paper_cars_sorted (P ++ Q) m x s d) as [_ Hin'].
  apply inj_le, submseteq_length, NoDup_submseteq; [by apply strictly_sorted_NoDup|].
  intros v Hv%Hin. apply Hin'. rewrite filter_app, fmap_app. apply elem_of_app. by left.
Qed.

Lemma small_bound N : 0 <= N < 2^24 -> bound 24 128 N.
Proof. intros H. split; [|lia]. exists 0. split; [done|]. exists N. lia. Qed.

Lemma pow_bound k : 0 <= k <= 104 -> bound 24 128 (2 ^ k).
Proof.
  intros H. split; [|apply Z.pow_le_mono_r; lia].
  exists k. split; [lia|]. exists 1. split; [done|]. by rewrite Z.mul_1_l.
Qed.

Lemma f_to_int_between N x : between 0 N x -> N < 2^31 -> exists z, f_to_int x = Ok z /\ 0 <= z <= N.
Proof.
  intros Hx HN. destruct x as [z| | |[] m e]; try done; [exists 0; cbn in *; split; [done|lia]|].
  pose proof (between_at 0 N m e (Z.max 0 (- e)) ltac:(lia) ltac:(lia) Hx) as [_ Hup]. cbn [f_to_int cond_Zopp].
  destruct (Z.leb_spec 0 e).
  - rewrite Z.shiftl_mul_pow2 by done. replace (Z.max 0 (- e)) with 0 in Hup by lia. rewrite Z.add_0_r in Hup.
    pose proof (Z.pow_pos_nonneg 2 e). eexists. split; [apply to_int_Ok; unfold is_int|]; nia.
  - rewrite Z.shiftr_div_pow2 by lia. replace (Z.max 0 (- e)) with (- e) in Hup by lia. rewrite Z.add_opp_diag_r in Hup.
    pose proof (Z.pow_pos_nonneg 2 (- e) ltac:(lia) ltac:(lia)).
    assert (0 <= Z.pos m / 2 ^ (- e) <= N) as Hq.
    { split; [by apply Z.div_pos|]. apply Z.div_le_upper_bound; lia. }
    eexists. split; [apply to_int_Ok; unfold is_int|]; lia.
Qed.

(** the average of speeds up to 100 is at most 256 however it is rounded *)
Lemma avg_between e : 0 < a_n e < 2^31 -> 0 <= a_sum e <= 100 * a_n e -> between 0 256 (avg_of e).
Proof.
  intros Hn Hsum. pose proof (Z.log2_spec (a_n e) ltac:(lia)) as [Hlow Hup]. set (k := Z.log2 (a_n e)) in *.
  assert (0 <= k < 31) as Hk by (split; [apply Z.log2_nonneg|apply Z.log2_lt_pow2; lia]).
  rewrite Z.pow_succ_r in Hup by lia.
  apply (div_between 24 128 ltac:(done) ltac:(done) (256 * 2 ^ k) 256 (2 ^ k) (2 ^ (k + 1))).
  - by apply small_bound.
  - apply of_int_between; try done; try lia; [by apply small_bound|].
    change 256 with (2 ^ 8). rewrite <- Z.pow_add_r by lia. apply pow_bound. lia.
  - rewrite Z.pow_add_r by lia. apply of_int_between; try done; try lia; [apply pow_bound; lia|].
    rewrite <- Z.pow_add_r by lia. apply pow_bound. lia.
  - apply Z.pow_pos_nonneg; lia.
  - lia.
Qed.

Lemma entry_between P k segMap v e : Forall proper P -> 100 * Z.of_nat (length P) < 2^31 ->
  segment_ok P k segMap -> (v, e) ∈ segMap -> between 0 256 (avg_of e).
Proof.
  intros HP Hlen [Hs He] Hin. apply (om_find_Some Z.ltb) in Hin; [|done]. rewrite He in Hin. unfold entry_of in Hin.
  destruct (speeds_bound P v k HP) as [Hsum Hc].
  revert Hsum Hc Hin. destruct (speeds P v k) as [|z l]; [done|]. generalize (sum_of (z :: l)) as sum. cbn [length].
  intros sum Hsum Hc [= <-]. apply avg_between; cbn [a_sum a_n]; lia.
Qed.

Lemma sum_between (segMap : list (Z * AvgSpd)) n f : 0 <= n -> n + Z.of_nat (length segMap) <= car_limit ->
  (forall v e, (v, e) ∈ segMap -> between 0 256 (avg_of e)) -> between 0 (256 * n) f ->
  let res := fold_left (fun acc e => (f_add acc.1 (avg_of e.2), f_incr acc.2)) segMap (f, f_of_int n) in
  between 0 (256 * (n + Z.of_nat (length segMap))) res.1 /\ res.2 = f_of_int (n + Z.of_nat (length segMap)).
Proof.
  revert n f. induction segMap as [|[v e] segMap IH]; intros n f Hn Hlen Hv Hf; cbn [length].
  { cbn. by rewrite Z.add_0_r. }
  cbn [length] in Hlen. cbn [fold_left fst snd]. rewrite f_incr_of_int by lia. unfold car_limit in *.
  replace (n + Z.of_nat (S (length segMap))) with (n + 1 + Z.of_nat (length segMap)) by lia.
  apply IH; [lia|lia|intros v' e' Hin; apply (Hv v'); by right|].
  replace (256 * (n + 1)) with (256 * n + 256) by lia. apply (add_between 24 128 ltac:(done) ltac:(done) 0 (256 * n) 0 256); try done.
  - by apply small_bound.
  - apply small_bound. lia.
  - apply (Hv v). by left.
Qed.

Lemma lav_loop_between (avgs : Z -> spec_float) m : (forall m, between 0 256 (avgs m)) ->
  exists k sum, lav_loop (fun m => Ok (avgs m)) f_add f_zero m = Ok (k, sum) /\ 0 <= k <= 5 /\ between 0 (256 * k) sum.
Proof.
  intros Havgs. unfold lav_loop.
  match goal with |- context [fold_left ?f _ _] => set (step := f) end.
  enough (forall js sum k, 0 <= k <= 5 - Z.of_nat (length js) -> between 0 (256 * k) sum ->
    exists k' sum', fold_left step js (Ok (k, sum)) = Ok (k', sum') /\ 0 <= k' <= 5 /\ between 0 (256 * k') sum') as Hgen
    by (apply (Hgen [1; 2; 3; 4; 5] f_zero 0); [done|by cbn]).
  induction js as [|i js IH]; intros sum k Hk Hsum; [exists k, sum; cbn [fold_left length] in *; split_and!; try done; lia|].
  cbn [length] in Hk. cbn [fold_left]. unfold step at 2. run_step. destruct (m - i >? 0); [run_step|apply IH; [lia|done]].
  apply IH; [lia|]. replace (256 * (k + 1)) with (256 * k + 256) by lia.
  apply (add_between 24 128 ltac:(done) ltac:(done) 0 (256 * k) 0 256); try done; apply small_bound; lia.
Qed.

Section History.
(** the reports so far, and how many elements have been seen *)
Context (P : list PosReport) (n : Z) (st : lr) (Hinv : lr_inv P n st).
Context (Hlen : 100 * Z.of_nat (length P) < 2^31).
Context (Hcars : forall m x s d, Z.of_nat (length (paper_cars P m x s d)) <= car_limit).

Lemma Avgs_between m x s d : between 0 256 (Avgs m x s d st).
Proof.
  pose proof (li_speeds _ _ _ Hinv (m, x, s, d)) as Hk. unfold seg_minute in Hk. cbn [fst snd] in Hk. unfold Avgs.
  destruct (dropped (globalTimeMinute st) <? m); [|by rewrite Hk].
  destruct (spdOfSegments st !! (m, x, s, d)) as [sm|]; [|by cbn].
  destruct Hk as [Hne Hok]. specialize (Hcars m x s d).
  rewrite <- (segment_vehicles P m x s d sm Hok), length_fmap in Hcars.
  destruct (sum_between sm 0 f_zero ltac:(lia) ltac:(lia)) as [Hsum Hcount]; [|by cbn|].
  { intros v e. apply (entry_between P (m, x, s, d)); [apply Hinv|done|exact Hok]. }
  change (f_of_int 0) with f_zero in *. destruct (fold_left _ sm (f_zero, f_zero)) as [sum cnt]. cbn [fst snd] in *.
  subst cnt. rewrite Z.add_0_l in *. set (c := Z.of_nat (length sm)) in *. unfold car_limit in *.
  assert (0 < c) by (destruct sm; [done|cbn in c; lia]).
  apply (div_between 24 128 ltac:(done) ltac:(done) (256 * c) 256 c c); [by apply small_bound|done| |lia..].
  apply of_int_between; try done; try lia; apply small_bound; lia.
Qed.

(** the latest average velocity is always an [int], up to 256 *)
Lemma Lav_total m x s d : exists lav, Lav m x s d st = Ok lav /\ 0 <= lav <= 256.
Proof.
  destruct (lav_loop_between (fun m => Avgs m x s d st) m (fun m => Avgs_between m x s d)) as (k & sum & Hloop & Hk & Hsum).
  unfold Lav. rewrite Hloop. run_step. destruct (Z.eqb_spec k 0) as [|Hk0]; [by exists 0|].
  apply (f_to_int_between 256); [|done].
  apply (div_between 24 128 ltac:(done) ltac:(done) (256 * k) 256 k k); [by apply small_bound|done| |lia..].
  apply of_int_between; try done; try lia; apply small_bound; lia.
Qed.

Lemma kept_statistics m x s d : dropped (globalTimeMinute st) < m ->
  Cars m x s d st = Z.of_nat (length (paper_cars P m x s d)) /\ Ok (Avgs m x s d st) = paper_Avgs P m x s d.
Proof. intros Hm. by destruct (segment_statistics P n st m x s d Hinv Hlen (Hcars m x s d) Hm) as [-> ->]. Qed.

Lemma dropped_recent i : 7 <= globalTimeMinute st -> 1 <= i <= 5 -> dropped (globalTimeMinute st) < globalTimeMinute st - i.
Proof.
  intros Hg Hi. rewrite dropped_val, Z.max_r by lia.
  assert ((globalTimeMinute st - 6) / 60 < globalTimeMinute st - 6) by (apply Z.div_lt; lia). lia.
Qed.

Lemma current_Lav x s d : 7 <= globalTimeMinute st ->
  Lav (globalTimeMinute st) x s d st = paper_Lav P (globalTimeMinute st) x s d.
Proof.
  intros Hg. unfold Lav, paper_Lav.
  rewrite (lav_loop_ext (fun m => Ok (Avgs m x s d st)) (fun m => paper_Avgs P m x s d)); [done|].
  intros i Hi _. by apply kept_statistics, dropped_recent.
Qed.

Lemma Cars_range m x s d : 0 <= Cars m x s d st <= car_limit.
Proof.
  destruct (Z.lt_ge_cases (dropped (globalTimeMinute st)) m) as [Hm|Hm].
  - destruct (kept_statistics m x s d Hm) as [-> _]. split; [lia|apply Hcars].
  - by destruct (dropped_statistics P n st m x s d Hinv Hm) as [-> _].
Qed.
(** what is printed for the last report *)
Lemma lr_notes_charged p P' acc : P = P' ++ [p] -> globalTimeSeconds st = r_t p ->
  exists out, lr_notes p acc st = Ok out /\ forall note, PToll note ∈ out -> charged P note.
Proof.
  intros HP Hsec. destruct (li_clock _ _ _ Hinv) as (_ & Hmin & _). rewrite Hsec in Hmin. unfold lr_notes. rewrite <- Hmin.
  destruct (Lav_total (globalTimeMinute st) (r_x p) (r_s p) (r_d p)) as (lav & Hlav & Hr). rewrite Hlav. run_step.
  pose proof (Cars_range (globalTimeMinute st - 1) (r_x p) (r_s p) (r_d p)) as Hc. set (cars := Cars _ _ _ _ _) in *.
  destruct (toll_of_range lav acc cars Hc) as (toll & Htoll & Hpos). rewrite Htoll. run_step. eexists. split; [done|].
  intros note [Hin|Hin]%elem_of_app; [|by destruct (negb _); [apply list_elem_of_singleton in Hin|apply not_elem_of_nil in Hin]].
  destruct (Z.gtb_spec toll 0); [|by apply not_elem_of_nil in Hin]. apply list_elem_of_singleton in Hin as [= ->].
  destruct Hpos as [Hl ->]; [lia|]. exists P', p. cbn [tn_v tn_t tn_emit tn_spd tn_toll]. rewrite Hsec, <- Hmin. split_and!; try done; try lia.
  intros Hg. rewrite <- current_Lav by done. split; [done|].
  by destruct (kept_statistics (globalTimeMinute st - 1) (r_x p) (r_s p) (r_d p) (dropped_recent 1 Hg ltac:(lia))) as [<- _].
Qed.
End History.

Lemma lr_run_inv l P n st : lr_inv P n st -> in_order (globalTimeSeconds st) l ->
  100 * (n + Z.of_nat (length l)) + 100 < 2^31 ->
  (forall m x s d, Z.of_nat (length (paper_cars (P ++ arrived l) m x s d)) <= car_limit) ->
  exists out st', lr_run l st = Ok (out, st') /\ lr_inv (P ++ arrived l) (n + Z.of_nat (length l)) st' /\
    forall note, PToll note ∈ out -> exists A B, arrived l = A ++ B /\ charged (P ++ A) note.
Proof.
  revert P n st. induction l as [|[p o] l IH]; intros P n st Hinv Hord Hlen Hcars.
  { exists [], st. split; [done|]. cbn. rewrite app_nil_r, Z.add_0_r. split; [done|]. by intros note Hin%not_elem_of_nil. }
  cbn [length] in Hlen |- *. pose proof (li_len _ _ _ Hinv). destruct Hord as [Hp Hord]. cbn [lr_run fst snd]. unfold lr_element.
  replace (n + Z.of_nat (S (length l))) with (n + 1 + Z.of_nat (length l)) by lia. destruct o.
  - destruct Hord as [Hnow Hord]. destruct (lr_outdated_inv P n p st Hinv Hp Hnow ltac:(lia)) as (st1 & st2 & -> & Hup & Hinv2 & Hsec).
    run_step. unfold lr_where. rewrite Hup. run_step. rewrite <- Hsec in Hord.
    destruct (IH P (n + 1) st2 Hinv2 Hord ltac:(lia) Hcars) as (out & st' & -> & Hinv' & Hout). run_step. by exists out, st'.
  - destruct Hord as [Hnow Hord]. cbn [lr_notify]. run_step. unfold lr_where.
    destruct (lr_insert_inv P n p st Hinv Hp Hnow ltac:(lia)) as (a & c & st2 & -> & Hinv2 & Hsec). run_step.
    assert (arrived ((p, false) :: l) = p :: arrived l) as Harr by (unfold arrived; by rewrite filter_cons_True by done).
    rewrite Harr, cons_middle, (assoc_L (++)) in Hcars |- *. pose proof (li_len _ _ _ Hinv2).
    destruct (lr_notes_charged (P ++ [p]) (n + 1) st2 Hinv2 ltac:(lia)
      (fun m x s d => Z.le_trans _ _ _ (paper_cars_prefix (P ++ [p]) (arrived l) m x s d) (Hcars m x s d)) p P a eq_refl Hsec)
      as (new & Hnew & Hcharged).
    rewrite <- Hsec in Hord. destruct (IH (P ++ [p]) (n + 1) st2 Hinv2 Hord ltac:(lia) Hcars) as (out & st' & Hrun & Hinv' & Hout).
    exists ((if c then new else []) ++ out), st'. split.
    { destruct c; [rewrite Hnew|]; run_step; by rewrite Hrun. }
    split; [done|]. intros note [Hin|Hin]%elem_of_app.
    + exists [p], (arrived l). split; [done|]. destruct c; [by apply Hcharged|by apply not_elem_of_nil in Hin].
    + destruct (Hout note Hin) as (A & B & -> & HA). exists (p :: A), B. split; [done|]. by rewrite cons_middle, (assoc_L (++)).
Qed.


(** C38: the tolling query.  Let reports arrive in the order of their times,
    with outdated ones in between, each with an [int] time that is not
    negative, a speed from 0 to 100 and a segment from 0 to 99; let there be
    less than about 2^31/100 elements and at most 4096 cars in any segment and
    minute.  Then processing them, notifications included, never leaves the
    program's defined behaviour.  Afterwards the counts of cars and average
    speeds of every minute that has not been dropped are those the paper's
    functions compute from all reports that arrived; of a dropped minute nothing
    is left; and from the seventh minute on the current latest average velocity
    is the paper's.  A toll notification printed is for the report that had just
    arrived, with a velocity below 40 and a positive toll; from the seventh
    minute on the velocity is the paper's, the toll what the code's formula
    (an exclusive or, not a square) makes of the paper's number of cars. *)
Theorem statistics_are_the_papers (l : list (PosReport * bool)) (Hord : in_order 0 l)
  (Hlen : 100 * Z.of_nat (length l) + 100 < 2^31)
  (Hcars : forall m x s d, Z.of_nat (length (paper_cars (arrived l) m x s d)) <= car_limit) :
  exists out st, lr_run l lr_init = Ok (out, st) /\
    (forall m x s d, dropped (globalTimeMinute st) < m ->
       Cars m x s d st = Z.of_nat (length (paper_cars (arrived l) m x s d)) /\
       Ok (Avgs m x s d st) = paper_Avgs (arrived l) m x s d) /\
    (forall m x s d, m <= dropped (globalTimeMinute st) -> Cars m x s d st = 0 /\ Avgs m x s d st = f_zero) /\
    (forall x s d, 7 <= globalTimeMinute st ->
       Lav (globalTimeMinute st) x s d st = paper_Lav (arrived l) (globalTimeMinute st) x s d) /\
    (forall note, PToll note ∈ out -> exists A B, arrived l = A ++ B /\ charged A note).
Proof.
  destruct (lr_run_inv l [] 0 lr_init lr_init_inv Hord ltac:(lia) Hcars) as (out & st & Hrun & Hinv & Hout). cbn [app] in Hinv.
  exists out, st. split; [done|].
  assert (100 * Z.of_nat (length (arrived l)) < 2^31) as Hlen' by (pose proof (li_len _ _ _ Hinv); lia).
  split_and!; [|intros m x s d Hm; by eapply dropped_statistics| |exact Hout].
  - intros m x s d Hm. by eapply kept_statistics.
  - intros x s d Hg. by eapply current_Lav.
Qed.

Lemma lxor_two n : Z.lxor (2 * n) 2 = 2 * n + 2 \/ Z.lxor (2 * n) 2 = 2 * n - 2.
Proof.
  assert (forall k, Z.lxor (4 * k) 2 = 4 * k + 2) as H4.
  { intros k. symmetry. apply Z.add_nocarry_lxor. apply Z.bits_inj'. intros i Hi.
    rewrite Z.land_spec, Z.bits_0. change 2 with (2^1). rewrite Z.pow2_bits_eqb by lia.
    destruct (Z.eqb_spec 1 i) as [<-|]; [|by rewrite andb_false_r].
    replace (4 * k) with (k * 2^2) by lia. by rewrite Z.mul_pow2_bits_low. }
  destruct (Z.Even_or_Odd n) as [[k ->]|[k ->]].
  - left. replace (2 * (2 * k)) with (4 * k) by lia. apply H4.
  - right. replace (2 * (2 * k + 1)) with (4 * k + 2) by lia.
    rewrite <- H4 at 1. rewrite Z.lxor_assoc, Z.lxor_nilpotent, Z.lxor_0_r. lia.
Qed.

(** The toll is not the paper's square: whatever the number of cars, the
    formula in the code, an exclusive or with 2, gives another number, and for
    51 cars it gives no toll at all. *)
Lemma toll_is_not_squared lav cars (Hlav : lav < 40) (Hcars : 50 < cars < 2^30) :
  exists toll, toll_of lav (-1) cars = Ok toll /\ toll <> 2 * (cars - 50) * (cars - 50) /\ toll <= 2 * (cars - 50) + 2 /\
    (cars = 51 -> toll = 0).
Proof.
  unfold toll_of. rewrite (proj2 (Z.ltb_lt _ _) Hlav), Z.eqb_refl. rewrite Z.gtb_ltb, (proj2 (Z.ltb_lt _ _)) by lia.
  cbn [andb]. rewrite to_int_Ok by (unfold is_int; lia). run_step. eexists. split; [done|].
  set (n := cars - 50). assert (1 <= n) as Hn by lia.
  assert (Z.lxor (2 * n) 2 = 2 * n + 2 \/ Z.lxor (2 * n) 2 = 2 * n - 2) as Hx by apply lxor_two.
  assert (n = 1 \/ 2 * n <= n * n) as Hsq by (destruct (decide (n = 1)); [by left|right; nia]).
  split_and!; [|lia|intros ->; subst n; done].
  destruct Hsq as [Hone|Hsq]; [by rewrite Hone|]. assert (n <> 1) by (intros H1; rewrite H1 in Hsq; lia). nia.
Qed.

Lemma uniq_length l : (length (uniq l) <= length l)%nat.
Proof. induction l as [|a l IH]; [done|]. cbn [uniq length]. destruct l as [|b l]; [done|]. destruct (a =? b); cbn [length] in *; lia. Qed.

Lemma paper_cars_length P m x s d : (length (paper_cars P m x s d) <= length P)%nat.
Proof.
  unfold paper_cars. etrans; [apply uniq_length|]. rewrite merge_sort_Permutation, length_fmap. apply length_filter.
Qed.

(** ** Concrete runs *)

Module Highway.
(** vehicle [v] at time [t] with speed [spd] in segment [s], lane 1 *)
Definition at_ (t v spd s : Z) : PosReport := mkPosReport t v spd 0 1 0 s (5280 * s).

(** 53 slow vehicles in the sixth minute, and one that follows them into the
    segment in the seventh *)
Definition drive : list (PosReport * bool) :=
  [(at_ 0 1 60 3, false); (at_ 10 2 50 3, false); (at_ 65 1 50 4, false); (at_ 290 70 30 2, false)] ++
  ((fun v => (at_ 300 v 20 3, false)) <$> seqZ 1 53) ++
  [(at_ 0 1 60 3, true); (at_ 370 70 30 3, false)].

Lemma drive_in_order : in_order 0 drive.
Proof. vm_compute. repeat split; discriminate. Qed.

Lemma drive_cars m x s d : Z.of_nat (length (paper_cars (arrived drive) m x s d)) <= car_limit.
Proof. pose proof (paper_cars_length (arrived drive) m x s d) as H.
  assert (length (arrived drive) = 58%nat) by (vm_compute; done). unfold car_limit. lia. Qed.

Lemma statistics_are_the_papers_witness :
  exists st, lr_run drive lr_init = Ok ([PToll (mkNote 0 70 370 370 4 4)], st) /\ globalTimeMinute st = 7 /\
    Lav 7 0 3 0 st = paper_Lav (arrived drive) 7 0 3 0 /\ Lav 7 0 3 0 st = Ok 4 /\ Cars 6 0 3 0 st = 53 /\
    exists A, charged A (mkNote 0 70 370 370 4 4).
Proof.
  destruct (statistics_are_the_papers drive drive_in_order ltac:(vm_compute; done) drive_cars)
    as (out & st & Hrun & Hkept & _ & Hlav & Hout).
  assert (lr_run drive lr_init = Ok (out, st)) as Hst by exact Hrun. vm_compute in Hst. injection Hst as Hprinted Heq.
  assert (globalTimeMinute st = 7) as Hmin by (by rewrite <- Heq).
  exists st. split; [by rewrite Hprinted|]. split; [exact Hmin|]. pose proof (Hlav 0 3 0 ltac:(lia)) as Hl. rewrite Hmin in Hl.
  split; [exact Hl|]. split; [by rewrite <- Heq; vm_compute|].
  split; [rewrite (proj1 (Hkept 6 0 3 0 ltac:(rewrite Hmin; vm_compute; reflexivity))); by vm_compute|].
  destruct (Hout (mkNote 0 70 370 370 4 4) ltac:(rewrite <- Hprinted; by left)) as (A & B & _ & HA). by exists A.
Defined.

(** On entering the second minute the first one is dropped, although only
    entries older than five minutes should go: of its 52 vehicles nothing is
    left, and no toll is raised for them. *)
Lemma first_minute_forgotten :
  let jam := (fun v => (at_ 0 v 20 3, false)) <$> seqZ 1 52 in
  exists st, lr_states (jam ++ [(at_ 61 53 20 3, false)]) lr_init = Ok st /\
    Cars 1 0 3 0 st = 0 /\ length (paper_cars (arrived jam) 1 0 3 0) = 52%nat /\ Lav 2 0 3 0 st = Ok 0.
Proof. eexists. split; [vm_compute; reflexivity|]. split_and!; vm_compute; reflexivity. Qed.

(** Four reports from one place stop a vehicle in the paper's function; the
    query needs a fifth, because its windows leave out the report at [t]. *)
Lemma stop_needs_five_reports :
  let reports := (fun t => at_ t 1 0 3) <$> [0; 30; 60; 90] in
  let stay := (fun p => (p, false)) <$> reports in
  paper_Stop reports 1 90 0 1 (5280 * 3) 0 = true /\
  (exists st, lr_states stay lr_init = Ok st /\ Stop 1 90 0 1 (5280 * 3) 0 st = Ok false /\ accidents st = []) /\
  (exists st, lr_states (stay ++ [(at_ 120 1 0 3, false)]) lr_init = Ok st /\ Stop 1 120 0 1 (5280 * 3) 0 st = Ok true).
Proof.
  split; [vm_compute; reflexivity|]. split; eexists; (split; [vm_compute; reflexivity|]); split_and?; vm_compute; reflexivity.
Qed.

(** An outdated report takes the vehicle's current segment away, however many
    newer reports there are: its next change of segment goes unnoticed. *)
Lemma outdated_report_hides_change :
  let go := [(at_ 0 1 60 3, false); (at_ 590 1 60 4, false)] in
  exists st1 st2, lr_states go lr_init = Ok st1 /\ lr_states (go ++ [(at_ 0 1 60 3, true)]) lr_init = Ok st2 /\
    (changedSegment 1 5 st1).1 = true /\ (changedSegment 1 5 st2).1 = false.
Proof. do 2 eexists. split; [vm_compute; reflexivity|]. split; [vm_compute; reflexivity|]. split; vm_compute; reflexivity. Qed.
End Highway.
