(* ===== verification/Graphs.v ===== *)
(** * Graphs: the boost graph over a sparse matrix

    [usecases/MatrixProcessing/operations/Graph.hpp] and the edge iterators of
    [SparseMatrix.hpp].  A graph is a pointer to a matrix, so its operations are
    on the matrix itself; vertices are indices, edges are pairs of them.  A
    write that inserts an entry moves the storage: the iterators over the matrix
    dangle after it. *)

From S2P Require Import Prelude Stream SparseMatrices.

(** [nonZeros] counts the entries, a row occurs once in a column *)
Class SparseCounts (M : Type) {ops : SparseOps M} := {
  sp_column_rows : forall m j, NoDup (sp_column m j).*1;
  sp_nonZeros_count : forall m, sp_nonZeros m = length (seqZ 0 (sp_cols m) ≫= sp_column m);
}.

Section graph.
Context {M : Type} `{SL : SparseLaws M} {K : Type}.
Implicit Types g : Matrix (M := M) (K := K).

Abbreviation vertex_descriptor := Z (only parsing).
Abbreviation edge_descriptor := (Z * Z)%type (only parsing).

(** ** Cells *)

Definition is_stored g (x y : Z) : bool := existsb (fun e => e.1 =? x) (sp_column (matrix g) y).

(** [Graph::get], the reference of [coeffRef]: a missing entry is inserted *)
Definition get (x y : Z) g : result (Matrix (M := M) (K := K) * Z) :=
  _ ← guard_else (in_range (matrix g) x y) OutOfBounds;
  if is_stored g x y then Ok (g, sp_coeff (matrix g) x y) else (g ← put x y 0 g; Ok (g, 0)).

(** [property_edge_map::operator[]] *)
Definition edge_weight (e : edge_descriptor) g : result (Matrix (M := M) (K := K) * Z) := get e.1 e.2 g.

(** [property_data_map_index::operator[]], [vertex(v, g)], [null_vertex] *)
Definition vertex_index (x : vertex_descriptor) : vertex_descriptor := x.
Definition vertex (v : vertex_descriptor) g : vertex_descriptor := v.
Definition null_vertex : vertex_descriptor := -1.

(** ** Vertices *)

Definition num_vertices g : Z := u32 (Z.min (getRows g) (getCols g)).
Definition num_edges g : Z := u32 (Z.of_nat (getNumElements g)).

(** [VertexIterator] is the vertex; [vi_post] is [operator++(int)]: the iterator
    afterwards and the one that is returned *)
Definition vi_next (id : Z) : Z := id + 1.
Definition vi_prev (id : Z) : Z := id - 1.
Definition vi_post (id : Z) : Z * Z := let id := vi_next id in (id, id).
Definition vi_not_equal (id id' : Z) : bool := negb (id =? id').

Definition beginVertex g : Z := 0.
Definition endVertex g : Z := getRows g.
Definition vertices g : Z * Z := (beginVertex g, endVertex g).

(** the vertices a loop over such a pair visits *)
Fixpoint vertex_loop (fuel : nat) (beg stop : Z) : result (list vertex_descriptor) :=
  if vi_not_equal beg stop then
    match fuel with
    | O => Err Waits
    | S fuel => l ← vertex_loop fuel (vi_next beg) stop; Ok (beg :: l)
    end
  else Ok [].

(** resizes to the size it has *)
Definition add_vertex g : Matrix (M := M) (K := K) * vertex_descriptor := let g := resize (getRows g) (getCols g) g in (g, getCols g).
Definition remove_vertex (u : vertex_descriptor) g : result (Matrix (M := M) (K := K)) := Err AssertFailed.

(** [getCountNonZerosByVer] *)
Definition getCountNonZerosByVer (u : vertex_descriptor) g : result Z :=
  l ← inner_at g u; Ok (u32 (Z.of_nat (length l))).
Definition in_degree := getCountNonZerosByVer.
Definition out_degree := getCountNonZerosByVer.
Definition degree := in_degree.

(** ** SparseEdgeIterator *)

(** [None]: the default constructor, whose Eigen iterator is at its end *)
Definition EdgeIterator : Type := option SparseIterator.

Definition new_EdgeIterator (id : vertex_descriptor) g : result EdgeIterator := inner ← inner_at g id; Ok (Some (mkIt id inner)).

Definition it_index (it : EdgeIterator) : Z := from_option index 0 it.
Definition it_inner (it : EdgeIterator) : list (Z * Z) := from_option inner [] it.

(** the loop of [operator==]; fuel: the number of columns *)
Fixpoint it_advance (fuel : nat) g (it : EdgeIterator) (stop : Z) : result EdgeIterator :=
  match it_inner it with
  | [] =>
      if it_index it =? stop then Ok it
      else match fuel, it with
           | O, _ => Err Waits
           | S _, None => Err Dangling
           | S fuel, Some _ => it ← new_EdgeIterator (it_index it + 1) g; it_advance fuel g it stop
           end
  | _ => Ok it
  end.

Definition it_equal g (it rhs : EdgeIterator) : result (EdgeIterator * bool) :=
  it ← it_advance (Z.to_nat (getCols g)) g it (it_index rhs);
  Ok (it, match it_inner it with [] => true | _ => false end).

(** [operator*] and [getIndex] where there is an entry, [operator++] *)
Definition it_edge (it : EdgeIterator) : option edge_descriptor := e ← head (it_inner it); Some (it_index it, e.1).
Definition it_row (it : EdgeIterator) : option Z := e ← head (it_inner it); Some e.1.
Definition it_next (it : EdgeIterator) : EdgeIterator := it ← it; Some (mkIt (index it) (tail (inner it))).

(** a loop from one iterator to another: the body returns from the function,
    [inl], or goes on; fuel: one more than the number of entries *)
Fixpoint edge_loop {R S : Type} (body : EdgeIterator -> S -> R + S) (fuel : nat) g (it stop : EdgeIterator) (s : S) : result (R + S) :=
  r ← it_equal g it stop;
  let '(it, equal) := (r : EdgeIterator * bool) in
  if equal then Ok (inr s)
  else match fuel with
       | O => Err Waits
       | Datatypes.S fuel =>
           match body it s with
           | inl r => Ok (inl r)
           | inr s => edge_loop body fuel g (it_next it) stop s
           end
       end.

Definition loop_fuel g : nat := S (length (entries g)).

(** ** Edges *)

Definition beginEdgeIterator (u : vertex_descriptor) g : result EdgeIterator := new_EdgeIterator u g.
Definition endEdgeIterator (u : vertex_descriptor) g : result EdgeIterator := new_EdgeIterator u g.

Definition out_edges (u : vertex_descriptor) g : result (EdgeIterator * EdgeIterator) :=
  b ← beginEdgeIterator u g; e ← endEdgeIterator u g; Ok (b, e).

Definition edges g : result (EdgeIterator * EdgeIterator) :=
  b ← beginEdgeIterator 0 g; e ← endEdgeIterator (getCols g - 1) g; Ok (b, e).

(** [SparseInEdgeIterator(m, id)] and [SparseAdjVerticesIterator(m, id)]: the
    base is a temporary, the iterator itself is the default one *)
Definition new_InEdgeIterator (id : vertex_descriptor) g : result EdgeIterator := _ ← new_EdgeIterator id g; Ok None.
Definition new_AdjVerticesIterator (id : vertex_descriptor) g : result EdgeIterator := _ ← new_EdgeIterator id g; Ok None.

Definition in_edges (u : vertex_descriptor) g : result (EdgeIterator * EdgeIterator) :=
  b ← new_InEdgeIterator u g; e ← new_InEdgeIterator u g; Ok (b, e).
Definition adjacent_vertices (u : vertex_descriptor) g : result (EdgeIterator * EdgeIterator) :=
  b ← new_AdjVerticesIterator u g; e ← new_AdjVerticesIterator u g; Ok (b, e).

(** [operator*] of the two *)
Definition in_edge (it : EdgeIterator) : option edge_descriptor := e ← head (it_inner it); Some (e.1, it_index it).
Definition adj_vertex (it : EdgeIterator) : option vertex_descriptor := it_row it.

(** what a loop over a pair of iterators reads *)
Definition visit {A : Type} (read : EdgeIterator -> option A) (range : result (EdgeIterator * EdgeIterator)) g : result (list A) :=
  r ← range;
  let '(b, e) := (r : EdgeIterator * EdgeIterator) in
  s ← edge_loop (R := False) (fun it l => inr (l ++ option_list (read it))) (loop_fuel g) g b e [];
  Ok (match s with inl f => False_rect _ f | inr l => l end).

(** [edge(u, v, g)] *)
Definition edge (u v : vertex_descriptor) g : result (edge_descriptor * bool) :=
  r ← out_edges u g;
  let '(b, e) := (r : EdgeIterator * EdgeIterator) in
  s ← edge_loop (fun it (_ : unit) => if decide (it_row it = Some v) then inl (u, v, true) else inr tt) (loop_fuel g) g b e tt;
  Ok (match s with inl r => r | inr _ => (u, v, false) end).

Definition add_edge (u v : vertex_descriptor) g : result (Matrix (M := M) (K := K) * (edge_descriptor * bool)) :=
  g ← set u v 0 g; Ok (g, ((u, v), true)).

Definition remove_edge (u v : vertex_descriptor) g : result (Matrix (M := M) (K := K)) :=
  g ← set u v 0 g; g ← set v u 0 g; Ok (preemt 0 g).

(** [remove_edge(e, g)], [remove_edge(iter, g)] *)
Definition remove_edge_descriptor (e : edge_descriptor) g : result (Matrix (M := M) (K := K)) := remove_edge e.1 e.2 g.
Definition remove_edge_iterator (it : EdgeIterator) g : result (Matrix (M := M) (K := K)) :=
  match it_edge it with None => Err OutOfBounds | Some e => remove_edge_descriptor e g end.

(** a write in a loop over the matrix *)
Definition set_stored (x y v : Z) g : result (Matrix (M := M) (K := K)) :=
  _ ← guard_else (is_stored g x y) Dangling; set x y v g.

(** the loop of [remove_edge(beg, end)] *)
Fixpoint remove_loop (fuel : nat) g (it stop : EdgeIterator) : result (Matrix (M := M) (K := K)) :=
  r ← it_equal g it stop;
  let '(it, equal) := (r : EdgeIterator * bool) in
  if equal then Ok g
  else match fuel, it_edge it with
       | S fuel, Some e =>
           g ← set_stored e.1 e.2 0 g;
           g ← set_stored e.2 e.1 0 g;
           remove_loop fuel g (it_next it) stop
       | _, _ => Err Waits
       end.

Definition remove_edge_range (beg stop : EdgeIterator) g : result (Matrix (M := M) (K := K)) :=
  g ← remove_loop (loop_fuel g) g beg stop; Ok (preemt 0 g).

Definition clear_vertex (u : vertex_descriptor) g : result (Matrix (M := M) (K := K)) :=
  r ← out_edges u g; remove_edge_range r.1 r.2 g.

(** ** Lemmas: the loops *)

Lemma new_EdgeIterator_ok g u : 0 <= u < getCols g -> new_EdgeIterator u g = Ok (Some (mkIt u (sp_column (matrix g) u))).
Proof. intros Hu. unfold new_EdgeIterator, inner_at. by rewrite (proj2 (Z.leb_le 0 _)), (proj2 (Z.ltb_lt _ _)) by lia. Qed.

(** with the index of the end, the iterator stays in its column *)
Lemma it_equal_here g u l l' :
  it_equal g (Some (mkIt u l)) (Some (mkIt u l')) = Ok (Some (mkIt u l), match l with [] => true | _ => false end).
Proof.
  unfold it_equal. cbn [it_index from_option index]. destruct l; [|by destruct (Z.to_nat _)].
  destruct (Z.to_nat _); cbn [it_advance it_inner it_index from_option inner index]; by rewrite Z.eqb_refl.
Qed.

(** otherwise it is the iterator of the matrix *)
Lemma it_advance_settle g fuel it : it_advance fuel g (Some it) (getCols g - 1) = Some <$> it_settle fuel g it.
Proof.
  revert it. induction fuel as [|fuel IH]; intros [u [|e l]]; cbn [it_advance it_settle it_inner it_index from_option inner index]; try done.
  all: destruct (u =? getCols g - 1); [done|]; try done.
  unfold new_EdgeIterator. destruct (inner_at g (u + 1)) as [l|]; [|done]. run_step. apply IH.
Qed.

Section loops.
Context {R S : Type} (body : EdgeIterator -> S -> R + S).

(** the loop over the rest of a column *)
Fixpoint column_loop (u : Z) (l : list (Z * Z)) (s : S) : R + S :=
  match l with
  | [] => inr s
  | _ :: l' => match body (Some (mkIt u l)) s with inl r => inl r | inr s => column_loop u l' s end
  end.

Lemma edge_loop_column fuel g u l l' s : (length l <= fuel)%nat ->
  edge_loop body fuel g (Some (mkIt u l)) (Some (mkIt u l')) s = Ok (column_loop u l s).
Proof.
  revert l s. induction fuel as [|fuel IH]; intros [|e l] s Hl; cbn [edge_loop]; rewrite it_equal_here; run_step; [done|cbn in Hl; lia|done|].
  cbn [column_loop]. destruct (body _ s); [done|]. apply IH. cbn in Hl. lia.
Qed.
End loops.

Lemma column_loop_visit {A} (read : EdgeIterator -> option A) (f : Z * Z -> A) u l acc :
  (forall e l, read (Some (mkIt u (e :: l))) = Some (f e)) ->
  column_loop (R := False) (fun it l => inr (l ++ option_list (read it))) u l acc = inr (acc ++ (f <$> l)).
Proof.
  intros Hf. revert acc. induction l as [|e l IH]; intros acc; cbn [column_loop]; [by rewrite app_nil_r|].
  rewrite Hf, IH. cbn [option_list fmap list_fmap]. by rewrite <- app_assoc.
Qed.

Lemma column_length g u : 0 <= u < getCols g -> (length (sp_column (matrix g) u) <= length (entries g))%nat.
Proof.
  intros Hu. unfold entries. replace (seqZ 0 (getCols g)) with (seqZ 0 u ++ seqZ u (getCols g - u)).
  2: { rewrite <- (Z.add_0_l u) at 2. rewrite <- seqZ_app by lia. f_equal. lia. }
  rewrite (seqZ_cons u), bind_app, length_app by lia. cbn [mbind list_bind]. rewrite length_app, length_fmap. lia.
Qed.

Lemma column_fuel g u : 0 <= u < getCols g -> (length (sp_column (matrix g) u) <= loop_fuel g)%nat.
Proof. intros Hu. by apply le_S, column_length. Qed.

Lemma out_edges_ok g u : 0 <= u < getCols g ->
  let it := Some (mkIt u (sp_column (matrix g) u)) in out_edges u g = Ok (it, it).
Proof. intros Hu. unfold out_edges, beginEdgeIterator, endEdgeIterator. by rewrite new_EdgeIterator_ok by done. Qed.

(** the out-edges of [u] are the rows of column [u] *)
Lemma out_edges_visit g u : 0 <= u < getCols g ->
  visit it_edge (out_edges u g) g = Ok ((fun e => (u, e.1)) <$> sp_column (matrix g) u).
Proof.
  intros Hu. unfold visit. rewrite out_edges_ok by done. run_step.
  rewrite edge_loop_column by (by apply column_fuel). run_step. by rewrite (column_loop_visit _ (fun e => (u, e.1))) by done.
Qed.

Lemma edge_found u v l :
  column_loop (fun it (_ : unit) => if decide (it_row it = Some v) then inl (u, v, true) else inr tt) u l tt =
  if decide (v ∈ l.*1) then inl (u, v, true) else inr tt.
Proof.
  induction l as [|[x w] l IH]; cbn [column_loop fmap list_fmap fst].
  - by rewrite decide_False by (by apply not_elem_of_nil).
  - change (it_row (Some (mkIt u ((x, w) :: l)))) with (Some x). destruct (decide (Some x = Some v)) as [[= ->]|Hx].
    + rewrite decide_True; [done|by left].
    + rewrite IH. cbn [fst]. assert (v ∈ x :: l.*1 <-> v ∈ l.*1) as Hc by (rewrite elem_of_cons; split; [intros [->|?]; done|tauto]).
      destruct (decide (v ∈ l.*1)) as [Hv|Hv]; rewrite <- Hc in Hv; [by rewrite decide_True|by rewrite decide_False].
Qed.

Lemma stored_row g u v : v ∈ (sp_column (matrix g) u).*1 <-> exists w, entry g v u w.
Proof.
  unfold entry, stored. rewrite list_elem_of_fmap. split; [intros ([x w] & -> & ?); by exists w|intros [w ?]; by exists (v, w)].
Qed.

(** [edge(u, v, g)] asks for the entry in row [v] of column [u] *)
Lemma edge_spec g u v : 0 <= u < getCols g ->
  exists b, edge u v g = Ok (u, v, b) /\ (b = true <-> exists w, entry g v u w).
Proof.
  intros Hu. unfold edge. rewrite out_edges_ok by done. run_step.
  rewrite edge_loop_column by (by apply column_fuel). run_step. rewrite edge_found.
  case_decide as Hv; rewrite stored_row in Hv; eexists; (split; [done|]); by split.
Qed.

Lemma is_stored_spec g x y : is_stored g x y = true <-> exists w, entry g x y w.
Proof.
  rewrite <- stored_row. unfold is_stored. rewrite existsb_exists, list_elem_of_fmap. setoid_rewrite <- list_elem_of_In. setoid_rewrite Z.eqb_eq.
  split; [intros (e & ? & <-); by exists e|intros (e & -> & ?); by exists e].
Qed.

(** [edges] is the entries of the matrix, each as its column and row *)
Definition entry_edge (e : StreamElement) : edge_descriptor := (e.1.2, e.1.1).

Lemma edges_loop fuel g u l l' acc : 0 <= u < getCols g -> (length (column_entries u l ++ entries_from g (u + 1)) <= fuel)%nat ->
  edge_loop (R := False) (fun it l => inr (l ++ option_list (it_edge it))) fuel g (Some (mkIt u l)) (Some (mkIt (getCols g - 1) l')) acc =
  Ok (inr (acc ++ (entry_edge <$> column_entries u l ++ entries_from g (u + 1)))).
Proof.
  revert u l acc. induction fuel as [|fuel IH]; intros u l acc Hu Hf.
  all: destruct (it_settle_ok g (Z.to_nat (getCols g)) u l Hu ltac:(lia)) as (u' & k & Hs & Hu' & Hl & He); rewrite He in *.
  all: cbn [edge_loop]; unfold it_equal; cbn [it_index from_option index]; rewrite it_advance_settle, Hs; cbn [fmap result_fmap]; run_step.
  all: cbn [it_inner from_option inner]; destruct k as [|[x v] k].
  1, 3: rewrite (Hl eq_refl); unfold entries_from; by rewrite Z.sub_add, Z.sub_diag, app_nil_r.
  - cbn in Hf. lia.
  - cbn [it_next mbind option_bind index inner tail]. rewrite IH; [|done|cbn in Hf; unfold column_entries; lia].
    cbn [it_edge it_inner it_index from_option inner index head mbind option_bind option_list fst]. by rewrite <- app_assoc.
Qed.

Lemma edges_visit g : 0 < getCols g -> visit it_edge (edges g) g = Ok (entry_edge <$> entries g).
Proof.
  intros Hc. unfold visit, edges, beginEdgeIterator, endEdgeIterator. rewrite !new_EdgeIterator_ok by lia. run_step.
  assert (entries g = column_entries 0 (sp_column (matrix g) 0) ++ entries_from g (0 + 1)) as He.
  { rewrite <- (entries_from_next g 0) by lia. unfold entries_from. by rewrite Z.sub_0_r. }
  rewrite edges_loop; [by rewrite <- He|lia|rewrite <- He; unfold loop_fuel; lia].
Qed.

(** of a graph without columns the end is before the matrix *)
Lemma edges_of_empty g : getCols g = 0 -> edges g = Err OutOfBounds.
Proof. intros Hc. unfold edges, beginEdgeIterator, new_EdgeIterator, inner_at. by rewrite Hc. Qed.

(** the iterators of in-edges and of neighbours are at their end from the start *)
Lemma in_edges_visit {A} (read : EdgeIterator -> option A) g u : 0 <= u < getCols g ->
  visit read (in_edges u g) g = Ok [] /\ visit read (adjacent_vertices u g) g = Ok [].
Proof.
  intros Hu. unfold visit, in_edges, adjacent_vertices, new_InEdgeIterator, new_AdjVerticesIterator. rewrite !new_EdgeIterator_ok by done.
  run_step. cbn [edge_loop loop_fuel]. unfold it_equal. cbn [it_index from_option]. by destruct (Z.to_nat _).
Qed.

Lemma vertex_loop_ok n beg : vertex_loop n beg (beg + Z.of_nat n) = Ok (seqZ beg (Z.of_nat n)).
Proof.
  revert beg. induction n as [|n IH]; intros beg; cbn [vertex_loop]; unfold vi_not_equal.
  - by rewrite Z.add_0_r, Z.eqb_refl.
  - rewrite (proj2 (Z.eqb_neq _ _)) by lia. cbn [negb]. unfold vi_next. replace (beg + Z.of_nat (S n)) with (beg + 1 + Z.of_nat n) by lia.
    rewrite IH. run_step. rewrite (seqZ_cons beg) by lia. do 3 f_equal; lia.
Qed.

(** ** Lemmas: writes *)

(** a write to an entry of a square matrix *)
Lemma set_stored_ok g x y v : is_stored g x y = true ->
  exists g', set_stored x y v g = Ok g' /\ dims g' (getRows g) (getCols g) /\
    (forall x' y' v', entry g' x' y' v' <-> if decide ((x', y') = (x, y)) then v' = v else entry g x' y' v').
Proof.
  intros Hs. unfold set_stored. rewrite Hs. run_step. apply is_stored_spec in Hs as [w Hw].
  destruct (entry_range _ _ _ _ Hw) as [Hx Hy]. destruct (sparse_set_ok x y v g ltac:(lia) ltac:(lia)) as (g' & -> & [Hr Hc] & _ & He).
  exists g'. split_and!; [done|split; lia|done].
Qed.

Lemma preemt_entry g x y v : entry (preemt 0 g) x y v <-> entry g x y v /\ v <> 0.
Proof. apply sp_pruned_stored. Qed.

Lemma preemt_dims g : dims (preemt 0 g) (getRows g) (getCols g).
Proof. exact (sp_pruned_dims (matrix g) 0). Qed.

(** an undirected graph: both directions of an edge with the same weight *)
Record undirected g : Prop := {
  square : getRows g = getCols g;
  both_ways : forall x y v, entry g x y v -> entry g y x v
}.

Lemma undirected_stored g x y : undirected g -> (exists w, entry g x y w) -> exists w, entry g y x w.
Proof. intros Hg [w Hw]. exists w. by apply both_ways. Qed.

(** the weight of the edges between [u] and [rows] is 0 *)
Definition at_edge (u : Z) (rows : list Z) (x y : Z) : Prop := (x = u /\ y ∈ rows) \/ (y = u /\ x ∈ rows).

Record blanked g (u : Z) (rows : list Z) (h : Matrix (M := M) (K := K)) : Prop := {
  blanked_dims : dims h (getRows g) (getCols g);
  blanked_in : forall x y v, at_edge u rows x y -> entry h x y v <-> v = 0 /\ exists w, entry g x y w;
  blanked_out : forall x y v, ~ at_edge u rows x y -> entry h x y v <-> entry g x y v
}.

Lemma at_edge_dec u rows x y : at_edge u rows x y \/ ~ at_edge u rows x y.
Proof. unfold at_edge. destruct (decide (x = u /\ y ∈ rows)), (decide (y = u /\ x ∈ rows)); tauto. Qed.

Lemma at_edge_snoc u rows z x y : at_edge u (rows ++ [z]) x y <-> at_edge u rows x y \/ (x, y) = (u, z) \/ (x, y) = (z, u).
Proof. unfold at_edge. rewrite !elem_of_app, !list_elem_of_singleton, !pair_equal_spec. tauto. Qed.

Lemma blanked_nil g u : blanked g u [] g.
Proof. split; [done| |done]. intros x y v [[_ Hn]|[_ Hn]]; by apply elem_of_nil in Hn. Qed.

Lemma blanked_stored g u rows h x y : blanked g u rows h -> (exists w, entry g x y w) -> exists w, entry h x y w.
Proof.
  intros Hb [w Hw]. destruct (at_edge_dec u rows x y) as [Ha|Ha]; [exists 0; apply (blanked_in _ _ _ _ Hb); eauto|exists w; by apply (blanked_out _ _ _ _ Hb)].
Qed.

(** one turn of the loop *)
Lemma blanked_snoc g u rows h z : undirected g -> blanked g u rows h -> (exists w, entry g z u w) ->
  exists h1 h2, set_stored u z 0 h = Ok h1 /\ set_stored z u 0 h1 = Ok h2 /\ blanked g u (rows ++ [z]) h2.
Proof.
  intros Hg Hb Hz. pose proof (undirected_stored _ _ _ Hg Hz) as Hz'.
  destruct (set_stored_ok h u z 0) as (h1 & Hs1 & [Hr1 Hc1] & He1); [by apply is_stored_spec, (blanked_stored _ _ _ _ _ _ Hb)|].
  destruct (set_stored_ok h1 z u 0) as (h2 & Hs2 & [Hr2 Hc2] & He2).
  { apply is_stored_spec. destruct (blanked_stored _ _ _ _ _ _ Hb Hz) as [w Hw]. destruct (decide ((z, u) = (u, z))) as [He|Hne].
    - exists 0. apply He1. by rewrite decide_True.
    - exists w. apply He1. by rewrite decide_False. }
  exists h1, h2. split_and!; [done|done|]. destruct (blanked_dims _ _ _ _ Hb) as [Hr Hc].
  assert (forall x y v, entry h2 x y v <-> if decide ((x, y) = (u, z) \/ (x, y) = (z, u)) then v = 0 else entry h x y v) as He.
  { intros x y v. rewrite He2. destruct (decide (_ \/ _)) as [Hd|Hn].
    - destruct (decide ((x, y) = (z, u))) as [|Hne]; [done|]. rewrite He1. rewrite decide_True; [done|tauto].
    - rewrite decide_False by tauto. rewrite He1. by rewrite decide_False by tauto. }
  split; [split; congruence| |]; intros x y v; rewrite at_edge_snoc, He; intros Ha.
  - destruct (decide (_ \/ _)) as [Hxy|Hxy].
    + assert (exists w, entry g x y w) by (by destruct Hxy as [[= -> ->]|[= -> ->]]). tauto.
    + apply (blanked_in _ _ _ _ Hb). tauto.
  - rewrite decide_False by tauto. apply (blanked_out _ _ _ _ Hb). tauto.
Qed.

Lemma remove_loop_ok g u l l' fuel rows h : undirected g -> blanked g u rows h -> (forall z, z ∈ l.*1 -> exists w, entry g z u w) ->
  (length l <= fuel)%nat ->
  exists h', remove_loop fuel h (Some (mkIt u l)) (Some (mkIt u l')) = Ok h' /\ blanked g u (rows ++ l.*1) h'.
Proof.
  intros Hg. revert l rows h. induction fuel as [|fuel IH]; intros [|[z w] l] rows h Hb Hl Hf; cbn [remove_loop]; rewrite it_equal_here; run_step.
  1, 3: exists h; split; [done|]; by rewrite app_nil_r.
  - cbn in Hf. lia.
  - change (it_edge (Some (mkIt u ((z, w) :: l)))) with (Some (u, z)). cbn [fst snd].
    destruct (blanked_snoc g u rows h z Hg Hb) as (h1 & h2 & -> & Hs2 & Hb2); [apply Hl; by left|]. run_step. rewrite Hs2. run_step.
    destruct (IH l _ _ Hb2) as (h' & Hr & Hb'); [intros z' ?; apply Hl; by right|cbn in Hf; lia|].
    exists h'. split; [done|]. cbn [fmap list_fmap fst]. by rewrite cons_middle, app_assoc.
Qed.

Lemma clear_vertex_ok g u : undirected g -> 0 <= u < getCols g ->
  exists g', clear_vertex u g = Ok g' /\ dims g' (getRows g) (getCols g) /\
    forall x y v, entry g' x y v <-> entry g x y v /\ v <> 0 /\ x <> u /\ y <> u.
Proof.
  intros Hg Hu. unfold clear_vertex, remove_edge_range. rewrite out_edges_ok by done. run_step. cbn [fst snd].
  destruct (remove_loop_ok g u (sp_column (matrix g) u) (sp_column (matrix g) u) (loop_fuel g) [] g Hg (blanked_nil g u)) as (h & -> & Hb).
  { intros z. by rewrite stored_row. }
  { by apply column_fuel. }
  run_step. eexists. split; [done|]. destruct (blanked_dims _ _ _ _ Hb) as [Hr Hc]. destruct (preemt_dims h) as [Hr' Hc'].
  split; [split; congruence|]. intros x y v. rewrite preemt_entry. cbn [app] in Hb.
  set (rows := (sp_column (matrix g) u).*1) in Hb. destruct (at_edge_dec u rows x y) as [Ha|Ha].
  - rewrite (blanked_in _ _ _ _ Hb) by done. destruct Ha as [[-> _]|[-> _]]; tauto.
  - rewrite (blanked_out _ _ _ _ Hb) by done. split; [|tauto]. intros [He Hv]. split_and!; [done|done| |]; intros ->; apply Ha; [left|right]; (split; [done|]); apply stored_row; [|by exists v].
    exists v. by apply both_ways.
Qed.

(** [remove_edge] takes both directions, and the edges of weight 0 *)
Lemma remove_edge_ok g u v : undirected g -> 0 <= u < getCols g -> 0 <= v < getCols g ->
  exists g', remove_edge u v g = Ok g' /\ dims g' (getRows g) (getCols g) /\
    forall x y w, entry g' x y w <-> entry g x y w /\ w <> 0 /\ (x, y) <> (u, v) /\ (x, y) <> (v, u).
Proof.
  intros [Hsq _] Hu Hv. unfold remove_edge.
  destruct (sparse_set_ok u v 0 g ltac:(lia) ltac:(lia)) as (g1 & -> & [Hr1 Hc1] & _ & He1). run_step.
  destruct (sparse_set_ok v u 0 g1 ltac:(lia) ltac:(lia)) as (g2 & -> & [Hr2 Hc2] & _ & He2). run_step.
  eexists. split; [done|]. destruct (preemt_dims g2) as [Hr3 Hc3]. split; [split; lia|].
  intros x y w. rewrite preemt_entry, He2. destruct (decide ((x, y) = (v, u))) as [|H1]; [tauto|].
  rewrite He1. destruct (decide ((x, y) = (u, v))) as [|H2]; tauto.
Qed.

Lemma undirected_restrict g g' (P : Z -> Z -> Prop) : undirected g -> dims g' (getRows g) (getCols g) ->
  (forall x y, P x y -> P y x) -> (forall x y w, entry g' x y w <-> entry g x y w /\ w <> 0 /\ P x y) -> undirected g'.
Proof.
  intros Hg [Hr Hc] HP He. split; [by rewrite Hr, Hc, (square _ Hg)|].
  intros x y w. rewrite !He. intros (? & ? & ?). split_and!; [by apply both_ways|done|by apply HP].
Qed.

Lemma remove_edge_undirected g u v g' : undirected g -> 0 <= u < getCols g -> 0 <= v < getCols g ->
  remove_edge u v g = Ok g' -> undirected g'.
Proof.
  intros Hg Hu Hv Hr. destruct (remove_edge_ok g u v Hg Hu Hv) as (g1 & Hr1 & Hd & He). rewrite Hr in Hr1. injection Hr1 as ->.
  apply (undirected_restrict g g1 (fun x y => (x, y) <> (u, v) /\ (x, y) <> (v, u))); [done|done| |done].
  intros x y [H1 H2]. split; intros [= -> ->]; [by apply H2|by apply H1].
Qed.

(** ** Lemmas: the direction of an edge *)

Lemma add_edge_ok g u v : 0 <= u -> 0 <= v -> exists g', add_edge u v g = Ok (g', ((u, v), true)) /\
  dims g' (Z.max (getRows g) (u + 1)) (Z.max (getCols g) (v + 1)) /\
  forall x y w, entry g' x y w <-> if decide ((x, y) = (u, v)) then w = 0 else entry g x y w.
Proof.
  intros Hu Hv. unfold add_edge. destruct (sparse_set_ok u v 0 g Hu Hv) as (g' & -> & Hd & _ & He). by exists g'.
Qed.

(** the edge that [add_edge(u, v)] stores is the edge from [v] to [u] *)
Lemma added_edge_is_reversed g u v : 0 <= u < getCols g -> 0 <= v -> u <> v -> (forall w, ~ entry g v u w) ->
  exists g', add_edge u v g = Ok (g', ((u, v), true)) /\ edge u v g' = Ok ((u, v), false) /\ edge v u g' = Ok ((v, u), true).
Proof.
  intros Hu Hv Hne Hn. destruct (add_edge_ok g u v ltac:(lia) Hv) as (g' & Ha & [_ Hc] & He). exists g'. split; [done|].
  destruct (edge_spec g' u v ltac:(lia)) as (b1 & -> & H1). destruct (edge_spec g' v u ltac:(lia)) as (b2 & -> & H2). split; do 2 f_equal.
  - apply not_true_is_false. intros [w Hw%He]%H1. rewrite decide_False in Hw by congruence. by apply (Hn w).
  - apply H2. exists 0. apply He. by rewrite decide_True.
Qed.

(** and it is gone when another edge is removed *)
Lemma added_edge_is_pruned g u v x y : undirected g -> 0 <= u < getCols g -> 0 <= v < getCols g ->
  0 <= x < getCols g -> 0 <= y < getCols g ->
  exists g1 g2, add_edge u v g = Ok (g1, ((u, v), true)) /\ remove_edge x y g1 = Ok g2 /\ forall w, ~ entry g2 u v w.
Proof.
  intros [Hsq _] Hu Hv Hx Hy. destruct (add_edge_ok g u v ltac:(lia) ltac:(lia)) as (g1 & -> & [Hr Hc] & He).
  unfold remove_edge. destruct (sparse_set_ok x y 0 g1 ltac:(lia) ltac:(lia)) as (g2 & Hs2 & _ & _ & He2).
  destruct (sparse_set_ok y x 0 g2 ltac:(lia) ltac:(lia)) as (g3 & Hs3 & _ & _ & He3).
  exists g1, (preemt 0 g3). split; [done|]. rewrite Hs2. run_step. rewrite Hs3. run_step. split; [done|].
  intros w. rewrite preemt_entry, He3. case_decide; [tauto|]. rewrite He2. case_decide; [tauto|]. rewrite He. rewrite decide_True by done. tauto.
Qed.

(** a new vertex changes nothing *)
Lemma add_vertex_adds_none g : add_vertex g = (g, getCols g).
Proof. unfold add_vertex, resize. by rewrite !Z.eqb_refl. Qed.

(** the weight of an edge the loops visit: the edge from [u] to [v] is read at
    row [u], where an undirected graph has it too *)
Lemma edge_weight_ok g u v w : undirected g -> entry g v u w -> edge_weight (u, v) g = Ok (g, w).
Proof.
  intros Hg Hw%(both_ways _ Hg). unfold edge_weight, get. cbn [fst snd]. rewrite (proj2 (sp_in_range_true _ _ _)) by (by eapply entry_range).
  cbn [guard_else]. run_step. rewrite (proj2 (is_stored_spec g u v)) by (by exists w). do 2 f_equal. by apply sp_coeff_stored.
Qed.

(** of a directed graph the read inserts the opposite edge *)
Lemma edge_weight_inserts g u v w : entry g v u w -> (forall w, ~ entry g u v w) -> 0 <= u < getRows g -> 0 <= v < getCols g ->
  exists g', edge_weight (u, v) g = Ok (g', 0) /\ edge v u g' = Ok ((v, u), true).
Proof.
  intros Hw Hn Hu Hv. unfold edge_weight, get. cbn [fst snd]. rewrite (proj2 (sp_in_range_true _ _ _)) by done.
  cbn [guard_else]. run_step. destruct (is_stored g u v) eqn:Hs; [by apply is_stored_spec in Hs as [w' ?%Hn]|].
  destruct (put_entry u v 0 g Hu Hv) as (g' & -> & [_ Hc] & _ & He). run_step. exists g'. split; [done|].
  destruct (edge_spec g' v u ltac:(lia)) as (b & -> & Hb). do 2 f_equal. apply Hb. exists 0. apply He. by rewrite decide_True.
Qed.

(** ** Lemmas: counting *)

Lemma out_degree_ok g u : 0 <= u < getCols g -> out_degree u g = Ok (u32 (Z.of_nat (length (sp_column (matrix g) u)))).
Proof. intros Hu. unfold out_degree, getCountNonZerosByVer, inner_at. by rewrite (proj2 (Z.leb_le 0 _)), (proj2 (Z.ltb_lt _ _)) by lia. Qed.

Lemma mapM_Ok {A B} (f : A -> result B) (h : A -> B) l : (forall a, a ∈ l -> f a = Ok (h a)) -> mapM f l = Ok (h <$> l).
Proof.
  induction l as [|a l IH]; intros Hf; [done|]. cbn [mapM]. rewrite Hf by (by left). run_step.
  rewrite IH by (intros b ?; apply Hf; by right). done.
Qed.

Lemma length_entries g : length (entries g) = length (seqZ 0 (getCols g) ≫= sp_column (matrix g)).
Proof.
  unfold entries. induction (seqZ 0 (getCols g)) as [|y l IH]; [done|]. rewrite !bind_cons, !length_app, length_fmap. f_equal. exact IH.
Qed.

Context `{SC : !SparseCounts M}.

Lemma num_edges_entries g : num_edges g = u32 (Z.of_nat (length (entries g))).
Proof. unfold num_edges, getNumElements. rewrite sp_nonZeros_count. unfold getCols. by rewrite length_entries. Qed.

Lemma entries_nodup g : NoDup (entry_edge <$> entries g).
Proof.
  unfold entries. pose proof (NoDup_seqZ 0 (getCols g)) as Hn. induction Hn as [|y l Hy Hl IH]; [constructor|].
  rewrite bind_cons, fmap_app, <- list_fmap_compose. apply NoDup_app. split_and!; [| |done].
  - pose proof (sp_column_rows (matrix g) y) as Hr. revert Hr. generalize (sp_column (matrix g) y). clear. intros k.
    induction k as [|e k IH]; [constructor|]. cbn. rewrite !NoDup_cons. intros [He Hk]. split; [|by apply IH].
    intros ([x v] & [= He'] & Hin)%list_elem_of_fmap. apply He, list_elem_of_fmap. by exists (x, v).
  - intros e ([x v] & -> & _)%list_elem_of_fmap ([[x' y'] v'] & [= -> ->] & Hin)%list_elem_of_fmap.
    apply list_elem_of_bind in Hin as (z & ([x1 v1] & [= -> -> ->] & _)%list_elem_of_fmap & Hz). done.
Qed.

(** the degrees of the vertices add up to the number of edges *)
Lemma degrees_sum g : getRows g = getCols g -> getCols g < 2 ^ 32 -> Z.of_nat (getNumElements g) < 2 ^ 32 ->
  exists ds, mapM (fun u => out_degree u g) (seqZ 0 (num_vertices g)) = Ok ds /\ foldr Z.add 0 ds = num_edges g.
Proof.
  intros Hsq Hc Hn. assert (0 <= getCols g) as Hc0 by apply (sp_dims (matrix g)).
  assert (num_vertices g = getCols g) as ->. { unfold num_vertices. rewrite Hsq, Z.min_id. apply u32_small. unfold is_u32. lia. }
  eexists. split; [apply mapM_Ok; intros u Hu%elem_of_seqZ; apply out_degree_ok; lia|]. cbv beta.
  unfold num_edges. rewrite u32_small by (unfold is_u32; lia). unfold getNumElements in *. rewrite sp_nonZeros_count in *. fold (getCols g) in *.
  revert Hn. clear. induction (seqZ 0 (getCols g)) as [|y l IH]; [done|]. rewrite bind_cons, length_app. intros Hn.
  cbn [fmap list_fmap foldr]. rewrite u32_small by (unfold is_u32; lia). rewrite IH; lia.
Qed.

Lemma concat_out_edges g : concat ((fun u => (fun e => (u, e.1)) <$> sp_column (matrix g) u) <$> seqZ 0 (getCols g)) = entry_edge <$> entries g.
Proof.
  unfold entries. induction (seqZ 0 (getCols g)) as [|y l IH]; [done|].
  rewrite bind_cons, fmap_app, <- list_fmap_compose. cbn [fmap list_fmap concat]. f_equal. exact IH.
Qed.

Lemma elem_of_edges g u v : 0 <= u < getCols g -> (u, v) ∈ entry_edge <$> entries g <-> exists w, entry g v u w.
Proof.
  intros Hu. rewrite list_elem_of_fmap. split.
  - intros ([[x y] w] & [= -> ->] & Hin). exists w. apply elem_of_entries; [|done]. by eapply entries_range.
  - intros [w Hw]. exists (v, u, w). split; [done|]. by apply elem_of_entries.
Qed.
End graph.

(** ** Properties *)

(** On an undirected graph - a square matrix that holds both directions of
    every edge with one weight - the edge iterators give each edge once: the
    loop over [edges] reads what the loops over the out-edges of the vertices
    read one after the other, without duplicates, as many as [num_edges] says;
    [out_degree] and [in_degree] of a vertex are the number of its out-edges;
    and [edge(u, v)] holds exactly for the edges read, which are the entries of
    the matrix and have their weights. *)
Lemma edges_are_the_out_edges {M : Type} `{SL : SparseLaws M} `{SC : !SparseCounts M} {K : Type} (g : Matrix (M := M) (K := K)) :
  undirected g -> 0 < getCols g < 2 ^ 32 -> Z.of_nat (getNumElements g) < 2 ^ 32 ->
  exists es outs,
    visit it_edge (edges g) g = Ok es /\
    mapM (fun u => visit it_edge (out_edges u g) g) (seqZ 0 (num_vertices g)) = Ok outs /\
    es = concat outs /\ NoDup es /\ Z.of_nat (length es) = num_edges g /\
    mapM (fun u => out_degree u g) (seqZ 0 (num_vertices g)) = Ok ((fun out => Z.of_nat (length out)) <$> outs) /\
    (forall u v, 0 <= u < num_vertices g -> edge u v g = Ok ((u, v), bool_decide ((u, v) ∈ es))) /\
    (forall u v w, entry g u v w -> (u, v) ∈ es /\ edge_weight (u, v) g = Ok (g, w)).
Proof.
  intros Hg Hc Hn.
  assert (num_vertices g = getCols g) as Hv by (unfold num_vertices; rewrite (square _ Hg), Z.min_id; apply u32_small; unfold is_u32; lia).
  pose proof (eq_sym (length_fmap entry_edge (entries g))) as Hlen. pose proof (num_edges_entries g) as Hnum.
  assert (Z.of_nat (length (entries g)) < 2 ^ 32) as Hn' by (revert Hn; unfold getNumElements; rewrite sp_nonZeros_count, length_entries; done).
  exists (entry_edge <$> entries g). eexists. split_and!.
  - apply edges_visit. lia.
  - apply mapM_Ok. intros u Hu%elem_of_seqZ. apply out_edges_visit. lia.
  - rewrite Hv. symmetry. apply concat_out_edges.
  - apply entries_nodup.
  - rewrite Hnum, u32_small, length_fmap; [done|unfold is_u32; lia].
  - rewrite <- list_fmap_compose. apply mapM_Ok. intros u Hu%elem_of_seqZ. rewrite out_degree_ok by lia. f_equal.
    unfold compose. rewrite length_fmap. apply u32_small.
    assert (length (sp_column (matrix g) u) <= length (entries g))%nat by (apply column_length; lia). unfold is_u32. lia.
  - intros u v Hu. destruct (edge_spec g u v) as (b & -> & Hb); [lia|]. do 2 f_equal.
    apply eq_bool_prop_intro. rewrite Is_true_true, Hb, bool_decide_spec. symmetry. apply elem_of_edges. lia.
  - intros u v w Hw. pose proof (both_ways _ Hg _ _ _ Hw) as Hw'. destruct (entry_range _ _ _ _ Hw') as [? Hu]. split.
    + apply elem_of_edges; [done|]. by exists w.
    + by apply edge_weight_ok.
Qed.

(** C39: [clear_vertex] on an undirected graph returns - none of its writes moves
    the storage under the iterator of its loop - and isolates the vertex: the
    edges of weight other than 0 that do not touch it are left, with their
    weights, no other is; the graph is still undirected, of the same vertices,
    the vertex has no out-edges, its degrees are 0 and [edge] finds no edge
    between it and any vertex. *)
Theorem clear_vertex_isolates {M : Type} `{SL : SparseLaws M} {K : Type} (g : Matrix (M := M) (K := K)) (u : Z) :
  undirected g -> 0 <= u < getCols g ->
  exists g', clear_vertex u g = Ok g' /\ undirected g' /\ dims g' (getRows g) (getCols g) /\
    (forall x y v, entry g' x y v <-> entry g x y v /\ v <> 0 /\ x <> u /\ y <> u) /\
    visit it_edge (out_edges u g') g' = Ok [] /\ out_degree u g' = Ok 0 /\ in_degree u g' = Ok 0 /\
    (forall v, 0 <= v < getCols g -> edge u v g' = Ok ((u, v), false) /\ edge v u g' = Ok ((v, u), false)).
Proof.
  intros Hg Hu. destruct (clear_vertex_ok g u Hg Hu) as (g' & Hc & Hd & He). pose proof Hd as [_ Hcols].
  assert (sp_column (matrix g') u = []) as Hnil.
  { apply elem_of_nil_inv. intros [x v] Hin. by apply (He x u v) in Hin as (_ & _ & _ & ?). }
  exists g'. split_and!; [done| |done|done| | | |].
  - apply (undirected_restrict g g' (fun x y => x <> u /\ y <> u)); [done|done|tauto|done].
  - rewrite out_edges_visit by lia. by rewrite Hnil.
  - rewrite out_degree_ok by lia. by rewrite Hnil.
  - change (in_degree u g') with (out_degree u g'). rewrite out_degree_ok by lia. by rewrite Hnil.
  - intros v Hv. destruct (edge_spec g' u v) as (b & -> & Hb); [lia|]. destruct (edge_spec g' v u) as (b' & -> & Hb'); [lia|].
    assert (b = false) as -> by (apply not_true_is_false; intros [w (_ & _ & _ & ?)%He]%Hb; done).
    assert (b' = false) as -> by (apply not_true_is_false; intros [w (_ & _ & ? & _)%He]%Hb'; done). done.
Qed.

(** ** The graph of the tests *)

#[local] Existing Instances SMat_ops SMat_laws.

Definition inside (r c : Z) (e : Z * Z * Z) : Prop := 0 <= e.1.1 < r /\ 0 <= e.1.2 < c.

#[local] Instance inside_dec r c e : Decision (inside r c e).
Proof. unfold inside. apply _. Defined.

(** column [j] of a list of entries *)
Definition s_column (r c : Z) (L : list (Z * Z * Z)) (j : Z) : list (Z * Z) :=
  omap (fun e => let '((x, y), v) := e in if decide (y = j /\ 0 <= x < r /\ 0 <= y < c) then Some (x, v) else None) L.

Lemma s_column_cons r c x y v L j : s_column r c ((x, y, v) :: L) j =
  (if decide (y = j /\ inside r c (x, y, v)) then [(x, v)] else []) ++ s_column r c L j.
Proof. unfold s_column. cbn [omap list_omap]. destruct (decide (y = j /\ 0 <= x < r /\ 0 <= y < c)), (decide (y = j /\ inside r c (x, y, v))); (done || tauto). Qed.

Lemma s_column_rows r c L j : NoDup L.*1 -> NoDup (s_column r c L j).*1.
Proof.
  induction L as [|[[x y] v] L IH]; [constructor|]. cbn [fmap list_fmap fst]. rewrite NoDup_cons. intros [Hn HL].
  rewrite s_column_cons. case_decide as Hd; [|by apply IH]. destruct Hd as [-> _]. cbn [app fmap list_fmap fst]. apply NoDup_cons. split; [|by apply IH].
  intros ([x' v'] & -> & ([[x1 y1] v1] & Hin & He)%list_elem_of_omap)%list_elem_of_fmap. case_decide as Hd; [|done].
  injection He as -> ->. destruct Hd as [-> _]. apply Hn, list_elem_of_fmap. by exists (x', j, v').
Qed.

Lemma s_column_one r c x y v L l : NoDup l -> length (l ≫= s_column r c ((x, y, v) :: L)) =
  Nat.add (if decide (y ∈ l /\ inside r c (x, y, v)) then 1%nat else 0%nat) (length (l ≫= s_column r c L)).
Proof.
  intros Hl. induction Hl as [|j l Hj Hl IH].
  { rewrite decide_False; [done|]. by intros [?%elem_of_nil _]. }
  rewrite !bind_cons, !length_app, IH, s_column_cons, length_app.
  destruct (decide (y = j /\ _)) as [[-> Hr]|Hr].
  - rewrite decide_False by tauto. rewrite decide_True by (split; [by left|done]). cbn [length]. lia.
  - destruct (decide (y ∈ l /\ _)) as [[Hy Hr']|Hr']; [rewrite decide_True by (split; [by right|done]); cbn [length]; lia|].
    rewrite decide_False; [cbn [length]; lia|]. intros [[->|?]%elem_of_cons ?]; tauto.
Qed.

Lemma s_column_count r c L : length (seqZ 0 c ≫= s_column r c L) = length (filter (inside r c) L).
Proof.
  induction L as [|[[x y] v] L IH].
  - cbn. induction (seqZ 0 c) as [|j l IHl]; [done|]. by rewrite bind_cons.
  - rewrite s_column_one, IH by apply NoDup_seqZ. rewrite filter_cons. destruct (decide (inside r c (x, y, v))) as [Hr|Hr].
    + rewrite decide_True by (split; [apply elem_of_seqZ; unfold inside in Hr; cbn in Hr; lia|done]). done.
    + rewrite decide_False by tauto. done.
Qed.

#[local] Instance SMat_counts : SparseCounts SMat.
Proof.
  split.
  - intros m j. apply (s_column_rows (s_rows m) (s_cols m)), NoDup_fst_map_to_list.
  - intros m. transitivity (length (seqZ 0 (s_cols m) ≫= s_column (s_rows m) (s_cols m) (map_to_list (s_entries m)))).
    + rewrite s_column_count. done.
    + cbn [sp_cols SMat_ops]. destruct (Z.max_spec 0 (s_cols m)) as [[? ->]|[? ->]]; [done|]. by rewrite !seqZ_nil by lia.
Qed.

(** the graph of [GraphTest.cpp] *)
Definition test_graph : Matrix (M := SMat) (K := nat) :=
  s_matrix 5 5 [(0, 1, 1); (0, 2, 3); (1, 0, 1); (1, 4, 1); (2, 0, 3); (2, 3, 5); (2, 4, 4); (3, 2, 5); (3, 4, 2); (4, 1, 1); (4, 2, 4); (4, 3, 2)].

Lemma test_graph_undirected : undirected test_graph.
Proof.
  split; [done|]. intros x y v (He & Hx & Hy)%SMat_stored. apply SMat_stored. split; [|tauto]. revert x y v He Hx Hy.
  assert (map_Forall (fun k v => s_entries (matrix test_graph) !! (k.2, k.1) = Some v) (s_entries (matrix test_graph))) as Hf
    by (refine (bool_decide_unpack _ _); vm_compute; exact I).
  intros x y v He _ _. exact (Hf (x, y) v He).
Qed.

Lemma clear_vertex_isolates_witness :
  exists g', clear_vertex 2 test_graph = Ok g' /\ num_edges g' = 6 /\ edge 2 4 g' = Ok ((2, 4), false).
Proof.
  assert (0 <= 2 < getCols test_graph) as Hu by (vm_compute; split; congruence).
  destruct (clear_vertex_isolates test_graph 2 test_graph_undirected Hu) as (g' & Hc & _ & _ & _ & _ & _ & _ & He).
  exists g'. split; [done|]. split; [|by apply He; vm_compute; split; congruence].
  vm_compute in Hc. injection Hc as <-. by vm_compute.
Defined.

Lemma edges_are_the_out_edges_witness :
  exists es, visit it_edge (edges test_graph) test_graph = Ok es /\ NoDup es /\ length es = 12%nat /\ (2, 4) ∈ es.
Proof.
  assert (0 < getCols test_graph < 2 ^ 32) as Hc by (vm_compute; split; congruence).
  assert (Z.of_nat (getNumElements test_graph) < 2 ^ 32) as Hn by (vm_compute; congruence).
  destruct (edges_are_the_out_edges test_graph test_graph_undirected Hc Hn) as (es & outs & Hv & _ & _ & Hes & Hl & _ & _ & He).
  exists es. split_and!; [done|done| |].
  - apply Nat2Z.inj. rewrite Hl. by vm_compute.
  - apply (He 2 4 4). apply SMat_stored. by vm_compute.
Defined.
