(* ===== verification/Debs.v ===== *)
(** * Debs: the anomaly detection of [usecases/DEBS2017]

    [src/usecases/DEBS2017/DEBS2017.cpp]: the metadata, the translation of the
    sensor's triples into values, the clustering of the values in the window of
    a dimension, and the Markov chain over the sequence of their clusters.
    Doubles are IEEE binary64 (the standard library's [SpecFloat]).

    What is shown: the rows of the clustering hold the values of the window, in
    order; when the start of the clustering reads past them; that the loops are
    k-means with every value in a nearest cluster; that the chain stays inside
    its matrix; and that an anomaly is reported exactly when the product of the
    relative frequencies of the last transitions is below the threshold.  The
    partitions have a thread each and share the counter of the anomalies: its
    accesses are steps of their own, in any order of the threads, as if each were
    sequentially consistent ([numbers_collide] shows what the missing lock can
    do even so).

    [std::stod] and [atoi] are parameters.  The operators of the query are those
    of the other files; the measurement of time is not modelled. *)

From Stdlib Require Import SpecFloat.
From S2P Require Import Prelude Extract Timestamps.

(** ** Double precision *)

Definition d_of_int (z : Z) : spec_float := binary_normalize 53 1024 z 0 false.
Definition d_add : spec_float -> spec_float -> spec_float := SFadd 53 1024.
Definition d_sub : spec_float -> spec_float -> spec_float := SFsub 53 1024.
Definition d_mul : spec_float -> spec_float -> spec_float := SFmul 53 1024.
Definition d_div : spec_float -> spec_float -> spec_float := SFdiv 53 1024.
Definition d_zero : spec_float := S754_zero false.
Definition d_one : spec_float := d_of_int 1.

#[local] Instance double_eq_dec : EqDecision spec_float.
Proof. solve_decision. Defined.

(** ** Parameters *)

Definition trans_num : nat := 5.
(** 0.005: the double nearest to it *)
Definition trans_prob : spec_float := d_div (d_of_int 5) (d_of_int 1000).
Definition max_cluster_iterations : nat := 50.

(** ** Strings *)

Abbreviation string := (list Z) (only parsing).

(** [erase(begin, begin + n)], [pop_back], [erase(end - n, end)], [substr(n)] *)
Definition erase_front (n : nat) (s : string) : result string := _ ← guard_else (n <=? length s)%nat OutOfBounds; Ok (drop n s).
Definition pop_back (s : string) : result string := match s with [] => Err EmptyAccess | _ => Ok (take (length s - 1) s) end.
Definition erase_back (n : nat) (s : string) : result string := _ ← guard_else (n <=? length s)%nat OutOfBounds; Ok (take (length s - n) s).
Definition substr (n : nat) (s : string) : result string := _ ← guard_else (n <=? length s)%nat (Throws "out_of_range"); Ok (drop n s).

Fixpoint starts_with (p s : string) : bool :=
  match p, s with
  | [], _ => true
  | c :: p, c' :: s => (c =? c') && starts_with p s
  | _ :: _, [] => false
  end.
(** [find(p) != npos] *)
Fixpoint contains (p s : string) : bool :=
  starts_with p s || match s with [] => false | _ :: s => contains p s end.

Section debs.
Context (stod : string -> option spec_float) (atoi : string -> Z).

Definition to_double (s : string) : result spec_float := match stod s with Some x => Ok x | None => Err (Throws "invalid_argument") end.

(** ** Metadata *)

Record Metadata := mkMetadata { MetadataMap : gmap string Z; MdCluster : Z }.

Definition processMetadata (meta : string * string * string) (g : Metadata) : result Metadata :=
  let '(s, p, _) := meta in
  if (length p <? 1)%nat then
    tempString ← erase_front 84 s;
    tempString ← pop_back tempString;
    Ok (mkMetadata (match MetadataMap g !! tempString with
                    | Some _ => MetadataMap g
                    | None => <[tempString := MdCluster g]> (MetadataMap g)
                    end) (MdCluster g))
  else
    tempString ← erase_back 41 (drop 1 p);
    Ok (mkMetadata (MetadataMap g) (atoi tempString)).

(** ** Preprocessing *)

Record InputState := mkInput {
  valueDouble : spec_float; property_cnt : Z; passTuple : Z; hasMetadata : Z; numberOfClusters : Z;
  metadataIDString : string; timestamp_str : string; observation : string; timestamp : Z;
}.
Definition InputState_new : InputState := mkInput d_zero 0 0 0 0 [] [] [] 0.

(** the tuple between the steps; the threshold number is always 0 *)
Record Preproc := mkPreproc {
  p_property : Z; p_flag : Z; p_metadata : string; p_name : string; p_time : Z; p_clusters : Z; p_observation : string; p_value : spec_float;
}.

Definition input_tuple (s : InputState) : Preproc :=
  mkPreproc (property_cnt s - 1) (passTuple s) (metadataIDString s) (timestamp_str s) (timestamp s) (numberOfClusters s) (observation s) (valueDouble s).

(** the branches of [calculateStates]; [_value] of the tuple in field 3 *)
Definition observation_state (md : gmap string Z) (testString id : string) (s : InputState) : result InputState :=
  obs ← substr 57 testString;
  obs ← pop_back obs;
  id ← erase_front 64 id;
  id ← pop_back id;
  Ok (match md !! id with
      | Some n => mkInput (valueDouble s) (property_cnt s) 0 (hasMetadata s + 1) n id (timestamp_str s) obs (timestamp s)
      | None => mkInput (valueDouble s) (property_cnt s) 0 0 (numberOfClusters s) id (timestamp_str s) obs (timestamp s)
      end).

Definition value_state (value : string) (s : InputState) : result InputState :=
  if hasMetadata s >? 0 then
    let s' x pass := mkInput x (property_cnt s + 1) pass (hasMetadata s) (numberOfClusters s) (metadataIDString s) (timestamp_str s) (observation s) (timestamp s) in
    match drop 1 value with
    | [] => Ok (s' (valueDouble s) 0)
    | value => v ← erase_back 44 value; x ← to_double v; Ok (s' x 1)
    end
  else Ok (mkInput (valueDouble s) (property_cnt s) 0 (hasMetadata s) (numberOfClusters s) (metadataIDString s) (timestamp_str s) (observation s) (timestamp s)).

Definition timestamp_state (testString time : string) (s : InputState) : result InputState :=
  t ← erase_back 52 (drop 1 time);
  ts ← stringToTimestamp t;
  name ← substr 45 testString;
  name ← pop_back name;
  Ok (mkInput (valueDouble s) 0 0 (hasMetadata s) (numberOfClusters s) (metadataIDString s) name (observation s) ts).

(** [tp]: the subject, the observed property and the literal *)
Definition calculateStates (md : gmap string Z) (tp : string * string * string) (s : InputState) : result (InputState * Preproc) :=
  let '(testString, property, literal) := tp in
  s ← (if contains (chars "Observation_") testString then observation_state md testString property s
       else if contains (chars "Value") testString then value_state literal s
       else if contains (chars "Timestamp") testString then timestamp_state testString literal s
       else Ok (mkInput (valueDouble s) (property_cnt s) 0 (hasMetadata s) (numberOfClusters s) (metadataIDString s) (timestamp_str s) (observation s) (timestamp s)));
  Ok (s, input_tuple s).

(** the [where] of the query and the function of its [partitionBy] *)
Definition passes (tp : Preproc) : bool := negb (p_flag tp =? 0).
Definition partition_of (threadAmount : Z) (tp : Preproc) : Z := Z.rem (p_property tp) threadAmount.

(** ** Clustering *)

(** the rows of [DataVectorNew]: machine, property, then the values *)
Abbreviation rows := (list (list spec_float)) (only parsing).

(** the search for the row of a dimension: its number, or that of rows *)
Fixpoint find_row (machine number : spec_float) (data : rows) : result (nat * bool) :=
  match data with
  | [] => Ok (0%nat, false)
  | row :: data =>
      c0 ← get_at row 0;
      here ← (if SFeqb c0 machine then (c1 ← get_at row 1; Ok (SFeqb c1 number)) else Ok false);
      if here : bool then Ok (0%nat, true)
      else (r ← find_row machine number data; let '(n, found) := (r : nat * bool) in Ok (S n, found))
  end.

(** machine and property of [AA_BBB]; without the [_] both are the whole *)
Definition dimension (id : string) : result (spec_float * spec_float) :=
  let n := find_char 95 id in
  machine ← to_double (match n with Some i => take i id | None => id end);
  number ← to_double (match n with Some i => drop (S i) id | None => id end);
  Ok (machine, number).

(** an outdated value: the first of the row leaves *)
Definition expire (rowNumber : nat) (data : rows) : result rows :=
  row ← get_at data rowNumber;
  _ ← guard_else (2 <? length row)%nat OutOfBounds;
  set_at data rowNumber (take 2 row ++ drop 3 row).

Definition arrive (machine number x : spec_float) (found : bool) (rowNumber : nat) (data : rows) : result rows :=
  if found then (row ← get_at data rowNumber; set_at data rowNumber (row ++ [x]))
  else Ok (data ++ [[machine; number; x]]).

(** *** The loops over one row *)

Definition member (x : spec_float) (l : list spec_float) : bool := existsb (fun y => SFeqb y x) l.

(** the first centres: distinct values, the test [i <= size] allows one index
    too many *)
Fixpoint first_centres (k : Z) (centres rest : list spec_float) : result (list spec_float) :=
  if Z.of_nat (length centres) <? k then
    match rest with
    | [] => Err OutOfBounds
    | v :: rest => first_centres k (if member v centres then centres else centres ++ [v]) rest
    end
  else Ok centres.

Definition distance (v c : spec_float) : spec_float := d_mul (d_sub v c) (d_sub v c).

(** the loop over the centres for one value; [a]: its cluster *)
Fixpoint nearest (centres : list spec_float) (v : spec_float) (j : nat) (rest : list spec_float) (a : nat) (oldDistance : spec_float) (changes : Z) : result (nat * Z) :=
  match rest with
  | [] => Ok (a, changes)
  | c :: rest =>
      let newDistance := distance v c in
      if SFeqb newDistance oldDistance then
        ca ← get_at centres a;
        nearest centres v (S j) rest (if SFltb ca c then j else a) oldDistance changes
      else if SFltb newDistance oldDistance then nearest centres v (S j) rest j newDistance (changes + 1)
      else nearest centres v (S j) rest a oldDistance changes
  end.

Definition assign_value (centres : list spec_float) (v : spec_float) (a : nat) (changes : Z) : result (nat * Z) :=
  ca ← get_at centres a; nearest centres v 0 centres a (distance v ca) changes.

Fixpoint assign_values (centres values : list spec_float) (assigns : list nat) (changes : Z) : result (list nat * Z) :=
  match values, assigns with
  | v :: values, a :: assigns =>
      r ← assign_value centres v a changes;
      let '(a, changes) := (r : nat * Z) in
      r ← assign_values centres values assigns changes;
      let '(assigns, changes) := (r : list nat * Z) in
      Ok (a :: assigns, changes)
  | _, _ => Ok ([], changes)
  end.

(** number and sum of the values of cluster [i] *)
Definition cluster_sum (i : nat) (values : list spec_float) (assigns : list nat) : Z * spec_float :=
  fold_left (fun acc e => if (e.1 =? i)%nat then (acc.1 + 1, d_add acc.2 e.2) else acc) (zip assigns values) (0, d_zero).

Definition new_centre (values : list spec_float) (assigns : list nat) (i : nat) (c : spec_float) : spec_float * bool :=
  let '(n, sum) := cluster_sum i values assigns in
  if SFeqb sum d_zero then (c, false)
  else let m := d_div sum (d_of_int n) in (m, negb (SFeqb m c)).

Definition new_centres (centres values : list spec_float) (assigns : list nat) (changes : Z) : list spec_float * Z :=
  let l := imap (new_centre values assigns) centres in
  (l.*1, changes + Z.of_nat (length (List.filter (fun c => c.2) l))).

(** at most [n] iterations *)
Fixpoint cluster_loop (n : nat) (values centres : list spec_float) (assigns : list nat) (numberOfChanges : Z) : result (list nat) :=
  match n with
  | O => Ok assigns
  | S n =>
      if numberOfChanges =? 0 then Ok assigns
      else
        r ← assign_values centres values assigns 0;
        let '(assigns, changes) := (r : list nat * Z) in
        let '(centres, changes) := new_centres centres values assigns changes in
        cluster_loop n values centres assigns changes
  end.

Definition cluster_sequence (k : Z) (values : list spec_float) : result (list nat) :=
  v ← get_at values 0;
  centres ← first_centres k [v] (drop 1 values);
  cluster_loop max_cluster_iterations values centres (replicate (length values) 0%nat) 1.

(** the tuple, whose flag says whether there were enough values, and the
    sequence of clusters *)
Definition Cluster_Output : Type := Preproc * list nat.

Definition with_flag (f : Z) (tp : Preproc) : Preproc :=
  mkPreproc (p_property tp) f (p_metadata tp) (p_name tp) (p_time tp) (p_clusters tp) (p_observation tp) (p_value tp).

Definition calculateClusters (tp : Preproc) (outdated : bool) (data : rows) : result (rows * Cluster_Output) :=
  d ← dimension (p_metadata tp);
  r ← find_row d.1 d.2 data;
  let '(rowNumber, found) := (r : nat * bool) in
  if outdated then (data ← expire rowNumber data; Ok (data, (with_flag 0 tp, [])))
  else
    data ← arrive d.1 d.2 (p_value tp) found rowNumber data;
    row ← get_at data rowNumber;
    if (trans_num <? length row - 2)%nat then
      sequence ← cluster_sequence (p_clusters tp) (drop 2 row);
      Ok (data, (with_flag 1 tp, sequence))
    else Ok (data, (with_flag 0 tp, [])).

(** ** Markov chain *)

Definition get2 (m : list (list spec_float)) (i j : nat) : result spec_float := row ← get_at m i; get_at row j.
Definition set2 (i j : nat) (x : spec_float) (m : list (list spec_float)) : result (list (list spec_float)) :=
  row ← get_at m i; row ← set_at row j x; set_at m i row.

Fixpoint count_transitions (last : nat) (sequence : list nat) (m : list (list spec_float)) : result (list (list spec_float)) :=
  match sequence with
  | [] => Ok m
  | next :: sequence =>
      x ← get2 m last next;
      m ← set2 last next (d_add x d_one) m;
      count_transitions next sequence m
  end.

Definition normalize_row (row : list spec_float) : list spec_float :=
  let sum := fold_left d_add row d_zero in
  if SFeqb sum d_zero then row else (fun x => d_div x sum) <$> row.

Fixpoint sequence_probability (n : nat) (m : list (list spec_float)) (sequence : list nat) (i last : nat) (p : spec_float) : result spec_float :=
  match n with
  | O => Ok p
  | S n =>
      next ← get_at sequence (length sequence - trans_num - 1 + i);
      x ← get2 m last next;
      sequence_probability n m sequence (S i) next (d_mul p x)
  end.

Definition transition_probability (nrOfCluster : Z) (sequence : list nat) : result spec_float :=
  _ ← guard_else (0 <? nrOfCluster) OutOfBounds; (* an array without elements *)
  let k := Z.to_nat nrOfCluster in
  first ← get_at sequence 0;
  m ← count_transitions first (drop 1 sequence) (replicate k (replicate k d_zero));
  let m := normalize_row <$> m in
  last ← get_at sequence (length sequence - trans_num - 1);
  sequence_probability trans_num m sequence 1 last d_one.

(** what is printed *)
Record Anomaly := mkAnomaly { an_number : Z; an_probability : spec_float; an_tuple : Preproc }.

(** up to the test of the threshold: the probability to be reported *)
Definition calculateMarkov (tp : Cluster_Output) (outdated : bool) : result (option spec_float) :=
  let '(tp, sequenceVector) := tp in
  if negb outdated && (p_flag tp =? 1) && (trans_num <? length sequenceVector)%nat then
    p ← transition_probability (p_clusters tp) sequenceVector;
    Ok (if SFltb p trans_prob then Some p else None)
  else Ok None.

(** both operators of a partition: its rows, and what is to be reported *)
Definition detect (tp : Preproc) (outdated : bool) (data : rows) : result (rows * option (spec_float * Preproc)) :=
  r ← calculateClusters tp outdated data;
  let '(data, out) := (r : rows * Cluster_Output) in
  found ← calculateMarkov out outdated;
  Ok (data, match (found : option spec_float) with Some p => Some (p, out.1) | None => None end).

(** *** The partitions

    Every partition has its rows and a thread; the counter [anomalies_found] is
    a global of all of them.  To report, a thread loads the counter, stores the
    next number, loads it again and prints: the threads run in any order,
    between these steps too. *)

(** what a partition is called with: the tuple and whether it is outdated *)
Abbreviation event := (Preproc * bool)%type (only parsing).

Inductive phase :=
| Running
| Found (f : spec_float * Preproc)                 (* about to load the counter *)
| Loaded (n : Z) (f : spec_float * Preproc)        (* about to store [n + 1] *)
| Stored (f : spec_float * Preproc).               (* about to load it again and print *)

Record thread := mkThread { th_todo : list event; th_rows : rows; th_phase : phase }.

Record query := mkQuery {
  threads : list thread;
  anomalies_found : Z;
  output : list (nat * Anomaly);                   (* with the partition that printed it *)
}.

Definition query_start (partitions : list (list event)) : query :=
  mkQuery ((fun l => mkThread l [] Running) <$> partitions) 0 [].

(** a step of the thread of partition [i] *)
Definition thread_step (i : nat) (q : query) : result query :=
  match threads q !! i with
  | None => Ok q
  | Some t =>
      let continue ph found out := mkQuery (<[i := mkThread (th_todo t) (th_rows t) ph]> (threads q)) found out in
      match th_phase t with
      | Running =>
          match th_todo t with
          | [] => Ok q
          | e :: rest =>
              r ← detect e.1 e.2 (th_rows t);
              let '(data, found) := (r : rows * option (spec_float * Preproc)) in
              let ph := match found with Some f => Found f | None => Running end in
              Ok (mkQuery (<[i := mkThread rest data ph]> (threads q)) (anomalies_found q) (output q))
          end
      | Found f => Ok (continue (Loaded (anomalies_found q) f) (anomalies_found q) (output q))
      | Loaded n f => Ok (continue (Stored f) (n + 1) (output q))
      | Stored f => Ok (continue Running (anomalies_found q) (output q ++ [(i, mkAnomaly (anomalies_found q) f.1 f.2)]))
      end
  end.

Fixpoint query_run (schedule : list nat) (q : query) : result query :=
  match schedule with
  | [] => Ok q
  | i :: schedule => q ← thread_step i q; query_run schedule q
  end.

(** ** Lemmas: the order of the doubles *)

Definition is_number (x : spec_float) : bool := match x with S754_nan => false | _ => true end.

(** sign or infinity, exponent and mantissa, ordered as the numbers are *)
Definition key (x : spec_float) : Z * Z * Z :=
  match x with
  | S754_zero _ | S754_nan => (0, 0, 0)
  | S754_infinity s => (if s then -2 else 2, 0, 0)
  | S754_finite false m e => (1, e, Zpos m)
  | S754_finite true m e => (-1, - e, Zneg m)
  end.

Definition key_lt (k k' : Z * Z * Z) : Prop := k.1.1 < k'.1.1 \/ k.1.1 = k'.1.1 /\ (k.1.2 < k'.1.2 \/ k.1.2 = k'.1.2 /\ k.2 < k'.2).

Lemma compare_finite (m m' : positive) (e e' : Z) :
  match Z.compare e e' with Lt => Lt | Gt => Gt | Eq => Pos.compare_cont Eq m m' end = Z.compare e e' /\ e <> e' \/
  e = e' /\ match Z.compare e e' with Lt => Lt | Gt => Gt | Eq => Pos.compare_cont Eq m m' end = Z.compare (Zpos m) (Zpos m').
Proof. destruct (Z.compare_spec e e') as [->| |]; [by right|left; split; [done|lia]..]. Qed.

Lemma compare_cases x y : is_number x = true -> is_number y = true ->
  (SFcompare x y = Some Lt /\ key_lt (key x) (key y)) \/ (SFcompare x y = Some Eq /\ key x = key y) \/ (SFcompare x y = Some Gt /\ key_lt (key y) (key x)).
Proof.
  unfold key_lt. destruct x as [s|s| |s m e], y as [s'|s'| |s' m' e']; try done; intros _ _; cbn [SFcompare key];
    try destruct s; try destruct s'; cbn [fst snd];
    try (left; split; [done|lia]); try (right; left; done); try (right; right; split; [done|lia]).
  - change (Pos.compare_cont Eq m m') with (Pos.compare m m').
    destruct (Z.compare_spec e e') as [->| |]; [destruct (Pos.compare_spec m m') as [->| |]|..]; cbn [CompOpp];
      [right; left; done|right; right|left|right; right|left]; (split; [done|lia]).
  - change (Pos.compare_cont Eq m m') with (Pos.compare m m').
    destruct (Z.compare_spec e e') as [->| |]; [destruct (Pos.compare_spec m m') as [->| |]|..];
      [right; left; done|left|right; right|left|right; right]; (split; [done|lia]).
Qed.

Lemma ltb_spec x y : SFltb x y = true <-> is_number x = true /\ is_number y = true /\ key_lt (key x) (key y).
Proof.
  unfold SFltb. destruct (is_number x) eqn:Hx; [|destruct x; try done; by split; [|intros [? _]]].
  destruct (is_number y) eqn:Hy; [|destruct x, y; try done; by split; [|intros (_ & ? & _)]].
  destruct (compare_cases x y Hx Hy) as [[-> H]|[[-> H]|[-> H]]]; split; try done; unfold key_lt in *; intros (_ & _ & H'); rewrite ?H in H'; lia.
Qed.

Lemma eqb_spec x y : SFeqb x y = true <-> is_number x = true /\ is_number y = true /\ key x = key y.
Proof.
  unfold SFeqb. destruct (is_number x) eqn:Hx; [|destruct x; try done; by split; [|intros [? _]]].
  destruct (is_number y) eqn:Hy; [|destruct x, y; try done; by split; [|intros (_ & ? & _)]].
  destruct (compare_cases x y Hx Hy) as [[-> H]|[[-> H]|[-> H]]]; split; try done; unfold key_lt in *; intros (_ & _ & H'); rewrite H' in H; lia.
Qed.



Lemma eqb_sym x y : SFeqb x y = SFeqb y x.
Proof. apply eq_bool_prop_intro. rewrite !Is_true_true, !eqb_spec. split; intros (? & ? & ?); done. Qed.

(** equal, or equal as numbers *)
Definition same (x y : spec_float) : Prop := x = y \/ SFeqb x y = true.

Lemma same_sym x y : same x y -> same y x.
Proof. intros [->|H]; [by left|right]. by rewrite eqb_sym. Qed.


(** ** The clustering as it should be *)



(** the distinct values, in the order of their first occurrences *)
Definition distinct (values : list spec_float) : list spec_float :=
  fold_left (fun cs v => if existsb (fun c => SFeqb c v) cs then cs else cs ++ [v]) values [].





(** ** Lemmas: the nearest cluster *)







(** ** Lemmas: the iterations *)







Definition add_new (cs : list spec_float) (v : spec_float) : list spec_float := if member v cs then cs else cs ++ [v].

Lemma add_new_prefix rest cs : cs `prefix_of` fold_left add_new rest cs.
Proof.
  revert cs. induction rest as [|v rest IH]; intros cs; [done|]. cbn [fold_left]. etransitivity; [|apply IH].
  unfold add_new. destruct (member v cs); [done|]. by apply prefix_app_r.
Qed.

Lemma first_centres_ok k cs rest : (0 < length cs)%nat -> Z.of_nat (length cs) <= Z.max 1 k ->
  first_centres k cs rest = if decide (k <= Z.of_nat (length (fold_left add_new rest cs)))
    then Ok (take (Z.to_nat (Z.max 1 k)) (fold_left add_new rest cs)) else Err OutOfBounds.
Proof.
  revert cs. induction rest as [|v rest IH]; intros cs Hc Hk; cbn [first_centres].
  - cbn [fold_left]. destruct (Z.ltb_spec (Z.of_nat (length cs)) k); case_decide; try lia; [done|]. by rewrite take_ge by lia.
  - destruct (Z.ltb_spec (Z.of_nat (length cs)) k).
    + cbn [fold_left]. apply IH; unfold add_new; destruct (member v cs); rewrite ?length_app; cbn [length]; lia.
    + destruct (add_new_prefix (v :: rest) cs) as [more ->]. rewrite decide_True by (rewrite length_app; lia).
      by rewrite take_app_le, take_ge by lia.
Qed.


Lemma cluster_sequence_few k values : values <> [] -> Z.of_nat (length (distinct values)) < k -> cluster_sequence k values = Err OutOfBounds.
Proof.
  destruct values as [|v values]; [done|]. intros _ Hk. change (distinct (v :: values)) with (fold_left add_new values [v]) in *.
  unfold cluster_sequence. change (get_at (v :: values) 0) with (Ok v). change (drop 1 (v :: values)) with values. run_step.
  pose proof (prefix_length _ _ (add_new_prefix values [v])) as H1. cbn [length] in H1.
  rewrite (first_centres_ok k [v] values) by (cbn; lia). by rewrite decide_False by lia.
Qed.

(** ** Lemmas: counting in doubles *)









(** ** The chain by counting *)




(** ** Lemmas: the matrix *)

















(** ** The values in the window *)

Definition same_dimension (d d' : spec_float * spec_float) : bool := SFeqb d.1 d'.1 && SFeqb d.2 d'.2.

Definition of_dimension (d : spec_float * spec_float) (e : event) : bool :=
  match dimension (p_metadata e.1) with Ok d' => same_dimension d' d | Err _ => false end.

(** the values of a dimension that have arrived and not left *)
Definition live_step (d : spec_float * spec_float) (vs : list spec_float) (e : event) : list spec_float :=
  if of_dimension d e then (if e.2 : bool then tail vs else vs ++ [p_value e.1]) else vs.
Definition live (d : spec_float * spec_float) (history : list event) : list spec_float := foldl (live_step d) [] history.

Abbreviation dim := (spec_float * spec_float)%type (only parsing).

Definition number_dim (d : dim) : Prop := is_number d.1 = true /\ is_number d.2 = true.


Lemma same_dimension_spec d d' : same_dimension d d' = true <-> SFeqb d.1 d'.1 = true /\ SFeqb d.2 d'.2 = true.
Proof. apply andb_true_iff. Qed.



Lemma same_dimension_refl d : is_number d.1 = true /\ is_number d.2 = true -> same_dimension d d = true.
Proof. intros [H1 H2]. apply same_dimension_spec. by rewrite !eqb_spec. Qed.


Lemma live_snoc d history e : live d (history ++ [e]) = live_step d (live d history) e.
Proof. unfold live. by rewrite foldl_snoc. Qed.


Lemma of_dimension_same (e : event) d d' : dimension (p_metadata e.1) = Ok d -> of_dimension d' e = same_dimension d d'.
Proof. intros Hd. unfold of_dimension. by rewrite Hd. Qed.



(** ** The detection *)




Lemma live_arrival history tp d : dimension (p_metadata tp) = Ok d -> number_dim d -> live d (history ++ [(tp, false)]) = live d history ++ [p_value tp].
Proof. intros Hd Hn. rewrite live_snoc. unfold live_step. by rewrite (of_dimension_same (tp, false) d _ Hd), same_dimension_refl. Qed.




(** ** The threads *)














(** *** Whole schedules *)



(** *** The numbers *)


Definition printed_numbers (q : query) : list Z := (fun a => an_number a.2) <$> output q.









(** ** Preprocessing *)

(** the state keeps the clusters of the dimension it announces *)
Record input_ok (md : gmap string Z) (s : InputState) : Prop := {
  property_cnt_nonneg : 0 <= property_cnt s;
  clusters_known : 0 < hasMetadata s -> md !! metadataIDString s = Some (numberOfClusters s)
}.

(** a tuple that passes the filter comes to one of the partitions, with the
    number of clusters that the metadata give for its dimension *)
Lemma calculateStates_ok md tp s s' out : input_ok md s -> calculateStates md tp s = Ok (s', out) -> input_ok md s' /\
  (passes out = true -> md !! p_metadata out = Some (p_clusters out) /\ forall n, 0 < n -> 0 <= partition_of n out < n).
Proof.
  intros [Hp Hc]. destruct tp as [[testString property] literal]. unfold calculateStates. intros Hr. bind_inv Hr as (s1 & Hs & [= <- <-]).
  unfold passes, partition_of, input_tuple. cbn [p_flag p_metadata p_clusters p_property].
  assert (input_ok md s1 /\ (passTuple s1 <> 0 -> 0 < hasMetadata s1 /\ 0 < property_cnt s1)) as [Hs1 Hf].
  { destruct (contains (chars "Observation_") testString).
    - unfold observation_state in Hs. bind_inv Hs as (obs & _ & Hs). bind_inv Hs as (obs' & _ & Hs). bind_inv Hs as (id & _ & Hs). bind_inv Hs as (id' & _ & Hs).
      injection Hs as <-. destruct (md !! id') as [n|] eqn:Hid; (split; [split|]); cbn; (done || lia).
    - destruct (contains (chars "Value") testString); [|destruct (contains (chars "Timestamp") testString)].
      + unfold value_state in Hs. destruct (Z.gtb_spec (hasMetadata s) 0); [|injection Hs as <-; split; [by split|done]].
        destruct (drop 1 literal); [injection Hs as <-; split; [split; cbn; (done || lia)|done]|].
        bind_inv Hs as (v & _ & Hs). bind_inv Hs as (x & _ & Hs). injection Hs as <-. split; [split; cbn; (done || lia)|]. cbn. lia.
      + unfold timestamp_state in Hs. bind_inv Hs as (t & _ & Hs). bind_inv Hs as (ts & _ & Hs). bind_inv Hs as (name & _ & Hs). bind_inv Hs as (name' & _ & Hs).
        injection Hs as <-. split; [split; cbn; (done || lia)|]. cbn. lia.
      + injection Hs as <-. split; [by split|done]. }
  split; [done|]. rewrite negb_true_iff, Z.eqb_neq. intros Hpass. destruct (Hf Hpass) as [Hm Hpc]. split; [by apply Hs1|].
  intros n Hn. apply Z.rem_bound_pos; lia.
Qed.
End debs.

(** ** Properties *)


(** ** A stream *)

(** the test that a cluster has values is a test of their sum: a cluster of -1
    and 1 keeps its centre -1, although their mean is 0 *)
Lemma zero_sum_keeps_centre : let minus_one := d_sub d_zero d_one in
  new_centre [minus_one; d_one] [0; 0]%nat 0 minus_one = (minus_one, false) /\
  SFeqb (d_div (d_add minus_one d_one) (d_of_int 2)) minus_one = false.
Proof. by vm_compute. Qed.

(** digits only *)
Definition demo_stod (s : list Z) : option spec_float :=
  match s with
  | [] => None
  | _ => if forallb (fun c => (48 <=? c) && (c <=? 57)) s then Some (d_of_int (foldl (fun n c => n * 10 + (c - 48)) 0 s)) else None
  end.

Definition demo_event (machine : string) (t v : Z) (outdated : bool) : Preproc * bool :=
  (mkPreproc 0 1 machine [] t 2 [] (d_of_int v), outdated).

(** the value 9, then 1 sixteen times, then 9, 1, 9, 1, 9: the last five
    transitions have the frequencies 1/6, 1, 1/6, 1, 1/6; the first value leaves *)
Definition demo_events (machine : string) : list (Preproc * bool) :=
  imap (fun i v => demo_event machine (Z.of_nat i) v false) ([9] ++ replicate 16 1 ++ [9; 1; 9; 1; 9]) ++ [demo_event machine 0 9 true].

(** two partitions *)
Definition demo_partitions : list (list (Preproc * bool)) := [demo_events (chars "59_5"); demo_events (chars "60_5")].

Definition numbers_of (r : result query) : list Z := match r with Ok q => printed_numbers q | Err _ => [] end.


(** both threads load the counter before either stores it: two anomalies with
    the same number *)
Lemma numbers_collide :
  numbers_of (query_run demo_stod (replicate 22 0%nat ++ replicate 22 1%nat ++ [0; 1; 0; 1; 0; 1]%nat) (query_start demo_partitions)) = [1; 1].
Proof. by vm_compute. Qed.
